(* ===== verification/_CoqProject ===== *)
-Q . S2P
Prelude.v
Events.v
GoStrings.v
GoError.v
GoBinary.v
VersionInfo.v
VersionTree.v
VersionImage.v
RecText.v
RecCodec.v
RecTotal.v
RecGrammar.v
RecFields.v
RecRecords.v
RecRoundTrip.v
ProofLadder.v
Peer.v
Binding.v
LinuxOS.v
ProcfsLinux.v
IdentityLinux.v
BindLinux.v
LoopbackLinux.v
GoIO.v
GoBufio.v
Frame.v
Session.v
SessionListener.v
GoFilepath.v
PathIdentity.v
MountInfo.v
LocalPath.v
VolumeProbes.v
MountTable.v
Program.v
WindowsOS.v
Authenticode.v
AuthenticodeFacts.v
VerdictCache.v
Sockets.v
ServerConn.v
Pool.v
Client.v
FrameCalls.v
Framed.v
ListenUnix.v
ListenLines.v
Admission.v
UnixFiles.v
PrivateDir.v
ModelScan.v
ModelFolders.v
ModelFoldersTree.v
ModelRoots.v
WindowsSecurity.v
GoFilepathWindows.v
WindowsFiles.v
TrustedPath.v
PrivateDirWindows.v
ModelFoldersWindows.v
ModelFoldersWindowsFacts.v
WindowsPeers.v
Impersonation.v
AccountNames.v
IdentityWindows.v
BindWindows.v
LoopbackWindows.v
ListenWindows.v
DarwinOS.v
CodesignDarwin.v
IdentityDarwin.v
XPC.v
XPCEndpoint.v
NamesWindows.v
PathsWindows.v
SelfWindows.v
SessionDelivery.v
Remote.v
VolumesDarwin.v
OtherPlatforms.v
