(* ===== verification/Prelude.v ===== *)
(** * A verification library for abstraction-identity

    The program is a Go library that tells a local service who is at the other end
    of a connection, how well that is proven, and refuses work to a caller whose
    proof falls short. Package [identity] (the root of src/) captures a peer from
    the kernel, keeps it bound to the connection, and compares it with a policy;
    package [listen] (src/listen/) carries requests over such connections: frames,
    sessions of several exchanges, a client pool, and the check of the server by
    the client; package [remote] (src/remote/) carries the same frames over TLS.

    ** The parts and where they are modelled

    The ground: what Go and its libraries do.
    - [Prelude]: tactics and generic lemmas. [GoStrings]: strings and
      strconv. [GoError]: errors as trees, [errors.Is] and [errors.As], instants.
      [GoIO]: readers, writers, [io.ReadFull], and a connection that follows a
      script. [GoBufio]: [bufio.Scanner] over lines. [GoFilepath]: path/filepath on
      Unix. [GoBinary]: little-endian integers inside a byte slice, addresses and
      unicode/utf16. [GoFilepathWindows]: path/filepath on Windows. [Events]:
      computations that ask and change a system, with the history of their events,
      and the balance of what they take and give back.

    Who is there.
    - [ProofLadder] (proof.go): the ladder from ProofNone to ProofSigned, the
      error that names a shortfall, an attribute with its proof.
    - [Peer] (peer.go, transport.go): the peer, [Need], [Check], ceilings and
      [CanEver].
    - [Binding] (bind.go, server.go, unixserver.go, identity.go): a binding is a
      platform's [binder] behind one shared state, which every view reaches; the
      binder is a record of three operations over a store.
    - [LinuxOS], [ProcfsLinux], [IdentityLinux], [BindLinux] (procfs_linux.go,
      identity_linux.go, bind_linux.go, server_linux.go, unixserver_linux.go): the
      Linux platform. The kernel is a function from instants to the answers it
      gives, and each question is asked at the next instant, so processes may die,
      be replaced or change their image between any two questions.
    - [LoopbackLinux] (loopback.go, loopback_linux.go): the owner of a loopback
      TCP connection.
    - [WindowsPeers], [Impersonation], [AccountNames], [IdentityWindows]
      (identity_windows.go, impersonate_windows.go, internal/integrity,
      account_windows.go, win32_windows.go): the Windows platform. A question has the
      type of its answer, and Windows is any function from questions and the events so
      far to answers. [BindWindows], [LoopbackWindows] (bind_windows.go,
      server_windows.go, unixserver_windows.go, loopback_windows.go,
      sockets_windows.go): its four bindings and the owner tables.
    - [DarwinOS], [IdentityDarwin], [CodesignDarwin] (sysctl_darwin.go,
      identity_darwin.go, bind_darwin.go, codesign_darwin.go with its C function):
      macOS over sockets, with and without cgo. [XPC] (xpc_darwin.go): native XPC
      objects behind their guard, and the peer of a message.
    - [SelfWindows] (self_windows.go, server_admission_windows.go): this process, and
      the access containers are given to it. [OtherPlatforms]: the builds without a
      platform.

    What program it is.
    - [PathIdentity] (pathidentity.go, filekey_unix.go): files compared by
      identity. The file system is the class [FileSystem], with the laws
      [FileSystemOk] that the theorems use.
    - [MountInfo], [LocalPath], [VolumeProbes], [MountTable] (localpath_linux.go,
      localpath_statfs.go): which volumes are local, read from statfs and the mount
      table; the bound on the volumes asked at once; and the cached table.
      [VolumesDarwin] (localpath_darwin.go): the same questions on macOS.
    - [NamesWindows], [PathsWindows] (pathname_windows.go, localpath_windows.go,
      filekey_windows.go, and the path functions of win32_windows.go and program.go):
      file names as Windows compares them, over the class [WindowsNames] with its laws
      [WindowsNamesOk], and what Windows is asked about a path.
    - [Program] (program.go, helper.go): the program a right is about, how two
      names compare, and the elevated helper.
    - [Sockets] (sockets.go): the sockets of a process tree and the parser of the
      operating system's owner tables.
    - [VersionInfo], [VersionTree], [VersionImage] (version_windows.go): the
      version resource of a Windows executable. The first is the parser of the
      resource, the second says what tree of blocks such bytes encode, the third
      finds the resource in the PE file by reads of bounded size.
    - [WindowsOS], [Authenticode], [AuthenticodeFacts] (authenticode_windows.go,
      filecode_windows.go): the signer of an image. As on Linux,
      the system is a function from instants to answers, and a computation of the
      monad [WM] asks one question per instant. [VerdictCache]
      (verdicts_windows.go): the verdicts kept by file, with the goroutines that wait
      for one another's.

    Which folders may be trusted.
    - [UnixFiles], [WindowsFiles], [WindowsSecurity]: files and security descriptors
      as the folder code meets them. The system's answers are a function of the
      history of events, so a system that keeps what is written and one that others
      change are both such functions. [WindowsSecurity] also has the rules on a
      descriptor and, as their measure, the access check Windows documents.
    - [PrivateDir], [PrivateDirWindows] (go/privatedir/privatedir*.go): private
      folders. The package is written once over the class [PrivatePlatform], with an
      instance per platform.
    - [ModelScan], [ModelFolders], [ModelFoldersTree], [ModelRoots],
      [ModelFoldersWindows], [ModelFoldersWindowsFacts]
      (go/privatedir/models*.go): model folders over the class [ModelPlatform]; the
      walk both platforms share, what a run does whatever others do, what it leaves
      on a tree at rest, and which roots are accepted.
    - [TrustedPath] (go/trustedpath): paths only trusted accounts can have written.

    How requests travel.
    - [Frame] (the frames of listen/framed.go, listen/proof_refusal.go): the
      four-byte header, its limit, and the refusal a server sends.
    - [Session] (listen/session.go): one connection that carries several
      exchanges. [SessionListener]: the listener in front of it, its first header
      and its bounds. [SessionDelivery]: what its goroutines make of every connection
      and every session, and the whole of its [Close].
    - [Framed] (the receiving half of listen/framed.go): [ReceiveFramed] over the
      class [FramedConn], with its laws [FramedConnOk], for byte streams and for
      messages, and the watch that runs beside a call. [ListenUnix]
      (listen/listen_unix.go), sessionCall of listen/session.go and the message
      connection of [XPCEndpoint] are its instances.
    - [ListenWindows] (listen/listen_windows.go, listen/framed_windows.go): named
      pipes, their listener and their dialer. [XPCEndpoint]
      (listen/message_endpoint_darwin.go): requests and calls as XPC messages.
    - [ListenLines] (listen/listen.go): the line protocol. [Peer] also has
      listen/message_endpoint.go: the transport an endpoint's name selects and the
      policy checked before it is opened.
    - [ServerConn] (listen/server.go): the client's check of the server around
      every byte. [Pool], [Client] (listen/pool.go): idle connections, and a call
      over a session with its retries. [FrameCalls] (the client half of
      listen/framed.go, listen/options.go, listen/message_endpoint_other.go): the
      calls of a [FrameClient].
    - [Admission] (listen/admission.go): the containers an endpoint admits.
    - [Remote] (remote/tls.go, remote/server.go): the configurations, the dialer and
      the server over TLS.

    How records are written.
    - [RecText], [RecCodec] (the generated
      go/abstraction/identity/api/rec.go): the text of a record, the reader of
      JSON values, and the readers and writers of each record with the fields they
      do not know. [RecTotal]: the reader always ends. [RecGrammar], [RecFields],
      [RecRecords]: the grammar of the texts a reader accepts, and that it accepts
      exactly those. [RecRoundTrip]: what is written is read back.

    ** How stateful and concurrent code is modelled

    State is passed explicitly, and an operation is a function that gives its
    result and the new state. Where goroutines share state under a mutex, a
    critical section is one step and a theorem quantifies over every sequence of
    steps ([Binding], [Pool], [Session], [SessionListener], [SessionDelivery],
    [ListenUnix], [ListenWindows], [Admission], [VolumeProbes], [MountTable],
    [VerdictCache], [AccountNames], [XPC], the watch of [Framed], the loop of
    [Remote]); a method that lets go of the mutex in its middle is split there.
    Code that asks an operating system questions runs in the monad [Hist] of [Events],
    whose answers are a function of the questions and the events so far, or, on Linux
    and for signatures, in a monad that asks one question per instant.
    Where a context lets other goroutines cancel a call, the context carries the
    script of what happens up to each moment the code can notice ([ServerConn],
    [Client], [Framed]). Connections follow a script of chunks and failures, and
    clocks are arbitrary functions, so a theorem about all scripts is a theorem
    about every environment.

    ** What the theorems show

    - The policy: [Check] names every shortfall and nothing else; a ceiling refuses
      a policy exactly when no peer within it could meet it; the Linux ceiling is
      sound for what Linux reports.
    - The evidence: a path at ProofBound comes from the process that the kernel
      tied to the connection; a recycled pid yields nothing; a loopback peer is
      the one holder the scan of [/proc] found, twice; a recheck notices a changed image; descriptors
      are neither leaked nor closed twice; start times parse exactly.
    - The evidence elsewhere: a Windows peer holds the user of the client's own token,
      which the thread that borrowed it gives back before it serves anything else,
      unless the function run with it calls [runtime.Goexit]; a macOS peer's code was checked through the token of that very connection or
      message; every handle, token, reference and native object taken is given back; a
      build without a platform accepts only policies that ask for nothing.
    - The binding: the platform handle is released at most once and never asked
      afterwards, whichever views race.
    - The wire: frames round-trip under any chunking and any partial write; a
      session dispatches what parsing the peer's whole stream yields, all of it unless
      it ended for a cause the code names; a
      finished exchange is complete; the closing marker means nothing was read; a
      remote handler sees only whole frames of callers TLS 1.3 verified against the
      roots given.
    - Receiving and calling: no payload byte is read before the policy is met; no
      byte passes a server the platform does not vouch for; a pooled connection is
      between exchanges and in one place; a request is repeated only when the
      server said it had not read it; a reply and the watch for the caller's departure
      never read at once.
    - Volumes: a path is local exactly when its volume says so in time, a dead
      mount holds at most eight threads, and the mount table is read back, unless
      a mount point's name holds white space the kernel does not escape, by which a
      remote volume can pass for a local one.
    - Records: the reader ends on every text, accepts exactly the grammar, keeps
      the members it does not know, and reads back what the writer wrote.
    - Signers: a version resource is read as the tree its bytes encode, with at
      most twelve reads however the file lies; a publisher is reported only for
      the bytes of the file held open all along, and a cached verdict only for the
      file it was reached on; every goroutine that waits for a verdict gets one.
    - Folders: a private folder, as last seen, admits this account only (and SYSTEM
      on Windows, by Windows' own access check); a model folder is written only when
      everything below it is held and judged, through what is held, and on a tree
      nobody else changes no write bit of others remains when it succeeds, whatever
      calls the kernel refuses meanwhile; a trusted path gives nobody else a right
      that changes it, unless it is a share spelled with slashes, which passes for a
      local path.
    - Windows paths: nothing is opened or read by name before answers that judge the
      path local, no handle stays open, names compare as their keys do, and the test
      for device names loses none. What is granted to containers is put back, where
      nobody changed it since.
    - Names: containment and equality of programs are decided by file identity,
      and the elevated helper and the loopback rule accept exactly what they say.
    - Listeners: one owner per endpoint, no handle of a pipe used after its close, a
      bound on waiting connections, one end for every accepted connection, a [Close]
      that returns and does not wait for a handler, and a proof that [MaxSessions] does not bound the
      sessions held.

    ** Fuel

    Recursion that is not structural has fuel, and the lemmas show it never runs
    out: [ReadFull] has the reads left in the script plus the bytes asked for, and
    every turn uses one or the other; [writeLoop] and [writeAll] have the bytes to
    write, and a turn that writes none returns; [climb], [withinLoop] and [volumeLoop] have the
    length of the path, which each parent shortens; [takeLoop] has one more than
    the entries of the key, and each turn removes one; [Scan] has the room in its
    buffer, which each turn fills or ends. [sessionCall] tries
    [sessionAttempts] times, as the code does. The record reader's loops have one
    more than the bytes left, and each turn consumes one; skipping a value also
    counts its nesting, which the code limits. The version parser's loops over
    children and characters have the bytes between the cursor and the end of the
    block, and the walk over catalogs has the bound 64 of the code. The walk over a
    model folder has one unit per entry and says when it has not ended; a tree's size
    is enough for it. The walks to a volume's root have the length of the path, and on
    Windows the names of a file have as many answers as a file can have names. The
    canonical spelling of a program on Windows climbs one folder a turn, and the number
    of components is enough for a path on a lettered drive.

    ** What is not modelled

    The tools and experiments (cmd/peerid, probe, listen/testdata), which print what
    the library tells them; the native core of XPC (xpc_native_darwin.c), C code whose
    answers are parameters; the declarations and thin wrappers of system calls in
    win32_windows.go and its kind; hooks that only tests set. The systems' own
    interfaces, crypto/tls, the Security framework and WinTrust are parameters that
    may answer anything, with their documented laws as hypotheses where a theorem
    uses one. pathidentity.go is proved over Unix path functions; what Windows puts
    in their place is in [PathsWindows] and [NamesWindows]. Goroutines are scripts
    or step relations of the events the code can notice, not a scheduler. *)

From Stdlib Require Export ZArith Lia Ascii.
From Stdlib Require Export Strings.Byte.
From stdpp Require Export base tactics numbers list strings gmap pretty.

#[global] Open Scope Z_scope.

(** ** Tactics *)

(** Case analysis on the scrutinee of the innermost [match] of the goal. *)
Ltac case_goal :=
  match goal with
  | |- context [match ?x with _ => _ end] =>
      lazymatch x with
      | context [match _ with _ => _ end] => fail
      | _ => let E := fresh "E" in destruct x eqn:E
      end
  end.

(** Case analysis on the scrutinee of the innermost [match] of [H]. *)
Ltac case_hyp H :=
  match type of H with
  | context [match ?x with _ => _ end] =>
      lazymatch x with
      | context [match _ with _ => _ end] => fail
      | _ => let E := fresh "E" in destruct x eqn:E
      end
  end.

(** Turn the boolean tests of the code into the propositions they decide. *)
Ltac to_prop :=
  repeat match goal with
  | H : (_ && _)%bool = true |- _ => apply andb_prop in H; destruct H
  | H : (_ || _)%bool = false |- _ => apply orb_false_elim in H; destruct H
  | H : negb _ = true |- _ => apply negb_true_iff in H
  | H : negb _ = false |- _ => apply negb_false_iff in H
  | H : (_ <=? _) = true |- _ => apply Z.leb_le in H
  | H : (_ <=? _) = false |- _ => apply Z.leb_gt in H
  | H : (_ <? _) = true |- _ => apply Z.ltb_lt in H
  | H : (_ <? _) = false |- _ => apply Z.ltb_ge in H
  | H : (_ =? _) = true |- _ => apply Z.eqb_eq in H
  | H : (_ =? _) = false |- _ => apply Z.eqb_neq in H
  | H : (_ <=? _)%nat = true |- _ => apply Nat.leb_le in H
  | H : (_ <=? _)%nat = false |- _ => apply Nat.leb_gt in H
  | H : (_ <? _)%nat = true |- _ => apply Nat.ltb_lt in H
  | H : (_ <? _)%nat = false |- _ => apply Nat.ltb_ge in H
  | H : (_ =? _)%nat = true |- _ => apply Nat.eqb_eq in H
  | H : (_ =? _)%nat = false |- _ => apply Nat.eqb_neq in H
  | H : String.eqb _ _ = true |- _ => apply String.eqb_eq in H
  | H : String.eqb _ _ = false |- _ => apply String.eqb_neq in H
  end.

(** ** Machine integers *)

(** A [uint32] kept at its width. *)
Definition u32 (x : Z) : Z := x mod 2 ^ 32.

Lemma u32_range x : 0 <= u32 x < 2 ^ 32.
Proof. apply Z.mod_pos_bound. lia. Qed.

Lemma u32_small x : 0 <= x < 2 ^ 32 → u32 x = x.
Proof. apply Z.mod_small. Qed.

(** ** Bytes *)

(** The value of a byte, and the byte a conversion [byte(z)] keeps. *)
Definition bz (b : byte) : Z := Z.of_N (Byte.to_N b).

Definition zb (z : Z) : byte :=
  match Byte.of_N (Z.to_N (z mod 256)) with Some b => b | None => x00 end.

Lemma bz_range b : 0 <= bz b < 256.
Proof. unfold bz. pose proof (Byte.to_N_bounded b). lia. Qed.

Lemma bz_zb z : bz (zb z) = z mod 256.
Proof.
  unfold bz, zb. pose proof (Z.mod_pos_bound z 256 ltac:(lia)).
  destruct (Byte.of_N _) as [b|] eqn:E.
  - apply Byte.to_of_N in E. rewrite E. lia.
  - apply Byte.of_N_None_iff in E. lia.
Qed.

Lemma zb_bz b : zb (bz b) = b.
Proof.
  unfold bz, zb. pose proof (Byte.to_N_bounded b).
  rewrite Z.mod_small by lia. by rewrite N2Z.id, Byte.of_to_N.
Qed.

Lemma bz_inj b1 b2 : bz b1 = bz b2 → b1 = b2.
Proof. intros H. by rewrite <- (zb_bz b1), <- (zb_bz b2), H. Qed.

#[global] Instance byte_eq_dec : EqDecision byte.
Proof. intros x y. destruct (Byte.byte_eq_dec x y); [left|right]; done. Defined.

#[global] Program Instance byte_countable : Countable byte :=
  inj_countable Byte.to_N Byte.of_N _.
Next Obligation. apply Byte.of_to_N. Qed.

(** [binary.BigEndian.PutUint32] and [binary.BigEndian.Uint32]. The decoder is
    total; the code only ever applies it to four bytes. *)
Definition be32_put (v : Z) : list byte :=
  [zb (Z.shiftr v 24); zb (Z.shiftr v 16); zb (Z.shiftr v 8); zb v].

Definition be32_get (b : list byte) : Z :=
  match b with
  | [b0; b1; b2; b3] => bz b0 * 2 ^ 24 + bz b1 * 2 ^ 16 + bz b2 * 2 ^ 8 + bz b3
  | _ => 0
  end.

Lemma be32_put_length v : length (be32_put v) = 4%nat.
Proof. done. Qed.

Lemma be32_get_range b : 0 <= be32_get b < 2 ^ 32.
Proof.
  unfold be32_get. destruct b as [|b0 [|b1 [|b2 [|b3 [|b4 b]]]]]; try lia.
  pose proof (bz_range b0). pose proof (bz_range b1).
  pose proof (bz_range b2). pose proof (bz_range b3). lia.
Qed.

Lemma be32_get_put v : 0 <= v < 2 ^ 32 → be32_get (be32_put v) = v.
Proof.
  intros Hv. unfold be32_get, be32_put.
  rewrite !bz_zb, !Z.shiftr_div_pow2 by lia.
  change (2 ^ 24) with (256 * 256 * 256). change (2 ^ 16) with (256 * 256).
  change (2 ^ 8) with 256. Z.to_euclidean_division_equations. lia.
Qed.

Lemma be32_put_get b : length b = 4%nat → be32_put (be32_get b) = b.
Proof.
  intros Hl. destruct b as [|b0 [|b1 [|b2 [|b3 [|b4 b]]]]]; try done.
  pose proof (bz_range b0). pose proof (bz_range b1).
  pose proof (bz_range b2). pose proof (bz_range b3).
  unfold be32_get, be32_put.
  repeat f_equal; apply bz_inj; rewrite bz_zb, ?Z.shiftr_div_pow2 by lia;
    change (2 ^ 24) with (256 * 256 * 256); change (2 ^ 16) with (256 * 256);
    change (2 ^ 8) with 256; Z.to_euclidean_division_equations; lia.
Qed.
