(* ===== verification/Events.v ===== *)
(** Computations that ask a system questions and change it, with their history.

    What the system answers may depend on everything asked and done before, so a
    file that was made is found and a mode that was written is read back, and it may
    also depend on nothing of the kind, when others change the same files. A
    computation therefore runs on the history of its own events and extends it, and
    the system is a function from histories to answers. *)

From S2P Require Import Prelude.

Definition Hist (E A : Type) : Type := list E → A * list E.

#[global] Instance Hist_ret E : MRet (Hist E) := λ A a h, (a, h).
#[global] Instance Hist_bind E : MBind (Hist E) := λ A B k m h, let '(a, h') := m h in k a h'.

(** A question answered by [f], or a change whose outcome is [f]; the event keeps
    the answer. *)
Definition act {E A} (f : list E → A) (ev : A → E) : Hist E A := λ h, (f h, h ++ [ev (f h)]).

(** ** What a computation gives, with the events it adds *)

Section Traces.
Context {E : Type}.

(** Started with the history [h], the computation adds events [new] and [Q] holds of
    what it gives and of [new]. *)
Definition adds {A} (m : Hist E A) (Q : A → list E → Prop) (h : list E) : Prop :=
  ∃ new, (m h).2 = h ++ new /\ Q (m h).1 new.

Lemma adds_ret {A} (a : A) (Q : A → list E → Prop) h : Q a [] → adds (mret a) Q h.
Proof. intros HQ. exists []. by rewrite app_nil_r. Qed.

Lemma adds_act {A} (f : list E → A) ev (Q : A → list E → Prop) h : Q (f h) [ev (f h)] → adds (act f ev) Q h.
Proof. intros HQ. by exists [ev (f h)]. Qed.

Lemma adds_bind {A B} (m : Hist E A) (k : A → Hist E B) (Q : B → list E → Prop) h :
  adds m (λ a new, adds (k a) (λ b new', Q b (new ++ new')) (h ++ new)) h → adds (m ≫= k) Q h.
Proof.
  intros (new & Hm & new' & Hk & HQ). exists (new ++ new'). unfold mbind, Hist_bind.
  destruct (m h) as [a h1]. cbn in *. subst h1. by rewrite app_assoc.
Qed.

Lemma adds_mono {A} (m : Hist E A) (Q R : A → list E → Prop) h :
  (∀ a new, Q a new → R a new) → adds m Q h → adds m R h.
Proof. intros HQR (new & Hm & HQ). exists new. auto. Qed.

Lemma adds_and {A} (m : Hist E A) (Q R : A → list E → Prop) h :
  adds m Q h → adds m R h → adds m (λ a new, Q a new /\ R a new) h.
Proof.
  intros (new & Hm & HQ) (new' & Hm' & HR). rewrite Hm in Hm'. apply app_inv_head in Hm' as <-. by exists new.
Qed.

(** The events added, read off the two histories. *)
Lemma adds_inv {A} (m : Hist E A) (Q : A → list E → Prop) h a new :
  adds m Q h → m h = (a, h ++ new) → Q a new.
Proof. intros (new' & Hm & HQ) Hrun. rewrite Hrun in *. cbn in *. by apply app_inv_head in Hm as <-. Qed.

(** [m] adds only events that satisfy [P]. *)
Definition only (P : E → Prop) {A} (m : Hist E A) : Prop := ∀ h, adds m (λ _ new, Forall P new) h.

Lemma only_ret (P : E → Prop) {A} (a : A) : only P (mret a).
Proof. intros h. by apply adds_ret. Qed.

Lemma only_act (P : E → Prop) {A} (f : list E → A) ev : (∀ a, P (ev a)) → only P (act f ev).
Proof. intros HP h. apply adds_act. by repeat constructor. Qed.

(** The same of answers the system gives. *)
Lemma only_answers (P : E → Prop) {A} (f : list E → A) ev : (∀ h, P (ev (f h))) → only P (act f ev).
Proof. intros HP h. apply adds_act. by repeat constructor. Qed.

Lemma only_bind (P : E → Prop) {A B} (m : Hist E A) (k : A → Hist E B) :
  only P m → (∀ a, only P (k a)) → only P (m ≫= k).
Proof.
  intros Hm Hk h. apply adds_bind. eapply adds_mono; [|apply Hm]. intros a new Hnew.
  eapply adds_mono; [|apply Hk]. intros b new' Hnew'. by apply Forall_app.
Qed.

(** [Q] holds of what [m] gives, whatever was asked before. *)
Definition gives {A} (m : Hist E A) (Q : A → Prop) : Prop := ∀ h, Q (m h).1.

Lemma gives_ret {A} (a : A) (Q : A → Prop) : Q a → gives (mret a) Q.
Proof. by intros HQ h. Qed.

Lemma gives_any {A} (m : Hist E A) : gives m (λ _, True).
Proof. done. Qed.

Lemma adds_gives {A} (m : Hist E A) (P : A → Prop) (Q : A → list E → Prop) h :
  gives m P → adds m Q h → adds m (λ a new, P a /\ Q a new) h.
Proof. intros HP (new & Hm & HQ). exists new. split_and!; [done|apply HP|done]. Qed.

Lemma gives_bind {A B} (m : Hist E A) (k : A → Hist E B) (P : A → Prop) (Q : B → Prop) :
  gives m P → (∀ a, P a → gives (k a) Q) → gives (m ≫= k) Q.
Proof. intros Hm Hk h. unfold mbind, Hist_bind. specialize (Hm h). destruct (m h) as [a h']. by apply Hk. Qed.
End Traces.

(** ** What a run takes and gives back *)

(** [taken] and [given] name the resources an event takes and gives back; a run that is
    [balanced kept] gives back everything it takes except [kept]. *)
Section Resources.
Context {E R : Type} (taken given : E → list R).

Definition balanced (kept : list R) (new : list E) : Prop := new ≫= taken ≡ₚ kept ++ (new ≫= given).

Lemma balanced_app k k' a b : balanced k a → balanced k' b → balanced (k ++ k') (a ++ b).
Proof. unfold balanced. intros H1 H2. rewrite !bind_app, H1, H2. solve_Permutation. Qed.

Lemma balanced_idle new : Forall (λ e, taken e = [] /\ given e = []) new → balanced [] new.
Proof. unfold balanced. induction 1 as [|e new [Ho Hc] _ IH]; [done|]. cbn. rewrite Ho, Hc. exact IH. Qed.

Lemma balanced_then a b k : balanced k a → balanced [] b → balanced k (a ++ b).
Proof. intros. rewrite <- (app_nil_r k). by apply balanced_app. Qed.

Lemma then_balanced a b k : balanced [] a → balanced k b → balanced k (a ++ b).
Proof. apply (balanced_app []). Qed.

(** What was kept is given back. *)
Lemma balanced_back x k new c : balanced (x :: k) new → given c = [x] → taken c = [] → balanced k (new ++ [c]).
Proof. unfold balanced. intros H Hc Ho. rewrite !bind_app, H. cbn. rewrite Hc, Ho. cbn. rewrite !app_nil_r. solve_Permutation. Qed.

(** Something is taken. *)
Lemma balanced_take x k new c : balanced k new → taken c = [x] → given c = [] → balanced (x :: k) (new ++ [c]).
Proof. unfold balanced. intros H Hc Ho. rewrite !bind_app, H. cbn. rewrite Hc, Ho. cbn. rewrite !app_nil_r. solve_Permutation. Qed.

#[global] Instance balanced_proper : Proper ((≡ₚ) ==> (=) ==> iff) balanced.
Proof. intros k k' Hk a ? <-. unfold balanced. by rewrite Hk. Qed.
End Resources.

(** Take a computation apart into its events. *)
Ltac adds_step :=
  lazymatch goal with
  | |- adds (mret _) _ _ => apply adds_ret
  | |- adds (act _ _) _ _ => apply adds_act
  | |- adds (_ ≫= _) _ _ => apply adds_bind
  end.

(** Every event of a run made of known pieces. *)
Ltac all_events :=
  repeat first [apply Forall_app; split | apply Forall_cons; split | apply Forall_nil_2 | assumption | done | by split].

(** Take a computation made of [act] apart, when its events are judged by what is asked. *)
Ltac only_acts :=
  repeat (cbv zeta; lazymatch goal with
    | |- only _ (_ ≫= _) => apply only_bind; [|intros ?]
    | |- only _ (mret _) => apply only_ret
    | |- only _ (act _ _) => apply only_act; cbn; auto
    | |- only _ (match ?x with _ => _ end) => destruct x
    end).

Create HintDb events.
#[export] Hint Resolve only_ret only_act only_bind : events.
