(* ===== verification/GoStrings.v ===== *)
(** The functions of Go's [strings] and [strconv] packages the identity code
    calls, over byte strings: a Go string is a sequence of bytes, which is what
    Rocq's [string] is. *)

From S2P Require Import Prelude.

#[global] Open Scope string_scope.
#[global] Open Scope list_scope.
#[global] Open Scope Z_scope.

Abbreviation code := Ascii.nat_of_ascii.

Definition newline : ascii := "010"%char.
Definition quote_char : ascii := "034"%char.
Definition nul : ascii := "000"%char.

(** A single byte as a string. *)
Definition of_char (c : ascii) : string := String c "".

Definition slen (s : string) : Z := Z.of_nat (String.length s).

(** ** Prefixes and suffixes *)

Fixpoint CutPrefix (s p : string) : option string :=
  match p, s with
  | "", _ => Some s
  | String a p', String b s' => if Ascii.eqb a b then CutPrefix s' p' else None
  | String _ _, "" => None
  end.

Definition HasPrefix (s p : string) : bool :=
  match CutPrefix s p with Some _ => true | None => false end.

Definition TrimPrefix (s p : string) : string := default s (CutPrefix s p).

Fixpoint srev_app (s acc : string) : string :=
  match s with "" => acc | String c s' => srev_app s' (String c acc) end.

Definition srev (s : string) : string := srev_app s "".

Definition CutSuffix (s p : string) : option string :=
  option_map srev (CutPrefix (srev s) (srev p)).

Definition TrimSuffix (s p : string) : string := default s (CutSuffix s p).

(** ** Searching *)

Fixpoint contains_char (f : ascii → bool) (s : string) : bool :=
  match s with "" => false | String c s' => f c || contains_char f s' end.

Definition mem_char (set : string) (c : ascii) : bool := contains_char (Ascii.eqb c) set.

(** [strings.ContainsAny(s, chars)] for ASCII [chars]. *)
Definition ContainsAny (s chars : string) : bool := contains_char (mem_char chars) s.

(** [strings.Index], as what follows the first occurrence of [p]. *)
Fixpoint after_first (s p : string) : option string :=
  match CutPrefix s p with
  | Some r => Some r
  | None => match s with "" => None | String _ s' => after_first s' p end
  end.

Definition Contains (s p : string) : bool :=
  match after_first s p with Some _ => true | None => false end.

(** [strings.Cut] at a one-byte separator. *)
Fixpoint Cut (s : string) (sep : ascii) : option (string * string) :=
  match s with
  | "" => None
  | String c s' =>
      if Ascii.eqb c sep then Some ("", s')
      else match Cut s' sep with Some (l, r) => Some (String c l, r) | None => None end
  end.

(** What follows the last occurrence of [c]: [s[strings.LastIndexByte(s, c)+1:]]. *)
Fixpoint after_last (s : string) (c : ascii) : option string :=
  match s with
  | "" => None
  | String a s' =>
      match after_last s' c with
      | Some r => Some r
      | None => if Ascii.eqb a c then Some s' else None
      end
  end.

(** The bytes before the first byte satisfying [f] (all of them when none does). *)
Fixpoint take_until (f : ascii → bool) (s : string) : string :=
  match s with
  | "" => ""
  | String c s' => if f c then "" else String c (take_until f s')
  end.

(** ** Splitting and joining *)

(** [strings.Split] at a one-byte separator: never empty. *)
Fixpoint Split (s : string) (sep : ascii) : list string :=
  match s with
  | "" => [""]
  | String c s' =>
      if Ascii.eqb c sep then "" :: Split s' sep
      else match Split s' sep with
           | w :: ws => String c w :: ws
           | [] => [of_char c]
           end
  end.

Fixpoint Join (l : list string) (sep : string) : string :=
  match l with
  | [] => ""
  | [w] => w
  | w :: ws => w +:+ sep +:+ Join ws sep
  end.

(** [strings.FieldsFunc] for a predicate on single bytes: the maximal runs of
    bytes the predicate rejects. *)
Fixpoint fields_acc (f : ascii → bool) (s cur : string) : list string :=
  match s with
  | "" => match cur with "" => [] | _ => [srev cur] end
  | String c s' =>
      if f c
      then match cur with "" => fields_acc f s' "" | _ => srev cur :: fields_acc f s' "" end
      else fields_acc f s' (String c cur)
  end.

Definition FieldsFunc (s : string) (f : ascii → bool) : list string := fields_acc f s "".

(** ** White space *)

(** The length in bytes of the Unicode white-space rune [s] begins with, zero
    when it begins with none. Every such rune beyond ASCII starts with a UTF-8
    leading byte, so scanning byte by byte finds exactly the runes Go finds. *)
Definition space_len (s : string) : nat :=
  match s with
  | "" => 0
  | String a r =>
      let n := code a in
      if (Nat.leb 9 n && Nat.leb n 13) || Nat.eqb n 32 then 1
      else match r with
      | "" => 0
      | String b r' =>
          let m := code b in
          if Nat.eqb n 194 && (Nat.eqb m 133 || Nat.eqb m 160) then 2
          else match r' with
          | "" => 0
          | String c _ =>
              let k := code c in
              if (Nat.eqb n 225 && Nat.eqb m 154 && Nat.eqb k 128)
                 || (Nat.eqb n 226 && Nat.eqb m 128 && Nat.leb 128 k && Nat.leb k 138)
                 || (Nat.eqb n 226 && Nat.eqb m 128
                     && (Nat.eqb k 168 || Nat.eqb k 169 || Nat.eqb k 175))
                 || (Nat.eqb n 226 && Nat.eqb m 129 && Nat.eqb k 159)
                 || (Nat.eqb n 227 && Nat.eqb m 128 && Nat.eqb k 128)
              then 3 else 0
          end
      end
  end%nat.

Fixpoint sdrop (n : nat) (s : string) : string :=
  match n, s with
  | S n', String _ s' => sdrop n' s'
  | _, _ => s
  end.

Fixpoint stake (n : nat) (s : string) : string :=
  match n, s with
  | S n', String c s' => String c (stake n' s')
  | _, _ => ""
  end.

(** [skip] counts the bytes of a white-space rune still to be passed over. *)
Fixpoint white_fields (s cur : string) (skip : nat) : list string :=
  match s with
  | "" => match cur with "" => [] | _ => [srev cur] end
  | String c s' =>
      match skip with
      | S k => white_fields s' cur k
      | O =>
          match space_len s with
          | O => white_fields s' (String c cur) O
          | S k => match cur with
                   | "" => white_fields s' "" k
                   | _ => srev cur :: white_fields s' "" k
                   end
          end
      end
  end.

(** [strings.Fields]. *)
Definition Fields (s : string) : list string := white_fields s "" 0.

Fixpoint trim_left (s : string) (skip : nat) : string :=
  match s with
  | "" => ""
  | String _ s' =>
      match skip with
      | S k => trim_left s' k
      | O => match space_len s with O => s | S k => trim_left s' k end
      end
  end.

Fixpoint only_space (s : string) (skip : nat) : bool :=
  match s with
  | "" => true
  | String _ s' =>
      match skip with
      | S k => only_space s' k
      | O => match space_len s with O => false | S k => only_space s' k end
      end
  end.

Fixpoint trim_right (s : string) : string :=
  if only_space s 0 then ""
  else match s with "" => "" | String c s' => String c (trim_right s') end.

(** [strings.TrimSpace]. *)
Definition TrimSpace (s : string) : string := trim_right (trim_left s 0).

(** [strings.TrimLeft] and [strings.TrimRight] with a set of ASCII bytes. *)
Fixpoint TrimLeft (s cutset : string) : string :=
  match s with
  | "" => ""
  | String c s' => if mem_char cutset c then TrimLeft s' cutset else s
  end.

Definition TrimRight (s cutset : string) : string := srev (TrimLeft (srev s) cutset).

(** ** Numbers *)

(** The value of a digit in a base up to sixteen. *)
Definition digit_of (c : ascii) : option Z :=
  let n := Z.of_nat (code c) in
  if (48 <=? n) && (n <=? 57) then Some (n - 48)
  else if (97 <=? n) && (n <=? 102) then Some (n - 87)
  else if (65 <=? n) && (n <=? 70) then Some (n - 55)
  else None.

Fixpoint digits_value (s : string) (base acc : Z) : option Z :=
  match s with
  | "" => Some acc
  | String c s' =>
      match digit_of c with
      | Some d => if d <? base then digits_value s' base (acc * base + d) else None
      | None => None
      end
  end.

(** [strconv.ParseUint(s, base, bits)]; every error is [None]. *)
Definition ParseUint (s : string) (base bits : Z) : option Z :=
  match s with
  | "" => None
  | _ => match digits_value s base 0 with
         | Some v => if v <? 2 ^ bits then Some v else None
         | None => None
         end
  end.

(** [strconv.ParseInt(s, 10, 64)], and [strconv.Atoi] where an [int] has 64 bits. *)
Definition ParseInt (s : string) : option Z :=
  let '(neg, r) :=
    match s with
    | String c r => if Ascii.eqb c "-" then (true, r)
                    else if Ascii.eqb c "+" then (false, r) else (false, s)
    | "" => (false, "")
    end in
  match r with
  | "" => None
  | _ => match digits_value r 10 0 with
         | Some v => if neg then if v <=? 2 ^ 63 then Some (- v) else None
                     else if v <? 2 ^ 63 then Some v else None
         | None => None
         end
  end.

(** [strconv.Itoa] and [strconv.FormatInt(n, 10)]. *)
Definition itoa (n : Z) : string := pretty n.

(** The [%q] rendering of a string with no byte to escape. *)
Definition quoted (s : string) : string := of_char quote_char +:+ s +:+ of_char quote_char.

(** ** Lemmas *)

Lemma str_app_assoc (a b c : string) : (a +:+ b) +:+ c = a +:+ b +:+ c.
Proof. induction a as [|x a IH]; [done|]. change (String x ((a +:+ b) +:+ c) = String x (a +:+ b +:+ c)). by rewrite IH. Qed.

Lemma slength_app (a b : string) : String.length (a +:+ b) = (String.length a + String.length b)%nat.
Proof.
  induction a as [|x a IH]; [done|]. change (String x a +:+ b) with (String x (a +:+ b)). cbn. by rewrite IH.
Qed.

Lemma contains_app f (a b : string) : contains_char f (a +:+ b) = contains_char f a || contains_char f b.
Proof.
  induction a as [|c a IH]; [done|]. change (String c a +:+ b) with (String c (a +:+ b)). cbn. rewrite IH.
  by destruct (f c).
Qed.

Lemma CutPrefix_app (p s : string) : CutPrefix (p +:+ s) p = Some s.
Proof. induction p as [|c p IH]; [by destruct s|]. change (String c p +:+ s) with (String c (p +:+ s)). cbn. by rewrite Ascii.eqb_refl. Qed.
