(* ===== verification/GoError.v ===== *)
(** Go's error values and instants.

    An [error] is a value: a package variable ([Sentinel]), an operating-system
    error number ([OSErr]), an error made on the spot ([Plain]), one that wraps
    others ([Wrap], [Join]), or one of the typed errors of this repository.
    [errors_is] and [errors_as_proof] walk the tree as [errors.Is] and
    [errors.As] do: the node itself, its [Is] method, then what it wraps, depth
    first. The wording of a message is kept where the code compares or sends it
    and shortened elsewhere. *)

From S2P Require Import Prelude GoStrings.

(** The error variables the code declares, and those it uses of the standard
    library ([io], [net], [context], [os]). *)
Inductive sentinel :=
| ErrNotProven | ErrRemotePeer | ErrNotServerEnd | ErrUnsupportedConn
| ErrMustReadFirst | ErrImpersonationStuck | ErrUnimplemented
| ErrNoBinding | ErrPeerGone | ErrPeerPending | ErrPeerMoved
| ErrNotLocalPath | ErrNotHelper | ErrBeyondLoopback
| ErrFrameTooLarge | ErrUnexpectedResponse | ErrFrameDeadline
| ErrSessionProtocol | errSessionExpired | ErrServerUntrusted
| ErrCallerProofUnmet | ErrProofRefusalProtocol | errNoSession
| ErrNoFrame | ErrTaken | errMessageLifetime
| errNoVersion | errUnreadable | ErrNotLocalFile
| ErrNotPrivate | ErrNotModelFolder | ErrUntrusted | ErrTrust | errAnonymousClient
| NetErrClosed | IoEOF | IoErrUnexpectedEOF | IoErrShortWrite | IoErrNoProgress
| IoErrClosedPipe | CtxCanceled | CtxDeadlineExceeded | OsErrDeadlineExceeded
| FsErrNotExist | FsErrExist.

#[global] Instance sentinel_eq_dec : EqDecision sentinel.
Proof. solve_decision. Defined.

(** Operating-system error numbers, those the code tells apart by name. *)
Inductive errno :=
| ENOENT | ENOTDIR | EEXIST | ELOOP | EPIPE | ECONNRESET | EWOULDBLOCK | ERROR_BROKEN_PIPE
| ERROR_NO_DATA | ERROR_PIPE_NOT_CONNECTED | EOTHER (n : Z).

#[global] Instance errno_eq_dec : EqDecision errno.
Proof. solve_decision. Defined.

Inductive err :=
| Sentinel (s : sentinel)
| OSErr (n : errno)
| Plain (msg : string)
| Wrap (msg : string) (causes : list err)
| Join_ (causes : list err)
| ProofErr (attribute : string) (want got : Z) (why : string)
| RefusalErr (attribute : string) (required : Z)
| NotLocalErr (path reason : string)
| XPCRefusalErr (attribute required : Z).

(** [errors.Join] of non-nil errors: nil when there is none. *)
Definition errors_join (es : list err) : option err :=
  match es with [] => None | _ => Some (Join_ es) end.

(** What the node itself answers: it is the target, or its [Is] method says so.
    [ErrPeerPending] was made with a percent-w of [ErrPeerGone]. *)
Definition node_is (e : err) (t : sentinel) : bool :=
  match e with
  | Sentinel ErrPeerPending => bool_decide (t = ErrPeerPending) || bool_decide (t = ErrPeerGone)
  | Sentinel s => bool_decide (s = t)
  | OSErr ENOENT => bool_decide (t = FsErrNotExist)
  | OSErr EEXIST => bool_decide (t = FsErrExist)
  | ProofErr _ _ _ _ => bool_decide (t = ErrNotProven)
  | RefusalErr _ _ => bool_decide (t = ErrCallerProofUnmet) || bool_decide (t = ErrNotProven)
  | NotLocalErr _ _ => bool_decide (t = ErrNotLocalPath)
  | XPCRefusalErr _ _ => bool_decide (t = ErrNotProven)
  | _ => false
  end.

(** [errors.Is]. *)
Fixpoint errors_is (e : err) (t : sentinel) : bool :=
  node_is e t ||
  match e with
  | Wrap _ cs | Join_ cs => existsb (λ c, errors_is c t) cs
  | _ => false
  end.

(** [errors.Is] with a system error number as its target. *)
Fixpoint errors_is_errno (e : err) (t : errno) : bool :=
  match e with
  | OSErr n => bool_decide (n = t)
  | Wrap _ cs | Join_ cs => existsb (λ c, errors_is_errno c t) cs
  | _ => false
  end.

(** [errors.As] with a [*ProofError] target: the first one, depth first. *)
Fixpoint errors_as_proof (e : err) : option (string * Z * Z * string) :=
  match e with
  | ProofErr a w g y => Some (a, w, g, y)
  | Wrap _ cs | Join_ cs =>
      (fix first (l : list err) :=
         match l with
         | [] => None
         | c :: l' => match errors_as_proof c with Some x => Some x | None => first l' end
         end) cs
  | _ => None
  end.

(** [os.IsTimeout]: the error's own [Timeout] method, with no unwrapping. *)
Definition is_timeout (e : err) : bool :=
  match e with
  | Sentinel CtxDeadlineExceeded | Sentinel OsErrDeadlineExceeded => true
  | OSErr EWOULDBLOCK => true
  | _ => false
  end.

(** A function's [(value, error)] result where the value is nil on an error. *)
Inductive result (A : Type) :=
| Ok (a : A)
| Err (e : err).
Arguments Ok {A} _.
Arguments Err {A} _.

Definition is_ok {A} (r : result A) : bool := match r with Ok _ => true | Err _ => false end.

Definition err_of {A} (r : result A) : option err :=
  match r with Ok _ => None | Err e => Some e end.

Declare Scope go_scope.

Notation "'let*!' x ':=' r 'in' k" :=
  (match r with Ok x => k | Err e => Err e end)
  (at level 10, x name, r at level 100, k at level 200) : go_scope.

#[global] Open Scope go_scope.

(** A joined error matches a target exactly when a part of it does. *)
Lemma errors_is_join es t :
  errors_is (Join_ es) t = existsb (λ c, errors_is c t) es.
Proof. done. Qed.

Lemma errors_is_wrap m es t :
  errors_is (Wrap m es) t = existsb (λ c, errors_is c t) es.
Proof. done. Qed.

(** ** Instants *)

(** A [time.Time] is an instant in nanoseconds of the Unix epoch, and a
    [time.Duration] a count of nanoseconds. The zero [Time] is the first of
    January of year one. *)
Abbreviation Time := Z (only parsing).
Abbreviation Duration := Z (only parsing).

Definition zeroTime : Time := -62135596800 * 1000000000.

Definition IsZero (t : Time) : bool := t =? zeroTime.
Definition Before (t u : Time) : bool := t <? u.
Definition After (t u : Time) : bool := u <? t.
Definition TimeAdd (t : Time) (d : Duration) : Time := t + d.

(** [Time.Sub] saturates at the ends of a 64-bit duration. *)
Definition TimeSub (t u : Time) : Duration :=
  Z.max (- 2 ^ 63) (Z.min (2 ^ 63 - 1) (t - u)).

Definition millisecond : Duration := 1000000.
Definition second : Duration := 1000 * millisecond.
Definition minute : Duration := 60 * second.

(** Comparing a difference with a duration below the saturation bound compares
    the instants themselves. *)
Lemma TimeSub_lt t u d : - 2 ^ 63 < d <= 2 ^ 63 - 1 → (TimeSub t u < d <-> t < u + d).
Proof. unfold TimeSub. lia. Qed.

Lemma TimeSub_ge t u d : - 2 ^ 63 < d <= 2 ^ 63 - 1 → (d <= TimeSub t u <-> u + d <= t).
Proof. unfold TimeSub. lia. Qed.
