(* ===== verification/GoBinary.v ===== *)
(** Slices of bytes and the little-endian words of [encoding/binary], with the panics
    of an index out of range as [None]. *)

From S2P Require Import Prelude GoStrings GoError.



(** A Go slice expression; [None] is its panic. *)
Definition slice {A} (l : list A) (lo hi : nat) : option (list A) :=
  if (lo <=? hi)%nat && (hi <=? length l)%nat then Some (take (hi - lo) (drop lo l)) else None.

(** [binary.LittleEndian.Uint32]; [None] is its panic on a short slice. *)
Definition le32 (b : list byte) : option Z :=
  match b with
  | b0 :: b1 :: b2 :: b3 :: _ => Some (be32_get [b3; b2; b1; b0])
  | _ => None
  end.

(** [binary.LittleEndian.Uint16]. *)
Definition le16 (b : list byte) : option Z :=
  match b with
  | b0 :: b1 :: _ => Some (bz b0 + 2 ^ 8 * bz b1)
  | _ => None
  end.

(** Both of a slice from [at_] on, [b[at_:]]. *)
Definition u16at (b : list byte) (at_ : nat) : option Z := tl ← slice b at_ (length b); le16 tl.

Definition u32at (b : list byte) (at_ : nat) : option Z := tl ← slice b at_ (length b); le32 tl.

(** [binary.LittleEndian.PutUint32] and [PutUint16]. *)
Definition le32_put (v : Z) : list byte := rev (be32_put v).

Definition le16_put (v : Z) : list byte := [zb v; zb (Z.shiftr v 8)].

Lemma le32_put_get v tail : 0 <= v < 2 ^ 32 → le32 (le32_put v ++ tail) = Some v.
Proof. intros Hv. change (le32 (le32_put v ++ tail)) with (Some (be32_get (be32_put v))). by rewrite be32_get_put. Qed.

Lemma le16_put_get v tail : 0 <= v < 2 ^ 16 → le16 (le16_put v ++ tail) = Some v.
Proof.
  intros Hv. cbn -[bz zb Z.shiftr Z.pow]. rewrite !bz_zb, Z.shiftr_div_pow2 by lia. change (2 ^ 8) with 256. change (2 ^ 16) with (256 * 256) in Hv.
  f_equal. Z.to_euclidean_division_equations. lia.
Qed.

Lemma le16_range b v : le16 b = Some v → 0 <= v < 2 ^ 16.
Proof.
  destruct b as [|b0 [|b1 b]]; try done. cbn -[bz]. intros [= <-]. pose proof (bz_range b0). pose proof (bz_range b1). lia.
Qed.

Lemma le32_range b v : le32 b = Some v → 0 <= v < 2 ^ 32.
Proof. destruct b as [|b0 [|b1 [|b2 [|b3 b]]]]; try done. intros [= <-]. apply (be32_get_range [b3; b2; b1; b0]). Qed.

Lemma slice_app {A} (pre x post : list A) lo : length pre = lo → slice (pre ++ x ++ post) lo (lo + length x) = Some x.
Proof.
  intros <-. unfold slice. rewrite !length_app, (proj2 (Nat.leb_le _ _)), (proj2 (Nat.leb_le _ _)) by lia. cbn [andb].
  by rewrite drop_app_length, Nat.add_comm, Nat.add_sub, take_app_length.
Qed.

Lemma slice_length {A} (l x : list A) lo hi : slice l lo hi = Some x → length x = (hi - lo)%nat.
Proof.
  unfold slice. case_goal; [|done]. intros [= <-]. apply andb_prop in E as [E1%Nat.leb_le E2%Nat.leb_le].
  rewrite length_take, length_drop. lia.
Qed.

Lemma slice_in_range {A} (l : list A) lo hi : (lo <= hi)%nat → (hi <= length l)%nat → slice l lo hi = Some (take (hi - lo) (drop lo l)).
Proof. intros H1 H2. unfold slice. rewrite !(proj2 (Nat.leb_le _ _)) by lia. done. Qed.

Lemma u16at_total b at_ : (at_ + 2 <= length b)%nat → ∃ v, u16at b at_ = Some v /\ 0 <= v < 2 ^ 16.
Proof.
  intros Hl. unfold u16at. rewrite slice_in_range by lia. cbn. rewrite take_ge by (rewrite length_drop; lia).
  destruct (drop at_ b) as [|b0 [|b1 tl]] eqn:Hd; apply (f_equal length) in Hd; rewrite length_drop in Hd; cbn in Hd; try lia.
  eexists. split; [done|]. by eapply (le16_range (b0 :: b1 :: tl)).
Qed.

Lemma u32at_total b at_ : (at_ + 4 <= length b)%nat → ∃ v, u32at b at_ = Some v /\ 0 <= v < 2 ^ 32.
Proof.
  intros Hl. unfold u32at. rewrite slice_in_range by lia. cbn. rewrite take_ge by (rewrite length_drop; lia).
  destruct (drop at_ b) as [|b0 [|b1 [|b2 [|b3 tl]]]] eqn:Hd; apply (f_equal length) in Hd; rewrite length_drop in Hd; cbn in Hd; try lia.
  eexists. split; [done|]. by eapply (le32_range (b0 :: b1 :: b2 :: b3 :: tl)).
Qed.

Lemma u16at_drop b at_ : (at_ <= length b)%nat → u16at b at_ = le16 (drop at_ b).
Proof. intros Hl. unfold u16at. rewrite slice_in_range by lia. cbn. by rewrite take_ge by (rewrite length_drop; lia). Qed.

(** The word of an encoding in its place. *)
Lemma u16at_put pre v post : 0 <= v < 2 ^ 16 → u16at (pre ++ le16_put v ++ post) (length pre) = Some v.
Proof.
  intros Hv. unfold u16at. rewrite slice_in_range by (rewrite ?length_app; lia). cbn [mbind option_bind].
  rewrite take_ge by (rewrite length_drop; lia). rewrite drop_app_length. by apply le16_put_get.
Qed.

Lemma u32at_app pre v rest : 0 <= v < 2 ^ 32 → u32at (pre ++ le32_put v ++ rest) (length pre) = Some v.
Proof.
  intros Hv. unfold u32at. rewrite slice_in_range by (rewrite ?length_app; lia). cbn.
  rewrite drop_app_length, take_ge by (rewrite !length_app; lia). by apply le32_put_get.
Qed.

(** * What the code uses of net and net/netip: addresses as the bytes of their
    slice (four, sixteen, or none for the zero address), without IPv6 zones, which
    no socket table row has. *)


(** A [netip.AddrPort]: the bytes of the address and the port. *)
Record AddrPort := mkAddrPort { ap_addr : list Z; ap_port : Z }.

#[global] Instance AddrPort_eq_dec : EqDecision AddrPort.
Proof. solve_decision. Defined.

(** A [net.Addr]: a TCP address with its IP slice and port, or another kind. *)
Inductive netAddr :=
| TCPAddr (ip : list Z) (port : Z)
| OtherAddr.

(** [netip.AddrFromSlice]. *)
Definition AddrFromSlice (ip : list Z) : option (list Z) :=
  if ((length ip =? 4)%nat || (length ip =? 16)%nat)%bool then Some ip else None.

(** [netip.Addr.Unmap]: an IPv4-mapped IPv6 address becomes its IPv4 part. *)
Definition Unmap (a : list Z) : list Z :=
  if ((length a =? 16)%nat && bool_decide (take 12 a = [0;0;0;0;0;0;0;0;0;0;255;255]))%bool
  then drop 12 a else a.

Definition Is4 (a : list Z) : bool := (length a =? 4)%nat.

Definition IsLoopback4 (a : list Z) : bool := match a with 127 :: _ => true | _ => false end.

(** [netip.Addr.IsLoopback]: 127.0.0.0/8, also in its IPv4-mapped form, or ::1. *)
Definition IsLoopback (a : list Z) : bool :=
  let a := Unmap a in
  if Is4 a then IsLoopback4 a else bool_decide (a = [0;0;0;0;0;0;0;0;0;0;0;0;0;0;0;1]).

(** * The text Go makes of UTF-16 code units: [utf16.Decode], and the conversion of
    runes to a string. *)


(** [utf16.Decode]: a pair of surrogates is one rune, a lone one the replacement. *)
Fixpoint utf16Decode (units : list Z) : list Z :=
  match units with
  | [] => []
  | r :: rest =>
      if (r <? 0xD800) || (0xE000 <=? r) then r :: utf16Decode rest
      else if r <? 0xDC00 then
        match rest with
        | r' :: rest' =>
            if (0xDC00 <=? r') && (r' <? 0xE000)
            then (Z.lor (Z.shiftl (r - 0xD800) 10) (r' - 0xDC00) + 0x10000) :: utf16Decode rest'
            else 0xFFFD :: utf16Decode rest
        | [] => 0xFFFD :: utf16Decode rest
        end
      else 0xFFFD :: utf16Decode rest
  end.

(** A rune in UTF-8. Decoded runes are all valid. *)
Definition utf8Rune (r : Z) : list byte :=
  if r <? 0x80 then [zb r]
  else if r <? 0x800 then [zb (Z.lor 0xC0 (Z.shiftr r 6)); zb (Z.lor 0x80 (Z.land r 0x3F))]
  else if r <? 0x10000 then
    [zb (Z.lor 0xE0 (Z.shiftr r 12)); zb (Z.lor 0x80 (Z.land (Z.shiftr r 6) 0x3F)); zb (Z.lor 0x80 (Z.land r 0x3F))]
  else
    [zb (Z.lor 0xF0 (Z.shiftr r 18)); zb (Z.lor 0x80 (Z.land (Z.shiftr r 12) 0x3F));
     zb (Z.lor 0x80 (Z.land (Z.shiftr r 6) 0x3F)); zb (Z.lor 0x80 (Z.land r 0x3F))].

(** [string(utf16.Decode(units))]. *)
Definition utf16String (units : list Z) : string := String.string_of_list_byte (flat_map utf8Rune (utf16Decode units)).

(** The units of an ASCII text. *)
Definition asciiUnits (s : string) : list Z := map bz (String.list_byte_of_string s).

Lemma utf16Decode_ascii units : Forall (λ u, 0 <= u < 0x80) units → utf16Decode units = units.
Proof.
  induction 1 as [|u units Hu _ IH]; [done|]. cbn [utf16Decode]. rewrite (proj2 (Z.ltb_lt u 0xD800)) by lia. cbn [orb]. by rewrite IH.
Qed.

(** ASCII text survives UTF-16. *)
Lemma utf16String_ascii s : Forall (λ b, bz b < 0x80) (String.list_byte_of_string s) → utf16String (asciiUnits s) = s.
Proof.
  intros Hs. unfold utf16String, asciiUnits. rewrite utf16Decode_ascii.
  - transitivity (String.string_of_list_byte (String.list_byte_of_string s)); [f_equal|apply String.string_of_list_byte_of_string].
    induction Hs as [|b l Hb _ IH]; [done|]. cbn [map flat_map]. unfold utf8Rune at 1. rewrite (proj2 (Z.ltb_lt (bz b) 0x80)) by lia.
    rewrite zb_bz, IH. done.
  - apply Forall_map. eapply Forall_impl; [exact Hs|]. intros b Hb. cbn in *. pose proof (bz_range b). lia.
Qed.

(** ** Names for Windows *)

Definition errEINVAL : err := Plain "invalid argument".

(** [windows.UTF16PtrFromString] refuses a name with a NUL inside. *)
Definition UTF16PtrFromString (s : string) : result string :=
  if contains_char (Ascii.eqb nul) s then Err errEINVAL else Ok s.

(** [windows.UTF16ToString]: the text before the first NUL. *)
Fixpoint beforeNUL (units : list Z) : list Z :=
  match units with
  | [] => []
  | u :: rest => if u =? 0 then [] else u :: beforeNUL rest
  end.

Definition UTF16ToString (units : list Z) : string := utf16String (beforeNUL units).
