(* ===== verification/VersionInfo.v ===== *)
(** version_windows.go, the version resource: blocks of a VS_VERSIONINFO tree, read
    from bytes nobody vouches for, and the two names a program is shown by.

    [None] is an index out of range, or a loop that does not end: neither happens
    ([parseVersionInfo_ends]). Offsets are [nat]: the code's are [int]s within the resource,
    whose length [int] holds. *)

From S2P Require Import Prelude GoBinary GoStrings GoError.

(** [imageVersion]. *)
Record imageVersion := mkVersion { description : string; originalName : string }.

#[global] Instance imageVersion_eq_dec : EqDecision imageVersion.
Proof. solve_decision. Defined.

(** [versionBlock]. *)
Record versionBlock := mkBlock { bkey : string; bvalue : list byte; bchildren : nat; bend : nat }.

(** [align4]. *)
Definition align4 (n : nat) : nat := Z.to_nat (Z.ldiff (Z.of_nat n + 3) 3).

(** The loop of [utf16z]: the text before the first zero unit, and the offset after
    it. *)
Fixpoint utf16zLoop (data : list byte) (fuel : nat) (units : list Z) (at_ limit : nat) : option (option (string * nat)) :=
  if (at_ + 2 <=? limit)%nat then
    match fuel with
    | O => None
    | S fuel =>
        u ← u16at data at_;
        if u =? 0 then Some (Some (utf16String units, at_ + 2)%nat)
        else utf16zLoop data fuel (units ++ [u]) (at_ + 2) limit
    end
  else Some None.

(** [utf16z]; a turn takes two bytes. *)
Definition utf16z (data : list byte) (start limit : nat) : option (option (string * nat)) :=
  utf16zLoop data (limit - start) [] start limit.

(** [versionBlockAt]. *)
Definition versionBlockAt (data : list byte) (start limit : nat) : option (option versionBlock) :=
  if (limit <? start + 6)%nat then Some None
  else
    length_ ← u16at data start;
    valueLength ← u16at data (start + 2);
    t ← u16at data (start + 4);
    let text := t =? 1 in
    let length_ := Z.to_nat length_ in
    let end_ := (start + length_)%nat in
    if (length_ <? 6)%nat || (limit <? end_)%nat then Some None
    else
      z ← utf16z data (start + 6) end_;
      match z with
      | None => Some None
      | Some (key, pos) =>
          let pos := align4 pos in
          let valueLength := Z.to_nat (if text then valueLength * 2 else valueLength) in
          let valueEnd := Nat.min (pos + valueLength) end_ in
          let '(pos, valueEnd) := if (end_ <? pos)%nat then (end_, end_) else (pos, valueEnd) in
          value ← slice data pos valueEnd;
          Some (Some (mkBlock key value (align4 valueEnd) end_))
      end.

(** The loop of [childBlocks]. *)
Fixpoint childLoop (data : list byte) (fuel : nat) (at_ end_ : nat) : option (list versionBlock) :=
  if (at_ + 6 <=? end_)%nat then
    match fuel with
    | O => None
    | S fuel =>
        c ← versionBlockAt data at_ end_;
        match c with
        | None => Some []
        | Some child => rest ← childLoop data fuel (align4 (bend child)) end_; Some (child :: rest)
        end
    end
  else Some [].

(** [childBlocks]; a child takes six bytes at least. *)
Definition childBlocks (data : list byte) (b : versionBlock) : option (list versionBlock) :=
  childLoop data (bend b - bchildren b) (bchildren b) (bend b).

(** The loop of [textValue]. *)
Fixpoint textUnits (value : list byte) : list Z :=
  match value with
  | b0 :: b1 :: rest =>
      let u := bz b0 + 2 ^ 8 * bz b1 in
      if u =? 0 then [] else u :: textUnits rest
  | _ => []
  end.

(** [textValue]. *)
Definition textValue (value : list byte) : string := TrimSpace (utf16String (textUnits value)).

(** A unit as [%04x] prints it. *)
Definition hexNibble (d : Z) : ascii :=
  nth (Z.to_nat d) (String.list_ascii_of_string "0123456789abcdef") "0"%char.

Definition hex04 (u : Z) : string :=
  String (hexNibble (u / 2 ^ 12)) (String (hexNibble (u / 2 ^ 8 mod 16))
    (String (hexNibble (u / 2 ^ 4 mod 16)) (String (hexNibble (u mod 16)) ""))).

(** [strings.EqualFold] with a text of hexadecimal digits: none of them folds to
    anything but its other case. *)
Definition lowerASCII (a : ascii) : ascii :=
  let n := code a in if Nat.leb 65 n && Nat.leb n 90 then Ascii.ascii_of_nat (n + 32) else a.

Fixpoint EqualFold (s t : string) : bool :=
  match s, t with
  | "", "" => true
  | String a s, String b t => Ascii.eqb (lowerASCII a) (lowerASCII b) && EqualFold s t
  | _, _ => false
  end.

(** The [VarFileInfo] case: the first translation long enough. *)
Fixpoint translations (vars : list versionBlock) (translation : string) : option string :=
  match vars with
  | [] => Some translation
  | v :: rest =>
      if String.eqb (bkey v) "Translation" && (4 <=? length (bvalue v))%nat && String.eqb translation "" then
        a ← u16at (bvalue v) 0;
        b ← u16at (bvalue v) 2;
        translations rest (hex04 a +:+ hex04 b)
      else translations rest translation
  end.

(** The loop over the children of the root: the string tables and the translation. *)
Fixpoint rootLoop (data : list byte) (children : list versionBlock) (tables : list versionBlock) (translation : string)
  : option (list versionBlock * string) :=
  match children with
  | [] => Some (tables, translation)
  | child :: rest =>
      if String.eqb (bkey child) "StringFileInfo" then
        more ← childBlocks data child;
        rootLoop data rest (tables ++ more) translation
      else if String.eqb (bkey child) "VarFileInfo" then
        vars ← childBlocks data child;
        translation ← translations vars translation;
        rootLoop data rest tables translation
      else rootLoop data rest tables translation
  end.

(** The loop over the strings of the table chosen: a later one replaces an earlier. *)
Fixpoint stringLoop (strings : list versionBlock) (version : imageVersion) : imageVersion :=
  match strings with
  | [] => version
  | s :: rest =>
      stringLoop rest
        (if String.eqb (bkey s) "FileDescription" then mkVersion (textValue (bvalue s)) (originalName version)
         else if String.eqb (bkey s) "OriginalFilename" then mkVersion (description version) (textValue (bvalue s))
         else version)
  end.

(** [parseVersionInfo]. *)
Definition parseVersionInfo (data : list byte) : option (result imageVersion) :=
  root ← versionBlockAt data 0 (length data);
  match root with
  | None => Some (Err (Sentinel errNoVersion))
  | Some root =>
      if negb (String.eqb (bkey root) "VS_VERSION_INFO") then Some (Err (Sentinel errNoVersion))
      else
        children ← childBlocks data root;
        '(tables, translation) ← rootLoop data children [] "";
        match tables with
        | [] => Some (Err (Sentinel errNoVersion))
        | table :: _ =>
            let table := default table (find (λ t, EqualFold (bkey t) translation) tables) in
            strings ← childBlocks data table;
            Some (Ok (stringLoop strings (mkVersion "" "")))
        end
  end.

(** ** It never indexes out of range, and it ends *)

Lemma align4_div n : align4 n = ((n + 3) / 4 * 4)%nat.
Proof.
  unfold align4. change 3 with (Z.ones 2) at 2. rewrite Z.ldiff_ones_r, Z.shiftl_mul_pow2, Z.shiftr_div_pow2 by lia.
  change (2 ^ 2) with 4. apply Nat2Z.inj. rewrite Nat2Z.inj_mul, Nat2Z.inj_div, Nat2Z.inj_add.
  rewrite Z2Nat.id; [done|]. pose proof (Z.div_pos (Z.of_nat n + 3) 4). lia.
Qed.

Lemma align4_range n : (n <= align4 n < n + 4)%nat.
Proof. rewrite align4_div. pose proof (Nat.div_mod (n + 3) 4). pose proof (Nat.mod_upper_bound (n + 3) 4). lia. Qed.

Lemma utf16zLoop_total data fuel : ∀ units at_ limit, (limit <= length data)%nat → (limit - at_ <= fuel)%nat →
  ∃ z, utf16zLoop data fuel units at_ limit = Some z /\ ∀ s pos, z = Some (s, pos) → (at_ + 2 <= pos <= limit)%nat.
Proof.
  induction fuel as [|fuel IH]; intros units at_ limit Hl Hf; cbn [utf16zLoop].
  - destruct (Nat.leb_spec (at_ + 2) limit); [lia|]. by exists None.
  - destruct (Nat.leb_spec (at_ + 2) limit); [|by exists None]. destruct (u16at_total data at_) as (u & -> & _); [lia|]. cbn.
    destruct (u =? 0); [eexists; split; [done|]; intros s pos [= _ <-]; lia|].
    destruct (IH (units ++ [u]) (at_ + 2) limit Hl)%nat as (z & -> & Hz); [lia|]. exists z. split; [done|].
    intros s pos E. specialize (Hz s pos E). lia.
Qed.

(** A block within its bounds. *)
Definition block_ok (start limit : nat) (b : versionBlock) : Prop := (start + 6 <= bend b <= limit)%nat.

Lemma versionBlockAt_total data start limit : (limit <= length data)%nat →
  ∃ b, versionBlockAt data start limit = Some b /\ ∀ x, b = Some x → block_ok start limit x.
Proof.
  intros Hl. unfold versionBlockAt. destruct (Nat.ltb_spec limit (start + 6)); [by exists None|].
  destruct (u16at_total data start) as (len & -> & Hlen); [lia|]. cbn [mbind option_bind].
  destruct (u16at_total data (start + 2)) as (vlen & -> & Hvlen); [lia|]. cbn [mbind option_bind].
  destruct (u16at_total data (start + 4)) as (t & -> & _); [lia|]. cbn [mbind option_bind].
  set (n := Z.to_nat len). destruct ((n <? 6)%nat || (limit <? start + n)%nat) eqn:Hb; [by exists None|]. to_prop.
  destruct (utf16zLoop_total data (start + n - (start + 6)) [] (start + 6) (start + n)) as (z & Hz & Hpos); [lia|lia|].
  unfold utf16z. rewrite Hz. cbn [mbind option_bind]. destruct z as [[key pos]|]; [|by exists None]. specialize (Hpos key pos eq_refl).
  destruct (Nat.ltb_spec (start + n) (align4 pos)); cbn [mbind option_bind].
  - rewrite slice_in_range by lia. cbn [mbind option_bind]. eexists. split; [done|]. intros x [= <-]. unfold block_ok. cbn. lia.
  - rewrite slice_in_range by lia. cbn [mbind option_bind]. eexists. split; [done|]. intros x [= <-]. unfold block_ok. cbn. lia.
Qed.

Lemma childLoop_total data fuel : ∀ at_ end_, (end_ <= length data)%nat → (end_ - at_ <= fuel)%nat →
  ∃ bs, childLoop data fuel at_ end_ = Some bs /\ Forall (λ b, (bend b <= end_)%nat) bs.
Proof.
  induction fuel as [|fuel IH]; intros at_ end_ He Hf; cbn [childLoop].
  - destruct (Nat.leb_spec (at_ + 6) end_); [lia|]. by exists [].
  - destruct (Nat.leb_spec (at_ + 6) end_); [|by exists []].
    destruct (versionBlockAt_total data at_ end_ He) as (b & -> & Hb). cbn. destruct b as [b|]; [|by exists []].
    specialize (Hb b eq_refl). unfold block_ok in Hb. pose proof (align4_range (bend b)).
    destruct (IH (align4 (bend b)) end_ He) as (bs & -> & Hbs); [lia|]. cbn. eexists. split; [done|]. constructor; [lia|done].
Qed.

Lemma childBlocks_total data b : (bend b <= length data)%nat →
  ∃ bs, childBlocks data b = Some bs /\ Forall (λ c, (bend c <= length data)%nat) bs.
Proof.
  intros Hb. destruct (childLoop_total data (bend b - bchildren b) (bchildren b) (bend b) Hb) as (bs & Hbs & Hall); [lia|].
  exists bs. split; [done|]. eapply Forall_impl; [done|]. cbn. lia.
Qed.

Lemma translations_total vars : ∀ tr, is_Some (translations vars tr).
Proof.
  induction vars as [|v vars IH]; intros tr; cbn [translations]; [by eexists|].
  destruct (_ && _) eqn:Hb; [|apply IH]. to_prop.
  destruct (u16at_total (bvalue v) 0) as (a & -> & _); [lia|]. destruct (u16at_total (bvalue v) 2) as (b & -> & _); [lia|].
  apply IH.
Qed.

Lemma rootLoop_total data children : ∀ tables tr, Forall (λ c, (bend c <= length data)%nat) children →
  Forall (λ c, (bend c <= length data)%nat) tables →
  ∃ ts tr', rootLoop data children tables tr = Some (ts, tr') /\ Forall (λ c, (bend c <= length data)%nat) ts.
Proof.
  induction children as [|c children IH]; intros tables tr Hc Ht; cbn [rootLoop]; [by eauto|].
  apply Forall_cons in Hc as [Hc Hcs]. destruct (childBlocks_total data c Hc) as (bs & Hbs & Hall).
  destruct (String.eqb (bkey c) "StringFileInfo"); [rewrite Hbs; cbn; apply IH; [done|by apply Forall_app]|].
  destruct (String.eqb (bkey c) "VarFileInfo"); [|by apply IH].
  rewrite Hbs. cbn. destruct (translations_total bs tr) as [tr' ->]. cbn. by apply IH.
Qed.

Lemma parseVersionInfo_ends data : ∃ r, parseVersionInfo data = Some r /\ (is_ok r = true \/ r = Err (Sentinel errNoVersion)).
Proof.
  unfold parseVersionInfo. destruct (versionBlockAt_total data 0 (length data)) as (root & -> & Hroot); [done|]. cbn.
  destruct root as [root|]; [|by eauto]. specialize (Hroot root eq_refl). unfold block_ok in Hroot.
  destruct (negb _); [by eauto|]. destruct (childBlocks_total data root) as (children & -> & Hc); [lia|]. cbn.
  destruct (rootLoop_total data children [] "" Hc) as (ts & tr & -> & Ht); [constructor|]. cbn.
  destruct ts as [|table ts]; [by eauto|]. destruct (childBlocks_total data (default table (find (λ t, EqualFold (bkey t) tr) (table :: ts)))) as (ss & -> & _).
  - rewrite Forall_forall in Ht. apply Ht. destruct (find _ _) as [t|] eqn:Hf; cbn [default from_option id]; [|by left].
    apply find_some in Hf as [Hin _]. by apply list_elem_of_In.
  - cbn. eauto.
Qed.

Lemma parseVersionInfo_some data : is_Some (parseVersionInfo data).
Proof. destruct (parseVersionInfo_ends data) as (r & -> & _). by eexists. Qed.
