(* ===== verification/VersionTree.v ===== *)
(** What the version resource means: trees of keyed values, the bytes the format
    lays them out as, and that [parseVersionInfo] reads from those bytes what the
    tree says. *)

From S2P Require Import Prelude GoBinary GoStrings GoError VersionInfo.

(** A node: the units of its key, whether its value is text, the value, and its
    children. *)
Inductive vtree := VNode (units : list Z) (text : bool) (value : list byte) (children : list vtree).

Definition tkey (t : vtree) : string := let '(VNode units _ _ _) := t in utf16String units.
Definition tvalue (t : vtree) : list byte := let '(VNode _ _ value _) := t in value.
Definition tchildren (t : vtree) : list vtree := let '(VNode _ _ _ children) := t in children.

(** ** Layout *)

Definition unitBytes (units : list Z) : list byte := flat_map le16_put units.

(** The zeros that bring [n] to a multiple of four. *)
Definition pad4 (n : nat) : list byte := replicate (align4 n - n) x00.

(** Children one after the other, each aligned; [off] is where the first may go. *)
Section Children.
Context (encode : vtree → list byte).

Fixpoint encodeChildren (off : nat) (children : list vtree) : list byte :=
  match children with
  | [] => []
  | c :: rest => pad4 off ++ encode c ++ encodeChildren (align4 off + length (encode c)) rest
  end.
End Children.

(** The value's offset in a block, and the end of the value. *)
Definition valueAt (units : list Z) : nat := align4 (6 + length (unitBytes units) + 2).

Fixpoint encode (t : vtree) : list byte :=
  let '(VNode units text value children) := t in
  let body := unitBytes units ++ [x00; x00] ++ pad4 (6 + length (unitBytes units) + 2) ++ value
              ++ encodeChildren encode (valueAt units + length value) children in
  le16_put (Z.of_nat (6 + length body))
  ++ le16_put (if text then Z.of_nat (length value) / 2 else Z.of_nat (length value))
  ++ le16_put (if text then 1 else 0)
  ++ body.

(** A tree the format can hold: units that are not the terminator, text of whole
    units, and lengths a block can state. *)
Inductive fits : vtree → Prop :=
| fits_node units text value children :
    Forall (λ u, 0 < u < 2 ^ 16) units → (text = true → (length value mod 2 = 0)%nat) →
    Z.of_nat (length (encode (VNode units text value children))) < 2 ^ 16 →
    Forall fits children → fits (VNode units text value children).

(** ** Meaning *)

(** The translation the first long enough entry names. *)
Definition treeTranslation (root : vtree) : string :=
  let vars := flat_map tchildren (filter (λ c, tkey c = "VarFileInfo") (tchildren root)) in
  match find (λ v, String.eqb (tkey v) "Translation" && (4 <=? length (tvalue v))%nat) vars with
  | Some v => match tvalue v with
              | b0 :: b1 :: b2 :: b3 :: _ => hex04 (bz b0 + 2 ^ 8 * bz b1) +:+ hex04 (bz b2 + 2 ^ 8 * bz b3)
              | _ => ""
              end
  | None => ""
  end.

(** The string tables, in order. *)
Definition treeTables (root : vtree) : list vtree :=
  flat_map tchildren (filter (λ c, tkey c = "StringFileInfo") (tchildren root)).

(** The last string of that name in a table, trimmed; the empty one if there is
    none. *)
Definition tableString (table : vtree) (name : string) : string :=
  match last (filter (λ s, tkey s = name) (tchildren table)) with Some s => textValue (tvalue s) | None => "" end.

(** The names of a resource: those of the table its first translation names, or of
    the first table. *)
Definition treeVersion (root : vtree) : result imageVersion :=
  if negb (String.eqb (tkey root) "VS_VERSION_INFO") then Err (Sentinel errNoVersion)
  else match treeTables root with
       | [] => Err (Sentinel errNoVersion)
       | table :: _ =>
           let table := default table (find (λ t, EqualFold (tkey t) (treeTranslation root)) (treeTables root)) in
           Ok (mkVersion (tableString table "FileDescription") (tableString table "OriginalFilename"))
       end.

(** ** Blocks in their place *)

Lemma align4_aligned n : (4 | align4 n)%nat.
Proof. rewrite align4_div. by exists ((n + 3) / 4)%nat. Qed.

Lemma align4_id n : (4 | n)%nat → align4 n = n.
Proof.
  intros [k ->]. rewrite align4_div. f_equal. symmetry. apply (Nat.div_unique _ _ _ 3); lia.
Qed.

Lemma align4_shift n m : (4 | n)%nat → align4 (n + m) = (n + align4 m)%nat.
Proof.
  intros [k ->]. rewrite !align4_div, <- Nat.mul_add_distr_r. f_equal.
  replace (k * 4 + m + 3)%nat with (m + 3 + k * 4)%nat by lia. rewrite Nat.div_add by lia. lia.
Qed.

Lemma pad4_length n : length (pad4 n) = (align4 n - n)%nat.
Proof. apply length_replicate. Qed.

Lemma unitBytes_length units : length (unitBytes units) = (2 * length units)%nat.
Proof. induction units as [|u units IH]; [done|]. cbn [unitBytes flat_map]. rewrite length_app. unfold unitBytes in IH. rewrite IH. cbn. lia. Qed.

(** The block a tree is read as when it starts at [start]. *)
Definition blockOf (start : nat) (t : vtree) : versionBlock :=
  let '(VNode units _ value _) := t in
  mkBlock (utf16String units) value (align4 (start + valueAt units + length value)) (start + length (encode t)).

(** [t] lies in [data] at [start]. *)
Definition placed (data : list byte) (start : nat) (t : vtree) : Prop :=
  fits t /\ (4 | start)%nat /\ ∃ pre post, data = pre ++ encode t ++ post /\ length pre = start.

Lemma encode_length units text value children :
  length (encode (VNode units text value children)) =
  (valueAt units + length value + length (encodeChildren encode (valueAt units + length value) children))%nat.
Proof.
  cbn [encode]. rewrite !length_app. cbn [length le16_put]. rewrite pad4_length. unfold valueAt.
  pose proof (align4_range (6 + length (unitBytes units) + 2)). lia.
Qed.

(** A key is read to its terminator. *)
Lemma utf16zLoop_read data units post limit : Forall (λ u, 0 < u < 2 ^ 16) units →
  ∀ fuel acc pre, data = pre ++ unitBytes units ++ [x00; x00] ++ post → (length pre + 2 * length units + 2 <= limit)%nat →
  (length units < fuel)%nat →
  utf16zLoop data fuel acc (length pre) limit = Some (Some (utf16String (acc ++ units), length pre + 2 * length units + 2)%nat).
Proof.
  induction 1 as [|u units Hu Hus IH]; intros fuel acc pre Hd Hl Hf; (destruct fuel as [|fuel]; [lia|]); cbn [utf16zLoop];
    (destruct (Nat.leb_spec (length pre + 2) limit); [|cbn in Hl; lia]).
  - assert (u16at data (length pre) = Some 0) as -> by (rewrite Hd; apply (u16at_put pre 0 post); lia).
    cbn [mbind option_bind Z.eqb length]. rewrite app_nil_r. do 3 f_equal. lia.
  - change (unitBytes (u :: units)) with (le16_put u ++ unitBytes units) in Hd. rewrite <- app_assoc in Hd.
    assert (u16at data (length pre) = Some u) as -> by (rewrite Hd; apply u16at_put; lia).
    cbn [mbind option_bind]. destruct (Z.eqb_spec u 0); [lia|].
    replace (length pre + 2)%nat with (length (pre ++ le16_put u)) by (rewrite length_app; cbn; lia).
    rewrite (IH fuel (acc ++ [u]) (pre ++ le16_put u)); [|by rewrite <- !app_assoc|rewrite length_app; cbn in *; lia|cbn in Hf; lia].
    rewrite <- app_assoc. rewrite length_app. cbn [length le16_put app]. do 3 f_equal. lia.
Qed.

(** The parts of a block. *)
Definition bodyOf (t : vtree) : list byte :=
  let '(VNode units text value children) := t in
  unitBytes units ++ [x00; x00] ++ pad4 (6 + length (unitBytes units) + 2) ++ value
  ++ encodeChildren encode (valueAt units + length value) children.

Definition valueCount (t : vtree) : Z :=
  let '(VNode _ text value _) := t in if text then Z.of_nat (length value) / 2 else Z.of_nat (length value).

Definition isText (t : vtree) : bool := let '(VNode _ text _ _) := t in text.

Lemma encode_parts t : encode t =
  le16_put (Z.of_nat (6 + length (bodyOf t))) ++ le16_put (valueCount t) ++ le16_put (if isText t then 1 else 0) ++ bodyOf t.
Proof. by destruct t. Qed.

Lemma encode_body t : length (encode t) = (6 + length (bodyOf t))%nat.
Proof. rewrite encode_parts, !length_app. cbn. lia. Qed.

Lemma valueCount_range t : fits t → 0 <= valueCount t < 2 ^ 16.
Proof.
  intros [units text value children _ _ Hlen _]. rewrite encode_length in Hlen. cbn [valueCount].
  destruct text; [|lia]. split; [apply Z.div_pos; lia|]. apply Z.div_lt_upper_bound; lia.
Qed.

(** The three words a block begins with. *)
Lemma header_read data start t : placed data start t →
  u16at data start = Some (Z.of_nat (length (encode t))) /\ u16at data (start + 2) = Some (valueCount t) /\
  u16at data (start + 4) = Some (if isText t then 1 else 0).
Proof.
  intros (Hfit & _ & pre & post & Hd & <-). pose proof (valueCount_range t Hfit) as Hv.
  assert (Z.of_nat (length (encode t)) < 2 ^ 16) as Hl by (by destruct Hfit).
  rewrite encode_parts, <- !app_assoc, <- encode_body in Hd. set (w := le16_put (Z.of_nat (length (encode t)))) in *. split_and!.
  - rewrite Hd. apply u16at_put. lia.
  - rewrite Hd, (app_assoc pre). replace (length pre + 2)%nat with (length (pre ++ w)) by (rewrite length_app; cbn; lia). by apply u16at_put.
  - rewrite Hd, (app_assoc pre), (app_assoc (pre ++ w)).
    replace (length pre + 4)%nat with (length ((pre ++ w) ++ le16_put (valueCount t))) by (rewrite !length_app; cbn; lia).
    apply u16at_put. destruct (isText t); lia.
Qed.

(** Its key and its value. *)
Lemma key_read data start units text value children : placed data start (VNode units text value children) →
  utf16z data (start + 6) (start + length (encode (VNode units text value children))) =
  Some (Some (utf16String units, start + 6 + 2 * length units + 2)%nat).
Proof.
  intros (Hfit & _ & pre & post & Hd & <-). pose proof (encode_length units text value children) as Hel.
  assert (valueAt units >= 6 + 2 * length units + 2)%nat.
  { unfold valueAt. rewrite unitBytes_length. pose proof (align4_range (6 + 2 * length units + 2)). lia. }
  rewrite encode_parts in Hd. cbn [bodyOf] in Hd. rewrite <- !app_assoc in Hd. unfold utf16z.
  match type of Hd with data = pre ++ ?a ++ ?b ++ ?c ++ _ => set (hd := a ++ b ++ c) in *; assert (length hd = 6)%nat as Hh by done;
    assert (data = (pre ++ hd) ++ unitBytes units ++ [x00; x00] ++ pad4 (6 + length (unitBytes units) + 2) ++ value ++
      encodeChildren encode (valueAt units + length value) children ++ post) as Hd' by (rewrite Hd; unfold hd; by rewrite <- !app_assoc) end.
  replace (length pre + 6)%nat with (length (pre ++ hd)) by (rewrite length_app; lia).
  rewrite (utf16zLoop_read data units _ _ ltac:(by inversion Hfit) _ [] (pre ++ hd) Hd'); rewrite ?length_app; [done|lia|lia].
Qed.

Lemma value_read data start units text value children : placed data start (VNode units text value children) →
  slice data (start + valueAt units) (start + valueAt units + length value) = Some value.
Proof.
  intros (Hfit & _ & pre & post & Hd & <-). rewrite encode_parts in Hd. cbn [bodyOf] in Hd. rewrite <- !app_assoc in Hd.
  match type of Hd with data = pre ++ ?a ++ ?b ++ ?c ++ ?d ++ ?e ++ ?f ++ value ++ ?g => 
    set (hd := a ++ b ++ c ++ d ++ e ++ f) in *;
    assert (data = (pre ++ hd) ++ value ++ g) as -> by (rewrite Hd; unfold hd; by rewrite <- !app_assoc) end.
  apply slice_app. rewrite length_app. unfold hd. rewrite !length_app, pad4_length, unitBytes_length. cbn [length le16_put].
  unfold valueAt. rewrite unitBytes_length. pose proof (align4_range (6 + 2 * length units + 2)). lia.
Qed.

Lemma block_read data start t limit : placed data start t → (start + length (encode t) <= limit)%nat →
  versionBlockAt data start limit = Some (Some (blockOf start t)).
Proof.
  intros Hp Hlim. destruct (header_read _ _ _ Hp) as (H0 & H2 & H4). destruct t as [units text value children].
  pose proof (encode_length units text value children) as Hel. pose proof Hp as (Hfit & Hal & _).
  assert (6 <= valueAt units)%nat by (unfold valueAt; pose proof (align4_range (6 + length (unitBytes units) + 2)); lia).
  unfold versionBlockAt. destruct (Nat.ltb_spec limit (start + 6)); [lia|]. rewrite H0, H2, H4. cbn [mbind option_bind].
  rewrite Nat2Z.id. destruct (Nat.ltb_spec (length (encode (VNode units text value children))) 6); [lia|].
  destruct (Nat.ltb_spec limit (start + length (encode (VNode units text value children)))); [lia|]. cbn [orb].
  rewrite (key_read _ _ _ _ _ _ Hp). cbn [mbind option_bind isText].
  replace (align4 (start + 6 + 2 * length units + 2)) with (start + valueAt units)%nat
    by (unfold valueAt; rewrite unitBytes_length, <- align4_shift by done; f_equal; lia).
  assert (Z.to_nat (if (if text then 1 else 0) =? 1 then valueCount (VNode units text value children) * 2
    else valueCount (VNode units text value children)) = length value) as ->.
  { destruct text; cbn [valueCount Z.eqb Pos.eqb]; [|lia]. inversion Hfit as [? ? ? ? _ Ht _ _]; subst. specialize (Ht eq_refl).
    pose proof (Nat.div_mod (length value) 2). rewrite <- (Nat2Z.inj_div _ 2). lia. }
  destruct (Nat.ltb_spec (start + length (encode (VNode units text value children))) (start + valueAt units)); [lia|].
  rewrite Nat.min_l by lia. rewrite (value_read _ _ _ _ _ _ Hp). done.
Qed.

(** Where the children of a block go, from [off] on. *)
Fixpoint placesOf (off : nat) (children : list vtree) : list (nat * vtree) :=
  match children with
  | [] => []
  | c :: rest => (align4 off, c) :: placesOf (align4 off + length (encode c)) rest
  end.

Lemma encode_pos t : (8 <= length (encode t))%nat.
Proof.
  destruct t as [units text value children]. rewrite encode_length. unfold valueAt.
  pose proof (align4_range (6 + length (unitBytes units) + 2)). lia.
Qed.

Lemma children_placed data children : Forall fits children → ∀ base off pre post, (4 | base)%nat →
  data = pre ++ encodeChildren encode off children ++ post → length pre = (base + off)%nat →
  Forall (λ p, placed data p.1 p.2 /\ (p.1 + length (encode p.2) <= base + off + length (encodeChildren encode off children))%nat)
    (placesOf (base + off) children).
Proof.
  induction 1 as [|c children Hc Hcs IH]; intros base off pre post Hb Hd Hpre; cbn [placesOf]; [constructor|].
  cbn [encodeChildren] in *. rewrite <- !app_assoc in Hd. pose proof (align4_shift base off Hb) as Hsh.
  pose proof (align4_range off) as Har. rewrite !length_app, pad4_length. constructor; cbn [fst snd].
  - split; [|lia]. split; [done|]. split; [apply align4_aligned|]. exists (pre ++ pad4 off). eexists.
    split; [by rewrite <- app_assoc|]. rewrite length_app, pad4_length. lia.
  - rewrite Hsh. replace (base + align4 off + length (encode c))%nat with (base + (align4 off + length (encode c)))%nat by lia.
    eapply Forall_impl; [apply (IH base (align4 off + length (encode c))%nat (pre ++ pad4 off ++ encode c) post Hb)|].
    + by rewrite <- !app_assoc.
    + rewrite !length_app, pad4_length. lia.
    + cbn beta. intros [s t] [Hs Hle]. split; [done|]. cbn [fst snd] in *. lia.
Qed.

Lemma childLoop_read data base children : (4 | base)%nat → ∀ off fuel end_,
  Forall (λ p, placed data p.1 p.2 /\ (p.1 + length (encode p.2) <= end_)%nat) (placesOf (base + off) children) →
  end_ = (base + off + length (encodeChildren encode off children))%nat → (end_ - align4 (base + off) <= fuel)%nat →
  childLoop data fuel (align4 (base + off)) end_ = Some (map (λ p, blockOf p.1 p.2) (placesOf (base + off) children)).
Proof.
  intros Hb. induction children as [|c children IH]; intros off fuel end_ Hall Hend Hf; cbn [placesOf map].
  - cbn [encodeChildren length] in Hend. pose proof (align4_range (base + off)).
    destruct fuel; cbn [childLoop]; (destruct (Nat.leb_spec (align4 (base + off) + 6) end_); [lia|done]).
  - cbn [placesOf] in Hall. apply Forall_cons in Hall as [[Hc Hle] Hall]. cbn [fst snd] in *. pose proof (encode_pos c).
    destruct fuel as [|fuel]; [lia|]. cbn [childLoop]. destruct (Nat.leb_spec (align4 (base + off) + 6) end_); [|lia].
    rewrite (block_read _ _ _ _ Hc Hle). cbn [mbind option_bind].
    assert (bend (blockOf (align4 (base + off)) c) = (base + (align4 off + length (encode c)))%nat) as ->.
    { destruct c. cbn [blockOf bend]. rewrite align4_shift by done. lia. }
    assert (align4 (base + off) + length (encode c) = base + (align4 off + length (encode c)))%nat as Heq
      by (rewrite align4_shift by done; lia).
    rewrite Heq in Hall |- *. pose proof (align4_range off). pose proof (align4_range (base + (align4 off + length (encode c)))).
    rewrite (IH (align4 off + length (encode c))%nat fuel end_ Hall); [done| |lia].
    rewrite Hend. cbn [encodeChildren]. rewrite !length_app, pad4_length. lia.
Qed.

(** The children of a block are read as the blocks of its children, each in its
    place. *)
Definition placesIn (start : nat) (t : vtree) : list (nat * vtree) :=
  let '(VNode units _ value children) := t in placesOf (start + (valueAt units + length value)) children.

Lemma children_read data start t : placed data start t →
  childBlocks data (blockOf start t) = Some (map (λ p, blockOf p.1 p.2) (placesIn start t)) /\
  Forall (λ p, placed data p.1 p.2) (placesIn start t).
Proof.
  destruct t as [units text value children]. intros Hp. pose proof (encode_length units text value children) as Hel.
  destruct Hp as (Hfit & Hal & pre & post & Hd & Hpre). assert (Forall fits children) as Hcs by (by inversion Hfit).
  assert (∃ hd, length hd = (valueAt units + length value)%nat /\
    data = (pre ++ hd) ++ encodeChildren encode (valueAt units + length value) children ++ post) as (hd & Hh & Hd').
  { rewrite encode_parts in Hd. cbn [bodyOf] in Hd. rewrite <- !app_assoc in Hd.
    match type of Hd with data = pre ++ ?a ++ ?b ++ ?c ++ ?d ++ ?e ++ ?f ++ value ++ ?g =>
      exists (a ++ b ++ c ++ d ++ e ++ f ++ value); split; [|rewrite Hd; by rewrite <- !app_assoc] end.
    rewrite !length_app, pad4_length, unitBytes_length. cbn [length le16_put]. unfold valueAt. rewrite unitBytes_length.
    pose proof (align4_range (6 + 2 * length units + 2)). lia. }
  pose proof (children_placed data children Hcs start _ _ _ Hal Hd' ltac:(rewrite length_app; lia)) as Hall. split.
  - unfold childBlocks. cbn [blockOf bchildren bend placesIn]. rewrite <- Nat.add_assoc.
    apply childLoop_read; [done| |lia|lia]. eapply Forall_impl; [exact Hall|]. cbn beta. intros p [? ?]. split; [done|lia].
  - eapply Forall_impl; [exact Hall|]. by intros p [? _].
Qed.

(** ** The parser says what the tree means *)

Definition bl (p : nat * vtree) : versionBlock := blockOf p.1 p.2.

Lemma bl_key p : bkey (bl p) = tkey p.2.
Proof. by destruct p as [s []]. Qed.

Lemma bl_value p : bvalue (bl p) = tvalue p.2.
Proof. by destruct p as [s []]. Qed.

Lemma placesOf_trees children : ∀ off, (placesOf off children).*2 = children.
Proof. induction children as [|c children IH]; intros off; [done|]. cbn. f_equal. apply IH. Qed.

Lemma placesIn_trees start t : (placesIn start t).*2 = tchildren t.
Proof. destruct t. apply placesOf_trees. Qed.

Lemma find_map {A B} (f : A → B) (p : B → bool) l : find p (map f l) = f <$> find (λ x, p (f x)) l.
Proof. induction l as [|x l IH]; [done|]. cbn. by destruct (p (f x)). Qed.

Lemma find_app {A} (p : A → bool) l1 l2 : find p (l1 ++ l2) = match find p l1 with Some x => Some x | None => find p l2 end.
Proof. induction l1 as [|x l1 IH]; [done|]. cbn. by destruct (p x). Qed.

(** A translation entry, and the text of one. *)
Definition isTranslation (v : vtree) : bool := String.eqb (tkey v) "Translation" && (4 <=? length (tvalue v))%nat.

Definition translationText (v : option vtree) : string :=
  match v with
  | Some v => match tvalue v with
              | b0 :: b1 :: b2 :: b3 :: _ => hex04 (bz b0 + 2 ^ 8 * bz b1) +:+ hex04 (bz b2 + 2 ^ 8 * bz b3)
              | _ => ""
              end
  | None => ""
  end.

Lemma translations_read ps : ∀ tr,
  translations (map bl ps) tr = Some (if String.eqb tr "" then translationText (find isTranslation ps.*2) else tr).
Proof.
  induction ps as [|p ps IH]; intros tr; cbn [map translations fmap list_fmap find].
  { cbn. by destruct (String.eqb_spec tr "") as [->|]. }
  rewrite bl_key, bl_value. unfold isTranslation at 1. destruct (String.eqb (tkey p.2) "Translation") eqn:Hk; cbn [andb]; [|apply IH].
  destruct (Nat.leb_spec 4 (length (tvalue p.2))) as [Hl|Hl]; cbn [andb]; [|apply IH].
  destruct (String.eqb tr "") eqn:Htr; [|by rewrite IH, Htr].
  cbn [translationText]. destruct (tvalue p.2) as [|b0 [|b1 [|b2 [|b3 rest]]]]; cbn in Hl; try lia.
  rewrite !u16at_drop by (cbn; lia). cbn [drop le16 mbind option_bind]. by rewrite IH.
Qed.

(** The tables below the root, in their places. *)
Definition tablePlaces (ps : list (nat * vtree)) : list (nat * vtree) :=
  flat_map (λ p, placesIn p.1 p.2) (filter (λ p, tkey p.2 = "StringFileInfo") ps).

Definition rootTranslation (cs : list vtree) : option vtree :=
  find isTranslation (flat_map tchildren (filter (λ c, tkey c = "VarFileInfo") cs)).

Lemma rootLoop_read data ps : Forall (λ p, placed data p.1 p.2) ps → ∀ tables tr,
  rootLoop data (map bl ps) tables tr =
  Some (tables ++ map bl (tablePlaces ps), if String.eqb tr "" then translationText (rootTranslation ps.*2) else tr).
Proof.
  induction 1 as [|p ps Hp Hps IH]; intros tables tr; cbn [map rootLoop].
  { cbn. rewrite app_nil_r. by destruct (String.eqb_spec tr "") as [->|]. }
  destruct (children_read _ _ _ Hp) as [Hc _]. fold (bl p) in Hc. rewrite bl_key. unfold tablePlaces, rootTranslation.
  rewrite fmap_cons, !filter_cons. destruct (String.eqb_spec (tkey p.2) "StringFileInfo") as [Hk|Hk].
  - rewrite Hc. cbn [mbind option_bind]. rewrite IH, (decide_True (P := tkey p.2 = "StringFileInfo")) by done.
    rewrite (decide_False (P := tkey p.2 = "VarFileInfo")) by (rewrite Hk; done).
    cbn [flat_map]. rewrite map_app, <- app_assoc. done.
  - rewrite (decide_False (P := tkey p.2 = "StringFileInfo")) by done. destruct (String.eqb_spec (tkey p.2) "VarFileInfo") as [Hv|Hv].
    + rewrite Hc. cbn [mbind option_bind]. fold bl. change (map (λ p, blockOf p.1 p.2)) with (map bl). rewrite translations_read. cbn [mbind option_bind].
      rewrite IH, (decide_True (P := tkey p.2 = "VarFileInfo")) by done. cbn [flat_map]. rewrite find_app, placesIn_trees.
      do 2 f_equal. destruct (String.eqb_spec tr "") as [->|Htr]; [|by apply String.eqb_neq in Htr; rewrite Htr].
      destruct (find isTranslation (tchildren p.2)) as [v|] eqn:Hf; [|done]. apply find_some in Hf as [_ Hf].
      unfold isTranslation in Hf. apply andb_prop in Hf as [_ Hf]. apply Nat.leb_le in Hf.
      cbn [translationText]. destruct (tvalue v) as [|b0 [|b1 [|b2 [|b3 rest]]]]; cbn in Hf; try lia. done.
    + rewrite (decide_False (P := tkey p.2 = "VarFileInfo")) by done. apply IH.
Qed.

(** The last string of a name, or [old]. *)
Definition lastString (strings : list vtree) (name old : string) : string :=
  match last (filter (λ s, tkey s = name) strings) with Some s => textValue (tvalue s) | None => old end.

Lemma lastString_cons s strings name old :
  lastString (s :: strings) name old = lastString strings name (if String.eqb (tkey s) name then textValue (tvalue s) else old).
Proof.
  unfold lastString. rewrite filter_cons. destruct (String.eqb_spec (tkey s) name) as [Hk|Hk].
  - rewrite decide_True by done. rewrite last_cons. by destruct (last (filter _ strings)).
  - by rewrite decide_False.
Qed.

Lemma stringLoop_read ps : ∀ v, stringLoop (map bl ps) v =
  mkVersion (lastString ps.*2 "FileDescription" (description v)) (lastString ps.*2 "OriginalFilename" (originalName v)).
Proof.
  induction ps as [|p ps IH]; intros v; [by destruct v|]. cbn [map stringLoop]. rewrite IH, bl_key, bl_value, fmap_cons, !lastString_cons.
  destruct (String.eqb_spec (tkey p.2) "FileDescription") as [Hk|Hk]; [by rewrite Hk|].
  by destruct (String.eqb_spec (tkey p.2) "OriginalFilename").
Qed.

Lemma tablePlaces_trees ps : (tablePlaces ps).*2 = flat_map tchildren (filter (λ c, tkey c = "StringFileInfo") ps.*2).
Proof.
  unfold tablePlaces. induction ps as [|p ps IH]; [done|]. rewrite fmap_cons, !filter_cons. case_decide; [|done].
  cbn [flat_map]. by rewrite fmap_app, placesIn_trees, IH.
Qed.

Lemma tablePlaces_placed data ps : Forall (λ p, placed data p.1 p.2) ps → Forall (λ p, placed data p.1 p.2) (tablePlaces ps).
Proof.
  unfold tablePlaces. induction 1 as [|p ps Hp Hps IH]; [constructor|]. rewrite filter_cons. case_decide; [|done].
  cbn [flat_map]. apply Forall_app. split; [|done]. by destruct (children_read _ _ _ Hp).
Qed.

(** The bytes of a tree that fits are a resource of themselves. *)
Lemma placed_whole t : fits t → placed (encode t) 0 t.
Proof. intros Hf. split; [done|]. split; [by exists 0%nat|]. exists [], []. by rewrite app_nil_r. Qed.

(** The table chosen, as a block and as a tree. *)
Lemma chosen_table data tr p ps : Forall (λ p, placed data p.1 p.2) (p :: ps) →
  ∃ q, placed data q.1 q.2 /\ default (bl p) (find (λ t, EqualFold (bkey t) tr) (map bl (p :: ps))) = bl q /\
    default p.2 (find (λ t, EqualFold (tkey t) tr) (p :: ps).*2) = q.2.
Proof.
  intros Hall. exists (default p (find (λ x, EqualFold (tkey x.2) tr) (p :: ps))).
  rewrite find_map. change ((p :: ps).*2) with (map snd (p :: ps)). rewrite (find_map snd).
  assert (find (λ x, EqualFold (bkey (bl x)) tr) (p :: ps) = find (λ x, EqualFold (tkey x.2) tr) (p :: ps)) as ->.
  { clear Hall. generalize (p :: ps). intros l. induction l as [|x l IH]; [done|]. cbn [find]. by rewrite bl_key, IH. }
  rewrite Forall_forall in Hall. destruct (find (λ x, EqualFold (tkey x.2) tr) (p :: ps)) as [q|] eqn:Hf; cbn [default from_option fmap option_fmap option_map id].
  - split_and!; [|done|done]. apply Hall. apply find_some in Hf as [Hin _]. by apply list_elem_of_In.
  - split_and!; [|done|done]. apply Hall. by left.
Qed.

(** C23: [parseVersionInfo] reads from the bytes of any resource the format can hold exactly what its tree says: nothing but
    errNoVersion when the root is not VS_VERSION_INFO or there is no string table, and otherwise the last FileDescription
    and the last OriginalFilename, trimmed, of one table, which is the first that the first long enough translation names
    in either case, or else the first of all. *)
Theorem parse_reads_the_tree t : fits t → parseVersionInfo (encode t) = Some (treeVersion t).
Proof.
  intros Hf. pose proof (placed_whole t Hf) as Hp. unfold parseVersionInfo, treeVersion.
  rewrite (block_read _ _ _ _ Hp) by done. cbn [mbind option_bind]. change (blockOf 0 t) with (bl (0%nat, t)). rewrite bl_key. cbn [snd].
  destruct (negb _); [done|]. destruct (children_read _ _ _ Hp) as [Hc Hall]. change (blockOf 0 t) with (bl (0%nat, t)) in Hc.
  rewrite Hc. cbn [mbind option_bind]. change (map (λ p, blockOf p.1 p.2)) with (map bl). rewrite (rootLoop_read _ _ Hall).
  cbn [mbind option_bind app String.eqb]. rewrite placesIn_trees. fold (treeTranslation t).
  change (translationText (rootTranslation (tchildren t))) with (treeTranslation t).
  pose proof (tablePlaces_placed _ _ Hall) as Htabs. assert ((tablePlaces (placesIn 0 t)).*2 = treeTables t) as Htt
    by (by rewrite tablePlaces_trees, placesIn_trees). rewrite <- Htt.
  destruct (tablePlaces (placesIn 0 t)) as [|p ps] eqn:Htp; [done|]. clear Htt Htp.
  destruct (chosen_table _ (treeTranslation t) p ps Htabs) as (q & Hq & Hbl & Htree).
  cbn [fmap list_fmap] in Htree |- *. cbn [map] in Hbl |- *. rewrite Hbl, Htree.
  destruct (children_read _ _ _ Hq) as [Hcq _]. change (blockOf q.1 q.2) with (bl q) in Hcq. rewrite Hcq. cbn [mbind option_bind].
  change (map (λ p, blockOf p.1 p.2)) with (map bl). rewrite stringLoop_read, placesIn_trees. done.
Qed.

(** A resource with two tables, whose translation names the second. *)
Definition exampleString (name value : string) : vtree :=
  VNode (asciiUnits name) true (unitBytes (asciiUnits value) ++ [x00; x00]) [].

Definition exampleResource : vtree :=
  VNode (asciiUnits "VS_VERSION_INFO") false (replicate 52 x00)
    [VNode (asciiUnits "StringFileInfo") true []
       [VNode (asciiUnits "040704b0") true [] [exampleString "FileDescription" "Editor"];
        VNode (asciiUnits "040904B0") true []
          [exampleString "FileDescription" "Notepad "; exampleString "OriginalFilename" "NOTEPAD.EXE"]];
     VNode (asciiUnits "VarFileInfo") true [] [VNode (asciiUnits "Translation") false [x09; x04; xb0; x04] []]].

Lemma parse_reads_the_tree_witness :
  parseVersionInfo (encode exampleResource) = Some (Ok (mkVersion "Notepad" "NOTEPAD.EXE")).
Proof.
  rewrite (parse_reads_the_tree exampleResource); [by vm_compute|].
  repeat first [apply fits_node|apply Forall_cons; split|apply Forall_nil; exact I]; vm_compute; done.
Defined.
