(* ===== verification/VersionImage.v ===== *)
(** version_windows.go, the image: the headers, the sections and the resource
    directories of a PE file, read at offsets the file itself gives, and the version
    resource they lead to.

    A reader answers from the reads made so far, so the file may change under it. A
    computation keeps the list of the reads it made; [None] is an index out of
    range. *)

From S2P Require Import Prelude GoBinary GoStrings GoError VersionInfo VersionTree.

(** A read: its offset and its length. *)
Abbreviation reads := (list (Z * nat)).

Definition rd (A : Type) : Type := reads → option (result A) * reads.

Definition rret {A} (a : A) : rd A := λ log, (Some (Ok a), log).
Definition rfail {A} (e : err) : rd A := λ log, (Some (Err e), log).
Definition rpanic {A} : rd A := λ log, (None, log).

Definition rbind {A B} (m : rd A) (k : A → rd B) : rd B :=
  λ log, match m log with
         | (Some (Ok a), log) => k a log
         | (Some (Err e), log) => (Some (Err e), log)
         | (None, log) => (None, log)
         end.

(** An index: [None] panics. *)
Definition rget {A} (x : option A) : rd A := match x with Some a => rret a | None => rpanic end.

Declare Scope rd_scope.
Delimit Scope rd_scope with rd.
Notation "x <~ m ; k" := (rbind m (λ x, k)) (at level 100, m at next level, right associativity) : rd_scope.
#[local] Open Scope rd_scope.

(** Bounds of the reader. *)
Definition maxHeaderOffset : Z := 2 ^ 20.
Definition maxSections : Z := 96.
Definition maxResourceEntries : Z := 4096.
Definition maxVersionResource : Z := 0xFFFF.
Definition maxOptionalHeader : Z := 0x1000.
Definition resourceTypeVersion : Z := 16.
Definition resourceDirectory : Z := 2.

(** [imageSection] and [imageLayout]. *)
Record imageSection := mkSection { virtualAddress : Z; virtualSize : Z; rawSize : Z; rawOffset : Z }.

Record imageLayout := mkLayout { sections : list imageSection; resourceRVA : Z }.

(** [resourceEntry]. *)
Record resourceEntry := mkEntry { named : bool; eid : Z; eoffset : Z; subdir : bool }.

Section Image.
(** The reader's [ReadAt], after the reads so far. *)
Context (ReadAt : reads → Z → nat → result (list byte)).

(** [readAt]. *)
Definition readAt (off : Z) (n : nat) : rd (list byte) :=
  λ log, let log' := log ++ [(off, n)] in
         match ReadAt log off n with
         | Ok buf => (Some (Ok buf), log')
         | Err e => (Some (Err e), log')
         end.

(** One row of the section table. *)
Definition sectionRow (table : list byte) (i : nat) : option imageSection :=
  s ← slice table (i * 40) (length table);
  virtualSize ← u32at s 8;
  virtualAddress ← u32at s 12;
  rawSize ← u32at s 16;
  rawOffset ← u32at s 20;
  Some (mkSection virtualAddress virtualSize rawSize rawOffset).

(** Where the count of directories and the directories are, by the magic. *)
Definition optionalLayout (magic : Z) : option (nat * nat) :=
  if magic =? 0x10B then Some (92, 96)%nat
  else if magic =? 0x20B then Some (108, 112)%nat
  else None.

(** The resource RVA of an optional header, zero when it has none. *)
Definition resourceOf (optional : list byte) (optionalSize countAt directoriesAt : nat) : option Z :=
  let entry := (directoriesAt + 2 * 8)%nat in
  if (countAt + 4 <=? optionalSize)%nat then
    count ← u32at optional countAt;
    if (resourceDirectory <? count) && (entry + 8 <=? optionalSize)%nat then u32at optional entry else Some 0
  else Some 0.

Definition notPE {A} : rd A := rfail (Plain "not a PE image").

(** [readImageLayout]. *)
Definition readImageLayout : rd imageLayout :=
  dos <~ readAt 0 64 ;
  m <~ rget (dos !! 0%nat) ;
  z <~ rget (dos !! 1%nat) ;
  if negb (bool_decide (m = x4d)) || negb (bool_decide (z = x5a)) then notPE
  else
    peOffset <~ rget (u32at dos 0x3C) ;
    if maxHeaderOffset <? peOffset then notPE
    else
      head <~ readAt peOffset 24 ;
      magic <~ rget (slice head 0 4) ;
      if negb (bool_decide (magic = [x50; x45; x00; x00])) then notPE
      else
        sectionCount <~ rget (u16at head 6) ;
        optionalSize <~ rget (u16at head 20) ;
        if (maxSections <? sectionCount) || (maxOptionalHeader <? optionalSize) || (optionalSize <? 2)
        then rfail (Plain "unexpected PE header")
        else
          optional <~ readAt (peOffset + 24) (Z.to_nat optionalSize) ;
          magic <~ rget (u16at optional 0) ;
          match optionalLayout magic with
          | None => rfail (Plain "unexpected PE optional header")
          | Some (countAt, directoriesAt) =>
              rva <~ rget (resourceOf optional (Z.to_nat optionalSize) countAt directoriesAt) ;
              table <~ readAt (peOffset + 24 + optionalSize) (Z.to_nat sectionCount * 40) ;
              sections <~ rget (mapM (sectionRow table) (seq 0 (Z.to_nat sectionCount))) ;
              rret (mkLayout sections rva)
          end.

(** [imageLayout.read]. *)
Definition read_ (img : imageLayout) (rva : Z) (n : nat) : rd (list byte) :=
  match find (λ s, (virtualAddress s <=? rva) && (rva + Z.of_nat n <=? virtualAddress s + rawSize s)) (sections img) with
  | Some s => readAt (rawOffset s + (rva - virtualAddress s)) n
  | None => rfail (Plain "RVA is not in the file")
  end.

(** One entry of a directory. *)
Definition entryRow (raw : list byte) (i : nat) : option resourceEntry :=
  name ← u32at raw (i * 8);
  offset ← u32at raw (i * 8 + 4);
  Some (mkEntry (negb (Z.land name 0x80000000 =? 0)) (Z.ldiff name 0x80000000)
          (Z.ldiff offset 0x80000000) (negb (Z.land offset 0x80000000 =? 0))).

(** [imageLayout.directory]. *)
Definition directory (img : imageLayout) (rva : Z) : rd (list resourceEntry) :=
  head <~ read_ img rva 16 ;
  a <~ rget (u16at head 12) ;
  b <~ rget (u16at head 14) ;
  let count := a + b in
  if (count =? 0) || (maxResourceEntries <? count) then rfail (Sentinel errNoVersion)
  else
    raw <~ read_ img (u32 (rva + 16)) (Z.to_nat count * 8) ;
    rget (mapM (entryRow raw) (seq 0 (Z.to_nat count))).

(** [imageLayout.subdirectory]. *)
Definition subdirectory (img : imageLayout) (entries : list resourceEntry) (match_ : resourceEntry → bool) : rd (list resourceEntry) :=
  match find (λ e, subdir e && match_ e) entries with
  | Some e => directory img (u32 (resourceRVA img + eoffset e))
  | None => rfail (Sentinel errNoVersion)
  end.

(** The loop of [leaf]: the entry chosen. *)
Fixpoint leafLoop (languages : list resourceEntry) (chosen : option resourceEntry) : option resourceEntry :=
  match languages with
  | [] => chosen
  | e :: rest =>
      if subdir e then leafLoop rest chosen
      else match chosen with
           | None => leafLoop rest (Some e)
           | Some _ => if negb (named e) && (eid e =? 0) then leafLoop rest (Some e) else leafLoop rest chosen
           end
  end.

(** [imageLayout.leaf]. *)
Definition leaf (img : imageLayout) (languages : list resourceEntry) : rd (list byte) :=
  match leafLoop languages None with
  | None => rfail (Sentinel errNoVersion)
  | Some e =>
      entry <~ read_ img (u32 (resourceRVA img + eoffset e)) 16 ;
      size <~ rget (u32at entry 4) ;
      if (size <? 6) || (maxVersionResource <? size) then rfail (Sentinel errNoVersion)
      else rva <~ rget (u32at entry 0) ; read_ img rva (Z.to_nat size)
  end.

(** [readVersionResource]. *)
Definition readVersionResource : rd imageVersion :=
  img <~ readImageLayout ;
  if resourceRVA img =? 0 then rfail (Sentinel errNoVersion)
  else
    types <~ directory img (resourceRVA img) ;
    names <~ subdirectory img types (λ e, negb (named e) && (eid e =? resourceTypeVersion)) ;
    languages <~ subdirectory img names (λ _, true) ;
    data <~ leaf img languages ;
    λ log, (parseVersionInfo data, log).
End Image.

(** ** Every read is bounded, and no index is out of range *)

Section Bounded.
Context (ReadAt : reads → Z → nat → result (list byte)).

(** The contract of [io.ReaderAt]: without an error the buffer is full. *)
Hypothesis ReadAt_full : ∀ log off n buf, ReadAt log off n = Ok buf → length buf = n.

(** A read within the file's first eight gigabytes, of less than a block's count. *)
Definition boundedRead (r : Z * nat) : Prop := 0 <= r.1 < 2 ^ 33 /\ Z.of_nat r.2 <= maxVersionResource.

(** [m] makes at most [k] reads, all bounded, does not panic, and its value has [Q]. *)
Definition spends {A} (k : nat) (m : rd A) (Q : A → Prop) : Prop :=
  ∀ log, ∃ r new, m log = (Some r, log ++ new) /\ (length new <= k)%nat /\ Forall boundedRead new /\
    match r with Ok a => Q a | Err _ => True end.

Lemma spends_ret {A} k (a : A) (Q : A → Prop) : Q a → spends k (rret a) Q.
Proof. intros Ha log. exists (Ok a), []. rewrite app_nil_r. split_and!; [done|cbn; lia|constructor|done]. Qed.

Lemma spends_fail {A} k e (Q : A → Prop) : spends k (rfail e) Q.
Proof. intros log. exists (Err e), []. rewrite app_nil_r. split_and!; [done|cbn; lia|constructor|done]. Qed.

Lemma spends_bind {A B} k1 k2 (m : rd A) (f : A → rd B) Q R : spends k1 m Q → (∀ a, Q a → spends k2 (f a) R) →
  spends (k1 + k2) (rbind m f) R.
Proof.
  intros Hm Hf log. destruct (Hm log) as (r & new & Heq & Hk & Hall & HQ). unfold rbind. rewrite Heq. destruct r as [a|e].
  - destruct (Hf a HQ (log ++ new)) as (r & new' & -> & Hk' & Hall' & HR). exists r, (new ++ new').
    rewrite <- app_assoc, length_app. split_and!; [done|lia|by apply Forall_app|done].
  - exists (Err e), new. split_and!; [done|lia|done|done].
Qed.

(** An index that is in range costs nothing. *)
Lemma spends_get {A B} k (x : option A) (f : A → rd B) (Q : A → Prop) R :
  (∃ a, x = Some a /\ Q a) → (∀ a, Q a → spends k (f a) R) → spends k (rbind (rget x) f) R.
Proof. intros (a & -> & Ha) Hf. exact (Hf a Ha). Qed.

Lemma spends_readAt off n : boundedRead (off, n) → spends 1 (readAt ReadAt off n) (λ buf, length buf = n).
Proof.
  intros Hb log. unfold readAt. destruct (ReadAt log off n) as [buf|e] eqn:Hr; eexists _, [(off, n)];
    (split_and!; [done|cbn; lia|apply Forall_singleton; exact Hb|]); [by eapply ReadAt_full|done].
Qed.

Lemma mapM_total {A B} (f : A → option B) l (P : B → Prop) : (∀ x, x ∈ l → ∃ y, f x = Some y /\ P y) → ∃ ys, mapM f l = Some ys /\ Forall P ys.
Proof.
  induction l as [|x l IH]; intros Hf; [exists []; split; [done|constructor]|].
  destruct (Hf x) as (y & Hy & HP); [by left|]. destruct IH as (ys & Hys & Hall); [intros z Hz; apply Hf; by right|].
  exists (y :: ys). cbn. rewrite Hy. cbn. rewrite Hys. split; [done|by constructor].
Qed.

(** A section whose numbers are [uint32]s. *)
Definition section_ok (s : imageSection) : Prop := 0 <= virtualAddress s < 2 ^ 32 /\ 0 <= rawSize s < 2 ^ 32 /\ 0 <= rawOffset s < 2 ^ 32.

Definition layout_ok (img : imageLayout) : Prop := Forall section_ok (sections img) /\ 0 <= resourceRVA img < 2 ^ 32.

Lemma sectionRow_total table i n : length table = (n * 40)%nat → (i < n)%nat → ∃ s, sectionRow table i = Some s /\ section_ok s.
Proof.
  intros Hl Hi. unfold sectionRow. rewrite slice_in_range by lia. cbn [mbind option_bind].
  set (s := take _ _). assert (length s = length table - i * 40)%nat as Hs by (unfold s; rewrite length_take, length_drop; lia).
  destruct (u32at_total s 8) as (a & -> & Ha); [lia|]. destruct (u32at_total s 12) as (b & -> & Hb); [lia|].
  destruct (u32at_total s 16) as (c & -> & Hc); [lia|]. destruct (u32at_total s 20) as (d & -> & Hd); [lia|].
  eexists. split; [done|]. exact (conj Hb (conj Hc Hd)).
Qed.

Lemma resourceOf_total optional size countAt at_ : length optional = size → ∃ v, resourceOf optional size countAt at_ = Some v /\ 0 <= v < 2 ^ 32.
Proof.
  intros Hl. unfold resourceOf. destruct (Nat.leb_spec (countAt + 4) size); [|exists 0; split; [done|lia]].
  destruct (u32at_total optional countAt) as (c & -> & _); [lia|]. cbn [mbind option_bind].
  destruct (resourceDirectory <? c); cbn [andb]; [|exists 0; split; [done|lia]].
  destruct (Nat.leb_spec (at_ + 2 * 8 + 8) size); [|exists 0; split; [done|lia]]. apply u32at_total. lia.
Qed.

Lemma bounded_small off n : 0 <= off < 2 ^ 33 → Z.of_nat n <= 0xFFFF → boundedRead (off, n).
Proof. intros Ho Hn. by split. Qed.

Lemma spends_layout : spends 4 (readImageLayout ReadAt) layout_ok.
Proof.
  unfold readImageLayout, notPE.
  apply (spends_bind 1 3 _ _ (λ buf, length buf = 64%nat)); [apply spends_readAt, bounded_small; lia|]. intros dos Hdos.
  eapply (spends_get _ _ _ (λ _, True)); [destruct dos; [done|by eexists]|]. intros m _.
  eapply (spends_get _ _ _ (λ _, True)); [destruct dos as [|? [|]]; [done|done|by eexists]|]. intros z _.
  destruct (_ || _); [apply spends_fail|].
  eapply (spends_get _ _ _ (λ v, 0 <= v < 2 ^ 32)); [apply u32at_total; lia|]. intros pe Hpe.
  destruct (Z.ltb_spec maxHeaderOffset pe) as [|Hoff]; [apply spends_fail|]. unfold maxHeaderOffset in Hoff.
  apply (spends_bind 1 2 _ _ (λ buf, length buf = 24%nat)); [apply spends_readAt, bounded_small; lia|]. intros head Hhead.
  eapply (spends_get _ _ _ (λ _, True)); [rewrite slice_in_range by lia; by eexists|]. intros magic _.
  destruct (negb _); [apply spends_fail|].
  eapply (spends_get _ _ _ (λ v, 0 <= v < 2 ^ 16)); [apply u16at_total; lia|]. intros count Hcount.
  eapply (spends_get _ _ _ (λ v, 0 <= v < 2 ^ 16)); [apply u16at_total; lia|]. intros size Hsize.
  destruct (_ || _ || _) eqn:Hg; [apply spends_fail|]. to_prop. unfold maxSections, maxOptionalHeader in *.
  apply (spends_bind 1 1 _ _ (λ buf, length buf = Z.to_nat size)); [apply spends_readAt, bounded_small; lia|]. intros optional Hopt.
  eapply (spends_get _ _ _ (λ v, 0 <= v < 2 ^ 16)); [apply u16at_total; lia|]. intros magic' _.
  destruct (optionalLayout magic') as [[countAt directoriesAt]|]; [|apply spends_fail].
  eapply (spends_get _ _ _ (λ v, 0 <= v < 2 ^ 32)); [by apply resourceOf_total|]. intros rva Hrva.
  apply (spends_bind 1 0 _ _ (λ buf, length buf = (Z.to_nat count * 40)%nat)); [apply spends_readAt, bounded_small; lia|]. intros table Htable.
  eapply (spends_get _ _ _ (Forall section_ok)); [|intros ss Hss; apply spends_ret; by split].
  apply mapM_total. intros i Hi. eapply sectionRow_total; [done|]. apply elem_of_seq in Hi. lia.
Qed.

Lemma spends_read img rva n : layout_ok img → 0 <= rva < 2 ^ 32 → Z.of_nat n <= 0xFFFF → spends 1 (read_ ReadAt img rva n) (λ buf, length buf = n).
Proof.
  intros [Hs _] Hrva Hn. unfold read_. destruct (find _ (sections img)) as [s|] eqn:Hf; [|apply spends_fail].
  apply find_some in Hf as [Hin Hb]. rewrite Forall_forall in Hs. apply list_elem_of_In in Hin. destruct (Hs s Hin) as (Hva & Hraw & Hoff).
  to_prop. apply spends_readAt, bounded_small; lia.
Qed.

Lemma entryRow_total raw i n : length raw = (n * 8)%nat → (i < n)%nat → ∃ e, entryRow raw i = Some e /\ True.
Proof.
  intros Hl Hi. unfold entryRow. destruct (u32at_total raw (i * 8)) as (a & -> & _); [lia|].
  destruct (u32at_total raw (i * 8 + 4)) as (b & -> & _); [lia|]. by eexists.
Qed.

Lemma spends_directory img rva : layout_ok img → 0 <= rva < 2 ^ 32 → spends 2 (directory ReadAt img rva) (λ _, True).
Proof.
  intros Himg Hrva. unfold directory. apply (spends_bind 1 1 _ _ (λ buf, length buf = 16%nat)); [apply spends_read; [done|done|lia]|].
  intros head Hhead. eapply (spends_get _ _ _ (λ v, 0 <= v < 2 ^ 16)); [apply u16at_total; lia|]. intros a Ha.
  eapply (spends_get _ _ _ (λ v, 0 <= v < 2 ^ 16)); [apply u16at_total; lia|]. intros b Hb. cbv zeta.
  destruct (_ || _) eqn:Hg; [apply spends_fail|]. to_prop. unfold maxResourceEntries in *.
  apply (spends_bind 1 0 _ _ (λ buf, length buf = (Z.to_nat (a + b) * 8)%nat)); [apply spends_read; [done|apply u32_range|lia]|].
  intros raw Hraw. destruct (mapM_total (entryRow raw) (seq 0 (Z.to_nat (a + b))) (λ _, True)) as (es & -> & _); [|by apply spends_ret].
  intros i Hi. eapply entryRow_total; [done|]. apply elem_of_seq in Hi. lia.
Qed.

Lemma spends_subdirectory img entries f : layout_ok img → spends 2 (subdirectory ReadAt img entries f) (λ _, True).
Proof.
  intros Himg. unfold subdirectory. destruct (find _ entries); [|apply spends_fail]. apply spends_directory; [done|apply u32_range].
Qed.

Lemma spends_leaf img languages : layout_ok img → spends 2 (leaf ReadAt img languages) (λ _, True).
Proof.
  intros Himg. unfold leaf. destruct (leafLoop languages None) as [e|]; [|apply spends_fail].
  apply (spends_bind 1 1 _ _ (λ buf, length buf = 16%nat)); [apply spends_read; [done|apply u32_range|lia]|]. intros entry Hentry.
  eapply (spends_get _ _ _ (λ v, 0 <= v < 2 ^ 32)); [apply u32at_total; lia|]. intros size Hsize.
  destruct (_ || _) eqn:Hg; [apply spends_fail|]. to_prop. unfold maxVersionResource in *.
  eapply (spends_get _ _ _ (λ v, 0 <= v < 2 ^ 32)); [apply u32at_total; lia|]. intros rva Hrva.
  intros log. destruct (spends_read img rva (Z.to_nat size) Himg Hrva ltac:(lia) log) as (r & new & -> & Hk & Hall & _).
  exists r, new. split_and!; [done|done|done|by destruct r].
Qed.

Lemma spends_resource : spends 12 (readVersionResource ReadAt) (λ _, True).
Proof.
  unfold readVersionResource. apply (spends_bind 4 8 _ _ layout_ok); [apply spends_layout|]. intros img Himg.
  destruct (resourceRVA img =? 0); [apply spends_fail|].
  apply (spends_bind 2 6 _ _ (λ _, True)); [apply spends_directory; [done|apply Himg]|]. intros types _.
  apply (spends_bind 2 4 _ _ (λ _, True)); [by apply spends_subdirectory|]. intros names _.
  apply (spends_bind 2 2 _ _ (λ _, True)); [by apply spends_subdirectory|]. intros languages _.
  apply (spends_bind 2 0 _ _ (λ _, True)); [by apply spends_leaf|]. intros data _ log'.
  destruct (parseVersionInfo_some data) as [r ->]. exists r, []. rewrite app_nil_r. split_and!; [done|cbn; lia|constructor|by destruct r].
Qed.

(** Whatever the file holds and however it changes while it is read, [readVersionResource] makes at most twelve reads,
    each of less than 64 KiB and at an offset the PE format can reach, and ends with the two names or an error: no offset
    or count the file gives makes it read on, index out of range or loop. *)
Theorem image_reads_bounded log : ∃ r new, readVersionResource ReadAt log = (Some r, log ++ new) /\
  (length new <= 12)%nat /\ Forall boundedRead new.
Proof. destruct (spends_resource log) as (r & new & Heq & Hk & Hall & _). eauto. Qed.
End Bounded.

(** ** A file *)

(** The reader of a file whose bytes stay. *)
Definition fileReader (file : list byte) (_ : reads) (off : Z) (n : nat) : result (list byte) :=
  if (off <? 0) || (Z.of_nat (length file) <? off + Z.of_nat n) then Err (Sentinel IoEOF)
  else Ok (take n (drop (Z.to_nat off) file)).

Lemma fileReader_full file log off n buf : fileReader file log off n = Ok buf → length buf = n.
Proof.
  unfold fileReader. destruct (_ || _) eqn:Hb; [done|]. intros [= <-]. to_prop. rewrite length_take, length_drop. lia.
Qed.

(** A program with one section, which holds its version resource. *)
Definition examplePE : list byte :=
  let zeros n := replicate (Z.to_nat n) x00 in
  let dir id offset := zeros 14 ++ le16_put 1 ++ le32_put id ++ le32_put offset in
  let data := encode exampleResource in
  [x4d; x5a] ++ zeros 58 ++ le32_put 64
  ++ [x50; x45; x00; x00] ++ zeros 2 ++ le16_put 1 ++ zeros 12 ++ le16_put 136 ++ zeros 2
  ++ le16_put 0x20B ++ zeros 106 ++ le32_put 3 ++ zeros 16 ++ le32_put 0x1000 ++ zeros 4
  ++ zeros 12 ++ le32_put 0x1000 ++ le32_put 0x1000 ++ le32_put 264 ++ zeros 16
  ++ dir 16 0x80000018 ++ dir 1 0x80000030 ++ dir 0x409 0x48
  ++ le32_put 0x1058 ++ le32_put (Z.of_nat (length data)) ++ zeros 8 ++ data ++ zeros 4096.

Lemma examplePE_read : (readVersionResource (fileReader examplePE) []).1 = Some (Ok (mkVersion "Notepad" "NOTEPAD.EXE")).
Proof. vm_compute. reflexivity. Qed.

Lemma image_reads_bounded_witness : ∃ r new, readVersionResource (fileReader examplePE) [] = (Some r, [] ++ new) /\
  (length new <= 12)%nat /\ Forall boundedRead new.
Proof. exact (image_reads_bounded (fileReader examplePE) (fileReader_full examplePE) []). Defined.
