(* ===== verification/RecText.v ===== *)
(** go/abstraction/identity/api/rec.go, the writer: escaped strings, decimal
    numbers, indentation, opaque values reprinted, and maps in byte order.

    A Go string is the list of its bytes here, as the codec treats it. The writers
    append to [out] as the code does. *)

From S2P Require Import Prelude.


Abbreviation gostr := (list byte).

(** The bytes of a literal. *)
Definition lit (s : string) : gostr := String.list_byte_of_string s.

(** Values of the bytes the format names. *)
Abbreviation quote := x22.
Abbreviation backslash := x5c.
Abbreviation comma := x2c.
Abbreviation colon := x3a.
Abbreviation lbrace := x7b.
Abbreviation rbrace := x7d.
Abbreviation lbracket := x5b.
Abbreviation rbracket := x5d.
Abbreviation blank := x20.
Abbreviation linefeed := x0a.

(** ** Strings *)

Definition hexChar (n : Z) : byte := nth (Z.to_nat n) (lit "0123456789abcdef") x00.

(** [escByte]. *)
Definition escByte (out : list byte) (c : byte) : list byte :=
  match c with
  | x22 => out ++ [backslash; quote]
  | x5c => out ++ [backslash; backslash]
  | x08 => out ++ [backslash; x62]
  | x0c => out ++ [backslash; x66]
  | x0a => out ++ [backslash; x6e]
  | x0d => out ++ [backslash; x72]
  | x09 => out ++ [backslash; x74]
  | _ =>
      if bz c <? 0x20
      then out ++ [backslash; x75; x30; x30; hexChar (Z.shiftr (bz c) 4); hexChar (Z.land (bz c) 0xF)]
      else out ++ [c]
  end.

(** [esc]. *)
Definition esc (out : list byte) (s : gostr) : list byte :=
  fold_left escByte s (out ++ [quote]) ++ [quote].

(** ** Numbers *)

(** The digits of [u], which [uint64] holds: at most twenty. *)
Fixpoint digits (fuel : nat) (u : Z) (acc : list byte) : list byte :=
  match fuel with
  | O => acc
  | S fuel => if u =? 0 then acc else digits fuel (u / 10) (zb (48 + u mod 10) :: acc)
  end.

(** [num] of an [int64]. *)
Definition num (out : list byte) (n : Z) : list byte :=
  if n =? 0 then out ++ [x30]
  else
    let u := if n <? 0 then (- (n mod 2 ^ 64)) mod 2 ^ 64 else n mod 2 ^ 64 in
    (if n <? 0 then out ++ [x2d] else out) ++ digits 24 u [].

(** [decimal]. *)
Definition decimal (n : Z) : gostr := num [] n.

(** ** Layout *)

(** [pad]. *)
Definition pad (out : list byte) (depth : Z) : list byte := out ++ replicate (Z.to_nat (depth * 2)) blank.

(** The loop of [strs]. *)
Fixpoint strsLoop (out : list byte) (v : list gostr) (depth : Z) : list byte :=
  match v with
  | [] => out
  | s :: rest =>
      let out := esc (pad out (depth + 1)) s in
      let out := match rest with [] => out | _ => out ++ [comma] end in
      strsLoop (out ++ [linefeed]) rest depth
  end.

(** [strs]. *)
Definition strs (out : list byte) (v : list gostr) (depth : Z) : list byte :=
  match v with
  | [] => out ++ [lbracket; rbracket]
  | _ => pad (strsLoop (out ++ [lbracket; linefeed]) v depth) depth ++ [rbracket]
  end.

(** ** Opaque values *)

(** White space between tokens. *)
Definition is_ws (c : byte) : bool :=
  match c with x20 | x09 | x0a | x0d => true | _ => false end.

Fixpoint skipWs (s : list byte) : list byte :=
  match s with
  | c :: rest => if is_ws c then skipWs rest else s
  | [] => []
  end.

(** The string that starts after a quote, to its end or to the end of [s], and what
    follows it. A backslash takes the next byte; one that has none makes the slice
    out of range. *)
Fixpoint scanString (s : list byte) : option (list byte * list byte) :=
  match s with
  | [] => Some ([], [])
  | c :: rest =>
      if decide (c = backslash) then
        match rest with
        | [] => None
        | d :: rest => '(t, tl) ← scanString rest; Some (c :: d :: t, tl)
        end
      else if decide (c = quote) then Some ([c], rest)
      else '(t, tl) ← scanString rest; Some (c :: t, tl)
  end.

(** [raw]: an opaque value laid out again. [None] is a slice out of range. A turn
    takes a byte at least. *)
Fixpoint rawLoop (fuel : nat) (out s : list byte) (depth : Z) : option (list byte) :=
  match s with
  | [] => Some out
  | c :: rest =>
      match fuel with
      | O => None
      | S fuel =>
          if is_ws c then rawLoop fuel out rest depth
          else match c with
          | x22 => '(t, tl) ← scanString rest; rawLoop fuel (out ++ c :: t) tl depth
          | x7b | x5b =>
              let out := out ++ [c] in
              match skipWs rest with
              | x7d :: tl => rawLoop fuel (out ++ [rbrace]) tl depth
              | x5d :: tl => rawLoop fuel (out ++ [rbracket]) tl depth
              | _ => rawLoop fuel (pad (out ++ [linefeed]) (depth + 1)) rest (depth + 1)
              end
          | x7d | x5d => rawLoop fuel (pad (out ++ [linefeed]) (depth - 1) ++ [c]) rest (depth - 1)
          | x2c => rawLoop fuel (pad (out ++ [comma; linefeed]) depth) rest depth
          | x3a => rawLoop fuel (out ++ [colon; blank]) rest depth
          | _ => rawLoop fuel (out ++ [c]) rest depth
          end
      end
  end.

Definition raw (out : list byte) (s : gostr) (depth : Z) : option (list byte) := rawLoop (length s) out s depth.

(** ** Maps *)

(** [byteLess]. *)
Fixpoint byteLess (a b : gostr) : bool :=
  match a, b with
  | x :: a, y :: b => if decide (x = y) then byteLess a b else bz x <? bz y
  | [], _ :: _ => true
  | _, [] => false
  end.

(** One turn of the outer loop of [sortedKeys]: the key moves left past the greater
    ones. The sorted part is held in reverse. *)
Fixpoint sinkKey (k : gostr) (sorted : list gostr) : list gostr :=
  match sorted with
  | x :: rest => if byteLess k x then x :: sinkKey k rest else k :: sorted
  | [] => [k]
  end.

(** [sortedKeys], of the keys in the order the map gave them. *)
Definition sortedKeys (keys : list gostr) : list gostr :=
  rev (fold_left (λ sorted k, sinkKey k sorted) keys []).

(** The loop of [rawmap] over the sorted entries. *)
Fixpoint rawmapLoop (out : list byte) (m : list (gostr * gostr)) (depth : Z) : option (list byte) :=
  match m with
  | [] => Some out
  | (k, v) :: rest =>
      out ← raw (esc (pad out (depth + 1)) k ++ [colon; blank]) v (depth + 1);
      let out := match rest with [] => out | _ => out ++ [comma] end in
      rawmapLoop (out ++ [linefeed]) rest depth
  end.

(** [rawmap], of a map whose iteration gives [order]. *)
Definition rawmap (out : list byte) (m : gmap gostr gostr) (order : list gostr) (depth : Z) : option (list byte) :=
  match sortedKeys order with
  | [] => Some (out ++ [lbrace; rbrace])
  | keys =>
      out ← rawmapLoop (out ++ [lbrace; linefeed]) (map (λ k, (k, default [] (m !! k))) keys) depth;
      Some (pad out depth ++ [rbrace])
  end.

(** * go/abstraction/identity/api/rec.go, the reader: a cursor over the input, the
    JSON scalars a record may hold, and opaque values walked without being
    interpreted.

    A method of [reader] is a function from a cursor to a value and the cursor
    after it, or to the refusal, which holds the offset it was made at. *)


(** [Refusal]. *)
Record Refusal := mkRefusal { Word : gostr; Offset : nat }.

(** [Refusal.Error]. *)
Definition RefusalError (r : Refusal) : gostr :=
  lit "refused: " ++ Word r ++ lit " at byte " ++ decimal (Z.of_nat (Offset r)).

(** [reader]. *)
Record reader := mkReader { buf : list byte; pos : nat; depth : nat }.

Definition depthLimit : nat := 64.

(** The result of a method: a value and the cursor, or a refusal. *)
Definition parser (A : Type) : Type := reader → (A * reader) + Refusal.

Definition pret {A} (a : A) : parser A := λ r, inl (a, r).

Definition pbind {A B} (m : parser A) (k : A → parser B) : parser B :=
  λ r, match m r with inl (a, r) => k a r | inr e => inr e end.

Declare Scope parser_scope.
Delimit Scope parser_scope with parser.
Notation "x <- m ; k" := (pbind m (λ x, k)) (at level 100, m at next level, right associativity) : parser_scope.
Notation "m ;; k" := (pbind m (λ _, k)) (at level 100, right associativity) : parser_scope.
#[local] Open Scope parser_scope.

(** [refuse]. *)
Definition refuse {A} (word : string) : parser A := λ r, inr (mkRefusal (lit word) (pos r)).

(** [at]: the byte under the cursor, and zero past the end. *)
Definition at_ (r : reader) : byte := nth (pos r) (buf r) x00.

Definition peek : parser byte := λ r, inl (at_ r, r).

(** [r.pos += n]. *)
Definition advance (n : nat) : parser unit := λ r, inl (tt, mkReader (buf r) (pos r + n) (depth r)).

(** What is left to read, which bounds every loop. *)
Definition left_ (r : reader) : nat := length (buf r) - pos r.

Definition atEnd : parser bool := λ r, inl ((length (buf r) <=? pos r)%nat, r).

(** Fuel that runs out is a refusal no input gets. *)
Definition noFuel {A} : parser A := refuse "".

(** [ws]. *)
Definition ws : parser unit :=
  λ r, inl (tt, mkReader (buf r) (pos r + (left_ r - length (skipWs (drop (pos r) (buf r))))) (depth r)).

(** [enter], and the [r.depth--] of the matching end. *)
Definition enter : parser unit :=
  λ r, let r := mkReader (buf r) (pos r) (S (depth r)) in
       if (depthLimit <? depth r)%nat then refuse "depth_exceeded" r else inl (tt, r).

Definition leave : parser unit := λ r, inl (tt, mkReader (buf r) (pos r) (depth r - 1)).

(** ** Strings *)

(** The value of a hexadecimal digit. *)
Definition hexValue (c : byte) : option Z :=
  let n := bz c in
  if (48 <=? n) && (n <=? 57) then Some (n - 48)
  else if (97 <=? n) && (n <=? 102) then Some (n - 97 + 10)
  else if (65 <=? n) && (n <=? 70) then Some (n - 65 + 10)
  else None.

(** The loop of [hex4] over the digits. *)
Fixpoint hexLoop (ds : list byte) (u : Z) : option Z :=
  match ds with
  | [] => Some u
  | c :: ds => match hexValue c with Some d => hexLoop ds (Z.lor (Z.shiftl u 4) d) | None => None end
  end.

(** [hex4]. *)
Definition hex4 : parser Z :=
  λ r, if (length (buf r) <? pos r + 4)%nat then refuse "bad_string" r
       else match hexLoop (take 4 (drop (pos r) (buf r))) 0 with
            | None => refuse "bad_string" r
            | Some u => (advance 4 ;; pret u) r
            end.

(** [appendRune]. *)
Definition appendRune (out : list byte) (cp : Z) : list byte :=
  if cp <? 0x80 then out ++ [zb cp]
  else if cp <? 0x800 then out ++ [zb (Z.lor 0xC0 (Z.shiftr cp 6)); zb (Z.lor 0x80 (Z.land cp 0x3F))]
  else if cp <? 0x10000 then
    out ++ [zb (Z.lor 0xE0 (Z.shiftr cp 12)); zb (Z.lor 0x80 (Z.land (Z.shiftr cp 6) 0x3F)); zb (Z.lor 0x80 (Z.land cp 0x3F))]
  else
    out ++ [zb (Z.lor 0xF0 (Z.shiftr cp 18)); zb (Z.lor 0x80 (Z.land (Z.shiftr cp 12) 0x3F));
            zb (Z.lor 0x80 (Z.land (Z.shiftr cp 6) 0x3F)); zb (Z.lor 0x80 (Z.land cp 0x3F))].

(** The continuation bytes of a sequence: [None] when one is not. *)
Fixpoint contBytes (bs : list byte) (cp : Z) : option Z :=
  match bs with
  | [] => Some cp
  | b :: bs =>
      if negb (Z.shiftr (bz b) 6 =? 0x2) then None
      else contBytes bs (Z.lor (Z.shiftl cp 6) (Z.land (bz b) 0x3F))
  end.

(** The length and the first bits of the sequence [c] leads, beyond ASCII. *)
Definition leadByte (c : byte) : option (nat * Z) :=
  if Z.shiftr (bz c) 5 =? 0x6 then Some (2%nat, Z.land (bz c) 0x1F)
  else if Z.shiftr (bz c) 4 =? 0xE then Some (3%nat, Z.land (bz c) 0x0F)
  else if Z.shiftr (bz c) 3 =? 0x1E then Some (4%nat, Z.land (bz c) 0x07)
  else None.

Definition lowest (n : nat) : Z := nth n [0; 0; 0x80; 0x800; 0x10000] 0.

(** [validUTF8]; a turn takes a byte at least. *)
Fixpoint validLoop (fuel : nat) (b : list byte) : bool :=
  match b with
  | [] => true
  | c :: rest =>
      match fuel with
      | O => false
      | S fuel =>
          if bz c <? 0x80 then validLoop fuel rest
          else match leadByte c with
          | None => false
          | Some (n, cp) =>
              if (length b <? n)%nat then false
              else match contBytes (take (n - 1) rest) cp with
              | None => false
              | Some cp =>
                  if (cp <? lowest n) || (0x10FFFF <? cp) || ((0xD800 <=? cp) && (cp <=? 0xDFFF)) then false
                  else validLoop fuel (drop (n - 1) rest)
              end
          end
      end
  end.

Definition validUTF8 (b : list byte) : bool := validLoop (length b) b.

(** The low half of a surrogate pair, after its high half [u]. *)
Definition lowSurrogate (u : Z) : parser Z :=
  λ r, if (length (buf r) <=? pos r + 1)%nat
          || negb (bool_decide (nth (pos r) (buf r) x00 = backslash))
          || negb (bool_decide (nth (pos r + 1) (buf r) x00 = x75))
       then refuse "bad_string" r
       else (advance 2 ;;
             lo <- hex4 ;
             if (lo <? 0xDC00) || (0xDFFF <? lo) then refuse "bad_string"
             else pret (0x10000 + Z.shiftl (u - 0xD800) 10 + (lo - 0xDC00))) r.

(** [escape], from the backslash. *)
Definition escape (out : list byte) : parser (list byte) :=
  advance 1 ;;
  e <- atEnd ;
  if e : bool then refuse "malformed"
  else
    c <- peek ;
    advance 1 ;;
    match c with
    | x22 | x5c | x2f => pret (out ++ [c])
    | x62 => pret (out ++ [x08])
    | x66 => pret (out ++ [x0c])
    | x6e => pret (out ++ [x0a])
    | x72 => pret (out ++ [x0d])
    | x74 => pret (out ++ [x09])
    | x75 =>
        u <- hex4 ;
        if (0xDC00 <=? u) && (u <=? 0xDFFF) then refuse "bad_string"
        else if (0xD800 <=? u) && (u <=? 0xDBFF) then
          u <- lowSurrogate u ; pret (appendRune out u)
        else pret (appendRune out u)
    | _ => refuse "bad_string"
    end.

(** The loop of [str], from after the opening quote. *)
Fixpoint strLoop (fuel : nat) (out : list byte) : parser gostr :=
  match fuel with
  | O => noFuel
  | S fuel =>
      e <- atEnd ;
      if e : bool then refuse "malformed"
      else
        c <- peek ;
        if decide (c = quote) then
          advance 1 ;; if validUTF8 out then pret out else refuse "bad_string"
        else if bz c <? 0x20 then refuse "bad_string"
        else if decide (c = backslash) then out <- escape out ; strLoop fuel out
        else advance 1 ;; strLoop fuel (out ++ [c])
  end.

(** [str]: a turn takes a byte at least. *)
Definition str : parser gostr :=
  c <- peek ;
  if negb (bool_decide (c = quote)) then refuse "wrong_type"
  else advance 1 ;; λ r, strLoop (S (left_ r)) [] r.

(** ** Other scalars *)

Definition is_digit (c : byte) : bool := (48 <=? bz c) && (bz c <=? 57).

(** The digits of [integer] after its first, with the check before each that keeps
    the sum within [uint64]. *)
Fixpoint integerLoop (fuel : nat) (u : Z) : parser Z :=
  match fuel with
  | O => noFuel
  | S fuel =>
      d <- peek ;
      if negb (is_digit d) then pret u
      else if 922337203685477580 <? u then refuse "number_spelling"
      else advance 1 ;; integerLoop fuel ((u * 10 + (bz d - 48)) mod 2 ^ 64)
  end.

(** [integer]. *)
Definition integer (lo hi : Z) : parser Z :=
  c <- peek ;
  if negb (bool_decide (c = x2d)) && negb (is_digit c) then refuse "wrong_type"
  else
    let neg := bool_decide (c = x2d) in
    (if neg then advance 1 else pret tt) ;;
    d <- peek ;
    if negb (is_digit d) then refuse "malformed"
    else
      u <- (if decide (d = x30) then advance 1 ;; pret 0 else λ r, integerLoop (S (left_ r)) 0 r) ;
      c <- peek ;
      if bool_decide (c = x2e) || bool_decide (c = x65) || bool_decide (c = x45) || is_digit c
      then refuse "number_spelling"
      else if neg && (u =? 0) then refuse "number_spelling"
      else
        let n := if neg && (u =? 2 ^ 63) then Some (- 2 ^ 63)
                 else if 2 ^ 63 - 1 <? u then None
                 else if neg then Some (- u) else Some u in
        match n with
        | None => refuse "number_spelling"
        | Some n => if (n <? lo) || (hi <? n) then refuse "number_spelling" else pret n
        end.

(** [literal]. *)
Definition literal (word : gostr) : parser unit :=
  λ r, if (length (buf r) <? pos r + length word)%nat || negb (bool_decide (take (length word) (drop (pos r) (buf r)) = word))
       then refuse "malformed" r
       else advance (length word) r.

(** [boolean]. *)
Definition boolean : parser bool :=
  c <- peek ;
  match c with
  | x74 => literal (lit "true") ;; pret true
  | x66 => literal (lit "false") ;; pret false
  | _ => refuse "wrong_type"
  end.

(** ** Lists and opaque values *)

(** The loop of [strList]. *)
Fixpoint strListLoop (fuel : nat) (out : list gostr) : parser (list gostr) :=
  match fuel with
  | O => noFuel
  | S fuel =>
      ws ;;
      s <- str ;
      ws ;;
      c <- peek ;
      if decide (c = comma) then advance 1 ;; strListLoop fuel (out ++ [s]) else pret (out ++ [s])
  end.

(** [strList]. *)
Definition strList : parser (list gostr) :=
  c <- peek ;
  if negb (bool_decide (c = lbracket)) then refuse "wrong_type"
  else
    enter ;; advance 1 ;; ws ;;
    c <- peek ;
    out <- (if decide (c = rbracket) then pret [] else λ r, strListLoop (S (left_ r)) [] r) ;
    c <- peek ;
    if negb (bool_decide (c = rbracket)) then refuse "malformed"
    else advance 1 ;; leave ;; pret out.

(** [skipString]. *)
Definition skipString : parser unit := str ;; pret tt.

(** The digits from the cursor on, counted. *)
Fixpoint digitRun (s : list byte) : nat :=
  match s with c :: rest => if is_digit c then S (digitRun rest) else O | [] => O end.

Definition skipDigits : parser nat :=
  λ r, let n := digitRun (drop (pos r) (buf r)) in (advance n ;; pret n) r.

(** [someDigits]. *)
Definition someDigits : parser unit :=
  n <- skipDigits ; if (n =? 0)%nat then refuse "number_spelling" else pret tt.

(** [skipNumber]. *)
Definition skipNumber : parser unit :=
  c <- peek ;
  (if decide (c = x2d) then advance 1 else pret tt) ;;
  c <- peek ;
  (if decide (c = x30) then advance 1
   else if is_digit c then skipDigits ;; pret tt
   else refuse "number_spelling") ;;
  c <- peek ;
  (if decide (c = x2e) then advance 1 ;; someDigits else pret tt) ;;
  c <- peek ;
  if bool_decide (c = x65) || bool_decide (c = x45) then
    advance 1 ;;
    c <- peek ;
    (if bool_decide (c = x2b) || bool_decide (c = x2d) then advance 1 else pret tt) ;;
    someDigits
  else pret tt.

(** The member name of an object and its colon, with the names seen so far. *)
Definition memberName (seen : list gostr) : parser (list gostr) :=
  c <- peek ;
  if negb (bool_decide (c = quote)) then refuse "malformed"
  else
    k <- str ;
    if bool_decide (k ∈ seen) then refuse "duplicate_key"
    else
      ws ;;
      c <- peek ;
      if negb (bool_decide (c = colon)) then refuse "malformed"
      else advance 1 ;; ws ;; pret (k :: seen).

Section Container.
(** What reads one value. *)
Context (skip : parser unit).

(** The loop of [skipContainer]; a turn takes a byte at least. *)
Fixpoint skipMembers (fuel : nat) (open : byte) (seen : list gostr) : parser unit :=
  match fuel with
  | O => noFuel
  | S fuel =>
      ws ;;
      seen <- (if decide (open = lbrace) then memberName seen else pret seen) ;
      skip ;;
      ws ;;
      c <- peek ;
      if decide (c = comma) then advance 1 ;; skipMembers fuel open seen else pret tt
  end.

(** [skipContainer]. *)
Definition skipContainer : parser unit :=
  open <- peek ;
  let shut := if decide (open = lbracket) then rbracket else rbrace in
  enter ;; advance 1 ;; ws ;;
  d <- peek ;
  (if decide (d = shut) then pret tt else λ r, skipMembers (S (left_ r)) open [] r) ;;
  d <- peek ;
  if negb (bool_decide (d = shut)) then refuse "malformed"
  else advance 1 ;; leave.
End Container.

(** [skipValue]; [fuel] bounds the nesting, which takes a byte a level. *)
Fixpoint skipValue (fuel : nat) : parser unit :=
  match fuel with
  | O => noFuel
  | S fuel =>
      c <- peek ;
      match c with
      | x22 => skipString
      | x7b | x5b => skipContainer (skipValue fuel)
      | x74 => literal (lit "true")
      | x66 => literal (lit "false")
      | x6e => literal (lit "null")
      | _ => if bool_decide (c = x2d) || is_digit c then skipNumber else refuse "malformed"
      end
  end.

(** [rawValue]. *)
Definition rawValue : parser gostr :=
  λ r, match skipValue (S (left_ r)) r with
       | inl (_, r') => inl (take (pos r' - pos r) (drop (pos r) (buf r)), r')
       | inr e => inr e
       end.

(** The loop of [rawMap]. *)
Fixpoint rawMapLoop (fuel : nat) (out : gmap gostr gostr) : parser (gmap gostr gostr) :=
  match fuel with
  | O => noFuel
  | S fuel =>
      ws ;;
      c <- peek ;
      if negb (bool_decide (c = quote)) then refuse "malformed"
      else
        k <- str ;
        match out !! k with
        | Some _ => refuse "duplicate_key"
        | None =>
            ws ;;
            c <- peek ;
            if negb (bool_decide (c = colon)) then refuse "malformed"
            else
              advance 1 ;; ws ;;
              v <- rawValue ;
              ws ;;
              c <- peek ;
              if decide (c = comma) then advance 1 ;; rawMapLoop fuel (<[k := v]> out) else pret (<[k := v]> out)
        end
  end.

(** [rawMap]. *)
Definition rawMap : parser (gmap gostr gostr) :=
  c <- peek ;
  if negb (bool_decide (c = lbrace)) then refuse "wrong_type"
  else
    enter ;; advance 1 ;; ws ;;
    c <- peek ;
    out <- (if decide (c = rbrace) then pret ∅ else λ r, rawMapLoop (S (left_ r)) ∅ r) ;
    c <- peek ;
    if negb (bool_decide (c = rbrace)) then refuse "malformed"
    else advance 1 ;; leave ;; pret out.

(** [refusals], in the order two of them are chosen between, and [refusalRank]. *)
Definition refusals : list gostr :=
  map lit ["malformed"; "bad_string"; "number_spelling"; "wrong_type"; "depth_exceeded"; "duplicate_key";
           "duplicate_field"; "unknown_field"; "missing_field"; "bad_enum"; "trailing_bytes"].

Fixpoint rankIn (ws : list gostr) (i : Z) (word : gostr) : Z :=
  match ws with
  | [] => -1
  | w :: ws => if decide (w = word) then i else rankIn ws (i + 1) word
  end.

Definition refusalRank (word : gostr) : Z := rankIn refusals 0 word.
