(* ===== verification/RecCodec.v ===== *)
(** go/abstraction/identity/api/rec.go, the records: the closed vocabulary of
    proofs, and the two records that carry it, written and read. *)

From S2P Require Import Prelude RecText.
#[local] Open Scope parser_scope.

(** ** The vocabulary *)

(** The members of [Proof] and their words; the numbers are private tags. *)
Definition proofWords : list (Z * string) :=
  [(1, "none"); (2, "claimed"); (3, "invalid"); (4, "unsigned"); (5, "unmet"); (6, "pid"); (7, "bound"); (8, "kernel");
   (9, "signed")].

(** [Proof.WireName]. *)
Definition WireName (v : Z) : option gostr := (lit ∘ snd) <$> find (λ w, fst w =? v) proofWords.

(** [Proof.String]. *)
Definition WireString (v : Z) : gostr := default [] (WireName v).

(** [ParseProof]. *)
Definition ParseProof (word : gostr) : option Z := fst <$> find (λ w, bool_decide (lit (snd w) = word)) proofWords.

(** [Proof.Known]. *)
Definition WireKnown (v : Z) : bool := match WireName v with Some _ => true | None => false end.

(** [ProofValues]. *)
Definition ProofValues : list Z := map fst proofWords.

(** [Proof.MarshalText] and [Proof.UnmarshalText]. *)
Definition MarshalText (v : Z) : gostr + Refusal :=
  match WireName v with Some word => inl word | None => inr (mkRefusal (lit "bad_enum") 0) end.

Definition UnmarshalText (text : gostr) : Z + Refusal :=
  match ParseProof text with Some v => inl v | None => inr (mkRefusal (lit "bad_enum") 0) end.

(** [Proof.MarshalJSON] and [Proof.UnmarshalJSON]. *)
Definition MarshalJSON (v : Z) : list byte + Refusal :=
  match WireName v with Some word => inl (esc [] word) | None => inr (mkRefusal (lit "bad_enum") 0) end.

Definition result_of {A} (x : (A * reader) + Refusal) : A + Refusal :=
  match x with inl (a, _) => inl a | inr e => inr e end.

Definition UnmarshalJSON (data : list byte) : Z + Refusal :=
  result_of
    ((ws ;;
      word <- str ;
      ws ;;
      e <- atEnd ;
      if negb e then refuse "trailing_bytes"
      else match ParseProof word with None => refuse "bad_enum" | Some v => pret v end)
     (mkReader data 0 0)).

(** ** The records *)

Record ProofRequirement := mkRequirement { RUser : Z; RProcess : Z; RPath : Z; RPackage : Z; RCode : Z }.

Record ProofFailure := mkFailure { FAttribute : gostr; FHave : Z; FNeed : Z; FWhy : gostr }.

(** One member of an object as the encoders write it. *)
Definition encField (out : list byte) (depth : Z) (key value : gostr) : list byte :=
  esc (esc (pad (out ++ [linefeed]) (depth + 1)) key ++ [colon; blank]) value.

(** [encProofRequirement]; a value that is no member makes it panic. *)
Definition encProofRequirement (out : list byte) (v : ProofRequirement) (depth : Z) : list byte + Refusal :=
  if negb (WireKnown (RUser v)) then inr (mkRefusal (lit "bad_enum") 0)
  else if negb (WireKnown (RProcess v)) then inr (mkRefusal (lit "bad_enum") 0)
  else if negb (WireKnown (RPath v)) then inr (mkRefusal (lit "bad_enum") 0)
  else if negb (WireKnown (RPackage v)) then inr (mkRefusal (lit "bad_enum") 0)
  else if negb (WireKnown (RCode v)) then inr (mkRefusal (lit "bad_enum") 0)
  else
    let out := encField (out ++ [lbrace]) depth (lit "user") (WireString (RUser v)) ++ [comma] in
    let out := encField out depth (lit "process") (WireString (RProcess v)) ++ [comma] in
    let out := encField out depth (lit "path") (WireString (RPath v)) ++ [comma] in
    let out := encField out depth (lit "package") (WireString (RPackage v)) ++ [comma] in
    let out := encField out depth (lit "code") (WireString (RCode v)) ++ [linefeed] in
    inl (pad out depth ++ [rbrace]).

(** [encProofFailure]. *)
Definition encProofFailure (out : list byte) (v : ProofFailure) (depth : Z) : list byte + Refusal :=
  if negb (WireKnown (FHave v)) then inr (mkRefusal (lit "bad_enum") 0)
  else if negb (WireKnown (FNeed v)) then inr (mkRefusal (lit "bad_enum") 0)
  else
    let out := encField (out ++ [lbrace]) depth (lit "attribute") (FAttribute v) ++ [comma] in
    let out := encField out depth (lit "have") (WireString (FHave v)) ++ [comma] in
    let out := encField out depth (lit "need") (WireString (FNeed v)) ++ [comma] in
    let out := encField out depth (lit "why") (FWhy v) ++ [linefeed] in
    inl (pad out depth ++ [rbrace]).

(** [Encode]. *)
Definition Encode (v : ProofRequirement) : list byte + Refusal :=
  match encProofRequirement [] v 0 with inl out => inl (out ++ [linefeed]) | inr e => inr e end.

(** ** Reading an object *)

Section Object.
Context {V : Type}.

(** What the decoder does with a member's name, once past its colon: the record and
    the mask of the fields seen. *)
Context (field : gostr → V → Z → parser (V * Z)).

(** The loop over the members. *)
Fixpoint objectLoop (fuel : nat) (v : V) (seen : Z) : parser (V * Z) :=
  match fuel with
  | O => noFuel
  | S fuel =>
      ws ;;
      c <- peek ;
      if negb (bool_decide (c = quote)) then refuse "malformed"
      else
        key <- str ;
        ws ;;
        c <- peek ;
        if negb (bool_decide (c = colon)) then refuse "malformed"
        else
          advance 1 ;; ws ;;
          x <- field key v seen ;
          ws ;;
          c <- peek ;
          if decide (c = comma) then advance 1 ;; objectLoop fuel x.1 x.2 else pret x
  end.

(** A decoder up to its closing brace. *)
Definition decodeObject (zero : V) : parser (V * Z) :=
  c <- peek ;
  if negb (bool_decide (c = lbrace)) then refuse "wrong_type"
  else
    enter ;; advance 1 ;; ws ;;
    c <- peek ;
    x <- (if decide (c = rbrace) then pret (zero, 0) else λ r, objectLoop (S (left_ r)) zero 0 r) ;
    c <- peek ;
    if negb (bool_decide (c = rbrace)) then refuse "malformed"
    else advance 1 ;; leave ;; pret x.
End Object.

(** A string field, and one that is a member of [Proof], with the bit of its own. *)
Definition stringField {V} (bit : Z) (set : gostr → V) (seen : Z) : parser (V * Z) :=
  if negb (Z.land seen bit =? 0) then refuse "duplicate_field"
  else x <- str ; pret (set x, Z.lor seen bit).

Definition proofField {V} (bit : Z) (set : Z → V) (seen : Z) : parser (V * Z) :=
  if negb (Z.land seen bit =? 0) then refuse "duplicate_field"
  else
    x <- str ;
    match ParseProof x with
    | None => refuse "bad_enum"
    | Some word => pret (set word, Z.lor seen bit)
    end.

(** The [switch] of [decodeProofRequirement]. *)
Definition requirementField (key : gostr) (v : ProofRequirement) (seen : Z) : parser (ProofRequirement * Z) :=
  if decide (key = lit "user") then
    proofField 1 (λ w, mkRequirement w (RProcess v) (RPath v) (RPackage v) (RCode v)) seen
  else if decide (key = lit "process") then
    proofField 2 (λ w, mkRequirement (RUser v) w (RPath v) (RPackage v) (RCode v)) seen
  else if decide (key = lit "path") then
    proofField 4 (λ w, mkRequirement (RUser v) (RProcess v) w (RPackage v) (RCode v)) seen
  else if decide (key = lit "package") then
    proofField 8 (λ w, mkRequirement (RUser v) (RProcess v) (RPath v) w (RCode v)) seen
  else if decide (key = lit "code") then
    proofField 16 (λ w, mkRequirement (RUser v) (RProcess v) (RPath v) (RPackage v) w) seen
  else refuse "unknown_field".

(** [decodeProofRequirement]. *)
Definition decodeProofRequirement : parser ProofRequirement :=
  x <- decodeObject requirementField (mkRequirement 0 0 0 0 0) ;
  let '(v, seen) := x in
  if negb (Z.land seen 31 =? 31) then refuse "missing_field"
  else if negb (WireKnown (RUser v)) then refuse "bad_enum"
  else if negb (WireKnown (RProcess v)) then refuse "bad_enum"
  else if negb (WireKnown (RPath v)) then refuse "bad_enum"
  else if negb (WireKnown (RPackage v)) then refuse "bad_enum"
  else if negb (WireKnown (RCode v)) then refuse "bad_enum"
  else pret v.

(** The [switch] of [decodeProofFailure]. *)
Definition failureField (key : gostr) (v : ProofFailure) (seen : Z) : parser (ProofFailure * Z) :=
  if decide (key = lit "attribute") then stringField 1 (λ x, mkFailure x (FHave v) (FNeed v) (FWhy v)) seen
  else if decide (key = lit "have") then proofField 2 (λ w, mkFailure (FAttribute v) w (FNeed v) (FWhy v)) seen
  else if decide (key = lit "need") then proofField 4 (λ w, mkFailure (FAttribute v) (FHave v) w (FWhy v)) seen
  else if decide (key = lit "why") then stringField 8 (λ x, mkFailure (FAttribute v) (FHave v) (FNeed v) x) seen
  else refuse "unknown_field".

(** [decodeProofFailure]. *)
Definition decodeProofFailure : parser ProofFailure :=
  x <- decodeObject failureField (mkFailure [] 0 0 []) ;
  let '(v, seen) := x in
  if negb (Z.land seen 15 =? 15) then refuse "missing_field"
  else if negb (WireKnown (FHave v)) then refuse "bad_enum"
  else if negb (WireKnown (FNeed v)) then refuse "bad_enum"
  else pret v.

(** [Decode]. *)
Definition Decode (input : list byte) : ProofRequirement + Refusal :=
  result_of
    ((ws ;;
      v <- decodeProofRequirement ;
      ws ;;
      e <- atEnd ;
      if negb e then refuse "trailing_bytes" else pret v)
     (mkReader input 0 0)).
