(* ===== verification/RecTotal.v ===== *)
(** The reader of rec.go always ends: on every input each method gives a value or a
    refusal with one of the words of the format and an offset within the input; no
    loop runs out of the fuel its definition has.

    The methods are followed with weakest preconditions over the cursor. *)

From S2P Require Import Prelude RecText RecCodec.
#[local] Open Scope parser_scope.

(** A refusal of the format, made within an input of [N] bytes. *)
Definition refusal_ok (N : nat) (e : Refusal) : Prop := Word e ∈ refusals /\ (Offset e <= N)%nat.

(** [m] at [r] ends in [Q], or in a refusal of the format. *)
Definition wp {A} (N : nat) (m : parser A) (r : reader) (Q : A → reader → Prop) : Prop :=
  match m r with inl (a, r') => Q a r' | inr e => refusal_ok N e end.

(** The cursor [r] is [n] bytes or more past [r0], in the same input. *)
Record past (r0 : reader) (n : nat) (r : reader) : Prop := {
  past_buf : buf r = buf r0;
  past_pos : (pos r0 + n <= pos r <= length (buf r0))%nat
}.

Definition good (r : reader) : Prop := (pos r <= length (buf r))%nat.

Section Rules.
Context {A B : Type} (N : nat).

Lemma pwp_ret (a : A) r Q : Q a r → wp N (pret a) r Q.
Proof. done. Qed.

Lemma pwp_bind (m : parser A) (k : A → parser B) r Q :
  wp N m r (λ a r', wp N (k a) r' Q) → wp N (pbind m k) r Q.
Proof. unfold wp, pbind. by destruct (m r) as [[a r']|e]. Qed.

Lemma wp_refuse word r Q : lit word ∈ refusals → (pos r <= N)%nat → wp (A:=A) N (refuse word) r Q.
Proof. intros Hw Hp. split; [exact Hw|exact Hp]. Qed.

Lemma pwp_mono (m : parser A) r (Q Q' : A → reader → Prop) :
  (∀ a r', Q a r' → Q' a r') → wp N m r Q → wp N m r Q'.
Proof. intros HQ. unfold wp. destruct (m r) as [[a r']|e]; auto. Qed.

Lemma wp_peek r Q : Q (at_ r) r → wp N peek r Q.
Proof. done. Qed.
End Rules.

(** Words of the format, by computation. *)
Ltac in_format := vm_compute; repeat (apply list_elem_of_here || apply list_elem_of_further).

Lemma at_in_range r : at_ r ≠ x00 → (pos r < length (buf r))%nat.
Proof.
  unfold at_. intros Ha. destruct (decide (pos r < length (buf r))%nat); [done|]. by rewrite nth_overflow in Ha by lia.
Qed.

(** The cursor in terms of what is left of the input. *)
Lemma rest_at r : (pos r < length (buf r))%nat → drop (pos r) (buf r) = at_ r :: drop (S (pos r)) (buf r).
Proof.
  intros Hr. unfold at_. destruct (lookup_lt_is_Some_2 (buf r) (pos r) Hr) as [c Hc].
  rewrite (drop_S _ _ _ Hc). f_equal. symmetry. by apply nth_lookup_Some.
Qed.

Lemma past_refl r : good r → past r 0 r.
Proof. intros Hg. constructor; [done|unfold good in Hg; lia]. Qed.

Lemma past_good r0 n r : past r0 n r → good r.
Proof. intros [Hb Hp]. unfold good. rewrite Hb. lia. Qed.

Lemma past_le r0 n m r : (m <= n)%nat → past r0 n r → past r0 m r.
Proof. intros Hle [Hb Hp]. constructor; [done|lia]. Qed.

Lemma past_trans r0 n m r1 r2 : past r0 n r1 → past r1 m r2 → past r0 (n + m) r2.
Proof. intros [Hb1 Hp1] [Hb2 Hp2]. constructor; [congruence|]. rewrite Hb1 in Hp2. lia. Qed.

Lemma past_len r0 n r : past r0 n r → length (buf r) = length (buf r0).
Proof. intros [-> _]. done. Qed.

(** ** Steps *)

(** [sane n m]: [m] takes [n] bytes or more, or is refused properly. *)
Definition sane {A} (n : nat) (m : parser A) : Prop :=
  ∀ r, good r → wp (length (buf r)) m r (λ _ r', past r n r').

Lemma sane_wp {A} n (m : parser A) N r0 k r Q :
  sane n m → past r0 k r → N = length (buf r0) →
  (∀ a r', past r0 (k + n) r' → past r n r' → Q a r') → wp N m r Q.
Proof.
  intros Hs Hp -> HQ. specialize (Hs r (past_good _ _ _ Hp)). rewrite (past_len _ _ _ Hp) in Hs.
  eapply pwp_mono; [|exact Hs]. cbn. intros a r' Hr. apply HQ; [by eapply past_trans|done].
Qed.

Lemma wp_advance N r0 k n r Q : past r0 k r → (n <= length (buf r) - pos r)%nat →
  (∀ r', past r0 (k + n) r' → pos r' = (pos r + n)%nat → Q tt r') → wp N (advance n) r Q.
Proof.
  intros [Hb Hp] Hn HQ. apply HQ; [|done]. constructor; [done|]. cbn. rewrite Hb in Hn. lia.
Qed.

(** Past a byte that was seen, which is none of the end's. *)
Lemma wp_advance_seen N r0 k r Q : past r0 k r → at_ r ≠ x00 →
  (∀ r', past r0 (k + 1) r' → Q tt r') → wp N (advance 1) r Q.
Proof. intros Hp Ha HQ. eapply wp_advance; [done| |intros; by apply HQ]. pose proof (at_in_range r Ha). lia. Qed.

Lemma skipWs_length s : (length (skipWs s) <= length s)%nat.
Proof. induction s as [|c s IH]; [done|]. cbn. case_goal; cbn; lia. Qed.

Lemma sane_ws : sane 0 ws.
Proof.
  intros r Hg. constructor; [done|]. cbn. unfold left_, good in *.
  pose proof (skipWs_length (drop (pos r) (buf r))). rewrite length_drop in *. lia.
Qed.

Lemma sane_enter : sane 0 enter.
Proof.
  intros r Hg. unfold enter, wp. case_goal.
  - cbn. split; [in_format|]. cbn. exact Hg.
  - constructor; [done|]. cbn. unfold good in Hg. lia.
Qed.

Lemma sane_leave : sane 0 leave.
Proof. intros r Hg. constructor; [done|]. cbn. unfold good in Hg. lia. Qed.

Lemma sane_hex4 : sane 4 hex4.
Proof.
  intros r Hg. unfold hex4, wp. destruct (Nat.ltb_spec (length (buf r)) (pos r + 4)).
  - cbn. split; [in_format|exact Hg].
  - destruct (hexLoop _ 0); cbn.
    + constructor; [done|]. cbn. lia.
    + split; [in_format|exact Hg].
Qed.

Lemma sane_literal word : sane (length word) (literal word).
Proof.
  intros r Hg. unfold literal, wp. destruct (Nat.ltb_spec (length (buf r)) (pos r + length word)); cbn [orb].
  - split; [in_format|exact Hg].
  - case_goal; cbn; [split; [in_format|exact Hg]|].
    constructor; [done|]. cbn. lia.
Qed.

(** ** Following a method *)

Lemma wp_refuse_past {A} word r0 k r (Q : A → reader → Prop) :
  past r0 k r → lit word ∈ refusals → wp (length (buf r0)) (refuse word) r Q.
Proof. intros [Hb Hp] Hw. apply wp_refuse; [done|]. lia. Qed.

Lemma wp_atEnd N r (Q : bool → reader → Prop) :
  ((length (buf r) <= pos r)%nat → Q true r) → ((pos r < length (buf r))%nat → Q false r) → wp N atEnd r Q.
Proof. intros H1 H2. unfold wp, atEnd. destruct (Nat.leb_spec (length (buf r)) (pos r)); auto. Qed.

(** One step from the cursor that [Hp] is about; [n] is what is left to show. *)
Ltac follow :=
  match goal with
  | |- wp _ (pbind _ _) _ _ => apply pwp_bind
  | |- wp _ (pret _) _ _ => apply pwp_ret
  | |- wp _ peek _ _ => apply wp_peek
  | Hp : past _ _ ?r |- wp _ (refuse _) ?r _ => apply (wp_refuse_past _ _ _ _ _ Hp); in_format
  | Hp : past _ _ ?r, Ha : at_ ?r ≠ x00 |- wp _ (advance 1) ?r _ =>
      let r' := fresh "r" in let Hp' := fresh "Hp" in
      eapply (wp_advance_seen _ _ _ _ _ Hp Ha); intros r' Hp'
  | |- wp _ (if _ then _ else _) _ _ => let E := fresh "E" in case_goal
  end.

(** A method known to be sane, from the cursor that [Hp] is about. *)
Ltac use H :=
  match goal with
  | Hp : past _ _ ?r |- wp _ _ ?r _ =>
      let a := fresh "a" in let r' := fresh "r" in let Hp' := fresh "Hp" in
      eapply (sane_wp _ _ _ _ _ _ _ H Hp); [reflexivity|]; intros a r' Hp' _
  end.

(** Start: the cursor before the method. *)
Ltac begin r Hg := intros r Hg; pose proof (past_refl r Hg).

Lemma sane_lowSurrogate u : sane 6 (lowSurrogate u).
Proof.
  begin r Hg. unfold lowSurrogate.
  assert (∀ Q, wp (length (buf r)) (refuse (A:=Z) "bad_string") r Q) as Hbad by (intros Q; follow).
  unfold wp at 1. destruct (Nat.leb_spec (length (buf r)) (pos r + 1)) as [|Hlt]; cbn [orb]; [apply Hbad|].
  case_goal; [apply Hbad|].
  match goal with |- match ?m r with _ => _ end => change (wp (length (buf r)) m r (λ _ r', past r 6 r')) end.
  follow. eapply (wp_advance _ _ _ 2); [done|lia|]. intros r1 Hp1 _. follow. use sane_hex4.
  follow; follow. done.
Qed.

Lemma sane_escape out : ∀ r, good r → at_ r = backslash → wp (length (buf r)) (escape out) r (λ _ r', past r 2 r').
Proof.
  begin r Hg. intros Hat. unfold escape. follow.
  assert (at_ r ≠ x00) by (by rewrite Hat). follow. follow. apply wp_atEnd; intros Hend; [follow|].
  follow. follow. follow.
  eapply (wp_advance _ _ _ 1); [done|lia|]. intros r2 Hp2 _.
  assert (wp (length (buf r)) (u <- hex4 ;
        if (0xDC00 <=? u) && (u <=? 0xDFFF) then refuse "bad_string"
        else if (0xD800 <=? u) && (u <=? 0xDBFF) then
          u <- lowSurrogate u ; pret (appendRune out u)
        else pret (appendRune out u)) r2 (λ _ r', past r 2 r')) as Hu.
  { follow. use sane_hex4. follow; [follow|]. follow; [|follow; by eapply past_le; [|done]; lia].
    follow. use (sane_lowSurrogate a). follow. eapply past_le; [|done]. lia. }
  destruct (at_ r0); try exact Hu; try (apply pwp_ret; exact Hp2); follow.
Qed.

Lemma past_left r0 n r : past r0 n r → (n <= left_ r0 /\ left_ r + n <= left_ r0)%nat.
Proof. intros [Hb Hp]. unfold left_. rewrite Hb. lia. Qed.

(** From a cursor [k] bytes on, what is shown of a method there. *)
Lemma wp_from {A} (m : parser A) r k n k' r1 : past r k r1 → (k' <= k + n)%nat →
  wp (length (buf r1)) m r1 (λ _ r', past r1 n r') → wp (length (buf r)) m r1 (λ _ r', past r k' r').
Proof.
  intros Hp Hk Hw. rewrite (past_len _ _ _ Hp) in Hw. eapply pwp_mono; [|exact Hw]. cbn. intros _ r' Hr.
  eapply past_le; [exact Hk|]. by eapply past_trans.
Qed.

Lemma strLoop_total fuel out r : good r → (left_ r < fuel)%nat →
  wp (length (buf r)) (strLoop fuel out) r (λ _ r', past r 1 r').
Proof.
  revert out r. induction fuel as [|fuel IH]; intros out r Hg Hf; [lia|]. pose proof (past_refl r Hg) as Hp.
  cbn [strLoop]. follow. apply wp_atEnd; intros Hend; [follow|]. follow. follow.
  assert (∀ r1 out', past r 1 r1 → wp (length (buf r)) (strLoop fuel out') r1 (λ _ r', past r 1 r')) as Hgo.
  { intros r1 out' Hp1. pose proof (past_left _ _ _ Hp1) as [_ Hl].
    apply (wp_from _ _ _ 1 _ _ Hp1); [lia|]. apply IH; [by eapply past_good|lia]. }
  destruct (decide (at_ r = quote)) as [Hq|Hq].
  { assert (at_ r ≠ x00) by (by rewrite Hq). follow. follow. case_goal; follow. exact Hp0. }
  follow; [follow|].
  destruct (decide (at_ r = backslash)) as [Hb|Hb].
  - follow. eapply pwp_mono; [|by apply sane_escape]. cbn. intros out' r1 Hp1. apply Hgo. by eapply past_le; [|done]; lia.
  - follow. eapply (wp_advance _ _ _ 1); [done|lia|]. intros r1 Hp1 _. by apply Hgo.
Qed.

Lemma sane_str : sane 2 str.
Proof.
  begin r Hg. unfold str. follow. follow. case_bool_decide as Hq; cbn [negb]; [|follow].
  assert (at_ r ≠ x00) by (by rewrite Hq). follow. follow.
  apply (wp_from (strLoop (S (left_ r0)) []) _ _ 1 _ _ Hp); [done|]. apply strLoop_total; [by eapply past_good|lia].
Qed.

Lemma integerLoop_total fuel u r : good r → (left_ r < fuel)%nat →
  wp (length (buf r)) (integerLoop fuel u) r (λ _ r', past r 0 r').
Proof.
  revert u r. induction fuel as [|fuel IH]; intros u r Hg Hf; [lia|]. pose proof (past_refl r Hg) as Hp.
  cbn [integerLoop]. follow. follow. case_goal; [by follow|]. follow; [follow|].
  assert (at_ r ≠ x00) by (intros Hx; rewrite Hx in E; done). follow. follow.
  pose proof (past_left _ _ _ Hp0) as [_ Hl].
  apply (wp_from _ _ _ 0 _ _ Hp0); [lia|]. apply IH; [by eapply past_good|lia].
Qed.

Lemma sane_integer lo hi : sane 0 (integer lo hi).
Proof.
  begin r Hg. unfold integer. follow. follow. case_goal; [follow|]. follow.
  assert (wp (length (buf r)) (if bool_decide (at_ r = x2d) then advance 1 else pret tt) r (λ _ r', past r 0 r')) as Hsign.
  { case_bool_decide as Hm; [|by follow]. assert (at_ r ≠ x00) by (by rewrite Hm). follow. by eapply past_le; [|done]; lia. }
  eapply pwp_mono; [|exact Hsign]. cbn beta. intros _ r1 Hp1. follow. follow.
  destruct (is_digit (at_ r1)) eqn:Hd; cbn [negb]; [|follow].
  assert (at_ r1 ≠ x00) by (intros Hx; by rewrite Hx in Hd). follow.
  assert (wp (length (buf r)) (if decide (at_ r1 = x30) then advance 1 ;; pret 0 else λ r, integerLoop (S (left_ r)) 0 r) r1
    (λ _ r', past r 0 r')) as Hu.
  { destruct (decide (at_ r1 = x30)); [follow; follow; follow; by eapply past_le; [|done]; lia|].
    apply (wp_from (integerLoop (S (left_ r1)) 0) _ _ 0 _ _ Hp1); [done|]. apply integerLoop_total; [by eapply past_good|lia]. }
  eapply pwp_mono; [|exact Hu]. cbn beta. intros u r2 Hp2. follow. follow. case_goal; [follow|]. case_goal; [follow|].
  match goal with |- wp _ (match ?o with _ => _ end) _ _ => destruct o as [n|]; [|follow] end.
  case_goal; [follow|]. by follow.
Qed.

Lemma sane_boolean : sane 1 boolean.
Proof.
  begin r Hg. unfold boolean. follow. follow.
  assert (∀ w (b : bool), (1 <= length w)%nat → wp (length (buf r)) (literal w ;; pret b) r (λ _ r', past r 1 r')) as Hl.
  { intros w b Hw. follow. use (sane_literal w). follow. by eapply past_le; [|done]. }
  destruct (at_ r); first [apply Hl; cbn; lia|follow].
Qed.


(** ** Lists and opaque values *)

(** Past a byte of the format that the code has seen under the cursor. *)
Ltac seen_byte :=
  match goal with
  | H : at_ ?r = ?c |- wp _ _ ?r _ => assert (at_ r ≠ x00) by (by rewrite H); clear H
  end.

Lemma strListLoop_total fuel out r : good r → (left_ r < fuel)%nat →
  wp (length (buf r)) (strListLoop fuel out) r (λ _ r', past r 2 r').
Proof.
  revert out r. induction fuel as [|fuel IH]; intros out r Hg Hf; [lia|]. pose proof (past_refl r Hg) as Hp.
  cbn [strListLoop]. follow. use sane_ws. follow. use sane_str. follow. use sane_ws. follow. follow.
  destruct (decide (at_ r2 = comma)); [|follow; by eapply past_le; [|done]; lia]. seen_byte. follow. follow.
  pose proof (past_left _ _ _ Hp3) as [_ Hl]. apply (wp_from _ _ _ 2 _ _ Hp3); [lia|]. apply IH; [by eapply past_good|lia].
Qed.

(** The closing of a container. *)
Lemma close_total {A} c (a : A) r0 k n r : past r0 k r → (n <= k + 1)%nat → c ≠ x00 →
  wp (length (buf r0)) (d <- peek ; if negb (bool_decide (d = c)) then refuse "malformed" else advance 1 ;; leave ;; pret a) r
    (λ _ r', past r0 n r').
Proof.
  intros Hp Hn Hc. follow. follow. case_bool_decide as Hd; cbn [negb]; [|follow].
  assert (at_ r ≠ x00) by congruence. follow. follow. follow. use sane_leave. follow. eapply past_le; [|done]. lia.
Qed.

(** The opening of a container. *)
Lemma open_total {A} (m : parser A) r0 k r Q : past r0 k r → at_ r ≠ x00 →
  (∀ r', past r0 (k + 1) r' → wp (length (buf r0)) m r' Q) → wp (length (buf r0)) (enter ;; (advance 1 ;; m)) r Q.
Proof.
  intros [Hb Hp] Ha HQ. pose proof (at_in_range r Ha) as Hr. unfold wp, pbind, enter.
  case_goal; cbn; [|apply HQ; constructor; cbn; [done|rewrite Hb in Hr; lia]].
  split; [in_format|]. cbn. lia.
Qed.

Ltac open_container :=
  match goal with
  | Hp : past _ _ ?r, Ha : at_ ?r ≠ x00 |- wp _ (pbind enter _) ?r _ =>
      let r' := fresh "r" in let Hp' := fresh "Hp" in
      apply (open_total _ _ _ _ _ Hp Ha); intros r' Hp'
  end.

Lemma wp_past_0 {A} (m : parser A) r n :
  wp (length (buf r)) m r (λ _ r', past r n r') → wp (length (buf r)) m r (λ _ r', past r 0 r').
Proof. apply pwp_mono. intros _ r' Hr. eapply past_le; [|done]. lia. Qed.

(** Between the braces: nothing, or the loop [m]. *)
Lemma body_total {A P} {d : Decision P} (a : A) (m : parser A) r0 k n r : past r0 k r →
  wp (length (buf r)) m r (λ _ r', past r n r') →
  wp (length (buf r0)) (if decide P then pret a else m) r (λ _ r', past r0 k r').
Proof. intros Hp Hm%wp_past_0. destruct (decide P); [by follow|]. apply (wp_from _ _ _ 0 _ _ Hp); [lia|done]. Qed.

Lemma sane_strList : sane 2 strList.
Proof.
  begin r Hg. unfold strList. follow. follow. case_bool_decide as Hq; cbn [negb]; [|follow]. seen_byte.
  open_container. follow. use sane_ws. follow. follow. follow.
  eapply pwp_mono; [|apply (body_total _ _ _ _ 2 _ Hp0), strListLoop_total; [by eapply past_good|lia]].
  cbn beta. intros out r2 Hp2. apply (close_total _ _ _ 1); [done|lia|done].
Qed.

Lemma digit_seen r : is_digit (at_ r) = true → at_ r ≠ x00.
Proof. intros Hd Hx. by rewrite Hx in Hd. Qed.

Lemma digitRun_length s : (digitRun s <= length s)%nat.
Proof. induction s as [|c s IH]; [done|]. cbn. case_goal; lia. Qed.

Lemma sane_skipDigits : sane 0 skipDigits.
Proof.
  intros r Hg. constructor; [done|]. cbn. unfold good in Hg.
  pose proof (digitRun_length (drop (pos r) (buf r))). rewrite length_drop in *. lia.
Qed.

Lemma skipDigits_progress r : good r → is_digit (at_ r) = true →
  wp (length (buf r)) skipDigits r (λ _ r', past r 1 r').
Proof.
  intros Hg Hd. constructor; [done|]. cbn. pose proof (digitRun_length (drop (pos r) (buf r))) as Hl.
  pose proof (at_in_range r (digit_seen r Hd)) as Hr. rewrite (rest_at r Hr) in *. cbn in *. rewrite Hd in *.
  rewrite length_drop in Hl. lia.
Qed.

Lemma sane_someDigits : sane 0 someDigits.
Proof. begin r Hg. unfold someDigits. follow. use sane_skipDigits. case_goal; by follow. Qed.

(** An optional byte of a number. *)
Lemma optional_total r0 k r (b : bool) : past r0 k r → (b = true → at_ r ≠ x00) →
  wp (length (buf r0)) (if b then advance 1 else pret tt) r (λ _ r', past r0 k r').
Proof.
  intros Hp Ha. destruct b; [|by follow]. specialize (Ha eq_refl). follow. eapply past_le; [|done]. lia.
Qed.

(** The fraction and the exponent of a number. *)
Lemma tail_total r0 k r : past r0 k r →
  wp (length (buf r0))
    (c <- peek ;
     (if decide (c = x2e) then advance 1 ;; someDigits else pret tt) ;;
     c <- peek ;
     if bool_decide (c = x65) || bool_decide (c = x45) then
       advance 1 ;;
       c <- peek ;
       (if bool_decide (c = x2b) || bool_decide (c = x2d) then advance 1 else pret tt) ;;
       someDigits
     else pret tt) r (λ _ r', past r0 k r').
Proof.
  intros Hp. follow. follow. follow.
  assert (wp (length (buf r0)) (if decide (at_ r = x2e) then advance 1 ;; someDigits else pret tt) r (λ _ r', past r0 k r')) as Hf.
  { destruct (decide (at_ r = x2e)) as [Hd|]; [|by follow]. seen_byte. follow. follow. use sane_someDigits.
    eapply past_le; [|done]. lia. }
  eapply pwp_mono; [|exact Hf]. cbn beta. intros _ r1 Hp1. follow. follow.
  destruct (bool_decide (at_ r1 = x65) || _) eqn:He; [|by follow].
  assert (at_ r1 ≠ x00) by (intros Hx; by rewrite Hx in He). follow. follow. follow. follow. follow.
  eapply pwp_mono; [|apply (optional_total r0 (k + 1) _ _ Hp0); intros Hs Hx; by rewrite Hx in Hs].
  cbn beta. intros _ r3 Hp3. use sane_someDigits. eapply past_le; [|done]. lia.
Qed.

Lemma skipNumber_total r : good r → bool_decide (at_ r = x2d) || is_digit (at_ r) = true →
  wp (length (buf r)) skipNumber r (λ _ r', past r 1 r').
Proof.
  intros Hg Hfirst. pose proof (past_refl r Hg) as Hp. unfold skipNumber. follow. follow. follow.
  assert (wp (length (buf r)) (if decide (at_ r = x2d) then advance 1 else pret tt) r (λ _ r', past r 0 r')) as Hsign.
  { destruct (decide (at_ r = x2d)); [|by follow]. seen_byte. follow. eapply past_le; [|done]. lia. }
  eapply pwp_mono; [|exact Hsign]. cbn beta. intros _ r1 Hp1. follow. follow. follow.
  assert (wp (length (buf r)) (if decide (at_ r1 = x30) then advance 1
     else if is_digit (at_ r1) then skipDigits ;; pret tt else refuse "number_spelling") r1 (λ _ r', past r 1 r')) as Hint.
  { destruct (decide (at_ r1 = x30)); [seen_byte; by follow|]. destruct (is_digit (at_ r1)) eqn:Hd; [|follow].
    follow. apply (pwp_mono _ _ _ (λ _ r', past r 1 r')); [by intros; follow|].
    apply (wp_from _ _ _ 1 _ _ Hp1); [lia|]. apply skipDigits_progress; [by eapply past_good|done]. }
  eapply pwp_mono; [|exact Hint]. cbn beta. intros _ r2 Hp2. by apply tail_total.
Qed.

Lemma sane_memberName seen : sane 3 (memberName seen).
Proof.
  begin r Hg. unfold memberName. follow. follow. case_bool_decide; cbn [negb]; [|follow].
  follow. use sane_str. destruct (bool_decide (a ∈ seen)); [follow|]. follow. use sane_ws. follow. follow.
  case_bool_decide; cbn [negb]; [|follow]. follow. seen_byte. follow. follow. use sane_ws. follow.
  eapply past_le; [|done]. lia.
Qed.

Lemma sane_skipString : sane 2 skipString.
Proof. begin r Hg. unfold skipString. follow. use sane_str. by follow. Qed.

(** A container of values that end on less than [M] bytes. *)
Lemma skipMembers_total M skip : (∀ r, good r → (left_ r < M)%nat → wp (length (buf r)) skip r (λ _ r', past r 1 r')) →
  ∀ fuel open seen r, good r → (left_ r < M)%nat → (left_ r < fuel)%nat →
  wp (length (buf r)) (skipMembers skip fuel open seen) r (λ _ r', past r 1 r').
Proof.
  intros Hskip. induction fuel as [|fuel IH]; intros open seen r Hg HM Hf; [lia|].
  pose proof (past_refl r Hg) as Hp. cbn [skipMembers]. follow. use sane_ws. follow.
  assert (wp (length (buf r)) (if decide (open = lbrace) then memberName seen else pret seen) r0 (λ _ r', past r 0 r')) as Hn.
  { destruct (decide (open = lbrace)); [|by follow]. use (sane_memberName seen). eapply past_le; [|done]. lia. }
  eapply pwp_mono; [|exact Hn]. cbn beta. intros seen' r2 Hp2. pose proof (past_left _ _ _ Hp2) as [_ Hl2]. follow.
  apply (pwp_mono _ _ _ (λ _ r', past r 1 r')).
  2: { apply (wp_from _ _ _ 1 _ _ Hp2); [lia|]. apply Hskip; [by eapply past_good|lia]. }
  intros _ r3 Hp3. follow. use sane_ws. follow. follow.
  destruct (decide (at_ r1 = comma)); [|follow; by eapply past_le; [|done]; lia]. seen_byte. follow. follow.
  pose proof (past_left _ _ _ Hp4) as [? Hl]. apply (wp_from _ _ _ 1 _ _ Hp4); [lia|]. apply IH; [by eapply past_good|lia|lia].
Qed.

Lemma skipContainer_total M skip r : (∀ r, good r → (left_ r < M)%nat → wp (length (buf r)) skip r (λ _ r', past r 1 r')) →
  good r → (left_ r <= M)%nat → at_ r ≠ x00 → wp (length (buf r)) (skipContainer skip) r (λ _ r', past r 1 r').
Proof.
  intros Hskip Hg HM Hne. pose proof (past_refl r Hg) as Hp. unfold skipContainer. follow. follow. cbv zeta.
  open_container. follow. use sane_ws. follow. follow. follow. pose proof (past_left _ _ _ Hp1) as [? Hl].
  eapply pwp_mono; [|apply (body_total _ _ _ _ 1 _ Hp1), (skipMembers_total M); [done|by eapply past_good|lia|lia]].
  cbn beta. intros _ r2 Hp2. follow. follow. case_bool_decide as Hd; cbn [negb]; [|follow].
  assert (at_ r2 ≠ x00) by (rewrite Hd; by destruct (decide (at_ r = lbracket))). follow. follow. use sane_leave.
  eapply past_le; [|done]. lia.
Qed.

(** An opaque value, on fuel for a level a byte. *)
Lemma skip_total fuel : ∀ r, good r → (left_ r < fuel)%nat → wp (length (buf r)) (skipValue fuel) r (λ _ r', past r 1 r').
Proof.
  induction fuel as [|fuel IH]; intros r Hg Hf; [lia|]. pose proof (past_refl r Hg) as Hp. cbn [skipValue]. follow. follow.
  assert (at_ r ≠ x00 → wp (length (buf r)) (skipContainer (skipValue fuel)) r (λ _ r', past r 1 r')) as Hc
    by (intros Hne; apply (skipContainer_total fuel); [done|done|lia|done]).
  assert (∀ w, (1 <= length w)%nat → wp (length (buf r)) (literal w) r (λ _ r', past r 1 r')) as Hlit.
  { intros w Hw. use (sane_literal w). eapply past_le; [|done]. lia. }
  assert (wp (length (buf r)) skipString r (λ _ r', past r 1 r')) as Hstr by (use sane_skipString; eapply past_le; [|done]; lia).
  assert (wp (length (buf r)) (if bool_decide (at_ r = x2d) || is_digit (at_ r) then skipNumber else refuse "malformed") r
    (λ _ r', past r 1 r')) as Hnum by (case_goal; [by apply skipNumber_total|follow]).
  generalize dependent (at_ r). intros c Hc Hnum. destruct c; first [exact Hnum|exact Hstr|by apply Hc|apply Hlit; cbn; lia].
Qed.

Lemma sane_rawValue : sane 1 rawValue.
Proof.
  begin r Hg. unfold wp, rawValue. pose proof (skip_total (S (left_ r)) r Hg ltac:(lia)) as Hv.
  unfold wp in Hv. by destruct (skipValue _ r) as [[? ?]|].
Qed.

Lemma rawMapLoop_total fuel out r : good r → (left_ r < fuel)%nat →
  wp (length (buf r)) (rawMapLoop fuel out) r (λ _ r', past r 0 r').
Proof.
  revert out r. induction fuel as [|fuel IH]; intros out r Hg Hf; [lia|]. pose proof (past_refl r Hg) as Hp.
  cbn [rawMapLoop]. follow. use sane_ws. follow. follow. case_bool_decide; cbn [negb]; [|follow].
  follow. use sane_str. destruct (out !! a0); [follow|]. follow. use sane_ws. follow. follow.
  case_bool_decide; cbn [negb]; [|follow]. follow. seen_byte. follow. follow. use sane_ws. follow. use sane_rawValue.
  follow. use sane_ws. follow. follow.
  match goal with |- wp _ (if decide (at_ ?x = comma) then _ else _) _ _ => destruct (decide (at_ x = comma)) end;
    [|follow; by eapply past_le; [|done]; lia].
  seen_byte. follow. follow.
  match goal with Hl : past r _ ?x |- wp _ _ ?x _ =>
    pose proof (past_left _ _ _ Hl) as [? ?]; apply (wp_from _ _ _ 0 _ _ Hl); [lia|]; apply IH; [by eapply past_good|lia] end.
Qed.

Lemma sane_rawMap : sane 2 rawMap.
Proof.
  begin r Hg. unfold rawMap. follow. follow. case_bool_decide as Hq; cbn [negb]; [|follow]. seen_byte.
  open_container. follow. use sane_ws. follow. follow. follow.
  eapply pwp_mono; [|apply (body_total _ _ _ _ 0 _ Hp0), rawMapLoop_total; [by eapply past_good|lia]].
  cbn beta. intros out r2 Hp2. apply (close_total _ _ _ 1); [done|lia|done].
Qed.

(** ** The records *)

Section Object.
Context {V : Type} (field : gostr → V → Z → parser (V * Z)) (Hfield : ∀ key v seen, sane 0 (field key v seen)).

Lemma objectLoop_total fuel v seen r : good r → (left_ r < fuel)%nat →
  wp (length (buf r)) (objectLoop field fuel v seen) r (λ _ r', past r 0 r').
Proof.
  revert v seen r. induction fuel as [|fuel IH]; intros v seen r Hg Hf; [lia|]. pose proof (past_refl r Hg) as Hp.
  cbn [objectLoop]. follow. use sane_ws. follow. follow. case_bool_decide; cbn [negb]; [|follow].
  follow. use sane_str. follow. use sane_ws. follow. follow.
  case_bool_decide; cbn [negb]; [|follow]. follow. seen_byte. follow. follow. use sane_ws. follow. use (Hfield a0 v seen).
  follow. use sane_ws. follow. follow.
  match goal with |- wp _ (if decide (at_ ?x = comma) then _ else _) _ _ => destruct (decide (at_ x = comma)) end;
    [|follow; by eapply past_le; [|done]; lia].
  seen_byte. follow. follow.
  match goal with Hl : past r _ ?x |- wp _ _ ?x _ =>
    pose proof (past_left _ _ _ Hl) as [? ?]; apply (wp_from _ _ _ 0 _ _ Hl); [lia|]; apply IH; [by eapply past_good|lia] end.
Qed.

Lemma sane_decodeObject zero : sane 2 (decodeObject field zero).
Proof.
  begin r Hg. unfold decodeObject. follow. follow. case_bool_decide as Hq; cbn [negb]; [|follow]. seen_byte.
  open_container. follow. use sane_ws. follow. follow. follow.
  eapply pwp_mono; [|apply (body_total _ _ _ _ 0 _ Hp0), objectLoop_total; [by eapply past_good|lia]].
  cbn beta. intros out r2 Hp2. apply (close_total _ _ _ 1); [done|lia|done].
Qed.
End Object.

Lemma sane_stringField {V} bit (set : gostr → V) seen : sane 0 (stringField bit set seen).
Proof.
  begin r Hg. unfold stringField. case_goal; [follow|]. follow. use sane_str. follow. eapply past_le; [|done]. lia.
Qed.

Lemma sane_proofField {V} bit (set : Z → V) seen : sane 0 (proofField bit set seen).
Proof.
  begin r Hg. unfold proofField. case_goal; [follow|]. follow. use sane_str. destruct (ParseProof a); [|follow].
  follow. eapply past_le; [|done]. lia.
Qed.

Lemma sane_refuse {A} n word : lit word ∈ refusals → sane n (refuse (A:=A) word).
Proof. intros Hw. begin r Hg. by apply (wp_refuse_past _ r 0). Qed.

Lemma sane_requirementField key v seen : sane 0 (requirementField key v seen).
Proof.
  unfold requirementField. repeat case_decide; try apply sane_proofField. apply sane_refuse. in_format.
Qed.

Lemma sane_failureField key v seen : sane 0 (failureField key v seen).
Proof.
  unfold failureField. repeat case_decide; try apply sane_proofField; try apply sane_stringField.
  apply sane_refuse. in_format.
Qed.

Lemma sane_decodeProofRequirement : sane 2 decodeProofRequirement.
Proof.
  begin r Hg. unfold decodeProofRequirement. follow. use (sane_decodeObject _ sane_requirementField (mkRequirement 0 0 0 0 0)).
  destruct a as [v seen]. repeat (case_goal; [follow|]). by follow.
Qed.

Lemma sane_decodeProofFailure : sane 2 decodeProofFailure.
Proof.
  begin r Hg. unfold decodeProofFailure. follow. use (sane_decodeObject _ sane_failureField (mkFailure [] 0 0 [])).
  destruct a as [v seen]. repeat (case_goal; [follow|]). by follow.
Qed.

(** What a whole input comes to. *)
Definition ends {A} (input : list byte) (x : A + Refusal) : Prop :=
  match x with inl _ => True | inr e => refusal_ok (length input) e end.

Lemma ends_of_wp {A} (m : parser A) r : wp (length (buf r)) m r (λ _ _, True) → ends (buf r) (result_of (m r)).
Proof. unfold wp, ends, result_of. by destruct (m r) as [[? ?]|]. Qed.

(** C26: the reader ends on every input. Each method of the reader, from every cursor
    within its input, gives a value with the cursor moved on within the input, or a
    refusal that has one of the words of the format and an offset within the input;
    so do [Decode] and [UnmarshalJSON] on any bytes at all. Loops that ran out of
    fuel would give a word the format does not have. *)
Theorem reader_always_ends :
  (sane 2 str /\ sane 1 boolean /\ (∀ lo hi, sane 0 (integer lo hi)) /\ sane 2 strList /\ sane 1 rawValue /\
   sane 2 rawMap /\ sane 2 decodeProofRequirement /\ sane 2 decodeProofFailure) /\
  (∀ input, ends input (Decode input) /\ ends input (UnmarshalJSON input)) /\
  lit "" ∉ refusals.
Proof.
  split; [split_and!; auto using sane_str, sane_boolean, sane_integer, sane_strList, sane_rawValue, sane_rawMap,
    sane_decodeProofRequirement, sane_decodeProofFailure|]. split.
  - intros input. set (r := mkReader input 0 0). assert (good r) as Hg by (unfold good; cbn; lia).
    pose proof (past_refl r Hg) as Hp. split.
    + apply (ends_of_wp _ r). follow. use sane_ws. follow. use sane_decodeProofRequirement. follow. use sane_ws. follow.
      apply wp_atEnd; intros _; cbn [negb]; follow; done.
    + apply (ends_of_wp _ r). follow. use sane_ws. follow. use sane_str. follow. use sane_ws. follow.
      apply wp_atEnd; intros _; cbn [negb]; [|follow]. destruct (ParseProof a0); follow; done.
  - vm_compute. by repeat (apply not_elem_of_cons; split; [done|]); apply not_elem_of_nil.
Qed.
