(* ===== verification/RecGrammar.v ===== *)
(** The language of rec.go: which texts a string and a record have, as a grammar
    that says nothing of cursors, and that the reader accepts exactly those.

    [spell] relates the text between two quotes to the string it spells; [members]
    the text between two braces to the names and string values of an object. *)

From S2P Require Import Prelude RecText RecCodec RecTotal.
#[local] Open Scope parser_scope.

(** ** The grammar *)

(** The byte an escape of one letter stands for. *)
Definition simpleEscape (e : byte) : option byte :=
  match e with
  | x22 => Some x22 | x5c => Some x5c | x2f => Some x2f
  | x62 => Some x08 | x66 => Some x0c | x6e => Some x0a | x72 => Some x0d | x74 => Some x09
  | _ => None
  end.

(** One escape and the bytes it stands for: a letter, a code point of the basic
    plane that is no surrogate, or a pair of surrogates. *)
Inductive escaped : list byte → list byte → Prop :=
| esc_simple e c : simpleEscape e = Some c → escaped [backslash; e] [c]
| esc_unicode ds u : length ds = 4%nat → hexLoop ds 0 = Some u → ~ (0xD800 <= u <= 0xDFFF) →
    escaped (backslash :: x75 :: ds) (appendRune [] u)
| esc_pair ds u ds' u' : length ds = 4%nat → hexLoop ds 0 = Some u → 0xD800 <= u <= 0xDBFF →
    length ds' = 4%nat → hexLoop ds' 0 = Some u' → 0xDC00 <= u' <= 0xDFFF →
    escaped (backslash :: x75 :: ds ++ backslash :: x75 :: ds')
      (appendRune [] (0x10000 + Z.shiftl (u - 0xD800) 10 + (u' - 0xDC00))).

(** A text and the bytes it spells. *)
Inductive spell : list byte → list byte → Prop :=
| spell_nil : spell [] []
| spell_plain c t s : 0x20 <= bz c → c ≠ quote → c ≠ backslash → spell t s → spell (c :: t) (c :: s)
| spell_escape e u t s : escaped e u → spell t s → spell (e ++ t) (u ++ s).

(** A string of the format, with its quotes. *)
Definition jstring (t : list byte) (s : gostr) : Prop :=
  ∃ body, t = quote :: body ++ [quote] /\ spell body s /\ validUTF8 s = true.

(** White space. *)
Definition blanks (w : list byte) : Prop := Forall (λ c, is_ws c = true) w.

(** A member of an object, with the white space around it, and the members of one. *)
Inductive jmember : list byte → gostr → gostr → Prop :=
| member_intro w1 w2 w3 w4 tk tv k v : blanks w1 → blanks w2 → blanks w3 → blanks w4 → jstring tk k → jstring tv v →
    jmember (w1 ++ tk ++ w2 ++ colon :: w3 ++ tv ++ w4) k v.

Inductive members : list byte → list (gostr * gostr) → Prop :=
| members_one t k v : jmember t k v → members t [(k, v)]
| members_more t k v ts kvs : jmember t k v → members ts kvs → members (t ++ comma :: ts) ((k, v) :: kvs).

(** ** The cursor, by what it has before it *)

Definition rest (r : reader) : list byte := drop (pos r) (buf r).

(** [r] has [s] before it, at nesting depth [d]. *)
Record sees (r : reader) (s : list byte) (d : nat) : Prop := {
  sees_rest : rest r = s;
  sees_good : good r;
  sees_depth : depth r = d
}.

(** Wherever [s] comes next at depth [d], [m] gives [a] and leaves [s'] at [d']. *)
Definition reads {A} (m : parser A) (s : list byte) (d : nat) (a : A) (s' : list byte) (d' : nat) : Prop :=
  ∀ r, sees r s d → ∃ r', m r = inl (a, r') /\ buf r' = buf r /\ sees r' s' d'.

Lemma reads_bind {A B} (m : parser A) (k : A → parser B) s d a s1 d1 b s2 d2 :
  reads m s d a s1 d1 → reads (k a) s1 d1 b s2 d2 → reads (pbind m k) s d b s2 d2.
Proof.
  intros Hm Hk r Hr. destruct (Hm r Hr) as (r1 & H1 & Hb1 & Hr1). destruct (Hk r1 Hr1) as (r2 & H2 & Hb2 & Hr2).
  exists r2. unfold pbind. rewrite H1. split_and!; [done|congruence|done].
Qed.

Lemma reads_ret {A} (a : A) s d : reads (pret a) s d a s d.
Proof. intros r Hr. by exists r. Qed.

Lemma sees_length r s d : sees r s d → (length s = length (buf r) - pos r)%nat.
Proof. intros [<- _ _]. unfold rest. by rewrite length_drop. Qed.

Lemma sees_at r c s d : sees r (c :: s) d → at_ r = c /\ (pos r < length (buf r))%nat.
Proof.
  intros Hr. pose proof (sees_length _ _ _ Hr) as Hl. cbn in Hl. destruct Hr as [Hs _ _]. unfold rest in Hs.
  split; [|lia]. rewrite rest_at in Hs by lia. by injection Hs.
Qed.

Lemma sees_at_nil r d : sees r [] d → at_ r = x00.
Proof.
  intros Hr. pose proof (sees_length _ _ _ Hr) as Hl. cbn in Hl. unfold at_. apply nth_overflow. lia.
Qed.

(** The byte under a cursor before [s]. *)
Definition first (s : list byte) : byte := hd x00 s.

Lemma sees_first r s d : sees r s d → at_ r = first s.
Proof. destruct s as [|c s]; [apply sees_at_nil|]. intros Hr. by destruct (sees_at _ _ _ _ Hr). Qed.

Lemma reads_peek s d : reads peek s d (first s) s d.
Proof. intros r Hr. exists r. unfold peek. by rewrite (sees_first r s d Hr). Qed.

Lemma reads_advance a s d : reads (advance (length a)) (a ++ s) d tt s d.
Proof.
  intros r Hr. eexists. split; [done|]. split; [done|]. pose proof (sees_length _ _ _ Hr) as Hl. destruct Hr as [Hs Hg Hd].
  rewrite length_app in Hl. constructor; cbn; [|unfold good in *; cbn; lia|done].
  unfold rest in *. cbn. by rewrite <- drop_drop, Hs, drop_app_length.
Qed.

Lemma reads_advance_1 c s d : reads (advance 1) (c :: s) d tt s d.
Proof. apply (reads_advance [c]). Qed.

Lemma skipWs_blanks w s : blanks w → is_ws (first s) = false → skipWs (w ++ s) = s.
Proof.
  intros Hw Hs. induction Hw as [|c w Hc _ IH]; cbn; [|by rewrite Hc].
  destruct s as [|c s]; [done|]. cbn in *. by rewrite Hs.
Qed.

Lemma reads_ws w s d : blanks w → is_ws (first s) = false → reads ws (w ++ s) d tt s d.
Proof.
  intros Hw Hs r Hr. eexists. split; [done|]. split; [done|]. pose proof (sees_length _ _ _ Hr) as Hl. destruct Hr as [Hre Hg Hd].
  fold (rest r). rewrite Hre, (skipWs_blanks w s Hw Hs). unfold left_. rewrite <- Hl, length_app.
  rewrite length_app in Hl. constructor; cbn; [|unfold good in *; cbn; lia|done].
  unfold rest in *. cbn. replace (length w + length s - length s)%nat with (length w) by lia.
  by rewrite <- drop_drop, Hre, drop_app_length.
Qed.

Lemma reads_ws_nil s d : is_ws (first s) = false → reads ws s d tt s d.
Proof. intros Hs. apply (reads_ws [] s d); [constructor|done]. Qed.

Lemma reads_enter s d : (d < depthLimit)%nat → reads enter s d tt s (S d).
Proof.
  intros Hd r [Hs Hg Hr]. unfold enter. rewrite (proj2 (Nat.ltb_ge depthLimit (depth _))) by (cbn; rewrite Hr; lia).
  eexists. split; [done|]. split; [done|]. constructor; [done|done|]. cbn. by rewrite Hr.
Qed.

Lemma reads_leave s d : reads leave s (S d) tt s d.
Proof.
  intros r [Hs Hg Hr]. eexists. split; [done|]. split; [done|]. constructor; [done|done|]. cbn. rewrite Hr. lia.
Qed.

Lemma reads_atEnd s d : reads atEnd s d (bool_decide (s = [])) s d.
Proof.
  intros r Hr. exists r. split; [|done]. unfold atEnd. pose proof (sees_length _ _ _ Hr) as Hl. do 2 f_equal.
  destruct s as [|c s]; cbn in *; [apply Nat.leb_le|apply Nat.leb_gt]; destruct Hr as [_ Hg _]; unfold good in Hg; lia.
Qed.

(** ** Texts are read *)

Lemma reads_hex4 ds u s d : length ds = 4%nat → hexLoop ds 0 = Some u → reads hex4 (ds ++ s) d u s d.
Proof.
  intros Hl Hu r Hr. pose proof (sees_length _ _ _ Hr) as Hn. rewrite length_app in Hn. unfold hex4.
  rewrite (proj2 (Nat.ltb_ge _ _)) by (destruct Hr as [_ Hg _]; unfold good in Hg; lia).
  fold (rest r). rewrite (sees_rest _ _ _ Hr), take_app_le, take_ge, Hu by lia.
  rewrite <- Hl. by apply (reads_bind _ _ _ _ _ _ _ _ _ _ (reads_advance ds s d) (reads_ret u s d)).
Qed.

Lemma reads_lowSurrogate u ds u' s d : length ds = 4%nat → hexLoop ds 0 = Some u' → 0xDC00 <= u' <= 0xDFFF →
  reads (lowSurrogate u) (backslash :: x75 :: ds ++ s) d (0x10000 + Z.shiftl (u - 0xD800) 10 + (u' - 0xDC00)) s d.
Proof.
  intros Hl Hu Hr r Hs. unfold lowSurrogate. pose proof (sees_length _ _ _ Hs) as Hn. cbn in Hn.
  destruct (sees_at _ _ _ _ Hs) as [H0 Hlt].
  destruct (reads_advance_1 _ _ _ r Hs) as (r1 & [= <-] & _ & Hs1). destruct (sees_at _ _ _ _ Hs1) as [H1 _].
  unfold at_ in H0, H1. cbn in H1. rewrite (proj2 (Nat.leb_gt _ _)), H0, H1 by lia.
  rewrite !bool_decide_eq_true_2 by done. cbn [negb orb].
  eapply (reads_bind _ _ _ _ _ _ _ _ _ _ (reads_advance [backslash; x75] (ds ++ s) d)); [|exact Hs].
  eapply reads_bind; [by apply reads_hex4|]. rewrite !(proj2 (Z.ltb_ge _ _)) by lia. cbn [orb]. apply reads_ret.
Qed.

Lemma appendRune_app out u : appendRune out u = out ++ appendRune [] u.
Proof. unfold appendRune. by repeat case_goal. Qed.

(** [escape] on the text of one escape. *)
Lemma reads_escape e u out s d : escaped e u → reads (escape out) (e ++ s) d (out ++ u) s d.
Proof.
  intros He. unfold escape.
  assert (∃ x e', e = backslash :: x :: e') as (x & e' & ->) by (destruct He; by eexists _, _).
  change ((backslash :: x :: e') ++ s) with (backslash :: x :: (e' ++ s)).
  eapply reads_bind; [apply reads_advance_1|]. eapply reads_bind; [apply reads_atEnd|]. cbn [bool_decide].
  rewrite bool_decide_eq_false_2 by done.
  eapply reads_bind; [apply reads_peek|]. eapply reads_bind; [apply reads_advance_1|]. cbn [first hd].
  inversion He as [x' c Hc|ds v Hl Hv Hns|ds v ds' v' Hl Hv Hhi Hl' Hv' Hlo]; subst.
  - destruct x; try done; injection Hc as <-; apply reads_ret.
  - eapply reads_bind; [by apply reads_hex4|].
    destruct ((0xDC00 <=? v) && (v <=? 0xDFFF)) eqn:E1; [to_prop; lia|].
    destruct ((0xD800 <=? v) && (v <=? 0xDBFF)) eqn:E2; [to_prop; lia|]. rewrite appendRune_app. apply reads_ret.
  - rewrite <- app_assoc. eapply reads_bind; [by apply reads_hex4|].
    destruct ((0xDC00 <=? v) && (v <=? 0xDFFF)) eqn:E1; [to_prop; lia|].
    rewrite (proj2 (Z.leb_le 0xD800 v)), (proj2 (Z.leb_le v 0xDBFF)) by lia. cbn [andb].
    eapply reads_bind; [by apply reads_lowSurrogate|]. rewrite appendRune_app. apply reads_ret.
Qed.

Lemma escaped_head e u : escaped e u → ∃ e', e = backslash :: e'.
Proof. destruct 1; by eexists. Qed.

Lemma reads_strLoop t s : spell t s → ∀ fuel out s' d, (length t < fuel)%nat → validUTF8 (out ++ s) = true →
  reads (strLoop fuel out) (t ++ quote :: s') d (out ++ s) s' d.
Proof.
  induction 1 as [|c t s Hc Hq Hb Ht IH|e u t s He Ht IH]; intros fuel out s' d Hf Hv;
    (destruct fuel as [|fuel]; [cbn in Hf; lia|]); cbn [strLoop].
  - change ([] ++ quote :: s') with (quote :: s').
    eapply reads_bind; [apply reads_atEnd|]. rewrite bool_decide_eq_false_2 by done.
    eapply reads_bind; [apply reads_peek|]. cbn [first hd]. rewrite decide_True by done.
    eapply reads_bind; [apply reads_advance_1|]. rewrite app_nil_r in Hv |- *. rewrite Hv. apply reads_ret.
  - change ((c :: t) ++ quote :: s') with (c :: (t ++ quote :: s')).
    eapply reads_bind; [apply reads_atEnd|]. rewrite bool_decide_eq_false_2 by done.
    eapply reads_bind; [apply reads_peek|]. cbn [first hd]. rewrite decide_False by done.
    rewrite (proj2 (Z.ltb_ge _ _)), decide_False by done. eapply reads_bind; [apply reads_advance_1|].
    replace (out ++ c :: s) with ((out ++ [c]) ++ s) in * by by rewrite <- app_assoc.
    apply IH; [cbn in Hf; lia|done].
  - destruct (escaped_head _ _ He) as [e' Heq]. rewrite length_app in Hf. rewrite <- app_assoc.
    eapply reads_bind; [apply reads_atEnd|]. rewrite bool_decide_eq_false_2 by by rewrite Heq.
    eapply reads_bind; [apply reads_peek|].
    assert (first (e ++ t ++ quote :: s') = backslash) as -> by by rewrite Heq.
    rewrite decide_False by done. change (bz backslash <? 32) with false. cbn iota. rewrite decide_True by done.
    eapply reads_bind; [by apply reads_escape|]. rewrite Heq in Hf. cbn in Hf.
    rewrite app_assoc in Hv |- *. apply IH; [lia|done].
Qed.

Lemma reads_str t s s' d : jstring t s → reads str (t ++ s') d s s' d.
Proof.
  intros (body & -> & Hs & Hv). unfold str. change ((quote :: body ++ [quote]) ++ s') with (quote :: (body ++ [quote]) ++ s'). rewrite <- app_assoc.
  change ([quote] ++ s') with (quote :: s').
  eapply reads_bind; [apply reads_peek|]. cbn [first hd]. rewrite bool_decide_eq_true_2 by done. cbn [negb].
  eapply reads_bind; [apply reads_advance_1|]. intros r Hr.
  apply (reads_strLoop body s Hs _ [] s' d); [|done|done].
  unfold left_. rewrite <- (sees_length _ _ _ Hr), length_app. cbn. lia.
Qed.

(** ** What the writer writes *)

Definition escOne (c : byte) : list byte := escByte [] c.

Lemma escByte_app out c : escByte out c = out ++ escOne c.
Proof. unfold escOne, escByte. by destruct c. Qed.

Lemma esc_app out s : esc out s = out ++ quote :: flat_map escOne s ++ [quote].
Proof.
  unfold esc. assert (∀ o, fold_left escByte s o = o ++ flat_map escOne s) as ->.
  { induction s as [|c s IH]; intros o; cbn; [by rewrite app_nil_r|]. by rewrite IH, escByte_app, <- app_assoc. }
  by rewrite <- !app_assoc.
Qed.

(** Each byte is written as itself or as an escape of it, by cases. *)
Definition escClass (c : byte) : bool :=
  match escOne c with
  | [x] => bool_decide (x = c) && (0x20 <=? bz c) && negb (bool_decide (c = quote)) && negb (bool_decide (c = backslash))
  | [b; e] => bool_decide (b = backslash) && bool_decide (simpleEscape e = Some c)
  | b :: u :: ds =>
      bool_decide (b = backslash) && bool_decide (u = x75) && (length ds =? 4)%nat && bool_decide (hexLoop ds 0 = Some (bz c))
      && (bz c <? 0x20)
  | [] => false
  end.

Lemma escClass_all c : escClass c = true.
Proof. destruct c; reflexivity. Qed.

Lemma escOne_spell c t s : spell t s → spell (escOne c ++ t) (c :: s).
Proof.
  intros Ht. pose proof (escClass_all c) as Hc. unfold escClass in Hc.
  destruct (escOne c) as [|x [|e [|d ds]]]; [done|..]; to_prop; repeat case_bool_decide; try done; subst.
  - by apply spell_plain.
  - by apply (spell_escape _ [c]); [apply esc_simple|].
  - replace (c :: s) with (appendRune [] (bz c) ++ s).
    + apply (spell_escape (backslash :: x75 :: d :: ds)); [|done]. apply esc_unicode; [done|done|lia].
    + unfold appendRune. rewrite (proj2 (Z.ltb_lt _ _)) by lia. by rewrite zb_bz.
Qed.

Lemma spell_esc s : spell (flat_map escOne s) s.
Proof. induction s as [|c s IH]; cbn; [constructor|]. by apply escOne_spell. Qed.

Lemma jstring_esc s : validUTF8 s = true → jstring (quote :: flat_map escOne s ++ [quote]) s.
Proof. intros Hv. eexists. split_and!; [done|apply spell_esc|done]. Qed.

(** ** What is read is a text *)

(** From [r] to [r'] the text [t] was taken, at one depth. *)
Record took (r : reader) (t : list byte) (r' : reader) : Prop := {
  took_rest : rest r = t ++ rest r';
  took_good : good r';
  took_depth : depth r' = depth r
}.

Lemma took_refl r : good r → took r [] r.
Proof. by constructor. Qed.

Lemma took_trans r t r1 t1 r2 : took r t r1 → took r1 t1 r2 → took r (t ++ t1) r2.
Proof. intros [H1 _ Hd1] [H2 Hg2 Hd2]. constructor; [by rewrite H1, H2, app_assoc|done|congruence]. Qed.

Lemma pbind_inl {A B} (m : parser A) (k : A → parser B) r b r2 : pbind m k r = inl (b, r2) →
  ∃ a r1, m r = inl (a, r1) /\ k a r1 = inl (b, r2).
Proof. unfold pbind. destruct (m r) as [[a r1]|e]; [by eauto|done]. Qed.

(** Taking a bound method apart. *)
Ltac inv_bind H a r1 H1 := apply pbind_inl in H as (a & r1 & H1 & H).

Lemma took_advance n r r' : good r → (n <= length (buf r) - pos r)%nat → advance n r = inl (tt, r') →
  took r (take n (rest r)) r'.
Proof.
  intros Hg Hn [= <-]. constructor; [|unfold good in *; cbn; lia|done].
  unfold rest. cbn. by rewrite <- drop_drop, take_drop.
Qed.

Lemma took_byte r r' : good r → at_ r ≠ x00 → advance 1 r = inl (tt, r') → took r [at_ r] r'.
Proof.
  intros Hg Ha Hadv. pose proof (at_in_range r Ha) as Hr.
  assert ([at_ r] = take 1 (rest r)) as -> by (unfold rest; by rewrite (rest_at r Hr)).
  by apply took_advance; [|lia|].
Qed.

Lemma hex4_took r u r' : good r → hex4 r = inl (u, r') →
  ∃ ds, length ds = 4%nat /\ hexLoop ds 0 = Some u /\ took r ds r'.
Proof.
  intros Hg. unfold hex4. destruct (Nat.ltb_spec (length (buf r)) (pos r + 4)); [done|].
  destruct (hexLoop _ 0) eqn:Hh; [|done]. intros Hx. inv_bind Hx x r1 H1. injection Hx as <- <-. fold (rest r) in Hh.
  exists (take 4 (rest r)). split_and!; [|done|destruct x; apply took_advance; [done|lia|done]].
  unfold rest. rewrite length_take, length_drop. lia.
Qed.

Lemma lowSurrogate_took u r v r' : good r → lowSurrogate u r = inl (v, r') →
  ∃ ds u', length ds = 4%nat /\ hexLoop ds 0 = Some u' /\ 0xDC00 <= u' <= 0xDFFF /\
    v = 0x10000 + Z.shiftl (u - 0xD800) 10 + (u' - 0xDC00) /\ took r (backslash :: x75 :: ds) r'.
Proof.
  intros Hg. unfold lowSurrogate. destruct (Nat.leb_spec (length (buf r)) (pos r + 1)) as [|Hlt]; [done|]. cbn [orb].
  case_bool_decide as H0; [|done]. case_bool_decide as H1; [|done]. cbn [negb orb]. intros Hx. inv_bind Hx x r1 Hadv. destruct x.
  inv_bind Hx lo r2 Hh. pose proof (took_advance 2 r r1 Hg ltac:(lia) Hadv) as Ht1.
  destruct (hex4_took _ _ _ (took_good _ _ _ Ht1) Hh) as (ds & Hl & Hv & Ht2).
  destruct ((lo <? 0xDC00) || (0xDFFF <? lo)) eqn:E; [done|]. to_prop. injection Hx as <- <-.
  exists ds, lo. split_and!; try done; try lia.
  pose proof (took_trans _ _ _ _ _ Ht1 Ht2) as Ht.
  assert (take 2 (rest r) = [backslash; x75]) as Hs; [|by rewrite Hs in Ht].
  unfold rest. rewrite (rest_at r) by lia.
  assert (drop (S (pos r)) (buf r) = x75 :: drop (S (S (pos r))) (buf r)) as ->.
  { pose proof (rest_at (mkReader (buf r) (S (pos r)) (depth r))) as Hra. cbn in Hra. rewrite Hra by lia. f_equal.
    unfold at_. cbn. by rewrite <- Nat.add_1_r. }
  cbn. unfold at_. by rewrite H0.
Qed.

Lemma escape_took out r out' r' : good r → at_ r = backslash → escape out r = inl (out', r') →
  ∃ e u, escaped e u /\ out' = out ++ u /\ took r e r'.
Proof.
  intros Hg Hat. unfold escape. intros Hx. inv_bind Hx x r1 Hadv. destruct x.
  apply took_byte in Hadv as Ht1; [|done|by rewrite Hat]. rewrite Hat in Ht1. clear Hadv.
  inv_bind Hx e r1' He. injection He as <- <-. destruct (Nat.leb_spec (length (buf r1)) (pos r1)) as [|Hlt]; [done|].
  inv_bind Hx c r1' Hc. injection Hc as <- <-. inv_bind Hx x r2 Hadv. destruct x.
  assert (took r1 [at_ r1] r2) as Ht2.
  { replace [at_ r1] with (take 1 (rest r1)) by (unfold rest; by rewrite rest_at by lia).
    apply took_advance; [by eapply took_good|lia|done]. }
  clear Hadv. pose proof (took_trans _ _ _ _ _ Ht1 Ht2) as Ht. cbn in Ht. pose proof (took_good _ _ _ Ht2) as Hg2.
  destruct (simpleEscape (at_ r1)) as [v|] eqn:Hsim.
  { exists [backslash; at_ r1], [v].
    assert (out' = out ++ [v] /\ r' = r2) as [-> ->] by (destruct (at_ r1); try done; injection Hsim as <-; by injection Hx as <- <-).
    split_and!; [by constructor|done|done]. }
  destruct (decide (at_ r1 = x75)) as [Hu|Hu]; [|destruct (at_ r1); done].
  rewrite Hu in Hx, Ht. inv_bind Hx u r3 Hh. destruct (hex4_took _ _ _ Hg2 Hh) as (ds & Hl & Hv & Ht3).
  pose proof (took_trans _ _ _ _ _ Ht Ht3) as Ht'. cbn in Ht'.
  destruct ((0xDC00 <=? u) && (u <=? 0xDFFF)) eqn:E1; [done|].
  destruct ((0xD800 <=? u) && (u <=? 0xDBFF)) eqn:E2.
  - to_prop. inv_bind Hx v r4 Hlow. injection Hx as <- <-.
    destruct (lowSurrogate_took _ _ _ _ (took_good _ _ _ Ht3) Hlow) as (ds' & u' & Hl' & Hv' & Hr' & -> & Ht4).
    eexists _, _. split_and!; [by apply (esc_pair ds u ds' u')|by rewrite appendRune_app|].
    exact (took_trans _ _ _ _ _ Ht' Ht4).
  - injection Hx as <- <-. eexists _, _. split_and!; [apply (esc_unicode ds u); [done|done|]|by rewrite appendRune_app|done].
    intros Hs. apply andb_false_iff in E1, E2. rewrite !Z.leb_gt in E1, E2. lia.
Qed.

Lemma strLoop_took fuel out r s r' : good r → strLoop fuel out r = inl (s, r') →
  ∃ t u, spell t u /\ s = out ++ u /\ validUTF8 s = true /\ took r (t ++ [quote]) r'.
Proof.
  revert out r. induction fuel as [|fuel IH]; intros out r Hg; cbn [strLoop]; [done|]. intros Hx.
  inv_bind Hx e r1 He. injection He as <- <-. destruct (Nat.leb_spec (length (buf r)) (pos r)) as [|Hlt]; [done|].
  inv_bind Hx c r1 Hc. injection Hc as <- <-.
  assert (∀ r1, advance 1 r = inl (tt, r1) → took r [at_ r] r1) as Hone.
  { intros r1 Hadv. replace [at_ r] with (take 1 (rest r)) by (unfold rest; by rewrite rest_at by lia).
    apply took_advance; [done|lia|done]. }
  destruct (decide (at_ r = quote)) as [Hq|Hq].
  { inv_bind Hx x r1 Hadv. destruct x. apply Hone in Hadv. rewrite Hq in Hadv. destruct (validUTF8 out) eqn:Hv; [|done].
    injection Hx as <- <-. exists [], []. rewrite app_nil_r. split_and!; [constructor|done|done|done]. }
  destruct (Z.ltb_spec (bz (at_ r)) 0x20) as [|Hge]; [done|].
  destruct (decide (at_ r = backslash)) as [Hb|Hb].
  - inv_bind Hx out1 r1 Hesc. destruct (escape_took _ _ _ _ Hg Hb Hesc) as (e & u & He & -> & Ht).
    destruct (IH _ _ (took_good _ _ _ Ht) Hx) as (t & v & Hs & -> & Hv & Ht'). exists (e ++ t), (u ++ v).
    split_and!; [by apply spell_escape|by rewrite app_assoc|done|]. rewrite <- app_assoc. by eapply took_trans.
  - inv_bind Hx x r1 Hadv. destruct x. apply Hone in Hadv.
    destruct (IH _ _ (took_good _ _ _ Hadv) Hx) as (t & v & Hs & -> & Hv & Ht'). exists (at_ r :: t), (at_ r :: v).
    split_and!; [by apply spell_plain|by rewrite <- app_assoc|done|]. by apply (took_trans _ [at_ r] r1).
Qed.

Lemma str_took r s r' : good r → str r = inl (s, r') → ∃ t, jstring t s /\ took r t r'.
Proof.
  intros Hg. unfold str. intros Hx. inv_bind Hx c r1 Hc. injection Hc as <- <-.
  case_bool_decide as Hq; cbn [negb] in Hx; [|done]. inv_bind Hx x r1 Hadv. destruct x.
  apply took_byte in Hadv; [|done|by rewrite Hq]. rewrite Hq in Hadv.
  destruct (strLoop_took _ _ _ _ _ (took_good _ _ _ Hadv) Hx) as (t & u & Hs & -> & Hv & Ht).
  exists (quote :: t ++ [quote]). split; [by exists t|]. by apply (took_trans _ [quote] r1).
Qed.
