(* ===== verification/RecFields.v ===== *)
(** The fields of a record of rec.go, in any order and each once: what the masks of
    [seen] bits come to. *)

From S2P Require Import Prelude RecText RecCodec RecTotal RecGrammar.


Section Fields.
(** A record whose fields are named [names]; [set] reads the text of a field into it,
    [get] writes it out, and [valid] says which texts a field takes. *)
Context {V : Type} (names : list gostr) (set : V → nat → gostr → option V) (get : V → nat → gostr) (valid : nat → gostr → bool).
Hypothesis names_nodup : NoDup names.
Hypothesis set_valid : ∀ v i x, (i < length names)%nat → is_Some (set v i x) <-> valid i x = true.
Hypothesis set_get : ∀ v i x v' j, (i < length names)%nat → set v i x = Some v' →
  get v' j = if decide (j = i) then x else get v j.

(** One member: unknown and repeated names are refused, and so are texts the field
    does not take. *)
Definition updField (k x : gostr) (v : V) (seen : Z) : option (V * Z) :=
  match list_find (λ n, n = k) names with
  | None => None
  | Some (i, _) =>
      if Z.testbit seen (Z.of_nat i) then None
      else v' ← set v i x; Some (v', Z.setbit seen (Z.of_nat i))
  end.

Fixpoint updFields (kvs : list (gostr * gostr)) (v : V) (seen : Z) : option (V * Z) :=
  match kvs with
  | [] => Some (v, seen)
  | (k, x) :: kvs => '(v, seen) ← updField k x v seen; updFields kvs v seen
  end.

(** The members a record is written as. *)
Definition fieldsOf (v : V) : list (gostr * gostr) := imap (λ i n, (n, get v i)) names.

Lemma find_name k i : names !! i = Some k → list_find (λ n, n = k) names = Some (i, k).
Proof.
  intros Hi. apply list_find_Some. split_and!; [done|done|]. intros j y Hj Hlt ->.
  pose proof (NoDup_lookup _ _ _ _ names_nodup Hi Hj). lia.
Qed.

Lemma updField_Some k x v seen v' seen' : updField k x v seen = Some (v', seen') <->
  ∃ i, names !! i = Some k /\ Z.testbit seen (Z.of_nat i) = false /\ set v i x = Some v' /\ seen' = Z.setbit seen (Z.of_nat i).
Proof.
  unfold updField. split.
  - destruct (list_find _ names) as [[i y]|] eqn:Hf; [|done]. apply list_find_Some in Hf as (Hi & -> & _).
    destruct (Z.testbit seen (Z.of_nat i)) eqn:Hb; [done|]. destruct (set v i x) as [w|] eqn:Hs; [|done]. cbn. intros [= -> <-].
    by exists i.
  - intros (i & Hi & Hb & Hs & ->). rewrite (find_name k i Hi), Hb, Hs. done.
Qed.

Lemma testbit_setbit seen i j : Z.testbit (Z.setbit seen (Z.of_nat i)) (Z.of_nat j) = bool_decide (i = j) || Z.testbit seen (Z.of_nat j).
Proof.
  destruct (decide (i = j)) as [->|Hne].
  - rewrite bool_decide_eq_true_2 by done. by rewrite Z.setbit_eq by lia.
  - rewrite bool_decide_eq_false_2 by done. by rewrite Z.setbit_neq by lia.
Qed.

(** What accepted members have set. *)
Lemma updFields_inv kvs : ∀ v seen v' seen', updFields kvs v seen = Some (v', seen') →
  NoDup kvs.*1 /\
  (∀ k x, (k, x) ∈ kvs → ∃ i, names !! i = Some k /\ Z.testbit seen (Z.of_nat i) = false /\ valid i x = true /\ get v' i = x) /\
  (∀ i k, names !! i = Some k → k ∉ kvs.*1 → get v' i = get v i) /\
  (∀ i k, names !! i = Some k → Z.testbit seen' (Z.of_nat i) = Z.testbit seen (Z.of_nat i) || bool_decide (k ∈ kvs.*1)).
Proof.
  induction kvs as [|[k x] kvs IH]; intros v seen v' seen'; cbn [updFields fmap list_fmap].
  { intros [= <- <-]. split_and!; [constructor|by intros ? ? ?%not_elem_of_nil|done|].
    intros i k _. rewrite bool_decide_eq_false_2 by apply not_elem_of_nil. by rewrite orb_false_r. }
  destruct (updField k x v seen) as [[v1 seen1]|] eqn:Hu; [|done]. cbn. intros Hr.
  apply updField_Some in Hu as (i & Hi & Hb & Hs & ->). pose proof (lookup_lt_Some _ _ _ Hi) as Hlt.
  destruct (IH _ _ _ _ Hr) as (Hnd & Hin & Hout & Hbits).
  assert (k ∉ kvs.*1) as Hfresh.
  { intros ([k' y] & Hk' & Hky)%list_elem_of_fmap. cbn in Hk'. subst k'. destruct (Hin k y Hky) as (j & Hj & Hbj & _).
    pose proof (NoDup_lookup _ _ _ _ names_nodup Hi Hj) as ->. rewrite testbit_setbit, bool_decide_eq_true_2 in Hbj by done. done. }
  split_and!.
  - by constructor.
  - intros k' y [[= -> ->]|Hky]%elem_of_cons.
    + exists i. split_and!; [done|done|by apply (set_valid v i x Hlt); eexists|].
      rewrite (Hout i k Hi Hfresh), (set_get _ _ _ _ i Hlt Hs). by rewrite decide_True.
    + destruct (Hin k' y Hky) as (j & Hj & Hbj & Hv & Hg). exists j. rewrite testbit_setbit in Hbj. to_prop. by split_and!.
  - intros j k' Hj Hk'. apply not_elem_of_cons in Hk' as [Hne Hk']. rewrite (Hout j k' Hj Hk'), (set_get _ _ _ _ j Hlt Hs).
    rewrite decide_False; [done|]. intros ->. congruence.
  - intros j k' Hj. rewrite (Hbits j k' Hj), testbit_setbit, (bool_decide_ext (k' ∈ k :: kvs.*1) (k' = k \/ k' ∈ kvs.*1)) by apply elem_of_cons.
    rewrite bool_decide_or. rewrite (bool_decide_ext (i = j) (k' = k)).
    + destruct (Z.testbit seen (Z.of_nat j)), (bool_decide (k' = k)), (bool_decide (k' ∈ kvs.*1)); done.
    + split; [intros ->; congruence|]. intros ->. exact (NoDup_lookup _ _ _ _ names_nodup Hi Hj).
Qed.

(** Members with known names, each once and with a text its field takes, are
    accepted. *)
Lemma updFields_some kvs : ∀ v seen, NoDup kvs.*1 →
  (∀ k x, (k, x) ∈ kvs → ∃ i, names !! i = Some k /\ Z.testbit seen (Z.of_nat i) = false /\ valid i x = true) →
  is_Some (updFields kvs v seen).
Proof.
  induction kvs as [|[k x] kvs IH]; intros v seen Hnd Hin; cbn [updFields]; [by eexists|].
  cbn in Hnd. apply NoDup_cons in Hnd as [Hfresh Hnd]. destruct (Hin k x) as (i & Hi & Hb & Hv); [by left|].
  destruct (proj2 (set_valid v i x (lookup_lt_Some _ _ _ Hi)) Hv) as [v1 Hs].
  assert (updField k x v seen = Some (v1, Z.setbit seen (Z.of_nat i))) as -> by (apply updField_Some; by exists i).
  cbn. apply IH; [done|]. intros k' y Hky. destruct (Hin k' y) as (j & Hj & Hbj & Hvj); [by right|]. exists j.
  split_and!; [done| |done]. rewrite testbit_setbit, Hbj, orb_false_r. apply bool_decide_eq_false_2. intros ->.
  assert (k' = k) as -> by congruence. apply Hfresh. apply list_elem_of_fmap. by exists (k, y).
Qed.

Lemma fieldsOf_elem v k x : (k, x) ∈ fieldsOf v <-> ∃ i, names !! i = Some k /\ x = get v i.
Proof.
  unfold fieldsOf. rewrite list_elem_of_lookup. setoid_rewrite list_lookup_imap. split.
  - intros (i & Hi). destruct (names !! i) as [n|] eqn:Hn; [|done]. cbn in Hi. injection Hi as <- <-. by exists i.
  - intros (i & Hi & ->). exists i. by rewrite Hi.
Qed.

Lemma fieldsOf_keys v : (fieldsOf v).*1 = names.
Proof.
  unfold fieldsOf. apply list_eq. intros i. rewrite list_lookup_fmap, list_lookup_imap. by destruct (names !! i).
Qed.

(** Every bit of the mask. *)
Definition full (seen : Z) : Prop := ∀ i, (i < length names)%nat → Z.testbit seen (Z.of_nat i) = true.

(** A record read whole is read from its own members, in some order; and from any
    order of them it is read. *)
Lemma updFields_exact kvs v v' seen : updFields kvs v 0 = Some (v', seen) → full seen → kvs ≡ₚ fieldsOf v'.
Proof.
  intros Hu Hf. destruct (updFields_inv _ _ _ _ _ Hu) as (Hnd & Hin & _ & Hbits).
  apply NoDup_Permutation; [by eapply NoDup_fmap_1|eapply NoDup_fmap_1; by rewrite fieldsOf_keys|].
  intros [k x]. rewrite fieldsOf_elem. split.
  - intros Hkx. destruct (Hin k x Hkx) as (i & Hi & _ & _ & Hg). by exists i.
  - intros (i & Hi & ->). specialize (Hf i (lookup_lt_Some _ _ _ Hi)). rewrite (Hbits i k Hi), Z.bits_0 in Hf. cbn in Hf.
    apply bool_decide_eq_true in Hf as ([k' y] & -> & Hky)%list_elem_of_fmap. cbn in *.
    destruct (Hin k' y Hky) as (j & Hj & _ & _ & Hg). pose proof (NoDup_lookup _ _ _ _ names_nodup Hi Hj) as ->. by rewrite Hg.
Qed.

Lemma updFields_complete kvs v v0 : kvs ≡ₚ fieldsOf v → (∀ i, (i < length names)%nat → valid i (get v i) = true) →
  ∃ v' seen, updFields kvs v0 0 = Some (v', seen) /\ full seen /\ ∀ i, (i < length names)%nat → get v' i = get v i.
Proof.
  intros Hp Hv. destruct (updFields_some kvs v0 0) as [[v' seen] Hu].
  - rewrite Hp, fieldsOf_keys. done.
  - intros k x Hkx. rewrite Hp in Hkx. apply fieldsOf_elem in Hkx as (i & Hi & ->). exists i.
    split_and!; [done|by rewrite Z.bits_0|]. apply Hv. by eapply lookup_lt_Some.
  - exists v', seen. destruct (updFields_inv _ _ _ _ _ Hu) as (_ & Hin & _ & Hbits). split_and!; [done| |].
    + intros i Hi. destruct (lookup_lt_is_Some_2 _ _ Hi) as [k Hk]. rewrite (Hbits i k Hk).
      rewrite bool_decide_eq_true_2; [by rewrite orb_true_r|]. rewrite Hp, fieldsOf_keys. by eapply list_elem_of_lookup_2.
    + intros i Hi. destruct (lookup_lt_is_Some_2 _ _ Hi) as [k Hk].
      assert ((k, get v i) ∈ kvs) as Hkx by (rewrite Hp; apply fieldsOf_elem; by exists i).
      destruct (Hin _ _ Hkx) as (j & Hj & _ & _ & Hg). by pose proof (NoDup_lookup _ _ _ _ names_nodup Hk Hj) as ->.
Qed.
End Fields.

(** * The object reader of rec.go against the grammar: [decodeObject] accepts exactly
    the objects of string members, and folds their members into the record in the
    order they come; the two kinds of field, and the words of the vocabulary. *)

#[local] Open Scope parser_scope.

(** An object of string members. *)
Inductive jobject : list byte → list (gostr * gostr) → Prop :=
| jobject_empty w : blanks w → jobject (lbrace :: w ++ [rbrace]) []
| jobject_members t kvs : members t kvs → jobject (lbrace :: t ++ [rbrace]) kvs.

(** ** Members *)

Lemma ws_took r r' : good r → ws r = inl (tt, r') → ∃ w, blanks w /\ took r w r' /\ is_ws (at_ r') = false.
Proof.
  intros Hg [= <-]. set (s := drop (pos r) (buf r)).
  assert (∃ w, s = w ++ skipWs s /\ blanks w /\ is_ws (first (skipWs s)) = false) as (w & Hs & Hw & Hf).
  { induction s as [|c s IH]; cbn; [by exists []; repeat constructor|]. destruct (is_ws c) eqn:Hc.
    - destruct IH as (w & Heq & Hw & Hf). exists (c :: w). split_and!; [cbn; by rewrite <- Heq|by constructor|done].
    - exists []. split_and!; [done|constructor|done]. }
  assert (left_ r - length (skipWs s) = length w)%nat as Hn.
  { unfold left_. rewrite <- length_drop. fold s. rewrite Hs at 1. rewrite length_app. lia. }
  assert (length w <= length (buf r) - pos r)%nat as Hle by (rewrite <- length_drop; fold s; rewrite Hs, length_app; lia).
  fold s. rewrite Hn. pose proof (took_advance (length w) r _ Hg Hle eq_refl) as Ht.
  unfold rest in Ht. fold s in Ht. rewrite Hs, take_app_length in Ht. exists w. split_and!; [done|done|].
  rewrite (sees_first _ (skipWs s) (depth r)); [done|]. destruct Ht as [Hr Hg' _]. constructor; [|done|done].
  unfold rest in Hr. fold s in Hr. rewrite Hs in Hr. by apply app_inv_head in Hr.
Qed.

Lemma first_jstring t s tl : jstring t s → first (t ++ tl) = quote.
Proof. intros (body & -> & _). done. Qed.

Section Object.
Context {V : Type} (field : gostr → V → Z → parser (V * Z)) (names : list gostr) (set : V → nat → gostr → option V).
#[local] Abbreviation upd := (updField names set).
#[local] Abbreviation updAll := (updFields names set).

(** A field's text is a string, and [upd] says what becomes of it. *)
Hypothesis field_reads : ∀ k x v seen v' seen' t s d, jstring t x → upd k x v seen = Some (v', seen') →
  reads (field k v seen) (t ++ s) d (v', seen') s d.
Hypothesis field_took : ∀ k v seen x' r r', good r → field k v seen r = inl (x', r') →
  ∃ t x, jstring t x /\ upd k x v seen = Some x' /\ took r t r'.

(** One member, up to what follows it. *)
Lemma reads_member {B} t k x s d v seen v' seen' (next : V * Z → parser B) b s' d' :
  jmember t k x → upd k x v seen = Some (v', seen') → is_ws (first s) = false →
  reads (next (v', seen')) s d b s' d' →
  reads (ws ;; c <- peek ;
         if negb (bool_decide (c = quote)) then refuse "malformed"
         else key <- str ; ws ;; c <- peek ;
              if negb (bool_decide (c = colon)) then refuse "malformed"
              else advance 1 ;; ws ;; x <- field key v seen ; ws ;; next x) (t ++ s) d b s' d'.
Proof.
  intros Hm Hu Hs Hnext. destruct Hm as [w1 w2 w3 w4 tk tv k x H1 H2 H3 H4 Hk Hx].
  rewrite <- !app_assoc. cbn [app]. rewrite <- !app_assoc.
  eapply reads_bind; [apply reads_ws; [done|by erewrite first_jstring]|].
  eapply reads_bind; [apply reads_peek|]. rewrite (first_jstring _ _ _ Hk), bool_decide_eq_true_2 by done. cbn [negb].
  eapply reads_bind; [by apply reads_str|]. eapply reads_bind; [by apply reads_ws|].
  eapply reads_bind; [apply reads_peek|]. cbn [first hd]. rewrite bool_decide_eq_true_2 by done. cbn [negb].
  eapply reads_bind; [apply reads_advance_1|]. eapply reads_bind; [apply reads_ws; [done|by erewrite first_jstring]|].
  eapply reads_bind; [by apply (field_reads k x)|]. eapply reads_bind; [by apply reads_ws|]. done.
Qed.

Lemma reads_objectLoop t kvs : members t kvs → ∀ fuel v seen x s d, updAll kvs v seen = Some x → (length t < fuel)%nat →
  first s = rbrace → reads (objectLoop field fuel v seen) (t ++ s) d x s d.
Proof.
  induction 1 as [t k y Hm|t k y ts kvs Hm Hms IH]; intros fuel v seen x s d Hu Hf Hs;
    (destruct fuel as [|fuel]; [lia|]); cbn [objectLoop]; cbn in Hu;
    destruct (upd k y v seen) as [[v1 seen1]|] eqn:H1; try done; cbn in Hu.
  - injection Hu as <-. eapply reads_member; [done|done|by rewrite Hs|]. eapply reads_bind; [apply reads_peek|].
    rewrite Hs, decide_False by done. apply reads_ret.
  - rewrite <- app_assoc. cbn [app]. eapply reads_member; [done|done|done|]. eapply reads_bind; [apply reads_peek|].
    cbn [first hd]. rewrite decide_True by done. eapply reads_bind; [apply reads_advance_1|].
    rewrite length_app in Hf. cbn in Hf. apply IH; [done|lia|done].
Qed.

Lemma objectLoop_took fuel v seen r x r' : good r → objectLoop field fuel v seen r = inl (x, r') →
  ∃ t kvs, members t kvs /\ updAll kvs v seen = Some x /\ took r t r'.
Proof.
  revert v seen r. induction fuel as [|fuel IH]; intros v seen r Hg; cbn [objectLoop]; [done|]. intros Hx.
  inv_bind Hx u1 r1 Hws1. destruct u1. destruct (ws_took _ _ Hg Hws1) as (w1 & Hw1 & Ht1 & _).
  inv_bind Hx c r1' Hc. injection Hc as <- <-. case_bool_decide as Hq; cbn [negb] in Hx; [|done].
  inv_bind Hx key r2 Hk. destruct (str_took _ _ _ (took_good _ _ _ Ht1) Hk) as (tk & Hjk & Ht2).
  inv_bind Hx u2 r3 Hws2. destruct u2. destruct (ws_took _ _ (took_good _ _ _ Ht2) Hws2) as (w2 & Hw2 & Ht3 & _).
  inv_bind Hx c r3' Hc. injection Hc as <- <-. case_bool_decide as Hcol; cbn [negb] in Hx; [|done].
  inv_bind Hx u3 r4 Hadv. destruct u3. apply took_byte in Hadv as Ht4; [|by eapply took_good|by rewrite Hcol]. rewrite Hcol in Ht4.
  inv_bind Hx u4 r5 Hws3. destruct u4. destruct (ws_took _ _ (took_good _ _ _ Ht4) Hws3) as (w3 & Hw3 & Ht5 & _).
  inv_bind Hx vs r6 Hfld. destruct (field_took _ _ _ _ _ _ (took_good _ _ _ Ht5) Hfld) as (tv & xv & Hjv & Hu & Ht6).
  inv_bind Hx u5 r7 Hws4. destruct u5. destruct (ws_took _ _ (took_good _ _ _ Ht6) Hws4) as (w4 & Hw4 & Ht7 & _).
  inv_bind Hx c r7' Hc. injection Hc as <- <-.
  pose proof (member_intro w1 w2 w3 w4 tk tv key xv Hw1 Hw2 Hw3 Hw4 Hjk Hjv) as Hm.
  assert (took r (w1 ++ tk ++ w2 ++ colon :: w3 ++ tv ++ w4) r7) as Ht.
  { change (colon :: w3 ++ tv ++ w4) with ([colon] ++ w3 ++ tv ++ w4).
    by repeat (eapply took_trans; [eassumption|]). }
  destruct vs as [v1 seen1]. cbn in Hx. destruct (decide (at_ r7 = comma)) as [Hcm|Hcm].
  - inv_bind Hx u6 r8 Hadv2. destruct u6. apply took_byte in Hadv2 as Ht8; [|by eapply took_good|by rewrite Hcm]. rewrite Hcm in Ht8.
    destruct (IH _ _ _ (took_good _ _ _ Ht8) Hx) as (ts & kvs & Hms & Hua & Ht9).
    eexists _, ((key, xv) :: kvs). split_and!; [by eapply members_more|cbn; rewrite Hu; done|].
    eapply took_trans; [done|]. by apply (took_trans _ [comma] r8).
  - injection Hx as <- <-. eexists _, [(key, xv)]. split_and!; [by apply members_one|cbn; rewrite Hu; done|done].
Qed.

(** White space before the first member belongs to it, and can be taken off. *)
Lemma members_blanks w t kvs : blanks w → members t kvs → members (w ++ t) kvs.
Proof.
  assert (∀ t k x, blanks w → jmember t k x → jmember (w ++ t) k x) as Hm.
  { intros t' k x Hw [w1 w2 w3 w4 tk tv k' x' H1 H2 H3 H4 Hk Hx]. rewrite app_assoc. constructor; try done. by apply Forall_app. }
  intros Hw [t' k x Hx|t' k x ts kvs' Hx Hms]; [apply members_one; auto|]. rewrite app_assoc. apply members_more; auto.
Qed.

Lemma members_strip t kvs : members t kvs → ∃ w t', t = w ++ t' /\ blanks w /\ members t' kvs /\ ∀ s, first (t' ++ s) = quote.
Proof.
  assert (∀ t k x, jmember t k x → ∃ w t', t = w ++ t' /\ blanks w /\ jmember t' k x /\ ∀ s, first (t' ++ s) = quote) as Hm.
  { intros t' k x [w1 w2 w3 w4 tk tv k' x' H1 H2 H3 H4 Hk Hx]. exists w1. eexists. split_and!; [done|done| |].
    - apply (member_intro [] w2 w3 w4 tk tv); try done. constructor.
    - intros s. rewrite <- app_assoc. by eapply first_jstring. }
  intros [t' k x Hx|t' k x ts kvs' Hx Hms]; destruct (Hm _ _ _ Hx) as (w & t1 & -> & Hw & Hx' & Hf).
  - exists w, t1. split_and!; [done|done|by apply members_one|done].
  - exists w, (t1 ++ comma :: ts). split_and!; [by rewrite app_assoc|done|by apply members_more|]. intros s. by rewrite <- app_assoc.
Qed.

(** [decodeObject] below the depth limit, both ways. *)
Lemma reads_decodeObject t kvs zero x s d : jobject t kvs → updAll kvs zero 0 = Some x → (d < depthLimit)%nat →
  reads (decodeObject field zero) (t ++ s) d x s d.
Proof.
  intros Ho Hu Hd. unfold decodeObject.
  assert (∀ x : V * Z, reads (c <- peek ; if negb (bool_decide (c = rbrace)) then refuse "malformed" else advance 1 ;; leave ;; pret x)
    (rbrace :: s) (S d) x s d) as Hclose.
  { intros y. eapply reads_bind; [apply reads_peek|]. cbn [first hd]. rewrite bool_decide_eq_true_2 by done. cbn [negb].
    eapply reads_bind; [apply reads_advance_1|]. eapply reads_bind; [apply reads_leave|]. apply reads_ret. }
  destruct Ho as [w Hw|t kvs Hm].
  - cbn in Hu. injection Hu as <-. change ((lbrace :: w ++ [rbrace]) ++ s) with (lbrace :: (w ++ [rbrace]) ++ s). rewrite <- app_assoc.
    eapply reads_bind; [apply reads_peek|]. cbn [first hd]. rewrite bool_decide_eq_true_2 by done. cbn [negb].
    eapply reads_bind; [by apply reads_enter|]. eapply reads_bind; [apply reads_advance_1|]. eapply reads_bind; [by apply reads_ws|].
    eapply reads_bind; [apply reads_peek|]. cbn [first hd app]. rewrite decide_True by done. eapply reads_bind; [apply reads_ret|]. apply Hclose.
  - change ((lbrace :: t ++ [rbrace]) ++ s) with (lbrace :: (t ++ [rbrace]) ++ s). rewrite <- app_assoc.
    eapply reads_bind; [apply reads_peek|]. cbn [first hd]. rewrite bool_decide_eq_true_2 by done. cbn [negb].
    eapply reads_bind; [by apply reads_enter|]. eapply reads_bind; [apply reads_advance_1|].
    destruct (members_strip _ _ Hm) as (w & t' & -> & Hw & Hm' & Hf). rewrite <- app_assoc.
    eapply reads_bind; [apply reads_ws; [done|by rewrite Hf]|]. eapply reads_bind; [apply reads_peek|].
    rewrite Hf, decide_False by done. eapply reads_bind; [|apply Hclose]. intros r Hr.
    eapply (reads_objectLoop t' kvs Hm'); [done| |done|done].
    unfold left_. rewrite <- (sees_length _ _ _ Hr), length_app. lia.
Qed.

Lemma decodeObject_took zero x r r' : good r → decodeObject field zero r = inl (x, r') →
  ∃ t kvs, jobject t kvs /\ updAll kvs zero 0 = Some x /\ took r t r'.
Proof.
  intros Hg. unfold decodeObject. intros Hx. inv_bind Hx c r0 Hc. injection Hc as <- <-.
  case_bool_decide as Hb; cbn [negb] in Hx; [|done]. inv_bind Hx u1 r1 He. unfold enter in He.
  destruct (depthLimit <? _)%nat; [done|]. injection He as <- <-.
  inv_bind Hx u2 r2 Hadv. destruct u2. apply took_byte in Hadv as Ht1; [|done|change (at_ r ≠ x00); by rewrite Hb].
  change (at_ (mkReader (buf r) (pos r) (S (depth r)))) with (at_ r) in Ht1. rewrite Hb in Ht1.
  inv_bind Hx u3 r3 Hws. destruct u3. destruct (ws_took _ _ (took_good _ _ _ Ht1) Hws) as (w & Hw & Ht2 & _).
  inv_bind Hx c r3' Hc. injection Hc as <- <-. inv_bind Hx y r4 Hbody.
  assert (∃ t kvs, (t = [] /\ kvs = [] \/ members t kvs) /\ updAll kvs zero 0 = Some y /\ took r3 t r4) as (t & kvs & Hm & Hu & Ht3).
  { destruct (decide (at_ r3 = rbrace)).
    - injection Hbody as <- <-. exists [], []. split_and!; [by left|done|apply took_refl; by eapply took_good].
    - destruct (objectLoop_took _ _ _ _ _ _ (took_good _ _ _ Ht2) Hbody) as (t & kvs & Hm & Hu & Ht). exists t, kvs. auto. }
  inv_bind Hx c r4' Hc. injection Hc as <- <-. case_bool_decide as Hb2; cbn [negb] in Hx; [|done].
  inv_bind Hx u5 r5 Hadv2. destruct u5. apply took_byte in Hadv2 as Ht4; [|by eapply took_good|by rewrite Hb2]. rewrite Hb2 in Ht4.
  inv_bind Hx u6 r6 Hl. injection Hl as <- <-. injection Hx as <- <-.
  exists (lbrace :: (w ++ t) ++ [rbrace]), kvs. split_and!; [|done|].
  - destruct Hm as [[-> ->]|Hm]; [rewrite app_nil_r; by constructor|]. constructor. by apply members_blanks.
  - pose proof (took_trans _ _ _ _ _ Ht1 (took_trans _ _ _ _ _ Ht2 (took_trans _ _ _ _ _ Ht3 Ht4))) as [Hr Hg5 Hd5].
    constructor; [|done|cbn; cbn in Hd5; lia]. etransitivity; [exact Hr|]. cbn [app]. f_equal. rewrite <- !app_assoc. done.
Qed.
End Object.

(** ** Fields *)

Lemma seen_bit seen i : negb (Z.land seen (2 ^ Z.of_nat i) =? 0) = Z.testbit seen (Z.of_nat i).
Proof.
  destruct (Z.testbit seen (Z.of_nat i)) eqn:Hb.
  - destruct (Z.eqb_spec (Z.land seen (2 ^ Z.of_nat i)) 0) as [H0|]; [|done].
    apply (f_equal (λ z, Z.testbit z (Z.of_nat i))) in H0. rewrite Z.land_spec, Z.bits_0, Hb, Z.pow2_bits_true in H0 by lia. done.
  - assert (Z.land seen (2 ^ Z.of_nat i) = 0) as ->; [|done]. apply Z.bits_inj'. intros n Hn.
    rewrite Z.land_spec, Z.bits_0. destruct (Z.eq_dec n (Z.of_nat i)) as [->|Hne]; [by rewrite Hb|].
    rewrite Z.pow2_bits_false by lia. by rewrite andb_false_r.
Qed.

Lemma lor_bit seen i : Z.lor seen (2 ^ Z.of_nat i) = Z.setbit seen (Z.of_nat i).
Proof. unfold Z.setbit. by rewrite Z.shiftl_1_l. Qed.

(** A mask with all of its [n] bits. *)
Lemma full_mask {names : list gostr} seen : full names seen <-> Z.land seen (Z.ones (Z.of_nat (length names))) = Z.ones (Z.of_nat (length names)).
Proof.
  unfold full. split.
  - intros Hf. apply Z.bits_inj'. intros n Hn. rewrite Z.land_spec. rewrite Z.testbit_ones by lia.
    destruct ((0 <=? n) && (n <? Z.of_nat (length names))) eqn:E; [|by rewrite andb_false_r]. to_prop.
    rewrite andb_true_r, <- (Z2Nat.id n) by lia. apply Hf. lia.
  - intros Hl i Hi. apply (f_equal (λ z, Z.testbit z (Z.of_nat i))) in Hl. rewrite Z.land_spec, Z.ones_spec_low in Hl by lia.
    by rewrite andb_true_r in Hl.
Qed.

Section FieldKinds.
Context {V : Type}.

Lemma reads_proofField i (set : Z → V) seen t x w s d : jstring t x → ParseProof x = Some w → Z.testbit seen (Z.of_nat i) = false →
  reads (proofField (2 ^ Z.of_nat i) set seen) (t ++ s) d (set w, Z.setbit seen (Z.of_nat i)) s d.
Proof.
  intros Hj Hp Hb. unfold proofField. rewrite seen_bit, Hb, lor_bit. eapply reads_bind; [by apply reads_str|]. rewrite Hp. apply reads_ret.
Qed.

Lemma reads_stringField i (set : gostr → V) seen t x s d : jstring t x → Z.testbit seen (Z.of_nat i) = false →
  reads (stringField (2 ^ Z.of_nat i) set seen) (t ++ s) d (set x, Z.setbit seen (Z.of_nat i)) s d.
Proof.
  intros Hj Hb. unfold stringField. rewrite seen_bit, Hb, lor_bit. eapply reads_bind; [by apply reads_str|]. apply reads_ret.
Qed.

Lemma proofField_took i (set : Z → V) seen y r r' : good r → proofField (2 ^ Z.of_nat i) set seen r = inl (y, r') →
  ∃ t x w, jstring t x /\ ParseProof x = Some w /\ Z.testbit seen (Z.of_nat i) = false /\
    y = (set w, Z.setbit seen (Z.of_nat i)) /\ took r t r'.
Proof.
  intros Hg. unfold proofField. rewrite seen_bit, lor_bit. destruct (Z.testbit seen (Z.of_nat i)); [done|]. intros Hx.
  inv_bind Hx x r1 Hs. destruct (str_took _ _ _ Hg Hs) as (t & Hj & Ht). destruct (ParseProof x) as [w|] eqn:Hp; [|done].
  injection Hx as <- <-. by exists t, x, w.
Qed.

Lemma stringField_took i (set : gostr → V) seen y r r' : good r → stringField (2 ^ Z.of_nat i) set seen r = inl (y, r') →
  ∃ t x, jstring t x /\ Z.testbit seen (Z.of_nat i) = false /\ y = (set x, Z.setbit seen (Z.of_nat i)) /\ took r t r'.
Proof.
  intros Hg. unfold stringField. rewrite seen_bit, lor_bit. destruct (Z.testbit seen (Z.of_nat i)); [done|]. intros Hx.
  inv_bind Hx x r1 Hs. destruct (str_took _ _ _ Hg Hs) as (t & Hj & Ht). injection Hx as <- <-. by exists t, x.
Qed.
End FieldKinds.

(** ** The words *)

Lemma parse_wire x w : ParseProof x = Some w → WireString w = x /\ WireKnown w = true.
Proof.
  unfold ParseProof. destruct (find _ proofWords) as [[w' n]|] eqn:Hf; [|done]. cbn. intros [= <-].
  apply find_some in Hf as [Hin Hx]. cbn in Hx. apply bool_decide_eq_true in Hx. subst x.
  unfold proofWords in Hin. cbn in Hin. destruct_or?; simplify_eq; done.
Qed.

Lemma wire_parse w : WireKnown w = true → ParseProof (WireString w) = Some w.
Proof.
  unfold WireKnown, WireName. destruct (find _ proofWords) as [[w' n]|] eqn:Hf; [|done]. intros _.
  apply find_some in Hf as [Hin Hx]. cbn in Hx. apply Z.eqb_eq in Hx. subst w'.
  unfold proofWords in Hin. cbn in Hin. destruct_or?; simplify_eq; done.
Qed.

Lemma wire_utf8 w : validUTF8 (WireString w) = true.
Proof.
  unfold WireString, WireName. destruct (find _ proofWords) as [[w' n]|] eqn:Hf; [|done].
  apply find_some in Hf as [Hin _]. unfold proofWords in Hin. cbn in Hin. destruct_or?; simplify_eq; done.
Qed.

(** ** Names *)

#[export] Instance lit_inj : Inj (=) (=) lit.
Proof.
  intros x y Hxy. unfold lit in Hxy.
  rewrite <- (String.string_of_list_byte_of_string x), <- (String.string_of_list_byte_of_string y). by rewrite Hxy.
Qed.

Lemma names_of_words (words : list string) : NoDup words → NoDup (map lit words).
Proof. apply (NoDup_fmap_2 lit). Qed.
