(* ===== verification/RecRecords.v ===== *)
(** The decoders of rec.go accept exactly the texts of their records: one object
    whose members are the fields of the record, each once and in any order, spelled
    in any of the ways the format allows, with any white space; and what the
    encoders write is one of those texts. *)

From S2P Require Import Prelude RecText RecCodec RecTotal RecGrammar RecFields.
#[local] Open Scope parser_scope.

(** ** [ProofRequirement] *)

#[local] Arguments lit : simpl never.

Definition requirementNames : list gostr := map lit ["user"; "process"; "path"; "package"; "code"].

Definition requirementSet (v : ProofRequirement) (i : nat) (x : gostr) : option ProofRequirement :=
  w ← ParseProof x;
  Some (match i with
        | 0 => mkRequirement w (RProcess v) (RPath v) (RPackage v) (RCode v)
        | 1 => mkRequirement (RUser v) w (RPath v) (RPackage v) (RCode v)
        | 2 => mkRequirement (RUser v) (RProcess v) w (RPackage v) (RCode v)
        | 3 => mkRequirement (RUser v) (RProcess v) (RPath v) w (RCode v)
        | _ => mkRequirement (RUser v) (RProcess v) (RPath v) (RPackage v) w
        end)%nat.

Definition requirementGet (v : ProofRequirement) (i : nat) : gostr :=
  match i with
  | 0 => WireString (RUser v) | 1 => WireString (RProcess v) | 2 => WireString (RPath v)
  | 3 => WireString (RPackage v) | 4 => WireString (RCode v) | _ => []
  end%nat.

Definition requirementValid (_ : nat) (x : gostr) : bool := match ParseProof x with Some _ => true | None => false end.

Definition requirementUpd := updField requirementNames requirementSet.

(** Every member is known. *)
Definition requirementKnown (v : ProofRequirement) : Prop :=
  WireKnown (RUser v) = true /\ WireKnown (RProcess v) = true /\ WireKnown (RPath v) = true /\ WireKnown (RPackage v) = true /\ WireKnown (RCode v) = true.

Lemma requirementNames_nodup : NoDup requirementNames.
Proof. apply names_of_words. apply (bool_decide_unpack _). vm_compute. done. Qed.

Lemma requirementSet_valid v i x : (i < length requirementNames)%nat → is_Some (requirementSet v i x) <-> requirementValid i x = true.
Proof. intros _. unfold requirementSet, requirementValid. destruct (ParseProof x); cbn; done. Qed.

Lemma requirementSet_get v i x v' j : (i < length requirementNames)%nat → requirementSet v i x = Some v' →
  requirementGet v' j = if decide (j = i) then x else requirementGet v j.
Proof.
  intros Hi. unfold requirementSet. destruct (ParseProof x) as [w|] eqn:Hp; [|done]. cbn. intros [= <-].
  destruct (parse_wire _ _ Hp) as [Hw _]. cbn in Hi.
  destruct i as [|[|[|[|[|i]]]]]; try lia; destruct j as [|[|[|[|[|j]]]]]; done.
Qed.

#[local] Ltac read_field lem n :=
  match goal with |- reads (_ _ ?set ?seen) _ _ _ _ _ => eapply (lem _ n set seen); eassumption end.

Lemma requirementField_reads k x v seen v' seen' t s d : jstring t x → requirementUpd k x v seen = Some (v', seen') →
  reads (requirementField k v seen) (t ++ s) d (v', seen') s d.
Proof.
  intros Hj Hu. apply updField_Some in Hu as (i & Hi & Hb & Hs & ->); [|apply requirementNames_nodup].
  unfold requirementSet in Hs. destruct (ParseProof x) as [w|] eqn:Hp; [|done]. cbn in Hs. injection Hs as <-.
  unfold requirementField.
  destruct i as [|[|[|[|[|i]]]]]; cbn in Hi; try done; injection Hi as <-;
    repeat first [rewrite decide_True by done|rewrite decide_False by done];
    [read_field @reads_proofField 0%nat|read_field @reads_proofField 1%nat|read_field @reads_proofField 2%nat
    |read_field @reads_proofField 3%nat|read_field @reads_proofField 4%nat].
Qed.

Lemma requirementField_took k v seen y r r' : good r → requirementField k v seen r = inl (y, r') →
  ∃ t x, jstring t x /\ requirementUpd k x v seen = Some y /\ took r t r'.
Proof.
  intros Hg. unfold requirementField, requirementUpd.
  assert (∀ i set, requirementNames !! i = Some k →
    (∀ w x, ParseProof x = Some w → requirementSet v i x = Some (set w)) →
    proofField (2 ^ Z.of_nat i) set seen r = inl (y, r') →
    ∃ t x, jstring t x /\ updField requirementNames requirementSet k x v seen = Some y /\ took r t r') as Hone.
  { intros i set Hi Hset Hf. destruct (proofField_took i set seen y r r' Hg Hf) as (t & x & w & Hj & Hp & Hb & -> & Ht).
    exists t, x. split_and!; [done| |done]. apply updField_Some; [apply requirementNames_nodup|]. exists i. split_and!; auto. }
  repeat case_decide; subst; try done;
    [apply (Hone 0%nat)|apply (Hone 1%nat)|apply (Hone 2%nat)|apply (Hone 3%nat)|apply (Hone 4%nat)]; try done;
    intros w x Hp; unfold requirementSet; by rewrite Hp.
Qed.

Lemma wire_inj a b : WireKnown b = true → WireString a = WireString b → a = b.
Proof.
  intros Hb Hab. pose proof (wire_parse _ Hb) as Hp. rewrite <- Hab in Hp.
  destruct (WireKnown a) eqn:Ha; [rewrite (wire_parse _ Ha) in Hp; congruence|].
  unfold WireString, WireKnown in *. destruct (WireName a); [done|]. by vm_compute in Hp.
Qed.

Lemma get_known v i : requirementValid i (WireString v) = true → WireKnown v = true.
Proof.
  unfold requirementValid. destruct (ParseProof (WireString v)) as [w|] eqn:Hp; [|done]. intros _.
  destruct (parse_wire _ _ Hp) as [Hw Hk]. by rewrite (wire_inj v w Hk) by done.
Qed.

Lemma valid_known v i : WireKnown v = true → requirementValid i (WireString v) = true.
Proof. intros Hk. unfold requirementValid. by rewrite (wire_parse _ Hk). Qed.

(** Two requirements of the same words are one. *)
Lemma requirement_ext v v' : requirementKnown v → (∀ i, (i < length requirementNames)%nat → requirementGet v' i = requirementGet v i) → v' = v.
Proof.
  intros (K1 & K2 & K3 & K4 & K5) Hg. destruct v, v'. cbn in *.
  f_equal; apply wire_inj; try done; [apply (Hg 0%nat)|apply (Hg 1%nat)|apply (Hg 2%nat)|apply (Hg 3%nat)|apply (Hg 4%nat)]; lia.
Qed.

(** The texts of a requirement. *)
Definition requirementText (t : list byte) (v : ProofRequirement) : Prop :=
  ∃ kvs, jobject t kvs /\ kvs ≡ₚ fieldsOf requirementNames requirementGet v /\ requirementKnown v.

Lemma reads_requirement t v s d : requirementText t v → (d < depthLimit)%nat → reads decodeProofRequirement (t ++ s) d v s d.
Proof.
  intros (kvs & Ho & Hp & Hk) Hd. unfold decodeProofRequirement.
  destruct (updFields_complete _ _ _ _ requirementNames_nodup requirementSet_valid requirementSet_get kvs v (mkRequirement 0 0 0 0 0) Hp)
    as (v' & seen & Hu & Hf & Hg).
  { intros i Hi. destruct Hk as (K1 & K2 & K3 & K4 & K5). cbn in Hi. destruct i as [|[|[|[|[|i]]]]]; try lia; by apply valid_known. }
  apply (requirement_ext _ _ Hk) in Hg as ->.
  eapply reads_bind; [by apply (reads_decodeObject _ _ _ requirementField_reads t kvs)|]. cbn beta iota.
  apply full_mask in Hf. change (Z.ones (Z.of_nat (length requirementNames))) with 31 in Hf. rewrite Hf.
  destruct Hk as (-> & -> & -> & -> & ->). cbn [negb Z.eqb Pos.eqb]. apply reads_ret.
Qed.

Lemma requirement_took v r r' : good r → decodeProofRequirement r = inl (v, r') → ∃ t, requirementText t v /\ took r t r'.
Proof.
  intros Hg Hx. unfold decodeProofRequirement in Hx. inv_bind Hx y r1 Ho.
  destruct (decodeObject_took _ _ _ requirementField_took _ _ _ _ Hg Ho) as (t & kvs & Hj & Hu & Ht). destruct y as [v1 seen].
  destruct (Z.eqb_spec (Z.land seen 31) 31) as [Hm|]; [|done]. cbn [negb] in Hx.
  destruct (WireKnown (RUser v1)) eqn:K1; [|done]. destruct (WireKnown (RProcess v1)) eqn:K2; [|done].
  destruct (WireKnown (RPath v1)) eqn:K3; [|done]. destruct (WireKnown (RPackage v1)) eqn:K4; [|done].
  destruct (WireKnown (RCode v1)) eqn:K5; [|done]. injection Hx as <- <-.
  exists t. split; [|done]. exists kvs. split_and!; [done| |by split_and!].
  eapply updFields_exact; [apply requirementNames_nodup|apply requirementSet_valid|apply requirementSet_get|done|].
  by apply full_mask.
Qed.

(** ** [ProofFailure] *)

Definition failureNames : list gostr := map lit ["attribute"; "have"; "need"; "why"].

Definition failureSet (v : ProofFailure) (i : nat) (x : gostr) : option ProofFailure :=
  match i with
  | 0 => Some (mkFailure x (FHave v) (FNeed v) (FWhy v))
  | 1 => (λ w, mkFailure (FAttribute v) w (FNeed v) (FWhy v)) <$> ParseProof x
  | 2 => (λ w, mkFailure (FAttribute v) (FHave v) w (FWhy v)) <$> ParseProof x
  | _ => Some (mkFailure (FAttribute v) (FHave v) (FNeed v) x)
  end%nat.

Definition failureGet (v : ProofFailure) (i : nat) : gostr :=
  match i with
  | 0 => FAttribute v | 1 => WireString (FHave v) | 2 => WireString (FNeed v) | 3 => FWhy v | _ => []
  end%nat.

Definition failureValid (i : nat) (x : gostr) : bool :=
  match i with 1 | 2 => requirementValid i x | _ => true end%nat.

Definition failureKnown (v : ProofFailure) : Prop := WireKnown (FHave v) = true /\ WireKnown (FNeed v) = true.

Lemma failureNames_nodup : NoDup failureNames.
Proof. apply names_of_words. apply (bool_decide_unpack _). vm_compute. done. Qed.

Lemma failureSet_valid v i x : (i < length failureNames)%nat → is_Some (failureSet v i x) <-> failureValid i x = true.
Proof.
  cbn. intros Hi. unfold failureSet, failureValid, requirementValid.
  destruct i as [|[|[|[|i]]]]; try lia; try done; destruct (ParseProof x); cbn; done.
Qed.

Lemma failureSet_get v i x v' j : (i < length failureNames)%nat → failureSet v i x = Some v' →
  failureGet v' j = if decide (j = i) then x else failureGet v j.
Proof.
  intros Hi. unfold failureSet. cbn in Hi. destruct i as [|[|[|[|i]]]]; try lia;
    (destruct (ParseProof x) as [w|] eqn:Hp; [destruct (parse_wire _ _ Hp) as [Hw _]|]); cbn; intros [= <-];
    destruct j as [|[|[|[|j]]]]; done.
Qed.

Lemma failureField_reads k x v seen v' seen' t s d : jstring t x → updField failureNames failureSet k x v seen = Some (v', seen') →
  reads (failureField k v seen) (t ++ s) d (v', seen') s d.
Proof.
  intros Hj Hu. apply updField_Some in Hu as (i & Hi & Hb & Hs & ->); [|apply failureNames_nodup].
  unfold failureSet in Hs. unfold failureField.
  destruct i as [|[|[|[|i]]]]; cbn in Hi; try done; injection Hi as <-;
    repeat first [rewrite decide_True by done|rewrite decide_False by done];
    try (destruct (ParseProof x) as [w|] eqn:Hp; [|done]); injection Hs as <-;
    [read_field @reads_stringField 0%nat|read_field @reads_proofField 1%nat|read_field @reads_proofField 2%nat
    |read_field @reads_stringField 3%nat].
Qed.

Lemma failureField_took k v seen y r r' : good r → failureField k v seen r = inl (y, r') →
  ∃ t x, jstring t x /\ updField failureNames failureSet k x v seen = Some y /\ took r t r'.
Proof.
  intros Hg. unfold failureField.
  assert (∀ i t x v', failureNames !! i = Some k → jstring t x → Z.testbit seen (Z.of_nat i) = false →
    failureSet v i x = Some v' → y = (v', Z.setbit seen (Z.of_nat i)) → took r t r' →
    ∃ t x, jstring t x /\ updField failureNames failureSet k x v seen = Some y /\ took r t r') as Hone.
  { intros i t x v' Hi Hj Hb Hs -> Ht. exists t, x. split_and!; [done| |done].
    apply updField_Some; [apply failureNames_nodup|]. exists i. by split_and!. }
  repeat case_decide; subst; try done; intros Hf.
  - destruct (stringField_took 0 _ seen y r r' Hg Hf) as (t & x & Hj & Hb & Hy & Ht). by eapply (Hone 0%nat).
  - destruct (proofField_took 1 _ seen y r r' Hg Hf) as (t & x & w & Hj & Hp & Hb & Hy & Ht).
    eapply (Hone 1%nat); try done. unfold failureSet. by rewrite Hp.
  - destruct (proofField_took 2 _ seen y r r' Hg Hf) as (t & x & w & Hj & Hp & Hb & Hy & Ht).
    eapply (Hone 2%nat); try done. unfold failureSet. by rewrite Hp.
  - destruct (stringField_took 3 _ seen y r r' Hg Hf) as (t & x & Hj & Hb & Hy & Ht). by eapply (Hone 3%nat).
Qed.

Lemma failure_ext v v' : failureKnown v → (∀ i, (i < length failureNames)%nat → failureGet v' i = failureGet v i) → v' = v.
Proof.
  intros (K1 & K2) Hg. destruct v, v'. cbn in *.
  f_equal; [apply (Hg 0%nat)|apply wire_inj; [done|apply (Hg 1%nat)]|apply wire_inj; [done|apply (Hg 2%nat)]|apply (Hg 3%nat)]; lia.
Qed.

(** The texts of a failure. *)
Definition failureText (t : list byte) (v : ProofFailure) : Prop :=
  ∃ kvs, jobject t kvs /\ kvs ≡ₚ fieldsOf failureNames failureGet v /\ failureKnown v.

Lemma reads_failure t v s d : failureText t v → (d < depthLimit)%nat → reads decodeProofFailure (t ++ s) d v s d.
Proof.
  intros (kvs & Ho & Hp & Hk) Hd. unfold decodeProofFailure.
  destruct (updFields_complete _ _ _ _ failureNames_nodup failureSet_valid failureSet_get kvs v (mkFailure [] 0 0 []) Hp)
    as (v' & seen & Hu & Hf & Hg).
  { intros i Hi. destruct Hk as (K1 & K2). cbn in Hi. destruct i as [|[|[|[|i]]]]; try lia; try done; by apply valid_known. }
  apply (failure_ext _ _ Hk) in Hg as ->.
  eapply reads_bind; [by apply (reads_decodeObject _ _ _ failureField_reads t kvs)|]. cbn beta iota.
  apply full_mask in Hf. change (Z.ones (Z.of_nat (length failureNames))) with 15 in Hf. rewrite Hf.
  destruct Hk as (-> & ->). cbn [negb Z.eqb Pos.eqb]. apply reads_ret.
Qed.

Lemma failure_took v r r' : good r → decodeProofFailure r = inl (v, r') → ∃ t, failureText t v /\ took r t r'.
Proof.
  intros Hg Hx. unfold decodeProofFailure in Hx. inv_bind Hx y r1 Ho.
  destruct (decodeObject_took _ _ _ failureField_took _ _ _ _ Hg Ho) as (t & kvs & Hj & Hu & Ht). destruct y as [v1 seen].
  destruct (Z.eqb_spec (Z.land seen 15) 15) as [Hm|]; [|done]. cbn [negb] in Hx.
  destruct (WireKnown (FHave v1)) eqn:K1; [|done]. destruct (WireKnown (FNeed v1)) eqn:K2; [|done]. injection Hx as <- <-.
  exists t. split; [|done]. exists kvs. split_and!; [done| |by split].
  eapply updFields_exact; [apply failureNames_nodup|apply failureSet_valid|apply failureSet_get|done|]. by apply full_mask.
Qed.

(** ** Whole documents *)

Lemma first_jobject t kvs s : jobject t kvs → first (t ++ s) = lbrace.
Proof. by intros [w _|t' kvs' _]. Qed.

Lemma took_end r t r' : took r t r' → atEnd r' = inl (true, r') → rest r = t.
Proof.
  intros [Hr _ _] [= He]. rewrite Hr. unfold rest at 1. rewrite drop_ge; [by rewrite app_nil_r|]. to_prop. lia.
Qed.

Lemma result_of_inl {A} (x : (A * reader) + Refusal) a : result_of x = inl a → ∃ r, x = inl (a, r).
Proof. destruct x as [[b r]|]; cbn; [|done]. intros [= ->]. by exists r. Qed.

Lemma good_start input : good (mkReader input 0 0).
Proof. cbv [good]. cbn. lia. Qed.

Lemma Decode_text input v : Decode input = inl v → ∃ w1 t w2, input = w1 ++ t ++ w2 /\ blanks w1 /\ blanks w2 /\ requirementText t v.
Proof.
  unfold Decode. intros [r' Hx]%result_of_inl.
  inv_bind Hx u1 r1 H1. destruct u1. destruct (ws_took _ _ (good_start input) H1) as (w1 & Hw1 & Ht1 & _).
  inv_bind Hx v1 r2 H2. destruct (requirement_took _ _ _ (took_good _ _ _ Ht1) H2) as (t & Htx & Ht2).
  inv_bind Hx u3 r3 H3. destruct u3. destruct (ws_took _ _ (took_good _ _ _ Ht2) H3) as (w2 & Hw2 & Ht3 & _).
  inv_bind Hx e r4 H4. injection H4 as He <-. destruct e; [|done]. injection Hx as <- <-.
  exists w1, t, w2. split_and!; try done.
  apply (took_end _ _ _ (took_trans _ _ _ _ _ Ht1 (took_trans _ _ _ _ _ Ht2 Ht3))). unfold atEnd. by rewrite He.
Qed.

Lemma text_Decode w1 t w2 v : blanks w1 → blanks w2 → requirementText t v → Decode (w1 ++ t ++ w2) = inl v.
Proof.
  intros Hw1 Hw2 Htx. assert (∃ kvs, jobject t kvs) as [kvs Hj] by (destruct Htx as (kvs & ? & _); eauto). unfold Decode.
  edestruct (reads_bind ws (λ _, v <- decodeProofRequirement ; ws ;; e <- atEnd ; if negb e then refuse "trailing_bytes" else pret v)
    (w1 ++ t ++ w2) 0 tt (t ++ w2) 0 v [] 0) as (r' & -> & _ & _); [..|done].
  - apply reads_ws; [done|]. by rewrite (first_jobject _ _ _ Hj).
  - eapply reads_bind; [apply reads_requirement; [done|unfold depthLimit; lia]|].
    eapply reads_bind; [rewrite <- (app_nil_r w2); by apply reads_ws|]. eapply reads_bind; [apply reads_atEnd|].
    rewrite bool_decide_eq_true_2 by done. apply reads_ret.
  - constructor; cbn; [done|apply good_start|done].
Qed.

(** C25: A requirement is read from a text exactly when the text is one object, with any white space around and inside it,
    whose members are the five names, each once and in any order, each with the word of a known proof, every name and
    word spelled in any way the format allows: then [Decode] gives that requirement, and otherwise it refuses. *)
Theorem decode_exact input v : Decode input = inl v <->
  ∃ w1 t w2, input = w1 ++ t ++ w2 /\ blanks w1 /\ blanks w2 /\ requirementText t v.
Proof. split; [apply Decode_text|]. intros (w1 & t & w2 & -> & Hw1 & Hw2 & Ht). by apply text_Decode. Qed.
