(* ===== verification/RecRoundTrip.v ===== *)
(** What the encoders of rec.go write is a text of the record they were given, and the
    decoders read it back. *)

From Stdlib Require Import Sorting.Sorted.
From stdpp Require Import sorting.
From S2P Require Import Prelude RecText RecCodec RecTotal RecGrammar RecFields RecRecords.

#[local] Open Scope parser_scope.

(** ** The writer *)

Definition indent (depth : Z) : list byte := replicate (Z.to_nat (depth * 2)) blank.

(** A string as [esc] writes it, and a member as [encField] does. *)
Definition quoted (s : gostr) : list byte := quote :: flat_map escOne s ++ [quote].

Definition fieldText (depth : Z) (k x : gostr) : list byte :=
  (linefeed :: indent (depth + 1)) ++ quoted k ++ [] ++ colon :: [blank] ++ quoted x.

(** The members as the encoders lay them out, before the closing brace. *)
Fixpoint fieldTexts (depth : Z) (kvs : list (gostr * gostr)) : list byte :=
  match kvs with
  | [] => linefeed :: indent depth
  | [(k, x)] => fieldText depth k x ++ linefeed :: indent depth
  | (k, x) :: kvs => fieldText depth k x ++ comma :: fieldTexts depth kvs
  end.

Lemma encField_text out depth k x : encField out depth k x = out ++ fieldText depth k x.
Proof. unfold encField, fieldText, quoted, indent, pad. rewrite !esc_app, <- !app_assoc. done. Qed.

Lemma blanks_indent depth : blanks (indent depth).
Proof. apply Forall_replicate. done. Qed.

Lemma blanks_line depth : blanks (linefeed :: indent depth).
Proof. constructor; [done|apply blanks_indent]. Qed.

Lemma member_fieldText depth k x w : blanks w → validUTF8 k = true → validUTF8 x = true → jmember (fieldText depth k x ++ w) k x.
Proof.
  intros Hw Hk Hx. unfold fieldText. rewrite <- !app_assoc. cbn [app].
  apply (member_intro (linefeed :: indent (depth + 1)) [] [blank] w (quoted k) (quoted x));
    [apply blanks_line|constructor|by repeat constructor|done|by apply jstring_esc|by apply jstring_esc].
Qed.

Lemma members_fieldTexts depth kvs : kvs ≠ [] → Forall (λ kx, validUTF8 kx.1 = true /\ validUTF8 kx.2 = true) kvs →
  members (fieldTexts depth kvs) kvs.
Proof.
  induction kvs as [|[k x] kvs IH]; [done|]. intros _ [[Hk Hx] Hall]%Forall_cons. destruct kvs as [|y kvs].
  - apply members_one, member_fieldText; [apply blanks_line|done|done].
  - cbn [fieldTexts]. apply members_more; [|by apply IH]. rewrite <- (app_nil_r (fieldText depth k x)).
    apply member_fieldText; [constructor|done|done].
Qed.

(** The object the encoders write. *)
Definition objectText (depth : Z) (kvs : list (gostr * gostr)) : list byte := lbrace :: fieldTexts depth kvs ++ [rbrace].

Lemma jobject_objectText depth kvs : Forall (λ kx, validUTF8 kx.1 = true /\ validUTF8 kx.2 = true) kvs →
  jobject (objectText depth kvs) kvs.
Proof.
  intros Hall. destruct kvs as [|y kvs]; [constructor; apply blanks_line|]. constructor. by apply members_fieldTexts.
Qed.

Lemma encProofRequirement_text out v depth : requirementKnown v →
  encProofRequirement out v depth = inl (out ++ objectText depth (fieldsOf requirementNames requirementGet v)).
Proof.
  intros (K1 & K2 & K3 & K4 & K5). unfold encProofRequirement. rewrite K1, K2, K3, K4, K5. cbn [negb]. f_equal.
  rewrite !encField_text. unfold pad. fold (indent depth). rewrite <- !app_assoc. cbn [app].
  unfold objectText. cbn -[fieldText lit]. repeat (rewrite <- app_assoc; cbn [app]). done.
Qed.

Lemma encProofRequirement_unknown out v depth : ~ requirementKnown v →
  encProofRequirement out v depth = inr (mkRefusal (lit "bad_enum") 0).
Proof.
  intros Hk. unfold encProofRequirement, requirementKnown in *.
  destruct (WireKnown (RUser v)), (WireKnown (RProcess v)), (WireKnown (RPath v)), (WireKnown (RPackage v)), (WireKnown (RCode v)); try done.
  by destruct Hk.
Qed.

Lemma encProofFailure_text out v depth : failureKnown v →
  encProofFailure out v depth = inl (out ++ objectText depth (fieldsOf failureNames failureGet v)).
Proof.
  intros (K1 & K2). unfold encProofFailure. rewrite K1, K2. cbn [negb]. f_equal.
  rewrite !encField_text. unfold pad. fold (indent depth). rewrite <- !app_assoc. cbn [app].
  unfold objectText. cbn -[fieldText lit]. repeat (rewrite <- app_assoc; cbn [app]). done.
Qed.

Lemma encProofFailure_unknown out v depth : ~ failureKnown v → encProofFailure out v depth = inr (mkRefusal (lit "bad_enum") 0).
Proof.
  intros Hk. unfold encProofFailure, failureKnown in *. destruct (WireKnown (FHave v)), (WireKnown (FNeed v)); try done. by destruct Hk.
Qed.

#[local] Instance requirementKnown_dec v : Decision (requirementKnown v).
Proof. unfold requirementKnown. apply _. Defined.

#[local] Instance failureKnown_dec v : Decision (failureKnown v).
Proof. unfold failureKnown. apply _. Defined.

Lemma requirementText_written v depth : requirementKnown v →
  requirementText (objectText depth (fieldsOf requirementNames requirementGet v)) v.
Proof.
  intros Hk. eexists. split_and!; [|done|done]. apply jobject_objectText.
  repeat constructor; cbn; first [apply wire_utf8|by vm_compute].
Qed.

(** Every text of an object holds valid UTF-8. *)
Lemma members_utf8 t kvs : members t kvs → Forall (λ kx, validUTF8 kx.2 = true) kvs.
Proof.
  assert (∀ t k x, jmember t k x → validUTF8 x = true) as Hm by (intros ? ? ? [????????????? (? & _ & _ & Hu)]; done).
  induction 1; constructor; eauto; constructor.
Qed.

Lemma jobject_utf8 t kvs : jobject t kvs → Forall (λ kx, validUTF8 kx.2 = true) kvs.
Proof. intros [w _|? ? Hm]; [constructor|by eapply members_utf8]. Qed.

Lemma failureText_written v depth : failureKnown v → validUTF8 (FAttribute v) = true → validUTF8 (FWhy v) = true →
  failureText (objectText depth (fieldsOf failureNames failureGet v)) v.
Proof.
  intros Hk Ha Hw. eexists. split_and!; [|done|done]. apply jobject_objectText.
  repeat constructor; cbn; first [apply wire_utf8|done|by vm_compute].
Qed.

Lemma failureText_utf8 t v : failureText t v → validUTF8 (FAttribute v) = true /\ validUTF8 (FWhy v) = true.
Proof.
  intros (kvs & Ho & Hp & _). apply jobject_utf8 in Ho. rewrite Hp in Ho. rewrite Forall_forall in Ho.
  split; [apply (Ho (lit "attribute", FAttribute v))|apply (Ho (lit "why", FWhy v))];
    apply fieldsOf_elem; [exists 0%nat|exists 3%nat]; done.
Qed.

(** ** Round trips *)

(** What the encoders panic with. *)
Definition badEnum : Refusal := mkRefusal (lit "bad_enum") 0.

(** A requirement whose members are all known proofs is written to a text [Decode] reads back as the same
    requirement; one with a member that is not is refused with bad_enum before anything is written. *)
Theorem requirement_round_trip v :
  match Encode v with
  | inl out => requirementKnown v /\ Decode out = inl v
  | inr e => ~ requirementKnown v /\ e = badEnum
  end.
Proof.
  unfold Encode. destruct (decide (requirementKnown v)) as [Hk|Hk].
  - rewrite encProofRequirement_text by done. split; [done|].
    apply (text_Decode [] _ [linefeed]); [constructor|by repeat constructor|by apply requirementText_written].
  - by rewrite encProofRequirement_unknown.
Qed.

(** A failure with known proofs, written at any depth of indentation and with anything after it, is read back as the
    same failure exactly when its attribute and its reason are valid UTF-8: the writer passes other bytes through, and the
    reader then refuses the text; a failure with an unknown proof is not written. *)
Theorem failure_round_trip v depth s :
  match encProofFailure [] v depth with
  | inl out =>
      failureKnown v /\
      (result_of (decodeProofFailure (mkReader (out ++ s) 0 0)) = inl v <->
       validUTF8 (FAttribute v) = true /\ validUTF8 (FWhy v) = true)
  | inr e => ~ failureKnown v /\ e = badEnum
  end.
Proof.
  destruct (decide (failureKnown v)) as [Hk|Hk]; [|by rewrite encProofFailure_unknown].
  rewrite encProofFailure_text by done. cbn [app]. split; [done|]. split.
  - intros [r' Hx]%result_of_inl. apply failure_took in Hx as (t & Ht & _); [|apply good_start]. by eapply failureText_utf8.
  - intros [Ha Hw]. destruct (reads_failure _ _ s 0 (failureText_written v depth Hk Ha Hw)) with (r := mkReader
      (objectText depth (fieldsOf failureNames failureGet v) ++ s) 0 0) as (r' & -> & _); [unfold depthLimit; lia| |done].
    constructor; [done|apply good_start|done].
Qed.

(** ** The vocabulary on its own *)

Lemma known_values v : WireKnown v = true <-> v ∈ ProofValues.
Proof.
  unfold WireKnown, WireName. split.
  - destruct (find _ proofWords) as [[w n]|] eqn:Hf; [|done]. intros _. apply find_some in Hf as [Hin Hx].
    cbn in Hx. apply Z.eqb_eq in Hx as ->. apply list_elem_of_In, in_map_iff. by exists (v, n).
  - intros (x & Hx & Hin)%list_elem_of_In%in_map_iff. cbn in Hin. destruct_or?; simplify_eq; done.
Qed.

(** Each member crosses as its word, bare or quoted, and comes back; any other number is refused in both. *)
Lemma words_round_trip v :
  match MarshalText v, MarshalJSON v with
  | inl word, inl text => WireKnown v = true /\ UnmarshalText word = inl v /\ UnmarshalJSON text = inl v
  | inr e, inr e' => WireKnown v = false /\ e = e'
  | _, _ => False
  end.
Proof.
  unfold MarshalText, MarshalJSON. destruct (WireName v) as [word|] eqn:Hw; [|by unfold WireKnown; rewrite Hw].
  assert (WireKnown v = true) as Hk by (unfold WireKnown; by rewrite Hw). split; [done|].
  apply known_values in Hk. cbn in Hk. rewrite !elem_of_cons, elem_of_nil in Hk.
  destruct_or?; subst; try done; vm_compute in Hw; injection Hw as <-; split; by vm_compute.
Qed.

(** * The numbers and the maps of rec.go: an [int64] written by [num] is read back by
    [integer], whose sum never wraps, and [rawmap] writes a map in one order whatever
    order Go iterates it in. *)

#[local] Open Scope parser_scope.

(** ** Numbers *)

(** What digits come to, after [u]. *)
Definition digitsValue (u : Z) (ds : list byte) : Z := fold_left (λ u c, u * 10 + (bz c - 48)) ds u.

Lemma digitsValue_app u ds c : digitsValue u (ds ++ [c]) = digitsValue u ds * 10 + (bz c - 48).
Proof. unfold digitsValue. by rewrite fold_left_app. Qed.

Lemma digitsValue_mono ds : ∀ u, Forall (λ c, is_digit c = true) ds → 0 <= u → u <= digitsValue u ds.
Proof.
  induction ds as [|c ds IH]; intros u; [cbn; lia|]. intros [Hc Hds]%Forall_cons Hu. unfold is_digit in Hc. to_prop.
  cbn. specialize (IH (u * 10 + (bz c - 48)) Hds). unfold digitsValue in IH. lia.
Qed.

Lemma digit_byte d : 0 <= d < 10 → bz (zb (48 + d)) = 48 + d /\ is_digit (zb (48 + d)) = true.
Proof.
  intros Hd. assert (bz (zb (48 + d)) = 48 + d) as Hb by (rewrite bz_zb, Z.mod_small; lia). split; [done|].
  unfold is_digit. rewrite Hb. apply andb_true_iff. split; lia.
Qed.

Lemma digits_spec fuel : ∀ u acc, 0 <= u < 10 ^ Z.of_nat fuel →
  ∃ ds, digits fuel u acc = ds ++ acc /\ Forall (λ c, is_digit c = true) ds /\ digitsValue 0 ds = u /\
    (u = 0 → ds = []) /\ (0 < u → ds ≠ [] /\ first ds ≠ x30).
Proof.
  induction fuel as [|fuel IH]; intros u acc Hu; cbn [digits].
  { exists []. cbn in *. split_and!; [done|constructor|lia|done|lia]. }
  destruct (Z.eqb_spec u 0) as [->|Hne]; [exists []; split_and!; [done|constructor|done|done|lia]|].
  rewrite Nat2Z.inj_succ, Z.pow_succ_r in Hu by lia. pose proof (Z.div_mod u 10 ltac:(lia)) as Hdm.
  destruct (digit_byte (u mod 10)) as [Hb Hd]; [apply Z.mod_pos_bound; lia|].
  destruct (IH (u / 10) (zb (48 + u mod 10) :: acc)) as (ds & Heq & Hds & Hv & H0 & Hnz).
  { split; [apply Z.div_pos; lia|]. apply Z.div_lt_upper_bound; lia. }
  exists (ds ++ [zb (48 + u mod 10)]). split_and!; [by rewrite Heq, <- app_assoc|apply Forall_app; by repeat constructor| |done|].
  - rewrite digitsValue_app, Hv, Hb. lia.
  - intros _. split; [by destruct ds|]. destruct (Z.eq_dec (u / 10) 0) as [Hz|Hz].
    + rewrite (H0 Hz). cbn. intros Hx. apply (f_equal bz) in Hx. rewrite Hb in Hx. change (bz x30) with 48 in Hx. lia.
    + destruct Hnz as [Hn Hf]; [pose proof (Z.div_pos u 10); lia|]. by destruct ds.
Qed.

(** The loop reads digits whose value is within [2 ^ 63], and its guard never stops
    it there. *)
Lemma reads_integerLoop ds s d : Forall (λ c, is_digit c = true) ds → is_digit (first s) = false →
  ∀ fuel u, 0 <= u → digitsValue u ds <= 2 ^ 63 → (length ds < fuel)%nat →
  reads (integerLoop fuel u) (ds ++ s) d (digitsValue u ds) s d.
Proof.
  intros Hds Hs. induction Hds as [|c ds Hc Hds IH]; intros fuel u Hu Hv Hf; (destruct fuel as [|fuel]; [cbn in Hf; lia|]);
    cbn [integerLoop]; (eapply reads_bind; [apply reads_peek|]).
  - cbn [app]. rewrite Hs. cbn [negb]. apply reads_ret.
  - cbn [app first hd]. rewrite Hc. cbn [negb]. cbn in Hv. change (digitsValue u (c :: ds)) with (digitsValue (u * 10 + (bz c - 48)) ds) in *.
    assert (0 <= bz c - 48) by (unfold is_digit in Hc; to_prop; lia).
    pose proof (digitsValue_mono ds (u * 10 + (bz c - 48)) Hds ltac:(lia)) as Hm. unfold digitsValue in Hm.
    destruct (Z.ltb_spec 922337203685477580 u); [lia|]. eapply reads_bind; [apply reads_advance_1|].
    rewrite Z.mod_small by lia. cbn in Hf. apply IH; [lia|done|lia].
Qed.

(** The bytes after which a number does not end. *)
Definition numberGoesOn (c : byte) : bool := bool_decide (c = x2e) || bool_decide (c = x65) || bool_decide (c = x45) || is_digit c.

(** Digits before a cursor are read by the branch that [integer] chooses by the first. *)
Lemma reads_magnitude ds s d : Forall (λ c, is_digit c = true) ds → ds ≠ [] → first ds ≠ x30 →
  is_digit (first s) = false → digitsValue 0 ds <= 2 ^ 63 →
  is_digit (first (ds ++ s)) = true /\
  reads (if decide (first (ds ++ s) = x30) then advance 1 ;; pret 0 else λ r, integerLoop (S (left_ r)) 0 r)
    (ds ++ s) d (digitsValue 0 ds) s d.
Proof.
  intros Hds Hne Hf Hs Hv. assert (first (ds ++ s) = first ds) as -> by (by destruct ds).
  split; [destruct ds; [done|by apply Forall_cons in Hds as [? _]]|].
  rewrite decide_False by done. intros r Hr. apply (reads_integerLoop ds s d); try done.
  unfold left_. rewrite <- (sees_length _ _ _ Hr), length_app. lia.
Qed.

(** What [integer] does with the magnitude. *)
Definition integerEnd (lo hi : Z) (neg : bool) (u : Z) : parser Z :=
  c <- peek ;
  if numberGoesOn c then refuse "number_spelling"
  else if neg && (u =? 0) then refuse "number_spelling"
  else
    match (if neg && (u =? 2 ^ 63) then Some (- 2 ^ 63)
           else if 2 ^ 63 - 1 <? u then None
           else if neg then Some (- u) else Some u) with
    | None => refuse "number_spelling"
    | Some n => if (n <? lo) || (hi <? n) then refuse "number_spelling" else pret n
    end.

Lemma reads_integerEnd lo hi (neg : bool) u n s d : numberGoesOn (first s) = false → lo <= n <= hi → 0 <= u <= 2 ^ 63 →
  (if neg then 0 < u /\ n = - u else u < 2 ^ 63 /\ n = u) → reads (integerEnd lo hi neg u) s d n s d.
Proof.
  intros Hs Hn Hu Hneg. unfold integerEnd. eapply reads_bind; [apply reads_peek|]. rewrite Hs.
  assert (neg && (u =? 0) = false) as -> by (destruct neg; cbn; [apply Z.eqb_neq; lia|done]).
  assert ((if neg && (u =? 2 ^ 63) then Some (- 2 ^ 63) else if 2 ^ 63 - 1 <? u then None else if neg then Some (- u) else Some u) = Some n) as ->.
  { destruct neg; cbn [andb]; [destruct (Z.eqb_spec u (2 ^ 63))|]; [f_equal; lia|destruct (Z.ltb_spec (2 ^ 63 - 1) u); [lia|f_equal; lia]..]. }
  destruct (Z.ltb_spec n lo); [lia|]. destruct (Z.ltb_spec hi n); [lia|]. apply reads_ret.
Qed.

Lemma reads_integer lo hi n s d : - 2 ^ 63 <= n < 2 ^ 63 → lo <= n <= hi → numberGoesOn (first s) = false →
  reads (integer lo hi) (num [] n ++ s) d n s d.
Proof.
  intros Hw Hn Hs. assert (is_digit (first s) = false) as Hsd by (unfold numberGoesOn in Hs; by apply orb_false_iff in Hs as [_ ?]).
  unfold integer, num. destruct (Z.eqb_spec n 0) as [->|Hne].
  { cbn [app]. eapply reads_bind; [apply reads_peek|]. cbn [first hd negb andb]. eapply reads_bind; [apply reads_ret|].
    eapply reads_bind; [apply reads_peek|]. cbn [first hd]. change (is_digit x30) with true. cbn [negb].
    rewrite decide_True by done. eapply reads_bind; [eapply reads_bind; [apply reads_advance_1|apply reads_ret]|].
    apply (reads_integerEnd lo hi false 0); [done|done|lia|lia]. }
  set (u := if n <? 0 then (- (n mod 2 ^ 64)) mod 2 ^ 64 else n mod 2 ^ 64). assert (u = Z.abs n) as Hu.
  { unfold u. destruct (Z.ltb_spec n 0); [|rewrite Z.mod_small; lia].
    rewrite <- (Z.mod_unique (- (n mod 2 ^ 64)) (2 ^ 64) (-1) (- n)); [lia|lia|].
    rewrite <- (Z.mod_unique n (2 ^ 64) (-1) (2 ^ 64 + n)); lia. }
  destruct (digits_spec 24 u []) as (ds & -> & Hds & Hv & _ & Hnz); [rewrite Hu; change (10 ^ Z.of_nat 24) with 1000000000000000000000000; lia|].
  destruct Hnz as [Hdn Hd0]; [lia|]. rewrite app_nil_r.
  destruct (reads_magnitude ds s d Hds Hdn Hd0 Hsd) as [Hdig Hmag]; [lia|]. rewrite Hv in Hmag.
  destruct (Z.ltb_spec n 0).
  - cbn [app]. eapply reads_bind; [apply reads_peek|]. cbn [first hd]. rewrite bool_decide_eq_true_2 by done. cbn [negb andb].
    eapply reads_bind; [apply reads_advance_1|]. eapply reads_bind; [apply reads_peek|]. rewrite Hdig. cbn [negb].
    eapply reads_bind; [exact Hmag|]. apply (reads_integerEnd lo hi true u); [done|done|lia|lia].
  - cbn [app]. eapply reads_bind; [apply reads_peek|]. rewrite Hdig, andb_false_r.
    rewrite (bool_decide_eq_false_2 (first (ds ++ s) = x2d)) by (intros Hx; by rewrite Hx in Hdig).
    eapply reads_bind; [apply reads_ret|]. eapply reads_bind; [apply reads_peek|]. rewrite Hdig. cbn [negb].
    eapply reads_bind; [exact Hmag|]. apply (reads_integerEnd lo hi false u); [done|done|lia|lia].
Qed.

(** Every [int64] written by [num] is read back by [integer] whole, at any nesting and before anything a number does not
    go on with, whenever it lies within the bounds asked for: the smallest of them included, whose magnitude [int64] does
    not hold, and although the reader sums in [uint64], which its guard keeps from wrapping. *)
Theorem integer_round_trip lo hi n input : - 2 ^ 63 <= n < 2 ^ 63 → lo <= n <= hi → numberGoesOn (first input) = false →
  ∃ r, integer lo hi (mkReader (num [] n ++ input) 0 0) = inl (n, r) /\ rest r = input.
Proof.
  intros Hw Hn Hi. destruct (reads_integer lo hi n input 0 Hw Hn Hi (mkReader (num [] n ++ input) 0 0)) as (r & -> & _ & Hr).
  - constructor; [done|unfold good; cbn; lia|done].
  - exists r. split; [done|]. by destruct Hr.
Qed.

Lemma integer_round_trip_witness :
  ∃ r, integer (- 2 ^ 63) (2 ^ 63 - 1) (mkReader (num [] (- 2 ^ 63) ++ [comma]) 0 0) = inl (- 2 ^ 63, r) /\ rest r = [comma].
Proof. apply (integer_round_trip (- 2 ^ 63) (2 ^ 63 - 1) (- 2 ^ 63) [comma]); [lia|lia|by vm_compute]. Defined.

(** ** Maps *)

(** The order of keys: less, and no greater. *)
Definition keyLt (a b : gostr) : Prop := byteLess a b = true.

Definition keyLe (a b : gostr) : Prop := byteLess b a = false.

Lemma byteLess_irrefl a : byteLess a a = false.
Proof. induction a as [|x a IH]; cbn; [done|]. by rewrite decide_True. Qed.

#[local] Instance keyLe_trans : Transitive keyLe.
Proof.
  unfold keyLe. intros a b c. revert a b. induction c as [|z c IH]; intros [|x a] [|y b]; cbn; try done.
  assert (∀ p q : byte, p ≠ q → bz p ≠ bz q) as Hinj by (by intros p q Hpq ?%bz_inj).
  intros H1 H2. destruct (decide (y = x)), (decide (z = y)), (decide (z = x)); subst; try done; to_prop;
    repeat match goal with H : _ ≠ _ |- _ => apply Hinj in H end; try (by eapply IH); try (apply Z.ltb_ge; lia); lia.
Qed.

#[local] Instance keyLe_antisym : AntiSymm (=) keyLe.
Proof.
  unfold keyLe. intros a. induction a as [|x a IH]; intros [|y b]; cbn; try done. destruct (decide (y = x)) as [->|Hne].
  - rewrite decide_True by done. intros H1 H2. f_equal. by apply IH.
  - rewrite decide_False by done. intros H1 H2. to_prop. exfalso. apply Hne, bz_inj. lia.
Qed.

Lemma byteLess_le a b : byteLess a b = true → keyLe a b.
Proof.
  unfold keyLe. revert b. induction a as [|x a IH]; intros [|y b]; cbn; try done. destruct (decide (x = y)) as [->|Hne].
  - rewrite decide_True by done. apply IH.
  - rewrite decide_False by done. intros H. to_prop. apply Z.ltb_ge. lia.
Qed.

(** A turn of the insertion keeps the reversed prefix sorted. *)
Lemma sinkKey_perm k l : sinkKey k l ≡ₚ k :: l.
Proof. induction l as [|x l IH]; cbn; [done|]. destruct (byteLess k x); [|done]. rewrite IH. apply Permutation_swap. Qed.

Lemma sinkKey_sorted k l : StronglySorted (flip keyLe) l → StronglySorted (flip keyLe) (sinkKey k l).
Proof.
  induction 1 as [|x l Hl IH Hx]; cbn; [by repeat constructor|]. destruct (byteLess k x) eqn:Hk.
  - constructor; [done|]. rewrite sinkKey_perm. constructor; [by apply byteLess_le|done].
  - constructor; [by constructor|]. constructor; [done|]. eapply Forall_impl; [exact Hx|]. intros y Hy. cbn in *. by etransitivity.
Qed.

Lemma sinkKeys keys : ∀ l, StronglySorted (flip keyLe) l →
  fold_left (λ sorted k, sinkKey k sorted) keys l ≡ₚ keys ++ l /\ StronglySorted (flip keyLe) (fold_left (λ sorted k, sinkKey k sorted) keys l).
Proof.
  induction keys as [|k keys IH]; intros l Hl; [done|]. cbn [fold_left]. destruct (IH _ (sinkKey_sorted k l Hl)) as [Hp Hs].
  split; [|done]. rewrite Hp, sinkKey_perm. cbn. by rewrite Permutation_middle.
Qed.

Lemma sorted_rev {A} (R : relation A) l : StronglySorted (flip R) l → StronglySorted R (rev l).
Proof.
  induction 1 as [|x l Hl IH Hx]; cbn; [constructor|]. apply StronglySorted_app_2; [|done|by repeat constructor].
  intros a b Ha ->%list_elem_of_singleton. rewrite <- Permutation_rev in Ha. by eapply Forall_forall in Hx.
Qed.

Lemma sortedKeys_perm keys : sortedKeys keys ≡ₚ keys.
Proof. unfold sortedKeys. rewrite <- Permutation_rev. destruct (sinkKeys keys [] ltac:(constructor)) as [Hp _]. by rewrite app_nil_r in Hp. Qed.

Lemma sortedKeys_sorted keys : StronglySorted keyLe (sortedKeys keys).
Proof. apply sorted_rev. by destruct (sinkKeys keys [] ltac:(constructor)). Qed.

Lemma keyLe_strict a b : keyLe a b → a ≠ b → keyLt a b.
Proof. intros Hab Hne. unfold keyLt. destruct (byteLess a b) eqn:E; [done|]. by destruct Hne; apply (anti_symm keyLe). Qed.

Lemma sorted_strict l : StronglySorted keyLe l → NoDup l → StronglySorted keyLt l.
Proof.
  induction 1 as [|x l Hl IH Hx]; intros Hn; [constructor|]. apply NoDup_cons in Hn as [Hf Hn]. constructor; [by apply IH|].
  apply Forall_forall. intros y Hy. apply keyLe_strict; [by eapply Forall_forall in Hx|]. by intros ->.
Qed.

(** A map of opaque values is written the same whatever order Go iterates it in: [rawmap] orders the keys, each of them
    once and strictly ascending by their bytes, so any two iterations give the same bytes. *)
Theorem rawmap_canonical out m depth order order' : NoDup order → order' ≡ₚ order →
  rawmap out m order' depth = rawmap out m order depth /\
  sortedKeys order ≡ₚ order /\ StronglySorted keyLt (sortedKeys order).
Proof.
  intros Hn Hp. split_and!.
  - unfold rawmap. rewrite (StronglySorted_unique keyLe (sortedKeys order') (sortedKeys order)); [done|apply sortedKeys_sorted..|].
    by rewrite !sortedKeys_perm.
  - apply sortedKeys_perm.
  - apply sorted_strict; [apply sortedKeys_sorted|]. by rewrite sortedKeys_perm.
Qed.

Lemma rawmap_canonical_witness :
  let m : gmap gostr gostr := {[ lit "b" := lit "1"; lit "a" := lit "2" ]} in
  rawmap [] m [lit "a"; lit "b"] 0 = rawmap [] m [lit "b"; lit "a"] 0 /\
  sortedKeys [lit "b"; lit "a"] ≡ₚ [lit "b"; lit "a"] /\
  StronglySorted keyLt (sortedKeys [lit "b"; lit "a"]).
Proof.
  intros m. apply (rawmap_canonical [] m 0 [lit "b"; lit "a"] [lit "a"; lit "b"]).
  - apply (bool_decide_unpack _). vm_compute. done.
  - apply Permutation_swap.
Defined.
