(* ===== verification/ProofLadder.v ===== *)
(** proof.go: the proof ladder, the error that names a shortfall, and an
    attribute welded to its proof. *)

From S2P Require Import Prelude GoStrings GoError.

(** ** The ladder *)

(** A [Proof] is a [uint8]; nine of its values are named. *)
Abbreviation ProofLevel := Z (only parsing).

Definition ProofNone : ProofLevel := 0.
Definition ProofClaimed : ProofLevel := 1.
Definition ProofInvalid : ProofLevel := 2.
Definition ProofUnsigned : ProofLevel := 3.
Definition ProofUnmet : ProofLevel := 4.
Definition ProofPID : ProofLevel := 5.
Definition ProofBound : ProofLevel := 6.
Definition ProofKernel : ProofLevel := 7.
Definition ProofSigned : ProofLevel := 8.

Definition proofNames : list string :=
  ["none"; "claimed"; "invalid"; "unsigned"; "unmet"; "pid"; "bound"; "kernel"; "signed"].

(** [Proof.String]: the name, or [Proof(n)] for a value outside the ladder. *)
Definition ProofString (p : ProofLevel) : string :=
  if p <? Z.of_nat (length proofNames)
  then default "" (proofNames !! Z.to_nat p)
  else "Proof(" +:+ itoa p +:+ ")".

(** [ProofError.Error]. *)
Definition ProofErrorText (attribute : string) (want got : ProofLevel) (why : string) : string :=
  let s := "identity: " +:+ attribute +:+ " is proven only at " +:+ quoted (ProofString got)
           +:+ ", " +:+ quoted (ProofString want) +:+ " required" in
  if String.eqb why "" then s else s +:+ " (" +:+ why +:+ ")".

(** ** Attributes *)

Record Attr (T : Type) := mkAttr {
  attr_name : string;
  attr_value : T;
  attr_proof : ProofLevel;
  attr_why : string
}.
Arguments mkAttr {T} _ _ _ _.
Arguments attr_name {T} _.
Arguments attr_value {T} _.
Arguments attr_proof {T} _.
Arguments attr_why {T} _.

(** The zero value of a type, which Go leaves in every unset variable. *)
Class Zero (T : Type) := zero : T.
#[global] Instance zero_string : Zero string := "".

Definition attr {T} (name : string) (value : T) (proof : ProofLevel) (why : string) : Attr T :=
  mkAttr name value proof why.

Definition unknown {T} `{Zero T} (name why : string) : Attr T := mkAttr name zero ProofNone why.

(** [Attr.Known]. *)
Definition Known {T} (a : Attr T) : bool := ProofNone <? attr_proof a.

(** [Attr.Get]. *)
Definition Get {T} (a : Attr T) : T * ProofLevel := (attr_value a, attr_proof a).

(** [Attr.AtLeast]: the value, or the [*ProofError] naming what was available. *)
Definition AtLeast {T} (a : Attr T) (min : ProofLevel) : result T :=
  if (min <=? attr_proof a) && (ProofNone <? attr_proof a)
  then Ok (attr_value a)
  else Err (ProofErr (attr_name a) min (attr_proof a) (attr_why a)).

(** [Attr.String], given the rendering of the value. *)
Definition AttrString {T} (show : T → string) (a : Attr T) : string :=
  if negb (Known a) then
    if negb (String.eqb (attr_why a) "")
    then attr_name a +:+ "=unknown(" +:+ attr_why a +:+ ")"
    else attr_name a +:+ "=unknown"
  else attr_name a +:+ "=" +:+ show (attr_value a) +:+ "[" +:+ ProofString (attr_proof a) +:+ "]".

(** ** Lemmas the clients of an attribute use *)

(** [AtLeast] hands the value out exactly when a value is known and its proof
    reaches the minimum. *)
Lemma AtLeast_ok {T} (a : Attr T) min v :
  AtLeast a min = Ok v <-> min <= attr_proof a /\ ProofNone < attr_proof a /\ v = attr_value a.
Proof.
  unfold AtLeast. destruct (min <=? attr_proof a) eqn:E1, (ProofNone <? attr_proof a) eqn:E2;
    to_prop; simpl; split; intros; destruct_and?; try (exfalso; lia); try congruence; naive_solver.
Qed.

Lemma AtLeast_meets {T} (a : Attr T) min :
  min <= attr_proof a → ProofNone < attr_proof a → AtLeast a min = Ok (attr_value a).
Proof. intros. by apply AtLeast_ok. Qed.

Lemma AtLeast_err {T} (a : Attr T) min e :
  AtLeast a min = Err e →
  (attr_proof a < min \/ attr_proof a <= ProofNone) /\
  e = ProofErr (attr_name a) min (attr_proof a) (attr_why a).
Proof.
  unfold AtLeast. destruct (min <=? attr_proof a) eqn:E1, (ProofNone <? attr_proof a) eqn:E2;
    to_prop; simpl; intros [=]; split; auto with lia; lia.
Qed.

(** For a minimum above none, the one comparison decides. *)
Lemma AtLeast_positive {T} (a : Attr T) min :
  ProofNone < min → is_ok (AtLeast a min) = (min <=? attr_proof a).
Proof.
  intros Hm. unfold AtLeast. destruct (min <=? attr_proof a) eqn:E1; [|done].
  destruct (ProofNone <? attr_proof a) eqn:E2; to_prop; [done|lia].
Qed.

Create HintDb ladder.
#[export] Hint Unfold ProofNone ProofClaimed ProofInvalid ProofUnsigned ProofUnmet ProofPID
  ProofBound ProofKernel ProofSigned : ladder.

(** Arithmetic over the named rungs. *)
Ltac ladder := autounfold with ladder in *; simpl in *; lia.
