(* ===== verification/Peer.v ===== *)
(** peer.go and transport.go: the peer, the policy it is checked against, and
    the ceilings a policy is compared with before any connection exists. *)

From S2P Require Import Prelude GoStrings GoError ProofLadder.


(** ** Data *)

(** A security principal. *)
Record User := mkUser {
  Kind : string;
  SID : string;
  UName : string;
  Domain : string;
  Elevated : bool;
  Integrity : string;
  IntegrityRID : Z;
  Restricted : bool;
  UID : Z;
  GID : Z;
  SecurityContext : string;
  AuditSessionID : Z
}.

#[global] Instance zero_User : Zero User :=
  mkUser "" "" "" "" false "" 0 false 0 0 "" 0.

(** [User{Kind: "posix", UID: uid, GID: gid}]. *)
Definition posixUser (uid gid : Z) : User :=
  mkUser "posix" "" "" "" false "" 0 false uid gid "" 0.

Definition set_SecurityContext (u : User) (c : string) : User :=
  mkUser (Kind u) (SID u) (UName u) (Domain u) (Elevated u) (Integrity u) (IntegrityRID u)
    (Restricted u) (UID u) (GID u) c (AuditSessionID u).

(** The process on the other end. *)
Record Process := mkProcess {
  PID : Z;
  StartTime : Time;
  Recycled : bool;
  Generation : Z
}.

#[global] Instance zero_Process : Zero Process := mkProcess 0 zeroTime false 0.

(** A code signing identity. *)
Record Code := mkCode {
  Subject : string;
  Issuer : string;
  Trusted : bool;
  Status : string;
  Catalog : bool;
  Description : string;
  OriginalName : string;
  TeamID : string
}.

#[global] Instance zero_Code : Zero Code := mkCode "" "" false "" false "" "" "".

Record Peer := mkPeer {
  Platform : string;
  Transport : string;
  ObservedAt : Time;
  PUser : Attr User;
  PProcess : Attr Process;
  PPath : Attr string;
  PPackage : Attr string;
  PCode : Attr Code;
  Notes : list string;
  evidenceValidUntil : Time
}.

Definition set_User (p : Peer) (a : Attr User) : Peer :=
  mkPeer (Platform p) (Transport p) (ObservedAt p) a (PProcess p) (PPath p) (PPackage p) (PCode p)
    (Notes p) (evidenceValidUntil p).
Definition set_Process (p : Peer) (a : Attr Process) : Peer :=
  mkPeer (Platform p) (Transport p) (ObservedAt p) (PUser p) a (PPath p) (PPackage p) (PCode p)
    (Notes p) (evidenceValidUntil p).
Definition set_Path (p : Peer) (a : Attr string) : Peer :=
  mkPeer (Platform p) (Transport p) (ObservedAt p) (PUser p) (PProcess p) a (PPackage p) (PCode p)
    (Notes p) (evidenceValidUntil p).
Definition set_Package (p : Peer) (a : Attr string) : Peer :=
  mkPeer (Platform p) (Transport p) (ObservedAt p) (PUser p) (PProcess p) (PPath p) a (PCode p)
    (Notes p) (evidenceValidUntil p).
Definition set_Code (p : Peer) (a : Attr Code) : Peer :=
  mkPeer (Platform p) (Transport p) (ObservedAt p) (PUser p) (PProcess p) (PPath p) (PPackage p) a
    (Notes p) (evidenceValidUntil p).
Definition set_evidence (p : Peer) (t : Time) : Peer :=
  mkPeer (Platform p) (Transport p) (ObservedAt p) (PUser p) (PProcess p) (PPath p) (PPackage p)
    (PCode p) (Notes p) t.

(** [Peer.note]. *)
Definition note (p : Peer) (msg : string) : Peer :=
  mkPeer (Platform p) (Transport p) (ObservedAt p) (PUser p) (PProcess p) (PPath p) (PPackage p)
    (PCode p) (Notes p ++ [msg]) (evidenceValidUntil p).

(** ** Rendering *)

Definition UserString (u : User) : string :=
  if String.eqb (Kind u) "windows" then
    let s := if negb (String.eqb (UName u) "")
             then (if negb (String.eqb (Domain u) "") then Domain u +:+ "\" +:+ UName u else UName u)
                  +:+ " (" +:+ SID u +:+ ")"
             else SID u in
    let s := if negb (String.eqb (Integrity u) "") then s +:+ " " +:+ Integrity u +:+ "-integrity" else s in
    let s := if Elevated u then s +:+ " elevated" else s in
    if Restricted u then s +:+ " restricted" else s
  else if String.eqb (Kind u) "posix" then
    let s := "uid=" +:+ itoa (UID u) +:+ " gid=" +:+ itoa (GID u) in
    let s := if negb (String.eqb (SecurityContext u) "") then s +:+ " lsm=" +:+ SecurityContext u else s in
    if negb (AuditSessionID u =? 0) then s +:+ " asid=" +:+ itoa (AuditSessionID u) else s
  else "unknown user".

(** [rfc3339] is the rendering of an instant in the machine's time zone. *)
Definition ProcessString (rfc3339 : Time → string) (p : Process) : string :=
  let s := "pid " +:+ itoa (PID p) in
  let s := if negb (Generation p =? 0) then s +:+ "." +:+ itoa (Generation p) else s in
  let s := if negb (IsZero (StartTime p)) then s +:+ " started " +:+ rfc3339 (StartTime p) else s in
  if Recycled p then s +:+ " RECYCLED" else s.

Definition CodeString (c : Code) : string :=
  if String.eqb (Subject c) "" then Status c
  else
    let s := Subject c in
    let s := if negb (String.eqb (TeamID c) "") then s +:+ " [team " +:+ TeamID c +:+ "]" else s in
    let s := if negb (String.eqb (Issuer c) "") then s +:+ " (issued by " +:+ Issuer c +:+ ")" else s in
    let s := if negb (Trusted c) then s +:+ " UNTRUSTED: " +:+ Status c else s in
    if Catalog c then s +:+ " via-catalog" else s.

Definition PeerString (rfc3339 : Time → string) (p : Peer) : string :=
  Platform p +:+ "/" +:+ Transport p +:+ " " +:+ AttrString UserString (PUser p) +:+ " "
  +:+ AttrString (ProcessString rfc3339) (PProcess p) +:+ " " +:+ AttrString id (PPath p) +:+ " "
  +:+ AttrString id (PPackage p) +:+ " " +:+ AttrString CodeString (PCode p).

(** [Peer.Rung] of loopback.go. *)
Definition Rung (p : Peer) : string :=
  Transport p +:+ "/" +:+ Platform p +:+ " user=" +:+ ProofString (attr_proof (PUser p))
  +:+ " process=" +:+ ProofString (attr_proof (PProcess p))
  +:+ " path=" +:+ ProofString (attr_proof (PPath p)).

(** ** Verdicts about code *)

(** [Peer.recordCode]: verified code at the rung its binding is worth, a verdict
    below [ProofPID] with the platform's wording as its reason and a note. *)
Definition recordCode (p : Peer) (code : Code) (verdict : ProofLevel) (verifiedWhy : string) : Peer :=
  if ProofPID <=? verdict then set_Code p (attr "code" code verdict verifiedWhy)
  else note (set_Code p (attr "code" code verdict (Status code)))
         ("code: " +:+ Status code +:+ "; reported at " +:+ quoted (ProofString verdict)
          +:+ ", below every rung that implies verification").

(** ** Policies *)

Record Need := mkNeed {
  NUser : ProofLevel;
  NProcess : ProofLevel;
  NPath : ProofLevel;
  NPackage : ProofLevel;
  NCode : ProofLevel
}.

(** One guarded [AtLeast] of [Peer.Check]. *)
Definition requirement {T} (a : Attr T) (min : ProofLevel) : list err :=
  if ProofNone <? min
  then match AtLeast a min with Ok _ => [] | Err e => [e] end
  else [].

(** [Peer.Check]: every attribute is judged before the errors are joined. *)
Definition CheckPeer (p : Peer) (n : Need) : option err :=
  errors_join
    (requirement (PUser p) (NUser n) ++ requirement (PProcess p) (NProcess n)
     ++ requirement (PPath p) (NPath n) ++ requirement (PPackage p) (NPackage n)
     ++ requirement (PCode p) (NCode n)).

(** ** Ceilings *)

Record Limits := mkLimits {
  LPlatform : string;
  Best : Need;
  Why : gmap string string;
  LTransport : string;
  Bindable : bool;
  LBinding : string;
  Stronger : string
}.

Definition LimitsString (l : Limits) : string :=
  let bind := if Bindable l then "bound-by=" +:+ LBinding l else "binding=" +:+ LBinding l in
  LPlatform l +:+ "/" +:+ LTransport l +:+ ": user=" +:+ ProofString (NUser (Best l))
  +:+ " process=" +:+ ProofString (NProcess (Best l)) +:+ " path=" +:+ ProofString (NPath (Best l))
  +:+ " package=" +:+ ProofString (NPackage (Best l)) +:+ " code=" +:+ ProofString (NCode (Best l))
  +:+ " " +:+ bind.

(** [Limits.CanEver]. *)
Definition LimitsCanEver (l : Limits) (n : Need) : option err :=
  let cmp (name : string) (want have : ProofLevel) : list err :=
    if have <? want then [ProofErr name want have (default "" (Why l !! name))] else [] in
  errors_join
    (cmp "user" (NUser n) (NUser (Best l)) ++ cmp "process" (NProcess n) (NProcess (Best l))
     ++ cmp "path" (NPath n) (NPath (Best l)) ++ cmp "package" (NPackage n) (NPackage (Best l))
     ++ cmp "code" (NCode n) (NCode (Best l))).

(** ** Options *)

Record Options := mkOptions {
  ConnectedAt : Time;
  CheckRevocation : bool;
  SkipCodeSignature : bool;
  CodeRequirement : string
}.

(** [Options.connectedAt] reads the clock when the field is unset: [now] is that
    reading. The pointer may be nil. *)
Definition connectedAt (o : option Options) (now : Time) : Time :=
  match o with
  | Some o => if negb (IsZero (ConnectedAt o)) then ConnectedAt o else now
  | None => now
  end.

Definition checkRevocation (o : option Options) : bool :=
  match o with Some o => CheckRevocation o | None => false end.
Definition skipCodeSignature (o : option Options) : bool :=
  match o with Some o => SkipCodeSignature o | None => false end.
Definition codeRequirement (o : option Options) : string :=
  match o with Some o => CodeRequirement o | None => "" end.

(** ** Transports (transport.go) *)

Definition TransportNative : string := "".
Definition TransportUnix : string := "unix".
Definition TransportNamedPipe : string := "npipe".
Definition TransportXPC : string := "xpc".

Definition xpcLimits : Limits :=
  mkLimits "darwin"
    (mkNeed ProofKernel ProofKernel ProofBound ProofNone ProofNone)
    (list_to_map
       [("user", "credentials of the exact message's remote connection");
        ("process", "process of the exact message's remote connection, checked against message-bound code");
        ("path", "validated message code's main executable agrees with the sender process path");
        ("package", "no trusted publisher policy is configured");
        ("code", "code validity alone does not establish trusted publisher identity")])
    TransportXPC true "validated XPC message and its remote connection" "".

(** [CeilingFor]; [xpc] is the build's [xpcCeiling()] and [limits] its
    [Ceiling()]. *)
Definition CeilingFor (xpc : result Limits) (limits : Limits) (transport : string) : result Limits :=
  if String.eqb transport TransportXPC then xpc
  else if String.eqb transport TransportNative || String.eqb transport (LTransport limits)
  then Ok limits
  else Err (Wrap "identity transport is unavailable" [Sentinel ErrUnsupportedConn]).

(** ** The five attributes, uniformly *)

Inductive attribute := AUser | AProcess | APath | APackage | ACode.

Definition need_of (n : Need) (k : attribute) : ProofLevel :=
  match k with
  | AUser => NUser n | AProcess => NProcess n | APath => NPath n
  | APackage => NPackage n | ACode => NCode n
  end.

Definition proof_of (p : Peer) (k : attribute) : ProofLevel :=
  match k with
  | AUser => attr_proof (PUser p) | AProcess => attr_proof (PProcess p)
  | APath => attr_proof (PPath p) | APackage => attr_proof (PPackage p)
  | ACode => attr_proof (PCode p)
  end.

(** The error [AtLeast] gives for attribute [k] of [p] under policy [n]. *)
Definition shortfall (p : Peer) (n : Need) (k : attribute) : err :=
  match k with
  | AUser => ProofErr (attr_name (PUser p)) (NUser n) (attr_proof (PUser p)) (attr_why (PUser p))
  | AProcess => ProofErr (attr_name (PProcess p)) (NProcess n) (attr_proof (PProcess p)) (attr_why (PProcess p))
  | APath => ProofErr (attr_name (PPath p)) (NPath n) (attr_proof (PPath p)) (attr_why (PPath p))
  | APackage => ProofErr (attr_name (PPackage p)) (NPackage n) (attr_proof (PPackage p)) (attr_why (PPackage p))
  | ACode => ProofErr (attr_name (PCode p)) (NCode n) (attr_proof (PCode p)) (attr_why (PCode p))
  end.

(** Attribute [k] falls short of what the policy asks of it. *)
Definition falls_short (p : Peer) (n : Need) (k : attribute) : Prop :=
  ProofNone < need_of n k /\ proof_of p k < need_of n k.

#[global] Instance falls_short_dec p n k : Decision (falls_short p n k).
Proof. unfold falls_short. apply _. Defined.

(** Every attribute of [p] stays at or below the levels of [n]. *)
Definition within (p : Peer) (n : Need) : Prop := ∀ k, proof_of p k <= need_of n k.

(** A peer proven exactly at the levels of [n]. *)
Definition peer_at (n : Need) : Peer :=
  mkPeer "" "" zeroTime (attr "user" zero (NUser n) "") (attr "process" zero (NProcess n) "")
    (attr "path" zero (NPath n) "") (attr "package" zero (NPackage n) "")
    (attr "code" zero (NCode n) "") [] zeroTime.

Lemma errors_join_none es : errors_join es = None <-> es = [].
Proof. destruct es; split; intros H; done. Qed.

Lemma requirement_in {T} (a : Attr T) min e :
  e ∈ requirement a min <->
  ProofNone < min /\ attr_proof a < min /\ e = ProofErr (attr_name a) min (attr_proof a) (attr_why a).
Proof.
  unfold requirement. destruct (ProofNone <? min) eqn:E; to_prop.
  - destruct (AtLeast a min) as [v|e'] eqn:Ea.
    + apply AtLeast_ok in Ea. rewrite elem_of_nil. split; [done|lia].
    + apply AtLeast_err in Ea as [Hl ->]. rewrite list_elem_of_singleton.
      split; [intros ->; split_and!; auto; lia | naive_solver].
  - rewrite elem_of_nil. split; [done|lia].
Qed.

Lemma requirement_exact {T} (a : Attr T) min P `{Decision P} :
  (P <-> ProofNone < min /\ attr_proof a < min) →
  requirement a min = if decide P then [ProofErr (attr_name a) min (attr_proof a) (attr_why a)] else [].
Proof.
  intros HP. unfold requirement. destruct (ProofNone <? min) eqn:E; to_prop.
  - destruct (AtLeast a min) as [v|e'] eqn:Ea.
    + apply AtLeast_ok in Ea. rewrite decide_False; [done|rewrite HP; lia].
    + apply AtLeast_err in Ea as [Hl ->]. rewrite decide_True; [done|rewrite HP; lia].
  - rewrite decide_False; [done|rewrite HP; lia].
Qed.

(** The errors of [Peer.Check], one per attribute that falls short. *)
Lemma check_errors p n :
  requirement (PUser p) (NUser n) ++ requirement (PProcess p) (NProcess n)
    ++ requirement (PPath p) (NPath n) ++ requirement (PPackage p) (NPackage n)
    ++ requirement (PCode p) (NCode n)
  = shortfall p n <$> filter (falls_short p n) [AUser; AProcess; APath; APackage; ACode].
Proof.
  rewrite (requirement_exact (PUser p) _ (falls_short p n AUser)), (requirement_exact (PProcess p) _ (falls_short p n AProcess)),
    (requirement_exact (PPath p) _ (falls_short p n APath)), (requirement_exact (PPackage p) _ (falls_short p n APackage)),
    (requirement_exact (PCode p) _ (falls_short p n ACode)) by done.
  rewrite !filter_cons, filter_nil. by repeat case_decide.
Qed.

Lemma check_errors_in p n e :
  e ∈ requirement (PUser p) (NUser n) ++ requirement (PProcess p) (NProcess n)
      ++ requirement (PPath p) (NPath n) ++ requirement (PPackage p) (NPackage n)
      ++ requirement (PCode p) (NCode n) <->
  ∃ k, falls_short p n k /\ e = shortfall p n k.
Proof.
  rewrite !elem_of_app, !requirement_in. unfold falls_short. split.
  - intros [H|[H|[H|[H|H]]]]; destruct_and!;
      [exists AUser | exists AProcess | exists APath | exists APackage | exists ACode]; done.
  - intros [[] ?]; destruct_and!; simpl in *; tauto.
Qed.

Lemma CheckPeer_none p n :
  CheckPeer p n = None <-> ∀ k, ProofNone < need_of n k → need_of n k <= proof_of p k.
Proof.
  unfold CheckPeer. rewrite errors_join_none. split.
  - intros Hnil k Hk. destruct (Z.le_gt_cases (need_of n k) (proof_of p k)) as [|Hlt]; [done|].
    assert (shortfall p n k ∈ @nil err) as Hin; [|by apply elem_of_nil in Hin].
    rewrite <- Hnil. apply check_errors_in. exists k. by split.
  - intros Hall. apply elem_of_nil_inv. intros e [k [[H1 H2] _]]%check_errors_in.
    specialize (Hall k H1). lia.
Qed.

Lemma LimitsCanEver_none l n :
  LimitsCanEver l n = None <-> ∀ k, need_of n k <= need_of (Best l) k.
Proof.
  unfold LimitsCanEver. rewrite errors_join_none. split.
  - intros H. repeat apply app_eq_nil in H as [? H].
    intros k. repeat case_match; try done. to_prop. destruct k; simpl; done.
  - intros H. pose proof (H AUser). pose proof (H AProcess). pose proof (H APath).
    pose proof (H APackage). pose proof (H ACode). simpl in *.
    by rewrite !(proj2 (Z.ltb_ge _ _)).
Qed.

Lemma CanEver_exact_l l n p :
  within p (Best l) → (∀ k, ProofNone <= need_of (Best l) k) →
  CheckPeer p n = None → LimitsCanEver l n = None.
Proof.
  intros Hw Hb Hc. apply LimitsCanEver_none. intros k.
  rewrite CheckPeer_none in Hc. specialize (Hc k). specialize (Hw k). specialize (Hb k).
  destruct (Z.le_gt_cases (need_of n k) ProofNone); lia.
Qed.

Lemma CanEver_exact_r l n :
  LimitsCanEver l n = None → within (peer_at (Best l)) (Best l) /\ CheckPeer (peer_at (Best l)) n = None.
Proof.
  intros Hc. split.
  - intros []; simpl; lia.
  - apply CheckPeer_none. rewrite LimitsCanEver_none in Hc. intros k _. specialize (Hc k). by destruct k.
Qed.

(** ** Properties *)

(** C1: [Peer.Check] judges the five attributes in order and reports nil exactly when
    none falls short of the policy; otherwise it joins exactly one [*ProofError] per
    attribute that falls short, once each and in that order, naming it with the level
    asked for, the level it has and the reason, and nothing else: a service learns
    every impossible requirement at once. *)
Theorem Check_reports_every_shortfall p n :
  let short := filter (falls_short p n) [AUser; AProcess; APath; APackage; ACode] in
  NoDup short /\ (∀ k, k ∈ short <-> falls_short p n k) /\
  CheckPeer p n = (match short with [] => None | _ => Some (Join_ (shortfall p n <$> short)) end) /\
  (CheckPeer p n = None <-> ∀ k, ~ falls_short p n k).
Proof.
  intros short. assert (∀ k, k ∈ short <-> falls_short p n k) as Hin.
  { intros k. unfold short. rewrite list_elem_of_filter. split; [tauto|]. destruct k; intros H; (split; [exact H|set_solver]). }
  assert (CheckPeer p n = match short with [] => None | _ => Some (Join_ (shortfall p n <$> short)) end) as Hc.
  { unfold CheckPeer. rewrite check_errors. fold short. by destruct short. }
  split; [|split; [exact Hin|split; [exact Hc|]]].
  - apply NoDup_filter. repeat constructor; set_solver.
  - rewrite Hc. split.
    + destruct short; [|done]. intros _ k Hk%Hin. set_solver.
    + intros Hn. destruct short as [|k ks]; [done|]. destruct (Hn k). apply Hin. set_solver.
Qed.

(** C5: [CanEver] is exact. For a transport whose ceiling is [Best], it accepts a
    policy exactly when some peer that stays within the ceiling meets the policy:
    a refused policy is met by no such peer, and an accepted one is met by the
    peer proven at the ceiling. *)
Theorem CanEver_exact l n :
  (∀ k, ProofNone <= need_of (Best l) k) →
  LimitsCanEver l n = None <-> ∃ p, within p (Best l) /\ CheckPeer p n = None.
Proof.
  intros Hb. split.
  - intros Hc. exists (peer_at (Best l)). by apply CanEver_exact_r.
  - intros (p & Hw & Hc). by eapply CanEver_exact_l.
Qed.

(** The policy and ceiling of an XPC endpoint meet the hypothesis. *)
Lemma CanEver_exact_witness :
  LimitsCanEver xpcLimits (mkNeed ProofKernel ProofKernel ProofBound ProofNone ProofNone) = None /\
  ∃ p, within p (Best xpcLimits) /\
       CheckPeer p (mkNeed ProofKernel ProofKernel ProofBound ProofNone ProofNone) = None.
Proof.
  split; [reflexivity|].
  apply (CanEver_exact xpcLimits); [intros []; vm_compute; discriminate | reflexivity].
Defined.

(** Every error [Peer.Check] or [CanEver] returns is a failure to meet a proof
    level: [errors.Is] finds [ErrNotProven] in it, and [errors.As] finds a
    [*ProofError] that asks for more than was available. *)
Theorem policy_errors_are_not_proven p l n e :
  CheckPeer p n = Some e \/ LimitsCanEver l n = Some e →
  errors_is e ErrNotProven = true /\
  ∃ a w g y, errors_as_proof e = Some (a, w, g, y) /\ g < w.
Proof.
  assert (∀ es, errors_join es = Some e →
            Forall (λ x, ∃ a w g y, x = ProofErr a w g y /\ g < w) es →
            errors_is e ErrNotProven = true /\
            ∃ a w g y, errors_as_proof e = Some (a, w, g, y) /\ g < w) as Hgen.
  { intros [|x es] He HF; [done|]. injection He as <-.
    apply Forall_cons in HF as [(a & w & g & y & -> & Hlt) _]. split; [done|].
    by exists a, w, g, y. }
  intros [H|H]; (eapply Hgen; [exact H|]); apply Forall_forall; intros x Hx.
  - apply check_errors_in in Hx as (k & [_ Hk] & ->). destruct k; simpl in *; eauto 6.
  - rewrite !elem_of_app in Hx.
    destruct Hx as [Hx|[Hx|[Hx|[Hx|Hx]]]]; case_match; to_prop;
      try (by apply elem_of_nil in Hx); apply list_elem_of_singleton in Hx as ->; eauto 6.
Qed.

(** A policy beyond the XPC ceiling. *)
Lemma policy_errors_are_not_proven_witness :
  ∃ e, LimitsCanEver xpcLimits (mkNeed ProofKernel ProofKernel ProofBound ProofNone ProofSigned) = Some e /\
       errors_is e ErrNotProven = true.
Proof.
  eexists. split; [reflexivity|].
  refine (proj1 (policy_errors_are_not_proven (peer_at (Best xpcLimits)) xpcLimits
    (mkNeed ProofKernel ProofKernel ProofBound ProofNone ProofSigned) _ _)).
  right. reflexivity.
Defined.

(** * listen/message_endpoint.go and listen/message_endpoint_other.go: which
    transport an endpoint's name selects, and the policy checked before anything is
    opened. *)


(** [xpcService]: the service an endpoint names, empty when it names none. *)
Definition xpcService (endpoint : string) : result string :=
  match CutPrefix endpoint "xpc:" with
  | None => Ok ""
  | Some service =>
    if String.eqb service "" || (255 <? slen service)
       || ContainsAny service ("/\" +:+ String "000" (String "013" (String "010" "")))
    then Err (Plain "listen: invalid XPC service name")
    else Ok service
  end.

Section Endpoints.
(** The build's [identity.xpcCeiling] and [identity.Ceiling]. *)
Context (xpc : result Limits) (native : Limits).

(** [Ceiling]. *)
Definition Ceiling (endpoint : string) : result Limits :=
  match xpcService endpoint with
  | Err e => Err e
  | Ok service => CeilingFor xpc native (if negb (String.eqb service "") then TransportXPC else TransportNative)
  end.

(** [CanEver]. *)
Definition CanEver (endpoint : string) (need : Need) : option err :=
  match Ceiling endpoint with
  | Err e => Some e
  | Ok limits => LimitsCanEver limits need
  end.

(** [ListenFramed], over what [Listen] does to the system. *)
Definition ListenFramed {W L} (Listen : string → W → result L * W) (endpoint : string) (need : Need) (w : W)
    : result L * W :=
  match CanEver endpoint need with
  | Some e => (Err e, w)
  | None => Listen endpoint w
  end.

(** [listenMessageEndpoint] of a build without XPC: the answer when the endpoint is
    one of its own. *)
Definition listenMessageEndpoint {L} (endpoint : string) : option (result L) :=
  if HasPrefix endpoint "xpc:" then Some (Err (Plain "listen: XPC requires macOS with cgo")) else None.

(** A name beginning with the XPC prefix never falls back to the ceiling of
    sockets: it has the XPC ceiling or none. *)
Lemma xpc_endpoint_ceiling endpoint l :
  HasPrefix endpoint "xpc:" = true → Ceiling endpoint = Ok l → xpc = Ok l.
Proof.
  unfold HasPrefix, Ceiling, xpcService. destruct (CutPrefix endpoint "xpc:") as [service|]; [|done]. intros _.
  destruct (String.eqb_spec service "") as [->|Hs]; [done|]. cbn [orb].
  destruct (_ || _); [done|]. by rewrite (proj2 (String.eqb_neq _ _) Hs).
Qed.

(** An endpoint is opened exactly when some peer within its ceiling meets the
    policy: otherwise, and on every transport the build does not have, the system
    is left as it was. *)
Theorem listen_framed_opens_exactly {W L} (Listen : string → W → result L * W) endpoint need w :
  (∀ l k, Ceiling endpoint = Ok l → ProofNone <= need_of (Best l) k) →
  (∃ l p, Ceiling endpoint = Ok l /\ within p (Best l) /\ CheckPeer p need = None /\
     ListenFramed Listen endpoint need w = Listen endpoint w) \/
  (∃ e, ListenFramed Listen endpoint need w = (Err e, w) /\
     ∀ l p, Ceiling endpoint = Ok l → within p (Best l) → CheckPeer p need ≠ None).
Proof.
  intros Hb. unfold ListenFramed, CanEver. destruct (Ceiling endpoint) as [l|e]; [|by right; exists e].
  destruct (LimitsCanEver l need) as [e|] eqn:Hc.
  - right. exists e. split; [done|]. intros l' p [= <-] Hw Hp.
    rewrite (CanEver_exact_l l need p) in Hc; [done|done|by intros k; apply Hb|done].
  - left. exists l, (peer_at (Best l)). apply CanEver_exact_r in Hc as []. by split_and!.
Qed.
End Endpoints.

Lemma listen_framed_opens_exactly_witness :
  ∃ e, ListenFramed (Ok xpcLimits) xpcLimits (λ _ (w : nat), (Ok tt, S w)) "xpc:org.example"
         (mkNeed 0 0 0 0 ProofSigned) 0%nat = (Err e, 0%nat).
Proof.
  destruct (listen_framed_opens_exactly (Ok xpcLimits) xpcLimits (λ _ (w : nat), (Ok tt, S w)) "xpc:org.example"
              (mkNeed 0 0 0 0 ProofSigned) 0%nat) as [(l & p & _ & _ & _ & Hx)|(e & He & _)].
  - intros l k Hl. vm_compute in Hl. injection Hl as <-. destruct k; vm_compute; discriminate.
  - vm_compute in Hx. discriminate.
  - exists e. exact He.
Defined.
