(* ===== verification/Binding.v ===== *)
(** bind.go, server.go, unixserver.go and the connection entry points of
    identity.go: a captured identity, the shared state that owns the platform
    handle, and the views requests hold of it.

    A platform supplies a [binder]: three operations over a store [S], which
    holds whatever the platform keeps and observes. Go's [bindingState] is a
    binder built over another one, and [sharedBinder] embeds a binder and
    overrides [release]; both are written here as functions from binders to
    binders, so every view reaches one shared store. The read-write mutex makes
    each operation atomic with respect to [release], so a run is a sequence of
    operations on that store. *)

From S2P Require Import Prelude GoStrings GoError ProofLadder Peer Events.

(** The [binder] interface. *)
Record binder (S : Type) := mkBinder {
  recheck : S → option err * S;
  alive : S → (bool * option err) * S;
  release : S → option err * S
}.
Arguments mkBinder {S} _ _ _.
Arguments recheck {S} _ _.
Arguments alive {S} _ _.
Arguments release {S} _ _.

(** ** bindingState *)

Record bindingState (S : Type) := mkState {
  inner : S;
  closed : bool;
  closeErr : option err
}.
Arguments mkState {S} _ _ _.
Arguments inner {S} _.
Arguments closed {S} _.
Arguments closeErr {S} _.

Section BindingState.
Context {S : Type} (b : binder S).

Definition bs_recheck (s : bindingState S) : option err * bindingState S :=
  if closed s then (Some (Sentinel NetErrClosed), s)
  else let '(e, i) := recheck b (inner s) in (e, mkState i (closed s) (closeErr s)).

Definition bs_alive (s : bindingState S) : (bool * option err) * bindingState S :=
  if closed s then ((false, Some (Sentinel NetErrClosed)), s)
  else let '(r, i) := alive b (inner s) in (r, mkState i (closed s) (closeErr s)).

Definition bs_release (s : bindingState S) : option err * bindingState S :=
  if closed s then (closeErr s, s)
  else let '(e, i) := release b (inner s) in (e, mkState i true e).

Definition bindingState_binder : binder (bindingState S) :=
  mkBinder bs_recheck bs_alive bs_release.

End BindingState.

(** [sharedBinder]: the embedded binder with a release that does nothing. *)
Definition sharedBinder {S} (b : binder S) : binder S :=
  mkBinder (recheck b) (alive b) (λ s, (None, s)).

(** ** Binding *)

Record Binding (S : Type) := mkBinding {
  bpeer : Peer;
  boundAt : Time;
  binner : binder S
}.
Arguments mkBinding {S} _ _ _.
Arguments bpeer {S} _.
Arguments boundAt {S} _.
Arguments binner {S} _.

Section BindingOps.
Context {S : Type}.

(** [Binding.Peer]: the capture, once the recheck contradicts nothing. *)
Definition BindingPeer (b : Binding S) (s : S) : result Peer * S :=
  match recheck (binner b) s with
  | (Some e, s') => (Err e, s')
  | (None, s') => (Ok (bpeer b), s')
  end.

Definition BindingAlive (b : Binding S) (s : S) : (bool * option err) * S := alive (binner b) s.

(** [Binding.Captured]. *)
Definition Captured (b : Binding S) : Peer := bpeer b.

(** [Binding.EvidenceValidUntil]. *)
Definition EvidenceValidUntil (b : Binding S) : Time := evidenceValidUntil (bpeer b).

(** [Binding.Check]. *)
Definition BindingCheck (b : Binding S) (n : Need) (s : S) : option err * S :=
  match BindingPeer b s with
  | (Err e, s') => (Some e, s')
  | (Ok p, s') => (CheckPeer p n, s')
  end.

Definition BindingClose (b : Binding S) (s : S) : option err * S := release (binner b) s.

(** [Binding.Shared]. *)
Definition Shared (b : Binding S) : Binding S :=
  mkBinding (bpeer b) (boundAt b) (sharedBinder (binner b)).

End BindingOps.

(** ** Constructors *)

(** The connection forms the entry points tell apart: one exposing
    [syscall.Conn] (a [*net.UnixConn] or not), whose [SyscallConn] may fail and
    whose [Control] may refuse a closed descriptor; one with only an [Fd]
    method; any other. *)
Inductive netConn :=
| ConnSyscall (unixConn : bool) (raw : result (result Z))
| ConnFd (fd : Z)
| ConnOpaque.

Section Constructors.
Context {W S : Type}.

(** What a platform's [bindHandle] gives: its binder, the captured peer and the
    store the binder works over, or an error. [W] is the platform before there is
    a binding. *)
Context (bindHandle : Z → option Options → W → (binder S * Peer * S) + (err * W)).
Context (ofHandle : Z → option Options → W → result Peer * W).
Context (timeNow : S → Time * S).

(** [OfConn]. *)
Definition OfConn (c : netConn) (opts : option Options) (w : W) : result Peer * W :=
  match c with
  | ConnSyscall _ (Err _) => (Err (Sentinel ErrUnsupportedConn), w)
  | ConnSyscall _ (Ok (Err _)) => (Err (Sentinel ErrUnsupportedConn), w)
  | ConnSyscall _ (Ok (Ok fd)) => ofHandle fd opts w
  | ConnFd fd => ofHandle fd opts w
  | ConnOpaque => (Err (Sentinel ErrUnsupportedConn), w)
  end.

(** [Bind]: the platform's binder behind a fresh [bindingState]. *)
Definition Bind (h : Z) (opts : option Options) (w : W)
    : (Binding (bindingState S) * bindingState S) + (err * W) :=
  match bindHandle h opts w with
  | inr e => inr e
  | inl (b, p, s) =>
      let '(t, s') := timeNow s in
      inl (mkBinding p t (bindingState_binder b), mkState s' false None)
  end.

(** [BindConn]. *)
Definition BindConn (c : netConn) (opts : option Options) (w : W)
    : (Binding (bindingState S) * bindingState S) + (err * W) :=
  match c with
  | ConnSyscall _ (Ok (Ok fd)) => Bind fd opts w
  | _ => inr (Sentinel ErrUnsupportedConn, w)
  end.

(** [BindServer] of server.go keeps the platform's binder itself;
    [bindHandle] stands for the platform's [bindServerHandle]. *)
Definition BindServer (h : Z) (opts : option Options) (w : W) : (Binding S * S) + (err * W) :=
  match bindHandle h opts w with
  | inr e => inr e
  | inl (b, p, s) => let '(t, s') := timeNow s in inl (mkBinding p t b, s')
  end.

(** [BindServerConn]. *)
Definition BindServerConn (c : netConn) (opts : option Options) (w : W) : (Binding S * S) + (err * W) :=
  match c with
  | ConnSyscall _ (Ok (Ok fd)) => BindServer fd opts w
  | ConnSyscall _ (Ok (Err e)) => inr (e, w)
  | ConnSyscall _ (Err e) => inr (e, w)
  | _ => inr (Sentinel ErrUnsupportedConn, w)
  end.

(** [BindUnixServer] of unixserver.go; [bindHandle] stands for the platform's
    [bindUnixServer]. *)
Definition BindUnixServer (c : netConn) (opts : option Options) (w : W)
    : (Binding (bindingState S) * bindingState S) + (err * W) :=
  match c with
  | ConnSyscall true (Ok (Ok fd)) => Bind fd opts w
  | ConnSyscall true _ => inr (Sentinel ErrUnsupportedConn, w)
  | _ => inr (Wrap "not an AF_UNIX connection" [Sentinel ErrUnsupportedConn], w)
  end.

End Constructors.

(** ** Runs over one binding and its views *)

(** The calls a holder of a view makes. *)
Inductive call := CPeer | CAlive | CCheck (n : Need) | CClose.

(** View 0 is the owner's; view [k] was made by [k] nested calls of [Shared]. *)
Definition view {S} (b : Binding S) (k : nat) : Binding S := Nat.iter k Shared b.

Definition do_call {S} (b : Binding S) (c : nat * call) (s : S) : S :=
  let v := view b c.1 in
  match c.2 with
  | CPeer => (BindingPeer v s).2
  | CAlive => (BindingAlive v s).2
  | CCheck n => (BindingCheck v n s).2
  | CClose => (BindingClose v s).2
  end.

Definition run_calls {S} (b : Binding S) (cs : list (nat * call)) (s : S) : S :=
  fold_left (λ s c, do_call b c s) cs s.

(** The binder of a platform, writing down each operation it performs. *)
Inductive event := EvRecheck | EvAlive | EvRelease.

Definition logged {S} (b : binder S) : binder (S * list event) :=
  mkBinder
    (λ s, let '(e, i) := recheck b s.1 in (e, (i, s.2 ++ [EvRecheck])))
    (λ s, let '(r, i) := alive b s.1 in (r, (i, s.2 ++ [EvAlive])))
    (λ s, let '(e, i) := release b s.1 in (e, (i, s.2 ++ [EvRelease]))).

(** Reads of the handle, then at most one release and nothing after it. *)
Definition released_once (log : list event) (is_closed : bool) : Prop :=
  ∃ reads, Forall (λ e, e ≠ EvRelease) reads /\
           log = reads ++ (if is_closed then [EvRelease] else []).

Lemma view_recheck {S} (b : Binding S) k : recheck (binner (view b k)) = recheck (binner b).
Proof. induction k; simpl; done. Qed.

Lemma view_alive {S} (b : Binding S) k : alive (binner (view b k)) = alive (binner b).
Proof. induction k; simpl; done. Qed.

Lemma view_peer {S} (b : Binding S) k : bpeer (view b k) = bpeer b.
Proof. induction k; simpl; done. Qed.

Lemma view_release {S} (b : Binding S) k s :
  release (binner (view b (Datatypes.S k))) s = (None, s).
Proof. done. Qed.

Section Views.
Context {S : Type} (b : binder S) (p : Peer) (t : Time).

Abbreviation owner := (mkBinding p t (bindingState_binder (logged b))).

Definition log_ok (s : bindingState (S * list event)) : Prop :=
  released_once (inner s).2 (closed s).

Lemma released_once_read log e :
  e ≠ EvRelease → released_once log false → released_once (log ++ [e]) false.
Proof.
  intros He (r & Hr & ->). exists (r ++ [e]). rewrite !app_nil_r. split; [|done].
  apply Forall_app. by repeat constructor.
Qed.

Lemma do_call_log_ok c s : log_ok s → log_ok (do_call owner c s).
Proof.
  destruct c as [k []]; unfold do_call, log_ok;
    cbn [fst snd]; unfold BindingCheck, BindingPeer, BindingAlive, BindingClose;
    rewrite ?view_recheck, ?view_alive; intros Hs.
  1, 3: cbn; unfold bs_recheck; destruct (closed s) eqn:Hc; cbn; rewrite ?Hc; [done|];
    destruct (recheck b _) as [[e|] i]; cbn; rewrite ?Hc; by apply released_once_read.
  - cbn. unfold bs_alive. destruct (closed s) eqn:Hc; cbn; rewrite ?Hc; [done|].
    destruct (alive b _) as [r i]; cbn. rewrite ?Hc. by apply released_once_read.
  - destruct k as [|k]; [|done]. cbn. unfold bs_release.
    destruct (closed s) eqn:Hc; cbn; rewrite ?Hc; [done|].
    destruct (release b _) as [e i]; cbn. destruct Hs as (r & Hr & ->).
    exists r. by rewrite app_nil_r.
Qed.

Lemma run_calls_log_ok cs s : log_ok s → log_ok (run_calls owner cs s).
Proof.
  revert s. induction cs as [|c cs IH]; intros s Hs; [done|].
  cbn. apply IH. by apply do_call_log_ok.
Qed.

(** C8: whatever sequence of [Peer], [Alive], [Check] and [Close] the owner of a
    binding and the holders of its shared views perform, in any interleaving, the
    platform handle is released at most once, only by the owner's [Close], and
    nothing asks the platform about it after it is released. *)
Theorem handle_released_once cs s0 :
  let s := run_calls owner cs (mkState (s0, []) false None) in
  released_once (inner s).2 (closed s) /\
  (closed s = true <-> (0%nat, CClose) ∈ cs).
Proof.
  intros s. split.
  - apply run_calls_log_ok. by exists [].
  - subst s. assert (∀ cs s, closed (run_calls owner cs s) = true <->
      closed s = true \/ (0%nat, CClose) ∈ cs) as Hgen; [|rewrite Hgen; simpl; naive_solver].
    clear cs s0. induction cs as [|[k c] cs IH]; intros s; cbn [run_calls fold_left].
    { rewrite elem_of_nil. tauto. }
    change (closed (run_calls owner cs (do_call owner (k, c) s)) = true <->
      closed s = true \/ (0%nat, CClose) ∈ (k, c) :: cs).
    rewrite IH, elem_of_cons. clear IH.
    assert (closed (do_call owner (k, c) s) = true <-> closed s = true \/ (k, c) = (0%nat, CClose))
      as Hc; [|rewrite Hc; naive_solver].
    destruct c; unfold do_call; cbn [fst snd];
      unfold BindingCheck, BindingPeer, BindingAlive, BindingClose;
      rewrite ?view_recheck, ?view_alive; cbn; try unfold bs_recheck, bs_alive.
    4: destruct k as [|k]; cbn; [unfold bs_release | naive_solver].
    all: destruct (closed s) eqn:Hcl; cbn; rewrite ?Hcl;
      try destruct (recheck b _) as [[?|] ?]; try destruct (alive b _); try destruct (release b _);
      cbn; rewrite ?Hcl; naive_solver.
Qed.

End Views.

(** [Peer] and [Check] answer from the capture only when the platform's
    recheck raised nothing; once the owner has closed the binding, every view
    answers [net.ErrClosed] and a second [Close] repeats the first one's error. *)
Theorem binding_answers {S} (b : binder S) p t k n (s : bindingState S) :
  let v := view (mkBinding p t (bindingState_binder b)) k in
  let s' := (BindingClose (mkBinding p t (bindingState_binder b)) s).2 in
  (∀ q, (BindingPeer v s).1 = Ok q →
        q = p /\ closed s = false /\ (recheck b (inner s)).1 = None) /\
  ((BindingCheck v n s).1 = None → closed s = false /\ CheckPeer p n = None) /\
  (BindingPeer v s').1 = Err (Sentinel NetErrClosed) /\
  (BindingCheck v n s').1 = Some (Sentinel NetErrClosed) /\
  BindingClose (mkBinding p t (bindingState_binder b)) s' =
    ((BindingClose (mkBinding p t (bindingState_binder b)) s).1, s').
Proof.
  intros v s'.
  assert (closed s' = true) as Hc'.
  { subst s'. unfold BindingClose. cbn. unfold bs_release.
    destruct (closed s) eqn:E; [done|]. by destruct (release b _). }
  unfold BindingCheck, BindingPeer. subst v. rewrite view_recheck, view_peer. cbn.
  unfold bs_recheck. rewrite Hc'. cbn. split_and!; try done.
  - intros q. destruct (closed s) eqn:E; [done|].
    destruct (recheck b _) as [[e|] i] eqn:Er; cbn; [done|]. by intros [= <-].
  - destruct (closed s) eqn:E; [done|].
    destruct (recheck b _) as [[e|] i] eqn:Er; cbn; done.
  - subst s'. unfold BindingClose in *. cbn in *. unfold bs_release in *.
    destruct (closed s) eqn:E; cbn in *; [by rewrite E|].
    by destruct (release b _).
Qed.

(** ** Binders over a history *)

(** The object and the calls made so far: the store of a binding on Windows or macOS. *)
Definition histBinder {E B} (recheckB : B → Hist E (option err)) (aliveB : B → Hist E (result bool))
  (releaseB : B → Hist E (option err * B)) : binder (B * list E) :=
  mkBinder
    (λ '(b, h), let '(e, h') := recheckB b h in (e, (b, h')))
    (λ '(b, h), let '(r, h') := aliveB b h in (match r with Ok l => (l, None) | Err e => (false, Some e) end, (b, h')))
    (λ '(b, h), let '((e, b'), h') := releaseB b h in (e, (b', h'))).

(** A platform's bind function, as [Bind] and [BindServer] call it. *)
Definition histBind {E B} (bd : binder (B * list E)) (m : Z → option Options → Hist E (result (B * Peer)))
  (fd : Z) (opts : option Options) (h : list E) : (binder (B * list E) * Peer * (B * list E)) + (err * list E) :=
  match m fd opts h with
  | (Ok (b, p), h') => inl (bd, p, (b, h'))
  | (Err e, h') => inr (e, h')
  end.
