(* ===== verification/LinuxOS.v ===== *)
(** The Linux kernel and procfs as the identity code meets them.

    A [Kernel] holds every answer the system gives at one instant; the system is
    a function from instants to kernels, so any evolution of sockets, processes
    and files is some such function, and each question the code asks is answered
    at the next instant. Nothing relates one instant to the next unless a theorem
    says so. The state of the asking process is the number of questions asked,
    the descriptors it holds open, and the results its [sync.OnceValues]
    variables have kept. *)

From S2P Require Import Prelude GoStrings GoError.

Inductive sockopt := SO_DOMAIN | SO_ACCEPTCONN | SO_PEERPIDFD.

Record Ucred := mkUcred { cr_pid : Z; cr_uid : Z; cr_gid : Z }.

Record Kernel := mkKernel {
  k_now : Time;
  k_getsockoptInt : Z → sockopt → result Z;
  k_peercred : Z → result Ucred;
  k_peersec : Z → result string;
  k_socketpair : result (Z * Z);
  k_readFile : string → result string;
  k_readlink : string → result string;
  k_readDir : string → result (list string);
  k_stat : string → result (Z * Z);
  k_pidfdOpen : Z → result Z;
  k_close : Z → option err;
  k_auxv : result (list (Z * Z));
  k_getuid : Z
}.

Record LState := mkLState {
  tick : nat;
  fds : list Z;
  memo_pidfd : option (bool * string);
  memo_pidfdOpen : option (bool * string);
  memo_lsm : option (bool * string);
  memo_boot : option (result Time);
  memo_hz : option Z
}.

(** A process with nothing open and nothing remembered. *)
Definition fresh : LState := mkLState 0 [] None None None None None.

Definition M (A : Type) : Type := LState → A * LState.

#[global] Instance M_ret : MRet M := λ A a s, (a, s).
#[global] Instance M_bind : MBind M := λ A B k m s, let '(a, s') := m s in k a s'.

Section OS.
Context (K : nat → Kernel).

(** One question to the system. *)
Definition ask {A} (f : Kernel → A) : M A := λ s,
  (f (K (tick s)),
   mkLState (S (tick s)) (fds s) (memo_pidfd s) (memo_pidfdOpen s) (memo_lsm s) (memo_boot s)
     (memo_hz s)).

(** The answer to a call that opens descriptors on success. *)
Definition track (new : list Z) : M unit := λ s,
  (tt, mkLState (tick s) (new ++ fds s) (memo_pidfd s) (memo_pidfdOpen s) (memo_lsm s) (memo_boot s)
         (memo_hz s)).

Fixpoint remove_first (x : Z) (l : list Z) : list Z :=
  match l with
  | [] => []
  | y :: l' => if x =? y then l' else y :: remove_first x l'
  end.

(** A descriptor that is gone. *)
Definition untrack (fd : Z) : M unit := λ s,
  (tt, mkLState (tick s) (remove_first fd (fds s)) (memo_pidfd s) (memo_pidfdOpen s) (memo_lsm s)
         (memo_boot s) (memo_hz s)).

(** [unix.Close]: the descriptor is gone whatever the call reports. *)
Definition close (fd : Z) : M (option err) :=
  e ← ask (λ k, k_close k fd);
  _ ← untrack fd;
  mret e.

Definition timeNow : M Time := ask k_now.

Definition getsockoptInt (fd : Z) (o : sockopt) : M (result Z) :=
  ask (λ k, k_getsockoptInt k fd o).

(** [SO_PEERPIDFD] returns a new descriptor. *)
Definition getPeerPidfd (fd : Z) : M (result Z) :=
  r ← getsockoptInt fd SO_PEERPIDFD;
  match r with
  | Ok p => _ ← track [p]; mret (Ok p)
  | Err e => mret (Err e)
  end.

Definition socketpair : M (result (Z * Z)) :=
  r ← ask k_socketpair;
  match r with
  | Ok (a, b) => _ ← track [a; b]; mret (Ok (a, b))
  | Err e => mret (Err e)
  end.

Definition pidfdOpen (pid : Z) : M (result Z) :=
  r ← ask (λ k, k_pidfdOpen k pid);
  match r with
  | Ok p => _ ← track [p]; mret (Ok p)
  | Err e => mret (Err e)
  end.

Definition readFile (path : string) : M (result string) := ask (λ k, k_readFile k path).
Definition readlink (path : string) : M (result string) := ask (λ k, k_readlink k path).
Definition readDir (path : string) : M (result (list string)) := ask (λ k, k_readDir k path).
Definition statOwner (path : string) : M (result (Z * Z)) := ask (λ k, k_stat k path).

(** [sync.OnceValues]: the first result is kept. *)
Definition once {A} (get : LState → option A) (put : LState → A → LState) (f : M A) : M A := λ s,
  match get s with
  | Some a => (a, s)
  | None => let '(a, s') := f s in (a, put s' a)
  end.

End OS.

Definition put_pidfd (s : LState) (a : bool * string) : LState :=
  mkLState (tick s) (fds s) (Some a) (memo_pidfdOpen s) (memo_lsm s) (memo_boot s) (memo_hz s).
Definition put_pidfdOpen (s : LState) (a : bool * string) : LState :=
  mkLState (tick s) (fds s) (memo_pidfd s) (Some a) (memo_lsm s) (memo_boot s) (memo_hz s).
Definition put_lsm (s : LState) (a : bool * string) : LState :=
  mkLState (tick s) (fds s) (memo_pidfd s) (memo_pidfdOpen s) (Some a) (memo_boot s) (memo_hz s).
Definition put_boot (s : LState) (a : result Time) : LState :=
  mkLState (tick s) (fds s) (memo_pidfd s) (memo_pidfdOpen s) (memo_lsm s) (Some a) (memo_hz s).
Definition put_hz (s : LState) (a : Z) : LState :=
  mkLState (tick s) (fds s) (memo_pidfd s) (memo_pidfdOpen s) (memo_lsm s) (memo_boot s) (Some a).

(** ** Reasoning *)

(** What holds of a computation's result and final state, started in [s]. *)
Definition wp {A} (m : M A) (Q : A → LState → Prop) (s : LState) : Prop := Q (m s).1 (m s).2.

Lemma wp_ret {A} (a : A) Q s : Q a s → wp (mret a) Q s.
Proof. done. Qed.

Lemma wp_bind {A B} (m : M A) (k : A → M B) Q s :
  wp m (λ a s', wp (k a) Q s') s → wp (m ≫= k) Q s.
Proof. unfold wp, mbind, M_bind. by destruct (m s). Qed.

Lemma wp_mono {A} (m : M A) (P Q : A → LState → Prop) s :
  wp m P s → (∀ a s', P a s' → Q a s') → wp m Q s.
Proof. unfold wp. auto. Qed.

Lemma wp_ask K {A} (f : Kernel → A) (Q : A → LState → Prop) s :
  (∀ s', tick s' = S (tick s) → fds s' = fds s → Q (f (K (tick s))) s') → wp (ask K f) Q s.
Proof. intros H. by apply H. Qed.

(** Started anywhere, time does not go back and the descriptors held at the end
    are those held at the start. *)
Definition quiet {A} (m : M A) : Prop :=
  ∀ s, (tick s <= tick (m s).2)%nat /\ fds (m s).2 = fds s.

Lemma quiet_ret {A} (a : A) : quiet (mret a : M A).
Proof. done. Qed.

Lemma quiet_bind {A B} (m : M A) (k : A → M B) :
  quiet m → (∀ a, quiet (k a)) → quiet (m ≫= k).
Proof.
  intros Hm Hk s. unfold mbind, M_bind. specialize (Hm s). destruct (m s) as [a s'].
  destruct (Hk a s') as [? ->]. simpl in *. destruct_and!. split; [lia|done].
Qed.

Lemma quiet_ask K {A} (f : Kernel → A) : quiet (ask K f).
Proof. intros s. cbn. auto with lia. Qed.

Lemma quiet_once {A} get put (f : M A) :
  (∀ s a, fds (put s a) = fds s) → (∀ s a, tick (put s a) = tick s) →
  quiet f → quiet (once get put f).
Proof.
  intros Hp Ht Hf s. unfold once. destruct (get s); [done|].
  specialize (Hf s). destruct (f s). simpl in *. by rewrite Hp, Ht.
Qed.

(** A quiet call in the middle of a computation. *)
Lemma wp_quiet {A} (m : M A) (Q : A → LState → Prop) s :
  quiet m → (∀ a s', (tick s <= tick s')%nat → fds s' = fds s → Q a s') → wp m Q s.
Proof. intros Hm HQ. destruct (Hm s). by apply HQ. Qed.

Lemma quiet_wp {A} (m : M A) :
  (∀ s, wp m (λ _ s', (tick s <= tick s')%nat /\ fds s' = fds s) s) → quiet m.
Proof. done. Qed.

Create HintDb quiet.
#[export] Hint Resolve quiet_ret quiet_bind quiet_ask : quiet.

(** Walk a computation that opens nothing. *)
Ltac quiet :=
  repeat first
    [ solve [eauto with quiet nocore]
    | apply quiet_ret
    | apply quiet_bind; [|intros ?]
    | progress intros
    | case_goal ].

Lemma remove_first_head x l : remove_first x (x :: l) = l.
Proof. simpl. by rewrite Z.eqb_refl. Qed.

Lemma wp_close K fd (Q : option err → LState → Prop) s :
  (∀ e s', tick s' = S (tick s) → fds s' = remove_first fd (fds s) → Q e s') → wp (close K fd) Q s.
Proof. intros H. by apply H. Qed.

(** The three calls that open descriptors. *)
Lemma wp_getPeerPidfd K fd (Q : result Z → LState → Prop) s :
  (∀ e s', tick s' = S (tick s) → fds s' = fds s →
     k_getsockoptInt (K (tick s)) fd SO_PEERPIDFD = Err e → Q (Err e) s') →
  (∀ p s', tick s' = S (tick s) → fds s' = p :: fds s →
     k_getsockoptInt (K (tick s)) fd SO_PEERPIDFD = Ok p → Q (Ok p) s') →
  wp (getPeerPidfd K fd) Q s.
Proof.
  intros He Hp. unfold getPeerPidfd, getsockoptInt. apply wp_bind, wp_ask.
  intros s' Ht Hf. case_goal; [|by apply He].
  apply Hp; [done| |done]. by rewrite <- Hf.
Qed.

Lemma wp_socketpair K (Q : result (Z * Z) → LState → Prop) s :
  (∀ e s', tick s' = S (tick s) → fds s' = fds s → Q (Err e) s') →
  (∀ a b s', tick s' = S (tick s) → fds s' = a :: b :: fds s → Q (Ok (a, b)) s') →
  wp (socketpair K) Q s.
Proof.
  intros He Hp. unfold socketpair. apply wp_bind, wp_ask. intros s' Ht Hf. case_goal.
  - destruct a as [x y]. apply Hp; [done|]. by rewrite <- Hf.
  - by apply He.
Qed.

Lemma remove_first_second x y l : remove_first x (y :: x :: l) = y :: l.
Proof. simpl. rewrite Z.eqb_refl. destruct (Z.eqb_spec x y); congruence. Qed.

Lemma wp_pidfdOpen K pid (Q : result Z → LState → Prop) s :
  (∀ e s', tick s' = S (tick s) → fds s' = fds s → Q (Err e) s') →
  (∀ p s', tick s' = S (tick s) → fds s' = p :: fds s → k_pidfdOpen (K (tick s)) pid = Ok p → Q (Ok p) s') →
  wp (pidfdOpen K pid) Q s.
Proof.
  intros He Hp. unfold pidfdOpen. apply wp_bind, wp_ask. intros s' Ht Hf. case_goal; [|by apply He].
  apply Hp; [done| |done]. by rewrite <- Hf.
Qed.
