(* ===== verification/ProcfsLinux.v ===== *)
(** procfs_linux.go: what the package reads out of [/proc], and how it parses
    it. *)

From S2P Require Import Prelude GoStrings GoError LinuxOS.

(** ** Integers and instants of the parsers *)

(** An [int64] kept at its width. *)
Definition wrap64 (z : Z) : Z := (z + 2 ^ 63) mod 2 ^ 64 - 2 ^ 63.

Lemma wrap64_small z : - 2 ^ 63 <= z < 2 ^ 63 → wrap64 z = z.
Proof. intros H. unfold wrap64. rewrite Z.mod_small; lia. Qed.

(** [time.Unix]: the nanoseconds are brought into range, and the seconds are
    kept, as [time] keeps them, in 64 bits counted from the year one. *)
Definition unixToInternal : Z := 62135596800.

Definition timeUnix (sec nsec : Z) : Time :=
  let '(sec, nsec) :=
    if (nsec <? 0) || (second <=? nsec) then
      let n := Z.quot nsec second in
      let nsec' := nsec - n * second in
      if nsec' <? 0 then (wrap64 (sec + n - 1), nsec' + second) else (wrap64 (sec + n), nsec')
    else (sec, nsec) in
  (wrap64 (sec + unixToInternal) - unixToInternal) * second + nsec.

(** [Time.Unix]. *)
Definition unixSeconds (t : Time) : Z := wrap64 (t / second).

(** ** Parsers *)

(** [fieldInt]: the integer after [label] on the first line that begins with it. *)
Fixpoint fieldInt_lines (lines : list string) (label : string) : option Z :=
  match lines with
  | [] => None
  | line :: rest =>
      match CutPrefix line label with
      | None => fieldInt_lines rest label
      | Some v => ParseInt (TrimSpace v)
      end
  end.

Definition fieldInt (s label : string) : option Z := fieldInt_lines (Split s newline) label.

(** [iniValue]: [inside] tells whether the last header named the section. *)
Fixpoint iniValue_lines (lines : list string) (section key : string) (inside : bool) : string :=
  match lines with
  | [] => ""
  | line :: rest =>
      let line := TrimSpace line in
      if HasPrefix line "[" then
        iniValue_lines rest section key (String.eqb line ("[" +:+ section +:+ "]"))
      else if inside then
        match Cut line "=" with
        | Some (k, v) =>
            if String.eqb (TrimSpace k) key then TrimSpace v
            else iniValue_lines rest section key inside
        | None => iniValue_lines rest section key inside
        end
      else iniValue_lines rest section key inside
  end.

Definition iniValue (s section key : string) : string :=
  iniValue_lines (Split s newline) section key false.

(** [snapFromCgroup]. *)
Fixpoint snapFromCgroup_lines (lines : list string) : string :=
  match lines with
  | [] => ""
  | line :: more =>
      match after_first line "snap." with
      | None => snapFromCgroup_lines more
      | Some rest =>
          let rest := take_until (Ascii.eqb "/") rest in
          let rest := TrimSuffix rest ".scope" in
          let rest := TrimSuffix rest ".service" in
          match Split rest "." with
          | a :: b :: _ => a +:+ "." +:+ b
          | _ => snapFromCgroup_lines more
          end
      end
  end.

Definition snapFromCgroup (s : string) : string := snapFromCgroup_lines (Split s newline).

(** The loop of [bootEpoch] over the lines of [/proc/stat]. *)
Fixpoint btime_lines (lines : list string) : result Time :=
  match lines with
  | [] => Err (Plain "/proc/stat has no btime")
  | line :: rest =>
      match Fields line with
      | [k; v] =>
          if String.eqb k "btime" then
            match ParseInt v with
            | Some seconds => Ok (timeUnix seconds 0)
            | None => Err (Plain "/proc/stat btime")
            end
          else btime_lines rest
      | _ => btime_lines rest
      end
  end.

(** The loop of [clockTicks] over the auxiliary vector. *)
Definition atClkTck : Z := 17.

Fixpoint clkTck (av : list (Z * Z)) : Z :=
  match av with
  | [] => 100
  | (k, v) :: rest => if (k =? atClkTck) && (0 <? v) then wrap64 v else clkTck rest
  end.

(** The start time in ticks: field 22, counted from the last close-paren. *)
Definition startTicks (stat : string) : result Z :=
  match after_last stat ")" with
  | None => Err (Plain "/proc/<pid>/stat is not in the expected form")
  | Some r =>
      match Fields r !! 19%nat with
      | None => Err (Plain "/proc/<pid>/stat has too few fields for a start time")
      | Some f => match ParseInt f with
                  | Some t => Ok t
                  | None => Err (Plain "strconv.ParseInt: parsing start time")
                  end
      end
  end.

(** The instant [ticks] clock ticks after the boot epoch. *)
Definition startInstant (boot : Time) (ticks hz : Z) : Time :=
  let seconds := wrap64 (Z.quot ticks hz) in
  let nanos := wrap64 (Z.quot (wrap64 (Z.rem ticks hz * second)) hz) in
  timeUnix (wrap64 (unixSeconds boot + seconds)) nanos.

Lemma after_last_app a r c : contains_char (Ascii.eqb c) r = false →
  after_last (a +:+ String c r) c = Some r.
Proof.
  intros Hr. assert (after_last r c = None) as Hn.
  { induction r as [|x r IH]; [done|]. simpl in *. to_prop. rewrite IH by done.
    rewrite Ascii.eqb_sym. by destruct (Ascii.eqb c x). }
  induction a as [|x a IH]; simpl; [by rewrite Hn, Ascii.eqb_refl|by rewrite IH].
Qed.

Lemma timeUnix_exact sec nsec :
  - 2 ^ 62 <= sec < 2 ^ 62 → 0 <= nsec < second → timeUnix sec nsec = sec * second + nsec.
Proof.
  intros Hs Hn. unfold timeUnix, unixToInternal.
  rewrite (proj2 (Z.ltb_ge nsec 0)), (proj2 (Z.leb_gt second nsec)) by lia. cbn [orb].
  rewrite wrap64_small by lia. lia.
Qed.

(** Within the range of real clocks the conversion rounds down to the nanosecond
    and nothing wraps. *)
Lemma startInstant_exact b ticks hz :
  0 <= b < 2 ^ 40 → 0 <= ticks < 2 ^ 61 → 0 < hz <= second →
  startInstant (b * second) ticks hz = b * second + ticks * second / hz.
Proof.
  intros Hb Ht Hh. unfold startInstant, unixSeconds.
  rewrite Z.quot_div_nonneg, Z.rem_mod_nonneg by lia.
  pose proof (Z.div_mod ticks hz ltac:(lia)) as Hdm.
  pose proof (Z.mod_pos_bound ticks hz ltac:(lia)) as Hmod.
  pose proof (Z.div_pos ticks hz ltac:(lia) ltac:(lia)) as Hpos.
  set (q := ticks / hz) in *. set (r := ticks mod hz) in *.
  assert (q <= ticks) by nia.
  assert (second = 10 ^ 9) as Hsec by reflexivity.
  assert (0 <= r * second < 2 ^ 62) by nia.
  rewrite (wrap64_small (r * second)) by lia. rewrite Z.quot_div_nonneg by lia.
  assert (0 <= r * second / hz < second).
  { split; [apply Z.div_pos; lia|]. apply Z.div_lt_upper_bound; nia. }
  rewrite Z.div_mul by lia. rewrite !wrap64_small by (rewrite ?wrap64_small; lia).
  rewrite timeUnix_exact by lia.
  assert (ticks * second / hz = q * second + r * second / hz) as ->; [|lia].
  rewrite <- Z.div_add_l by lia. f_equal. nia.
Qed.

(** ** Reads *)

Section Procfs.
Context (K : nat → Kernel).

Definition procPath (pid : Z) : string := "/proc/" +:+ itoa pid.
Definition fdinfoPath (pidfd : Z) : string := "/proc/self/fdinfo/" +:+ itoa pidfd.

Definition errNoPidfdInfo : err :=
  Plain "no Pid line: this is not a pidfd, or the kernel does not report one".

(** [pidfdAlive]. *)
Definition pidfdAlive (pidfd want : Z) : M (result bool) :=
  let name := fdinfoPath pidfd in
  r ← readFile K name;
  match r with
  | Err e => mret (Err (Wrap name [e]))
  | Ok b =>
      match fieldInt b "Pid:" with
      | None => mret (Err (Wrap name [errNoPidfdInfo]))
      | Some got =>
          if got <=? 0 then mret (Ok false)
          else if negb (got =? want)
          then mret (Err (Plain ("the pidfd for this connection names pid " +:+ itoa got
                                 +:+ " but SO_PEERCRED named pid " +:+ itoa want)))
          else mret (Ok true)
      end
  end.

(** [processExe]: the link, and whether the kernel marked it deleted. *)
Definition processExe (pid : Z) : M (result (string * bool)) :=
  r ← readlink K (procPath pid +:+ "/exe");
  match r with
  | Err e => mret (Err e)
  | Ok link =>
      match CutSuffix link " (deleted)" with
      | Some s => mret (Ok (s, true))
      | None => mret (Ok (link, false))
      end
  end.

Definition bootEpoch : M (result Time) :=
  once memo_boot put_boot (
    r ← readFile K "/proc/stat";
    match r with
    | Err e => mret (Err e)
    | Ok b => mret (btime_lines (Split b newline))
    end).

Definition clockTicks : M Z :=
  once memo_hz put_hz (
    r ← ask K k_auxv;
    match r with
    | Err _ => mret 100
    | Ok av => mret (clkTck av)
    end).

(** [processStartTime]. *)
Definition processStartTime (pid : Z) : M (result Time) :=
  r ← readFile K (procPath pid +:+ "/stat");
  match r with
  | Err e => mret (Err e)
  | Ok stat =>
      match startTicks stat with
      | Err e => mret (Err e)
      | Ok ticks =>
          b ← bootEpoch;
          match b with
          | Err e => mret (Err e)
          | Ok boot =>
              hz ← clockTicks;
              mret (Ok (startInstant boot ticks hz))
          end
      end
  end.

(** [sandboxPackage]: the application id the peer's sandbox reports, and why. *)
Definition sandboxPackage (pid : Z) : M (string * string) :=
  let root := procPath pid in
  r ← readFile K (root +:+ "/root/.flatpak-info");
  match r with
  | Ok b =>
      let app := iniValue b "Application" "name" in
      if negb (String.eqb app "")
      then mret ("flatpak:" +:+ app,
                 "read from .flatpak-info inside the peer's own mount namespace, which bubblewrap mounts read-only")
      else mret ("flatpak:", "the peer is in a Flatpak sandbox whose .flatpak-info names no application")
  | Err _ =>
      c ← readFile K (root +:+ "/cgroup");
      let none := ("", "the peer is not in a sandbox this package can recognise (Flatpak, Snap or Firejail); Linux has no general answer to what a process is - see CONTRACT.md") in
      match c with
      | Ok b =>
          let id := snapFromCgroup b in
          if negb (String.eqb id "")
          then mret ("snap:" +:+ id, "read from the peer's cgroup path, which snapd sets at launch")
          else if Contains b "firejail"
          then mret ("firejail:", "the peer's cgroup names firejail, which does not carry an application id")
          else mret none
      | Err _ => mret none
      end
  end.

(** ** None of these reads opens a descriptor that outlives it *)

Lemma quiet_pidfdAlive pidfd want : quiet (pidfdAlive pidfd want).
Proof. unfold pidfdAlive, readFile. quiet. Qed.

Lemma quiet_processExe pid : quiet (processExe pid).
Proof. unfold processExe, readlink. quiet. Qed.

Lemma quiet_bootEpoch : quiet bootEpoch.
Proof. apply quiet_once; [done|done|]. unfold readFile. quiet. Qed.

Lemma quiet_clockTicks : quiet clockTicks.
Proof. apply quiet_once; [done|done|]. quiet. Qed.

Lemma quiet_processStartTime pid : quiet (processStartTime pid).
Proof.
  pose proof quiet_bootEpoch. pose proof quiet_clockTicks.
  unfold processStartTime, readFile. quiet.
Qed.

Lemma quiet_sandboxPackage pid : quiet (sandboxPackage pid).
Proof. unfold sandboxPackage, readFile. quiet. Qed.

(** The pin is intact exactly when the descriptor's kernel record names [want]. *)
Definition pid_line (t : nat) (pidfd want : Z) : Prop :=
  ∃ info, k_readFile (K t) (fdinfoPath pidfd) = Ok info /\
          fieldInt info "Pid:" = Some want /\ 0 < want.

Lemma pidfdAlive_spec pidfd want s :
  wp (pidfdAlive pidfd want)
    (λ r s', tick s' = S (tick s) /\ fds s' = fds s /\ (r = Ok true <-> pid_line (tick s) pidfd want)) s.
Proof.
  unfold pidfdAlive, readFile, pid_line. apply wp_bind, wp_ask. intros s' Ht Hf.
  repeat case_goal; apply wp_ret; to_prop; subst;
    (split; [done|split; [done|]]); (split; [intros [=] | intros (info & ? & ? & ?)]);
    simplify_eq; try done; try lia; eauto with lia.
Qed.

(** The start time is the kernel's, whatever the process calls itself. The
    second field of [/proc/<pid>/stat] is the name the process chose, which may
    hold spaces, newlines and parentheses: [processStartTime] reads the field the
    kernel wrote after the last of them, and converts it to the exact nanosecond,
    rounded down, without overflow for every real clock. *)
Theorem linux_start_time pid s name rest f ticks b hz :
  k_readFile (K (tick s)) (procPath pid +:+ "/stat") = Ok (name +:+ ")" +:+ rest) →
  contains_char (Ascii.eqb ")") rest = false →
  Fields rest !! 19%nat = Some f → ParseInt f = Some ticks →
  memo_boot s = Some (Ok (b * second)) → memo_hz s = Some hz →
  0 <= b < 2 ^ 40 → 0 <= ticks < 2 ^ 61 → 0 < hz <= second →
  (processStartTime pid s).1 = Ok (b * second + ticks * second / hz).
Proof.
  intros Hk Hr Hf Hp Hb Hh ? ? ?. rewrite <- startInstant_exact by done.
  unfold processStartTime, readFile, ask, mbind, M_bind. rewrite Hk.
  unfold startTicks. change (")" +:+ rest) with (String ")" rest).
  rewrite after_last_app by done. rewrite Hf, Hp.
  unfold bootEpoch, once. cbn. rewrite Hb. cbn. unfold clockTicks, once. cbn. by rewrite Hh.
Qed.

End Procfs.

#[export] Hint Resolve quiet_pidfdAlive quiet_processExe quiet_processStartTime
  quiet_sandboxPackage : quiet.

(** A process that names itself like the end of its own record: a shell that
    started 12.34 seconds after boot. *)
Definition spoofedStat : string :=
  "77 (sh) S 1 1 1 0 -1 0 0 0 0 0 0 0 0 0 20 0 1 0 5 0 (x) S 1 1 1 0 -1 0 0 0 0 0 0 0 0 0 20 0 1 0 1234 0 0".

Definition spoofedKernel : Kernel :=
  mkKernel 0 (λ _ _, Err (OSErr ENOENT)) (λ _, Err (OSErr ENOENT)) (λ _, Err (OSErr ENOENT))
    (Err (OSErr ENOENT))
    (λ p, if String.eqb p "/proc/77/stat" then Ok spoofedStat else Err (OSErr ENOENT))
    (λ _, Err (OSErr ENOENT)) (λ _, Err (OSErr ENOENT)) (λ _, Err (OSErr ENOENT))
    (λ _, Err (OSErr ENOENT)) (λ _, None) (Err (OSErr ENOENT)) 0.

Lemma linux_start_time_witness :
  (processStartTime (λ _, spoofedKernel) 77
     (mkLState 0 [] None None None (Some (Ok (1700000000 * second))) (Some 100))).1 =
  Ok (1700000000 * second + 1234 * second / 100).
Proof.
  apply (linux_start_time (λ _, spoofedKernel) 77 _
           "77 (sh) S 1 1 1 0 -1 0 0 0 0 0 0 0 0 0 20 0 1 0 5 0 (x"
           " S 1 1 1 0 -1 0 0 0 0 0 0 0 0 0 20 0 1 0 1234 0 0" "1234" 1234 1700000000 100);
    try (vm_compute; reflexivity); unfold second, millisecond; lia.
Defined.
