(* ===== verification/IdentityLinux.v ===== *)
(** identity_linux.go: the peer of an accepted [AF_UNIX] socket, and the ceiling
    of what this platform proves. *)

From S2P Require Import Prelude GoStrings GoError ProofLadder Peer LinuxOS ProcfsLinux.

Definition whyPeerCred : string := "uid and gid are the credentials the kernel recorded for the peer at connect(2); the peer never spoke them and cannot influence them".
Definition whyPidKernel : string := "the pid is the one the kernel recorded at connect(2); the number is a fact about the connection, but what it refers to now is a separate question - see path".
Definition whyPidfdBound : string := "read from /proc through a pid held open by the pidfd the kernel handed out for this connection, so the number cannot have been reassigned to a different process".
Definition whyNoPidfd : string := "read from /proc by pid, after the fact: this kernel has no SO_PEERPIDFD (Linux 6.5) to pin the process, so a pid reused between connect and now would answer instead".
Definition whyNoCode : string := "Linux has no per-connection code signature verification for ordinary ELF binaries; IMA and dm-verity are not queryable this way, and this is not expected to change".
Definition whyPackageAdvisory : string := "a sandbox application id is advisory: it is read from the peer's own mount namespace (Flatpak) or from a cgroup name (Snap), and neither is beyond the reach of a hostile process running as the same user - see CONTRACT.md".

Definition startTimeSlop : Duration := 2 * second.

Definition AF_UNIX : Z := 1.
Definition AF_INET : Z := 2.
Definition AF_INET6 : Z := 10.
Definition AF_NETLINK : Z := 16.
Definition AF_VSOCK : Z := 40.

Definition domainName (d : Z) : string :=
  if d =? AF_INET then "INET"
  else if d =? AF_INET6 then "INET6"
  else if d =? AF_NETLINK then "NETLINK"
  else if d =? AF_VSOCK then "VSOCK"
  else itoa d.

(** [meaningfulLSMLabel]. *)
Definition meaningfulLSMLabel (s : string) : bool :=
  negb (existsb (String.eqb s)
    [""; "kernel"; "unlabeled"; "unlabeled_t"; "unconfined"; "unconfined (enforce)";
     "unconfined (complain)"]).

Section Linux.
Context (K : nat → Kernel).

(** The wording of an error, the [%q] form of a string and the nanosecond
    rendering of an instant. *)
Context (errText : err → string) (Quote : string → string) (rfc3339Nano : Time → string).

(** [pidfdSupport]: a probe on a fresh socket pair, kept for the process. *)
Definition pidfdSupport : M (bool * string) :=
  once memo_pidfd put_pidfd (
    r ← socketpair K;
    match r with
    | Err e => mret (false, "could not probe for SO_PEERPIDFD (socketpair: " +:+ errText e +:+ ")")
    | Ok (a, b) =>
        p ← getPeerPidfd K a;
        match p with
        | Err e =>
            _ ← close K b;
            _ ← close K a;
            mret (false, "SO_PEERPIDFD is unavailable on this kernel (" +:+ errText e
                    +:+ "); it needs Linux 6.5, and without it nothing read from /proc can be pinned to the process that connected")
        | Ok fd =>
            _ ← close K fd;
            _ ← close K b;
            _ ← close K a;
            mret (true, "")
        end
    end).

(** [lsmSupport]. *)
Definition lsmSupport : M (bool * string) :=
  once memo_lsm put_lsm (
    r ← socketpair K;
    match r with
    | Err e => mret (false, "could not probe for SO_PEERSEC (socketpair: " +:+ errText e +:+ ")")
    | Ok (a, b) =>
        c ← ask K (λ k, k_peersec k a);
        _ ← close K b;
        _ ← close K a;
        match c with
        | Err e => mret (false, "SO_PEERSEC is unavailable on this kernel (" +:+ errText e +:+ ")")
        | Ok ctx =>
            if negb (meaningfulLSMLabel ctx)
            then mret (false, "no LSM is labelling processes on this system (SO_PEERSEC answers "
                         +:+ Quote ctx +:+ ")")
            else mret (true, "")
        end
    end).

Definition linuxBest (pidfd : bool) : Need :=
  let derived := if pidfd then ProofBound else ProofPID in
  mkNeed ProofKernel ProofKernel derived derived ProofNone.

(** [ceiling]. *)
Definition ceiling : M Limits :=
  '(pidfd, pidfdWhy) ← pidfdSupport;
  '(lsm, lsmWhy) ← lsmSupport;
  let derivedWhy :=
    if (pidfd : bool) then whyPidfdBound else whyNoPidfd +:+ " (" +:+ pidfdWhy +:+ ")" in
  let userWhy :=
    if (lsm : bool)
    then whyPeerCred +:+ "; SO_PEERSEC also carries the peer's LSM label, which is the closest Linux comes to naming a program rather than a file"
    else whyPeerCred +:+ "; " +:+ lsmWhy +:+ ", so User.SecurityContext will be empty" in
  let binding :=
    if pidfd
    then "SO_PEERPIDFD: the kernel derives a pidfd from the connection itself, so it names a process instance that cannot be reassigned and cannot follow a later writer. It does follow execve, which Bind captures the image path to refuse"
    else whyNoPidfd +:+ " (" +:+ pidfdWhy +:+ "), so this machine cannot bind a peer: Bind refuses rather than answering from a number" in
  mret (mkLimits "linux" (linuxBest pidfd)
          (list_to_map
             [("user", userWhy); ("process", whyPidKernel); ("path", derivedWhy);
              ("package", derivedWhy +:+ "; " +:+ whyPackageAdvisory); ("code", whyNoCode)])
          "unix" pidfd binding "").

(** [requireAcceptedUnixSocket]. *)
Definition requireAcceptedUnixSocket (fd : Z) : M (option err) :=
  d ← getsockoptInt K fd SO_DOMAIN;
  match d with
  | Err e => mret (Some (Wrap ("not a socket (SO_DOMAIN: " +:+ errText e +:+ ")")
                           [Sentinel ErrUnsupportedConn]))
  | Ok domain =>
      if negb (domain =? AF_UNIX)
      then mret (Some (Wrap ("this is an AF_" +:+ domainName domain +:+ " socket; peer credentials exist only on AF_UNIX, and a loopback TCP peer has no verifiable identity at all")
                         [Sentinel ErrUnsupportedConn]))
      else
        l ← getsockoptInt K fd SO_ACCEPTCONN;
        match l with
        | Ok listening =>
            if negb (listening =? 0)
            then mret (Some (Wrap "this is the listening socket, not an accepted connection; SO_PEERCRED on it returns the credentials this service had at listen(2) - its own"
                               [Sentinel ErrNotServerEnd]))
            else mret None
        | Err _ => mret None
        end
  end.

(** [Options.connectedAt], which reads the clock only when it must. *)
Definition connectedAtM (o : option Options) : M Time :=
  match o with
  | Some o' => if negb (IsZero (ConnectedAt o')) then mret (ConnectedAt o') else timeNow K
  | None => timeNow K
  end.

(** The peer before anything is resolved. *)
Definition blankPeer (now : Time) : Peer :=
  mkPeer "linux" "unix" now (unknown "user" "not resolved") (unknown "process" "not resolved")
    (unknown "path" "not resolved") (unknown "package" "not resolved") (unknown "code" whyNoCode)
    [] zeroTime.

(** Step 3: the principal, with the label the kernel stamped on the socket. *)
Definition principal (uc : Ucred) (sec : result string) : Attr User :=
  let user := posixUser (cr_uid uc) (cr_gid uc) in
  match sec with
  | Err e => attr "user" user ProofKernel
               (whyPeerCred +:+ "; no LSM label (SO_PEERSEC: " +:+ errText e +:+ ")")
  | Ok ctx =>
      if negb (meaningfulLSMLabel ctx)
      then attr "user" user ProofKernel
             (whyPeerCred +:+ "; no LSM label (SO_PEERSEC answers " +:+ Quote ctx
              +:+ ", which is the absence of a label)")
      else attr "user" (set_SecurityContext user ctx) ProofKernel
             (whyPeerCred +:+ "; SecurityContext is the peer's LSM label as of connect(2), assigned by policy at exec and not by the peer")
  end.

(** Step 5: what the pidfd the kernel gave is worth: whether the pid is pinned,
    whether [/proc] is worth reading, and why. *)
Definition pinned (live : result bool) : bool * bool * string :=
  match live with
  | Err e => (false, false,
      "the pidfd the kernel gave for this connection could not be checked (" +:+ errText e
      +:+ "), so nothing was read out of the pid")
  | Ok false => (false, false,
      "the peer has exited: the pidfd for this connection no longer names a running process, so /proc has nothing left to say about it")
  | Ok true => (true, true, whyPidfdBound)
  end.

(** Step 7: the image path. *)
Definition resolvePath (pid : Z) (derived : ProofLevel) (derivedWhy : string) (p : Peer) : M Peer :=
  x ← processExe K pid;
  match x with
  | Err e =>
      mret (note (set_Path p (unknown "path"
        ("/proc/" +:+ itoa pid +:+ "/exe could not be read: " +:+ errText e)))
        ("path: " +:+ errText e))
  | Ok (link, true) =>
      let why := "the peer's executable has been unlinked since it started, so this path no longer refers to the file it is running" in
      mret (note (set_Path p (attr "path" link ProofPID why)) ("path: " +:+ why))
  | Ok (link, false) =>
      mret (set_Path p (attr "path" link derived
        (derivedWhy +:+ "; a path is a name, not an identity - see CONTRACT.md")))
  end.

(** Step 8: the sandbox application id. *)
Definition resolvePackage (pid : Z) (derived : ProofLevel) (derivedWhy : string) (p : Peer) : M Peer :=
  '(name, why) ← sandboxPackage K pid;
  if String.eqb name "" then mret (set_Package p (unknown "package" why))
  else mret (note (set_Package p (attr "package" name derived
         (why +:+ "; " +:+ derivedWhy +:+ "; " +:+ whyPackageAdvisory)))
         ("package: " +:+ whyPackageAdvisory)).

(** Steps 6 to 9, once the pin is decided; [pidfd] is the descriptor a bound peer
    is confirmed against at the end. *)
Definition resolve (pidfd pid : Z) (connected : Time) (pin : bool * bool * string) (p : Peer) : M Peer :=
  let '(bound, readable, derivedWhy) := pin in
  let p := if bound then p else note p ("process: " +:+ derivedWhy) in
  started ← processStartTime K pid;
  let start := match started with Ok t => t | Err _ => zeroTime end in
  let late := is_ok started && negb bound && After start (TimeAdd connected startTimeSlop) in
  if late then
    let reused := "pid " +:+ itoa pid +:+ " now belongs to a process that started at "
      +:+ rfc3339Nano start +:+ ", after this connection existed at "
      +:+ rfc3339Nano connected +:+ "; it is not the peer" in
    let p := set_Process p (attr "process" (mkProcess pid start true 0) ProofKernel reused) in
    let p := note p ("process: " +:+ reused) in
    let p := set_Path p (unknown "path" reused) in
    mret (set_Package p (unknown "package" reused))
  else
    let processWhy := if bound then whyPidKernel else whyPidKernel +:+ "; " +:+ derivedWhy in
    let p := set_Process p (attr "process" (mkProcess pid start false 0) ProofKernel processWhy) in
    if negb readable then
      let p := set_Path p (unknown "path" derivedWhy) in
      mret (set_Package p (unknown "package" derivedWhy))
    else
      let derived := if bound then ProofBound else ProofPID in
      p ← resolvePath pid derived derivedWhy p;
      p ← resolvePackage pid derived derivedWhy p;
      let p := set_Code p (unknown "code" whyNoCode) in
      if bound then
        l ← pidfdAlive K pidfd pid;
        match l with
        | Ok false => mret (note p "process: the peer exited while it was being identified; what was read before that is still about the right process")
        | _ => mret p
        end
      else mret p.

(** [ofHandle]. The deferred close of the pidfd runs last. *)
Definition ofHandle (fd : Z) (opts : option Options) : M (result Peer) :=
  connected ← connectedAtM opts;
  now ← timeNow K;
  let p := blankPeer now in
  refused ← requireAcceptedUnixSocket fd;
  match refused with
  | Some e => mret (Err e)
  | None =>
      u ← ask K (λ k, k_peercred k fd);
      match u with
      | Err e => mret (Err (Wrap ("SO_PEERCRED: " +:+ errText e) [Sentinel ErrUnsupportedConn]))
      | Ok uc =>
          if cr_pid uc =? 0
          then mret (Err (Wrap "SO_PEERCRED reports pid 0: the socket is not connected, or the peer is in a pid namespace this process cannot see"
                            [Sentinel ErrUnsupportedConn]))
          else
            sec ← ask K (λ k, k_peersec k fd);
            let p := set_User p (principal uc sec) in
            let pid := cr_pid uc in
            g ← getPeerPidfd K fd;
            match g with
            | Ok pidfd =>
                live ← pidfdAlive K pidfd pid;
                q ← resolve pidfd pid connected (pinned live) p;
                _ ← close K pidfd;
                mret (Ok q)
            | Err e =>
                q ← resolve (-1) pid connected
                      (false, true, whyNoPidfd +:+ " (SO_PEERPIDFD: " +:+ errText e +:+ ")") p;
                mret (Ok q)
            end
      end
  end.

(** ** What the reads establish *)

Lemma quiet_requireAccepted fd : quiet (requireAcceptedUnixSocket fd).
Proof. unfold requireAcceptedUnixSocket, getsockoptInt. quiet. Qed.

Lemma quiet_connectedAt o : quiet (connectedAtM o).
Proof. unfold connectedAtM, timeNow. quiet. Qed.

Hint Resolve quiet_requireAccepted quiet_connectedAt : quiet.

Lemma quiet_pidfdSupport : quiet pidfdSupport.
Proof.
  apply quiet_once; [done|done|]. apply quiet_wp. intros s.
  apply wp_bind, wp_socketpair; [intros; apply wp_ret; rewrite H; auto with lia|].
  intros a b s1 Ht1 Hf1. apply wp_bind, wp_getPeerPidfd.
  - intros e s2 Ht2 Hf2 _. apply wp_bind, wp_close. intros _ s3 Ht3 Hf3.
    apply wp_bind, wp_close. intros _ s4 Ht4 Hf4. apply wp_ret. split; [lia|].
    by rewrite Hf4, Hf3, Hf2, Hf1, remove_first_second, remove_first_head.
  - intros q s2 Ht2 Hf2 _. apply wp_bind, wp_close. intros _ s3 Ht3 Hf3.
    apply wp_bind, wp_close. intros _ s4 Ht4 Hf4.
    apply wp_bind, wp_close. intros _ s5 Ht5 Hf5. apply wp_ret. split; [lia|].
    by rewrite Hf5, Hf4, Hf3, Hf2, Hf1, remove_first_head, remove_first_second, remove_first_head.
Qed.

Lemma quiet_lsmSupport : quiet lsmSupport.
Proof.
  apply quiet_once; [done|done|]. apply quiet_wp. intros s.
  apply wp_bind, wp_socketpair; [intros; apply wp_ret; rewrite H; auto with lia|].
  intros a b s1 Ht1 Hf1. apply wp_bind, wp_ask. intros s2 Ht2 Hf2.
  apply wp_bind, wp_close. intros _ s3 Ht3 Hf3. apply wp_bind, wp_close. intros _ s4 Ht4 Hf4.
  assert ((tick s <= tick s4)%nat /\ fds s4 = fds s).
  { split; [lia|]. by rewrite Hf4, Hf3, Hf2, Hf1, remove_first_second, remove_first_head. }
  repeat case_goal; by apply wp_ret.
Qed.

(** What an attribute read from the image link is worth: it is unknown, or the
    link was read at an instant of the interval and named it, unmarked at the
    level [derived] and marked deleted at [ProofPID]. *)
Definition path_read (pid : Z) (derived : ProofLevel) (lo hi : nat) (a : Attr string) : Prop :=
  attr_proof a = ProofNone \/
  ∃ t link, (lo <= t < hi)%nat /\ k_readlink (K t) (procPath pid +:+ "/exe") = Ok link /\
    ((CutSuffix link " (deleted)" = None /\ attr_value a = link /\ attr_proof a = derived) \/
     (CutSuffix link " (deleted)" = Some (attr_value a) /\ attr_proof a = ProofPID)).

Lemma resolvePath_spec pid derived why p s :
  wp (resolvePath pid derived why p)
    (λ q s', (tick s <= tick s')%nat /\ fds s' = fds s /\
       PUser q = PUser p /\ PProcess q = PProcess p /\ PCode q = PCode p /\
       path_read pid derived (tick s) (tick s') (PPath q)) s.
Proof.
  unfold resolvePath, processExe, readlink.
  apply wp_bind, wp_bind, wp_ask. intros s' Ht Hf. case_goal.
  - case_goal; apply wp_ret, wp_ret; cbn; (split_and!; [lia|done..|]);
      right; exists (tick s), a; rewrite E; (split; [lia|]); auto.
  - do 2 apply wp_ret. cbn. split_and!; [lia|done..|]. by left.
Qed.

Lemma resolvePackage_spec pid derived why p s :
  wp (resolvePackage pid derived why p)
    (λ q s', (tick s <= tick s')%nat /\ fds s' = fds s /\
       PUser q = PUser p /\ PProcess q = PProcess p /\ PCode q = PCode p /\
       PPath q = PPath p /\
       (attr_proof (PPackage q) = ProofNone \/
        attr_proof (PPackage q) = derived /\ attr_value (PPackage q) ≠ "")) s.
Proof.
  unfold resolvePackage. apply wp_bind, wp_quiet; [apply quiet_sandboxPackage|].
  intros [name w] s' Ht Hf. case_goal; apply wp_ret; to_prop; cbn; split_and!; auto.
Qed.

(** What [resolve] makes of a pin. *)
Definition resolved (pid : Z) (bound readable : bool) (lo hi : nat) (p q : Peer) : Prop :=
  PUser q = PUser p /\
  (∃ start late why, PProcess q = attr "process" (mkProcess pid start late 0) ProofKernel why /\
     (late = true → bound = false /\ attr_proof (PPath q) = ProofNone /\
        attr_proof (PPackage q) = ProofNone)) /\
  attr_proof (PCode q) = ProofNone /\
  (readable = false → attr_proof (PPath q) = ProofNone /\ attr_proof (PPackage q) = ProofNone) /\
  path_read pid (if bound then ProofBound else ProofPID) lo hi (PPath q) /\
  (attr_proof (PPackage q) = ProofNone \/
   attr_proof (PPackage q) = (if bound then ProofBound else ProofPID)).

Lemma resolve_spec pidfd pid connected bound readable why p s :
  attr_proof (PCode p) = ProofNone →
  wp (resolve pidfd pid connected (bound, readable, why) p)
    (λ q s', (tick s <= tick s')%nat /\ fds s' = fds s /\
       resolved pid bound readable (tick s) (tick s') p q) s.
Proof.
  intros Hc. unfold resolve. apply wp_bind, wp_quiet; [apply quiet_processStartTime|].
  intros started s1 Ht1 Hf1. destruct (is_ok started && _ && _) eqn:Hlate.
  { to_prop. apply wp_ret. split_and!; [done..|]. destruct bound; [done|].
    split_and!; cbn; auto; [by eexists _, _, _|by left]. }
  destruct readable.
  2: { apply wp_ret. split_and!; [done..|].
       split_and!; destruct bound; cbn; auto; by (left || eexists _, _, _). }
  cbn [negb]. eapply wp_bind, wp_mono; [apply resolvePath_spec|].
  intros q1 s2 (Ht2 & Hf2 & Hu2 & Hp2 & Hc2 & Hpath).
  eapply wp_bind, wp_mono; [apply resolvePackage_spec|].
  intros q2 s3 (Ht3 & Hf3 & Hu3 & Hp3 & Hc3 & Hpa3 & Hpkg).
  assert (resolved pid bound true (tick s) (tick s3) p (set_Code q2 (unknown "code" whyNoCode))) as Hr.
  { unfold resolved. split_and!; cbn; try done.
    - rewrite Hu3, Hu2. by destruct bound.
    - rewrite Hp3, Hp2. by eexists _, _, _.
    - rewrite Hpa3. destruct Hpath as [|(t & link & ? & ?)]; [by left|].
      right. exists t, link. split; [lia|done].
    - naive_solver. }
  destruct bound.
  - apply wp_bind, wp_quiet; [apply quiet_pidfdAlive|]. intros l s4 Ht4 Hf4.
    assert (resolved pid true true (tick s) (tick s4) p (set_Code q2 (unknown "code" whyNoCode))) as Hr'.
    { destruct Hr as (? & ? & ? & ? & Hr & ?). split_and!; try done.
      destruct Hr as [|(t & link & ? & ?)]; [by left|]. right. exists t, link. split; [lia|done]. }
    assert ((tick s <= tick s4)%nat /\ fds s4 = fds s) as [??] by (split; [lia|congruence]).
    repeat case_goal; by apply wp_ret.
  - apply wp_ret. split_and!; [lia|congruence|done].
Qed.

(** The attributes of [p] that are facts of the socket: the domain was
    [AF_UNIX], the user and the pid are those of one [SO_PEERCRED] answer, and a
    label is one the kernel gave. *)
Definition socket_facts (fd : Z) (lo hi : nat) (uc : Ucred) (p : Peer) : Prop :=
  (∃ t, (lo <= t < hi)%nat /\ k_getsockoptInt (K t) fd SO_DOMAIN = Ok AF_UNIX) /\
  cr_pid uc ≠ 0 /\
  attr_proof (PUser p) = ProofKernel /\
  (let u := attr_value (PUser p) in
   Kind u = "posix" /\ UID u = cr_uid uc /\ GID u = cr_gid uc /\
   (SecurityContext u = "" \/
    meaningfulLSMLabel (SecurityContext u) = true /\
    ∃ t, (lo <= t < hi)%nat /\ k_peersec (K t) fd = Ok (SecurityContext u))) /\
  attr_proof (PProcess p) = ProofKernel /\ PID (attr_value (PProcess p)) = cr_pid uc.

(** How the pid was pinned: a pidfd the kernel derived from the connection, whose
    record then named the pid of the credentials. *)
Definition pinned_at (fd pid : Z) (t0 t1 t2 : nat) : Prop :=
  ∃ pidfd, (t0 < t1 < t2)%nat /\ k_getsockoptInt (K t1) fd SO_PEERPIDFD = Ok pidfd /\
           pid_line K t2 pidfd pid.

Lemma requireAccepted_spec fd s :
  wp (requireAcceptedUnixSocket fd)
    (λ r s', (tick s < tick s')%nat /\ fds s' = fds s /\
       match r with
       | None => k_getsockoptInt (K (tick s)) fd SO_DOMAIN = Ok AF_UNIX
       | Some e => errors_is e ErrUnsupportedConn || errors_is e ErrNotServerEnd = true
       end) s.
Proof.
  unfold requireAcceptedUnixSocket, getsockoptInt. apply wp_bind, wp_ask. intros s1 Ht1 Hf1.
  case_goal; [case_goal; [apply wp_ret; split_and!; [lia|done..]|] |
              apply wp_ret; split_and!; [lia|done..]].
  to_prop. subst. apply wp_bind, wp_ask. intros s2 Ht2 Hf2.
  repeat case_goal; apply wp_ret; (split_and!; [lia|congruence|done]).
Qed.

Lemma principal_spec uc sec :
  let a := principal uc sec in
  attr_proof a = ProofKernel /\ Kind (attr_value a) = "posix" /\
  UID (attr_value a) = cr_uid uc /\ GID (attr_value a) = cr_gid uc /\
  (SecurityContext (attr_value a) = "" \/
   meaningfulLSMLabel (SecurityContext (attr_value a)) = true /\
   sec = Ok (SecurityContext (attr_value a))).
Proof.
  unfold principal. destruct sec as [ctx|e]; [|by auto 10].
  destruct (meaningfulLSMLabel ctx) eqn:E; cbn; auto 10.
Qed.

(** Everything a peer that [ofHandle] returned rests on. *)
Definition evidence (fd : Z) (lo hi : nat) (p : Peer) : Prop :=
  ∃ t0 uc bound readable r,
    (lo <= t0 < r)%nat /\ (r <= hi)%nat /\ k_peercred (K t0) fd = Ok uc /\
    socket_facts fd lo hi uc p /\
    resolved (cr_pid uc) bound readable r hi p p /\
    if bound then ∃ t1 t2, (t2 < r)%nat /\ pinned_at fd (cr_pid uc) t0 t1 t2
    else readable = true → ∃ t1 e, (t0 < t1 < r)%nat /\ k_getsockoptInt (K t1) fd SO_PEERPIDFD = Err e.

Lemma resolved_socket fd lo hi r hi' uc bound readable (p q : Peer) :
  (∃ t, (lo <= t < hi)%nat /\ k_getsockoptInt (K t) fd SO_DOMAIN = Ok AF_UNIX) →
  (∃ t sec, (lo <= t < hi)%nat /\ k_peersec (K t) fd = sec /\ PUser p = principal uc sec) →
  cr_pid uc ≠ 0 → resolved (cr_pid uc) bound readable r hi' p q → socket_facts fd lo hi uc q.
Proof.
  intros Hd (t & sec & Ht & Hs & Hp) Hpid (Hu & (st & lt & w & Hpr & _) & _).
  unfold socket_facts. rewrite Hu, Hp, Hpr. destruct (principal_spec uc sec) as (? & ? & ? & ? & Hc).
  split_and!; try done. destruct Hc as [|[? Hsec]]; [by left|]. right. split; [done|].
  exists t. split; [done|]. by transitivity sec.
Qed.

Lemma resolved_self pid bound readable r hi p q :
  resolved pid bound readable r hi p q → resolved pid bound readable r hi q q.
Proof. by intros (_ & ?). Qed.

Lemma resolved_hi pid bound readable r hi hi' p q : (hi <= hi')%nat →
  resolved pid bound readable r hi p q → resolved pid bound readable r hi' p q.
Proof.
  intros Hle (? & ? & ? & ? & Hp & ?). split_and!; try done.
  destruct Hp as [|(t & l & ? & ?)]; [by left|]. right. exists t, l. split; [lia|done].
Qed.

Lemma ofHandle_spec fd opts s :
  wp (ofHandle fd opts)
    (λ r s', (tick s <= tick s')%nat /\ fds s' = fds s /\
       match r with
       | Ok p => evidence fd (tick s) (tick s') p
       | Err e => errors_is e ErrUnsupportedConn || errors_is e ErrNotServerEnd = true
       end) s.
Proof.
  unfold ofHandle. apply wp_bind, wp_quiet; [apply quiet_connectedAt|]. intros connected s1 Ht1 Hf1.
  apply wp_bind, wp_ask. intros s2 Ht2 Hf2.
  eapply wp_bind, wp_mono; [apply requireAccepted_spec|]. intros [e|] s3 (Ht3 & Hf3 & Hreq).
  { apply wp_ret. split_and!; [lia|congruence|done]. }
  apply wp_bind, wp_ask. intros s4 Ht4 Hf4.
  destruct (k_peercred (K (tick s3)) fd) as [uc|e] eqn:Huc.
  2: { apply wp_ret. split_and!; [lia|congruence|done]. }
  destruct (cr_pid uc =? 0) eqn:Hpid; to_prop.
  { apply wp_ret. split_and!; [lia|congruence|done]. }
  apply wp_bind, wp_ask. intros s5 Ht5 Hf5.
  set (p := set_User _ _).
  assert (∀ q bound readable r hi, (tick s4 < hi)%nat →
            resolved (cr_pid uc) bound readable r hi p q → socket_facts fd (tick s) hi uc q) as Hsock.
  { intros q bound readable r hi Hle Hq. eapply resolved_socket; [| |done|exact Hq].
    - exists (tick s2). split; [lia|done].
    - exists (tick s4), (k_peersec (K (tick s4)) fd). split; [lia|done]. }
  apply wp_bind, wp_getPeerPidfd; [intros e s6 Ht6 Hf6 Hg | intros pidfd s6 Ht6 Hf6 Hg].
  - eapply wp_bind, wp_mono; [by apply resolve_spec|]. intros q s7 (Ht7 & Hf7 & Hq).
    apply wp_ret. split_and!; [lia|congruence|]. exists (tick s3), uc, false, true, (tick s6).
    do 5 (split; [first [lia | done | by (eapply Hsock; [lia|]) | by eapply resolved_self]|]).
    intros _. exists (tick s5), e. split; [lia|done].
  - eapply wp_bind, wp_mono; [apply pidfdAlive_spec|]. intros live s7 (Ht7 & Hf7 & Hlive).
    destruct (pinned live) as [[bound readable] why] eqn:Hpin.
    assert (bound = true → live = Ok true) as Hb.
    { destruct live as [[]|]; naive_solver. }
    assert (bound = false → readable = false) as Hnb.
    { destruct live as [[]|]; naive_solver. }
    eapply wp_bind, wp_mono; [by apply resolve_spec|]. intros q s8 (Ht8 & Hf8 & Hq).
    apply wp_bind, wp_close. intros _ s9 Ht9 Hf9. apply wp_ret.
    split_and!; [lia| |].
    { by rewrite Hf9, Hf8, Hf7, Hf6, remove_first_head, Hf5, Hf4, Hf3, Hf2, Hf1. }
    exists (tick s3), uc, bound, readable, (tick s7).
    assert (resolved (cr_pid uc) bound readable (tick s7) (tick s9) p q) as Hq'
      by (eapply resolved_hi, Hq; lia).
    do 5 (split; [first [lia | done | by (eapply Hsock; [lia|]) | by eapply resolved_self]|]).
    destruct bound; [|intros; exfalso; rewrite Hnb in *; done].
    exists (tick s5), (tick s6). split; [lia|]. exists pidfd. split_and!; [lia..|done|].
    by apply Hlive, Hb.
Qed.

(** ** Properties *)

(** What [ofHandle] reports of a connection comes from the kernel's record of
    that connection. Whatever the system does meanwhile, a peer is returned only
    for an [AF_UNIX] socket; its user and pid are those of one [SO_PEERCRED]
    answer, at [ProofKernel]; a label is one [SO_PEERSEC] gave and not one of the
    markers for no label; code is never proven; a refusal is [ErrUnsupportedConn]
    or [ErrNotServerEnd]; and every descriptor opened on the way is closed. *)
Theorem linux_peer_evidence fd opts s :
  let '(r, s') := ofHandle fd opts s in
  fds s' = fds s /\
  match r with
  | Ok p => attr_proof (PCode p) = ProofNone /\
            ∃ t uc, (tick s <= t < tick s')%nat /\ k_peercred (K t) fd = Ok uc /\
                    socket_facts fd (tick s) (tick s') uc p
  | Err e => errors_is e ErrUnsupportedConn || errors_is e ErrNotServerEnd = true
  end.
Proof.
  pose proof (ofHandle_spec fd opts s) as H. unfold wp in H.
  destruct (ofHandle fd opts s) as [r s']. cbn in H. destruct H as (Ht & Hf & Hr).
  split; [done|]. destruct r as [p|e]; [|done].
  destruct Hr as (t0 & uc & bound & readable & r & ? & ? & Hu & Hs & Hres & _).
  destruct Hres as (_ & _ & Hc & _). split; [done|].
  exists t0, uc. split; [lia|done].
Qed.

(** C6: a path reported at [ProofBound] was read through a pinned pid. First the
    credentials were read, then the kernel gave a pidfd for the connection, then
    that descriptor's own record named the pid of the credentials, and only after
    that was [/proc/<pid>/exe] read, naming the path and not marked deleted; the
    descriptor was still open then, since it is closed last. *)
Theorem linux_bound_path fd opts s p s' :
  ofHandle fd opts s = (Ok p, s') → attr_proof (PPath p) = ProofBound →
  ∃ t0 t1 t2 t3 uc,
    (tick s <= t0)%nat /\ (t2 < t3 < tick s')%nat /\
    k_peercred (K t0) fd = Ok uc /\ PID (attr_value (PProcess p)) = cr_pid uc /\
    pinned_at fd (cr_pid uc) t0 t1 t2 /\
    k_readlink (K t3) (procPath (cr_pid uc) +:+ "/exe") = Ok (attr_value (PPath p)) /\
    CutSuffix (attr_value (PPath p)) " (deleted)" = None.
Proof.
  intros Hof Hb. pose proof (ofHandle_spec fd opts s) as H. unfold wp in H. rewrite Hof in H.
  destruct H as (_ & _ & t0 & uc & bound & readable & r & Hr & Hr' & Hu & Hs & Hres & Hpin).
  destruct Hres as (_ & _ & _ & _ & Hpath & _).
  destruct Hpath as [Hn|(t3 & link & Ht3 & Hl & [(Hd & Hv & Hp)|(Hd & Hp)])]; [by rewrite Hn in Hb| |].
  - destruct bound; [|by rewrite Hp in Hb]. destruct Hpin as (t1 & t2 & Ht2 & Hpin).
    exists t0, t1, t2, t3, uc. rewrite Hv. destruct Hs as (_ & _ & _ & _ & _ & Hpid).
    destruct_and!. split_and!; try lia; done.
  - by rewrite Hp in Hb.
Qed.

(** A process number the clock shows to be reused, or a peer that has exited,
    yields no path and no package, and a marker for an unlinked image never
    reaches a bound path: what is known of the image is unknown, [ProofPID] or
    [ProofBound], and nothing is ever at [ProofClaimed]. *)
Theorem linux_recycled_reports_nothing fd opts s p s' :
  ofHandle fd opts s = (Ok p, s') →
  (Recycled (attr_value (PProcess p)) = true →
     attr_proof (PPath p) = ProofNone /\ attr_proof (PPackage p) = ProofNone) /\
  ∀ k, proof_of p k = ProofNone \/ ProofPID <= proof_of p k.
Proof.
  intros Hof. pose proof (ofHandle_spec fd opts s) as H. unfold wp in H. rewrite Hof in H.
  destruct H as (_ & _ & t0 & uc & bound & readable & r & _ & _ & _ & Hs & Hres & _).
  destruct Hs as (_ & _ & HuK & _ & HpK & _).
  destruct Hres as (_ & (st & lt & w & Hp & Hlt) & Hc & _ & Hpath & Hpkg). split.
  - rewrite Hp. cbn. intros ->. by destruct Hlt as (_ & ? & ?).
  - intros []; cbn; [right; rewrite HuK|right; rewrite HpK| | |by left]; try ladder.
    + destruct Hpath as [|(? & ? & _ & _ & [(_ & _ & ->)|(_ & ->)])]; [by left| |right; ladder].
      destruct bound; right; ladder.
    + destruct Hpkg as [|Hk]; [by left|right]. rewrite Hk. destruct bound; ladder.
Qed.

(** The ceiling's rungs follow the kept probe. *)
Lemma ceiling_spec s :
  wp ceiling (λ l s', (tick s <= tick s')%nat /\ fds s' = fds s /\ Best l = linuxBest (Bindable l)) s.
Proof.
  unfold ceiling. apply wp_bind, wp_quiet; [apply quiet_pidfdSupport|]. intros [b w] s1 Ht1 Hf1.
  apply wp_bind, wp_quiet; [apply quiet_lsmSupport|]. intros [b2 w2] s2 Ht2 Hf2.
  apply wp_ret. split_and!; [lia|congruence|done].
Qed.

(** [CanEver] is sound on Linux. A policy the ceiling refuses is met by no
    peer the machine ever reports afterwards, provided a machine on which the
    probe found no [SO_PEERPIDFD] does not answer that option later. *)
Theorem linux_ceiling_sound s l s1 s2 fd opts p s' n e :
  ceiling s = (l, s1) → ofHandle fd opts s2 = (Ok p, s') →
  (Bindable l = false → ∀ t fd', is_ok (k_getsockoptInt (K t) fd' SO_PEERPIDFD) = false) →
  LimitsCanEver l n = Some e →
  within p (Best l) /\ CheckPeer p n ≠ None.
Proof.
  intros Hl Hof Hk He.
  assert (within p (Best l)) as Hw.
  { pose proof (ceiling_spec s) as Hc. unfold wp in Hc. rewrite Hl in Hc.
    destruct Hc as (_ & _ & Hbest). cbn in Hbest. rewrite Hbest.
    pose proof (ofHandle_spec fd opts s2) as H. unfold wp in H. rewrite Hof in H.
    destruct H as (_ & _ & t0 & uc & bound & readable & r & _ & _ & _ & Hs & Hres & Hpin).
    assert (bound = true → Bindable l = true) as Hbl.
    { intros ->. destruct Hpin as (t1 & t2 & _ & pidfd & _ & Hg & _).
      destruct (Bindable l); [done|]. specialize (Hk eq_refl t1 fd). by rewrite Hg in Hk. }
    destruct Hs as (_ & _ & HuK & _ & HpK & _).
    destruct Hres as (_ & _ & Hc & _ & Hpath & Hpkg).
    intros []; cbn.
    - rewrite HuK. done.
    - rewrite HpK. done.
    - destruct Hpath as [->|(? & ? & _ & _ & [(_ & _ & ->)|(_ & ->)])];
        destruct bound; try rewrite Hbl by done; destruct (Bindable l); ladder.
    - destruct Hpkg as [->| ->]; destruct bound; try rewrite Hbl by done; destruct (Bindable l); ladder.
    - rewrite Hc. done. }
  split; [done|]. intros Hc.
  assert (LimitsCanEver l n = None) as Hn; [|congruence].
  eapply CanEver_exact_l; [done| |done].
  pose proof (ceiling_spec s) as Hb. unfold wp in Hb. rewrite Hl in Hb.
  destruct Hb as (_ & _ & Hbest). cbn in Hbest. rewrite Hbest.
  intros []; cbn; destruct (Bindable l); ladder.
Qed.

End Linux.

(** ** A machine *)

(** A machine with one accepted connection, descriptor 3, whose peer is process
    4242 running [/usr/bin/app]; [pidfd] is what [SO_PEERPIDFD] answers. *)
Definition exampleKernel (pidfd : result Z) : Kernel :=
  mkKernel (1700000000 * second)
    (λ _ o, match o with SO_DOMAIN => Ok AF_UNIX | SO_ACCEPTCONN => Ok 0 | SO_PEERPIDFD => pidfd end)
    (λ _, Ok (mkUcred 4242 1000 1000)) (λ _, Ok "unconfined") (Ok (5, 6))
    (λ path, if String.eqb path "/proc/self/fdinfo/7"
             then Ok ("pos:" +:+ of_char "009" +:+ "0" +:+ of_char newline +:+ "Pid:" +:+ of_char "009"
                      +:+ "4242" +:+ of_char newline)
             else Err (OSErr ENOENT))
    (λ path, if String.eqb path "/proc/4242/exe" then Ok "/usr/bin/app" else Err (OSErr ENOENT))
    (λ _, Err (OSErr ENOENT)) (λ _, Err (OSErr ENOENT)) (λ _, Err (OSErr ENOENT)) (λ _, None)
    (Err (OSErr ENOENT)) 0.

Definition noText (_ : err) : string := "".

Abbreviation exampleOf pidfd :=
  (ofHandle (λ _, exampleKernel pidfd) noText quoted itoa 3 None fresh).

(** The example machine pins its peer. *)
Lemma linux_bound_path_witness :
  ∃ t0 t1 t2, pinned_at (λ _, exampleKernel (Ok 7)) 3 4242 t0 t1 t2.
Proof.
  destruct (exampleOf (Ok 7)) as [[p|e] s'] eqn:E; [|by vm_compute in E].
  destruct (linux_bound_path (λ _, exampleKernel (Ok 7)) noText quoted itoa 3 None fresh p s' E)
    as (t0 & t1 & t2 & _ & uc & _ & _ & Hu & _ & Hp & _).
  - vm_compute in E. injection E as <- <-. reflexivity.
  - cbn in Hu. injection Hu as <-. exists t0, t1, t2. exact Hp.
Defined.

(** Without the option the path of the same peer stays at [ProofPID]. *)
Lemma linux_recycled_reports_nothing_witness :
  ∃ p s', exampleOf (Err (OSErr (EOTHER 92))) = (Ok p, s') /\ attr_proof (PPath p) = ProofPID /\
          ∀ k, proof_of p k = ProofNone \/ ProofPID <= proof_of p k.
Proof.
  eexists _, _. split; [vm_compute; reflexivity|]. split; [reflexivity|].
  refine (proj2 (linux_recycled_reports_nothing (λ _, exampleKernel (Err (OSErr (EOTHER 92)))) noText
            quoted itoa 3 None fresh _ _ _)).
  vm_compute. reflexivity.
Defined.

(** Without the option, a policy that asks for a bound path is refused by the
    ceiling and met by no peer. *)
Lemma linux_ceiling_sound_witness :
  ∃ p s', exampleOf (Err (OSErr (EOTHER 92))) = (Ok p, s') /\
          CheckPeer p (mkNeed ProofKernel ProofNone ProofBound ProofNone ProofNone) ≠ None.
Proof.
  eexists _, _. split; [vm_compute; reflexivity|].
  refine (proj2 (linux_ceiling_sound (λ _, exampleKernel (Err (OSErr (EOTHER 92)))) noText
            quoted itoa fresh _ _ fresh 3 None _ _ _ _ _ _ _ _)).
  - vm_compute. reflexivity.
  - vm_compute. reflexivity.
  - intros _ t fd. reflexivity.
  - vm_compute. reflexivity.
Defined.
