(* ===== verification/BindLinux.v ===== *)
(** bind_linux.go, server_linux.go and unixserver_linux.go: the Linux binder,
    which holds the pidfd the kernel derived from the connection and refuses a
    peer whose image changed. *)

From S2P Require Import Prelude GoStrings GoError ProofLadder Peer Binding LinuxOS ProcfsLinux IdentityLinux.

Record linuxBinding := mkLinuxBinding { lb_pidfd : Z; lb_pid : Z; lb_exe : string }.

Section BindLinux.
Context (K : nat → Kernel).
Context (errText : err → string) (Quote : string → string) (rfc3339Nano : Time → string).

(** [linuxBinding.release] gives back the object it leaves behind. *)
Definition lb_release (b : linuxBinding) : M (option err * linuxBinding) :=
  if lb_pidfd b <? 0 then mret (None, b)
  else e ← close K (lb_pidfd b); mret (e, mkLinuxBinding (-1) (lb_pid b) (lb_exe b)).

(** [linuxBinding.alive]. *)
Definition lb_alive (b : linuxBinding) : M (result bool) := pidfdAlive K (lb_pidfd b) (lb_pid b).

(** [linuxBinding.recheck]. *)
Definition lb_recheck (b : linuxBinding) : M (option err) :=
  l ← lb_alive b;
  match l with
  | Ok true =>
      x ← processExe K (lb_pid b);
      match x with
      | Err _ => mret None
      | Ok (exe, _) =>
          if negb (String.eqb exe (lb_exe b))
          then mret (Some (Wrap ("it was " +:+ Quote (lb_exe b) +:+ " when this connection was accepted and is "
                                 +:+ Quote exe +:+ " now") [Sentinel ErrPeerMoved]))
          else mret None
      end
  | _ => mret None
  end.

(** [bindHandle]. *)
Definition bindHandle (fd : Z) (opts : option Options) : M (result (linuxBinding * Peer)) :=
  refused ← requireAcceptedUnixSocket K errText fd;
  match refused with
  | Some e => mret (Err e)
  | None =>
      '(ok, why) ← pidfdSupport K errText;
      if negb (ok : bool) then mret (Err (Wrap why [Sentinel ErrNoBinding]))
      else
        g ← getPeerPidfd K fd;
        match g with
        | Err e => mret (Err (Wrap ("SO_PEERPIDFD: " +:+ errText e) [Sentinel ErrNoBinding]))
        | Ok pidfd =>
            let b := mkLinuxBinding pidfd (-1) "" in
            u ← ask K (λ k, k_peercred k fd);
            match u with
            | Err e =>
                _ ← lb_release b;
                mret (Err (Wrap ("SO_PEERCRED: " +:+ errText e) [Sentinel ErrUnsupportedConn]))
            | Ok uc =>
                let b := mkLinuxBinding pidfd (cr_pid uc) "" in
                live ← pidfdAlive K pidfd (lb_pid b);
                match live with
                | Err e =>
                    _ ← lb_release b;
                    mret (Err (Wrap ("the pidfd for this connection could not be checked: " +:+ errText e)
                                 [Sentinel ErrNoBinding]))
                | Ok false =>
                    _ ← lb_release b;
                    mret (Err (Sentinel ErrPeerGone))
                | Ok true =>
                    x ← processExe K (lb_pid b);
                    match x with
                    | Err e =>
                        _ ← lb_release b;
                        mret (Err (Wrap ("/proc/" +:+ itoa (lb_pid b) +:+ "/exe: " +:+ errText e)
                                     [Sentinel ErrPeerGone]))
                    | Ok (exe, _) =>
                        let b := mkLinuxBinding pidfd (cr_pid uc) exe in
                        p ← ofHandle K errText Quote rfc3339Nano fd opts;
                        match p with
                        | Err e => _ ← lb_release b; mret (Err e)
                        | Ok peer => mret (Ok (b, peer))
                        end
                    end
                end
            end
        end
  end.

(** The object and the machine it lives on: the store of a Linux binding. *)
Definition LinuxStore : Type := linuxBinding * LState.

Definition linuxBinder : binder LinuxStore :=
  mkBinder
    (λ '(b, s), let '(e, s') := lb_recheck b s in (e, (b, s')))
    (λ '(b, s), let '(r, s') := lb_alive b s in
       (match r with Ok l => (l, None) | Err e => (false, Some e) end, (b, s')))
    (λ '(b, s), let '((e, b'), s') := lb_release b s in (e, (b', s'))).

(** The Linux [bindHandle], as [Bind] calls it; server_linux.go and
    unixserver_linux.go give the same function to the two dialing entries. *)
Definition linuxBindHandle (fd : Z) (opts : option Options) (s : LState)
    : (binder LinuxStore * Peer * LinuxStore) + (err * LState) :=
  match bindHandle fd opts s with
  | (Ok (b, p), s') => inl (linuxBinder, p, (b, s'))
  | (Err e, s') => inr (e, s')
  end.

Definition bindServerHandle := linuxBindHandle.
Definition bindUnixServer := linuxBindHandle.

Definition linuxNow (s : LinuxStore) : Time * LinuxStore :=
  let '(t, s') := timeNow K s.2 in (t, (s.1, s')).

(** ** What the binder does *)

(** [release] of a held descriptor closes it and forgets it. *)
Lemma wp_release b (Q : option err * linuxBinding → LState → Prop) s :
  0 <= lb_pidfd b →
  (∀ e s', tick s' = S (tick s) → fds s' = remove_first (lb_pidfd b) (fds s) →
     Q (e, mkLinuxBinding (-1) (lb_pid b) (lb_exe b)) s') →
  wp (lb_release b) Q s.
Proof.
  intros Hb H. unfold lb_release. destruct (lb_pidfd b <? 0) eqn:E; to_prop; [lia|].
  apply wp_bind, wp_close. intros e s' Ht Hf. apply wp_ret. by apply H.
Qed.

(** What the image link says now, the deletion marker aside. *)
Definition image (t : nat) (pid : Z) (exe : string) : Prop :=
  ∃ link, k_readlink (K t) (procPath pid +:+ "/exe") = Ok link /\ TrimSuffix link " (deleted)" = exe.

Lemma image_functional t pid e1 e2 : image t pid e1 → image t pid e2 → e1 = e2.
Proof. intros (l1 & H1 & <-) (l2 & H2 & <-). congruence. Qed.

Lemma wp_processExe pid (Q : result (string * bool) → LState → Prop) s :
  (∀ e s', tick s' = S (tick s) → fds s' = fds s → (∀ exe, ¬ image (tick s) pid exe) → Q (Err e) s') →
  (∀ exe d s', tick s' = S (tick s) → fds s' = fds s → image (tick s) pid exe → Q (Ok (exe, d)) s') →
  wp (processExe K pid) Q s.
Proof.
  intros He Hx. unfold processExe, readlink. apply wp_bind, wp_ask. intros s' Ht Hf. case_goal.
  - case_goal; apply wp_ret, Hx; try done; exists a; unfold TrimSuffix; by rewrite E0.
  - apply wp_ret, He; try done. intros exe (link & Hl & _). congruence.
Qed.

(** The live process now runs something else than was captured. *)
Definition moved (t : nat) (b : linuxBinding) : Prop :=
  pid_line K t (lb_pidfd b) (lb_pid b) /\ ∃ exe, image (S t) (lb_pid b) exe /\ exe ≠ lb_exe b.

Lemma lb_recheck_spec b s :
  wp (lb_recheck b)
    (λ r s', (tick s <= tick s')%nat /\ fds s' = fds s /\
       match r with
       | Some e => moved (tick s) b /\ errors_is e ErrPeerMoved = true
       | None => ¬ moved (tick s) b
       end) s.
Proof.
  unfold lb_recheck, lb_alive.
  eapply wp_bind, wp_mono; [apply pidfdAlive_spec|]. intros l s1 (Ht1 & Hf1 & Hl).
  destruct l as [[]|e].
  2, 3: apply wp_ret; split_and!; auto with lia; intros [Hp _]; by apply Hl in Hp.
  apply wp_bind, wp_processExe.
  - intros e s2 Ht2 Hf2 Hi. apply wp_ret. rewrite Ht1 in Hi. split_and!; [lia|congruence|].
    intros (_ & exe & Hx & _). by apply (Hi exe).
  - intros exe d s2 Ht2 Hf2 Hi. rewrite Ht1 in Hi. case_goal; to_prop; apply wp_ret.
    + split; [lia|]. split; [congruence|]. split; [|done]. split; [by apply Hl|by exists exe].
    + split_and!; [lia|congruence|]. intros (_ & exe' & Hx & Hne).
      apply Hne. rewrite <- E. by eapply image_functional.
Qed.

(** Descriptors are numbered from zero. *)
Definition pidfds_valid : Prop :=
  ∀ t fd p, k_getsockoptInt (K t) fd SO_PEERPIDFD = Ok p → 0 <= p.

Lemma bindHandle_spec fd opts s :
  pidfds_valid →
  wp (bindHandle fd opts)
    (λ r s', match r with
       | Err _ => fds s' = fds s
       | Ok (b, p) => 0 <= lb_pidfd b /\ fds s' = lb_pidfd b :: fds s /\
           ∃ t1 t2 lo, (t1 < t2 < lo)%nat /\
             k_getsockoptInt (K t1) fd SO_PEERPIDFD = Ok (lb_pidfd b) /\
             pid_line K t2 (lb_pidfd b) (lb_pid b) /\
             image (S t2) (lb_pid b) (lb_exe b) /\
             evidence K fd lo (tick s') p
       end) s.
Proof.
  intros Hv. unfold bindHandle.
  apply wp_bind, wp_quiet; [apply quiet_requireAccepted|]. intros [e|] s1 Ht1 Hf1; [by apply wp_ret|].
  apply wp_bind, wp_quiet; [apply quiet_pidfdSupport|]. intros [ok why] s2 Ht2 Hf2.
  case_goal; [by apply wp_ret; rewrite Hf2|].
  apply wp_bind, wp_getPeerPidfd; [intros e s3 _ Hf3 _; apply wp_ret; congruence|].
  intros pidfd s3 Ht3 Hf3 Hg. pose proof (Hv _ _ _ Hg) as Hpos.
  apply wp_bind, wp_ask. intros s4 Ht4 Hf4.
  assert (∀ (b : linuxBinding) e s', lb_pidfd b = pidfd → fds s' = pidfd :: fds s →
    wp (_ ← lb_release b; mret (Err e : result (linuxBinding * Peer)))
      (λ r s', match r with Err _ => fds s' = fds s | Ok _ => False end) s') as Hrel.
  { intros b e s' Hb Hs'. apply wp_bind, wp_release; [by rewrite Hb|].
    intros e' s'' _ Hf''. apply wp_ret. by rewrite Hf'', Hs', Hb, remove_first_head. }
  assert (fds s4 = pidfd :: fds s) as Hs4 by congruence.
  case_goal; [|eapply wp_mono; [by apply Hrel|]; by intros [] ?].
  eapply wp_bind, wp_mono; [apply pidfdAlive_spec|]. intros live s5 (Ht5 & Hf5 & Hlive).
  destruct live as [[]|e].
  2, 3: eapply wp_mono; [apply Hrel; [done|congruence]|]; by intros [] ?.
  apply wp_bind, wp_processExe.
  { intros e s6 Ht6 Hf6 _. eapply wp_mono; [apply Hrel; [done|congruence]|]; by intros [] ?. }
  intros exe d s6 Ht6 Hf6 Hi.
  eapply wp_bind, wp_mono; [apply ofHandle_spec|]. intros p s7 (Ht7 & Hf7 & Hp).
  destruct p as [p|e].
  2: { eapply wp_mono; [apply Hrel; [done|congruence]|]; by intros [] ?. }
  apply wp_ret. split; [done|]. split; [cbn; congruence|].
  exists (tick s2), (tick s4), (tick s6). split; [lia|]. cbn.
  rewrite Ht5 in Hi. split_and!; try done. by apply Hlive.
Qed.

(** ** Properties *)

(** The recheck of a Linux binding raises [ErrPeerMoved] exactly when the
    pidfd still names the live peer and its image link reads as something other
    than the image captured when it was bound. An exited peer, or a link that
    cannot be read, contradicts nothing; nothing is opened or closed. *)
Theorem linux_recheck_exact b s :
  let '(r, s') := lb_recheck b s in
  fds s' = fds s /\ (is_Some r <-> moved (tick s) b) /\
  ∀ e, r = Some e → errors_is e ErrPeerMoved = true.
Proof.
  pose proof (lb_recheck_spec b s) as H. unfold wp in H.
  destruct (lb_recheck b s) as [r s']. cbn in H. destruct H as (_ & Hf & Hr).
  split; [done|]. destruct r as [e|].
  - destruct Hr as [Hm He]. split; [by split; intros|]. naive_solver.
  - split; [|done]. split; [by intros []|done].
Qed.

(** A Linux binding owns exactly one descriptor. Every refusal of
    [bindHandle], on any path, leaves the descriptors as they were; a binding
    holds the pidfd of its connection, captured with the image it ran while that
    pid was pinned, together with a peer read under the same pin; and [release]
    gives the descriptor back, once. *)
Theorem linux_bind_owns_one_descriptor fd opts s :
  pidfds_valid →
  match bindHandle fd opts s with
  | (Err _, s') => fds s' = fds s
  | (Ok (b, p), s') =>
      fds s' = lb_pidfd b :: fds s /\
      (∃ t1 t2 lo, (t1 < t2 < lo)%nat /\
         k_getsockoptInt (K t1) fd SO_PEERPIDFD = Ok (lb_pidfd b) /\
         pid_line K t2 (lb_pidfd b) (lb_pid b) /\ image (S t2) (lb_pid b) (lb_exe b) /\
         evidence K fd lo (tick s') p) /\
      let '((_, b'), s'') := lb_release b s' in
      fds s'' = fds s /\ lb_release b' s'' = ((None, b'), s'')
  end.
Proof.
  intros Hv. pose proof (bindHandle_spec fd opts s Hv) as H. unfold wp in H.
  destruct (bindHandle fd opts s) as [[[b p]|e] s']; cbn in H; [|done].
  destruct H as (Hpos & Hf & Hev). split; [done|]. split; [done|].
  pose proof (wp_release b (λ r s'', fds s'' = fds s /\ lb_release r.2 s'' = ((None, r.2), s'')) s' Hpos)
    as Hr. unfold wp in Hr. destruct (lb_release b s') as [[e b'] s'']. apply Hr.
  intros e' s3 _ Hf3. split; [by rewrite Hf3, Hf, remove_first_head|done].
Qed.

(** After [Close], a binding made by [Bind] answers [net.ErrClosed], but one
    made by [BindServer] still answers [Peer] with its capture: it keeps the
    platform's binder without the shared state, and a Linux binder whose
    descriptor is gone finds nothing to contradict. *)
Theorem linux_closed_server_binding_answers fd opts s B st :
  (∀ t, is_ok (k_readFile (K t) (fdinfoPath (-1))) = false) → pidfds_valid →
  BindServer bindServerHandle linuxNow fd opts s = inl (B, st) →
  (BindingPeer B (BindingClose B st).2).1 = Ok (bpeer B) /\
  ∃ B' st', Bind linuxBindHandle linuxNow fd opts s = inl (B', st') /\
    (BindingPeer B' (BindingClose B' st').2).1 = Err (Sentinel NetErrClosed).
Proof.
  intros Hgone Hv HB. unfold BindServer, Bind, bindServerHandle, linuxBindHandle in *.
  pose proof (bindHandle_spec fd opts s Hv) as Hs. unfold wp in Hs.
  destruct (bindHandle fd opts s) as [[[b p]|e] s'] eqn:Eb; [|done]. cbn in Hs.
  destruct Hs as (Hpos & _). cbn in *. injection HB as <- <-. split.
  - unfold BindingPeer, BindingClose. cbn.
    pose proof (wp_release b (λ r s2, lb_pidfd r.2 = -1)
      (timeNow K s').2 Hpos) as Hr. unfold wp in Hr.
    destruct (lb_release b _) as [[e b'] s2]. cbn in Hr. specialize (Hr (λ _ _ _ _, eq_refl)).
    cbn. pose proof (lb_recheck_spec b' s2) as Hc. unfold wp in Hc.
    destruct (lb_recheck b' s2) as [r s3]. cbn in *. destruct Hc as (_ & _ & Hc).
    destruct r as [e'|]; [|done]. destruct Hc as [[(info & Hi & _) _] _].
    rewrite Hr in Hi. specialize (Hgone (tick s2)). by rewrite Hi in Hgone.
  - eexists _, _. split; [done|]. unfold BindingPeer, BindingClose. cbn. unfold bs_release. cbn.
    by destruct (lb_release b _) as [[e b'] s2].
Qed.

End BindLinux.

(** ** Witnesses *)

Abbreviation pinningKernel := (λ _ : nat, exampleKernel (Ok 7)).

Lemma pinningKernel_valid : pidfds_valid pinningKernel.
Proof. intros t fd p Hp. cbn in Hp. injection Hp as <-. lia. Qed.

Lemma linux_bind_owns_one_descriptor_witness :
  match bindHandle pinningKernel noText quoted itoa 3 None fresh with
  | (Err _, s') => False
  | (Ok (b, p), s') => fds s' = [7] /\ lb_exe b = "/usr/bin/app"
  end.
Proof.
  pose proof (linux_bind_owns_one_descriptor pinningKernel noText quoted itoa 3 None fresh
                pinningKernel_valid) as H.
  destruct (bindHandle _ _ _ _ _ _ _) as [[[b p]|e] s'] eqn:E; vm_compute in E; [|discriminate E].
  injection E as Hb _ _. destruct H as [Hf _]. subst b. split; [exact Hf|reflexivity].
Defined.

Lemma linux_closed_server_binding_answers_witness :
  ∃ B st, BindServer (bindServerHandle pinningKernel noText quoted itoa) (linuxNow pinningKernel) 3 None
            fresh = inl (B, st) /\ (BindingPeer B (BindingClose B st).2).1 = Ok (bpeer B).
Proof.
  destruct (BindServer _ _ _ _ _) as [[B st]|[e w]] eqn:E.
  - exists B, st. split; [reflexivity|].
    refine (proj1 (linux_closed_server_binding_answers pinningKernel noText quoted itoa 3 None fresh
              B st _ _ E)); [intros t; vm_compute; reflexivity | apply pinningKernel_valid].
  - assert (match BindServer (bindServerHandle pinningKernel noText quoted itoa) (linuxNow pinningKernel)
              3 None fresh with inl _ => true | inr _ => false end = true) as Hok
      by (vm_compute; reflexivity).
    rewrite E in Hok. discriminate Hok.
Defined.
