(* ===== verification/LoopbackLinux.v ===== *)
(** loopback.go and loopback_linux.go: the process behind a loopback TCP
    connection, found through the socket-owner records of procfs. *)

From S2P Require Import Prelude GoStrings GoError GoBinary ProofLadder Peer Binding LinuxOS ProcfsLinux IdentityLinux BindLinux.

Definition TransportLoopback : string := "tcp-loopback".

(** [loopbackAddr]. *)
Definition loopbackAddr (a : netAddr) : result AddrPort :=
  match a with
  | OtherAddr => Err (Wrap "not a TCP address" [Sentinel ErrUnsupportedConn])
  | TCPAddr ip port =>
      match AddrFromSlice ip with
      | None => Err (Wrap "unreadable address" [Sentinel ErrUnsupportedConn])
      | Some addr =>
          let addr := Unmap addr in
          if negb (Is4 addr) || negb (IsLoopback4 addr)
          then Err (Wrap "not an IPv4 loopback address" [Sentinel ErrRemotePeer])
          else Ok (mkAddrPort addr (port mod 2 ^ 16))
      end
  end.

(** ** The socket table *)

Record tcpRow := mkTcpRow { established : bool; tr_uid : Z; tr_inode : Z }.

Section Table.
(** The byte order of the machine. *)
Context (bigEndian : bool).

(** The bytes [binary.NativeEndian.PutUint32] writes. *)
Definition nativeBytes (a : Z) : list Z :=
  let le := [a mod 256; a / 2 ^ 8 mod 256; a / 2 ^ 16 mod 256; a / 2 ^ 24 mod 256] in
  if bigEndian then rev le else le.

(** [procAddr]. *)
Definition procAddr (s : string) : option AddrPort :=
  match Cut s ":" with
  | None => None
  | Some (host, port) =>
      if negb (slen host =? 8) then None
      else match ParseUint host 16 32 with
           | None => None
           | Some a =>
               match ParseUint port 16 16 with
               | None => None
               | Some p => Some (mkAddrPort (nativeBytes a) p)
               end
           end
  end.

(** The scan of [socketRow] over the lines after the heading. *)
Fixpoint findRow (lines : list string) (client server : AddrPort) : result (option tcpRow) :=
  match lines with
  | [] => Ok None
  | line :: rest =>
      match Fields line with
      | _ :: f1 :: f2 :: f3 :: _ :: _ :: _ :: f7 :: _ :: f9 :: _ =>
          if bool_decide (procAddr f1 = Some client) && bool_decide (procAddr f2 = Some server)
          then
            let state := default 0 (ParseUint f3 16 8) in
            match ParseInt f7, ParseUint f9 10 64 with
            | Some uid, Some inode => Ok (Some (mkTcpRow (state =? 1) uid inode))
            | _, _ => Err (Plain "/proc/net/tcp row is not in the expected form")
            end
          else findRow rest client server
      | _ => findRow rest client server
      end
  end.

End Table.

Record loopbackLinuxBinding := mkLoopbackBinding {
  ll_client : AddrPort;
  ll_server : AddrPort;
  ll_inode : Z;
  ll_uid : Z;
  ll_pidfd : Z;
  ll_pid : Z;
  ll_exe : string
}.

Section Loopback.
Context (bigEndian : bool) (K : nat → Kernel) (getpid : Z).
Context (errText : err → string) (Quote : string → string) (rfc3339Nano : Time → string).

(** [pidfdOpenSupport]. *)
Definition pidfdOpenSupport : M (bool * string) :=
  once memo_pidfdOpen put_pidfdOpen (
    r ← pidfdOpen K getpid;
    match r with
    | Err e => mret (false, "pidfd_open is unavailable on this kernel (" +:+ errText e
                 +:+ "); it needs Linux 5.3, and without it a scanned pid cannot be pinned")
    | Ok fd => _ ← close K fd; mret (true, "")
    end).

Definition loopbackBest (ok : bool) : Need :=
  let path := if ok then ProofBound else ProofNone in
  mkNeed ProofKernel path path path ProofNone.

(** [loopbackCeiling]. *)
Definition loopbackCeiling : M Limits :=
  '(ok, why) ← pidfdOpenSupport;
  let binding :=
    if (ok : bool)
    then "/proc/net/tcp names the client socket's inode and owning uid; the one same-uid process whose descriptor table holds that inode is pinned with pidfd_open and its image path captured, and a socket held by two processes, or later by another, is refused as moved"
    else why +:+ ", so this machine cannot bind a loopback peer" in
  mret (mkLimits "linux" (loopbackBest ok)
    (list_to_map
       [("user", "the uid /proc/net/tcp reports is the credential the kernel attached to the socket when it was created");
        ("process", "found by scanning same-uid descriptor tables for the socket inode, then pinned with pidfd_open and scanned again behind the pin");
        ("path", "/proc/<pid>/exe read behind the pidfd; a path is a name, not an identity");
        ("package", "a sandbox application id read behind the pidfd; " +:+ whyPackageAdvisory);
        ("code", whyNoCode)])
    TransportLoopback ok binding
    "unix: SO_PEERCRED and SO_PEERPIDFD are stamped onto the connection itself, so the process needs no scan").

(** [socketRow]. *)
Definition socketRow (client server : AddrPort) : M (result (option tcpRow)) :=
  r ← readFile K "/proc/self/net/tcp";
  match r with
  | Err e => mret (Err e)
  | Ok data => mret (findRow bigEndian (tail (Split data newline)) client server)
  end.

(** [holds]: the loop reads links until one is the socket. *)
Fixpoint anyLink (dir : string) (names : list string) (link : string) : M bool :=
  match names with
  | [] => mret false
  | n :: ns =>
      r ← readlink K (dir +:+ "/" +:+ n);
      match r with
      | Ok target => if String.eqb target link then mret true else anyLink dir ns link
      | Err _ => anyLink dir ns link
      end
  end.

Definition holds (pid : Z) (link : string) : M bool :=
  let dir := procPath pid +:+ "/fd" in
  r ← readDir K dir;
  match r with
  | Err _ => mret false
  | Ok entries => anyLink dir entries link
  end.

Definition socketLink (inode : Z) : string := "socket:[" +:+ itoa inode +:+ "]".

(** [holders]: the scan over the entries of [/proc]. *)
Fixpoint scanHolders (names : list string) (link : string) (uid : Z) : M (list Z) :=
  match names with
  | [] => mret []
  | n :: ns =>
      match ParseInt n with
      | Some pid =>
          if pid <=? 0 then scanHolders ns link uid
          else
            st ← statOwner K ("/proc/" +:+ n);
            match st with
            | Ok (owner, _) =>
                if negb (owner =? uid) then scanHolders ns link uid
                else
                  h ← holds pid link;
                  rest ← scanHolders ns link uid;
                  mret (if h : bool then pid :: rest else rest)
            | Err _ => scanHolders ns link uid
            end
      | None => scanHolders ns link uid
      end
  end.

Definition holders (inode uid : Z) : M (result (list Z)) :=
  r ← readDir K "/proc";
  match r with
  | Err e => mret (Err e)
  | Ok entries => out ← scanHolders entries (socketLink inode) uid; mret (Ok out)
  end.

(** [loopbackLinuxBinding.release]. *)
Definition ll_release (b : loopbackLinuxBinding) : M (option err * loopbackLinuxBinding) :=
  if ll_pidfd b <? 0 then mret (None, b)
  else
    e ← close K (ll_pidfd b);
    mret (e, mkLoopbackBinding (ll_client b) (ll_server b) (ll_inode b) (ll_uid b) (-1) (ll_pid b)
               (ll_exe b)).

(** [loopbackLinuxBinding.alive]. *)
Definition ll_alive (b : loopbackLinuxBinding) : M (result bool) :=
  pidfdAlive K (ll_pidfd b) (ll_pid b).

Definition inodeMoved : err := Wrap "the client end is now another socket inode" [Sentinel ErrPeerMoved].

(** [emptyHolderRescan]. *)
Definition emptyHolderRescan (b : loopbackLinuxBinding) (row : option tcpRow) : bool * option err :=
  match row with
  | None => (true, None)
  | Some row =>
      if negb (established row) then (true, None)
      else if negb (tr_inode row =? ll_inode b) then (false, Some inodeMoved)
      else (false, None)
  end.

(** The end of [recheck], once the holders are known. *)
Definition checkHolder (b : loopbackLinuxBinding) (pids : list Z) : M (option err) :=
  if negb (bool_decide (pids = [ll_pid b]))
  then mret (Some (Wrap ("the client socket is now held by others; it was held by pid " +:+ itoa (ll_pid b)
                         +:+ " alone when the connection was accepted") [Sentinel ErrPeerMoved]))
  else
    x ← processExe K (ll_pid b);
    match x with
    | Ok (exe, _) =>
        if negb (String.eqb exe (ll_exe b))
        then mret (Some (Wrap ("pid " +:+ itoa (ll_pid b) +:+ " was " +:+ Quote (ll_exe b)
               +:+ " when this connection was accepted and is " +:+ Quote exe +:+ " now")
               [Sentinel ErrPeerMoved]))
        else mret None
    | Err _ => mret None
    end.

(** [loopbackLinuxBinding.recheck]. *)
Definition ll_recheck (b : loopbackLinuxBinding) : M (option err) :=
  r ← socketRow (ll_client b) (ll_server b);
  match r with
  | Ok (Some row) =>
      if negb (established row) then mret None
      else if negb (tr_inode row =? ll_inode b) then mret (Some inodeMoved)
      else
        h ← holders (ll_inode b) (ll_uid b);
        match h with
        | Err _ => mret None
        | Ok [] =>
            again ← socketRow (ll_client b) (ll_server b);
            match again with
            | Ok row' =>
                let '(closed, e) := emptyHolderRescan b row' in
                if closed || match e with Some _ => true | None => false end then mret e
                else checkHolder b []
            | Err _ => checkHolder b []
            end
        | Ok pids => checkHolder b pids
        end
  | _ => mret None
  end.

Definition loopbackPeer (now : Time) (row : tcpRow) (gid pid : Z) (started : Time) (exe : string)
    (deleted : bool) (pkg : string * string) : Peer :=
  let user := attr "user" (posixUser (tr_uid row) gid) ProofKernel
    "the uid /proc/net/tcp reports is the credential the kernel attached to the socket when it was created; the gid is the pinned holder's" in
  let process := attr "process" (mkProcess pid started false 0) ProofBound
    "the one same-uid process whose descriptor table holds the client socket, pinned with pidfd_open and scanned again behind the pin" in
  let path := if deleted
    then attr "path" exe ProofPID "the peer's executable has been unlinked since it started, so this path no longer refers to the file it is running"
    else attr "path" exe ProofBound "read behind the pidfd; a path is a name, not an identity - see CONTRACT.md" in
  let package := if String.eqb pkg.1 "" then unknown "package" pkg.2
    else attr "package" pkg.1 ProofBound (pkg.2 +:+ "; " +:+ whyPackageAdvisory) in
  note (mkPeer "linux" TransportLoopback now user process path package (unknown "code" whyNoCode) []
          zeroTime)
    "transport: a loopback TCP connection carries no credentials; the process came from a descriptor-table scan".

(** What follows the pin in [bindLoopback]; every refusal releases it. *)
Definition capturePinned (b : loopbackLinuxBinding) (row : tcpRow) (opts : option Options)
    : M (result (loopbackLinuxBinding * Peer)) :=
  let pid := ll_pid b in
  let fail (e : err) := _ ← ll_release b; mret (Err e) in
  live ← pidfdAlive K (ll_pidfd b) pid;
  match live with
  | Ok true =>
      h ← holds pid (socketLink (tr_inode row));
      if negb (h : bool)
      then fail (Wrap "no longer holds the client socket once pinned" [Sentinel ErrPeerMoved])
      else
        x ← processExe K pid;
        match x with
        | Err e => fail (Wrap ("/proc/" +:+ itoa pid +:+ "/exe: " +:+ errText e) [Sentinel ErrPeerGone])
        | Ok (exe, deleted) =>
            let b := mkLoopbackBinding (ll_client b) (ll_server b) (ll_inode b) (ll_uid b) (ll_pidfd b)
                       pid exe in
            st ← processStartTime K pid;
            match st with
            | Err e => fail (Wrap ("start time could not be read: " +:+ errText e) [Sentinel ErrNoBinding])
            | Ok started =>
                connected ← connectedAtM K opts;
                if After started (TimeAdd connected startTimeSlop)
                then fail (Wrap ("started at " +:+ rfc3339Nano started +:+ ", after this connection existed at "
                                 +:+ rfc3339Nano connected) [Sentinel ErrPeerMoved])
                else
                  c ← ll_recheck b;
                  match c with
                  | Some e => fail e
                  | None =>
                      now ← timeNow K;
                      g ← statOwner K (procPath pid);
                      let gid := match g with Ok (_, gid) => gid | Err _ => -1 end in
                      pkg ← sandboxPackage K pid;
                      mret (Ok (b, loopbackPeer now row gid pid started exe deleted pkg))
                  end
            end
        end
  | _ => fail (Wrap ("pid " +:+ itoa pid +:+ " exited while it was being pinned") [Sentinel ErrPeerGone])
  end.

(** [bindLoopback]. *)
Definition bindLoopback (client server : AddrPort) (opts : option Options)
    : M (result (loopbackLinuxBinding * Peer)) :=
  '(ok, why) ← pidfdOpenSupport;
  if negb (ok : bool) then mret (Err (Wrap why [Sentinel ErrNoBinding]))
  else
    r ← socketRow client server;
    match r with
    | Err e => mret (Err (Wrap ("/proc/net/tcp: " +:+ errText e) [Sentinel ErrNoBinding]))
    | Ok None => mret (Err (Wrap "/proc/net/tcp has no row" [Sentinel ErrPeerGone]))
    | Ok (Some row) =>
        me ← ask K k_getuid;
        if negb (tr_uid row =? me)
        then mret (Err (Wrap "only same-uid descriptor tables can be read" [Sentinel ErrNoBinding]))
        else if established row && (tr_inode row =? 0)
        then mret (Err (Wrap "the established kernel socket has no descriptor inode" [Sentinel ErrPeerPending]))
        else
          h ← holders (tr_inode row) (tr_uid row);
          match h with
          | Err e => mret (Err (Wrap ("scanning /proc: " +:+ errText e) [Sentinel ErrNoBinding]))
          | Ok [] => mret (Err (Wrap "no process holds the client socket" [Sentinel ErrPeerPending]))
          | Ok [pid] =>
              p ← pidfdOpen K pid;
              match p with
              | Err e => mret (Err (Wrap ("pidfd_open: " +:+ errText e) [Sentinel ErrPeerGone]))
              | Ok pidfd =>
                  capturePinned (mkLoopbackBinding client server (tr_inode row) (tr_uid row) pidfd pid "")
                    row opts
              end
          | Ok _ => mret (Err (Wrap "a passed or inherited socket names no single program"
                                 [Sentinel ErrPeerMoved]))
          end
    end.

(** [BindLoopback] on a connection with these two addresses; [None] is a
    connection that is not TCP. *)
Definition LoopbackStore : Type := loopbackLinuxBinding * LState.

Definition loopbackBinder : binder LoopbackStore :=
  mkBinder
    (λ '(b, s), let '(e, s') := ll_recheck b s in (e, (b, s')))
    (λ '(b, s), let '(r, s') := ll_alive b s in
       (match r with Ok l => (l, None) | Err e => (false, Some e) end, (b, s')))
    (λ '(b, s), let '((e, b'), s') := ll_release b s in (e, (b', s'))).

Definition BindLoopback (c : option (netAddr * netAddr)) (opts : option Options) (s : LState)
    : (Binding (bindingState LoopbackStore) * bindingState LoopbackStore) + (err * LState) :=
  match c with
  | None => inr (Wrap "not a TCP connection" [Sentinel ErrUnsupportedConn], s)
  | Some (local, remote) =>
      match loopbackAddr local with
      | Err e => inr (e, s)
      | Ok server =>
          match loopbackAddr remote with
          | Err e => inr (e, s)
          | Ok client =>
              match bindLoopback client server opts s with
              | (Err e, s') => inr (e, s')
              | (Ok (b, p), s') =>
                  let '(t, s'') := timeNow K s' in
                  inl (mkBinding p t (bindingState_binder loopbackBinder),
                       mkState (b, s'') false None)
              end
          end
      end
  end.

(** [BindLoopbackServer]. *)
Definition BindLoopbackServer := BindLoopback.

(** ** What the scan establishes *)

Lemma quiet_socketRow c v : quiet (socketRow c v).
Proof. unfold socketRow, readFile. quiet. Qed.

Lemma quiet_anyLink dir names link : quiet (anyLink dir names link).
Proof. induction names; cbn; unfold readlink; quiet. Qed.

Lemma quiet_holds pid link : quiet (holds pid link).
Proof. pose proof quiet_anyLink. unfold holds, readDir. quiet. Qed.

Lemma quiet_scanHolders names link uid : quiet (scanHolders names link uid).
Proof. pose proof quiet_holds. induction names; cbn; unfold statOwner; quiet. Qed.

Lemma quiet_holders inode uid : quiet (holders inode uid).
Proof. pose proof quiet_scanHolders. unfold holders, readDir. quiet. Qed.

Hint Resolve quiet_socketRow quiet_holds quiet_holders quiet_processExe : quiet.

Lemma quiet_recheck b : quiet (ll_recheck b).
Proof. unfold ll_recheck, checkHolder. quiet. Qed.

Lemma quiet_pidfdOpenSupport : quiet pidfdOpenSupport.
Proof.
  apply quiet_once; [done|done|]. apply quiet_wp. intros s. apply wp_bind, wp_pidfdOpen.
  - intros e s' Ht Hf. apply wp_ret. rewrite Ht. auto with lia.
  - intros p s' Ht Hf _. apply wp_bind, wp_close. intros _ s'' Ht' Hf'. apply wp_ret.
    rewrite Hf', Hf, remove_first_head. auto with lia.
Qed.

(** Every refusal of the recheck says the connection moved. *)
Definition moved_only (r : option err) : Prop :=
  ∀ e, r = Some e → errors_is e ErrPeerMoved = true /\ errors_is e ErrPeerPending = false.

Lemma checkHolder_moved b pids s : wp (checkHolder b pids) (λ r _, moved_only r) s.
Proof.
  unfold checkHolder, moved_only. case_goal; [apply wp_ret; naive_solver|].
  apply wp_bind, wp_quiet; [apply quiet_processExe|]. intros x s' _ _.
  repeat case_goal; apply wp_ret; naive_solver.
Qed.

Lemma recheck_moved b s :
  wp (ll_recheck b) (λ r s', (tick s <= tick s')%nat /\ fds s' = fds s /\ moved_only r) s.
Proof.
  pose proof (quiet_recheck b s) as [Hq1 Hq2].
  cut (wp (ll_recheck b) (λ r _, moved_only r) s); [unfold wp; auto|]. clear Hq1 Hq2.
  unfold ll_recheck. apply wp_bind, wp_quiet; [apply quiet_socketRow|]. intros r s1 _ _.
  destruct r as [[row|]|]; try by apply wp_ret.
  do 2 (case_goal; [apply wp_ret; unfold moved_only; naive_solver|]).
  apply wp_bind, wp_quiet; [apply quiet_holders|]. intros h s2 _ _.
  destruct h as [[|pid pids]|e]; [|apply checkHolder_moved|by apply wp_ret].
  apply wp_bind, wp_quiet; [apply quiet_socketRow|]. intros again s3 _ _.
  destruct again as [row'|e]; [|apply checkHolder_moved].
  unfold emptyHolderRescan. repeat case_goal; simplify_eq; try apply checkHolder_moved;
    apply wp_ret; unfold moved_only; naive_solver.
Qed.

(** Process [pid] held the socket at an instant of the interval. *)
Definition held (pid inode : Z) (lo hi : nat) : Prop :=
  ∃ t n, (lo <= t < hi)%nat /\
         k_readlink (K t) (procPath pid +:+ "/fd/" +:+ n) = Ok (socketLink inode).

(** No descriptor of process [pid] was seen to be the socket: its table could
    not be listed, or each link of the listing was read and was something else. *)
Definition unheld (pid inode : Z) (lo hi : nat) : Prop :=
  ∃ t, (lo <= t < hi)%nat /\
       match k_readDir (K t) (procPath pid +:+ "/fd") with
       | Err _ => True
       | Ok names => ∀ n, n ∈ names → ∃ t', (t < t' < hi)%nat /\
           k_readlink (K t') (procPath pid +:+ "/fd/" +:+ n) ≠ Ok (socketLink inode)
       end.

Lemma anyLink_spec dir names link s :
  wp (anyLink dir names link)
    (λ r s', if r then ∃ t n, (tick s <= t < tick s')%nat /\ k_readlink (K t) (dir +:+ "/" +:+ n) = Ok link
             else ∀ n, n ∈ names → ∃ t, (tick s <= t < tick s')%nat /\ k_readlink (K t) (dir +:+ "/" +:+ n) ≠ Ok link) s.
Proof.
  revert s. induction names as [|n ns IH]; intros s; cbn; [by intros n ?%elem_of_nil|].
  apply wp_bind, wp_ask. intros s' Ht Hf.
  assert (k_readlink (K (tick s)) (dir +:+ "/" +:+ n) ≠ Ok link →
          wp (anyLink dir ns link) (λ r s'',
            if r then ∃ t m, (tick s <= t < tick s'')%nat /\ k_readlink (K t) (dir +:+ "/" +:+ m) = Ok link
            else ∀ m, m ∈ n :: ns → ∃ t, (tick s <= t < tick s'')%nat /\
                   k_readlink (K t) (dir +:+ "/" +:+ m) ≠ Ok link) s') as Hrec.
  { intros Hne. pose proof (quiet_anyLink dir ns link s') as [Hq _]. pose proof (IH s') as H. unfold wp in *.
    destruct (anyLink dir ns link s') as [[] s'']; cbn in *.
    - destruct H as (t & m & ? & ?). exists t, m. split; [lia|done].
    - intros m [->|Hm]%elem_of_cons; [exists (tick s); split; [lia|done]|].
      destruct (H m Hm) as (t & ? & ?). exists t. split; [lia|done]. }
  case_goal; [case_goal|]; to_prop; [|apply Hrec; congruence..].
  subst. apply wp_ret. exists (tick s), n. split; [lia|done].
Qed.

Lemma holds_spec pid inode s :
  wp (holds pid (socketLink inode))
    (λ r s', (tick s < tick s')%nat /\ fds s' = fds s /\
             if r then held pid inode (tick s) (tick s') else unheld pid inode (tick s) (tick s')) s.
Proof.
  unfold holds. apply wp_bind, wp_ask. intros s' Ht Hf. case_goal.
  - pose proof (quiet_anyLink (procPath pid +:+ "/fd") a (socketLink inode) s') as [Hq1 Hq2].
    pose proof (anyLink_spec (procPath pid +:+ "/fd") a (socketLink inode) s') as H. unfold wp in *.
    destruct (anyLink _ _ _ s') as [[] s'']; cbn in *; (split; [lia|]); (split; [congruence|]).
    + destruct H as (t & n & ? & Hn). exists t, n. split; [lia|]. by rewrite str_app_assoc in Hn.
    + exists (tick s). split; [lia|]. rewrite E. intros n Hn. destruct (H n Hn) as (t & ? & Hl).
      exists t. split; [lia|]. by rewrite str_app_assoc in Hl.
  - apply wp_ret. split; [lia|]. split; [done|]. exists (tick s). split; [lia|]. by rewrite E.
Qed.

(** What the scan of [/proc] made of one entry of its listing: a process of
    [uid] that held the socket, or an entry that is no process, no process of
    [uid], or one that did not. *)
Definition entry_seen (inode uid : Z) (lo hi : nat) (n : string) (seen : option Z) : Prop :=
  match seen with
  | Some pid => ParseInt n = Some pid /\ 0 < pid /\
      (∃ t gid, (lo <= t < hi)%nat /\ k_stat (K t) ("/proc/" +:+ n) = Ok (uid, gid)) /\
      held pid inode lo hi
  | None => ∀ pid, ParseInt n = Some pid → 0 < pid →
      (∃ t, (lo <= t < hi)%nat /\ ∀ gid, k_stat (K t) ("/proc/" +:+ n) ≠ Ok (uid, gid)) \/
      unheld pid inode lo hi
  end.

Lemma entry_seen_mono inode uid lo hi lo' hi' n seen :
  (lo' <= lo)%nat → (hi <= hi')%nat →
  entry_seen inode uid lo hi n seen → entry_seen inode uid lo' hi' n seen.
Proof.
  intros Hlo Hhi. destruct seen as [pid|]; cbn.
  - intros (? & ? & (t & g & ? & ?) & (t' & m & ? & ?)). split; [done|]. split; [done|].
    split; [exists t, g|exists t', m]; (split; [lia|done]).
  - intros H pid Hn Hp. destruct (H pid Hn Hp) as [(t & ? & Ht)|(t & ? & Ht)]; [left|right];
      (exists t; split; [lia|]); [done|].
    destruct (k_readDir _ _); [|done]. intros m Hm. destruct (Ht m Hm) as (t' & ? & ?).
    exists t'. split; [lia|done].
Qed.

(** The scan of [/proc] over an interval found the processes [pids]. *)
Definition scan_found (inode uid : Z) (lo hi : nat) (pids : list Z) : Prop :=
  ∃ entries seen, (lo < hi)%nat /\ k_readDir (K lo) "/proc" = Ok entries /\
    Forall2 (entry_seen inode uid lo hi) entries seen /\ pids = omap id seen.

Lemma scanHolders_spec inode uid names s :
  wp (scanHolders names (socketLink inode) uid)
    (λ pids s', (tick s <= tick s')%nat /\ fds s' = fds s /\
       ∃ seen, Forall2 (entry_seen inode uid (tick s) (tick s')) names seen /\ pids = omap id seen) s.
Proof.
  revert s. induction names as [|n ns IH]; intros s; cbn [scanHolders].
  { apply wp_ret. split; [lia|]. split; [done|]. by exists []. }
  assert (∀ s' o, (tick s <= tick s')%nat → fds s' = fds s →
            entry_seen inode uid (tick s) (tick s') n o →
            wp (scanHolders ns (socketLink inode) uid) (λ pids s'', (tick s <= tick s'')%nat /\
              fds s'' = fds s /\ ∃ seen, Forall2 (entry_seen inode uid (tick s) (tick s'')) (n :: ns) seen /\
                (match o with Some pid => pid :: pids | None => pids end) = omap id seen) s') as Hrec.
  { intros s' o Ht Hf Ho. eapply wp_mono; [apply IH|]. intros pids s'' (? & ? & seen & Hs & ->).
    split; [lia|]. split; [congruence|]. exists (o :: seen). split; [|by destruct o].
    constructor; [by eapply entry_seen_mono; [..|exact Ho]; lia|].
    eapply Forall2_impl; [exact Hs|]. intros. eapply entry_seen_mono; [..|done]; lia. }
  destruct (ParseInt n) as [pid|] eqn:En; [|apply (Hrec s None); [done..|]; cbn; congruence].
  case_goal; to_prop; [apply (Hrec s None); [done..|]; cbn; intros q ?; simplify_eq; lia|].
  apply wp_bind, wp_ask. intros s1 Ht1 Hf1.
  destruct (k_stat _ _) as [[owner gid]|e] eqn:Est;
    [|apply (Hrec s1 None); [lia|done|]; cbn; left; exists (tick s); split; [lia|congruence]].
  case_goal; to_prop; [apply (Hrec s1 None); [lia|done|]; cbn; left; exists (tick s); split; [lia|congruence]|].
  subst owner. eapply wp_bind, wp_mono; [apply holds_spec|]. intros h s2 (Ht2 & Hf2 & Hh).
  apply wp_bind. eapply wp_mono.
  { apply (Hrec s2 (if h then Some pid else None)); [lia|congruence|]. destruct h; cbn.
    - split; [done|]. split; [lia|]. split; [exists (tick s), gid; split; [lia|done]|].
      destruct Hh as (t & m & ? & ?). exists t, m. split; [lia|done].
    - intros q ? _. simplify_eq. right. destruct Hh as (t & ? & ?). exists t. split; [lia|done]. }
  intros pids s3 H. apply wp_ret. by destruct h.
Qed.

Lemma holders_spec inode uid s :
  wp (holders inode uid)
    (λ r s', (tick s <= tick s')%nat /\ fds s' = fds s /\
       match r with
       | Ok pids => scan_found inode uid (tick s) (tick s') pids
       | Err e => k_readDir (K (tick s)) "/proc" = Err e
       end) s.
Proof.
  unfold holders. apply wp_bind, wp_ask. intros s1 Ht Hf. case_goal; [|apply wp_ret; split; [lia|done]].
  eapply wp_bind, wp_mono; [apply scanHolders_spec|]. intros pids s2 (? & ? & seen & Hs & ->).
  apply wp_ret. split; [lia|]. split; [congruence|]. exists a, seen. split; [lia|]. split; [done|].
  split; [|done]. eapply Forall2_impl; [exact Hs|]. intros. eapply entry_seen_mono; [..|done]; lia.
Qed.

(** The scan of an interval found one process holding the socket: one entry of
    the listing is that process, and no other entry is a process of [uid] that was
    seen holding it. *)
Definition sole_holder (pid inode uid : Z) (lo hi : nat) : Prop :=
  ∃ before n after, k_readDir (K lo) "/proc" = Ok (before ++ n :: after) /\
    entry_seen inode uid lo hi n (Some pid) /\
    ∀ m, m ∈ before ++ after → entry_seen inode uid lo hi m None.

Lemma omap_id_nil {A} (l : list (option A)) : omap id l = [] → ∀ o, o ∈ l → o = None.
Proof. induction l as [|[x|] l IH]; cbn; [set_solver|done|]. intros H o [->|?]%elem_of_cons; auto. Qed.

Lemma omap_id_sole {A} (l : list (option A)) x :
  omap id l = [x] → ∃ l1 l2, l = l1 ++ Some x :: l2 /\ ∀ o, o ∈ l1 ++ l2 → o = None.
Proof.
  induction l as [|[y|] l IH]; cbn; [done|..].
  - intros [= -> H]. exists [], l. split; [done|]. by apply omap_id_nil.
  - intros (l1 & l2 & -> & H)%IH. exists (None :: l1), l2. split; [done|].
    intros o [->|?]%elem_of_cons; auto.
Qed.

Lemma Forall2_none {A} (P : A → option Z → Prop) l seen :
  Forall2 P l seen → (∀ o, o ∈ seen → o = None) → ∀ m, m ∈ l → P m None.
Proof.
  induction 1 as [|m o l seen Hm Hl IH]; intros Hn q Hq; [set_solver|].
  apply elem_of_cons in Hq as [->|Hq].
  - rewrite <- (Hn o); [done|left].
  - apply IH; [|done]. intros o' Ho'. apply Hn. by right.
Qed.

Lemma scan_found_sole pid inode uid lo hi :
  scan_found inode uid lo hi [pid] → sole_holder pid inode uid lo hi.
Proof.
  intros (entries & seen & _ & Hd & Hs & Hp).
  destruct (omap_id_sole seen pid) as (s1 & s2 & -> & Hnone); [done|].
  apply Forall2_app_inv_r in Hs as (before & rest & Hb & Hr & ->).
  apply Forall2_cons_inv_r in Hr as (n & after & Hn & Ha & ->).
  exists before, n, after. split; [done|]. split; [done|].
  apply (Forall2_none _ _ (s1 ++ s2)); [by apply Forall2_app|done].
Qed.

(** ** What the recheck behind the pin establishes *)

(** The row of the pair in the socket table at an instant. *)
Definition tableRow (t : nat) (client server : AddrPort) : result (option tcpRow) :=
  match k_readFile (K t) "/proc/self/net/tcp" with
  | Ok data => findRow bigEndian (tail (Split data newline)) client server
  | Err e => Err e
  end.

Definition open_row (r : result (option tcpRow)) : option tcpRow :=
  match r with
  | Ok (Some row) => if established row then Some row else None
  | _ => None
  end.

(** A recheck that raised nothing: the table had no established row for the pair;
    or it had one, of the socket of the binding, and [/proc] could not be listed,
    or nobody held the socket and the row was gone when looked at again, or the
    process of the binding was found to be the one holder again and its image was
    the captured one or could not be read. *)
Definition recheck_clear (b : loopbackLinuxBinding) (lo hi : nat) : Prop :=
  match open_row (tableRow lo (ll_client b) (ll_server b)) with
  | None => True
  | Some row =>
      tr_inode row = ll_inode b /\
      ((∃ e, k_readDir (K (S lo)) "/proc" = Err e) \/
       (∃ t, (lo < t < hi)%nat /\ scan_found (ll_inode b) (ll_uid b) (S lo) t [] /\
             open_row (tableRow t (ll_client b) (ll_server b)) = None) \/
       (∃ t, (lo < t < hi)%nat /\ sole_holder (ll_pid b) (ll_inode b) (ll_uid b) (S lo) t /\
             ∀ exe, image K t (ll_pid b) exe → exe = ll_exe b))
  end.

Lemma wp_socketRow c v (Q : result (option tcpRow) → LState → Prop) s :
  (∀ s', tick s' = S (tick s) → fds s' = fds s → Q (tableRow (tick s) c v) s') → wp (socketRow c v) Q s.
Proof.
  intros H. unfold socketRow. apply wp_bind, wp_ask. intros s' Ht Hf. specialize (H s' Ht Hf).
  unfold tableRow in H. destruct (k_readFile _ _); by apply wp_ret.
Qed.

Lemma checkHolder_clear b lo pids s :
  scan_found (ll_inode b) (ll_uid b) lo (tick s) pids →
  wp (checkHolder b pids) (λ r s', r = None → (tick s < tick s')%nat /\
      sole_holder (ll_pid b) (ll_inode b) (ll_uid b) lo (tick s) /\
      ∀ exe, image K (tick s) (ll_pid b) exe → exe = ll_exe b) s.
Proof.
  intros Hscan. unfold checkHolder. case_bool_decide as Hp; [subst pids; cbn [negb]|by apply wp_ret].
  apply scan_found_sole in Hscan. apply wp_bind, wp_processExe.
  - intros e s' Ht Hf Hno. apply wp_ret. intros _. split; [lia|]. split; [done|]. naive_solver.
  - intros exe d s' Ht Hf Himg. case_goal; apply wp_ret; [done|]. intros _. to_prop.
    split; [lia|]. split; [done|]. intros exe' Himg'. rewrite (image_functional _ _ _ _ _ Himg' Himg). done.
Qed.

Lemma recheck_clear_spec b s :
  wp (ll_recheck b) (λ r s', r = None → recheck_clear b (tick s) (tick s')) s.
Proof.
  unfold ll_recheck, recheck_clear. apply wp_bind, wp_socketRow. intros s1 Ht1 _.
  destruct (tableRow (tick s) _ _) as [[row|]|]; cbn; [|by apply wp_ret..].
  destruct (established row); cbn [negb]; [|by apply wp_ret].
  case_goal; to_prop; [by apply wp_ret|].
  eapply wp_bind, wp_mono; [apply holders_spec|]. intros h s2 (Ht2 & _ & Hscan). rewrite Ht1 in *.
  assert (∀ pids s3, scan_found (ll_inode b) (ll_uid b) (S (tick s)) (tick s3) pids →
     wp (checkHolder b pids) (λ r s', r = None → tr_inode row = ll_inode b /\
        ((∃ e, k_readDir (K (S (tick s))) "/proc" = Err e) \/
         (∃ t, (tick s < t < tick s')%nat /\ scan_found (ll_inode b) (ll_uid b) (S (tick s)) t [] /\
             open_row (tableRow t (ll_client b) (ll_server b)) = None) \/
         (∃ t, (tick s < t < tick s')%nat /\ sole_holder (ll_pid b) (ll_inode b) (ll_uid b) (S (tick s)) t /\
             ∀ exe, image K t (ll_pid b) exe → exe = ll_exe b))) s3) as Hcheck.
  { intros pids s3 Hs3. eapply wp_mono; [by apply checkHolder_clear|]. intros r s4 H Hr.
    destruct (H Hr) as (? & ? & ?). destruct Hs3 as (? & ? & ? & _). split; [done|]. right. right. exists (tick s3).
    split; [lia|done]. }
  destruct h as [[|pid pids]|e]; [|by apply Hcheck|apply wp_ret; intros _; split; [done|]; left; by exists e].
  assert (∀ s3, (tick s2 <= tick s3)%nat → scan_found (ll_inode b) (ll_uid b) (S (tick s)) (tick s3) []) as Hmore.
  { intros s3 Hs3. destruct Hscan as (en & se & ? & ? & Hf2 & ?). exists en, se.
    split; [lia|]. split; [done|]. split; [|done]. eapply Forall2_impl; [exact Hf2|].
    intros. eapply entry_seen_mono; [..|done]; lia. }
  apply wp_bind, wp_socketRow. intros s3 Ht3 _.
  destruct (tableRow (tick s2) _ _) as [row'|] eqn:Erow; [|apply Hcheck, Hmore; lia].
  assert (open_row (Ok row') = None → tr_inode row = ll_inode b /\
     (∃ t, (tick s < t < tick s3)%nat /\ scan_found (ll_inode b) (ll_uid b) (S (tick s)) t [] /\
             open_row (tableRow t (ll_client b) (ll_server b)) = None)) as Hgone.
  { intros Hg. split; [done|]. exists (tick s2). split; [lia|]. split; [done|]. by rewrite Erow. }
  unfold emptyHolderRescan. destruct row' as [row'|]; cbn in Hgone |- *;
    [|apply wp_ret; intros _; destruct (Hgone eq_refl); auto].
  destruct (established row'); cbn in Hgone |- *;
    [|apply wp_ret; intros _; destruct (Hgone eq_refl); auto].
  case_goal; cbn; [by apply wp_ret|]. apply Hcheck, Hmore. lia.
Qed.

Lemma recheck_spec b s :
  wp (ll_recheck b) (λ r s', ((tick s <= tick s')%nat /\ fds s' = fds s /\ moved_only r) /\
                             (r = None → recheck_clear b (tick s) (tick s'))) s.
Proof. split; [apply recheck_moved|apply recheck_clear_spec]. Qed.

(** When the connection was there: as the options say, or by the clock at some
    instant of the interval. *)
Definition connection_at (opts : option Options) (connected : Time) (lo hi : nat) : Prop :=
  (∃ o, opts = Some o /\ IsZero (ConnectedAt o) = false /\ connected = ConnectedAt o) \/
  (∃ t, (lo <= t < hi)%nat /\ connected = k_now (K t) /\ ∀ o, opts = Some o → IsZero (ConnectedAt o) = true).

Lemma connectedAtM_spec opts s :
  wp (connectedAtM K opts)
    (λ c s', (tick s <= tick s')%nat /\ fds s' = fds s /\ connection_at opts c (tick s) (tick s')) s.
Proof.
  unfold connectedAtM, timeNow. destruct opts as [o|]; [destruct (IsZero (ConnectedAt o)) eqn:Ez; cbn [negb]|].
  - apply wp_ask. intros s' Ht Hf. split; [lia|]. split; [done|]. right. exists (tick s).
    split; [lia|]. split; [done|]. by intros ? [= <-].
  - apply wp_ret. split; [lia|]. split; [done|]. left. by exists o.
  - apply wp_ask. intros s' Ht Hf. split; [lia|]. split; [done|]. right. exists (tick s). split; [lia|]. done.
Qed.

(** What a loopback binding rests on: a row of the socket table whose uid was the
    service's own; a scan that found the pid to be the one process of that uid
    holding the socket; a pidfd for the pid, whose record then named it; the socket
    in its descriptor table, seen again behind the pin; its image read there; a start
    no later than the connection; and a recheck after that which raised nothing. *)
Definition loopback_evidence (client server : AddrPort) (opts : option Options) (b : loopbackLinuxBinding) (p : Peer) (hi : nat) : Prop :=
  ∃ t0 t1 t2 t3 t4 t5 row connected,
    (t0 < t1)%nat /\ (t1 < t2 <= t3)%nat /\ (t3 < t4 <= t5)%nat /\ (t5 < hi)%nat /\
    tableRow t0 client server = Ok (Some row) /\
    tr_uid row = k_getuid (K (S t0)) /\
    ll_client b = client /\ ll_server b = server /\ ll_inode b = tr_inode row /\ ll_uid b = tr_uid row /\
    sole_holder (ll_pid b) (ll_inode b) (ll_uid b) (S (S t0)) t1 /\
    k_pidfdOpen (K t1) (ll_pid b) = Ok (ll_pidfd b) /\
    pid_line K (S t1) (ll_pidfd b) (ll_pid b) /\
    held (ll_pid b) (ll_inode b) t2 t3 /\
    image K t3 (ll_pid b) (ll_exe b) /\
    connection_at opts connected t3 t4 /\
    After (StartTime (attr_value (PProcess p))) (TimeAdd connected startTimeSlop) = false /\
    recheck_clear b t4 t5 /\
    attr_proof (PUser p) = ProofKernel /\ UID (attr_value (PUser p)) = tr_uid row /\
    attr_proof (PProcess p) = ProofBound /\ PID (attr_value (PProcess p)) = ll_pid b /\
    attr_value (PPath p) = ll_exe b /\ within p (loopbackBest true).

Definition holding (b : loopbackLinuxBinding) (fds0 : list Z) (s : LState) : Prop :=
  0 <= ll_pidfd b /\ fds s = ll_pidfd b :: fds0.

Lemma wp_fail {A} b fds0 e (Q : result A → LState → Prop) s :
  holding b fds0 s → (∀ s', fds s' = fds0 → Q (Err e) s') →
  wp (_ ← ll_release b; mret (Err e)) Q s.
Proof.
  intros [Hp Hf] HQ. unfold ll_release. rewrite (proj2 (Z.ltb_ge _ _)) by done.
  apply wp_bind, wp_bind, wp_close. intros e' s' Ht Hf'. do 2 apply wp_ret.
  apply HQ. by rewrite Hf', Hf, remove_first_head.
Qed.

Lemma loopbackPeer_within now row gid pid started exe deleted pkg :
  within (loopbackPeer now row gid pid started exe deleted pkg) (loopbackBest true).
Proof.
  intros []; cbn; try done; [destruct deleted|]; try done. destruct (String.eqb pkg.1 ""); done.
Qed.

Lemma capturePinned_spec b row opts fds0 s :
  holding b fds0 s → ll_inode b = tr_inode row →
  wp (capturePinned b row opts)
    (λ r s', match r with
       | Err e => fds s' = fds0 /\ errors_is e ErrPeerPending = false
       | Ok (b', p) => holding b' fds0 s' /\
           (ll_client b', ll_server b', ll_inode b', ll_uid b', ll_pidfd b', ll_pid b') =
           (ll_client b, ll_server b, ll_inode b, ll_uid b, ll_pidfd b, ll_pid b) /\
           pid_line K (tick s) (ll_pidfd b) (ll_pid b) /\
           ∃ t2 t3 t4 t5, (tick s < t2 <= t3)%nat /\ (t3 < t4 <= t5)%nat /\ (t5 < tick s')%nat /\
             held (ll_pid b) (ll_inode b) t2 t3 /\ image K t3 (ll_pid b) (ll_exe b') /\
             recheck_clear b' t4 t5 /\
             ∃ now gid started deleted pkg connected,
               connection_at opts connected t3 t4 /\ After started (TimeAdd connected startTimeSlop) = false /\
               p = loopbackPeer now row gid (ll_pid b) started (ll_exe b') deleted pkg
       end) s.
Proof.
  intros Hh Hi. unfold capturePinned.
  assert (∀ s', fds s' = fds s → holding b fds0 s') as Hkeep.
  { intros s' Hs'. destruct Hh as [H1 H2]. split; [done|congruence]. }
  eapply wp_bind, wp_mono; [apply pidfdAlive_spec|]. intros live s1 (Ht1 & Hf1 & Hlive).
  destruct live as [[]|e].
  2, 3: by apply (wp_fail _ fds0); [apply Hkeep|]; intros.
  rewrite <- Hi. eapply wp_bind, wp_mono; [apply holds_spec|]. intros h s2 (Ht2 & Hf2 & Hheld).
  destruct h; cbn [negb]; [|apply (wp_fail _ fds0); [apply Hkeep; congruence|]; by intros].
  apply wp_bind, wp_processExe.
  { intros e s3 Ht3 Hf3 _. apply (wp_fail _ fds0); [apply Hkeep; congruence|]; by intros. }
  intros exe d s3 Ht3 Hf3 Hexe.
  apply wp_bind, wp_quiet; [apply quiet_processStartTime|]. intros st s4 Ht4 Hf4.
  destruct st as [started|e]; [|apply (wp_fail _ fds0); [apply Hkeep; congruence|]; by intros].
  eapply wp_bind, wp_mono; [apply connectedAtM_spec|]. intros connected s5 (Ht5 & Hf5 & Hconn).
  case_goal; [apply (wp_fail _ fds0); [apply Hkeep; congruence|]; by intros|].
  eapply wp_bind, wp_mono; [apply recheck_spec|]. intros c s6 ((Ht6 & Hf6 & Hc) & Hclear).
  destruct c as [e|].
  { apply (wp_fail _ fds0); [apply Hkeep; congruence|]. intros s' Hs'. split; [done|].
    by destruct (Hc e eq_refl). }
  apply wp_bind, wp_ask. intros s7 Ht7 Hf7. apply wp_bind, wp_ask. intros s8 Ht8 Hf8.
  apply wp_bind, wp_quiet; [apply quiet_sandboxPackage|]. intros pkg s9 Ht9 Hf9.
  apply wp_ret. split; [destruct Hh as [H1 H2]; split; cbn; [done|congruence]|].
  split; [done|]. split; [by apply Hlive|]. exists (tick s1), (tick s2), (tick s5), (tick s6).
  do 3 (split; [lia|]). do 2 (split; [done|]). split; [by apply Hclear|].
  eexists _, _, _, _, _, connected. split; [|done].
  destruct Hconn as [Ho|(t & ? & ? & ?)]; [by left|right]. exists t. split; [lia|done].
Qed.

Definition pidfdOpen_valid : Prop := ∀ t pid p, k_pidfdOpen (K t) pid = Ok p → 0 <= p.

(** Nothing was pinned when the lookup is said to be pending. *)
Lemma bindLoopback_spec client server opts s :
  pidfdOpen_valid →
  wp (bindLoopback client server opts)
    (λ r s', match r with
       | Err e => fds s' = fds s
       | Ok (b, p) => holding b (fds s) s' /\ loopback_evidence client server opts b p (tick s')
       end) s.
Proof.
  intros Hv. unfold bindLoopback.
  apply wp_bind, wp_quiet; [apply quiet_pidfdOpenSupport|]. intros [ok why] s1 Ht1 Hf1.
  case_goal; [by apply wp_ret|]. apply wp_bind, wp_socketRow. intros s2 Ht2 Hf2.
  destruct (tableRow _ _ _) as [[row|]|e] eqn:Hrow; [|apply wp_ret; congruence..].
  apply wp_bind, wp_ask. intros s3 Ht3 Hf3.
  destruct (tr_uid row =? _) eqn:Huid; to_prop; cbn [negb]; [|apply wp_ret; congruence].
  case_goal; [apply wp_ret; congruence|].
  eapply wp_bind, wp_mono; [apply holders_spec|]. intros h s4 (Ht4 & Hf4 & Hscan).
  destruct h as [[|pid [|pid2 pids]]|e]; [apply wp_ret; congruence| |apply wp_ret; congruence..].
  apply scan_found_sole in Hscan.
  apply wp_bind, wp_pidfdOpen; [intros e s5 _ Hf5; apply wp_ret; congruence|].
  intros pidfd s5 Ht5 Hf5 Hop. eapply wp_mono.
  { apply (capturePinned_spec _ _ _ (fds s)); [|done]. split; cbn; [by eapply Hv|congruence]. }
  intros [[b p]|e] s6 Hpost; [|by destruct Hpost].
  destruct Hpost as (Hh & Heq & Hline & t2 & t3 & t4 & t5 & Ht23 & Ht45 & Ht5' & Hheld & Himg & Hclear &
                     now & gid & started & d & pkg & connected & Hconn & Hstart & ->).
  cbn in *. split; [done|]. injection Heq as Hc Hs Hi Hu Hp Hpid.
  exists (tick s1), (tick s4), t2, t3, t4, t5, row, connected. unfold loopback_evidence. cbn.
  rewrite Hi, Hu, Hp, Hpid. rewrite Ht5 in Hline. rewrite Ht2 in Huid. rewrite Ht3, Ht2 in Hscan.
  repeat (split; [first [done | lia | by destruct d]|]). apply loopbackPeer_within.
Qed.

(** ** Properties *)


(** The recheck of a loopback binding never calls a closed connection moved:
    when the table has no established row for the pair, or cannot be read, it
    raises nothing; what it does raise is always [ErrPeerMoved], never
    [ErrPeerPending]; and an established socket of another inode always raises. *)
Theorem loopback_recheck b s :
  let '(r, s') := ll_recheck b s in
  let row := match k_readFile (K (tick s)) "/proc/self/net/tcp" with
             | Ok data => findRow bigEndian (tail (Split data newline)) (ll_client b) (ll_server b)
             | Err e => Err e
             end in
  fds s' = fds s /\ moved_only r /\
  match row with
  | Ok (Some row) => (established row = false → r = None) /\
                     (established row = true → tr_inode row ≠ ll_inode b → is_Some r)
  | _ => r = None
  end.
Proof.
  pose proof (recheck_moved b s) as H. unfold wp in H.
  destruct (ll_recheck b s) as [r s'] eqn:E. destruct H as (_ & Hf & Hm). cbn in Hf, Hm.
  split; [done|]. split; [done|]. clear Hf Hm. revert E.
  unfold ll_recheck, socketRow, readFile, ask, mbind, M_bind, mret, M_ret. cbn.
  destruct (k_readFile _ _) as [data|e]; cbn; [|by intros [= <- _]].
  destruct (findRow _ _ _ _) as [[row|]|e]; cbn; [|by intros [= <- _]..].
  destruct (established row); cbn; [|by intros [= <- _]].
  intros E. split; [done|]. intros _ Hne. apply Z.eqb_neq in Hne. rewrite Hne in E. cbn in E.
  by injection E as <- _.
Qed.

End Loopback.

(** ** A machine *)

(** Process 4242 holds the client end of 127.0.0.1:50000 -> 127.0.0.1:8080. *)
Definition loopbackKernel : Kernel :=
  mkKernel (1700000100 * second) (λ _ _, Err (OSErr ENOENT)) (λ _, Err (OSErr ENOENT))
    (λ _, Err (OSErr ENOENT)) (Err (OSErr ENOENT))
    (λ path,
       if String.eqb path "/proc/self/net/tcp"
       then Ok ("  sl  local_address rem_address" +:+ of_char newline
                +:+ "   0: 0100007F:C350 0100007F:1F90 01 00000000:00000000 00:00000000 00000000  1000        0 555 1"
                +:+ of_char newline)
       else if String.eqb path "/proc/self/fdinfo/7" then Ok ("Pid: 4242" +:+ of_char newline)
       else if String.eqb path "/proc/4242/stat"
       then Ok "4242 (app) S 1 1 1 0 -1 0 0 0 0 0 0 0 0 0 20 0 1 0 500 0 0"
       else if String.eqb path "/proc/stat" then Ok ("cpu 1 2" +:+ of_char newline +:+ "btime 1700000000")
       else Err (OSErr ENOENT))
    (λ path, if String.eqb path "/proc/4242/exe" then Ok "/usr/bin/app"
             else if String.eqb path "/proc/4242/fd/3" then Ok "socket:[555]"
             else Err (OSErr ENOENT))
    (λ path, if String.eqb path "/proc" then Ok ["1"; "4242"; "self"]
             else if String.eqb path "/proc/4242/fd" then Ok ["0"; "3"] else Err (OSErr ENOENT))
    (λ path, if String.eqb path "/proc/4242" then Ok (1000, 1000) else Ok (0, 0))
    (λ _, Ok 7) (λ _, None) (Ok [(17, 100)]) 1000.

Definition loopbackClient : AddrPort := mkAddrPort [127; 0; 0; 1] 50000.
Definition loopbackServer : AddrPort := mkAddrPort [127; 0; 0; 1] 8080.

