(* ===== verification/GoIO.v ===== *)
(** Go's [io] as the framed protocol uses it: readers and writers as interfaces,
    [io.ReadFull], and a connection whose behaviour is scripted.

    A connection delivers its peer's bytes in chunks of any size, interleaved with
    failures such as a deadline, and reports end of file after the last; it
    accepts a write whole, in part or not at all, as its script says. Whatever a
    real connection does is some such pair of scripts. *)

From S2P Require Import Prelude GoStrings GoError.

(** ** Readers *)

(** [read n s] is [Read] with a buffer of [n] bytes: the bytes read, the error and
    the reader afterwards. [incoming] is what it has still to deliver: the bytes up
    to its next failure, and that failure. [reads_left] bounds the reads that make
    no use of it. *)
Class Reader (T : Type) := {
  read : nat → T → list byte * option err * T;
  incoming : T → list byte * err;
  reads_left : T → nat
}.

(** A reader delivers its bytes in order, nothing else, and its failure after
    them. *)
Class ReaderOk (T : Type) {R : Reader T} := {
  read_data n s bs s' : (0 < n)%nat → read n s = (bs, None, s') →
    (length bs <= n)%nat /\ (reads_left s' < reads_left s + length bs)%nat /\
    incoming s = (bs ++ (incoming s').1, (incoming s').2);
  read_error n s bs e s' : (0 < n)%nat → read n s = (bs, Some e, s') →
    bs = [] /\ incoming s = ([], e)
}.

(** The loop of [io.ReadAtLeast] for a full buffer: [n] bytes are still wanted. *)
Fixpoint readLoop `{Reader T} (fuel n : nat) (s : T) : list byte * option err * T :=
  match n with
  | O => ([], None, s)
  | _ =>
      match fuel with
      | O => ([], Some (Sentinel IoErrNoProgress), s)
      | S fuel =>
          let '(bs, e, s') := read n s in
          match e with
          | Some e => (bs, Some e, s')
          | None => let '(rest, e', s'') := readLoop fuel (n - length bs) s' in (bs ++ rest, e', s'')
          end
      end
  end.

(** [io.ReadFull]: the loop makes at most [reads_left s + n] reads. *)
Definition ReadFull `{Reader T} (n : nat) (s : T) : list byte * option err * T :=
  let '(bs, e, s') := readLoop (reads_left s + n) n s in
  if (n <=? length bs)%nat then (bs, None, s')
  else match e with
       | Some (Sentinel IoEOF) =>
           if (0 <? length bs)%nat then (bs, Some (Sentinel IoErrUnexpectedEOF), s') else (bs, e, s')
       | _ => (bs, e, s')
       end.

(** What a short read reports. *)
Definition short_error (got : list byte) (e : err) : err :=
  match got, e with
  | [], _ => e
  | _, Sentinel IoEOF => Sentinel IoErrUnexpectedEOF
  | _, _ => e
  end.

Section ReadFull.
Context `{ReaderOk T}.

Lemma readLoop_spec fuel n s :
  (reads_left s + n <= fuel)%nat →
  let '(bs, e, s') := readLoop fuel n s in
  if (n <=? length (incoming s).1)%nat
  then bs = take n (incoming s).1 /\ e = None /\ incoming s' = (drop n (incoming s).1, (incoming s).2)
  else bs = (incoming s).1 /\ e = Some (incoming s).2.
Proof.
  revert n s. induction fuel as [|fuel IH]; intros n s Hf.
  { assert (n = 0%nat) as -> by lia. simpl. split_and!; [done|done|]. by destruct (incoming s). }
  destruct n as [|n]; [simpl; split_and!; [done|done|]; by destruct (incoming s)|].
  cbn [readLoop]. destruct (read (S n) s) as [[bs [e|]] s'] eqn:Hr.
  - apply read_error in Hr as [-> Hi]; [|lia]. rewrite Hi. simpl. done.
  - apply read_data in Hr as (Hl & Hp & Hi); [|lia].
    specialize (IH (S n - length bs)%nat s' ltac:(lia)).
    destruct (readLoop fuel _ s') as [[rest e'] s''].
    rewrite Hi. cbn [fst snd]. rewrite length_app.
    destruct (Nat.leb_spec (S n) (length bs + length (incoming s').1));
      destruct (Nat.leb_spec (S n - length bs) (length (incoming s').1)); try lia.
    + destruct IH as (-> & -> & Hi''). rewrite Hi''. split_and!.
      * rewrite take_app_ge by lia. done.
      * done.
      * by rewrite drop_app_ge by lia.
    + by destruct IH as [-> ->].
Qed.

(** [io.ReadFull] reads exactly what was asked for when it is there, whatever the
    chunks; otherwise everything there was, with the reader's failure. *)
Lemma ReadFull_spec n s :
  let '(bs, e, s') := ReadFull n s in
  if (n <=? length (incoming s).1)%nat
  then bs = take n (incoming s).1 /\ e = None /\ incoming s' = (drop n (incoming s).1, (incoming s).2)
  else bs = (incoming s).1 /\ e = Some (short_error (incoming s).1 (incoming s).2).
Proof.
  unfold ReadFull. pose proof (readLoop_spec (reads_left s + n) n s (le_n _)) as Hl.
  destruct (readLoop _ n s) as [[bs e] s'].
  destruct (Nat.leb_spec n (length (incoming s).1)) as [Hle|Hgt].
  - destruct Hl as (-> & -> & Hi). rewrite length_take, Nat.min_l, Nat.leb_refl by lia. done.
  - destruct Hl as [-> ->]. rewrite (proj2 (Nat.leb_gt _ _)) by lia.
    destruct (incoming s) as [[|b bs] x]; destruct x as [[]|?|?|? ?|?|? ? ? ?|? ?|? ?|? ?]; done.
Qed.

Lemma ReadFull_ok n s bs s' : ReadFull n s = (bs, None, s') →
  length bs = n /\ incoming s = (bs ++ (incoming s').1, (incoming s').2).
Proof.
  intros Hr. pose proof (ReadFull_spec n s) as Hs. rewrite Hr in Hs. case_match; to_prop; [|by destruct Hs].
  destruct Hs as (-> & _ & ->). cbn. split; [rewrite length_take; lia|].
  rewrite take_drop. by destruct (incoming s).
Qed.

End ReadFull.

(** ** Writers *)

(** [write p s] is [Write]: the count and the error it reports. *)
Class Writer (T : Type) := write : list byte → T → Z * option err * T.

(** The loop of [writeHeadedCount] over one part, which also accounts for writers
    that report counts they should not. *)
Fixpoint writeLoop `{Writer T} (fuel : nat) (part : list byte) (written : Z) (s : T)
    : Z * option err * T :=
  match part with
  | [] => (written, None, s)
  | _ =>
      match fuel with
      | O => (written, Some (Sentinel IoErrNoProgress), s)
      | S fuel =>
          let '(n, e, s') := write part s in
          if (n <? 0) || (Z.of_nat (length part) <? n) then (written, Some (Sentinel IoErrShortWrite), s')
          else
            let written := written + n in
            match e with
            | Some e => (written, Some e, s')
            | None =>
                if n <=? 0 then (written, Some (Sentinel IoErrShortWrite), s')
                else writeLoop fuel (drop (Z.to_nat n) part) written s'
            end
      end
  end.

(** ** Connections *)

Inductive revent :=
| RData (d : list byte)
| RFail (e : err).

(** What a write meets: it is taken whole, or it reports this count and error. *)
Inductive wevent :=
| WAll
| WPart (n : Z) (e : option err).

(** [sent] and [got] are the bytes accepted from and handed to this end so far;
    [deadlines] the deadlines it was given, latest first. *)
Record conn := mkConn {
  inbox : list revent;
  outbox : list wevent;
  sent : list byte;
  got : list byte;
  deadlines : list Time;
  conn_closed : bool
}.

(** What the script still delivers before its next failure. *)
Fixpoint script_stream (ib : list revent) : list byte * err :=
  match ib with
  | [] => ([], Sentinel IoEOF)
  | RFail e :: _ => ([], e)
  | RData d :: rest => let '(bs, e) := script_stream rest in (d ++ bs, e)
  end.

Definition took (c : conn) (bs : list byte) (ib : list revent) : conn :=
  mkConn ib (outbox c) (sent c) (got c ++ bs) (deadlines c) (conn_closed c).

(** [Read]: a chunk, or as much of it as the buffer takes. *)
Definition connRead (n : nat) (c : conn) : list byte * option err * conn :=
  if conn_closed c then ([], Some (Sentinel NetErrClosed), c)
  else match inbox c with
  | [] => ([], Some (Sentinel IoEOF), c)
  | RFail e :: rest => ([], Some e, took c [] rest)
  | RData d :: rest =>
      if (length d <=? n)%nat then (d, None, took c d rest)
      else (take n d, None, took c (take n d) (RData (drop n d) :: rest))
  end.

Definition gave (c : conn) (bs : list byte) (ob : list wevent) : conn :=
  mkConn (inbox c) ob (sent c ++ bs) (got c) (deadlines c) (conn_closed c).

(** [Write]: the next answer of the script, or the whole write once it has run
    out; the bytes accepted are on the wire. *)
Definition connWrite (p : list byte) (c : conn) : Z * option err * conn :=
  if conn_closed c then (0, Some (Sentinel NetErrClosed), c)
  else match outbox c with
  | [] => (Z.of_nat (length p), None, gave c p [])
  | WAll :: rest => (Z.of_nat (length p), None, gave c p rest)
  | WPart n e :: rest => (n, e, gave c (take (Z.to_nat n) p) rest)
  end.

(** [SetDeadline] and [SetReadDeadline] fail on a closed connection only. *)
Definition connSetDeadline (t : Time) (c : conn) : option err * conn :=
  if conn_closed c then (Some (Sentinel NetErrClosed), c)
  else (None, mkConn (inbox c) (outbox c) (sent c) (got c) (t :: deadlines c) false).

Definition connClose (c : conn) : conn :=
  mkConn (inbox c) (outbox c) (sent c) (got c) (deadlines c) true.

#[global] Instance conn_Reader : Reader conn :=
  {| read := connRead;
     incoming c := if conn_closed c then ([], Sentinel NetErrClosed) else script_stream (inbox c);
     reads_left c := length (inbox c) |}.

#[global] Instance conn_Writer : Writer conn := connWrite.

#[global] Instance conn_ReaderOk : ReaderOk conn.
Proof.
  constructor.
  - intros n c bs c' Hn Hr. cbn in *. unfold connRead in Hr.
    destruct (conn_closed c) eqn:Hc; [done|].
    destruct (inbox c) as [|[d|e] rest] eqn:Hi; simplify_eq.
    case_match; simplify_eq; cbn; rewrite Hc; to_prop;
      destruct (script_stream rest) as [rs re] eqn:Hs; cbn.
    + split_and!; [lia|lia|done].
    + rewrite length_take. split_and!; [lia|lia|].
      by rewrite app_assoc, take_drop.
  - intros n c bs e c' Hn Hr. cbn in *. unfold connRead in Hr.
    destruct (conn_closed c) eqn:Hc; [by simplify_eq|].
    destruct (inbox c) as [|[d|e'] rest] eqn:Hi; simplify_eq; try done. by case_match.
Qed.

(** A read hands out bytes and changes nothing else. *)
Lemma connRead_got n c bs e c' : connRead n c = (bs, e, c') →
  got c' = got c ++ bs /\ sent c' = sent c /\ outbox c' = outbox c /\ deadlines c' = deadlines c /\
  conn_closed c' = conn_closed c.
Proof.
  unfold connRead. intros Hr.
  repeat case_hyp Hr; simplify_eq; cbn; rewrite ?app_nil_r; split_and!; done.
Qed.

Lemma ReadFull_got n (c : conn) :
  let '(bs, _, c') := ReadFull n c in
  got c' = got c ++ bs /\ sent c' = sent c /\ outbox c' = outbox c /\ deadlines c' = deadlines c /\
  conn_closed c' = conn_closed c.
Proof.
  unfold ReadFull.
  assert (∀ fuel n (c : conn), let '(bs, _, c') := readLoop fuel n c in
    got c' = got c ++ bs /\ sent c' = sent c /\ outbox c' = outbox c /\ deadlines c' = deadlines c /\
    conn_closed c' = conn_closed c) as Hl.
  { clear. induction fuel as [|fuel IH]; intros [|n] c; cbn [readLoop]; try (by rewrite app_nil_r).
    cbn [read conn_Reader]. destruct (connRead (S n) c) as [[bs [e|]] c1] eqn:Hr; apply connRead_got in Hr; [done|].
    specialize (IH (S n - length bs)%nat c1). destruct (readLoop fuel _ c1) as [[rest e'] c2].
    destruct Hr as (H1 & H2 & H3 & H4 & H5), IH as (I1 & I2 & I3 & I4 & I5).
    rewrite I1, H1, app_assoc. split_and!; congruence. }
  specialize (Hl (reads_left c + n)%nat n c). destruct (readLoop _ n c) as [[bs e] c'].
  repeat case_goal; done.
Qed.

(** The bytes the script still holds, whatever failures come between. *)
Fixpoint script_bytes (ib : list revent) : list byte :=
  match ib with
  | [] => []
  | RData d :: rest => d ++ script_bytes rest
  | RFail _ :: rest => script_bytes rest
  end.

(** Every byte the peer sends on this connection, read already or not. *)
Definition wire_in (c : conn) : list byte := got c ++ script_bytes (inbox c).

Lemma connRead_wire n c : wire_in (connRead n c).2 = wire_in c.
Proof.
  unfold connRead, wire_in. destruct (conn_closed c); [done|].
  destruct (inbox c) as [|[d|e] rest] eqn:Hi; cbn; [by rewrite Hi| |by rewrite app_nil_r].
  case_goal; cbn; rewrite <- app_assoc; [done|]. f_equal. by rewrite app_assoc, take_drop.
Qed.

Lemma ReadFull_wire n (c : conn) : wire_in (ReadFull n c).2 = wire_in c.
Proof.
  unfold ReadFull.
  assert (∀ fuel n (c : conn), wire_in (readLoop fuel n c).2 = wire_in c) as Hl.
  { clear. induction fuel as [|fuel IH]; intros [|n] c; cbn [readLoop]; try done.
    pose proof (connRead_wire (S n) c) as Hw. cbn [read conn_Reader].
    destruct (connRead (S n) c) as [[bs [e|]] c1]; [done|]. cbn in Hw.
    specialize (IH (S n - length bs)%nat c1). destruct (readLoop fuel _ c1) as [[rest e'] c2].
    cbn in *. congruence. }
  specialize (Hl (reads_left c + n)%nat n c). destruct (readLoop _ n c) as [[bs e] c'].
  repeat case_goal; done.
Qed.

(** A connection with nothing sent yet. *)
Definition newConn (ib : list revent) : conn := mkConn ib [] [] [] [] false.

(** The bytes [bs], one read at a time in chunks given by their sizes. *)
Fixpoint chunked (sizes : list nat) (bs : list byte) : list revent :=
  match sizes with
  | [] => [RData bs]
  | n :: ns => RData (take n bs) :: chunked ns (drop n bs)
  end.

Lemma chunked_stream sizes bs : script_stream (chunked sizes bs) = (bs, Sentinel IoEOF).
Proof.
  revert bs. induction sizes as [|n ns IH]; intros bs; cbn; [by rewrite app_nil_r|].
  rewrite IH. cbn. by rewrite take_drop.
Qed.

(** An open connection that takes every write. *)
Definition takes_all (c : conn) : Prop := Forall (λ a, a = WAll) (outbox c) /\ conn_closed c = false.

Lemma connWrite_takes p c : takes_all c →
  ∃ ob, connWrite p c = (Z.of_nat (length p), None, gave c p ob) /\ takes_all (gave c p ob).
Proof.
  intros [Ho Hc]. unfold connWrite. rewrite Hc. destruct (outbox c) as [|a rest] eqn:E.
  - exists []. split; [done|]. split; [constructor|done].
  - apply Forall_cons in Ho as [-> Ho]. exists rest. by split.
Qed.

Lemma writeLoop_conn fuel part written (c : conn) :
  takes_all c → (length part <= fuel)%nat →
  ∃ c', writeLoop fuel part written c = (written + Z.of_nat (length part), None, c') /\
        sent c' = sent c ++ part /\ takes_all c'.
Proof.
  intros Ht Hf. destruct part as [|b part].
  { exists c. rewrite Z.add_0_r, app_nil_r. by destruct fuel. }
  destruct fuel as [|fuel]; [cbn in Hf; lia|].
  cbn [writeLoop]. unfold write, conn_Writer.
  destruct (connWrite_takes (b :: part) c Ht) as (ob & -> & Ht').
  set (len := Z.of_nat (length (b :: part))).
  assert (0 < len) by (subst len; cbn [length]; lia).
  rewrite (proj2 (Z.ltb_ge len 0)), Z.ltb_irrefl by lia. cbn [orb].
  rewrite (proj2 (Z.leb_gt len 0)) by lia.
  subst len. rewrite Nat2Z.id, drop_all. eexists. split; [by destruct fuel|done].
Qed.
