(* ===== verification/GoBufio.v ===== *)
(** Go's [bufio.Scanner] as listen/listen.go uses it: lines, and a buffer of the
    largest size from the start. *)

From S2P Require Import Prelude GoStrings GoError GoIO.

Definition ErrTooLong : err := Plain "bufio.Scanner: token too long".

(** [maxConsecutiveEmptyReads]. *)
Definition maxEmptyReads : nat := 100.

(** [bytes.IndexByte(data, '\n')]. *)
Fixpoint indexNL (bs : list byte) : option nat :=
  match bs with
  | [] => None
  | b :: rest => if decide (b = x0a) then Some O else S <$> indexNL rest
  end.

(** [dropCR]. *)
Definition dropCR (bs : list byte) : list byte :=
  match last bs with
  | Some x0d => take (length bs - 1) bs
  | _ => bs
  end.

(** [bufio.ScanLines]: how far to advance, and the token. *)
Definition ScanLines (data : list byte) (atEOF : bool) : nat * option (list byte) :=
  if atEOF && (length data =? 0)%nat then (O, None)
  else match indexNL data with
  | Some i => (S i, Some (dropCR (take i data)))
  | None => if atEOF then (length data, Some (dropCR data)) else (O, None)
  end.

(** A scanner whose buffer has [sc_max] bytes, which is also the largest token: the
    window [buf\[start:end\]] it holds, where it starts, and the first error of its
    reader. *)
Record scanner (T : Type) := mkScanner {
  sc_r : T; sc_max : nat; sc_start : nat; sc_data : list byte; sc_err : option err
}.
Arguments mkScanner {T}.
Arguments sc_r {T}.
Arguments sc_max {T}.
Arguments sc_start {T}.
Arguments sc_data {T}.
Arguments sc_err {T}.

Section Scanner.
Context `{Reader T}.

(** [NewScanner] and [Buffer] with a buffer of [max] bytes. *)
Definition NewScanner (r : T) (max : nat) : scanner T := mkScanner r max O [] None.

(** The reads of one turn: up to the first byte or error, [more] after the next one. *)
Fixpoint fillLoop (more : nat) (s : scanner T) : scanner T :=
  let '(bs, e, r) := read (sc_max s - (sc_start s + length (sc_data s))) (sc_r s) in
  let s := mkScanner r (sc_max s) (sc_start s) (sc_data s ++ bs) (sc_err s) in
  match e with
  | Some e => mkScanner r (sc_max s) (sc_start s) (sc_data s) (Some e)
  | None =>
      if (0 <? length bs)%nat then s
      else match more with
           | O => mkScanner r (sc_max s) (sc_start s) (sc_data s) (Some (Sentinel IoErrNoProgress))
           | S more => fillLoop more s
           end
  end.

(** Data moves to the front of the buffer when the end of it is reached or more
    than half of it is behind. *)
Definition shift (s : scanner T) : scanner T :=
  let stop := (sc_start s + length (sc_data s))%nat in
  if (0 <? sc_start s)%nat && ((stop =? sc_max s)%nat || (sc_max s / 2 <? sc_start s)%nat)
  then mkScanner (sc_r s) (sc_max s) O (sc_data s) (sc_err s)
  else s.

(** The token at the front of the window, if it holds one. *)
Definition splitData (s : scanner T) : option (list byte) * scanner T :=
  let atEOF := match sc_err s with Some _ => true | None => false end in
  if (0 <? length (sc_data s))%nat || atEOF then
    let '(advance, token) := ScanLines (sc_data s) atEOF in
    (token, mkScanner (sc_r s) (sc_max s) (sc_start s + advance) (drop advance (sc_data s)) (sc_err s))
  else (None, s).

(** [Scanner.Scan]: a turn gives a token, ends, or reads on. *)
Fixpoint scanLoop (fuel : nat) (s : scanner T) : option (list byte) * scanner T :=
  match fuel with
  | O => (None, s)
  | S fuel =>
      match splitData s with
      | (Some token, s) => (Some token, s)
      | (None, s) =>
          match sc_err s with
          | Some _ => (None, mkScanner (sc_r s) (sc_max s) O [] (sc_err s))
          | None =>
              let s := shift s in
              if (sc_start s + length (sc_data s) =? sc_max s)%nat
              then (None, mkScanner (sc_r s) (sc_max s) (sc_start s) (sc_data s) (Some ErrTooLong))
              else scanLoop fuel (fillLoop maxEmptyReads s)
          end
      end
  end.

(** Every turn that reads on makes the window longer or ends the reader, so the
    room in the buffer bounds the turns. *)
Definition Scan (s : scanner T) : option (list byte) * scanner T :=
  scanLoop (sc_max s - length (sc_data s) + 2) s.

(** ** Lines of a stream *)

(** What a scanner has still to split: the bytes of its window and of its reader,
    and the failure after them. *)
Definition pending (s : scanner T) : list byte * err :=
  match sc_err s with
  | Some e => (sc_data s, e)
  | None => (sc_data s ++ (incoming (sc_r s)).1, (incoming (sc_r s)).2)
  end.

(** The first line of the bytes before a failure, with at most [max] bytes of it
    and its end looked at, and the bytes after it. *)
Definition firstLine (max : nat) (bs : list byte) : option (list byte * list byte) :=
  match indexNL (take max bs) with
  | Some i => Some (dropCR (take i bs), drop (S i) bs)
  | None => if (max <=? length bs)%nat || (length bs =? 0)%nat then None else Some (dropCR bs, [])
  end.

End Scanner.

Lemma indexNL_Some bs i : indexNL bs = Some i ↔ bs !! i = Some x0a /\ x0a ∉ take i bs.
Proof.
  revert i. induction bs as [|b bs IH]; intros i; cbn [indexNL]; [split; [done|intros [[=] _]]|].
  destruct (decide (b = x0a)) as [->|Hb].
  - split; [intros [= <-]; split; [done|apply not_elem_of_nil]|].
    destruct i as [|i]; [done|]. cbn. intros [_ []]. apply list_elem_of_here.
  - destruct i as [|i]; cbn; [split; [by destruct (indexNL bs)|intros [[=] _]; done]|].
    rewrite fmap_Some, not_elem_of_cons. split.
    + intros (j & Hj & [= ->]). apply IH in Hj as []. by split_and!.
    + intros (Hi & _ & Hn). exists i. split; [by apply IH|done].
Qed.

Lemma indexNL_None bs : indexNL bs = None ↔ x0a ∉ bs.
Proof.
  induction bs as [|b bs IH]; cbn [indexNL]; [split; [intros _; apply not_elem_of_nil|done]|].
  rewrite not_elem_of_cons, <- IH. destruct (decide (b = x0a)) as [->|Hb]; [split; [done|intros [[] _]; done]|].
  destruct (indexNL bs); cbn; [split; [done|intros [_ [=]]]|]. by split.
Qed.

Lemma indexNL_app bs cs i : indexNL bs = Some i → indexNL (bs ++ cs) = Some i.
Proof.
  rewrite !indexNL_Some. intros [Hi Hn]. pose proof (lookup_lt_Some _ _ _ Hi).
  split; [by apply lookup_app_l_Some|]. by rewrite take_app_le by lia.
Qed.

Lemma indexNL_take n bs i : indexNL bs = Some i → (i < n)%nat → indexNL (take n bs) = Some i.
Proof.
  rewrite !indexNL_Some. intros [Hi Hn] Hlt. rewrite lookup_take_lt by done.
  rewrite take_take, Nat.min_l by lia. done.
Qed.

Lemma indexNL_lt bs i : indexNL bs = Some i → (i < length bs)%nat.
Proof. rewrite indexNL_Some. intros [Hi _]. by eapply lookup_lt_Some. Qed.

(** ** Scanning is splitting *)

Section ScanSpec.
Context `{ReaderOk T}.

(** Readers that give at least a byte when they give no error, as those of network
    connections do. *)
Context (live : T → Prop).
Hypothesis live_read : ∀ n r bs r', live r → (0 < n)%nat → read n r = (bs, None, r') → bs ≠ [] /\ live r'.

Definition scannerOk (s : scanner T) : Prop :=
  (0 < sc_max s)%nat /\ (sc_start s + length (sc_data s) <= sc_max s)%nat /\
  match sc_err s with Some _ => (length (sc_data s) < sc_max s)%nat | None => live (sc_r s) end.

Lemma fillLoop_spec more s :
  scannerOk s → sc_err s = None → (sc_start s + length (sc_data s) < sc_max s)%nat →
  let s' := fillLoop more s in
  scannerOk s' /\ pending s' = pending s /\ sc_max s' = sc_max s /\
  (sc_err s' = None → (length (sc_data s) < length (sc_data s'))%nat).
Proof.
  intros (H0 & Hw & Hl) He Hroom. rewrite He in Hl.
  assert (fillLoop more s = let '(bs, e, r) := read (sc_max s - (sc_start s + length (sc_data s))) (sc_r s) in
    mkScanner r (sc_max s) (sc_start s) (sc_data s ++ bs) e) as ->.
  { destruct more; cbn [fillLoop];
      destruct (read _ (sc_r s)) as [[bs [e|]] r] eqn:Hr; rewrite ?He; try done;
      apply live_read in Hr as [Hbs _]; try done; try lia; by destruct bs. }
  destruct (read _ (sc_r s)) as [[bs [e|]] r] eqn:Hr; unfold pending, scannerOk; cbn; rewrite He.
  - apply read_error in Hr as [-> Hi]; [|lia]. rewrite Hi, app_nil_r. cbn. rewrite ?app_nil_r. split_and!; done || lia.
  - pose proof Hr as Hr'. apply live_read in Hr' as [Hbs Hl']; [|done|lia]. apply read_data in Hr as (Hn & _ & Hi); [|lia].
    rewrite Hi, length_app. cbn. rewrite app_assoc. destruct bs; [done|]. cbn in *. split_and!; done || lia.
Qed.

Lemma shift_spec s : scannerOk s →
  let s' := shift s in
  scannerOk s' /\ pending s' = pending s /\ sc_max s' = sc_max s /\ sc_data s' = sc_data s /\ sc_err s' = sc_err s /\
  (sc_start s' + length (sc_data s') = sc_max s' → length (sc_data s) = sc_max s)%nat.
Proof.
  intros (H0 & Hw & Hl). unfold shift. destruct (0 <? sc_start s)%nat eqn:Hz; to_prop; cbn [andb].
  - destruct (sc_start s + length (sc_data s) =? sc_max s)%nat eqn:H1; to_prop; cbn [orb].
    + unfold scannerOk, pending; cbn; split_and!; try done; lia.
    + case_goal; unfold scannerOk, pending; cbn; split_and!; try done; lia.
  - unfold scannerOk, pending; cbn; split_and!; try done; lia.
Qed.

(** What [Scan] makes of the bytes before the next failure. *)
Definition scanned (s : scanner T) (r : option (list byte) * scanner T) : Prop :=
  match firstLine (sc_max s) (pending s).1 with
  | Some (line, rest) => r.1 = Some line /\ scannerOk r.2 /\ sc_max r.2 = sc_max s /\ pending r.2 = (rest, (pending s).2)
  | None => r.1 = None /\ sc_err r.2 = Some (if (pending s).1 is [] then (pending s).2 else ErrTooLong)
  end.

Lemma splitData_token s token s' : scannerOk s → splitData s = (Some token, s') → scanned s (Some token, s').
Proof.
  intros (H0 & Hw & Hl). unfold splitData, ScanLines, scanned, firstLine. intros Hs.
  destruct (indexNL (sc_data s)) as [i|] eqn:Hi.
  - pose proof (indexNL_lt _ _ Hi) as Hlt.
    assert (indexNL (take (sc_max s) (pending s).1) = Some i) as ->.
    { apply indexNL_take; [|lia]. unfold pending. destruct (sc_err s); cbn; [done|by apply indexNL_app]. }
    destruct (length (sc_data s)) as [|k] eqn:Hk; [lia|]. cbn in Hs. rewrite andb_false_r in Hs. simplify_eq. cbn [fst snd].
    unfold scannerOk, pending. cbn. rewrite length_drop.
    destruct (sc_err s); cbn; rewrite ?take_app_le, ?drop_app_le by lia; split_and!; try done; lia.
  - destruct (sc_err s) as [e|] eqn:He; [|by repeat case_hyp Hs].
    assert (indexNL (take (sc_max s) (pending s).1) = None) as ->.
    { unfold pending. rewrite He. cbn. by rewrite take_ge by lia. }
    unfold pending at 1 2 3 4 5 6. rewrite He. cbn [fst snd].
    destruct (length (sc_data s)) as [|k] eqn:Hk; cbn in Hs; [done|]. simplify_eq.
    rewrite (proj2 (Nat.leb_gt _ _)) by lia. cbn. unfold scannerOk, pending. cbn.
    rewrite ?length_drop, ?drop_ge by (cbn; lia). rewrite Hk. cbn. split_and!; try done; lia.
Qed.

Lemma splitData_more s s' : scannerOk s → splitData s = (None, s') →
  indexNL (sc_data s) = None /\ (sc_err s ≠ None → sc_data s = []) /\ sc_data s' = sc_data s /\
  sc_err s' = sc_err s /\ sc_max s' = sc_max s /\ scannerOk s' /\ pending s' = pending s.
Proof.
  intros Hok. unfold splitData, ScanLines. intros Hs.
  destruct (indexNL (sc_data s)) as [i|] eqn:Hi.
  { pose proof (indexNL_lt _ _ Hi). destruct (length (sc_data s)) eqn:Hk; [lia|].
    cbn in Hs. rewrite andb_false_r in Hs. done. }
  split; [done|]. unfold scannerOk, pending in *. destruct s as [r m st d e]. cbn in *.
  destruct e as [e|]; destruct d as [|b d]; cbn in Hs; rewrite ?Hi in Hs; cbn in Hs; simplify_eq; cbn; rewrite ?Nat.add_0_r; cbn in *; destruct_and?; split_and!; done || lia.
Qed.

Lemma scanLoop_spec fuel s : scannerOk s → 
  ((if sc_err s is Some _ then 1 else sc_max s - length (sc_data s) + 2) <= fuel)%nat → scanned s (scanLoop fuel s).
Proof.
  revert s. induction fuel as [|fuel IH]; intros s Hok Hf; [destruct (sc_err s); lia|]. cbn [scanLoop].
  destruct (splitData s) as [[token|] s1] eqn:Hs; [by apply splitData_token|].
  apply splitData_more in Hs as (Hi & Hend & Hd1 & He1 & Hm1 & Hok1 & Hp1); [|done]. rewrite He1.
  destruct (sc_err s) as [e|] eqn:He.
  { unfold scanned, pending, firstLine. rewrite He, (Hend ltac:(done)). cbn. rewrite take_nil. cbn.
    rewrite orb_true_r. done. }
  destruct (shift_spec s1 Hok1) as (Hok2 & Hp2 & Hm2 & Hd2 & He2 & Hfull). set (s2 := shift s1) in *.
  destruct (sc_start s2 + length (sc_data s2) =? sc_max s2)%nat eqn:Hstop; to_prop.
  - specialize (Hfull Hstop). unfold scanned, pending, firstLine. rewrite He. cbn.
    rewrite take_app_le, take_ge, Hi by (rewrite <- ?Hd1; lia).
    rewrite (proj2 (Nat.leb_le _ _)) by (rewrite length_app, <- Hd1; lia). cbn.
    destruct Hok as [? _]. destruct (sc_data s); [rewrite Hd1 in Hfull; cbn in Hfull; lia|done].
  - generalize maxEmptyReads as more. intros more. destruct (fillLoop_spec more s2) as (Hok3 & Hp3 & Hm3 & Hg3); [done|congruence|destruct Hok2 as (? & ? & _); lia|].
    generalize dependent (fillLoop more s2). intros s3 Hok3 Hp3 Hm3 Hg3.
    assert (scanned s3 (scanLoop fuel s3)) as Hgo.
    { pose proof Hok3 as (_ & Hw3 & _). apply IH; [done|]. destruct (sc_err s3); [lia|]. specialize (Hg3 eq_refl).
      rewrite Hd2, Hd1 in Hg3. lia. }
    unfold scanned in *. rewrite Hp3, Hp2, Hp1, Hm3, Hm2, Hm1 in Hgo. exact Hgo.
Qed.
End ScanSpec.
