(* ===== verification/Frame.v ===== *)
(** The wire frames of listen/framed.go, the refusal word of
    listen/proof_refusal.go, and the small reads and writes they share with
    listen/pool.go and listen/session.go. *)

From S2P Require Import Prelude GoStrings GoError ProofLadder GoIO.

(** ** Words of the wire *)

Definition DefaultMaxFrame : Z := 1024 * 1024.
Definition DefaultFrameTimeout : Duration := 5 * second.

Definition sessionFlag : Z := Z.shiftl 1 31.
Definition oneWayFlag : Z := Z.shiftl 1 30.
Definition lengthMask : Z := oneWayFlag - 1.
Definition sessionAccept : Z := sessionFlag.
Definition sessionDecline : Z := 0.
Definition sessionUnsupported : Z := oneWayFlag.
Definition sessionClosing : Z := 4294967295.
Definition proofRefusalHeader : Z := 4294967294.

Definition frameLimit (n : Z) : Z :=
  if n =? 0 then DefaultMaxFrame else if lengthMask <? n then lengthMask else n.

Definition blen (b : list byte) : Z := Z.of_nat (length b).

(** ** The refusal word *)

Definition proofAttributes : list string := [""; "user"; "process"; "path"; "package"; "code"].

(** The loop of [proofRefusalBytes]: the first attribute that matches, from
    position [i]. *)
Fixpoint refusalTokens (names : list string) (i : Z) (attribute : string) (want : ProofLevel) : Z * Z :=
  match names with
  | [] => (0, 0)
  | name :: rest =>
      if String.eqb attribute name && negb (i =? 0) && (ProofNone <? want) && (want <=? ProofSigned)
      then (i, want)
      else refusalTokens rest (i + 1) attribute want
  end.

Definition proofRefusalBytes (e : err) : list byte :=
  let '(a, w) :=
    match errors_as_proof e with
    | Some (attribute, want, _, _) => refusalTokens proofAttributes 0 attribute want
    | None => (0, 0)
    end in
  be32_put proofRefusalHeader ++ [zb a; zb w].

(** What the two token bytes say. *)
Definition refusalOf (attribute required : Z) : err :=
  if (Z.of_nat (length proofAttributes) <=? attribute) || (ProofSigned <? required)
     || negb (eqb (attribute =? 0) (required =? 0))
  then Sentinel ErrProofRefusalProtocol
  else RefusalErr (default "" (proofAttributes !! Z.to_nat attribute)) required.

Section Codec.
Context {T : Type} `{Reader T} `{Writer T}.

(** ** Writing *)

(** [writeHeadedCount]: one write for a small payload, two otherwise. *)
Definition writeHeadedCount (header : Z) (frame : list byte) (s : T) : Z * option err * T :=
  let h := be32_put header in
  if (length frame <=? 64 * 1024)%nat then writeLoop (length (h ++ frame)) (h ++ frame) 0 s
  else
    let '(written, e, s') := writeLoop (length h) h 0 s in
    match e with
    | Some e => (written, Some e, s')
    | None => writeLoop (length frame) frame written s'
    end.

(** [writeHeaded]. *)
Definition writeHeaded (header : Z) (frame : list byte) (s : T) : option err * T :=
  let '(_, e, s') := writeHeadedCount header frame s in (e, s').

(** [writeFrame]. *)
Definition writeFrame (frame : list byte) (limit : Z) (s : T) : option err * T :=
  if limit <? blen frame then (Some (Sentinel ErrFrameTooLarge), s)
  else writeHeaded (blen frame) frame s.

(** [WriteFrameTo]. *)
Definition WriteFrameTo (frame : list byte) (limit : Z) (s : T) : option err * T :=
  writeFrame frame (frameLimit limit) s.

(** [writeUint32] of session.go: one write, whatever it accepts. *)
Definition writeUint32 (v : Z) (s : T) : option err * T :=
  let '(_, e, s') := write (be32_put v) s in (e, s').

(** [writeAll] of pool.go. A count beyond the buffer is a slice out of range. *)
Fixpoint writeAll_loop (fuel : nat) (b : list byte) (s : T) : option err * T :=
  match b with
  | [] => (None, s)
  | _ =>
      match fuel with
      | O => (Some (Sentinel IoErrNoProgress), s)
      | S fuel =>
          let '(n, e, s') := write b s in
          match e with
          | Some e => (Some e, s')
          | None =>
              if n <=? 0 then (Some (Sentinel IoErrShortWrite), s')
              else if blen b <? n then (Some (Plain "runtime error: slice bounds out of range"), s')
              else writeAll_loop fuel (drop (Z.to_nat n) b) s'
          end
      end
  end.

Definition writeAll (b : list byte) (s : T) : option err * T := writeAll_loop (length b) b s.

(** [sendProofRefusal]. *)
Definition sendProofRefusal (e : err) (s : T) : option err * T := writeAll (proofRefusalBytes e) s.

(** ** Reading *)

(** [readProofRefusal]: the refusal, or the failure to read one. *)
Definition readProofRefusal (s : T) : err * T :=
  let '(tokens, e, s') := ReadFull 2 s in
  match e with
  | Some e => (e, s')
  | None =>
      match tokens with
      | [a; r] => (refusalOf (bz a) (bz r), s')
      | _ => (Sentinel IoErrNoProgress, s')
      end
  end.

(** The largest frame an [int] can count. *)
Definition maxInt : Z := 2 ^ 63 - 1.

(** [readFrameBody]. *)
Definition readFrameBody (n limit : Z) (s : T) : result (list byte) * T :=
  if (limit <? n) || (maxInt <? n) then (Err (Sentinel ErrFrameTooLarge), s)
  else
    let '(frame, e, s') := ReadFull (Z.to_nat n) s in
    match e with
    | Some e => (Err e, s')
    | None => (Ok frame, s')
    end.

(** [readFrame]. *)
Definition readFrame (limit : Z) (s : T) : result (list byte) * T :=
  let '(h, e, s') := ReadFull 4 s in
  match e with
  | Some e => (Err e, s')
  | None =>
      let n := be32_get h in
      if n =? proofRefusalHeader then let '(x, s'') := readProofRefusal s' in (Err x, s'')
      else readFrameBody n limit s'
  end.

(** [ReadFrameFrom]. *)
Definition ReadFrameFrom (limit : Z) (s : T) : result (list byte) * T := readFrame (frameLimit limit) s.

(** [readUint32] of pool.go: the word, the bytes read and the error. *)
Definition readUint32 (s : T) : Z * nat * option err * T :=
  let '(b, e, s') := ReadFull 4 s in
  match e with
  | Some e => (0, length b, Some e, s')
  | None => (be32_get b, length b, None, s')
  end.

(** [waitFrameEOF]. *)
Definition waitFrameEOF (s : T) : option err * T :=
  let '(b, e, s') := read 1 s in
  match b with
  | b0 :: _ =>
      if bz b0 =? 255 then
        let '(rest, e', s'') := ReadFull 3 s' in
        match e' with
        | Some x => (Some x, s'')
        | None =>
            if be32_get (b0 :: rest) =? proofRefusalHeader
            then let '(x, s3) := readProofRefusal s'' in (Some x, s3)
            else (Some (Sentinel ErrUnexpectedResponse), s'')
        end
      else (Some (Sentinel ErrUnexpectedResponse), s')
  | [] =>
      match e with
      | Some x => if errors_is x IoEOF then (None, s') else (Some x, s')
      | None => (Some (Sentinel IoErrNoProgress), s')
      end
  end.

End Codec.

(** [frameError]: the context's error first, then a native deadline that passed
    with the context's own. [ctxErr] is [ctx.Err()], [deadline] [ctx.Deadline()]
    and [now] the clock. A nil error stays nil, for [os.IsTimeout(nil)] is
    false. *)
Definition frameError (ctxErr : option err) (deadline : option Time) (now : Time) (e : option err)
    : option err :=
  match ctxErr with
  | Some c => Some c
  | None =>
      match e with
      | Some x =>
          if is_timeout x then
            match deadline with
            | Some d => if negb (Before now d) then Some (Sentinel CtxDeadlineExceeded) else Some x
            | None => Some x
            end
          else Some x
      | None => None
      end
  end.

(** [frameContext]: the deadline of the call. *)
Definition frameDeadline (parent : option Time) (timeout : Duration) (now : Time) : Time :=
  let d := TimeAdd now (if timeout =? 0 then DefaultFrameTimeout else timeout) in
  match parent with Some p => Z.min p d | None => d end.

(** ** Lemmas *)

Lemma lengthMask_val : lengthMask = 2 ^ 30 - 1.
Proof. reflexivity. Qed.

Lemma frameLimit_range n : 0 <= n → 0 < frameLimit n <= lengthMask.
Proof.
  intros Hn. unfold frameLimit. rewrite lengthMask_val. unfold DefaultMaxFrame.
  repeat case_match; to_prop; lia.
Qed.

(** The low thirty bits are the length of the payload. *)
Lemma land_lengthMask n : Z.land n lengthMask = n mod 2 ^ 30.
Proof. apply (Z.land_ones n 30). lia. Qed.

Lemma land_flag n k : 0 <= k → Z.land n (Z.shiftl 1 k) = if Z.testbit n k then 2 ^ k else 0.
Proof.
  intros Hk. rewrite Z.shiftl_1_l. apply Z.bits_inj'. intros i Hi.
  rewrite Z.land_spec, Z.pow2_bits_eqb by lia.
  destruct (Z.testbit n k) eqn:E.
  - rewrite Z.pow2_bits_eqb by lia. destruct (Z.eqb_spec k i); [subst; by rewrite E|by rewrite andb_false_r].
  - rewrite Z.bits_0. destruct (Z.eqb_spec k i); [subst; by rewrite E|by rewrite andb_false_r].
Qed.

Lemma small_testbit n k : 0 <= k → 0 <= n < 2 ^ k → Z.testbit n k = false.
Proof.
  intros Hk Hn. rewrite Z.testbit_false by lia. rewrite Z.div_small by lia. done.
Qed.

(** A flag above the length space is added by the bitwise or. *)
Lemma lor_flag n k : 0 <= n < 2 ^ k → Z.lor n (Z.shiftl 1 k) = n + 2 ^ k.
Proof.
  intros Hn. assert (0 <= k) by (destruct (Z.le_gt_cases 0 k); [done|rewrite Z.pow_neg_r in Hn; lia]).
  rewrite <- (Z.shiftl_1_l k). symmetry. apply Z.add_nocarry_lor.
  rewrite land_flag, small_testbit by done. done.
Qed.

Section ReadLemmas.
Context {T : Type} `{ReaderOk T}.

(** What follows a word on any reader. *)
Lemma ReadFull_word (w : list byte) (rest : list byte) e (s : T) :
  incoming s = (w ++ rest, e) →
  ∃ s', ReadFull (length w) s = (w, None, s') /\ incoming s' = (rest, e).
Proof.
  intros Hi. pose proof (ReadFull_spec (length w) s) as Hr.
  destruct (ReadFull (length w) s) as [[bs e'] s']. rewrite Hi in Hr. cbn in Hr.
  rewrite length_app, (proj2 (Nat.leb_le _ _)) in Hr by lia.
  rewrite take_app_length, drop_app_length in Hr. destruct Hr as (-> & -> & Hr). by exists s'.
Qed.

Lemma readFrameBody_ok frame limit rest e (s : T) :
  blen frame <= limit → blen frame <= maxInt → incoming s = (frame ++ rest, e) →
  ∃ s', readFrameBody (blen frame) limit s = (Ok frame, s') /\ incoming s' = (rest, e).
Proof.
  intros Hl Hm Hi. unfold readFrameBody. rewrite !(proj2 (Z.ltb_ge _ _)) by done. cbn [orb].
  unfold blen. rewrite Nat2Z.id.
  destruct (ReadFull_word frame rest e s Hi) as (s' & -> & Hi'). by exists s'.
Qed.

Lemma readProofRefusal_ok a r rest e (s : T) :
  incoming s = ([a; r] ++ rest, e) →
  ∃ s', readProofRefusal s = (refusalOf (bz a) (bz r), s') /\ incoming s' = (rest, e).
Proof.
  intros Hi. unfold readProofRefusal. destruct (ReadFull_word [a; r] rest e s Hi) as (s' & Hr & Hi').
  cbn [length] in Hr. rewrite Hr. by exists s'.
Qed.

End ReadLemmas.

(** Any way a connection accepts a write leaves a prefix of it on the wire, as
    long as the counts it reports are honest. *)
Definition honest (c : conn) : Prop :=
  Forall (λ a, match a with WAll => True | WPart n _ => 0 <= n end) (outbox c).

(** What a loop that wrote [part] after [written] bytes left behind. *)
Definition wrote (part : list byte) (written : Z) (c : conn) (r : Z * option err * conn) : Prop :=
  let '(n, e, c') := r in
  honest c' /\
  ∃ k, sent c' = sent c ++ take k part /\ (k <= length part)%nat /\
    match e with
    | None => n = written + blen part /\ k = length part
    | Some e => e ≠ Sentinel IoErrNoProgress → e ≠ Sentinel IoErrShortWrite → n = written + Z.of_nat k
    end.

(** A write that was taken whole. *)
Lemma wrote_whole part written c ob : honest (gave c part ob) →
  wrote part written c (written + blen part, None, gave c part ob).
Proof. intros Hob. split; [done|]. exists (length part). rewrite take_ge by lia. by split_and!. Qed.

(** A write of [n] bytes, and then the rest. *)
Lemma wrote_part part written c c1 n r : 0 <= n <= blen part → sent c1 = sent c ++ take (Z.to_nat n) part →
  wrote (drop (Z.to_nat n) part) (written + n) c1 r → wrote part written c r.
Proof.
  unfold blen. intros Hn Hc1. destruct r as [[n' e'] c']. intros (Hh' & k & Hs & Hk & He). rewrite length_drop in Hk.
  split; [done|]. exists (Z.to_nat n + k)%nat. split_and!.
  - rewrite Hs, Hc1, <- app_assoc. f_equal.
    by rewrite <- (take_drop (Z.to_nat n) (take (Z.to_nat n + k) part)), take_take, Nat.min_l,
      skipn_firstn_comm, Nat.add_comm, Nat.add_sub by lia.
  - lia.
  - destruct e'; [intros; rewrite He by done; lia|]. destruct He as [-> ->].
    unfold blen. rewrite length_drop. lia.
Qed.

Lemma writeLoop_prefix fuel part written (c : conn) :
  honest c → (length part <= fuel)%nat → wrote part written c (writeLoop fuel part written c).
Proof.
  revert part written c. induction fuel as [|fuel IH]; intros [|b part] written c Hh Hf;
    try (cbn in Hf; lia).
  1, 2: cbn; split; [done|]; exists O; cbn; rewrite app_nil_r; unfold blen; cbn; auto with lia.
  cbn [writeLoop]. unfold write, conn_Writer, connWrite.
  destruct (conn_closed c).
  { cbn. split; [done|]. exists O. rewrite app_nil_r. split_and!; auto with lia. }
  set (p := b :: part) in *. assert (0 < blen p) by (unfold blen; subst p; cbn; lia).
  assert (∀ w (c : conn), writeLoop fuel [] w c = (w, None, c)) as Hnil by (by destruct fuel).
  assert (∀ ob, honest (gave c p ob) →
    wrote p written c (writeLoop fuel (drop (Z.to_nat (blen p)) p) (written + blen p) (gave c p ob))) as Hall.
  { intros ob Hob. unfold blen at 1. rewrite Nat2Z.id, drop_all, Hnil. by apply wrote_whole. }
  unfold honest in Hh. fold (blen p). destruct (outbox c) as [|[|n e] rest] eqn:Ho.
  1, 2: rewrite (proj2 (Z.ltb_ge (blen p) 0)), Z.ltb_irrefl, (proj2 (Z.leb_gt (blen p) 0)) by lia; apply Hall.
  { constructor. }
  { by apply Forall_cons in Hh as [_ ?]. }
  apply Forall_cons in Hh as [Hn Hh].
  rewrite (proj2 (Z.ltb_ge n 0)) by done. cbn [orb].
  destruct (blen p <? n) eqn:En; unfold blen in *; to_prop.
  { split; [done|]. exists (length p). cbn [sent]. rewrite !take_ge by lia. split_and!; [done|lia|by intros _ []]. }
  destruct e as [e|].
  { split; [done|]. exists (Z.to_nat n). split_and!; [done|lia|]. intros _ _. lia. }
  destruct (n <=? 0) eqn:En'; to_prop.
  { split; [done|]. exists (Z.to_nat n). split_and!; [done|lia|by intros _ []]. }
  apply (wrote_part p written c (gave c (take (Z.to_nat n) p) rest) n); [unfold blen; lia|done|].
  apply IH; [done|]. rewrite length_drop. cbn in Hf |- *. lia.
Qed.

(** The tokens of an attribute and a level of the fixed vocabulary. *)
Lemma refusalTokens_spec attribute want :
  let '(a, w) := refusalTokens proofAttributes 0 attribute want in
  if bool_decide (attribute ∈ drop 1 proofAttributes) && (ProofNone <? want) && (want <=? ProofSigned)
  then 0 < a < 6 /\ 0 < w <= 8 /\ proofAttributes !! Z.to_nat a = Some attribute /\ w = want
  else a = 0 /\ w = 0.
Proof.
  unfold ProofNone, ProofSigned. destruct (bool_decide_reflect (attribute ∈ drop 1 proofAttributes)) as [Hin|Hout].
  - cbn in Hin. rewrite !elem_of_cons, elem_of_nil in Hin.
    destruct Hin as [->|[->|[->|[->|[->|[]]]]]]; cbn;
      unfold ProofNone, ProofSigned; destruct (0 <? want) eqn:E1, (want <=? 8) eqn:E2; to_prop; cbn; done || lia.
  - cbn in Hout |- *. rewrite !elem_of_cons, elem_of_nil in Hout.
    rewrite andb_false_r. cbn. by rewrite !(proj2 (String.eqb_neq attribute _)) by tauto.
Qed.

(** ** Properties *)

(** C27: a frame survives the wire. [WriteFrameTo] of a frame within the limit puts
    its length, big endian, and its bytes on any connection that takes them, and
    [ReadFrameFrom] with the same limit gives the frame back from any reader that
    delivers those bytes, in chunks of any sizes, leaving exactly what follows. *)
Theorem frame_round_trip frame limit (c : conn) :
  0 <= limit → blen frame <= frameLimit limit → takes_all c →
  let '(e, c') := WriteFrameTo frame limit c in
  e = None /\ sent c' = sent c ++ be32_put (blen frame) ++ frame /\
  ∀ T (R : Reader T) (RO : ReaderOk T) (s : T) rest x,
    incoming s = (be32_put (blen frame) ++ frame ++ rest, x) →
    ∃ s', ReadFrameFrom limit s = (Ok frame, s') /\ incoming s' = (rest, x).
Proof.
  intros Hl Hb Ht. pose proof (frameLimit_range limit Hl) as Hr. rewrite lengthMask_val in Hr.
  assert (0 <= blen frame < 2 ^ 30) as Hlen by (unfold blen in *; lia).
  unfold WriteFrameTo, writeFrame. rewrite (proj2 (Z.ltb_ge _ _)) by done.
  assert (∃ c', writeHeaded (blen frame) frame c = (None, c') /\
                sent c' = sent c ++ be32_put (blen frame) ++ frame) as (c' & -> & Hsent).
  { unfold writeHeaded, writeHeadedCount. case_goal.
    - destruct (writeLoop_conn (length (be32_put (blen frame) ++ frame)) (be32_put (blen frame) ++ frame) 0 c Ht
        (le_n _)) as (c' & -> & Hs & _). by exists c'.
    - destruct (writeLoop_conn (length (be32_put (blen frame))) (be32_put (blen frame)) 0 c Ht (le_n _))
        as (c1 & -> & Hs1 & Ht1).
      destruct (writeLoop_conn (length frame) frame (0 + Z.of_nat (length (be32_put (blen frame)))) c1 Ht1 (le_n _))
        as (c2 & -> & Hs2 & _). exists c2. split; [done|]. by rewrite Hs2, Hs1, <- app_assoc. }
  split_and!; [done|done|]. intros T R RO s rest x Hi. unfold ReadFrameFrom, readFrame.
  destruct (ReadFull_word (be32_put (blen frame)) (frame ++ rest) x s Hi) as (s1 & Hr1 & Hi1).
  rewrite be32_put_length in Hr1. rewrite Hr1. cbn [fst snd].
  rewrite be32_get_put by lia.
  rewrite (proj2 (Z.eqb_neq _ _)) by (unfold proofRefusalHeader; lia).
  apply readFrameBody_ok; [done|unfold maxInt; lia|done].
Qed.

(** An oversized header costs nothing. When the announced length exceeds the
    limit (and is not the refusal word) [ReadFrameFrom] answers [ErrFrameTooLarge]
    having taken the four header bytes and not one byte of the payload. *)
Theorem oversized_frame_reads_no_payload {T} `{ReaderOk T} (h payload : list byte) limit x (s : T) :
  0 <= limit → length h = 4%nat → frameLimit limit < be32_get h → be32_get h ≠ proofRefusalHeader →
  incoming s = (h ++ payload, x) →
  ∃ s', ReadFrameFrom limit s = (Err (Sentinel ErrFrameTooLarge), s') /\ incoming s' = (payload, x).
Proof.
  intros Hl Hh Hlim Hne Hi. unfold ReadFrameFrom, readFrame.
  destruct (ReadFull_word h payload x s Hi) as (s1 & Hr & Hi1). rewrite Hh in Hr. rewrite Hr.
  rewrite (proj2 (Z.eqb_neq _ _)) by done. unfold readFrameBody.
  rewrite (proj2 (Z.ltb_lt _ _)) by done. cbn [orb]. by exists s1.
Qed.

(** The count of [writeHeadedCount] is the progress of the write. Over a
    connection that accepts any honest prefix of each write and fails where it
    likes, the wire holds a prefix of the header and frame; without an error it
    holds all of it; and with a connection's own error the count is the length of
    that prefix. *)
Theorem headed_count_is_progress header frame (c : conn) :
  honest c →
  let '(n, e, c') := writeHeadedCount header frame c in
  ∃ k, sent c' = sent c ++ take k (be32_put header ++ frame) /\
    match e with
    | None => n = 4 + blen frame /\ k = (4 + length frame)%nat
    | Some e => e ≠ Sentinel IoErrNoProgress → e ≠ Sentinel IoErrShortWrite → n = Z.of_nat k
    end.
Proof.
  intros Hh. unfold writeHeadedCount. case_goal.
  - pose proof (writeLoop_prefix (length (be32_put header ++ frame)) (be32_put header ++ frame) 0 c Hh (le_n _)) as Hw.
    destruct (writeLoop _ _ _ _) as [[n e] c']. destruct Hw as (_ & k & Hs & Hk & He).
    exists k. split; [done|]. destruct e; [intros; rewrite He by done; lia|].
    destruct He as [-> ->]. rewrite length_app, be32_put_length. unfold blen.
    rewrite length_app, be32_put_length. lia.
  - pose proof (writeLoop_prefix (length (be32_put header)) (be32_put header) 0 c Hh (le_n _)) as Hw.
    destruct (writeLoop _ _ _ _) as [[n [e|]] c1]; destruct Hw as (Hh1 & k & Hs & Hk & He).
    { exists k. split; [rewrite Hs, take_app_le by lia; done|]. intros; rewrite He by done; lia. }
    destruct He as [-> ->]. rewrite be32_put_length in *.
    pose proof (writeLoop_prefix (length frame) frame (0 + blen (be32_put header)) c1 Hh1 (le_n _)) as Hw.
    destruct (writeLoop _ _ _ _) as [[n' e'] c']. destruct Hw as (_ & k & Hs' & Hk' & He').
    exists (4 + k)%nat. split.
    + rewrite Hs', Hs, <- app_assoc. f_equal.
    + unfold blen in *. rewrite be32_put_length in *.
      destruct e'; [intros; rewrite He' by done; lia|]. destruct He' as [-> ->]. lia.
Qed.

(** A refusal tells the caller what was required and nothing else. The six
    bytes of a refusal for error [e] are read back as a [*ProofRefusal], which
    [errors.Is] matches with [ErrCallerProofUnmet] and [ErrNotProven]; it names the
    attribute and the level of the first [*ProofError] of [e] when they are of the
    fixed vocabulary, and neither otherwise, so two errors that differ only in the
    proof observed, its reason or their wording are refused with the same bytes. *)
Theorem refusal_round_trip {T} `{ReaderOk T} e rest x (s : T) :
  incoming s = (drop 4 (proofRefusalBytes e) ++ rest, x) →
  take 4 (proofRefusalBytes e) = be32_put proofRefusalHeader /\
  ∃ a w s',
    readProofRefusal s = (RefusalErr a w, s') /\ incoming s' = (rest, x) /\
    errors_is (RefusalErr a w) ErrCallerProofUnmet = true /\ errors_is (RefusalErr a w) ErrNotProven = true /\
    match errors_as_proof e with
    | Some (attribute, want, got, why) =>
        if bool_decide (attribute ∈ drop 1 proofAttributes) && (ProofNone <? want) && (want <=? ProofSigned)
        then a = attribute /\ w = want else a = "" /\ w = 0
    | None => a = "" /\ w = 0
    end.
Proof.
  assert (∃ a w, drop 4 (proofRefusalBytes e) = [zb a; zb w] /\ take 4 (proofRefusalBytes e) = be32_put proofRefusalHeader /\
    ((a = 0 /\ w = 0) \/ (0 < a < 6 /\ 0 < w <= 8)) /\
    match errors_as_proof e with
    | Some (attribute, want, got, why) =>
        if bool_decide (attribute ∈ drop 1 proofAttributes) && (ProofNone <? want) && (want <=? ProofSigned)
        then proofAttributes !! Z.to_nat a = Some attribute /\ w = want else a = 0 /\ w = 0
    | None => a = 0 /\ w = 0
    end) as (a & w & Hd & Ht & Hr & Hm).
  { unfold proofRefusalBytes. destruct (errors_as_proof e) as [[[[attribute want] got] why]|].
    2: { exists 0, 0. auto 10. }
    pose proof (refusalTokens_spec attribute want) as Hs.
    destruct (refusalTokens _ _ _ _) as [a w]. exists a, w. case_match; naive_solver. }
  rewrite Hd. intros Hi. split; [done|].
  destruct (readProofRefusal_ok (zb a) (zb w) rest x s Hi) as (s' & Hread & Hi').
  rewrite !bz_zb in Hread. rewrite !Z.mod_small in Hread by lia.
  exists (default "" (proofAttributes !! Z.to_nat a)), w, s'. split_and!; try done.
  - rewrite Hread. unfold refusalOf, ProofSigned. cbn [length proofAttributes].
    destruct Hr as [[-> ->]|[? ?]]; [done|].
    rewrite (proj2 (Z.leb_gt _ _)), (proj2 (Z.ltb_ge _ _)), !(proj2 (Z.eqb_neq _ 0)) by lia. done.
  - destruct (errors_as_proof e) as [[[[attribute want] got] why]|]; [|by destruct Hm as [-> ->]].
    case_match; [by destruct Hm as [-> ->]|by destruct Hm as [-> ->]].
Qed.

(** ** Witnesses *)

Definition sampleFrame : list byte := [x68; x69].

Lemma frame_round_trip_witness :
  ∃ c', ReadFrameFrom 16 (newConn (chunked [1; 3]%nat (be32_put 2 ++ sampleFrame ++ [xff]))) = (Ok sampleFrame, c').
Proof.
  pose proof (frame_round_trip sampleFrame 16 (newConn [])) as Hrt.
  destruct (WriteFrameTo sampleFrame 16 (newConn [])) as [e c]. 
  destruct Hrt as (_ & _ & Hread); [lia|vm_compute; discriminate|repeat constructor|].
  destruct (Hread conn conn_Reader conn_ReaderOk
              (newConn (chunked [1; 3]%nat (be32_put 2 ++ sampleFrame ++ [xff]))) [xff] (Sentinel IoEOF))
    as (c' & Hc' & _); [apply chunked_stream|].
  exists c'. exact Hc'.
Defined.

Lemma oversized_frame_reads_no_payload_witness :
  ∃ c' : conn, ReadFrameFrom 16 (newConn [RData (be32_put 17 ++ sampleFrame)]) =
          (Err (Sentinel ErrFrameTooLarge), c') /\ incoming c' = (sampleFrame, Sentinel IoEOF).
Proof.
  apply (oversized_frame_reads_no_payload (be32_put 17) sampleFrame 16 (Sentinel IoEOF)); try done.
Defined.

Lemma headed_count_is_progress_witness :
  let '(n, e, c') := writeHeadedCount 2 sampleFrame (mkConn [] [WPart 3 (Some (OSErr EPIPE))] [] [] [] false) in
  e = Some (OSErr EPIPE) /\ ∃ k, sent c' = take k (be32_put 2 ++ sampleFrame).
Proof.
  pose proof (headed_count_is_progress 2 sampleFrame (mkConn [] [WPart 3 (Some (OSErr EPIPE))] [] [] [] false)) as Hp.
  destruct (writeHeadedCount _ _ _) as [[n e] c'] eqn:E. vm_compute in E. injection E as _ <- _.
  destruct Hp as (k & Hs & _); [repeat constructor; cbn; lia|]. split; [reflexivity|]. exists k. exact Hs.
Defined.

Lemma refusal_round_trip_witness :
  ∃ c' : conn, readProofRefusal (newConn [RData (drop 4 (proofRefusalBytes (ProofErr "path" ProofBound ProofPID "late")))])
          = (RefusalErr "path" ProofBound, c').
Proof.
  destruct (refusal_round_trip (ProofErr "path" ProofBound ProofPID "late") [] (Sentinel IoEOF)
              (newConn [RData (drop 4 (proofRefusalBytes (ProofErr "path" ProofBound ProofPID "late")))]))
    as (_ & a & w & c' & Hr & _ & _ & _ & Hm); [reflexivity|].
  vm_compute in Hm. destruct Hm as [-> ->]. exists c'. exact Hr.
Defined.
