(* ===== verification/Session.v ===== *)
(** listen/session.go, the connection half: one connection that carries several
    sequential exchanges, and the exchange a service sees as a connection of its
    own.

    The methods of [sessionCall] run under its mutex, so each is one step; a read
    releases the mutex while it waits on the connection and [Close] waits for the
    reads in flight, so both are split where they let go of it, and a call is any
    sequence of such steps. Between steps the session may be retired by the
    listener and the clock moves as it likes. *)

From S2P Require Import Prelude GoStrings GoError ProofLadder Peer Binding GoIO Frame.

Definition DefaultSessionIdle : Duration := 30 * second.
Definition DefaultSessionMaxAge : Duration := 5 * minute.
Definition DefaultMaxSessions : Z := 64.

Record SessionOptions := mkSessionOptions {
  Idle : Duration;
  MaxAge : Duration;
  MaxSessions : Z;
  FirstRequest : Duration
}.

(** The options [Sessions] serves with. *)
Definition Sessions_opts (o : SessionOptions) : SessionOptions :=
  mkSessionOptions
    (if Idle o <=? 0 then DefaultSessionIdle else Idle o)
    (if (MaxAge o <=? 0) || (DefaultSessionMaxAge <? MaxAge o) then DefaultSessionMaxAge else MaxAge o)
    (if MaxSessions o <=? 0 then DefaultMaxSessions else MaxSessions o)
    (if FirstRequest o <=? 0 then DefaultFrameTimeout else FirstRequest o).

(** [sessionDeadline]. *)
Definition sessionDeadline (boundAt : Time) (maxAge : Duration) (evidenceUntil : Time) : Time :=
  let deadline := TimeAdd boundAt maxAge in
  if negb (IsZero evidenceUntil) && Before evidenceUntil deadline then evidenceUntil else deadline.

(** ** Bytes read before the connection was handed over *)

Record replayConn := mkReplay { rc_conn : conn; rc_prefix : list byte }.

(** [replayConn.Read]. *)
Definition replayRead (n : nat) (r : replayConn) : list byte * option err * replayConn :=
  match rc_prefix r with
  | _ :: _ => (take n (rc_prefix r), None, mkReplay (rc_conn r) (drop n (rc_prefix r)))
  | [] => let '(bs, e, c) := connRead n (rc_conn r) in (bs, e, mkReplay c [])
  end.

#[global] Instance replay_Reader : Reader replayConn :=
  {| read := replayRead;
     incoming r := let '(bs, e) := incoming (rc_conn r) in (rc_prefix r ++ bs, e);
     reads_left r := reads_left (rc_conn r) |}.

#[global] Instance replay_ReaderOk : ReaderOk replayConn.
Proof.
  constructor.
  - intros n r bs r' Hn Hr. cbn [read replay_Reader incoming reads_left] in *.
    unfold replayRead in Hr. destruct (rc_prefix r) as [|b pre] eqn:Hp.
    + destruct (connRead n (rc_conn r)) as [[bs' e'] c'] eqn:Hc. simplify_eq. cbn [rc_conn rc_prefix].
      destruct (read_data (R:=conn_Reader) n (rc_conn r) bs c' Hn Hc) as (Hl & Hm & Hi).
      split_and!; [done|done|]. rewrite Hi. by destruct (incoming c').
    + simplify_eq. cbn [rc_conn rc_prefix]. rewrite <- Hp. split_and!.
      * rewrite length_take. lia.
      * rewrite Hp. destruct n; [lia|]. cbn. lia.
      * destruct (incoming (rc_conn r)). cbn. by rewrite app_assoc, take_drop.
  - intros n r bs e r' Hn Hr. cbn [read replay_Reader incoming] in *. unfold replayRead in Hr.
    destruct (rc_prefix r) as [|b pre] eqn:Hp; [|done].
    destruct (connRead n (rc_conn r)) as [[bs' e'] c'] eqn:Hc. simplify_eq.
    destruct (read_error (R:=conn_Reader) n (rc_conn r) bs e c' Hn Hc) as [-> Hi]. by rewrite Hi.
Qed.

(** ** The session *)

Record session (B : Type) := mkSession {
  pc : conn;
  binding : result (Binding B);
  expires : Time;
  s_idle : bool;
  retiring : bool;
  clock_at : nat
}.
Arguments mkSession {B} _ _ _ _ _ _.
Arguments pc {B} _.
Arguments binding {B} _.
Arguments expires {B} _.
Arguments s_idle {B} _.
Arguments retiring {B} _.
Arguments clock_at {B} _.

Section Session.
Context {B : Type} (clock : nat → Time) (opts : SessionOptions).

Definition set_pc (s : session B) (c : conn) : session B :=
  mkSession c (binding s) (expires s) (s_idle s) (retiring s) (clock_at s).
Definition set_retiring (s : session B) : session B :=
  mkSession (pc s) (binding s) (expires s) (s_idle s) true (clock_at s).
Definition set_idle (s : session B) (i : bool) : session B :=
  mkSession (pc s) (binding s) (expires s) i (retiring s) (clock_at s).

(** [time.Now]. *)
Definition now (s : session B) : Time * session B :=
  (clock (clock_at s),
   mkSession (pc s) (binding s) (expires s) (s_idle s) (retiring s) (S (clock_at s))).

(** [session.expired]. *)
Definition expired (s : session B) : bool * session B :=
  if IsZero (expires s) then (false, s)
  else let '(t, s') := now s in (negb (Before t (expires s)), s').

(** [session.retire]: whether the session was idle. *)
Definition retire (s : session B) : bool * session B :=
  let s := set_retiring s in
  if s_idle s then
    let '(t, s) := now s in
    let '(_, c) := connSetDeadline t (pc s) in (true, set_pc s c)
  else (false, s).

(** [session.isRetiring]. *)
Definition isRetiring (s : session B) : bool * session B :=
  let '(e, s) := expired s in
  let s := if e : bool then set_retiring s else s in
  (retiring s, s).

(** A deadline [d] from now on the connection. *)
Definition deadlineIn (d : Duration) (s : session B) : option err * session B :=
  let '(t, s) := now s in
  let '(e, c) := connSetDeadline (TimeAdd t d) (pc s) in (e, set_pc s c).

(** The closing marker, best effort. *)
Definition sayClosing (s : session B) : session B :=
  let '(_, s) := deadlineIn DefaultFrameTimeout s in
  set_pc s (writeUint32 sessionClosing (pc s)).2.

(** ** One exchange *)

Record sessionCall := mkCall {
  header : list byte;
  headerAt : nat;
  remaining : Z;
  oneWay : bool;
  out : list byte;
  outLeft : Z;
  replied : bool;
  continued : bool;
  c_closed : bool;
  broken : bool;
  reading : nat;
  finished : bool
}.

Definition newCall (h : Z) : sessionCall :=
  mkCall (be32_put (Z.land h lengthMask)) 0 (Z.land h lengthMask) (negb (Z.land h oneWayFlag =? 0)) [] 0
    false false false false 0 false.

Definition set_broken (c : sessionCall) : sessionCall :=
  mkCall (header c) (headerAt c) (remaining c) (oneWay c) (out c) (outLeft c) (replied c) (continued c)
    (c_closed c) true (reading c) (finished c).
Definition set_headerAt (c : sessionCall) (n : nat) : sessionCall :=
  mkCall (header c) n (remaining c) (oneWay c) (out c) (outLeft c) (replied c) (continued c) (c_closed c)
    (broken c) (reading c) (finished c).
Definition set_remaining (c : sessionCall) (n : Z) : sessionCall :=
  mkCall (header c) (headerAt c) n (oneWay c) (out c) (outLeft c) (replied c) (continued c) (c_closed c)
    (broken c) (reading c) (finished c).
Definition set_out (c : sessionCall) (o : list byte) (left : Z) : sessionCall :=
  mkCall (header c) (headerAt c) (remaining c) (oneWay c) o left (replied c) (continued c) (c_closed c)
    (broken c) (reading c) (finished c).
Definition set_replied (c : sessionCall) : sessionCall :=
  mkCall (header c) (headerAt c) (remaining c) (oneWay c) (out c) (outLeft c) true (continued c)
    (c_closed c) (broken c) (reading c) (finished c).
Definition set_continued (c : sessionCall) (b : bool) : sessionCall :=
  mkCall (header c) (headerAt c) (remaining c) (oneWay c) (out c) (outLeft c) (replied c) b (c_closed c)
    (broken c) (reading c) (finished c).
Definition set_reading (c : sessionCall) (n : nat) : sessionCall :=
  mkCall (header c) (headerAt c) (remaining c) (oneWay c) (out c) (outLeft c) (replied c) (continued c)
    (c_closed c) (broken c) n (finished c).
Definition set_closed (c : sessionCall) : sessionCall :=
  mkCall (header c) (headerAt c) (remaining c) (oneWay c) (out c) (outLeft c) (replied c) (continued c)
    true (broken c) (reading c) (finished c).
Definition set_finished (c : sessionCall) : sessionCall :=
  mkCall (header c) (headerAt c) (remaining c) (oneWay c) (out c) (outLeft c) (replied c) (continued c)
    (c_closed c) (broken c) (reading c) true.

(** The call and the session it runs on. *)
Definition callState : Type := sessionCall * session B.

(** [sessionCall.requestValid]. *)
Definition requestValid (cs : callState) : option err * callState :=
  let '(c, s) := cs in
  let '(x, s) := expired s in
  (if x : bool then Some (Sentinel errSessionExpired) else None, (c, s)).

(** [sessionCall.Bind]. *)
Definition callBind (cs : callState) : result (Binding B) * callState :=
  match requestValid cs with
  | (Some e, cs) => (Err e, cs)
  | (None, (c, s)) =>
      match binding s with
      | Err e => (Err e, (c, s))
      | Ok b => (Ok (Shared b), (c, s))
      end
  end.

(** [sessionCall.SetDeadline]. *)
Definition callSetDeadline (t : Time) (cs : callState) : option err * callState :=
  let '(c, s) := cs in
  if c_closed c then (Some (Sentinel NetErrClosed), cs)
  else let '(e, p) := connSetDeadline t (pc s) in (e, (c, set_pc s p)).

(** [sessionCall.refuseProof]. *)
Definition refuseProof (e : err) (cs : callState) : option err * callState :=
  let '(c, s) := cs in
  if c_closed c then (Some (Sentinel NetErrClosed), cs)
  else let '(x, p) := sendProofRefusal e (pc s) in (x, (set_broken c, set_pc s p)).

(** [sessionCall.Read] up to the point where it lets go of the mutex: it has an
    answer, or it goes to the connection with a buffer of this size, knowing
    whether it reads the request. *)
Inductive readPhase :=
| Answer (bs : list byte) (e : option err)
| Waiting (size : nat) (readingRequest : bool).

Definition readBegin (n : nat) (cs : callState) : readPhase * callState :=
  let '(c, s) := cs in
  if c_closed c then (Answer [] (Some (Sentinel NetErrClosed)), cs)
  else if (headerAt c <? 4)%nat then
    match expired s with
    | (true, s) => (Answer [] (Some (Sentinel errSessionExpired)), (set_broken c, s))
    | (false, s) =>
        let bs := take n (drop (headerAt c) (header c)) in
        (Answer bs None, (set_headerAt c (headerAt c + length bs), s))
    end
  else if 0 <? remaining c then
    match expired s with
    | (true, s) => (Answer [] (Some (Sentinel errSessionExpired)), (set_broken c, s))
    | (false, s) =>
        (Waiting (Nat.min n (Z.to_nat (remaining c))) true, (set_reading c (S (reading c)), s))
    end
  else if replied c then (Answer [] (Some (Sentinel IoEOF)), cs)
  else (Waiting (Nat.min n 1) false, (set_reading c (S (reading c)), s)).

(** The rest of [Read], with what the connection answered. *)
Definition readEnd (readingRequest : bool) (bs : list byte) (e : option err) (cs : callState)
    : list byte * option err * callState :=
  let '(c, s) := cs in
  let c := set_reading c (pred (reading c)) in
  let '(x, s) := if readingRequest then expired s else (false, s) in
  if x : bool then ([], Some (Sentinel errSessionExpired), (set_broken c, s))
  else
    let broke (c : sessionCall) :=
      match e with Some e => if is_timeout e then c else set_broken c | None => c end in
    if 0 <? remaining c then
      (bs, e, (broke (set_remaining c (u32 (remaining c - blen bs))), s))
    else match bs with
         | _ :: _ => (bs, None, (set_broken c, s))
         | [] => (bs, e, (broke c, s))
         end.

(** The connection's part of a read. *)
Definition readConn (size : nat) (s : session B) : list byte * option err * session B :=
  let '(bs, e, p) := connRead size (pc s) in (bs, e, set_pc s p).

(** [sessionCall.Read] with nothing in between. *)
Definition callRead (n : nat) (cs : callState) : list byte * option err * callState :=
  match readBegin n cs with
  | (Answer bs e, cs) => (bs, e, cs)
  | (Waiting size rr, (c, s)) =>
      let '(bs, e, s) := readConn size s in readEnd rr bs e (c, s)
  end.

(** The end of [sessionCall.Write], once the header is out: the body, as much of
    it as the reply still owes. *)
Definition writeBody (p : list byte) (written : Z) (cs : callState) : Z * option err * callState :=
  let '(c, s) := cs in
  let '(p, written, failed, c, s) :=
    if (0 <? blen p) && (0 <? outLeft c) then
      let chunk := take (Z.to_nat (Z.min (blen p) (outLeft c))) p in
      let '(n, e, q) := connWrite chunk (pc s) in
      let c := set_out c (out c) (u32 (outLeft c - n)) in
      (drop (Z.to_nat n) p, written + n, e, c, set_pc s q)
    else (p, written, None, c, s) in
  match failed with
  | Some e => (written, Some e, (set_broken c, s))
  | None =>
      let c := if outLeft c =? 0 then set_replied c else c in
      if 0 <? blen p then (written, Some (Sentinel ErrSessionProtocol), (set_broken c, s))
      else (written, None, (c, s))
  end.

(** [sessionCall.Write]. *)
Definition callWrite (p : list byte) (cs : callState) : Z * option err * callState :=
  let '(c, s) := cs in
  if c_closed c then (0, Some (Sentinel NetErrClosed), cs)
  else if oneWay c then (0, Some (Sentinel ErrUnexpectedResponse), (set_broken c, s))
  else if (length (out c) <? 4)%nat then
    let n := Nat.min (4 - length (out c)) (length p) in
    let c := set_out c (out c ++ take n p) (outLeft c) in
    let p := drop n p in
    let written := Z.of_nat n in
    if (length (out c) <? 4)%nat then (written, None, (c, s))
    else
      let length := be32_get (out c) in
      if lengthMask <? length then (written, Some (Sentinel ErrFrameTooLarge), (set_broken c, s))
      else
        let c := set_out c (out c) length in
        let '(r, s) := isRetiring s in
        let next := if r : bool then length else Z.lor length sessionFlag in
        let body := take (Z.to_nat (Z.min (blen p) length)) p in
        let '(_, e, q) := connWrite (be32_put next ++ body) (pc s) in
        let s := set_pc s q in
        match e with
        | Some e => (written, Some e, (set_broken c, s))
        | None =>
            let c := set_continued c (negb (Z.land next sessionFlag =? 0)) in
            let c := set_out c (out c) (u32 (length - blen body)) in
            writeBody (drop (List.length body) p) (written + blen body) (c, s)
        end
  else writeBody p 0 cs.

(** [sessionCall.Close] up to its wait for the reads in flight. *)
Definition closeBegin (cs : callState) : callState :=
  let '(c, s) := cs in
  if c_closed c then cs
  else
    let c := set_closed c in
    if (0 <? reading c)%nat then
      let '(t, s) := now s in
      let '(_, p) := connSetDeadline t (pc s) in (c, set_pc s p)
    else (c, s).

(** The rest of [Close], with no read in flight. *)
Definition closeEnd (cs : callState) : callState :=
  let '(c, s) := cs in
  if broken c then (set_finished c, s)
  else if (headerAt c <? 4)%nat || (0 <? remaining c) then (set_finished (set_broken c), s)
  else if oneWay c then
    let '(r, s) := isRetiring s in
    let complete := if r : bool then 0 else sessionFlag in
    let '(e, q) := writeUint32 complete (pc s) in
    let s := set_pc s q in
    let c := match e with Some _ => set_broken c | None => c end in
    (set_finished (set_continued c (negb (complete =? 0))), s)
  else if negb (replied c) then (set_finished (set_broken c), s)
  else (set_finished c, s).

(** ** Steps of a call *)

(** What the holders of the call, the listener and the connection do to it. A
    [Read] that waits is resumed by the [StepReadEnd] of its kind. *)
Inductive callStep :=
| StepRead (n : nat)
| StepReadBegin (n : nat)
| StepReadEnd (size : nat) (readingRequest : bool)
| StepWrite (p : list byte)
| StepRefuse (e : err)
| StepSetDeadline (t : Time)
| StepBind
| StepRetire
| StepCloseBegin
| StepCloseEnd.

(** Whether the step can happen: a read ends only while one waits, with the buffer
    it asked for, and [Close] goes on only when none does. Any number of reads may wait
    for the client to hang up. The request itself has one reader at a time, as
    [ReceiveFramed] reads it: two at once may take more than [remaining], whose 32 bits
    then wrap. *)
Definition enabled (st : callStep) (cs : callState) : bool :=
  let c := cs.1 in
  match st with
  | StepRead _ | StepReadBegin _ => (reading c =? 0)%nat || c_closed c || negb (0 <? remaining c)
  | StepReadEnd size rr =>
      (0 <? reading c)%nat && eqb rr (0 <? remaining c)
      && (if rr then (size <=? Z.to_nat (remaining c))%nat else (size <=? 1)%nat)
  | StepCloseEnd => c_closed c && (reading c =? 0)%nat && negb (finished c)
  | _ => true
  end.

Definition callDo (st : callStep) (cs : callState) : callState :=
  match st with
  | StepRead n => (callRead n cs).2
  | StepReadBegin n => (readBegin n cs).2
  | StepReadEnd size rr =>
      let '(bs, e, s) := readConn size cs.2 in (readEnd rr bs e (cs.1, s)).2
  | StepWrite p => (callWrite p cs).2
  | StepRefuse e => (refuseProof e cs).2
  | StepSetDeadline t => (callSetDeadline t cs).2
  | StepBind => (callBind cs).2
  | StepRetire => (cs.1, (retire cs.2).2)
  | StepCloseBegin => closeBegin cs
  | StepCloseEnd => closeEnd cs
  end.

Definition callStepTo (st : callStep) (cs : callState) : callState :=
  if enabled st cs then callDo st cs else cs.

Definition callRun (sts : list callStep) (cs : callState) : callState :=
  fold_left (λ cs st, callStepTo st cs) sts cs.

(** ** The session's loop *)

(** [session.nextHeader]. *)
Definition nextHeader (s : session B) : option Z * session B :=
  let '(h, e, p) := ReadFull 4 (pc s) in
  let s := set_idle (set_pc s p) false in
  let '(r, s) := if retiring s then (true, s) else expired s in
  if r : bool then
    (None, if (length h =? 0)%nat then sayClosing s else s)
  else match h with
  | [] => (None, match e with Some e => if is_timeout e then sayClosing s else s | None => s end)
  | _ =>
      let finish (h : list byte) (s : session B) :=
        let '(x, s) := expired s in
        if x : bool then (None, s)
        else (Some (be32_get h), set_pc s (connSetDeadline zeroTime (pc s)).2) in
      match e with
      | None => finish h s
      | Some e =>
          if negb (is_timeout e) then (None, s)
          else
            let '(_, s) := deadlineIn (FirstRequest opts) s in
            let '(more, e', p) := ReadFull (4 - length h) (pc s) in
            let s := set_pc s p in
            match e' with Some _ => (None, s) | None => finish (h ++ more) s end
      end
  end.

(** What happens between the end of an exchange and the next header; [None] ends
    the session. [retired] says that the listener retires the session while it is idle,
    before [nextHeader] takes the mutex again. *)
Definition betweenCalls (retired : bool) (s : session B) : option Z * session B :=
  let '(x, s) := expired s in
  let s := if x : bool then set_retiring s else s in
  if retiring s then (None, sayClosing s)
  else
    let s := set_idle s true in
    let '(t, s) := now s in
    let deadline := TimeAdd t (Idle opts) in
    let deadline := if Before (expires s) deadline then expires s else deadline in
    match connSetDeadline deadline (pc s) with
    | (Some _, p) => (None, set_retiring (set_idle (set_pc s p) false))
    | (None, p) =>
        let s := set_pc s p in
        nextHeader (if retired then (retire s).2 else s)
    end.

(** The loop of [session.run]. For each exchange the listener delivers there are the
    steps its call goes through, and whether the session is retired while it is idle
    afterwards. The result lists the header of every exchange delivered; a call that is
    not finished leaves the loop waiting. *)
Fixpoint runLoop (h : Z) (handlers : list (list callStep * bool)) (s : session B) : list Z * session B :=
  if (Z.land h sessionFlag =? 0) || (h =? sessionClosing) then ([], s)
  else match handlers with
  | [] => ([], s)
  | (steps, retired) :: more =>
      let '(c, s) := callRun steps (newCall h, s) in
      if negb (finished c) then ([h], s)
      else if broken c || negb (continued c) then ([h], s)
      else match betweenCalls retired s with
           | (None, s) => ([h], s)
           | (Some h', s) => let '(hs, s) := runLoop h' more s in (h :: hs, s)
           end
  end.

(** [session.run]: the acceptance, the binding and its expiry, then the loop. *)
Definition sessionRun (h : Z) (bound : result (Binding B)) (handlers : list (list callStep * bool))
    (s : session B) : list Z * session B :=
  match writeUint32 sessionAccept (pc s) with
  | (Some _, p) => ([], set_pc s (connClose p))
  | (None, p) =>
      let s := set_pc s p in
      let '(t, s) := now s in
      let '(boundAt_, evidenceUntil) :=
        match bound with
        | Ok b => (boundAt b, EvidenceValidUntil b)
        | Err _ => (t, zeroTime)
        end in
      let s := mkSession (pc s) bound (sessionDeadline boundAt_ (MaxAge opts) evidenceUntil) (s_idle s)
                 (retiring s) (clock_at s) in
      let '(hs, s) := runLoop h handlers s in
      (hs, set_pc s (connClose (pc s)))
  end.

(** ** The invariant of an exchange *)

(** The bytes of the connection are as they were. *)
Definition same_wire (p q : conn) : Prop :=
  got q = got p /\ sent q = sent p /\ outbox q = outbox p.

#[local] Instance same_wire_refl : Reflexive same_wire.
Proof. done. Qed.

#[local] Instance same_wire_trans : Transitive same_wire.
Proof. intros p q r (? & ? & ?) (? & ? & ?). unfold same_wire. split_and!; congruence. Qed.

Lemma connSetDeadline_wire t c : same_wire c (connSetDeadline t c).2.
Proof. unfold connSetDeadline. by case_goal. Qed.

Lemma expired_wire s : pc (expired s).2 = pc s /\ retiring (expired s).2 = retiring s.
Proof. unfold expired. by case_goal. Qed.

Lemma retire_wire s : same_wire (pc s) (pc (retire s).2).
Proof.
  unfold retire. cbn. destruct (s_idle s); [|done]. cbn.
  pose proof (connSetDeadline_wire (clock (clock_at s)) (pc s)) as Hw.
  by destruct (connSetDeadline _ _).
Qed.

Lemma isRetiring_wire s : pc (isRetiring s).2 = pc s.
Proof.
  unfold isRetiring. pose proof (expired_wire s) as [He _]. destruct (expired s) as [[] s']; cbn in *; done.
Qed.

(** A write that reports no error took the whole of its argument. *)
Definition write_contract (c : conn) : Prop :=
  Forall (λ a, match a with WPart _ None => False | _ => True end) (outbox c).

Lemma connWrite_contract p c n e c' :
  write_contract c → connWrite p c = (n, e, c') →
  write_contract c' /\ got c' = got c /\ (e = None → n = blen p /\ sent c' = sent c ++ p).
Proof.
  unfold write_contract, connWrite. intros Hc Hw.
  destruct (conn_closed c); [by simplify_eq|].
  destruct (outbox c) as [|[|m x] rest]; simplify_eq; cbn; [done|by apply Forall_cons in Hc as [_ ?]|].
  apply Forall_cons in Hc as [Hx Hc]. by destruct e.
Qed.

(** The header word of a reply of [n] bytes. *)
Definition replyWord (n : Z) (more : bool) : Z := if more then Z.lor n sessionFlag else n.

(** What a reply has put on the wire so far. *)
Definition reply_wire (c : sessionCall) (sent0 snt : list byte) : Prop :=
  if oneWay c then
    out c = [] /\ replied c = false /\
    if finished c then snt = sent0 ++ be32_put (replyWord 0 (continued c))
    else snt = sent0 /\ continued c = false
  else
    ((length (out c) < 4)%nat /\ snt = sent0 /\ replied c = false /\ continued c = false) \/
    (length (out c) = 4%nat /\ be32_get (out c) <= lengthMask /\ 0 <= outLeft c /\
     (replied c = true → outLeft c = 0) /\
     ∃ body, snt = sent0 ++ be32_put (replyWord (be32_get (out c)) (continued c)) ++ body /\
             blen body + outLeft c = be32_get (out c)).

(** An exchange that is not broken has taken from the connection the part of its
    request that no longer remains, and put there the part of its reply that no
    longer is owed; one that is finished besides has taken all of the one and
    given all of the other. *)
Definition call_inv (len : Z) (got0 sent0 : list byte) (cs : callState) : Prop :=
  let '(c, s) := cs in
  write_contract (pc s) /\ (headerAt c <= 4)%nat /\ (length (out c) <= 4)%nat /\ header c = be32_put len /\ 0 <= remaining c <= len /\
  (finished c = true → c_closed c = true /\ reading c = 0%nat) /\
  (finished c = true → broken c = false →
     headerAt c = 4%nat /\ remaining c = 0 /\ (oneWay c = false → replied c = true)) /\
  (broken c = false →
     reply_wire c sent0 (sent (pc s)) /\
     ∃ body, got (pc s) = got0 ++ body /\ blen body + remaining c = len).

#[local] Arguments call_inv : simpl never.
#[local] Arguments be32_put : simpl never.

Lemma len_range h : 0 <= Z.land h lengthMask <= lengthMask.
Proof.
  rewrite land_lengthMask, lengthMask_val. pose proof (Z.mod_pos_bound h (2 ^ 30) ltac:(lia)). lia.
Qed.

Lemma newCall_inv h (s : session B) :
  write_contract (pc s) →
  call_inv (Z.land h lengthMask) (got (pc s)) (sent (pc s)) (newCall h, s).
Proof.
  intros Hc. pose proof (len_range h). unfold call_inv, newCall, reply_wire. cbn.
  split_and!; try done; try lia. intros _. split.
  - case_goal; [done|]. left. split_and!; [lia|done..].
  - exists []. rewrite app_nil_r. split; [done|]. unfold blen. cbn. lia.
Qed.

Section Steps.
Context (len : Z) (got0 sent0 : list byte) (Hlen : len <= lengthMask).

Lemma call_inv_wire c s s' :
  same_wire (pc s) (pc s') → call_inv len got0 sent0 (c, s) → call_inv len got0 sent0 (c, s').
Proof.
  intros (Hg & Hs & Ho) (Hc & H1 & Ho4 & H2 & H3 & H4 & H5 & H6). unfold call_inv, write_contract in *.
  rewrite Hg, Hs, Ho. done.
Qed.

Lemma call_inv_broken c s s' :
  write_contract (pc s') →
  call_inv len got0 sent0 (c, s) → call_inv len got0 sent0 (set_broken c, s').
Proof.
  intros Hc (_ & H1 & Ho4 & H2 & H3 & H4 & H5 & H6). unfold call_inv. cbn. split_and!; try done; lia.
Qed.

Lemma call_inv_expired c s :
  call_inv len got0 sent0 (c, s) → call_inv len got0 sent0 (c, (expired s).2).
Proof. apply call_inv_wire. by rewrite (proj1 (expired_wire s)). Qed.

Lemma readBegin_inv n cs :
  call_inv len got0 sent0 cs → finished cs.1 = false \/ c_closed cs.1 = true →
  call_inv len got0 sent0 (readBegin n cs).2.
Proof.
  destruct cs as [c s]. cbn [fst]. intros Hi Hf. unfold readBegin.
  destruct (c_closed c) eqn:Hcl; [done|]. assert (finished c = false) as Hnf by (destruct Hf; congruence).
  pose proof (call_inv_expired c s Hi) as Hi'.
  assert (∀ s', call_inv len got0 sent0 (c, s') → call_inv len got0 sent0 (set_broken c, s')) as Hbrk.
  { intros s' Hs'. eapply call_inv_broken; [|done]. by destruct Hs'. }
  assert (∀ s' k, call_inv len got0 sent0 (c, s') → call_inv len got0 sent0 (set_reading c k, s')) as Hrd.
  { intros s' k (Hc & H1 & Ho4 & H2 & H3 & H4 & H5 & H6). unfold call_inv. cbn.
    split_and!; try done; try lia; congruence. }
  destruct (headerAt c <? 4)%nat eqn:Hh; to_prop.
  { destruct (expired s) as [[] s'] eqn:He; cbn in *; [by apply Hbrk|].
    destruct Hi' as (Hc & H1 & Ho4 & H2 & H3 & H4 & H5 & H6). unfold call_inv. cbn.
    split_and!; try done; try lia; try congruence.
    rewrite length_take, length_drop, H2, be32_put_length. lia. }
  destruct (0 <? remaining c).
  { destruct (expired s) as [[] s'] eqn:He; cbn in *; auto. }
  destruct (replied c); cbn; auto.
Qed.

(** The part of a read after the connection answered. *)
Lemma readEnd_inv size rr c s :
  call_inv len got0 sent0 (c, s) → finished c = false → rr = (0 <? remaining c) →
  (if rr then size <= Z.to_nat (remaining c) else size <= 1)%nat →
  let '(bs, e, s') := readConn size s in
  call_inv len got0 sent0 (readEnd rr bs e (c, s')).2.
Proof.
  intros Hi Hnf Hrr Hsz. unfold readConn.
  destruct (connRead size (pc s)) as [[bs e] p] eqn:Hr.
  pose proof (connRead_got _ _ _ _ _ Hr) as (Hg & Hs & Ho & _ & _).
  assert (length bs <= size)%nat as Hbs.
  { unfold connRead in Hr. repeat case_hyp Hr; simplify_eq; to_prop; cbn; rewrite ?length_take; lia. }
  destruct Hi as (Hc & H1 & Ho4 & H2 & H3 & H4 & H5 & H6).
  assert (write_contract p) as Hcp by (unfold write_contract in *; by rewrite Ho).
  unfold readEnd. cbn [set_reading remaining].
  set (c1 := set_reading c (pred (reading c))).
  assert (∀ s2 : session B, write_contract (pc s2) → call_inv len got0 sent0 (set_broken c1, s2)) as Hbrk.
  { intros s2 Hs2. unfold call_inv. cbn. split_and!; try done; try lia. congruence. }
  destruct (if rr then expired (set_pc s p) else (false, set_pc s p)) as [x s1] eqn:Hx.
  assert (pc s1 = p) as Hp1.
  { destruct rr; [|by simplify_eq]. pose proof (expired_wire (set_pc s p)) as [He _]. by rewrite Hx in He. }
  destruct x; [apply Hbrk; by rewrite Hp1|]. rewrite <- Hrr. destruct rr.
  - assert (0 <= remaining c - blen bs) by (unfold blen; lia).
    pose proof lengthMask_val. rewrite u32_small by (unfold blen in *; lia).
    assert (call_inv len got0 sent0 (set_remaining c1 (remaining c - blen bs), s1)) as Hok.
    { unfold call_inv. rewrite Hp1. cbn. split_and!; try done; try (unfold blen in *; lia); try congruence.
      intros Hb. destruct (H6 Hb) as [Hw (body & Hgb & Hlb)]. split; [by rewrite Hs|].
      exists (body ++ bs). rewrite Hg, Hgb, <- app_assoc. split; [done|]. unfold blen in *. rewrite length_app. lia. }
    destruct e as [e|]; [|done]. destruct (is_timeout e); [done|].
    eapply call_inv_broken; [|done]. by rewrite Hp1.
  - destruct bs as [|b bs]; [|apply Hbrk; by rewrite Hp1].
    assert (call_inv len got0 sent0 (c1, s1)) as Hok.
    { unfold call_inv. rewrite Hp1. cbn. split_and!; try done; try lia; try congruence.
      intros Hb. rewrite Hs, Hg, app_nil_r. by apply H6. }
    destruct e as [e|]; [|done]. destruct (is_timeout e); [done|].
    eapply call_inv_broken; [|done]. by rewrite Hp1.
Qed.

Lemma replyWord_flag n r : 0 <= n <= lengthMask →
  negb (Z.land (if r : bool then n else Z.lor n sessionFlag) sessionFlag =? 0) = negb r.
Proof.
  intros Hn. rewrite lengthMask_val in Hn. unfold sessionFlag. rewrite land_flag by lia. destruct r.
  - by rewrite small_testbit by lia.
  - rewrite lor_flag by lia. replace (n + 2 ^ 31) with (n + 1 * 2 ^ 31) by lia.
    assert (Z.testbit (n + 1 * 2 ^ 31) 31 = true) as ->; [|done].
    rewrite Z.testbit_true by lia. by rewrite Z.div_add, Z.div_small by lia.
Qed.

Lemma reply_wire_replied c snt : oneWay c = false → length (out c) = 4%nat → outLeft c = 0 →
  reply_wire c sent0 snt → reply_wire (set_replied c) sent0 snt.
Proof.
  unfold reply_wire. cbn. intros -> Ho Hl [[? _]|(? & ? & ? & ? & ?)]; [lia|]. right. by split_and!.
Qed.

Lemma reply_wire_chunk c snt chunk : oneWay c = false → length (out c) = 4%nat →
  0 < outLeft c → blen chunk <= outLeft c →
  reply_wire c sent0 snt →
  reply_wire (set_out c (out c) (u32 (outLeft c - blen chunk))) sent0 (snt ++ chunk).
Proof.
  unfold reply_wire. cbn. intros -> Ho Hl Hc [[? _]|(Hlen4 & Hm & Hnn & Hr & body & -> & Hb)]; [lia|].
  pose proof lengthMask_val. assert (0 <= blen body) by (unfold blen; lia).
  assert (0 <= blen chunk) by (unfold blen; lia). rewrite u32_small by lia.
  right. split_and!; try lia; [intros Hrt; specialize (Hr Hrt); lia|].
  exists (body ++ chunk). rewrite <- !app_assoc. split; [done|]. unfold blen in *. rewrite length_app. lia.
Qed.

(** A broken exchange promises nothing more. *)
Lemma call_inv_is_broken c (s' : session B) :
  broken c = true → finished c = false → write_contract (pc s') → (headerAt c <= 4)%nat →
  (length (out c) <= 4)%nat → header c = be32_put len → 0 <= remaining c <= len → call_inv len got0 sent0 (c, s').
Proof. intros. unfold call_inv. split_and!; try done; try lia; congruence. Qed.

Lemma maybe_replied_inv c s :
  call_inv len got0 sent0 (c, s) → finished c = false → oneWay c = false → length (out c) = 4%nat →
  call_inv len got0 sent0 (if outLeft c =? 0 then set_replied c else c, s).
Proof.
  intros Hi Hnf How Hout. destruct (outLeft c =? 0) eqn:E; [|done]. to_prop.
  destruct Hi as (Hc & H1 & Ho4 & H2 & H3 & H4 & H5 & H6). unfold call_inv. cbn.
  split_and!; try done; try lia; try congruence. intros Hb. destruct (H6 Hb) as [Hw Hg]. split; [|done].
  by apply reply_wire_replied.
Qed.

Lemma writeBody_inv p w c s :
  call_inv len got0 sent0 (c, s) → finished c = false → oneWay c = false → length (out c) = 4%nat →
  call_inv len got0 sent0 (writeBody p w (c, s)).2.
Proof.
  intros Hi Hnf How Hout. unfold writeBody.
  assert (∀ p w c s, call_inv len got0 sent0 (c, s) → finished c = false → oneWay c = false →
    length (out c) = 4%nat →
    call_inv len got0 sent0
      (let c := if outLeft c =? 0 then set_replied c else c in
       if 0 <? blen p then (w, Some (Sentinel ErrSessionProtocol), (set_broken c, s))
       else (w, None, (c, s)) : Z * option err * callState).2) as Hend.
  { clear p w c s Hi Hnf How Hout. intros p w c s Hi Hnf How Hout.
    pose proof (maybe_replied_inv c s Hi Hnf How Hout) as Hr. cbn zeta.
    destruct (0 <? blen p); [|done]. eapply call_inv_broken; [|exact Hr]. by destruct Hi. }
  destruct ((0 <? blen p) && (0 <? outLeft c)) eqn:Hp; [|by apply Hend]. to_prop.
  set (chunk := take _ p).
  destruct (connWrite chunk (pc s)) as [[n e] q] eqn:Hw.
  assert (blen chunk <= outLeft c) as Hch by (unfold chunk, blen in *; rewrite length_take; lia).
  pose proof Hi as (Hc & H1 & Ho4 & H2 & H3 & H4 & H5 & H6).
  destruct (connWrite_contract _ _ _ _ _ Hc Hw) as (Hcq & Hgq & Hok).
  destruct e as [e|]; [eapply call_inv_is_broken; try done|].
  destruct (Hok eq_refl) as [-> Hs]. apply Hend; try done.
  unfold call_inv. cbn. split_and!; try done; try lia; try congruence.
  intros Hb. destruct (H6 Hb) as [Hrw Hg]. rewrite Hgq, Hs. split; [|done].
  by apply reply_wire_chunk.
Qed.

Lemma callWrite_inv p cs :
  call_inv len got0 sent0 cs → finished cs.1 = false \/ c_closed cs.1 = true →
  call_inv len got0 sent0 (callWrite p cs).2.
Proof.
  destruct cs as [c s]. cbn [fst]. intros Hi Hf. unfold callWrite.
  destruct (c_closed c) eqn:Hcl; [done|]. assert (finished c = false) as Hnf by (destruct Hf; congruence).
  pose proof Hi as (Hc & H1 & Ho4 & H2 & H3 & H4 & H5 & H6).
  destruct (oneWay c) eqn:How; [by eapply call_inv_broken|].
  destruct (length (out c) <? 4)%nat eqn:Hol; to_prop.
  2: { apply writeBody_inv; try done. lia. }
  set (k := Nat.min (4 - length (out c)) (length p)).
  assert (length (out c ++ take k p) <= 4)%nat as Hk4 by (rewrite length_app, length_take; lia).
  set (c1 := set_out c (out c ++ take k p) (outLeft c)).
  assert (broken c = false → sent (pc s) = sent0 /\ replied c = false /\ continued c = false) as Hfresh.
  { intros Hb. destruct (H6 Hb) as [Hrw _]. unfold reply_wire in Hrw. rewrite How in Hrw.
    destruct Hrw as [(_ & ? & ? & ?)|[? _]]; [done|lia]. }
  destruct (length (out c1) <? 4)%nat eqn:Hol1; to_prop.
  { unfold call_inv. cbn. split_and!; try done; try lia; try congruence. intros Hb.
    destruct (H6 Hb) as [_ Hg]. split; [|done]. unfold reply_wire. cbn. rewrite How. left.
    by destruct (Hfresh Hb) as (-> & -> & ->). }
  assert (length (out c1) = 4%nat) as Hlen4.
  { cbn in *. rewrite length_app, length_take in *. lia. }
  destruct (lengthMask <? be32_get (out c1)) eqn:Hbig; to_prop.
  { eapply call_inv_is_broken; cbn; try done. }
  set (n := be32_get (out c1)) in *.
  assert (0 <= n) by apply be32_get_range.
  destruct (isRetiring s) as [r s1] eqn:Hr.
  assert (pc s1 = pc s) as Hp1 by (pose proof (isRetiring_wire s) as Hw; by rewrite Hr in Hw).
  rewrite Hp1.
  set (rest := drop k p). set (body := take _ rest).
  destruct (connWrite _ (pc s)) as [[n' e] q] eqn:Hw.
  destruct (connWrite_contract _ _ _ _ _ Hc Hw) as (Hcq & Hgq & Hok).
  destruct e as [e|]; [eapply call_inv_is_broken; cbn; try done|].
  destruct (Hok eq_refl) as [_ Hs].
  assert (0 <= blen body <= n) as Hbl by (unfold body, blen in *; rewrite length_take; lia).
  pose proof lengthMask_val.
  apply writeBody_inv; try done.
  unfold call_inv. cbn. split_and!; try done; try lia; try congruence.
  intros Hb. destruct (H6 Hb) as [_ Hg]. destruct (Hfresh Hb) as (Hs0 & Hrep & _).
  rewrite Hgq. split; [|done]. unfold reply_wire. cbn. rewrite How. right.
  rewrite replyWord_flag by lia. rewrite u32_small by lia. fold n.
  split_and!; try done; try lia; [congruence|]. exists body. rewrite Hs, Hs0.
  change (be32_get (out c ++ take k p)) with n. split; [|lia]. unfold replyWord. by destruct r.
Qed.

Lemma open_or_closed cs : call_inv len got0 sent0 cs → finished cs.1 = false \/ c_closed cs.1 = true.
Proof.
  destruct cs as [c s]. intros (_ & _ & _ & _ & _ & H & _). cbn.
  destruct (finished c); [right; by apply H|by left].
Qed.

Lemma readBegin_waiting n c s size rr c' s' :
  readBegin n (c, s) = (Waiting size rr, (c', s')) →
  rr = (0 <? remaining c') /\ (if rr then size <= Z.to_nat (remaining c') else size <= 1)%nat /\
  finished c' = finished c /\ c_closed c = false.
Proof.
  unfold readBegin. destruct (c_closed c); [done|].
  destruct (headerAt c <? 4)%nat; [by destruct (expired s) as [[] ?]|].
  destruct (0 <? remaining c) eqn:Hr; [destruct (expired s) as [[] ?]; [done|] | destruct (replied c); [done|]];
    intros [= <- <- <- <-]; cbn; rewrite Hr; split_and!; try done; lia.
Qed.

Lemma callRead_inv n cs : call_inv len got0 sent0 cs → call_inv len got0 sent0 (callRead n cs).2.
Proof.
  intros Hi. pose proof (open_or_closed cs Hi) as Hf. pose proof (readBegin_inv n cs Hi Hf) as Hb.
  unfold callRead. destruct cs as [c s]. destruct (readBegin n (c, s)) as [[bs e|size rr] [c' s']] eqn:E; [done|].
  apply readBegin_waiting in E as (Hrr & Hsz & Hfin & Hcl). cbn in Hb, Hf.
  assert (finished c' = false) as Hnf by (destruct Hf; congruence).
  pose proof (readEnd_inv size rr c' s' Hb Hnf Hrr Hsz) as He.
  by destruct (readConn size s') as [[bs e] s''].
Qed.

Lemma writeAll_contract fuel b (c : conn) :
  write_contract c → write_contract (writeAll_loop fuel b c).2.
Proof.
  revert b c. induction fuel as [|fuel IH]; intros [|x b] c Hc; try done.
  cbn [writeAll_loop]. unfold write, conn_Writer.
  destruct (connWrite (x :: b) c) as [[n e] c'] eqn:Hw.
  destruct (connWrite_contract _ _ _ _ _ Hc Hw) as (Hc' & _ & _).
  repeat case_goal; try done. by apply IH.
Qed.

Lemma refuseProof_inv e cs : call_inv len got0 sent0 cs → call_inv len got0 sent0 (refuseProof e cs).2.
Proof.
  destruct cs as [c s]. intros Hi. unfold refuseProof. destruct (c_closed c); [done|].
  unfold sendProofRefusal, writeAll. pose proof Hi as [Hc _].
  pose proof (writeAll_contract (length (proofRefusalBytes e)) (proofRefusalBytes e) (pc s) Hc) as Hw.
  destruct (writeAll_loop _ _ _) as [x p]. by eapply call_inv_broken.
Qed.

Lemma closeBegin_inv cs : call_inv len got0 sent0 cs → call_inv len got0 sent0 (closeBegin cs).
Proof.
  destruct cs as [c s]. intros Hi. unfold closeBegin. destruct (c_closed c) eqn:Hcl; [done|].
  assert (∀ s', call_inv len got0 sent0 (c, s') → call_inv len got0 sent0 (set_closed c, s')) as Hset.
  { intros s' (Hc & H1 & Ho4 & H2 & H3 & H4 & H5 & H6). unfold call_inv. cbn. split_and!; try done; try lia.
    intros Hf. by destruct (H4 Hf). }
  cbn [reading set_closed]. destruct (0 <? reading c)%nat; [|by apply Hset]. cbn.
  pose proof (connSetDeadline_wire (clock (clock_at s)) (pc s)) as Hw.
  destruct (connSetDeadline _ _) as [x p]. apply Hset. by eapply call_inv_wire.
Qed.

Lemma closeEnd_inv c s :
  call_inv len got0 sent0 (c, s) → c_closed c = true → reading c = 0%nat → finished c = false →
  call_inv len got0 sent0 (closeEnd (c, s)).
Proof.
  intros Hi Hcl Hrd Hnf. pose proof Hi as (Hc & H1 & Ho4 & H2 & H3 & H4 & H5 & H6). unfold closeEnd.
  destruct (broken c) eqn:Hb.
  { unfold call_inv. cbn. split_and!; try done; try lia; congruence. }
  destruct (H6 eq_refl) as [Hrw (body & Hg & Hlb)].
  destruct ((headerAt c <? 4)%nat || (0 <? remaining c)) eqn:Hreq.
  { unfold call_inv. cbn. split_and!; try done; lia. }
  to_prop. destruct (oneWay c) eqn:How.
  - destruct (isRetiring s) as [r s1] eqn:Hr.
    assert (pc s1 = pc s) as Hp1 by (pose proof (isRetiring_wire s) as Hw; by rewrite Hr in Hw).
    unfold writeUint32. rewrite Hp1. unfold write, conn_Writer.
    destruct (connWrite _ (pc s)) as [[n e] q] eqn:Hw.
    destruct (connWrite_contract _ _ _ _ _ Hc Hw) as (Hcq & Hgq & Hok).
    destruct e as [e|].
    { unfold call_inv. cbn. split_and!; try done; lia. }
    destruct (Hok eq_refl) as [_ Hs]. unfold call_inv. cbn. rewrite Hgq.
    split_and!; try done; try lia; [intros _ _; split_and!; try done; try lia; congruence|].
    intros _. split; [|by exists body]. unfold reply_wire in *. rewrite How in Hrw. cbn. rewrite How.
    rewrite Hnf in Hrw. destruct Hrw as (Ho & Hrep & Hs0 & _). split_and!; try done.
    rewrite Hs, Hs0. by destruct r.
  - destruct (replied c) eqn:Hrep; cbn [negb].
    + unfold call_inv. cbn. split_and!; try done; try lia; [intros _ _; split_and!; try done; lia|].
      intros _. split; [|by exists body]. unfold reply_wire in *. cbn. by rewrite How in *.
    + unfold call_inv. cbn. split_and!; try done; lia.
Qed.

Lemma callBind_wire cs : (callBind cs).2.1 = cs.1 /\ pc (callBind cs).2.2 = pc cs.2.
Proof.
  destruct cs as [c s]. unfold callBind, requestValid. pose proof (expired_wire s) as [He _].
  destruct (expired s) as [[] s']; cbn in *; [done|]. by destruct (binding s').
Qed.

Lemma callStep_inv st cs : call_inv len got0 sent0 cs → call_inv len got0 sent0 (callStepTo st cs).
Proof.
  intros Hi. unfold callStepTo. destruct (enabled st cs) eqn:He; [|done].
  pose proof (open_or_closed cs Hi) as Hf. destruct st; cbn [callDo enabled] in *.
  - by apply callRead_inv.
  - by apply readBegin_inv.
  - destruct cs as [c s]. cbn [fst snd] in *. to_prop. apply eqb_prop in H1.
    destruct Hi as (Hc & Hh & Ho4 & H2 & H3 & H4 & H5 & H6).
    assert (finished c = false) as Hnf.
    { destruct (finished c); [|done]. destruct (H4 eq_refl). lia. }
    pose proof (readEnd_inv size readingRequest c s) as Hend.
    destruct (readConn size s) as [[bs e] s']. apply Hend; try done.
    destruct readingRequest; by to_prop.
  - by apply callWrite_inv.
  - by apply refuseProof_inv.
  - destruct cs as [c s]. unfold callSetDeadline. destruct (c_closed c); [done|].
    pose proof (connSetDeadline_wire t (pc s)) as Hw. destruct (connSetDeadline t (pc s)) as [x p].
    by eapply call_inv_wire.
  - destruct cs as [c s]. pose proof (callBind_wire (c, s)) as [Hc Hp].
    destruct (callBind (c, s)) as [r [c' s']]. cbn in *. subst c'.
    eapply call_inv_wire; [|done]. by rewrite Hp.
  - destruct cs as [c s]. cbn. eapply call_inv_wire; [|done]. apply retire_wire.
  - by apply closeBegin_inv.
  - destruct cs as [c s]. cbn in He. to_prop. by apply closeEnd_inv.
Qed.

Lemma callRun_inv sts cs : call_inv len got0 sent0 cs → call_inv len got0 sent0 (callRun sts cs).
Proof.
  revert cs. induction sts as [|st sts IH]; intros cs Hi; [done|]. cbn. apply IH. by apply callStep_inv.
Qed.

End Steps.

(** ** The bytes of the peer are taken in order *)

Lemma connSetDeadline_in t c : wire_in (connSetDeadline t c).2 = wire_in c.
Proof. unfold connSetDeadline. by case_goal. Qed.

Lemma connWrite_in p c : wire_in (connWrite p c).2 = wire_in c.
Proof. unfold connWrite. by repeat case_goal. Qed.

Lemma writeAll_in fuel b (c : conn) : wire_in (writeAll_loop fuel b c).2 = wire_in c.
Proof.
  revert b c. induction fuel as [|fuel IH]; intros [|x b] c; try done.
  cbn [writeAll_loop]. unfold write, conn_Writer. pose proof (connWrite_in (x :: b) c) as Hw.
  destruct (connWrite (x :: b) c) as [[n e] c']. cbn in Hw. repeat case_goal; try done. by rewrite IH.
Qed.

Lemma retire_in s : wire_in (pc (retire s).2) = wire_in (pc s).
Proof.
  unfold retire. cbn. destruct (s_idle s); [|done]. cbn.
  pose proof (connSetDeadline_in (clock (clock_at s)) (pc s)) as Hw. by destruct (connSetDeadline _ _).
Qed.

Lemma readConn_in n (s : session B) : wire_in (pc (readConn n s).2) = wire_in (pc s).
Proof. unfold readConn. pose proof (connRead_wire n (pc s)) as Hw. by destruct (connRead n (pc s)) as [[bs e] p]. Qed.

Lemma readBegin_pc n (cs : callState) : pc (readBegin n cs).2.2 = pc cs.2.
Proof.
  destruct cs as [c s]. unfold readBegin. pose proof (expired_wire s) as [He _].
  destruct (expired s) as [[] s']; cbn in *; repeat case_goal; done.
Qed.

Lemma readEnd_pc rr bs e (cs : callState) : pc (readEnd rr bs e cs).2.2 = pc cs.2.
Proof.
  destruct cs as [c s]. unfold readEnd. pose proof (expired_wire s) as [He _].
  destruct rr; [destruct (expired s) as [[] s']|]; cbn in *; repeat case_goal; done.
Qed.

Lemma writeBody_in p w (cs : callState) : wire_in (pc (writeBody p w cs).2.2) = wire_in (pc cs.2).
Proof.
  destruct cs as [c s]. unfold writeBody. destruct ((0 <? blen p) && (0 <? outLeft c)).
  - set (chunk := take _ p). pose proof (connWrite_in chunk (pc s)) as Hw.
    destruct (connWrite chunk (pc s)) as [[n e] q]. cbn in Hw. repeat case_goal; done.
  - repeat case_goal; done.
Qed.

Lemma callWrite_in p (cs : callState) : wire_in (pc (callWrite p cs).2.2) = wire_in (pc cs.2).
Proof.
  destruct cs as [c s]. unfold callWrite.
  destruct (c_closed c), (oneWay c), (length (out c) <? 4)%nat; try done; [|by rewrite writeBody_in].
  repeat (case_goal; [done|]). destruct (isRetiring s) as [r s1] eqn:Hr.
  assert (pc s1 = pc s) as Hp1 by (pose proof (isRetiring_wire s) as Hw; by rewrite Hr in Hw).
  rewrite Hp1. match goal with |- context [connWrite ?b (pc s)] => pose proof (connWrite_in b (pc s)) as Hw;
    destruct (connWrite b (pc s)) as [[n e] q] end. cbn in Hw.
  destruct e; [done|]. by rewrite writeBody_in.
Qed.

Lemma closeEnd_in (cs : callState) : wire_in (pc (closeEnd cs).2) = wire_in (pc cs.2).
Proof.
  destruct cs as [c s]. unfold closeEnd. repeat (case_goal; [done|]). destruct (oneWay c).
  - destruct (isRetiring s) as [r s1] eqn:Hr.
    assert (pc s1 = pc s) as Hp1 by (pose proof (isRetiring_wire s) as Hw; by rewrite Hr in Hw).
    unfold writeUint32, write, conn_Writer. rewrite Hp1.
    match goal with |- context [connWrite ?b (pc s)] => pose proof (connWrite_in b (pc s)) as Hw;
      destruct (connWrite b (pc s)) as [[n e] q] end. by destruct e.
  - by case_goal.
Qed.

Lemma callStep_in st (cs : callState) : wire_in (pc (callStepTo st cs).2) = wire_in (pc cs.2).
Proof.
  unfold callStepTo. destruct (enabled st cs); [|done]. destruct st; cbn [callDo].
  - unfold callRead. pose proof (readBegin_pc n cs) as Hb.
    destruct (readBegin n cs) as [[bs e|size rr] [c' s']]; cbn [fst snd] in *; [by rewrite Hb|].
    pose proof (readConn_in size s') as Hc. destruct (readConn size s') as [[bs e] s''].
    rewrite readEnd_pc. cbn [fst snd] in *. congruence.
  - by rewrite readBegin_pc.
  - pose proof (readConn_in size cs.2) as Hc. destruct (readConn size cs.2) as [[bs e] s''].
    by rewrite readEnd_pc.
  - apply callWrite_in.
  - destruct cs as [c s]. unfold refuseProof. destruct (c_closed c); [done|].
    unfold sendProofRefusal, writeAll.
    pose proof (writeAll_in (length (proofRefusalBytes e)) (proofRefusalBytes e) (pc s)) as Hw.
    by destruct (writeAll_loop _ _ _).
  - destruct cs as [c s]. unfold callSetDeadline. destruct (c_closed c); [done|].
    pose proof (connSetDeadline_in t (pc s)) as Hw. by destruct (connSetDeadline _ _).
  - by rewrite (proj2 (callBind_wire cs)).
  - apply retire_in.
  - destruct cs as [c s]. unfold closeBegin. destruct (c_closed c); [done|].
    case_goal; [|done]. cbn. pose proof (connSetDeadline_in (clock (clock_at s)) (pc s)) as Hw.
    by destruct (connSetDeadline _ _).
  - apply closeEnd_in.
Qed.

Lemma callRun_in sts (cs : callState) : wire_in (pc (callRun sts cs).2) = wire_in (pc cs.2).
Proof.
  revert cs. induction sts as [|st sts IH]; intros cs; [done|]. cbn.
  change (wire_in (pc (callRun sts (callStepTo st cs)).2) = wire_in (pc cs.2)). by rewrite IH, callStep_in.
Qed.

(** ** Between exchanges *)

(** What [nextHeader] and [betweenCalls] leave: a header and the four bytes it was
    made of, with nothing sent; or nothing taken, or nothing sent. *)
Definition next_spec (p : conn) (r : option Z) (q : conn) : Prop :=
  wire_in q = wire_in p /\
  match r with
  | Some h => sent q = sent p /\ outbox q = outbox p /\
              ∃ w, length w = 4%nat /\ h = be32_get w /\ got q = got p ++ w
  | None => got q = got p \/ sent q = sent p
  end.

Lemma deadlineIn_wire d s : same_wire (pc s) (pc (deadlineIn d s).2) /\ wire_in (pc (deadlineIn d s).2) = wire_in (pc s).
Proof.
  unfold deadlineIn. cbn. pose proof (connSetDeadline_wire (TimeAdd (clock (clock_at s)) d) (pc s)) as Hw.
  pose proof (connSetDeadline_in (TimeAdd (clock (clock_at s)) d) (pc s)) as Hi.
  by destruct (connSetDeadline _ _).
Qed.

Lemma sayClosing_got s : got (pc (sayClosing s)) = got (pc s) /\ wire_in (pc (sayClosing s)) = wire_in (pc s).
Proof.
  unfold sayClosing. pose proof (deadlineIn_wire DefaultFrameTimeout s) as [(Hg & _ & _) Hi].
  destruct (deadlineIn _ s) as [x s']. cbn in *. unfold writeUint32, write, conn_Writer.
  pose proof (connWrite_in (be32_put sessionClosing) (pc s')) as Hw. rewrite <- Hi, <- Hg, <- Hw.
  unfold connWrite. repeat case_goal; done.
Qed.

Lemma ReadFull_full n (c : conn) bs c' : ReadFull n c = (bs, None, c') → length bs = n.
Proof. intros Hr. by apply ReadFull_ok in Hr as [? _]. Qed.

(** A complete header, before and after the last look at the clock. *)
Definition lastLook (w : list byte) (s : session B) : option Z * session B :=
  let '(x, s) := expired s in
  if x : bool then (None, s) else (Some (be32_get w), set_pc s (connSetDeadline zeroTime (pc s)).2).

Lemma lastLook_spec p w s : length w = 4%nat → got (pc s) = got p ++ w → sent (pc s) = sent p →
  outbox (pc s) = outbox p → wire_in (pc s) = wire_in p →
  let '(r, s') := lastLook w s in next_spec p r (pc s').
Proof.
  intros Hw H1 H2 H3 H4. unfold lastLook. pose proof (expired_wire s) as [Hx _].
  destruct (expired s) as [[] s4]; cbn in Hx |- *; rewrite <- Hx in *.
  - split; [done|by right].
  - pose proof (connSetDeadline_wire zeroTime (pc s4)) as (K1 & K2 & K3).
    pose proof (connSetDeadline_in zeroTime (pc s4)). split; [congruence|].
    split_and!; [congruence..|]. exists w. split_and!; congruence.
Qed.

Lemma ReadFull_at_most n (c : conn) bs e c' : ReadFull n c = (bs, e, c') → (length bs <= n)%nat.
Proof.
  intros Hr. pose proof (ReadFull_spec n c) as Hs. rewrite Hr in Hs. case_match; to_prop; destruct Hs as (-> & _); [|lia].
  rewrite length_take. lia.
Qed.

Lemma nextHeader_spec s : let '(r, s') := nextHeader s in next_spec (pc s) r (pc s').
Proof.
  unfold nextHeader. pose proof (ReadFull_got 4 (pc s)) as Hg. pose proof (ReadFull_wire 4 (pc s)) as Hi.
  destruct (ReadFull 4 (pc s)) as [[h e] p] eqn:Hrf. destruct Hg as (Hg & Hs & Ho & _). cbn in Hi.
  set (s1 := set_idle (set_pc s p) false).
  destruct (if retiring s1 then (true, s1) else expired s1) as [r s2] eqn:Hr.
  assert (pc s2 = p) as Hp2.
  { destruct (retiring s1); [by simplify_eq|]. pose proof (expired_wire s1) as [Hx _]. by rewrite Hr in Hx. }
  assert (got p = got (pc s) ++ h) as Hgot by done.
  assert (∀ s3 : session B, pc s3 = p → h = [] → next_spec (pc s) None (pc (sayClosing s3))) as Hclose.
  { intros s3 H3 ->. destruct (sayClosing_got s3) as [H1 H2]. rewrite H3 in *. split; [congruence|].
    left. by rewrite H1, Hgot, app_nil_r. }
  assert (∀ s3 : session B, pc s3 = p → next_spec (pc s) None (pc s3)) as Hquiet.
  { intros s3 ->. split; [done|by right]. }
  destruct r.
  { destruct (length h =? 0)%nat eqn:E; to_prop; [|by apply Hquiet]. apply Hclose; [done|by destruct h]. }
  destruct h as [|b h'] eqn:Hh.
  { destruct e as [e|]; [|by apply Hquiet]. destruct (is_timeout e); [by apply Hclose|by apply Hquiet]. }
  destruct e as [e|].
  - destruct (is_timeout e); cbn [negb]; [|by apply Hquiet].
    pose proof (deadlineIn_wire (FirstRequest opts) s2) as [(D1 & D2 & D3) D4].
    destruct (deadlineIn (FirstRequest opts) s2) as [x s3]. cbn in D1, D2, D3, D4. rewrite Hp2 in *.
    pose proof (ReadFull_got (4 - length (b :: h')) (pc s3)) as Hg2.
    pose proof (ReadFull_wire (4 - length (b :: h')) (pc s3)) as Hi2.
    destruct (ReadFull (4 - length (b :: h')) (pc s3)) as [[more e'] p3] eqn:Hrf2.
    destruct Hg2 as (G1 & G2 & G3 & _). cbn in Hi2. destruct e' as [e'|].
    + split; [cbn; congruence|right; cbn; congruence].
    + apply ReadFull_full in Hrf2. apply ReadFull_at_most in Hrf.
      apply (lastLook_spec (pc s) (b :: h' ++ more)); cbn [pc set_pc]; try congruence.
      * change (length ((b :: h') ++ more) = 4%nat). rewrite length_app. lia.
      * rewrite G1, D1, Hgot. by rewrite <- app_assoc.
  - apply ReadFull_full in Hrf. apply (lastLook_spec (pc s) (b :: h')); rewrite ?Hp2; done.
Qed.

#[local] Arguments retire : simpl never.

Lemma betweenCalls_spec retired s : let '(r, s') := betweenCalls retired s in next_spec (pc s) r (pc s').
Proof.
  unfold betweenCalls. pose proof (expired_wire s) as [Hx _]. destruct (expired s) as [x s1]. cbn in Hx.
  set (s2 := if x then set_retiring s1 else s1). assert (pc s2 = pc s) as H2 by (unfold s2; by destruct x).
  destruct (retiring s2).
  { destruct (sayClosing_got s2) as [H3 H4]. rewrite <- H2. split; [done|by left]. }
  cbn. match goal with |- context [connSetDeadline ?t (pc s2)] =>
    pose proof (connSetDeadline_wire t (pc s2)) as (K1 & K2 & K3);
    pose proof (connSetDeadline_in t (pc s2)) as K4; destruct (connSetDeadline t (pc s2)) as [[e|] p] end;
    cbn in K1, K2, K3, K4.
  - rewrite <- H2. split; [done|by left].
  - match goal with |- context [nextHeader (if _ then _ else ?s0)] => set (s3 := s0); set (s4 := if retired then (retire s3).2 else s3) end.
    assert (same_wire p (pc s4) /\ wire_in (pc s4) = wire_in p) as [(R1 & R2 & R3) R4].
    { unfold s4. destruct retired; [|done]. split; [apply (retire_wire s3)|apply (retire_in s3)]. }
    pose proof (nextHeader_spec s4) as Hn. destruct (nextHeader s4) as [r s5]. unfold next_spec in Hn. rewrite <- H2.
    destruct Hn as [Hn1 Hn2]. split; [congruence|]. destruct r as [h|].
    + destruct Hn2 as (? & ? & w & ? & ? & ?). split_and!; try congruence. exists w. split_and!; congruence.
    + destruct Hn2 as [?|?]; [left|right]; congruence.
Qed.

(** ** The session against a parser of the whole stream *)

(** The bytes the peer has sent that nobody has read. *)
Definition unread (c : conn) : list byte := script_bytes (inbox c).

(** The exchanges a stream holds, the first of which has header [h]: each request
    is as long as its header says, and the next header follows it. *)
Fixpoint requests (fuel : nat) (h : Z) (bs : list byte) : list Z :=
  h :: match fuel with
       | O => []
       | S fuel =>
           let n := Z.to_nat (Z.land h lengthMask) in
           if (n + 4 <=? length bs)%nat
           then requests fuel (be32_get (take 4 (drop n bs))) (drop (n + 4) bs)
           else []
       end.

(** The elements of a list up to the first that fails the test. *)
Fixpoint leading {A} (f : A → bool) (l : list A) : list A :=
  match l with
  | [] => []
  | x :: l => if f x then x :: leading f l else []
  end.

Definition requests_of (h : Z) (bs : list byte) : list Z := requests (length bs) h bs.

Lemma unread_after p q bs : wire_in q = wire_in p → got q = got p ++ bs → unread p = bs ++ unread q.
Proof.
  unfold wire_in, unread. intros Hw Hg. rewrite Hg, <- app_assoc in Hw. by apply app_inv_head in Hw.
Qed.

(** An exchange that lets the session continue took its request and no more. *)
Lemma callRun_took h sts (s : session B) c s' :
  write_contract (pc s) → callRun sts (newCall h, s) = (c, s') → finished c = true → broken c = false →
  write_contract (pc s') /\
  ∃ body, blen body = Z.land h lengthMask /\ unread (pc s) = body ++ unread (pc s').
Proof.
  intros Hc Hr Hf Hb.
  pose proof (callRun_inv _ _ _ (proj2 (len_range h)) sts _ (newCall_inv h s Hc)) as Hi.
  pose proof (callRun_in sts (newCall h, s)) as Hw. rewrite Hr in Hi, Hw.
  destruct Hi as (Hc' & _ & _ & _ & _ & _ & H5 & H6). split; [done|].
  destruct (H5 Hf Hb) as (_ & Hrem & _). destruct (H6 Hb) as [_ (body & Hg & Hl)].
  exists body. split; [lia|]. by apply unread_after.
Qed.

(** *** Why a session ends *)

(** The headers that ask for another exchange. *)
Definition asks_session (h : Z) : bool := negb ((Z.land h sessionFlag =? 0) || (h =? sessionClosing)).

(** The part of a script after its next failure. *)
Fixpoint resumed (ib : list revent) : list revent :=
  match ib with
  | [] => []
  | RData _ :: rest => resumed rest
  | RFail _ :: rest => rest
  end.

(** No header arrives: the stream fails or the time is up before its four bytes are
    there, and again when a part of it had come in time. *)
Definition no_header (c : conn) : Prop :=
  let '(bs, e) := incoming c in
  (length bs < 4)%nat /\
  (bs = [] \/ is_timeout e = false \/ (length bs + length (script_stream (resumed (inbox c))).1 < 4)%nat).

(** What can end a session in state [s] between two exchanges: it is retired, its
    evidence has expired, or no header arrives. *)
Definition stopped (s s' : session B) : Prop :=
  retiring s' = true \/
  (IsZero (expires s) = false /\ ∃ i, (clock_at s <= i < clock_at s')%nat /\ expires s <= clock i) \/
  no_header (pc s).

Lemma readLoop_resumed fuel n (c : conn) bs e c' :
  conn_closed c = false → (reads_left c + n <= fuel)%nat → readLoop fuel n c = (bs, Some e, c') →
  inbox c' = resumed (inbox c) /\ conn_closed c' = false.
Proof.
  revert n c bs. induction fuel as [|fuel IH]; intros [|n] c bs Hc Hf Hr; cbn [readLoop] in Hr; simplify_eq; [cbn in Hf; lia|].
  cbn [read conn_Reader] in Hr. unfold connRead in Hr. cbn in Hf. rewrite Hc in Hr.
  destruct (inbox c) as [|[d|x] rest] eqn:Hib; [simplify_eq; by rewrite Hib| |by simplify_eq].
  destruct (length d <=? S n)%nat eqn:Hd; to_prop.
  - destruct (readLoop fuel (S n - length d) (took c d rest)) as [[more e'] c2] eqn:H2. simplify_eq.
    apply IH in H2; [done|done|]. cbn in *. lia.
  - rewrite length_take, Nat.min_l, Nat.sub_diag in Hr by lia. destruct fuel; cbn [readLoop] in Hr; simplify_eq.
Qed.

Lemma ReadFull_resumed n (c : conn) bs e c' : conn_closed c = false → ReadFull n c = (bs, Some e, c') →
  inbox c' = resumed (inbox c) /\ conn_closed c' = false.
Proof.
  intros Hc Hr. unfold ReadFull in Hr. destruct (readLoop _ n c) as [[b [x|]] c1] eqn:Hl.
  - apply readLoop_resumed in Hl; [|done|done]. repeat case_hyp Hr; by simplify_eq.
  - pose proof (readLoop_spec (reads_left c + n) n c (le_n _)) as Hs. rewrite Hl in Hs.
    case_match; [|by destruct Hs]. destruct Hs as (-> & _ & _). to_prop. rewrite length_take, Nat.min_l, Nat.leb_refl in Hr by lia. simplify_eq.
Qed.

Lemma expired_true s s' : expired s = (true, s') →
  IsZero (expires s) = false /\ expires s <= clock (clock_at s) /\ clock_at s' = S (clock_at s).
Proof.
  unfold expired. destruct (IsZero (expires s)); [done|]. cbn. intros [= Hb <-]. apply negb_true_iff in Hb. unfold Before in Hb. to_prop. done.
Qed.

Lemma expired_keeps s : expires (expired s).2 = expires s /\ retiring (expired s).2 = retiring s /\ (clock_at s <= clock_at (expired s).2)%nat.
Proof. unfold expired. case_goal; cbn; split_and!; try done; lia. Qed.

Lemma deadlineIn_keeps d s :
  let s' := (deadlineIn d s).2 in expires s' = expires s /\ retiring s' = retiring s /\ (clock_at s <= clock_at s')%nat /\
  inbox (pc s') = inbox (pc s) /\ conn_closed (pc s') = conn_closed (pc s).
Proof.
  unfold deadlineIn, connSetDeadline. cbn. destruct (conn_closed (pc s)) eqn:E; cbn; rewrite ?E; split_and!; try done; lia.
Qed.

Lemma sayClosing_keeps s : retiring (sayClosing s) = retiring s /\ (clock_at s <= clock_at (sayClosing s))%nat.
Proof.
  unfold sayClosing. pose proof (deadlineIn_keeps DefaultFrameTimeout s) as (_ & ? & ? & _). destruct (deadlineIn _ s) as [x s'].
  cbn in *. split; [done|lia].
Qed.

(** Nothing came, or what came was cut off for good. *)
Lemma nothing_arrives (c : conn) bs e c' : ReadFull 4 c = (bs, Some e, c') → bs = [] \/ is_timeout e = false → no_header c.
Proof.
  intros Hr Hq. pose proof (ReadFull_spec 4 c) as Hs. rewrite Hr in Hs. unfold no_header. destruct (incoming c) as [b x]. cbn [fst snd] in Hs.
  case_match; to_prop; [by destruct Hs as (_ & ? & _)|]. destruct Hs as [-> [= ->]]. split; [lia|]. destruct Hq as [?|Ht]; [by left|].
  destruct b as [|y b]; [by left|]. right; left. destruct x as [[]|?|?|? ?|?|? ? ? ?|? ?|? ?|? ?]; try done.
Qed.

Lemma cut_off_twice (c c' c2 c3 : conn) bs e more e' : ReadFull 4 c = (bs, Some e, c') → bs ≠ [] →
  inbox c2 = inbox c' → conn_closed c2 = conn_closed c' → ReadFull (4 - length bs) c2 = (more, Some e', c3) → no_header c.
Proof.
  intros Hr Hb Hib Hcl Hr2. pose proof (ReadFull_spec 4 c) as Hs. rewrite Hr in Hs. unfold no_header. destruct (incoming c) as [b x] eqn:Hin.
  cbn [fst snd] in Hs. case_match; to_prop; [by destruct Hs as (_ & ? & _)|]. destruct Hs as [-> _]. split; [lia|]. right; right.
  assert (conn_closed c = false) as Hc. { destruct (conn_closed c) eqn:E; [|done]. cbn in Hin. rewrite E in Hin. by simplify_eq. }
  destruct (ReadFull_resumed _ _ _ _ _ Hc Hr) as [H1 H2]. pose proof (ReadFull_spec (4 - length b) c2) as Hs2. rewrite Hr2 in Hs2.
  cbn [incoming conn_Reader] in Hs2. rewrite Hcl, H2, Hib, H1 in Hs2. case_match; to_prop; [by destruct Hs2 as (_ & ? & _)|]. lia.
Qed.

(** What [nextHeader] gives up for. *)
Lemma nextHeader_stops s s' : nextHeader s = (None, s') → stopped s s'.
Proof.
  unfold nextHeader. destruct (ReadFull 4 (pc s)) as [[h e] p] eqn:Hrf. set (s1 := set_idle (set_pc s p) false).
  destruct (retiring s1) eqn:Hret.
  { intros [= <-]. left. case_goal; [by rewrite (proj1 (sayClosing_keeps s1))|done]. }
  pose proof (expired_keeps s1) as (Xe & Xr & Xc). destruct (expired s1) as [[] s2] eqn:Hx; cbn [snd] in *.
  { apply expired_true in Hx as (Hz & Hle & Hck). intros [= <-]. right; left. split; [done|]. exists (clock_at s). split; [|done].
    cbn in Hck. case_goal; [pose proof (proj2 (sayClosing_keeps s2)); lia|lia]. }
  assert (∀ s3 w, expires s3 = expires s → (clock_at s <= clock_at s3)%nat →
    (let '(x, s) := expired s3 in if x : bool then (None, s) else (Some (be32_get w), set_pc s (connSetDeadline zeroTime (pc s)).2)) = (None, s') →
    stopped s s') as Hlate.
  { intros s3 w He Hck Hl. destruct (expired s3) as [[] s4] eqn:Hx3; [|done]. apply expired_true in Hx3 as (Hz & Hle & Hc4). simplify_eq.
    rewrite He in *. right; left. split; [done|]. exists (clock_at s3). split; [lia|done]. }
  destruct h as [|b h].
  { intros _. right; right. destruct e as [e|]; [|apply ReadFull_full in Hrf; done]. eapply nothing_arrives; [done|by left]. }
  destruct e as [e|]; [|intros Hl; eapply Hlate; [..|exact Hl]; [done|cbn in *; lia]].
  destruct (is_timeout e) eqn:Ht; cbn [negb]; [|intros _; right; right; eapply nothing_arrives; [done|by right]].
  pose proof (deadlineIn_keeps (FirstRequest opts) s2) as (De & _ & Dc & Di & Dl). destruct (deadlineIn _ s2) as [x s3]. cbn [snd] in *.
  assert (pc s2 = p) as Hp2 by (pose proof (proj1 (expired_wire s1)) as Hw; by rewrite Hx in Hw). rewrite Hp2 in *.
  destruct (ReadFull (4 - length (b :: h)) (pc s3)) as [[more [e'|]] p3] eqn:Hrf2.
  - intros _. right; right. by eapply cut_off_twice.
  - intros Hl. eapply Hlate; [..|exact Hl]; [cbn; rewrite De; done|cbn in *; lia].
Qed.

(** A session ends between two exchanges only for cause. *)
Lemma betweenCalls_stops retired s s' : betweenCalls retired s = (None, s') → stopped s s'.
Proof.
  unfold betweenCalls. pose proof (expired_wire s) as [Hp _]. pose proof (expired_keeps s) as (Xe & Xr & Xc). destruct (expired s) as [x s1]. cbn [snd] in *.
  set (s2 := if x then set_retiring s1 else s1). destruct (retiring s2) eqn:Hret.
  { intros [= <-]. left. by rewrite (proj1 (sayClosing_keeps s2)). }
  assert (x = false) as -> by (destruct x; [done|done]). subst s2. cbn -[connSetDeadline retire].
  match goal with |- context [connSetDeadline ?t (pc s1)] => set (t0 := t) end.
  unfold connSetDeadline. destruct (conn_closed (pc s1)) eqn:Hcl.
  { intros [= <-]. left. done. }
  match goal with |- nextHeader (if retired then _ else ?s0) = _ → _ => set (s3 := s0) end.
  assert (expires s3 = expires s /\ (clock_at s <= clock_at s3)%nat /\ inbox (pc s3) = inbox (pc s) /\ conn_closed (pc s3) = conn_closed (pc s))
    as (He & Hck & Hib & Hc3) by (rewrite <- Hp; cbn; split_and!; try done; lia).
  set (s4 := if retired then (retire s3).2 else s3).
  assert (expires s4 = expires s /\ (clock_at s <= clock_at s4)%nat /\ inbox (pc s4) = inbox (pc s) /\ conn_closed (pc s4) = conn_closed (pc s))
    as (He4 & Hck4 & Hib4 & Hc4).
  { unfold s4. destruct retired; [|done]. unfold retire, connSetDeadline. cbn. split_and!; [done|cbn in Hck; lia|done|by rewrite <- Hp, Hcl]. }
  intros [Hr|[(Hz & i & Hi & Hle)|Hn]]%nextHeader_stops; [by left| |].
  - right; left. rewrite He4 in *. split; [done|]. exists i. split; [lia|done].
  - right; right. unfold no_header in *. cbn [incoming conn_Reader] in *. by rewrite Hib4, Hc4 in Hn.
Qed.

(** The exchanges a run goes through, each with its header, its steps and the session it
    began on. *)
Inductive exchange_at : Z → list (list callStep * bool) → session B → Z → list callStep → session B → Prop :=
| exchange_first h steps retired more s : exchange_at h ((steps, retired) :: more) s h steps s
| exchange_later h steps retired more s c s1 h1 s2 h' steps' s' :
    callRun steps (newCall h, s) = (c, s1) → betweenCalls retired s1 = (Some h1, s2) →
    exchange_at h1 more s2 h' steps' s' → exchange_at h ((steps, retired) :: more) s h' steps' s'.

(** A run stopped after the exchange [h'], whose call ended as [c]: it was not finished,
    it was broken or told its client to send no more, or the session ended for cause. *)
Definition ended_after (h : Z) (handlers : list (list callStep * bool)) (s : session B) (hs : list Z) (s' : session B) : Prop :=
  ∃ h' steps s0 c s1, exchange_at h handlers s h' steps s0 /\ last hs = Some h' /\ callRun steps (newCall h', s0) = (c, s1) /\
    (finished c = false \/ broken c = true \/ continued c = false \/ stopped s1 s').

Lemma runLoop_exact fuel h handlers (s : session B) :
  write_contract (pc s) → (length (unread (pc s)) <= fuel)%nat →
  let '(hs, s') := runLoop h handlers s in
  let rs := leading asks_session (requests fuel h (unread (pc s))) in
  hs `prefix_of` rs /\ (hs = rs \/ length hs = length handlers \/ ended_after h handlers s hs s').
Proof.
  revert fuel h s. induction handlers as [|[steps retired] more IH]; intros fuel h s Hc Hf; cbn [runLoop].
  { case_goal; (split; [apply prefix_nil|right; by left]). }
  assert (∃ tl, leading asks_session (requests fuel h (unread (pc s))) = if asks_session h then h :: tl else []) as [tl Htl].
  { destruct fuel; cbn [requests leading]; eauto. }
  destruct (_ || _) eqn:Hask.
  { rewrite Htl. unfold asks_session. rewrite Hask. cbn. split; [done|by left]. }
  assert (asks_session h = true) as Ha by (unfold asks_session; by rewrite Hask).
  destruct (callRun steps (newCall h, s)) as [c s1] eqn:Hr. rewrite Ha in Htl.
  assert (∀ s', finished c = false \/ broken c = true \/ continued c = false \/ stopped s1 s' →
    [h] `prefix_of` leading asks_session (requests fuel h (unread (pc s))) /\
    ([h] = leading asks_session (requests fuel h (unread (pc s))) \/ length [h] = length ((steps, retired) :: more) \/
     ended_after h ((steps, retired) :: more) s [h] s')) as Hend.
  { intros s' Hw. rewrite Htl. split; [apply prefix_cons, prefix_nil|]. right; right. exists h, steps, s, c, s1. split; [constructor|]. by split_and!. }
  destruct (finished c) eqn:Hfin; cbn [negb]; [|apply Hend; by left].
  destruct (broken c || negb (continued c)) eqn:Hcont.
  { apply Hend. apply orb_true_iff in Hcont as [?|?%negb_true_iff]; auto. }
  to_prop. destruct (callRun_took h steps s c s1 Hc Hr Hfin H) as (Hc1 & body & Hlb & Hu).
  pose proof (betweenCalls_spec retired s1) as Hn. destruct (betweenCalls retired s1) as [[h'|] s2] eqn:Hbt.
  2: { apply Hend. do 3 right. by eapply betweenCalls_stops. }
  destruct Hn as (Hw & Hs & Ho & w & Hw4 & -> & Hg). pose proof (unread_after _ _ _ Hw Hg) as Hu2.
  assert (write_contract (pc s2)) as Hc2 by (unfold write_contract in *; by rewrite Ho).
  assert (length (unread (pc s)) = length body + (4 + length (unread (pc s2))))%nat as Hlen.
  { rewrite Hu, Hu2, !length_app, Hw4. done. }
  destruct fuel as [|fuel]; [lia|].
  assert (requests (S fuel) h (unread (pc s)) = h :: requests fuel (be32_get w) (unread (pc s2))) as Hreq.
  { cbn [requests]. rewrite Hu, Hu2.
    assert (Z.to_nat (Z.land h lengthMask) = length body) as -> by (unfold blen in Hlb; lia).
    rewrite (proj2 (Nat.leb_le _ _)) by (rewrite !length_app; lia). rewrite drop_app_length, <- Hw4, take_app_length.
    replace (length body + length w)%nat with (length (body ++ w)) by (by rewrite length_app).
    by rewrite app_assoc, drop_app_length. }
  specialize (IH fuel (be32_get w) s2 Hc2 ltac:(lia)). destruct (runLoop (be32_get w) more s2) as [hs s3] eqn:Hrun.
  rewrite Hreq. cbn [leading]. rewrite Ha. destruct IH as [Hp Hwhy]. split; [by apply prefix_cons|].
  destruct Hwhy as [->|[Hl|(h' & steps' & s0 & c' & s1' & He & Hlast & Hcr & Hst)]]; [by left|right; left; cbn; lia|].
  right; right. exists h', steps', s0, c', s1'. split; [by eapply exchange_later|]. split_and!; [|done|done].
  destruct hs; [done|]. by rewrite last_cons_cons.
Qed.

(** ** Properties *)


(** The exchange that lets a session continue is complete on both sides. When
    a call ends unbroken, through any interleaving of its steps, exactly the
    request announced by its header was taken from the connection, and exactly one
    reply was put there: for a one-way request the completion word alone, otherwise
    a header word with the length of the reply, its session flag telling whether
    the client may send again, and that many bytes. *)
Theorem finished_call_is_complete h sts (s : session B) :
  write_contract (pc s) →
  let '(c, s') := callRun sts (newCall h, s) in
  finished c = true → broken c = false →
  (∃ body, got (pc s') = got (pc s) ++ body /\ blen body = Z.land h lengthMask) /\
  ∃ n reply, sent (pc s') = sent (pc s) ++ be32_put (replyWord n (continued c)) ++ reply /\
             blen reply = n /\ 0 <= n <= lengthMask /\ (oneWay c = true → n = 0).
Proof.
  intros Hc. pose proof (callRun_inv _ _ _ (proj2 (len_range h)) sts _ (newCall_inv h s Hc)) as Hi.
  destruct (callRun sts (newCall h, s)) as [c s'].
  destruct Hi as (_ & _ & _ & _ & _ & _ & H5 & H6). intros Hf Hb.
  destruct (H5 Hf Hb) as (_ & Hrem & Hrep). destruct (H6 Hb) as [Hw (body & Hg & Hl)]. split.
  { exists body. split; [done|lia]. }
  unfold reply_wire in Hw. pose proof lengthMask_val. destruct (oneWay c).
  - rewrite Hf in Hw. destruct Hw as (_ & _ & ->). exists 0, []. rewrite app_nil_r.
    split_and!; [done..|lia|lia|done].
  - specialize (Hrep eq_refl). destruct Hw as [(_ & _ & ? & _)|(_ & Hm & Hnn & H0 & reply & -> & Hlr)]; [congruence|].
    exists (be32_get (out c)), reply. pose proof (be32_get_range (out c)).
    split_and!; [done|rewrite H0 in Hlr by done; lia|lia|lia|done].
Qed.

(** The closing marker promises that nothing was begun. If anything at all is
    written to the connection between two exchanges, then not one byte of a next
    request was read and no request follows, so the client that sees the marker
    may send its request again on another connection. *)
Theorem closing_marker_means_unread retired (s : session B) :
  let '(next, s') := betweenCalls retired s in
  sent (pc s') ≠ sent (pc s) → next = None /\ got (pc s') = got (pc s).
Proof.
  pose proof (betweenCalls_spec retired s) as Hn. destruct (betweenCalls retired s) as [[h|] s'].
  - destruct Hn as (_ & Hs & _). done.
  - destruct Hn as [_ [Hg|Hs]]; [done|]. congruence.
Qed.

(** A session does not outlive its evidence. With the options [Sessions]
    serves with, the expiry of a binding is at most five minutes after it was
    made, at most [MaxAge] after it when that is shorter, and never past the end
    of the evidence; and once a reading of the clock reaches it, an exchange gives
    out no binding and no byte of its header or body. *)
Theorem session_expiry o (b : Binding B) (s : session B) c n :
  let e := sessionDeadline (boundAt b) (MaxAge (Sessions_opts o)) (EvidenceValidUntil b) in
  (e <= boundAt b + DefaultSessionMaxAge /\ (0 < MaxAge o → e <= boundAt b + MaxAge o) /\
   (IsZero (EvidenceValidUntil b) = false → e <= EvidenceValidUntil b)) /\
  (IsZero (expires s) = false → expires s <= clock (clock_at s) →
   (callBind (c, s)).1 = Err (Sentinel errSessionExpired) /\
   (c_closed c = false → (headerAt c < 4)%nat \/ 0 < remaining c →
    (callRead n (c, s)).1 = ([], Some (Sentinel errSessionExpired)))).
Proof.
  cbn zeta. split.
  - unfold sessionDeadline, Sessions_opts, TimeAdd, Before. cbn.
    assert (0 < DefaultSessionMaxAge) by (unfold DefaultSessionMaxAge, minute, second, millisecond; lia).
    destruct (MaxAge o <=? 0) eqn:E1, (DefaultSessionMaxAge <? MaxAge o) eqn:E2; cbn; to_prop;
      destruct (IsZero (EvidenceValidUntil b)) eqn:E3; cbn;
      try destruct (EvidenceValidUntil b <? _) eqn:E4; to_prop; split_and!; intros; try done; lia.
  - intros Hz Hx.
    assert (expired s = (true, mkSession (pc s) (binding s) (expires s) (s_idle s) (retiring s) (S (clock_at s)))) as He.
    { unfold expired. rewrite Hz. cbn. unfold Before. by rewrite (proj2 (Z.ltb_ge _ _)). }
    split.
    + unfold callBind, requestValid. by rewrite He.
    + intros Hcl Hreq. unfold callRead, readBegin. rewrite Hcl, He.
      destruct (headerAt c <? 4)%nat eqn:E; [done|]. to_prop. destruct Hreq; [lia|].
      by rewrite (proj2 (Z.ltb_lt _ _)).
Qed.

End Session.

(** ** Witnesses *)

Definition sampleOptions : SessionOptions := Sessions_opts (mkSessionOptions 0 0 0 0).

(** The stream of a client that sends a two-byte request, then an empty one. *)
Definition sampleSession : session unit :=
  mkSession (newConn [RData [x68]; RFail (Sentinel OsErrDeadlineExceeded); RData ([x69] ++ be32_put sessionFlag)])
    (Err (Sentinel ErrNoBinding)) (1000 * second) false false 0.

(** A service that reads the request whole, replies with one byte and closes. *)
Definition sampleHandler : list callStep :=
  [StepRead 4; StepRead 8; StepRead 8; StepRead 8; StepWrite (be32_put 1 ++ [x21]); StepCloseBegin; StepCloseEnd].


Lemma finished_call_is_complete_witness :
  let '(c, s') := callRun (λ _, 0) sampleHandler (newCall (sessionFlag + 2), sampleSession) in
  continued c = true /\ ∃ body, got (pc s') = [] ++ body /\ blen body = 2.
Proof.
  pose proof (finished_call_is_complete (λ _, 0) (sessionFlag + 2) sampleHandler sampleSession) as H.
  destruct (callRun _ _ _) as [c s'] eqn:E. vm_compute in E.
  assert (continued c = true /\ finished c = true /\ broken c = false) as (Hc & Hf & Hb)
    by (injection E as <- _; repeat split).
  split; [exact Hc|]. destruct H as [H _]; [constructor|exact Hf|exact Hb|]. exact H.
Defined.
