(* ===== verification/SessionListener.v ===== *)
(** listen/session.go, the listener half: who owns a connection before its first
    header is read, how that header is read, and how many connections are held. *)

From S2P Require Import Prelude GoStrings GoError ProofLadder Peer Binding GoIO Frame Session.

(** ** Ownership before the first header *)

Record pendingSessionConn := mkPending { owned : bool; p_closed : bool }.

Definition newPending : pendingSessionConn := mkPending true false.

(** [pendingSessionConn.release]: whether the caller now owns the connection. *)
Definition pendingRelease (p : pendingSessionConn) : bool * pendingSessionConn :=
  if p_closed p then (false, p) else (true, mkPending false false).

(** [pendingSessionConn.interrupt]: whether it closes the connection. *)
Definition pendingInterrupt (p : pendingSessionConn) : bool * pendingSessionConn :=
  if negb (owned p) || p_closed p then (false, p) else (true, mkPending (owned p) true).

Inductive pendingCall := DoRelease | DoInterrupt.

(** The calls that took the connection: to hand it on, or to close it. *)
Fixpoint pendingRun (cs : list pendingCall) (p : pendingSessionConn) : list pendingCall * pendingSessionConn :=
  match cs with
  | [] => ([], p)
  | c :: cs =>
      let '(took, p) := match c with DoRelease => pendingRelease p | DoInterrupt => pendingInterrupt p end in
      let '(l, p) := pendingRun cs p in
      (if took : bool then c :: l else l, p)
  end.

(** ** The first header *)

Inductive firstOutcome :=
| FirstClosed (c : conn)
| FirstPlain (r : replayConn)
| FirstSession (header : Z) (c : conn).

(** [firstHeader] of a connection with deadlines; [t] is the clock. *)
Definition firstHeader (opts : SessionOptions) (t : Time) (c : conn) : firstOutcome :=
  match connSetDeadline (TimeAdd t (FirstRequest opts)) c with
  | (Some _, c) => FirstClosed (connClose c)
  | (None, c) =>
      let '(h, e, c) := ReadFull 1 c in
      match e, h with
      | Some _, _ | None, [] => FirstClosed (connClose c)
      | None, b :: _ =>
          if Z.land (bz b) 128 =? 0
          then FirstPlain (mkReplay (connSetDeadline zeroTime c).2 [b])
          else
            let '(more, e, c) := ReadFull 3 c in
            match e with
            | Some _ => FirstClosed (connClose c)
            | None =>
                let header := be32_get (b :: more) in
                if header =? sessionClosing then FirstClosed (connClose c) else FirstSession header c
            end
      end
  end.

(** What [prepare] makes of a header that was not admitted: the declined exchange,
    served as one plain frame. *)
Definition declined (header : Z) (c : conn) : firstOutcome :=
  match writeUint32 sessionDecline c with
  | (Some _, c) => FirstClosed (connClose c)
  | (None, c) =>
      FirstPlain (mkReplay (connSetDeadline zeroTime c).2 (be32_put (Z.land header lengthMask)))
  end.

(** ** Admission *)

(** A session as the listener sees it. *)
Record held := mkHeld { h_idle : bool; h_retiring : bool }.

Record sessionListener := mkListener {
  l_done : bool;
  waiting : Z;
  sessions : gmap nat held;
  nextId : nat
}.

Definition newListener : sessionListener := mkListener false 0 ∅ 0.

Section Listener.
Context (opts : SessionOptions).

(** The part of [acceptLoop] that follows a successful [Accept]: whether the
    connection is kept. *)
Definition acceptOne (l : sessionListener) : bool * sessionListener :=
  if l_done l then (false, l)
  else if 2 * MaxSessions opts <=? waiting l then (false, l)
  else (true, mkListener (l_done l) (waiting l + 1) (sessions l) (nextId l)).

(** [retire] as the listener calls it. *)
Definition heldRetire (h : held) : bool * held := (h_idle h, mkHeld (h_idle h) true).

(** The loop of [prepare] over the sessions, in the order the map gives them. *)
Fixpoint retireOne (order : list nat) (m : gmap nat held) : bool * gmap nat held :=
  match order with
  | [] => (false, m)
  | i :: rest =>
      match m !! i with
      | None => retireOne rest m
      | Some h =>
          let '(was_idle, h') := heldRetire h in
          let m := <[i := h']> m in
          if was_idle : bool then (true, m) else retireOne rest m
      end
  end.

(** The end of [prepare] for a connection whose first header opened a session:
    whether it is admitted. [order] is the order the map is ranged over in. *)
Definition admission (order : list nat) (l : sessionListener) : bool * sessionListener :=
  let '(admitted, m) :=
    if Z.of_nat (size (sessions l)) <? MaxSessions opts then (true, sessions l)
    else retireOne order (sessions l) in
  let admitted := admitted && negb (l_done l) in
  if admitted
  then (true, mkListener (l_done l) (waiting l) (<[nextId l := mkHeld false false]> m) (S (nextId l)))
  else (false, mkListener (l_done l) (waiting l) m (nextId l)).

(** The first header was read, or failed to be: the connection waits no more. *)
Definition headerDone (l : sessionListener) : sessionListener :=
  mkListener (l_done l) (waiting l - 1) (sessions l) (nextId l).

(** [shutdown]: every session is retired. *)
Definition shutdown (l : sessionListener) : sessionListener :=
  if l_done l then l
  else mkListener true (waiting l) ((λ h, (heldRetire h).2) <$> sessions l) (nextId l).

(** ** Steps *)

(** What happens to the listener. A session's own goroutine makes it idle between
    exchanges unless it is retiring, active again, and gone. *)
Inductive listenerStep : sessionListener → sessionListener → Prop :=
| LAccept l : listenerStep l (acceptOne l).2
| LHeader l : 0 < waiting l → listenerStep l (headerDone l)
| LAdmit l order : listenerStep l (admission order l).2
| LIdle l i h : sessions l !! i = Some h → h_retiring h = false →
    listenerStep l (mkListener (l_done l) (waiting l) (<[i := mkHeld true false]> (sessions l)) (nextId l))
| LActive l i h : sessions l !! i = Some h →
    listenerStep l (mkListener (l_done l) (waiting l) (<[i := mkHeld false (h_retiring h)]> (sessions l)) (nextId l))
| LGone l i : listenerStep l (mkListener (l_done l) (waiting l) (delete i (sessions l)) (nextId l))
| LShutdown l : listenerStep l (shutdown l).

Definition reachable (l : sessionListener) : Prop := rtc listenerStep newListener l.

Definition listener_inv (l : sessionListener) : Prop :=
  0 <= waiting l <= 2 * MaxSessions opts /\
  (l_done l = true → map_Forall (λ _ h, h_retiring h = true) (sessions l)).

Lemma retireOne_retiring order m :
  map_Forall (λ _ h, h_retiring h = true) m →
  map_Forall (λ _ h, h_retiring h = true) (retireOne order m).2.
Proof.
  revert m. induction order as [|i rest IH]; intros m Hm; [done|]. cbn.
  destruct (m !! i) as [h|]; [|by apply IH]. cbn.
  assert (map_Forall (λ _ h, h_retiring h = true) (<[i := mkHeld (h_idle h) true]> m)).
  { by apply map_Forall_insert_2. }
  destruct (h_idle h); [done|]. by apply IH.
Qed.

Lemma listenerStep_inv l l' : 0 < MaxSessions opts → listenerStep l l' → listener_inv l → listener_inv l'.
Proof.
  intros Hmax Hs [Hw Hd]. destruct Hs; unfold listener_inv; cbn.
  - unfold acceptOne. destruct (l_done l) eqn:El; [cbn; by rewrite El|].
    case_goal; cbn; rewrite ?El; to_prop; (split; [lia|done]).
  - split; [lia|done].
  - unfold admission.
    set (r := if Z.of_nat (size (sessions l)) <? MaxSessions opts then _ else _).
    assert (l_done l = true → map_Forall (λ _ h, h_retiring h = true) r.2) as Hr.
    { intros Hl. unfold r. case_goal; [by apply Hd|]. by apply retireOne_retiring, Hd. }
    destruct r as [a m]. cbn in Hr. destruct (l_done l) eqn:E.
    + rewrite andb_false_r. cbn. split; [done|]. intros _. by apply Hr.
    + destruct a; cbn; split; try done; intros; congruence.
  - split; [done|]. intros Hl. apply map_Forall_insert_2; [|by apply Hd].
    specialize (Hd Hl). apply (map_Forall_lookup_1 _ _ _ _ Hd) in H. congruence.
  - split; [done|]. intros Hl. specialize (Hd Hl). apply map_Forall_insert_2; [|done].
    by apply (map_Forall_lookup_1 _ _ _ _ Hd) in H.
  - split; [done|]. intros Hl. apply map_Forall_delete. by apply Hd.
  - unfold shutdown. destruct (l_done l) eqn:E; [by rewrite E|]. cbn. split; [done|]. intros _.
    intros i h. rewrite lookup_fmap. destruct (sessions l !! i); cbn; [|done]. by intros [= <-].
Qed.

(** The first session idle and perhaps retiring, [n] more sessions active and not
    retiring. *)
Definition crowded (n : nat) (l : sessionListener) : Prop :=
  reachable l /\ l_done l = false /\ nextId l = S n /\ (n <= size (sessions l))%nat /\
  (∃ r, sessions l !! 0%nat = Some (mkHeld true r)) /\
  (∀ i h, sessions l !! i = Some h → h_retiring h = true → i = 0%nat) /\
  (∀ i, (S n <= i)%nat → sessions l !! i = None).

Lemma crowded_O : 0 < MaxSessions opts → crowded 0 (mkListener false 0 {[0%nat := mkHeld true false]} 1).
Proof.
  intros Hm. unfold crowded. cbn. split_and!; try done; [|lia|..].
  - eapply rtc_l; [apply (LAdmit _ [])|]. unfold admission. cbn.
    rewrite map_size_empty, (proj2 (Z.ltb_lt _ _)) by (cbn; lia). cbn.
    eapply rtc_l; [apply (LIdle _ 0%nat (mkHeld false false)); [cbn; by simplify_map_eq|done]|].
    cbn. by rewrite insert_insert_eq.
  - exists false. by simplify_map_eq.
  - intros i h [-> <-]%lookup_singleton_Some. done.
  - intros i Hi. by rewrite lookup_singleton_ne by lia.
Qed.

Lemma crowded_S n l : crowded n l → crowded (S n) (admission [0%nat] l).2.
Proof.
  intros (Hr & Hd & Hn & Hs & (r & H00) & Hret & Hnew).
  assert (∀ m : gmap nat held, (∀ i, i ≠ 0%nat → m !! i = sessions l !! i) → (size m = size (sessions l)) →
    (∃ r', m !! 0%nat = Some (mkHeld true r')) →
    let m' := <[S n := mkHeld false false]> m in
    (S n <= size m')%nat /\ (∃ r', m' !! 0%nat = Some (mkHeld true r')) /\
    (∀ i h, m' !! i = Some h → h_retiring h = true → i = 0%nat) /\
    (∀ i, (S (S n) <= i)%nat → m' !! i = None)) as Hgrow.
  { intros m Hm Hsz (r' & Hr'). cbn zeta. split_and!.
    - rewrite map_size_insert_None by (rewrite Hm, Hnew by lia; done). lia.
    - exists r'. by rewrite lookup_insert_ne by lia.
    - intros i h. destruct (decide (i = S n)) as [->|Hne]; [rewrite lookup_insert_eq; by intros [= <-]|].
      rewrite lookup_insert_ne by done. destruct (decide (i = 0%nat)) as [->|Hne0]; [done|].
      rewrite Hm by done. apply Hret.
    - intros i Hi. rewrite lookup_insert_ne, Hm by lia. apply Hnew. lia. }
  split; [by eapply rtc_r; [|apply LAdmit]|].
  unfold admission. rewrite Hd, Hn. cbn [retireOne]. rewrite H00. cbn. case_goal; cbn; (split; [done|]); (split; [done|]).
  - apply Hgrow; eauto.
  - apply Hgrow.
    + intros i Hi. by rewrite lookup_insert_ne.
    + by rewrite map_size_insert_Some by eauto.
    + exists true. by rewrite lookup_insert_eq.
Qed.

(** ** Properties *)

(** The listener's bounds hold in every reachable state: no more than twice
    [MaxSessions] connections wait for a first header, and once it is shut down
    every session it holds has been told to retire and none is admitted. *)
Theorem listener_bounds l : 0 < MaxSessions opts → reachable l →
  0 <= waiting l <= 2 * MaxSessions opts /\
  (l_done l = true →
     map_Forall (λ _ h, h_retiring h = true) (sessions l) /\ ∀ order, (admission order l).1 = false).
Proof.
  intros Hm Hr. assert (listener_inv l) as [Hw Hd].
  { unfold reachable in Hr. revert l Hr. apply rtc_ind_r.
    - split; cbn; [lia|done].
    - intros y z _ Hs IH. by eapply listenerStep_inv. }
  split; [done|]. intros Hl. split; [by apply Hd|]. intros order. unfold admission.
  destruct (if Z.of_nat (size (sessions l)) <? MaxSessions opts then _ else _) as [a m].
  by rewrite Hl, andb_false_r.
Qed.

(** C29: [MaxSessions] does not bound the sessions a listener holds. One idle
    session answers [retire] with true for as long as its goroutine has not left
    the idle state, so every connection that opens a session in that time is
    admitted on its account: for any number there is a reachable state with more
    sessions than that, none but one of them retiring. *)
Theorem sessions_exceed_the_bound (k : nat) : 0 < MaxSessions opts →
  ∃ l, reachable l /\ (k <= size (sessions l))%nat /\
       ∀ i h, sessions l !! i = Some h → h_retiring h = true → i = 0%nat.
Proof.
  intros Hm. assert (∀ n, ∃ l, crowded n l) as Hall.
  { induction n as [|n [l Hl]]; [eexists; by apply crowded_O|]. eexists. by apply crowded_S. }
  destruct (Hall k) as (l & Hr & _ & _ & Hs & _ & Hret & _). by exists l.
Qed.

Lemma connSetDeadline_incoming d (c : conn) : incoming (connSetDeadline d c).2 = incoming c.
Proof. unfold connSetDeadline. destruct (conn_closed c) eqn:E; [done|]. cbn. by rewrite E. Qed.

Lemma high_bit b more : length more = 3%nat → Z.land (bz b) 128 ≠ 0 → Z.land (be32_get (b :: more)) sessionFlag ≠ 0.
Proof.
  intros Hl Hb. change 128 with (Z.shiftl 1 7) in Hb. rewrite land_flag in Hb by lia.
  destruct (Z.testbit (bz b) 7) eqn:E; [|done]. clear Hb. rewrite Z.testbit_true in E by lia.
  destruct more as [|b1 [|b2 [|b3 [|]]]]; try done. cbn [be32_get]. unfold sessionFlag.
  rewrite land_flag by lia. set (x := bz b * 2 ^ 24 + _ + _ + _).
  assert (Z.testbit x 31 = true) as ->; [|lia]. rewrite Z.testbit_true by lia.
  assert (x / 2 ^ 31 = bz b / 2 ^ 7) as ->; [|done].
  pose proof (bz_range b). pose proof (bz_range b1). pose proof (bz_range b2). pose proof (bz_range b3).
  unfold x. change (2 ^ 31) with (2 ^ 24 * 2 ^ 7). rewrite <- Z.div_div by lia.
  f_equal. rewrite <- !Z.add_assoc, Z.div_add_l by lia. rewrite Z.div_small; lia.
Qed.

(** A declined request is the plain frame it carries. *)
Lemma declined_frame h (d : conn) r frame rest e limit :
  declined h d = FirstPlain r → 0 <= limit → incoming d = (frame ++ rest, e) →
  blen frame = Z.land h lengthMask → blen frame <= frameLimit limit →
  ∃ r', ReadFrameFrom limit r = (Ok frame, r') /\ incoming r' = (rest, e).
Proof.
  unfold declined, writeUint32, write, conn_Writer. intros Hd Hl Hi Hb Hlim.
  destruct (connWrite (be32_put sessionDecline) d) as [[n x] d1] eqn:Hw. destruct x; [done|].
  injection Hd as <-.
  assert (incoming d1 = incoming d) as Hi1.
  { unfold connWrite in Hw. cbn. repeat case_hyp Hw; simplify_eq; cbn; by rewrite ?E. }
  assert (incoming (mkReplay (connSetDeadline zeroTime d1).2 (be32_put (Z.land h lengthMask)))
          = (be32_put (blen frame) ++ frame ++ rest, e)) as Hr.
  { cbn [incoming replay_Reader rc_conn rc_prefix]. by rewrite connSetDeadline_incoming, Hi1, Hi, Hb. }
  revert Hr. generalize (mkReplay (connSetDeadline zeroTime d1).2 (be32_put (Z.land h lengthMask))).
  intros r Hr. pose proof (frameLimit_range limit Hl) as Hf. pose proof lengthMask_val.
  assert (0 <= blen frame < 2 ^ 30) by (unfold blen in *; lia).
  unfold ReadFrameFrom, readFrame.
  destruct (ReadFull_word (be32_put (blen frame)) (frame ++ rest) e r Hr) as (r1 & Hr1 & Hi2).
  rewrite be32_put_length in Hr1. rewrite Hr1, be32_get_put by lia.
  rewrite (proj2 (Z.eqb_neq _ _)) by (unfold proofRefusalHeader; lia).
  apply readFrameBody_ok; [done|unfold maxInt; lia|done].
Qed.

(** A connection that does not open a session is handed on as it was. When
    [firstHeader] finds a first byte without the session bit, the connection it
    delivers offers exactly the bytes the client sent, in any chunks; and a session
    request that is declined is delivered as the plain frame it carries, so that
    [ReadFrameFrom] reads the request from it. *)
Theorem first_header_transparent t (c : conn) :
  match firstHeader opts t c with
  | FirstPlain r => incoming r = incoming c
  | FirstSession h d =>
      Z.land h sessionFlag ≠ 0 /\ h ≠ sessionClosing /\
      (∃ bs e, incoming c = (be32_put h ++ bs, e) /\ incoming d = (bs, e)) /\
      ∀ r frame rest e limit, declined h d = FirstPlain r → 0 <= limit →
        incoming d = (frame ++ rest, e) → blen frame = Z.land h lengthMask → blen frame <= frameLimit limit →
        ∃ r', ReadFrameFrom limit r = (Ok frame, r') /\ incoming r' = (rest, e)
  | FirstClosed d => conn_closed d = true
  end.
Proof.
  unfold firstHeader. destruct (connSetDeadline _ c) as [[x|] c0] eqn:Hsd; [done|].
  assert (incoming c0 = incoming c) as Hin.
  { pose proof (connSetDeadline_incoming (TimeAdd t (FirstRequest opts)) c) as Hs. by rewrite Hsd in Hs. }
  destruct (ReadFull 1 c0) as [[h e] c1] eqn:H1. destruct e as [e|]; [done|].
  apply ReadFull_ok in H1 as [Hl1 Hi1]. destruct h as [|b [|]]; try done. rewrite Hin in Hi1.
  destruct (Z.land (bz b) 128 =? 0) eqn:Hbit; to_prop.
  { cbn [incoming replay_Reader rc_conn rc_prefix]. rewrite connSetDeadline_incoming, Hi1.
    by destruct (incoming c1). }
  destruct (ReadFull 3 c1) as [[more e] c2] eqn:H3. destruct e as [e|]; [done|].
  apply ReadFull_ok in H3 as [Hl3 Hi3].
  destruct (be32_get (b :: more) =? sessionClosing) eqn:Hcl; [done|]. to_prop.
  split_and!; [by apply high_bit|done| |].
  - exists (incoming c2).1, (incoming c2).2. split; [|by destruct (incoming c2)].
    rewrite Hi1, Hi3, be32_put_get by (cbn; lia). done.
  - intros r frame rest x limit. apply declined_frame.
Qed.

(** Before its first header is read, a connection has one owner. Over any
    sequence of [release] and [interrupt] calls, in any order, exactly the first
    takes the connection: either it is handed on and no later shutdown closes it,
    or it is closed and never handed on; only repeated releases by its own
    goroutine succeed after the first. *)
Theorem pending_conn_has_one_owner c cs :
  match (pendingRun (c :: cs) newPending).1 with
  | DoRelease :: rest => Forall (λ x, x = DoRelease) rest
  | DoInterrupt :: rest => rest = []
  | [] => False
  end.
Proof.
  assert (∀ cs, (pendingRun cs (mkPending true true)).1 = []) as Hclosed.
  { clear. induction cs as [|[] cs IH]; cbn; [done|..];
      destruct (pendingRun cs (mkPending true true)); cbn in *; done. }
  assert (∀ cs, Forall (λ x, x = DoRelease) (pendingRun cs (mkPending false false)).1) as Hreleased.
  { clear. induction cs as [|[] cs IH]; cbn; [done|..];
      destruct (pendingRun cs (mkPending false false)); cbn in *; [by constructor|done]. }
  destruct c; cbn.
  - specialize (Hreleased cs). by destruct (pendingRun cs (mkPending false false)).
  - specialize (Hclosed cs). by destruct (pendingRun cs (mkPending true true)).
Qed.

End Listener.

(** ** Witnesses *)

Lemma listener_bounds_witness :
  let l := (acceptOne sampleOptions newListener).2 in
  0 <= waiting l <= 2 * MaxSessions sampleOptions.
Proof.
  refine (proj1 (listener_bounds sampleOptions _ _ _)); [reflexivity|].
  eapply rtc_l; [apply LAccept|apply rtc_refl].
Defined.

Lemma sessions_exceed_the_bound_witness :
  ∃ l, reachable sampleOptions l /\ (65 <= size (sessions l))%nat.
Proof.
  destruct (sessions_exceed_the_bound sampleOptions 65) as (l & Hr & Hs & _); [reflexivity|].
  exists l. split; [exact Hr|exact Hs].
Defined.
