(* ===== verification/GoFilepath.v ===== *)
(** Go's [path/filepath] on Unix: the lexical path functions the identity code
    calls, and the laws its loops rest on. *)

From S2P Require Import Prelude GoStrings GoError.

Definition slash : ascii := "/"%char.

Definition IsAbs (p : string) : bool := HasPrefix p "/".

(** The elements of [Clean], on a stack: an empty element and [.] vanish, [..]
    removes the element before it when there is one. *)
Fixpoint clean_stack (rooted : bool) (cs acc : list string) : list string :=
  match cs with
  | [] => rev acc
  | c :: cs =>
      if String.eqb c "" || String.eqb c "." then clean_stack rooted cs acc
      else if String.eqb c ".." then
        match acc with
        | top :: below =>
            if String.eqb top ".." then clean_stack rooted cs (".." :: acc)
            else clean_stack rooted cs below
        | [] => if rooted then clean_stack rooted cs [] else clean_stack rooted cs [".."]
        end
      else clean_stack rooted cs (c :: acc)
  end.

(** The path with these elements. *)
Definition render (rooted : bool) (cs : list string) : string :=
  if rooted then "/" +:+ Join cs "/"
  else match cs with [] => "." | _ => Join cs "/" end.

Definition elements (p : string) : list string := clean_stack (IsAbs p) (Split p slash) [].

(** [filepath.Clean]. *)
Definition Clean (p : string) : string := render (IsAbs p) (elements p).

(** The path up to and including its last separator. *)
Fixpoint upto_last (s : string) (c : ascii) : option string :=
  match s with
  | "" => None
  | String a s' =>
      match upto_last s' c with
      | Some r => Some (String a r)
      | None => if Ascii.eqb a c then Some (of_char a) else None
      end
  end.

(** [filepath.Dir]. *)
Definition Dir (p : string) : string := Clean (default "" (upto_last p slash)).

(** [filepath.Base]. *)
Definition Base (p : string) : string :=
  match p with
  | "" => "."
  | _ =>
      let p := TrimRight p "/" in
      let b := default p (after_last p slash) in
      match b with "" => "/" | _ => b end
  end.

(** [filepath.Join] of two elements. *)
Definition JoinPath (a b : string) : string :=
  match a, b with
  | "", "" => ""
  | "", _ => Clean b
  | _, "" => Clean a
  | _, _ => Clean (a +:+ "/" +:+ b)
  end.

(** [filepath.Abs] in the working directory [wd]. *)
Definition AbsFrom (wd : result string) (p : string) : result string :=
  if IsAbs p then Ok (Clean p) else let*! wd := wd in Ok (JoinPath wd p).

(** ** Elements and their spelling *)

Definition no_slash (c : string) : Prop := contains_char (Ascii.eqb slash) c = false.

Definition plain_name (c : string) : Prop := no_slash c /\ c ≠ "" /\ c ≠ "." /\ c ≠ "..".

(** The elements of a clean path: names, after as many [..] as lead out of a
    relative one. *)
Definition clean_list (rooted : bool) (cs : list string) : Prop :=
  ∃ k names, cs = replicate k ".." ++ names /\ Forall plain_name names /\ (rooted = true → k = 0%nat).

Lemma Split_no_slash c : no_slash c → Split c slash = [c].
Proof.
  induction c as [|a c IH]; [done|]. unfold no_slash in *. cbn -[Ascii.eqb]. intros H. to_prop.
  rewrite Ascii.eqb_sym, H, IH by done. done.
Qed.

Lemma Split_cons_slash c r : no_slash c → Split (c +:+ String slash r) slash = c :: Split r slash.
Proof.
  induction c as [|a c IH]; intros H.
  - reflexivity.
  - unfold no_slash in *. cbn -[Ascii.eqb] in H. to_prop.
    change (String a c +:+ String slash r) with (String a (c +:+ String slash r)).
    cbn -[Ascii.eqb]. rewrite Ascii.eqb_sym, H, IH by done. done.
Qed.

Lemma Split_Join cs : cs ≠ [] → Forall no_slash cs → Split (Join cs "/") slash = cs.
Proof.
  induction cs as [|c cs IH]; [done|]. intros _ [Hc Hcs]%Forall_cons.
  destruct cs as [|d cs]; [by apply Split_no_slash|].
  change (Join (c :: d :: cs) "/") with (c +:+ String slash (Join (d :: cs) "/")).
  rewrite Split_cons_slash by done. by rewrite IH.
Qed.

Lemma Split_all_no_slash s : Forall no_slash (Split s slash).
Proof.
  induction s as [|a s IH]; cbn -[Ascii.eqb]; [by repeat constructor|].
  destruct (Ascii.eqb a slash) eqn:E; [by constructor|].
  destruct (Split s slash) as [|w ws]; [constructor; [|done]|].
  - unfold no_slash. cbn -[Ascii.eqb]. by rewrite Ascii.eqb_sym, E.
  - apply Forall_cons in IH as [Hw Hws]. constructor; [|done]. unfold no_slash in *. cbn -[Ascii.eqb].
    by rewrite Ascii.eqb_sym, E.
Qed.

Lemma dotdot_no_slash : no_slash "..".
Proof. done. Qed.

Lemma clean_list_no_slash rooted cs : clean_list rooted cs → Forall no_slash cs.
Proof.
  intros (k & names & -> & Hn & _). apply Forall_app. split.
  - by apply Forall_replicate, dotdot_no_slash.
  - eapply Forall_impl; [done|]. by intros c [? _].
Qed.

Lemma rev_replicate {A} k (x : A) : rev (replicate k x) = replicate k x.
Proof. rewrite rev_alt. apply reverse_replicate. Qed.

Lemma clean_stack_list rooted cs k rn :
  Forall no_slash cs → Forall plain_name rn → (rooted = true → k = 0%nat) →
  clean_list rooted (clean_stack rooted cs (rn ++ replicate k "..")).
Proof.
  revert k rn. induction cs as [|c cs IH]; intros k rn Hcs Hrn Hk; cbn [clean_stack].
  { exists k, (rev rn). rewrite rev_app_distr, rev_replicate. split_and!; [done| |done]. by apply Forall_rev. }
  apply Forall_cons in Hcs as [Hc Hcs].
  destruct (String.eqb c "" || String.eqb c ".") eqn:E1; [by apply IH|]. to_prop.
  destruct (String.eqb c "..") eqn:E2; to_prop.
  - destruct rn as [|n rn]; cbn [app].
    + destruct k as [|k]; cbn [replicate].
      * destruct rooted; [by apply (IH 0%nat [])|]. apply (IH 1%nat []); done.
      * rewrite String.eqb_refl. apply (IH (S (S k)) []); [done..|]. intros Hr. by specialize (Hk Hr).
    + apply Forall_cons in Hrn as [Hn Hrn]. rewrite (proj2 (String.eqb_neq n "..")) by apply Hn. by apply IH.
  - apply (IH k (c :: rn)); [done| |done]. constructor; done.
Qed.

Lemma elements_clean p : clean_list (IsAbs p) (elements p).
Proof. apply (clean_stack_list _ _ 0%nat []); [apply Split_all_no_slash|done|done]. Qed.

Lemma clean_stack_names rooted names acc : Forall plain_name names →
  clean_stack rooted names acc = rev acc ++ names.
Proof.
  revert acc. induction names as [|c names IH]; intros acc Hn; cbn [clean_stack].
  { by rewrite app_nil_r. }
  apply Forall_cons in Hn as [(_ & H1 & H2 & H3) Hn].
  rewrite !(proj2 (String.eqb_neq c _)) by done. cbn [orb]. rewrite IH by done. cbn. by rewrite <- app_assoc.
Qed.

Lemma clean_stack_id rooted cs : clean_list rooted cs → clean_stack rooted cs [] = cs.
Proof.
  intros (k & names & -> & Hn & Hk).
  assert (∀ k j, (rooted = true → k = 0%nat) →
    clean_stack rooted (replicate k ".." ++ names) (replicate j "..") = replicate (j + k) ".." ++ names) as Hg.
  { clear k Hk. induction k as [|k IH]; intros j Hk.
    - cbn [replicate app]. by rewrite clean_stack_names, rev_replicate, Nat.add_0_r by done.
    - destruct rooted; [by specialize (Hk eq_refl)|].
      destruct j as [|j]; [apply (IH 1%nat); done|].
      transitivity (clean_stack false (replicate k ".." ++ names) (replicate (S (S j)) "..")); [done|].
      rewrite (IH (S (S j))) by done. f_equal. f_equal. lia. }
  apply (Hg k 0%nat Hk).
Qed.

Lemma HasPrefix_slash s : HasPrefix s "/" = true <-> ∃ r, s = String slash r.
Proof.
  unfold HasPrefix. destruct s as [|a s]; cbn -[Ascii.eqb].
  { split; [discriminate|]. by intros [r [=]]. }
  destruct (Ascii.eqb_spec "/" a) as [<-|Hne].
  - split; [intros _; by exists s|]. intros _. by destruct s.
  - split; [done|]. intros [r [= -> _]]. done.
Qed.

Lemma render_IsAbs rooted cs : clean_list rooted cs → IsAbs (render rooted cs) = rooted.
Proof.
  intros Hc. unfold render. destruct rooted.
  { unfold IsAbs. apply HasPrefix_slash. by eexists. }
  apply clean_list_no_slash in Hc as Hns.
  destruct cs as [|c cs]; [done|]. unfold IsAbs. apply not_true_iff_false. intros [r Hr]%HasPrefix_slash.
  destruct Hc as (k & names & Heq & Hn & _).
  assert (c ≠ "" /\ no_slash c) as [Hc0 Hcs].
  { split; [|by apply Forall_cons in Hns as [? _]]. destruct k as [|k]; cbn in Heq; [|by injection Heq as -> _].
    subst names. apply Forall_cons in Hn as [(_ & ? & _) _]. done. }
  destruct c as [|a c]; [done|]. assert (a = slash) as ->.
  { destruct cs; cbn in Hr; by injection Hr. }
  unfold no_slash in Hcs. cbn -[Ascii.eqb] in Hcs. by rewrite Ascii.eqb_refl in Hcs.
Qed.

Lemma elements_render rooted cs : clean_list rooted cs → elements (render rooted cs) = cs.
Proof.
  intros Hc. unfold elements. rewrite (render_IsAbs _ _ Hc).
  pose proof (clean_list_no_slash _ _ Hc) as Hns. unfold render. destruct rooted.
  - change ("/" +:+ Join cs "/") with ("" +:+ String slash (Join cs "/")).
    rewrite Split_cons_slash by done. cbn [clean_stack String.eqb orb].
    destruct cs as [|c cs]; [done|]. rewrite Split_Join by done. by apply clean_stack_id.
  - destruct cs as [|c cs]; [done|]. rewrite Split_Join by done. by apply clean_stack_id.
Qed.

Lemma Clean_render p : ∃ cs, clean_list (IsAbs p) cs /\ Clean p = render (IsAbs p) cs.
Proof. exists (elements p). split; [apply elements_clean|done]. Qed.

(** [Clean] is idempotent, and keeps absolute paths absolute. *)
Lemma Clean_idem p : Clean (Clean p) = Clean p.
Proof.
  destruct (Clean_render p) as (cs & Hc & ->). unfold Clean.
  by rewrite (render_IsAbs _ _ Hc), (elements_render _ _ Hc).
Qed.

Lemma Clean_IsAbs p : IsAbs (Clean p) = IsAbs p.
Proof. destruct (Clean_render p) as (cs & Hc & ->). by apply render_IsAbs. Qed.

(** ** Parents *)

Lemma upto_last_none c : no_slash c → upto_last c slash = None.
Proof.
  induction c as [|a c IH]; [done|]. unfold no_slash in *. cbn -[Ascii.eqb]. intros H. to_prop.
  rewrite IH by done. by rewrite Ascii.eqb_sym, H.
Qed.

Lemma upto_last_app q c : no_slash c → upto_last (q +:+ String slash c) slash = Some (q +:+ "/").
Proof.
  intros Hc. induction q as [|a q IH].
  - transitivity (match upto_last c slash with Some r => Some (String slash r) | None => Some "/" end); [done|].
    by rewrite upto_last_none.
  - change (String a q +:+ String slash c) with (String a (q +:+ String slash c)).
    cbn -[Ascii.eqb]. by rewrite IH.
Qed.

Lemma Split_nonempty s : Split s slash ≠ [].
Proof. destruct s; cbn -[Ascii.eqb]; repeat case_goal; done. Qed.

Lemma Split_trailing q : Split (q +:+ "/") slash = Split q slash ++ [""].
Proof.
  induction q as [|a q IH]; [done|].
  change (String a q +:+ "/") with (String a (q +:+ "/")). cbn -[Ascii.eqb]. rewrite IH.
  destruct (Ascii.eqb a slash); [done|]. destruct (Split q slash) eqn:E; [by apply Split_nonempty in E|done].
Qed.

Lemma clean_stack_trailing rooted xs acc : clean_stack rooted (xs ++ [""]) acc = clean_stack rooted xs acc.
Proof.
  revert acc. induction xs as [|x xs IH]; intros acc; [done|]. cbn [app clean_stack].
  repeat case_goal; apply IH.
Qed.

Lemma Join_snoc cs c : cs ≠ [] → Join (cs ++ [c]) "/" = Join cs "/" +:+ "/" +:+ c.
Proof.
  induction cs as [|d cs IH]; [done|]. intros _. destruct cs as [|e cs]; [done|].
  change (Join ((d :: e :: cs) ++ [c]) "/") with (d +:+ "/" +:+ Join ((e :: cs) ++ [c]) "/").
  rewrite IH by done. change (Join (d :: e :: cs) "/") with (d +:+ "/" +:+ Join (e :: cs) "/").
  by rewrite !str_app_assoc.
Qed.

Lemma clean_list_snoc cs c : clean_list true (cs ++ [c]) → clean_list true cs /\ plain_name c.
Proof.
  intros (k & names & Heq & Hn & Hk). rewrite (Hk eq_refl) in Heq. cbn in Heq. subst names.
  apply Forall_app in Hn as [Hn Hc]. split; [|by apply Forall_cons in Hc as [? _]].
  exists 0%nat, cs. done.
Qed.

(** [Dir] of a clean absolute path drops its last element. *)
Lemma Dir_snoc cs c : clean_list true (cs ++ [c]) → Dir (render true (cs ++ [c])) = render true cs.
Proof.
  intros Hc. destruct (clean_list_snoc _ _ Hc) as [Hcs (Hns & _)].
  unfold Dir. unfold render at 1. destruct (decide (cs = [])) as [->|Hne].
  - cbn [app Join]. change ("/" +:+ c) with ("" +:+ String slash c). by rewrite upto_last_app.
  - rewrite Join_snoc by done.
    rewrite <- str_app_assoc. change ("/" +:+ c) with (String slash c). rewrite upto_last_app by done.
    change (Clean (render true cs +:+ "/") = render true cs).
    assert (IsAbs (render true cs +:+ "/") = true) as Ha.
    { unfold IsAbs. apply HasPrefix_slash. unfold render. by eexists. }
    unfold Clean, elements. rewrite Ha, Split_trailing, clean_stack_trailing.
    pose proof (elements_render true cs Hcs) as He. unfold elements in He.
    rewrite (render_IsAbs true cs Hcs) in He. by rewrite He.
Qed.

Lemma Dir_root : Dir "/" = "/".
Proof. done. Qed.

(** Every absolute path, cleaned, is its elements below the root. *)
Lemma Clean_abs p : IsAbs p = true → ∃ cs, clean_list true cs /\ Clean p = render true cs.
Proof. intros Ha. destruct (Clean_render p) as (cs & Hc & Hp). rewrite Ha in *. by exists cs. Qed.

Lemma JoinPath_abs a b : IsAbs a = true → ∃ cs, clean_list true cs /\ JoinPath a b = render true cs.
Proof.
  intros Ha. pose proof Ha as [r ->]%HasPrefix_slash. unfold JoinPath. destruct b as [|x b].
  - by apply Clean_abs.
  - apply Clean_abs. unfold IsAbs. apply HasPrefix_slash. by eexists.
Qed.

(** ** Joining a name to a clean path *)

Lemma Split_app_slash q r : Split (q +:+ String slash r) slash = Split q slash ++ Split r slash.
Proof.
  induction q as [|a q IH]; [done|]. change (String a q +:+ String slash r) with (String a (q +:+ String slash r)).
  cbn -[Ascii.eqb]. rewrite IH. destruct (Ascii.eqb a slash); [done|]. destruct (Split q slash) eqn:E; [|done].
  by apply Split_nonempty in E.
Qed.

Lemma clean_stack_snoc rooted xs n acc : plain_name n → clean_stack rooted (xs ++ [n]) acc = clean_stack rooted xs acc ++ [n].
Proof.
  intros (_ & H1%String.eqb_neq & H2%String.eqb_neq & H3%String.eqb_neq). revert acc.
  induction xs as [|x xs IH]; intros acc; cbn -[String.eqb].
  - by rewrite H1, H2, H3.
  - repeat case_match; auto.
Qed.

Lemma clean_list_app_name cs n : clean_list true cs → plain_name n → clean_list true (cs ++ [n]).
Proof.
  intros (k & names & -> & Hn & Hk) Hp. exists k, (names ++ [n]). split_and!; [by rewrite app_assoc| |done].
  apply Forall_app. split; [done|by apply Forall_singleton].
Qed.

Lemma JoinPath_snoc cs n : clean_list true cs → plain_name n → JoinPath (render true cs) n = render true (cs ++ [n]).
Proof.
  intros Hc Hn. assert (JoinPath (render true cs) n = Clean (render true cs +:+ "/" +:+ n)) as ->.
  { destruct Hn as (_ & Hn & _). by destruct n. }
  assert (IsAbs (render true cs +:+ "/" +:+ n) = true) as Ha by (apply HasPrefix_slash; by eexists).
  unfold Clean, elements. rewrite Ha. f_equal.
  change ("/" +:+ n) with (String slash n). rewrite Split_app_slash, (Split_no_slash n) by apply Hn. rewrite clean_stack_snoc by done.
  f_equal. pose proof (elements_render true cs Hc) as He. unfold elements in He. by rewrite render_IsAbs in He.
Qed.

Lemma AbsFrom_clean wd p abs : (∀ d, wd = Ok d → IsAbs d = true) → AbsFrom wd p = Ok abs →
  ∃ cs, clean_list true cs /\ Clean abs = render true cs.
Proof.
  intros Hw Ha. apply Clean_abs. unfold AbsFrom in Ha.
  destruct (IsAbs p) eqn:Hp; [injection Ha as <-; by rewrite Clean_IsAbs|].
  destruct wd as [d|]; [|done]. injection Ha as <-.
  destruct (JoinPath_abs d p (Hw d eq_refl)) as (cs & Hc & ->). by apply render_IsAbs.
Qed.
