(* ===== verification/PathIdentity.v ===== *)
(** pathidentity.go and filekey_unix.go: whether two paths name one file, and
    whether one lies inside another, asked of the file system.

    [FileSystem] is what the code asks: the answers of one machine at rest. A
    platform supplies [localPath], [samePathName] and the others as the build
    does; the file system's own answers are its parameters. *)

From S2P Require Import Prelude GoStrings GoError GoFilepath.

Class FileSystem := {
  localPath : string → option err;
  fileKey : string → result string;
  pathExists : string → bool;
  resolveLinks : string → result string;
  lstatMissing : string → bool;
  getwd : result string;
  samePathName : string → string → bool;
  pathNameKey : string → string;
  canonicalProgramPath : string → string;
  packageInstallPath : string → result string
}.

(** What the path functions rely on: links resolve to a clean absolute path when
    an absolute one is given, and names compare as an equivalence with its keys. *)
Class FileSystemOk `{FileSystem} := {
  resolveLinks_clean p r : IsAbs p = true → resolveLinks p = Ok r → ∃ cs, clean_list true cs /\ r = render true cs;
  getwd_abs wd : getwd = Ok wd → IsAbs wd = true;
  samePathName_key a b : samePathName a b = true <-> pathNameKey a = pathNameKey b
}.

Section PathIdentity.
Context `{FileSystem}.

(** [trimCreatedNames] off Windows. *)
Definition trimCreatedNames (p : string) : string := p.

(** [SameFile]. *)
Definition SameFile (a b : string) : result bool :=
  match localPath a with
  | Some e => Err e
  | None =>
      match localPath b with
      | Some e => Err e
      | None =>
          let*! ka := fileKey a in
          let*! kb := fileKey b in
          Ok (String.eqb ka kb)
      end
  end.

(** [FileKey]. *)
Definition FileKey (p : string) : result string :=
  match localPath p with Some e => Err e | None => fileKey p end.

(** [filepath.Abs]. *)
Definition Abs (p : string) : result string := AbsFrom getwd p.

(** The loop of [resolveExisting] up to the deepest existing part. *)
Fixpoint climb (fuel : nat) (existing rest : string) : option (string * string) :=
  if pathExists existing then Some (existing, rest)
  else
    let up := Dir existing in
    if String.eqb up existing then None
    else match fuel with
         | O => None
         | S fuel => climb fuel up (JoinPath (Base existing) rest)
         end.

(** [resolveExisting]. The loop leaves one element per turn, so as many turns as
    the path has bytes are enough. *)
Definition resolveExisting (p : string) (self : bool) : result string :=
  if String.eqb p "" then Err (Plain "identity: empty path")
  else
    let*! abs := Abs p in
    let abs := Clean abs in
    let '(existing, rest) :=
      if negb self && negb (String.eqb (Dir abs) abs) then (Dir abs, Base abs) else (abs, "") in
    match climb (String.length existing) existing rest with
    | None => Err (Wrap "identity: stat" [Sentinel FsErrNotExist])
    | Some (existing, rest) =>
        let*! real := resolveLinks existing in
        if String.eqb rest "" then Ok real else Ok (JoinPath real rest)
    end.

(** The loop of [WithinRel] over the parents of the resolved path. *)
Fixpoint withinLoop (fuel : nat) (resolved target p : string) : option (string * bool) :=
  if match fileKey p with Ok key => String.eqb key target | Err _ => false end
  then let rel := TrimLeft (sdrop (String.length p) resolved) "/" in Some (rel, negb (String.eqb rel ""))
  else if String.eqb (Dir p) p then Some ("", false)
  else match fuel with
       | O => None
       | S fuel => withinLoop fuel resolved target (Dir p)
       end.

(** [WithinRel]. *)
Definition WithinRel (p folder : string) : result (string * bool) :=
  match localPath folder with
  | Some e => Err e
  | None =>
      match localPath p with
      | Some e => Err e
      | None =>
          let*! target := fileKey folder in
          let*! resolved := resolveExisting p false in
          match withinLoop (String.length resolved) resolved target (Dir resolved) with
          | Some r => Ok r
          | None => Err (Plain "the loop did not reach the root")
          end
      end
  end.

(** [Within]. *)
Definition Within (p folder : string) : result bool :=
  let*! r := WithinRel p folder in Ok r.2.

(** [InsideRel]. *)
Definition InsideRel (p folder : string) : result (string * bool) :=
  match WithinRel p folder with
  | Ok r => Ok r
  | Err e =>
      if errors_is e ErrNotLocalPath then Err e
      else if negb (lstatMissing folder) then Err e
      else
        let prefix := TrimRight (Clean folder) "/" +:+ "/" in
        match CutPrefix (Clean p) prefix with
        | None => Ok ("", false)
        | Some rest => if String.eqb rest "" then Ok ("", false) else Ok (rest, true)
        end
  end.

(** [Inside]. *)
Definition Inside (p folder : string) : bool :=
  match InsideRel p folder with Ok (_, b) => b | Err _ => false end.

(** [PlaceKey]. *)
Definition PlaceKey (p : string) : result string :=
  match localPath p with
  | Some e => Err e
  | None => let*! resolved := resolveExisting (trimCreatedNames p) true in Ok (pathNameKey resolved)
  end.

(** ** The loops reach the root *)

Lemma render_length cs c : (String.length (render true cs) < String.length (render true (cs ++ [c])))%nat
  \/ cs = [] /\ c = "".
Proof.
  unfold render. destruct (decide (cs = [])) as [->|Hne].
  - cbn [app Join]. rewrite !slength_app. cbn. destruct c; [by right|left; cbn; lia].
  - left. rewrite Join_snoc by done. rewrite !slength_app. cbn. lia.
Qed.

Lemma render_pos cs : (0 < String.length (render true cs))%nat.
Proof.
  unfold render. change ("/" +:+ Join cs "/") with (String slash (Join cs "/")). cbn. lia.
Qed.

Lemma snoc_cases {A} (l : list A) : l = [] \/ ∃ l' x, l = l' ++ [x].
Proof. destruct l using rev_ind; [by left|right; eauto]. Qed.

Lemma render_snoc_ne cs c : clean_list true (cs ++ [c]) → render true cs ≠ render true (cs ++ [c]).
Proof.
  intros Hc Heq. destruct (clean_list_snoc _ _ Hc) as [_ (_ & Hne & _)].
  destruct (render_length cs c) as [Hl|[_ ->]]; [|done]. rewrite Heq in Hl. lia.
Qed.

Lemma fuel_step cs c n : clean_list true (cs ++ [c]) →
  (String.length (render true (cs ++ [c])) <= S n)%nat → (String.length (render true cs) <= n)%nat.
Proof.
  intros Hc Hf. destruct (clean_list_snoc _ _ Hc) as [_ (_ & Hne & _)].
  destruct (render_length cs c) as [|[_ ->]]; [lia|done].
Qed.

(** The deepest existing part of an absolute path is one of its own parents. *)
Lemma climb_spec fuel cs rest : clean_list true cs → (String.length (render true cs) <= fuel)%nat →
  match climb fuel (render true cs) rest with
  | Some (e, _) => ∃ i, (i <= length cs)%nat /\ e = render true (take i cs) /\ pathExists e = true /\
                   ∀ j, (i < j <= length cs)%nat → pathExists (render true (take j cs)) = false
  | None => ∀ j, (j <= length cs)%nat → pathExists (render true (take j cs)) = false
  end.
Proof.
  revert cs rest. induction fuel as [|fuel IH]; intros cs rest Hc Hf.
  { pose proof (render_pos cs). lia. }
  cbn [climb]. destruct (pathExists (render true cs)) eqn:Hex.
  { exists (length cs). rewrite take_ge by lia. split_and!; [lia|done|done|]. intros j Hj. lia. }
  destruct (snoc_cases cs) as [->|(cs' & c & ->)].
  { cbn [render Join]. intros j Hj. cbn in Hj. by assert (j = 0%nat) as -> by lia. }
  rewrite Dir_snoc by done. rewrite (proj2 (String.eqb_neq _ _)) by (by apply render_snoc_ne).
  destruct (clean_list_snoc _ _ Hc) as [Hc' _].
  specialize (IH cs' (JoinPath (Base (render true (cs' ++ [c]))) rest) Hc' (fuel_step _ _ _ Hc Hf)).
  destruct (climb fuel _ _) as [[e r]|].
  - destruct IH as (i & Hi & He & Hp & Hj). exists i. rewrite length_app. cbn.
    rewrite take_app_le by lia. split_and!; [lia|done|done|]. intros j Hji.
    destruct (decide (j <= length cs')%nat); [rewrite take_app_le by lia; apply Hj; lia|].
    rewrite take_ge by (rewrite length_app; cbn; lia). done.
  - intros j Hj. rewrite length_app in Hj. cbn in Hj.
    destruct (decide (j <= length cs')%nat); [rewrite take_app_le by lia; by apply IH|].
    rewrite take_ge by (rewrite length_app; cbn; lia). done.
Qed.

(** The loop of [WithinRel] from [render true cs] stops at the deepest parent with
    the wanted key, or at the root. *)
Lemma withinLoop_spec fuel resolved target cs : clean_list true cs → (String.length (render true cs) <= fuel)%nat →
  match withinLoop fuel resolved target (render true cs) with
  | Some (rel, b) =>
      (∃ i, (i <= length cs)%nat /\ fileKey (render true (take i cs)) = Ok target /\
            rel = TrimLeft (sdrop (String.length (render true (take i cs))) resolved) "/" /\
            b = negb (String.eqb rel "")) \/
      (rel = "" /\ b = false /\ ∀ i, (i <= length cs)%nat → fileKey (render true (take i cs)) ≠ Ok target)
  | None => False
  end.
Proof.
  revert cs. induction fuel as [|fuel IH]; intros cs Hc Hf.
  { pose proof (render_pos cs). lia. }
  cbn [withinLoop].
  destruct (match fileKey (render true cs) with Ok key => String.eqb key target | Err _ => false end) eqn:Hk.
  { left. exists (length cs). rewrite take_ge by lia. split_and!; [lia| |done|done].
    destruct (fileKey _); [|done]. to_prop. by subst. }
  assert (fileKey (render true cs) ≠ Ok target) as Hne.
  { destruct (fileKey _); [|done]. to_prop. congruence. }
  destruct (snoc_cases cs) as [->|(cs' & c & ->)].
  { cbn [render Join]. right. split_and!; [done|done|]. intros i Hi. cbn in Hi.
    by assert (i = 0%nat) as -> by lia. }
  rewrite Dir_snoc by done. rewrite (proj2 (String.eqb_neq _ _)) by (by apply render_snoc_ne).
  destruct (clean_list_snoc _ _ Hc) as [Hc' _].
  specialize (IH cs' Hc' (fuel_step _ _ _ Hc Hf)).
  destruct (withinLoop fuel _ _ _) as [[rel b]|]; [|done]. rewrite length_app. cbn [length].
  destruct IH as [(i & Hi & H1 & H2 & H3)|(H1 & H2 & H3)].
  - left. exists i. rewrite take_app_le by lia. split_and!; [lia|done..].
  - right. split_and!; [done|done|]. intros i Hi.
    destruct (decide (i <= length cs')%nat); [rewrite take_app_le by lia; by apply H3|].
    rewrite take_ge by (rewrite length_app; cbn; lia). done.
Qed.

(** ** The remainder below a folder *)

Lemma sdrop_app a b : sdrop (String.length a) (a +:+ b) = b.
Proof. induction a as [|x a IH]; [done|]. change (sdrop (String.length a) (a +:+ b) = b). done. Qed.

Lemma Join_app xs ys : xs ≠ [] → ys ≠ [] → Join (xs ++ ys) "/" = Join xs "/" +:+ "/" +:+ Join ys "/".
Proof.
  intros Hx Hy. induction xs as [|x xs IH]; [done|]. destruct xs as [|x' xs].
  - by destruct ys.
  - change (Join ((x :: x' :: xs) ++ ys) "/") with (x +:+ "/" +:+ Join ((x' :: xs) ++ ys) "/").
    rewrite IH by done. change (Join (x :: x' :: xs) "/") with (x +:+ "/" +:+ Join (x' :: xs) "/").
    by rewrite !str_app_assoc.
Qed.

Lemma TrimLeft_names cs : Forall plain_name cs → TrimLeft (Join cs "/") "/" = Join cs "/".
Proof.
  intros Hn. destruct cs as [|c cs]; [done|]. apply Forall_cons in Hn as [(Hs & Hne & _) _].
  destruct c as [|a c]; [done|]. assert (∃ r, Join (String a c :: cs) "/" = String a r) as [r ->].
  { destruct cs; cbn; eauto. }
  unfold no_slash in Hs. cbn -[Ascii.eqb] in Hs. to_prop.
  cbn -[Ascii.eqb]. unfold mem_char. cbn -[Ascii.eqb]. rewrite Ascii.eqb_sym.
  change "/"%char with slash. by rewrite H0.
Qed.

Lemma clean_list_names cs : clean_list true cs → Forall plain_name cs.
Proof. intros (k & names & -> & Hn & Hk). by rewrite (Hk eq_refl). Qed.

Lemma remainder cs i : clean_list true cs → (i < length cs)%nat →
  TrimLeft (sdrop (String.length (render true (take i cs))) (render true cs)) "/" = Join (drop i cs) "/" /\
  Join (drop i cs) "/" ≠ "".
Proof.
  intros Hc Hi. pose proof (clean_list_names _ Hc) as Hn.
  assert (Forall plain_name (drop i cs)) as Hd by (by apply Forall_drop).
  assert (drop i cs ≠ []) as Hne.
  { intros Hnil. apply (f_equal length) in Hnil. rewrite length_drop in Hnil. cbn in Hnil. lia. }
  assert (Join (drop i cs) "/" ≠ "") as Hj.
  { destruct (drop i cs) as [|c ds]; [done|]. apply Forall_cons in Hd as [(_ & Hcn & _) _].
    destruct c as [|a c]; [done|]. by destruct ds. }
  split; [|done]. unfold render. destruct i as [|i].
  - rewrite take_0, drop_0. cbn [Join]. change ("/" +:+ "") with "/". rewrite sdrop_app. by apply TrimLeft_names.
  - assert (take (S i) cs ≠ []) as Ht by (destruct cs; [cbn in Hi; lia|done]).
    rewrite <- (take_drop (S i) cs) at 2. rewrite Join_app by done. rewrite <- str_app_assoc.
    rewrite sdrop_app. cbn -[Join]. by apply TrimLeft_names.
Qed.

(** ** What the functions answer *)

Section Answers.
Context {FSOk : FileSystemOk}.

Lemma IsAbs_nonempty p : IsAbs p = true → p ≠ "".
Proof. by intros Ha ->. Qed.

Lemma resolveExisting_clean p self r : resolveExisting p self = Ok r →
  ∃ cs, clean_list true cs /\ r = render true cs.
Proof.
  unfold resolveExisting. destruct (String.eqb p ""); [done|].
  destruct (Abs p) as [abs|e] eqn:Ha; [|done].
  destruct (AbsFrom_clean _ _ _ getwd_abs Ha) as (cs & Hc & ->).
  assert (∃ cs' rest, clean_list true cs' /\
    (if negb self && negb (String.eqb (Dir (render true cs)) (render true cs))
     then (Dir (render true cs), Base (render true cs)) else (render true cs, "")) = (render true cs', rest))
    as (cs' & rest & Hc' & ->).
  { destruct (negb self && _) eqn:E; [|by exists cs, ""]. to_prop.
    destruct (snoc_cases cs) as [->|(ds & c & ->)]; [done|].
    rewrite Dir_snoc by done. exists ds. eexists. split; [by apply clean_list_snoc in Hc as [? _]|done]. }
  pose proof (climb_spec (String.length (render true cs')) cs' rest Hc' (le_n _)) as Hcl.
  destruct (climb _ _ _) as [[e r']|]; [|done]. destruct Hcl as (i & _ & -> & _).
  destruct (resolveLinks _) as [real|] eqn:Hr; [|done].
  apply resolveLinks_clean in Hr.
  2: { apply render_IsAbs. exists 0%nat, (take i cs'). split_and!; [done| |done].
       by apply Forall_take, clean_list_names. }
  destruct Hr as (ds & Hd & ->). destruct (String.eqb r' ""); [intros [= <-]; by exists ds|].
  intros Heq. assert (r = JoinPath (render true ds) r') as -> by congruence. apply JoinPath_abs. by apply render_IsAbs.
Qed.

(** C28: [WithinRel] decides containment by file identity. When both paths are
    local, the folder has a key and the path resolves, it always answers; it
    answers inside with remainder [rel] exactly when a proper parent of the
    resolved path has the folder's key, [rel] being the elements below the deepest
    such parent; and outside when no proper parent has. *)
Theorem within_rel_decides p folder target r :
  localPath folder = None → localPath p = None → fileKey folder = Ok target → resolveExisting p false = Ok r →
  ∃ cs rel b, clean_list true cs /\ r = render true cs /\ WithinRel p folder = Ok (rel, b) /\
    if (b : bool)
    then ∃ i, (i < length cs)%nat /\ fileKey (render true (take i cs)) = Ok target /\ rel = Join (drop i cs) "/"
    else rel = "" /\ ∀ i, (i < length cs)%nat → fileKey (render true (take i cs)) ≠ Ok target.
Proof.
  intros Hf Hp Hk Hr. destruct (resolveExisting_clean _ _ _ Hr) as (cs & Hc & ->).
  unfold WithinRel. rewrite Hf, Hp, Hk, Hr.
  destruct (snoc_cases cs) as [->|(ds & c & ->)].
  - exists [], "", false. split_and!; [done|done| |done|cbn; intros; lia].
    assert (∀ f, withinLoop f "/" target "/" = Some ("", false)) as Hroot.
    { intros f. destruct f; cbn [withinLoop]; destruct (fileKey "/") as [key|]; try done;
        by destruct (String.eqb key target). }
    change (Dir (render true [])) with "/". change (render true []) with "/". by rewrite Hroot.
  - rewrite Dir_snoc by done. pose proof (clean_list_snoc _ _ Hc) as [Hd _].
    pose proof (withinLoop_spec (String.length (render true (ds ++ [c]))) (render true (ds ++ [c])) target ds Hd)
      as Hw. destruct (render_length ds c) as [Hl|[_ ->]].
    2: { by apply clean_list_names, Forall_app in Hc as [_ [(_ & ? & _) _]%Forall_cons]. }
    specialize (Hw ltac:(lia)). destruct (withinLoop _ _ _ _) as [[rel b]|]; [|done].
    exists (ds ++ [c]), rel, b. split_and!; [done..|]. rewrite length_app. cbn [length].
    destruct Hw as [(i & Hi & Hki & Hrel & Hb)|(-> & -> & Hno)].
    + assert (i < length (ds ++ [c]))%nat as Hi' by (rewrite length_app; cbn; lia).
      destruct (remainder (ds ++ [c]) i Hc Hi') as [Hrem Hne].
      rewrite take_app_le in Hrem by lia. rewrite Hrem in Hrel. subst rel.
      rewrite (proj2 (String.eqb_neq _ _)) in Hb by done. subst b. exists i.
      rewrite take_app_le by lia. split_and!; [lia|done|done].
    + split; [done|]. intros i Hi. rewrite take_app_le by lia. apply Hno. lia.
Qed.

End Answers.

(** Nothing is opened for a path that is not local. When [localPath] refuses
    either path, [SameFile], [WithinRel], [InsideRel], [FileKey] and [PlaceKey]
    answer with that refusal whatever the file system would say. *)
Lemma refused_path_is_not_asked a b e :
  (localPath a = Some e → FileKey a = Err e /\ PlaceKey a = Err e /\ SameFile a b = Err e) /\
  (localPath b = Some e → WithinRel a b = Err e /\
     (localPath a = None → SameFile a b = Err e) /\
     (errors_is e ErrNotLocalPath = true → InsideRel a b = Err e /\ Inside a b = false)).
Proof.
  split.
  - intros Ha. unfold FileKey, PlaceKey, SameFile. by rewrite Ha.
  - intros Hb. assert (WithinRel a b = Err e) as Hw by (unfold WithinRel; by rewrite Hb).
    split_and!; [done|intros Ha; unfold SameFile; by rewrite Ha, Hb|].
    intros He. assert (InsideRel a b = Err e) as Hi by (unfold InsideRel; by rewrite Hw, He).
    split; [done|]. unfold Inside. by rewrite Hi.
Qed.

End PathIdentity.

(** ** Unix *)

Definition hexDigit (d : Z) : ascii :=
  ascii_of_nat (Z.to_nat (if d <? 10 then d + 48 else d + 87)).

(** The [%x] form of an unsigned 64-bit number, which has sixteen digits at most. *)
Fixpoint hex_digits (fuel : nat) (n : Z) (acc : string) : string :=
  let acc := String (hexDigit (n mod 16)) acc in
  match fuel with
  | O => acc
  | S fuel => if n <? 16 then acc else hex_digits fuel (n / 16) acc
  end.

Definition hex (n : Z) : string := hex_digits 15 n "".

(** [fileKey] of filekey_unix.go: [stat] is the device and inode [os.Stat] gives. *)
Definition fileKey_unix (stat : string → result (Z * Z)) (p : string) : result string :=
  let*! st := stat p in Ok (hex (st.1 mod 2 ^ 64) +:+ "-" +:+ hex (st.2 mod 2 ^ 64)).

(** The Unix build over a file system that answers [os.Stat], [os.Lstat] and
    [filepath.EvalSymlinks] so. *)
Definition unixFS (local : string → option err) (stat : string → result (Z * Z)) (links : string → result string)
    (present : string → bool) : FileSystem :=
  {| localPath := local;
     fileKey := fileKey_unix stat;
     pathExists := present;
     resolveLinks := links;
     lstatMissing p := negb (present p);
     getwd := Ok "/";
     samePathName := String.eqb;
     pathNameKey p := p;
     canonicalProgramPath p := p;
     packageInstallPath _ := Err (Plain "identity: MSIX packages are Windows only") |}.

(** A machine where [/link] is a link to [/srv]. *)
Definition sampleFS : FileSystem :=
  unixFS (λ _, None)
    (λ p, if String.eqb p "/" then Ok (2049, 2) else if String.eqb p "/srv" || String.eqb p "/link" then Ok (2049, 77)
          else Err (OSErr ENOENT))
    (λ p, if String.eqb p "/link" then Ok "/srv" else Ok (Clean p))
    (λ p, String.eqb p "/" || String.eqb p "/srv" || String.eqb p "/link").

#[global] Instance sampleFS_ok : @FileSystemOk sampleFS.
Proof.
  constructor.
  - intros p r Ha. cbn. destruct (String.eqb p "/link"); intros [= <-]; [|by apply Clean_abs].
    exists ["srv"]. split; [|done]. exists 0%nat, ["srv"]. split_and!; [done| |done]. by repeat constructor.
  - by intros wd [= <-].
  - intros a b. cbn. apply String.eqb_eq.
Qed.

Lemma within_rel_decides_witness :
  @WithinRel sampleFS "/link/new/file" "/srv" = Ok ("new/file", true) /\
  ∃ cs rel b, clean_list true cs /\ @WithinRel sampleFS "/link/new/file" "/srv" = Ok (rel, b).
Proof.
  split; [vm_compute; reflexivity|].
  destruct (@within_rel_decides sampleFS sampleFS_ok "/link/new/file" "/srv" "801-4d" "/srv/new/file")
    as (cs & rel & b & Hc & _ & Hw & _); try (vm_compute; reflexivity).
  exists cs, rel, b. split; [exact Hc|exact Hw].
Defined.
