(* ===== verification/MountInfo.v ===== *)
(** The mount-table parser of localpath_linux.go: the mount points and the file
    system types of /proc/self/mountinfo. *)

From S2P Require Import Prelude GoStrings.

(** ** The parser *)

(** [unescapeMountPath]: octal escapes of three digits are undone. *)
Fixpoint unescapeMountPath (s : string) : string :=
  match s with
  | "" => ""
  | String c r =>
      match r with
      | String d1 (String d2 (String d3 rest)) =>
          if Ascii.eqb c "\" then
            match ParseUint (String d1 (String d2 (String d3 ""))) 8 8 with
            | Some n => String (ascii_of_nat (Z.to_nat n)) (unescapeMountPath rest)
            | None => String c (unescapeMountPath r)
            end
          else String c (unescapeMountPath r)
      | _ => String c (unescapeMountPath r)
      end
  end.

(** [mountPointsOf]. *)
Definition mountPointsOf (info : string) : list string :=
  flat_map
    (λ line, let fields := Fields line in
       if (9 <=? length fields)%nat then [unescapeMountPath (nth 4 fields "")] else [])
    (Split info newline).

(** The field after the first separator of [fields]. *)
Fixpoint afterDash (fields : list string) : list string :=
  match fields with
  | f :: ((t :: _) as rest) => if String.eqb f "-" then [t] else afterDash rest
  | _ => []
  end.

(** [mountTypes]. *)
Definition mountTypes (mountinfo : string) (major minor : Z) : list string :=
  let want := itoa major +:+ ":" +:+ itoa minor in
  flat_map
    (λ line, let fields := Fields line in
       if (length fields <? 9)%nat || negb (String.eqb (nth 2 fields "") want) then []
       else afterDash (drop 6 fields))
    (Split mountinfo newline).

(** ** The table the kernel writes (proc_pid_mountinfo(5)) *)

(** A space, tab, line feed or backslash of a path is written in octal. *)
Definition escapeByte (c : ascii) : string :=
  if Ascii.eqb c " " then "\040"
  else if Ascii.eqb c "009" then "\011"
  else if Ascii.eqb c "010" then "\012"
  else if Ascii.eqb c "\" then "\134"
  else of_char c.

Fixpoint escapeMountPath (s : string) : string :=
  match s with "" => "" | String c r => escapeByte c +:+ escapeMountPath r end.

(** One mount. [m_options] are the optional fields. *)
Record mountEntry := mkMount {
  m_id : string; m_parent : string; m_dev : string; m_root : string; m_point : string; m_flags : string;
  m_options : list string; m_type : string; m_source : string; m_super : string
}.

Definition mountFields (m : mountEntry) : list string :=
  [m_id m; m_parent m; m_dev m; m_root m; escapeMountPath (m_point m); m_flags m]
  ++ m_options m ++ ["-"; m_type m; m_source m; m_super m].

Definition mountInfo (ms : list mountEntry) : string :=
  String.concat "" (map (λ m, Join (mountFields m) " " +:+ of_char newline) ms).

(** ** Reading the table back *)

(** No white space begins anywhere in [s]. *)
Fixpoint no_space (s : string) : bool :=
  match s with "" => true | String _ s' => (space_len s =? 0)%nat && no_space s' end.

(** A space, and the carriage return the kernel does not escape. *)
Definition carriage : ascii := "013".
Definition blank (c : ascii) : Prop := c = " "%char \/ c = carriage.

(** Text before an ASCII blank does not make white space with it. *)
Lemma space_len_blank w c s r : blank w →
  (space_len (String c s) = 0 → space_len (String c (s +:+ String w r)) = 0)%nat.
Proof.
  intros Hw. destruct s as [|b [|d s]]; [..|done].
  - change ("" +:+ String w r) with (String w r). unfold space_len. destruct (_ || _); [done|].
    intros _. destruct Hw as [->| ->]; cbn -[Nat.eqb Nat.leb];
      [change (code " ") with 32%nat|change (code carriage) with 13%nat]; cbn [Nat.eqb]; rewrite !andb_false_r; by destruct r.
  - change (String b "" +:+ String w r) with (String b (String w r)). unfold space_len.
    destruct (_ || _); [done|]. destruct (_ && _); [done|]. intros _.
    destruct Hw as [->| ->]; [change (code " ") with 32%nat|change (code carriage) with 13%nat];
      cbn [Nat.eqb Nat.leb]; by rewrite !andb_false_r.
Qed.

Lemma srev_app_app t u acc : srev_app (t +:+ u) acc = srev_app u (srev_app t acc).
Proof. revert acc. induction t as [|c t IH]; intros acc; [done|]. cbn. apply IH. Qed.

Lemma str_app_nil s : s +:+ "" = s.
Proof. induction s as [|c s IH]; [done|]. change (String c (s +:+ "") = String c s). by rewrite IH. Qed.

Lemma srev_app_acc a s : srev_app a s = srev_app a "" +:+ s.
Proof.
  revert s. induction a as [|x a IH]; intros s; [done|]. cbn [srev_app].
  rewrite (IH (String x s)), (IH (String x "")), str_app_assoc. done.
Qed.

Lemma srev_srev_app t acc : srev_app (srev_app t acc) "" = srev_app acc "" +:+ t.
Proof.
  revert acc. induction t as [|c t IH]; intros acc; cbn [srev_app].
  - by rewrite str_app_nil.
  - rewrite IH. cbn [srev_app].
    rewrite (srev_app_acc acc (String c "")), str_app_assoc. done.
Qed.

Lemma srev_srev t : srev (srev_app t "") = t.
Proof. unfold srev. by rewrite srev_srev_app. Qed.

Lemma srev_app_nonempty t acc : t ≠ "" ∨ acc ≠ "" → srev_app t acc ≠ "".
Proof.
  revert acc. induction t as [|c t IH]; intros acc [Ht|Ha]; cbn; try done.
  - apply IH. by right.
  - apply IH. by right.
Qed.

Lemma white_fields_token w t cur r : blank w → no_space t = true → (t ≠ "" ∨ cur ≠ "") →
  white_fields (t +:+ String w r) cur 0 = srev (srev_app t cur) :: white_fields r "" 0.
Proof.
  intros Hw. revert cur. induction t as [|c t IH]; intros cur Hn Hne.
  - destruct Hne as [|Hc]; [done|]. destruct Hw as [->| ->]; by destruct cur.
  - cbn [no_space] in Hn. to_prop. change (String c t +:+ String w r) with (String c (t +:+ String w r)).
    cbn [white_fields]. rewrite space_len_blank by done. rewrite IH by (done || by right). done.
Qed.

Lemma white_fields_last t cur : no_space t = true → (t ≠ "" ∨ cur ≠ "") →
  white_fields t cur 0 = [srev (srev_app t cur)].
Proof.
  revert cur. induction t as [|c t IH]; intros cur Hn Hne.
  - cbn. destruct Hne as [|Hc]; [done|]. by destruct cur.
  - cbn [no_space] in Hn. to_prop. cbn [white_fields]. rewrite H. rewrite IH by (done || by right). done.
Qed.

(** A field of the table: not empty, and without white space. *)
Definition field (s : string) : Prop := s ≠ "" /\ no_space s = true.

(** [strings.Fields] of fields joined by blanks. *)
Lemma Fields_cons f w r : blank w → field f → Fields (f +:+ String w r) = f :: Fields r.
Proof. intros Hw [Hne Hns]. unfold Fields. rewrite white_fields_token by auto. by rewrite srev_srev. Qed.

Lemma Fields_Join_cons f g fs : field f → Fields (Join (f :: g :: fs) " ") = f :: Fields (Join (g :: fs) " ").
Proof. apply Fields_cons. by left. Qed.

Lemma Fields_Join fs : Forall field fs → Fields (Join fs " ") = fs.
Proof.
  induction fs as [|f fs IH]; [done|]. intros [Hf Hfs]%Forall_cons. destruct fs as [|g fs].
  - unfold Fields. cbn [Join]. destruct Hf. rewrite white_fields_last by auto. by rewrite srev_srev.
  - by rewrite Fields_Join_cons, IH.
Qed.

Lemma no_space_newline s : no_space s = true → contains_char (Ascii.eqb newline) s = false.
Proof.
  induction s as [|c s IH]; [done|]. cbn [no_space contains_char]. intros Hs. to_prop. rewrite IH by done.
  destruct (Ascii.eqb_spec newline c) as [<-|]; [done|done].
Qed.

(** The text has no line feed. *)
Definition one_line (s : string) : Prop := contains_char (Ascii.eqb newline) s = false.

Lemma one_line_app a b : one_line a → one_line b → one_line (a +:+ b).
Proof.
  unfold one_line. intros Ha Hb. induction a as [|c a IH]; [done|].
  change (String c a +:+ b) with (String c (a +:+ b)). cbn [contains_char] in *. to_prop. by rewrite H, IH.
Qed.

Lemma one_line_Join fs : Forall one_line fs → one_line (Join fs " ").
Proof.
  induction fs as [|f fs IH]; [done|]. intros [Hf Hfs]%Forall_cons. destruct fs as [|g fs]; [done|].
  change (Join (f :: g :: fs) " ") with (f +:+ " " +:+ Join (g :: fs) " ").
  apply one_line_app; [done|]. apply one_line_app; [done|by apply IH].
Qed.

Lemma field_one_line f : field f → one_line f.
Proof. intros [_ Hns]. by apply no_space_newline. Qed.

Lemma Split_line l r : contains_char (Ascii.eqb newline) l = false →
  Split (l +:+ of_char newline +:+ r) newline = l :: Split r newline.
Proof.
  induction l as [|c l IH]; [done|]. cbn [contains_char]. intros Hl. to_prop.
  change (String c l +:+ of_char newline +:+ r) with (String c (l +:+ of_char newline +:+ r)).
  cbn [Split]. rewrite Ascii.eqb_sym, H, IH by done. done.
Qed.

(** A mount the table can hold. *)
Definition mountOk (m : mountEntry) : Prop :=
  Forall field (mountFields m) /\ Forall (λ o, o ≠ "-") (m_options m).

Lemma Split_mountInfo ms : Forall (λ m, Forall one_line (mountFields m)) ms →
  Split (mountInfo ms) newline = map (λ m, Join (mountFields m) " ") ms ++ [""].
Proof.
  unfold mountInfo. induction ms as [|m ms IH]; [done|]. intros [Hf Hm]%Forall_cons.
  assert (∀ a l, String.concat "" (a :: l) = a +:+ String.concat "" l) as Hc.
  { intros a [|b l]; [symmetry; apply str_app_nil|done]. }
  cbn [map]. rewrite Hc, str_app_assoc, Split_line by by apply one_line_Join. by rewrite IH.
Qed.

Lemma mountOk_lines m : mountOk m → Forall one_line (mountFields m).
Proof. intros [Hf _]. eapply Forall_impl; [exact Hf|]. apply field_one_line. Qed.

(** The four escapes, undone, are the bytes they stand for. *)
Lemma unescape_escape s : unescapeMountPath (escapeMountPath s) = s.
Proof.
  induction s as [|c s IH]; [done|]. cbn [escapeMountPath]. unfold escapeByte.
  destruct (Ascii.eqb_spec c " ") as [->|]; [by apply (f_equal (String " "))|].
  destruct (Ascii.eqb_spec c "009") as [->|]; [by apply (f_equal (String "009"))|].
  destruct (Ascii.eqb_spec c "010") as [->|]; [by apply (f_equal (String "010"))|].
  destruct (Ascii.eqb_spec c "\") as [->|Hc]; [by apply (f_equal (String "\"))|].
  change (of_char c +:+ escapeMountPath s) with (String c (escapeMountPath s)). cbn [unescapeMountPath].
  rewrite (proj2 (Ascii.eqb_neq c "\") Hc), IH. by repeat case_goal.
Qed.

Lemma afterDash_type m : Forall (λ o, o ≠ "-") (m_options m) → afterDash (drop 6 (mountFields m)) = [m_type m].
Proof.
  cbn. induction (m_options m) as [|o os IH]; [done|]. intros Ho. apply Forall_cons in Ho as [Hd Ho].
  cbn. rewrite (proj2 (String.eqb_neq _ _) Hd). destruct os; by apply IH.
Qed.

(** What [mountTypes] makes of the line of one mount. *)
Definition lineTypes (want : string) (m : mountEntry) : list string :=
  let fields := Fields (Join (mountFields m) " ") in
  if (length fields <? 9)%nat || negb (String.eqb (nth 2 fields "") want) then [] else afterDash (drop 6 fields).

Lemma mountTypes_lines ms major minor : Forall (λ m, Forall one_line (mountFields m)) ms →
  mountTypes (mountInfo ms) major minor = flat_map (lineTypes (itoa major +:+ ":" +:+ itoa minor)) ms.
Proof.
  intros Hm. unfold mountTypes. rewrite Split_mountInfo, flat_map_app by done.
  change (flat_map _ [""]) with (@nil string). rewrite app_nil_r. clear Hm.
  induction ms as [|m ms IH]; [done|]. cbn [map flat_map]. by rewrite IH.
Qed.

Lemma mountFields_length m : (9 <= length (mountFields m))%nat.
Proof. unfold mountFields. rewrite !length_app. cbn. lia. Qed.

Lemma lineTypes_ok want m : mountOk m →
  lineTypes want m = if decide (m_dev m = want) then [m_type m] else [].
Proof.
  intros [Hf Ho]. unfold lineTypes. rewrite Fields_Join by done.
  rewrite (proj2 (Nat.ltb_ge _ _)) by apply mountFields_length.
  change (nth 2 (mountFields m) "") with (m_dev m). rewrite afterDash_type by done. cbn [orb].
  destruct (decide (m_dev m = want)) as [->|Hd]; [by rewrite String.eqb_refl|].
  by rewrite (proj2 (String.eqb_neq _ _) Hd).
Qed.

(** The mount table is read back. From the table the kernel writes for any
    mounts whose fields have no white space left once the blanks, tabs, line feeds
    and backslashes of a mount point are escaped, [mountPointsOf] gives every mount
    point as it was, and [mountTypes] the file system type of each mount of the
    device asked for, in order. *)
Theorem mount_table_round_trip ms major minor : Forall mountOk ms →
  mountPointsOf (mountInfo ms) = map m_point ms /\
  mountTypes (mountInfo ms) major minor =
    map m_type (filter (λ m, m_dev m = itoa major +:+ ":" +:+ itoa minor) ms).
Proof.
  intros Hm. assert (Forall (λ m, Forall one_line (mountFields m)) ms) as Hl
    by (eapply Forall_impl; [exact Hm|]; apply mountOk_lines).
  rewrite mountTypes_lines by done. unfold mountPointsOf. rewrite Split_mountInfo, flat_map_app by done.
  change (flat_map _ [""]) with (@nil string) at 1. rewrite app_nil_r. clear Hl. split.
  - induction Hm as [|m ms [Hf _] _ IH]; [done|]. cbn [map flat_map]. rewrite IH, Fields_Join by done.
    rewrite (proj2 (Nat.leb_le _ _)) by apply mountFields_length. cbn. by rewrite unescape_escape.
  - induction Hm as [|m ms Ho _ IH]; [done|]. cbn [flat_map]. rewrite IH, filter_cons, lineTypes_ok by done.
    by destruct (decide _).
Qed.

(** ** A mount point's name the table does not quote *)

(** A name that goes on, after carriage returns, with the separator of the table
    and a file system type. *)
Definition forgedName (pre x t : string) : string :=
  pre +:+ String carriage (x +:+ String carriage ("-" +:+ String carriage t)).

Lemma escapeMountPath_app a b : escapeMountPath (a +:+ b) = escapeMountPath a +:+ escapeMountPath b.
Proof.
  induction a as [|c a IH]; [done|]. change (String c a +:+ b) with (String c (a +:+ b)).
  cbn [escapeMountPath]. by rewrite IH, str_app_assoc.
Qed.

Lemma escape_forgedName pre x t :
  escapeMountPath (forgedName pre x t) = forgedName (escapeMountPath pre) (escapeMountPath x) (escapeMountPath t).
Proof.
  unfold forgedName. rewrite escapeMountPath_app.
  change (escapeMountPath (String carriage (x +:+ String carriage ("-" +:+ String carriage t))))
    with (String carriage (escapeMountPath (x +:+ String carriage ("-" +:+ String carriage t)))).
  by rewrite escapeMountPath_app.
Qed.

(** The mount with another name of its mount point. *)
Definition renamed (m : mountEntry) (point : string) : mountEntry :=
  mkMount (m_id m) (m_parent m) (m_dev m) (m_root m) point (m_flags m) (m_options m) (m_type m) (m_source m)
    (m_super m).

(** Every part of the mount but the name is one the table can hold. *)
Definition nameless (m : mountEntry) : Prop :=
  Forall field ([m_id m; m_parent m; m_dev m; m_root m; m_flags m] ++ m_options m ++ [m_type m; m_source m; m_super m]) /\
  Forall (λ o, o ≠ "-") (m_options m).

Lemma nameless_ok m point : nameless m → field (escapeMountPath point) → mountOk (renamed m point).
Proof.
  intros [Hf Ho] Hp. split; [|done]. unfold mountFields, renamed. cbn -[escapeMountPath] in *.
  decompose_Forall_hyps. rewrite !Forall_cons, Forall_app, !Forall_cons, Forall_nil. split_and!; done.
Qed.

Lemma one_line_forged pre x t : one_line pre → one_line x → one_line t → one_line (forgedName pre x t).
Proof.
  intros Hp Hx Ht. unfold forgedName. apply one_line_app; [done|]. change (one_line (x +:+ String carriage ("-" +:+ String carriage t))).
  by apply one_line_app.
Qed.

Lemma forged_lines m pre x t : nameless m →
  field (escapeMountPath pre) → field (escapeMountPath x) → field (escapeMountPath t) →
  Forall one_line (mountFields (renamed m (forgedName pre x t))).
Proof.
  intros Hm Hp Hx Ht. pose proof (mountOk_lines _ (nameless_ok m pre Hm Hp)) as Hl.
  unfold mountFields, renamed in *. cbn -[escapeMountPath] in *. rewrite !Forall_cons in *.
  destruct Hl as (? & ? & ? & ? & _ & Hl). split_and!; [done..| |apply Hl|apply Hl].
  rewrite escape_forgedName. apply one_line_forged; by apply field_one_line.
Qed.

(** [strings.Fields] takes the forged name apart. *)
Lemma Fields_forged pre x t g fs : field pre → field x → field t →
  Fields (Join (forgedName pre x t :: g :: fs) " ") = [pre; x; "-"; t] ++ Fields (Join (g :: fs) " ").
Proof.
  intros Hp Hx Ht. change (Join (forgedName pre x t :: g :: fs) " ")
    with (forgedName pre x t +:+ String " " (Join (g :: fs) " ")). set (r := Join (g :: fs) " ").
  unfold forgedName. rewrite str_app_assoc.
  change (String carriage (x +:+ String carriage ("-" +:+ String carriage t)) +:+ String " " r)
    with (String carriage ((x +:+ String carriage ("-" +:+ String carriage t)) +:+ String " " r)).
  rewrite str_app_assoc.
  change (String carriage ("-" +:+ String carriage t) +:+ String " " r)
    with (String carriage ("-" +:+ String carriage (t +:+ String " " r))).
  assert (blank carriage /\ blank " ") as [Hcr Hsp] by (split; [by right|by left]).
  rewrite !Fields_cons by done. done.
Qed.

(** The type [mountTypes] reads is the one in the name. *)
Lemma lineTypes_forged want m pre x t : nameless m →
  field (escapeMountPath pre) → field (escapeMountPath x) → field (escapeMountPath t) →
  lineTypes want (renamed m (forgedName pre x t)) =
    if decide (m_dev m = want) then [escapeMountPath t] else [].
Proof.
  intros Hm Hp Hx Ht. unfold lineTypes.
  assert (Fields (Join (mountFields (renamed m (forgedName pre x t))) " ") =
    [m_id m; m_parent m; m_dev m; m_root m; escapeMountPath pre; escapeMountPath x; "-"; escapeMountPath t;
     m_flags m] ++ m_options m ++ ["-"; m_type m; m_source m; m_super m]) as ->.
  { destruct (nameless_ok m pre Hm Hp) as [Hf _]. unfold mountFields, renamed in *.
    cbn -[escapeMountPath Join] in *. rewrite escape_forgedName. rewrite !Forall_cons in Hf.
    destruct Hf as (? & ? & ? & ? & _ & Hfl & Hrest).
    do 4 rewrite Fields_Join_cons by done. rewrite Fields_forged, Fields_Join by (done || by constructor). done. }
  rewrite (proj2 (Nat.ltb_ge _ _)) by (rewrite length_app; cbn; lia). cbn.
  destruct (decide (m_dev m = want)) as [->|Hd]; [by rewrite String.eqb_refl|].
  by rewrite (proj2 (String.eqb_neq _ _) Hd).
Qed.
