(* ===== verification/LocalPath.v ===== *)
(** localpath_statfs.go and localpath_linux.go, what is decided: whether the volume
    that holds a path is local, and which mount a path's spelling lies on. How many
    volumes are asked at once is in [VolumeProbes]. *)

From S2P Require Import Prelude GoStrings GoError GoFilepath PathIdentity MountInfo.

(** ** Volumes *)

(** [networkFileSystems]. *)
Definition networkFileSystems : list (Z * string) :=
  [(0x6969, "nfs"); (0x517b, "smb"); (0xff534d42, "cifs"); (0xfe534d42, "smb2"); (0x00c36400, "ceph");
   (0x5346414f, "afs"); (0x6b414653, "afs"); (0x01021997, "9p"); (0x73757245, "coda"); (0x564c, "ncp");
   (0x0bd00bd0, "lustre"); (0x47504653, "gpfs"); (0x19830326, "beegfs"); (0x01161970, "gfs2");
   (0x7461636f, "ocfs2"); (0xaad7aaea, "panfs"); (0xbeefdead, "snfs"); (0x013111a8, "ibrix");
   (0x61636673, "acfs"); (0x786f4256, "vboxsf"); (0xbacbacbc, "vmhgfs"); (0x7c7c6673, "prl_fs");
   (0x0187, "autofs")].

Definition networkName (magic : Z) : option string :=
  snd <$> find (λ f, fst f =? magic) networkFileSystems.

Definition fuseSuperMagic : Z := 0x65735546.

(** [localFUSE]. *)
Definition localFUSE (t : string) : bool :=
  bool_decide (t ∈ ["fuseblk"; "fuse.lxcfs"; "fuse.squashfuse"; "fuse.squashfuse_ll"; "fuse.fuse-overlayfs"]).

Definition errVolumeNoAnswer : string := "its volume did not answer in time".
Definition errVolumeUnreached : err := Plain "no part of it could be read".

(** What a machine at rest answers: [statfs] with the type of the volume,
    [statDevice], [readMountInfo], the working directory, and the numbers of a
    device ([unix.Major], [unix.Minor]). *)
Class Volumes := {
  statfs : string → result Z;
  statDevice : string → result Z;
  readMountInfo : result string;
  workingDir : result string;
  Major : Z → Z;
  Minor : Z → Z
}.

Section LocalPath.
Context `{Volumes} (Error : err → string).

(** [volumeAnswer] on Linux. *)
Definition volumeAnswer (p : string) (f_type : Z) : option err :=
  let magic := u32 f_type in
  match networkName magic with
  | Some name => Some (Plain ("its volume is not a local file system (" +:+ name +:+ ")"))
  | None =>
      if negb (magic =? fuseSuperMagic) then None
      else match statDevice p with
      | Err e => Some e
      | Ok dev =>
          match readMountInfo with
          | Err e => Some (Plain ("its FUSE volume's type could not be read: " +:+ Error e))
          | Ok info =>
              let types := mountTypes info (Major dev) (Minor dev) in
              if (length types =? 0)%nat then Some (Plain "its FUSE volume is not in /proc/self/mountinfo")
              else match find (λ t, negb (localFUSE t)) types with
                   | Some t => Some (Plain ("its volume is not a local file system (" +:+ t +:+ ")"))
                   | None => None
                   end
          end
      end
  end.

(** [volumeLocal]: up to the first path [statfs] reads. *)
Fixpoint volumeLoop (fuel : nat) (p : string) : option err :=
  match statfs p with
  | Ok st => volumeAnswer p st
  | Err e =>
      if negb (errors_is_errno e ENOENT) && negb (errors_is_errno e ENOTDIR) then Some e
      else if String.eqb (Dir p) p then Some errVolumeUnreached
      else match fuel with
           | O => Some (Plain "the loop did not reach the root")
           | S fuel => volumeLoop fuel (Dir p)
           end
  end.

Definition volumeLocal (abs : string) : option err := volumeLoop (String.length abs) abs.

(** [markedNetwork], with the marks of [TreatVolumeAsNetwork]. *)
Definition markedNetwork (prefixes : list string) (abs : string) : bool :=
  existsb (λ p, String.eqb abs p || HasPrefix abs (p +:+ "/")) prefixes.

(** [TreatVolumeAsNetwork], and the [restore] it returns. *)
Definition TreatVolumeAsNetwork (folder : string) (prefixes : list string) : list string :=
  match AbsFrom workingDir folder with
  | Err _ => prefixes
  | Ok abs => prefixes ++ [Clean abs]
  end.

Fixpoint restoreNetwork (abs : string) (prefixes : list string) : list string :=
  match prefixes with
  | [] => []
  | p :: ps => if String.eqb p abs then ps else p :: restoreNetwork abs ps
  end.

(** What waiting for the volume came to: no mount table in time, no place for a
    probe, an answer, or the deadline. *)
Inductive volumeWait := NoTable | NoPlace | Answered | TimedOut.

(** [localPath] on Linux. *)
Definition localPath_linux (prefixes : list string) (wait : volumeWait) (p : string) : option err :=
  if String.eqb p "" then Some (Plain "identity: empty path")
  else match AbsFrom workingDir p with
  | Err e => Some (NotLocalErr p (Error e))
  | Ok abs =>
      let abs := Clean abs in
      if markedNetwork prefixes abs then Some (NotLocalErr p "a network volume")
      else match wait with
           | Answered => match volumeLocal abs with Some e => Some (NotLocalErr p (Error e)) | None => None end
           | _ => Some (NotLocalErr p errVolumeNoAnswer)
           end
  end.

(** ** Mounts by spelling *)

(** [alias]. *)
Record alias := mkAlias { a_from : string; a_to : string }.

(** [spelledWithin]. *)
Definition spelledWithin (abs folder : string) : bool :=
  String.eqb abs folder || String.eqb folder "/" || HasPrefix abs (folder +:+ "/").

(** The longest alias [abs] lies under, the first among equals. *)
Fixpoint bestAlias (abs : string) (aliases : list alias) (best : option alias) : option alias :=
  match aliases with
  | [] => best
  | a :: rest =>
      bestAlias abs rest
        (if spelledWithin abs (a_from a) && match best with None => true | Some b => slen (a_from b) <? slen (a_from a) end
         then Some a else best)
  end.

(** [unalias], and its loop of four turns. *)
Fixpoint unaliasLoop (n : nat) (abs : string) (aliases : list alias) : string :=
  match n with
  | O => abs
  | S n =>
      match bestAlias abs aliases None with
      | None => abs
      | Some b => unaliasLoop n (a_to b +:+ TrimPrefix abs (a_from b)) aliases
      end
  end.

Definition unalias : string → list alias → string := unaliasLoop 4.

(** The choice of [mountOf] in a table that was read. *)
Definition chooseMount (points : list string) (abs : string) : string :=
  fold_left (λ best m, if (slen best <? slen m) && spelledWithin abs m then m else best) points "".

(** ** What is local *)

(** The volume at [p], of type [f_type], holds only local data. *)
Definition local_volume (p : string) (f_type : Z) : Prop :=
  networkName (u32 f_type) = None /\
  (u32 f_type = fuseSuperMagic →
   ∃ dev info, statDevice p = Ok dev /\ readMountInfo = Ok info /\
     mountTypes info (Major dev) (Minor dev) ≠ [] /\
     Forall (λ t, localFUSE t = true) (mountTypes info (Major dev) (Minor dev))).

Lemma volumeAnswer_local p st : volumeAnswer p st = None <-> local_volume p st.
Proof.
  unfold volumeAnswer, local_volume. destruct (networkName (u32 st)) as [name|]; [split; [done|intros [[=] _]]|].
  destruct (Z.eqb_spec (u32 st) fuseSuperMagic) as [Hf|Hf]; cbn [negb]; [|by split].
  destruct (statDevice p) as [dev|e]; [|split; [done|intros [_ Hx]; by destruct (Hx Hf) as (? & ? & [=] & _)]].
  destruct readMountInfo as [info|e]; [|split; [done|intros [_ Hx]; by destruct (Hx Hf) as (? & ? & _ & [=] & _)]].
  set (types := mountTypes info (Major dev) (Minor dev)).
  assert (find (λ t, negb (localFUSE t)) types = None <-> Forall (λ t, localFUSE t = true) types) as Hfind.
  { split.
    - intros Hn. apply Forall_forall. intros t Ht%list_elem_of_In. pose proof (find_none _ _ Hn t Ht). cbn in *.
      by apply negb_false_iff.
    - intros Ha. destruct (find _ types) as [t|] eqn:E; [|done]. apply find_some in E as [Hin Ht].
      rewrite Forall_forall in Ha. apply list_elem_of_In in Hin. rewrite (Ha t Hin) in Ht. done. }
  destruct (Nat.eqb_spec (length types) 0) as [H0|H0].
  - split; [done|]. intros [_ Hx]. destruct (Hx Hf) as (d & i & [= <-] & [= <-] & Hne & _).
    destruct types eqn:E; [done|cbn in H0; lia].
  - split.
    + intros Hn. split; [done|]. intros _. exists dev, info. split_and!; [done|done| |].
      * fold types. by destruct types.
      * apply Hfind. fold types. by destruct (find _ types).
    + intros [_ Hx]. destruct (Hx Hf) as (d & i & [= <-] & [= <-] & _ & Ha). fold types in Ha.
      by rewrite (proj2 Hfind Ha).
Qed.

(** [statfs] says that there is nothing at the path. *)
Definition missing (p : string) : bool :=
  match statfs p with Ok _ => false | Err e => errors_is_errno e ENOENT || errors_is_errno e ENOTDIR end.

(** The walk asks the deepest part that is there. *)
Lemma volumeLoop_spec fuel cs : clean_list true cs → (String.length (render true cs) <= fuel)%nat →
  volumeLoop fuel (render true cs) = None <->
  ∃ i st, (i <= length cs)%nat /\ (∀ j, (i < j <= length cs)%nat → missing (render true (take j cs)) = true) /\
    statfs (render true (take i cs)) = Ok st /\ local_volume (render true (take i cs)) st.
Proof.
  revert cs. induction fuel as [|fuel IH]; intros cs Hc Hf; [pose proof (render_pos cs); lia|].
  cbn [volumeLoop]. destruct (statfs (render true cs)) as [st|e] eqn:Hs.
  - rewrite volumeAnswer_local. split.
    + intros Hl. exists (length cs), st. rewrite take_ge by lia. split_and!; [lia| |done|done]. intros j Hj. lia.
    + intros (i & st' & Hi & Hm & Hst & Hl). destruct (decide (i = length cs)) as [->|Hne].
      * rewrite take_ge in Hst, Hl by lia. congruence.
      * specialize (Hm (length cs) ltac:(lia)). rewrite take_ge in Hm by lia. unfold missing in Hm. by rewrite Hs in Hm.
  - assert (missing (render true cs) = errors_is_errno e ENOENT || errors_is_errno e ENOTDIR) as Hmis
      by (unfold missing; by rewrite Hs).
    assert (∀ i st, (i <= length cs)%nat → statfs (render true (take i cs)) = Ok st → (i < length cs)%nat) as Hlow.
    { intros i st Hi Hst. destruct (decide (i = length cs)) as [->|]; [|lia]. rewrite take_ge in Hst by lia. congruence. }
    rewrite <- negb_orb, <- Hmis. destruct (missing (render true cs)) eqn:Hm; cbn [negb].
    2: { split; [done|]. intros (i & st & Hi & Hj & Hst & _). specialize (Hj (length cs)).
         rewrite take_ge in Hj by lia. rewrite Hm in Hj. specialize (Hlow i st Hi Hst). by specialize (Hj ltac:(lia)). }
    destruct (snoc_cases cs) as [->|(cs' & c & ->)].
    { cbn. split; [done|]. intros (i & st & Hi & _ & Hst & _). specialize (Hlow i st Hi Hst). cbn in Hlow. lia. }
    rewrite Dir_snoc by done. rewrite (proj2 (String.eqb_neq _ _)) by (by apply render_snoc_ne).
    destruct (clean_list_snoc _ _ Hc) as [Hc' _]. rewrite (IH cs' Hc' (fuel_step _ _ _ Hc Hf)).
    rewrite length_app in *. cbn in *. split.
    + intros (i & st & Hi & Hj & Hst & Hl). exists i, st. rewrite take_app_le by lia. split_and!; [lia| |done|done].
      intros j Hji. destruct (decide (j <= length cs')%nat); [rewrite take_app_le by lia; apply Hj; lia|].
      rewrite take_ge by (rewrite length_app; cbn; lia). done.
    + intros (i & st & Hi & Hj & Hst & Hl). specialize (Hlow i st ltac:(lia) Hst).
      rewrite take_app_le in Hst, Hl by lia. exists i, st. split_and!; [lia| |done|done].
      intros j Hji. specialize (Hj j ltac:(lia)). by rewrite take_app_le in Hj by lia.
Qed.

(** A path is local exactly when its volume says so in time. [localPath] gives
    no error exactly for a nonempty path whose volume answered before the deadline,
    that lies under no mark, and whose deepest existing part is on a volume that is
    no network file system and, if it is FUSE, has only mounts of the known local
    types; everything else is refused, with [ErrNotLocalPath] unless the path is
    empty. *)
Theorem local_path_exact prefixes wait p :
  (∀ d, workingDir = Ok d → IsAbs d = true) →
  (localPath_linux prefixes wait p = None <->
   p ≠ "" /\ wait = Answered /\
   ∃ abs cs, AbsFrom workingDir p = Ok abs /\ clean_list true cs /\ Clean abs = render true cs /\
     markedNetwork prefixes (render true cs) = false /\
     ∃ i st, (i <= length cs)%nat /\ (∀ j, (i < j <= length cs)%nat → missing (render true (take j cs)) = true) /\
       statfs (render true (take i cs)) = Ok st /\ local_volume (render true (take i cs)) st) /\
  (∀ e, localPath_linux prefixes wait p = Some e → p ≠ "" → errors_is e ErrNotLocalPath = true).
Proof.
  intros Hwd. unfold localPath_linux. destruct (String.eqb_spec p "") as [->|Hp]; [split; [split; [done|intros [[] _]; done]|done]|].
  destruct (AbsFrom workingDir p) as [abs|e] eqn:Ha.
  2: { split; [split; [done|intros (_ & _ & ? & ? & [=] & _)]|by intros ? [= <-]]. }
  destruct (AbsFrom_clean _ _ _ Hwd Ha) as (cs & Hc & Hcl). rewrite Hcl.
  split.
  - split.
    + intros Hn. split; [done|]. destruct (markedNetwork prefixes (render true cs)) eqn:Hm; [done|].
      destruct wait; try done. destruct (volumeLocal (render true cs)) eqn:Hv; [done|]. split; [done|].
      exists abs, cs. split_and!; [done..|]. by apply (volumeLoop_spec _ cs Hc (le_n _)).
    + intros (_ & -> & abs' & cs' & [= <-] & Hc' & Hcl' & Hm & Hx). rewrite Hcl in Hcl'. rewrite Hcl', Hm.
      unfold volumeLocal. by rewrite (proj2 (volumeLoop_spec _ cs' Hc' (le_n _)) Hx).
  - intros e. destruct (markedNetwork _ _); [by intros [= <-]|]. destruct wait; try by intros [= <-].
    destruct (volumeLocal _); by intros [= <-].
Qed.

(** The chosen mount is the longest one the path's spelling lies on. *)
Lemma chooseMount_longest points abs :
  let r := chooseMount points abs in
  (r = "" \/ (r ∈ points /\ spelledWithin abs r = true)) /\
  ∀ m, m ∈ points → spelledWithin abs m = true → slen m <= slen r.
Proof.
  unfold chooseMount.
  assert (∀ ps best, let r := fold_left (λ best m, if (slen best <? slen m) && spelledWithin abs m then m else best) ps best in
    (r = best \/ (r ∈ ps /\ spelledWithin abs r = true)) /\ slen best <= slen r /\
    ∀ m, m ∈ ps → spelledWithin abs m = true → slen m <= slen r) as Hg.
  { induction ps as [|m ps IH]; intros best; cbn.
    { split_and!; [by left|lia|]. intros m Hm. by apply not_elem_of_nil in Hm. }
    destruct (IH (if (slen best <? slen m) && spelledWithin abs m then m else best)) as (H1 & H2 & H3).
    destruct ((slen best <? slen m) && spelledWithin abs m) eqn:E; to_prop.
    - split_and!; [|lia|].
      + destruct H1 as [->|[Hin Hw]]; right; [split; [apply list_elem_of_here|done]|split; [by apply list_elem_of_further|done]].
      + intros m' [->|Hin]%elem_of_cons Hw; [done|by apply H3].
    - split_and!; [|lia|].
      + destruct H1 as [->|[Hin Hw]]; [by left|right; split; [by apply list_elem_of_further|done]].
      + intros m' [->|Hin]%elem_of_cons Hw; [|by apply H3]. rewrite Hw, andb_true_r in E. to_prop. lia. }
  destruct (Hg points "") as (H1 & _ & H3). done.
Qed.

(** A mark only refuses more, and [restore] takes back one mark. *)
Lemma marks_refuse_more folder prefixes wait p :
  localPath_linux (TreatVolumeAsNetwork folder prefixes) wait p = None → localPath_linux prefixes wait p = None.
Proof.
  unfold TreatVolumeAsNetwork. destruct (AbsFrom workingDir folder) as [f|]; [|done].
  unfold localPath_linux, markedNetwork. destruct (String.eqb p ""); [done|].
  destruct (AbsFrom workingDir p); [|done]. rewrite existsb_app.
  destruct (existsb _ prefixes); [done|]. by destruct (existsb _ [_]).
Qed.
End LocalPath.

(** ** Witnesses *)

(** A home directory on an ordinary disk, with a directory [m] of FUSE mounts. *)
Definition sampleVolumes (ms : list mountEntry) : Volumes := {|
  statfs p := if HasPrefix p "/home/u/m" then Ok fuseSuperMagic
              else if String.eqb p "/home/u" || String.eqb p "/" then Ok 0xef53 else Err (OSErr ENOENT);
  statDevice _ := Ok 52;
  readMountInfo := Ok (mountInfo ms);
  workingDir := Ok "/home/u";
  Major _ := 0;
  Minor dev := dev
|}.

(** A remote file system mounted at [point]. *)
Definition sshfsAt (point : string) : mountEntry :=
  mkMount "36" "35" "0:52" "/" point "rw" [] "fuse.sshfs" "u@host:" "rw".

Lemma mount_table_round_trip_witness :
  mountPointsOf (mountInfo [sshfsAt "/home/u/m y"]) = ["/home/u/m y"] /\
  mountTypes (mountInfo [sshfsAt "/home/u/m y"]) 0 52 = ["fuse.sshfs"].
Proof.
  destruct (mount_table_round_trip [sshfsAt "/home/u/m y"] 0 52) as [H1 H2].
  - repeat constructor; vm_compute; done.
  - rewrite H1, H2. vm_compute. split; reflexivity.
Defined.

Lemma local_path_exact_witness :
  let V := sampleVolumes [] in
  localPath_linux (λ _, "") [] Answered "new/file" = None /\ missing "/home/u/new" = true.
Proof.
  intros V. split; [|vm_compute; reflexivity].
  apply (local_path_exact (λ _, "") [] Answered "new/file").
  - intros d Hd. injection Hd as <-. vm_compute. reflexivity.
  - split_and!; [done|done|]. exists "/home/u/new/file", ["home"; "u"; "new"; "file"].
    split_and!; [vm_compute; reflexivity| |vm_compute; reflexivity|reflexivity|].
    + exists 0%nat, ["home"; "u"; "new"; "file"]. split_and!; [done| |done]. repeat constructor; done.
    + exists 2%nat, 0xef53. split_and!; [cbn; lia| |vm_compute; reflexivity|].
      * intros j [Hj1 Hj2]. cbn in Hj2. destruct j as [|[|[|[|[|j]]]]]; try lia; vm_compute; reflexivity.
      * split; [vm_compute; reflexivity|]. intros Hx. vm_compute in Hx. discriminate.
Defined.

(** The name of a mount point can hold carriage returns, which the kernel writes as
    they are and [strings.Fields] takes for blanks. *)
Lemma local_types_quoted t : localFUSE t = true → escapeMountPath t = t /\ field t.
Proof.
  unfold localFUSE. rewrite bool_decide_eq_true, !elem_of_cons, elem_of_nil.
  intros Ht. destruct_or! Ht; subst; by vm_compute.
Qed.

Section Forged.
Context `{Volumes} (Error : err → string) (prefixes : list string).

(** A path on a FUSE volume that is there and lies under no mark is local when
    there are mounts of its device and all are read as known local types. *)
Lemma fuse_path_local p st dev info :
  IsAbs p = true → Clean p = p → markedNetwork prefixes p = false →
  statfs p = Ok st → u32 st = fuseSuperMagic → statDevice p = Ok dev → readMountInfo = Ok info →
  (localPath_linux Error prefixes Answered p = None <->
   mountTypes info (Major dev) (Minor dev) ≠ [] /\
   Forall (λ t, localFUSE t = true) (mountTypes info (Major dev) (Minor dev))).
Proof.
  intros Ha Hc Hm Hs Hf Hd Hi. unfold localPath_linux, AbsFrom. rewrite Ha, Hc, Hc, Hm.
  destruct (String.eqb_spec p "") as [->|_]; [done|].
  assert (volumeLocal Error p = volumeAnswer Error p st) as ->.
  { unfold volumeLocal. destruct p; [done|]. cbn [String.length volumeLoop]. by rewrite Hs. }
  assert (volumeAnswer Error p st = None <-> local_volume p st) as Hv by apply volumeAnswer_local.
  assert (local_volume p st <-> mountTypes info (Major dev) (Minor dev) ≠ [] /\
          Forall (λ t, localFUSE t = true) (mountTypes info (Major dev) (Minor dev))) as Hl.
  { unfold local_volume. rewrite Hf, Hd, Hi. split.
    - intros [_ Hx]. destruct (Hx eq_refl) as (d & i & [= <-] & [= <-] & Hx'). done.
    - intros Hx. split; [done|]. intros _. by exists dev, info. }
  rewrite <- Hl, <- Hv. by destruct (volumeAnswer Error p st).
Qed.

(** The device numbers of the volume, as the table writes them. *)
Definition deviceText (dev : Z) : string := itoa (Major dev) +:+ ":" +:+ itoa (Minor dev).

(** C30: the name of a mount point decides whether a remote file system is taken
    for a local one. Let a FUSE mount of a type that is not known to be local be the
    one mount of a path's device, among any other mounts of the table. Under any
    mount point's name without white space the path is refused; under the same name
    continued by carriage returns, a [-] and a known local type, [mountTypes] reads
    that type instead of the mount's and [localPath] accepts the path. *)
Theorem mount_name_makes_remote_local before m after pre x t p st dev point :
  IsAbs p = true → Clean p = p → markedNetwork prefixes p = false →
  statfs p = Ok st → u32 st = fuseSuperMagic → statDevice p = Ok dev →
  nameless m → m_dev m = deviceText dev → localFUSE (m_type m) = false →
  Forall mountOk (before ++ after) → Forall (λ o, m_dev o ≠ deviceText dev) (before ++ after) →
  field (escapeMountPath pre) → field (escapeMountPath x) → localFUSE t = true →
  readMountInfo = Ok (mountInfo (before ++ renamed m point :: after)) →
  (point = pre → mountTypes (mountInfo (before ++ renamed m point :: after)) (Major dev) (Minor dev) = [m_type m] /\
     is_Some (localPath_linux Error prefixes Answered p)) /\
  (point = forgedName pre x t →
     mountTypes (mountInfo (before ++ renamed m point :: after)) (Major dev) (Minor dev) = [t] /\
     localPath_linux Error prefixes Answered p = None).
Proof.
  intros Ha Hc Hm Hs Hf Hd Hn Hdev Hremote Hok Hother Hpre Hx Ht Hi.
  destruct (local_types_quoted t Ht) as [Hq Hft]. rewrite <- Hq in Hft.
  pose proof (fuse_path_local p st dev _ Ha Hc Hm Hs Hf Hd Hi) as Hlocal.
  assert (∀ ty, Forall one_line (mountFields (renamed m point)) → lineTypes (deviceText dev) (renamed m point) = [ty] →
    mountTypes (mountInfo (before ++ renamed m point :: after)) (Major dev) (Minor dev) = [ty]) as Hread.
  { intros ty Hl Hty. rewrite mountTypes_lines.
    - fold (deviceText dev). rewrite flat_map_app. cbn [flat_map]. rewrite Hty.
      apply Forall_app in Hok as [Hok1 Hok2]. apply Forall_app in Hother as [Ho1 Ho2].
      assert (∀ ms, Forall mountOk ms → Forall (λ o, m_dev o ≠ deviceText dev) ms →
                flat_map (lineTypes (deviceText dev)) ms = []) as Hnone.
      { induction ms as [|o ms IH]; [done|]. intros [? ?]%Forall_cons [? ?]%Forall_cons.
        cbn [flat_map]. rewrite lineTypes_ok, decide_False, IH by done. done. }
      rewrite !Hnone by done. done.
    - apply Forall_app in Hok as [Hok1 Hok2]. apply Forall_app. split; [|constructor; [done|]];
        (eapply Forall_impl; [|apply mountOk_lines]); done. }
  split; intros ->.
  - rewrite (Hread (m_type m)) in *.
    + split; [done|]. destruct (localPath_linux _ _ _ _) as [e|]; [by exists e|].
      destruct (proj1 Hlocal eq_refl) as [_ Hall]. apply Forall_cons in Hall as [Hall _]. congruence.
    + apply mountOk_lines. by apply nameless_ok.
    + rewrite lineTypes_ok by by apply nameless_ok. by rewrite decide_True.
    + apply mountOk_lines. by apply nameless_ok.
    + rewrite lineTypes_ok by by apply nameless_ok. by rewrite decide_True.
  - rewrite (Hread t) in *; try by apply forged_lines.
    + split; [done|]. apply Hlocal. split; [done|]. by constructor.
    + rewrite lineTypes_forged, Hq, decide_True by done. done.
    + rewrite lineTypes_forged, Hq, decide_True by done. done.
Qed.
End Forged.

(** A remote home under [m], and the name that makes it local. *)
Lemma mount_name_makes_remote_local_witness :
  let point := forgedName "/home/u/m" "x" "fuseblk" in
  let V := sampleVolumes [sshfsAt point] in
  localPath_linux (λ _, "") [] Answered point = None.
Proof.
  intros point V.
  eapply (mount_name_makes_remote_local (λ _, "") [] [] (sshfsAt point) [] "/home/u/m" "x" "fuseblk" point
            fuseSuperMagic 52 point); try (vm_compute; done).
  split; repeat constructor; vm_compute; done.
Defined.
