(* ===== verification/VolumeProbes.v ===== *)
(** localpath_statfs.go, what is bounded: how many volumes [LocalPath] asks at once,
    mount by mount, whatever its callers, its probes and their deadlines do.

    A probe is a goroutine that asks one volume and may never return. Its caller
    waits for it until a deadline. The counters are under one mutex, so each section
    of it is a step, and a run is any sequence of steps of any number of callers and
    probes. *)

From S2P Require Import Prelude GoStrings LocalPath.

Definition maxStuckVolumeProbes : nat := 8.

(** [probe], with the mount its goroutine counts it against. *)
Record probe := mkProbe { p_mount : string; p_stuck : bool; p_done : bool }.

(** [mountProbes]. A channel is known by a number. *)
Record mountProbes := mkMountProbes { outstanding : nat; stuck : nat; freed : option nat }.

(** Where a caller of [localPath] stands: before the section of [startProbe], in its
    [select] on a channel, in the [select] on its probe, before [markStuck], or
    back. *)
Inductive caller :=
| Starting (mount : string)
| Waiting (mount : string) (ch : nat)
| Probing (mount : string) (p : nat)
| Late (mount : string) (p : nat)
| Back (r : volumeWait).

(** [broken] is a dereference of a nil [mountProbes]. *)
Record volumes := mkVolumes {
  mounts : gmap string mountProbes;
  allProbes : gmap nat probe;
  callers : gmap nat caller;
  closed_ch : list nat;
  next : nat;
  broken : bool
}.

Definition set_mount (m : string) (mp : mountProbes) (s : volumes) : volumes :=
  mkVolumes (<[m := mp]> (mounts s)) (allProbes s) (callers s) (closed_ch s) (next s) (broken s).
Definition set_probe (p : nat) (x : probe) (s : volumes) : volumes :=
  mkVolumes (mounts s) (<[p := x]> (allProbes s)) (callers s) (closed_ch s) (next s) (broken s).
Definition set_vcaller (c : nat) (x : caller) (s : volumes) : volumes :=
  mkVolumes (mounts s) (allProbes s) (<[c := x]> (callers s)) (closed_ch s) (next s) (broken s).
Definition breakDown (s : volumes) : volumes :=
  mkVolumes (mounts s) (allProbes s) (callers s) (closed_ch s) (next s) true.

(** One turn of [startProbe] for caller [c]. *)
Definition startProbe (c : nat) (m : string) (s : volumes) : volumes :=
  let mp := default (mkMountProbes 0 0 None) (mounts s !! m) in
  if (outstanding mp <? maxStuckVolumeProbes)%nat then
    let p := next s in
    mkVolumes (<[m := mkMountProbes (S (outstanding mp)) (stuck mp) (freed mp)]> (mounts s))
      (<[p := mkProbe m false false]> (allProbes s)) (<[c := Probing m p]> (callers s)) (closed_ch s) (S p) (broken s)
  else if (0 <? stuck mp)%nat then set_vcaller c (Back NoPlace) (set_mount m mp s)
  else match freed mp with
  | Some ch => set_vcaller c (Waiting m ch) (set_mount m mp s)
  | None =>
      let ch := next s in
      mkVolumes (<[m := mkMountProbes (outstanding mp) (stuck mp) (Some ch)]> (mounts s)) (allProbes s)
        (<[c := Waiting m ch]> (callers s)) (closed_ch s) (S ch) (broken s)
  end.

(** [endProbe] of probe [p], the value of which is [x]. *)
Definition endProbe (p : nat) (x : probe) (s : volumes) : volumes :=
  let m := p_mount x in
  match mounts s !! m with
  | None => breakDown s
  | Some mp =>
      let mp' := mkMountProbes (outstanding mp - 1) (if p_stuck x then stuck mp - 1 else stuck mp) None in
      let ms := if (outstanding mp' =? 0)%nat then delete m (mounts s) else <[m := mp']> (mounts s) in
      mkVolumes ms (<[p := mkProbe m (p_stuck x) true]> (allProbes s)) (callers s)
        (match freed mp with Some ch => ch :: closed_ch s | None => closed_ch s end) (next s) (broken s)
  end.

(** [markStuck]. *)
Definition markStuck (m : string) (p : nat) (x : probe) (s : volumes) : volumes :=
  if negb (p_done x) && negb (p_stuck x) then
    match mounts s !! m with
    | None => breakDown s
    | Some mp =>
        set_mount m (mkMountProbes (outstanding mp) (S (stuck mp)) (freed mp)) (set_probe p (mkProbe (p_mount x) true (p_done x)) s)
    end
  else s.

(** [outstandingProbes]. *)
Definition outstandingProbes (s : volumes) : nat := map_fold (λ _ mp n, (outstanding mp + n)%nat) O (mounts s).

Inductive vstep (s : volumes) : volumes → Prop :=
| v_call c m : callers s !! c = None → vstep s (set_vcaller c (Starting m) s)
| v_start c m : callers s !! c = Some (Starting m) → vstep s (startProbe c m s)
| v_woken c m ch : callers s !! c = Some (Waiting m ch) → ch ∈ closed_ch s → vstep s (set_vcaller c (Starting m) s)
| v_expired c m ch : callers s !! c = Some (Waiting m ch) → vstep s (set_vcaller c (Back NoPlace) s)
| v_returned p x : allProbes s !! p = Some x → p_done x = false → vstep s (endProbe p x s)
| v_answered c m p x : callers s !! c = Some (Probing m p) → allProbes s !! p = Some x → p_done x = true →
    vstep s (set_vcaller c (Back Answered) s)
| v_deadline c m p : callers s !! c = Some (Probing m p) → vstep s (set_vcaller c (Late m p) s)
| v_late c m p x : callers s !! c = Some (Late m p) → allProbes s !! p = Some x →
    vstep s (set_vcaller c (Back TimedOut) (markStuck m p x s)).

Definition noVolumes : volumes := mkVolumes ∅ ∅ ∅ [] O false.

Definition vreachable (s : volumes) : Prop := rtc vstep noVolumes s.

(** ** Counting *)

(** The probes of [ps] that [f] holds of. *)
Definition count (f : probe → bool) (ps : gmap nat probe) : nat :=
  length (filter (λ x, f x = true) (map_to_list ps).*2).

Lemma count_insert f p y ps : ps !! p = None → count f (<[p := y]> ps) = ((if f y then 1 else 0) + count f ps)%nat.
Proof.
  intros Hp. unfold count. rewrite (map_to_list_insert _ _ _ Hp). cbn [fmap list_fmap snd]. rewrite filter_cons.
  destruct (f y); cbn; [by rewrite decide_True|by rewrite decide_False].
Qed.

(** Replacing [x] by [y] moves the count by the two. *)
Lemma count_update f p x y ps : ps !! p = Some x →
  (count f (<[p := y]> ps) + (if f x then 1 else 0) = count f ps + (if f y then 1 else 0))%nat.
Proof.
  intros Hp. rewrite <- (insert_id ps p x Hp) at 2. rewrite <- (insert_delete_eq ps p y), <- (insert_delete_eq ps p x).
  rewrite !count_insert by apply lookup_delete_eq. lia.
Qed.

Lemma count_pos f p x ps : ps !! p = Some x → f x = true → (0 < count f ps)%nat.
Proof.
  intros Hp Hf. rewrite <- (insert_id ps p x Hp), <- (insert_delete_eq ps p x), count_insert by apply lookup_delete_eq.
  rewrite Hf. lia.
Qed.

Lemma count_witness f ps : (0 < count f ps)%nat → ∃ p x, ps !! p = Some x /\ f x = true.
Proof.
  unfold count. intros Hc. destruct (filter _ _) as [|x l] eqn:Hl; [cbn in Hc; lia|].
  assert (x ∈ filter (λ x, f x = true) (map_to_list ps).*2) as Hx by (rewrite Hl; apply list_elem_of_here).
  apply list_elem_of_filter in Hx as [Hf ((p, y) & -> & Hin)%list_elem_of_fmap]. apply elem_of_map_to_list in Hin.
  by exists p, y.
Qed.

(** Still asking a volume of mount [m]; and past its caller's deadline. *)
Definition asking (m : string) (x : probe) : bool := bool_decide (p_mount x = m) && negb (p_done x).
Definition overdue (m : string) (x : probe) : bool := asking m x && p_stuck x.

Definition in_flight (s : volumes) (m : string) : nat := count (asking m) (allProbes s).

(** ** The invariant *)

(** The entry of mount [m] counts its probes; a channel it offers is open, and is
    offered only while every place is taken. *)
Definition mount_ok (s : volumes) (m : string) (o : option mountProbes) : Prop :=
  match o with
  | None => in_flight s m = O
  | Some mp =>
      outstanding mp = in_flight s m /\ stuck mp = count (overdue m) (allProbes s) /\
      (1 <= outstanding mp <= maxStuckVolumeProbes)%nat /\
      ∀ ch, freed mp = Some ch → outstanding mp = maxStuckVolumeProbes /\ (ch ∉ closed_ch s) /\ (ch < next s)%nat
  end.

Definition caller_ok (s : volumes) (x : caller) : Prop :=
  match x with
  | Probing m p | Late m p => ∃ y, allProbes s !! p = Some y /\ p_mount y = m
  | Waiting m ch => ch ∈ closed_ch s \/ (∃ mp, mounts s !! m = Some mp /\ freed mp = Some ch)
  | _ => True
  end.

Record volumes_ok (s : volumes) : Prop := {
  ok_mount m : mount_ok s m (mounts s !! m);
  ok_caller c x : callers s !! c = Some x → caller_ok s x;
  ok_probe p x : allProbes s !! p = Some x → (p < next s)%nat;
  ok_closed ch : ch ∈ closed_ch s → (ch < next s)%nat;
  ok_channel m m' mp mp' ch : mounts s !! m = Some mp → mounts s !! m' = Some mp' →
    freed mp = Some ch → freed mp' = Some ch → m = m';
  ok_unbroken : broken s = false
}.

Lemma noVolumes_ok : volumes_ok noVolumes.
Proof.
  constructor; cbn; try done.
  all: intros; rewrite ?lookup_empty in *; try done. by apply not_elem_of_nil in H.
Qed.

Lemma overdue_zero s m : in_flight s m = O → count (overdue m) (allProbes s) = O.
Proof.
  intros Hz. destruct (count (overdue m) (allProbes s)) eqn:E; [done|].
  destruct (count_witness (overdue m) (allProbes s)) as (p & x & Hp & Hx); [lia|]. unfold overdue in Hx. to_prop.
  pose proof (count_pos (asking m) p x _ Hp H). unfold in_flight in Hz. lia.
Qed.

(** A caller's own move. *)
Lemma set_vcaller_ok c x s : volumes_ok s → caller_ok s x → volumes_ok (set_vcaller c x s).
Proof.
  intros [Hm Hc Hp Hcl Hch Hb] Hx. constructor; try done. intros c' y. cbn. intros Hy.
  destruct (decide (c = c')) as [->|Hne]; [rewrite lookup_insert_eq in Hy; by injection Hy as <-|].
  rewrite lookup_insert_ne in Hy by done. by eapply Hc.
Qed.

(** The entry read by [startProbe], or a new one. *)
Lemma entry_ok s m : volumes_ok s →
  let mp := default (mkMountProbes 0 0 None) (mounts s !! m) in
  outstanding mp = in_flight s m /\ stuck mp = count (overdue m) (allProbes s) /\
  (outstanding mp <= maxStuckVolumeProbes)%nat /\
  (∀ ch, freed mp = Some ch → mounts s !! m = Some mp) /\
  (outstanding mp = maxStuckVolumeProbes → mounts s !! m = Some mp).
Proof.
  intros Hok mp. subst mp. pose proof (ok_mount s Hok m) as Hm. destruct (mounts s !! m) as [mp|] eqn:E; cbn in *.
  - destruct Hm as (H1 & H2 & H3 & H4). split_and!; done || lia.
  - rewrite Hm, overdue_zero by done. unfold maxStuckVolumeProbes. split_and!; done || lia.
Qed.

Lemma startProbe_granted_ok c m s : volumes_ok s →
  let mp := default (mkMountProbes 0 0 None) (mounts s !! m) in
  (outstanding mp < maxStuckVolumeProbes)%nat → volumes_ok (startProbe c m s).
Proof.
  intros Hok mp Hlt. destruct (entry_ok s m Hok) as (Ho & Hs & Hle & Hfr & _). fold mp in Ho, Hs, Hle, Hfr.
  unfold startProbe. fold mp. rewrite (proj2 (Nat.ltb_lt _ _) Hlt).
  assert (allProbes s !! next s = None) as Hfresh.
  { destruct (allProbes s !! next s) eqn:E; [|done]. apply (ok_probe s Hok) in E. lia. }
  assert (freed mp = None) as Hnf.
  { destruct (freed mp) as [ch|] eqn:E; [|done]. pose proof (ok_mount s Hok m) as Hm. rewrite (Hfr ch eq_refl) in Hm.
    destruct Hm as (_ & _ & _ & Hx). destruct (Hx ch E) as [Hy _]. lia. }
  destruct Hok as [Hm Hc Hp Hcl Hch Hb]. constructor; cbn.
  - intros m'. unfold mount_ok, in_flight. cbn. rewrite !count_insert by done. unfold overdue, asking. cbn.
    destruct (decide (m = m')) as [<-|Hne].
    + rewrite lookup_insert_eq, bool_decide_eq_true_2 by done. cbn. rewrite Hnf. split_and!; try done; try lia.
      * by rewrite Ho.
    + rewrite lookup_insert_ne, bool_decide_eq_false_2 by done. cbn. specialize (Hm m'). unfold mount_ok in Hm.
      destruct (mounts s !! m'); [|done]. destruct Hm as (H1 & H2 & H3 & H4). split_and!; try done; try lia.
      intros ch Hx. destruct (H4 ch Hx) as (? & ? & ?). split_and!; done || lia.
  - intros c' x Hx. destruct (decide (c = c')) as [->|Hne].
    + rewrite lookup_insert_eq in Hx. injection Hx as <-. cbn. eexists. by rewrite lookup_insert_eq.
    + rewrite lookup_insert_ne in Hx by done. apply Hc in Hx. unfold caller_ok in *. cbn.
      destruct x as [m'|m' ch|m' p|m' p|r]; try done.
      * destruct Hx as [Hx|(mp' & Hx & Hf)]; [by left|]. right.
        destruct (decide (m = m')) as [<-|]; [|exists mp'; by rewrite lookup_insert_ne].
        assert (mp = mp') as <- by (subst mp; by rewrite Hx). congruence.
      * destruct Hx as (y & Hy & Hmy). exists y. rewrite lookup_insert_ne; [done|]. intros <-. congruence.
      * destruct Hx as (y & Hy & Hmy). exists y. rewrite lookup_insert_ne; [done|]. intros <-. congruence.
  - intros p x Hx. destruct (decide (p = next s)) as [->|]; [lia|]. rewrite lookup_insert_ne in Hx by done.
    apply Hp in Hx. lia.
  - intros ch Hx. apply Hcl in Hx. lia.
  - intros m1 m2 mp1 mp2 ch H1 H2 Hf1 Hf2.
    rewrite lookup_insert in H1, H2. repeat case_decide; simplify_eq; cbn in *; try congruence. by eapply Hch.
  - done.
Qed.

(** With every place taken, the entry of [m] is there and is left as it was, or
    offers a new channel. *)
Lemma startProbe_waiting_ok c m mp s : volumes_ok s →
  mounts s !! m = Some mp → outstanding mp = maxStuckVolumeProbes → freed mp = None →
  volumes_ok (mkVolumes (<[m := mkMountProbes (outstanding mp) (stuck mp) (Some (next s))]> (mounts s)) (allProbes s)
    (<[c := Waiting m (next s)]> (callers s)) (closed_ch s) (S (next s)) (broken s)).
Proof.
  intros [Hm Hc Hp Hcl Hch Hb] He Hfull Hnf. pose proof (Hm m) as Hme. rewrite He in Hme.
  destruct Hme as (H1 & H2 & H3 & _). constructor; cbn.
  - intros m'. unfold mount_ok, in_flight. cbn. rewrite lookup_insert. case_decide as Hd; [subst m'|].
    + cbn. split_and!; try done; try lia. intros ch [= <-]. split_and!; [done| |lia].
      intros Hx. apply Hcl in Hx. lia.
    + specialize (Hm m'). unfold mount_ok in Hm. destruct (mounts s !! m'); [|done]. destruct Hm as (? & ? & ? & H4).
      split_and!; try done; try lia. intros ch Hx. destruct (H4 ch Hx) as (? & ? & ?). split_and!; done || lia.
  - intros c' x Hx. rewrite lookup_insert in Hx. case_decide as Hd.
    + injection Hx as <-. cbn. right. eexists. by rewrite lookup_insert_eq.
    + apply Hc in Hx. destruct x as [m'|m' ch|m' p|m' p|r]; try done. cbn in *.
      destruct Hx as [Hx|(mp' & Hx & Hf)]; [by left|]. right. destruct (decide (m = m')) as [<-|].
      * rewrite He in Hx. injection Hx as <-. congruence.
      * exists mp'. by rewrite lookup_insert_ne.
  - intros p x Hx. apply Hp in Hx. lia.
  - intros ch Hx. apply Hcl in Hx. lia.
  - assert (∀ m' mp', mounts s !! m' = Some mp' → freed mp' = Some (next s) → False) as Hnew.
    { intros m' mp' Hx Hf. specialize (Hm m'). rewrite Hx in Hm. destruct Hm as (_ & _ & _ & H4).
      destruct (H4 _ Hf) as (_ & _ & ?). lia. }
    intros m1 m2 mp1 mp2 ch Hx1 Hx2 Hf1 Hf2. rewrite lookup_insert in Hx1, Hx2.
    repeat case_decide; simplify_eq; cbn in *; simplify_eq; try done; solve [exfalso; by eapply Hnew|by eapply Hch].
  - done.
Qed.

Lemma set_mount_id m mp s : mounts s !! m = Some mp → set_mount m mp s = s.
Proof. intros Hm. unfold set_mount. rewrite insert_id by done. by destruct s. Qed.

Lemma startProbe_ok c m s : volumes_ok s → volumes_ok (startProbe c m s).
Proof.
  intros Hok. destruct (entry_ok s m Hok) as (Ho & Hs & Hle & Hfr & Hfull).
  set (mp := default (mkMountProbes 0 0 None) (mounts s !! m)) in *.
  destruct (decide (outstanding mp < maxStuckVolumeProbes)%nat) as [Hlt|Hge]; [by apply startProbe_granted_ok|].
  assert (outstanding mp = maxStuckVolumeProbes) as Heq by lia. specialize (Hfull Heq).
  unfold startProbe. fold mp. rewrite (proj2 (Nat.ltb_ge _ _)) by lia. rewrite set_mount_id by done.
  destruct (0 <? stuck mp)%nat; [by apply set_vcaller_ok|].
  destruct (freed mp) as [ch|] eqn:Hf; [apply set_vcaller_ok; [done|cbn; right; by exists mp]|].
  by apply startProbe_waiting_ok.
Qed.

(** What [endProbe] and [markStuck] find of a probe that has not returned. *)
Lemma probe_entry s p x : volumes_ok s → allProbes s !! p = Some x → p_done x = false →
  ∃ mp, mounts s !! p_mount x = Some mp /\ mount_ok s (p_mount x) (Some mp) /\
    (p_stuck x = true → (0 < stuck mp)%nat).
Proof.
  intros Hok Hx Hd. pose proof (ok_mount s Hok (p_mount x)) as Hm.
  assert (asking (p_mount x) x = true) as Ha by (unfold asking; by rewrite bool_decide_eq_true_2, Hd).
  destruct (mounts s !! p_mount x) as [mp|]; cbn in Hm.
  - exists mp. split_and!; [done|exact Hm|]. intros Hst. destruct Hm as (_ & -> & _).
    apply (count_pos _ p x); [done|]. unfold overdue. by rewrite Ha, Hst.
  - pose proof (count_pos _ _ _ _ Hx Ha). unfold in_flight in Hm. lia.
Qed.

(** Both replace one probe by another of the same mount. *)
Lemma count_other f m p x y ps : ps !! p = Some x → (∀ z, p_mount z ≠ m → f z = false) →
  p_mount x ≠ m → p_mount y ≠ m → count f (<[p := y]> ps) = count f ps.
Proof. intros Hp Hf Hx Hy. pose proof (count_update f p x y ps Hp) as Hc. rewrite (Hf x Hx), (Hf y Hy) in Hc. lia. Qed.

Lemma asking_other m z : p_mount z ≠ m → asking m z = false.
Proof. intros Hz. unfold asking. by rewrite bool_decide_eq_false_2. Qed.

Lemma asking_own m z : p_mount z = m → asking m z = negb (p_done z).
Proof. intros Hz. unfold asking. by rewrite bool_decide_eq_true_2. Qed.

Lemma overdue_own m z : p_mount z = m → overdue m z = negb (p_done z) && p_stuck z.
Proof. intros Hz. unfold overdue. by rewrite asking_own. Qed.

Lemma overdue_other m z : p_mount z ≠ m → overdue m z = false.
Proof. intros Hz. unfold overdue. by rewrite asking_other. Qed.

Lemma markStuck_ok m p x s : volumes_ok s → allProbes s !! p = Some x → p_mount x = m → volumes_ok (markStuck m p x s).
Proof.
  intros Hok Hx Hmx. unfold markStuck. destruct (p_done x) eqn:Hd; [done|]. destruct (p_stuck x) eqn:Hst; [done|]. cbn.
  destruct (probe_entry s p x Hok Hx Hd) as (mp & He & Hmok & _). rewrite Hmx in He, Hmok. rewrite He.
  destruct Hok as [Hm Hc Hp Hcl Hch Hb]. destruct Hmok as (H1 & H2 & H3 & H4). constructor; cbn.
  - intros m'. unfold mount_ok, in_flight. cbn. rewrite lookup_insert. case_decide as Hdm; [subst m'|].
    + pose proof (count_update (asking m) p x (mkProbe (p_mount x) true false) _ Hx) as Ca.
      pose proof (count_update (overdue m) p x (mkProbe (p_mount x) true false) _ Hx) as Co.
      rewrite (asking_own m x Hmx), asking_own in Ca by done. rewrite (overdue_own m x Hmx), overdue_own in Co by done.
      rewrite Hd in Ca. rewrite Hd, Hst in Co. cbn in Ca, Co. unfold in_flight in H1.
      cbn [outstanding stuck freed]. split_and!; try done; lia.
    + rewrite !(count_other _ m' p x) by (cbn; by (auto using asking_other, overdue_other) || congruence). apply Hm.
  - intros c' y Hy. apply Hc in Hy. destruct y as [m'|m' ch|m' q|m' q|r]; try done; cbn in *.
    + destruct Hy as [Hy|(mp' & Hy & Hf)]; [by left|]. right. destruct (decide (m = m')) as [<-|].
      * eexists. rewrite lookup_insert_eq. split; [done|]. rewrite He in Hy. by injection Hy as <-.
      * exists mp'. by rewrite lookup_insert_ne.
    + destruct Hy as (y & Hy & Hm'). destruct (decide (p = q)) as [<-|]; [|exists y; by rewrite lookup_insert_ne].
      eexists. rewrite lookup_insert_eq. split; [done|]. cbn. congruence.
    + destruct Hy as (y & Hy & Hm'). destruct (decide (p = q)) as [<-|]; [|exists y; by rewrite lookup_insert_ne].
      eexists. rewrite lookup_insert_eq. split; [done|]. cbn. congruence.
  - intros q y Hy. rewrite lookup_insert in Hy. case_decide; [subst q; by eapply Hp|by eapply Hp].
  - done.
  - intros m1 m2 mp1 mp2 ch Hx1 Hx2 Hf1 Hf2. rewrite lookup_insert in Hx1, Hx2.
    repeat case_decide; simplify_eq; cbn in *; try done; by eapply Hch.
  - done.
Qed.

(** What becomes of the entries when a probe of [m] returns. *)
Definition entry_after (m : string) (mp : mountProbes) (ms : gmap string mountProbes) : gmap string mountProbes :=
  if (outstanding mp =? 0)%nat then delete m ms else <[m := mp]> ms.

Lemma entry_after_lookup m mp ms m' :
  entry_after m mp ms !! m' =
    if decide (m = m') then (if (outstanding mp =? 0)%nat then None else Some mp) else ms !! m'.
Proof.
  unfold entry_after. case_goal; [rewrite lookup_delete|rewrite lookup_insert]; by case_decide.
Qed.

Lemma endProbe_ok p x s : volumes_ok s → allProbes s !! p = Some x → p_done x = false → volumes_ok (endProbe p x s).
Proof.
  intros Hok Hx Hd. unfold endProbe. destruct (probe_entry s p x Hok Hx Hd) as (mp & He & Hmok & Hstuck).
  set (m := p_mount x) in *. rewrite He. cbv zeta. set (mp' := mkMountProbes _ _ None).
  fold (entry_after m mp' (mounts s)). set (closed' := match freed mp with Some ch => _ | None => _ end).
  destruct Hok as [Hm Hc Hp Hcl Hch Hb]. destruct Hmok as (H1 & H2 & H3 & H4).
  assert (∀ ch, ch ∈ closed' <-> ch ∈ closed_ch s \/ freed mp = Some ch) as Hclosed.
  { intros ch. subst closed'. destruct (freed mp) as [ch'|]; [rewrite elem_of_cons|]; naive_solver. }
  constructor; cbn.
  - intros m'. rewrite entry_after_lookup. unfold mount_ok, in_flight. cbn [allProbes closed_ch next].
    pose proof (count_update (asking m') p x (mkProbe m (p_stuck x) true) _ Hx) as Ca.
    pose proof (count_update (overdue m') p x (mkProbe m (p_stuck x) true) _ Hx) as Co.
    case_decide as Hdm; [subst m'|].
    + rewrite (asking_own m x eq_refl), asking_own, Hd in Ca by done.
      rewrite (overdue_own m x eq_refl), overdue_own, Hd in Co by done. cbn in Ca, Co. unfold in_flight in H1.
      destruct (Nat.eqb_spec (outstanding mp') 0) as [H0|H0]; cbn in H0; [lia|].
      subst mp'. cbn [outstanding stuck freed]. split_and!; try done; try lia.
      destruct (p_stuck x) eqn:Hst; [specialize (Hstuck eq_refl)|]; lia.
    + rewrite !(count_other _ m' p x) by (cbn; by (auto using asking_other, overdue_other) || congruence).
      specialize (Hm m'). unfold mount_ok, in_flight in Hm. destruct (mounts s !! m') as [mq|] eqn:Hq; [|done].
      destruct Hm as (? & ? & ? & H5). split_and!; try done; try lia. intros ch Hch'. destruct (H5 ch Hch') as (? & ? & ?).
      split_and!; [done| |done]. rewrite Hclosed. intros [?|Hfm]; [done|]. by destruct Hdm; eapply Hch.
  - intros c' y Hy. apply Hc in Hy. destruct y as [m'|m' ch|m' q|m' q|r]; try done; cbn in *.
    + rewrite Hclosed. destruct Hy as [Hy|(mq & Hy & Hf)]; [by left; left|].
      destruct (decide (m = m')) as [<-|Hne]; [left; right; congruence|].
      right. exists mq. rewrite entry_after_lookup. by rewrite decide_False.
    + destruct Hy as (y & Hy & Hm'). destruct (decide (p = q)) as [<-|]; [|exists y; by rewrite lookup_insert_ne].
      eexists. rewrite lookup_insert_eq. split; [done|]. cbn. subst m. congruence.
    + destruct Hy as (y & Hy & Hm'). destruct (decide (p = q)) as [<-|]; [|exists y; by rewrite lookup_insert_ne].
      eexists. rewrite lookup_insert_eq. split; [done|]. cbn. subst m. congruence.
  - intros q y Hy. rewrite lookup_insert in Hy. case_decide; [subst q; by eapply Hp|by eapply Hp].
  - intros ch. rewrite Hclosed. intros [Hy|Hy]; [by apply Hcl|]. by destruct (H4 ch Hy) as (_ & _ & ?).
  - intros m1 m2 mp1 mp2 ch Hx1 Hx2 Hf1 Hf2. rewrite entry_after_lookup in Hx1, Hx2.
    assert (freed mp' = None) as Hnf by done. destruct (outstanding mp' =? 0)%nat;
      repeat case_decide; simplify_eq; cbn in *; try congruence; by eapply Hch.
  - done.
Qed.

Lemma vstep_ok s s' : volumes_ok s → vstep s s' → volumes_ok s'.
Proof.
  intros Hok [c m Hc|c m Hc|c m ch Hc Hcl|c m ch Hc|p x Hx Hd|c m p x Hc Hx Hd|c m p Hc|c m p x Hc Hx].
  - by apply set_vcaller_ok.
  - by apply startProbe_ok.
  - by apply set_vcaller_ok.
  - by apply set_vcaller_ok.
  - by apply endProbe_ok.
  - by apply set_vcaller_ok.
  - apply set_vcaller_ok; [done|]. by apply (ok_caller s Hok) in Hc.
  - apply set_vcaller_ok; [|done]. apply (ok_caller s Hok) in Hc as (y & Hy & Hm). apply markStuck_ok; [done|done|congruence].
Qed.

Lemma vreachable_ok s : vreachable s → volumes_ok s.
Proof.
  intros Hr. unfold vreachable in Hr. remember noVolumes as s0 eqn:H0. assert (volumes_ok s0) as Hok by (subst; apply noVolumes_ok).
  clear H0. induction Hr as [|s1 s2 s3 Hs Hr IH]; [done|]. apply IH. by eapply vstep_ok.
Qed.

(** A dead volume holds at most eight threads, and costs the others nothing. In
    every interleaving of callers, probes and deadlines, at most eight probes of a
    mount are asking at once; a caller is refused without waiting only when all
    eight are, and one of them has outlived its caller's deadline; a caller gets a
    probe at once when fewer are, whatever happens on other mounts; a caller waits
    only while all eight places of its mount are taken or when it has been woken;
    and the counters are never missed by a probe that returns or is given up. *)
Theorem volume_probes_bounded s : vreachable s →
  broken s = false /\
  (∀ m, (in_flight s m <= maxStuckVolumeProbes)%nat) /\
  (∀ c m, (in_flight s m < maxStuckVolumeProbes)%nat → callers (startProbe c m s) !! c = Some (Probing m (next s))) /\
  (∀ c m, callers (startProbe c m s) !! c = Some (Back NoPlace) →
     in_flight s m = maxStuckVolumeProbes /\ ∃ p x, allProbes s !! p = Some x /\ overdue m x = true) /\
  (∀ c m ch, callers s !! c = Some (Waiting m ch) → ch ∈ closed_ch s \/ in_flight s m = maxStuckVolumeProbes).
Proof.
  intros Hr%vreachable_ok. split_and!.
  - apply (ok_unbroken s Hr).
  - intros m. pose proof (entry_ok s m Hr) as (Ho & _ & Hle & _). lia.
  - intros c m Hlt. pose proof (entry_ok s m Hr) as (Ho & _ & _). unfold startProbe.
    rewrite (proj2 (Nat.ltb_lt _ _)) by lia. cbn. by rewrite lookup_insert_eq.
  - intros c m. pose proof (entry_ok s m Hr) as (Ho & Hs & Hle & _). unfold startProbe.
    destruct (Nat.ltb_spec (outstanding (default (mkMountProbes 0 0 None) (mounts s !! m))) maxStuckVolumeProbes) as [|Hge].
    { cbn. by rewrite lookup_insert_eq. }
    destruct (Nat.ltb_spec 0 (stuck (default (mkMountProbes 0 0 None) (mounts s !! m)))) as [Hst|_].
    { intros _. split; [lia|]. apply count_witness. lia. }
    destruct (freed _); cbn; by rewrite lookup_insert_eq.
  - intros c m ch Hc. apply (ok_caller s Hr) in Hc as [Hc|(mp & Hmp & Hf)]; [by left|]. right.
    pose proof (ok_mount s Hr m) as Hm. rewrite Hmp in Hm. destruct Hm as (Ho & _ & _ & Hx).
    destruct (Hx ch Hf) as [? _]. congruence.
Qed.

(** ** Witnesses *)

Lemma call_start s c m : vreachable s → callers s !! c = None →
  vreachable (startProbe c m (set_vcaller c (Starting m) s)).
Proof.
  intros Hr Hc. eapply rtc_r; [eapply rtc_r; [exact Hr|by apply v_call]|]. apply v_start. cbn. apply lookup_insert_eq.
Qed.

(** Eight callers ask a mount; it is dead, and the first one's deadline passes. *)
Definition busyMount : volumes :=
  fold_left (λ s c, startProbe c "/net" (set_vcaller c (Starting "/net") s)) (seq 0 8) noVolumes.

Definition deadMount : volumes :=
  set_vcaller 0 (Back TimedOut) (markStuck "/net" 0 (mkProbe "/net" false false) (set_vcaller 0 (Late "/net" 0) busyMount)).

Lemma busyMount_reachable : vreachable busyMount.
Proof. unfold busyMount. cbn [fold_left seq]. do 8 (apply call_start; [|vm_compute; reflexivity]). apply rtc_refl. Qed.

Lemma volume_probes_bounded_witness :
  vreachable deadMount /\ callers (startProbe 8 "/net" deadMount) !! 8%nat = Some (Back NoPlace) /\
  in_flight deadMount "/net" = 8%nat.
Proof.
  assert (vreachable deadMount) as Hr.
  { eapply rtc_r; [eapply rtc_r; [exact busyMount_reachable|]|].
    - apply (v_deadline busyMount 0%nat "/net" 0%nat). vm_compute. reflexivity.
    - apply (v_late (set_vcaller 0 (Late "/net" 0) busyMount) 0%nat "/net" 0%nat (mkProbe "/net" false false)); vm_compute; reflexivity. }
  assert (callers (startProbe 8 "/net" deadMount) !! 8%nat = Some (Back NoPlace)) as Hb by (vm_compute; reflexivity).
  split; [exact Hr|]. split; [exact Hb|].
  destruct (volume_probes_bounded deadMount Hr) as (_ & _ & _ & Hn & _). exact (proj1 (Hn 8%nat "/net" Hb)).
Defined.
