(* ===== verification/MountTable.v ===== *)
(** localpath_statfs.go: the cached mount table, read by one goroutine at a time and
    never under a caller's lock.

    A read of the table may take any time. Each section of the mutex is a step; a
    run is any sequence of steps of callers, readers and [forgetMountTable]. *)

From S2P Require Import Prelude GoStrings GoError LocalPath.

(** One second, in nanoseconds. *)
Definition mountTableTTL : Z := 1000000000.

(** [mountTable]; a channel is known by a number. *)
Record mountTable := mkTable {
  loaded : bool; readAt : Time; points : list string; aliases : list alias; refreshing : option nat; gen : nat
}.

(** The reads in flight, with the channel each closes and the generation it was
    started in, the closed channels, and the callers waiting on one. *)
Record tableState := mkTableState {
  table : mountTable;
  readers : list (nat * nat);
  closedChans : list nat;
  waiters : gmap nat nat;
  nextChan : nat
}.

(** The first section of [mountOf]: a stale table is read again, and only a caller
    that finds no table waits. The result is the mount, unless the caller waits. *)
Definition mountOfBegin (now : Time) (c : nat) (abs : string) (s : tableState) : option string * tableState :=
  let t := table s in
  let stale := negb (loaded t) || (mountTableTTL <? now - readAt t) in
  let '(t, s) :=
    match stale, refreshing t with
    | true, None =>
        let ch := nextChan s in
        let t := mkTable (loaded t) (readAt t) (points t) (aliases t) (Some ch) (gen t) in
        (t, mkTableState t ((ch, gen t) :: readers s) (closedChans s) (waiters s) (S ch))
    | _, _ => (t, s)
    end in
  match loaded t, refreshing t with
  | false, Some ch => (None, mkTableState t (readers s) (closedChans s) (<[c := ch]> (waiters s)) (nextChan s))
  | _, _ => (Some (chooseMount (points t) (unalias abs (aliases t))), s)
  end.

(** Its second section, once the channel is closed. *)
Definition mountOfEnd (c : nat) (abs : string) (s : tableState) : string * tableState :=
  (chooseMount (points (table s)) (unalias abs (aliases (table s))),
   mkTableState (table s) (readers s) (closedChans s) (delete c (waiters s)) (nextChan s)).

(** [refreshMountTable] of the reader [(ch, g)], from what it read. *)
Definition refreshMountTable (ch g : nat) (ps : result (list string)) (als : result (list alias)) (now : Time)
    (s : tableState) : tableState :=
  let ps := match ps with Ok ps => ps | Err _ => [] end in
  let als := match als with Ok als => als | Err _ => [] end in
  let ps := map (λ m, unalias m als) ps in
  let t := table s in
  let t := if (gen t =? g)%nat then mkTable true now ps als (refreshing t) (gen t) else t in
  let t := if bool_decide (refreshing t = Some ch) then mkTable (loaded t) (readAt t) (points t) (aliases t) None (gen t) else t in
  mkTableState t (filter (λ r, r ≠ (ch, g)) (readers s)) (ch :: closedChans s) (waiters s) (nextChan s).

(** [forgetMountTable]. *)
Definition forgetMountTable (s : tableState) : tableState :=
  mkTableState (mkTable false 0 [] [] None (S (gen (table s)))) (readers s) (closedChans s) (waiters s) (nextChan s).

Inductive tstep (s : tableState) : tableState → Prop :=
| t_begin now c abs : waiters s !! c = None → tstep s (mountOfBegin now c abs s).2
| t_end c ch abs : waiters s !! c = Some ch → ch ∈ closedChans s → tstep s (mountOfEnd c abs s).2
| t_deadline c ch : waiters s !! c = Some ch →
    tstep s (mkTableState (table s) (readers s) (closedChans s) (delete c (waiters s)) (nextChan s))
| t_read ch g ps als now : (ch, g) ∈ readers s → tstep s (refreshMountTable ch g ps als now s)
| t_forget : tstep s (forgetMountTable s).

Definition noTable : tableState := mkTableState (mkTable false 0 [] [] None 0) [] [] ∅ 0.

Definition treachable (s : tableState) : Prop := rtc tstep noTable s.

(** The read the table names is the one of its generation; a waiting caller's
    channel is closed, or will be by a read in flight; a table that was forgotten
    holds nothing. *)
Record table_ok (s : tableState) : Prop := {
  tk_readers ch g : (ch, g) ∈ readers s → (ch < nextChan s)%nat /\ (g <= gen (table s))%nat;
  tk_current ch : (ch, gen (table s)) ∈ readers s <-> refreshing (table s) = Some ch;
  tk_waiter c ch : waiters s !! c = Some ch → ch ∈ closedChans s \/ ∃ g, (ch, g) ∈ readers s;
  tk_empty : loaded (table s) = false → points (table s) = [] /\ aliases (table s) = [];
  tk_unique ch g g' : (ch, g) ∈ readers s → (ch, g') ∈ readers s → g = g'
}.

Lemma noTable_ok : table_ok noTable.
Proof.
  constructor; cbn; try done.
  - intros ch g Hx. by apply not_elem_of_nil in Hx.
  - intros ch. split; [intros Hx; by apply not_elem_of_nil in Hx|done].
  - intros ch g g' Hx. by apply not_elem_of_nil in Hx.
Qed.

Lemma launch_ok s : table_ok s → refreshing (table s) = None →
  table_ok (mkTableState
    (mkTable (loaded (table s)) (readAt (table s)) (points (table s)) (aliases (table s)) (Some (nextChan s)) (gen (table s)))
    ((nextChan s, gen (table s)) :: readers s) (closedChans s) (waiters s) (S (nextChan s))).
Proof.
  intros [H1 H2 H3 H4 H5] Hn. constructor; cbn.
  - intros ch g [[= -> ->]|Hx]%elem_of_cons; [lia|]. apply H1 in Hx. lia.
  - intros ch. rewrite elem_of_cons, H2, Hn. naive_solver.
  - intros c ch Hx. destruct (H3 c ch Hx) as [|[g Hg]]; [by left|]. right. exists g. by right.
  - done.
  - intros ch g g' [[= -> ->]|Hx]%elem_of_cons [[= ->]|Hy]%elem_of_cons; simplify_eq; try done.
    + apply H1 in Hy. lia.
    + apply H1 in Hx. lia.
    + by eapply H5.
Qed.

Lemma wait_ok s c ch : table_ok s → refreshing (table s) = Some ch →
  table_ok (mkTableState (table s) (readers s) (closedChans s) (<[c := ch]> (waiters s)) (nextChan s)).
Proof.
  intros [H1 H2 H3 H4 H5] Hr. constructor; cbn; try done.
  intros c' ch' Hx. rewrite lookup_insert in Hx. case_decide; [|by eapply H3]. simplify_eq. right.
  exists (gen (table s)). by apply H2.
Qed.

Lemma mountOfBegin_ok now c abs s : table_ok s → table_ok (mountOfBegin now c abs s).2.
Proof.
  intros Hok. unfold mountOfBegin. destruct (negb (loaded (table s)) || _) eqn:Hst, (refreshing (table s)) as [ch|] eqn:Hr.
  - rewrite Hr. destruct (loaded (table s)); [done|]. by apply wait_ok.
  - cbn [loaded refreshing]. pose proof (launch_ok s Hok Hr) as Hl.
    destruct (loaded (table s)) eqn:Hld; cbn; [exact Hl|].
    apply (wait_ok _ c (nextChan s)) in Hl; [|done]. exact Hl.
  - rewrite ?Hr. destruct (loaded (table s)); [done|]. by apply wait_ok.
  - rewrite ?Hr. by destruct (loaded (table s)).
Qed.

Lemma unwait_ok s c : table_ok s →
  table_ok (mkTableState (table s) (readers s) (closedChans s) (delete c (waiters s)) (nextChan s)).
Proof.
  intros [H1 H2 H3 H4 H5]. constructor; cbn; try done. intros c' ch Hx. apply lookup_delete_Some in Hx as [_ Hx]. by eapply H3.
Qed.

Lemma refresh_ok ch g ps als now s : table_ok s → (ch, g) ∈ readers s → table_ok (refreshMountTable ch g ps als now s).
Proof.
  intros [H1 H2 H3 H4 H5] Hin. unfold refreshMountTable. cbv zeta.
  set (t1 := if (gen (table s) =? g)%nat then _ else _).
  set (t2 := if bool_decide _ then _ else _).
  assert (gen t2 = gen (table s)) as Hg by (subst t2 t1; repeat case_goal; done).
  assert (refreshing t2 = if bool_decide (refreshing (table s) = Some ch) then None else refreshing (table s)) as Hr.
  { assert (refreshing t1 = refreshing (table s)) as Hr1 by (subst t1; by case_goal).
    subst t2. rewrite Hr1. destruct (bool_decide (refreshing (table s) = Some ch)); [done|exact Hr1]. }
  assert (loaded t2 = false → points t2 = [] /\ aliases t2 = []) as He.
  { intros Hl. subst t2. destruct (bool_decide _); subst t1; destruct (gen (table s) =? g)%nat; cbn in *; try done; by apply H4. }
  constructor; cbn.
  - intros ch' g' [_ Hx]%list_elem_of_filter. rewrite Hg. by apply H1.
  - intros ch'. rewrite list_elem_of_filter, Hg, H2, Hr. case_bool_decide as Hb.
    + split; [|done]. intros [Hne Hc]. exfalso. apply Hne. rewrite Hb in Hc. injection Hc as <-.
      f_equal. apply (H5 ch); [by apply H2|done].
    + split; [by intros [_ ?]|]. intros Hc. split; [|done]. intros [= -> Hgen]. congruence.
  - intros c ch' Hx. rewrite elem_of_cons. destruct (H3 c ch' Hx) as [|[g' Hg']]; [by left; right|].
    destruct (decide (ch' = ch)) as [->|Hne]; [by left; left|]. right. exists g'. apply list_elem_of_filter. split; [congruence|done].
  - done.
  - intros ch' g1 g2 [_ Hx]%list_elem_of_filter [_ Hy]%list_elem_of_filter. by eapply H5.
Qed.

Lemma forget_ok s : table_ok s → table_ok (forgetMountTable s).
Proof.
  intros [H1 H2 H3 H4 H5]. constructor; cbn; try done.
  - intros ch g Hx. apply H1 in Hx. lia.
  - intros ch. split; [|done]. intros Hx. apply H1 in Hx. lia.
Qed.

Lemma tstep_ok s s' : table_ok s → tstep s s' → table_ok s'.
Proof.
  intros Hok []; [by apply mountOfBegin_ok|by apply unwait_ok|by apply unwait_ok|by apply refresh_ok|by apply forget_ok].
Qed.

Lemma treachable_ok s : treachable s → table_ok s.
Proof.
  unfold treachable. intros Hr. pose proof noTable_ok as Hok. induction Hr as [|s1 s2 s3 Hs Hr IH]; [done|].
  apply IH. by eapply tstep_ok.
Qed.

(** One read of the table is in flight per generation; a caller that waits has a
    closed channel or a read in flight that will close it; and the end of a read
    started before the table was forgotten leaves the table as it is. *)
Theorem mount_table_sound s : treachable s →
  (∀ ch ch', (ch, gen (table s)) ∈ readers s → (ch', gen (table s)) ∈ readers s → ch = ch') /\
  (∀ c ch, waiters s !! c = Some ch → ch ∈ closedChans s \/ ∃ g, (ch, g) ∈ readers s) /\
  (∀ ch g ps als now, (ch, g) ∈ readers s → g ≠ gen (table s) →
     table (refreshMountTable ch g ps als now s) = table s).
Proof.
  intros Hr%treachable_ok. split_and!.
  - intros ch ch' H1%(tk_current s Hr) H2%(tk_current s Hr). congruence.
  - apply (tk_waiter s Hr).
  - intros ch g ps als now Hin Hne. unfold refreshMountTable. cbv zeta. rewrite (proj2 (Nat.eqb_neq _ _)) by done.
    rewrite bool_decide_eq_false_2; [done|]. intros Hc%(tk_current s Hr). destruct Hne. by eapply (tk_unique s Hr).
Qed.
