(* ===== verification/Program.v ===== *)
(** program.go and helper.go: the program a service's rights are about, how two
    such names compare, and the elevated helper. *)

From S2P Require Import Prelude GoStrings GoError ProofLadder Peer GoFilepath PathIdentity.

Definition PackagedProgramPrefix : string := "msix:".

Definition in_range (lo hi : ascii) (c : ascii) : bool := Nat.leb (code lo) (code c) && Nat.leb (code c) (code hi).
Definition isLower : ascii → bool := in_range "a" "z".
Definition isUpper : ascii → bool := in_range "A" "Z".
Definition isDigit : ascii → bool := in_range "0" "9".

Definition all_chars (f : ascii → bool) (s : string) : bool := negb (contains_char (λ c, negb (f c)) s).

Definition family_name_char (c : ascii) : bool :=
  isUpper c || isLower c || isDigit c || Ascii.eqb c "." || Ascii.eqb c "-".

(** The [packageFamily] expression: a name of 3 to 50 letters, digits, dots and
    hyphens, an underscore, and thirteen lower-case letters and digits. *)
Definition packageFamily (s : string) : bool :=
  match Cut s "_" with
  | None => false
  | Some (name, publisher) =>
      all_chars family_name_char name && (3 <=? slen name) && (slen name <=? 50) &&
      all_chars (λ c, isLower c || isDigit c) publisher && (slen publisher =? 13)
  end.

(** [PackageFamily]. *)
Definition PackageFamily (fullName : string) : string * bool :=
  match Split fullName "_" with
  | [name; _; _; _; publisher] =>
      let family := name +:+ "_" +:+ publisher in (family, packageFamily family)
  | _ => ("", false)
  end.

(** The bytes of the UTF-8 rune [s] begins with, one for an invalid byte. *)
Definition cont (lo hi : nat) (c : ascii) : bool := Nat.leb lo (code c) && Nat.leb (code c) hi.

Definition rune_len (s : string) : nat :=
  match s with
  | "" => 0
  | String a r =>
      let n := code a in
      let lo := if Nat.eqb n 224 then 160 else if Nat.eqb n 240 then 144 else 128 in
      let hi := if Nat.eqb n 237 then 159 else if Nat.eqb n 244 then 143 else 191 in
      if Nat.leb 194 n && Nat.leb n 223 then
        match r with String b _ => if cont 128 191 b then 2 else 1 | _ => 1 end
      else if Nat.leb 224 n && Nat.leb n 239 then
        match r with
        | String b (String c _) => if cont lo hi b && cont 128 191 c then 3 else 1
        | _ => 1
        end
      else if Nat.leb 240 n && Nat.leb n 244 then
        match r with
        | String b (String c (String d _)) =>
            if cont lo hi b && cont 128 191 c && cont 128 191 d then 4 else 1
        | _ => 1
        end
      else 1
  end%nat.

(** [utf8.RuneCountInString]; [skip] counts the bytes of a rune already counted. *)
Fixpoint rune_count (s : string) (skip : nat) : Z :=
  match s with
  | "" => 0
  | String _ s' =>
      match skip with
      | S k => rune_count s' k
      | O => 1 + rune_count s' (pred (rune_len s))
      end
  end.

(** The [shortNameComponent] expression: one to six characters, a tilde, one to
    six digits, and perhaps an extension of one to three characters. *)
Definition shortNameComponent (s : string) : bool :=
  match Cut s "~" with
  | None => false
  | Some (l, r) =>
      let digits := take_until (Ascii.eqb ".") r in
      negb (ContainsAny l "~.\/") && (1 <=? rune_count l 0) && (rune_count l 0 <=? 6) &&
      all_chars isDigit digits && (1 <=? slen digits) && (slen digits <=? 6) &&
      match Cut r "." with
      | None => true
      | Some (_, ext) =>
          negb (ContainsAny ext ".\/") && (1 <=? rune_count ext 0) && (rune_count ext 0 <=? 3)
      end
  end.

Definition bad_bytes : string := of_char nul +:+ of_char "013" +:+ of_char newline.

(** [ValidSubjectProgram]. *)
Definition ValidSubjectProgram (program : string) : bool :=
  match CutPrefix program PackagedProgramPrefix with
  | Some family => packageFamily family
  | None =>
      (0 <? slen program) && (slen program <=? 4096) && IsAbs program &&
      String.eqb (Clean program) program && negb (ContainsAny program bad_bytes)
  end.

Definition comparableSubjectProgram (program : string) : bool :=
  if HasPrefix program PackagedProgramPrefix then ValidSubjectProgram program
  else (0 <? slen program) && (slen program <=? 4096) && IsAbs program && negb (ContainsAny program bad_bytes).

(** [pathComponents] off Windows, where there is no volume name. *)
Definition pathComponents (p : string) : list string := FieldsFunc p (Ascii.eqb "/").

(** [HasShortNameComponent]. *)
Definition HasShortNameComponent (p : string) : bool :=
  if HasPrefix p PackagedProgramPrefix then false else existsb shortNameComponent (pathComponents p).

Section Programs.
Context `{FileSystem}.

(** [within]. *)
Definition within (p folder : string) : bool :=
  match Within p folder with Ok b => b | Err _ => false end.

Definition CanonicalProgramPath (p : string) : string := canonicalProgramPath p.

(** [SubjectProgram]; [None] is a nil peer. *)
Definition SubjectProgram (p : option Peer) (pathProof : ProofLevel) : result string :=
  match p with
  | None => Err (Plain "identity: no peer")
  | Some p =>
      let*! path := AtLeast (PPath p) pathProof in
      if negb (IsAbs path) then Err (Plain "identity: the program path is not absolute")
      else
        let path := Clean path in
        let packaged :=
          match AtLeast (PPackage p) ProofSigned with
          | Err _ => None
          | Ok full =>
              let '(family, ok) := PackageFamily full in
              if ok then
                match packageInstallPath full with
                | Ok root => if within path (Clean root) then Some (PackagedProgramPrefix +:+ family) else None
                | Err _ => None
                end
              else None
          end in
        match packaged with
        | Some s => Ok s
        | None => Ok (CanonicalProgramPath path)
        end
  end.

(** [PathNameWithin]. *)
Definition PathNameWithin (p folder : string) : bool :=
  let split s := FieldsFunc s (λ c, Ascii.eqb c "/" || Ascii.eqb c "\") in
  let ps := split p in
  let fs := split folder in
  if (length fs =? 0)%nat || (length ps <=? length fs)%nat then false
  else samePathName (Join (take (length fs) ps) "/") (Join fs "/").

(** [NormalizeSubjectProgram]. *)
Definition NormalizeSubjectProgram (program : string) : string :=
  if HasPrefix program PackagedProgramPrefix then program else CanonicalProgramPath (Clean program).

(** [ProgramKey]. *)
Definition ProgramKey (program : string) : string :=
  if HasPrefix program PackagedProgramPrefix then ""
  else match FileKey program with Ok key => key | Err _ => "" end.

(** [SameNormalizedSubjectProgramKeyed], with what the two callbacks give. *)
Definition SameNormalizedSubjectProgramKeyed (a b keyA keyB : string) : bool :=
  if negb (ValidSubjectProgram a) || negb (ValidSubjectProgram b) then false
  else if String.eqb a b then true
  else if HasPrefix a PackagedProgramPrefix || HasPrefix b PackagedProgramPrefix then samePathName a b
  else if String.eqb keyA "" then samePathName a b
  else if String.eqb keyB "" then samePathName a b
  else String.eqb keyA keyB.

(** [SameNormalizedSubjectProgram]. *)
Definition SameNormalizedSubjectProgram (a b : string) : bool :=
  SameNormalizedSubjectProgramKeyed a b (ProgramKey a) (ProgramKey b).

(** [SameSubjectProgram]. *)
Definition SameSubjectProgram (a b : string) : bool :=
  if negb (comparableSubjectProgram a) || negb (comparableSubjectProgram b) then false
  else SameNormalizedSubjectProgram (NormalizeSubjectProgram a) (NormalizeSubjectProgram b).

(** ** The elevated helper (helper.go) *)

Definition highIntegrityRID : Z := 12288.

Definition notHelper (msg : string) (cause : list err) : err := Wrap msg (Sentinel ErrNotHelper :: cause).

(** [CheckElevatedHelper]. *)
Definition CheckElevatedHelper (peer : option Peer) (self : User) (program : string) : option err :=
  match peer with
  | None => Some (notHelper "no peer" [])
  | Some peer =>
      match AtLeast (PUser peer) ProofKernel with
      | Err e => Some (notHelper "" [e])
      | Ok u =>
          if negb (String.eqb (Kind u) "windows") || negb (String.eqb (Kind self) "windows")
             || String.eqb (SID u) "" || negb (String.eqb (SID u) (SID self))
          then Some (notHelper "another account" [])
          else if negb (Elevated u) || (IntegrityRID u <? highIntegrityRID)
          then Some (notHelper "the token is not elevated at high integrity" [])
          else
            match AtLeast (PProcess peer) ProofKernel with
            | Err e => Some (notHelper "" [e])
            | Ok _ =>
                match AtLeast (PPath peer) ProofBound with
                | Err e => Some (notHelper "" [e])
                | Ok path =>
                    if negb (SameSubjectProgram path program) then Some (notHelper "another program" [])
                    else None
                end
            end
      end
  end.

(** ** Lemmas *)

Lemma HasPrefix_msix_CutPrefix p : HasPrefix p PackagedProgramPrefix = true <-> ∃ f, CutPrefix p PackagedProgramPrefix = Some f.
Proof. unfold HasPrefix. destruct (CutPrefix p _); split; try done; [by eexists|by intros []]. Qed.

Lemma IsAbs_not_msix p : IsAbs p = true → CutPrefix p PackagedProgramPrefix = None.
Proof. by intros [r ->]%HasPrefix_slash. Qed.

Lemma ValidSubjectProgram_msix family : ValidSubjectProgram (PackagedProgramPrefix +:+ family) = packageFamily family.
Proof. unfold ValidSubjectProgram. by rewrite CutPrefix_app. Qed.

Lemma SameFile_keys a b ka kb : FileKey a = Ok ka → FileKey b = Ok kb → SameFile a b = Ok (String.eqb ka kb).
Proof.
  unfold FileKey, SameFile. destruct (localPath a); [done|]. destruct (localPath b); [done|]. by intros -> ->.
Qed.

Lemma Keyed_sym {FSOk : FileSystemOk} a b ka kb :
  SameNormalizedSubjectProgramKeyed a b ka kb = SameNormalizedSubjectProgramKeyed b a kb ka.
Proof.
  assert (∀ a b, samePathName a b = samePathName b a) as Hsym.
  { intros x y. apply eq_true_iff_eq. rewrite !samePathName_key. split; congruence. }
  unfold SameNormalizedSubjectProgramKeyed.
  rewrite (String.eqb_sym b a), (String.eqb_sym kb ka), (Hsym b a), (orb_comm (negb (ValidSubjectProgram b))),
    (orb_comm (HasPrefix b _)).
  by repeat case_goal.
Qed.

(** ** Properties *)

(** Subject programs compare as an equivalence over what they are. The
    comparison is symmetric; it holds of a name and itself exactly when the name
    is comparable and its normal form valid; and a program that is empty, relative,
    longer than 4096 bytes or holding NUL, CR or LF never matches anything, not
    even itself. *)
Lemma same_program_symmetric {FSOk : FileSystemOk} a b :
  SameSubjectProgram a b = SameSubjectProgram b a /\
  SameSubjectProgram a a = comparableSubjectProgram a && ValidSubjectProgram (NormalizeSubjectProgram a) /\
  (comparableSubjectProgram a = false → SameSubjectProgram a b = false).
Proof.
  split_and!.
  - unfold SameSubjectProgram, SameNormalizedSubjectProgram.
    rewrite (orb_comm (negb (comparableSubjectProgram b))). case_goal; [done|]. apply Keyed_sym.
  - unfold SameSubjectProgram, SameNormalizedSubjectProgram, SameNormalizedSubjectProgramKeyed.
    rewrite String.eqb_refl. destruct (comparableSubjectProgram a); [cbn|done]. by destruct (ValidSubjectProgram _).
  - intros Ha. unfold SameSubjectProgram. by rewrite Ha.
Qed.

(** Two existing local programs are one program exactly when they are one
    file. For valid path programs with file keys, [SameNormalizedSubjectProgram]
    answers what [SameFile] answers; when either has no key, being missing or
    refused by [LocalPath], the platform's name rule decides instead; and a
    package family matches only by that rule. *)
Theorem same_program_is_same_file {FSOk : FileSystemOk} a b :
  ValidSubjectProgram a = true → ValidSubjectProgram b = true → IsAbs a = true →
  (IsAbs b = true → ∀ ka kb, FileKey a = Ok ka → FileKey b = Ok kb → ka ≠ "" → kb ≠ "" →
     SameFile a b = Ok (SameNormalizedSubjectProgram a b)) /\
  ((∃ e, FileKey a = Err e) \/ (∃ e, FileKey b = Err e) \/ HasPrefix b PackagedProgramPrefix = true →
     SameNormalizedSubjectProgram a b = samePathName a b).
Proof.
  intros Hva Hvb Ha. split.
  - intros Hb ka kb Hka Hkb Hna Hnb.
    rewrite (SameFile_keys _ _ _ _ Hka Hkb).
    unfold SameNormalizedSubjectProgram, SameNormalizedSubjectProgramKeyed, ProgramKey, HasPrefix.
    rewrite Hva, Hvb, !IsAbs_not_msix, Hka, Hkb by done. cbn [negb orb].
    rewrite !(proj2 (String.eqb_neq _ "")) by done.
    destruct (String.eqb_spec a b) as [->|]; [|done].
    assert (ka = kb) as -> by congruence. by rewrite String.eqb_refl.
  - intros Hno. unfold SameNormalizedSubjectProgram, SameNormalizedSubjectProgramKeyed.
    rewrite Hva, Hvb. cbn [negb orb].
    destruct (String.eqb_spec a b) as [->|Hne]; [symmetry; by apply samePathName_key|].
    unfold ProgramKey. destruct (HasPrefix a _); [done|]. destruct (HasPrefix b _); [done|]. cbn [orb].
    destruct Hno as [[e ->]|[[e ->]|Hp]]; [done| |done]. by destruct (String.eqb _ "").
Qed.

(** [SubjectProgram] names a program only on evidence, never on a
    claim alone. The path must be proven at the level asked for and absolute; the result
    is then the package family only if the package was proven at [ProofSigned],
    its full name is well formed and the image lies inside the package's folder;
    otherwise it is the canonical spelling of the clean image path. *)
Theorem subject_program_evidence p lvl s :
  SubjectProgram (Some p) lvl = Ok s →
  lvl <= attr_proof (PPath p) /\ ProofNone < attr_proof (PPath p) /\ IsAbs (attr_value (PPath p)) = true /\
  (s = CanonicalProgramPath (Clean (attr_value (PPath p))) \/
   ∃ family root, s = PackagedProgramPrefix +:+ family /\ packageFamily family = true /\
     ValidSubjectProgram s = true /\
     ProofSigned <= attr_proof (PPackage p) /\ packageInstallPath (attr_value (PPackage p)) = Ok root /\
     Within (Clean (attr_value (PPath p))) (Clean root) = Ok true).
Proof.
  unfold SubjectProgram. destruct (AtLeast (PPath p) lvl) as [path|e] eqn:Hp; [|done].
  apply AtLeast_ok in Hp as (Hl & Hk & ->). destruct (IsAbs (attr_value (PPath p))) eqn:Ha; [|done]. cbn [negb].
  destruct (AtLeast (PPackage p) ProofSigned) as [full|e] eqn:Hpk; [|intros [= <-]; auto 10].
  apply AtLeast_ok in Hpk as (Hpl & _ & ->).
  unfold PackageFamily. destruct (Split _ _) as [|n [|v [|a [|r [|pub [|]]]]]]; try (intros [= <-]; by auto 10).
  destruct (packageFamily (n +:+ "_" +:+ pub)) eqn:Hfam; [|intros [= <-]; by auto 10].
  destruct (packageInstallPath _) as [root|] eqn:Hroot; [|intros [= <-]; by auto 10].
  unfold within. destruct (Within _ _) as [[]|] eqn:Hw; intros [= <-]; try by auto 10.
  split_and!; [done..|]. right. exists (n +:+ "_" +:+ pub), root. split_and!; try done.
  by rewrite ValidSubjectProgram_msix.
Qed.

(** The elevated helper is this account's, elevated, and the program named.
    [CheckElevatedHelper] accepts exactly a peer whose user, process and path are
    proven at kernel, kernel and bound level, on Windows, with this account's SID,
    elevated at high integrity or above, running the program; and every refusal
    is [ErrNotHelper]. *)
Theorem elevated_helper_exact p self program :
  (CheckElevatedHelper (Some p) self program = None <->
      let u := attr_value (PUser p) in
      ProofKernel <= attr_proof (PUser p) /\ ProofKernel <= attr_proof (PProcess p) /\
      ProofBound <= attr_proof (PPath p) /\ Kind u = "windows" /\ Kind self = "windows" /\
      SID u = SID self /\ SID u ≠ "" /\ Elevated u = true /\ highIntegrityRID <= IntegrityRID u /\
      SameSubjectProgram (attr_value (PPath p)) program = true) /\
  match CheckElevatedHelper (Some p) self program with
  | Some e => errors_is e ErrNotHelper = true
  | None => True
  end.
Proof.
  unfold CheckElevatedHelper. split; [split|].
  - destruct (AtLeast (PUser p) ProofKernel) as [u|e] eqn:Hu; [|done].
    apply AtLeast_ok in Hu as (Hu & _ & ->). case_goal; [done|]. case_goal; [done|].
    destruct (AtLeast (PProcess p) ProofKernel) as [pr|e] eqn:Hpr; [|done].
    apply AtLeast_ok in Hpr as (Hpr & _ & ->).
    destruct (AtLeast (PPath p) ProofBound) as [pa|e] eqn:Hpa; [|done].
    apply AtLeast_ok in Hpa as (Hpa & _ & ->). case_goal; [done|]. to_prop. intros _. by split_and!.
  - intros (Hu & Hpr & Hpa & Hk & Hks & Hs & Hne & He & Hi & Hp).
    rewrite !AtLeast_meets by (done || (unfold ProofNone, ProofKernel, ProofBound in *; lia)).
    rewrite Hk, Hks, Hs, He, Hp, !String.eqb_refl. rewrite Hs in Hne.
    rewrite (proj2 (String.eqb_neq _ _) Hne), (proj2 (Z.ltb_ge _ _)) by lia. done.
  - repeat (case_goal || case_match); done.
Qed.

End Programs.

(** ** Witnesses *)

Lemma same_program_is_same_file_witness :
  @SameFile sampleFS "/link" "/srv" = Ok true /\
  @SameFile sampleFS "/link" "/srv" = Ok (@SameNormalizedSubjectProgram sampleFS "/link" "/srv").
Proof.
  split; [vm_compute; reflexivity|].
  eapply (proj1 (@same_program_is_same_file sampleFS sampleFS_ok "/link" "/srv" ltac:(vm_compute; reflexivity)
    ltac:(vm_compute; reflexivity) ltac:(vm_compute; reflexivity)));
    [vm_compute; reflexivity|vm_compute; reflexivity|vm_compute; reflexivity|discriminate|discriminate].
Defined.

(** The peer of a packaged program, and a package folder that holds it. *)
Definition packagedPeer : Peer :=
  set_Package (set_Path (peer_at (mkNeed 0 0 0 0 0)) (attr "path" "/link/app" ProofBound ""))
    (attr "package" "Ex.App_1.0_x64__abcdefghijklm" ProofSigned "").

Definition packagedFS : FileSystem :=
  {| localPath := @localPath sampleFS; fileKey := @fileKey sampleFS; pathExists := @pathExists sampleFS;
     resolveLinks := @resolveLinks sampleFS; lstatMissing := @lstatMissing sampleFS; getwd := @getwd sampleFS;
     samePathName := @samePathName sampleFS; pathNameKey := @pathNameKey sampleFS;
     canonicalProgramPath := @canonicalProgramPath sampleFS; packageInstallPath _ := Ok "/srv" |}.

Lemma subject_program_evidence_witness :
  @SubjectProgram packagedFS (Some packagedPeer) ProofBound = Ok "msix:Ex.App_abcdefghijklm" /\
  IsAbs (attr_value (PPath packagedPeer)) = true.
Proof.
  split; [vm_compute; reflexivity|].
  apply (@subject_program_evidence packagedFS packagedPeer ProofBound "msix:Ex.App_abcdefghijklm").
  vm_compute; reflexivity.
Defined.

Lemma same_program_symmetric_witness :
  @SameSubjectProgram sampleFS "/link" "/srv/./" = true /\
  @SameSubjectProgram sampleFS "/srv/./" "/link" = @SameSubjectProgram sampleFS "/link" "/srv/./".
Proof.
  split; [vm_compute; reflexivity|].
  apply (@same_program_symmetric sampleFS sampleFS_ok "/srv/./" "/link").
Defined.
