(* ===== verification/WindowsOS.v ===== *)
(** Windows as the identity code meets it.

    As in LinuxOS, a [Windows] holds every answer the system gives at one instant and
    the system is a function from instants to such answers; each question is answered
    at the next instant. The state of the asking process is the number of questions
    asked and the things it holds: handles, contexts and trust states. *)

From S2P Require Import Prelude GoBinary GoStrings GoError PathIdentity.

(** What the process holds and must give back. *)
Inductive resource :=
| RFile (h : Z) | RProcess (h : Z) | RAdmin (h : Z) | RCatalog (h : Z) | RStore (h : Z) | RMsg (h : Z) | RCert (h : Z)
| RTrust.

#[global] Instance resource_eq_dec : EqDecision resource.
Proof. solve_decision. Defined.

(** The subject of a [WinVerifyTrust] call: an open file, or an open file as the
    member of a catalog. *)
Inductive subject :=
| SubjectFile (path : string) (file : Z)
| SubjectMember (catalog tag path : string) (file admin : Z) (hash : list byte).

Definition subjectFile (s : subject) : Z :=
  match s with SubjectFile _ h => h | SubjectMember _ _ _ h _ _ => h end.

(** Whether revocation is checked through the network or from the cache: the two
    choices of flags [winTrust] makes. *)
Record trustFlags := mkFlags { wholeChain : bool; cacheOnly : bool; revocationChain : bool }.

Record Windows := mkWindows {
  w_now : Time;
  w_createFile : string → Z → Z → result Z;
  w_readFile : Z → Z → Z → nat → list byte * option err;
  w_finalPath : Z → result (Z * list Z);
  w_longPath : string → result (Z * list Z);
  w_imagePath : Z → result (list Z);
  w_windowsDirectory : result string;
  w_driveType : string → Z;
  w_verifyTrust : subject → trustFlags → option err;
  w_acquire : Z * Z * Z;
  w_calcHash : Z → Z → Z * Z * Z * list byte;
  w_enumCatalog : Z → list byte → Z → Z;
  w_catalogInfo : Z → result (list Z);
  w_cryptQuery : string → Z → result (Z * Z * Z);
  w_signerInfo : Z → result positive;
  w_signerBytes : Z → positive → result (list byte);
  w_findCertificate : Z → Z → list byte → result Z;
  w_certNameLength : Z → Z → Z;
  w_certName : Z → Z → Z → list Z;
  w_duplicate : Z → result Z;
  w_startTime : Z → result Time;
  w_exited : Z → bool;
  w_files : FileSystem;
  w_within : string → string → result bool
}.

Record WState := mkWState { wtick : nat; held : list resource }.

Definition WM (A : Type) : Type := WState → A * WState.

#[global] Instance WM_ret : MRet WM := λ A a s, (a, s).
#[global] Instance WM_bind : MBind WM := λ A B k m s, let '(a, s') := m s in k a s'.

Fixpoint release_first (x : resource) (l : list resource) : list resource :=
  match l with
  | [] => []
  | y :: l' => if decide (x = y) then l' else y :: release_first x l'
  end.

Section OS.
Context (K : nat → Windows).

(** One question to the system. *)
Definition wask {A} (f : Windows → A) : WM A := λ s, (f (K (wtick s)), mkWState (S (wtick s)) (held s)).

(** A thing taken, and one given back. *)
Definition hold (r : resource) : WM unit := λ s, (tt, mkWState (wtick s) (r :: held s)).
Definition release_ (r : resource) : WM unit := λ s, (tt, mkWState (S (wtick s)) (release_first r (held s))).
End OS.

(** [defer] of giving [r] back. *)
Definition during {A} (r : resource) (m : WM A) : WM A :=
  _ ← hold r;
  a ← m;
  _ ← release_ r;
  mret a.

(** ** Reasoning *)

(** What holds of a computation's result and final state, started in [s]. *)
Definition wwp {A} (m : WM A) (Q : A → WState → Prop) (s : WState) : Prop := Q (m s).1 (m s).2.

Lemma wwp_ret {A} (a : A) Q s : Q a s → wwp (mret a) Q s.
Proof. done. Qed.

Lemma wwp_bind {A B} (m : WM A) (k : A → WM B) Q s : wwp m (λ a, wwp (k a) Q) s → wwp (m ≫= k) Q s.
Proof. unfold wwp, mbind, WM_bind. by destruct (m s). Qed.

Lemma wwp_mono {A} (m : WM A) (Q Q' : A → WState → Prop) s : (∀ a s', Q a s' → Q' a s') → wwp m Q s → wwp m Q' s.
Proof. unfold wwp. auto. Qed.

(** Time moves on, and everything taken since [s] has been given back. *)
Definition balanced (s s' : WState) : Prop := (wtick s <= wtick s')%nat /\ held s' = held s.

Lemma balanced_refl s : balanced s s.
Proof. done. Qed.

Lemma balanced_trans s s1 s2 : balanced s s1 → balanced s1 s2 → balanced s s2.
Proof. intros [H1 H2] [H3 H4]. split; [lia|congruence]. Qed.

(** [m] ends balanced, with [Q] of what it gives between the instants it began and
    ended. *)
Definition fair {A} (m : WM A) (Q : nat → A → nat → Prop) : Prop :=
  ∀ s, wwp m (λ a s', balanced s s' /\ Q (wtick s) a (wtick s')) s.

Lemma fair_ret {A} (a : A) (Q : nat → A → nat → Prop) : (∀ t, Q t a t) → fair (mret a) Q.
Proof. intros HQ s. apply wwp_ret. split; [done|auto]. Qed.

Lemma fair_ask {A} K (f : Windows → A) (Q : nat → A → nat → Prop) : (∀ t, Q t (f (K t)) (S t)) → fair (wask K f) Q.
Proof. intros HQ s. unfold wwp, wask. cbn. split; [split; [cbn; lia|done]|auto]. Qed.

Lemma fair_bind {A B} (m : WM A) (k : A → WM B) (Q : nat → A → nat → Prop) (R : nat → B → nat → Prop) :
  fair m Q → (∀ a t0 t1, (t0 <= t1)%nat → Q t0 a t1 → fair (k a) (λ t1' b t2, t1' = t1 → R t0 b t2)) → fair (m ≫= k) R.
Proof.
  intros Hm Hk s. apply wwp_bind. eapply wwp_mono; [|apply Hm]. intros a s1 [Hb HQ]. cbn beta.
  eapply wwp_mono; [|apply (Hk a _ _ (proj1 Hb) HQ)]. intros b s2 [Hb' HR]. cbn beta in *.
  split; [by eapply balanced_trans|by apply HR].
Qed.

Lemma fair_mono {A} (m : WM A) (Q Q' : nat → A → nat → Prop) : (∀ t a t', (t <= t')%nat → Q t a t' → Q' t a t') → fair m Q → fair m Q'.
Proof. intros HQ Hm s. eapply wwp_mono; [|apply Hm]. intros a s' [Hb H]. split; [done|]. apply HQ; [apply Hb|done]. Qed.

(** A computation under something held, which is given back at the end. *)
Lemma fair_under {A} (r : resource) (m : WM A) (Q : nat → A → nat → Prop) :
  fair m (λ t a t', Q t a (S t')) → fair (during r m) Q.
Proof.
  intros Hm s. unfold during, wwp, mbind, WM_bind, hold, release_. cbn.
  specialize (Hm (mkWState (wtick s) (r :: held s))). unfold wwp in Hm.
  destruct (m (mkWState (wtick s) (r :: held s))) as [a s1]. cbn in *. destruct Hm as [[Ht Hh] HQ]. cbn in *.
  split; [split; cbn; [lia|]|done]. rewrite Hh. cbn. by rewrite decide_True.
Qed.
