(* ===== verification/Authenticode.v ===== *)
(** authenticode_windows.go, version_windows.go (the verification) and
    filecode_windows.go: whether Windows trusts the file a process runs or a path
    names, who signed it, and the names its version resource gives it.

    A pointer to a NUL-terminated name is the name. *)

From S2P Require Import Prelude GoBinary GoStrings GoError GoFilepath PathIdentity.
From S2P Require Import ProofLadder Peer VersionInfo VersionTree VersionImage WindowsOS.

(** ** Names and errors *)

(** [errnoOrEINVAL]. *)
Definition errnoOrEINVAL (e : Z) : err := if negb (e =? 0) then OSErr (EOTHER e) else errEINVAL.

Definition MAX_LONG_PATH : Z := 32768.

(** The name in the first [n] units of a buffer of [MAX_LONG_PATH], without the long
    prefix. *)
Definition bufferName (what : string) (n : Z) (units : list Z) : result string :=
  if (n =? 0) || (MAX_LONG_PATH <=? n) then Err (Plain what)
  else Ok (TrimPrefix (UTF16ToString (take (Z.to_nat n) units)) "\\?\").

Definition GENERIC_READ : Z := 0x80000000.
Definition FILE_SHARE_READ : Z := 1.
Definition FILE_SHARE_WRITE : Z := 2.
Definition FILE_SHARE_DELETE : Z := 4.

(** [verifyFileShare]. *)
Definition verifyFileShare : Z := Z.lor FILE_SHARE_READ FILE_SHARE_DELETE.

Definition shareAll : Z := Z.lor (Z.lor FILE_SHARE_READ FILE_SHARE_WRITE) FILE_SHARE_DELETE.

(** Two of the contents [CryptQueryObject] is asked for. *)
Definition PKCS7_SIGNED : Z := 0x100.
Definition PKCS7_SIGNED_EMBED : Z := 0x400.

Section Authenticode.
Context (K : nat → Windows) (errText : err → string).

(** The value [windowsDirectory] keeps from its first call. *)
Context (windowsDirectory : result string).

(** [samePath], of the file system at one instant. *)
Definition samePath (w : Windows) (a b : string) : bool :=
  match @SameFile (w_files w) a b with Ok same => same | Err _ => false end.

(** [longImagePath]. *)
Definition longImagePath (path : string) : WM (result string) :=
  match UTF16PtrFromString path with
  | Err e => mret (Err e)
  | Ok p =>
      r ← wask K (λ w, w_longPath w p);
      mret (match r with
            | Err e => Err e
            | Ok (n, units) => bufferName "image path exceeds the buffer" n units
            end)
  end.

(** [processImagePath]. *)
Definition processImagePath (proc : Z) : WM (result string) :=
  r ← wask K (λ w, w_imagePath w proc);
  mret (match r with Err e => Err e | Ok units => Ok (UTF16ToString units) end).

(** [handleFinalPath]. *)
Definition handleFinalPath (file : Z) : WM (result string) :=
  r ← wask K (λ w, w_finalPath w file);
  mret (match r with
        | Err e => Err (Wrap "the verified file could no longer be named" [e])
        | Ok (n, units) => bufferName "the verified file path exceeds the buffer" n units
        end).

(** [sameFinalPath]. *)
Definition sameFinalPath (got want : string) : WM (option err) :=
  same ← wask K (λ w, samePath w got want);
  mret (if negb same then Some (Plain ("the file that was verified is now at " +:+ quoted got +:+ ", not " +:+ quoted want)) else None).

(** [stillSameFile]. *)
Definition stillSameFile (file : Z) (want : string) : WM (option err) :=
  got ← handleFinalPath file;
  match got with
  | Err e => mret (Some e)
  | Ok got => sameFinalPath got want
  end.

(** [stillSameImage]. *)
Definition stillSameImage (proc file : Z) (want : string) : WM (option err) :=
  now ← processImagePath proc;
  match now with
  | Err e => mret (Some (Wrap "the process image path could no longer be read" [e]))
  | Ok now =>
      now ← longImagePath now;
      match now with
      | Err e => mret (Some (Wrap "the process image path could not be normalized" [e]))
      | Ok now =>
          same ← wask K (λ w, samePath w now want);
          if negb same
          then mret (Some (Plain ("the process image path changed from " +:+ quoted want +:+ " to " +:+ quoted now +:+ " during verification")))
          else stillSameFile file want
      end
  end.

(** ** The policy *)

(** The flags [winTrust] chooses. *)
Definition policyFlags (revocation : bool) : trustFlags :=
  if revocation then mkFlags true false true else mkFlags false true false.

(** [winTrust]: the trust state is closed whatever the verdict. *)
Definition winTrust (s : subject) (revocation : bool) : WM (option err) :=
  during RTrust (wask K (λ w, w_verifyTrust w s (policyFlags revocation))).

(** [trustVerdict]. *)
Definition trustVerdict (e : err) : string * Z :=
  let code := match e with OSErr (EOTHER n) => n | _ => 0 end in
  if (code =? 0x800B0100) || (code =? 0x80092004) then ("no signature", ProofUnsigned)
  else if code =? 0x800B0003 then ("the file is not of a form Authenticode can sign", ProofUnsigned)
  else if code =? 0x800B0001 then ("no trust provider for this file type", ProofUnsigned)
  else if code =? 0x80096010 then ("signed, but the file has been modified since it was signed", ProofInvalid)
  else if (code =? 0x800B0109) || (code =? 0x800B010D)
  then ("signed by a certificate chaining to a root this machine does not trust", ProofInvalid)
  else if code =? 0x800B0101 then ("signed by an expired certificate", ProofInvalid)
  else if code =? 0x800B010C then ("signed by a revoked certificate", ProofInvalid)
  else if code =? 0x800B010A then ("signed, but the certificate chain could not be built", ProofInvalid)
  else if code =? 0x80092013 then ("revocation status could not be checked", ProofInvalid)
  else ("not trusted: " +:+ errText e, ProofInvalid).

(** ** The signer *)

(** [certName]. *)
Definition certName (cert flags : Z) : WM string :=
  n ← wask K (λ w, w_certNameLength w cert flags);
  if n <=? 1 then mret ""
  else units ← wask K (λ w, w_certName w cert flags n); mret (UTF16ToString units).

(** [signerName]; the size of a [CERT_INFO] is positive. *)
Definition signerName (path : string) (content : Z) : WM (result (string * string)) :=
  q ← wask K (λ w, w_cryptQuery w path content);
  match q with
  | Err e => mret (Err e)
  | Ok (encoding, store, msg) =>
      during (RStore store) (during (RMsg msg) (
        n ← wask K (λ w, w_signerInfo w msg);
        match n with
        | Err e => mret (Err e)
        | Ok n =>
            info ← wask K (λ w, w_signerBytes w msg n);
            match info with
            | Err e => mret (Err e)
            | Ok info =>
                cert ← wask K (λ w, w_findCertificate w store encoding info);
                match cert with
                | Err e => mret (Err e)
                | Ok cert =>
                    during (RCert cert) (
                      subject ← certName cert 0;
                      issuer ← certName cert 1;
                      mret (Ok (subject, issuer)))
                end
            end
        end))
  end.

(** The signer's names in a [Code], where they can be read. *)
Definition named_ (c : Code) (r : result (string * string)) : Code :=
  match r with
  | Ok (subject, issuer) =>
      mkCode subject issuer (Trusted c) (Status c) (Catalog c) (Description c) (OriginalName c) (TeamID c)
  | Err _ => c
  end.

(** [withSigner]. *)
Definition withSigner (c : Code) (path : string) : WM Code :=
  if negb (Trusted c) || Catalog c then mret c
  else r ← signerName path PKCS7_SIGNED_EMBED; mret (named_ c r).

(** ** System catalogs *)

Definition catalogHash : string := "SHA256".
Definition maxCatalogs : nat := 64.

(** [cryptCATAdminAcquireContext2]. *)
Definition cryptCATAdminAcquireContext2 (alg : string) : WM (result Z) :=
  match UTF16PtrFromString alg with
  | Err e => mret (Err e)
  | Ok _ =>
      x ← wask K w_acquire;
      let '(r1, admin, e1) := x in
      mret (if r1 =? 0 then Err (errnoOrEINVAL e1) else Ok admin)
  end.

(** [cryptCATAdminCalcHashFromFileHandle2]: the buffer has 64 bytes. *)
Definition cryptCATAdminCalcHashFromFileHandle2 (admin file : Z) : WM (result (list byte)) :=
  x ← wask K (λ w, w_calcHash w admin file);
  let '(r1, e1, n, hash) := x in
  mret (if r1 =? 0 then Err (errnoOrEINVAL e1)
        else if (n =? 0) || (64 <? n) then Err errEINVAL
        else Ok (take (Z.to_nat n) (take 64 (hash ++ replicate 64 x00)))).

(** [cryptCATAdminEnumCatalogFromHash]: the call gives back the context of [prev]. *)
Definition cryptCATAdminEnumCatalogFromHash (admin : Z) (hash : list byte) (prev : Z) : WM Z :=
  info ← wask K (λ w, w_enumCatalog w admin hash prev);
  _ ← (if negb (prev =? 0) then release_ (RCatalog prev) else mret tt);
  _ ← (if negb (info =? 0) then hold (RCatalog info) else mret tt);
  mret info.

(** [hex.EncodeToString] in upper case. *)
Definition upperNibble (d : Z) : ascii :=
  nth (Z.to_nat d) (String.list_ascii_of_string "0123456789ABCDEF") "0"%char.

Fixpoint memberTag (hash : list byte) : string :=
  match hash with
  | [] => ""
  | b :: rest => String (upperNibble (bz b / 16)) (String (upperNibble (bz b mod 16)) (memberTag rest))
  end.

(** [catalogMember]: the code, the refusal and the error. *)
Definition catalogMember (admin info : Z) (tag : string) (hash : list byte) (file : Z) (path : string) (revocation : bool)
  : WM (Code * option err * option err) :=
  ci ← wask K (λ w, w_catalogInfo w info);
  match ci with
  | Err e => mret (zero, None, Some e)
  | Ok units =>
      let catalogPath := UTF16ToString units in
      catalog ← wask K (λ w, w_createFile w catalogPath GENERIC_READ shareAll);
      match catalog with
      | Err e => mret (zero, None, Some e)
      | Ok catalog =>
          during (RFile catalog) (
            refusal ← winTrust (SubjectMember catalogPath tag path file admin hash) revocation;
            match refusal with
            | Some r => mret (zero, Some r, None)
            | None =>
                names ← signerName catalogPath PKCS7_SIGNED;
                let code := named_ (mkCode "" "" true "valid, signed through a system catalog" true "" "" "") names in
                moved ← stillSameFile catalog catalogPath;
                match moved with
                | Some e => mret (zero, None, Some e)
                | None => mret (code, None, None)
                end
            end)
      end
  end.

(** After the loop of [verifyCatalog]: the last context is given back. *)
Definition catalogTail (prev : Z) (refusal : option err) : WM (Code * Z * bool) :=
  _ ← (if negb (prev =? 0) then release_ (RCatalog prev) else mret tt);
  mret (match refusal with
        | None => (zero, ProofUnsigned, false)
        | Some r =>
            let '(status, verdict) := trustVerdict r in
            (mkCode "" "" false ("listed by a system catalog Windows refused: " +:+ status) true "" "" "", verdict, true)
        end).

(** The first refusal that is not on the unsigned rung is kept. *)
Definition keepRefusal (refused refusal : option err) : option err :=
  match refused, refusal with
  | Some r, None => if negb (snd (trustVerdict r) =? ProofUnsigned) then Some r else None
  | _, _ => refusal
  end.

(** The loop of [verifyCatalog]; [n] catalogs are left. *)
Fixpoint catalogLoop (n : nat) (admin : Z) (tag : string) (hash : list byte) (file : Z) (path : string) (revocation : bool)
  (prev : Z) (refusal : option err) : WM (Code * Z * bool) :=
  match n with
  | O => catalogTail prev refusal
  | S n =>
      info ← cryptCATAdminEnumCatalogFromHash admin hash prev;
      if info =? 0 then catalogTail 0 refusal
      else
        x ← catalogMember admin info tag hash file path revocation;
        match x with
        | (code, None, None) => _ ← release_ (RCatalog info); mret (code, ProofBound, true)
        | (_, refused, _) => catalogLoop n admin tag hash file path revocation info (keepRefusal refused refusal)
        end
  end.

(** [verifyCatalog]. *)
Definition verifyCatalog (file : Z) (path : string) (revocation : bool) : WM (Code * Z * bool) :=
  admin ← cryptCATAdminAcquireContext2 catalogHash;
  match admin with
  | Err _ => mret (zero, ProofUnsigned, false)
  | Ok admin =>
      during (RAdmin admin) (
        hash ← cryptCATAdminCalcHashFromFileHandle2 admin file;
        match hash with
        | Err _ => mret (zero, ProofUnsigned, false)
        | Ok hash =>
            match UTF16PtrFromString (memberTag hash) with
            | Err _ => mret (zero, ProofUnsigned, false)
            | Ok tag => catalogLoop maxCatalogs admin tag hash file path revocation 0 None
            end
        end)
  end.

(** What the first call of [windowsDirectory] keeps. *)
Definition windowsDirectoryOnce : WM (result string) :=
  dir ← wask K w_windowsDirectory;
  match dir with
  | Err e => mret (Err e)
  | Ok dir =>
      match UTF16PtrFromString dir with
      | Err e => mret (Err e)
      | Ok dir =>
          h ← wask K (λ w, w_createFile w dir 0 shareAll);
          match h with
          | Err e => mret (Err e)
          | Ok h => during (RFile h) (handleFinalPath h)
          end
      end
  end.

(** [inWindowsDirectory], with [underDirectory]. *)
Definition inWindowsDirectory (file : Z) : WM bool :=
  match windowsDirectory with
  | Err _ => mret false
  | Ok dir =>
      final ← handleFinalPath file;
      match final with
      | Err _ => mret false
      | Ok final =>
          inside ← wask K (λ w, w_within w final dir);
          mret (match inside with Ok b => b | Err _ => false end)
      end
  end.

(** [verifyTrust]. *)
Definition verifyTrust (file : Z) (path : string) (revocation : bool) : WM (Code * Z) :=
  refused ← winTrust (SubjectFile path file) revocation;
  match refused with
  | None => mret (mkCode "" "" true "valid" false "" "" "", ProofBound)
  | Some e =>
      let '(status, verdict) := trustVerdict e in
      let otherwise := (mkCode "" "" false status false "" "" "", verdict) in
      if verdict =? ProofUnsigned then
        inside ← inWindowsDirectory file;
        if inside : bool then
          x ← verifyCatalog file path revocation;
          let '(code, verdict, listed) := x in
          mret (if listed : bool then (code, verdict) else otherwise)
        else mret otherwise
      else mret otherwise
  end.

(** ** The held file *)

Definition ERROR_HANDLE_EOF : err := OSErr (EOTHER 38).

(** [heldFile.ReadAt] at one instant: [ReadFile] fills no more than the buffer. *)
Definition heldReadAt (w : Windows) (file off : Z) (n : nat) : result (list byte) :=
  if off <? 0 then Err (Plain "negative offset")
  else
    let '(data, e) := w_readFile w file (u32 off) (u32 (Z.shiftr off 32)) n in
    let data := take n data in
    match e with
    | None => if (length data <? n)%nat then Err (Sentinel IoEOF) else Ok data
    | Some (OSErr (EOTHER 38)) => Err (Sentinel IoEOF)
    | Some e => Err (Wrap "the file could not be read" [Sentinel errUnreadable; e])
    end.

(** The reader [versionSource] gives: each read at the next instant from [t]. *)
Definition heldSource (t : nat) (file : Z) (log : reads) (off : Z) (n : nat) : result (list byte) :=
  heldReadAt (K (t + length log)) file off n.

(** [heldVersion]: the reads, then the seek. Its parser never panics
    ([heldVersion_answers]). *)
Definition heldVersion (file : Z) : WM (result imageVersion) := λ s,
  let '(r, log) := readVersionResource (heldSource (wtick s) file) [] in
  (default (Err (Plain "panic")) r, mkWState (wtick s + length log + 1) (held s)).

Definition unreadable (r : result imageVersion) : bool :=
  match r with Err e => errors_is e errUnreadable | Ok _ => false end.

(** The version a read gives, the zero one on an error. *)
Definition versionOf (r : result imageVersion) : imageVersion :=
  match r with Ok v => v | Err _ => mkVersion "" "" end.

(** [verifyHeld]. *)
Definition verifyHeld (file : Z) (path : string) (revocation : bool) : WM (result (Code * Z)) :=
  before ← heldVersion file;
  x ← verifyTrust file path revocation;
  let '(code, verdict) := x in
  code ← withSigner code path;
  if negb (Trusted code) then mret (Ok (code, verdict))
  else
    after ← heldVersion file;
    if unreadable before || unreadable after
    then mret (Err (Wrap "the file's version resource could not be read"
                      [Join_ (match before with Err e => [e] | Ok _ => [] end ++ match after with Err e => [e] | Ok _ => [] end)]))
    else if negb (bool_decide (versionOf after = versionOf before)) || negb (Bool.eqb (is_ok before) (is_ok after))
    then mret (Err (Plain "the file's version resource changed during verification"))
    else mret (Ok (mkCode (Subject code) (Issuer code) (Trusted code) (Status code) (Catalog code)
                     (description (versionOf after)) (originalName (versionOf after)) (TeamID code), verdict)).

(** [verifyImage]. *)
Definition verifyImage (proc : Z) (imagePath : string) (opts : option Options) : WM (result (Code * Z)) :=
  long ← longImagePath imagePath;
  match long with
  | Err e => mret (Err e)
  | Ok imagePath =>
      match UTF16PtrFromString imagePath with
      | Err e => mret (Err e)
      | Ok path =>
          file ← wask K (λ w, w_createFile w path GENERIC_READ shareAll);
          match file with
          | Err e => mret (Err (Wrap "the image file could not be opened" [e]))
          | Ok file =>
              during (RFile file) (
                x ← verifyHeld file path (checkRevocation opts);
                match x with
                | Err e => mret (Err (Wrap "verification abandoned" [e]))
                | Ok x =>
                    moved ← stillSameImage proc file imagePath;
                    mret (match moved with Some e => Err (Wrap "verification abandoned" [e]) | None => Ok x end)
                end)
          end
      end
  end.

(** ** A path *)

(** A lettered drive's path from its root, cleaned as [filepath.Clean] cleans it:
    both separators part names. *)
Definition winClean (p : string) : string :=
  let names := clean_stack true (flat_map (λ c, Split c "/"%char) (Split (sdrop 3 p) "\"%char)) [] in
  stake 3 p +:+ Join names "\".

Definition byteAt (p : string) (i : nat) : Z := match String.get i p with Some c => Z.of_nat (code c) | None => 0 end.

(** [localDrivePath]: a path with a letter, a colon and a separator is absolute. *)
Definition localDrivePath (p : string) : bool :=
  if (slen p <? 4) || negb (byteAt p 1 =? 58) || negb (byteAt p 2 =? 92) || HasPrefix p "\\" then false
  else
    let letter := Z.lor (byteAt p 0) 0x20 in
    if (letter <? 97) || (122 <? letter) then false
    else String.eqb (winClean p) p.

(** [localDrive], of one answer of [GetDriveType]. *)
Definition localDrive (kind : Z) : bool := negb ((kind =? 4) || (kind =? 1) || (kind =? 0)).

(** [driveType]. *)
Definition driveType (w : Windows) (root : string) : Z :=
  match UTF16PtrFromString root with Ok root => w_driveType w root | Err _ => 0 end.

(** The guard [verifyPathFile] makes before the open and after it. *)
Definition onLocalDrive (p : string) : WM bool :=
  if negb (localDrivePath p) then mret false
  else kind ← wask K (λ w, driveType w (stake 3 p)); mret (localDrive kind).

(** [verifyPathFile], which is [VerifyFile] on Windows. *)
Definition verifyPathFile (path : string) (opts : option Options) : WM (result (Code * Z)) :=
  ok ← onLocalDrive path;
  if negb ok then mret (Err (Sentinel ErrNotLocalFile))
  else
    long ← longImagePath path;
    match long with
    | Err e => mret (Err (Wrap "the file could not be named" [e]))
    | Ok long =>
        match UTF16PtrFromString long with
        | Err _ => mret (Err (Sentinel ErrNotLocalFile))
        | Ok pathW =>
            file ← wask K (λ w, w_createFile w pathW GENERIC_READ verifyFileShare);
            match file with
            | Err e => mret (Err (Wrap "the file could not be opened" [e]))
            | Ok file =>
                during (RFile file) (
                  final ← handleFinalPath file;
                  match final with
                  | Err e => mret (Err e)
                  | Ok final =>
                      ok ← onLocalDrive final;
                      if negb ok then mret (Err (Sentinel ErrNotLocalFile))
                      else
                        x ← verifyHeld file pathW (checkRevocation opts);
                        match x with
                        | Err e => mret (Err (Wrap "verification abandoned" [e]))
                        | Ok x =>
                            moved ← stillSameFile file long;
                            mret (match moved with Some e => Err (Wrap "verification abandoned" [e]) | None => Ok x end)
                        end
                  end)
            end
        end
    end.
End Authenticode.
