(* ===== verification/AuthenticodeFacts.v ===== *)
(** What a code verdict of Windows rests on: a trusted verdict means Windows accepted
    the very file held open, the names come from two equal reads of it around the
    verification, the path still named it afterwards, and nothing taken on the way is
    kept. *)

From S2P Require Import Prelude GoBinary GoStrings GoError GoFilepath PathIdentity.
From S2P Require Import ProofLadder Peer VersionInfo VersionTree VersionImage WindowsOS Authenticode.

Section Facts.
Context (K : nat → Windows) (errText : err → string) (windowsDirectory : result string).

(** ** Calls that only ask *)

(** Asking changes nothing. *)
Definition anything {A} (_ : nat) (_ : A) (_ : nat) : Prop := True.

Lemma fair_any {A} K' (f : Windows → A) : fair (wask K' f) anything.
Proof. by apply fair_ask. Qed.

Lemma fair_longImagePath path : fair (longImagePath K path) anything.
Proof.
  unfold longImagePath. destruct (UTF16PtrFromString path); [|by apply fair_ret].
  eapply fair_bind; [apply fair_any|]. intros r t0 t1 Ht _. by apply fair_ret.
Qed.

(** The long name of [p] at an instant. *)
Definition longNameAt (t : nat) (p long : string) : Prop :=
  ∃ n units, w_longPath (K t) p = Ok (n, units) /\ bufferName "image path exceeds the buffer" n units = Ok long.

Lemma fair_longImagePath_name path : fair (longImagePath K path)
  (λ t r t', ∀ long, r = Ok long → t' = S t /\ longNameAt t path long).
Proof.
  unfold longImagePath, UTF16PtrFromString. destruct (contains_char _ path); [by apply fair_ret|].
  eapply (fair_bind _ _ (λ t r t', t' = S t /\ r = w_longPath (K t) path)); [apply fair_ask; auto|].
  intros r t0 t1 Ht [-> ->]. apply fair_ret. intros t -> long Hl. split; [done|].
  destruct (w_longPath (K t0) path) as [[n units]|e] eqn:E; [|done]. by exists n, units.
Qed.

Lemma fair_processImagePath proc : fair (processImagePath K proc)
  (λ t r t', ∀ p, r = Ok p → t' = S t /\ ∃ units, w_imagePath (K t) proc = Ok units /\ p = UTF16ToString units).
Proof.
  unfold processImagePath. eapply (fair_bind _ _ (λ t r t', t' = S t /\ r = w_imagePath (K t) proc)); [apply fair_ask; auto|].
  intros r t0 t1 Ht [-> ->]. apply fair_ret. intros t -> p Hp. split; [done|].
  destruct (w_imagePath (K t0) proc) as [units|e]; [|done]. injection Hp as <-. by exists units.
Qed.

(** [handleFinalPath] gives the name of the handle at an instant of its span. *)
Definition finalPathAt (t : nat) (file : Z) (p : string) : Prop :=
  ∃ n units, w_finalPath (K t) file = Ok (n, units) /\ bufferName "the verified file path exceeds the buffer" n units = Ok p.

Lemma fair_handleFinalPath file : fair (handleFinalPath K file)
  (λ t r t', ∀ p, r = Ok p → ∃ u, (t <= u < t')%nat /\ finalPathAt u file p).
Proof.
  unfold handleFinalPath. eapply (fair_bind _ _ (λ t r t', (t < t')%nat /\ r = w_finalPath (K t) file)); [apply fair_ask; auto|].
  intros r t0 t1 Ht [Hlt Hr]. apply fair_ret. intros t <- p Hp. exists t0. split; [lia|]. subst r.
  destruct (w_finalPath (K t0) file) as [[n units]|e] eqn:E; [|done]. by exists n, units.
Qed.

Lemma fair_any_final file : fair (handleFinalPath K file) anything.
Proof. eapply fair_mono; [|apply fair_handleFinalPath]. done. Qed.

(** The file is where it was: an instant at which the handle's name is the wanted
    one's file. *)
Definition stillAt (file : Z) (want : string) (t t' : nat) : Prop :=
  ∃ u v got, (t <= u < v)%nat /\ (v < t')%nat /\ finalPathAt u file got /\ samePath (K v) got want = true.

Lemma fair_stillSameFile file want : fair (stillSameFile K file want) (λ t e t', e = None → stillAt file want t t').
Proof.
  unfold stillSameFile. eapply fair_bind; [apply fair_handleFinalPath|]. intros r t0 t1 Ht Hr.
  destruct r as [got|e]; [|by apply fair_ret]. destruct (Hr got eq_refl) as (u & Hu & Hf). unfold sameFinalPath.
  eapply (fair_bind _ _ (λ t r t', t' = S t /\ r = samePath (K t) got want)); [apply fair_ask; auto|].
  intros same t2 t3 Ht2 [-> ->]. apply fair_ret. intros t -> -> He. exists u, t1, got. split_and!; [lia..|done|].
  by destruct (samePath (K t1) got want).
Qed.

(** The process still runs from the wanted file: the image the system names for it at
    one instant has, at a later one, a long name that is the wanted one's file. *)
Definition stillRuns (proc : Z) (want : string) (t t' : nat) : Prop :=
  ∃ u v units now, (t <= u < v)%nat /\ (S v < t')%nat /\ w_imagePath (K u) proc = Ok units /\
    longNameAt v (UTF16ToString units) now /\ samePath (K (S v)) now want = true.

Lemma fair_stillSameImage proc file want : fair (stillSameImage K proc file want)
  (λ t e t', e = None → stillRuns proc want t t' /\ stillAt file want t t').
Proof.
  unfold stillSameImage. eapply fair_bind; [apply fair_processImagePath|]. intros r t0 t1 Ht Hp.
  destruct r as [now|e]; [|by apply fair_ret]. destruct (Hp now eq_refl) as (-> & units & Hu & ->).
  eapply fair_bind; [apply fair_longImagePath_name|]. intros r t2 t3 Ht2 Hl.
  destruct r as [now'|e]; [|by apply fair_ret]. destruct (Hl now' eq_refl) as [-> Hln].
  eapply (fair_bind _ _ (λ t r t', t' = S t /\ r = samePath (K t) now' want)); [apply fair_ask; auto|].
  intros same t4 t5 Ht4 [-> ->]. destruct (samePath (K t4) now' want) eqn:Hs; [|by apply fair_ret].
  eapply fair_mono; [|apply fair_stillSameFile]. intros t e t' Htt Hst -> -> -> He. specialize (Hst He).
  destruct Hst as (u & v & got & Huv & Hv & Hf & Hsame). split.
  - exists t0, (S t0), units, now'. split_and!; [lia..|done|done|done].
  - exists u, v, got. split_and!; [lia..|done|done].
Qed.

(** ** The policy *)

(** Windows accepted [file] under the policy asked for, at an instant. *)
Definition acceptedAt (u : nat) (file : Z) (revocation : bool) : Prop :=
  ∃ s, subjectFile s = file /\ w_verifyTrust (K u) s (policyFlags revocation) = None.

Lemma fair_winTrust s revocation : fair (winTrust K s revocation)
  (λ t r t', r = None → ∃ u, (t <= u < t')%nat /\ acceptedAt u (subjectFile s) revocation).
Proof.
  unfold winTrust. apply fair_under. apply fair_ask. intros t Hr. exists t. split; [lia|]. by exists s.
Qed.

Lemma fair_certName cert flags : fair (certName K cert flags) anything.
Proof.
  unfold certName. eapply fair_bind; [apply fair_any|]. intros n t0 t1 Ht _. case_goal; [by apply fair_ret|].
  eapply fair_bind; [apply fair_any|]. intros u t2 t3 _ _. by apply fair_ret.
Qed.

Lemma fair_signerName path content : fair (signerName K path content) anything.
Proof.
  unfold signerName. eapply fair_bind; [apply fair_any|]. intros q t0 t1 Ht _. destruct q as [[[encoding store] msg]|e]; [|by apply fair_ret].
  do 2 apply fair_under. eapply fair_bind; [apply fair_any|]. intros n t2 t3 _ _. destruct n as [n|e]; [|by apply fair_ret].
  eapply fair_bind; [apply fair_any|]. intros info t4 t5 _ _. destruct info as [info|e]; [|by apply fair_ret].
  eapply fair_bind; [apply fair_any|]. intros cert t6 t7 _ _. destruct cert as [cert|e]; [|by apply fair_ret].
  apply fair_under. eapply fair_bind; [apply fair_certName|]. intros s t8 t9 _ _.
  eapply fair_bind; [apply fair_certName|]. intros i t10 t11 _ _. by apply fair_ret.
Qed.

(** A refusal is on the unsigned rung or the invalid one. *)
Lemma trustVerdict_rung e : (trustVerdict errText e).2 = ProofUnsigned \/ (trustVerdict errText e).2 = ProofInvalid.
Proof. unfold trustVerdict. repeat case_goal; auto. Qed.

(** ** The verdict *)

(** A trusted code was accepted within the span; any other is on a refusing rung. No
    names are in it yet. *)
Definition rung (file : Z) (revocation : bool) (t : nat) (x : Code * Z) (t' : nat) : Prop :=
  (if Trusted x.1 then x.2 = ProofBound /\ ∃ u, (t <= u < t')%nat /\ acceptedAt u file revocation
   else x.2 = ProofUnsigned \/ x.2 = ProofInvalid) /\
  Description x.1 = "" /\ OriginalName x.1 = "".

Lemma rung_mono file revocation t t0 x t1 t' : (t <= t0)%nat → (t1 <= t')%nat → rung file revocation t0 x t1 → rung file revocation t x t'.
Proof.
  intros H0 H1 [Hr Hn]. split; [|done]. destruct (Trusted x.1); [|done]. destruct Hr as (Hv & u & Hu & Ha).
  split; [done|]. exists u. split; [lia|done].
Qed.

Lemma named_trusted c r : Trusted (named_ c r) = Trusted c /\ Description (named_ c r) = Description c /\
  OriginalName (named_ c r) = OriginalName c /\ Catalog (named_ c r) = Catalog c.
Proof. by destruct r as [[]|]. Qed.

(** A member of a catalog: no error and no refusal is acceptance. *)
Lemma fair_catalogMember admin info tag hash file path revocation : fair (catalogMember K admin info tag hash file path revocation)
  (λ t x t', ∀ code, x = (code, None, None) → rung file revocation t (code, ProofBound) t').
Proof.
  unfold catalogMember. eapply fair_bind; [apply fair_any|]. intros ci t0 t1 Ht _. destruct ci as [units|e]; [|by apply fair_ret].
  eapply fair_bind; [apply fair_any|]. intros cat t2 t3 Ht2 _. destruct cat as [catalog|e]; [|by apply fair_ret].
  apply fair_under. eapply fair_bind; [apply fair_winTrust|]. intros refusal t4 t5 Ht4 Hr. cbn [subjectFile] in Hr.
  destruct refusal as [r|]; [by apply fair_ret|]. destruct (Hr eq_refl) as (u & Hu & Ha).
  eapply fair_bind; [apply fair_signerName|]. intros names t6 t7 Ht6 _.
  eapply fair_bind; [apply fair_stillSameFile|]. intros moved t8 t9 Ht8 _. destruct moved as [e|]; [by apply fair_ret|].
  apply fair_ret. intros t -> -> -> -> -> code [= <-]. unfold rung. cbn [fst snd].
  destruct (named_trusted (mkCode "" "" true "valid, signed through a system catalog" true "" "" "") names) as (-> & -> & -> & _).
  split; [|done]. split; [done|]. exists u. split; [lia|done].
Qed.

(** The context the loop keeps. *)
Definition keeping (prev : Z) (h : list resource) : list resource := if prev =? 0 then h else RCatalog prev :: h.

(** Letting it go. *)
Lemma let_go prev h t : ∃ t', (t <= t')%nat /\
  (if negb (prev =? 0) then release_ (RCatalog prev) else mret tt) (mkWState t (keeping prev h)) = (tt, mkWState t' h).
Proof.
  unfold keeping. destruct (Z.eqb_spec prev 0); cbn; [by exists t|]. exists (S t). split; [lia|].
  unfold release_. cbn. by rewrite decide_True.
Qed.

(** What the catalogs said: acceptance, a refusal on the invalid rung, or nothing. *)
Definition listing (file : Z) (revocation : bool) (t : nat) (x : Code * Z * bool) (t' : nat) : Prop :=
  x.2 = true → rung file revocation t x.1 t'.

Lemma catalogTail_spec file revocation prev refusal h t0 t :
  (t0 <= t)%nat → (∀ r, refusal = Some r → (trustVerdict errText r).2 ≠ ProofUnsigned) →
  wwp (catalogTail errText prev refusal) (λ x s', (t <= wtick s')%nat /\ held s' = h /\ listing file revocation t0 x (wtick s')) (mkWState t (keeping prev h)).
Proof.
  intros Ht Hr. unfold catalogTail. apply wwp_bind. unfold wwp at 1. destruct (let_go prev h t) as (t' & Ht' & ->). cbn [fst snd].
  apply wwp_ret. split_and!; [done|done|]. destruct refusal as [r|]; [|done]. specialize (Hr r eq_refl).
  destruct (trustVerdict_rung r) as [Hu|Hi]; [done|]. destruct (trustVerdict errText r) as [status verdict]. cbn in *.
  intros _. split; cbn; [by right|done].
Qed.

Lemma keepRefusal_ok refused refusal : (∀ r, refusal = Some r → (trustVerdict errText r).2 ≠ ProofUnsigned) →
  ∀ r, keepRefusal errText refused refusal = Some r → (trustVerdict errText r).2 ≠ ProofUnsigned.
Proof.
  intros Hr r. unfold keepRefusal. destruct refused as [q|], refusal as [q'|]; intros Hk; try (by apply Hr); try done.
  destruct (Z.eqb_spec (trustVerdict errText q).2 ProofUnsigned) as [|Hne]; [done|]. cbn in Hk. by injection Hk as <-.
Qed.

Lemma catalogLoop_spec n admin tag hash file path revocation h : ∀ prev refusal t0 t, (t0 <= t)%nat →
  (∀ r, refusal = Some r → (trustVerdict errText r).2 ≠ ProofUnsigned) →
  wwp (catalogLoop K errText n admin tag hash file path revocation prev refusal)
    (λ x s', (t <= wtick s')%nat /\ held s' = h /\ listing file revocation t0 x (wtick s')) (mkWState t (keeping prev h)).
Proof.
  induction n as [|n IH]; intros prev refusal t0 t Ht Hr; cbn [catalogLoop]; [by apply catalogTail_spec|].
  apply wwp_bind. unfold cryptCATAdminEnumCatalogFromHash. apply wwp_bind. unfold wwp at 1, wask. cbn [fst snd wtick held].
  set (info := w_enumCatalog (K t) admin hash prev). apply wwp_bind. unfold wwp at 1.
  destruct (let_go prev h (S t)) as (t1 & Ht1 & ->). cbn [fst snd]. apply wwp_bind.
  destruct (Z.eqb_spec info 0) as [Hz|Hz]; cbn [negb].
  - apply wwp_ret, wwp_ret. rewrite Hz. cbn [Z.eqb].
    eapply wwp_mono; [|apply (catalogTail_spec file revocation 0 refusal h t0 t1); [lia|done]]. intros x s' (? & ? & ?). split_and!; [lia|done|done].
  - unfold wwp at 1, hold. cbn [fst snd wtick held]. apply wwp_ret.
    destruct (Z.eqb_spec info 0); [done|]. apply wwp_bind. eapply wwp_mono; [|apply fair_catalogMember].
    intros [[code refused] e] [t2 held2] [[Ht2 Hh2] Hm]. cbn [wtick held] in *. subst held2.
    assert (RCatalog info :: h = keeping info h) as Hkeep by (unfold keeping; by destruct (Z.eqb_spec info 0)).
    assert (∀ refusal', (∀ r, refusal' = Some r → (trustVerdict errText r).2 ≠ ProofUnsigned) →
      wwp (catalogLoop K errText n admin tag hash file path revocation info refusal')
        (λ x s', (t <= wtick s')%nat /\ held s' = h /\ listing file revocation t0 x (wtick s')) (mkWState t2 (RCatalog info :: h))) as Hnext.
    { intros refusal' Hr'. rewrite Hkeep. eapply wwp_mono; [|apply (IH info refusal' t0 t2); [lia|done]].
      intros x s' (? & ? & ?). split_and!; [lia|done|done]. }
    destruct refused as [r|]; [apply Hnext, keepRefusal_ok, Hr|]. destruct e as [e|]; [apply Hnext, keepRefusal_ok, Hr|].
    apply wwp_bind. unfold wwp at 1, release_. cbn [fst snd wtick held release_first]. rewrite decide_True by done. apply wwp_ret.
    split_and!; [cbn; lia|done|]. intros _. eapply rung_mono; [| |by apply Hm]; cbn [wtick]; lia.
Qed.

Lemma fair_verifyCatalog file path revocation : fair (verifyCatalog K errText file path revocation) (listing file revocation).
Proof.
  unfold verifyCatalog. eapply (fair_bind _ _ anything).
  { unfold cryptCATAdminAcquireContext2. destruct (UTF16PtrFromString catalogHash); [|by apply fair_ret].
    eapply fair_bind; [apply fair_any|]. intros [[r1 admin] e1] t0 t1 _ _. by apply fair_ret. }
  intros admin t0 t1 Ht _. destruct admin as [admin|e]; [|by apply fair_ret]. apply fair_under.
  eapply (fair_bind _ _ anything).
  { unfold cryptCATAdminCalcHashFromFileHandle2. eapply fair_bind; [apply fair_any|]. intros [[[r1 e1] n] hash] t2 t3 _ _. by apply fair_ret. }
  intros hash t2 t3 Ht2 _. destruct hash as [hash|e]; [|by apply fair_ret].
  destruct (UTF16PtrFromString (memberTag hash)) as [tag|e]; [|by apply fair_ret].
  intros [t h]. eapply wwp_mono; [|apply (catalogLoop_spec maxCatalogs admin tag hash file path revocation h 0 None t t); [done|done]].
  intros x s' (Hle & Hh & Hl). cbn [wtick held]. split; [by split|]. intros -> -> Hx. eapply rung_mono; [| |by apply Hl]; lia.
Qed.

Lemma fair_windowsDirectoryOnce : fair (windowsDirectoryOnce K) anything.
Proof.
  unfold windowsDirectoryOnce. eapply fair_bind; [apply fair_any|]. intros dir t0 t1 _ _. destruct dir as [dir|e]; [|by apply fair_ret].
  destruct (UTF16PtrFromString dir) as [p|e]; [|by apply fair_ret]. eapply fair_bind; [apply fair_any|]. intros h t2 t3 _ _.
  destruct h as [h|e]; [|by apply fair_ret]. apply fair_under. eapply fair_mono; [|apply fair_any_final]. done.
Qed.

Lemma fair_inWindowsDirectory file : fair (inWindowsDirectory K windowsDirectory file) anything.
Proof.
  unfold inWindowsDirectory. destruct windowsDirectory; [|by apply fair_ret]. eapply fair_bind; [apply fair_any_final|].
  intros r t0 t1 _ _. destruct r; [|by apply fair_ret]. eapply fair_bind; [apply fair_any|]. intros i t2 t3 _ _. by apply fair_ret.
Qed.

Lemma fair_verifyTrust file path revocation : fair (verifyTrust K errText windowsDirectory file path revocation) (rung file revocation).
Proof.
  unfold verifyTrust. eapply fair_bind; [apply fair_winTrust|]. intros refused t0 t1 Ht Hr. cbn [subjectFile] in Hr.
  destruct refused as [e|].
  - pose proof (trustVerdict_rung e) as Hrung. destruct (trustVerdict errText e) as [status verdict]. cbn [snd] in Hrung.
    assert (∀ t t', rung file revocation t (mkCode "" "" false status false "" "" "", verdict) t') as Hother by (intros t t'; split; cbn; auto).
    destruct (verdict =? ProofUnsigned); [|by apply fair_ret]. eapply fair_bind; [apply fair_inWindowsDirectory|].
    intros inside t2 t3 Ht2 _. destruct inside; [|by apply fair_ret]. eapply fair_bind; [apply fair_verifyCatalog|].
    intros [[code v] listed] t4 t5 Ht4 Hl. apply fair_ret. intros t -> -> ->. destruct listed; [|done].
    eapply rung_mono; [| |by apply Hl]; lia.
  - destruct (Hr eq_refl) as (u & Hu & Ha). apply fair_ret. intros t ->. split; cbn; [|done]. split; [done|]. exists u. split; [lia|done].
Qed.

(** ** The names *)

(** What the version resource of [file] reads as, from instant [t] on. *)
Definition versionAt (t : nat) (file : Z) (r : result imageVersion) : Prop :=
  ∃ log, readVersionResource (heldSource K t file) [] = (Some r, log) /\ (length log <= 12)%nat.

Lemma heldReadAt_full w file off n buf : heldReadAt w file off n = Ok buf → length buf = n.
Proof.
  unfold heldReadAt. destruct (off <? 0); [done|]. destruct (w_readFile w file _ _ n) as [data e].
  destruct e as [e|].
  - destruct e as [| []| | | | | | |]; try done. destruct (decide (n0 = 38)) as [->|]; [done|]. by repeat case_goal.
  - destruct (Nat.ltb_spec (length (take n data)) n); [done|]. intros [= <-]. pose proof (firstn_le_length n data). lia.
Qed.

Lemma heldVersion_answers t file : ∃ r, versionAt t file r.
Proof.
  destruct (spends_resource (heldSource K t file)) with (log := @nil (Z * nat)) as (r & new & Heq & Hk & _).
  - intros log off n buf. apply heldReadAt_full.
  - by exists r, new.
Qed.

Lemma fair_heldVersion file : fair (heldVersion K file) (λ t r t', (t < t')%nat /\ versionAt t file r).
Proof.
  intros [t h]. unfold wwp, heldVersion. destruct (heldVersion_answers t file) as (r & log & Heq & Hk). cbn [wtick]. rewrite Heq.
  cbn. split; [split; cbn; [lia|done]|]. split; [lia|]. by exists log.
Qed.

(** The names of a trusted file: two reads, one before Windows accepted it and one
    after, gave the same answer, and neither failed. *)
Definition namedBy (file : Z) (revocation : bool) (t : nat) (code : Code) (t' : nat) : Prop :=
  ∃ tb u ta before after, (t <= tb < u)%nat /\ (u < ta < t')%nat /\
    versionAt tb file before /\ acceptedAt u file revocation /\ versionAt ta file after /\
    unreadable before = false /\ unreadable after = false /\ is_ok before = is_ok after /\
    mkVersion (Description code) (OriginalName code) = versionOf before /\ versionOf before = versionOf after.

(** What [verifyHeld] vouches for. *)
Definition vouched (file : Z) (revocation : bool) (t : nat) (x : Code * Z) (t' : nat) : Prop :=
  if Trusted x.1 then x.2 = ProofBound /\ namedBy file revocation t x.1 t'
  else (x.2 = ProofUnsigned \/ x.2 = ProofInvalid) /\ Description x.1 = "" /\ OriginalName x.1 = "".

Lemma vouched_mono file revocation t t0 x t1 t' : (t <= t0)%nat → (t1 <= t')%nat → vouched file revocation t0 x t1 → vouched file revocation t x t'.
Proof.
  intros H0 H1. unfold vouched. destruct (Trusted x.1); [|done]. intros (Hv & tb & u & ta & b & a & ? & ? & Hrest).
  split; [done|]. exists tb, u, ta, b, a. split; [lia|]. split; [lia|]. exact Hrest.
Qed.

Lemma fair_withSigner c path : fair (withSigner K c path)
  (λ _ c' _, Trusted c' = Trusted c /\ Description c' = Description c /\ OriginalName c' = OriginalName c).
Proof.
  unfold withSigner. destruct (_ || _); [by apply fair_ret|]. eapply fair_bind; [apply fair_signerName|].
  intros r t0 t1 _ _. apply fair_ret. intros t _. destruct (named_trusted c r) as (-> & -> & -> & _). done.
Qed.

Lemma fair_verifyHeld file path revocation : fair (verifyHeld K errText windowsDirectory file path revocation)
  (λ t r t', ∀ x, r = Ok x → vouched file revocation t x t').
Proof.
  unfold verifyHeld. eapply fair_bind; [apply fair_heldVersion|]. intros before t0 t1 Ht [Hlt Hb].
  eapply fair_bind; [apply fair_verifyTrust|]. intros [code verdict] t2 t3 Ht2 [Hr Hn]. cbn [fst snd] in *.
  eapply fair_bind; [apply fair_withSigner|]. intros code' t4 t5 Ht4 (Htr & Hd & Ho).
  destruct (Trusted code') eqn:Htrust; cbn [negb].
  - eapply fair_bind; [apply fair_heldVersion|]. intros after t6 t7 Ht6 [Hlt6 Ha].
    destruct (unreadable before || unreadable after) eqn:Hun; [by apply fair_ret|].
    apply orb_false_iff in Hun as [Hub Hua]. destruct (_ || _) eqn:Hch; [by apply fair_ret|].
    apply orb_false_iff in Hch as [Hv%negb_false_iff%bool_decide_eq_true Hok%negb_false_iff%Bool.eqb_prop].
    apply fair_ret. intros t -> -> -> -> x [= <-]. unfold vouched. cbn [fst snd Trusted].
    rewrite <- Htr in Hr. destruct Hr as (-> & u & Hu & Hacc). split; [done|].
    exists t0, u, t5, before, after. split_and!; [lia..|done|done|done|done|done|done| |by rewrite Hv]. cbn. rewrite Hv. by destruct (versionOf before).
  - apply fair_ret. intros t -> -> -> x [= <-]. unfold vouched. cbn [fst snd]. rewrite Htrust. rewrite <- Htr in Hr.
    destruct Hn as [Hn1 Hn2]. split; [done|]. by rewrite Hd, Ho.
Qed.

(** ** The two verifications *)

(** A verdict on an open file, and that the name was its own throughout: accepted
    after it was opened as [want] with [share], and checked again afterwards by
    [again]. *)
Definition verified (path : string) (share : Z) (opts : option Options) (again : Z → string → nat → nat → Prop)
  (t : nat) (x : Code * Z) (t' : nat) : Prop :=
  ∃ t0 t1 t2 want file, (t <= t0 < t1)%nat /\ (t1 <= t2 <= t')%nat /\
    longNameAt t0 path want /\ w_createFile (K (S t0)) want GENERIC_READ share = Ok file /\
    vouched file (checkRevocation opts) (S (S t0)) x t1 /\ again file want t1 t2.

Lemma createFile_at path share : fair (wask K (λ w, w_createFile w path GENERIC_READ share))
  (λ t r t', t' = S t /\ r = w_createFile (K t) path GENERIC_READ share).
Proof. apply fair_ask. auto. Qed.

Lemma UTF16Ptr_same p q : UTF16PtrFromString p = Ok q → q = p.
Proof. unfold UTF16PtrFromString. destruct (contains_char _ p); congruence. Qed.

Lemma fair_verifyImage proc imagePath opts : fair (verifyImage K errText windowsDirectory proc imagePath opts)
  (λ t r t', ∀ x, r = Ok x → verified imagePath shareAll opts (λ file want t1 t2, stillRuns proc want t1 t2 /\ stillAt file want t1 t2) t x t').
Proof.
  unfold verifyImage. eapply fair_bind; [apply fair_longImagePath_name|]. intros long t0 t1 Ht Hlong.
  destruct long as [want|e]; [|by apply fair_ret]. destruct (Hlong want eq_refl) as [-> Hl].
  destruct (UTF16PtrFromString want) as [p|e] eqn:Hptr; [|by apply fair_ret]. apply UTF16Ptr_same in Hptr as ->.
  eapply fair_bind; [apply createFile_at|]. intros r t2 t3 Ht2 [-> ->].
  destruct (w_createFile (K t2) want GENERIC_READ shareAll) as [file|e] eqn:Hopen; [|by apply fair_ret]. apply fair_under.
  eapply fair_bind; [apply fair_verifyHeld|]. intros x t4 t5 Ht4 Hx. destruct x as [x|e]; [|by apply fair_ret].
  eapply fair_bind; [apply fair_stillSameImage|]. intros moved t6 t7 Ht6 Hm. destruct moved as [e|]; [by apply fair_ret|].
  apply fair_ret. intros t -> -> -> -> y [= <-]. exists t0, t5, t7, want, file.
  destruct (Hm eq_refl) as [H1 H2]. specialize (Hx x eq_refl). split_and!; [lia..|done|done|done|done|done].
Qed.

(** The rungs a verdict is on: trusted code at [ProofBound], any other code below every
    rung that implies verification. *)
Definition verdictRung (x : Code * Z) : Prop :=
  if Trusted x.1 then x.2 = ProofBound else x.2 = ProofUnsigned \/ x.2 = ProofInvalid.

Lemma verifyImage_rung proc imagePath opts s x : (verifyImage K errText windowsDirectory proc imagePath opts s).1 = Ok x → verdictRung x.
Proof.
  intros Hr. pose proof (fair_verifyImage proc imagePath opts s) as Hf. unfold wwp in Hf. destruct Hf as [_ Hx].
  destruct (Hx x Hr) as (t0 & t1 & t2 & want & file & _ & _ & _ & _ & Hv & _). unfold vouched in Hv. unfold verdictRung.
  destruct (Trusted x.1); apply Hv.
Qed.

(** C11: A code verdict on a process's image is evidence about one file. When [verifyImage] answers, the file was opened under
    the image's long name and held; a trusted verdict means Windows accepted that open file itself, or that open file as the
    member of a catalog, under the revocation policy asked for; its names were read from that file once before the
    acceptance and once after, whole and with one answer; and afterwards the process's image and the handle both still
    named the file of that long name. Anything not trusted is on the unsigned or the invalid rung and carries no names.
    Whatever the outcome, every handle, context, message, store and trust state taken is given back. *)
Theorem verify_image_evidence proc imagePath opts s :
  let '(r, s') := verifyImage K errText windowsDirectory proc imagePath opts s in
  held s' = held s /\
  match r with
  | Ok x => verified imagePath shareAll opts (λ file want t1 t2, stillRuns proc want t1 t2 /\ stillAt file want t1 t2) (wtick s) x (wtick s')
  | Err _ => True
  end.
Proof.
  pose proof (fair_verifyImage proc imagePath opts s) as Hf. unfold wwp in Hf.
  destruct (verifyImage K errText windowsDirectory proc imagePath opts s) as [r s']. destruct Hf as [[_ Hh] Hx].
  split; [done|]. destruct r; [by apply Hx|done].
Qed.

(** A path on a lettered drive the system calls local, at an instant. *)
Definition driveLocalAt (t : nat) (p : string) : Prop := localDrivePath p = true /\ localDrive (driveType (K t) (stake 3 p)) = true.

Lemma fair_onLocalDrive p : fair (onLocalDrive K p) (λ t r t', r = true → (t < t')%nat /\ driveLocalAt t p).
Proof.
  unfold onLocalDrive. destruct (localDrivePath p) eqn:Hp; cbn [negb]; [|by apply fair_ret].
  eapply (fair_bind _ _ (λ t r t', (t < t')%nat /\ r = driveType (K t) (stake 3 p))); [apply fair_ask; auto|].
  intros kind t0 t1 Ht [Hlt ->]. apply fair_ret. intros t -> Hk. by split.
Qed.

(** The file a path leads to is on a local drive when it is verified. *)
Definition leadsLocal (file : Z) (t t' : nat) : Prop :=
  ∃ u v final, (t <= u < v)%nat /\ (v < t')%nat /\ finalPathAt u file final /\ driveLocalAt v final.

Lemma fair_verifyPathFile path opts : fair (verifyPathFile K errText windowsDirectory path opts)
  (λ t r t', ∀ x, r = Ok x → (∃ u, (t <= u < t')%nat /\ driveLocalAt u path) /\ ∃ t0 t1 t2 t3 want file,
     (t <= t0 < t1)%nat /\ (t1 <= t2 <= t3)%nat /\ (t3 <= t')%nat /\ longNameAt t0 path want /\
     w_createFile (K (S t0)) want GENERIC_READ verifyFileShare = Ok file /\ leadsLocal file (S (S t0)) t1 /\
     vouched file (checkRevocation opts) t1 x t2 /\ stillAt file want t2 t3).
Proof.
  unfold verifyPathFile. eapply fair_bind; [apply fair_onLocalDrive|]. intros ok t0 t1 Ht Hd. destruct ok; [|by apply fair_ret].
  destruct (Hd eq_refl) as [Hlt Hd0]. cbn [negb].
  eapply fair_bind; [apply fair_longImagePath_name|]. intros long t2 t3 Ht2 Hlong.
  destruct long as [want|e]; [|by apply fair_ret]. destruct (Hlong want eq_refl) as [-> Hl].
  destruct (UTF16PtrFromString want) as [p|e] eqn:Hptr; [|by apply fair_ret]. apply UTF16Ptr_same in Hptr as ->.
  eapply fair_bind; [apply createFile_at|]. intros r t4 t5 Ht4 [-> ->].
  destruct (w_createFile (K t4) want GENERIC_READ verifyFileShare) as [file|e] eqn:Hopen; [|by apply fair_ret]. apply fair_under.
  eapply fair_bind; [apply fair_handleFinalPath|]. intros final t6 t7 Ht6 Hf. destruct final as [final|e]; [|by apply fair_ret].
  destruct (Hf final eq_refl) as (u & Hu & Hfin).
  eapply fair_bind; [apply fair_onLocalDrive|]. intros ok t8 t9 Ht8 Hd8. destruct ok; [|by apply fair_ret].
  destruct (Hd8 eq_refl) as [Hlt8 Hdf]. cbn [negb].
  eapply fair_bind; [apply fair_verifyHeld|]. intros x t10 t11 Ht10 Hx. destruct x as [x|e]; [|by apply fair_ret].
  eapply fair_bind; [apply fair_stillSameFile|]. intros moved t12 t13 Ht12 Hm. destruct moved as [e|]; [by apply fair_ret|].
  apply fair_ret. intros t -> -> -> -> -> -> -> y [= <-]. split; [exists t0; split; [lia|done]|].
  exists t1, t9, t11, t13, want, file. split_and!; [lia..|done|done| |by apply Hx|by apply Hm].
  exists u, t7, final. split_and!; [lia..|done|done].
Qed.

(** [VerifyFile] opens only a clean absolute path on a lettered drive that the system calls local: any other path is
    refused with ErrNotLocalFile before the system is asked anything. When it answers, the file it opened, without write
    sharing, led to such a drive too, and the verdict is evidence about that open file, which was still at the path
    afterwards; whatever the outcome, everything taken is given back. *)
Theorem verify_file_evidence path opts s :
  let '(r, s') := verifyPathFile K errText windowsDirectory path opts s in
  held s' = held s /\
  (localDrivePath path = false → r = Err (Sentinel ErrNotLocalFile) /\ s' = s) /\
  match r with
  | Ok x => (∃ u, (wtick s <= u < wtick s')%nat /\ driveLocalAt u path) /\ ∃ t0 t1 t2 t3 want file,
      (wtick s <= t0 < t1)%nat /\ (t1 <= t2 <= t3)%nat /\ (t3 <= wtick s')%nat /\ longNameAt t0 path want /\
      w_createFile (K (S t0)) want GENERIC_READ verifyFileShare = Ok file /\ leadsLocal file (S (S t0)) t1 /\
      vouched file (checkRevocation opts) t1 x t2 /\ stillAt file want t2 t3
  | Err _ => True
  end.
Proof.
  pose proof (fair_verifyPathFile path opts s) as Hf. unfold wwp in Hf.
  assert (localDrivePath path = false → verifyPathFile K errText windowsDirectory path opts s = (Err (Sentinel ErrNotLocalFile), s)) as Hno
    by (intros Hp; unfold verifyPathFile, onLocalDrive; by rewrite Hp).
  destruct (verifyPathFile K errText windowsDirectory path opts s) as [r s']. destruct Hf as [[_ Hh] Hx].
  split_and!; [done|intros Hp; by injection (Hno Hp) as -> ->|]. destruct r; [by apply Hx|done].
Qed.
End Facts.
