(* ===== verification/VerdictCache.v ===== *)
(** verdicts_windows.go: code verdicts kept for five minutes for a process instance,
    at most 256 of them, each with a handle of its own to the process; and one
    verification at a time for a key, whose outcome every caller waiting for it gets.

    The callers are threads of one state, and a step is what one of them does under
    the lock, or between two such spans. The clock may read anything at any step. *)

From S2P Require Import Prelude GoStrings GoError ProofLadder Peer.

Definition codeVerdictLifetime : Duration := 5 * 60 * 1000000000.
Definition codeVerdictLimit : nat := 256.

(** [codeVerdictKey]: the process id, its start, the image path, and whether
    revocation is checked. *)
Abbreviation verdictKey := (Z * Z * string * bool)%type.

(** [codeVerdict]; a handle is the number of the duplication that made it. *)
Record codeVerdict := mkVerdict { vproc : nat; vcode : Code; vrung : Z; vat : Time }.

(** What a verification ends with: the verdict and when it was reached, or an error. *)
Abbreviation outcome := (result (Code * Z * Time)).

(** A caller: waiting for the verification [id] of [k], running it (verifying, keeping
    the verdict, or handing it out), or done. *)
Inductive verdictCaller :=
| Waiting (id : nat) (k : verdictKey)
| Verifying (id : nat) (k : verdictKey)
| Keeping (id : nat) (k : verdictKey) (x : Code * Z * Time)
| Storing (id : nat) (k : verdictKey) (x : Code * Z * Time) (h : nat)
| Finishing (id : nat) (k : verdictKey) (o : outcome)
| Answered (k : verdictKey) (o : outcome).

(** [codeVerdicts] and the callers: [finished] is what a closed [done] channel
    guards, [open_] the process handles held, and [proven] every verdict a
    verification has reached, with its key. *)
Record verdicts := mkVerdicts {
  entries : gmap verdictKey codeVerdict;
  working : gmap verdictKey nat;
  finished : gmap nat (verdictKey * outcome);
  callers : list verdictCaller;
  open_ : list nat;
  handles : nat;
  ids : nat;
  proven : list (verdictKey * (Code * Z * Time))
}.

(** Nothing kept and nobody calling. *)
Definition noVerdicts : verdicts := mkVerdicts ∅ ∅ ∅ [] [] 0 0 [].

Definition setCaller (i : nat) (c : verdictCaller) (s : verdicts) : verdicts :=
  mkVerdicts (entries s) (working s) (finished s) (<[i := c]> (callers s)) (open_ s) (handles s) (ids s) (proven s).

Definition addCaller (c : verdictCaller) (s : verdicts) : verdicts :=
  mkVerdicts (entries s) (working s) (finished s) (callers s ++ [c]) (open_ s) (handles s) (ids s) (proven s).

(** [windows.CloseHandle] of a process handle. *)
Fixpoint closeHandle (h : nat) (l : list nat) : list nat :=
  match l with
  | [] => []
  | x :: l => if decide (h = x) then l else x :: closeHandle h l
  end.

(** [dropVerdict]. *)
Definition dropVerdict (k : verdictKey) (e : codeVerdict) (s : verdicts) : verdicts :=
  mkVerdicts (delete k (entries s)) (working s) (finished s) (callers s) (closeHandle (vproc e) (open_ s)) (handles s) (ids s)
    (proven s).

(** Whether a kept verdict may be reused at [now]. *)
Definition reusable (now at_ : Time) : bool := (TimeSub now at_ <? codeVerdictLifetime) && negb (Before now at_).

(** The rest of the first span under the lock: wait for the verification of the key,
    or begin it. *)
Definition join (k : verdictKey) (s : verdicts) : verdicts :=
  match working s !! k with
  | Some id => addCaller (Waiting id k) s
  | None =>
      let id := ids s in
      mkVerdicts (entries s) (<[k := id]> (working s)) (finished s) (callers s ++ [Verifying id k]) (open_ s) (handles s) (S id)
        (proven s)
  end.

(** [verifyProcessImageAt] up to the verification, or to the answer. *)
Definition verifyProcessImageAt (now : Time) (k : verdictKey) (s : verdicts) : verdicts :=
  match entries s !! k with
  | Some e =>
      if reusable now (vat e) then addCaller (Answered k (Ok (vcode e, vrung e, vat e))) s
      else join k (dropVerdict k e s)
  | None => join k s
  end.

(** The verification ends: a verdict gets its time. *)
Definition verified_ (i id : nat) (k : verdictKey) (c : Code) (rung : Z) (now : Time) (s : verdicts) : verdicts :=
  let s := setCaller i (Keeping id k (c, rung, now)) s in
  mkVerdicts (entries s) (working s) (finished s) (callers s) (open_ s) (handles s) (ids s) ((k, (c, rung, now)) :: proven s).

(** [keepVerdict] up to the lock: a handle of its own, which must name the process of
    the key; [dup] and [started] are what the system answers. *)
Definition keepBegin (i id : nat) (k : verdictKey) (x : Code * Z * Time) (dup : bool) (started : result Z) (s : verdicts) : verdicts :=
  if negb dup then setCaller i (Finishing id k (Ok x)) s
  else
    let h := handles s in
    let s := mkVerdicts (entries s) (working s) (finished s) (callers s) (h :: open_ s) (S h) (ids s) (proven s) in
    match started with
    | Ok t => if t =? k.1.1.2 then setCaller i (Storing id k x h) s else
        setCaller i (Finishing id k (Ok x))
          (mkVerdicts (entries s) (working s) (finished s) (callers s) (closeHandle h (open_ s)) (handles s) (ids s) (proven s))
    | Err _ =>
        setCaller i (Finishing id k (Ok x))
          (mkVerdicts (entries s) (working s) (finished s) (callers s) (closeHandle h (open_ s)) (handles s) (ids s) (proven s))
    end.

(** The sweep of [keepVerdict] over the keys in the order Go gives them: what is gone
    or too old is dropped, and the oldest of the rest is remembered. *)
Fixpoint sweep (gone : nat → bool) (now : Time) (order : list verdictKey) (oldest : option (verdictKey * Time)) (s : verdicts)
  : option (verdictKey * Time) * verdicts :=
  match order with
  | [] => (oldest, s)
  | k :: order =>
      match entries s !! k with
      | None => sweep gone now order oldest s
      | Some e =>
          if gone (vproc e) || (codeVerdictLifetime <=? TimeSub now (vat e)) || Before now (vat e)
          then sweep gone now order oldest (dropVerdict k e s)
          else
            let oldest := match oldest with
                          | None => Some (k, vat e)
                          | Some (_, at_) => if IsZero at_ || Before (vat e) at_ then Some (k, vat e) else oldest
                          end in
            sweep gone now order oldest s
      end
  end.

(** [keepVerdict] under the lock. *)
Definition keepVerdict (i id : nat) (k : verdictKey) (x : Code * Z * Time) (h : nat) (gone : nat → bool) (order : list verdictKey)
  (s : verdicts) : verdicts :=
  let s := match entries s !! k with Some old => dropVerdict k old s | None => s end in
  let '(oldest, s) := sweep gone x.2 order None s in
  let s := if (codeVerdictLimit <=? size (entries s))%nat then
             match oldest with
             | Some (o, _) => match entries s !! o with Some e => dropVerdict o e s | None => s end
             | None => s
             end
           else s in
  setCaller i (Finishing id k (Ok x))
    (mkVerdicts (<[k := mkVerdict h x.1.1 x.1.2 x.2]> (entries s)) (working s) (finished s) (callers s) (open_ s) (handles s) (ids s)
       (proven s)).

(** The deferred end: the outcome is handed out and the verification is over. *)
Definition handOut (i id : nat) (k : verdictKey) (o : outcome) (s : verdicts) : verdicts :=
  setCaller i (Answered k o)
    (mkVerdicts (entries s) (delete k (working s)) (<[id := (k, o)]> (finished s)) (callers s) (open_ s) (handles s) (ids s)
       (proven s)).

Inductive cstep : verdicts → verdicts → Prop :=
| v_call now k s : cstep s (verifyProcessImageAt now k s)
| v_verified i id k c rung now s : callers s !! i = Some (Verifying id k) → cstep s (verified_ i id k c rung now s)
| v_refused i id k e s : callers s !! i = Some (Verifying id k) → cstep s (setCaller i (Finishing id k (Err e)) s)
| v_kept i id k x dup started s : callers s !! i = Some (Keeping id k x) → cstep s (keepBegin i id k x dup started s)
| v_stored i id k x h gone order s : callers s !! i = Some (Storing id k x h) → order ≡ₚ (map_to_list (entries s)).*1 →
    cstep s (keepVerdict i id k x h gone order s)
| v_handOut i id k o s : callers s !! i = Some (Finishing id k o) → cstep s (handOut i id k o s)
| v_woken i id k o s : callers s !! i = Some (Waiting id k) → finished s !! id = Some (k, o) →
    cstep s (setCaller i (Answered k o) s).

Inductive creachable : verdicts → Prop :=
| v_start : creachable noVerdicts
| v_next s s' : creachable s → cstep s s' → creachable s'.

(** ** Handles *)

Definition entryHandles (m : gmap verdictKey codeVerdict) : list nat := map (λ p, vproc p.2) (map_to_list m).

Definition callerHandles (cs : list verdictCaller) : list nat := omap (λ c, match c with Storing _ _ _ h => Some h | _ => None end) cs.

(** Every handle open is one entry's or one caller's, and each of them is open. *)
Definition handles_ok (s : verdicts) : Prop :=
  open_ s ≡ₚ entryHandles (entries s) ++ callerHandles (callers s) /\ NoDup (open_ s) /\ Forall (λ h, h < handles s)%nat (open_ s).

Lemma closeHandle_perm h l r : l ≡ₚ h :: r → closeHandle h l ≡ₚ r.
Proof.
  revert r. induction l as [|x l IH]; intros r Hp; [by apply Permutation_nil_cons in Hp|]. cbn. destruct (decide (h = x)) as [->|Hne].
  - by apply Permutation_cons_inv in Hp.
  - assert (x ∈ r) as Hx by (assert (x ∈ h :: r) as [->|?]%elem_of_cons by (rewrite <- Hp; by left); done).
    apply elem_of_Permutation in Hx as (r' & Hr). rewrite Hr. constructor. apply IH.
    apply (Permutation_cons_inv (a := x)). rewrite Hp, Hr. apply Permutation_swap.
Qed.

Lemma entryHandles_insert k e m : m !! k = None → entryHandles (<[k := e]> m) ≡ₚ vproc e :: entryHandles m.
Proof. intros Hk. unfold entryHandles. by rewrite map_to_list_insert. Qed.

Lemma entryHandles_delete k e m : m !! k = Some e → entryHandles m ≡ₚ vproc e :: entryHandles (delete k m).
Proof.
  intros Hk. rewrite <- (insert_delete_id m k e Hk) at 1. apply entryHandles_insert. apply lookup_delete_eq.
Qed.

Lemma drop_handles k e s : entries s !! k = Some e → handles_ok s → handles_ok (dropVerdict k e s).
Proof.
  intros Hk (Hp & Hn & Hall). rewrite (entryHandles_delete k e _ Hk) in Hp. cbn [app] in Hp.
  pose proof (closeHandle_perm _ _ _ Hp) as Hc. unfold handles_ok. cbn [dropVerdict open_ entries callers handles]. split_and!; [done| |].
  - rewrite Hc. rewrite Hp in Hn. by apply NoDup_cons in Hn as [_ ?].
  - rewrite Hc. rewrite Hp in Hall. by apply Forall_cons in Hall as [_ ?].
Qed.

(** A caller that moves without taking or giving a handle. *)
Definition handleOf (c : verdictCaller) : list nat := match c with Storing _ _ _ h => [h] | _ => [] end.

Lemma callerHandles_insert i c c' cs : cs !! i = Some c → ∃ r, callerHandles cs ≡ₚ handleOf c ++ r /\ callerHandles (<[i := c']> cs) ≡ₚ handleOf c' ++ r.
Proof.
  intros Hi. exists (callerHandles (take i cs ++ drop (S i) cs)). split.
  - rewrite <- (take_drop_middle cs i c Hi) at 1. unfold callerHandles. rewrite !omap_app. destruct c; cbn; by rewrite ?Permutation_middle.
  - rewrite (insert_take_drop _ _ _ (lookup_lt_Some _ _ _ Hi)). unfold callerHandles. rewrite !omap_app. destruct c'; cbn; by rewrite ?Permutation_middle.
Qed.

Lemma move_handles i c c' s : callers s !! i = Some c → handleOf c' = handleOf c → handles_ok s → handles_ok (setCaller i c' s).
Proof.
  intros Hi Hh (Hp & Hn & Hall). destruct (callerHandles_insert i c c' _ Hi) as (r & H1 & H2).
  split_and!; [|done|done]. cbn. rewrite H2, Hh, <- H1. done.
Qed.

Lemma add_handles c s : handleOf c = [] → handles_ok s → handles_ok (addCaller c s).
Proof.
  intros Hc (Hp & Hn & Hall). split_and!; [|done|done]. cbn. unfold callerHandles. rewrite omap_app. destruct c; try done; by rewrite app_nil_r.
Qed.

(** ** The verdicts kept *)

(** An outcome of [k] that a verification of [k] reached, or an error. *)
Definition outcome_proven (P : list (verdictKey * (Code * Z * Time))) (k : verdictKey) (o : outcome) : Prop :=
  match o with Ok x => (k, x) ∈ P | Err _ => True end.

Record kept_ok (s : verdicts) : Prop := {
  kept_size : (size (entries s) <= codeVerdictLimit)%nat;
  kept_handles : handles_ok s;
  kept_proven : ∀ k e, entries s !! k = Some e → (k, (vcode e, vrung e, vat e)) ∈ proven s
}.

Lemma size_delete_le {A} (k : verdictKey) (m : gmap verdictKey A) : (size (delete k m) <= size m)%nat.
Proof. rewrite map_size_delete. destruct (m !! k); cbn; lia. Qed.

Lemma drop_kept k e s : entries s !! k = Some e → kept_ok s → kept_ok (dropVerdict k e s).
Proof.
  intros Hk [Hs Hh Hp]. constructor; cbn.
  - etrans; [apply size_delete_le|done].
  - by apply drop_handles.
  - intros k' e' He. apply Hp. by apply lookup_delete_Some in He as [_ ?].
Qed.

(** Nothing but the entries and their handles has changed. *)
Definition same_flow (s s' : verdicts) : Prop :=
  working s' = working s /\ finished s' = finished s /\ callers s' = callers s /\ ids s' = ids s /\ proven s' = proven s.

Lemma sweep_spec gone now order : ∀ oldest s o s', NoDup order → sweep gone now order oldest s = (o, s') →
  (∀ k at_, oldest = Some (k, at_) → k ∈ dom (entries s) /\ k ∉ order) → kept_ok s →
  kept_ok s' /\ same_flow s s' /\ entries s' ⊆ entries s /\
  (∀ k at_, o = Some (k, at_) → k ∈ dom (entries s')) /\
  (o = None → oldest = None /\ ∀ k, k ∈ order → k ∉ dom (entries s')).
Proof.
  induction order as [|k order IH]; intros oldest s o s' Hnd Heq Hold Hok; cbn [sweep] in Heq.
  { injection Heq as <- <-. split_and!; [done|done|done|intros k' at_ E; by apply (Hold k' at_)|]. intros ->. split; [done|].
    by intros k' ?%not_elem_of_nil. }
  apply NoDup_cons in Hnd as [Hk Hnd]. destruct (entries s !! k) as [e|] eqn:He.
  - destruct (_ || _ || _).
    + destruct (IH oldest (dropVerdict k e s) o s' Hnd Heq) as (H1 & H2 & H3 & H4 & H5); [|by apply drop_kept|].
      { intros k' at_ E. destruct (Hold k' at_ E) as [Hd Hn]. apply not_elem_of_cons in Hn as [Hne Hn]. split; [|done].
        cbn. rewrite dom_delete_L. set_solver. }
      split_and!; [done|done|etrans; [done|apply delete_subseteq]|done|]. intros Ho. destruct (H5 Ho) as [-> Hno]. split; [done|].
      intros k' [->|Hin]%elem_of_cons; [|by apply Hno]. intros Hd. apply (subseteq_dom _ _ H3) in Hd. cbn in Hd.
      rewrite dom_delete_L in Hd. set_solver.
    + set (oldest' := match oldest with None => Some (k, vat e) | Some (_, at_) => if IsZero at_ || Before (vat e) at_ then Some (k, vat e) else oldest end) in *.
      assert (∃ k' at_, oldest' = Some (k', at_) /\ k' ∈ dom (entries s) /\ k' ∉ order) as (k' & at_ & Ho' & Hd' & Hn').
      { assert (k ∈ dom (entries s)) by (apply elem_of_dom; by eexists). unfold oldest'. destruct oldest as [[k' at_]|]; [|by exists k, (vat e)].
        destruct (_ || _); [by exists k, (vat e)|]. exists k', at_. destruct (Hold k' at_ eq_refl) as [? Hn].
        apply not_elem_of_cons in Hn as [_ ?]. done. }
      destruct (IH oldest' s o s' Hnd Heq) as (H1 & H2 & H3 & H4 & H5); [|done|].
      { intros k1 at1 E. rewrite Ho' in E. by injection E as <- <-. }
      split_and!; [done|done|done|done|]. intros Hnone. destruct (H5 Hnone) as [E _]. by rewrite Ho' in E.
  - destruct (IH oldest s o s' Hnd Heq) as (H1 & H2 & H3 & H4 & H5); [|done|].
    { intros k' at_ E. destruct (Hold k' at_ E) as [? Hn]. by apply not_elem_of_cons in Hn as [_ ?]. }
    split_and!; [done|done|done|done|]. intros Ho. destruct (H5 Ho) as [-> Hno]. split; [done|].
    intros k' [->|Hin]%elem_of_cons; [|by apply Hno]. intros Hd. apply (subseteq_dom _ _ H3) in Hd. apply elem_of_dom in Hd as [? Hd]. congruence.
Qed.

(** The entries after the sweep and the eviction: room for one more, none of it
    under the key. *)
Lemma keep_room gone now order k s : kept_ok s → order ≡ₚ (map_to_list (entries s)).*1 → ∀ o s1,
  sweep gone now order None (match entries s !! k with Some old => dropVerdict k old s | None => s end) = (o, s1) →
  let s2 := if (codeVerdictLimit <=? size (entries s1))%nat then
              match o with Some (x, _) => match entries s1 !! x with Some e => dropVerdict x e s1 | None => s1 end | None => s1 end
            else s1 in
  kept_ok s2 /\ same_flow s s2 /\ entries s2 !! k = None /\ (size (entries s2) < codeVerdictLimit)%nat.
Proof.
  intros Hok Hord o s1 Heq. set (s0 := match entries s !! k with Some old => dropVerdict k old s | None => s end) in *.
  assert (kept_ok s0 /\ same_flow s s0 /\ entries s0 !! k = None /\ entries s0 ⊆ entries s) as (Hok0 & Hf0 & Hk0 & Hsub0).
  { unfold s0. destruct (entries s !! k) as [old|] eqn:Hk; [|by split_and!]. split_and!; [by apply drop_kept|done| |apply delete_subseteq].
    cbn. apply lookup_delete_eq. }
  destruct (sweep_spec gone now order None s0 o s1) as (Hok1 & Hf1 & Hsub1 & Hin & Hnone); [|done|done|done|].
  { rewrite Hord. apply NoDup_fst_map_to_list. }
  assert (entries s1 !! k = None) as Hk1.
  { destruct (entries s1 !! k) as [e|] eqn:E; [|done]. rewrite (lookup_weaken _ _ _ _ E Hsub1) in Hk0. done. }
  assert (same_flow s s1) as Hf by (destruct Hf0 as (?&?&?&?&?), Hf1 as (?&?&?&?&?); split_and!; congruence).
  destruct (Nat.leb_spec codeVerdictLimit (size (entries s1))) as [Hfull|]; [|cbv zeta; split_and!; done].
  destruct o as [[x at_]|].
  - specialize (Hin x at_ eq_refl). apply elem_of_dom in Hin as [e He]. rewrite He. cbv zeta. split_and!.
    + by apply drop_kept.
    + done.
    + cbn. by apply lookup_delete_None; right.
    + cbn. rewrite map_size_delete, He. pose proof (kept_size _ Hok1). unfold codeVerdictLimit in *. cbn. lia.
  - exfalso. destruct (Hnone eq_refl) as [_ Hno]. assert (dom (entries s1) = ∅) as Hd.
    { apply set_eq. intros k'. split; [|by intros ?%elem_of_empty]. intros Hk'. destruct (Hno k'); [|done]. rewrite Hord.
      apply (subseteq_dom _ _ Hsub1), (subseteq_dom _ _ Hsub0) in Hk'. apply elem_of_dom in Hk' as [e He].
      apply list_elem_of_fmap. exists (k', e). split; [done|]. by apply elem_of_map_to_list. }
    apply dom_empty_inv_L in Hd. rewrite Hd, map_size_empty in Hfull. unfold codeVerdictLimit in Hfull. lia.
Qed.

Lemma keepVerdict_kept i id k x h gone order s : callers s !! i = Some (Storing id k x h) → (k, x) ∈ proven s →
  order ≡ₚ (map_to_list (entries s)).*1 → kept_ok s → kept_ok (keepVerdict i id k x h gone order s) /\
  ∃ s2, same_flow s s2 /\ working (keepVerdict i id k x h gone order s) = working s2 /\
    finished (keepVerdict i id k x h gone order s) = finished s2 /\ ids (keepVerdict i id k x h gone order s) = ids s2 /\
    proven (keepVerdict i id k x h gone order s) = proven s2 /\
    callers (keepVerdict i id k x h gone order s) = <[i := Finishing id k (Ok x)]> (callers s2).
Proof.
  intros Hi Hx Hord Hok. unfold keepVerdict. destruct (sweep _ _ _ _ _) as [o s1] eqn:Hsw.
  destruct (keep_room gone x.2 order k s Hok Hord o s1 Hsw) as (Hok2 & Hf & Hk & Hsize). cbv zeta in Hok2, Hf, Hk, Hsize.
  set (s2 := if (codeVerdictLimit <=? size (entries s1))%nat then _ else _) in *. split; [|by exists s2].
  pose proof Hf as (_ & _ & Hcs & _ & Hpr). destruct Hok2 as [_ (Hp & Hn & Hall) Hprov]. constructor; cbn.
  - rewrite map_size_insert, Hk. lia.
  - destruct (callerHandles_insert i _ (Finishing id k (Ok x)) (callers s2) ltac:(rewrite Hcs; exact Hi)) as (r & H1 & H2).
    unfold handles_ok. cbn. split_and!; [|done|done]. rewrite H2, (entryHandles_insert _ _ _ Hk), Hp, H1. cbn. by rewrite Permutation_middle.
  - intros k' e. rewrite Hpr. intros [[<- <-]|[Hne He]]%lookup_insert_Some.
    + cbn. by destruct x as [[c v] t].
    + rewrite <- Hpr. by apply Hprov.
Qed.

(** ** The callers *)

(** The verification a caller runs. *)
Definition runs (c : verdictCaller) : option (nat * verdictKey) :=
  match c with
  | Verifying id k | Keeping id k _ | Storing id k _ _ | Finishing id k _ => Some (id, k)
  | _ => None
  end.

Definition caller_proven (P : list (verdictKey * (Code * Z * Time))) (c : verdictCaller) : Prop :=
  match c with
  | Keeping _ k x | Storing _ k x _ => (k, x) ∈ P
  | Finishing _ k o | Answered k o => outcome_proven P k o
  | _ => True
  end.

(** One caller runs each verification under way, and nobody waits for one that is
    neither under way nor over. *)
Record flow_ok (s : verdicts) : Prop := {
  flow_running : ∀ k id, working s !! k = Some id <-> ∃ i c, callers s !! i = Some c /\ runs c = Some (id, k);
  flow_single : ∀ i j c d id k k', callers s !! i = Some c → callers s !! j = Some d → runs c = Some (id, k) → runs d = Some (id, k') → i = j;
  flow_ids : ∀ k id, working s !! k = Some id → (id < ids s)%nat /\ finished s !! id = None;
  flow_finished : ∀ id k o, finished s !! id = Some (k, o) → (id < ids s)%nat /\ outcome_proven (proven s) k o;
  flow_waiting : ∀ i id k, callers s !! i = Some (Waiting id k) → working s !! k = Some id \/ ∃ o, finished s !! id = Some (k, o);
  flow_proven : ∀ i c, callers s !! i = Some c → caller_proven (proven s) c
}.

Lemma proven_mono P P' c : P ⊆ P' → caller_proven P c → caller_proven P' c.
Proof. intros HP. destruct c as [| | | |? ? []|? []]; cbn; auto. Qed.

(** A caller moves, without beginning or ending a verification. *)
Lemma flow_move s s' i c c' : callers s !! i = Some c → callers s' = <[i := c']> (callers s) →
  working s' = working s → finished s' = finished s → ids s' = ids s → proven s ⊆ proven s' →
  runs c' = runs c → (∀ id k, c' ≠ Waiting id k) → caller_proven (proven s') c' → flow_ok s → flow_ok s'.
Proof.
  intros Hi Hc' Hw Hfin Hids HP Hruns Hnw Hcp [Hr Hs Hid Hf Hwt Hpr].
  assert (∀ j d, callers s' !! j = Some d → ∃ d0, callers s !! j = Some d0 /\ runs d0 = runs d /\ (d0 = d \/ d = c')) as Hback.
  { intros j d Hj. rewrite Hc' in Hj. apply list_lookup_insert_Some in Hj as [(-> & <- & _)|[Hne Hj]]; [by exists c; auto|by exists d; auto]. }
  constructor; rewrite ?Hw, ?Hfin, ?Hids; try done.
  - intros k id. rewrite Hr. split; intros (j & d & Hj & Hd).
    + destruct (decide (i = j)) as [<-|Hne].
      * exists i, c'. rewrite Hc', list_lookup_insert_eq by (by eapply lookup_lt_Some). split; [done|]. congruence.
      * exists j, d. by rewrite Hc', list_lookup_insert_ne.
    + destruct (Hback j d Hj) as (d0 & Hj0 & Hd0 & _). exists j, d0. by rewrite Hd0.
  - intros j1 j2 d1 d2 id k k' H1 H2 R1 R2. destruct (Hback j1 d1 H1) as (e1 & Hj1 & He1 & _), (Hback j2 d2 H2) as (e2 & Hj2 & He2 & _).
    eapply (Hs j1 j2 e1 e2 id k k'); congruence.
  - intros id k o Ho. destruct (Hf id k o Ho) as [? Hpo]. split; [done|]. by destruct o; [apply HP|].
  - intros j id k Hj. destruct (Hback j _ Hj) as (d0 & Hj0 & _ & [->|Hw']); [by apply (Hwt j)|]. by destruct (Hnw id k).
  - intros j d Hj. destruct (Hback j d Hj) as (d0 & Hj0 & _ & [->| ->]); [|done]. eapply proven_mono; [done|by eapply Hpr].
Qed.

(** A caller arrives who runs nothing. *)
Lemma flow_add s s' c : callers s' = callers s ++ [c] → working s' = working s → finished s' = finished s → ids s' = ids s →
  proven s' = proven s → runs c = None → caller_proven (proven s) c → (∀ id k, c = Waiting id k → working s !! k = Some id) →
  flow_ok s → flow_ok s'.
Proof.
  intros Hc' Hw Hfin Hids HP Hruns Hcp Hwc [Hr Hs Hid Hf Hwt Hpr].
  assert (∀ j d, callers s' !! j = Some d → callers s !! j = Some d \/ d = c) as Hback.
  { intros j d Hj. rewrite Hc' in Hj. apply lookup_app_Some in Hj as [?|[_ Hj]]; [by left|]. right. by apply list_lookup_singleton_Some in Hj as [_ ?]. }
  assert (∀ j d id k, callers s' !! j = Some d → runs d = Some (id, k) → callers s !! j = Some d) as Hrun.
  { intros j d id k Hj Hd. destruct (Hback j d Hj) as [?| ->]; [done|]. congruence. }
  constructor; rewrite ?Hw, ?Hfin, ?Hids, ?HP; try done.
  - intros k id. rewrite Hr. split; intros (j & d & Hj & Hd).
    + exists j, d. split; [|done]. rewrite Hc'. by apply lookup_app_l_Some.
    + exists j, d. split; [by eapply Hrun|done].
  - intros j1 j2 d1 d2 id k k' H1 H2 R1 R2. eapply (Hs j1 j2 d1 d2 id k k'); eauto.
  - intros j id k Hj. destruct (Hback j _ Hj) as [?|E]; [by apply (Hwt j)|]. left. by apply Hwc.
  - intros j d Hj. destruct (Hback j d Hj) as [?| ->]; [by eapply Hpr|done].
Qed.

(** A caller arrives and begins the verification of a key nobody is verifying. *)
Lemma flow_begin k s : working s !! k = None → flow_ok s → flow_ok (join k s).
Proof.
  intros Hk [Hr Hs Hid Hf Hwt Hpr]. unfold join. rewrite Hk.
  assert (∀ k' id, working s !! k' = Some id → (id < ids s)%nat) as Hlt by (intros k' id Hw; by apply (Hid k' id)).
  assert (∀ j d id k', callers s !! j = Some d → runs d = Some (id, k') → (id < ids s)%nat) as Hrl.
  { intros j d id k' Hj Hd. eapply Hlt. apply Hr. by exists j, d. }
  assert (∀ j d, (callers s ++ [Verifying (ids s) k]) !! j = Some d →
    callers s !! j = Some d \/ j = length (callers s) /\ d = Verifying (ids s) k) as Hback.
  { intros j d Hj. apply lookup_app_Some in Hj as [?|[Hle Hj]]; [by left|]. right. apply list_lookup_singleton_Some in Hj as [? <-]. split; [lia|done]. }
  constructor; cbn.
  - intros k' id. rewrite lookup_insert_Some, Hr. split.
    + intros [[<- <-]|[Hne (j & d & Hj & Hd)]].
      * exists (length (callers s)), (Verifying (ids s) k). split; [|done]. apply list_lookup_middle. done.
      * exists j, d. split; [by apply lookup_app_l_Some|done].
    + intros (j & d & Hj & Hd). destruct (Hback j d Hj) as [Hj'|[-> ->]]; [|left; by injection Hd as -> ->].
      right. split; [|by exists j, d]. intros <-. assert (working s !! k = Some id) by (apply Hr; by exists j, d). congruence.
  - intros j1 j2 d1 d2 id k1 k2 H1 H2 R1 R2. destruct (Hback j1 d1 H1) as [H1'|[-> ->]], (Hback j2 d2 H2) as [H2'|[-> ->]]; [by eapply Hs| | |done].
    + injection R2 as <- _. pose proof (Hrl _ _ _ _ H1' R1). lia.
    + injection R1 as <- _. pose proof (Hrl _ _ _ _ H2' R2). lia.
  - intros k' id [[<- <-]|[Hne Hw]]%lookup_insert_Some.
    + split; [lia|]. destruct (finished s !! ids s) as [[k1 o]|] eqn:E; [|done]. destruct (Hf _ _ _ E). lia.
    + destruct (Hid k' id Hw). split; [lia|done].
  - intros id k' o Ho. destruct (Hf id k' o Ho). split; [lia|done].
  - intros j id k' Hj. destruct (Hback j _ Hj) as [Hj'|[_ E]]; [|done]. destruct (Hwt j id k' Hj') as [Hw|?]; [left|by right].
    rewrite lookup_insert_ne; [done|]. intros <-. congruence.
  - intros j d Hj. destruct (Hback j d Hj) as [Hj'|[_ ->]]; [by eapply Hpr|done].
Qed.

(** A verification is over: its outcome is there for everyone who waits for it. *)
Lemma flow_handOut i id k o s : callers s !! i = Some (Finishing id k o) → flow_ok s → flow_ok (handOut i id k o s).
Proof.
  intros Hi Hok. destruct Hok as [Hr Hs Hid Hf Hwt Hpr].
  assert (working s !! k = Some id) as Hwk by (apply Hr; by exists i, (Finishing id k o)).
  assert (∀ j d, <[i := Answered k o]> (callers s) !! j = Some d → j = i /\ d = Answered k o \/ j ≠ i /\ callers s !! j = Some d) as Hback.
  { intros j d Hj. apply list_lookup_insert_Some in Hj as [(-> & <- & _)|[Hne Hj]]; auto. }
  assert (∀ j d id' k', j ≠ i → callers s !! j = Some d → runs d = Some (id', k') → id' ≠ id /\ k' ≠ k) as Hother.
  { intros j d id' k' Hne Hj Hd. assert (working s !! k' = Some id') by (apply Hr; by exists j, d).
    assert (id' ≠ id) by (intros ->; apply Hne; by eapply (Hs j i d _ id k' k)). split; [done|]. intros ->. congruence. }
  constructor; cbn.
  - intros k' id'. rewrite lookup_delete_Some, Hr. split.
    + intros [Hne (j & d & Hj & Hd)]. exists j, d. split; [|done]. rewrite list_lookup_insert_ne; [done|]. intros <-.
      rewrite Hi in Hj. injection Hj as <-. injection Hd as <- <-. done.
    + intros (j & d & Hj & Hd). destruct (Hback j d Hj) as [[-> ->]|[Hne Hj']]; [done|].
      destruct (Hother j d id' k' Hne Hj' Hd). split; [done|]. by exists j, d.
  - intros j1 j2 d1 d2 id' k1 k2 H1 H2 R1 R2. destruct (Hback j1 d1 H1) as [[-> ->]|[_ H1']], (Hback j2 d2 H2) as [[-> ->]|[_ H2']]; try done.
    by eapply (Hs j1 j2 d1 d2 id').
  - intros k' id' [Hne Hw]%lookup_delete_Some. destruct (Hid k' id' Hw) as [? Hfin]. split; [done|]. rewrite lookup_insert_ne; [done|].
    intros <-. apply Hr in Hw as (j & d & Hj & Hd). assert (j = i) as -> by (by eapply (Hs j i d _ id k' k)).
    rewrite Hi in Hj. injection Hj as <-. injection Hd as <-. done.
  - intros id' k' o' [[<- [= <- <-]]|[Hne Ho]]%lookup_insert_Some.
    + split; [by apply (Hid k id)|]. by apply (Hpr i _ Hi).
    + by apply Hf.
  - intros j id' k' Hj. destruct (Hback j _ Hj) as [[_ E]|[Hne Hj']]; [done|]. destruct (Hwt j id' k' Hj') as [Hw|[o' Ho]].
    + destruct (decide (k' = k)) as [->|Hk].
      * right. rewrite Hwk in Hw. injection Hw as <-. exists o. apply lookup_insert_eq.
      * left. by rewrite lookup_delete_ne.
    + right. destruct (decide (id' = id)) as [->|Hne']; [|exists o'; by rewrite lookup_insert_ne].
      destruct (Hid k id Hwk) as [_ E]. congruence.
  - intros j d Hj. destruct (Hback j d Hj) as [[-> ->]|[_ Hj']]; [by apply (Hpr i _ Hi)|by eapply Hpr].
Qed.

Definition verdicts_ok (s : verdicts) : Prop := kept_ok s /\ flow_ok s.

Lemma flow_same s s' : same_flow s s' → flow_ok s → flow_ok s'.
Proof.
  intros (Hw & Hf & Hc & Hi & Hp) [H1 H2 H3 H4 H5 H6]. by constructor; rewrite ?Hw, ?Hf, ?Hc, ?Hi, ?Hp.
Qed.

Lemma kept_same s s' : entries s' = entries s → open_ s' = open_ s → handles s' = handles s → callerHandles (callers s') = callerHandles (callers s) →
  proven s ⊆ proven s' → kept_ok s → kept_ok s'.
Proof.
  intros He Ho Hh Hc Hp [H1 (P1 & P2 & P3) H3]. constructor; [by rewrite He| |].
  - split_and!; [by rewrite Ho, He, Hc|by rewrite Ho|by rewrite Ho, Hh].
  - intros k e. rewrite He. intros Hk. by apply Hp, H3.
Qed.

Lemma callerHandles_same i c c' cs : cs !! i = Some c → handleOf c = [] → handleOf c' = [] → callerHandles (<[i := c']> cs) = callerHandles cs.
Proof.
  intros Hi H1 H2. rewrite <- (take_drop_middle cs i c Hi) at 2. rewrite (insert_take_drop _ _ _ (lookup_lt_Some _ _ _ Hi)).
  unfold callerHandles. rewrite !omap_app. cbn. destruct c, c'; done.
Qed.

Lemma join_ok k s : verdicts_ok s → verdicts_ok (join k s).
Proof.
  intros [Hk Hf]. unfold join. destruct (working s !! k) as [id|] eqn:Hw.
  - split; [|by apply (flow_add s _ (Waiting id k)); try done; intros id' k' [= -> ->]].
    apply (kept_same s); try done. cbn. unfold callerHandles. by rewrite omap_app, app_nil_r.
  - split; [|by pose proof (flow_begin k s Hw Hf) as H; unfold join in H; rewrite Hw in H].
    apply (kept_same s); try done. cbn. unfold callerHandles. by rewrite omap_app, app_nil_r.
Qed.

Lemma keepBegin_ok i id k x dup started s : callers s !! i = Some (Keeping id k x) → verdicts_ok s → verdicts_ok (keepBegin i id k x dup started s).
Proof.
  intros Hi [Hk Hf]. pose proof (flow_proven _ Hf i _ Hi) as Hx. cbn in Hx. unfold keepBegin.
  assert (∀ o h n, (∀ c, handleOf c = [] → callerHandles (<[i := c]> (callers s)) = callerHandles (callers s)) /\
    flow_ok (setCaller i (Finishing id k (Ok x)) (mkVerdicts (entries s) (working s) (finished s) (callers s) o n (ids s) (proven s))) /\
    flow_ok (setCaller i (Storing id k x h) (mkVerdicts (entries s) (working s) (finished s) (callers s) o n (ids s) (proven s)))) as Hmove.
  { intros o h n. split_and!; [intros c Hc; by apply (callerHandles_same i (Keeping id k x))|eapply (flow_move s); try done..]. }
  assert (∀ n, (handles s <= n)%nat →
    verdicts_ok (setCaller i (Finishing id k (Ok x)) (mkVerdicts (entries s) (working s) (finished s) (callers s) (open_ s) n (ids s) (proven s)))) as Hfin.
  { intros n Hn. destruct (Hmove (open_ s) 0%nat n) as (Hch & Hfl & _). split; [|done]. destruct Hk as [H1 (P1 & P2 & P3) H3].
    constructor; [done| |done]. split_and!; cbn; [by rewrite Hch|done|]. eapply Forall_impl; [done|]. cbn. lia. }
  destruct dup; cbn [negb]; [|exact (Hfin (handles s) (le_n _))].
  assert (closeHandle (handles s) (handles s :: open_ s) = open_ s) as Hclose by (cbn; by rewrite decide_True).
  destruct started as [t|e]; cbn [open_ handles callers entries working finished ids proven];
    [|rewrite Hclose; apply (Hfin (S (handles s))); lia].
  destruct (t =? k.1.1.2); [|rewrite Hclose; apply (Hfin (S (handles s))); lia].
  destruct (Hmove (handles s :: open_ s) (handles s) (S (handles s))) as (_ & _ & Hfl). split; [|done].
  destruct Hk as [H1 (P1 & P2 & P3) H3]. constructor; [done| |done].
  destruct (callerHandles_insert i _ (Storing id k x (handles s)) _ Hi) as (r & R1 & R2). split_and!; cbn.
  - rewrite R2, P1, R1. cbn. by rewrite Permutation_middle.
  - constructor; [|done]. intros Hin. rewrite Forall_forall in P3. specialize (P3 _ Hin). lia.
  - constructor; [lia|]. eapply Forall_impl; [done|]. cbn. lia.
Qed.

Lemma cstep_ok s s' : cstep s s' → verdicts_ok s → verdicts_ok s'.
Proof.
  intros Hst Hok. pose proof Hok as [Hk Hf].
  destruct Hst as [now k s|i id k c rung now s Hi|i id k e s Hi|i id k x dup started s Hi|i id k x h gone order s Hi Hord|i id k o s Hi|i id k o s Hi Ho].
  - unfold verifyProcessImageAt. destruct (entries s !! k) as [e|] eqn:He; [|by apply join_ok]. destruct (reusable now (vat e)).
    + split; [|by apply (flow_add s _ (Answered k (Ok (vcode e, vrung e, vat e)))); try done; apply (kept_proven _ Hk)].
      apply (kept_same s); try done. cbn. unfold callerHandles. by rewrite omap_app, app_nil_r.
    + apply join_ok. split; [by apply drop_kept|apply (flow_same s); [by split_and!|done]].
  - split; [|eapply (flow_move s); try done; cbn; [set_solver|by left]].
    apply (kept_same s); try done; [by eapply callerHandles_same|cbn; set_solver].
  - split; [|by eapply (flow_move s)]. apply (kept_same s); try done. by eapply callerHandles_same.
  - by apply keepBegin_ok.
  - pose proof (flow_proven _ Hf i _ Hi) as Hx. cbn in Hx.
    destruct (keepVerdict_kept i id k x h gone order s Hi Hx Hord Hk) as (Hk' & s2 & (Fw & Ff & Fc & Fi & Fp) & Ew & Ef & Ei & Ep & Ec).
    split; [done|]. apply (flow_move s _ i (Storing id k x h) (Finishing id k (Ok x))); try done; try congruence; rewrite Ep, Fp; done.
  - split; [|by apply flow_handOut]. apply (kept_same s); try done. by eapply callerHandles_same.
  - split; [|eapply (flow_move s); try done; by apply (flow_finished _ Hf id)].
    apply (kept_same s); try done. by eapply callerHandles_same.
Qed.

Lemma creachable_ok s : creachable s → verdicts_ok s.
Proof.
  induction 1 as [|s s' _ IH Hst]; [|by eapply cstep_ok]. split; constructor; cbn; try done; try lia.
  - rewrite map_size_empty. unfold codeVerdictLimit. lia.
  - unfold handles_ok. cbn. split_and!; [done|constructor|constructor].
  - intros k id. rewrite lookup_empty. split; [done|]. by intros (i & c & Hi & _).
Qed.

(** A verdict is reused exactly until it is five minutes old, and never before it was
    reached. *)
Lemma reusable_exact now at_ : reusable now at_ = true <-> at_ <= now < at_ + codeVerdictLifetime.
Proof.
  unfold reusable, Before. rewrite andb_true_iff, negb_true_iff, Z.ltb_lt, Z.ltb_ge, TimeSub_lt by (vm_compute; split; congruence). lia.
Qed.

(** C12: In every interleaving of callers, whatever the clock reads and whatever the system answers: at most 256 verdicts are
    kept; the process handles open are exactly one for each verdict kept and one for each verdict about to be kept, so none
    leaks and none is closed twice; a key is verified by one caller at a time; and every verdict a caller is answered with,
    or could be, was reached by a verification of that very process instance, image path and revocation choice, at the
    time it is reported with, and is reused exactly until it is five minutes old. *)
Theorem verdict_cache_sound s : creachable s →
  (size (entries s) <= codeVerdictLimit)%nat /\
  open_ s ≡ₚ entryHandles (entries s) ++ callerHandles (callers s) /\ NoDup (open_ s) /\
  (∀ i j c d id id' k, callers s !! i = Some c → callers s !! j = Some d → runs c = Some (id, k) → runs d = Some (id', k) → i = j) /\
  (∀ i k x, callers s !! i = Some (Answered k (Ok x)) → (k, x) ∈ proven s) /\
  (∀ now k e, entries s !! k = Some e → (k, (vcode e, vrung e, vat e)) ∈ proven s /\
     (vat e <= now < vat e + codeVerdictLifetime →
      verifyProcessImageAt now k s = addCaller (Answered k (Ok (vcode e, vrung e, vat e))) s) /\
     (~ vat e <= now < vat e + codeVerdictLifetime → entries (verifyProcessImageAt now k s) !! k = None)).
Proof.
  intros [[H1 (P1 & P2 & _) H3] Hf]%creachable_ok. split_and!; [done..| | |].
  - intros i j c d id id' k Hi Hj Rc Rd. assert (id = id') as <-; [|by eapply (flow_single _ Hf)].
    assert (working s !! k = Some id) by (apply (flow_running _ Hf); by exists i, c).
    assert (working s !! k = Some id') by (apply (flow_running _ Hf); by exists j, d). congruence.
  - intros i k x Hi. exact (flow_proven _ Hf i _ Hi).
  - intros now k e He. unfold verifyProcessImageAt. rewrite He. split_and!; [by apply H3| |].
    + intros Hr%reusable_exact. by rewrite Hr.
    + intros Hr. destruct (reusable now (vat e)) eqn:E; [by apply reusable_exact in E|].
      unfold join. case_goal; cbn; apply lookup_delete_eq.
Qed.

(** ** Nobody waits in vain *)

(** The steps a caller still has to make before it hands its outcome out. *)
Definition rank (c : verdictCaller) : nat :=
  match c with Verifying _ _ => 4 | Keeping _ _ _ => 3 | Storing _ _ _ _ => 2 | Finishing _ _ _ => 1 | _ => 0 end.

Definition share (id : nat) (c : verdictCaller) : nat :=
  match runs c with Some (id', _) => if decide (id' = id) then rank c else 0 | None => 0 end.

(** The steps left of the verification [id]. *)
Definition stepsLeft (id : nat) (cs : list verdictCaller) : nat := sum_list_with (share id) cs.

(** The steps before the caller [i] is answered, if it waits. *)
Definition toGo (s : verdicts) (i : nat) : nat :=
  match callers s !! i with Some (Waiting id _) => S (stepsLeft id (callers s)) | _ => 0 end.

Lemma stepsLeft_insert id i c c' cs : cs !! i = Some c → (stepsLeft id (<[i := c']> cs) + share id c = stepsLeft id cs + share id c')%nat.
Proof.
  intros Hi. rewrite <- (take_drop_middle cs i c Hi) at 2. rewrite (insert_take_drop _ _ _ (lookup_lt_Some _ _ _ Hi)).
  unfold stepsLeft. rewrite !sum_list_with_app. cbn. lia.
Qed.

Lemma stepsLeft_app id cs c : stepsLeft id (cs ++ [c]) = (stepsLeft id cs + share id c)%nat.
Proof. unfold stepsLeft. rewrite sum_list_with_app. cbn. lia. Qed.

(** What a step does to the callers: one arrives, or one moves and has no more to do
    than before. *)
Lemma step_callers s s' : verdicts_ok s → cstep s s' →
  (∃ c, callers s' = callers s ++ [c] /\ ∀ id, (id < ids s)%nat → share id c = 0%nat) \/
  (∃ j c c', callers s !! j = Some c /\ callers s' = <[j := c']> (callers s) /\ (∀ id, share id c' <= share id c)%nat /\
     (∀ id k, c = Waiting id k → ∃ o, c' = Answered k o)).
Proof.
  intros [Hk Hf] Hst.
  destruct Hst as [now k s|i id k c rung now s Hi|i id k e s Hi|i id k x dup started s Hi|i id k x h gone order s Hi Hord|i id k o s Hi|i id k o s Hi Ho].
  - left. unfold verifyProcessImageAt.
    assert (∀ s1, callers s1 = callers s → ids s1 = ids s →
      ∃ c, callers (join k s1) = callers s ++ [c] /\ ∀ id, (id < ids s)%nat → share id c = 0%nat) as Hjoin.
    { intros s1 Hc Hids. unfold join. destruct (working s1 !! k) as [id|]; eexists; cbn; rewrite Hc; (split; [done|]); [done|].
      intros id Hid. unfold share. cbn. rewrite decide_False by lia. done. }
    destruct (entries s !! k) as [e|]; [|by apply Hjoin]. destruct (reusable now (vat e)); [|by apply Hjoin].
    by exists (Answered k (Ok (vcode e, vrung e, vat e))).
  - right. exists i, (Verifying id k), (Keeping id k (c, rung, now)). split_and!; [done|done| |done]. intros id'. unfold share. cbn. case_decide; lia.
  - right. exists i, (Verifying id k), (Finishing id k (Err e)). split_and!; [done|done| |done]. intros id'. unfold share. cbn. case_decide; lia.
  - right. exists i, (Keeping id k x).
    assert (∃ c', callers (keepBegin i id k x dup started s) = <[i := c']> (callers s) /\ (c' = Finishing id k (Ok x) \/ ∃ h, c' = Storing id k x h)) as (c' & Hc & Hc').
    { unfold keepBegin. destruct dup; cbn [negb]; [|eexists; split; [done|by left]].
      destruct started as [t|e]; [destruct (t =? _)|]; eexists; (split; [done|]); [right; by eexists|by left..]. }
    exists c'. split_and!; [done|done| |done]. intros id'. destruct Hc' as [->|[h ->]]; unfold share; cbn; case_decide; lia.
  - right. exists i, (Storing id k x h), (Finishing id k (Ok x)).
    destruct (keepVerdict_kept i id k x h gone order s Hi (flow_proven _ Hf i _ Hi) Hord Hk) as (_ & s2 & (_ & _ & Fc & _) & _ & _ & _ & _ & Ec).
    split_and!; [done|by rewrite Ec, Fc| |done]. intros id'. unfold share. cbn. case_decide; lia.
  - right. exists i, (Finishing id k o), (Answered k o). split_and!; [done|done| |done]. intros id'. unfold share. cbn. lia.
  - right. exists i, (Waiting id k), (Answered k o). split_and!; [done|done|done|]. intros id' k' [= _ <-]. by eexists.
Qed.

(** The caller that runs a verification can always take its next step. *)
Lemma runner_moves s j c id k : verdicts_ok s → callers s !! j = Some c → runs c = Some (id, k) →
  ∃ s' c', cstep s s' /\ callers s' = <[j := c']> (callers s) /\ (share id c' < share id c)%nat.
Proof.
  intros [Hk Hf] Hj Hr. destruct c as [| | id' k' x | id' k' x h| id' k' o |]; try done; cbn in Hr; injection Hr as -> ->.
  - exists (setCaller j (Finishing id k (Err (Plain "refused"))) s). eexists. split_and!; [by eapply v_refused|done|].
    unfold share. cbn. rewrite !decide_True by done. lia.
  - exists (keepBegin j id k x false (Ok 0) s). eexists. split_and!; [by apply v_kept|done|]. unfold share. cbn. rewrite !decide_True by done. lia.
  - set (order := (map_to_list (entries s)).*1).
    destruct (keepVerdict_kept j id k x h (λ _, false) order s Hj (flow_proven _ Hf j _ Hj) ltac:(done) Hk) as (_ & s2 & (_ & _ & Fc & _) & _ & _ & _ & _ & Ec).
    exists (keepVerdict j id k x h (λ _, false) order s), (Finishing id k (Ok x)).
    split_and!; [by apply v_stored|by rewrite Ec, Fc|]. unfold share. cbn. rewrite !decide_True by done. lia.
  - exists (handOut j id k o s). eexists. split_and!; [by apply v_handOut|done|]. unfold share. cbn. rewrite !decide_True by done. lia.
Qed.

Lemma stepsLeft_zero id cs : (∀ j d, cs !! j = Some d → share id d = 0%nat) → stepsLeft id cs = 0%nat.
Proof.
  unfold stepsLeft. induction cs as [|d cs IH]; intros Hall; [done|]. cbn. rewrite (Hall 0%nat d) by done. rewrite IH; [done|].
  intros j e Hj. by apply (Hall (S j)).
Qed.

Lemma stepsLeft_one s id i c k : flow_ok s → callers s !! i = Some c → runs c = Some (id, k) → stepsLeft id (callers s) = rank c.
Proof.
  intros Hf Hi Hr. pose proof (stepsLeft_insert id i c (Answered k (Err (Plain ""))) _ Hi) as Hins.
  rewrite stepsLeft_zero in Hins.
  - unfold share in Hins. rewrite Hr in Hins. cbn in Hins. rewrite decide_True in Hins by done. lia.
  - intros j d Hj. apply list_lookup_insert_Some in Hj as [(_ & <- & _)|[Hne Hj]]; [done|]. unfold share.
    destruct (runs d) as [[id' k']|] eqn:Hd; [|done]. case_decide as E; [|done]. subst id'. destruct Hne. by eapply (flow_single _ Hf i j c d id k k').
Qed.

(** A verification that is over has no steps left. *)
Lemma stepsLeft_over s id k o : flow_ok s → finished s !! id = Some (k, o) → stepsLeft id (callers s) = 0%nat.
Proof.
  intros Hf Ho. apply stepsLeft_zero. intros j d Hj. unfold share. destruct (runs d) as [[id' k']|] eqn:Hd; [|done].
  case_decide as E; [|done]. subst id'. assert (working s !! k' = Some id) as Hw by (apply (flow_running _ Hf); by exists j, d).
  destruct (flow_ids _ Hf k' id Hw). congruence.
Qed.

(** C13: Nobody waits in vain for a verdict. Whatever has happened, a caller that waits is at most five steps from its answer,
    those of the one caller that verifies and then its own; one of them can always be taken and brings the answer nearer;
    and no step of anybody takes it further away or ends the wait otherwise than with the answer. *)
Theorem waiters_are_answered s i id k : creachable s → callers s !! i = Some (Waiting id k) →
  (0 < toGo s i <= 5)%nat /\
  (∀ s', cstep s s' → (toGo s' i <= toGo s i)%nat /\
     (callers s' !! i = Some (Waiting id k) \/ ∃ o, callers s' !! i = Some (Answered k o))) /\
  (∃ s', cstep s s' /\ (toGo s' i < toGo s i)%nat).
Proof.
  intros Hok%creachable_ok Hi. pose proof Hok as [Hk Hf]. assert (toGo s i = S (stepsLeft id (callers s))) as -> by (unfold toGo; by rewrite Hi).
  assert (id < ids s)%nat as Hid.
  { destruct (flow_waiting _ Hf i id k Hi) as [Hw|[o Ho]]; [by apply (flow_ids _ Hf k)|by apply (flow_finished _ Hf id k o)]. }
  split_and!; [lia| | |].
  - destruct (flow_waiting _ Hf i id k Hi) as [Hw|[o Ho]]; [|rewrite (stepsLeft_over s id k o Hf Ho); lia].
    apply (flow_running _ Hf) in Hw as (j & c & Hj & Hr). rewrite (stepsLeft_one s id j c k Hf Hj Hr). destruct c; cbn; lia.
  - intros s' Hst. destruct (step_callers s s' Hok Hst) as [(c & Hc & Hsh)|(j & c & c' & Hj & Hc & Hsh & Hw)].
    + assert (callers s' !! i = Some (Waiting id k)) as Hi' by (rewrite Hc; by apply lookup_app_l_Some).
      unfold toGo. rewrite Hi', Hc, stepsLeft_app, Hsh by done. split; [lia|by left].
    + destruct (decide (j = i)) as [->|Hne].
      * rewrite Hi in Hj. injection Hj as <-. destruct (Hw id k eq_refl) as [o ->].
        assert (callers s' !! i = Some (Answered k o)) as Hi' by (rewrite Hc; by apply list_lookup_insert_eq, (lookup_lt_Some _ _ _ Hi)).
        unfold toGo. rewrite Hi'. split; [lia|]. right. by exists o.
      * assert (callers s' !! i = Some (Waiting id k)) as Hi' by (rewrite Hc; by rewrite list_lookup_insert_ne).
        unfold toGo. rewrite Hi', Hc. pose proof (stepsLeft_insert id j c c' _ Hj). specialize (Hsh id). split; [lia|by left].
  - destruct (flow_waiting _ Hf i id k Hi) as [Hw|[o Ho]].
    + apply (flow_running _ Hf) in Hw as (j & c & Hj & Hr). destruct (runner_moves s j c id k Hok Hj Hr) as (s' & c' & Hst & Hc & Hlt).
      exists s'. split; [done|]. assert (j ≠ i) as Hne by (intros ->; rewrite Hi in Hj; injection Hj as <-; done).
      unfold toGo. rewrite Hc, list_lookup_insert_ne, Hi by done. pose proof (stepsLeft_insert id j c c' _ Hj). lia.
    + eexists. split; [by eapply v_woken|]. unfold toGo. cbn. rewrite list_lookup_insert_eq by (by eapply lookup_lt_Some). lia.
Qed.

(** Two callers of one key: the second waits. *)
Lemma twoCallers_reachable : creachable (verifyProcessImageAt 0 (1, 2, "p", false) (verifyProcessImageAt 0 (1, 2, "p", false) noVerdicts)).
Proof. eapply v_next; [eapply v_next; [apply v_start|apply v_call]|apply v_call]. Qed.

Definition twoCallers : verdicts := verifyProcessImageAt 0 (1, 2, "p", false) (verifyProcessImageAt 0 (1, 2, "p", false) noVerdicts).

Lemma waiters_are_answered_witness :
  (0 < toGo twoCallers 1 <= 5)%nat /\
  (∀ s', cstep twoCallers s' → (toGo s' 1 <= toGo twoCallers 1)%nat /\
     (callers s' !! 1%nat = Some (Waiting 0 (1, 2, "p", false)) \/ ∃ o, callers s' !! 1%nat = Some (Answered (1, 2, "p", false) o))) /\
  (∃ s', cstep twoCallers s' /\ (toGo s' 1 < toGo twoCallers 1)%nat).
Proof. apply (waiters_are_answered twoCallers 1 0 (1, 2, "p", false)); [exact twoCallers_reachable|vm_compute; reflexivity]. Defined.

Lemma verdict_cache_sound_witness :
  (size (entries twoCallers) <= codeVerdictLimit)%nat /\
  (∀ i j c d id id' k, callers twoCallers !! i = Some c → callers twoCallers !! j = Some d →
     runs c = Some (id, k) → runs d = Some (id', k) → i = j).
Proof. destruct (verdict_cache_sound twoCallers twoCallers_reachable) as (H1 & _ & _ & H4 & _). by split. Defined.
