(* ===== verification/Sockets.v ===== *)
(** sockets.go: the sockets of a process tree in the operating system's owner
    tables, the rule that all of them are on loopback, and the table parser. *)

From S2P Require Import Prelude GoBinary GoStrings GoError.

(** [Socket]. *)
Record Socket := mkSocket { Proto : string; SAddr : list Z; SPort : Z; SPID : Z }.

(** What [CheckLoopbackOnly] has learnt: the memo, and the process ids it asked
    about, newest first. *)
Record ask := mkAsk { membership : gmap Z bool; asked : list Z }.

(** ** The rule *)

Section Check.
(** The answer of [owned], which may depend on what was asked before. *)
Context (owned : list Z → Z → bool).

(** The [member] closure. *)
Definition member (pid : Z) (a : ask) : bool * ask :=
  match membership a !! pid with
  | Some is_in => (is_in, a)
  | None =>
      if 0 <? pid then
        let is_in := owned (asked a) pid in
        (is_in, mkAsk (<[pid:=is_in]> (membership a)) (pid :: asked a))
      else (false, mkAsk (<[pid:=false]> (membership a)) (asked a))
  end.

Definition beyond (s : Socket) : err :=
  Wrap (Proto s +:+ " owned by process " +:+ itoa (SPID s)) [Sentinel ErrBeyondLoopback].

(** The loop of [CheckLoopbackOnly]: the first refusal, or whether the expected
    listener was seen. *)
Fixpoint checkSockets (want : AddrPort) (sockets : list Socket) (expected : bool) (a : ask) : (err + bool) * ask :=
  match sockets with
  | [] => (inr expected, a)
  | s :: rest =>
      let addr := Unmap (SAddr s) in
      if negb (IsLoopback addr) then
        let '(is_in, a) := member (SPID s) a in
        if is_in then (inl (beyond s), a) else checkSockets want rest expected a
      else if negb expected && String.eqb (Proto s) "tcp"
                && bool_decide (mkAddrPort addr (SPort s mod 2 ^ 16) = want) then
        let '(is_in, a) := member (SPID s) a in checkSockets want rest (is_in || expected) a
      else checkSockets want rest expected a
  end.

Definition wanted (listener : AddrPort) : AddrPort := mkAddrPort (Unmap (ap_addr listener)) (ap_port listener).

(** [CheckLoopbackOnly], with what it asked. *)
Definition CheckLoopbackOnly (sockets : list Socket) (listener : AddrPort) : option err * ask :=
  match checkSockets (wanted listener) sockets false (mkAsk ∅ []) with
  | (inl e, a) => (Some e, a)
  | (inr true, a) => (None, a)
  | (inr false, a) => (Some (Wrap "the tree's listener was not observed" [Sentinel ErrBeyondLoopback]), a)
  end.
End Check.

(** [OwnedByTree]: [processCreation] and [contains] answer as given; [None] is a
    nil function. *)
Definition OwnedByTree (processCreation : Z → result Time) (contains : option (Z → Time → result bool)) (pid : Z) : bool :=
  match contains with
  | None => false
  | Some contains =>
      if pid <=? 0 then false
      else match processCreation pid with
           | Err _ => false
           | Ok started => match contains pid started with Ok is_in => is_in | Err _ => false end
           end
  end.

(** [CheckTreeLoopback], over the tables [Sockets] reads. *)
Definition CheckTreeLoopback (tables : result (list Socket)) (processCreation : Z → result Time) (listener : AddrPort)
    (contains : option (Z → Time → result bool)) : option err :=
  match tables with
  | Err e => Some (Wrap "owner tables" [Sentinel ErrBeyondLoopback])
  | Ok sockets => (CheckLoopbackOnly (λ _, OwnedByTree processCreation contains) sockets listener).1
  end.

(** ** The owner tables *)

Record ownerTableLayout := mkLayout {
  proto : string; rowSize : nat; addrAt : nat; addrBytes : nat; portAt : nat; pidAt : nat
}.

Definition tcp4OwnerLayout : ownerTableLayout := mkLayout "tcp" 24 4 4 8 20.
Definition tcp6OwnerLayout : ownerTableLayout := mkLayout "tcp" 56 0 16 20 52.
Definition udp4OwnerLayout : ownerTableLayout := mkLayout "udp" 12 0 4 4 8.
Definition udp6OwnerLayout : ownerTableLayout := mkLayout "udp" 28 0 16 20 24.

(** One row; [None] is a panic, an error is the address's. *)
Definition ownerRow (l : ownerTableLayout) (row : list byte) : option (result Socket) :=
  a ← slice row (addrAt l) (addrAt l + addrBytes l);
  match AddrFromSlice (map bz a) with
  | None => Some (Err (Plain "owner table address"))
  | Some addr =>
      hi ← row !! portAt l;
      lo ← row !! (portAt l + 1)%nat;
      p ← slice row (pidAt l) (length row);
      pid ← le32 p;
      Some (Ok (mkSocket (proto l) addr (Z.lor (Z.shiftl (bz hi) 8) (bz lo)) pid))
  end.

(** The loop over [count - i] rows. *)
Fixpoint ownerRows (l : ownerTableLayout) (rows : list byte) (i todo : nat) : option (result (list Socket)) :=
  match todo with
  | O => Some (Ok [])
  | S todo =>
      row ← slice rows (i * rowSize l) ((i + 1) * rowSize l);
      s ← ownerRow l row;
      match s with
      | Err e => Some (Err e)
      | Ok s =>
          rest ← ownerRows l rows (i + 1) todo;
          Some (match rest with Err e => Err e | Ok rest => Ok (s :: rest) end)
      end
  end.

(** [parseOwnerTable] where an [int] has 64 bits; [None] is a panic. *)
Definition parseOwnerTable (buf : list byte) (l : ownerTableLayout) : option (result (list Socket)) :=
  if (length buf <? 4)%nat then Some (Err (Plain "owner table shorter than its count"))
  else
    count ← le32 buf;
    let rows := drop 4 buf in
    if (count <? 0) || (Z.of_nat (length rows) / Z.of_nat (rowSize l) <? count)
    then Some (Err (Plain "owner table count exceeds its buffer"))
    else ownerRows l rows 0 (Z.to_nat count).

(** ** What the rule decides *)

(** A socket the rule is about: beyond loopback, or the tree's TCP listener. *)
Definition is_beyond (s : Socket) : Prop := IsLoopback (Unmap (SAddr s)) = false.

Definition is_listener (want : AddrPort) (s : Socket) : Prop :=
  IsLoopback (Unmap (SAddr s)) = true /\ Proto s = "tcp" /\ mkAddrPort (Unmap (SAddr s)) (SPort s mod 2 ^ 16) = want.

Section Rule.
Context (owned : list Z → Z → bool).

(** The memo holds answers that [owned] gave, each asked once. *)
Record memo_ok (a : ask) : Prop := {
  memo_answers pid b : membership a !! pid = Some b →
    (0 < pid /\ pid ∈ asked a /\ ∃ seen, owned seen pid = b) \/ (pid <= 0 /\ b = false);
  memo_asked pid : pid ∈ asked a → 0 < pid /\ is_Some (membership a !! pid);
  memo_once : NoDup (asked a)
}.

Lemma member_spec pid a b a' : memo_ok a → member owned pid a = (b, a') →
  memo_ok a' /\ membership a ⊆ membership a' /\ membership a' !! pid = Some b /\
  (∀ q, q ∈ asked a' → q ∈ asked a \/ q = pid).
Proof.
  intros Hok. unfold member. destruct (membership a !! pid) as [i|] eqn:Hl.
  { intros [= <- <-]. split_and!; auto. }
  assert (∀ v seen, memo_ok (mkAsk (<[pid:=v]> (membership a)) seen) → membership a ⊆ <[pid:=v]> (membership a)) as Hsub.
  { intros v _ _. by apply insert_subseteq. }
  case_goal; to_prop; intros [= <- <-]; cbn [membership asked].
  - split_and!; [|by apply insert_subseteq|by rewrite lookup_insert_eq|set_solver].
    constructor; cbn [membership asked].
    + intros q b Hq. apply lookup_insert_Some in Hq as [[<- <-]|[Hne Hq]]; [left; split_and!; [done|set_solver|eauto]|].
      destruct (memo_answers _ Hok _ _ Hq) as [(? & ? & ?)|?]; [left; set_solver|by right].
    + intros q [->|Hq]%elem_of_cons; [split; [done|]; by rewrite lookup_insert_eq|].
      destruct (memo_asked _ Hok _ Hq) as [? [b Hb]]. split; [done|]. exists b.
      rewrite lookup_insert_ne; [done|]. intros <-. congruence.
    + apply NoDup_cons. split; [|apply Hok]. intros Hin. destruct (memo_asked _ Hok _ Hin) as [_ [? ?]]. congruence.
  - split_and!; [|by apply insert_subseteq|by rewrite lookup_insert_eq|auto].
    constructor; cbn [membership asked].
    + intros q b Hq. apply lookup_insert_Some in Hq as [[<- <-]|[Hne Hq]]; [right; split; [lia|done]|].
      by apply (memo_answers _ Hok).
    + intros q Hq. destruct (memo_asked _ Hok _ Hq) as [? [b Hb]]. split; [done|]. exists b.
      rewrite lookup_insert_ne; [done|]. intros <-. congruence.
    + apply Hok.
Qed.

(** What a loop of [checkSockets] that ends with [r] and [a'] has decided. *)
Definition decided (want : AddrPort) (sockets : list Socket) (expected : bool) (r : err + bool) (a' : ask) : Prop :=
  match r with
  | inl e => errors_is e ErrBeyondLoopback = true /\
      ∃ s, s ∈ sockets /\ is_beyond s /\ membership a' !! SPID s = Some true
  | inr found =>
      (∀ s, s ∈ sockets → is_beyond s → membership a' !! SPID s = Some false) /\
      if found then expected = true \/ ∃ s, s ∈ sockets /\ is_listener want s /\ membership a' !! SPID s = Some true
      else expected = false /\ ∀ s, s ∈ sockets → is_listener want s → membership a' !! SPID s = Some false
  end.

Lemma decided_skip want s rest expected r a' :
  (is_beyond s → membership a' !! SPID s = Some false) →
  (is_listener want s → expected = true \/ membership a' !! SPID s = Some false) →
  decided want rest expected r a' → decided want (s :: rest) expected r a'.
Proof.
  intros Hb Hl. destruct r as [e|found]; cbn.
  - intros [He (q & Hq & ?)]. split; [done|]. exists q. split; [by right|done].
  - intros [Hall Hf]. split; [intros q [->|Hq]%elem_of_cons; [auto|auto]|]. destruct found.
    + destruct Hf as [?|(q & ? & ?)]; [by left|right; exists q; split; [by right|done]].
    + destruct Hf as [-> Hf]. split; [done|]. intros q [->|Hq]%elem_of_cons Hlq; [|auto]. by destruct (Hl Hlq).
Qed.

Lemma asked_step (A A1 A' : list Z) s rest (P : Socket → Prop) :
  (∀ q, q ∈ A1 → q ∈ A \/ q = SPID s) → (∀ q, q ∈ A' → q ∈ A1 \/ ∃ t, t ∈ rest /\ SPID t = q /\ P t) → P s →
  ∀ q, q ∈ A' → q ∈ A \/ ∃ t, t ∈ s :: rest /\ SPID t = q /\ P t.
Proof.
  intros H1 H2 Hs q Hq. destruct (H2 _ Hq) as [Hq1|(t & Ht & ?)]; [|right; exists t; by rewrite elem_of_cons; auto].
  destruct (H1 _ Hq1) as [?| ->]; [by left|right; exists s]. split_and!; [by left|done|done].
Qed.

Lemma checkSockets_spec want sockets expected a r a' :
  memo_ok a → checkSockets owned want sockets expected a = (r, a') →
  memo_ok a' /\ membership a ⊆ membership a' /\ decided want sockets expected r a' /\
  (∀ q, q ∈ asked a' → q ∈ asked a \/ ∃ s, s ∈ sockets /\ SPID s = q /\ (is_beyond s \/ is_listener want s)).
Proof.
  revert expected a. induction sockets as [|s rest IH]; intros expected a Hok; cbn [checkSockets].
  { intros [= <- <-]. split_and!; [done|done| |by left]. split; [set_solver|]. destruct expected; [by left|split; [done|set_solver]]. }
  destruct (negb (IsLoopback (Unmap (SAddr s)))) eqn:Hb.
  - apply negb_true_iff in Hb. destruct (member owned (SPID s) a) as [b a1] eqn:Hm.
    destruct (member_spec _ _ _ _ Hok Hm) as (Hok1 & Hsub & Hl & Hask).
    destruct b; [intros [= <- <-]; split_and!; [done|done| |]|].
    + split; [done|]. exists s. split_and!; [by left|done|done].
    + intros q [? | -> ]%Hask; [by left|right]. exists s. split_and!; [by left|done|by left].
    + intros Hr. destruct (IH _ _ Hok1 Hr) as (Hok' & Hsub' & Hd & Hask').
      split_and!; [done|by etrans| |].
      * apply decided_skip; [intros _; by eapply lookup_weaken| |done]. intros [? _]. congruence.
      * apply (asked_step _ _ _ s rest (λ t, is_beyond t \/ is_listener want t) Hask Hask'). by left.
  - apply negb_false_iff in Hb. case_goal.
    + to_prop. apply bool_decide_eq_true in H0. subst.
      destruct (member owned (SPID s) a) as [b a1] eqn:Hm.
      destruct (member_spec _ _ _ _ Hok Hm) as (Hok1 & Hsub & Hl & Hask).
      intros Hr. destruct (IH _ _ Hok1 Hr) as (Hok' & Hsub' & Hd & Hask').
      pose proof (lookup_weaken _ _ _ _ Hl Hsub') as Hl'.
      assert (is_listener (mkAddrPort (Unmap (SAddr s)) (SPort s mod 2 ^ 16)) s) as Hlis.
      { by split_and!. }
      split_and!; [done|by etrans| |].
      * rewrite orb_false_r in Hd. destruct b.
        -- destruct r as [e|found]; cbn in *; [destruct Hd as [? (t & ? & ?)]; split; [done|]; exists t; split; [by right|done]|].
           destruct Hd as [Hall Hf]. split; [intros t [->|?]%elem_of_cons Ht; [unfold is_beyond in Ht; congruence|auto]|].
           destruct found; [|by destruct Hf]. right. exists s. split_and!; [by left|done|done].
        -- apply decided_skip; [unfold is_beyond; congruence|intros _; by right|done].
      * apply (asked_step _ _ _ s rest (λ t, is_beyond t \/ is_listener _ t) Hask Hask'). by right.
    + intros Hr. destruct (IH _ _ Hok Hr) as (Hok' & Hsub' & Hd & Hask').
      split_and!; [done|done| |].
      * apply decided_skip; [unfold is_beyond; congruence| |done]. intros (_ & Hp & Hw). left.
        rewrite Hp, Hw, String.eqb_refl, bool_decide_eq_true_2 in E by done. by destruct expected.
      * intros q [?|(t & ? & ?)]%Hask'; [by left|right; exists t]. split; [by right|done].
Qed.
End Rule.

Lemma memo_empty owned : memo_ok owned (mkAsk ∅ []).
Proof. constructor; cbn; [by intros ?? ?%lookup_empty_Some|by intros ? ?%not_elem_of_nil|constructor]. Qed.

(** Under answers that do not change, the memo holds the answers. *)
Lemma memo_fixed (f : Z → bool) a pid b : (∀ p, p <= 0 → f p = false) →
  memo_ok (λ _, f) a → membership a !! pid = Some b → b = f pid.
Proof.
  intros Hneg Hok Hl. destruct (memo_answers _ _ Hok _ _ Hl) as [(_ & _ & ? & <-)|[Hle ->]]; [done|]. by rewrite Hneg.
Qed.

Lemma OwnedByTree_positive creation contains p : p <= 0 → OwnedByTree creation contains p = false.
Proof. intros Hp. unfold OwnedByTree. destruct contains; [|done]. by rewrite (proj2 (Z.leb_le _ _)). Qed.

Lemma CheckLoopbackOnly_fixed (f : Z → bool) sockets listener : (∀ p, p <= 0 → f p = false) →
  let r := CheckLoopbackOnly (λ _, f) sockets listener in
  (r.1 = None <-> (∀ s, s ∈ sockets → is_beyond s → f (SPID s) = false) /\
                  ∃ s, s ∈ sockets /\ is_listener (wanted listener) s /\ f (SPID s) = true) /\
  match r.1 with Some e => errors_is e ErrBeyondLoopback = true | None => True end /\
  NoDup (asked r.2) /\
  (∀ pid, pid ∈ asked r.2 → 0 < pid /\
     ∃ s, s ∈ sockets /\ SPID s = pid /\ (is_beyond s \/ is_listener (wanted listener) s)).
Proof.
  intros Hneg r. subst r. unfold CheckLoopbackOnly.
  destruct (checkSockets _ _ _ _ _) as [r a] eqn:Hr.
  destruct (checkSockets_spec _ _ _ _ _ _ _ (memo_empty _) Hr) as (Hok & _ & Hd & Hask).
  assert (∀ pid b, membership a !! pid = Some b → b = f pid) as Hf by (intros; by eapply memo_fixed).
  assert (NoDup (asked a) /\ ∀ pid, pid ∈ asked a → 0 < pid /\
     ∃ s, s ∈ sockets /\ SPID s = pid /\ (is_beyond s \/ is_listener (wanted listener) s)) as [Hnd Hasks].
  { split; [apply Hok|]. intros pid Hp. split; [by apply (memo_asked _ _ Hok)|].
    by destruct (Hask _ Hp) as [?%not_elem_of_nil|?]. }
  destruct r as [e|found]; [|destruct found]; cbn in *; destruct Hd as [Hall Hlis]; (split; [|by split_and!]).
  - split; [done|]. intros [Hno _]. destruct Hlis as (s & Hs & Hb & Hm).
    specialize (Hf _ _ Hm). rewrite (Hno s Hs Hb) in Hf. done.
  - split; [|done]. intros _. split; [intros s Hs Hb; by rewrite <- (Hf _ _ (Hall s Hs Hb))|].
    destruct Hlis as [?|(s & ? & ? & Hm)]; [done|]. exists s. split_and!; [done|done|]. by rewrite <- (Hf _ _ Hm).
  - split; [done|]. intros [_ (s & Hs & Hl & Hm)]. destruct Hlis as [_ Hlis].
    specialize (Hf _ _ (Hlis s Hs Hl)). congruence.
Qed.

(** A contained process tree passes exactly when it stays on loopback.
    [CheckTreeLoopback] accepts exactly when the owner tables could be read, no
    socket beyond loopback (IPv4-mapped forms unmapped) belongs to a member of the
    tree, and a member holds the TCP listener expected; so an empty table never
    passes. Every refusal is [ErrBeyondLoopback]. Each process is asked about at
    most once, and only where its membership decides the answer. *)
Theorem tree_loopback_exact tables creation listener contains :
  let owned := OwnedByTree creation contains in
  (CheckTreeLoopback tables creation listener contains = None <->
     ∃ sockets, tables = Ok sockets /\
       (∀ s, s ∈ sockets → is_beyond s → owned (SPID s) = false) /\
       ∃ s, s ∈ sockets /\ is_listener (wanted listener) s /\ owned (SPID s) = true) /\
  match CheckTreeLoopback tables creation listener contains with
  | Some e => errors_is e ErrBeyondLoopback = true
  | None => True
  end /\
  ∀ sockets, let pids := asked (CheckLoopbackOnly (λ _, owned) sockets listener).2 in
    NoDup pids /\
    ∀ pid, pid ∈ pids → 0 < pid /\
      ∃ s, s ∈ sockets /\ SPID s = pid /\ (is_beyond s \/ is_listener (wanted listener) s).
Proof.
  intros owned. pose proof (λ sockets, CheckLoopbackOnly_fixed owned sockets listener (OwnedByTree_positive creation contains)) as H.
  split_and!.
  - unfold CheckTreeLoopback. destruct tables as [sockets|e]; [|split; [done|by intros (? & ? & _)]].
    etrans; [apply (H sockets)|]. split; [intros []; by exists sockets|by intros (? & [= <-] & ?)].
  - unfold CheckTreeLoopback. destruct tables as [sockets|e]; [apply (H sockets)|done].
  - intros sockets. split; apply (H sockets).
Qed.

(** ** The parser *)

Definition ownerLayouts : list ownerTableLayout := [tcp4OwnerLayout; tcp6OwnerLayout; udp4OwnerLayout; udp6OwnerLayout].

(** A table as the system lays it out, with zeros in the fields of a row that the
    parser does not read. *)
Definition put {A} (at_ : nat) (v l : list A) : list A := take at_ l ++ v ++ drop (at_ + length v) l.

Definition rowBytes (l : ownerTableLayout) (s : Socket) : list byte :=
  put (pidAt l) (le32_put (SPID s))
    (put (portAt l) [zb (Z.shiftr (SPort s) 8); zb (SPort s)]
       (put (addrAt l) (map zb (SAddr s)) (replicate (rowSize l) x00))).

Definition tableBytes (l : ownerTableLayout) (sockets : list Socket) : list byte :=
  le32_put (Z.of_nat (length sockets)) ++ concat (map (rowBytes l) sockets).

(** A socket a table of layout [l] can name. *)
Definition rowable (l : ownerTableLayout) (s : Socket) : Prop :=
  Proto s = proto l /\ length (SAddr s) = addrBytes l /\ Forall (λ b, 0 <= b < 256) (SAddr s) /\
  0 <= SPort s < 2 ^ 16 /\ 0 <= SPID s < 2 ^ 32.

Lemma zb_bytes ip : Forall (λ b, 0 <= b < 256) ip → map bz (map zb ip) = ip.
Proof. induction 1 as [|b ip Hb _ IH]; [done|]. cbn. by rewrite IH, bz_zb, Z.mod_small. Qed.

Lemma port_bytes p : 0 <= p < 2 ^ 16 → Z.lor (Z.shiftl (bz (zb (Z.shiftr p 8))) 8) (bz (zb p)) = p.
Proof.
  intros Hp. rewrite !bz_zb. change 256 with (2 ^ 8).
  rewrite (Z.mod_small (Z.shiftr p 8)).
  - apply Z.bits_inj'. intros n Hn. rewrite Z.lor_spec, Z.shiftl_spec by lia. destruct (Z.lt_ge_cases n 8).
    + by rewrite Z.mod_pow2_bits_low, Z.testbit_neg_r by lia.
    + rewrite Z.mod_pow2_bits_high, orb_false_r, Z.shiftr_spec by lia. f_equal. lia.
  - rewrite Z.shiftr_div_pow2 by lia. change (2 ^ 8) with 256. change (2 ^ 16) with (256 * 256) in Hp.
    split; [apply Z.div_pos; lia|apply Z.div_lt_upper_bound; lia].
Qed.

#[local] Arguments bz : simpl never.
#[local] Arguments zb : simpl never.
#[local] Arguments be32_get : simpl never.
#[local] Arguments Z.shiftr : simpl never.
#[local] Arguments Z.shiftl : simpl never.
#[local] Arguments Z.lor : simpl never.

Lemma row_round_trip l s : l ∈ ownerLayouts → rowable l s →
  length (rowBytes l s) = rowSize l /\ ownerRow l (rowBytes l s) = Some (Ok s).
Proof.
  intros Hl (Hp & Hlen & Hb & Hport & Hpid). destruct s as [pr ip port pid]; cbn in *.
  pose proof (zb_bytes ip Hb) as Hip. pose proof (port_bytes port Hport) as Hpo.
  pose proof (be32_get_put pid Hpid) as Hle. subst pr. clear Hb Hport Hpid.
  unfold be32_put in Hle. unfold ownerLayouts in Hl.
  rewrite !elem_of_cons in Hl. destruct Hl as [->|[->|[->|[->|Hl]]]]; [..|by apply not_elem_of_nil in Hl]; cbn in Hlen;
    do 17 try (destruct ip as [|? ip]; cbn in Hlen; try lia); cbn in Hip |- *;
    (split; [done|]); unfold ownerRow; cbn; rewrite Hle, Hip, Hpo; done.
Qed.

Lemma ownerRow_total l row : l ∈ ownerLayouts → length row = rowSize l → ∃ s, ownerRow l row = Some (Ok s).
Proof.
  unfold ownerLayouts. rewrite !elem_of_cons. intros Hl Hlen.
  destruct Hl as [->|[->|[->|[->|Hl]]]]; [..|by apply not_elem_of_nil in Hl]; cbn in Hlen;
    do 57 try (destruct row as [|? row]; cbn in Hlen; try lia); by eexists.
Qed.

Lemma ownerRows_total l rows i todo : l ∈ ownerLayouts → ((i + todo) * rowSize l <= length rows)%nat →
  ∃ sockets, ownerRows l rows i todo = Some (Ok sockets) /\ length sockets = todo.
Proof.
  intros Hl. revert i. induction todo as [|todo IH]; intros i Hlen; [by exists []|]. cbn [ownerRows].
  destruct (slice rows (i * rowSize l) ((i + 1) * rowSize l)) as [row|] eqn:Hs.
  - apply slice_length in Hs as Hrl. destruct (ownerRow_total l row Hl) as [s Hrow]; [lia|].
    destruct (IH (i + 1)%nat) as (rest & Hr & Hn); [lia|]. cbn. rewrite Hrow. cbn. rewrite Hr. cbn.
    exists (s :: rest). split; [done|]. cbn. lia.
  - unfold slice in Hs. rewrite !(proj2 (Nat.leb_le _ _)) in Hs by lia. done.
Qed.

Lemma ownerRows_round_trip l sockets pre tail i : l ∈ ownerLayouts → Forall (rowable l) sockets →
  length pre = (i * rowSize l)%nat →
  ownerRows l (pre ++ concat (map (rowBytes l) sockets) ++ tail) i (length sockets) = Some (Ok sockets).
Proof.
  intros Hl Hs. revert pre i. induction Hs as [|s rest Hrow _ IH]; intros pre i Hpre; [done|].
  destruct (row_round_trip l s Hl Hrow) as [Hlen Hdec]. cbn [length map concat ownerRows]. rewrite <- app_assoc.
  replace ((i + 1) * rowSize l)%nat with (i * rowSize l + length (rowBytes l s))%nat by lia.
  rewrite slice_app by done. cbn. rewrite Hdec. cbn. rewrite app_assoc, IH; [done|]. rewrite length_app. lia.
Qed.

Lemma concat_rows_length l sockets : l ∈ ownerLayouts → Forall (rowable l) sockets →
  length (concat (map (rowBytes l) sockets)) = (length sockets * rowSize l)%nat.
Proof.
  intros Hl. induction 1 as [|s rest Hrow _ IH]; [done|]. cbn. rewrite length_app, IH.
  destruct (row_round_trip l s Hl Hrow). lia.
Qed.

Lemma rowSize_pos l : l ∈ ownerLayouts → (0 < rowSize l)%nat.
Proof. unfold ownerLayouts. rewrite !elem_of_cons, elem_of_nil. intros [->|[->|[->|[->|[]]]]]; cbn; lia. Qed.

(** The count check: the rows are parsed exactly when the buffer holds them all. *)
Lemma parse_cases buf l : l ∈ ownerLayouts → (4 <= length buf)%nat →
  ∃ count, le32 buf = Some count /\ 0 <= count /\
    parseOwnerTable buf l =
      if Z.of_nat (length buf) - 4 <? count * Z.of_nat (rowSize l)
      then Some (Err (Plain "owner table count exceeds its buffer"))
      else ownerRows l (drop 4 buf) 0 (Z.to_nat count).
Proof.
  intros Hl Hlen. pose proof (rowSize_pos l Hl) as Hpos. unfold parseOwnerTable.
  rewrite (proj2 (Nat.ltb_ge _ _)) by lia.
  assert (∃ count, le32 buf = Some count) as [count Hc].
  { destruct buf as [|? [|? [|? [|? ?]]]]; cbn in Hlen; try lia. by eexists. }
  exists count. assert (0 <= count) as Hnn.
  { destruct buf as [|? [|? [|? [|? ?]]]]; cbn in Hc; try done. injection Hc as <-. apply be32_get_range. }
  split_and!; [done|done|]. rewrite Hc. cbn. rewrite (proj2 (Z.ltb_ge count 0)) by lia. cbn [orb].
  rewrite length_drop. replace (Z.of_nat (length buf - 4)) with (Z.of_nat (length buf) - 4) by lia.
  assert (((Z.of_nat (length buf) - 4) / Z.of_nat (rowSize l) <? count) =
          (Z.of_nat (length buf) - 4 <? count * Z.of_nat (rowSize l))) as ->; [|done].
  apply eq_true_iff_eq. rewrite !Z.ltb_lt. rewrite (Z.mul_comm count). split; [intros; apply Z.lt_nge; intros Hge|].
  - assert (count <= (Z.of_nat (length buf) - 4) / Z.of_nat (rowSize l)); [|lia]. apply Z.div_le_lower_bound; lia.
  - intros Hlt. apply Z.div_lt_upper_bound; lia.
Qed.

(** The owner-table parser reads back every table and never past the buffer.
    For the four layouts, parsing the bytes of a table gives exactly its sockets,
    whatever follows; a table cut anywhere short is refused; and on any bytes at
    all the parser returns, with an error or with as many sockets as the buffer
    has room for, and never indexes out of range. *)
Theorem owner_table_round_trip l : l ∈ ownerLayouts →
  (∀ sockets tail, Forall (rowable l) sockets → Z.of_nat (length sockets) < 2 ^ 32 →
     parseOwnerTable (tableBytes l sockets ++ tail) l = Some (Ok sockets) /\
     ∀ n, (n < length (tableBytes l sockets))%nat →
       ∃ e, parseOwnerTable (take n (tableBytes l sockets)) l = Some (Err e)) /\
  ∀ buf, match parseOwnerTable buf l with
         | None => False
         | Some (Err _) => True
         | Some (Ok sockets) => (4 + length sockets * rowSize l <= length buf)%nat
         end.
Proof.
  intros Hl. split.
  - intros sockets tail Hs Hn. pose proof (concat_rows_length l sockets Hl Hs) as Hcl. split.
    + destruct (parse_cases (tableBytes l sockets ++ tail) l Hl) as (count & Hc & _ & ->); [cbn; lia|].
      unfold tableBytes in Hc. rewrite <- app_assoc, le32_put_get in Hc by lia. injection Hc as <-.
      unfold tableBytes. rewrite !length_app, Hcl. cbn [length le32_put be32_put rev app].
      rewrite (proj2 (Z.ltb_ge _ _)) by lia. rewrite Nat2Z.id.
      by apply (ownerRows_round_trip l sockets [] tail 0).
    + intros n Hlt. destruct (decide (n < 4)%nat) as [Hs4|Hs4].
      { unfold parseOwnerTable. rewrite (proj2 (Nat.ltb_lt _ _)); [by eexists|]. rewrite length_take. lia. }
      destruct (parse_cases (take n (tableBytes l sockets)) l Hl) as (count & Hc & _ & ->).
      { rewrite length_take. lia. }
      assert (count = Z.of_nat (length sockets)) as ->.
      { unfold tableBytes in Hc. rewrite take_app_ge in Hc by (cbn; lia). rewrite le32_put_get in Hc by lia. congruence. }
      rewrite (proj2 (Z.ltb_lt _ _)); [by eexists|]. rewrite length_take. unfold tableBytes in Hlt |- *.
      rewrite length_app, Hcl in Hlt. rewrite length_app, Hcl. cbn [length le32_put be32_put rev app] in *. lia.
  - intros buf. destruct (decide (length buf < 4)%nat) as [Hs4|Hs4].
    { unfold parseOwnerTable. by rewrite (proj2 (Nat.ltb_lt _ _)) by lia. }
    destruct (parse_cases buf l Hl) as (count & Hc & Hnn & ->); [lia|]. case_goal; [done|]. to_prop.
    destruct (ownerRows_total l (drop 4 buf) 0 (Z.to_nat count) Hl) as (sockets & -> & Hlen); rewrite ?length_drop; lia.
Qed.

(** A table of two sockets. *)
Lemma owner_table_round_trip_witness :
  let rows := [mkSocket "tcp" [127; 0; 0; 1] 41234 7001; mkSocket "tcp" [0; 0; 0; 0] 9000 7002] in
  parseOwnerTable (tableBytes tcp4OwnerLayout rows) tcp4OwnerLayout = Some (Ok rows) /\
  parseOwnerTable (tableBytes tcp4OwnerLayout rows ++ [x01]) tcp4OwnerLayout = Some (Ok rows).
Proof.
  split; [vm_compute; reflexivity|].
  apply (owner_table_round_trip tcp4OwnerLayout); [by left| |done].
  by repeat constructor.
Defined.
