(* ===== verification/ServerConn.v ===== *)
(** listen/server.go: what a client expects of the server it connected to, and
    the connection that checks it around every byte.

    A call's context is shared with other goroutines: it may be cancelled at any
    moment, and its [AfterFunc] then closes the connection. Both can only be seen
    where the code takes the connection's mutex or asks the context, so a context
    carries a script of what happens up to each such moment. *)

From S2P Require Import Prelude GoStrings GoError ProofLadder Peer Binding LinuxOS ProcfsLinux IdentityLinux BindLinux GoIO GoFilepath PathIdentity Program.

(** [ServerExpectation]. *)
Record ServerExpectation := mkExpectation {
  Principal : User;
  SProgram : string;
  SProcess : option Process
}.

(** [ServerExpectation.validate]. *)
Definition validate (e : ServerExpectation) : option err :=
  let u := Principal e in
  let validUser :=
    (String.eqb (Kind u) "windows" && negb (String.eqb (SID u) "")) || (String.eqb (Kind u) "posix" && (0 <=? UID u)) in
  if negb validUser || negb (IsAbs (SProgram e)) || contains_char (Ascii.eqb nul) (SProgram e)
     || match SProcess e with Some p => (PID p <=? 0) || IsZero (StartTime p) | None => false end
  then Some (Wrap "incomplete principal, absolute program, or process instance" [Sentinel ErrServerUntrusted])
  else None.

(** ** Contexts *)

(** What happens up to one moment: nothing, the context ends, or the goroutine
    its [AfterFunc] started gets to run. *)
Inductive ctxEvent := Quiet | Cancel (e : err) | Fire.

Record context := mkCtx { ctx_done : option err; ctx_coming : list ctxEvent; ctx_deadline : option Time }.

(** [ctx.Deadline], with the zero time for none. *)
Definition Deadline (c : context) : Time := default zeroTime (ctx_deadline c).

Section ServerConn.
Context `{FileSystem}.
Context {W S : Type}.
Context (bindServerHandle : Z → option Options → W → (binder S * Peer * S) + (err * W)).
Context (timeNow : S → Time * S).

(** [ServerExpectation.check]. *)
Definition expectationCheck (e : ServerExpectation) (b : Binding S) (s : S) : option err * S :=
  match BindingPeer b s with
  | (Err x, s') => (Some x, s')
  | (Ok p, s') =>
      match AtLeast (PUser p) ProofBound with
      | Err x => (Some x, s')
      | Ok u =>
          match AtLeast (PProcess p) ProofKernel with
          | Err x => (Some x, s')
          | Ok process =>
              match AtLeast (PPath p) ProofBound with
              | Err x => (Some x, s')
              | Ok path =>
                  if negb (String.eqb (Kind u) (Kind (Principal e)))
                     || (String.eqb (Kind u) "windows" && negb (String.eqb (SID u) (SID (Principal e))))
                     || (String.eqb (Kind u) "posix" && negb (UID u =? UID (Principal e)))
                  then (Some (Plain "server principal mismatch"), s')
                  else if negb (SameSubjectProgram path (SProgram e)) then (Some (Plain "server program mismatch"), s')
                  else if match SProcess e with
                          | Some q => negb (PID process =? PID q) || negb (StartTime process =? StartTime q)
                          | None => false
                          end
                  then (Some (Plain "server process instance mismatch"), s')
                  else (None, s')
              end
          end
      end
  end.

(** [serverConn]. [handle] is the connection as the platform sees it and
    [platform] what it knows of it before there is a binding; [watched] says an
    [AfterFunc] of the current context is registered. *)
Record serverConn := mkServerConn {
  net : conn;
  handle : netConn;
  platform : W;
  sc_closed : bool;
  binding : option (Binding S * S);
  expectation : option ServerExpectation;
  watched : bool
}.

(** The state of a call: its context and the connection that holds it. *)
Definition guarded : Type := context * serverConn.

Definition set_net (c : serverConn) (n : conn) : serverConn :=
  mkServerConn n (handle c) (platform c) (sc_closed c) (binding c) (expectation c) (watched c).
Definition set_binding (c : serverConn) (b : option (Binding S * S)) : serverConn :=
  mkServerConn (net c) (handle c) (platform c) (sc_closed c) b (expectation c) (watched c).
Definition set_expectation (c : serverConn) (e : ServerExpectation) : serverConn :=
  mkServerConn (net c) (handle c) (platform c) (sc_closed c) (binding c) (Some e) (watched c).
Definition set_platform (c : serverConn) (w : W) : serverConn :=
  mkServerConn (net c) (handle c) w (sc_closed c) (binding c) (expectation c) (watched c).
Definition set_watched (c : serverConn) (b : bool) : serverConn :=
  mkServerConn (net c) (handle c) (platform c) (sc_closed c) (binding c) (expectation c) b.

(** [serverConn.Close]; closing the connection below reports nothing here. *)
Definition scClose (c : serverConn) : serverConn :=
  if sc_closed c then c
  else
    let b := match binding c with Some (b, s) => Some (b, (BindingClose b s).2) | None => None end in
    mkServerConn (connClose (net c)) (handle c) (platform c) true b (expectation c) (watched c).

(** The moment before the mutex is taken or the context asked. *)
Definition moment (g : guarded) : guarded :=
  let '(x, c) := g in
  match ctx_coming x with
  | [] => g
  | Quiet :: rest => (mkCtx (ctx_done x) rest (ctx_deadline x), c)
  | Cancel e :: rest =>
      (mkCtx (match ctx_done x with Some d => Some d | None => Some e end) rest (ctx_deadline x), c)
  | Fire :: rest =>
      (mkCtx (ctx_done x) rest (ctx_deadline x),
       match ctx_done x with Some _ => if watched c then scClose c else c | None => c end)
  end.

Definition untrusted (e : err) : err := Wrap "" [Sentinel ErrServerUntrusted; e].

(** [serverConn.checkLocked]. *)
Definition checkLocked (g : guarded) : option err * guarded :=
  let '(x, c) := g in
  if sc_closed c then (Some (Sentinel NetErrClosed), g)
  else match ctx_done x with
  | Some e => (Some e, g)
  | None =>
      match binding c with
      | None => (None, g)
      | Some (b, s) =>
          match expectation c with
          | None => (Some (Plain "runtime error: nil pointer dereference"), g)
          | Some want =>
              let '(r, s') := expectationCheck want b s in
              (match r with Some e => Some (untrusted e) | None => None end, (x, set_binding c (Some (b, s'))))
          end
      end
  end.

(** [serverConn.check]. *)
Definition scCheck (g : guarded) : option err * guarded := checkLocked (moment g).

(** [serverConn.authenticate]. *)
Definition authenticate (e : option ServerExpectation) (at_ : Time) (g : guarded) : option err * guarded :=
  let '(x, c) := moment g in
  if sc_closed c then (Some (Sentinel NetErrClosed), (x, c))
  else match ctx_done x with
  | Some d => (Some d, (x, c))
  | None =>
      match e with
      | None => (None, (x, c))
      | Some want =>
          let c := set_expectation c want in
          match BindServerConn bindServerHandle timeNow (handle c) (Some (mkOptions at_ false true "")) (platform c) with
          | inr (e', w) => (Some (untrusted e'), (x, set_platform c w))
          | inl (b, s) => checkLocked (x, set_binding c (Some (b, s)))
          end
      end
  end.

(** [serverConn.use]: the call's context replaces the last one's. *)
Definition use (x : context) (g : guarded) : option err * guarded :=
  let '(x0, c) := moment g in
  if sc_closed c then (Some (Sentinel NetErrClosed), (x0, c))
  else
    let '(e, n) := connSetDeadline (Deadline x) (net c) in
    let c := set_net c n in
    match e with
    | Some e => (Some e, (x, c))
    | None => (None, (x, set_watched c true))
    end.

(** The [stop] of a context's [AfterFunc]: true when the context had not ended. *)
Definition stop (g : guarded) : bool * guarded :=
  let '(x, c) := moment g in
  match ctx_done x with
  | None => (true, (x, set_watched c false))
  | Some _ => (false, (x, c))
  end.

(** [serverConn.Read]. *)
Definition scRead (n : nat) (g : guarded) : list byte * option err * guarded :=
  match scCheck g with
  | (Some e, g) => ([], Some e, g)
  | (None, (x, c)) =>
      let '(bs, e, nc) := connRead n (net c) in
      match scCheck (x, set_net c nc) with
      | (Some e', g) => ([], Some e', g)
      | (None, g) => (bs, e, g)
      end
  end.

(** [serverConn.Write]. *)
Definition scWrite (p : list byte) (g : guarded) : Z * option err * guarded :=
  match scCheck g with
  | (Some e, g) => (0, Some e, g)
  | (None, (x, c)) =>
      let '(n, e, nc) := connWrite p (net c) in (n, e, (x, set_net c nc))
  end.

#[global] Instance guarded_Reader : Reader guarded :=
  {| read := scRead;
     incoming g := if sc_closed g.2 then ([], Sentinel NetErrClosed) else script_stream (inbox (net g.2));
     reads_left g := length (inbox (net g.2)) |}.

#[global] Instance guarded_Writer : Writer guarded := scWrite.

(** ** What passing the check means *)

(** The server process is the one expected. *)
Definition trusts (e : ServerExpectation) (p : Peer) : Prop :=
  ProofBound <= attr_proof (PUser p) /\ ProofKernel <= attr_proof (PProcess p) /\ ProofBound <= attr_proof (PPath p) /\
  let u := attr_value (PUser p) in
  Kind u = Kind (Principal e) /\
  (Kind u = "windows" → SID u = SID (Principal e)) /\
  (Kind u = "posix" → UID u = UID (Principal e)) /\
  SameSubjectProgram (attr_value (PPath p)) (SProgram e) = true /\
  match SProcess e with
  | Some q => PID (attr_value (PProcess p)) = PID q /\ StartTime (attr_value (PProcess p)) = StartTime q
  | None => True
  end.

Lemma guard_false (a b : bool) : a && negb b = false <-> (a = true → b = true).
Proof. destruct a, b; naive_solver. Qed.

(** [ServerExpectation.check] passes exactly when the recheck raises nothing and
    the captured peer is the one expected. *)
Lemma expectationCheck_none e b s s' :
  expectationCheck e b s = (None, s') <-> recheck (binner b) s = (None, s') /\ trusts e (bpeer b).
Proof.
  unfold expectationCheck, BindingPeer. destruct (recheck (binner b) s) as [[x|] s1]; [naive_solver|].
  unfold trusts. split.
  - destruct (AtLeast (PUser (bpeer b)) ProofBound) as [u|] eqn:Hu; [|done]. apply AtLeast_ok in Hu as (Hu & _ & ->).
    destruct (AtLeast (PProcess (bpeer b)) ProofKernel) as [pr|] eqn:Hpr; [|done]. apply AtLeast_ok in Hpr as (Hpr & _ & ->).
    destruct (AtLeast (PPath (bpeer b)) ProofBound) as [pa|] eqn:Hpa; [|done]. apply AtLeast_ok in Hpa as (Hpa & _ & ->).
    case_goal; [done|]. case_goal; [done|]. intros Hlast.
    rewrite !orb_false_iff, !guard_false, negb_false_iff, String.eqb_eq, !String.eqb_eq, Z.eqb_eq in E. to_prop.
    destruct (SProcess e) as [q|]; [|by split_and!; naive_solver].
    destruct (negb _ || negb _) eqn:Eq; [done|]. to_prop. split_and!; naive_solver.
  - intros [[= <-] (Hu & Hpr & Hpa & Hk & Hw & Hp & Hs & Hi)].
    rewrite !AtLeast_meets by (done || (unfold ProofNone, ProofKernel, ProofBound in *; lia)).
    rewrite Hs, Hk in *. rewrite String.eqb_refl. cbn [negb orb].
    rewrite (proj2 (guard_false _ _)), (proj2 (guard_false _ _)); cbn [orb].
    + destruct (SProcess e) as [q|]; [|done]. destruct Hi as [-> ->]. by rewrite !Z.eqb_refl.
    + rewrite String.eqb_eq, Z.eqb_eq. done.
    + rewrite !String.eqb_eq. done.
Qed.

(** At [g] the connection is open, the call lives, and the platform, asked now,
    lets the captured peer stand as the server [e] describes. *)
Definition vouched (e : ServerExpectation) (g : guarded) : Prop :=
  sc_closed g.2 = false /\ ctx_done g.1 = None /\
  ∃ b s s', binding g.2 = Some (b, s) /\ recheck (binner b) s = (None, s') /\ trusts e (bpeer b).

(** The connection is bound, to the expectation [e]. *)
Definition bound_to (e : ServerExpectation) (c : serverConn) : Prop :=
  expectation c = Some e /\ is_Some (binding c).

Lemma checkLocked_vouched e g g' : bound_to e g.2 → checkLocked g = (None, g') →
  vouched e g /\ net g'.2 = net g.2 /\ ctx_done g'.1 = None /\ sc_closed g'.2 = false.
Proof.
  destruct g as [x c]. intros [He [[b s] Hb]]. unfold checkLocked, vouched. cbn in *. rewrite Hb, He.
  destruct (sc_closed c) eqn:Hc; [done|]. destruct (ctx_done x) eqn:Hd; [done|].
  destruct (expectationCheck e b s) as [[r|] s'] eqn:Hk; [done|]. intros [= <-].
  apply expectationCheck_none in Hk as [Hr Ht]. cbn. split_and!; [done|done|by eexists _, _, _|done|done|done].
Qed.

(** ** Calls on a bound connection *)

Lemma close_sent c : sent (net (scClose c)) = sent (net c).
Proof. unfold scClose. by case_goal. Qed.

Lemma moment_sent g : sent (net (moment g).2) = sent (net g.2).
Proof.
  destruct g as [x c]. unfold moment. destruct (ctx_coming x) as [|[]]; [done..|]. cbn.
  destruct (ctx_done x); [|done]. destruct (watched c); [apply close_sent|done].
Qed.

Lemma check_sent g r g' : scCheck g = (r, g') → sent (net g'.2) = sent (net g.2).
Proof.
  intros Hk. rewrite <- (moment_sent g). unfold scCheck, checkLocked in Hk. destruct (moment g) as [x c].
  repeat case_hyp Hk; simplify_eq; done.
Qed.

Lemma use_sent x g : sent (net (use x g).2.2) = sent (net g.2).
Proof.
  rewrite <- (moment_sent g). unfold use. destruct (moment g) as [y c]. case_goal; [done|].
  unfold connSetDeadline. by destruct (conn_closed (net c)).
Qed.

Lemma bound_close e c : bound_to e c → bound_to e (scClose c).
Proof. intros [He [[b s] Hb]]. unfold scClose. case_goal; [by split; [|eexists]|]. split; [done|]. cbn. rewrite Hb. by eexists. Qed.

Lemma bound_moment e g : bound_to e g.2 → bound_to e (moment g).2.
Proof.
  destruct g as [x c]. unfold moment. intros Hb. cbn in Hb.
  destruct (ctx_coming x) as [|[]]; [done..|]. cbn. destruct (ctx_done x); [|done].
  destruct (watched c); [by apply bound_close|done].
Qed.

Lemma bound_checkLocked e g : bound_to e g.2 → bound_to e (checkLocked g).2.2.
Proof.
  destruct g as [x c]. intros [He [[b s] Hb]]. cbn in *. unfold checkLocked. rewrite Hb, He.
  repeat case_goal; cbn; (split; [done|by eexists]).
Qed.

Lemma moment_net g : sc_closed (moment g).2 = false → net (moment g).2 = net g.2.
Proof.
  destruct g as [x c]. unfold moment. destruct (ctx_coming x) as [|[]]; [done..|]. cbn.
  destruct (ctx_done x); [|done]. destruct (watched c); [|done]. unfold scClose. by destruct (sc_closed c).
Qed.

(** What the holder of the connection does with it. *)
Inductive scOp := ORead (n : nat) | OWrite (p : list byte) | OUse (x : context) | OStop | OClose.

(** One operation: the bytes it hands out, and the state it leaves. *)
Definition scStep (o : scOp) (g : guarded) : list byte * guarded :=
  match o with
  | ORead n => let '(bs, _, g') := scRead n g in (bs, g')
  | OWrite p => let '(_, _, g') := scWrite p g in ([], g')
  | OUse x => ([], (use x g).2)
  | OStop => ([], (stop g).2)
  | OClose => ([], ((moment g).1, scClose (moment g).2))
  end.

Definition scRun (ops : list scOp) (g : guarded) : guarded := fold_left (λ g o, (scStep o g).2) ops g.

Lemma bound_check e g : bound_to e g.2 → bound_to e (scCheck g).2.2.
Proof. intros Hb. apply bound_checkLocked, bound_moment, Hb. Qed.

Lemma bound_step e o g : bound_to e g.2 → bound_to e (scStep o g).2.2.
Proof.
  intros Hb. destruct o; cbn [scStep].
  - unfold scRead. pose proof (bound_check e g Hb) as Hc. destruct (scCheck g) as [[x|] [y c]]; [done|].
    destruct (connRead n (net c)) as [[bs x] nc].
    pose proof (bound_check e (y, set_net c nc) Hc) as Hc'. by destruct (scCheck (y, set_net c nc)) as [[z|] g'].
  - unfold scWrite. pose proof (bound_check e g Hb) as Hc. destruct (scCheck g) as [[x|] [y c]]; [done|].
    by destruct (connWrite p (net c)) as [[n x] nc].
  - unfold use. pose proof (bound_moment e g Hb) as Hm. destruct (moment g) as [y c]. case_goal; [done|].
    by destruct (connSetDeadline _ _) as [[]].
  - unfold stop. pose proof (bound_moment e g Hb) as Hm. destruct (moment g) as [y c]. by case_goal.
  - cbn. by apply bound_close, bound_moment.
Qed.

Lemma bound_run e ops g : bound_to e g.2 → bound_to e (scRun ops g).2.
Proof. revert g. induction ops as [|o ops IH]; intros g Hb; [done|]. cbn. by apply IH, bound_step. Qed.

Lemma closed_moment g : sc_closed g.2 = true → sc_closed (moment g).2 = true.
Proof.
  destruct g as [x c]. unfold moment. cbn. intros Hc. destruct (ctx_coming x) as [|[]]; [done..|]. cbn.
  destruct (ctx_done x); [|done]. destruct (watched c); [|done]. unfold scClose. by rewrite Hc.
Qed.

Lemma closed_check g : sc_closed g.2 = true → scCheck g = (Some (Sentinel NetErrClosed), moment g).
Proof. intros Hc%closed_moment. unfold scCheck, checkLocked. destruct (moment g). cbn in Hc. by rewrite Hc. Qed.

Lemma closed_step o g : sc_closed g.2 = true → sc_closed (scStep o g).2.2 = true.
Proof.
  intros Hc. pose proof (closed_moment g Hc) as Hm. destruct o; cbn [scStep].
  - unfold scRead. by rewrite closed_check.
  - unfold scWrite. by rewrite closed_check.
  - unfold use. destruct (moment g) as [y c]. cbn in Hm. by rewrite Hm.
  - unfold stop. destruct (moment g) as [y c]. by case_goal.
  - cbn. unfold scClose. by rewrite Hm.
Qed.

Lemma closed_run ops g : sc_closed g.2 = true \/ OClose ∈ ops → sc_closed (scRun ops g).2 = true.
Proof.
  revert g. induction ops as [|o ops IH]; intros g Hc; [destruct Hc as [?|?%not_elem_of_nil]; done|].
  cbn. apply IH. destruct Hc as [Hc|[<-|Hin]%elem_of_cons]; [left; by apply closed_step|left|by right].
  cbn. unfold scClose. by case_goal.
Qed.

Lemma authenticate_bound e at_ g g' : authenticate (Some e) at_ g = (None, g') → bound_to e g'.2 /\ ∃ g0, vouched e g0.
Proof.
  unfold authenticate. destruct (moment g) as [x c]. case_goal; [done|]. case_goal; [done|].
  destruct (BindServerConn _ _ _ _ _) as [[b s]|[? ?]]; [|done]. set (g1 := (x, _)). intros Hk.
  assert (bound_to e g1.2) as Hb by (split; [done|by eexists]).
  destruct (checkLocked_vouched e g1 g' Hb Hk) as (Hv & _). split; [|by exists g1].
  pose proof (bound_checkLocked e g1 Hb) as Hb'. by rewrite Hk in Hb'.
Qed.

(** A passing check, and what it says of the connection it leaves. *)
Lemma scCheck_vouched e g g' : bound_to e g.2 → scCheck g = (None, g') →
  vouched e (moment g) /\ net g'.2 = net g.2 /\ bound_to e g'.2.
Proof.
  intros Hb Hk. destruct (checkLocked_vouched e (moment g) g' (bound_moment e g Hb) Hk) as (Hv & Hn & _).
  pose proof (bound_check e g Hb) as Hb'. rewrite Hk in Hb'. split_and!; [done| |done].
  rewrite Hn. apply moment_net, Hv.
Qed.

(** C3: no byte passes between a client and a server it has not just identified.
    Once [authenticate] accepted a connection against an expectation, then under
    any sequence of reads, writes, reuses by later calls, cancellations and
    closes, an operation that sends a byte, or hands one out, does so only when
    the platform vouched before it that the peer is the expected principal,
    program and process; a byte handed out was vouched for again after it arrived,
    before the caller sees it. After [Close] no byte passes at all. *)
Theorem server_bytes_vouched e at_ g0 g1 ops o :
  authenticate (Some e) at_ g0 = (None, g1) →
  let g := scRun ops g1 in
  let '(bs, g') := scStep o g in
  (bs ≠ [] \/ sent (net g'.2) ≠ sent (net g.2) → vouched e (moment g) /\ OClose ∉ ops) /\
  (bs ≠ [] → ∃ g2, got (net g2.2) = got (net g.2) ++ bs /\ scCheck g2 = (None, g') /\ vouched e (moment g2)).
Proof.
  intros Ha g. destruct (authenticate_bound _ _ _ _ Ha) as [Hb _]. apply (bound_run e ops) in Hb. fold g in Hb.
  assert (vouched e (moment g) → OClose ∉ ops) as Hopen.
  { intros (Hc & _) Hin. assert (sc_closed (moment g).2 = true); [|congruence].
    apply closed_moment, closed_run. by right. }
  destruct o; cbn [scStep].
  - unfold scRead. destruct (scCheck g) as [[x|] [y c]] eqn:Hk.
    { split; [|done]. intros [?|Hs]; [done|]. exfalso. apply Hs. by eapply check_sent. }
    destruct (scCheck_vouched _ _ _ Hb Hk) as (Hv & Hn & Hb'). cbn in Hn, Hb'.
    destruct (connRead n (net c)) as [[bs x] nc] eqn:Hr. apply connRead_got in Hr as (Hg & Hs & _).
    destruct (scCheck (y, set_net c nc)) as [[z|] g'] eqn:Hk'; [split; [by intros _; auto|done]|].
    destruct (scCheck_vouched e (y, set_net c nc) g' Hb' Hk') as (Hv' & Hn' & _). split; [auto|].
    intros _. exists (y, set_net c nc). cbn. rewrite <- Hn. done.
  - unfold scWrite. destruct (scCheck g) as [[x|] [y c]] eqn:Hk.
    { split; [|done]. intros [?|Hs]; [done|]. exfalso. apply Hs. by eapply check_sent. }
    destruct (scCheck_vouched _ _ _ Hb Hk) as (Hv & _). destruct (connWrite p (net c)) as [[n x] nc]. split; [auto|done].
  - split; [|done]. intros [?|Hs]; [done|]. exfalso. apply Hs. apply use_sent.
  - split; [|done]. intros [?|Hs]; [done|]. exfalso. apply Hs. unfold stop.
    pose proof (moment_sent g) as Hm. destruct (moment g) as [y c]. by case_goal.
  - split; [|done]. intros [?|Hs]; [done|]. exfalso. apply Hs. cbn. rewrite close_sent. apply moment_sent.
Qed.

End ServerConn.

(** ** A server on Linux *)

(** The peer of the example machine, as a client's configuration names it. *)
Definition exampleServer : ServerExpectation := mkExpectation (posixUser 1000 1000) "/usr/bin/app" None.

Definition exampleDial : guarded (W:=LState) (S:=LinuxStore) :=
  (mkCtx None [] None, mkServerConn (newConn []) (ConnSyscall true (Ok (Ok 3))) fresh false None None false).

Abbreviation exampleAuthenticate :=
  (@authenticate sampleFS _ _ (BindLinux.bindServerHandle pinningKernel noText quoted itoa) (linuxNow pinningKernel)
     (Some exampleServer) zeroTime exampleDial).

Lemma server_bytes_vouched_witness :
  exampleAuthenticate.1 = None /\
  (∃ g, @vouched sampleFS LState LinuxStore exampleServer g) /\
  sent (net (@scStep sampleFS LState LinuxStore (OWrite [x01]) exampleAuthenticate.2).2.2) = [x01].
Proof.
  assert (exampleAuthenticate.1 = None) as Hok by (vm_compute; reflexivity).
  assert (sent (net exampleAuthenticate.2.2) = []) as Hs by (vm_compute; reflexivity).
  assert (sent (net (@scStep sampleFS LState LinuxStore (OWrite [x01]) exampleAuthenticate.2).2.2) = [x01]) as Hw by (vm_compute; reflexivity).
  split; [exact Hok|]. split; [|exact Hw].
  destruct exampleAuthenticate as [r g1] eqn:E. cbn [fst snd] in Hok, Hs, Hw. subst r.
  pose proof (@server_bytes_vouched sampleFS LState LinuxStore (BindLinux.bindServerHandle pinningKernel noText quoted itoa)
    (linuxNow pinningKernel) exampleServer zeroTime exampleDial g1 [] (OWrite [x01]) E) as H.
  cbn [scRun fold_left] in H. destruct (scStep (OWrite [x01]) g1) as [bs g']. destruct H as [H _].
  cbn [snd] in Hw. exists (moment g1). apply H. right. rewrite Hw, Hs. discriminate.
Defined.
