(* ===== verification/Pool.v ===== *)
(** The pool of listen/pool.go: idle connections kept per endpoint and server
    expectation, and the endpoints known not to serve sessions. Connections are
    known by a number; each operation of the pool is one section of its mutex. *)

From S2P Require Import Prelude GoStrings GoError ProofLadder Peer GoIO GoFilepath PathIdentity Program ServerConn.

Definition poolIdle : Duration := 10 * second.
Definition poolPerEndpoint : nat := 4.
Definition singleMemory : Duration := 30 * second.
Definition sessionAttempts : nat := 3.

(** [FrameClient]; [Dialer] says a custom one is set. *)
Record FrameClient := mkFrameClient {
  Endpoint : string;
  Timeout : Duration;
  MaxFrame : Z;
  Server : option ServerExpectation;
  Dialer : bool;
  UseSessions : bool
}.

(** ** Keys *)

Section Key.
(** [time.Time.String]. *)
Context (timeText : Time → string).

Definition zero_byte : string := of_char nul.

(** [FrameClient.poolKey]. *)
Definition poolKey (c : FrameClient) : string :=
  match Server c with
  | None => Endpoint c
  | Some s =>
      Endpoint c +:+ zero_byte +:+ Kind (Principal s) +:+ zero_byte +:+ SID (Principal s) +:+ zero_byte
        +:+ itoa (UID (Principal s)) +:+ zero_byte +:+ SProgram s
        +:+ match SProcess s with
            | None => ""
            | Some p => zero_byte +:+ itoa (PID p) +:+ zero_byte +:+ timeText (StartTime p)
            end
  end.
End Key.

(** ** The pool *)

Record pooled := mkPooled { pconn : nat; since : Time }.

Record framePool := mkPool { idle : gmap string (list pooled); single : gmap string Time }.

Definition idleOf (p : framePool) (key : string) : list pooled := default [] (idle p !! key).

Definition setIdle (p : framePool) (key : string) (l : list pooled) : framePool :=
  mkPool (<[key:=l]> (idle p)) (single p).

(** [framePool.isSingle]. *)
Definition isSingle (key : string) (now : Time) (p : framePool) : bool * framePool :=
  match single p !! key with
  | Some until => if After now until then (false, mkPool (idle p) (delete key (single p))) else (true, p)
  | None => (false, p)
  end.

(** [framePool.markSingle]. *)
Definition markSingle (key : string) (now : Time) (p : framePool) : framePool :=
  mkPool (idle p) (<[key:=TimeAdd now singleMemory]> (single p)).

(** Dropping the last element of a slice. *)
Definition unsnoc {A} (l : list A) : option (list A * A) :=
  match rev l with [] => None | x :: r => Some (rev r, x) end.

Inductive taken := TakeEmpty | TakeKeep (id : nat) | TakeClose (id : nat).

(** One turn of the loop of [framePool.take]: the list may be empty, its last
    connection good, or one to close. *)
Definition takeOnce (key : string) (now : Time) (intact : bool) (p : framePool) : taken * framePool :=
  match unsnoc (idleOf p key) with
  | None => (TakeEmpty, p)
  | Some (rest, last) =>
      (if (TimeSub now (since last) <? poolIdle) && intact then TakeKeep (pconn last) else TakeClose (pconn last),
       setIdle p key rest)
  end.

(** [framePool.take] with nobody else at the pool: [peeks] are the answers of
    [idleIntact], one a turn. It gives the connection, the ones it closed and the
    answers left. *)
Fixpoint takeLoop (fuel : nat) (key : string) (now : Time) (peeks : list bool) (p : framePool)
    : option nat * list nat * list bool * framePool :=
  match fuel with
  | O => (None, [], peeks, p)
  | S fuel =>
      let '(t, p) := takeOnce key now (default false (head peeks)) p in
      match t with
      | TakeEmpty => (None, [], peeks, p)
      | TakeKeep id => (Some id, [], tail peeks, p)
      | TakeClose id =>
          let '(r, shut, peeks, p) := takeLoop fuel key now (tail peeks) p in (r, id :: shut, peeks, p)
      end
  end.

(** Every turn removes an entry, so one turn more than there are entries is
    enough. *)
Definition take_ (key : string) (now : Time) (peeks : list bool) (p : framePool)
    : option nat * list nat * list bool * framePool :=
  takeLoop (S (length (idleOf p key))) key now peeks p.

(** The expired connections at the front of a list, and the rest. *)
Fixpoint dropExpired (now : Time) (l : list pooled) : list nat * list pooled :=
  match l with
  | [] => ([], [])
  | e :: rest =>
      if poolIdle <=? TimeSub now (since e)
      then let '(shut, kept) := dropExpired now rest in (pconn e :: shut, kept)
      else ([], l)
  end.

(** [framePool.put]: the connections it closed. *)
Definition put_ (key : string) (id : nat) (now : Time) (p : framePool) : list nat * framePool :=
  let '(shut, list) := dropExpired now (idleOf p key) in
  if (poolPerEndpoint <=? length list)%nat then (id :: shut, setIdle p key list)
  else (shut, setIdle p key (list ++ [mkPooled id now])).

(** ** Keys keep expectations apart *)

Definition no_nul (s : string) : Prop := contains_char (Ascii.eqb nul) s = false.

(** A field without NUL ends where its NUL stands. *)
Lemma field_inj (a b x y : string) : no_nul a → no_nul b →
  a +:+ zero_byte +:+ x = b +:+ zero_byte +:+ y → a = b /\ x = y.
Proof.
  revert b. induction a as [|c a IH]; intros [|d b] Ha Hb Heq.
  - change (String nul x = String nul y) in Heq. by injection Heq.
  - change (String nul x = String d (b +:+ zero_byte +:+ y)) in Heq. injection Heq as <- _. done.
  - change (String c (a +:+ zero_byte +:+ x) = String nul y) in Heq. injection Heq as -> _. done.
  - change (String c (a +:+ zero_byte +:+ x) = String d (b +:+ zero_byte +:+ y)) in Heq. injection Heq as -> Heq.
    unfold no_nul in Ha, Hb. cbn in Ha, Hb. apply orb_false_iff in Ha as [_ Ha]. apply orb_false_iff in Hb as [_ Hb].
    destruct (IH b Ha Hb Heq) as [-> ->]. done.
Qed.

Lemma no_nul_app a b : no_nul (a +:+ b) <-> no_nul a /\ no_nul b.
Proof. unfold no_nul. rewrite contains_app. apply orb_false_iff. Qed.

Lemma pretty_N_no_nul x s : no_nul s → no_nul (pretty_N_go x s).
Proof.
  revert s. induction (N.lt_wf_0 x) as [x _ IH]; intros s Hs.
  destruct (decide (0 < x)%N) as [Hx|Hx].
  - rewrite pretty_N_go_step by done. apply IH; [by apply N.div_lt|]. unfold no_nul in *. cbn. rewrite Hs, orb_false_r.
    unfold pretty_N_char. destruct (x `mod` 10)%N as [|d]; [done|]. do 4 try destruct d as [d|d|]; done.
  - assert (x = 0%N) as -> by lia. done.
Qed.

Lemma itoa_no_nul z : no_nul (itoa z).
Proof.
  assert (∀ n : N, no_nul (pretty n)) as Hn.
  { intros n. unfold pretty, pretty_N. case_decide; [done|]. by apply pretty_N_no_nul. }
  unfold itoa, pretty, pretty_Z. destruct z; [done|apply Hn|]. unfold no_nul. cbn. apply Hn.
Qed.

(** Fields a client's configuration leaves without NUL. *)
Definition plain_client (c : FrameClient) : Prop :=
  no_nul (Endpoint c) /\
  match Server c with
  | Some s => no_nul (Kind (Principal s)) /\ no_nul (SID (Principal s)) /\ no_nul (SProgram s)
  | None => True
  end.

(** The process a server expectation pins, as the check compares it. *)
Definition instance_of (s : ServerExpectation) : option (Z * Time) :=
  match SProcess s with Some p => Some (PID p, StartTime p) | None => None end.

(** The fields of a server expectation that decide the check. *)
Definition essence (s : ServerExpectation) : string * string * Z * string * option (Z * Time) :=
  (Kind (Principal s), SID (Principal s), UID (Principal s), SProgram s, instance_of s).

Lemma poolKey_essence timeText c1 c2 : Inj (=) (=) timeText → plain_client c1 → plain_client c2 →
  poolKey timeText c1 = poolKey timeText c2 →
  Endpoint c1 = Endpoint c2 /\ essence <$> Server c1 = essence <$> Server c2.
Proof.
  intros Hinj [He1 Hs1] [He2 Hs2]. unfold poolKey.
  destruct (Server c1) as [s1|], (Server c2) as [s2|]; cbn; [|intros Heq..|done].
  - destruct Hs1 as (Hk1 & Hi1 & Hp1), Hs2 as (Hk2 & Hi2 & Hp2). unfold essence, instance_of.
    intros [-> [-> [-> [Hu Hrest]%field_inj]%field_inj]%field_inj]%field_inj; try (done || apply itoa_no_nul).
    apply (inj pretty) in Hu as ->. split; [done|].
    destruct (SProcess s1) as [q1|], (SProcess s2) as [q2|].
    + apply field_inj in Hrest as [-> [Hpid%(inj pretty) ->%(inj timeText)]%field_inj]; try (done || apply itoa_no_nul).
      by rewrite Hpid.
    + exfalso. assert (no_nul (SProgram s2 +:+ "")) as Hn by by apply no_nul_app. rewrite <- Hrest in Hn.
      apply no_nul_app in Hn as [_ [Hn _]%no_nul_app]. done.
    + exfalso. assert (no_nul (SProgram s1 +:+ "")) as Hn by by apply no_nul_app. rewrite Hrest in Hn.
      apply no_nul_app in Hn as [_ [Hn _]%no_nul_app]. done.
    + assert (∀ s : string, s +:+ "" = s) as Hnil.
      { clear. induction s as [|c s IH]; [done|]. change (String c s +:+ "") with (String c (s +:+ "")). by rewrite IH. }
      rewrite !Hnil in Hrest. by rewrite Hrest.
  - exfalso. rewrite <- Heq in He2. apply no_nul_app in He2 as [_ [Hn _]%no_nul_app]. done.
  - exfalso. rewrite Heq in He1. apply no_nul_app in He1 as [_ [Hn _]%no_nul_app]. done.
Qed.

(** ** Every connection is accounted for *)

(** The pool among the calls that use it: [held] connections belong to a call,
    [gone] ones are closed, and [dialed] says for which key each was made. *)
Record pstate := mkPState {
  pl : framePool;
  held : gset nat;
  gone : gset nat;
  dialed : gmap nat string
}.

Definition ids (p : framePool) (key : string) : list nat := map pconn (idleOf p key).

(** What the calls of a process do to the pool, one mutex section at a time and
    in any order. *)
Inductive pstep : pstate → pstate → Prop :=
| pdial s id key : dialed s !! id = None →
    pstep s (mkPState (pl s) ({[id]} ∪ held s) (gone s) (<[id:=key]> (dialed s)))
| ptake s key now intact : pstep s
    (let '(t, p) := takeOnce key now intact (pl s) in
     match t with
     | TakeEmpty => mkPState p (held s) (gone s) (dialed s)
     | TakeKeep id => mkPState p ({[id]} ∪ held s) (gone s) (dialed s)
     | TakeClose id => mkPState p (held s) ({[id]} ∪ gone s) (dialed s)
     end)
| pput s key id now : id ∈ held s → dialed s !! id = Some key →
    pstep s
    (let '(shut, p) := put_ key id now (pl s) in
     mkPState p (held s ∖ {[id]}) (list_to_set shut ∪ gone s) (dialed s))
| pdrop s id : id ∈ held s → pstep s (mkPState (pl s) (held s ∖ {[id]}) ({[id]} ∪ gone s) (dialed s))
| pmark s key now : pstep s (mkPState (markSingle key now (pl s)) (held s) (gone s) (dialed s))
| psingle s key now : pstep s (mkPState (isSingle key now (pl s)).2 (held s) (gone s) (dialed s)).

Definition pstart : pstate := mkPState (mkPool ∅ ∅) ∅ ∅ ∅.

Definition preachable : pstate → Prop := rtc pstep pstart.

Record pool_ok (s : pstate) : Prop := {
  pool_bound key : (length (idleOf (pl s) key) <= poolPerEndpoint)%nat;
  pool_once key : NoDup (ids (pl s) key);
  pool_key key id : id ∈ ids (pl s) key → dialed s !! id = Some key;
  pool_idle_free key id : id ∈ ids (pl s) key → (id ∉ held s) /\ (id ∉ gone s);
  pool_held_open : held s ## gone s;
  pool_all id : is_Some (dialed s !! id) <-> id ∈ held s \/ id ∈ gone s \/ ∃ key, id ∈ ids (pl s) key
}.

Lemma idleOf_set p key l k : idleOf (setIdle p key l) k = if decide (k = key) then l else idleOf p k.
Proof. unfold idleOf, setIdle. cbn. case_decide; [subst; by rewrite lookup_insert_eq|by rewrite lookup_insert_ne]. Qed.

Lemma ids_set p key l k : ids (setIdle p key l) k = if decide (k = key) then map pconn l else ids p k.
Proof. unfold ids. rewrite idleOf_set. by case_decide. Qed.

Lemma unsnoc_some {A} (l rest : list A) x : unsnoc l = Some (rest, x) → l = rest ++ [x].
Proof.
  unfold unsnoc. destruct (rev l) as [|y r] eqn:E; [done|]. intros [= <- <-].
  by rewrite <- (rev_involutive l), E.
Qed.

Lemma dropExpired_spec now l shut kept : dropExpired now l = (shut, kept) →
  map pconn l = shut ++ map pconn kept /\ (length kept <= length l)%nat /\
  (∀ e, head kept = Some e → TimeSub now (since e) < poolIdle).
Proof.
  revert shut kept. induction l as [|e l IH]; intros shut kept; cbn; [by intros [= <- <-]|].
  case_goal; [destruct (dropExpired now l) as [sh kp]|]; intros [= <- <-]; to_prop.
  - destruct (IH sh kp eq_refl) as (-> & Hle & ?). split_and!; [done|by apply Nat.le_le_succ_r|done].
  - split_and!; [done|done|]. by intros ? [= <-].
Qed.

(** One key's list is replaced and connections move between it, the calls and the
    closed ones, each to one place. *)
Lemma pool_ok_move s key l h g : pool_ok s →
  (length l <= poolPerEndpoint)%nat → NoDup (map pconn l) → h ## g →
  (∀ id, id ∈ map pconn l → dialed s !! id = Some key /\ (id ∉ h) /\ (id ∉ g)) →
  (∀ id, (id ∈ h \/ id ∈ g \/ id ∈ map pconn l) <-> (id ∈ held s \/ id ∈ gone s \/ id ∈ ids (pl s) key)) →
  pool_ok (mkPState (setIdle (pl s) key l) h g (dialed s)).
Proof.
  intros Hok Hlen Hnd Hhg Hl Hmove. constructor; cbn [pl held gone dialed].
  - intros k. rewrite idleOf_set. case_decide; [done|apply Hok].
  - intros k. rewrite ids_set. case_decide; [done|apply Hok].
  - intros k id. rewrite ids_set. case_decide; [subst; apply Hl|apply Hok].
  - intros k id. rewrite ids_set. case_decide as Hk; [subst; apply Hl|]. intros Hin.
    destruct (pool_idle_free _ Hok _ _ Hin) as [Hnh Hng].
    assert (¬ (id ∈ held s \/ id ∈ gone s \/ id ∈ ids (pl s) key)) as Hno.
    { intros [?|[?|Hin']]; [done..|]. pose proof (pool_key _ Hok _ _ Hin). pose proof (pool_key _ Hok _ _ Hin'). congruence. }
    rewrite <- Hmove in Hno. tauto.
  - done.
  - intros id. rewrite (pool_all _ Hok). specialize (Hmove id). split.
    + assert (id ∈ map pconn l → ∃ k, id ∈ ids (setIdle (pl s) key l) k) as Hex.
      { intros Hin. exists key. rewrite ids_set. by case_decide. }
      intros [?|[?|[k Hin]]]; [tauto..|]. destruct (decide (k = key)) as [->|Hk]; [tauto|].
      right; right. exists k. rewrite ids_set. by case_decide.
    + assert (id ∈ ids (pl s) key → ∃ k, id ∈ ids (pl s) k) by eauto.
      intros [?|[?|[k Hin]]]; [tauto..|]. rewrite ids_set in Hin. case_decide; [subst; tauto|eauto].
Qed.

(** Taking: the last entry leaves the list of its key, for the caller or closed. *)
Lemma pool_ok_take s key now intact : pool_ok s →
  match takeOnce key now intact (pl s) with
  | (TakeEmpty, p) => p = pl s /\ idleOf (pl s) key = []
  | (TakeKeep id, p) =>
      pool_ok (mkPState p ({[id]} ∪ held s) (gone s) (dialed s)) /\ dialed s !! id = Some key /\
      ∃ e, e ∈ idleOf (pl s) key /\ pconn e = id /\ TimeSub now (since e) < poolIdle /\ intact = true
  | (TakeClose id, p) =>
      pool_ok (mkPState p (held s) ({[id]} ∪ gone s) (dialed s)) /\ dialed s !! id = Some key /\ id ∈ ids (pl s) key
  end.
Proof.
  intros Hok. unfold takeOnce. destruct (unsnoc (idleOf (pl s) key)) as [[rest x]|] eqn:Hu.
  2:{ split; [done|]. unfold unsnoc in Hu. destruct (rev (idleOf (pl s) key)) eqn:E; [|done].
      by rewrite <- (rev_involutive (idleOf _ _)), E. }
  apply unsnoc_some in Hu. assert (ids (pl s) key = map pconn rest ++ [pconn x]) as Hids.
  { unfold ids. by rewrite Hu, map_app. }
  pose proof (pool_once _ Hok key) as Hnd. rewrite Hids in Hnd. apply NoDup_app in Hnd as (Hnd & Hdis & _).
  pose proof (pool_bound _ Hok key) as Hlen. rewrite Hu, length_app in Hlen. cbn in Hlen.
  pose proof (pool_idle_free _ Hok key) as Hfree. pose proof (pool_key _ Hok key) as Hkey.
  pose proof (pool_held_open _ Hok) as Hho. setoid_rewrite Hids in Hfree. setoid_rewrite Hids in Hkey.
  assert (length rest <= poolPerEndpoint)%nat by lia.
  case_goal; (split; [apply pool_ok_move; try done; [set_solver|set_solver|]; rewrite Hids; set_solver|]).
  - to_prop. split; [apply Hkey; set_solver|]. exists x. rewrite Hu. split_and!; [set_solver|done|done|done].
  - rewrite Hids. split; [apply Hkey|]; set_solver.
Qed.

(** Putting: the connection joins the list of its key or is closed, and so are the
    expired ones. *)
Lemma pool_ok_put s key id now : pool_ok s → id ∈ held s → dialed s !! id = Some key →
  let '(shut, p) := put_ key id now (pl s) in
  pool_ok (mkPState p (held s ∖ {[id]}) (list_to_set shut ∪ gone s) (dialed s)).
Proof.
  intros Hok Hin Hkid. unfold put_. destruct (dropExpired now (idleOf (pl s) key)) as [shut kept] eqn:Hd.
  apply dropExpired_spec in Hd as (Hmap & Hlen & _).
  assert (ids (pl s) key = shut ++ map pconn kept) as Hids by done.
  pose proof (pool_once _ Hok key) as Hnd. rewrite Hids in Hnd. apply NoDup_app in Hnd as (_ & Hdis & Hnd).
  pose proof (pool_bound _ Hok key) as Hb.
  pose proof (pool_idle_free _ Hok key) as Hfree. pose proof (pool_key _ Hok key) as Hkey.
  pose proof (pool_held_open _ Hok) as Hho. setoid_rewrite Hids in Hfree. setoid_rewrite Hids in Hkey.
  assert (id ∉ shut ++ map pconn kept) as Hnew by (intros Hj; destruct (Hfree id Hj); done).
  case_goal; apply pool_ok_move; try done.
  - lia.
  - set_solver.
  - set_solver.
  - intros j. rewrite Hids. destruct (decide (j = id)); set_solver.
  - to_prop. rewrite length_app. cbn. lia.
  - rewrite map_app. apply NoDup_app. split_and!; [done|set_solver|apply NoDup_singleton].
  - set_solver.
  - rewrite map_app. set_solver.
  - intros j. rewrite Hids, map_app. destruct (decide (j = id)); set_solver.
Qed.

Lemma pool_ok_same_idle s p : pool_ok s → idle p = idle (pl s) → pool_ok (mkPState p (held s) (gone s) (dialed s)).
Proof.
  intros Hok He. assert (∀ k, idleOf p k = idleOf (pl s) k) as Hi by (intros k; unfold idleOf; by rewrite He).
  assert (∀ k, ids p k = ids (pl s) k) as Hids by (intros k; unfold ids; by rewrite Hi).
  destruct Hok. constructor; cbn; intros *; rewrite ?Hi, ?Hids; try setoid_rewrite Hids; eauto.
Qed.

Lemma pool_ok_step s s' : pool_ok s → pstep s s' → pool_ok s'.
Proof.
  intros Hok Hs. destruct Hs as [s id key Hn|s key now intact|s key id now Hh Hk|s id Hh|s key now|s key now].
  - assert ((id ∉ held s) /\ (id ∉ gone s) /\ ∀ k, id ∉ ids (pl s) k) as (Hnh & Hng & Hni).
    { pose proof (pool_all _ Hok id) as Ha. rewrite Hn, is_Some_alt in Ha. naive_solver. }
    destruct Hok. constructor; cbn; [done|done| | |set_solver|].
    + intros k j Hj. rewrite lookup_insert_ne; [eauto|]. intros ->. by apply (Hni k).
    + intros k j Hj. destruct (pool_idle_free0 k j Hj). split; [|done]. intros [->%elem_of_singleton|]%elem_of_union; [|done].
      by apply (Hni k).
    + intros j. destruct (decide (j = id)) as [->|Hne]; [rewrite lookup_insert_eq; set_solver|].
      rewrite lookup_insert_ne, pool_all0 by done. set_solver.
  - pose proof (pool_ok_take s key now intact Hok) as Ht.
    destruct (takeOnce key now intact (pl s)) as [[| |] p]; [destruct Ht as [-> _]; by destruct s|apply Ht|apply Ht].
  - pose proof (pool_ok_put s key id now Hok Hh Hk) as Hp. by destruct (put_ key id now (pl s)).
  - destruct Hok. constructor; cbn; [done|done|done| |set_solver|].
    + intros k j Hj. destruct (pool_idle_free0 k j Hj). set_solver.
    + intros j. rewrite pool_all0. destruct (decide (j = id)); set_solver.
  - by apply pool_ok_same_idle.
  - apply pool_ok_same_idle; [done|]. unfold isSingle. by repeat case_goal.
Qed.

Lemma preachable_ok s : preachable s → pool_ok s.
Proof.
  unfold preachable. intros Hr. assert (pool_ok pstart) as H0.
  { assert (∀ k, idleOf (pl pstart) k = []) as Hi by (intros k; unfold idleOf; cbn; by rewrite lookup_empty).
    constructor; unfold ids; intros *; rewrite ?Hi; cbn; try setoid_rewrite Hi; cbn; try (set_solver || lia).
    - constructor.
    - rewrite lookup_empty. rewrite is_Some_alt. set_solver. }
  induction Hr as [|s1 s2 s3 Hs _ IH]; [done|]. by apply IH, (pool_ok_step s1).
Qed.

(** The same fields, the same servers trusted. *)
Lemma essence_trusts `{FileSystem} s1 s2 p : essence s1 = essence s2 → trusts s1 p <-> trusts s2 p.
Proof.
  destruct s1 as [u1 g1 q1], s2 as [u2 g2 q2]. unfold essence, instance_of, trusts. cbn.
  intros [= -> -> -> -> Hi]. destruct q1, q2; cbn in *; [injection Hi as -> ->|done|done|]; done.
Qed.

(** C9: the pool loses no connection, keeps few, and never hands one to a client
    that trusts a different server. In every state reachable by any interleaving
    of dials, takes, puts, drops and single-call marks, at most four connections
    wait under a key, and every connection ever dialed is in exactly one place:
    with a call, closed, or idle once under the key it was dialed for. A client
    that takes a connection dialed by another gets one that waited under ten
    seconds and was just seen intact, of the same endpoint, for an expectation
    that every server meets or fails alike. *)
Theorem pool_connections_accounted `{FileSystem} timeText s :
  Inj (=) (=) timeText → preachable s →
  (∀ key, (length (idleOf (pl s) key) <= 4)%nat /\ NoDup (ids (pl s) key)) /\
  (∀ id key, id ∈ ids (pl s) key → dialed s !! id = Some key /\ (id ∉ held s) /\ (id ∉ gone s)) /\
  held s ## gone s /\
  (∀ id, is_Some (dialed s !! id) <-> id ∈ held s \/ id ∈ gone s \/ ∃ key, id ∈ ids (pl s) key) /\
  ∀ c1 c2 id now intact p, plain_client c1 → plain_client c2 →
    dialed s !! id = Some (poolKey timeText c1) →
    takeOnce (poolKey timeText c2) now intact (pl s) = (TakeKeep id, p) →
    intact = true /\ Endpoint c1 = Endpoint c2 /\
    (∃ e, e ∈ idleOf (pl s) (poolKey timeText c2) /\ pconn e = id /\ TimeSub now (since e) < 10 * second) /\
    match Server c1, Server c2 with
    | Some s1, Some s2 => ∀ p, trusts s1 p <-> trusts s2 p
    | None, None => True
    | _, _ => False
    end.
Proof.
  intros Hinj Hok%preachable_ok. split_and!.
  - intros key. split; apply Hok.
  - intros id key Hin. split; [by apply Hok|by apply (pool_idle_free _ Hok key)].
  - apply Hok.
  - apply Hok.
  - intros c1 c2 id now intact p Hc1 Hc2 Hd Ht. pose proof (pool_ok_take s (poolKey timeText c2) now intact Hok) as H1.
    rewrite Ht in H1. destruct H1 as (_ & Hd' & e & He & Hid & Hage & ->). rewrite Hd in Hd'. injection Hd' as Hk.
    destruct (poolKey_essence timeText c1 c2 Hinj Hc1 Hc2 Hk) as [-> Hess]. split_and!; [done|done|by exists e|].
    destruct (Server c1), (Server c2); cbn in Hess; [|done..]. intros q. apply essence_trusts. congruence.
Qed.

(** ** Witness *)

Definition shared_key : string := poolKey itoa (mkFrameClient "/run/svc" 0 0 None false true).

(** A connection dialed, used and kept by one call is taken by the next. *)
Definition one_idle : pstate :=
  mkPState (setIdle (mkPool ∅ ∅) shared_key [mkPooled 0 0]) ∅ ∅ {[0%nat := shared_key]}.

Lemma pool_connections_accounted_witness :
  preachable one_idle /\ (length (idleOf (pl one_idle) shared_key) <= 4)%nat /\
  (takeOnce shared_key second true (pl one_idle)).1 = TakeKeep 0.
Proof.
  assert (preachable one_idle) as Hr.
  { eapply rtc_l; [apply (pdial pstart 0%nat shared_key); vm_compute; reflexivity|].
    eapply rtc_l; [apply (pput _ shared_key 0%nat 0); vm_compute; reflexivity|].
    vm_compute. apply rtc_refl. }
  split; [exact Hr|]. split; [|vm_compute; reflexivity].
  apply (@pool_connections_accounted sampleFS itoa one_idle (inj pretty) Hr).
Defined.
