(* ===== verification/Client.v ===== *)
(** The client half of sessions: listen/pool.go's [sessionCall] and the
    [FrameClient] calls of listen/framed.go over it.

    The world of a client is the pool, its connections by number, and what the
    outside does: the results of dialing, the answers of [idleIntact], the clock
    and the context of the call. *)

From S2P Require Import Prelude GoStrings GoError ProofLadder Peer Binding GoIO Frame GoFilepath PathIdentity Program ServerConn Pool.

(** [errors.As] with a [*ProofRefusal] target. *)
Fixpoint errors_as_refusal (e : err) : option err :=
  match e with
  | RefusalErr _ _ => Some e
  | Wrap _ cs | Join_ cs =>
      (fix first (l : list err) :=
         match l with
         | [] => None
         | c :: l' => match errors_as_refusal c with Some x => Some x | None => first l' end
         end) cs
  | _ => None
  end.

(** [writeSignalsClosedPeer] where the platform adds nothing. *)
Definition writeSignalsClosedPeer (e : err) : bool :=
  errors_is_errno e EPIPE || errors_is_errno e ECONNRESET || errors_is e IoErrClosedPipe || errors_is e NetErrClosed.

Section Client.
Context `{FileSystem}.
Context {W S : Type}.
Context (bindServerHandle : Z → option Options → W → (binder S * Peer * S) + (err * W)).
Context (timeNow : S → Time * S).
Context (timeText : Time → string).

Abbreviation guarded := (ServerConn.guarded (W:=W) (S:=S)).

(** [ctx.Err()], asked now. *)
Definition ctxErr (g : guarded) : option err * guarded := let g := moment g in (ctx_done g.1, g).

(** [refusalAfterWriteError]. *)
Definition refusalAfterWriteError (writeErr : err) (opening : bool) (g : guarded) : err * guarded :=
  let '(done, g) := ctxErr g in
  if match done with Some _ => true | None => false end || negb (writeSignalsClosedPeer writeErr) then (writeErr, g)
  else
    let '(header, _, e, g) := readUint32 g in
    match e with
    | Some _ => (writeErr, g)
    | None =>
        let '(header, e, g) :=
          if opening && ((header =? sessionAccept) || (header =? sessionDecline) || (header =? sessionUnsupported))
          then let '(h, _, e, g) := readUint32 g in (h, e, g)
          else (header, None, g) in
        match e with
        | Some _ => (writeErr, g)
        | None =>
            if negb (header =? proofRefusalHeader) then (writeErr, g)
            else let '(refusal, g) := readProofRefusal g in (default writeErr (errors_as_refusal refusal), g)
        end
    end.

(** [writeFreshSessionHeader]. *)
Definition writeFreshSessionHeader (flags : Z) (g : guarded) : option err * guarded :=
  match writeUint32 flags g with
  | (Some e, g) => let '(e, g) := refusalAfterWriteError e true g in (Some e, g)
  | (None, g) => (None, g)
  end.

(** [singleOnSession]. *)
Definition singleOnSession (frame : list byte) (limit : Z) (oneWay : bool) (g : guarded) : result (list byte) * guarded :=
  match writeAll frame g with
  | (Some e, g) => let '(e, g) := refusalAfterWriteError e false g in (Err e, g)
  | (None, g) =>
      if oneWay then
        match waitFrameEOF g with
        | (Some e, g) => (Err e, g)
        | (None, g) => (Ok [], g)
        end
      else readFrame limit g
  end.

(** ** The world of a client *)

Record world := mkWorld {
  wpool : framePool;
  wconns : gmap nat (serverConn (W:=W) (S:=S));
  wnext : nat;
  wdials : list (result (conn * netConn * W));
  wpeeks : list bool;
  wclock : list Time;
  wctx : context
}.

Definition set_pool (w : world) (p : framePool) : world :=
  mkWorld p (wconns w) (wnext w) (wdials w) (wpeeks w) (wclock w) (wctx w).
Definition set_conns (w : world) (m : gmap nat serverConn) : world :=
  mkWorld (wpool w) m (wnext w) (wdials w) (wpeeks w) (wclock w) (wctx w).

(** [time.Now]. *)
Definition now (w : world) : Time * world :=
  match wclock w with
  | [] => (0, w)
  | t :: rest => (t, mkWorld (wpool w) (wconns w) (wnext w) (wdials w) (wpeeks w) rest (wctx w))
  end.

(** Closing connections by number. *)
Definition closeConn (id : nat) (w : world) : world := set_conns w (alter scClose id (wconns w)).

Definition closeAll (l : list nat) (w : world) : world := fold_left (λ w id, closeConn id w) l w.

(** An operation of the call on one of its connections. *)
Definition onConn {A} (id : nat) (f : guarded → A * guarded) (dflt : A) (w : world) : A * world :=
  match wconns w !! id with
  | None => (dflt, w)
  | Some c =>
      let '(a, (x, c')) := f (wctx w, c) in
      (a, mkWorld (wpool w) (<[id:=c']> (wconns w)) (wnext w) (wdials w) (wpeeks w) (wclock w) x)
  end.

(** [frames.take]. *)
Definition takeConn (key : string) (w : world) : option nat * world :=
  let '(t, w) := now w in
  let '(r, shut, peeks, p) := take_ key t (wpeeks w) (wpool w) in
  (r, closeAll shut (mkWorld p (wconns w) (wnext w) (wdials w) peeks (wclock w) (wctx w))).

(** [frames.put]. *)
Definition putConn (key : string) (id : nat) (w : world) : world :=
  let '(t, w) := now w in
  let '(shut, p) := put_ key id t (wpool w) in closeAll shut (set_pool w p).

(** A new connection joins the world. *)
Definition addConn (c : serverConn) (w : world) : nat * world :=
  (wnext w, mkWorld (wpool w) (<[wnext w:=c]> (wconns w)) (Datatypes.S (wnext w)) (wdials w) (wpeeks w) (wclock w) (wctx w)).

(** [dialFramed]: the next result of dialing. *)
Definition dialFramed (w : world) : result (conn * netConn * W) * world :=
  match wdials w with
  | [] => (Err (Plain "dial: no such endpoint"), w)
  | d :: rest => (d, mkWorld (wpool w) (wconns w) (wnext w) rest (wpeeks w) (wclock w) (wctx w))
  end.

(** What [dialSession] and [connect] do with a dialed connection: a deadline, the
    guard with its [AfterFunc], and authentication. A connection that takes no
    deadline is closed at once. *)
Definition guardConn (server : option ServerExpectation) (d : conn * netConn * W) (w : world)
    : (err + (option err * nat)) * world :=
  let '(n, h, plat) := d in
  let '(connectedAt, w) := now w in
  let '(e, n) := connSetDeadline (Deadline (wctx w)) n in
  match e with
  | Some e => let '(_, w) := addConn (mkServerConn (connClose n) h plat true None None false) w in (inl e, w)
  | None =>
      let '(id, w) := addConn (mkServerConn n h plat false None None true) w in
      let '(e, w) := onConn id (authenticate bindServerHandle timeNow server connectedAt) None w in
      (inr (e, id), w)
  end.

Definition validServer (c : FrameClient) : option err :=
  match Server c with Some s => validate s | None => None end.

(** [FrameClient.dialSession]. *)
Definition dialSession (c : FrameClient) (w : world) : result nat * world :=
  match validServer c with
  | Some e => (Err e, w)
  | None =>
      match dialFramed w with
      | (Err e, w) => (Err e, w)
      | (Ok d, w) =>
          match guardConn (Server c) d w with
          | (inl e, w) => (Err e, w)
          | (inr (e, id), w) =>
              let '(stopped, w) := onConn id stop false w in
              match stopped, e with
              | true, None => (Ok id, w)
              | _, _ =>
                  (Err (match e with Some e => e | None => default (Plain "nil error") (ctx_done (wctx w)) end),
                   closeConn id w)
              end
          end
      end
  end.

(** ** One session call *)

(** The [finish] closure. *)
Definition finish (key : string) (id : nat) (keep : bool) (w : world) : world :=
  let '(stopped, w) := onConn id stop false w in
  if negb (stopped && keep) then closeConn id w
  else
    let '(done, w) := onConn id ctxErr (Some (Plain "")) w in
    match done with
    | None => putConn key id w
    | Some _ => closeConn id w
    end.

Inductive outcome := Again | Done (r : result (list byte)).

(** The end of an exchange: the reply's header and what follows. The flag says
    whether the connection may be kept. *)
Definition readReply (limit : Z) (oneWay : bool) (g : guarded) : (outcome * bool) * guarded :=
  let '(header, _, e, g) := readUint32 g in
  match e with
  | Some e => ((Done (Err e), false), g)
  | None =>
      if header =? sessionClosing then ((Again, false), g)
      else if header =? proofRefusalHeader then
        let '(refusal, g) := readProofRefusal g in ((Done (Err refusal), false), g)
      else if negb (Z.land header oneWayFlag =? 0) then ((Done (Err (Sentinel ErrSessionProtocol)), false), g)
      else
        let length := Z.land header lengthMask in
        if oneWay then
          if negb (length =? 0) then ((Done (Err (Sentinel ErrUnexpectedResponse)), false), g)
          else ((Done (Ok []), negb (Z.land header sessionFlag =? 0)), g)
        else
          let '(reply, g) := readFrameBody length limit g in
          ((Done reply, is_ok reply && negb (Z.land header sessionFlag =? 0)), g)
  end.

(** What the acknowledgement of a fresh session means. *)
Inductive ackOutcome := AckAccept | AckDecline (unsupported : bool) | AckStop (o : outcome).

Definition readAck (g : guarded) : ackOutcome * guarded :=
  let '(ack, n, e, g) := readUint32 g in
  match e with
  | None =>
      if ack =? proofRefusalHeader then let '(refusal, g) := readProofRefusal g in (AckStop (Done (Err refusal)), g)
      else if ack =? sessionClosing then (AckStop Again, g)
      else if (ack =? sessionDecline) || (ack =? sessionUnsupported) then (AckDecline (ack =? sessionUnsupported), g)
      else if negb (ack =? sessionAccept) then (AckStop (Done (Err (Sentinel ErrSessionProtocol))), g)
      else (AckAccept, g)
  | Some e =>
      if (n =? 0)%nat then
        let '(done, g) := ctxErr g in
        match done with
        | None => (AckStop (Done (Err (if is_timeout e then e else Sentinel errNoSession))), g)
        | Some _ => (AckStop (Done (Err e)), g)
        end
      else (AckStop (Done (Err e)), g)
  end.

(** The exchange on a fresh connection. The last flag says that the endpoint
    serves no sessions; [attempt] notes it, with the same clock reading as the
    code, which does so before the single exchange. *)
Definition freshExchange (flags : Z) (frame : list byte) (limit : Z) (oneWay : bool) (g : guarded)
    : (outcome * bool * bool) * guarded :=
  match writeFreshSessionHeader flags g with
  | (Some e, g) => ((Done (Err e), false, false), g)
  | (None, g) =>
      match readAck g with
      | (AckStop o, g) => ((o, false, false), g)
      | (AckDecline unsupported, g) =>
          let '(reply, g) := singleOnSession frame limit oneWay g in ((Done reply, false, unsupported), g)
      | (AckAccept, g) =>
          match writeAll frame g with
          | (Some e, g) => let '(e, g) := refusalAfterWriteError e false g in ((Done (Err e), false, false), g)
          | (None, g) => let '(o, g) := readReply limit oneWay g in ((o, false), g)
          end
      end
  end.

(** The exchange on a connection from the pool. *)
Definition pooledExchange (flags : Z) (frame : list byte) (limit : Z) (oneWay : bool) (g : guarded)
    : (outcome * bool * bool) * guarded :=
  let '(_, e, g) := writeHeadedCount flags frame g in
  match e with
  | Some e => let '(e, g) := refusalAfterWriteError e false g in ((Done (Err e), false, false), g)
  | None => let '(o, g) := readReply limit oneWay g in ((o, false), g)
  end.

Definition callFlags (frame : list byte) (oneWay : bool) : Z :=
  let flags := Z.lor sessionFlag (u32 (blen frame)) in if oneWay then Z.lor flags oneWayFlag else flags.

Definition lost : outcome * bool * bool := (Done (Err (Plain "no connection")), false, false).

(** One turn of the loop of [sessionCall]. *)
Definition attempt (c : FrameClient) (frame : list byte) (limit : Z) (oneWay : bool) (w : world) : outcome * world :=
  let key := poolKey timeText c in
  let flags := callFlags frame oneWay in
  let '(taken, w) := takeConn key w in
  let '(dialed, w) := match taken with
                      | Some id => (Ok id, w)
                      | None => dialSession c w
                      end in
  match dialed with
  | Err e => (Done (Err e), w)
  | Ok id =>
      let '(e, w) := onConn id (use (wctx w)) (Some (Plain "no connection")) w in
      match e with
      | Some e => (Done (Err e), closeConn id w)
      | None =>
          let exchange := match taken with Some _ => pooledExchange | None => freshExchange end in
          let '((o, keep, unsupported), w) := onConn id (exchange flags frame limit oneWay) lost w in
          let w := if unsupported then let '(t, w) := now w in set_pool w (markSingle key t (wpool w)) else w in
          (o, finish key id keep w)
      end
  end.

Fixpoint attempts (n : nat) (c : FrameClient) (frame : list byte) (limit : Z) (oneWay : bool) (w : world)
    : result (list byte) * world :=
  match n with
  | O => (Err (Sentinel ErrSessionProtocol), w)
  | Datatypes.S n =>
      match attempt c frame limit oneWay w with
      | (Done r, w) => (r, w)
      | (Again, w) => attempts n c frame limit oneWay w
      end
  end.

(** [FrameClient.sessionCall]. *)
Definition sessionCall (c : FrameClient) (frame : list byte) (limit : Z) (oneWay : bool) (w : world)
    : result (list byte) * world :=
  attempts sessionAttempts c frame limit oneWay w.

(** ** What operations of a connection move *)

(** The bytes sent and handed out so far, and how writes will fare. *)
Definition io (g : guarded) : list byte * list byte * list wevent :=
  (sent (net g.2), got (net g.2), outbox (net g.2)).

(** The connection keeps the contract of [io.Writer]: no short write without an
    error. *)
Definition whole (l : list wevent) : Prop := Forall (λ a, match a with WPart _ None => False | _ => True end) l.

Lemma close_io (x : context) (c : serverConn) : io (x, scClose c) = io (x, c).
Proof. unfold scClose. by case_goal. Qed.

Lemma moment_io g : io (moment g) = io g.
Proof.
  destruct g as [x c]. unfold moment. destruct (ctx_coming x) as [|[]]; [done..|]. cbn.
  destruct (ctx_done x); [|done]. destruct (watched c); [|done]. apply (close_io x c).
Qed.

Lemma scCheck_io g r g' : scCheck g = (r, g') → io g' = io g.
Proof.
  intros Hk. rewrite <- (moment_io g). unfold scCheck, checkLocked in Hk. destruct (moment g) as [x c].
  repeat case_hyp Hk; simplify_eq; done.
Qed.

Lemma use_io x g : io (use x g).2 = io g.
Proof.
  rewrite <- (moment_io g). unfold use. destruct (moment g) as [y c]. case_goal; [done|].
  unfold connSetDeadline. by destruct (conn_closed (net c)).
Qed.

Lemma stop_io g : io (stop g).2 = io g.
Proof. rewrite <- (moment_io g). unfold stop. destruct (moment g) as [x c]. by case_goal. Qed.

Lemma ctxErr_io g : io (ctxErr g).2 = io g.
Proof. apply moment_io. Qed.

(** From [g] to [g'] these bytes went out and came in, and the writer is the one
    it was. *)
Definition moved (g g' : guarded) (out inn : list byte) : Prop :=
  ∃ ob, io g' = ((io g).1.1 ++ out, (io g).1.2 ++ inn, ob) /\ (whole (io g).2 → whole ob).

Lemma moved_refl g g' : io g' = io g → moved g g' [] [].
Proof. intros Hi. exists (io g).2. rewrite Hi, !app_nil_r. split; [by destruct (io g) as [[]]|done]. Qed.

Lemma moved_trans g1 g2 g3 o1 i1 o2 i2 : moved g1 g2 o1 i1 → moved g2 g3 o2 i2 → moved g1 g3 (o1 ++ o2) (i1 ++ i2).
Proof.
  intros (b1 & H1 & W1) (b2 & H2 & W2). exists b2. rewrite H2, H1. cbn. rewrite <- !app_assoc. split; [done|].
  intros Hw. apply W2. rewrite H1. by apply W1.
Qed.

Lemma moved_whole g g' o i : moved g g' o i → whole (outbox (net g.2)) → whole (outbox (net g'.2)).
Proof. intros (b & Hi & Hw) Hg. unfold io in Hi. injection Hi as _ _ ->. by apply Hw. Qed.

(** A read hands out nothing with an error, and otherwise what it took. *)
Lemma scRead_moved n g bs e g' : scRead n g = (bs, e, g') →
  match e with
  | Some _ => bs = []
  | None => (length bs <= n)%nat /\ moved g g' [] bs
  end.
Proof.
  unfold scRead. destruct (scCheck g) as [[x|] [y c]] eqn:Hk; [by intros [= <- <- <-]|].
  apply scCheck_io in Hk. destruct (connRead n (net c)) as [[b x] nc] eqn:Hr.
  destruct (scCheck (y, set_net c nc)) as [[z|] g2] eqn:Hk2; [by intros [= <- <- <-]|].
  apply scCheck_io in Hk2. intros [= <- <- <-]. destruct x as [x|].
  { unfold connRead in Hr. repeat case_hyp Hr; by simplify_eq. }
  pose proof (connRead_got _ _ _ _ _ Hr) as (Hg & Hs & Ho & _). split.
  - unfold connRead in Hr. repeat case_hyp Hr; simplify_eq; to_prop; rewrite ?length_take; lia.
  - exists (io g).2. rewrite Hk2. unfold io in *. cbn in *. injection Hk as <- <- <-.
    rewrite Hg, Hs, Ho, app_nil_r. done.
Qed.

Lemma readLoop_moved fuel n g bs e g' : readLoop fuel n g = (bs, e, g') → (n <= length bs)%nat →
  length bs = n /\ moved g g' [] bs.
Proof.
  revert n g bs. induction fuel as [|fuel IH]; intros [|n] g bs Hr Hlen; cbn [readLoop] in Hr; simplify_eq; try (cbn in Hlen; lia).
  1, 2: split; [done|]; by apply moved_refl.
  cbn [read guarded_Reader] in Hr. destruct (scRead (Datatypes.S n) g) as [[b [x|]] g1] eqn:H1; apply scRead_moved in H1.
  { simplify_eq. cbn in Hlen. lia. }
  destruct H1 as [Hle Hm]. destruct (readLoop fuel _ g1) as [[rest x] g2] eqn:H2. simplify_eq.
  rewrite length_app in Hlen. destruct (IH _ _ _ H2) as [Hl Hm2]; [lia|]. rewrite length_app.
  split; [lia|]. apply (moved_trans _ _ _ [] b [] rest Hm Hm2).
Qed.

Lemma ReadFull_moved n g bs g' : ReadFull n g = (bs, None, g') → length bs = n /\ moved g g' [] bs.
Proof.
  unfold ReadFull. destruct (readLoop _ n g) as [[b e] g1] eqn:Hr. destruct (Nat.leb_spec n (length b)) as [Hle|Hlt].
  - intros [= <- <-]. by eapply readLoop_moved.
  - intros Hx. exfalso. destruct e as [e|].
    + repeat case_hyp Hx; simplify_eq.
    + injection Hx as <- <-. assert (∀ fuel n (g : guarded) bs e g', readLoop fuel n g = (bs, e, g') → e = None → (n <= length bs)%nat) as Hn.
      { clear - H. induction fuel as [|fuel IH]; intros [|n] g bs e g' Hr He; cbn [readLoop] in Hr; simplify_eq; [cbn; lia..|].
        destruct (read (Datatypes.S n) g) as [[b [x|]] g1]; simplify_eq.
        destruct (readLoop fuel _ g1) as [[rest x] g2] eqn:H2. simplify_eq. apply IH in H2; [|done].
        rewrite length_app. lia. }
      apply Hn in Hr; [|done]. lia.
Qed.

(** A write without an error put all of it on the wire. *)
Lemma scWrite_moved p g n g' : scWrite p g = (n, None, g') → whole (outbox (net g.2)) →
  n = blen p /\ moved g g' p [].
Proof.
  unfold scWrite. destruct (scCheck g) as [[x|] [y c]] eqn:Hk; [done|]. apply scCheck_io in Hk.
  unfold io in Hk. cbn in Hk. injection Hk as Hs Hg Ho. rewrite <- Ho.
  destruct (connWrite p (net c)) as [[m x] nc] eqn:Hw. intros [= <- -> <-] Hwh.
  unfold connWrite in Hw. destruct (conn_closed (net c)); [done|]. unfold moved, io. cbn.
  destruct (outbox (net c)) as [|[|k x] rest] eqn:E; simplify_eq.
  - split; [done|]. exists []. cbn. rewrite Hs, Hg, app_nil_r. done.
  - split; [done|]. exists rest. cbn. rewrite Hs, Hg, app_nil_r, <- Ho. split; [done|]. by intros [_ ?]%Forall_cons.
  - by apply Forall_cons in Hwh as [? _].
Qed.

Lemma writeLoop_moved fuel part written g n g' : writeLoop fuel part written g = (n, None, g') →
  whole (outbox (net g.2)) → moved g g' part [].
Proof.
  revert part written g. induction fuel as [|fuel IH]; intros [|b part] written g Hw Hwh; cbn [writeLoop] in Hw; simplify_eq.
  1, 2: by apply moved_refl.
  unfold write, guarded_Writer in Hw. destruct (scWrite (b :: part) g) as [[k [x|]] g1] eqn:H1.
  { repeat case_hyp Hw; simplify_eq. }
  apply scWrite_moved in H1 as [-> Hm]; [|done]. case_hyp Hw; [done|]. case_hyp Hw; [done|].
  unfold blen in Hw. rewrite Nat2Z.id, drop_all in Hw. destruct fuel; cbn in Hw; by simplify_eq.
Qed.

Lemma writeHeadedCount_moved h frame g n g' : writeHeadedCount h frame g = (n, None, g') →
  whole (outbox (net g.2)) → moved g g' (be32_put h ++ frame) [].
Proof.
  unfold writeHeadedCount. intros Hw Hwh. case_hyp Hw; [by eapply writeLoop_moved|].
  destruct (writeLoop (length (be32_put h)) (be32_put h) 0 g) as [[k [x|]] g1] eqn:H1; [done|].
  apply writeLoop_moved in H1; [|done]. pose proof (moved_whole _ _ _ _ H1 Hwh) as Hwh1.
  apply writeLoop_moved in Hw; [|done]. apply (moved_trans _ _ _ _ [] _ [] H1 Hw).
Qed.

Lemma writeUint32_moved v g g' : writeUint32 v g = (None, g') → whole (outbox (net g.2)) → moved g g' (be32_put v) [].
Proof.
  unfold writeUint32, write, guarded_Writer. destruct (scWrite (be32_put v) g) as [[n x] g1] eqn:Hw. intros [= -> <-] Hwh.
  by apply scWrite_moved in Hw as [_ ?].
Qed.

Lemma writeAll_moved b g g' : writeAll b g = (None, g') → whole (outbox (net g.2)) → moved g g' b [].
Proof.
  unfold writeAll. generalize (length b) as fuel. intros fuel. revert b g.
  induction fuel as [|fuel IH]; intros [|x b] g Hw Hwh; cbn [writeAll_loop] in Hw; simplify_eq.
  1, 2: by apply moved_refl.
  unfold write, guarded_Writer in Hw. destruct (scWrite (x :: b) g) as [[k [y|]] g1] eqn:H1; [done|].
  apply scWrite_moved in H1 as [-> Hm]; [|done]. case_hyp Hw; [done|]. case_hyp Hw; [done|].
  unfold blen in Hw. rewrite Nat2Z.id, drop_all in Hw. destruct fuel; cbn in Hw; by simplify_eq.
Qed.

Lemma readUint32_moved v n g g' : readUint32 g = (v, n, None, g') →
  moved g g' [] (be32_put v) /\ 0 <= v < 2 ^ 32.
Proof.
  unfold readUint32. destruct (ReadFull 4 g) as [[b [e|]] g1] eqn:Hr; [done|]. intros [= <- <- <-].
  apply ReadFull_moved in Hr as [Hl Hm]. rewrite be32_put_get by done. split; [done|apply be32_get_range].
Qed.

Lemma readFrameBody_moved n limit g bs g' : 0 <= n → readFrameBody n limit g = (Ok bs, g') →
  moved g g' [] bs /\ blen bs = n /\ n <= limit.
Proof.
  unfold readFrameBody. intros Hn. case_goal; [done|]. to_prop.
  destruct (ReadFull (Z.to_nat n) g) as [[b [e|]] g1] eqn:Hr; [done|]. intros [= <- <-].
  apply ReadFull_moved in Hr as [Hl Hm]. unfold blen. split_and!; [done|lia|done].
Qed.

(** ** Exchanges *)

(** A request's header and payload, a reply that keeps the session. *)
Definition request (h : Z) (frame : list byte) : Prop := ∃ oneWay, h = callFlags frame oneWay.

Definition reply (r : Z) (body : list byte) : Prop :=
  Z.land r lengthMask = blen body /\ Z.land r oneWayFlag = 0 /\ Z.land r sessionFlag ≠ 0.

(** The streams of a connection between exchanges: whole requests out, and in the
    acceptance and one whole reply to each. *)
Inductive at_boundary : list byte → list byte → Prop :=
| boundary_first h f r b : request h f → reply r b →
    at_boundary (be32_put h ++ f) (be32_put sessionAccept ++ be32_put r ++ b)
| boundary_next s g h f r b : at_boundary s g → request h f → reply r b →
    at_boundary (s ++ be32_put h ++ f) (g ++ be32_put r ++ b).

(** What the reply phase read, by its outcome. *)
Lemma readReply_moved limit oneWay g o keep g' : readReply limit oneWay g = ((o, keep), g') →
  (o = Again → keep = false /\ moved g g' [] (be32_put sessionClosing)) /\
  (∀ bs, o = Done (Ok bs) → ∃ r, moved g g' [] (be32_put r ++ bs) /\ Z.land r lengthMask = blen bs /\
     (oneWay = true → bs = []) /\ (oneWay = false → blen bs <= limit) /\ (keep = true → reply r bs)) /\
  (keep = true → ∃ bs, o = Done (Ok bs)).
Proof.
  unfold readReply. destruct (readUint32 g) as [[[h n] [e|]] g1] eqn:Hh; [by intros [= <- <- <-]|].
  apply readUint32_moved in Hh as [Hm Hr].
  destruct (Z.eqb_spec h sessionClosing) as [->|]; [by intros [= <- <- <-]|].
  destruct (h =? proofRefusalHeader); [destruct (readProofRefusal g1); by intros [= <- <- <-]|].
  destruct (Z.eqb_spec (Z.land h oneWayFlag) 0) as [How|]; [|by intros [= <- <- <-]]. cbn [negb].
  assert (0 <= Z.land h lengthMask) as Hl by (rewrite land_lengthMask; apply Z.mod_pos_bound; lia).
  destruct oneWay.
  - destruct (Z.eqb_spec (Z.land h lengthMask) 0) as [Hz|]; [|by intros [= <- <- <-]]. intros [= <- <- <-].
    split_and!; [done| |by eexists]. intros bs [= <-]. exists h. rewrite app_nil_r. split_and!; [done|done|done|done|].
    intros Hk%negb_true_iff%Z.eqb_neq. by split_and!.
  - destruct (readFrameBody _ limit g1) as [[body|e] g2] eqn:Hb; [|by intros [= <- <- <-]]. intros [= <- <- <-].
    apply readFrameBody_moved in Hb as (Hm2 & Hlen & Hlim); [|done]. split_and!; [done| |by eexists].
    intros bs [= <-]. exists h. split_and!; [apply (moved_trans _ _ _ [] _ [] _ Hm Hm2)|done|done|lia|].
    cbn. intros Hk%negb_true_iff%Z.eqb_neq. by split_and!.
Qed.

(** What an exchange did to its connection; [opening] is what a fresh session
    reads before the reply. *)
Definition exchanged (opening : list byte) (frame : list byte) (limit : Z) (oneWay : bool)
    (g : guarded) (o : outcome) (keep : bool) (g' : guarded) : Prop :=
  (keep = true → ∃ r bs, reply r bs /\
     moved g g' (be32_put (callFlags frame oneWay) ++ frame) (opening ++ be32_put r ++ bs)) /\
  (o = Again → keep = false /\ ∃ out pre, moved g g' out (pre ++ be32_put sessionClosing)) /\
  (∀ bs, o = Done (Ok bs) → (oneWay = true → bs = []) /\
     (oneWay = false → blen bs <= limit /\
        ∃ out pre h, moved g g' out (pre ++ be32_put h ++ bs) /\ Z.land h lengthMask = blen bs)).

(** The reply phase completes an exchange. *)
Lemma exchanged_reply opening frame limit oneWay g g1 o keep g' :
  moved g g1 (be32_put (callFlags frame oneWay) ++ frame) opening →
  readReply limit oneWay g1 = ((o, keep), g') → exchanged opening frame limit oneWay g o keep g'.
Proof.
  intros Hm (Hag & Hok & Hk)%readReply_moved. split_and!.
  - intros Hkeep. destruct (Hk Hkeep) as [bs ->]. destruct (Hok bs eq_refl) as (r & Hm2 & _ & _ & _ & Hr).
    exists r, bs. split; [auto|]. pose proof (moved_trans _ _ _ _ _ _ _ Hm Hm2) as Hx. by rewrite app_nil_r in Hx.
  - intros ->. destruct (Hag eq_refl) as [-> Hm2]. split; [done|]. eexists _, opening.
    apply (moved_trans _ _ _ _ _ _ _ Hm Hm2).
  - intros bs ->. destruct (Hok bs eq_refl) as (r & Hm2 & Hl & How & Hlim & _). split; [done|]. intros Ho. split; [auto|].
    eexists _, opening, r. split; [apply (moved_trans _ _ _ _ _ _ _ Hm Hm2)|done].
Qed.

(** An exchange that failed promises nothing more. *)
Lemma exchanged_fail opening frame limit oneWay g e g' : exchanged opening frame limit oneWay g (Done (Err e)) false g'.
Proof. by split_and!. Qed.

Lemma pooledExchange_exchanged frame limit oneWay (g : guarded) o keep uns (g' : guarded) : whole (outbox (net g.2)) →
  pooledExchange (callFlags frame oneWay) frame limit oneWay g = ((o, keep, uns), g') →
  exchanged [] frame limit oneWay g o keep g'.
Proof.
  intros Hwh. unfold pooledExchange. destruct (writeHeadedCount (callFlags frame oneWay) frame g) as [[n [e|]] g1] eqn:Hw.
  { case_goal. intros [= <- <- <- <-]. apply exchanged_fail. }
  apply writeHeadedCount_moved in Hw; [|done]. destruct (readReply limit oneWay g1) as [[o1 k1] g2] eqn:Hr.
  intros [= <- <- <- <-]. by eapply exchanged_reply.
Qed.

Lemma readFrame_moved limit g bs g' : limit <= lengthMask → readFrame limit g = (Ok bs, g') →
  blen bs <= limit /\ ∃ h, moved g g' [] (be32_put h ++ bs) /\ Z.land h lengthMask = blen bs.
Proof.
  intros Hlim. unfold readFrame. destruct (ReadFull 4 g) as [[b [e|]] g1] eqn:Hr; [done|].
  apply ReadFull_moved in Hr as [Hl Hm]. rewrite <- (be32_put_get b Hl) in Hm. pose proof (be32_get_range b) as Hrange.
  case_goal; [by destruct (readProofRefusal g1)|]. intros Hb. apply readFrameBody_moved in Hb as (Hm2 & Hlen & Hle); [|lia].
  split; [lia|]. exists (be32_get b). split; [apply (moved_trans _ _ _ [] _ [] _ Hm Hm2)|].
  rewrite land_lengthMask, Hlen, Z.mod_small; [done|]. rewrite lengthMask_val in Hlim. lia.
Qed.

Lemma singleOnSession_moved frame limit oneWay (g : guarded) bs (g' : guarded) : limit <= lengthMask → whole (outbox (net g.2)) →
  singleOnSession frame limit oneWay g = (Ok bs, g') →
  (oneWay = true → bs = []) /\
  (oneWay = false → blen bs <= limit /\ ∃ h, moved g g' frame (be32_put h ++ bs) /\ Z.land h lengthMask = blen bs).
Proof.
  intros Hlim Hwh. unfold singleOnSession. destruct (writeAll frame g) as [[e|] g1] eqn:Hw.
  { by destruct (refusalAfterWriteError e false g1). }
  apply writeAll_moved in Hw; [|done]. destruct oneWay.
  - destruct (waitFrameEOF g1) as [[e|] g2]; [done|]. intros [= <- <-]. done.
  - intros Hr. apply readFrame_moved in Hr as (Hle & h & Hm & Hl); [|done]. split; [done|]. intros _. split; [done|].
    exists h. split; [|done]. pose proof (moved_trans _ _ _ _ _ _ _ Hw Hm) as Hx. by rewrite app_nil_r in Hx.
Qed.

Lemma readAck_moved g a g' : readAck g = (a, g') →
  match a with
  | AckAccept => moved g g' [] (be32_put sessionAccept)
  | AckDecline _ => ∃ v, moved g g' [] (be32_put v)
  | AckStop Again => moved g g' [] (be32_put sessionClosing)
  | AckStop (Done (Ok _)) => False
  | AckStop (Done (Err _)) => True
  end.
Proof.
  unfold readAck. destruct (readUint32 g) as [[[v n] [e|]] g1] eqn:Hr.
  { intros Hx. repeat case_hyp Hx; simplify_eq; try done. }
  apply readUint32_moved in Hr as [Hm _]. case_goal; [destruct (readProofRefusal g1); by intros [= <- <-]|].
  destruct (Z.eqb_spec v sessionClosing) as [->|]; [by intros [= <- <-]|].
  destruct ((v =? sessionDecline) || _); [intros [= <- <-]; by exists v|].
  destruct (Z.eqb_spec v sessionAccept) as [->|]; by intros [= <- <-].
Qed.

Lemma freshExchange_exchanged frame limit oneWay (g : guarded) o keep uns (g' : guarded) : limit <= lengthMask → whole (outbox (net g.2)) →
  freshExchange (callFlags frame oneWay) frame limit oneWay g = ((o, keep, uns), g') →
  exchanged (be32_put sessionAccept) frame limit oneWay g o keep g'.
Proof.
  intros Hlim Hwh. unfold freshExchange, writeFreshSessionHeader.
  destruct (writeUint32 (callFlags frame oneWay) g) as [[e|] g1] eqn:Hw.
  { case_goal. intros [= <- <- <- <-]. apply exchanged_fail. }
  apply writeUint32_moved in Hw; [|done]. pose proof (moved_whole _ _ _ _ Hw Hwh) as Hwh1.
  destruct (readAck g1) as [a g2] eqn:Ha. apply readAck_moved in Ha. destruct a as [|uns'|[|[|]]]; [| | |done|].
  - pose proof (moved_trans _ _ _ _ _ _ _ Hw Ha) as Hm2. pose proof (moved_whole _ _ _ _ Hm2 Hwh) as Hwh2.
    destruct (writeAll frame g2) as [[e|] g3] eqn:Hf.
    { case_goal. intros [= <- <- <- <-]. apply exchanged_fail. }
    apply writeAll_moved in Hf; [|done]. destruct (readReply limit oneWay g3) as [[o1 k1] g4] eqn:Hr.
    intros [= <- <- <- <-]. eapply exchanged_reply; [|done]. pose proof (moved_trans _ _ _ _ _ _ _ Hm2 Hf) as Hx.
    by rewrite !app_nil_r in Hx.
  - destruct Ha as [v Ha]. pose proof (moved_trans _ _ _ _ _ _ _ Hw Ha) as Hm2.
    pose proof (moved_whole _ _ _ _ Hm2 Hwh) as Hwh2.
    destruct (singleOnSession frame limit oneWay g2) as [r g3] eqn:Hs. intros [= <- <- <- <-]. split_and!; [done|done|].
    intros bs [= ->]. apply singleOnSession_moved in Hs as [Hone Htwo]; [|done|done]. split; [done|].
    intros Ho. destruct (Htwo Ho) as (? & h & Hm3 & ?). split; [done|]. eexists _, (be32_put v), h. split; [|done].
    pose proof (moved_trans _ _ _ _ _ _ _ Hm2 Hm3) as Hx. done.
  - intros [= <- <- <- <-]. split_and!; [done| |done]. intros _. split; [done|]. eexists _, []. 
    apply (moved_trans _ _ _ _ _ _ _ Hw Ha).
  - intros [= <- <- <- <-]. apply exchanged_fail.
Qed.

Lemma authenticate_io e at_ g : io (authenticate bindServerHandle timeNow e at_ g).2 = io g.
Proof.
  rewrite <- (moment_io g). unfold authenticate. destruct (moment g) as [x c].
  repeat (case_goal; cbn; try done).
Qed.

(** ** The pool between calls *)

Definition io_of (c : serverConn (W:=W) (S:=S)) : list byte * list byte * list wevent :=
  (sent (net c), got (net c), outbox (net c)).

(** A connection the pool may keep, and one just dialed. *)
Definition ready (c : serverConn (W:=W) (S:=S)) : Prop :=
  at_boundary (sent (net c)) (got (net c)) /\ whole (outbox (net c)).

Definition dial_ok (d : result (conn * netConn * W)) : Prop :=
  match d with
  | Ok (n, _, _) => sent n = [] /\ got n = [] /\ whole (outbox n)
  | Err _ => True
  end.

(** These connections are closed. *)
Definition shut_ok (g : gset nat) (w : world) : Prop :=
  ∀ id, id ∈ g → ∃ c, wconns w !! id = Some c /\ sc_closed c = true.

(** The client's invariant: the pool accounts for its connections, and every idle
    one stands between exchanges; the others are closed but for [h], the ones with
    calls. [d] is the key each was dialed for. *)
Record client_ok (h : gset nat) (d : gmap nat string) (w : world) : Prop := {
  client_pool : ∃ g, pool_ok (mkPState (wpool w) h g d) /\ shut_ok g w;
  client_next id : is_Some (d !! id) → (id < wnext w)%nat;
  client_ready key id : id ∈ ids (wpool w) key → ∃ c, wconns w !! id = Some c /\ ready c;
  client_dials : Forall dial_ok (wdials w)
}.

(** Connections keep their bytes; the rest of the world may differ. *)
Definition same_wires (w w' : world) : Prop :=
  ∀ id c, wconns w !! id = Some c →
    ∃ c', wconns w' !! id = Some c' /\ io_of c' = io_of c /\ (sc_closed c = true → sc_closed c' = true).

Lemma same_wires_refl w : same_wires w w.
Proof. intros id c Hc. by exists c. Qed.

Lemma same_wires_trans w1 w2 w3 : same_wires w1 w2 → same_wires w2 w3 → same_wires w1 w3.
Proof. intros H1 H2 id c Hc. destruct (H1 _ _ Hc) as (c2 & Hc2 & Hi & ?). destruct (H2 _ _ Hc2) as (c3 & ? & ? & ?). exists c3. split_and!; [done|congruence|auto]. Qed.

Lemma ready_io c c' : io_of c' = io_of c → ready c → ready c'.
Proof. unfold io_of, ready. by intros [= -> -> ->]. Qed.

Lemma scClose_closed (c : serverConn (W:=W) (S:=S)) : sc_closed (scClose c) = true.
Proof. unfold scClose. by destruct (sc_closed c) eqn:E. Qed.

Lemma closeConn_wires id w : same_wires w (closeConn id w).
Proof.
  intros j c Hc. cbn. destruct (decide (id = j)) as [<-|Hne].
  - exists (scClose c). rewrite lookup_alter_eq, Hc. split_and!; [done|apply (close_io (wctx w) c)|]. intros _. apply scClose_closed.
  - exists c. by rewrite lookup_alter_ne.
Qed.

Lemma closeConn_shut id c w : wconns w !! id = Some c → ∃ c', wconns (closeConn id w) !! id = Some c' /\ sc_closed c' = true.
Proof. intros Hc. exists (scClose c). cbn. rewrite lookup_alter_eq, Hc. split; [done|apply scClose_closed]. Qed.

Lemma closeAll_spec l w :
  same_wires w (closeAll l w) /\ wpool (closeAll l w) = wpool w /\ wnext (closeAll l w) = wnext w /\
  wdials (closeAll l w) = wdials w /\
  (∀ id, id ∈ l → is_Some (wconns w !! id) → ∃ c, wconns (closeAll l w) !! id = Some c /\ sc_closed c = true).
Proof.
  revert w. induction l as [|id l IH]; intros w; [split_and!; [apply same_wires_refl|done..|by intros ? ?%not_elem_of_nil]|].
  cbn. destruct (IH (closeConn id w)) as (Hs & Hp & Hn & Hd & Hcl). split_and!; [|done..|].
  { eapply same_wires_trans; [apply closeConn_wires|done]. }
  intros i [->|Hi]%elem_of_cons [c Hc].
  - destruct (closeConn_shut id c w Hc) as (c1 & Hc1 & Hx). destruct (Hs _ _ Hc1) as (c2 & ? & _ & ?). eauto.
  - apply Hcl; [done|]. destruct (closeConn_wires id w _ _ Hc) as (c1 & ? & _). by eexists.
Qed.

Lemma shut_same g w w' : shut_ok g w → same_wires w w' → shut_ok g w'.
Proof. intros Hg Hs id Hid. destruct (Hg id Hid) as (c & Hc & Hx). destruct (Hs _ _ Hc) as (c' & ? & _ & ?). eauto. Qed.

Lemma client_ok_same h d w w' : client_ok h d w → same_wires w w' →
  wpool w' = wpool w → (wnext w <= wnext w')%nat → wdials w' = wdials w → client_ok h d w'.
Proof.
  intros [(g & Hp & Hg) Hn Hr Hd] Hs Ep En Ed. constructor; rewrite ?Ep, ?Ed; try done.
  - exists g. split; [done|by eapply shut_same].
  - intros id Hid. specialize (Hn id Hid). lia.
  - intros key id Hid. destruct (Hr key id Hid) as (c & Hc & Hrc). destruct (Hs _ _ Hc) as (c' & Hc' & Hi & _).
    exists c'. split; [done|]. by eapply ready_io.
Qed.

Lemma now_same w : let w' := (now w).2 in
  wconns w' = wconns w /\ wpool w' = wpool w /\ wnext w' = wnext w /\ wdials w' = wdials w /\ wpeeks w' = wpeeks w /\ wctx w' = wctx w.
Proof. unfold now. by destruct (wclock w). Qed.

(** Taking from the pool. *)
Lemma takeLoop_ok fuel key t peeks p h g d r shut peeks' p' :
  pool_ok (mkPState p h g d) → takeLoop fuel key t peeks p = (r, shut, peeks', p') →
  (∀ k i, i ∈ ids p' k → i ∈ ids p k) /\ (∀ i, i ∈ shut → i ∈ ids p key) /\
  match r with
  | None => pool_ok (mkPState p' h (list_to_set shut ∪ g) d)
  | Some id =>
      pool_ok (mkPState p' ({[id]} ∪ h) (list_to_set shut ∪ g) d) /\ d !! id = Some key /\ id ∈ ids p key /\ (id ∉ h)
  end.
Proof.
  revert peeks p g r shut. induction fuel as [|fuel IH]; intros peeks p g r shut Hok; cbn [takeLoop].
  { intros [= <- <- <- <-]. cbn. rewrite union_empty_l_L. split_and!; [done|by intros ? ?%not_elem_of_nil|done]. }
  pose proof (pool_ok_take _ key t (default false (head peeks)) Hok) as Ht. cbn [pl held gone dialed] in Ht.
  assert (∀ k i, i ∈ ids (takeOnce key t (default false (head peeks)) p).2 k → i ∈ ids p k) as Hsub.
  { intros k i. unfold takeOnce. destruct (unsnoc (idleOf p key)) as [[rest x]|] eqn:Hu; [|done].
    apply unsnoc_some in Hu. cbn. rewrite ids_set. case_decide; [subst|done]. unfold ids. rewrite Hu, map_app. set_solver. }
  destruct (takeOnce key t (default false (head peeks)) p) as [[|id|id] p1]; cbn in Hsub.
  - intros [= <- <- <- <-]. destruct Ht as [-> _]. cbn. rewrite union_empty_l_L.
    split_and!; [done|by intros ? ?%not_elem_of_nil|done].
  - intros [= <- <- <- <-]. destruct Ht as (Hok' & Hd & e & He & Hid & _).
    assert (id ∈ ids p key) as Hin by (unfold ids; rewrite <- Hid; by apply list_elem_of_fmap_2).
    cbn. rewrite union_empty_l_L. split_and!; [done|by intros ? ?%not_elem_of_nil|done|done|done|].
    by apply (pool_idle_free _ Hok key).
  - destruct (takeLoop fuel key t (tail peeks) p1) as [[[r1 s1] pk1] p2] eqn:Hl. intros [= <- <- <- <-].
    destruct Ht as (Hok' & _ & Hid). destruct (IH _ _ _ _ _ Hok' Hl) as (Hs2 & Hsh & Hr).
    replace (list_to_set (id :: s1) ∪ g) with (list_to_set s1 ∪ ({[id]} ∪ g) : gset nat) by set_solver.
    split_and!; [auto|intros i [->|Hi]%elem_of_cons; auto|].
    destruct r1; [|done]. destruct Hr as (? & ? & ? & ?). split_and!; auto.
Qed.


Lemma takeConn_ok h d w key r w' : client_ok h d w → takeConn key w = (r, w') →
  match r with
  | None => client_ok h d w'
  | Some id => client_ok ({[id]} ∪ h) d w' /\ d !! id = Some key /\ (id ∉ h) /\ ∃ c, wconns w' !! id = Some c /\ ready c
  end.
Proof.
  intros Hok. unfold takeConn. pose proof (now_same w) as Hnow. destruct (now w) as [t w1]. cbn in Hnow.
  destruct Hnow as (Ec & Ep & En & Ed & _). unfold take_.
  destruct (takeLoop _ key t (wpeeks w1) (wpool w1)) as [[[id shut] peeks] p] eqn:Ht. intros [= <- <-].
  rewrite Ep in Ht. destruct (client_pool _ _ _ Hok) as (g & Hg & Hshut).
  destruct (takeLoop_ok _ _ _ _ _ _ _ _ _ _ _ _ Hg Ht) as (Hsub & Hids & Hr).
  set (w2 := mkWorld p _ _ _ _ _ _). destruct (closeAll_spec shut w2) as (Hs & Hp & Hn & Hd & Hcl).
  assert (same_wires w w2) as Hs0 by (intros i x Hx; exists x; subst w2; cbn; by rewrite Ec).
  assert (∀ h', pool_ok (mkPState p h' (list_to_set shut ∪ g) d) → client_ok h' d (closeAll shut w2)) as Hgen.
  { intros h' Hg'. constructor; rewrite ?Hp, ?Hn, ?Hd;
      [|change (wnext w2) with (wnext w1); rewrite En; apply Hok| |change (wdials w2) with (wdials w1); rewrite Ed; apply Hok].
    - exists (list_to_set shut ∪ g). split; [done|]. intros i [Hi%elem_of_list_to_set|Hi]%elem_of_union.
      + apply Hcl; [done|]. change (wconns w2) with (wconns w1). rewrite Ec.
        destruct (client_ready _ _ _ Hok key i) as (x & ? & _); [auto|by eexists].
      + by apply (shut_same g w); [|eapply same_wires_trans|].
    - intros k i Hi. destruct (client_ready _ _ _ Hok k i) as (x & Hx & Hrx); [auto|].
      destruct (same_wires_trans _ _ _ Hs0 Hs _ _ Hx) as (x' & ? & ? & _). exists x'. split; [done|]. by eapply ready_io. }
  destruct id as [id|]; [|auto]. destruct Hr as (Hg' & Hk & Hin & Hni). split_and!; [auto|done|done|].
  destruct (client_ready _ _ _ Hok _ _ Hin) as (c & Hc & Hrc). destruct (Hs id c) as (c' & Hc' & Hi & _); [by subst w2; cbn; rewrite Ec|].
  exists c'. split; [done|]. by eapply ready_io.
Qed.

(** Only the calls touch the connections they hold. *)
Lemma held_not_idle h d w key id i : client_ok h d w → id ∈ h → i ∈ ids (wpool w) key → i ≠ id.
Proof. intros [(g & Hg & _) _ _ _] Hh Hi ->. by destruct (pool_idle_free _ Hg _ _ Hi). Qed.

Lemma onConn_ok {A} h d w id (f : guarded → A * guarded) dflt a w' : client_ok h d w → id ∈ h →
  onConn id f dflt w = (a, w') →
  client_ok h d w' /\
  ∀ c, wconns w !! id = Some c → ∃ c', wconns w' !! id = Some c' /\ f (wctx w, c) = (a, (wctx w', c')).
Proof.
  intros Hok Hh. unfold onConn. destruct (wconns w !! id) as [c|] eqn:Hc; [|by intros [= <- <-]].
  destruct (f (wctx w, c)) as [b [x c']] eqn:Hf. intros [= <- <-]. split.
  - destruct Hok as [(g & Hg & Hshut) Hn Hr Hd] eqn:E. constructor; cbn; [|done| |done].
    + exists g. split; [done|]. intros i Hi. cbn. rewrite lookup_insert_ne; [by apply Hshut|]. intros <-.
      by apply (pool_held_open _ Hg id).
    + intros key i Hi. rewrite lookup_insert_ne; [by eapply Hr|]. intros <-. by apply (held_not_idle h d w key id id).
  - intros ? [= <-]. exists c'. cbn. by rewrite lookup_insert_eq.
Qed.

Lemma closeConn_ok h d w id c : client_ok h d w → id ∈ h → wconns w !! id = Some c →
  client_ok (h ∖ {[id]}) d (closeConn id w).
Proof.
  intros Hok Hh Hc. assert (client_ok h d (closeConn id w)) as [(g & Hg & Hshut) Hn Hr Hd].
  { apply (client_ok_same h d w); [done|apply closeConn_wires|done..]. }
  constructor; [|done..]. exists ({[id]} ∪ g).
  split; [exact (pool_ok_step _ _ Hg (pdrop (mkPState _ h g d) id Hh))|].
  intros i [->%elem_of_singleton|Hi]%elem_of_union; [by eapply closeConn_shut|by apply Hshut].
Qed.

Lemma putConn_ok h d w id key c : client_ok h d w → id ∈ h → d !! id = Some key →
  wconns w !! id = Some c → ready c → client_ok (h ∖ {[id]}) d (putConn key id w).
Proof.
  intros Hok Hh Hk Hc Hrc. unfold putConn. pose proof (now_same w) as Hnow. destruct (now w) as [t w1]. cbn in Hnow.
  destruct Hnow as (Ec & Ep & En & Ed & _). destruct (client_pool _ _ _ Hok) as (g & Hg & Hshut). rewrite Ep.
  pose proof (pool_ok_put _ key id t Hg Hh Hk) as Hp. cbn [pl held gone dialed] in Hp.
  assert (∀ k i, i ∈ ids (put_ key id t (wpool w)).2 k → i ∈ ids (wpool w) k \/ i = id) as Hsub.
  { intros k i. unfold put_. destruct (dropExpired t (idleOf (wpool w) key)) as [sh kept] eqn:Hd.
    apply dropExpired_spec in Hd as (Hmap & _). case_goal; cbn; rewrite ids_set; (case_decide; [subst|by left]);
      unfold ids; rewrite Hmap, ?map_app; set_solver. }
  assert (∀ i, i ∈ (put_ key id t (wpool w)).1 → i ∈ ids (wpool w) key \/ i = id) as Hids.
  { intros i. unfold put_. destruct (dropExpired t (idleOf (wpool w) key)) as [sh kept] eqn:Hd.
    apply dropExpired_spec in Hd as (Hmap & _). unfold ids. rewrite Hmap. case_goal; cbn; set_solver. }
  destruct (put_ key id t (wpool w)) as [shut p]. cbn in Hsub, Hids.
  destruct (closeAll_spec shut (set_pool w1 p)) as (Hs & Hp' & Hn & Hd & Hcl).
  assert (same_wires w (set_pool w1 p)) as Hs0 by (intros i x Hx; exists x; cbn; by rewrite Ec).
  pose proof (same_wires_trans _ _ _ Hs0 Hs) as Hsw.
  assert (∀ k i, i ∈ ids (wpool w) k \/ i = id → ∃ x, wconns w !! i = Some x /\ ready x) as Hready.
  { intros k i [Hi| -> ]; [by apply (client_ready _ _ _ Hok k)|eauto]. }
  constructor; rewrite ?Hp', ?Hn, ?Hd; [|cbn; rewrite En; apply Hok| |cbn; rewrite Ed; apply Hok].
  - exists (list_to_set shut ∪ g). split; [done|]. intros i [Hi%elem_of_list_to_set|Hi]%elem_of_union.
    + apply Hcl; [done|]. cbn. rewrite Ec. destruct (Hready key i) as (x & ? & _); [auto|by eexists].
    + by apply (shut_same g w).
  - intros k i Hi%Hsub. destruct (Hready k i Hi) as (x & Hx & Hrx). destruct (Hsw _ _ Hx) as (x' & ? & ? & _).
    exists x'. split; [done|]. by eapply ready_io.
Qed.

Lemma addConn_ok h d w c key : client_ok h d w →
  let '(id, w') := addConn c w in
  client_ok ({[id]} ∪ h) (<[id:=key]> d) w' /\ wconns w' !! id = Some c /\ (id ∉ h).
Proof.
  intros Hok. cbn. destruct (client_pool _ _ _ Hok) as (g & Hg & Hshut). set (id := wnext w).
  assert (d !! id = None) as Hnone.
  { apply eq_None_not_Some. intros Hs. pose proof (client_next _ _ _ Hok _ Hs). lia. }
  assert (id ∉ h) as Hnh.
  { intros Hin. assert (is_Some (d !! id)) as [? ?]; [apply (pool_all _ Hg); by left|congruence]. }
  split_and!; [|by rewrite lookup_insert_eq|done]. constructor; cbn [wpool wnext wconns wdials].
  - exists g. split; [exact (pool_ok_step _ _ Hg (pdial (mkPState _ h g d) id key Hnone))|].
    intros i Hi. cbn. rewrite lookup_insert_ne; [by apply Hshut|]. intros <-.
    assert (is_Some (d !! id)) as [? ?]; [apply (pool_all _ Hg); by right; left|congruence].
  - intros i Hi. destruct (decide (i = id)) as [->|Hne]; [lia|]. rewrite lookup_insert_ne in Hi by done.
    pose proof (client_next _ _ _ Hok _ Hi). lia.
  - intros k i Hi. rewrite lookup_insert_ne; [by apply (client_ready _ _ _ Hok k)|]. intros <-.
    pose proof (pool_key _ Hg _ _ Hi) as Hd. cbn in Hd. congruence.
  - apply Hok.
Qed.

(** A guarded connection belongs to the call, with nothing sent or read on it; one
    that takes no deadline is closed. *)
Lemma guardConn_ok h d w server n hd plat r w' key : client_ok h d w → dial_ok (Ok (n, hd, plat)) →
  guardConn server (n, hd, plat) w = (r, w') →
  ∃ d', match r with
        | inl _ => client_ok h d' w'
        | inr (_, id) => client_ok ({[id]} ∪ h) d' w' /\ d' !! id = Some key /\ (id ∉ h) /\
                         ∃ sc, wconns w' !! id = Some sc /\ io_of sc = ([], [], outbox n)
        end.
Proof.
  intros Hok (Hsent & Hgot & Hwh). unfold guardConn. pose proof (now_same w) as Hnow. destruct (now w) as [t w2]. cbn in Hnow.
  destruct Hnow as (Ec & Ep & En & Ed & _).
  assert (client_ok h d w2) as Hok2.
  { apply (client_ok_same h d w); [done| |done|by rewrite En|done]. intros i x Hx. exists x. by rewrite Ec. }
  destruct (connSetDeadline _ n) as [[e|] n'] eqn:Hsd.
  - pose proof (addConn_ok h d w2 (mkServerConn (connClose n') hd plat true None None false) key Hok2) as Ha.
    destruct (addConn _ w2) as [id w3]. intros [= <- <-]. destruct Ha as ([(g & Hg & Hshut) Hn Hr Hd] & Hc3 & Hni).
    exists (<[id:=key]> d). constructor; [|done..]. exists ({[id]} ∪ g). split.
    + assert (id ∈ {[id]} ∪ h) as Hin by set_solver.
      pose proof (pool_ok_step _ _ Hg (pdrop (mkPState _ ({[id]} ∪ h) g _) id Hin)) as Hg'. cbn in Hg'.
      by replace (({[id]} ∪ h) ∖ {[id]}) with h in Hg' by set_solver.
    + intros i [->%elem_of_singleton|Hi]%elem_of_union; [by eexists|by apply Hshut].
  - assert (io_of (mkServerConn n' hd plat false None None true) = ([], [], outbox n)) as Hio.
    { unfold connSetDeadline in Hsd. destruct (conn_closed n); [done|]. injection Hsd as <-. unfold io_of. cbn. by rewrite Hsent, Hgot. }
    pose proof (addConn_ok h d w2 (mkServerConn n' hd plat false None None true) key Hok2) as Ha.
    destruct (addConn _ w2) as [id w3]. destruct Ha as (Ha & Hc3 & Hni).
    assert (id ∈ {[id]} ∪ h) as Hin by set_solver.
    destruct (onConn id (authenticate _ _ _ _) None w3) as [e w4] eqn:H4. intros [= <- <-].
    destruct (onConn_ok _ _ _ _ _ _ _ _ Ha Hin H4) as [Hok4 Hx4]. destruct (Hx4 _ Hc3) as (c4 & Hc4 & Hf4).
    exists (<[id:=key]> d). split_and!; [done|by rewrite lookup_insert_eq|done|]. exists c4. split; [done|].
    pose proof (authenticate_io server t (wctx w3, mkServerConn n' hd plat false None None true)) as H2. rewrite Hf4 in H2.
    rewrite <- Hio. exact H2.
Qed.

Lemma dialFramed_ok h d w r w' : client_ok h d w → dialFramed w = (r, w') → client_ok h d w' /\ dial_ok r.
Proof.
  intros Hok. unfold dialFramed. destruct (wdials w) as [|dl dials] eqn:E; intros [= <- <-]; [done|].
  destruct Hok as [Hp Hn Hr Hd]. rewrite E in Hd. apply Forall_cons in Hd as [? ?]. by split.
Qed.

(** An operation that keeps the streams of the call's connection. *)
Lemma onConn_quiet {A} h d w id c (f : guarded → A * guarded) dflt a w' : (∀ g, io (f g).2 = io g) →
  client_ok h d w → id ∈ h → wconns w !! id = Some c → onConn id f dflt w = (a, w') →
  client_ok h d w' /\ ∃ c', wconns w' !! id = Some c' /\ io_of c' = io_of c.
Proof.
  intros Hf Hok Hh Hc Ho. destruct (onConn_ok _ _ _ _ _ _ _ _ Hok Hh Ho) as [Hok' Hx].
  destruct (Hx _ Hc) as (c' & Hc' & Hfc). split; [done|]. exists c'. split; [done|].
  specialize (Hf (wctx w, c)). rewrite Hfc in Hf. exact Hf.
Qed.

(** A dialed connection belongs to the call, untouched; a failed dial leaves the
    pool as it was. *)
Lemma dialSession_ok h d w c r w' key : client_ok h d w → dialSession c w = (r, w') →
  ∃ d', match r with
        | Err _ => client_ok h d' w'
        | Ok id => client_ok ({[id]} ∪ h) d' w' /\ d' !! id = Some key /\ (id ∉ h) /\
                   ∃ sc, wconns w' !! id = Some sc /\ sent (net sc) = [] /\ got (net sc) = [] /\ whole (outbox (net sc))
        end.
Proof.
  intros Hok. unfold dialSession. destruct (validServer c); [intros [= <- <-]; eauto|].
  destruct (dialFramed w) as [dl w1] eqn:Hdl. apply (dialFramed_ok h d) in Hdl as [Hok1 Hdok]; [|done].
  destruct dl as [[[n hd] plat]|e]; [|intros [= <- <-]; eauto].
  destruct (guardConn (Server c) (n, hd, plat) w1) as [[e|[e id]] w4] eqn:Hg;
    apply (guardConn_ok h d w1 _ _ _ _ _ _ key) in Hg as (d' & Hg); try done; [intros [= <- <-]; eauto|].
  destruct Hg as (Hok4 & Hk & Hni & c4 & Hc4 & Hi4). assert (id ∈ {[id]} ∪ h) as Hin by set_solver.
  destruct (onConn id stop false w4) as [stopped w5] eqn:H5.
  destruct (onConn_quiet _ _ _ _ _ _ _ _ _ stop_io Hok4 Hin Hc4 H5) as (Hok5 & c5 & Hc5 & Hi5).
  assert (client_ok h d' (closeConn id w5)) as Hcl.
  { pose proof (closeConn_ok _ _ _ id c5 Hok5 Hin Hc5) as Hcl. by replace (({[id]} ∪ h) ∖ {[id]}) with h in Hcl by set_solver. }
  destruct stopped, e; intros [= <- <-]; exists d'; try done.
  rewrite Hi4 in Hi5. unfold io_of in Hi5. injection Hi5 as H6 H7 H8. split_and!; [done|done|done|].
  exists c5. rewrite H6, H7, H8. split_and!; [done|done|done|]. apply Hdok.
Qed.

(** Ending an exchange: kept only between exchanges, closed otherwise. *)
Lemma finish_ok h d w id key keep c : client_ok h d w → id ∈ h → d !! id = Some key →
  wconns w !! id = Some c → (keep = true → ready c) →
  client_ok (h ∖ {[id]}) d (finish key id keep w) /\
  (∃ c', wconns (finish key id keep w) !! id = Some c' /\ io_of c' = io_of c /\ (keep = false → sc_closed c' = true)).
Proof.
  intros Hok Hh Hk Hc Hr. unfold finish.
  destruct (onConn id stop false w) as [stopped w1] eqn:H1.
  destruct (onConn_ok _ _ _ _ _ _ _ _ Hok Hh H1) as [Hok1 Hx1]. destruct (Hx1 _ Hc) as (c1 & Hc1 & Hf1).
  assert (io_of c1 = io_of c) as Hi1.
  { pose proof (stop_io (wctx w, c)) as Hi. rewrite Hf1 in Hi. exact Hi. }
  assert (∀ w2 c2, client_ok h d w2 → wconns w2 !! id = Some c2 → io_of c2 = io_of c →
    client_ok (h ∖ {[id]}) d (closeConn id w2) /\
    ∃ c', wconns (closeConn id w2) !! id = Some c' /\ io_of c' = io_of c /\ (keep = false → sc_closed c' = true)) as Hclose.
  { intros w2 c2 Hok2 Hc2 Hi2. split; [by eapply closeConn_ok|]. exists (scClose c2). cbn. rewrite lookup_alter_eq, Hc2.
    split_and!; [done| |intros _; apply scClose_closed].
    rewrite <- Hi2. apply (close_io (wctx w2) c2). }
  destruct (negb (stopped && keep)) eqn:Hkeep; [by eapply Hclose|].
  destruct (onConn id ctxErr (Some (Plain "")) w1) as [dn w2] eqn:H2.
  destruct (onConn_ok _ _ _ _ _ _ _ _ Hok1 Hh H2) as [Hok2 Hx2]. destruct (Hx2 _ Hc1) as (c2 & Hc2 & Hf2).
  assert (io_of c2 = io_of c) as Hi2.
  { rewrite <- Hi1. pose proof (ctxErr_io (wctx w1, c1)) as Hi. rewrite Hf2 in Hi. exact Hi. }
  destruct dn; [by eapply Hclose|]. to_prop. subst keep.
  split; [eapply putConn_ok; try done; by eapply ready_io, Hr|].
  unfold putConn. pose proof (now_same w2) as Hnow. destruct (now w2) as [t w3]. cbn in Hnow.
  destruct Hnow as (Ec & _). destruct (put_ key id t (wpool w3)) as [shut p].
  destruct (closeAll_spec shut (set_pool w3 p)) as (Hs & _). destruct (Hs id c2) as (c' & Hc' & Hi' & _); [by cbn; rewrite Ec|].
  exists c'. split_and!; [done|congruence|done].
Qed.

(** A connection's streams after an exchange that keeps it. *)
Lemma ready_after opening frame limit oneWay x c o keep x' c' :
  (opening = [] /\ ready c \/
   opening = be32_put sessionAccept /\ sent (net c) = [] /\ got (net c) = [] /\ whole (outbox (net c))) →
  exchanged opening frame limit oneWay (x, c) o keep (x', c') → keep = true → ready c'.
Proof.
  intros Hc (Hk & _) Hkeep. destruct (Hk Hkeep) as (r & bs & Hr & ob & Hio & Hw). unfold io in Hio. cbn in Hio.
  injection Hio as Hs Hg Ho. unfold ready. rewrite Hs, Hg, Ho. destruct Hc as [[-> [Hb Hwh]]|(-> & -> & -> & Hwh)].
  - split; [|by apply Hw]. apply boundary_next; [done|by exists oneWay|done].
  - split; [|by apply Hw]. cbn [app]. apply boundary_first; [by exists oneWay|done].
Qed.

(** What a connection's incoming stream shows of an outcome. *)
Definition shows (limit : Z) (oneWay : bool) (w : world) (o : outcome) : Prop :=
  match o with
  | Again => ∃ id c pre, wconns w !! id = Some c /\ sc_closed c = true /\ got (net c) = pre ++ be32_put sessionClosing
  | Done (Ok bs) =>
      (oneWay = true → bs = []) /\
      (oneWay = false → blen bs <= limit /\
         ∃ id c pre h, wconns w !! id = Some c /\ got (net c) = pre ++ be32_put h ++ bs /\ Z.land h lengthMask = blen bs)
  | Done (Err _) => True
  end.

Lemma shows_after opening frame limit oneWay x c o keep x' c' w id c2 :
  exchanged opening frame limit oneWay (x, c) o keep (x', c') →
  wconns w !! id = Some c2 → io_of c2 = io_of c' → (keep = false → sc_closed c2 = true) → shows limit oneWay w o.
Proof.
  intros (_ & Hag & Hok) Hc2 Hi Hcl. unfold io_of in Hi. injection Hi as _ Hg _. unfold shows. destruct o as [|[bs|e]]; [| |done].
  - destruct (Hag eq_refl) as [-> (out & pre & ob & Hio & _)]. unfold io in Hio. cbn in Hio. injection Hio as _ Hg' _.
    exists id, c2, (got (net c) ++ pre). split_and!; [done|auto|]. by rewrite Hg, Hg', app_assoc.
  - destruct (Hok bs eq_refl) as [H1 H2]. split; [done|]. intros Ho. destruct (H2 Ho) as (Hl & out & pre & hd & (ob & Hio & _) & Hh).
    split; [done|]. unfold io in Hio. cbn in Hio. injection Hio as _ Hg' _.
    exists id, c2, (got (net c) ++ pre), hd. split_and!; [done| |done]. by rewrite Hg, Hg', <- app_assoc.
Qed.

Lemma mark_ok h d w key : client_ok h d w →
  client_ok h d (let '(t, w) := now w in set_pool w (markSingle key t (wpool w))).
Proof.
  intros [(g & Hg & Hshut) Hn Hr Hd]. pose proof (now_same w) as Hnow. destruct (now w) as [t w1]. cbn in Hnow.
  destruct Hnow as (Ec & Ep & En & Ed & _). constructor; cbn; rewrite ?En, ?Ed, ?Ec, ?Ep; try done.
  exists g. split; [by apply (pool_ok_same_idle _ _ Hg)|]. intros i Hi. cbn. rewrite Ec. by apply Hshut.
Qed.

(** The connection of a turn: one from the pool between exchanges, or a new one. *)
Lemma acquire_ok h d w c key taken w1 r w2 : client_ok h d w → takeConn key w = (taken, w1) →
  match taken with Some id => (Ok id, w1) | None => dialSession c w1 end = (r, w2) →
  ∃ d', match r with
        | Err _ => client_ok h d' w2
        | Ok id => client_ok ({[id]} ∪ h) d' w2 /\ d' !! id = Some key /\ (id ∉ h) /\
            ∃ sc, wconns w2 !! id = Some sc /\
              match taken with
              | Some _ => ready sc
              | None => sent (net sc) = [] /\ got (net sc) = [] /\ whole (outbox (net sc))
              end
        end.
Proof.
  intros Hok Ht Hdial. apply (takeConn_ok h d) in Ht; [|done].
  destruct taken as [id|]; [|by eapply (dialSession_ok h d w1 c r w2 key)]. injection Hdial as <- <-. exists d.
  destruct Ht as (Hok1 & Hk & Hni & Hc). by split_and!.
Qed.

(** One turn: the pool stays in order, whatever happened. *)
Lemma attempt_ok h d w c frame limit oneWay o w' : limit <= lengthMask → client_ok h d w →
  attempt c frame limit oneWay w = (o, w') → ∃ d', client_ok h d' w' /\ shows limit oneWay w' o.
Proof.
  intros Hlim Hok. unfold attempt. set (key := poolKey timeText c).
  destruct (takeConn key w) as [taken w1] eqn:Ht.
  destruct (match taken with Some id => (Ok id, w1) | None => dialSession c w1 end) as [dialed w2] eqn:Hdial.
  destruct (acquire_ok h d w c key taken w1 dialed w2 Hok Ht Hdial) as [d' Hd].
  destruct dialed as [id|e]; [|intros [= <- <-]; by exists d'].
  destruct Hd as (Hok2 & Hk & Hni & sc & Hsc & Hfresh). assert (id ∈ {[id]} ∪ h) as Hin by set_solver.
  assert (({[id]} ∪ h) ∖ {[id]} = h) as Heq by set_solver.
  destruct (onConn id (use (wctx w2)) _ w2) as [ue w3] eqn:Hu.
  destruct (onConn_ok _ _ _ _ _ _ _ _ Hok2 Hin Hu) as [Hok3 Hx3]. destruct (Hx3 _ Hsc) as (c3 & Hc3 & Hf3).
  assert (io_of c3 = io_of sc) as Hi3.
  { pose proof (use_io (wctx w2) (wctx w2, sc)) as Hi. rewrite Hf3 in Hi. exact Hi. }
  destruct ue as [e|].
  { intros [= <- <-]. exists d'. split; [|done]. rewrite <- Heq. by eapply closeConn_ok. }
  destruct (onConn id _ lost w3) as [[[o1 keep] uns] w4] eqn:Hx.
  destruct (onConn_ok _ _ _ _ _ _ _ _ Hok3 Hin Hx) as [Hok4 Hx4]. destruct (Hx4 _ Hc3) as (c4 & Hc4 & Hf4).
  intros [= <- <-].
  assert (∃ opening, exchanged opening frame limit oneWay (wctx w3, c3) o1 keep (wctx w4, c4) /\
    (opening = [] /\ ready c3 \/
     opening = be32_put sessionAccept /\ sent (net c3) = [] /\ got (net c3) = [] /\ whole (outbox (net c3))))
    as (opening & Hex & Hopen).
  { destruct taken.
    - pose proof (ready_io _ _ Hi3 Hfresh) as Hr3. exists []. split; [|by left].
      eapply pooledExchange_exchanged; [apply Hr3|exact Hf4].
    - destruct Hfresh as (H1 & H2 & H3). unfold io_of in Hi3. injection Hi3 as I1 I2 I3. exists (be32_put sessionAccept).
      split; [eapply freshExchange_exchanged; [done| |exact Hf4]; cbn; congruence|right; split_and!; congruence]. }
  set (w5 := if uns then _ else w4).
  assert (client_ok ({[id]} ∪ h) d' w5 /\ wconns w5 !! id = Some c4) as [Hok5 Hc5].
  { subst w5. destruct uns; [|done]. split; [by apply mark_ok|]. pose proof (now_same w4) as Hnow.
    destruct (now w4) as [t w6]. cbn in Hnow |- *. destruct Hnow as (-> & _). done. }
  destruct (finish_ok _ d' w5 id key keep c4 Hok5 Hin Hk Hc5) as [Hfin (c' & Hc' & Hi' & Hcl)].
  { intros Hkeep. by eapply ready_after. }
  exists d'. rewrite Heq in Hfin. split; [done|]. by eapply shows_after.
Qed.

Lemma attempts_ok n h d w c frame limit oneWay r w' : limit <= lengthMask → client_ok h d w →
  attempts n c frame limit oneWay w = (r, w') → ∃ d', client_ok h d' w' /\ shows limit oneWay w' (Done r).
Proof.
  intros Hlim. revert d w. induction n as [|n IH]; intros d w Hok; cbn [attempts].
  { intros [= <- <-]. by exists d. }
  destruct (attempt c frame limit oneWay w) as [[|r1] w1] eqn:Ha; apply (attempt_ok h d) in Ha as (d1 & Hok1 & Hs); try done.
  - by apply (IH d1).
  - intros [= <- <-]. by exists d1.
Qed.

(** C7: a session call leaves every pooled connection between exchanges, answers
    only with what the server framed, and repeats a request only when the server
    said it had not read it. From any pool whose idle connections stand at a
    boundary (whole requests sent, the acceptance and one whole session-keeping
    reply to each received), [sessionCall], however its writes, reads, dials, the
    clock and cancellation fare, ends in such a pool again, with every
    connection it used idle there, or closed. A reply it returns is within the limit and is the payload of
    the last frame that came in on one of its connections; a one-way call returns
    none. A turn that is repeated closed its connection after reading the closing
    marker, and nothing after it. *)
Theorem session_call_keeps_boundaries h d w c frame limit oneWay :
  limit <= lengthMask → client_ok h d w →
  (let '(r, w') := sessionCall c frame limit oneWay w in
   ∃ d', client_ok h d' w' /\ shows limit oneWay w' (Done r)) /\
  (∀ w', attempt c frame limit oneWay w = (Again, w') →
     ∃ id sc pre, wconns w' !! id = Some sc /\ sc_closed sc = true /\ got (net sc) = pre ++ be32_put sessionClosing).
Proof.
  intros Hlim Hok. split.
  - destruct (sessionCall c frame limit oneWay w) as [r w'] eqn:Hs. by eapply attempts_ok.
  - intros w' Ha. destruct (attempt_ok _ _ _ _ _ _ _ _ _ Hlim Hok Ha) as (_ & _ & Hsh). exact Hsh.
Qed.

End Client.

(** ** Witness *)

Definition plainClient : FrameClient := mkFrameClient "/run/svc" 0 0 None false true.

(** A server that accepts a session, answers two bytes and keeps it. *)
Definition sessionServer : conn :=
  newConn [RData (be32_put sessionAccept); RData (be32_put (sessionFlag + 2)); RData [x01; x02]].

Definition emptyWorld : world (W:=unit) (S:=unit) :=
  mkWorld (mkPool ∅ ∅) ∅ 0 [Ok (sessionServer, ConnOpaque, tt)] [] [] (mkCtx None [] None).

Definition noPlatform (_ : Z) (_ : option Options) (_ : unit) : (binder unit * Peer * unit) + (err * unit) :=
  inr (Sentinel ErrNoBinding, tt).

Lemma emptyWorld_ok : client_ok ∅ ∅ emptyWorld.
Proof.
  constructor; cbn.
  - exists ∅. split; [apply (preachable_ok pstart), rtc_refl|]. by intros id ?%not_elem_of_empty.
  - intros id [? ?%lookup_empty_Some]. done.
  - intros key id. unfold ids, idleOf. cbn. by rewrite lookup_empty; intros ?%not_elem_of_nil.
  - by repeat constructor.
Qed.

Lemma session_call_keeps_boundaries_witness :
  (@sessionCall sampleFS unit unit noPlatform (λ s, (0, s)) itoa plainClient [x07] 1024 false emptyWorld).1 = Ok [x01; x02] /\
  ∃ d', client_ok ∅ d' (@sessionCall sampleFS unit unit noPlatform (λ s, (0, s)) itoa plainClient [x07] 1024 false emptyWorld).2.
Proof.
  split; [vm_compute; reflexivity|].
  pose proof (@session_call_keeps_boundaries sampleFS unit unit noPlatform (λ s, (0, s)) itoa ∅ ∅ emptyWorld plainClient
    [x07] 1024 false ltac:(vm_compute; discriminate) emptyWorld_ok) as [H _].
  destruct (sessionCall _ _ _ _ _ _ _ _) as [r w']. destruct H as (d' & Hd & _). by exists d'.
Defined.
