(* ===== verification/FrameCalls.v ===== *)
(** The calls of a [FrameClient] (listen/framed.go, listen/options.go and
    listen/message_endpoint_other.go): one frame out, and a reply or the end of
    the stream back, over a session where the endpoint serves them and over a
    connection of its own otherwise. *)

From S2P Require Import Prelude GoStrings GoError ProofLadder Peer Binding GoIO Frame GoFilepath PathIdentity Program ServerConn Pool Client.

(** [FrameClient.WithDefaults]. *)
Definition WithDefaults (timeout : Duration) (maxFrame : Z) (c : FrameClient) : FrameClient :=
  mkFrameClient (Endpoint c) (if Timeout c =? 0 then timeout else Timeout c)
    (if MaxFrame c =? 0 then maxFrame else MaxFrame c) (Server c) (Dialer c) (UseSessions c).

(** [messageFrameCall] where there is no XPC: [Some] is a call it handled. *)
Definition messageFrameCall (c : FrameClient) : option err :=
  if Dialer c then None
  else if HasPrefix (Endpoint c) "xpc:" then Some (Plain "listen: XPC requires macOS with cgo")
  else None.

(** [ctx.Err()] when no connection is at hand. *)
Definition askContext (x : context) : context :=
  match ctx_coming x with
  | [] => x
  | Cancel e :: rest =>
      mkCtx (match ctx_done x with Some d => Some d | None => Some e end) rest (ctx_deadline x)
  | _ :: rest => mkCtx (ctx_done x) rest (ctx_deadline x)
  end.

Section FrameCalls.
Context `{FileSystem}.
Context {W S : Type}.
Context (bindServerHandle : Z → option Options → W → (binder S * Peer * S) + (err * W)).
Context (timeNow : S → Time * S).
Context (timeText : Time → string).

Abbreviation world := (Client.world (W:=W) (S:=S)).
Abbreviation guarded := (ServerConn.guarded (W:=W) (S:=S)).

Definition set_ctx (w : world) (x : context) : world :=
  mkWorld (wpool w) (wconns w) (wnext w) (wdials w) (wpeeks w) (wclock w) x.

(** [frameContext]: the call's context; its timer is among what is to come. *)
Definition frameContext (timeout : Duration) (w : world) : world :=
  let '(t, w) := now w in
  let x := wctx w in
  set_ctx w (mkCtx (ctx_done x) (ctx_coming x) (Some (frameDeadline (ctx_deadline x) timeout t))).

(** [frameError] of the call. *)
Definition callError (e : option err) (w : world) : option err * world :=
  let w := set_ctx w (askContext (wctx w)) in
  let '(t, w) := now w in
  (frameError (ctx_done (wctx w)) (ctx_deadline (wctx w)) t e, w).

(** A result after [frameError]. *)
Definition callResult (r : result (list byte)) (w : world) : result (list byte) * world :=
  let '(e, w) := callError (err_of r) w in
  (match e with Some e => Err e | None => r end, w).

(** [FrameClient.sessions]. *)
Definition sessions (c : FrameClient) (length : Z) (w : world) : bool * world :=
  if UseSessions c && negb (Dialer c) && (length <=? lengthMask) then
    let '(t, w) := now w in
    let '(b, p) := isSingle (poolKey timeText c) t (wpool w) in (negb b, set_pool w p)
  else (false, w).

(** [FrameClient.connect]. *)
Definition connect (c : FrameClient) (w : world) : result nat * world :=
  if Dialer c && match Server c with Some _ => true | None => false end
  then (Err (Wrap "custom transport with local server expectation" [Sentinel ErrServerUntrusted]), w)
  else match validServer c with
  | Some e => (Err e, w)
  | None =>
      match dialFramed w with
      | (Err e, w) => (Err e, w)
      | (Ok d, w) =>
          match guardConn bindServerHandle timeNow (Server c) d w with
          | (inl e, w) => (Err e, w)
          | (inr (Some e, id), w) =>
              let '(_, w) := onConn id stop false w in (Err e, closeConn id w)
          | (inr (None, id), w) => (Ok id, w)
          end
      end
  end.

(** The closure [connect] gives. *)
Definition hangUp (id : nat) (w : world) : world :=
  let '(_, w) := onConn id stop false w in closeConn id w.

(** The exchange of a connection of its own. *)
Definition singleExchange (frame : list byte) (limit : Z) (oneWay : bool) (g : guarded) : result (list byte) * guarded :=
  match writeFrame frame limit g with
  | (Some e, g) => let '(e, g) := refusalAfterWriteError e false g in (Err e, g)
  | (None, g) =>
      if oneWay then
        match waitFrameEOF g with
        | (Some e, g) => (Err e, g)
        | (None, g) => (Ok [], g)
        end
      else readFrame limit g
  end.

Definition singleCall (c : FrameClient) (frame : list byte) (limit : Z) (oneWay : bool) (w : world)
    : result (list byte) * world :=
  match connect c w with
  | (Err e, w) => callResult (Err e) w
  | (Ok id, w) =>
      let '(r, w) := onConn id (singleExchange frame limit oneWay) (Err (Plain "no connection")) w in
      let '(r, w) := callResult r w in
      (r, hangUp id w)
  end.

(** [WriteFrameContext] ([oneWay]) and [ExchangeFrameContext]. *)
Definition frameCall (c : FrameClient) (frame : list byte) (oneWay : bool) (w : world) : result (list byte) * world :=
  let limit := frameLimit (MaxFrame c) in
  if limit <? blen frame then (Err (Sentinel ErrFrameTooLarge), w)
  else
    let w := frameContext (Timeout c) w in
    match messageFrameCall c with
    | Some e => callResult (Err e) w
    | None =>
        let '(ask, w) := sessions c (blen frame) w in
        if ask then
          let '(r, w) := sessionCall bindServerHandle timeNow timeText c frame limit oneWay w in
          if match r with Err e => errors_is e errNoSession | Ok _ => false end then
            let '(t, w) := now w in
            singleCall c frame limit oneWay (set_pool w (markSingle (poolKey timeText c) t (wpool w)))
          else callResult r w
        else singleCall c frame limit oneWay w
    end.

Definition WriteFrameContext (c : FrameClient) (frame : list byte) (w : world) : option err * world :=
  let '(r, w) := frameCall c frame true w in (err_of r, w).

Definition ExchangeFrameContext (c : FrameClient) (frame : list byte) (w : world) : result (list byte) * world :=
  frameCall c frame false w.

(** The [WithContext] adapter's calls. *)
Definition contextExchangeFrame (c : FrameClient) (frame : list byte) (w : world) : result (list byte) * world :=
  let w := set_ctx w (askContext (wctx w)) in
  match ctx_done (wctx w) with
  | Some e => (Err e, w)
  | None => ExchangeFrameContext c frame w
  end.

(** ** Lemmas *)

Lemma callError_same e w : let w' := (callError e w).2 in
  wconns w' = wconns w /\ wpool w' = wpool w /\ wnext w' = wnext w /\ wdials w' = wdials w.
Proof.
  unfold callError. pose proof (now_same (set_ctx w (askContext (wctx w)))) as Hn.
  destruct (now _) as [t w1]. cbn in Hn. destruct Hn as (? & ? & ? & ? & _). done.
Qed.

Lemma client_ok_world h d (w w' : world) : client_ok h d w →
  wconns w' = wconns w → wpool w' = wpool w → wnext w' = wnext w → wdials w' = wdials w → client_ok h d w'.
Proof.
  intros Hok Ec Ep En Ed. apply (client_ok_same h d w); [done| |done|by rewrite En|done].
  intros i x Hx. exists x. by rewrite Ec.
Qed.

Lemma callResult_ok h d r (w : world) r' (w' : world) : client_ok h d w → callResult r w = (r', w') →
  client_ok h d w' /\ wconns w' = wconns w /\ ∀ bs, r' = Ok bs → r = Ok bs.
Proof.
  intros Hok. unfold callResult. pose proof (callError_same (err_of r) w) as Hs.
  destruct (callError (err_of r) w) as [e w1]. cbn in Hs. destruct Hs as (? & ? & ? & ?). intros [= <- <-].
  split_and!; [by eapply client_ok_world|done|]. intros bs. by destruct e.
Qed.

Lemma now_ok h d (w : world) t (w' : world) : client_ok h d w → now w = (t, w') → client_ok h d w'.
Proof.
  intros Hok Hn. pose proof (now_same w) as Hs. rewrite Hn in Hs. cbn in Hs. destruct Hs as (? & ? & ? & ? & _).
  by eapply client_ok_world.
Qed.

Lemma isSingle_idle key t p : idle (isSingle key t p).2 = idle p.
Proof. unfold isSingle. by repeat case_goal. Qed.

Lemma client_ok_idle h d (w : world) p : client_ok h d w → idle p = idle (wpool w) → client_ok h d (set_pool w p).
Proof.
  intros [(g & Hg & Hshut) Hn Hr Hd] Hi. constructor; cbn; [|done| |done].
  - exists g. split; [by apply (pool_ok_same_idle _ _ Hg)|done].
  - intros key id. unfold ids, idleOf. rewrite Hi. apply Hr.
Qed.

Lemma sessions_ok h d (w : world) c n b (w' : world) : client_ok h d w → sessions c n w = (b, w') → client_ok h d w'.
Proof.
  intros Hok. unfold sessions. case_goal; [|by intros [= <- <-]]. destruct (now w) as [t w1] eqn:Hn.
  apply (now_ok h d) in Hn; [|done]. pose proof (isSingle_idle (poolKey timeText c) t (wpool w1)) as Hi.
  destruct (isSingle _ t (wpool w1)) as [x p]. intros [= <- <-]. by apply client_ok_idle.
Qed.

Lemma connect_ok h d (w : world) c r (w' : world) : client_ok h d w → connect c w = (r, w') →
  ∃ d', match r with
        | Err _ => client_ok h d' w'
        | Ok id => client_ok ({[id]} ∪ h) d' w' /\ (id ∉ h) /\
                   ∃ sc, wconns w' !! id = Some sc /\ sent (net sc) = [] /\ whole (outbox (net sc))
        end.
Proof.
  intros Hok. unfold connect. destruct (Dialer c && _); [intros [= <- <-]; eauto|]. destruct (validServer c); [intros [= <- <-]; eauto|].
  destruct (dialFramed w) as [dl w1] eqn:Hdl. apply (dialFramed_ok h d) in Hdl as [Hok1 Hdok]; [|done].
  destruct dl as [[[n hd] plat]|e]; [|intros [= <- <-]; eauto].
  destruct (guardConn bindServerHandle timeNow (Server c) (n, hd, plat) w1) as [[e|[e id]] w4] eqn:Hg;
    apply (guardConn_ok _ _ timeText h d w1 _ _ _ _ _ _ "") in Hg as (d' & Hg); try done; [intros [= <- <-]; eauto|].
  destruct Hg as (Hok4 & _ & Hni & c4 & Hc4 & Hi4). assert (id ∈ {[id]} ∪ h) as Hin by set_solver.
  destruct e as [e|].
  - destruct (onConn id stop false w4) as [stopped w5] eqn:H5.
    destruct (onConn_quiet _ _ _ _ _ _ _ _ _ stop_io Hok4 Hin Hc4 H5) as (Hok5 & c5 & Hc5 & _).
    intros [= <- <-]. exists d'. pose proof (closeConn_ok _ _ _ id c5 Hok5 Hin Hc5) as Hcl.
    by replace (({[id]} ∪ h) ∖ {[id]}) with h in Hcl by set_solver.
  - intros [= <- <-]. exists d'. unfold io_of in Hi4. injection Hi4 as H6 H7 H8. split_and!; [done|done|].
    exists c4. rewrite H6, H8. split_and!; [done|done|]. apply Hdok.
Qed.

Lemma hangUp_ok h d (w : world) id c : client_ok ({[id]} ∪ h) d w → id ∉ h → wconns w !! id = Some c → client_ok h d (hangUp id w).
Proof.
  intros Hok Hni Hc. unfold hangUp. assert (id ∈ {[id]} ∪ h) as Hin by set_solver.
  destruct (onConn id stop false w) as [stopped w1] eqn:H1.
  destruct (onConn_quiet _ _ _ _ _ _ _ _ _ stop_io Hok Hin Hc H1) as (Hok1 & c1 & Hc1 & _).
  pose proof (closeConn_ok _ _ _ id c1 Hok1 Hin Hc1) as Hcl.
  by replace (({[id]} ∪ h) ∖ {[id]}) with h in Hcl by set_solver.
Qed.

(** A reply within the limit, and none to a one-way call. *)
Definition fits (limit : Z) (oneWay : bool) (r : result (list byte)) : Prop :=
  match r with
  | Ok bs => (oneWay = true → bs = []) /\ (oneWay = false → blen bs <= limit)
  | Err _ => True
  end.

Lemma singleExchange_fits frame limit oneWay g r g' : limit <= lengthMask →
  singleExchange frame limit oneWay g = (r, g') → fits limit oneWay r.
Proof.
  intros Hlim. unfold singleExchange. destruct (writeFrame frame limit g) as [[e|] g1].
  { case_goal. by intros [= <- <-]. }
  destruct oneWay.
  - destruct (waitFrameEOF g1) as [[e|] g2]; by intros [= <- <-].
  - intros Hr. destruct r as [bs|e]; [|done]. split; [done|]. by apply readFrame_moved in Hr as [? _].
Qed.

Lemma singleCall_ok h d (w : world) c frame limit oneWay r (w' : world) : limit <= lengthMask → client_ok h d w →
  singleCall c frame limit oneWay w = (r, w') → (∃ d', client_ok h d' w') /\ fits limit oneWay r.
Proof.
  intros Hlim Hok. unfold singleCall. destruct (connect c w) as [[id|e] w1] eqn:Hc; apply (connect_ok h d) in Hc as (d' & Hc); try done.
  - destruct Hc as (Hok1 & Hni & sc & Hsc & _). assert (id ∈ {[id]} ∪ h) as Hin by set_solver.
    destruct (onConn id _ _ w1) as [r1 w2] eqn:H2. destruct (onConn_ok _ _ _ _ _ _ _ _ Hok1 Hin H2) as [Hok2 Hx].
    destruct (Hx _ Hsc) as (c2 & Hc2 & Hf). apply singleExchange_fits in Hf; [|done].
    destruct (callResult r1 w2) as [r2 w3] eqn:H3. destruct (callResult_ok _ _ _ _ _ _ Hok2 H3) as (Hok3 & Ec & Hr).
    intros [= <- <-]. split; [exists d'; apply (hangUp_ok h d' w3 id c2); [done|done|by rewrite Ec]|].
    destruct r2 as [bs|]; [|done]. by rewrite (Hr bs) in Hf.
  - intros Hr. apply (callResult_ok h d') in Hr as (Hok' & _ & Hb); [|done]. split; [by exists d'|].
    destruct r as [bs|]; [|done]. by specialize (Hb bs eq_refl).
Qed.

(** A framed call is bounded and leaves nothing behind. A frame over the
    client's limit is refused before anything is dialed or taken. Otherwise,
    however the call ends, every connection it used is idle between exchanges or
    closed, and a reply it returns is within the limit; a one-way call returns
    none. *)
Theorem frame_call_bounded h d (w : world) c frame oneWay :
  0 <= MaxFrame c → client_ok h d w →
  let '(r, w') := frameCall c frame oneWay w in
  (∃ d', client_ok h d' w') /\ fits (frameLimit (MaxFrame c)) oneWay r /\
  (frameLimit (MaxFrame c) < blen frame → r = Err (Sentinel ErrFrameTooLarge) /\ w' = w).
Proof.
  intros Hmax Hok. destruct (frameLimit_range _ Hmax) as [_ Hlim]. unfold frameCall.
  destruct (Z.ltb_spec (frameLimit (MaxFrame c)) (blen frame)) as [Hbig|Hsmall]; [split_and!; [by exists d|done|done]|].
  assert (client_ok h d (frameContext (Timeout c) w)) as Hok1.
  { unfold frameContext. destruct (now w) as [t w1] eqn:Hn. apply (now_ok h d) in Hn; [|done]. by eapply client_ok_world. }
  destruct (messageFrameCall c) as [e|].
  { destruct (callResult (Err e) _) as [r w'] eqn:Hr. apply (callResult_ok h d) in Hr as (Hok' & _ & Hb); [|done].
    split_and!; [by exists d| |lia]. destruct r as [bs|]; [|done]. by specialize (Hb bs eq_refl). }
  destruct (sessions c (blen frame) (frameContext (Timeout c) w)) as [ask w2] eqn:Hs.
  assert (client_ok h d w2) as Hok2 by by eapply sessions_ok.
  destruct ask.
  - destruct (sessionCall _ _ _ c frame _ oneWay w2) as [r w3] eqn:Hsc.
    destruct (attempts_ok bindServerHandle timeNow timeText sessionAttempts h d w2 c frame _ oneWay r w3 Hlim Hok2 Hsc)
      as (d3 & Hok3 & Hsh). destruct (match r with Err e => errors_is e errNoSession | Ok _ => false end).
    + destruct (now w3) as [t w4] eqn:Hn. apply (now_ok h d3) in Hn; [|done].
      destruct (singleCall c frame _ oneWay _) as [r' w'] eqn:Hr.
      apply (singleCall_ok h d3) in Hr as [? ?]; [|done|by apply client_ok_idle]. split_and!; [done|done|lia].
    + destruct (callResult r w3) as [r' w'] eqn:Hr. apply (callResult_ok h d3) in Hr as (Hok' & _ & Hb); [|done].
      split_and!; [by exists d3| |lia]. destruct r' as [bs|]; [|done]. specialize (Hb bs eq_refl). subst r.
      cbn in Hsh |- *. destruct Hsh as [? Hl]. split; [done|]. intros Ho. by destruct (Hl Ho).
  - destruct (singleCall c frame _ oneWay w2) as [r' w'] eqn:Hr.
    apply (singleCall_ok h d) in Hr as [? ?]; [|done|done]. split_and!; [done|done|lia].
Qed.

End FrameCalls.

Lemma frame_call_bounded_witness :
  let r := @frameCall sampleFS unit unit noPlatform (λ s, (0, s)) itoa plainClient [x07] false emptyWorld in
  r.1 = Ok [x01; x02] /\ length (idleOf (wpool r.2) (poolKey itoa plainClient)) = 1%nat /\ ∃ d', client_ok ∅ d' r.2.
Proof.
  intros r. split; [vm_compute; reflexivity|]. split; [vm_compute; reflexivity|].
  pose proof (@frame_call_bounded sampleFS unit unit noPlatform (λ s, (0, s)) itoa ∅ ∅ emptyWorld plainClient [x07] false
    ltac:(vm_compute; discriminate) emptyWorld_ok) as H.
  subst r. destruct (frameCall _ _ _ _ _ _ _) as [x w']. apply H.
Defined.
