(* ===== verification/Framed.v ===== *)
(** The receiving half of listen/framed.go: [ReceiveFramed] over any connection,
    and the [FramedCall] it gives a service.

    [FramedConn] is what the code asks of a connection: the methods of [Conn] and
    the interfaces it tests for, [messageReceiver] among them, whose requests arrive
    whole and with a binding of their own. As for clients, a context carries a script of what
    other goroutines do up to each moment the code can notice. Module [Watch] has the
    goroutine of [WaitContext] and the reply beside it as steps on one connection. *)

From S2P Require Import Prelude GoStrings GoError ProofLadder Peer Binding GoIO Frame GoFilepath PathIdentity Program ServerConn Session.


(** [Seen]. *)
Record Seen := mkSeen {
  SeenBound : bool; SeenWhy : string; SeenUser : string; SeenPath : string; SeenCode : string; SeenNotes : string
}.

(** [Seen.String]. *)
Definition SeenString (s : Seen) : string :=
  if negb (SeenBound s) then "who connected is unknown: " +:+ SeenWhy s
  else SeenPath s +:+ "  " +:+ SeenUser s +:+ "  " +:+ SeenCode s.

(** [SeenBy] a binding, or an error with its text. *)
Definition SeenBy {B} (r : Binding B + string) : Seen :=
  match r with
  | inr why => mkSeen false why "" "" "" ""
  | inl b =>
      let p := Captured b in
      mkSeen true "" (AttrString UserString (PUser p)) (AttrString id (PPath p)) (AttrString CodeString (PCode p))
        (Join (Notes p) "; ")
  end.

(** [Program]: the least a service asks of a caller. *)
Definition ProgramNeed : Need := mkNeed ProofKernel ProofKernel ProofBound ProofNone ProofNone.

(** ** Connections a service receives *)

(** [receivedMessage]; [m_done] says whether the channel is closed, and a nil channel,
    function or binding is [None]. *)
Record receivedMessage (T : Type) := mkMessage {
  m_frame : list byte;
  m_binding : option (Binding T);
  m_done : option (T → bool);
  m_reply : option (context → list byte → T → option err * T)
}.
Arguments mkMessage {T} _ _ _ _.
Arguments m_frame {T} _.
Arguments m_binding {T} _.
Arguments m_done {T} _.
Arguments m_reply {T} _.

(** The binding of a connection reads the connection's own state. An operation
    the code tests for with a type assertion is an [option]. [taken] is every byte
    read from it so far. *)
Class FramedConn (T : Type) := {
  fc_Reader :: Reader T;
  fc_Writer :: Writer T;
  fc_bind : T → result (Binding T) * T;
  fc_setDeadline : option (Time → T → option err * T);
  fc_refuseProof : option (err → T → option err * T);
  fc_requestValid : option (T → option err * T);
  fc_receiveMessage : option (context → Z → T → receivedMessage T * option err * T);
  fc_close : T → T;
  taken : T → list byte
}.

(** The bindings a connection gives out: its own and those of its messages. *)
Definition issued `{FramedConn T} (b : Binding T) : Prop :=
  (∃ s s', fc_bind s = (Ok b, s')) \/
  ∃ f x limit s m e s', fc_receiveMessage = Some f /\ f x limit s = (m, e, s') /\ m_binding m = Some b.

(** Only reads take bytes, and no more than asked. *)
Class FramedConnOk (T : Type) `{FramedConn T} := {
  read_taken n s bs e s' : read n s = (bs, e, s') → (length bs <= n)%nat /\ taken s' = taken s ++ bs;
  write_taken p s : taken (write p s).2 = taken s;
  bind_taken s : taken (fc_bind s).2 = taken s;
  recheck_taken b : issued b → ∀ t, taken (recheck (binner b) t).2 = taken t;
  release_taken b : issued b → ∀ t, taken (release (binner b) t).2 = taken t;
  deadline_taken f t s : fc_setDeadline = Some f → taken (f t s).2 = taken s;
  refuse_taken f e s : fc_refuseProof = Some f → taken (f e s).2 = taken s;
  valid_taken f s : fc_requestValid = Some f → taken (f s).2 = taken s;
  message_taken f x limit s : fc_receiveMessage = Some f → taken (f x limit s).2 = taken s;
  close_taken s : taken (fc_close s) = taken s
}.

(** ** A call *)

Section Framed.
Context `{FramedConn T}.

(** [FramedCall]. [k_replied] is the result of its one [Reply]; [k_watching] says
    that [WaitContext] started the reader of the final end of stream. *)
Record FramedCall := mkFramedCall {
  k_conn : T;
  k_ctx : context;
  k_limit : Z;
  k_closed : bool;
  k_binding : option (Binding T);
  k_message : option (receivedMessage T);
  k_Frame : list byte;
  k_Caller : option Seen;
  k_replied : option (option err);
  k_watching : bool;
  k_clock : list Time
}.

Definition set_conn (k : FramedCall) (c : T) : FramedCall :=
  mkFramedCall c (k_ctx k) (k_limit k) (k_closed k) (k_binding k) (k_message k) (k_Frame k) (k_Caller k) (k_replied k) (k_watching k) (k_clock k).
Definition set_kctx (k : FramedCall) (x : context) : FramedCall :=
  mkFramedCall (k_conn k) x (k_limit k) (k_closed k) (k_binding k) (k_message k) (k_Frame k) (k_Caller k) (k_replied k) (k_watching k) (k_clock k).
Definition set_kbinding (k : FramedCall) (b : Binding T) : FramedCall :=
  mkFramedCall (k_conn k) (k_ctx k) (k_limit k) (k_closed k) (Some b) (k_message k) (k_Frame k) (k_Caller k) (k_replied k) (k_watching k) (k_clock k).
Definition set_message (k : FramedCall) (m : receivedMessage T) : FramedCall :=
  mkFramedCall (k_conn k) (k_ctx k) (k_limit k) (k_closed k) (k_binding k) (Some m) (k_Frame k) (k_Caller k) (k_replied k) (k_watching k) (k_clock k).
Definition set_caller (k : FramedCall) (s : Seen) : FramedCall :=
  mkFramedCall (k_conn k) (k_ctx k) (k_limit k) (k_closed k) (k_binding k) (k_message k) (k_Frame k) (Some s) (k_replied k) (k_watching k) (k_clock k).
Definition set_frame (k : FramedCall) (f : list byte) : FramedCall :=
  mkFramedCall (k_conn k) (k_ctx k) (k_limit k) (k_closed k) (k_binding k) (k_message k) f (k_Caller k) (k_replied k) (k_watching k) (k_clock k).
Definition set_replied (k : FramedCall) (e : option err) : FramedCall :=
  mkFramedCall (k_conn k) (k_ctx k) (k_limit k) (k_closed k) (k_binding k) (k_message k) (k_Frame k) (k_Caller k) (Some e) (k_watching k) (k_clock k).
Definition set_watching (k : FramedCall) (b : bool) : FramedCall :=
  mkFramedCall (k_conn k) (k_ctx k) (k_limit k) (k_closed k) (k_binding k) (k_message k) (k_Frame k) (k_Caller k) (k_replied k) b (k_clock k).

(** [FramedCall.Close]: it ends the context, the connection and the binding. *)
Definition kClose (k : FramedCall) : FramedCall :=
  if k_closed k then k
  else
    let c := fc_close (k_conn k) in
    let c := match k_binding k with Some b => (BindingClose b c).2 | None => c end in
    let x := k_ctx k in
    let done := match ctx_done x with Some d => Some d | None => Some (Sentinel CtxCanceled) end in
    mkFramedCall c (mkCtx done (ctx_coming x) (ctx_deadline x)) (k_limit k) true (k_binding k) (k_message k) (k_Frame k) (k_Caller k)
      (k_replied k) (k_watching k) (k_clock k).

(** The moment before the call's mutex is taken or its context asked. *)
Definition kMoment (k : FramedCall) : FramedCall :=
  let x := k_ctx k in
  match ctx_coming x with
  | [] => k
  | Quiet :: rest => set_kctx k (mkCtx (ctx_done x) rest (ctx_deadline x))
  | Cancel e :: rest =>
      set_kctx k (mkCtx (match ctx_done x with Some d => Some d | None => Some e end) rest (ctx_deadline x))
  | Fire :: rest =>
      let k := set_kctx k (mkCtx (ctx_done x) rest (ctx_deadline x)) in
      match ctx_done x with Some _ => kClose k | None => k end
  end.

(** [time.Now]. *)
Definition kNow (k : FramedCall) : Time * FramedCall :=
  match k_clock k with
  | [] => (0, k)
  | t :: rest =>
      (t, mkFramedCall (k_conn k) (k_ctx k) (k_limit k) (k_closed k) (k_binding k) (k_message k) (k_Frame k) (k_Caller k) (k_replied k)
            (k_watching k) rest)
  end.

(** [frameError] of the call's context. *)
Definition kError (e : option err) (k : FramedCall) : option err * FramedCall :=
  let k := kMoment k in
  let '(t, k) := kNow k in
  (frameError (ctx_done (k_ctx k)) (ctx_deadline (k_ctx k)) t e, k).

(** The [fail] closure of [ReceiveFramed]. *)
Definition fail (canRefuse : bool) (e : err) (k : FramedCall) : err * FramedCall :=
  let '(result, k) := kError (Some e) k in
  let result := default e result in
  let k := kMoment k in
  let k :=
    if canRefuse && match ctx_done (k_ctx k) with None => true | Some _ => false end && errors_is result ErrNotProven
    then match fc_refuseProof with
         | Some refuse => set_conn k (refuse result (k_conn k)).2
         | None => set_conn k (sendProofRefusal result (k_conn k)).2
         end
    else k in
  (result, kClose (kMoment k)).

(** The section of [ReceiveFramed] under the mutex: bind, check, and note who
    called. *)
Definition bindCaller (need : Need) (k : FramedCall) : option err * FramedCall :=
  let k := kMoment k in
  if k_closed k then (Some (Sentinel CtxCanceled), k)
  else
    match fc_bind (k_conn k) with
    | (Err e, c) => (Some e, set_conn k c)
    | (Ok b, c) =>
        let k := set_kbinding (set_conn k c) b in
        match BindingCheck b need (k_conn k) with
        | (Some e, c) => (Some e, set_conn k c)
        | (None, c) => (None, set_caller (set_conn k c) (SeenBy (inl b)))
        end
    end.

(** The request header: a session request to a connection served once is told so,
    and is then a plain frame. *)
Definition readHeader (k : FramedCall) : (bool * err + Z) * FramedCall :=
  let '(h, e, c) := ReadFull 4 (k_conn k) in
  let k := set_conn k c in
  match e with
  | Some e => (inl (false, e), k)
  | None =>
      let n := be32_get h in
      if negb (Z.land n sessionFlag =? 0) && negb (n =? sessionClosing) then
        match writeUint32 sessionUnsupported (k_conn k) with
        | (Some e, c) => (inl (true, e), set_conn k c)
        | (None, c) => (inr (Z.land n lengthMask), set_conn k c)
        end
      else (inr n, k)
  end.

(** The payload and the last checks before the frame is the service's. *)
Definition readBody (n : Z) (k : FramedCall) : option err * FramedCall :=
  let '(r, c) := readFrameBody n (k_limit k) (k_conn k) in
  let k := set_conn k c in
  match r with
  | Err e => (Some e, k)
  | Ok frame =>
      let '(e, k) := match fc_requestValid with
                     | Some valid => let '(e, c) := valid (k_conn k) in (e, set_conn k c)
                     | None => (None, k)
                     end in
      match e with
      | Some e => (Some e, k)
      | None =>
          let k := kMoment k in
          match ctx_done (k_ctx k) with
          | Some e => (Some e, k)
          | None => (None, set_frame k frame)
          end
      end
  end.

(** A refused connection. *)
Definition refuse (canRefuse : bool) (e : err) (k : FramedCall) : result FramedCall * FramedCall :=
  let '(e, k) := fail canRefuse e k in (Err e, k).

(** The deferred release of a message's binding that no call keeps. *)
Definition discard (m : receivedMessage T) (r : result FramedCall * FramedCall) : result FramedCall * FramedCall :=
  match m_binding m with
  | Some b => (r.1, set_conn r.2 (BindingClose b (k_conn r.2)).2)
  | None => r
  end.

(** The call of a message whose binding [b] met the policy. *)
Definition keepMessage (m : receivedMessage T) (b : Binding T) (done : T → bool) (k : FramedCall) : result FramedCall * FramedCall :=
  let k := kMoment k in
  if k_closed k then discard m (refuse true (Sentinel CtxCanceled) k)
  else
    let k := set_frame (set_caller (set_message (set_kbinding k b) m) (SeenBy (inl b))) (m_frame m) in
    if done (k_conn k) then refuse true (Sentinel IoErrClosedPipe) k else (Ok k, k).

(** [ReceiveFramed] of a message receiver. *)
Definition receiveFromMessage (receive : context → Z → T → receivedMessage T * option err * T) (need : Need) (k : FramedCall)
    : result FramedCall * FramedCall :=
  let '(m, e, c) := receive (k_ctx k) (k_limit k) (k_conn k) in
  let k := set_conn k c in
  match e with
  | Some e => discard m (refuse true e k)
  | None =>
      if k_limit k <? blen (m_frame m) then discard m (refuse true (Sentinel ErrFrameTooLarge) k)
      else
        match m_binding m with
        | None => refuse true (Sentinel ErrNoBinding) k
        | Some b =>
            match m_reply m, m_done m with
            | Some _, Some done =>
                match BindingCheck b need (k_conn k) with
                | (Some e, c) => discard m (refuse true e (set_conn k c))
                | (None, c) => keepMessage m b done (set_conn k c)
                end
            | _, _ => discard m (refuse true (Plain "listen: message transport supplied no request lifetime") k)
            end
        end
  end.

(** [ReceiveFramed] of a stream: the header, the caller, the payload. *)
Definition receiveFromStream (need : Need) (deadline : Time) (k : FramedCall) : result FramedCall * FramedCall :=
  match fc_setDeadline with
  | None => refuse false (Sentinel ErrFrameDeadline) k
  | Some setDeadline =>
      match setDeadline deadline (k_conn k) with
      | (Some e, c) => refuse false e (set_conn k c)
      | (None, c) =>
          match readHeader (set_conn k c) with
          | (inl (canRefuse, e), k) => refuse canRefuse e k
          | (inr n, k) =>
              if k_limit k <? n then refuse true (Sentinel ErrFrameTooLarge) k
              else
                match bindCaller need k with
                | (Some e, k) => refuse true e k
                | (None, k) =>
                    match readBody n k with
                    | (Some e, k) => refuse true e k
                    | (None, k) => (Ok k, k)
                    end
                end
          end
      end
  end.

(** [ReceiveFramed]. *)
Definition ReceiveFramed (parent : context) (c : T) (need : Need) (maxFrame : Z) (clock : list Time)
    : result FramedCall * FramedCall :=
  let k := mkFramedCall c parent (frameLimit maxFrame) false None None [] None None false clock in
  let '(deadline, k) := match ctx_deadline parent with
                        | Some d => (d, k)
                        | None => let '(t, k) := kNow k in (TimeAdd t DefaultFrameTimeout, k)
                        end in
  let k := kMoment (set_kctx k (mkCtx (ctx_done parent) (ctx_coming parent) (Some deadline))) in
  match ctx_done (k_ctx k) with
  | Some e => refuse false e k
  | None =>
      match fc_receiveMessage with
      | Some receive => receiveFromMessage receive need k
      | None => receiveFromStream need deadline k
      end
  end.

(** The goroutine beside a message's call: the end of the message closes the call. *)
Definition messageEnded (k : FramedCall) : FramedCall :=
  match k_message k with
  | Some m => match m_done m with Some done => if done (k_conn k) then kClose k else k | None => k end
  | None => k
  end.

(** [FramedCall.Peer]. *)
Definition kPeer (k : FramedCall) : result Peer * FramedCall :=
  let k := kMoment k in
  if k_closed k then (Err (Sentinel NetErrClosed), k)
  else match ctx_done (k_ctx k) with
  | Some e => (Err e, k)
  | None =>
      match k_binding k with
      | None => (Err (Plain "runtime error: nil pointer dereference"), k)
      | Some b => let '(r, c) := BindingPeer b (k_conn k) in (r, set_conn k c)
      end
  end.

(** [FramedCall.Recheck]. *)
Definition kRecheck (k : FramedCall) : option err * FramedCall := let '(r, k) := kPeer k in (err_of r, k).

(** [FramedCall.finishWatching]: a reader of the end of stream is stopped by a
    deadline in the past, and what it saw decides. *)
Definition finishWatching (k : FramedCall) : option err * FramedCall :=
  if match k_message k with Some _ => true | None => false end then let k := kMoment k in (ctx_done (k_ctx k), k)
  else if negb (k_watching k) then (None, k)
  else
    match fc_setDeadline with
    | None => (Some (Plain "interface conversion: missing method SetDeadline"), k)
    | Some setDeadline =>
        let '(t, k) := kNow k in
        match setDeadline t (k_conn k) with
        | (Some e, c) => (Some e, kClose (kMoment (set_conn k c)))
        | (None, c) =>
            let '(watchErr, c) := waitFrameEOF c in
            match setDeadline (Deadline (k_ctx k)) c with
            | (Some e, c) => (Some e, set_conn k c)
            | (None, c) =>
                let k := set_conn k c in
                match watchErr with
                | None => (Some (Sentinel IoErrClosedPipe), k)
                | Some e => if is_timeout e then let k := kMoment k in (ctx_done (k_ctx k), k) else (Some e, k)
                end
            end
        end
    end.

(** The body of [Reply]'s once. *)
Definition replyOnce (frame : list byte) (k : FramedCall) : option err * FramedCall :=
  match finishWatching k with
  | (Some e, k) => kError (Some e) k
  | (None, k) =>
      match kRecheck k with
      | (Some e, k) => (Some e, k)
      | (None, k) =>
          let '(e, k) :=
            if k_limit k <? blen frame then (Some (Sentinel ErrFrameTooLarge), k)
            else
              match k_message k ≫= m_reply with
              | Some reply => let '(e, c) := reply (k_ctx k) frame (k_conn k) in (e, set_conn k c)
              | None =>
                  match writeFrame frame (k_limit k) (k_conn k) with
                  | (Some e, c) => (Some e, set_conn k c)
                  | (None, c) => let '(e, c) := waitFrameEOF c in (e, set_conn k c)
                  end
              end in
          kError e k
      end
  end.

(** [FramedCall.Reply]. *)
Definition Reply (frame : list byte) (k : FramedCall) : option err * FramedCall :=
  match k_replied k with
  | Some e => (e, k)
  | None => let '(e, k) := replyOnce frame k in (e, set_replied k e)
  end.

(** ** What a call reads *)

Context {Hok : FramedConnOk T}.

Lemma readLoop_taken fuel n (s : T) bs e s' : readLoop fuel n s = (bs, e, s') →
  (length bs <= n)%nat /\ taken s' = taken s ++ bs /\ (e = None → length bs = n).
Proof.
  revert n s bs. induction fuel as [|fuel IH]; intros [|n] s bs Hr; cbn [readLoop] in Hr; simplify_eq.
  1, 2, 3: rewrite app_nil_r; split_and!; [cbn; lia|done|done].
  destruct (read (S n) s) as [[b [x|]] s1] eqn:H1; apply read_taken in H1 as [Hl Ht].
  { simplify_eq. split_and!; [done|done|done]. }
  destruct (readLoop fuel _ s1) as [[rest x] s2] eqn:H2. simplify_eq. apply IH in H2 as (Hl2 & Ht2 & He).
  rewrite length_app. split_and!; [lia|by rewrite Ht2, Ht, app_assoc|]. intros He'. specialize (He He'). lia.
Qed.

Lemma ReadFull_taken n (s : T) bs e s' : ReadFull n s = (bs, e, s') →
  (length bs <= n)%nat /\ taken s' = taken s ++ bs /\ (e = None → length bs = n).
Proof.
  unfold ReadFull. destruct (readLoop _ n s) as [[b x] s1] eqn:Hr. apply readLoop_taken in Hr as (Hl & Ht & He).
  destruct (Nat.leb_spec n (length b)) as [Hle|Hlt]; intros Hx; [simplify_eq; split_and!; [done|done|lia]|].
  destruct x as [x|]; [|specialize (He eq_refl); lia].
  repeat case_hyp Hx; simplify_eq; by split_and!.
Qed.

Lemma writeAll_taken b (s : T) : taken (writeAll b s).2 = taken s.
Proof.
  unfold writeAll. generalize (length b) as fuel. intros fuel. revert b s.
  induction fuel as [|fuel IH]; intros [|x b] s; cbn [writeAll_loop]; try done.
  pose proof (write_taken (x :: b) s) as Hw. destruct (write (x :: b) s) as [[n e] s1]. cbn in Hw.
  repeat case_goal; cbn; try done. by rewrite IH.
Qed.

Lemma writeUint32_taken v (s : T) : taken (writeUint32 v s).2 = taken s.
Proof. unfold writeUint32. pose proof (write_taken (be32_put v) s). by destruct (write _ s) as [[]]. Qed.

(** The call's binding came from its connection. *)
Definition own (k : FramedCall) : Prop := ∀ b, k_binding k = Some b → issued b.

Lemma kClose_taken k : own k → taken (k_conn (kClose k)) = taken (k_conn k).
Proof.
  intros Ho. unfold kClose. case_goal; [done|]. cbn. destruct (k_binding k) as [b|] eqn:Hb; [|apply close_taken].
  unfold BindingClose. by rewrite (release_taken _ (Ho b Hb)), close_taken.
Qed.

(** What other goroutines do in between changes no byte and keeps the binding. *)
Definition calm (k k' : FramedCall) : Prop :=
  taken (k_conn k') = taken (k_conn k) /\ k_binding k' = k_binding k /\ k_limit k' = k_limit k /\ k_Frame k' = k_Frame k /\
  k_Caller k' = k_Caller k.

Lemma kMoment_calm k : own k → calm k (kMoment k).
Proof.
  intros Ho. unfold kMoment. destruct (ctx_coming (k_ctx k)) as [|[]]; [done..|].
  destruct (ctx_done (k_ctx k)); [|done]. set (k1 := set_kctx k _).
  assert (own k1) as Ho1 by exact Ho. split; [by rewrite kClose_taken|]. unfold kClose. by case_goal.
Qed.

Lemma calm_own k k' : calm k k' → own k → own k'.
Proof. intros (_ & Hb & _) Ho b. rewrite Hb. apply Ho. Qed.

Lemma calm_trans k1 k2 k3 : calm k1 k2 → calm k2 k3 → calm k1 k3.
Proof. intros (? & ? & ? & ? & ?) (? & ? & ? & ? & ?). unfold calm. split_and!; congruence. Qed.

Lemma kNow_calm k : calm k (kNow k).2.
Proof. unfold kNow. by destruct (k_clock k). Qed.

Lemma kError_calm e k : own k → calm k (kError e k).2.
Proof.
  intros Ho. unfold kError. pose proof (kMoment_calm k Ho) as H1. pose proof (kNow_calm (kMoment k)) as H2.
  destruct (kNow (kMoment k)). by eapply calm_trans.
Qed.

(** The connection was closed, then the binding, and nothing was done with either
    since. *)
Definition shutDown (b : option (Binding T)) (t : T) : T :=
  match b with Some b => (BindingClose b (fc_close t)).2 | None => fc_close t end.

(** A call that calls itself closed has ended its context and shut down what it holds. *)
Definition ended (k : FramedCall) : Prop :=
  k_closed k = true → ctx_done (k_ctx k) ≠ None /\ ∃ t, k_conn k = shutDown (k_binding k) t.

Lemma open_ended k : k_closed k = false → ended k.
Proof. intros Hop ?. congruence. Qed.

Lemma ended_open k : ended k → ctx_done (k_ctx k) = None → k_closed k = false.
Proof. intros He Hd. destruct (k_closed k) eqn:E; [|done]. by destruct (He E). Qed.

Lemma kClose_ended k : ended k → ended (kClose k) /\ k_closed (kClose k) = true.
Proof.
  intros He. unfold kClose. destruct (k_closed k) eqn:E; [done|]. split; [|done]. intros _. cbn. split; [by destruct (ctx_done (k_ctx k))|].
  exists (k_conn k). by destruct (k_binding k).
Qed.

Lemma kMoment_ended k : ended k → ended (kMoment k).
Proof.
  intros He. unfold kMoment. destruct (ctx_coming (k_ctx k)) as [|[|e|]]; [done|..].
  - intros Hc. destruct (He Hc) as [? ?]. by split.
  - intros Hc. destruct (He Hc) as [? ?]. split; [|done]. cbn. by destruct (ctx_done (k_ctx k)).
  - destruct (ctx_done (k_ctx k)) eqn:Hd; [apply kClose_ended|]; intros Hc; destruct (He Hc); (split; [cbn; congruence|done]).
Qed.

Lemma kError_ended e k : ended k → ended (kError e k).2.
Proof.
  intros He. unfold kError, kNow. pose proof (kMoment_ended k He) as H1. destruct (k_clock (kMoment k)); [done|]. exact H1.
Qed.

(** A refused call took nothing more, and has closed what it held. *)
Lemma fail_closed canRefuse e k : own k → ended k →
  let k' := (fail canRefuse e k).2 in
  taken (k_conn k') = taken (k_conn k) /\ k_closed k' = true /\ k_binding k' = k_binding k /\ ended k'.
Proof.
  intros Ho He. unfold fail. pose proof (kError_calm (Some e) k Ho) as H1. pose proof (kError_ended (Some e) k He) as E1.
  destruct (kError (Some e) k) as [r k1]. cbn in H1, E1.
  pose proof (calm_own _ _ H1 Ho) as Ho1. pose proof (calm_trans _ _ _ H1 (kMoment_calm k1 Ho1)) as H2.
  pose proof (calm_own _ _ H2 Ho) as Ho2. apply kMoment_ended in E1. set (k2 := kMoment k1) in *.
  match goal with |- context [kClose (kMoment ?x)] => set (k3 := x) end.
  assert (own k3 /\ taken (k_conn k3) = taken (k_conn k) /\ k_binding k3 = k_binding k /\ ended k3) as (Ho3 & H3 & B3 & E3).
  { destruct H2 as (H2 & B2 & _). subst k3. destruct (ctx_done (k_ctx k2)) eqn:Hd; [rewrite andb_false_r; by split_and!|].
    pose proof (ended_open _ E1 Hd) as Hop. destruct (canRefuse && _ && _); [|by split_and!].
    destruct fc_refuseProof as [f|] eqn:Hf; (split_and!; [exact Ho2| |exact B2|by apply open_ended]); cbn.
    - by rewrite (refuse_taken f _ _ Hf).
    - unfold sendProofRefusal. by rewrite writeAll_taken. }
  cbn. destruct (kMoment_calm k3 Ho3) as (H4 & H5 & _). apply kMoment_ended in E3. apply kClose_ended in E3 as [E4 E5].
  split_and!; [|done| |done].
  - rewrite kClose_taken; [congruence|]. intros b. rewrite H5. apply Ho3.
  - unfold kClose. case_goal; cbn; congruence.
Qed.

(** When exactly the header [h] of the request had been read, the connection's
    binding [b] met the policy. *)
Definition checked_at (c : T) (need : Need) (h : list byte) (b : Binding T) : Prop :=
  ∃ s s0 s1, fc_bind s = (Ok b, s0) /\ taken s0 = taken c ++ h /\ BindingCheck b need s0 = (None, s1).

Lemma readHeader_spec k r k' : readHeader k = (r, k') →
  ∃ h, taken (k_conn k') = taken (k_conn k) ++ h /\ (length h <= 4)%nat /\
    k_binding k' = k_binding k /\ k_limit k' = k_limit k /\ k_closed k' = k_closed k /\
    match r with
    | inl _ => True
    | inr n => length h = 4%nat /\
        n = if negb (Z.land (be32_get h) sessionFlag =? 0) && negb (be32_get h =? sessionClosing)
            then Z.land (be32_get h) lengthMask else be32_get h
    end.
Proof.
  unfold readHeader. destruct (ReadFull 4 (k_conn k)) as [[h e] c] eqn:Hr. apply ReadFull_taken in Hr as (Hl & Ht & He).
  destruct e as [e|]; [intros [= <- <-]; exists h; by split_and!|]. specialize (He eq_refl). case_goal.
  - pose proof (writeUint32_taken sessionUnsupported c) as Hw.
    destruct (writeUint32 sessionUnsupported (k_conn (set_conn k c))) as [[e|] c1] eqn:Hx; cbn in Hx;
      rewrite Hx in Hw; cbn in Hw; intros [= <- <-]; exists h; rewrite ?E; cbn; (split_and!; try done; try congruence; lia).
  - intros [= <- <-]. exists h. rewrite E. by split_and!.
Qed.

Lemma bindCaller_spec need k r k' : own k → ended k → k_binding k = None → bindCaller need k = (r, k') →
  taken (k_conn k') = taken (k_conn k) /\ own k' /\ k_limit k' = k_limit k /\ ended k' /\
  (r = None → k_closed k' = false /\ ∃ b s s0 s1, k_binding k' = Some b /\ k_Caller k' = Some (SeenBy (inl b)) /\
     fc_bind s = (Ok b, s0) /\ taken s0 = taken (k_conn k) /\ BindingCheck b need s0 = (None, s1)).
Proof.
  intros Ho He Hnone. unfold bindCaller. destruct (kMoment_calm k Ho) as (Ht & Hb & Hl & _). rewrite Hnone in Hb.
  pose proof (kMoment_ended k He) as He1.
  destruct (k_closed (kMoment k)) eqn:Hc; [intros [= <- <-]; split_and!; [done|by eapply calm_own; [apply kMoment_calm|]|done|done|done]|].
  pose proof (bind_taken (k_conn (kMoment k))) as Hbt.
  destruct (fc_bind (k_conn (kMoment k))) as [[b|e] c] eqn:Hbind; cbn in Hbt.
  - assert (issued b) as Hi by (left; eauto). cbn. pose proof (recheck_taken _ Hi c) as Hrt. unfold BindingCheck, BindingPeer in *.
    assert (∀ k1, k_binding k1 = Some b → own k1) as Hown by (intros k1 Hk1 b' Hb'; rewrite Hk1 in Hb'; by injection Hb' as <-).
    destruct (recheck (binner b) c) as [[e|] c1] eqn:Hrc; cbn in Hrt.
    { intros [= <- <-]. cbn. split_and!; [congruence|by apply Hown|done|by apply open_ended|done]. }
    destruct (CheckPeer (bpeer b) need) as [e|] eqn:Hcp; intros [= <- <-]; cbn.
    { split_and!; [congruence|by apply Hown|done|by apply open_ended|done]. }
    split_and!; [congruence|by apply Hown|done|by apply open_ended|]. intros _. split; [done|]. exists b, (k_conn (kMoment k)), c, c1.
    rewrite Hrc, Hcp. split_and!; [done|done|done|congruence|done].
  - intros [= <- <-]. cbn. split_and!; [congruence| |done|by apply open_ended|done]. intros b Hb'. cbn in Hb'. congruence.
Qed.

Lemma readBody_spec n k r k' : 0 <= n → own k → k_closed k = false → readBody n k = (r, k') →
  own k' /\ k_binding k' = k_binding k /\ ended k' /\
  (r = None → k_closed k' = false /\ k_Caller k' = k_Caller k /\
     taken (k_conn k') = taken (k_conn k) ++ k_Frame k' /\ blen (k_Frame k') = n /\ n <= k_limit k).
Proof.
  intros Hn Ho Hop. unfold readBody, readFrameBody. case_goal; [intros [= <- <-]; split_and!; [done|done|by apply open_ended|done]|]. to_prop.
  destruct (ReadFull (Z.to_nat n) (k_conn k)) as [[bs e] c] eqn:Hr. apply ReadFull_taken in Hr as (_ & Ht & He).
  destruct e as [e|]; [intros [= <- <-]; split_and!; [done|done|by apply open_ended|done]|]. specialize (He eq_refl).
  set (k1 := set_conn k c). set (v := match fc_requestValid with Some valid => _ | None => _ end).
  assert (own v.2 /\ taken (k_conn v.2) = taken c /\ k_binding v.2 = k_binding k /\ k_closed v.2 = false /\ k_Caller v.2 = k_Caller k)
    as (Ho2 & Ht2 & Hb2 & Hc2 & Hs2).
  { subst v. destruct fc_requestValid as [f|] eqn:Hf; [|done]. pose proof (valid_taken f (k_conn k1) Hf) as Hv.
    destruct (f (k_conn k1)) as [x c2]. cbn in *. by split_and!. }
  destruct v as [[x|] k2]; cbn in *; [intros [= <- <-]; split_and!; [done|done|by apply open_ended|done]|].
  destruct (kMoment_calm k2 Ho2) as (Ht3 & Hb3 & _ & _ & Hs3). pose proof (kMoment_ended k2 (open_ended _ Hc2)) as He3.
  destruct (ctx_done (k_ctx (kMoment k2))) eqn:Hd; intros [= <- <-].
  - split_and!; [eapply calm_own; [by apply kMoment_calm|done]|congruence|done|done].
  - pose proof (ended_open _ He3 Hd) as Hc3. cbn. split_and!; [|congruence|by apply open_ended|].
    + intros b Hb. cbn in Hb. rewrite Hb3 in Hb. by apply Ho2.
    + intros _. unfold blen. split_and!; [done|congruence|congruence|lia|lia].
Qed.

(** What a call of a stream rests on: the policy was met when the header had been read,
    and the frame is what the header announced. *)
Definition from_stream (c : T) (need : Need) (b : Binding T) (k : FramedCall) : Prop :=
  ∃ h, length h = 4%nat /\ checked_at c need h b /\ taken (k_conn k) = taken c ++ h ++ k_Frame k /\
    (blen (k_Frame k) = be32_get h \/ blen (k_Frame k) = Z.land (be32_get h) lengthMask).

(** What a call of a message rests on: the policy was met on the binding of that very
    message, whose frame it is, and which had not ended; nothing was read from the
    connection. *)
Definition from_message (receive : context → Z → T → receivedMessage T * option err * T) (c : T) (need : Need) (limit : Z)
    (b : Binding T) (k : FramedCall) : Prop :=
  ∃ x s m s0 s1 done, taken s = taken c /\ receive x limit s = (m, None, s0) /\ m_binding m = Some b /\ BindingCheck b need s0 = (None, s1) /\
    k_Frame k = m_frame m /\ m_done m = Some done /\ done (k_conn k) = false /\ taken (k_conn k) = taken c.

(** What the result of receiving says of the connection [c] it was received on. *)
Definition received (c : T) (need : Need) (limit : Z) (r : result FramedCall) (k : FramedCall) : Prop :=
  match r with
  | Ok k' => k' = k /\ k_closed k = false /\ blen (k_Frame k) <= limit /\
      ∃ b, k_binding k = Some b /\ k_Caller k = Some (SeenBy (inl b)) /\
        match fc_receiveMessage with
        | Some receive => from_message receive c need limit b k
        | None => from_stream c need b k
        end
  | Err _ => k_closed k = true /\ ctx_done (k_ctx k) ≠ None /\
      match fc_receiveMessage with
      | Some receive => taken (k_conn k) = taken c /\
          ((∃ t, k_conn k = shutDown None t) \/
           ∃ x s m e s0 t, receive x limit s = (m, e, s0) /\ k_conn k = shutDown (m_binding m) t)
      | None => (∃ t, k_conn k = shutDown (k_binding k) t) /\
          ∃ h, (length h <= 4)%nat /\ (taken (k_conn k) = taken c ++ h \/ ∃ b, checked_at c need h b)
      end
  end.

(** A stream that is refused. *)
Lemma refuse_stream c need limit canRefuse e k h : fc_receiveMessage = None → own k → ended k → (length h <= 4)%nat →
  (taken (k_conn k) = taken c ++ h \/ ∃ b, checked_at c need h b) →
  let '(r, k') := refuse canRefuse e k in received c need limit r k'.
Proof.
  intros Hm Ho He Hl Hh. pose proof (fail_closed canRefuse e k Ho He) as Hf. unfold refuse. destruct (fail canRefuse e k) as [e' k'].
  cbn in Hf. destruct Hf as (Ht & Hc & Hb & He'). destruct (He' Hc) as [Hd Hs]. cbn. rewrite Hm.
  split_and!; [done|done|done|]. exists h. by rewrite Ht.
Qed.

Lemma receiveFromStream_spec c need deadline k : fc_receiveMessage = None →
  own k → k_binding k = None → k_closed k = false → taken (k_conn k) = taken c →
  let '(r, k') := receiveFromStream need deadline k in received c need (k_limit k) r k'.
Proof.
  intros Hm Ho Hb Hop Ht. set (limit := k_limit k). unfold receiveFromStream.
  destruct fc_setDeadline as [f|] eqn:Hf.
  2: { apply (refuse_stream c need limit _ _ k []); [done|done|by apply open_ended|cbn; lia|left; by rewrite app_nil_r]. }
  pose proof (deadline_taken f deadline (k_conn k) Hf) as Hd. destruct (f deadline (k_conn k)) as [[e|] c0]; cbn in Hd.
  { apply (refuse_stream c need limit _ _ (set_conn k c0) []);
      [done|exact Ho|by apply open_ended|cbn; lia|left; cbn; rewrite app_nil_r; congruence]. }
  destruct (readHeader (set_conn k c0)) as [[[cr e]|n] k1] eqn:Hh;
    apply readHeader_spec in Hh as (h & Ht1 & Hh4 & Hb1 & Hl1 & Hc1 & Hn); cbn in Ht1, Hb1, Hl1, Hc1; rewrite Hd, Ht in Ht1; rewrite Hop in Hc1;
    assert (own k1) as Ho1 by (intros b; rewrite Hb1; apply Ho).
  { apply (refuse_stream c need limit cr e k1 h); auto using open_ended. }
  destruct Hn as [Hh4' Hn]. assert (0 <= n) as Hn0.
  { pose proof (be32_get_range h). subst n. case_goal; [rewrite land_lengthMask; apply Z.mod_pos_bound; lia|lia]. }
  case_goal; [apply (refuse_stream c need limit _ _ k1 h); auto using open_ended|].
  destruct (bindCaller need k1) as [[e|] k2] eqn:Hbc;
    apply bindCaller_spec in Hbc as (Ht2 & Ho2 & Hl2 & He2 & Hb2); auto using open_ended; try congruence; rewrite Ht1 in Ht2.
  { apply (refuse_stream c need limit _ _ k2 h); auto. }
  destruct (Hb2 eq_refl) as (Hc2 & b & s & s0 & s1 & Hkb & Hkc & Hbind & Hts & Hchk). rewrite Ht1 in Hts.
  assert (checked_at c need h b) as Hca by by exists s, s0, s1.
  destruct (readBody n k2) as [[e|] k3] eqn:Hrb; apply readBody_spec in Hrb as (Ho3 & Hb3 & He3 & Hr3); try done.
  { apply (refuse_stream c need limit _ _ k3 h); eauto. }
  destruct (Hr3 eq_refl) as (Hc3 & Hs3 & Ht3 & Hlen & Hle). cbn. rewrite Hm. split_and!; [done|done|subst limit; lia|].
  exists b. split_and!; [congruence|exact (eq_trans Hs3 Hkc)|]. exists h. split_and!; [done|done|by rewrite Ht3, Ht2, <- app_assoc|].
  rewrite Hlen, Hn. case_goal; [by right|by left].
Qed.

(** A message that is refused, and its binding with it. *)
Lemma refuse_message c need limit receive x s m e0 s0 e k : fc_receiveMessage = Some receive →
  receive x limit s = (m, e0, s0) → own k → ended k → k_binding k = None → taken (k_conn k) = taken c →
  let '(r, k') := discard m (refuse true e k) in received c need limit r k'.
Proof.
  intros Hm Hr Ho He Hb Ht. pose proof (fail_closed true e k Ho He) as Hf. unfold refuse, discard. destruct (fail true e k) as [e' k'].
  cbn in Hf. destruct Hf as (Ht' & Hc & Hb' & He'). destruct (He' Hc) as [Hd [t Hs]]. rewrite Hb', Hb in Hs.
  destruct (m_binding m) as [b|] eqn:Hmb; cbn; rewrite Hm.
  - assert (issued b) as Hi by (right; eauto 10). split_and!; [done|done| |].
    + unfold BindingClose. by rewrite (release_taken b Hi), Ht'.
    + right. exists x, s, m, e0, s0, t. split; [done|]. rewrite Hmb. cbn. by rewrite Hs.
  - split_and!; [done|done|by rewrite Ht'|]. right. exists x, s, m, e0, s0, t. split; [done|]. by rewrite Hmb.
Qed.

Lemma receiveFromMessage_spec c need receive k : fc_receiveMessage = Some receive →
  own k → k_binding k = None → k_closed k = false → taken (k_conn k) = taken c →
  let '(r, k') := receiveFromMessage receive need k in received c need (k_limit k) r k'.
Proof.
  intros Hm Ho Hb Hop Ht. set (limit := k_limit k). unfold receiveFromMessage.
  pose proof (message_taken receive (k_ctx k) (k_limit k) (k_conn k) Hm) as Htm.
  destruct (receive (k_ctx k) (k_limit k) (k_conn k)) as [[m e] c0] eqn:Hr. cbn in Htm. rewrite Ht in Htm.
  assert (∀ e' k', k_conn k' = c0 \/ taken (k_conn k') = taken c → k_binding k' = None → ended k' →
    let '(r, k2) := discard m (refuse true e' k') in received c need limit r k2) as Hno.
  { intros e' k' Hk' Hb' He'. apply (refuse_message c need limit receive (k_ctx k) (k_conn k) m e c0); try done.
    - intros b Hbb. congruence.
    - destruct Hk' as [->|?]; done. }
  destruct e as [e|]; [apply Hno; [by left|done|by apply open_ended]|].
  destruct (k_limit (set_conn k c0) <? blen (m_frame m)) eqn:El; [apply Hno; [by left|done|by apply open_ended]|]. to_prop. cbn in El.
  destruct (m_binding m) as [b|] eqn:Hmb.
  2: { specialize (Hno (Sentinel ErrNoBinding) (set_conn k c0)). unfold discard in Hno. rewrite Hmb in Hno.
       apply Hno; [by left|done|by apply open_ended]. }
  assert (issued b) as Hi by (right; eauto 10).
  destruct (m_reply m) as [reply|]; [destruct (m_done m) as [done_|] eqn:Hdn|]; try (apply Hno; [by left|done|by apply open_ended]).
  assert (taken (BindingCheck b need c0).2 = taken c0) as Hct.
  { unfold BindingCheck, BindingPeer. pose proof (recheck_taken b Hi c0) as Hrt. by destruct (recheck (binner b) c0) as [[]]. }
  cbn [k_conn set_conn]. destruct (BindingCheck b need c0) as [[e|] c1] eqn:Hchk; cbn in Hct.
  { apply Hno; [right; cbn; congruence|done|by apply open_ended]. }
  unfold keepMessage. set (k1 := set_conn (set_conn k c0) c1). assert (own k1) as Ho1 by exact Ho.
  destruct (kMoment_calm k1 Ho1) as (Ht1 & Hb1 & Hl1 & _). pose proof (kMoment_ended k1 (open_ended k1 Hop)) as He1.
  assert (taken (k_conn (kMoment k1)) = taken c) as Ht2 by (rewrite Ht1; cbn; congruence).
  destruct (k_closed (kMoment k1)) eqn:Hc1; [apply Hno; [by right|by rewrite Hb1|done]|].
  set (k2 := set_frame _ _). assert (own k2) as Ho2 by (intros b' [= <-]; done).
  destruct (done_ (k_conn k2)) eqn:Hdd.
  - pose proof (fail_closed true (Sentinel IoErrClosedPipe) k2 Ho2 (open_ended k2 Hc1)) as Hf. unfold refuse. destruct (fail true _ k2) as [e' k'].
    cbn in Hf. destruct Hf as (Ht' & Hc & Hb' & He'). destruct (He' Hc) as [Hd [t Hs]]. cbn. rewrite Hm.
    split_and!; [done|done|congruence|]. right. exists (k_ctx k), (k_conn k), m, None, c0, t. split; [done|]. rewrite Hmb. by rewrite Hs, Hb'.
  - cbn. rewrite Hm. split_and!; [done|done|subst limit; lia|]. exists b. split_and!; [done|done|].
    exists (k_ctx k), (k_conn k), m, c0, c1, done_. by split_and!.
Qed.


End Framed.

(** * A session's exchange as a connection of the receiving service: [sessionCall]
    (listen/session.go) implements the interfaces [ReceiveFramed] asks for,
    [refuseProof] and [requestValid] among them. *)


Section SessionFramed.
Context {B : Type} (clock : nat → Time) (opts : SessionOptions).

(** The exchange, the store of the session's binding, and the bytes its reads have
    given. *)
Record exchange := mkExchange { x_call : callState (B:=B); x_store : B; x_read : list byte }.

Definition x_set_call (x : exchange) (cs : callState) : exchange := mkExchange cs (x_store x) (x_read x).
Definition x_set_store (x : exchange) (b : B) : exchange := mkExchange (x_call x) b (x_read x).

Definition exchangeRead (n : nat) (x : exchange) : list byte * option err * exchange :=
  let '(bs, e, cs) := callRead clock n (x_call x) in (bs, e, mkExchange cs (x_store x) (x_read x ++ bs)).

Definition exchangeBinder (b : binder B) : binder exchange :=
  mkBinder
    (λ x, let '(e, s) := recheck b (x_store x) in (e, x_set_store x s))
    (λ x, let '(r, s) := alive b (x_store x) in (r, x_set_store x s))
    (λ x, let '(e, s) := release b (x_store x) in (e, x_set_store x s)).

Definition exchangeBind (x : exchange) : result (Binding exchange) * exchange :=
  match callBind clock (x_call x) with
  | (Ok b, cs) => (Ok (mkBinding (bpeer b) (boundAt b) (exchangeBinder (binner b))), x_set_call x cs)
  | (Err e, cs) => (Err e, x_set_call x cs)
  end.

(** [sessionCall.Close] with no read in flight. *)
Definition exchangeClose (x : exchange) : exchange :=
  x_set_call x (closeEnd clock (closeBegin clock (x_call x))).

#[global] Instance exchange_Framed : FramedConn exchange := {|
  fc_Reader := {| read := exchangeRead;
                  incoming x := @incoming conn conn_Reader (pc (x_call x).2);
                  reads_left x := (4 + @reads_left conn conn_Reader (pc (x_call x).2))%nat |};
  fc_Writer := λ p x, let '(n, e, cs) := callWrite clock p (x_call x) in (n, e, x_set_call x cs);
  fc_bind := exchangeBind;
  fc_setDeadline := Some (λ t x, let '(e, cs) := callSetDeadline t (x_call x) in (e, x_set_call x cs));
  fc_refuseProof := Some (λ e x, let '(r, cs) := refuseProof e (x_call x) in (r, x_set_call x cs));
  fc_requestValid := Some (λ x, let '(e, cs) := requestValid clock (x_call x) in (e, x_set_call x cs));
  fc_receiveMessage := None;
  fc_close := exchangeClose;
  taken := x_read
|}.

(** A read gives no more than it was asked for. *)
Lemma callRead_at_most n (cs cs' : callState (B:=B)) bs e : callRead clock n cs = (bs, e, cs') → (length bs <= n)%nat.
Proof.
  unfold callRead. destruct (readBegin clock n cs) as [[b x|size rr] [c s]] eqn:Hb.
  - intros [= <- <- <-]. unfold readBegin in Hb. destruct cs as [c0 s0].
    repeat case_hyp Hb; simplify_eq; cbn; rewrite ?length_take; lia.
  - assert (size <= n)%nat as Hsz by (unfold readBegin in Hb; destruct cs; repeat case_hyp Hb; simplify_eq; lia).
    unfold readConn. destruct (connRead size (pc s)) as [[b x] p] eqn:Hc.
    assert (length b <= size)%nat as Hb'.
    { unfold connRead in Hc. repeat case_hyp Hc; simplify_eq; to_prop; rewrite ?length_take; cbn; lia. }
    unfold readEnd. intros Hr. repeat case_hyp Hr; simplify_eq; cbn in *; lia.
Qed.

#[global] Instance exchange_FramedOk : FramedConnOk exchange.
Proof.
  constructor; cbn.
  - intros n x bs e x' Hr. unfold exchangeRead in Hr. destruct (callRead clock n (x_call x)) as [[b y] cs] eqn:Hc.
    simplify_eq. split; [by eapply callRead_at_most|done].
  - intros p x. by destruct (callWrite clock p (x_call x)) as [[]].
  - intros x. unfold exchangeBind. by destruct (callBind clock (x_call x)) as [[]].
  - intros b [(x & x' & Hb)|(? & ? & ? & ? & ? & ? & ? & [=] & _)] t. cbn in Hb. unfold exchangeBind in Hb. destruct (callBind clock (x_call x)) as [[b'|] cs]; simplify_eq. cbn.
    by destruct (recheck (binner b') (x_store t)).
  - intros b [(x & x' & Hb)|(? & ? & ? & ? & ? & ? & ? & [=] & _)] t. cbn in Hb. unfold exchangeBind in Hb. destruct (callBind clock (x_call x)) as [[b'|] cs]; simplify_eq. cbn.
    by destruct (release (binner b') (x_store t)).
  - intros f t x [= <-]. by destruct (callSetDeadline t (x_call x)).
  - intros f e x [= <-]. by destruct (refuseProof e (x_call x)).
  - intros f x [= <-]. by destruct (requestValid clock (x_call x)).
  - done.
  - done.
Qed.
End SessionFramed.

(** ** Watching for the caller's departure *)

(** [WaitContext], its goroutine and [finishWatching], in any interleaving. A step is what
    is done under [watchOnce], on the atomic flag, on the connection or on the channel. *)
Module Watch.
Inductive watcher :=
| NoWatcher
| Reads
| HasRead (e : option err)
| Ended (e : option err).

Inductive finishStage :=
| NotFinishing
| Stops
| Awaits
| AwaitsClosed (e : err)
| Restores (e : option err)
| Finished (e : option err).

Record watch := mkWatch { w_once : bool; w_watcher : watcher; w_stopping : bool; w_interrupted : bool; w_cancelled : bool; w_finish : finishStage }.

Definition unwatched : watch := mkWatch false NoWatcher false false false NotFinishing.

(** The end of [finishWatching], by what the watcher read; [ctxErr] is [k.ctx.Err]. *)
Definition finishAnswer (watchErr ctxErr : option err) : option err :=
  match watchErr with
  | None => Some (Sentinel IoErrClosedPipe)
  | Some e => if is_timeout e then ctxErr else Some e
  end.

Definition timed_out (e : option err) : bool := match e with Some e => is_timeout e | None => false end.

Inductive watch_step : watch → watch → Prop :=
| wait_context w : w_once w = false → watch_step w (mkWatch true Reads (w_stopping w) (w_interrupted w) (w_cancelled w) (w_finish w))
| wait_again w : w_once w = true → watch_step w w
| read_ends w e : w_watcher w = Reads → watch_step w (mkWatch (w_once w) (HasRead e) (w_stopping w) (w_interrupted w) (w_cancelled w) (w_finish w))
| watcher_ends w e : w_watcher w = HasRead e →
    watch_step w (mkWatch (w_once w) (Ended e) (w_stopping w) (w_interrupted w) (w_cancelled w || negb (w_stopping w) || negb (timed_out e)) (w_finish w))
| finish_none w : w_finish w = NotFinishing → w_watcher w = NoWatcher →
    watch_step w (mkWatch true NoWatcher (w_stopping w) (w_interrupted w) (w_cancelled w) (Finished None))
| finish_begins w : w_finish w = NotFinishing → w_watcher w ≠ NoWatcher →
    watch_step w (mkWatch true (w_watcher w) true (w_interrupted w) (w_cancelled w) Stops)
| deadline_set w : w_finish w = Stops → watch_step w (mkWatch (w_once w) (w_watcher w) (w_stopping w) true (w_cancelled w) Awaits)
| deadline_fails w e : w_finish w = Stops → watch_step w (mkWatch (w_once w) (w_watcher w) (w_stopping w) true (w_cancelled w) (AwaitsClosed e))
| awaited w e : w_finish w = Awaits → w_watcher w = Ended e →
    watch_step w (mkWatch (w_once w) (w_watcher w) (w_stopping w) (w_interrupted w) (w_cancelled w) (Restores e))
| awaited_closed w e e' : w_finish w = AwaitsClosed e → w_watcher w = Ended e' →
    watch_step w (mkWatch (w_once w) (w_watcher w) (w_stopping w) (w_interrupted w) (w_cancelled w) (Finished (Some e)))
| restored w e ctxErr : w_finish w = Restores e →
    watch_step w (mkWatch (w_once w) (w_watcher w) (w_stopping w) (w_interrupted w) (w_cancelled w) (Finished (finishAnswer e ctxErr)))
| restore_fails w e e' : w_finish w = Restores e →
    watch_step w (mkWatch (w_once w) (w_watcher w) (w_stopping w) (w_interrupted w) (w_cancelled w) (Finished (Some e'))).

Definition watch_reachable : watch → Prop := rtc watch_step unwatched.

(** What holds of the watcher by the stage of [finishWatching]. *)
Definition finish_ok (w : watch) : Prop :=
  match w_finish w with
  | NotFinishing => True
  | Stops => w_watcher w ≠ NoWatcher
  | Awaits | AwaitsClosed _ => w_watcher w ≠ NoWatcher /\ w_interrupted w = true
  | Restores e => w_watcher w = Ended e
  | Finished None => w_watcher w = NoWatcher \/ ∃ e, w_watcher w = Ended (Some e) /\ is_timeout e = true
  | Finished (Some _) => ∃ e, w_watcher w = Ended e
  end.

Definition watch_ok (w : watch) : Prop :=
  (w_once w = false → w_watcher w = NoWatcher /\ w_finish w = NotFinishing) /\
  (∀ e, w_watcher w = Ended e → timed_out e = true \/ w_cancelled w = true) /\ finish_ok w.

Lemma watch_step_ok w w' : watch_step w w' → watch_ok w → watch_ok w'.
Proof.
  intros Hs (H1 & H2 & H3). unfold watch_ok, finish_ok in *.
  destruct Hs as [w Ho|w Ho|w e Hw|w e Hw|w Hf Hw|w Hf Hw|w Hf|w e Hf|w e Hf Hw|w e e' Hf Hw|w e ctxErr Hf|w e e' Hf];
    destruct w as [once wt stop intr canc fin]; cbn in *; subst; cbn in *.
  - destruct (H1 eq_refl) as [-> ->]. by split_and!.
  - done.
  - split_and!; [by intros [? _]%H1|done|]. destruct fin as [| | | |x|[x|]]; try done; [by destruct H3..|]. destruct H3 as [?|(? & ? & _)]; done.
  - split_and!; [by intros [? _]%H1| |].
    + intros x [= <-]. destruct (timed_out e); [by left|right]. by rewrite orb_true_r.
    + destruct fin as [| | | |x|[x|]]; try done; [by destruct H3..|]. destruct H3 as [?|(? & ? & _)]; done.
  - split_and!; [done|done|]. by left.
  - by split_and!.
  - split_and!; [by intros [_ ?]%H1|done|done|done].
  - split_and!; [by intros [_ ?]%H1|done|done|done].
  - split_and!; [by intros [_ ?]%H1|done|done].
  - split_and!; [by intros [_ ?]%H1|done|]. by exists e'.
  - split_and!; [by intros [_ ?]%H1|done|]. destruct e as [e|]; cbn; [|by exists None]. destruct (is_timeout e) eqn:Et; [|by exists (Some e)].
    destruct ctxErr; [by exists (Some e)|]. right. by exists e.
  - split_and!; [by intros [_ ?]%H1|done|]. by exists e.
Qed.

Lemma watch_reachable_ok w : watch_reachable w → watch_ok w.
Proof. revert w. apply rtc_ind_r; [by split_and!|]. intros x y _ Hs. by apply watch_step_ok. Qed.

(** C39: a reply and the watch for the caller's departure share one reader, in any interleaving of [WaitContext], its
    goroutine and [finishWatching]. Once [finishWatching] has an answer no read is under way, and it lets the reply
    begin only if nothing was watched or the watch saw nothing but a timeout; what else the watch saw, a departure or
    trailing bytes, is the answer and ended the context of [WaitContext]. While [finishWatching] waits the read was
    interrupted, and the watcher has a step that ends it. *)
Theorem watch_and_reply_share_one_reader w : watch_reachable w →
  (∀ r, w_finish w = Finished r →
     (w_watcher w = NoWatcher \/ ∃ e, w_watcher w = Ended e) /\
     (r = None → w_watcher w = NoWatcher \/ ∃ e, w_watcher w = Ended (Some e) /\ is_timeout e = true)) /\
  (∀ e, w_watcher w = Ended e → timed_out e = false → w_cancelled w = true) /\
  (w_finish w = Awaits → w_interrupted w = true /\ ∃ w', watch_step w w' /\
     (w_watcher w = Reads /\ (∃ e, w_watcher w' = HasRead e) \/ (∃ e, w_watcher w = HasRead e /\ w_watcher w' = Ended e) \/ ∃ e, w_finish w' = Restores e)).
Proof.
  intros (H1 & H2 & H3)%watch_reachable_ok. unfold finish_ok in H3. split_and!.
  - intros r Hr. rewrite Hr in H3. destruct r as [e|]; [split; [by right|done]|]. split; [|done]. destruct H3 as [?|(e & ? & _)]; eauto.
  - intros e He Ht. destruct (H2 e He); congruence.
  - intros Hf. rewrite Hf in H3. destruct H3 as [Hw Hi]. split; [done|]. destruct (w_watcher w) as [| |e|e] eqn:Ew; [done|..].
    + eexists. split; [by apply (read_ends w None)|]. left. cbn. eauto.
    + eexists. split; [by apply watcher_ends|]. right. left. cbn. eauto.
    + eexists. split; [by apply awaited|]. right. right. cbn. eauto.
Qed.

(** A watch that saw nothing, stopped for a reply. *)
Definition stopped_watch : watch :=
  mkWatch true (Ended (Some (Sentinel OsErrDeadlineExceeded))) true true false (Finished None).

Lemma stopped_watch_reachable : watch_reachable stopped_watch.
Proof.
  eapply rtc_l; [by apply wait_context|]. eapply rtc_l; [by apply finish_begins|]. eapply rtc_l; [by apply deadline_set|].
  eapply rtc_l; [by apply (read_ends _ (Some (Sentinel OsErrDeadlineExceeded)))|]. eapply rtc_l; [by apply watcher_ends|].
  eapply rtc_l; [by apply awaited|]. eapply rtc_l; [by eapply (restored _ _ None)|]. apply rtc_refl.
Qed.

Lemma watch_and_reply_share_one_reader_witness :
  w_watcher stopped_watch = NoWatcher \/ ∃ e, w_watcher stopped_watch = Ended (Some e) /\ is_timeout e = true.
Proof. apply (watch_and_reply_share_one_reader stopped_watch stopped_watch_reachable) with (r := None); reflexivity. Defined.
End Watch.
