(* ===== verification/ListenUnix.v ===== *)
(** listen/listen_unix.go: the connection a Unix listener accepts, and the
    listener itself, whose endpoint belongs to the holder of the lock beside it; and
    whether a pooled connection is intact, of listen/framed_unix.go.

    The second part is a state machine: any number of processes run [Listen] and
    [Close] on one path, one system call at a time and in any order, and may die at
    any point. *)

From S2P Require Import Prelude GoStrings GoError ProofLadder Peer Binding LinuxOS ProcfsLinux IdentityLinux BindLinux GoIO Frame GoFilepath PathIdentity Program ServerConn Framed.

(** ** Accepted connections *)

Section UnixConn.
Context {S : Type}.

(** [unixConn]: the connection, its binding or the error of binding it, and the
    store of that binding. *)
Record unixConn := mkUnixConn { u_net : conn; u_store : S; u_binding : result (Binding S) }.

Definition u_set_net (u : unixConn) (n : conn) : unixConn := mkUnixConn n (u_store u) (u_binding u).
Definition u_set_store (u : unixConn) (s : S) : unixConn := mkUnixConn (u_net u) s (u_binding u).

(** A binding's platform handle, reached through its connection. *)
Definition liftBinder (b : binder S) : binder unixConn :=
  mkBinder
    (λ u, let '(e, s) := recheck b (u_store u) in (e, u_set_store u s))
    (λ u, let '(r, s) := alive b (u_store u) in (r, u_set_store u s))
    (λ u, let '(e, s) := release b (u_store u) in (e, u_set_store u s)).

Definition liftBinding (b : Binding S) : Binding unixConn := mkBinding (bpeer b) (boundAt b) (liftBinder (binner b)).

(** [unixConn.Bind]. *)
Definition unixBind (u : unixConn) : result (Binding unixConn) * unixConn :=
  match u_binding u with
  | Ok b => (Ok (liftBinding b), u)
  | Err e => (Err e, u)
  end.

(** [unixConn.Close]. *)
Definition unixClose (u : unixConn) : unixConn :=
  let s := match u_binding u with Ok b => (BindingClose b (u_store u)).2 | Err _ => u_store u end in
  mkUnixConn (connClose (u_net u)) s (u_binding u).

#[global] Instance unixConn_Framed : FramedConn unixConn := {|
  fc_Reader := {| read n u := let '(bs, e, c) := connRead n (u_net u) in (bs, e, u_set_net u c);
                  incoming u := @incoming conn conn_Reader (u_net u);
                  reads_left u := @reads_left conn conn_Reader (u_net u) |};
  fc_Writer := λ p u, let '(n, e, c) := connWrite p (u_net u) in (n, e, u_set_net u c);
  fc_bind := unixBind;
  fc_setDeadline := Some (λ t u, let '(e, c) := connSetDeadline t (u_net u) in (e, u_set_net u c));
  fc_refuseProof := None;
  fc_requestValid := None;
  fc_receiveMessage := None;
  fc_close := unixClose;
  taken u := got (u_net u)
|}.

#[global] Instance unixConn_FramedOk : FramedConnOk unixConn.
Proof.
  constructor; cbn.
  - intros n u bs e u' Hr. destruct (connRead n (u_net u)) as [[b x] c] eqn:Hc. simplify_eq. cbn.
    pose proof (connRead_got _ _ _ _ _ Hc) as (-> & _). split; [|done].
    unfold connRead in Hc. repeat case_hyp Hc; simplify_eq; to_prop; rewrite ?length_take; cbn; lia.
  - intros p u. destruct (connWrite p (u_net u)) as [[n e] c] eqn:Hw. cbn. unfold connWrite in Hw.
    repeat case_hyp Hw; by simplify_eq.
  - intros u. unfold unixBind. by destruct (u_binding u).
  - intros b [(u & u' & Hb)|(? & ? & ? & ? & ? & ? & ? & [=] & _)] t. cbn in Hb. unfold unixBind in Hb. destruct (u_binding u) as [b'|]; simplify_eq. cbn.
    by destruct (recheck (binner b') (u_store t)).
  - intros b [(u & u' & Hb)|(? & ? & ? & ? & ? & ? & ? & [=] & _)] t. cbn in Hb. unfold unixBind in Hb. destruct (u_binding u) as [b'|]; simplify_eq. cbn.
    by destruct (release (binner b') (u_store t)).
  - intros f t u [= <-]. unfold connSetDeadline. by destruct (conn_closed (u_net u)).
  - done.
  - done.
  - done.
  - done.
Qed.
End UnixConn.

(** [unixListener.Accept] of a connection the socket gave, at [now]. *)
Definition unixAccept {W S} (bindHandle : Z → option Options → W → (binder S * Peer * S) + (err * W))
    (timeNow : S → Time * S) (dead : S) (now : Time) (c : conn) (h : netConn) (w : W)
    : unixConn (S:=bindingState S) :=
  match BindConn bindHandle timeNow h (Some (mkOptions now false false "")) w with
  | inl (b, s) => mkUnixConn c s (Ok b)
  | inr (e, _) => mkUnixConn c (mkState dead true None) (Err e)
  end.

(** [Endpoint], with the environment it reads. *)
Definition Endpoint (getenv : string → string) (tempDir : string) (service : string) : string :=
  if IsAbs service then service
  else
    let d := getenv "XDG_RUNTIME_DIR" in
    if negb (String.eqb d "") then d +:+ "/openabstractions-" +:+ service +:+ ".sock"
    else tempDir +:+ "/openabstractions-" +:+ service +:+ "-" +:+ getenv "USER" +:+ ".sock".

(** ** Listeners *)

(** What is at the path: a socket, with the process that bound it, or another
    file. *)
Inductive entry := Sock (owner : nat) | OtherFile.

(** Where a process stands in [Listen] and [Close]: before the lock file is
    opened, before [Flock], in [clearStale] before [Lstat] and before [Remove],
    before [net.Listen], before [Chmod], after a [Chmod] that failed and closed the
    socket, listening, and closing with the socket gone but the lock held. *)
Inductive pc :=
| Idle | Opened | Locked | Stale | Cleared | Bound | BoundFailed | Listening | Closing | Failed (e : err) | Ended.

(** The processes that never hold the lock, at this point. *)
Definition holds_lock (p : pc) : bool :=
  match p with
  | Locked | Stale | Cleared | Bound | BoundFailed | Listening | Closing => true
  | _ => false
  end.

Record listeners := mkListeners { lock : option nat; path : option entry; procs : gmap nat pc }.

Definition taken_err (msg : string) : err := Wrap msg [Sentinel ErrTaken].

(** One system call of process [i] in [Listen] or [Close]; [ok] says whether a
    call that may fail for its own reasons succeeds. *)
Definition listenStep (i : nat) (ok : bool) (s : listeners) : listeners :=
  let to p := mkListeners (lock s) (path s) (<[i:=p]> (procs s)) in
  let drop p := mkListeners None (path s) (<[i:=p]> (procs s)) in
  match procs s !! i with
  | Some Idle => if ok then to Opened else to (Failed (Plain "mkdir or open"))
  | Some Opened =>
      match lock s with
      | Some _ => to (Failed (taken_err "another listener holds the path"))
      | None => if ok then mkListeners (Some i) (path s) (<[i:=Locked]> (procs s)) else to (Failed (Plain "flock"))
      end
  | Some Locked =>
      match path s with
      | None => to Cleared
      | Some OtherFile => drop (Failed (taken_err "the path is not a socket"))
      | Some (Sock _) => if ok then to Stale else drop (Failed (Plain "lstat"))
      end
  | Some Stale =>
      if ok then mkListeners (lock s) None (<[i:=Cleared]> (procs s)) else drop (Failed (Plain "remove"))
  | Some Cleared =>
      match path s with
      | Some _ => drop (Failed (Plain "address already in use"))
      | None => if ok then mkListeners (lock s) (Some (Sock i)) (<[i:=Bound]> (procs s)) else drop (Failed (Plain "listen"))
      end
  | Some Bound =>
      if ok then to Listening
      else mkListeners (lock s) None (<[i:=BoundFailed]> (procs s))
  | Some BoundFailed => drop (Failed (Plain "bound but not shut to other accounts"))
  | Some Listening => mkListeners (lock s) None (<[i:=Closing]> (procs s))
  | Some Closing => drop Ended
  | _ => s
  end.

(** The steps of everything that happens around one path: a process starts
    [Listen], makes its next call, or dies, which lets go of its lock and leaves
    its socket behind; another program puts a file where there is none. *)
Inductive lstep : listeners → listeners → Prop :=
| lstart s i : procs s !! i = None → lstep s (mkListeners (lock s) (path s) (<[i:=Idle]> (procs s)))
| lcall s i ok : lstep s (listenStep i ok s)
| ldie s i : lstep s (mkListeners (if decide (lock s = Some i) then None else lock s) (path s) (<[i:=Ended]> (procs s)))
| lfile s : path s = None → lstep s (mkListeners (lock s) (Some OtherFile) (procs s)).

Definition lempty : listeners := mkListeners None None ∅.

(** The lock's holder is the one process past [Flock], and a bound socket is at the
    path. *)
Record listeners_ok (s : listeners) : Prop := {
  lock_holder i p : procs s !! i = Some p → holds_lock p = true <-> lock s = Some i;
  lock_live i : lock s = Some i → is_Some (procs s !! i);
  bound_path i p : procs s !! i = Some p → p = Bound \/ p = Listening → path s = Some (Sock i);
  stale_path i : procs s !! i = Some Stale → ∃ j, path s = Some (Sock j)
}.

(** A process moves on; the lock and the path follow as given. *)
Lemma listeners_move s i p l f :
  listeners_ok s → (l = lock s \/ lock s = Some i /\ l = None \/ lock s = None /\ l = Some i) →
  (holds_lock p = true <-> l = Some i) →
  (f = path s \/ lock s = Some i) →
  (p = Bound \/ p = Listening → f = Some (Sock i)) → (p = Stale → ∃ j, f = Some (Sock j)) →
  listeners_ok (mkListeners l f (<[i:=p]> (procs s))).
Proof.
  intros [Hh Hl Hb Hst] Hlock Hp Hf Hpb Hps. constructor; cbn.
  - intros j q. destruct (decide (j = i)) as [->|Hne]; [rewrite lookup_insert_eq; by intros [= <-]|].
    rewrite lookup_insert_ne by done. intros Hq. rewrite (Hh _ _ Hq). destruct Hlock as [->|[[-> ->]|[-> ->]]]; [done|..];
      split; congruence.
  - intros j Hj. destruct (decide (j = i)) as [->|Hne]; [rewrite lookup_insert_eq; by eexists|].
    rewrite lookup_insert_ne by done. apply Hl. destruct Hlock as [->|[[? ->]|[? ->]]]; congruence.
  - intros j q. destruct (decide (j = i)) as [->|Hne]; [rewrite lookup_insert_eq; intros [= <-]; auto|].
    rewrite lookup_insert_ne by done. intros Hq Hbl. destruct Hf as [->|Hli]; [by eapply Hb|].
    assert (lock s = Some j); [|congruence]. apply (Hh _ _ Hq). by destruct Hbl as [->| ->].
  - intros j. destruct (decide (j = i)) as [->|Hne]; [rewrite lookup_insert_eq; intros [= ->]; auto|].
    rewrite lookup_insert_ne by done. intros Hq. destruct Hf as [->|Hli]; [by eapply Hst|].
    assert (lock s = Some j); [|congruence]. by apply (Hh _ _ Hq).
Qed.

Lemma listenStep_ok i ok s : listeners_ok s → listeners_ok (listenStep i ok s).
Proof.
  intros Hok. unfold listenStep. destruct (procs s !! i) as [p|] eqn:Hp; [|done].
  pose proof (lock_holder _ Hok i p Hp) as Hh. pose proof (bound_path _ Hok i p Hp) as Hb.
  destruct p; cbn in Hh; try done; repeat case_goal; apply listeners_move; try done; cbn; naive_solver.
Qed.

Lemma lstep_ok s s' : listeners_ok s → lstep s s' → listeners_ok s'.
Proof.
  intros Hok Hs. destruct Hs as [s i Hn|s i ok|s i|s Hn].
  - apply listeners_move; try done; cbn; [by left| |by left|naive_solver]. split; [done|].
    intros Hl. destruct (lock_live _ Hok _ Hl). congruence.
  - by apply listenStep_ok.
  - apply listeners_move; try done; cbn; [|case_decide; naive_solver|by left|naive_solver].
    case_decide; naive_solver.
  - destruct Hok as [Hh Hl Hb Hst]. constructor; cbn; [done|done| |].
    + intros i p Hp Hbl. specialize (Hb i p Hp Hbl). congruence.
    + intros i Hp. destruct (Hst i Hp). congruence.
Qed.

Definition lreachable : listeners → Prop := rtc lstep lempty.

Lemma lreachable_ok s : lreachable s → listeners_ok s.
Proof.
  unfold lreachable. intros Hr. assert (listeners_ok lempty) as H0.
  { constructor; cbn; intros *; rewrite ?lookup_empty; done. }
  induction Hr as [|s1 s2 s3 Hs _ IH]; [done|]. by apply IH, (lstep_ok s1).
Qed.

(** C10: an endpoint belongs to the holder of its lock, and a healthy listener is
    never detached. Whatever processes start, listen, fail, close and die around
    one path, and in any interleaving of their system calls, at most one is past
    the lock; the socket at the path is always the listening one's; a step of
    anybody else leaves both in place, and another starter fails with [ErrTaken]
    touching neither; and a file that is not a socket is never removed. *)
Theorem unix_endpoint_has_one_owner s : lreachable s →
  (∀ i j p q, procs s !! i = Some p → procs s !! j = Some q → holds_lock p = true → holds_lock q = true → i = j) /\
  (∀ i, procs s !! i = Some Listening → lock s = Some i /\ path s = Some (Sock i)) /\
  (∀ i s', procs s !! i = Some Listening → lstep s s' → procs s' !! i = Some Listening →
     lock s' = Some i /\ path s' = Some (Sock i)) /\
  (∀ i j ok, procs s !! i = Some Listening → procs s !! j = Some Opened →
     let s' := listenStep j ok s in
     (∃ e, procs s' !! j = Some (Failed e) /\ errors_is e ErrTaken = true) /\ lock s' = lock s /\ path s' = path s) /\
  (∀ s', path s = Some OtherFile → lstep s s' → path s' = Some OtherFile).
Proof.
  intros Hok%lreachable_ok.
  assert (∀ s i, listeners_ok s → procs s !! i = Some Listening → lock s = Some i /\ path s = Some (Sock i)) as Hlis.
  { intros t i Ht Hi. split; [by apply (lock_holder _ Ht i Listening)|by apply (bound_path _ Ht i Listening); [|right]]. }
  split_and!.
  - intros i j p q Hi Hj Hp Hq. apply (lock_holder _ Hok _ _ Hi) in Hp. apply (lock_holder _ Hok _ _ Hj) in Hq. congruence.
  - intros i Hi. by apply Hlis.
  - intros i s' Hi Hs Hi'. apply Hlis; [by eapply lstep_ok|done].
  - intros i j ok Hi Hj. destruct (Hlis s i Hok Hi) as [Hl _]. unfold listenStep. rewrite Hj, Hl. cbn.
    split_and!; [|done|done]. eexists. by rewrite lookup_insert_eq.
  - intros s' Hf Hs. destruct Hs as [s i Hn|s i ok|s i|s Hn]; cbn; try congruence. unfold listenStep.
    destruct (procs s !! i) as [p|] eqn:Hp; [|done]. pose proof (bound_path _ Hok i p Hp) as Hb.
    destruct p; rewrite ?Hf; repeat case_goal; cbn; try congruence.
    + destruct (stale_path _ Hok i Hp). congruence.
    + specialize (Hb (or_introl eq_refl)). congruence.
    + specialize (Hb (or_intror eq_refl)). congruence.
Qed.

(** ** Witnesses *)

(** One process has opened, locked, bound and shut its endpoint. *)
Definition oneListener : listeners :=
  fold_left (λ s ok, listenStep 0 ok s) [true; true; true; true; true] (mkListeners None None {[0%nat := Idle]}).

Lemma unix_endpoint_has_one_owner_witness :
  procs oneListener !! 0%nat = Some Listening /\ path oneListener = Some (Sock 0).
Proof.
  assert (lreachable oneListener) as Hr.
  { eapply rtc_l; [apply (lstart lempty 0%nat); reflexivity|].
    unfold oneListener. cbn [fold_left].
    do 5 (eapply rtc_l; [apply (lcall _ 0%nat true)|]). apply rtc_refl. }
  split; [vm_compute; reflexivity|].
  destruct (unix_endpoint_has_one_owner oneListener Hr) as (_ & Hl & _).
  destruct (Hl 0%nat) as [_ Hp]; [vm_compute; reflexivity|exact Hp].
Defined.

(** The example machine's peer sends a frame of two bytes. *)
Definition exampleAccepted : unixConn (S:=bindingState LinuxStore) :=
  unixAccept (linuxBindHandle pinningKernel noText quoted itoa) (linuxNow pinningKernel) (mkLinuxBinding 0 0 "", fresh) 0
    (newConn [RData (be32_put 2 ++ [x01]); RData [x02]]) (ConnSyscall true (Ok (Ok 3))) fresh.


(** ** Pooled connections: listen/framed_unix.go *)

(** [idleIntact]; [peek] is the error of a [Recvfrom] that peeks and does not wait.
    EAGAIN is EWOULDBLOCK on the systems of this file. *)
Definition idleIntact (c : netConn) (peek : Z → option errno) : bool :=
  match c with
  | ConnSyscall _ (Ok (Ok fd)) => bool_decide (peek fd = Some EWOULDBLOCK)
  | _ => false
  end.

(** A stream socket as a peek sees it: the bytes waiting, whether the peer has ended
    the stream, and an error the socket holds. *)
Record recvQueue := mkRecvQueue { q_bytes : list byte; q_ended : bool; q_error : option errno }.

Definition recvPeek (q : recvQueue) : option errno :=
  match q_bytes q, q_error q, q_ended q with
  | _ :: _, _, _ => None
  | [], Some e, _ => Some e
  | [], None, true => None
  | [], None, false => Some EWOULDBLOCK
  end.

(** A connection is intact exactly when nothing waits, the server has not ended it
    and its socket holds no error: a closing marker is never taken for a reply. *)
Lemma idle_intact_quiet u fd q : q_error q ≠ Some EWOULDBLOCK →
  idleIntact (ConnSyscall u (Ok (Ok fd))) (λ _, recvPeek q) = true ↔ q = mkRecvQueue [] false None.
Proof.
  intros He. cbn [idleIntact]. rewrite bool_decide_eq_true. destruct q as [[|b bs] [] [e|]]; cbn in *; naive_solver.
Qed.
