(* ===== verification/ListenLines.v ===== *)
(** The line protocol of listen/listen.go: [Receive] reads one line, binds and
    checks its caller, and only then gives the line to the service.

    A [Call] holds its connection inside its scanner, which reads it; the binding
    and [Close] act on that same connection. *)

From S2P Require Import Prelude GoStrings GoError ProofLadder Peer Binding GoIO GoBufio Frame GoFilepath PathIdentity Program ServerConn Framed LinuxOS ProcfsLinux IdentityLinux BindLinux ListenUnix.

Section Lines.
Context `{FramedConn T}.

(** The text of an error, [err.Error()]. *)
Context (Error : err → string).

(** [Call]. [lk_gone] is [None] until [Gone] is asked for, then whether its channel
    is closed. *)
Record Call := mkCall {
  lk_sc : scanner T;
  lk_Caller : option Seen;
  lk_Frame : list byte;
  lk_b : option (Binding T);
  lk_gone : option bool;
  lk_ended : bool
}.

Definition lk_conn (k : Call) : T := sc_r (lk_sc k).

Definition withReader (s : scanner T) (r : T) : scanner T :=
  mkScanner r (sc_max s) (sc_start s) (sc_data s) (sc_err s).

(** [Receive], for a positive [maxFrame]. *)
Definition Receive (c : T) (need : Need) (maxFrame : nat) : option err * Call :=
  let '(token, sc) := Scan (NewScanner c maxFrame) in
  match token with
  | None => (Some (Sentinel ErrNoFrame), mkCall sc None [] None None false)
  | Some frame =>
      match fc_bind (sc_r sc) with
      | (Err e, c) => (Some e, mkCall (withReader sc c) (Some (SeenBy (B:=T) (inr (Error e)))) [] None None false)
      | (Ok b, c) =>
          let caller := Some (SeenBy (inl b)) in
          match BindingCheck b need c with
          | (Some e, c) => (Some e, mkCall (withReader sc c) caller [] (Some b) None false)
          | (None, c) => (None, mkCall (withReader sc c) caller frame (Some b) None false)
          end
      end
  end.

(** [Call.Recheck]. *)
Definition lkRecheck (k : Call) : option err * Call :=
  match lk_b k with
  | None => (Some (Plain "runtime error: nil pointer dereference"), k)
  | Some b =>
      let '(r, c) := BindingPeer b (lk_conn k) in
      (err_of r, mkCall (withReader (lk_sc k) c) (lk_Caller k) (lk_Frame k) (lk_b k) (lk_gone k) (lk_ended k))
  end.

(** [Call.Gone] starts the goroutine that reads on, once. *)
Definition Gone (k : Call) : Call :=
  match lk_gone k with
  | Some _ => k
  | None => mkCall (lk_sc k) (lk_Caller k) (lk_Frame k) (lk_b k) (Some false) (lk_ended k)
  end.

(** One turn of that goroutine: a line is skipped, and without one the channel is
    closed. *)
Definition drainStep (k : Call) : Call :=
  match lk_gone k with
  | Some false =>
      let '(token, sc) := Scan (lk_sc k) in
      mkCall sc (lk_Caller k) (lk_Frame k) (lk_b k) (Some (if token is Some _ then false else true)) (lk_ended k)
  | _ => k
  end.

(** [Call.Close]: the binding and then the connection, once. *)
Definition lkClose (k : Call) : Call :=
  if lk_ended k then k
  else
    let c := match lk_b k with Some b => (BindingClose b (lk_conn k)).2 | None => lk_conn k end in
    mkCall (withReader (lk_sc k) (fc_close c)) (lk_Caller k) (lk_Frame k) (lk_b k) (lk_gone k) true.

(** ** What is received *)

Context {HR : ReaderOk T} (live : T → Prop).
Hypothesis live_read : ∀ n r bs r', live r → (0 < n)%nat → read n r = (bs, None, r') → bs ≠ [] /\ live r'.

Lemma NewScanner_ok c max : live c → (0 < max)%nat → scannerOk live (NewScanner c max).
Proof. intros Hl Hm. unfold scannerOk. cbn. split_and!; done || lia. Qed.

Lemma Scan_spec s : scannerOk live s → scanned live s (Scan s).
Proof. intros Hok. apply scanLoop_spec; [done..|]. destruct (sc_err s); lia. Qed.

(** What [Receive] gives, from the lines of the stream and the answers about the
    caller. *)
Definition received_line (c : T) (need : Need) (max : nat) (e : option err) (k : Call) : Prop :=
  match firstLine max (incoming c).1 with
  | None => e = Some (Sentinel ErrNoFrame) /\ lk_Frame k = [] /\ lk_b k = None
  | Some (line, rest) =>
      ∃ sc, scannerOk live sc /\ pending sc = (rest, (incoming c).2) /\
      match fc_bind (sc_r sc) with
      | (Err x, _) => e = Some x /\ lk_Frame k = [] /\ lk_b k = None
      | (Ok b, c') =>
          lk_b k = Some b /\ lk_Caller k = Some (SeenBy (inl b)) /\
          match BindingCheck b need c' with
          | (Some x, _) => e = Some x /\ lk_Frame k = []
          | (None, c'') => e = None /\ lk_Frame k = line /\ lk_sc k = withReader sc c''
          end
      end
  end.

(** The line a service gets is the first line its caller sent, whole, and only
    after the caller met the policy. Whatever the chunks it arrives in, [Receive]
    takes the bytes up to the first line feed among the first [max], or all of them
    when the stream ends earlier; a stream with neither gives [ErrNoFrame] and no
    binding. The frame is that line exactly when the connection then bound and its
    binding met the policy, and empty otherwise, with the error of what failed; the
    bytes after the line are still to be read. *)
Theorem receive_exact c need max :
  live c → (0 < max)%nat →
  let '(e, k) := Receive c need max in received_line c need max e k.
Proof.
  intros Hl Hm. unfold Receive, received_line.
  pose proof (Scan_spec (NewScanner c max) (NewScanner_ok c max Hl Hm)) as Hs. unfold scanned in Hs.
  destruct (Scan (NewScanner c max)) as [token sc]. cbn in Hs.
  destruct (firstLine max (incoming c).1) as [[line rest]|]; [|by destruct Hs as [-> _]].
  destruct Hs as (-> & Hok & _ & Hp).
  destruct (fc_bind (sc_r sc)) as [[b|x] c'] eqn:Hb; [|by exists sc; rewrite Hb].
  destruct (BindingCheck b need c') as [[x|] c''] eqn:Hc; exists sc; by rewrite Hb, Hc.
Qed.

(** The channel of [Gone] closes on the first turn that finds no line: at the end
    of the stream, and also on a line that does not fit the buffer, when the caller
    has not hung up. *)
Theorem gone_exact k :
  scannerOk live (lk_sc k) → lk_gone k = Some false →
  lk_gone (drainStep k) =
    Some (if firstLine (sc_max (lk_sc k)) (pending (lk_sc k)).1 is Some _ then false else true).
Proof.
  intros Hok Hg. unfold drainStep. rewrite Hg. pose proof (Scan_spec _ Hok) as Hs. unfold scanned in Hs.
  destruct (Scan (lk_sc k)) as [token sc]. cbn in *.
  destruct (firstLine _ _) as [[line rest]|]; [by destruct Hs as [-> _]|by destruct Hs as [-> _]].
Qed.
End Lines.

(** ** Unix connections *)

#[global] Instance unixConn_ReaderOk {S} : ReaderOk (unixConn (S:=S)).
Proof.
  constructor.
  - intros n u bs u' Hn Hr. cbn in *. destruct (connRead n (u_net u)) as [[b x] c] eqn:Hc. simplify_eq.
    exact (read_data (T:=conn) n (u_net u) bs c Hn Hc).
  - intros n u bs e u' Hn Hr. cbn in *. destruct (connRead n (u_net u)) as [[b x] c] eqn:Hc. simplify_eq.
    exact (read_error (T:=conn) n (u_net u) bs e c Hn Hc).
Qed.

(** A socket's read gives a byte or an error: no chunk is empty. *)
Definition chunks_live {S} (u : unixConn (S:=S)) : Prop := Forall (λ ev, ev ≠ RData []) (inbox (u_net u)).

Lemma unixConn_live {S} n (u : unixConn (S:=S)) bs u' :
  chunks_live u → (0 < n)%nat → read n u = (bs, None, u') → bs ≠ [] /\ chunks_live u'.
Proof.
  unfold chunks_live. intros Hl Hn Hr. cbn in Hr. unfold connRead in Hr.
  destruct (conn_closed (u_net u)); [done|]. destruct (inbox (u_net u)) as [|[d|e] rest]; [done| |done].
  apply Forall_cons in Hl as [Hd Hl].
  destruct (Nat.leb_spec (length d) n); simplify_eq; cbn; [split; [by intros ->|done]|].
  split; [destruct n; [lia|]; by destruct d|]. constructor; [|done]. intros [= Hx].
  apply (f_equal length) in Hx. rewrite length_drop in Hx. cbn in Hx. lia.
Qed.

(** ** Witnesses *)

(** The example machine's peer sends a line in two chunks, and part of another. *)
Definition exampleLines : unixConn (S:=bindingState LinuxStore) :=
  unixAccept (linuxBindHandle pinningKernel noText quoted itoa) (linuxNow pinningKernel) (mkLinuxBinding 0 0 "", fresh) 0
    (newConn [RData [x68]; RData [x69; x0d; x0a; x68]; RData [x68; x68; x68; x68]; RData [x68]])
    (ConnSyscall true (Ok (Ok 3))) fresh.

Lemma exampleLines_live : chunks_live exampleLines.
Proof. repeat constructor; done. Qed.

Lemma receive_exact_witness :
  let r := Receive (λ _, "") exampleLines ProgramNeed 5 in
  r.1 = None /\ lk_Frame r.2 = [x68; x69] /\ received_line chunks_live exampleLines ProgramNeed 5 r.1 r.2.
Proof.
  intros r. split; [vm_compute; reflexivity|]. split; [vm_compute; reflexivity|].
  pose proof (receive_exact (λ _, "") chunks_live unixConn_live exampleLines ProgramNeed 5 exampleLines_live ltac:(lia)) as H.
  subst r. destruct (Receive _ _ _ _) as [e k]. exact H.
Defined.

(** The caller of a received line sends a line longer than the buffer: the channel
    of [Gone] closes while the connection has more of that line to deliver. *)
Theorem gone_while_connected :
  let '(e, k) := Receive (λ _, "") exampleLines ProgramNeed 5 in
  let k' := drainStep (Gone k) in
  e = None /\ lk_gone k' = Some true /\ (incoming (lk_conn k')).1 = [x68] /\ sc_err (lk_sc k') = Some ErrTooLong.
Proof. vm_compute. repeat split; reflexivity. Qed.
