(* ===== verification/Admission.v ===== *)
(** listen/admission.go: which AppContainers an endpoint admits, configured once
    per endpoint by the server that opens it. *)

From S2P Require Import Prelude GoStrings GoError GoFilepath PathIdentity Program.

(** A canonical decimal [uint32]. *)
Definition canonicalUint32 (part : string) : bool :=
  match ParseUint part 10 32 with
  | Some n => String.eqb (itoa n) part
  | None => false
  end.

(** The test of one SID, with the SIDs seen before it. *)
Definition sidError (seen : list string) (sid : string) : option err :=
  let parts := Split sid "-" in
  if negb (length parts =? 11)%nat || negb (String.eqb (Join (take 4 parts) "-") "S-1-15-2") || bool_decide (sid ∈ seen)
  then Some (Plain "listen: invalid or repeated AppContainer SID")
  else if forallb canonicalUint32 (drop 4 parts) then None
  else Some (Plain "listen: invalid AppContainer SID").

Fixpoint sidErrors (seen containers : list string) : option err :=
  match containers with
  | [] => None
  | sid :: rest =>
      match sidError seen sid with
      | Some e => Some e
      | None => sidErrors (sid :: seen) rest
      end
  end.

Fixpoint endpointErrors (seen endpoints : list string) : option err :=
  match endpoints with
  | [] => None
  | e :: rest =>
      if String.eqb e "" || ContainsAny e bad_bytes || bool_decide (e ∈ seen)
      then Some (Plain "listen: invalid or repeated admission endpoint")
      else endpointErrors (e :: seen) rest
  end.

(** [endpointAdmission], and the grants given out: each release function owns its
    endpoints until it has run. *)
Record grant := mkGrant { owned : list string; admits : list string; released : bool }.

Record admission := mkAdmission { entries : gmap string (list string); grants : list grant }.

Definition insertAll (endpoints containers : list string) (m : gmap string (list string)) : gmap string (list string) :=
  fold_left (λ m e, <[e:=containers]> m) endpoints m.

Definition deleteAll (endpoints : list string) (m : gmap string (list string)) : gmap string (list string) :=
  fold_left (λ m e, delete e m) endpoints m.

(** [ConfigureAdmission]: an error, or the number of the grant. *)
Definition ConfigureAdmission (endpoints containers : list string) (a : admission) : (err + nat) * admission :=
  if (length endpoints =? 0)%nat || (length containers =? 0)%nat
  then (inl (Plain "listen: admission requires endpoints and containers"), a)
  else match sidErrors [] containers with
  | Some e => (inl e, a)
  | None =>
      match endpointErrors [] endpoints with
      | Some e => (inl e, a)
      | None =>
          if existsb (λ e, match entries a !! e with Some _ => true | None => false end) endpoints
          then (inl (Plain "listen: admission already configured"), a)
          else (inr (length (grants a)),
                mkAdmission (insertAll endpoints containers (entries a)) (grants a ++ [mkGrant endpoints containers false]))
      end
  end.

(** The release function of grant [i]. *)
Definition releaseAdmission (i : nat) (a : admission) : admission :=
  match grants a !! i with
  | Some g =>
      if released g then a
      else mkAdmission (deleteAll (owned g) (entries a)) (<[i:=mkGrant (owned g) (admits g) true]> (grants a))
  | None => a
  end.

(** [admittedContainers]. *)
Definition admittedContainers (endpoint : string) (a : admission) : list string := default [] (entries a !! endpoint).

(** ** What the table holds *)

Inductive admOp := AConfigure (endpoints containers : list string) | ARelease (i : nat).

Definition admStep (o : admOp) (a : admission) : admission :=
  match o with
  | AConfigure es cs => (ConfigureAdmission es cs a).2
  | ARelease i => releaseAdmission i a
  end.

Definition admRun (os : list admOp) : admission := fold_left (λ a o, admStep o a) os (mkAdmission ∅ []).

Definition live (gs : list grant) (i : nat) (e : string) (cs : list string) : Prop :=
  ∃ g, gs !! i = Some g /\ released g = false /\ e ∈ owned g /\ admits g = cs.

(** The table is the union of the grants not yet released, which share no
    endpoint. *)
Record adm_ok (a : admission) : Prop := {
  adm_entries e cs : entries a !! e = Some cs <-> ∃ i, live (grants a) i e cs;
  adm_disjoint i j e cs cs' : live (grants a) i e cs → live (grants a) j e cs' → i = j
}.

Lemma insertAll_lookup es cs m e : insertAll es cs m !! e = if bool_decide (e ∈ es) then Some cs else m !! e.
Proof.
  revert m. induction es as [|x es IH]; intros m; [done|]. cbn. unfold insertAll in IH. rewrite IH.
  destruct (decide (e = x)) as [->|Hne].
  - rewrite (bool_decide_eq_true_2 (x ∈ x :: es)) by (by left). rewrite lookup_insert_eq. by case_bool_decide.
  - rewrite lookup_insert_ne by done. destruct (decide (e ∈ es)) as [Hin|Hin].
    + rewrite !bool_decide_eq_true_2; [done|by right|done].
    + rewrite !bool_decide_eq_false_2; [done|by intros [?|?]%elem_of_cons|done].
Qed.

Lemma deleteAll_lookup es m e : deleteAll es m !! e = if bool_decide (e ∈ es) then None else m !! e.
Proof.
  revert m. induction es as [|x es IH]; intros m; [done|]. cbn. unfold deleteAll in IH. rewrite IH.
  destruct (decide (e = x)) as [->|Hne].
  - rewrite (bool_decide_eq_true_2 (x ∈ x :: es)) by (by left). rewrite lookup_delete_eq. by case_bool_decide.
  - rewrite lookup_delete_ne by done. destruct (decide (e ∈ es)) as [Hin|Hin].
    + rewrite !bool_decide_eq_true_2; [done|by right|done].
    + rewrite !bool_decide_eq_false_2; [done|by intros [?|?]%elem_of_cons|done].
Qed.

Lemma live_app a es cs i e c : live (grants a ++ [mkGrant es cs false]) i e c <->
  live (grants a) i e c \/ (i = length (grants a) /\ e ∈ es /\ c = cs).
Proof.
  unfold live. cbn. split.
  - intros (g & Hg & Hr & He & Hc). apply lookup_snoc_Some in Hg as [[_ Hg]|[-> <-]]; [left; eauto|right; naive_solver].
  - intros [(g & Hg & Hr & He & Hc)|(-> & He & ->)]; [exists g; by rewrite lookup_app_l by (by eapply lookup_lt_Some)|].
    eexists. by rewrite lookup_app_r, Nat.sub_diag.
Qed.

Lemma live_release a i g j e c : grants a !! i = Some g →
  live (<[i:=mkGrant (owned g) (admits g) true]> (grants a)) j e c <-> live (grants a) j e c /\ j ≠ i.
Proof.
  intros Hg. unfold live. cbn. destruct (decide (j = i)) as [->|Hne].
  - rewrite list_lookup_insert_eq by (by eapply lookup_lt_Some). split; [intros (? & [= <-] & ? & _); done|by intros [_ ?]].
  - rewrite list_lookup_insert_ne by done. naive_solver.
Qed.

Lemma configure_ok es cs a : adm_ok a → adm_ok (ConfigureAdmission es cs a).2.
Proof.
  intros [He Hd]. unfold ConfigureAdmission. case_goal; [done|]. case_goal; [done|]. case_goal; [done|].
  destruct (existsb _ es) eqn:Hex; [done|]. cbn.
  assert (∀ e c i, e ∈ es → ¬ live (grants a) i e c) as Hfree.
  { intros e c i Hin Hlive. assert (entries a !! e = Some c) as Hsome by (apply He; eauto).
    apply not_true_iff_false in Hex. apply Hex. apply existsb_exists. exists e.
    split; [by apply list_elem_of_In|by rewrite Hsome]. }
  constructor; cbn [grants entries].
  - intros e c. setoid_rewrite (live_app a es cs). rewrite insertAll_lookup. case_bool_decide as Hin.
    + split; [intros [= <-]; exists (length (grants a)); by right|]. intros [i [Hl|(_ & _ & ->)]]; [|done].
      by destruct (Hfree e c i).
    + rewrite He. split; [intros [i ?]; exists i; by left|]. intros [i [?|(_ & ? & _)]]; [eauto|done].
  - intros i j e c c'. rewrite !(live_app a es cs). intros [Hi|(-> & Hi & _)] [Hj|(-> & Hj & _)]; [by eapply Hd| | |done].
    + by destruct (Hfree e c i).
    + by destruct (Hfree e c' j).
Qed.

Lemma release_ok i a : adm_ok a → adm_ok (releaseAdmission i a).
Proof.
  intros [He Hd]. unfold releaseAdmission. destruct (grants a !! i) as [g|] eqn:Hg; [|done].
  destruct (released g) eqn:Hr; [done|].
  assert (∀ e, e ∈ owned g → live (grants a) i e (admits g)) as Hown by (intros e Hin; by exists g).
  constructor; cbn [grants entries].
  - intros e c. setoid_rewrite (live_release a i g _ _ _ Hg). rewrite deleteAll_lookup. case_bool_decide as Hin.
    + split; [done|]. intros [j [Hj Hne]]. exfalso. apply Hne. by eapply Hd; [|apply Hown].
    + rewrite He. split; [|naive_solver]. intros [j Hj]. exists j. split; [done|]. intros ->.
      destruct Hj as (g' & Hg' & _ & Hin' & _). congruence.
  - intros j k e c c'. rewrite !(live_release a i g _ _ _ Hg). intros [? _] [? _]. by eapply Hd.
Qed.

Lemma run_ok os : adm_ok (admRun os).
Proof.
  unfold admRun. assert (adm_ok (mkAdmission ∅ [])) as H0.
  { constructor; [|by intros ????? (? & ? & _)]. intros e cs. cbn [entries]. rewrite lookup_empty. split; [done|]. by intros (? & ? & ? & _). }
  revert H0. generalize (mkAdmission ∅ []). induction os as [|o os IH]; intros a Ha; [done|]. cbn. apply IH.
  destruct o; [by apply configure_ok|by apply release_ok].
Qed.

(** Admission is all or nothing and belongs to one grant. After any sequence
    of configurations and releases, an endpoint admits exactly the containers of
    the one unreleased grant that owns it, and none otherwise. A configuration that
    fails changes nothing; one that succeeds owned no endpoint before, admits its
    containers at every one of its endpoints and changes no other; releasing it
    takes those back, and releasing again changes nothing. *)
Theorem admission_belongs_to_one_grant os es cs :
  let a := admRun os in
  (∀ e c, entries a !! e = Some c <-> ∃ i, live (grants a) i e c) /\
  (∀ i j e c c', live (grants a) i e c → live (grants a) j e c' → i = j) /\
  match ConfigureAdmission es cs a with
  | (inl _, a') => a' = a
  | (inr i, a') =>
      (∀ e, entries a' !! e = if bool_decide (e ∈ es) then Some cs else entries a !! e) /\
      (∀ e, e ∈ es → entries a !! e = None) /\
      entries (releaseAdmission i a') = entries a /\
      releaseAdmission i (releaseAdmission i a') = releaseAdmission i a'
  end.
Proof.
  intros a. pose proof (run_ok os) as Hok. fold a in Hok. split_and!; [apply Hok|apply Hok|].
  unfold ConfigureAdmission. case_goal; [done|]. case_goal; [done|]. case_goal; [done|].
  destruct (existsb _ es) eqn:Hex; [done|].
  assert (∀ e, e ∈ es → entries a !! e = None) as Hfree.
  { intros e Hin. destruct (entries a !! e) eqn:Hs; [|done]. apply not_true_iff_false in Hex. exfalso. apply Hex.
    apply existsb_exists. exists e. split; [by apply list_elem_of_In|by rewrite Hs]. }
  split_and!; [intros e; cbn; apply insertAll_lookup|done|..];
    unfold releaseAdmission; cbn [grants entries]; rewrite lookup_app_r, Nat.sub_diag by done; cbn.
  - apply map_eq. intros e. rewrite deleteAll_lookup, insertAll_lookup. case_bool_decide; [by rewrite Hfree|done].
  - by rewrite list_lookup_insert_eq by (rewrite length_app; cbn; lia).
Qed.
