(* ===== verification/UnixFiles.v ===== *)
(** Files on Unix, as the folder code asks for them and changes them.

    [Unix] holds the answers the kernel gives at one moment, and the kernel is a
    function from the history of events to such answers. *)

From S2P Require Import Prelude GoStrings GoError GoFilepath PathIdentity Events.

(** [unix.Stat_t], the fields the code reads. *)
Record Stat := mkStat { st_dev : Z; st_ino : Z; st_mode : Z; st_uid : Z; st_nlink : Z }.

#[global] Instance Stat_eq_dec : EqDecision Stat.
Proof. solve_decision. Defined.

(** The type bits of a mode. *)
Definition S_IFMT : Z := 0xF000.
Definition S_IFIFO : Z := 0x1000.
Definition S_IFCHR : Z := 0x2000.
Definition S_IFDIR : Z := 0x4000.
Definition S_IFBLK : Z := 0x6000.
Definition S_IFREG : Z := 0x8000.
Definition S_IFLNK : Z := 0xA000.
Definition S_IFSOCK : Z := 0xC000.

Definition kind_of (st : Stat) : Z := Z.land (st_mode st) S_IFMT.

(** ** [fs.FileInfo] *)

Definition ModeDir : Z := 0x80000000.
Definition ModeSymlink : Z := 0x8000000.
Definition ModeDevice : Z := 0x4000000.
Definition ModeNamedPipe : Z := 0x2000000.
Definition ModeSocket : Z := 0x1000000.
Definition ModeSetuid : Z := 0x800000.
Definition ModeSetgid : Z := 0x400000.
Definition ModeCharDevice : Z := 0x200000.
Definition ModeSticky : Z := 0x100000.

Record FileInfo := mkInfo { fi_mode : Z; fi_sys : option Stat }.

Definition IsDir (i : FileInfo) : bool := negb (Z.land (fi_mode i) ModeDir =? 0).
Definition Perm (mode : Z) : Z := Z.land mode 0x1FF.

Definition kindBits (kind : Z) : Z :=
  if kind =? S_IFBLK then ModeDevice
  else if kind =? S_IFCHR then Z.lor ModeDevice ModeCharDevice
  else if kind =? S_IFDIR then ModeDir
  else if kind =? S_IFIFO then ModeNamedPipe
  else if kind =? S_IFLNK then ModeSymlink
  else if kind =? S_IFSOCK then ModeSocket
  else 0.

Definition flagBit (mode bit to_ : Z) : Z := if Z.land mode bit =? 0 then 0 else to_.

(** The mode package [os] makes of a [Stat_t]. *)
Definition fileMode (mode : Z) : Z :=
  Z.lor (Z.land mode 0x1FF)
    (Z.lor (kindBits (Z.land mode S_IFMT))
      (Z.lor (flagBit mode 0x400 ModeSetgid) (Z.lor (flagBit mode 0x800 ModeSetuid) (flagBit mode 0x200 ModeSticky)))).

Definition fileInfo (st : Stat) : FileInfo := mkInfo (fileMode (st_mode st)) (Some st).

(** ** Events and answers *)

Inductive uevent :=
| EvLstat (p : string) (r : result Stat)
| EvFstatat (parent : Z) (name : string) (r : result Stat)
| EvOpenat (parent : Z) (name : string) (flags : Z) (r : result Z)
| EvFstat (fd : Z) (r : result Stat)
| EvReadDir (p : string) (r : result (list string))
| EvFiles
| EvHome (r : result string)
| EvClose (fd : Z)
| EvMkdirAll (p : string) (perm : Z) (r : option err)
| EvMkdir (p : string) (perm : Z) (r : option err)
| EvChmod (p : string) (perm : Z) (r : option err)
| EvRemove (p : string)
| EvFchmod (fd mode : Z) (r : option err).

Record Unix := mkUnix {
  u_lstat : string → result Stat;
  u_fstatat : Z → string → result Stat;
  u_openat : Z → string → Z → result Z;
  u_fstat : Z → result Stat;
  u_readDir : string → result (list string);
  u_files : FileSystem;
  u_home : result string;
  u_mkdirAll : string → Z → option err;
  u_mkdir : string → Z → option err;
  u_chmod : string → Z → option err;
  u_fchmod : Z → Z → option err
}.

Definition UM : Type → Type := Hist uevent.

Section Calls.
Context (K : list uevent → Unix).

Definition lstat (p : string) : UM (result Stat) := act (λ h, u_lstat (K h) p) (EvLstat p).
Definition fstatat (parent : Z) (name : string) : UM (result Stat) := act (λ h, u_fstatat (K h) parent name) (EvFstatat parent name).
Definition openat (parent : Z) (name : string) (flags : Z) : UM (result Z) :=
  act (λ h, u_openat (K h) parent name flags) (EvOpenat parent name flags).
Definition fstat (fd : Z) : UM (result Stat) := act (λ h, u_fstat (K h) fd) (EvFstat fd).
Definition readDir (p : string) : UM (result (list string)) := act (λ h, u_readDir (K h) p) (EvReadDir p).
Definition files {A} (f : FileSystem → A) : UM A := act (λ h, f (u_files (K h))) (λ _, EvFiles).
Definition userHomeDir : UM (result string) := act (λ h, u_home (K h)) EvHome.
Definition close (fd : Z) : UM unit := act (λ _, tt) (λ _, EvClose fd).
Definition mkdirAll (p : string) (perm : Z) : UM (option err) := act (λ h, u_mkdirAll (K h) p perm) (EvMkdirAll p perm).
Definition mkdir (p : string) (perm : Z) : UM (option err) := act (λ h, u_mkdir (K h) p perm) (EvMkdir p perm).
Definition chmod (p : string) (perm : Z) : UM (option err) := act (λ h, u_chmod (K h) p perm) (EvChmod p perm).
Definition remove (p : string) : UM unit := act (λ _, tt) (λ _, EvRemove p).
Definition fchmod (fd mode : Z) : UM (option err) := act (λ h, u_fchmod (K h) fd mode) (EvFchmod fd mode).

(** [os.Lstat]. *)
Definition osLstat (p : string) : UM (result FileInfo) :=
  r ← lstat p;
  mret (match r with Ok st => Ok (fileInfo st) | Err e => Err e end).
End Calls.

(** An event that changes a file. *)
Definition changes (e : uevent) : bool :=
  match e with
  | EvMkdirAll _ _ _ | EvMkdir _ _ _ | EvChmod _ _ _ | EvRemove _ | EvFchmod _ _ _ => true
  | _ => false
  end.

(** ** Modes *)

Lemma flagBit_cases mode bit to_ : flagBit mode bit to_ = 0 \/ flagBit mode bit to_ = to_.
Proof. unfold flagBit. destruct (_ =? 0); auto. Qed.

Lemma perm_land mode mask : Z.land 0x1FF mask = 0 → Z.land (Z.land mode 0x1FF) mask = 0.
Proof. intros H. by rewrite <- Z.land_assoc, H, Z.land_0_r. Qed.

(** The permission bits of a mode, and one of its type bits. *)
Lemma fileMode_perm mode : Perm (fileMode mode) = Z.land mode 0x1FF.
Proof.
  unfold Perm, fileMode. rewrite !Z.land_lor_distr_l, <- Z.land_assoc, Z.land_diag.
  replace (Z.land (kindBits _) 0x1FF) with 0 by (unfold kindBits; by repeat case_goal).
  by destruct (flagBit_cases mode 0x400 ModeSetgid) as [-> | ->], (flagBit_cases mode 0x800 ModeSetuid) as [-> | ->],
    (flagBit_cases mode 0x200 ModeSticky) as [-> | ->]; rewrite Z.lor_0_r.
Qed.

Lemma fileMode_kind mode bit : Z.land 0x1FF bit = 0 → Z.land (Z.lor ModeSetgid (Z.lor ModeSetuid ModeSticky)) bit = 0 →
  Z.land (fileMode mode) bit = Z.land (kindBits (Z.land mode S_IFMT)) bit.
Proof.
  intros Hp Hf. unfold fileMode. rewrite !Z.land_lor_distr_l, perm_land by done. rewrite !Z.land_lor_distr_l in Hf.
  apply Z.lor_eq_0_iff in Hf as [Hg [Hu Hs]%Z.lor_eq_0_iff].
  destruct (flagBit_cases mode 0x400 ModeSetgid) as [-> | ->], (flagBit_cases mode 0x800 ModeSetuid) as [-> | ->],
    (flagBit_cases mode 0x200 ModeSticky) as [-> | ->]; rewrite ?Hg, ?Hu, ?Hs, ?Z.land_0_l, ?Z.lor_0_r; done.
Qed.

Lemma IsDir_kind st : IsDir (fileInfo st) = (kind_of st =? S_IFDIR).
Proof.
  unfold IsDir, kind_of. cbn -[Z.land fileMode]. rewrite fileMode_kind by done. unfold kindBits.
  repeat case_goal; to_prop; try done; by rewrite ?E, ?E0, ?E1, ?E2, ?E3, ?E4 in *.
Qed.

Lemma symlink_kind st : negb (Z.land (fi_mode (fileInfo st)) ModeSymlink =? 0) = (kind_of st =? S_IFLNK).
Proof.
  unfold kind_of. cbn -[Z.land fileMode]. rewrite fileMode_kind by done. unfold kindBits.
  repeat case_goal; to_prop; try done; by rewrite ?E, ?E0, ?E1, ?E2, ?E3, ?E4 in *.
Qed.
