(* ===== verification/PrivateDir.v ===== *)
(** go/privatedir: folders private to this account, on any platform
    (privatedir.go) and on Unix (privatedir_unix.go, privatedir_other.go). *)

From S2P Require Import Prelude GoStrings GoError GoFilepath PathIdentity Events UnixFiles.

(** What a platform gives the package: its path functions, and [os.Lstat],
    [os.MkdirAll], [Make] and [check]. *)
Class PrivatePlatform (E : Type) := {
  pp_isAbs : string → bool;
  pp_clean : string → string;
  pp_dir : string → string;
  pp_lstat : string → Hist E (option err);
  pp_mkdirAll : string → Z → Hist E (option err);
  pp_make : string → Hist E (option err);
  pp_check : string → Hist E (option err)
}.

Section PrivateDir.
Context {E : Type} `{PrivatePlatform E}.

(** [CheckDir]. *)
Definition CheckDir (dir : string) : Hist E (option err) :=
  r ← pp_check dir;
  mret (match r with
        | Some _ => Some (Wrap ("privatedir: folder is not private to this account: " +:+ dir) [Sentinel ErrNotPrivate])
        | None => None
        end).

(** [Ensure]. *)
Definition Ensure (dir : string) : Hist E (option err) :=
  if negb (pp_isAbs dir) then mret (Some (Wrap (dir +:+ " is not absolute") [Sentinel ErrNotPrivate]))
  else
    let dir := pp_clean dir in
    r ← pp_lstat dir;
    match r with
    | None => CheckDir dir
    | Some e =>
        if errors_is e FsErrNotExist then
          made ← pp_mkdirAll (pp_dir dir) 0x1C0;
          match made with
          | Some e => mret (Some e)
          | None =>
              made ← pp_make dir;
              match made with
              | Some e => if negb (errors_is e FsErrExist) then mret (Some e) else CheckDir dir
              | None => CheckDir dir
              end
          end
        else mret (Some e)
    end.
End PrivateDir.

(** ** Unix *)

Section Unix_.
Context (K : list uevent → Unix) (getuid : Z).

(** [checkInfo]. *)
Definition checkInfo (info : FileInfo) (uid : Z) (exact_ : bool) : option err :=
  if negb (Z.land (fi_mode info) ModeSymlink =? 0) then Some (Plain "it is a link")
  else if negb (IsDir info) then Some (Plain "it is not a directory")
  else
    match fi_sys info with
    | None => Some (Plain "its owner cannot be read")
    | Some stat =>
        if negb (st_uid stat =? uid) then Some (Plain "it is owned by another uid")
        else if negb (Z.land (Perm (fi_mode info)) 0x3F =? 0) || (exact_ && negb (Perm (fi_mode info) =? 0x1C0))
        then Some (Plain "its mode is not 0700")
        else None
    end.

(** [check]. *)
Definition check_unix (dir : string) : UM (option err) :=
  info ← osLstat K dir;
  mret (match info with Err e => Some e | Ok info => checkInfo info getuid true end).

(** [OwnerOnly]. *)
Definition OwnerOnly (info : FileInfo) : option err := checkInfo info getuid false.

(** [Make]. *)
Definition Make (dir : string) : UM (option err) :=
  r ← mkdir K dir 0x1C0;
  match r with
  | Some e => mret (Some e)
  | None =>
      r ← chmod K dir 0x1C0;
      match r with
      | Some e => _ ← remove dir; mret (Some e)
      | None =>
          info ← osLstat K dir;
          if match info with Err _ => true | Ok i => negb (IsDir i) || negb (Perm (fi_mode i) =? 0x1C0) end
          then _ ← remove dir; mret (Some (Plain (dir +:+ " is not a 0700 directory after creation")))
          else mret None
      end
  end.

#[export] Instance unixPlatform : PrivatePlatform uevent := {|
  pp_isAbs := IsAbs;
  pp_clean := Clean;
  pp_dir := Dir;
  pp_lstat p := r ← lstat K p; mret (err_of r);
  pp_mkdirAll := mkdirAll K;
  pp_make := Make;
  pp_check := check_unix
|}.

(** ** What is proved *)

(** A folder of [uid], no link, that no group and no other can reach. *)
Definition owner_only (uid : Z) (st : Stat) : Prop :=
  kind_of st = S_IFDIR /\ st_uid st = uid /\ Z.land (st_mode st) 0x3F = 0.

(** A private folder of [uid]: its permission bits are 0700. *)
Definition private_folder (uid : Z) (st : Stat) : Prop :=
  kind_of st = S_IFDIR /\ st_uid st = uid /\ Z.land (st_mode st) 0x1FF = 0x1C0.

Lemma perm_mask mode : Z.land (Z.land mode 0x1FF) 0x3F = Z.land mode 0x3F.
Proof. by rewrite <- Z.land_assoc. Qed.

(** The rule accepts exactly the folders it describes. *)
Lemma checkInfo_exact st uid ex :
  checkInfo (fileInfo st) uid ex = None <-> if ex then private_folder uid st else owner_only uid st.
Proof.
  unfold checkInfo. rewrite symlink_kind, IsDir_kind. cbn [fi_sys fileInfo fi_mode]. rewrite fileMode_perm, perm_mask.
  unfold private_folder, owner_only.
  assert (Z.land (st_mode st) 0x1FF = 0x1C0 → Z.land (st_mode st) 0x3F = 0) as Hm
    by (intros Hp; by rewrite <- perm_mask, Hp).
  destruct (kind_of st =? S_IFLNK) eqn:E1; cbn; to_prop; [split; [done|]; destruct ex; intros (Hk & _); by rewrite E1 in Hk|].
  destruct (kind_of st =? S_IFDIR) eqn:E2; cbn; to_prop; [|split; [done|]; by destruct ex; intros (Hk & _)].
  destruct (st_uid st =? uid) eqn:E3; cbn; to_prop; [|split; [done|]; by destruct ex; intros (_ & Hk & _)].
  destruct (Z.land (st_mode st) 0x3F =? 0) eqn:E4, (Z.land (st_mode st) 0x1FF =? 0x1C0) eqn:E5, ex; to_prop;
    cbn; split; intros; destruct_and?; auto; try done; exfalso; auto.
Qed.

(** What is removed was made before, by this very call. *)
Fixpoint removes_own (dir : string) (made : Prop) (new : list uevent) : Prop :=
  match new with
  | [] => True
  | EvMkdir p _ None :: new => removes_own dir (made \/ p = dir) new
  | EvRemove p :: new => p = dir /\ made /\ removes_own dir made new
  | _ :: new => removes_own dir made new
  end.

(** The only changes [Ensure] makes: its parent and the folder itself, both 0700. *)
Definition ensure_change (dir : string) (e : uevent) : Prop :=
  match e with
  | EvMkdirAll p m _ => p = Dir dir /\ m = 0x1C0
  | EvMkdir p m _ | EvChmod p m _ => p = dir /\ m = 0x1C0
  | EvRemove p => p = dir
  | EvFchmod _ _ _ => False
  | _ => True
  end.

Lemma removes_own_then_lstat dir p r made new : removes_own dir made new → removes_own dir made (new ++ [EvLstat p r]).
Proof. revert made. induction new as [|e new IH]; intros made; [done|]. destruct e as [| | | | | | | | |? ? []| | |]; cbn; naive_solver. Qed.

(** [CheckDir] asks once and accepts a private folder only. *)
Lemma CheckDir_spec dir h :
  adds (CheckDir dir) (λ r new, ∃ a, new = [EvLstat dir a] /\ (r = None → ∃ st, a = Ok st /\ private_folder getuid st)) h.
Proof.
  unfold CheckDir. cbn [pp_check unixPlatform]. unfold check_unix, osLstat, lstat.
  repeat adds_step. cbn. eexists. split; [done|].
  destruct (u_lstat _ _) as [st|e]; [|done]. cbn -[checkInfo fileInfo].
  destruct (checkInfo _ _ _) eqn:E; [done|]. intros _. exists st. split; [done|]. by apply (checkInfo_exact st getuid true).
Qed.

(** [Make] touches only the folder, and removes it only when it made it. *)
Lemma Make_spec dir h :
  adds (Make dir) (λ _ new, Forall (ensure_change dir) new /\ removes_own dir False new) h.
Proof.
  unfold Make, mkdir, chmod, osLstat, lstat, remove. repeat adds_step.
  destruct (u_mkdir _ _ _) eqn:E1; repeat adds_step; [cbn; by repeat constructor|].
  destruct (u_chmod _ _ _) eqn:E2; repeat adds_step; [cbn; split_and!; auto; by repeat constructor|].
  case_match; repeat adds_step; cbn; split_and!; auto; by repeat constructor.
Qed.

(** [Ensure] on Unix. It succeeds only when the last thing it asked was [Lstat] of
    the folder and the answer was a directory, no link, of this account, with
    permission bits 0700. Unless its first question was answered with [ErrNotExist] it
    changes nothing. All it ever changes is the parent, made 0700, and the folder
    itself, and it removes the folder only after having made it. *)
Theorem ensure_private dir h :
  adds (Ensure dir)
    (λ r new,
      (r = None → ∃ before st, new = before ++ [EvLstat (Clean dir) (Ok st)] /\ private_folder getuid st) /\
      (existsb changes new = true → ∃ e after, new = EvLstat (Clean dir) (Err e) :: after /\ errors_is e FsErrNotExist = true) /\
      Forall (ensure_change (Clean dir)) new /\
      removes_own (Clean dir) False new) h.
Proof.
  unfold Ensure. cbn [pp_isAbs pp_clean pp_dir pp_lstat pp_mkdirAll pp_make unixPlatform].
  destruct (negb (IsAbs dir)); [adds_step; cbn; split_and!; try done; constructor|].
  unfold lstat, mkdirAll. repeat adds_step. destruct (u_lstat _ _) as [st|e] eqn:El; cbn [err_of].
  { eapply adds_mono; [|apply CheckDir_spec]. intros r new (a & -> & Hr). cbn. split_and!; try done; [|by repeat constructor].
    intros (st' & -> & Hp)%Hr. by exists [EvLstat (Clean dir) (Ok st)], st'. }
  destruct (errors_is e FsErrNotExist) eqn:En; repeat adds_step; [|cbn; split_and!; try done; by repeat constructor].
  destruct (u_mkdirAll _ _ _) as [e'|]; repeat adds_step;
    [cbn; split_and!; try done; [intros _; by eauto|by repeat constructor]|].
  eapply adds_mono; [|apply Make_spec]. intros made new [Hc Ho].
  destruct made as [e'|]; [destruct (negb _)|]; [adds_step|..];
    (* refused by [Make] *)
    [rewrite ?app_nil_r; split_and!; [done|by eauto|by repeat constructor|done]|..];
    (eapply adds_mono; [|apply CheckDir_spec]; intros r new' (a & -> & Hr); rewrite ?app_nil_r; split_and!;
     [intros (st' & -> & Hp)%Hr; eexists (_ :: _ :: new), st'; by split
     |by eauto
     |repeat (constructor; [done|]); apply Forall_app; by repeat constructor
     |by apply removes_own_then_lstat]).
Qed.
End Unix_.

(** A kernel on which only what was made exists, and whose [umask] takes every
    permission [Mkdir] asks for. *)
Definition emptyKernel (uid : Z) (h : list uevent) : Unix :=
  let made p := existsb (λ e, match e with EvMkdir q _ None => String.eqb q p | _ => false end) h in
  let mode p := if existsb (λ e, match e with EvChmod q _ None => String.eqb q p | _ => false end) h then 0x41C0 else 0x4000 in
  mkUnix (λ p, if made p then Ok (mkStat 1 7 (mode p) uid 2) else Err (OSErr ENOENT))
    (λ _ _, Err (OSErr ENOENT)) (λ _ _ _, Err (OSErr ENOENT)) (λ _, Err (OSErr ENOENT)) (λ _, Err (OSErr ENOENT))
    sampleFS (Ok "/home/me") (λ _ _, None) (λ p _, if made p then Some (OSErr EEXIST) else None)
    (λ p _, if made p then None else Some (OSErr ENOENT)) (λ _ _, None).

(** There the folder is made, and found private the second time. *)
Example ensure_makes :
  let run := @Ensure uevent (unixPlatform (emptyKernel 1000) 1000) "/run/me/../me/oa" in
  (run []).1 = None /\ (run (run []).2).1 = None /\ existsb changes (drop (length (run []).2) (run (run []).2).2) = false.
Proof. vm_compute. auto. Qed.
