(* ===== verification/ModelScan.v ===== *)
(** The walk both [protectModels] make over a folder: entries are opened and held,
    folders before what they hold, in a list that grows while it is walked.

    What a platform brings is how an entry is listed and how a child is opened; an
    opened child joins the list even when it is then refused, so that it is closed
    with the others. The walk has fuel, one unit per entry walked, and [Running] is a
    walk that has not ended with it. *)

From S2P Require Import Prelude GoStrings GoError Events.

(** How far the walk came. *)
Inductive outcome := Scanned | Refused (e : err) | Running.

Section Scan.
Context {E H : Type} (isFolder : H → bool) (list_ : H → Hist E (result (list string)))
  (visit : H → string → Hist E (list H * option err)).

(** The inner loop over the children of [parent]. *)
Fixpoint visitAll (parent : H) (names : list string) (all : list H) : Hist E (list H * option err) :=
  match names with
  | [] => mret (all, None)
  | n :: names =>
      r ← visit parent n;
      match r with
      | (es, Some e) => mret (all ++ es, Some e)
      | (es, None) => visitAll parent names (all ++ es)
      end
  end.

(** The loop over the entries held. *)
Fixpoint scanLoop (fuel i : nat) (all : list H) : Hist E (list H * outcome) :=
  match all !! i with
  | None => mret (all, Scanned)
  | Some x =>
      match fuel with
      | O => mret (all, Running)
      | S fuel =>
          if negb (isFolder x) then scanLoop fuel (S i) all
          else
            children ← list_ x;
            match children with
            | Err e => mret (all, Refused e)
            | Ok names =>
                r ← visitAll x names all;
                match r with
                | (all, Some e) => mret (all, Refused e)
                | (all, None) => scanLoop fuel (S i) all
                end
            end
      end
  end.

(** ** Rules *)

(** The walk began with the history [h0]. [I all new] of the entries held and the
    events since is kept by listing and by visiting, and [F] is what holds once one of
    them fails. [L] holds of a folder and the names its listing gives. *)
Context (h0 : list E) (I F : list H → list E → Prop) (L : H → string → Prop).

Hypothesis list_keeps : ∀ x all new, x ∈ all → isFolder x = true → I all new →
  adds (list_ x) (λ r new', if r is Ok names then I all (new ++ new') /\ Forall (L x) names else F all (new ++ new')) (h0 ++ new).
Hypothesis visit_keeps : ∀ x n all new, x ∈ all → isFolder x = true → L x n → I all new →
  adds (visit x n) (λ r new', if r.2 is Some _ then F (all ++ r.1) (new ++ new') else I (all ++ r.1) (new ++ new')) (h0 ++ new).

Lemma visitAll_keeps parent names all new : parent ∈ all → isFolder parent = true → Forall (L parent) names → I all new →
  adds (visitAll parent names all)
    (λ r new', (if r.2 is Some _ then F r.1 (new ++ new') else I r.1 (new ++ new')) /\ ∃ es, r.1 = all ++ es) (h0 ++ new).
Proof.
  revert all new. induction names as [|n names IH]; intros all new Hp Hd HL HI; cbn [visitAll].
  { adds_step. rewrite app_nil_r. split; [done|]. exists []. by rewrite app_nil_r. }
  apply Forall_cons in HL as [Hn HL]. adds_step. eapply adds_mono; [|by apply visit_keeps]. intros [es [e|]] new1 HI1; cbn in HI1.
  { adds_step. rewrite app_nil_r. split; [done|by exists es]. }
  rewrite <- app_assoc. eapply adds_mono; [|apply IH; [by apply elem_of_app; left|done|done|exact HI1]]. intros r new2 (HI2 & es2 & Hr).
  rewrite app_assoc. split; [done|]. exists (es ++ es2). by rewrite Hr, app_assoc.
Qed.

Lemma scanLoop_keeps fuel i all new : I all new →
  adds (scanLoop fuel i all)
    (λ r new', (if r.2 is Refused _ then F r.1 (new ++ new') else I r.1 (new ++ new')) /\ ∃ es, r.1 = all ++ es) (h0 ++ new).
Proof.
  revert i all new. induction fuel as [|fuel IH]; intros i all new HI; cbn [scanLoop]; destruct (all !! i) as [x|] eqn:Ex;
    try (adds_step; rewrite app_nil_r; split; [done|exists []; by rewrite app_nil_r]).
  apply list_elem_of_lookup_2 in Ex. destruct (isFolder x) eqn:Ed; cbn [negb]; [|by apply IH].
  adds_step. eapply adds_mono; [|by apply list_keeps]. intros [names|e] new1 HI1; cbn in HI1; [destruct HI1 as [HI1 HL]|].
  2: { adds_step. rewrite app_nil_r. split; [done|exists []; by rewrite app_nil_r]. }
  adds_step. rewrite <- app_assoc. eapply adds_mono; [|by apply visitAll_keeps].
  intros [all2 [e|]] new2 (HI2 & es2 & Hr2); cbn in Hr2, HI2.
  { adds_step. rewrite app_nil_r, app_assoc. split; [done|by exists es2]. }
  rewrite <- app_assoc. eapply adds_mono; [|apply IH; exact HI2]. intros r new3 (HI3 & es3 & Hr3). rewrite !app_assoc in *.
  split; [done|]. exists (es2 ++ es3). by rewrite Hr3, Hr2, app_assoc.
Qed.

(** The walk ends within its fuel when each entry has a weight and the entries that
    join for its names weigh less than it. *)
Context (weight : H → nat) (cost : H → string → nat).

Hypothesis list_cost : ∀ x all new, x ∈ all → isFolder x = true → I all new →
  adds (list_ x) (λ r _, if r is Ok names then (sum_list_with (cost x) names < weight x)%nat else True) (h0 ++ new).
Hypothesis visit_cost : ∀ x n all new, x ∈ all → isFolder x = true → L x n → I all new →
  adds (visit x n) (λ r _, r.2 = None → (sum_list_with weight r.1 <= cost x n)%nat) (h0 ++ new).
Hypothesis weight_pos : ∀ x, (0 < weight x)%nat.

Lemma visitAll_cost parent names all new : parent ∈ all → isFolder parent = true → Forall (L parent) names → I all new →
  adds (visitAll parent names all)
    (λ r _, r.2 = None → ∃ es, r.1 = all ++ es /\ (sum_list_with weight es <= sum_list_with (cost parent) names)%nat) (h0 ++ new).
Proof.
  revert all new. induction names as [|n names IH]; intros all new Hp Hd HL HI; cbn [visitAll].
  { adds_step. intros _. exists []. by rewrite app_nil_r. }
  apply Forall_cons in HL as [Hn HL]. adds_step.
  eapply adds_mono; [|eapply adds_and; [by apply visit_keeps|by apply (visit_cost parent n all new)]].
  intros [es [e|]] new1 [HI1 Hc]; cbn in HI1, Hc; [by adds_step|]. rewrite <- app_assoc.
  eapply adds_mono; [|apply IH; [by apply elem_of_app; left|done|done|exact HI1]]. intros r new2 Hr Hok.
  destruct (Hr Hok) as (es2 & -> & Hs). exists (es ++ es2). rewrite app_assoc, sum_list_with_app. split; [done|].
  specialize (Hc eq_refl). cbn. lia.
Qed.

Lemma scanLoop_ends fuel i all new : I all new → (sum_list_with weight (drop i all) <= fuel)%nat →
  adds (scanLoop fuel i all) (λ r _, r.2 ≠ Running) (h0 ++ new).
Proof.
  revert i all new. induction fuel as [|fuel IH]; intros i all new HI Hf; cbn [scanLoop]; destruct (all !! i) as [x|] eqn:Ex;
    try (by adds_step); pose proof (weight_pos x) as Hx; pose proof (drop_S _ _ _ Ex) as Hdrop;
    pose proof (lookup_lt_Some _ _ _ Ex) as Hlt; rewrite Hdrop in Hf; cbn in Hf; [lia|].
  apply list_elem_of_lookup_2 in Ex. destruct (isFolder x) eqn:Ed; cbn [negb]; [|apply IH; [done|lia]].
  adds_step. eapply adds_mono; [|eapply adds_and; [by apply list_keeps|by apply (list_cost x all new)]].
  intros [names|e] new1 [HI1 Hc]; cbn in HI1; [destruct HI1 as [HI1 HL]|by adds_step]. adds_step. rewrite <- app_assoc.
  eapply adds_mono; [|eapply adds_and; [by apply visitAll_keeps|by apply visitAll_cost]].
  intros [all2 [e|]] new2 [[HI2 _] Hs]; cbn in HI2, Hs; [by adds_step|]. destruct (Hs eq_refl) as (es & -> & Hes).
  rewrite <- app_assoc. apply IH; [done|]. rewrite drop_app_le by lia. rewrite sum_list_with_app. lia.
Qed.
End Scan.

(** ** What a finished walk has seen *)

Section Complete.
Context {E H : Type} (isFolder : H → bool) (list_ : H → Hist E (result (list string)))
  (visit : H → string → Hist E (list H * option err)).
Context (listed : H → list string → E → Prop) (child : H → string → H → Prop).

Hypothesis list_listed : ∀ x h,
  adds (list_ x) (λ r new, match r with Ok names => Exists (listed x names) new | Err _ => True end) h.
Hypothesis visit_child : ∀ x n h, adds (visit x n) (λ r _, r.2 = None → ∃ c, c ∈ r.1 /\ child x n c) h.

(** The first [i] entries: each folder was listed, and each name it listed has its
    entry. *)
Definition walked (i : nat) (all : list H) (new : list E) : Prop :=
  ∀ j x, (j < i)%nat → all !! j = Some x → isFolder x = true →
  ∃ names, Exists (listed x names) new /\ ∀ n, n ∈ names → ∃ c, c ∈ all /\ child x n c.

Lemma walked_more i all es new new' : (i <= length all)%nat → walked i all new → walked i (all ++ es) (new ++ new').
Proof.
  intros Hi Hw j x Hj Hx Hf. rewrite lookup_app_l in Hx by lia. destruct (Hw j x Hj Hx Hf) as (names & Hn & Hc).
  exists names. split; [apply Exists_app; by left|]. intros n Hin. destruct (Hc n Hin) as (c & Hc1 & Hc2).
  exists c. split; [apply elem_of_app; by left|done].
Qed.

Lemma visitAll_child parent names all h :
  adds (visitAll visit parent names all)
    (λ r _, (∃ es, r.1 = all ++ es) /\ (r.2 = None → ∀ n, n ∈ names → ∃ c, c ∈ r.1 /\ child parent n c)) h.
Proof.
  revert all h. induction names as [|n names IH]; intros all h; cbn [visitAll].
  { adds_step. split; [exists []; by rewrite app_nil_r|]. intros _ n Hn. by apply not_elem_of_nil in Hn. }
  adds_step. eapply adds_mono; [|apply visit_child]. intros [es [e|]] new Hc; [adds_step; split; [by exists es|done]|].
  destruct Hc as (c & Hc1 & Hc2); [done|]. eapply adds_mono; [|apply IH]. intros r _ ((es2 & Hr) & Hrest). split.
  { exists (es ++ es2). by rewrite Hr, app_assoc. }
  intros Hok m [-> | Hm]%elem_of_cons; [|by apply Hrest]. exists c. split; [|done]. rewrite Hr, !elem_of_app. auto.
Qed.

Lemma scanLoop_walked fuel i all new h : (i <= length all)%nat → walked i all new →
  adds (scanLoop isFolder list_ visit fuel i all)
    (λ r new', r.2 = Scanned → walked (length r.1) r.1 (new ++ new')) h.
Proof.
  revert i all new h. induction fuel as [|fuel IH]; intros i all new h Hi Hw; cbn [scanLoop];
    (destruct (all !! i) as [x|] eqn:Ex;
     [|adds_step; intros _; rewrite app_nil_r; apply lookup_ge_None in Ex; by replace (length _) with i by (cbn; lia)]).
  { by adds_step. }
  pose proof (lookup_lt_Some _ _ _ Ex) as Hlt. destruct (isFolder x) eqn:Ef; cbn [negb].
  2: { apply IH; [lia|]. intros j y Hj Hy Hf. destruct (decide (j = i)) as [->|]; [congruence|]. apply (Hw j y); [lia|done|done]. }
  adds_step. eapply adds_mono; [|apply list_listed]. intros [names|e] new1 Hl; [|by adds_step].
  adds_step. eapply adds_mono; [|apply visitAll_child]. intros [all2 [e|]] new2 ((es & Hes) & Hc); [by adds_step|]. cbn in Hes, Hc.
  specialize (Hc eq_refl). subst all2. eapply adds_mono; [|apply (IH _ _ ((new ++ new1) ++ new2))].
  - intros r new3 Hr. by rewrite !app_assoc.
  - rewrite length_app. lia.
  - intros j y Hj Hy Hf. destruct (decide (j = i)) as [->|].
    + rewrite lookup_app_l, Ex in Hy by lia. injection Hy as <-. exists names. split; [|done].
      rewrite <- app_assoc. apply Exists_app. right. apply Exists_app. by left.
    + rewrite <- app_assoc. apply (walked_more i all es new _ Hi Hw j y); [lia|done|done].
Qed.
End Complete.
