(* ===== verification/ModelFolders.v ===== *)
(** go/privatedir: model folders, on any platform (models.go) and on Unix
    (models_unix.go). *)

From S2P Require Import Prelude GoStrings GoError GoFilepath PathIdentity Events UnixFiles ModelScan.


(** What a platform gives models.go: its path functions, identity's questions about
    paths, [os.Lstat], and its own three operations. [protectModels] has fuel; without
    a result it is still walking. *)
Class ModelPlatform (E : Type) := {
  mp_isAbs : string → bool;
  mp_clean : string → string;
  mp_dir : string → string;
  mp_localPath : string → Hist E (option err);
  mp_sameFile : string → string → Hist E (result bool);
  mp_within : string → string → Hist E (result bool);
  mp_lstat : string → Hist E (option err);
  mp_protect : nat → string → list string → Hist E (option (option err));
  mp_checkModels : string → Hist E (option err);
  mp_checkRoot : string → Hist E (option err)
}.

(** [underRoot], over the two questions it asks. *)
Definition underRootOf {E} (sameFile within : string → string → Hist E (result bool)) (p root : string) : Hist E (result bool) :=
  same ← sameFile p root;
  match same with
  | Ok true => mret (Ok true)
  | _ =>
      inside ← within p root;
      match inside with
      | Ok b => mret (Ok b)
      | Err werr => mret (Err (match same with Ok _ => werr | Err e => e end))
      end
  end.

(** [under]. *)
Fixpoint underOf {E} (underRoot : string → string → Hist E (result bool)) (p : string) (roots : list string) : Hist E bool :=
  match roots with
  | [] => mret false
  | r :: roots =>
      ok ← underRoot p r;
      match ok with
      | Ok true => mret true
      | _ => underOf underRoot p roots
      end
  end.

(** [holds]. *)
Fixpoint holdsOf {E} (underRoot : string → string → Hist E (result bool)) (p : string) (others : list string) : Hist E bool :=
  match others with
  | [] => mret false
  | o :: others =>
      if String.eqb o "" then holdsOf underRoot p others
      else
        ok ← underRoot o p;
        match ok with
        | Ok false => holdsOf underRoot p others
        | _ => mret true
        end
  end.

Section ModelFolders.
Context {E : Type} `{ModelPlatform E}.

Definition notModelFolder (msg : string) : option err := Some (Wrap msg [Sentinel ErrNotModelFolder]).

(** An error of the platform, refused as not a model folder. *)
Definition refusal (msg : string) (r : option err) : option err :=
  match r with Some _ => notModelFolder msg | None => None end.

Definition underRoot : string → string → Hist E (result bool) := underRootOf mp_sameFile mp_within.
Definition under : string → list string → Hist E bool := underOf underRoot.
Definition holds : string → list string → Hist E bool := holdsOf underRoot.

(** [CheckModelsRoot]. *)
Definition CheckModelsRoot (root : string) : Hist E (option err) :=
  if negb (mp_isAbs root) then mret (notModelFolder "the models root is not absolute")
  else
    let root := mp_clean root in
    if String.eqb (mp_dir root) root then mret (notModelFolder "the models root is a drive or volume root")
    else
      local ← mp_localPath root;
      match local with
      | Some e => mret (refusal root (Some e))
      | None =>
          st ← mp_lstat root;
          match st with
          | Some e => mret (refusal root (Some e))
          | None => r ← mp_checkRoot root; mret (refusal root r)
          end
      end.

(** [CheckModelFolder]. *)
Definition CheckModelFolder (dir : string) : Hist E (option err) :=
  if negb (mp_isAbs dir) then mret (notModelFolder "it is not absolute")
  else r ← mp_checkModels (mp_clean dir); mret (refusal dir r).

(** The loop of [ProtectModelFolder] over the roots: those that exist and pass. *)
Fixpoint cleanRoots (roots clean : list string) : Hist E (result (list string)) :=
  match roots with
  | [] => mret (Ok clean)
  | r :: roots =>
      if negb (mp_isAbs r) then mret (Err (Wrap "a root is not absolute" [Sentinel ErrNotModelFolder]))
      else
        let r := mp_clean r in
        local ← mp_localPath r;
        match local with
        | Some _ => mret (Err (Wrap r [Sentinel ErrNotModelFolder]))
        | None =>
            st ← mp_lstat r;
            if match st with Some e => errors_is e FsErrNotExist | None => false end then cleanRoots roots clean
            else
              bad ← CheckModelsRoot r;
              match bad with
              | Some e => mret (Err e)
              | None => cleanRoots roots (clean ++ [r])
              end
        end
  end.

(** [ProtectModelFolder]. *)
Definition ProtectModelFolder (fuel : nat) (dir : string) (roots : list string) : Hist E (option (option err)) :=
  if negb (mp_isAbs dir) then mret (Some (notModelFolder "it is not absolute"))
  else
    let dir := mp_clean dir in
    clean ← cleanRoots roots [];
    match clean with
    | Err e => mret (Some (Some e))
    | Ok clean =>
        ok ← under dir clean;
        if negb ok then mret (Some (notModelFolder "it lies under none of the roots"))
        else
          r ← mp_protect fuel dir clean;
          match r with
          | None => mret None
          | Some (Some e) => mret (Some (refusal dir (Some e)))
          | Some None => r ← CheckModelFolder dir; mret (Some r)
          end
    end.
End ModelFolders.

(** ** Unix *)

(** [held]: an entry opened as itself. *)
Record held := mkHeld { h_path : string; h_fd : Z; h_dir : bool; h_mode : Z }.

Definition AT_FDCWD : Z := -100.
Definition O_NOFOLLOW : Z := 0x20000.
Definition O_NONBLOCK : Z := 0x800.
Definition O_CLOEXEC : Z := 0x80000.
Definition O_DIRECTORY : Z := 0x10000.

Section Unix_.
Context (K : list uevent → Unix) (getuid : Z).

(** [judge]. *)
Definition judge (p : string) (st : Stat) : option err :=
  if kind_of st =? S_IFLNK then Some (Plain (p +:+ " is a link"))
  else if negb (kind_of st =? S_IFDIR) && negb (kind_of st =? S_IFREG) then Some (Plain (p +:+ " is neither a folder nor a file"))
  else if negb (st_uid st =? getuid) then Some (Plain (p +:+ " is not owned by this account"))
  else if (kind_of st =? S_IFREG) && (1 <? st_nlink st) then Some (Plain (p +:+ " has names which cannot be listed here"))
  else None.

Definition openFlags (st : Stat) : Z :=
  let flags := Z.lor O_NOFOLLOW (Z.lor O_NONBLOCK O_CLOEXEC) in
  if kind_of st =? S_IFDIR then Z.lor flags O_DIRECTORY else flags.

(** [open]: what it appends to [all], and its error. *)
Definition open (parent : Z) (p name : string) : UM (list held * option err) :=
  before ← fstatat K parent name;
  match before with
  | Err e => mret ([], Some e)
  | Ok before =>
      match judge p before with
      | Some e => mret ([], Some e)
      | None =>
          fd ← openat K parent name (openFlags before);
          match fd with
          | Err e =>
              if errors_is_errno e ELOOP then mret ([], Some (Plain (p +:+ " is a link"))) else mret ([], Some e)
          | Ok fd =>
              st ← fstat K fd;
              match st with
              | Err e => _ ← close fd; mret ([], Some e)
              | Ok st =>
                  let e := mkHeld p fd (kind_of st =? S_IFDIR) (Z.land (st_mode st) 0xFFF) in
                  if negb (st_dev st =? st_dev before) || negb (st_ino st =? st_ino before)
                  then mret ([e], Some (Plain (p +:+ " changed while it was opened")))
                  else mret ([e], judge p st)
              end
          end
      end
  end.

(** The deferred closes. *)
Fixpoint closeAll (all : list held) : UM unit :=
  match all with
  | [] => mret tt
  | e :: all => _ ← close (h_fd e); closeAll all
  end.

(** The loop that writes the modes. *)
Fixpoint writeModes (all : list held) : UM (option err) :=
  match all with
  | [] => mret None
  | e :: all =>
      r ← fchmod K (h_fd e) (Z.ldiff (h_mode e) 0x12);
      match r with
      | Some err => mret (Some (Wrap (h_path e) [err]))
      | None => writeModes all
      end
  end.

(** One child of a held folder. *)
Definition openChild (e : held) (name : string) : UM (list held * option err) :=
  open (h_fd e) (JoinPath (h_path e) name) name.

Definition listEntry (e : held) : UM (result (list string)) := readDir K (h_path e).

(** [protectModels]. *)
Definition protectModels (fuel : nat) (dir : string) : UM (option (option err)) :=
  top ← open AT_FDCWD dir dir;
  match top with
  | (all, Some e) => _ ← closeAll all; mret (Some (Some e))
  | (all, None) =>
      if negb (forallb h_dir all) then _ ← closeAll all; mret (Some (Some (Plain "it is not a directory")))
      else
        r ← scanLoop h_dir listEntry openChild fuel 0 all;
        match r with
        | (all, Running) => mret None
        | (all, Refused e) => _ ← closeAll all; mret (Some (Some e))
        | (all, Scanned) => r ← writeModes all; _ ← closeAll all; mret (Some r)
        end
  end.

(** [checkModels]. *)
Definition checkModels (dir : string) : UM (option err) :=
  r ← lstat K dir;
  mret (match r with
        | Err e => Some e
        | Ok st =>
            if kind_of st =? S_IFLNK then Some (Plain "it is a link")
            else if negb (kind_of st =? S_IFDIR) then Some (Plain "it is not a directory")
            else if negb (st_uid st =? getuid) then Some (Plain "it is not owned by this account")
            else if negb (Z.land (st_mode st) 0x12 =? 0) then Some (Plain "its mode lets a group or others write")
            else None
        end).

Definition sameFile_unix (a b : string) : UM (result bool) := files K (λ fs, @SameFile fs a b).
Definition within_unix (a b : string) : UM (result bool) := files K (λ fs, @Within fs a b).

(** The folders [checkRoot] refuses by name. *)
Definition knownFolders (home : string) : list string :=
  home :: map (JoinPath home) ["Documents"; "Desktop"; "Downloads"; "Library"; ".local"; JoinPath ".local" "share"; ".config"].

(** The loop of [checkRoot] over [p] and the folders above it. *)
Fixpoint linkAbove (fuel : nat) (p : string) : UM (option err) :=
  r ← lstat K p;
  match r with
  | Err e => mret (Some (Wrap p [e]))
  | Ok st =>
      if kind_of st =? S_IFLNK then mret (Some (Plain (p +:+ " is a link")))
      else if String.eqb (Dir p) p then mret None
      else match fuel with
           | O => mret (Some (Plain "the loop did not reach the root"))
           | S fuel => linkAbove fuel (Dir p)
           end
  end.

(** [checkRoot]. *)
Definition checkRoot (root : string) : UM (option err) :=
  r ← userHomeDir K;
  refused ←
    match r with
    | Err _ => mret None
    | Ok home =>
        if String.eqb home "" then mret None
        else
          let home := Clean home in
          if existsb (String.eqb root) (knownFolders home) then mret (Some (Plain "it is a known folder"))
          else
            h ← holdsOf (underRootOf sameFile_unix within_unix) root [home];
            mret (if h : bool then Some (Plain "it holds this account's home") else None)
    end;
  match refused with
  | Some e => mret (Some e)
  | None =>
      above ← linkAbove (String.length root) root;
      match above with
      | Some e => mret (Some e)
      | None =>
          final ← files K (λ fs, @resolveLinks fs root);
          match final with
          | Err e => mret (Some e)
          | Ok final => mret (if negb (String.eqb final root) then Some (Plain ("it resolves to " +:+ final)) else None)
          end
      end
  end.

#[export] Instance unixModels : ModelPlatform uevent := {|
  mp_isAbs := IsAbs;
  mp_clean := Clean;
  mp_dir := Dir;
  mp_localPath p := files K (λ fs, @localPath fs p);
  mp_sameFile := sameFile_unix;
  mp_within := within_unix;
  mp_lstat p := r ← lstat K p; mret (err_of r);
  mp_protect fuel dir _ := protectModels fuel dir;
  mp_checkModels := checkModels;
  mp_checkRoot := checkRoot
|}.
End Unix_.

(** * What [protectModels] does to a folder on Unix, whatever others do to it meanwhile. *)


(** ** Reading a trace *)

Definition opened : list uevent → list Z := omap (λ e, match e with EvOpenat _ _ _ (Ok fd) => Some fd | _ => None end).
Definition closed : list uevent → list Z := omap (λ e, match e with EvClose fd => Some fd | _ => None end).
Definition unchanged (new : list uevent) : Prop := Forall (λ e, changes e = false) new.

Lemma opened_app a b : opened (a ++ b) = opened a ++ opened b.
Proof. apply omap_app. Qed.

Lemma closed_app a b : closed (a ++ b) = closed a ++ closed b.
Proof. apply omap_app. Qed.

(** Every descriptor opened is either held or already closed. *)
Definition accounted (all : list held) (new : list uevent) : Prop := opened new ≡ₚ (h_fd <$> all) ++ closed new.

Lemma accounted_app all es new new' : accounted all new → accounted es new' → accounted (all ++ es) (new ++ new').
Proof. unfold accounted. intros H1 H2. rewrite opened_app, closed_app, fmap_app, H1, H2. solve_Permutation. Qed.

Lemma unchanged_app a b : unchanged a → unchanged b → unchanged (a ++ b).
Proof. intros. by apply Forall_app. Qed.

#[export] Hint Resolve unchanged_app accounted_app : events.

Section Facts.
Context (K : list uevent → Unix) (getuid : Z).

(** What [judge] lets pass: a folder of this account, or a file of it with one name. *)
Definition own_entry (st : Stat) : Prop :=
  st_uid st = getuid /\ (kind_of st = S_IFDIR \/ (kind_of st = S_IFREG /\ st_nlink st <= 1)).

Lemma judge_exact p st : judge getuid p st = None <-> own_entry st.
Proof.
  unfold judge, own_entry, S_IFLNK, S_IFDIR, S_IFREG.
  destruct (kind_of st =? 0xA000) eqn:E1, (kind_of st =? 0x4000) eqn:E2, (kind_of st =? 0x8000) eqn:E3, (st_uid st =? getuid) eqn:E4,
    (1 <? st_nlink st) eqn:E5; cbn; to_prop; intuition (try done; lia).
Qed.

(** An entry held as itself: it was judged unopened, opened from the same folder by
    the same name without following a link, found to be that same file, and judged
    again through its descriptor, whose mode is kept. *)
Definition genuine (new : list uevent) (e : held) : Prop :=
  ∃ parent name before st,
    EvFstatat parent name (Ok before) ∈ new /\ EvOpenat parent name (openFlags before) (Ok (h_fd e)) ∈ new /\
    EvFstat (h_fd e) (Ok st) ∈ new /\ own_entry before /\ own_entry st /\
    st_dev st = st_dev before /\ st_ino st = st_ino before /\
    h_dir e = (kind_of st =? S_IFDIR) /\ h_mode e = Z.land (st_mode st) 0xFFF.

Lemma genuine_more a b e : genuine a e \/ genuine b e → genuine (a ++ b) e.
Proof.
  intros [H|H]; destruct H as (parent & name & before & st & H1 & H2 & H3 & H4); exists parent, name, before, st;
    rewrite !elem_of_app; auto 7.
Qed.

Lemma genuine_app all es a b : Forall (genuine a) all → Forall (genuine b) es → Forall (genuine (a ++ b)) (all ++ es).
Proof.
  intros Ha Hb. apply Forall_app. split; eapply Forall_impl; [exact Ha| |exact Hb|]; intros e He; apply genuine_more; auto.
Qed.

(** [open] changes nothing, accounts for the descriptor, and succeeds with an entry
    held as itself. *)
Lemma open_spec parent p name h :
  adds (open K getuid parent p name)
    (λ r new, unchanged new /\ accounted r.1 new /\ (r.2 = None → ∃ e, r.1 = [e] /\ h_path e = p /\ genuine new e)) h.
Proof.
  unfold open, fstatat, openat, fstat, close, unchanged, accounted. repeat adds_step.
  destruct (u_fstatat _ _ _) as [before|e]; repeat adds_step; [|by repeat constructor].
  destruct (judge _ _ before) eqn:Ej; repeat adds_step; [by repeat constructor|].
  destruct (u_openat _ _ _ _) as [fd|e]; [|case_match; adds_step; by repeat constructor]. repeat adds_step.
  destruct (u_fstat _ _) as [st|e]; [|repeat adds_step; split_and!; [by repeat constructor|done|done]].
  destruct (negb _ || negb _) eqn:Es; [adds_step; split_and!; [by repeat constructor|done|done]|]. to_prop.
  adds_step. split_and!; [by repeat constructor|done|]. cbn -[judge genuine kind_of Z.land]. intros Ej2. eexists.
  split_and!; [done|done|]. exists parent, name, before, st. apply judge_exact in Ej, Ej2. cbn -[Z.land kind_of].
  rewrite !elem_of_cons. auto 15.
Qed.

(** The walk's invariant, and what is left of it when the walk is refused. *)
Definition scanning (all : list held) (new : list uevent) : Prop :=
  unchanged new /\ accounted all new /\ Forall (genuine new) all.
Definition stopped (all : list held) (new : list uevent) : Prop := unchanged new /\ accounted all new.

(** The listing of a folder, and the entry of a name in it. *)
Definition listed (e : held) (names : list string) (ev : uevent) : Prop := ev = EvReadDir (h_path e) (Ok names).
Definition child (e : held) (name : string) (c : held) : Prop := h_path c = JoinPath (h_path e) name.

Lemma scan_spec fuel top new h : scanning [top] new →
  adds (scanLoop h_dir (listEntry K) (openChild K getuid) fuel 0 [top])
    (λ r new', (if r.2 is Refused _ then stopped r.1 (new ++ new') else scanning r.1 (new ++ new')) /\
               (∃ es, r.1 = top :: es) /\
               (r.2 = Scanned → walked h_dir listed child (length r.1) r.1 (new ++ new'))) (h ++ new).
Proof.
  intros Hs. eapply adds_mono; [|eapply adds_and; [apply (scanLoop_keeps h_dir (listEntry K) (openChild K getuid) h scanning stopped (λ _ _, True)) with (new := new)|
    apply (scanLoop_walked h_dir (listEntry K) (openChild K getuid) listed child) with (new := new)]].
  - intros r new' [[Hk Hes] Hw]. auto.
  - intros x all n Hx _ (Hu & Ha & Hg). unfold listEntry, readDir. adds_step.
    assert (stopped all (n ++ [EvReadDir (h_path x) (u_readDir (K (h ++ n)) (h_path x))])) as Hst.
    { split; [apply unchanged_app; [done|apply Forall_singleton; done]|]. rewrite <- (app_nil_r all). apply accounted_app; [done|by unfold accounted]. }
    destruct (u_readDir _ _); [|done]. destruct Hst. split; [|by apply Forall_true]. split_and!; [done|done|]. rewrite <- (app_nil_r all). by apply genuine_app.
  - intros x nm all n Hx _ _ (Hu & Ha & Hg). unfold openChild. eapply adds_mono; [|apply open_spec].
    intros [es oe] new1 (Hu1 & Ha1 & Hg1). cbn in *. unfold stopped, scanning.
    destruct oe; split_and!; auto with events. destruct Hg1 as (e & -> & _ & He); [done|]. apply genuine_app; by repeat constructor.
  - done.
  - intros x h0. unfold listEntry, readDir. adds_step. destruct (u_readDir _ _); [|done]. by repeat constructor.
  - intros x n h0. unfold openChild. eapply adds_mono; [|apply open_spec]. intros [es oe] new1 (_ & _ & Hg1) Hok.
    destruct Hg1 as (e & Hes & He & _); [done|]. cbn in Hes. subst es. exists e. split; [by left|done].
  - cbn. lia.
  - intros j x Hj. lia.
Qed.

(** The event that writes an entry's mode, and the one that closes it. *)
Definition written (e : held) (r : option err) : uevent := EvFchmod (h_fd e) (Z.ldiff (h_mode e) 0x12) r.
Definition closing (e : held) : uevent := EvClose (h_fd e).

Lemma closeAll_events all h : adds (closeAll all) (λ _ new, new = closing <$> all) h.
Proof.
  revert h. induction all as [|e all IH]; intros h; cbn [closeAll]; [by adds_step|]. unfold close. repeat adds_step.
  eapply adds_mono; [|apply IH]. by intros _ new ->.
Qed.

Lemma writeModes_spec all h :
  adds (writeModes K all) (λ r new, ∃ rs, new = zip_with written all rs /\ (r = None → rs = replicate (length all) None)) h.
Proof.
  revert h. induction all as [|e all IH]; intros h; cbn [writeModes]; [adds_step; by exists []|]. unfold fchmod. repeat adds_step.
  destruct (u_fchmod _ _ _) as [er|] eqn:Er; [adds_step; exists [Some er]; split; [by destruct all|done]|].
  eapply adds_mono; [|apply IH]. intros r new (rs & -> & Hr). exists (None :: rs). split; [done|]. intros Hn. cbn. by rewrite Hr.
Qed.

Lemma closing_trace all : opened (closing <$> all) = [] /\ closed (closing <$> all) = h_fd <$> all.
Proof. induction all as [|e all [IH1 IH2]]; [done|]. cbn. split; [done|by f_equal]. Qed.

Lemma written_trace all rs : opened (zip_with written all rs) = [] /\ closed (zip_with written all rs) = [].
Proof. revert rs. induction all as [|e all IH]; intros [|r rs]; try done. apply IH. Qed.

Lemma closing_unchanged all : unchanged (closing <$> all).
Proof. apply Forall_fmap, Forall_true. done. Qed.

(** Closing what is held settles the account. *)
Lemma trace_balanced all scan rs : accounted all scan →
  let new := scan ++ zip_with written all rs ++ (closing <$> all) in opened new ≡ₚ closed new.
Proof.
  intros Ha. cbn. rewrite !opened_app, !closed_app. destruct (written_trace all rs) as [-> ->].
  destruct (closing_trace all) as [-> ->]. rewrite app_nil_r, Ha. solve_Permutation.
Qed.

(** The shape of a run of [protectModels]. *)
Definition disciplined (dir : string) (r : option (option err)) (new : list uevent) : Prop :=
  ∃ scan all rs closes,
    new = scan ++ zip_with written all rs ++ closes /\ unchanged scan /\ unchanged closes /\
    (rs ≠ [] → Forall (genuine scan) all /\ walked h_dir listed child (length all) all scan /\
               ∃ top, all !! 0%nat = Some top /\ h_path top = dir /\ h_dir top = true) /\
    (r = Some None → all ≠ [] /\ rs = replicate (length all) None) /\
    (r ≠ None → opened new ≡ₚ closed new).

(** A refusal after the events [scan], which changed nothing. *)
Lemma refuse_spec dir all scan e h : unchanged scan → accounted all scan →
  adds (_ ← closeAll all; mret (Some (Some e))) (λ r new, disciplined dir r (scan ++ new)) h.
Proof.
  intros Hu Ha. adds_step. eapply adds_mono; [|apply closeAll_events]. intros _ new ->. adds_step. rewrite app_nil_r.
  exists scan, all, [], (closing <$> all). pose proof (trace_balanced all scan [] Ha) as Hb. rewrite zip_with_nil_r in *.
  split_and!; auto using closing_unchanged; done.
Qed.

(** C16: [protectModels] on Unix, whatever else happens to the files. Its events are a
    walk, then writes, then closes. The walk changes nothing. A mode is written only
    when the walk has ended: then the entries held are the folder asked for and, for
    every folder held, an entry for each name its listing gave; each entry was judged
    before and after it was opened, as the same file, a folder or a one-name file of
    this account; and each write goes through the entry's own descriptor and is the
    mode read there less the write bits of group and others. When it succeeds every
    entry was written. When it returns, every descriptor it opened has been closed,
    as often as it was opened. *)
Theorem protect_models_discipline fuel dir h :
  adds (protectModels K getuid fuel dir)
    (disciplined dir) h.
Proof.
  unfold protectModels. adds_step. eapply adds_mono; [|apply open_spec]. intros [all oe] scan (Hu & Ha & Hg). cbn in Ha, Hg.
  destruct oe as [e|].
  { by apply refuse_spec. }
  destruct Hg as (top & -> & Hp & Hg); [done|]. cbn [forallb]. destruct (h_dir top) eqn:Hd; cbn [andb negb].
  2: by apply refuse_spec.
  adds_step. eapply adds_mono; [|apply (scan_spec fuel top scan h); split_and!; [done|done|by repeat constructor]].
  intros [all [|e|]] new (Hk & (es & Hes) & Hw); cbn in Hk, Hes, Hw.
  - destruct Hk as (Hu2 & Ha2 & Hg2). adds_step. eapply adds_mono; [|apply writeModes_spec]. intros r new2 (rs & -> & Hr).
    adds_step. eapply adds_mono; [|apply closeAll_events]. intros _ new3 ->. adds_step.
    exists (scan ++ new), all, rs, (closing <$> all). rewrite app_nil_r, <- !app_assoc. split_and!; auto using closing_unchanged.
    + intros _. split_and!; auto. exists top. by rewrite Hes.
    + intros [= Hn]. split; [by rewrite Hes|auto].
    + intros _. pose proof (trace_balanced all (scan ++ new) rs Ha2) as Hb. cbn in Hb. by rewrite <- !app_assoc in Hb.
  - destruct Hk as [Hu2 Ha2]. eapply adds_mono; [|by apply (refuse_spec dir all (scan ++ new))].
    intros r new2 Hr. by rewrite app_assoc.
  - destruct Hk as (Hu2 & Ha2 & Hg2). adds_step. exists (scan ++ new), [], [], []. cbn. rewrite !app_nil_r. split_and!; [done|done|constructor|done..].
Qed.
End Facts.
