(* ===== verification/ModelFoldersTree.v ===== *)
(** [protectModels] on a tree of files that nobody else changes: what it accepts and
    what it leaves behind, whatever system calls fail meanwhile.

    A tree's entries are named by their position, the names that lead to them. The
    kernel keeps the positions behind the descriptors and the modes written, and both
    are read off the history. It may refuse any call at any time with any error, as
    when an entry cannot be read (EACCES), descriptors run out (EMFILE) or a mode cannot
    be written (EPERM, EROFS); files of set-group-ID belong to a group of this account. *)

From S2P Require Import Prelude GoStrings GoError GoFilepath PathIdentity Events UnixFiles ModelScan ModelFolders.

Inductive tree := Node (st : Stat) (kids : list (string * tree)).

Definition t_stat (t : tree) : Stat := match t with Node st _ => st end.
Definition t_kids (t : tree) : list (string * tree) := match t with Node _ kids => kids end.
Definition t_folder (t : tree) : bool := kind_of (t_stat t) =? S_IFDIR.

Fixpoint assoc {A} (n : string) (l : list (string * A)) : option A :=
  match l with
  | [] => None
  | (m, a) :: l => if String.eqb n m then Some a else assoc n l
  end.

(** The entry at a position. *)
Fixpoint t_at (t : tree) (pos : list string) : option tree :=
  match pos with
  | [] => Some t
  | n :: pos => if t_folder t then match assoc n (t_kids t) with Some c => t_at c pos | None => None end else None
  end.

Fixpoint t_size (t : tree) : nat :=
  match t with Node _ kids => S (sum_list_with (λ k, t_size k.2) kids) end.

(** Names are plain and, within a folder, distinct. *)
Fixpoint t_names (t : tree) : Prop :=
  match t with
  | Node _ kids =>
      NoDup (map fst kids) /\ Forall plain_name (map fst kids) /\
      (fix go (l : list (string * tree)) : Prop := match l with [] => True | k :: l => t_names k.2 /\ go l end) kids
  end.

(** ** Trees *)

Lemma assoc_elem {A} n (l : list (string * A)) a : assoc n l = Some a → (n, a) ∈ l.
Proof.
  induction l as [|[m b] l IH]; cbn -[String.eqb]; [done|]. destruct (String.eqb n m) eqn:E; to_prop.
  - intros [= ->]. subst. by left.
  - intros. right. auto.
Qed.

Lemma assoc_name {A} n (l : list (string * A)) : n ∈ map fst l → ∃ a, assoc n l = Some a.
Proof.
  induction l as [|[m b] l IH]; cbn -[String.eqb]; [by intros ?%not_elem_of_nil|]. destruct (String.eqb n m) eqn:E; [eauto|]. to_prop.
  intros [? | ?]%elem_of_cons; [done|auto].
Qed.

Lemma assoc_fst {A} n (l : list (string * A)) a : assoc n l = Some a → n ∈ map fst l.
Proof. intros H%assoc_elem. apply list_elem_of_fmap. by exists (n, a). Qed.

Lemma t_at_snoc t pos n : t_at t (pos ++ [n]) =
  match t_at t pos with Some s => if t_folder s then assoc n (t_kids s) else None | None => None end.
Proof.
  revert t. induction pos as [|m pos IH]; intros t; cbn; [destruct (t_folder t); [by destruct (assoc n _)|done]|].
  destruct (t_folder t); [|done]. destruct (assoc m _); [apply IH|done].
Qed.

Lemma t_names_kid t n c : t_names t → assoc n (t_kids t) = Some c → t_names c.
Proof.
  destruct t as [st kids]. intros (_ & _ & Hk) H%assoc_elem. cbn in H. clear st. induction kids as [|k kids IH]; [by apply not_elem_of_nil in H|].
  apply elem_of_cons in H as [<- | H]; [apply Hk|apply IH; [apply Hk|done]].
Qed.

Lemma t_names_at t pos s : t_names t → t_at t pos = Some s → t_names s.
Proof.
  revert t. induction pos as [|n pos IH]; intros t Ht; cbn; [by intros [= <-]|]. destruct (t_folder t); [|done].
  destruct (assoc n _) eqn:E; [|done]. apply IH. by eapply t_names_kid.
Qed.

Lemma t_names_own t : t_names t → NoDup (map fst (t_kids t)) /\ Forall plain_name (map fst (t_kids t)).
Proof. destruct t. intros (? & ? & _). done. Qed.

(** The names of a folder weigh what it holds. *)
Lemma kids_size (kids : list (string * tree)) : NoDup (map fst kids) →
  sum_list_with (λ n, match assoc n kids with Some c => t_size c | None => 0%nat end) (map fst kids) = sum_list_with (λ k, t_size k.2) kids.
Proof.
  induction kids as [|[m c] kids IH]; [done|]. cbn -[String.eqb]. intros [Hm Hn]%NoDup_cons. rewrite String.eqb_refl. f_equal.
  rewrite <- IH by done. assert (∀ l, m ∉ l → sum_list_with (λ n, match (if String.eqb n m then Some c else assoc n kids) with
    Some c0 => t_size c0 | None => 0%nat end) l = sum_list_with (λ n, match assoc n kids with Some c0 => t_size c0 | None => 0%nat end) l) as ->;
    [|done|done].
  induction l as [|x l IHl]; [done|]. intros [Hx Hl]%not_elem_of_cons. cbn -[String.eqb]. rewrite IHl by done.
  by destruct (String.eqb_spec x m) as [->|].
Qed.

Definition pos_of (base path : list string) : option (list string) :=
  if decide (take (length base) path = base) then Some (drop (length base) path) else None.

(** The calls that may fail although the entry is there. *)
Inductive ucall :=
| UFstatat (parent : Z) (name : string)
| UOpenat (parent : Z) (name : string) (flags : Z)
| UFstat (fd : Z)
| UReadDir (p : string)
| UFchmod (fd mode : Z).

(** The event of a call that failed, and of a mode that could not be written. *)
Definition failed (e : uevent) : bool :=
  match e with
  | EvFstatat _ _ (Err _) | EvOpenat _ _ _ (Err _) | EvFstat _ (Err _) | EvReadDir _ (Err _) | EvFchmod _ _ (Some _) => true
  | _ => false
  end.
Definition unwritten (e : uevent) : bool := match e with EvFchmod _ _ (Some _) => true | _ => false end.

Section Tree.
Context (top : tree) (base : list string) (deny : list uevent → ucall → option err) (getuid : Z).

(** The path of the folder. *)
Definition dir : string := render true base.

Record wstate := mkW { w_fds : gmap Z (list string); w_modes : gmap (list string) Z; w_next : Z }.

(** The position a name leads to from a descriptor. *)
Definition place (ws : wstate) (parent : Z) (name : string) : option (list string) :=
  if parent =? AT_FDCWD then if String.eqb name dir then Some [] else None
  else match w_fds ws !! parent with Some pos => Some (pos ++ [name]) | None => None end.

Definition wstep (ws : wstate) (e : uevent) : wstate :=
  match e with
  | EvOpenat parent name _ (Ok fd) =>
      match place ws parent name with
      | Some pos => mkW (<[fd := pos]> (w_fds ws)) (w_modes ws) (fd + 1)
      | None => ws
      end
  | EvFchmod fd m None =>
      match w_fds ws !! fd with
      | Some pos => mkW (w_fds ws) (<[pos := m]> (w_modes ws)) (w_next ws)
      | None => ws
      end
  | EvClose fd => mkW (delete fd (w_fds ws)) (w_modes ws) (w_next ws)
  | _ => ws
  end.

Definition replay (h : list uevent) : wstate := foldl wstep (mkW ∅ ∅ 3) h.

(** The mode at a position: the type never changes, the rest is what was last
    written. *)
Definition mode_now (ws : wstate) (pos : list string) (st : Stat) : Z :=
  match w_modes ws !! pos with Some m => Z.lor (Z.land (st_mode st) S_IFMT) m | None => st_mode st end.

Definition stat_at (ws : wstate) (pos : list string) : result Stat :=
  match t_at top pos with
  | Some t => let st := t_stat t in Ok (mkStat (st_dev st) (st_ino st) (mode_now ws pos st) (st_uid st) (st_nlink st))
  | None => Err (OSErr ENOENT)
  end.

Definition stat_opt (ws : wstate) (pos : option (list string)) : result Stat :=
  match pos with Some pos => stat_at ws pos | None => Err (OSErr ENOENT) end.

Definition entry_of (pos : option (list string)) : option tree := match pos with Some pos => t_at top pos | None => None end.

(** The answer of a call that is not refused. *)
Definition unless {A} (h : list uevent) (q : ucall) (r : result A) : result A :=
  match deny h q with Some e => Err e | None => r end.

Definition treeWorld (h : list uevent) : Unix :=
  let ws := replay h in
  mkUnix (λ p, stat_opt ws (pos_of base (elements p)))
    (λ parent name, unless h (UFstatat parent name) (stat_opt ws (place ws parent name)))
    (λ parent name flags, unless h (UOpenat parent name flags)
      match entry_of (place ws parent name) with
      | Some t => if kind_of (t_stat t) =? S_IFLNK then Err (OSErr ELOOP) else Ok (w_next ws)
      | None => Err (OSErr ENOENT)
      end)
    (λ fd, unless h (UFstat fd) (match w_fds ws !! fd with Some pos => stat_at ws pos | None => Err (OSErr (EOTHER 9)) end))
    (λ p, unless h (UReadDir p) match entry_of (pos_of base (elements p)) with
          | Some t => if t_folder t then Ok (map fst (t_kids t)) else Err (OSErr ENOTDIR)
          | None => Err (OSErr ENOENT)
          end)
    sampleFS (Ok "/") (λ _ _, None) (λ _ _, Some (OSErr EEXIST)) (λ _ _, Some (OSErr (EOTHER 1)))
    (λ fd m, if deny h (UFchmod fd m) is Some e then Some e else if w_fds ws !! fd is Some _ then None else Some (OSErr (EOTHER 9))).

(** Every entry is this account's, a folder or a one-name file. *)
Definition all_own : Prop := ∀ pos t, t_at top pos = Some t → own_entry getuid (t_stat t).

(** The mode [protectModels] leaves. *)
Definition protected (st : Stat) : Z := Z.lor (Z.land (st_mode st) S_IFMT) (Z.ldiff (Z.land (st_mode st) 0xFFF) 0x12).

(** ** The world during the walk *)


Lemma replay_snoc h e : replay (h ++ [e]) = wstep (replay h) e.
Proof. unfold replay. by rewrite foldl_app. Qed.

Lemma replay_app h l : replay (h ++ l) = foldl wstep (replay h) l.
Proof. unfold replay. by rewrite foldl_app. Qed.

(** The entry held is the tree's entry at [pos]. *)
Definition entry_at (ws : wstate) (e : held) (pos : list string) : Prop :=
  w_fds ws !! h_fd e = Some pos /\ h_path e = render true (base ++ pos) /\ clean_list true (base ++ pos) /\
  ∃ t, t_at top pos = Some t /\ own_entry getuid (t_stat t) /\ h_dir e = t_folder t /\ h_mode e = Z.land (st_mode (t_stat t)) 0xFFF.

Definition quiet (ws : wstate) : Prop :=
  w_modes ws = ∅ /\ 3 <= w_next ws /\ ∀ fd pos, w_fds ws !! fd = Some pos → 3 <= fd < w_next ws.

(** Nothing was written, and what is held is of the tree. *)
Definition holding (all : list held) (h : list uevent) : Prop :=
  quiet (replay h) /\ Forall (λ e, ∃ pos, entry_at (replay h) e pos) all.

(** Nothing was written, and an entry is not this account's or a call failed. *)
Definition foreign (h : list uevent) : Prop := w_modes (replay h) = ∅ /\ (¬ all_own \/ Exists (λ e, failed e = true) h).

(** The last call failed and wrote nothing. *)
Lemma foreign_failed h new e : w_modes (replay (h ++ new)) = ∅ → e ∈ new → failed e = true → foreign (h ++ new).
Proof. intros Hm He Hf. split; [done|]. right. apply Exists_exists. exists e. split; [apply elem_of_app; by right|done]. Qed.

Lemma stat_quiet ws pos t : quiet ws → t_at top pos = Some t → stat_at ws pos = Ok (t_stat t).
Proof.
  intros [Hm _] Ht. unfold stat_at, mode_now. rewrite Ht, Hm, lookup_empty. by destruct (t_stat t).
Qed.

Lemma own_not_link st : own_entry getuid st → (kind_of st =? S_IFLNK) = false.
Proof. unfold own_entry, S_IFLNK, S_IFDIR, S_IFREG. intros (_ & [H | [H _]]); apply Z.eqb_neq; lia. Qed.

(** [open] of an entry of the tree: held when it is this account's, refused when not. *)
Lemma open_tree parent name pos t h : quiet (replay h) → place (replay h) parent name = Some pos →
  clean_list true (base ++ pos) → t_at top pos = Some t →
  adds (open treeWorld getuid parent (render true (base ++ pos)) name)
    (λ r new, if r.2 is Some _ then foreign (h ++ new)
              else ∃ e, r.1 = [e] /\ h_path e = render true (base ++ pos) /\
                        ∀ all, holding all h → holding (all ++ [e]) (h ++ new)) h.
Proof.
  intros Hq Hp Hc Ht. unfold open, fstatat, openat, fstat, close. repeat adds_step. cbn [treeWorld u_fstatat].
  unfold unless. destruct (deny h (UFstatat parent name)) as [er|] eqn:Ed.
  { repeat adds_step. cbn [snd]. rewrite ?app_nil_r. eapply foreign_failed; [rewrite replay_app; apply Hq|by left|done]. }
  rewrite Hp. cbn [stat_opt]. rewrite (stat_quiet _ _ t) by done. destruct (judge _ _ (t_stat t)) eqn:Ej; repeat adds_step.
  { cbn [snd]. rewrite app_nil_r. split; [rewrite replay_snoc; apply Hq|]. left. intros Hall. rewrite (proj2 (judge_exact _ _ _)) in Ej; [done|].
    by apply (Hall pos). }
  apply judge_exact in Ej. cbn [treeWorld u_openat]. unfold unless.
  match goal with |- context [deny ?h1 ?q] => set (h1' := h1); destruct (deny h1' q) as [er|] eqn:Ed2 end.
  { assert (foreign (h ++ [EvFstatat parent name (Ok (t_stat t)); EvOpenat parent name (openFlags (t_stat t)) (Err er)])) as Hfor.
    { eapply foreign_failed; [rewrite replay_app; apply Hq|right; by left|done]. }
    destruct (errors_is_errno er ELOOP); repeat adds_step; cbn [snd]; exact Hfor. }
  subst h1'. rewrite replay_snoc. cbn [wstep]. rewrite Hp. cbn [entry_of].
  rewrite Ht, own_not_link by done.
  set (ws := mkW (<[w_next (replay h) := pos]> (w_fds (replay h))) (w_modes (replay h)) (w_next (replay h) + 1)).
  assert (∀ a b, replay ((h ++ [EvFstatat parent name a]) ++ [EvOpenat parent name b (Ok (w_next (replay h)))]) = ws) as Hws
    by (intros; rewrite !replay_snoc; cbn; by rewrite Hp).
  assert (quiet ws) as Hq'.
  { destruct Hq as (Hm & Hn & Hf). split_and!; [done|cbn; lia|]. intros fd q. cbn. destruct (decide (fd = w_next (replay h))) as [-> | Hne];
      [lia|]. rewrite lookup_insert_ne by done. intros Hl%Hf. lia. }
  repeat adds_step. cbn [treeWorld u_fstat]. unfold unless.
  match goal with |- context [deny ?h2 ?q] => destruct (deny h2 q) as [er|] eqn:Ed3 end.
  { repeat adds_step. cbn [snd]. rewrite app_nil_r. apply (foreign_failed _ _ (EvFstat (w_next (replay h)) (Err er))); [|by do 2 right; left|done].
    rewrite replay_app. cbn [foldl app wstep]. rewrite Hp. apply Hq. }
  rewrite !Hws. assert (w_fds ws !! w_next (replay h) = Some pos) as -> by apply lookup_insert_eq.
  rewrite (stat_quiet ws pos t) by done. rewrite !Z.eqb_refl. cbn [negb orb]. adds_step.
  rewrite (proj2 (judge_exact _ _ _)) by done. cbn [snd fst]. eexists. split_and!; [done|done|]. intros all [_ Hall].
  rewrite !app_nil_r, !app_assoc. unfold holding. rewrite replay_snoc, Hws. cbn [wstep]. split; [done|]. apply Forall_app. split.
  - eapply Forall_impl; [exact Hall|]. intros e (q & Hfd & Hrest). exists q. split; [|done]. cbn.
    destruct Hq as (_ & _ & Hf). specialize (Hf _ _ Hfd). by rewrite lookup_insert_ne by lia.
  - apply Forall_singleton. exists pos. split; [apply lookup_insert_eq|]. split_and!; [done|done|]. exists t. by split_and!.
Qed.

(** ** The walk over the tree *)

Hypothesis names_ok : t_names top.
Hypothesis base_ok : clean_list true base.

(** The tree below the path of an entry. *)
Definition sub (e : held) : option tree := entry_of (pos_of base (elements (h_path e))).

Lemma pos_of_render pos : clean_list true (base ++ pos) → pos_of base (elements (render true (base ++ pos))) = Some pos.
Proof.
  intros Hc. rewrite elements_render by done. unfold pos_of. rewrite take_app_length, drop_app_length. by rewrite decide_True.
Qed.

Lemma entry_sub ws e pos : entry_at ws e pos → sub e = t_at top pos.
Proof. intros (_ & Hp & Hc & _). unfold sub. by rewrite Hp, pos_of_render. Qed.

Lemma entry_pos ws e pos pos' : entry_at ws e pos → clean_list true (base ++ pos') → h_path e = render true (base ++ pos') → pos = pos'.
Proof.
  intros (_ & Hp & Hc & _) Hc' Hp'. rewrite Hp in Hp'. apply (f_equal (λ p, pos_of base (elements p))) in Hp'.
  rewrite !pos_of_render in Hp' by done. by injection Hp'.
Qed.

(** A name of a folder. *)
Definition kid (e : held) (n : string) : Prop := ∃ t c, sub e = Some t /\ assoc n (t_kids t) = Some c.

Definition weight (e : held) : nat := match sub e with Some t => t_size t | None => 1 end.
Definition cost (e : held) (n : string) : nat :=
  match sub e with Some t => match assoc n (t_kids t) with Some c => t_size c | None => 0 end | None => 0 end.

Lemma holding_in all h e : holding all h → e ∈ all → ∃ pos, entry_at (replay h) e pos.
Proof. intros [_ Hall] He. rewrite Forall_forall in Hall. auto. Qed.

(** What listing a folder gives, and what opening one of its names does. *)
Lemma list_tree x all h : x ∈ all → h_dir x = true → holding all h →
  adds (listEntry treeWorld x)
    (λ r new, if r is Ok names then (∃ t, sub x = Some t /\ t_names t /\ names = map fst (t_kids t)) /\ holding all (h ++ new)
              else foreign (h ++ new)) h.
Proof.
  intros Hx Hd Hh. destruct (holding_in _ _ _ Hh Hx) as (pos & He). pose proof (entry_sub _ _ _ He) as Hs.
  destruct He as (_ & _ & _ & t & Ht & _ & Hf & _). rewrite Ht in Hs. unfold listEntry, readDir. adds_step.
  cbn [treeWorld u_readDir]. unfold unless. destruct (deny h (UReadDir (h_path x))) as [er|].
  { eapply foreign_failed; [rewrite replay_app; apply Hh|by left|done]. }
  fold (sub x). rewrite Hs, <- Hf, Hd. split.
  - exists t. split_and!; [done|by eapply t_names_at|done].
  - unfold holding in *. by rewrite replay_snoc.
Qed.

Lemma visit_tree x n all h : x ∈ all → h_dir x = true → kid x n → holding all h →
  adds (openChild treeWorld getuid x n)
    (λ r new, if r.2 is Some _ then foreign (h ++ new)
              else holding (all ++ r.1) (h ++ new) /\ ∃ e, r.1 = [e] /\ h_path e = JoinPath (h_path x) n /\ weight e = cost x n) h.
Proof.
  intros Hx Hd (t & c & Hs & Hc) Hh. destruct (holding_in _ _ _ Hh Hx) as (pos & He). pose proof (entry_sub _ _ _ He) as Hs'.
  destruct He as (Hfd & Hp & Hcl & t' & Ht & _ & Hf & _). assert (t' = t) as -> by congruence.
  assert (plain_name n) as Hn.
  { destruct (t_names_own t) as [_ Hpl]; [by eapply t_names_at|]. rewrite Forall_forall in Hpl. apply Hpl. by eapply assoc_fst. }
  assert (clean_list true (base ++ (pos ++ [n]))) as Hcl' by (rewrite app_assoc; by apply clean_list_app_name).
  assert (t_at top (pos ++ [n]) = Some c) as Hat by (by rewrite t_at_snoc, Ht, <- Hf, Hd).
  unfold openChild. rewrite Hp, JoinPath_snoc, <- app_assoc by done. eapply adds_mono; [|apply (open_tree _ _ _ c)]; [|apply Hh| |done|done].
  - intros [es [e|]] new; cbn [fst snd]; [done|]. intros (e & -> & Hpe & Hall). split; [by apply Hall|]. exists e. split_and!; [done|done|].
    unfold weight, cost, sub at 1. rewrite Hpe, pos_of_render by done. cbn [entry_of]. by rewrite Hat, Hs, Hc.
  - unfold place. destruct Hh as [(_ & _ & Hr) _]. specialize (Hr _ _ Hfd). rewrite Hfd.
    replace (h_fd x =? AT_FDCWD) with false; [done|]. symmetry. apply Z.eqb_neq. unfold AT_FDCWD. lia.
Qed.

(** The listing of a folder of the tree. *)
Definition listing (e : held) (names : list string) (_ : uevent) : Prop :=
  ∃ t, sub e = Some t /\ names = map fst (t_kids t).

Lemma weight_pos e : (0 < weight e)%nat.
Proof. unfold weight. destruct (sub e) as [[]|]; cbn; lia. Qed.

(** The walk ends: refused when an entry is foreign, else with the whole tree held. *)
Lemma scan_tree fuel all h : holding all h → (sum_list_with weight all <= fuel)%nat →
  adds (scanLoop h_dir (listEntry treeWorld) (openChild treeWorld getuid) fuel 0 all)
    (λ r new, match r.2 with
              | Refused _ => foreign (h ++ new)
              | Running => False
              | Scanned => holding r.1 (h ++ new) /\ (∃ es, r.1 = all ++ es) /\ walked h_dir listing child (length r.1) r.1 new
              end) h.
Proof.
  intros Hh Hf. set (F := λ (_ : list held) h, foreign h).
  assert (∀ x all new, x ∈ all → h_dir x = true → holding all new →
    adds (listEntry treeWorld x) (λ r new', if r is Ok names then holding all (new ++ new') /\ Forall (kid x) names else F all (new ++ new')) ([] ++ new)) as Hl.
  { intros x all0 new Hx Hd Hn. eapply adds_mono; [|by apply (list_tree x all0)]. intros [names|er] new'; [|done]. intros ((t & Hs & Ht & ->) & Hh'). split; [done|].
    apply Forall_forall. intros n (c & Hc)%assoc_name. by exists t, c. }
  assert (∀ x n all new, x ∈ all → h_dir x = true → kid x n → holding all new →
    adds (openChild treeWorld getuid x n) (λ r new', if r.2 is Some _ then F (all ++ r.1) (new ++ new') else holding (all ++ r.1) (new ++ new')) ([] ++ new)) as Hv.
  { intros x n all0 new Hx Hd Hk Hn. eapply adds_mono; [|by apply (visit_tree x n all0)]. intros [es [e|]] new'; cbn; [done|]. by intros [? _]. }
  eapply adds_mono; [|eapply adds_and; [|eapply adds_and]].
  2: apply (scanLoop_keeps _ _ _ [] holding F kid Hl Hv fuel 0 all h Hh).
  2: apply (scanLoop_ends _ _ _ [] holding F kid Hl Hv weight cost) with (new := h); [..|apply weight_pos|done|done].
  4: apply (scanLoop_walked h_dir _ _ listing child) with (new := []); [..|lia|intros j x Hj; lia].
  - intros [all' o] new ([Hk Hes] & He & Hw); cbn in *. destruct o; [by auto|done|done].
  - intros x all0 new Hx Hd Hn. eapply adds_mono; [|by apply (list_tree x all0)]. intros [names|er] new'; [|done]. intros ((t & Hs & Ht & ->) & _).
    unfold weight, cost. rewrite Hs, kids_size by (by apply t_names_own). destruct t. cbn. lia.
  - intros x n all0 new Hx Hd Hk Hn. eapply adds_mono; [|by apply (visit_tree x n all0)]. intros [es [e|]] new'; cbn; [done|].
    intros (_ & e & -> & _ & Hw) _. cbn. lia.
  - intros x h0. unfold listEntry, readDir. adds_step. cbn [treeWorld u_readDir]. unfold unless.
    destruct (deny h0 (UReadDir (h_path x))); [done|]. fold (sub x). unfold listing.
    destruct (sub x) as [t|]; [|done]. destruct (t_folder t); [|done]. apply Exists_cons_hd. by exists t.
  - intros x n h0. unfold openChild. eapply adds_mono; [|apply open_spec]. intros [es oe] new1 (_ & _ & Hg1) Hok.
    destruct Hg1 as (e & Hes & He & _); [done|]. cbn in Hes. subst es. exists e. split; [by left|done].
Qed.

(** Every position of the tree is among the entries. *)
Lemma scanned_covers top_ es all h new : holding all h → all = top_ :: es → h_path top_ = render true (base ++ []) →
  walked h_dir listing child (length all) all new →
  ∀ pos t, t_at top pos = Some t → clean_list true (base ++ pos) /\ ∃ e, e ∈ all /\ entry_at (replay h) e pos.
Proof.
  intros Hh Hall Htop Hw. induction pos as [|n pos IH] using rev_ind; intros t Ht.
  - rewrite app_nil_r. split; [done|]. exists top_. rewrite Hall. split; [by left|].
    destruct (holding_in all h top_ Hh) as (pos & He); [rewrite Hall; by left|].
    assert (pos = []) as ->; [|done]. eapply entry_pos; [done| |done]. by rewrite app_nil_r.
  - rewrite t_at_snoc in Ht. destruct (t_at top pos) as [s|] eqn:Hs; [|done]. destruct (t_folder s) eqn:Hf; [|done].
    destruct (IH s eq_refl) as (Hc & e & Hin & He). pose proof (entry_sub _ _ _ He) as Hsub. pose proof He as (_ & Hp & _ & s' & Hs' & _ & Hd & _).
    assert (s' = s) as -> by congruence. apply list_elem_of_lookup_1 in Hin as (j & Hj).
    destruct (Hw j e (lookup_lt_Some _ _ _ Hj) Hj) as (names & (ev & _ & t' & Ht' & ->)%Exists_exists & Hkids); [by rewrite Hd|].
    assert (t' = s) as -> by congruence. destruct (Hkids n) as (c & Hcin & Hcp); [by eapply assoc_fst|].
    destruct (t_names_own s) as [_ Hpl]; [by eapply t_names_at|]. rewrite Forall_forall in Hpl.
    assert (plain_name n) as Hn by (apply Hpl; by eapply assoc_fst).
    rewrite app_assoc. split; [by apply clean_list_app_name|]. exists c. split; [done|].
    destruct (holding_in _ _ _ Hh Hcin) as (q & Hq). assert (q = pos ++ [n]) as ->; [|done]. eapply entry_pos; [done|..].
    + rewrite app_assoc. by apply clean_list_app_name.
    + unfold child in Hcp. by rewrite Hcp, Hp, JoinPath_snoc, app_assoc.
Qed.

(** ** Writing the modes *)

(** What is written at a position, wherever it is written. *)
Definition target (t : tree) : Z := Z.ldiff (Z.land (st_mode (t_stat t)) 0xFFF) 0x12.
Definition tame (ws : wstate) : Prop := ∀ pos m, w_modes ws !! pos = Some m → ∃ t, t_at top pos = Some t /\ m = target t.

Lemma writeModes_tree all h : Forall (λ e, ∃ pos, entry_at (replay h) e pos) all → tame (replay h) →
  adds (writeModes treeWorld all)
    (λ r new, tame (replay (h ++ new)) /\ (r ≠ None → Exists (λ e, unwritten e = true) new) /\
      (∀ pos, is_Some (w_modes (replay h) !! pos) → is_Some (w_modes (replay (h ++ new)) !! pos)) /\
      (r = None → ∀ e pos, e ∈ all → w_fds (replay h) !! h_fd e = Some pos → is_Some (w_modes (replay (h ++ new)) !! pos))) h.
Proof.
  revert h. induction all as [|e all IH]; intros h Hall Ht; cbn [writeModes].
  { adds_step. rewrite app_nil_r. split_and!; auto; [done|]. intros _ e pos He. by apply not_elem_of_nil in He. }
  apply Forall_cons in Hall as [(pos & He) Hall]. pose proof He as (Hfd & _ & _ & t & Hat & _ & _ & Hm).
  unfold fchmod. repeat adds_step. cbn [treeWorld u_fchmod]. destruct (deny h (UFchmod (h_fd e) (Z.ldiff (h_mode e) 0x12))) as [er|].
  { adds_step. rewrite replay_app. split_and!; [done|intros _; by apply Exists_cons_hd|done|done]. }
  rewrite Hfd.
  set (h1 := h ++ [_]). assert (replay h1 = mkW (w_fds (replay h)) (<[pos := Z.ldiff (h_mode e) 0x12]> (w_modes (replay h))) (w_next (replay h))) as H1.
  { unfold h1. rewrite replay_snoc. cbn [wstep]. by rewrite Hfd. }
  eapply adds_mono; [|apply (IH h1)].
  - intros r new (Ht' & Hf & Hk & Hin). rewrite app_assoc. fold h1. rewrite H1 in Hk, Hin. cbn in Hk, Hin.
    split_and!; [done|intros Hr; apply Exists_cons_tl; auto| |].
    + intros q Hq. apply Hk. destruct (decide (pos = q)) as [->|]; [by rewrite lookup_insert_eq|by rewrite lookup_insert_ne].
    + intros Hr e' q [-> | He']%elem_of_cons Hq; [|by eapply Hin]. rewrite Hfd in Hq. injection Hq as <-. apply Hk. by rewrite lookup_insert_eq.
  - eapply Forall_impl; [exact Hall|]. intros e' (q & Hq). exists q. unfold entry_at in *. by rewrite H1.
  - intros q m. rewrite H1. cbn. destruct (decide (pos = q)) as [->|]; [|rewrite lookup_insert_ne by done; apply Ht].
    rewrite lookup_insert_eq. intros [= <-]. exists t. split; [done|]. by rewrite Hm.
Qed.

Lemma closeAll_tree all h : adds (closeAll all) (λ _ new, w_modes (replay (h ++ new)) = w_modes (replay h)) h.
Proof.
  revert h. induction all as [|e all IH]; intros h; cbn [closeAll]; [adds_step; by rewrite app_nil_r|]. unfold close. repeat adds_step.
  eapply adds_mono; [|apply IH]. cbn beta. intros _ new H. rewrite app_assoc, H, replay_snoc. done.
Qed.

(** What a call leaves behind: everything protected; or nothing changed, because of an
    entry or a call that failed; or, when a mode could not be written, every entry as it
    was or protected. *)
Definition settled (r : option (option err)) (h : list uevent) : Prop :=
  (t_folder top = true /\ all_own /\ r = Some None /\
   ∀ pos t, t_at top pos = Some t → mode_now (replay h) pos (t_stat t) = protected (t_stat t)) \/
  ((¬ (t_folder top = true /\ all_own) \/ Exists (λ e, failed e = true) h) /\ (∃ e, r = Some (Some e)) /\ w_modes (replay h) = ∅) \/
  (t_folder top = true /\ all_own /\ (∃ e, r = Some (Some e)) /\ Exists (λ e, unwritten e = true) h /\ tame (replay h)).

Lemma refused_tree all e h : w_modes (replay h) = ∅ → ¬ (t_folder top = true /\ all_own) \/ Exists (λ e, failed e = true) h →
  adds (_ ← closeAll all; mret (Some (Some e))) (λ r new, settled r (h ++ new)) h.
Proof.
  intros Hm Hn. adds_step. eapply adds_mono; [|apply closeAll_tree]. intros u new Hc. adds_step. rewrite app_nil_r. right; left.
  split_and!; [|by eexists|by rewrite Hc]. destruct Hn as [?|?]; [by left|right]. by apply Exists_app; left.
Qed.

Lemma foreign_refused h : foreign h → ¬ (t_folder top = true /\ all_own) \/ Exists (λ e, failed e = true) h.
Proof. intros [_ [Hn|He]]; [left; by intros [_ ?]|by right]. Qed.

Lemma protect_tree fuel : (t_size top <= fuel)%nat → adds (protectModels treeWorld getuid fuel dir) settled [].
Proof.
  intros Hfuel. unfold protectModels. adds_step. assert (quiet (replay [])) as Hq by (split_and!; [done|cbn; lia|by intros ? ?]).
  assert (place (replay []) AT_FDCWD dir = Some []) as Hp by (unfold place; cbn -[String.eqb dir]; by rewrite String.eqb_refl).
  pose proof (open_tree AT_FDCWD dir [] top [] Hq Hp) as Hopen. rewrite app_nil_r in Hopen.
  eapply adds_mono; [|exact (Hopen base_ok eq_refl)]. intros [all [e|]] new Ho; cbn [fst snd] in Ho.
  { apply (refused_tree all e new); [apply Ho|by apply foreign_refused]. }
  destruct Ho as (e & -> & Hpe & Hall). rewrite <- (app_nil_r base) in Hpe. specialize (Hall [] (conj Hq (Forall_nil_2 _))). cbn [app] in Hall |- *.
  destruct (holding_in _ _ e Hall) as (pos & He); [by left|]. assert (pos = []) as -> by (eapply entry_pos; [done|by rewrite app_nil_r|done]).
  pose proof (entry_sub _ _ _ He) as Hsub. destruct He as (_ & _ & _ & t & Ht & _ & Hd & _). injection Ht as <-.
  cbn [forallb]. rewrite Hd, andb_true_r. destruct (t_folder top) eqn:Hf; cbn [negb].
  2: { apply (refused_tree [e] _ new); [by apply Hall|]. left. intros [? _]; congruence. }
  adds_step. eapply adds_mono; [|apply (scan_tree fuel [e] new Hall)].
  2: { cbn. unfold weight. rewrite Hsub. cbn. lia. }
  intros [all [|er|]] new1 Hs; cbn [fst snd] in Hs; [| |done].
  2: { eapply adds_mono; [|apply (refused_tree all er (new ++ new1)); [apply Hs|by apply foreign_refused]].
       intros r new2 Hr. by rewrite app_assoc. }
  destruct Hs as (Hh & (es & Hes) & Hw). pose proof (scanned_covers e es all _ _ Hh Hes Hpe Hw) as Hcov.
  adds_step. eapply adds_mono; [|apply (writeModes_tree all (new ++ new1)); [apply Hh|]].
  2: { intros pos m. destruct Hh as [(Hm & _) _]. by rewrite Hm, lookup_empty. }
  assert (all_own) as Hown.
  { intros pos t Hat. destruct (Hcov pos t Hat) as (_ & e' & _ & _ & _ & _ & t' & Ht' & Ho & _). by assert (t' = t) as <- by congruence. }
  intros r new2 (Htame & Hfail & _ & Hwr). adds_step. eapply adds_mono; [|apply closeAll_tree]. intros u new3 Hcl. adds_step.
  rewrite app_nil_r, !app_assoc. destruct r as [er|].
  { right; right. split_and!; [done|done|by eexists| |].
    - rewrite !Exists_app. left; right. by apply Hfail.
    - intros pos m. rewrite Hcl. apply Htame. }
  left. split_and!; [done|done|done|]. intros pos t Hat. destruct (Hcov pos t Hat) as (_ & e' & Hin & Hfd & _).
  destruct (Hwr eq_refl e' pos Hin Hfd) as (m & Hm). destruct (Htame pos m Hm) as (t' & Ht' & ->). assert (t' = t) as -> by congruence.
  unfold mode_now. rewrite Hcl, Hm. done.
Qed.

(** The mode left has no write bit for group or others, and is otherwise the mode
    found. *)
Lemma protected_bits st : 0 <= st_mode st < 2 ^ 16 → protected st = Z.ldiff (st_mode st) 0x12.
Proof.
  intros Hr. unfold protected, S_IFMT. apply Z.bits_inj'. intros n Hn.
  rewrite Z.lor_spec, !Z.ldiff_spec, !Z.land_spec. destruct (decide (16 <= n)) as [Hl|].
  { replace (Z.testbit (st_mode st) n) with false; [done|]. symmetry. rewrite <- (Z.mod_small (st_mode st) (2 ^ 16)) by lia.
    apply Z.mod_pow2_bits_high. lia. }
  assert (n ∈ seqZ 0 16) as Hin by (apply elem_of_seqZ; lia). vm_compute in Hin.
  repeat (apply elem_of_cons in Hin as [-> | Hin]; [vm_compute (Z.testbit 0xF000 _); vm_compute (Z.testbit 0xFFF _); vm_compute (Z.testbit 0x12 _);
    by destruct (Z.testbit (st_mode st) _)|]). by apply not_elem_of_nil in Hin.
Qed.
End Tree.

(** C14: [protectModels] on a tree nobody else changes, whatever calls fail meanwhile.
    With one unit of fuel per entry it returns. When it succeeds, the top is a folder,
    every entry below is a folder or a one-name file of this account, and every entry,
    however deep, has the mode it had less the write bits of group and others. When an
    entry is anything else, it refuses and no mode has changed. When it refuses at all,
    that is why, or a system call failed; and unless the call that failed was the
    writing of a mode, no mode has changed. Whatever happens, every entry has the mode
    it had or that mode less the write bits of group and others. *)
Theorem model_folder_protected top base deny getuid fuel :
  t_names top → clean_list true base → (∀ pos t, t_at top pos = Some t → 0 <= st_mode (t_stat t) < 2 ^ 16) →
  (t_size top <= fuel)%nat →
  let '(r, h) := protectModels (treeWorld top base deny) getuid fuel (dir base) [] in
  let accepted := t_folder top = true /\ all_own top getuid in
  let now := mode_now (replay base h) in
  r ≠ None /\
  (r = Some None → accepted /\ ∀ pos t, t_at top pos = Some t → now pos (t_stat t) = Z.ldiff (st_mode (t_stat t)) 0x12) /\
  (¬ accepted → r ≠ Some None /\ ∀ pos st, now pos st = st_mode st) /\
  (r ≠ Some None → ¬ accepted \/ Exists (λ e, failed e = true) h) /\
  (r ≠ Some None → ¬ Exists (λ e, unwritten e = true) h → ∀ pos st, now pos st = st_mode st) /\
  (∀ pos t, t_at top pos = Some t → now pos (t_stat t) = st_mode (t_stat t) \/ now pos (t_stat t) = Z.ldiff (st_mode (t_stat t)) 0x12).
Proof.
  intros Hn Hb Hm Hf. destruct (protect_tree top base deny getuid Hn Hb fuel Hf) as (new & Hh & Hs).
  destruct (protectModels _ _ _ _ _) as [r h]. cbn in Hh, Hs. subst h. cbn zeta.
  assert (w_modes (replay base new) = ∅ → ∀ pos st, mode_now (replay base new) pos st = st_mode st) as Hsame.
  { intros He pos st. unfold mode_now. by rewrite He, lookup_empty. }
  destruct Hs as [(Ht & Ho & -> & Hmode) | [(Hno & (e & ->) & Hmode)|(Ht & Ho & (e & ->) & Hw & Htame)]].
  - assert (∀ pos t, t_at top pos = Some t → mode_now (replay base new) pos (t_stat t) = Z.ldiff (st_mode (t_stat t)) 0x12) as Hp.
    { intros pos t Hat. rewrite (Hmode pos t Hat). apply protected_bits. by eapply Hm. }
    split_and!; auto; try done. intros []. by split.
  - split_and!; auto; try done.
  - split_and!; try done; [by intros []|..].
    + intros _. right. eapply Exists_impl; [exact Hw|]. intros [] Hu; try done.
    + intros pos t Hat. unfold mode_now. destruct (w_modes (replay base new) !! pos) as [m|] eqn:E; [|by left].
      right. destruct (Htame pos m E) as (t' & Ht' & ->). assert (t' = t) as -> by congruence.
      rewrite <- protected_bits by (by eapply Hm). done.
Qed.

(** A models folder with a subfolder, both group-writable. *)
Definition sampleTree : tree :=
  Node (mkStat 1 10 0x41FD 1000 2)
    [("a.gguf", Node (mkStat 1 11 0x81B6 1000 1) []);
     ("b", Node (mkStat 1 12 0x41FF 1000 2) [("c.bin", Node (mkStat 1 13 0x81B4 1000 1) [])])].

(** A kernel that refuses nothing, and one on which no mode can be written after the
    first. *)
Definition nothingFails : list uevent → ucall → option err := λ _ _, None.
Definition writesFail : list uevent → ucall → option err :=
  λ h q, match q with UFchmod _ _ => if existsb (λ e, match e with EvFchmod _ _ _ => true | _ => false end) h then Some (OSErr (EOTHER 1)) else None
         | _ => None end.

Example sample_half_written :
  let '(r, h) := protectModels (treeWorld sampleTree ["srv"; "models"] writesFail) 1000 4 "/srv/models" [] in
  (∃ e, r = Some (Some e)) /\ mode_now (replay ["srv"; "models"] h) [] (mkStat 1 10 0x41FD 1000 2) = 0x41ED /\
  mode_now (replay ["srv"; "models"] h) ["a.gguf"] (mkStat 1 11 0x81B6 1000 1) = 0x81B6.
Proof. vm_compute. split_and!; [by eexists|done|done]. Qed.

Lemma model_folder_protected_witness :
  let '(r, h) := protectModels (treeWorld sampleTree ["srv"; "models"] nothingFails) 1000 4 "/srv/models" [] in
  r = Some None /\ mode_now (replay ["srv"; "models"] h) ["b"; "c.bin"] (mkStat 1 13 0x81B4 1000 1) = 0x81A4.
Proof.
  pose proof (model_folder_protected sampleTree ["srv"; "models"] nothingFails 1000 4) as H.
  change (dir ["srv"; "models"]) with "/srv/models" in H.
  assert ((protectModels (treeWorld sampleTree ["srv"; "models"] nothingFails) 1000 4 "/srv/models" []).1 = Some None) as Hr
    by (vm_compute; reflexivity).
  destruct (protectModels _ _ _ _ _) as [r h]. cbn in Hr. subst r.
  destruct H as (_ & Hm & _).
  - cbn. split_and!; try done; try (repeat constructor; done); repeat (apply NoDup_cons; split); try apply NoDup_nil_2; try set_solver.
  - exists 0%nat, ["srv"; "models"]. split_and!; [done|by repeat constructor|done].
  - intros pos t Hat. destruct pos as [|n [|m pos]]; cbn -[String.eqb] in Hat.
    + injection Hat as <-. cbn. lia.
    + repeat (destruct (String.eqb _ _); [injection Hat as <-; cbn; lia|]). done.
    + repeat (destruct (String.eqb _ _)); cbn -[String.eqb] in Hat; try done. destruct (String.eqb m _); [|done].
      destruct pos; cbn in Hat; [injection Hat as <-; cbn; lia|done].
  - cbn. lia.
  - split; [done|]. apply (proj2 (Hm eq_refl) ["b"; "c.bin"] (Node (mkStat 1 13 0x81B4 1000 1) [])). vm_compute. reflexivity.
Defined.
