(* ===== verification/ModelRoots.v ===== *)
(** Which folders [CheckModelsRoot] lets be roots, on a Unix machine at rest. *)

From S2P Require Import Prelude GoStrings GoError GoFilepath PathIdentity Events UnixFiles ModelScan ModelFolders.

Section Roots.
Context (U : Unix) (getuid : Z).

Notation rest := (λ _ : list uevent, U).

(** [underRoot] at rest. *)
Definition underAtRest (p root : string) : result bool :=
  match @SameFile (u_files U) p root with
  | Ok true => Ok true
  | same =>
      match @Within (u_files U) p root with
      | Ok b => Ok b
      | Err w => Err (match same with Ok _ => w | Err e => e end)
      end
  end.

(** A path and everything above it, none of it a link. *)
Definition no_link (p : string) : Prop := ∃ st, u_lstat U p = Ok st /\ kind_of st ≠ S_IFLNK.
Definition no_link_above (p : string) : Prop :=
  ∀ cs i, clean_list true cs → p = render true cs → (i <= length cs)%nat → no_link (render true (take i cs)).

(** A root may be used when it is absolute, not the volume's own root, local and
    present; when this account's home, if it is known, is comparable with it, is
    neither it nor below it, and it is none of the home's own folders; when neither it
    nor anything above it is a link; and when it resolves to itself. *)
Definition usable_root (root : string) : Prop :=
  IsAbs root = true /\
  let r := Clean root in
  Dir r ≠ r /\ @localPath (u_files U) r = None /\ (∃ st, u_lstat U r = Ok st) /\
  (∀ home, u_home U = Ok home → home ≠ "" → r ∉ knownFolders (Clean home) /\ underAtRest (Clean home) r = Ok false) /\
  no_link_above r /\ @resolveLinks (u_files U) r = Ok r.

Lemma underRoot_rest p root h : adds (underRootOf (sameFile_unix rest) (within_unix rest) p root) (λ r _, r = underAtRest p root) h.
Proof.
  unfold underRootOf, sameFile_unix, within_unix, files, underAtRest. repeat adds_step.
  destruct (@SameFile _ p root) as [[]|]; repeat adds_step; try done; destruct (@Within _ p root); by adds_step.
Qed.

Lemma linkAbove_rest fuel cs h : clean_list true cs → (String.length (render true cs) <= fuel)%nat →
  adds (linkAbove rest fuel (render true cs)) (λ r _, r = None <-> ∀ i, (i <= length cs)%nat → no_link (render true (take i cs))) h.
Proof.
  revert cs h. induction fuel as [|fuel IH]; intros cs h Hc Hf; [pose proof (render_pos cs); lia|].
  cbn [linkAbove]. unfold lstat. repeat adds_step.
  assert (∀ e : err, ¬ no_link (render true cs) → Some e = None <-> ∀ i, (i <= length cs)%nat → no_link (render true (take i cs))) as Hbad.
  { intros e Hl. split; [done|]. intros Hall. specialize (Hall (length cs)). rewrite take_ge in Hall by lia. destruct Hl. auto. }
  destruct (u_lstat U (render true cs)) as [st|e] eqn:El; [|adds_step; apply Hbad; intros (st & Hst & _); congruence].
  destruct (kind_of st =? S_IFLNK) eqn:Ek; to_prop; [adds_step; apply Hbad; intros (st' & Hst & Hk); congruence|].
  assert (no_link (render true cs)) as Hself by (by exists st). destruct (snoc_cases cs) as [->|(cs' & c & ->)].
  { change (render true []) with "/". rewrite Dir_root, String.eqb_refl. adds_step. split; [|done]. intros _ i Hi. cbn in Hi. by assert (i = 0%nat) as -> by lia. }
  rewrite Dir_snoc by done. rewrite (proj2 (String.eqb_neq _ _)) by (by apply render_snoc_ne).
  destruct (clean_list_snoc _ _ Hc) as [Hc' _]. eapply adds_mono; [|apply (IH cs' _ Hc' (fuel_step _ _ _ Hc Hf))].
  intros r _ ->. rewrite length_app. cbn. split; intros Hall i Hi.
  - destruct (decide (i <= length cs')%nat); [rewrite take_app_le by lia; by apply Hall|].
    by rewrite take_ge by (rewrite length_app; cbn; lia).
  - specialize (Hall i). rewrite take_app_le in Hall by lia. apply Hall. lia.
Qed.

Lemma Clean_nonempty p : String.eqb (Clean p) "" = false.
Proof.
  apply String.eqb_neq. destruct (Clean_render p) as (cs & Hc & ->). unfold render. destruct (IsAbs p); [done|].
  destruct cs as [|c cs]; [done|]. destruct Hc as ([|k] & names & Hcs & Hn & _); cbn in Hcs; subst.
  - apply Forall_cons in Hn as [(_ & Hne & _) _]. cbn. by destruct cs, c.
  - injection Hcs as -> ->. by destruct k, names.
Qed.

(** What the home forbids. *)
Lemma home_rest root r h :
  adds (match r with
        | Err _ => mret None
        | Ok home =>
            if String.eqb home "" then mret None
            else
              let home := Clean home in
              if existsb (String.eqb root) (knownFolders home) then mret (Some (Plain "it is a known folder"))
              else
                h ← holdsOf (underRootOf (sameFile_unix rest) (within_unix rest)) root [home];
                mret (if h : bool then Some (Plain "it holds this account's home") else None)
        end)
    (λ o _, o = None <-> ∀ home, r = Ok home → home ≠ "" → root ∉ knownFolders (Clean home) /\ underAtRest (Clean home) root = Ok false) h.
Proof.
  destruct r as [home|e]; [|by adds_step]. destruct (String.eqb home "") eqn:Eh; to_prop; [adds_step; split; [|done]; by intros _ h' [= <-]|].
  cbn [holdsOf]. rewrite Clean_nonempty. destruct (existsb _ _) eqn:Ek.
  { adds_step. split; [done|]. intros Hall. destruct (Hall home eq_refl Eh) as [Hn _]. apply existsb_exists in Ek as (k & Hk & Heq). to_prop. subst.
    destruct Hn. by apply list_elem_of_In. }
  assert (root ∉ knownFolders (Clean home)) as Hnot.
  { intros Hin. apply list_elem_of_In in Hin. assert (existsb (String.eqb root) (knownFolders (Clean home)) = true) as Ht; [|congruence].
    apply existsb_exists. exists root. split; [done|apply String.eqb_refl]. }
  repeat adds_step. eapply adds_mono; [|apply underRoot_rest]. intros o new ->.
  destruct (underAtRest (Clean home) root) as [[]|] eqn:Eu; repeat adds_step; split; try done;
    try (intros Hall; destruct (Hall home eq_refl Eh); congruence). by intros _ h' [= <-].
Qed.

Lemma checkRoot_rest root h : IsAbs root = true → Clean root = root →
  adds (checkRoot rest root)
    (λ o _, o = None <->
      (∀ home, u_home U = Ok home → home ≠ "" → root ∉ knownFolders (Clean home) /\ underAtRest (Clean home) root = Ok false) /\
      no_link_above root /\ @resolveLinks (u_files U) root = Ok root) h.
Proof.
  intros Ha Hcl. unfold checkRoot, userHomeDir, files. repeat adds_step. eapply adds_mono; [|apply (home_rest root (u_home U))].
  intros [e|] new Hhome; cbn [app]; [adds_step; split; [done|]; intros (Hh & _); apply Hhome in Hh; done|].
  destruct (Clean_abs root Ha) as (cs & Hc & Hr). rewrite Hcl in Hr. adds_step.
  assert (no_link_above root <-> ∀ i, (i <= length cs)%nat → no_link (render true (take i cs))) as Habove.
  { split; [intros H i; by apply (H cs)|]. intros H cs' i Hc' Hr' Hi.
    assert (cs' = cs) as -> by (rewrite <- (elements_render true cs'), <- Hr', Hr by done; by apply elements_render). auto. }
  assert (∀ home, u_home U = Ok home → home ≠ "" → root ∉ knownFolders (Clean home) /\ underAtRest (Clean home) root = Ok false) as Hh
    by (by apply Hhome).
  eapply adds_mono; [|rewrite Hr at 1 2; apply (linkAbove_rest _ cs); [done|done]]. intros [e|] new' Hl.
  { adds_step. split; [done|]. intros (_ & Hab & _). by pose proof (proj2 Hl (proj1 Habove Hab)). }
  adds_step. adds_step. destruct (@resolveLinks _ root) as [final|e]; adds_step; [|split; [done|naive_solver]].
  destruct (String.eqb final root) eqn:Ef; cbn [negb]; to_prop; subst; split; try done; [|intros (_ & _ & [= ?]); done].
  intros _. split_and!; [done| |done]. by apply (proj2 Habove), (proj1 Hl).
Qed.

(** [CheckModelsRoot] on Unix, on a machine at rest: it accepts a root exactly
    when it may be used, that is, when it is absolute, local, present, no volume root,
    neither this account's home nor above it nor one of its own folders, with no link
    at it or above it, and spelled as it resolves. A home that cannot be compared with
    it refuses it. *)
Theorem models_root_exact root h :
  (@CheckModelsRoot uevent (unixModels rest getuid) root h).1 = None <-> usable_root root.
Proof.
  cut (adds (@CheckModelsRoot uevent (unixModels rest getuid) root) (λ o _, o = None <-> usable_root root) h).
  { by intros (new & _ & Ho). }
  unfold CheckModelsRoot, usable_root. cbn [mp_isAbs mp_clean mp_dir mp_localPath mp_lstat mp_checkRoot unixModels].
  destruct (IsAbs root) eqn:Ha; cbn [negb]; [|adds_step; by split; [|intros [? _]]].
  destruct (String.eqb (Dir (Clean root)) (Clean root)) eqn:Ed; to_prop; [adds_step; split; [done|]; by intros (_ & ? & _)|].
  unfold files, lstat. repeat adds_step. destruct (@localPath _ (Clean root)) eqn:El; [adds_step; split; [done|]; by intros (_ & _ & ? & _)|].
  repeat adds_step. destruct (u_lstat U (Clean root)) as [st|e] eqn:Es; cbn [err_of]; [|adds_step; split; [done|]; by intros (_ & _ & _ & (? & ?) & _)].
  adds_step. eapply adds_mono; [|apply checkRoot_rest; [by rewrite Clean_IsAbs|apply Clean_idem]].
  intros o new Ho. adds_step. destruct o as [e|]; cbn [refusal].
  - split; [done|]. intros (_ & _ & _ & _ & Hrest). apply Ho in Hrest. done.
  - split; [|done]. intros _. split_and!; eauto; apply Ho; done.
Qed.
End Roots.

(** The sample machine, whose [/link] leads to [/srv]. *)
Definition sampleUnix (home : result string) : Unix :=
  mkUnix (λ p, if String.eqb p "/link" then Ok (mkStat 2049 80 0xA1FF 0 1)
               else if String.eqb p "/" || String.eqb p "/srv" then Ok (mkStat 2049 77 0x41ED 0 3) else Err (OSErr ENOENT))
    (λ _ _, Err (OSErr ENOENT)) (λ _ _ _, Err (OSErr ENOENT)) (λ _, Err (OSErr ENOENT)) (λ _, Err (OSErr ENOENT))
    sampleFS home (λ _ _, None) (λ _ _, None) (λ _ _, None) (λ _ _, None).

(** [/srv] may be a root, not by way of the link, not when the home is in it under
    another name, and the volume's root never. *)
Example sample_roots :
  let ok home root := (@CheckModelsRoot uevent (unixModels (λ _, sampleUnix (Ok home)) 1000) root []).1 in
  ok "/home/me" "/srv/." = None /\ ok "/home/me" "/link" ≠ None /\ ok "/link/me" "/srv" ≠ None /\ ok "/home/me" "/" ≠ None.
Proof. vm_compute. by split_and!. Qed.

(** The home in [/srv] keeps [/srv] from being a root only while [os.UserHomeDir] can
    say where the home is: without it the home is not compared at all. *)
Theorem unknown_home_is_not_compared :
  let ok home := (@CheckModelsRoot uevent (unixModels (λ _, sampleUnix home) 1000) "/srv" []).1 in
  ok (Ok "/srv/me") ≠ None /\ ok (Err (Plain "$HOME is not defined")) = None.
Proof. vm_compute. by split_and!. Qed.
