(* ===== verification/WindowsSecurity.v ===== *)
(** Security descriptors of Windows, and the rules go/privatedir and go/trustedpath
    judge them by.

    The rules are the code's ([checkDescriptor] of privatedir_windows.go and of
    trustedpath_windows.go, [checkModelsDescriptor] of models_windows.go). What they
    are worth is measured against [grants], the access check Windows documents: a
    token asks for a right, the entries of the DACL that apply to it are read in
    order, the first that names the right decides, an owner may always read the
    descriptor and write the DACL, and without a DACL everything is granted. *)

From S2P Require Import Prelude GoStrings GoError.

(** A security identifier: its authority and sub-authorities. *)
Record SID := mkSID { sid_authority : Z; sid_subs : list Z }.

#[global] Instance SID_eq_dec : EqDecision SID.
Proof. solve_decision. Defined.

Definition Equals (a b : SID) : bool := bool_decide (a = b).

(** [windows.CreateWellKnownSid] of SYSTEM and of Administrators. *)
Definition systemSid : SID := mkSID 5 [18].
Definition administratorsSid : SID := mkSID 5 [32; 544].

(** [ACCESS_ALLOWED_ACE]. *)
Record ACE := mkACE { ace_type : Z; ace_flags : Z; ace_mask : Z; ace_sid : SID }.

#[global] Instance ACE_eq_dec : EqDecision ACE.
Proof. solve_decision. Defined.

Definition ACCESS_ALLOWED_ACE_TYPE : Z := 0.
Definition ACCESS_DENIED_ACE_TYPE : Z := 1.
Definition INHERIT_ONLY_ACE : Z := 0x8.
Definition SE_DACL_PROTECTED : Z := 0x1000.

(** A [SECURITY_DESCRIPTOR] as its accessors answer: [Owner], [Control], [DACL], and
    [GetAce] at each index. No DACL is [Ok None]. *)
Record SecurityDescriptor := mkSD {
  sd_owner : result (option SID);
  sd_control : result Z;
  sd_dacl : result (option (list (result ACE)))
}.

(** ** The rules *)

(** The owner rule all three share. *)
Definition ownerIs (ok : SID → bool) (sd : SecurityDescriptor) : option err :=
  match sd_owner sd with
  | Err e => Some e
  | Ok None => Some (Plain "it is owned by nobody")
  | Ok (Some owner) => if negb (ok owner) then Some (Plain "it is owned by another account") else None
  end.

(** The loop over a DACL: [judge_] decides about an entry, [None] to go on. *)
Fixpoint daclLoop (judge_ : ACE → option err) (aces : list (result ACE)) : option err :=
  match aces with
  | [] => None
  | Err e :: _ => Some e
  | Ok ace :: aces => match judge_ ace with Some e => Some e | None => daclLoop judge_ aces end
  end.

(** A private or a model folder's entry: an allow entry names an [allowed] account; a
    deny entry narrows access; any other is refused. *)
Definition allowedEntry (allowed : SID → bool) (ace : ACE) : option err :=
  if negb (ace_type ace =? ACCESS_ALLOWED_ACE_TYPE) then
    if ace_type ace =? ACCESS_DENIED_ACE_TYPE then None
    else Some (Plain "its DACL holds an entry of another type")
  else if negb (allowed (ace_sid ace)) then Some (Plain "its DACL admits another account")
  else None.

(** The rule of both folders: [user] owns it, its DACL is protected, and its entries
    name only the accounts allowed. *)
Definition folderDescriptor (allowed : SID → bool) (sd : SecurityDescriptor) (user : SID) : option err :=
  match ownerIs (λ o, Equals o user) sd with
  | Some e => Some e
  | None =>
      match sd_control sd with
      | Err e => Some e
      | Ok control =>
          if Z.land control SE_DACL_PROTECTED =? 0 then Some (Plain "its DACL inherits entries from its parent")
          else
            match sd_dacl sd with
            | Err e => Some e
            | Ok None => Some (Plain "it has no DACL, which admits everyone")
            | Ok (Some aces) => daclLoop (allowedEntry allowed) aces
            end
      end
  end.

(** [checkDescriptor] of privatedir_windows.go. *)
Definition checkDescriptor (sd : SecurityDescriptor) (user : SID) : option err :=
  folderDescriptor (λ sid, Equals sid user || Equals sid systemSid) sd user.

(** [checkModelsDescriptor] of models_windows.go. *)
Definition checkModelsDescriptor (sd : SecurityDescriptor) (user : SID) : option err :=
  folderDescriptor (λ sid, existsb (Equals sid) [systemSid; administratorsSid; user]) sd user.

(** [among] of trustedpath_windows.go. *)
Definition among (sid : SID) (trusted : list SID) : bool := existsb (Equals sid) trusted.

(** An entry of a trusted path: one that applies to the object itself gives an
    untrusted account no right of [mask]. *)
Definition trustedEntry (mask : Z) (trusted : list SID) (ace : ACE) : option err :=
  if negb (Z.land (ace_flags ace) INHERIT_ONLY_ACE =? 0) then None
  else if ace_type ace =? ACCESS_DENIED_ACE_TYPE then None
  else if negb (ace_type ace =? ACCESS_ALLOWED_ACE_TYPE) then Some (Plain "its DACL holds an entry of another type")
  else if negb (Z.land (ace_mask ace) mask =? 0) && negb (among (ace_sid ace) trusted) then Some (Plain "another account may change it")
  else None.

(** [checkDescriptor] of trustedpath_windows.go. *)
Definition checkTrustedDescriptor (sd : SecurityDescriptor) (mask : Z) (trusted : list SID) : option err :=
  match ownerIs (λ o, among o trusted) sd with
  | Some e => Some e
  | None =>
      match sd_dacl sd with
      | Err e => Some e
      | Ok None => Some (Plain "it has no DACL, which admits everyone")
      | Ok (Some aces) => daclLoop (trustedEntry mask trusted) aces
      end
  end.

(** ** The access check of Windows *)

Definition GENERIC_READ : Z := 0x80000000.
Definition GENERIC_WRITE : Z := 0x40000000.
Definition GENERIC_EXECUTE : Z := 0x20000000.
Definition GENERIC_ALL : Z := 0x10000000.
Definition DELETE : Z := 0x10000.
Definition READ_CONTROL : Z := 0x20000.
Definition WRITE_DAC : Z := 0x40000.
Definition WRITE_OWNER : Z := 0x80000.
Definition FILE_ALL_ACCESS : Z := 0x1F01FF.
Definition FILE_GENERIC_READ : Z := 0x120089.
Definition FILE_GENERIC_WRITE : Z := 0x120116.
Definition FILE_GENERIC_EXECUTE : Z := 0x1200A0.

(** Generic rights stand for rights of the file. *)
Definition generic (mask bit rights : Z) : Z := if Z.land mask bit =? 0 then 0 else rights.
Definition mapGeneric (mask : Z) : Z :=
  Z.lor mask (Z.lor (generic mask GENERIC_ALL FILE_ALL_ACCESS) (Z.lor (generic mask GENERIC_WRITE FILE_GENERIC_WRITE)
    (Z.lor (generic mask GENERIC_READ FILE_GENERIC_READ) (generic mask GENERIC_EXECUTE FILE_GENERIC_EXECUTE)))).

Section AccessCheck.
(** An entry of a type other than allow and deny may grant anything. *)
Context (other : ACE → Z → bool).

Fixpoint firstDecides (token : list SID) (aces : list ACE) (bit : Z) : bool :=
  match aces with
  | [] => false
  | ace :: aces =>
      if negb (Z.land (ace_flags ace) INHERIT_ONLY_ACE =? 0) then firstDecides token aces bit
      else if ace_type ace =? ACCESS_ALLOWED_ACE_TYPE then
        if bool_decide (ace_sid ace ∈ token) && Z.testbit (mapGeneric (ace_mask ace)) bit then true else firstDecides token aces bit
      else if ace_type ace =? ACCESS_DENIED_ACE_TYPE then
        if bool_decide (ace_sid ace ∈ token) && Z.testbit (mapGeneric (ace_mask ace)) bit then false else firstDecides token aces bit
      else other ace bit || firstDecides token aces bit
  end.

(** Whether a token with these accounts is granted the right [bit] on an object whose
    owner and DACL are these. *)
Definition grants (owner : SID) (dacl : option (list ACE)) (token : list SID) (bit : Z) : bool :=
  match dacl with
  | None => true
  | Some aces =>
      firstDecides token aces bit || (bool_decide (owner ∈ token) && (Z.testbit (Z.lor READ_CONTROL WRITE_DAC) bit))
  end.
End AccessCheck.

(** A descriptor whose accessors answer with this owner and DACL. *)
Definition describes (sd : SecurityDescriptor) (owner : SID) (aces : list ACE) : Prop :=
  sd_owner sd = Ok (Some owner) /\ sd_dacl sd = Ok (Some (Ok <$> aces)).

(** ** What the rules are worth *)

#[global] Instance Ok_inj {A} : Inj (=) (=) (@Ok A).
Proof. by intros a b [= ->]. Qed.

Lemma daclLoop_none judge_ aces : daclLoop judge_ aces = None <-> ∃ l, aces = Ok <$> l /\ Forall (λ a, judge_ a = None) l.
Proof.
  induction aces as [|[a|e] aces IH]; cbn.
  - split; [intros _; by exists []|done].
  - destruct (judge_ a) eqn:Ej; [split; [done|]; intros ([|a' l] & Hl & Hf); [done|]; injection Hl as -> ->; apply Forall_cons in Hf as [? _]; congruence|].
    rewrite IH. split; intros (l & Hl & Hf).
    + exists (a :: l). subst. split; [done|by constructor].
    + destruct l as [|a' l]; [done|]. injection Hl as -> ->. apply Forall_cons in Hf as [_ ?]. by exists l.
  - split; [done|]. intros ([|a l] & Hl & _); done.
Qed.

(** The folder rule, entry by entry. *)
Lemma folderDescriptor_exact allowed sd user :
  folderDescriptor allowed sd user = None <->
  ∃ aces control, describes sd user aces /\ sd_control sd = Ok control /\ Z.land control SE_DACL_PROTECTED ≠ 0 /\
    ∀ ace, ace ∈ aces → ace_type ace = ACCESS_DENIED_ACE_TYPE \/ (ace_type ace = ACCESS_ALLOWED_ACE_TYPE /\ allowed (ace_sid ace) = true).
Proof.
  unfold folderDescriptor, describes, ownerIs.
  assert (∀ ace, allowedEntry allowed ace = None <->
    ace_type ace = ACCESS_DENIED_ACE_TYPE \/ (ace_type ace = ACCESS_ALLOWED_ACE_TYPE /\ allowed (ace_sid ace) = true)) as Hent.
  { intros ace. unfold allowedEntry, ACCESS_DENIED_ACE_TYPE, ACCESS_ALLOWED_ACE_TYPE.
    destruct (ace_type ace =? 0) eqn:E1, (ace_type ace =? 1) eqn:E2, (allowed (ace_sid ace)) eqn:E3; cbn; to_prop; intuition (try done; lia). }
  destruct (sd_owner sd) as [[o|]|]; [|split; [done|]; intros (? & ? & (? & _) & _); done..].
  unfold Equals. destruct (bool_decide (o = user)) eqn:Eo; [apply bool_decide_eq_true in Eo; subst o|apply bool_decide_eq_false in Eo]; cbn [negb].
  2: { split; [done|]. intros (? & ? & ([= ?] & _) & _). done. }
  destruct (sd_control sd) as [c|]; [|split; [done|]; intros (? & ? & _ & ? & _); done].
  destruct (Z.land c SE_DACL_PROTECTED =? 0) eqn:Ec; to_prop; [split; [done|]; intros (? & ? & _ & [= <-] & ? & _); done|].
  destruct (sd_dacl sd) as [[aces|]|]; [|split; [done|]; intros (? & ? & (_ & ?) & _); done..].
  rewrite daclLoop_none. setoid_rewrite Hent. split.
  - intros (l & -> & Hl). exists l, c. rewrite Forall_forall in Hl. auto.
  - intros (l & c' & (_ & [= ->]) & _ & _ & Hl). exists l. rewrite Forall_forall. auto.
Qed.

(** A token none of whose accounts an allow entry names is granted nothing by it. *)
Lemma allowed_grants_nothing other allowed token aces bit :
  (∀ sid, sid ∈ token → allowed sid = false) →
  (∀ ace, ace ∈ aces → ace_type ace = ACCESS_DENIED_ACE_TYPE \/ (ace_type ace = ACCESS_ALLOWED_ACE_TYPE /\ allowed (ace_sid ace) = true)) →
  firstDecides other token aces bit = false.
Proof.
  intros Ht. induction aces as [|a aces IH]; [done|]. intros Ha. cbn [firstDecides].
  assert (firstDecides other token aces bit = false) as Hrest by (apply IH; intros x Hx; apply Ha; by right).
  destruct (negb _); [done|]. destruct (Ha a) as [Hd | [Hd Hal]]; [by left| |]; rewrite Hd; unfold ACCESS_DENIED_ACE_TYPE, ACCESS_ALLOWED_ACE_TYPE; cbn [Z.eqb].
  - by destruct (bool_decide _ && _).
  - rewrite bool_decide_false; [done|]. intros Hin%Ht. congruence.
Qed.

(** The owner's own rights go to no token without the owner. *)
Lemma grants_no_owner other owner aces token bit : owner ∉ token →
  firstDecides other token aces bit = false → grants other owner (Some aces) token bit = false.
Proof. intros Ho Hf. unfold grants. rewrite Hf, bool_decide_false by done. done. Qed.

(** A folder that passes admits nobody else: whoever is none of the allowed accounts
    is granted no right at all, reading included. *)
Lemma folder_admits_only other allowed sd user owner aces token bit :
  folderDescriptor allowed sd user = None → describes sd owner aces → allowed user = true →
  (∀ sid, sid ∈ token → allowed sid = false) → grants other owner (Some aces) token bit = false.
Proof.
  intros (aces' & c & [Ho' Ha'] & _ & _ & Hall)%folderDescriptor_exact [Ho Ha] Hu Ht. rewrite Ho in Ho'. injection Ho' as ->.
  rewrite Ha in Ha'. injection Ha' as Ha'. apply (inj (fmap Ok)) in Ha' as ->.
  apply grants_no_owner; [intros Hin%Ht; congruence|]. by eapply allowed_grants_nothing.
Qed.

(** ** Trusted paths *)

(** A mask that names the generic rights which imply one of its own. *)
Definition generic_closed (mask : Z) : Prop := ∀ m, Z.land m mask = 0 → Z.land (mapGeneric m) mask = 0.

Lemma land_part mask g m : Z.land mask g = g → Z.land m mask = 0 → Z.land m g = 0.
Proof. intros Hg Hm. by rewrite <- Hg, Z.land_assoc, Hm, Z.land_0_l. Qed.

Lemma generic_clear mask g rights m : Z.land m mask = 0 → Z.land mask g = g \/ Z.land rights mask = 0 →
  Z.land (generic m g rights) mask = 0.
Proof.
  intros Hm [Hg | Hr]; unfold generic; [by rewrite (land_part mask g m)|]. by destruct (_ =? 0).
Qed.

Lemma generic_closed_by mask :
  (Z.land mask GENERIC_ALL = GENERIC_ALL \/ Z.land FILE_ALL_ACCESS mask = 0) →
  (Z.land mask GENERIC_WRITE = GENERIC_WRITE \/ Z.land FILE_GENERIC_WRITE mask = 0) →
  (Z.land mask GENERIC_READ = GENERIC_READ \/ Z.land FILE_GENERIC_READ mask = 0) →
  (Z.land mask GENERIC_EXECUTE = GENERIC_EXECUTE \/ Z.land FILE_GENERIC_EXECUTE mask = 0) → generic_closed mask.
Proof.
  intros Ha Hw Hr He m Hm. unfold mapGeneric. rewrite !Z.land_lor_distr_l, Hm. by rewrite !generic_clear.
Qed.

Lemma trustedEntry_none mask trusted ace : trustedEntry mask trusted ace = None <->
  Z.land (ace_flags ace) INHERIT_ONLY_ACE ≠ 0 \/ ace_type ace = ACCESS_DENIED_ACE_TYPE \/
  (ace_type ace = ACCESS_ALLOWED_ACE_TYPE /\ (Z.land (ace_mask ace) mask = 0 \/ among (ace_sid ace) trusted = true)).
Proof.
  unfold trustedEntry, ACCESS_DENIED_ACE_TYPE, ACCESS_ALLOWED_ACE_TYPE.
  destruct (Z.land (ace_flags ace) INHERIT_ONLY_ACE =? 0) eqn:E0, (ace_type ace =? 0) eqn:E1, (ace_type ace =? 1) eqn:E2,
    (Z.land (ace_mask ace) mask =? 0) eqn:E3, (among (ace_sid ace) trusted) eqn:E4; cbn; to_prop; intuition (try done; lia).
Qed.

Lemma among_elem sid trusted : among sid trusted = true <-> sid ∈ trusted.
Proof.
  unfold among, Equals. rewrite existsb_exists. split.
  - intros (t & Hin & ->%bool_decide_eq_true). by apply list_elem_of_In.
  - intros Hin. exists sid. split; [by apply list_elem_of_In|]. by apply bool_decide_eq_true.
Qed.

Lemma trusted_entries other mask trusted token aces bit : generic_closed mask →
  (∀ sid, sid ∈ token → sid ∉ trusted) → Z.testbit mask bit = true →
  Forall (λ a, trustedEntry mask trusted a = None) aces → firstDecides other token aces bit = false.
Proof.
  intros Hg Ht Hb. induction 1 as [|a aces Hj Hf IH]; [done|]. apply trustedEntry_none in Hj. cbn [firstDecides].
  destruct (Z.land (ace_flags a) INHERIT_ONLY_ACE =? 0) eqn:Ei; cbn [negb]; [|done]. to_prop.
  destruct Hj as [? | [-> | [-> Hj]]]; [done|..]; unfold ACCESS_DENIED_ACE_TYPE, ACCESS_ALLOWED_ACE_TYPE; cbn [Z.eqb].
  { by destruct (bool_decide _ && _). }
  destruct Hj as [Hm | Hm%among_elem].
  - apply Hg in Hm. apply (f_equal (λ z, Z.testbit z bit)) in Hm. rewrite Z.land_spec, Hb, andb_true_r, Z.bits_0 in Hm.
    by rewrite Hm, andb_false_r.
  - rewrite bool_decide_false; [done|]. intros Hin%Ht. done.
Qed.

(** A descriptor that passes gives whoever is not trusted no right of the mask. *)
Lemma trusted_no_change other sd mask trusted owner aces token bit :
  checkTrustedDescriptor sd mask trusted = None → describes sd owner aces → generic_closed mask →
  (∀ sid, sid ∈ token → sid ∉ trusted) → Z.testbit mask bit = true → grants other owner (Some aces) token bit = false.
Proof.
  intros Hc [Ho Ha] Hg Ht Hb. unfold checkTrustedDescriptor, ownerIs in Hc. rewrite Ho in Hc.
  destruct (among owner trusted) eqn:Eo; [|done]. cbn in Hc. rewrite Ha in Hc. apply daclLoop_none in Hc as (l & Hl & Hf).
  apply (inj (fmap Ok)) in Hl as <-. apply grants_no_owner; [intros Hin%Ht; by apply among_elem in Eo|]. by eapply trusted_entries.
Qed.

(** What passes has an owner and a readable DACL. *)
Lemma trusted_describes sd mask trusted : checkTrustedDescriptor sd mask trusted = None → ∃ owner aces, describes sd owner aces.
Proof.
  unfold checkTrustedDescriptor, ownerIs, describes. destruct (sd_owner sd) as [[o|]|]; try done. destruct (negb _); [done|].
  destruct (sd_dacl sd) as [[aces|]|]; try done. intros (l & -> & _)%daclLoop_none. eauto.
Qed.
