(* ===== verification/GoFilepathWindows.v ===== *)
(** Go's [path/filepath] on Windows: the lexical path functions the Windows code
    calls, and what they do to a path on a lettered drive. *)

From S2P Require Import Prelude GoStrings GoError GoFilepath.

Definition backslash : ascii := "\"%char.

Definition IsPathSeparator (c : ascii) : bool := Ascii.eqb c backslash || Ascii.eqb c slash.

Fixpoint smap (f : ascii → ascii) (s : string) : string :=
  match s with "" => "" | String c s => String (f c) (smap f s) end.

Definition FromSlash : string → string := smap (λ c, if Ascii.eqb c slash then backslash else c).

Definition toUpper (c : ascii) : ascii :=
  let n := nat_of_ascii c in if (97 <=? n)%nat && (n <=? 122)%nat then ascii_of_nat (n - 32) else c.

(** Whether [s] starts with [prefix], whatever the case and the separators, at the end
    of an element. *)
Fixpoint pathHasPrefixFold (s prefix : string) : bool :=
  match prefix, s with
  | "", "" => true
  | "", String c _ => IsPathSeparator c
  | String _ _, "" => false
  | String p prefix, String c s =>
      (if IsPathSeparator p then IsPathSeparator c else Ascii.eqb (toUpper p) (toUpper c)) && pathHasPrefixFold s prefix
  end.

(** The bytes up to the [n]th separator. *)
Fixpoint upto_separator (n : nat) (s : string) : nat :=
  match s with
  | "" => 0
  | String c s => if IsPathSeparator c then match n with O => 0 | S n => S (upto_separator n s) end else S (upto_separator n s)
  end.

(** [uncLen]. *)
Definition uncLen (path : string) (prefixLen : nat) : nat :=
  Nat.min (String.length path) (prefixLen + upto_separator 1 (sdrop prefixLen path)).

Definition first_is (f : ascii → bool) (s : string) : bool := match s with String c _ => f c | "" => false end.

(** [volumeNameLen]. *)
Definition volumeNameLen (path : string) : nat :=
  if first_is (Ascii.eqb ":") (sdrop 1 path) then 2
  else if negb (first_is IsPathSeparator path) then 0
  else if pathHasPrefixFold path "\\.\UNC" then uncLen path 8
  else if pathHasPrefixFold path "\\." || pathHasPrefixFold path "\\?" || pathHasPrefixFold path "\??" then
    if (String.length path =? 3)%nat then 3 else 4 + upto_separator 0 (sdrop 4 path)
  else if first_is IsPathSeparator (sdrop 1 path) then uncLen path 2
  else 0%nat.

(** [filepath.VolumeName]. *)
Definition VolumeName (path : string) : string := FromSlash (stake (volumeNameLen path) path).

(** [filepath.IsAbs]. *)
Definition IsAbsW (path : string) : bool :=
  let l := volumeNameLen path in
  if (l =? 0)%nat then false
  else if first_is IsPathSeparator path && first_is IsPathSeparator (sdrop 1 path) then true
  else first_is IsPathSeparator (sdrop l path).

(** The elements joined with the separator. *)
Definition renderW (rooted : bool) (cs : list string) : string :=
  if rooted then "\" +:+ Join cs "\" else Join cs "\".

(** Whether [Clean] had to write into its buffer: an element it keeps is not already
    there in [path], after the [w] bytes kept before it. *)
Definition rewrites (rooted : bool) (path : string) (acc : list string) (c : string) : bool :=
  let before := renderW rooted (rev acc) in
  negb (HasPrefix (sdrop (String.length before) path) (match acc with [] => c | _ => "\" +:+ c end)).

Fixpoint clean_rewrites (rooted : bool) (path : string) (cs acc : list string) : bool :=
  match cs with
  | [] => match acc with [] => negb rooted && negb (HasPrefix path ".") | _ => false end
  | c :: cs =>
      if String.eqb c "" || String.eqb c "." then clean_rewrites rooted path cs acc
      else if String.eqb c ".." then
        match acc with
        | top :: below =>
            if String.eqb top ".." then rewrites rooted path acc ".." || clean_rewrites rooted path cs (".." :: acc)
            else clean_rewrites rooted path cs below
        | [] => if rooted then clean_rewrites rooted path cs [] else rewrites rooted path [] ".." || clean_rewrites rooted path cs [".."]
        end
      else rewrites rooted path acc c || clean_rewrites rooted path cs (c :: acc)
  end.

(** [postClean] of a path without a volume that was rewritten. *)
Definition postClean (cleaned : string) : string :=
  if contains_char (Ascii.eqb ":") (take_until IsPathSeparator cleaned) then ".\" +:+ cleaned
  else if HasPrefix cleaned "\??" then "\." +:+ cleaned
  else cleaned.

(** [filepath.Clean]. *)
Definition CleanW (p : string) : string :=
  let volLen := volumeNameLen p in
  let path := sdrop volLen p in
  match path with
  | "" => if (1 <? volLen)%nat && first_is IsPathSeparator p && first_is IsPathSeparator (sdrop 1 p) then FromSlash p else p +:+ "."
  | String c _ =>
      let rooted := IsPathSeparator c in
      let cs := Split (FromSlash path) backslash in
      let cleaned := match renderW rooted (clean_stack rooted cs []) with "" => "." | r => r end in
      let changed := (rooted && negb (Ascii.eqb c backslash)) || clean_rewrites rooted path cs [] in
      let cleaned := if (volLen =? 0)%nat && changed then postClean cleaned else cleaned in
      FromSlash (stake volLen p +:+ cleaned)
  end.

(** The path up to and including its last separator. *)
Fixpoint upto_last_separator (s : string) : string :=
  match s with
  | "" => ""
  | String c s' =>
      match upto_last_separator s' with
      | "" => if IsPathSeparator c then of_char c else ""
      | r => String c r
      end
  end.

(** [filepath.Dir]. *)
Definition DirW (p : string) : string :=
  let vol := VolumeName p in
  let dir := CleanW (upto_last_separator (sdrop (volumeNameLen p) p)) in
  if String.eqb dir "." && (2 <? String.length vol)%nat then vol else vol +:+ dir.

Fixpoint last_char (s : string) : option ascii :=
  match s with "" => None | String c "" => Some c | String _ s => last_char s end.

(** [filepath.Join] of two elements. *)
Definition JoinW (a b : string) : string :=
  match a, b with
  | "", "" => ""
  | "", _ => CleanW b
  | _, _ =>
      let glued :=
        match last_char a with
        | Some c =>
            if IsPathSeparator c then
              let b := TrimLeft b "\/" in
              if (String.length a =? 1)%nat && HasPrefix b "??" && ((String.length b =? 2)%nat || first_is IsPathSeparator (sdrop 2 b))
              then a +:+ ".\" +:+ b else a +:+ b
            else if Ascii.eqb c ":" then a +:+ b
            else a +:+ "\" +:+ b
        | None => b
        end in
      CleanW glued
  end.

Example windows_paths :
  CleanW "C:/a/.\b\..\c" = "C:\a\c" /\ DirW "C:\a\c" = "C:\a" /\ DirW "C:\" = "C:\" /\ IsAbsW "C:\a" = true /\ IsAbsW "C:a" = false /\
  IsAbsW "\a" = false /\ VolumeName "\\host\share\x" = "\\host\share" /\ DirW "\\host\share\x" = "\\host\share\" /\ CleanW "a\..\b:c" = ".\b:c" /\
  JoinW "C:\a" "b" = "C:\a\b" /\ JoinW "C:\" "b" = "C:\b" /\ IsAbsW "\??\UNC\host\share" = true.
Proof. vm_compute. by split_and!. Qed.

(** ** Paths on a lettered drive *)

Definition lacks (x : ascii) (s : string) : Prop := contains_char (Ascii.eqb x) s = false.

(** A name a Windows folder can hold. *)
Definition win_name (c : string) : Prop :=
  lacks backslash c /\ lacks slash c /\ lacks ":" c /\ lacks "?" c /\ c ≠ "" /\ c ≠ "." /\ c ≠ "..".

(** [X:\c1\...\cn]. *)
Definition drive (d : ascii) (cs : list string) : string := String d (String ":" (renderW true cs)).

Lemma Split_lacks x s : lacks x s → Split s x = [s].
Proof.
  unfold lacks. induction s as [|a s IH]; [done|]. cbn -[Ascii.eqb]. intros H. to_prop.
  rewrite Ascii.eqb_sym, H, IH by done. done.
Qed.

Lemma Split_ne x s : Split s x ≠ [].
Proof. destruct s as [|a s]; cbn -[Ascii.eqb]; [done|]. destruct (Ascii.eqb a x); [done|]. by destruct (Split s x). Qed.

Lemma Split_app x q r : Split (q +:+ String x r) x = Split q x ++ Split r x.
Proof.
  induction q as [|a q IH].
  { change ("" +:+ String x r) with (String x r). cbn -[Ascii.eqb]. by rewrite Ascii.eqb_refl. }
  change (String a q +:+ String x r) with (String a (q +:+ String x r)).
  cbn -[Ascii.eqb]. rewrite IH. destruct (Ascii.eqb a x); [done|]. destruct (Split q x) eqn:E; [|done].
  by apply Split_ne in E.
Qed.

Lemma Split_Join_lacks x cs : cs ≠ [] → Forall (lacks x) cs → Split (Join cs (of_char x)) x = cs.
Proof.
  induction cs as [|c cs IH]; [done|]. intros _ [Hc Hcs]%Forall_cons. destruct cs as [|c' cs]; [by apply Split_lacks|].
  change (Join (c :: c' :: cs) (of_char x)) with (c +:+ String x (Join (c' :: cs) (of_char x))).
  by rewrite Split_app, (Split_lacks x c), IH.
Qed.

Lemma FromSlash_lacks s : lacks slash s → FromSlash s = s.
Proof.
  unfold lacks, FromSlash. induction s as [|a s IH]; [done|]. cbn -[Ascii.eqb]. intros H. to_prop. rewrite Ascii.eqb_sym, H, IH by done. done.
Qed.

Lemma lacks_Join x cs : Forall (lacks x) cs → Ascii.eqb x backslash = false → lacks x (Join cs "\").
Proof.
  intros Hcs Hx. unfold lacks in *. induction Hcs as [|c cs Hc Hcs IH]; [done|]. destruct cs as [|c' cs]; [done|].
  change (Join (c :: c' :: cs) "\") with (c +:+ "\" +:+ Join (c' :: cs) "\").
  rewrite !contains_app, Hc, IH. change "\" with (String backslash ""). cbn [contains_char]. by rewrite Hx.
Qed.

Lemma lacks_renderW x cs : Forall (lacks x) cs → Ascii.eqb x backslash = false → lacks x (renderW true cs).
Proof. intros Hc Hx. unfold lacks, renderW. rewrite contains_app, lacks_Join by done. change "\" with (String backslash ""). cbn [contains_char]. by rewrite Hx. Qed.

Lemma win_names_lack cs : Forall win_name cs → Forall (lacks backslash) cs /\ Forall (lacks slash) cs.
Proof. intros H. split; eapply Forall_impl; [exact H|by intros c (? & _)|exact H|by intros c (_ & ? & _)]. Qed.

Lemma win_name_plain c : win_name c → String.eqb c "" = false /\ String.eqb c "." = false /\ String.eqb c ".." = false.
Proof. intros (_ & _ & _ & _ & ? & ? & ?). by rewrite !String.eqb_neq. Qed.

Lemma clean_stack_win cs acc : Forall win_name cs → clean_stack true cs acc = rev acc ++ cs.
Proof.
  intros H. revert acc. induction H as [|c cs Hc Hcs IH]; intros acc; [by rewrite app_nil_r|]. cbn -[String.eqb].
  destruct (win_name_plain c Hc) as (-> & -> & ->). cbn. rewrite IH. cbn. by rewrite <- app_assoc.
Qed.

Lemma clean_stack_end cs acc : clean_stack true (cs ++ [""]) acc = clean_stack true cs acc.
Proof. revert acc. induction cs as [|c cs IH]; intros acc; [done|]. cbn -[String.eqb]. repeat case_match; auto. Qed.

(** The first character of a rooted path's first name decides that it has no volume. *)
Lemma no_volume a s : IsPathSeparator a = false → Ascii.eqb a ":" = false → Ascii.eqb a "?" = false →
  volumeNameLen (String backslash (String a s)) = 0%nat.
Proof.
  intros Hs Hc Hq. assert (Ascii.eqb (toUpper "?") (toUpper a) = false) as Hu
    by (destruct a as [[] [] [] [] [] [] [] []]; first [discriminate Hq|reflexivity]).
  unfold volumeNameLen. cbn -[Ascii.eqb toUpper IsPathSeparator]. rewrite Ascii.eqb_sym in Hc. rewrite Hc, Hs, Hu.
  by rewrite !andb_false_r.
Qed.

Lemma volumeNameLen_drive d r : volumeNameLen (String d (String ":" r)) = 2%nat.
Proof. done. Qed.

Lemma win_name_head c : win_name c → ∃ a s, c = String a s /\ IsPathSeparator a = false /\ Ascii.eqb a ":" = false /\ Ascii.eqb a "?" = false.
Proof.
  intros (H1 & H2 & H3 & H4 & Hne & _). destruct c as [|a s]; [done|]. exists a, s. unfold lacks in *. cbn -[Ascii.eqb] in *. to_prop.
  unfold IsPathSeparator. rewrite !(Ascii.eqb_sym a). by rewrite H1, H2.
Qed.

Lemma renderW_cons c cs : renderW true (c :: cs) = String backslash (c +:+ match cs with [] => "" | _ => renderW true cs end).
Proof. destruct cs as [|c' cs]; unfold renderW; [|done]. cbn [Join]. change ("\" +:+ c) with (String backslash c). f_equal. induction c as [|a c IH]; [done|]. exact (f_equal (String a) IH). Qed.

(** [Clean] of a path that is rooted after its volume. *)
Lemma CleanW_rooted p n cs : Forall win_name cs → volumeNameLen p = n → lacks slash (stake n p) → first_is IsPathSeparator (sdrop n p) = true →
  Split (FromSlash (sdrop n p)) backslash = "" :: cs \/ Split (FromSlash (sdrop n p)) backslash = "" :: cs ++ [""] →
  CleanW p = stake n p +:+ renderW true cs.
Proof.
  intros Hcs Hv Hvol Hf Hsp. unfold CleanW. rewrite Hv. cbv zeta. destruct (sdrop n p) as [|c q] eqn:Eq; [done|].
  change (IsPathSeparator c = true) in Hf. rewrite Hf. destruct (win_names_lack cs Hcs) as [Hb Hs].
  assert (clean_stack true (Split (FromSlash (String c q)) backslash) [] = cs) as ->.
  { destruct Hsp as [-> | ->]; cbn -[String.eqb]; [|rewrite clean_stack_end]; by rewrite clean_stack_win. }
  assert (postClean (renderW true cs) = renderW true cs) as Hpost.
  { unfold postClean. replace (take_until IsPathSeparator (renderW true cs)) with "" by done. cbn [contains_char].
    replace (HasPrefix (renderW true cs) "\??") with false; [done|]. destruct Hcs as [|m cs Hn Hcs]; [done|].
    destruct (win_name_head m Hn) as (a & s & -> & _ & _ & Hq). rewrite renderW_cons. set (r := match cs with [] => _ | _ => _ end).
    change (HasPrefix _ _) with (match (if Ascii.eqb "?" a then CutPrefix (s +:+ r) "?" else None) with Some _ => true | None => false end).
    by rewrite Ascii.eqb_sym, Hq. }
  assert (lacks slash (stake n p +:+ renderW true cs)) as Hl.
  { unfold lacks in *. rewrite contains_app, Hvol. by apply lacks_renderW. }
  change (match renderW true cs with "" => "." | r => r end) with (renderW true cs).
  destruct (_ && (_ || _)); rewrite ?Hpost; by apply FromSlash_lacks.
Qed.

Lemma Split_renderW cs : Forall win_name cs → FromSlash (renderW true cs) = renderW true cs /\
  (Split (renderW true cs) backslash = "" :: cs \/ Split (renderW true cs) backslash = "" :: cs ++ [""]).
Proof.
  intros H. destruct (win_names_lack cs H) as [Hb Hs]. split; [apply FromSlash_lacks; by apply lacks_renderW|].
  destruct cs as [|c cs]; [by right|]. left. change (renderW true (c :: cs)) with ("" +:+ String backslash (Join (c :: cs) (of_char backslash))).
  by rewrite Split_app, Split_Join_lacks.
Qed.

Lemma CleanW_drive d cs : IsPathSeparator d = false → Forall win_name cs → CleanW (drive d cs) = drive d cs.
Proof.
  intros Hd H. destruct (Split_renderW cs H) as [Hf Hs]. rewrite (CleanW_rooted _ 2 cs); [done|done|done| |done|by cbn [drive sdrop]; rewrite Hf].
  unfold lacks. unfold IsPathSeparator in Hd. to_prop. cbn -[Ascii.eqb]. by rewrite Ascii.eqb_sym, H1.
Qed.

Lemma upto_last_separator_app q c : lacks backslash c → lacks slash c → upto_last_separator (q +:+ String backslash c) = q +:+ "\".
Proof.
  intros H1 H2. assert (upto_last_separator c = "") as Hc.
  { unfold lacks in *. induction c as [|a c IH]; [done|]. cbn -[Ascii.eqb] in *. to_prop. rewrite IH by done.
    unfold IsPathSeparator. by rewrite !(Ascii.eqb_sym a), H, H1. }
  induction q as [|a q IH]; [change ("" +:+ String backslash c) with (String backslash c); cbn [upto_last_separator]; by rewrite Hc|].
  change (String a q +:+ String backslash c) with (String a (q +:+ String backslash c)). cbn [upto_last_separator]. rewrite IH.
  by destruct q.
Qed.

Lemma renderW_snoc cs c : cs ≠ [] → renderW true (cs ++ [c]) = renderW true cs +:+ "\" +:+ c.
Proof.
  intros Hne. unfold renderW. rewrite str_app_assoc. f_equal. induction cs as [|a cs IH]; [done|].
  destruct cs as [|b cs]; [done|]. change ((a :: b :: cs) ++ [c]) with (a :: (b :: cs) ++ [c]).
  change (Join (a :: (b :: cs) ++ [c]) "\") with (a +:+ "\" +:+ Join ((b :: cs) ++ [c]) "\").
  change (Join (a :: b :: cs) "\") with (a +:+ "\" +:+ Join (b :: cs) "\"). rewrite IH by done. by rewrite !str_app_assoc.
Qed.

Lemma DirW_root d : IsPathSeparator d = false → DirW (drive d []) = drive d [].
Proof.
  intros Hd. unfold DirW, VolumeName, drive. rewrite volumeNameLen_drive. cbn -[FromSlash]. rewrite FromSlash_lacks; [done|].
  unfold lacks. unfold IsPathSeparator in Hd. to_prop. cbn -[Ascii.eqb]. by rewrite Ascii.eqb_sym, H0.
Qed.

(** The parent of an entry on a drive. *)
Lemma DirW_snoc d cs c : IsPathSeparator d = false → Forall win_name (cs ++ [c]) → DirW (drive d (cs ++ [c])) = drive d cs.
Proof.
  intros Hd [Hcs [Hc _]%Forall_cons]%Forall_app.
  assert (lacks slash (String d ":")) as Hl.
  { unfold lacks. unfold IsPathSeparator in Hd. to_prop. cbn -[Ascii.eqb]. by rewrite Ascii.eqb_sym, H0. }
  assert (CleanW (upto_last_separator (renderW true (cs ++ [c]))) = renderW true cs) as Hup.
  { destruct Hc as (Hb & Hs & _). destruct (decide (cs = [])) as [->|Hne].
    - change (renderW true ([] ++ [c])) with ("" +:+ String backslash c). by rewrite upto_last_separator_app.
    - rewrite renderW_snoc by done. change ("\" +:+ c) with (String backslash c). rewrite upto_last_separator_app by done.
      destruct Hcs as [|m cs Hm Hcs]; [done|]. destruct (win_name_head m Hm) as (a & s & -> & H1 & H2 & H3).
      assert (Forall win_name (String a s :: cs)) as Hall by (by constructor). destruct (win_names_lack _ Hall) as [Hbs Hss].
      assert (∃ r, renderW true (String a s :: cs) +:+ "\" = String backslash (String a r)) as (r & Hr)
        by (rewrite renderW_cons; eexists; reflexivity).
      rewrite (CleanW_rooted _ 0 (String a s :: cs)); [done|done|rewrite Hr; by apply no_volume|done|by rewrite Hr|]. right.
      change (sdrop 0 ?p) with p. rewrite FromSlash_lacks by (unfold lacks; rewrite contains_app; by rewrite lacks_renderW).
      change (renderW true (String a s :: cs) +:+ "\") with ("" +:+ String backslash (Join (String a s :: cs) (of_char backslash) +:+ String backslash "")).
      by rewrite !Split_app, Split_Join_lacks. }
  unfold DirW, VolumeName, drive. rewrite volumeNameLen_drive. cbn [drive stake sdrop]. rewrite Hup, FromSlash_lacks by done.
  by rewrite andb_false_r.
Qed.
