(* ===== verification/WindowsFiles.v ===== *)
(** Files on Windows, as the folder code asks for them and changes them.

    [WinFiles] holds the answers the system gives at one moment, and the system is a
    function from the history of events to such answers. *)

From S2P Require Import Prelude GoStrings GoError GoBinary GoFilepathWindows Events WindowsSecurity.

Definition FILE_ATTRIBUTE_DIRECTORY : Z := 0x10.
Definition FILE_ATTRIBUTE_REPARSE_POINT : Z := 0x400.
Definition isDirectory (attributes : Z) : bool := negb (Z.land attributes FILE_ATTRIBUTE_DIRECTORY =? 0).
Definition isReparsePoint (attributes : Z) : bool := negb (Z.land attributes FILE_ATTRIBUTE_REPARSE_POINT =? 0).

(** [ByHandleFileInformation], the fields the code reads. *)
Record HandleInfo := mkHandleInfo { hi_attributes : Z; hi_links : Z }.

(** The known folders [checkRoot] asks for. *)
Inductive KnownFolder := FProfile | FDocuments | FDesktop | FDownloads | FRoamingAppData | FLocalAppData.

#[global] Instance KnownFolder_eq_dec : EqDecision KnownFolder.
Proof. solve_decision. Defined.

(** What [FindFirstFileNameW] and [FindNextFileNameW] leave: the handle or success, the
    length written back, the buffer's units and the error. *)
Record NameAnswer := mkNameAnswer { na_ok : option Z; na_length : nat; na_units : list Z; na_error : err }.

Inductive wevent :=
| WvAttributes (p : string) (r : result Z)
| WvNamedSecurity (p : string) (r : result SecurityDescriptor)
| WvTokenUser (r : result SID)
| WvStringToSid (s : string) (r : result SID)
| WvDescriptor (sddl : string) (r : result SecurityDescriptor)
| WvLstat (p : string) (r : option err)
| WvCreateFile (p : string) (r : result Z)
| WvHandleInfo (h : Z) (r : result HandleInfo)
| WvReadDir (p : string) (r : result (list string))
| WvFirstName (p : string) (size : nat) (r : NameAnswer)
| WvNextName (find : Z) (size : nat) (r : NameAnswer)
| WvFindClose (find : Z)
| WvHandleSecurity (h : Z) (r : result SecurityDescriptor)
| WvFinalPath (h : Z) (size : nat) (r : result (nat * list Z))
| WvKnownFolder (f : KnownFolder) (r : result string)
| WvLocalPath (p : string) (r : option err)
| WvSameFile (a b : string) (r : result bool)
| WvWithin (a b : string) (r : result bool)
| WvSamePathName (a b : string) (r : bool)
| WvCloseHandle (h : Z)
| WvMkdirAll (p : string) (perm : Z) (r : option err)
| WvCreateDirectory (p : string) (sd : SecurityDescriptor) (r : option err)
| WvSetSecurity (h : Z) (sd : SecurityDescriptor) (r : option err).

Record WinFiles := mkWinFiles {
  wf_attributes : string → result Z;
  wf_namedSecurity : string → result SecurityDescriptor;
  wf_tokenUser : result SID;
  wf_stringToSid : string → result SID;
  wf_descriptor : string → result SecurityDescriptor;
  wf_lstat : string → option err;
  wf_createFile : string → result Z;
  wf_handleInfo : Z → result HandleInfo;
  wf_readDir : string → result (list string);
  wf_firstName : string → nat → NameAnswer;
  wf_nextName : Z → nat → NameAnswer;
  wf_handleSecurity : Z → result SecurityDescriptor;
  wf_finalPath : Z → nat → result (nat * list Z);
  wf_knownFolder : KnownFolder → result string;
  wf_localPath : string → option err;
  wf_sameFile : string → string → result bool;
  wf_within : string → string → result bool;
  wf_samePathName : string → string → bool;
  wf_mkdirAll : string → Z → option err;
  wf_createDirectory : string → SecurityDescriptor → option err;
  wf_setSecurity : Z → SecurityDescriptor → option err
}.

Definition FM : Type → Type := Hist wevent.

Section Calls.
Context (K : list wevent → WinFiles).

(** [windows.GetFileAttributes] of a Go path. *)
Definition getFileAttributes (p : string) : FM (result Z) :=
  match UTF16PtrFromString p with
  | Err e => mret (Err e)
  | Ok name => act (λ h, wf_attributes (K h) name) (WvAttributes name)
  end.

Definition namedSecurity (p : string) : FM (result SecurityDescriptor) := act (λ h, wf_namedSecurity (K h) p) (WvNamedSecurity p).
Definition getTokenUser : FM (result SID) := act (λ h, wf_tokenUser (K h)) WvTokenUser.
Definition stringToSid (s : string) : FM (result SID) := act (λ h, wf_stringToSid (K h) s) (WvStringToSid s).
Definition descriptorFromString (s : string) : FM (result SecurityDescriptor) := act (λ h, wf_descriptor (K h) s) (WvDescriptor s).
Definition winLstat (p : string) : FM (option err) := act (λ h, wf_lstat (K h) p) (WvLstat p).
Definition winMkdirAll (p : string) (perm : Z) : FM (option err) := act (λ h, wf_mkdirAll (K h) p perm) (WvMkdirAll p perm).
Definition createDirectory (p : string) (sd : SecurityDescriptor) : FM (option err) :=
  act (λ h, wf_createDirectory (K h) p sd) (WvCreateDirectory p sd).
Definition createFile (p : string) : FM (result Z) := act (λ h, wf_createFile (K h) p) (WvCreateFile p).
Definition handleInfo (hd : Z) : FM (result HandleInfo) := act (λ h, wf_handleInfo (K h) hd) (WvHandleInfo hd).
Definition closeHandle (hd : Z) : FM unit := act (λ _, tt) (λ _, WvCloseHandle hd).
Definition winReadDir (p : string) : FM (result (list string)) := act (λ h, wf_readDir (K h) p) (WvReadDir p).
Definition findFirstName (p : string) (size : nat) : FM NameAnswer := act (λ h, wf_firstName (K h) p size) (WvFirstName p size).
Definition findNextName (find : Z) (size : nat) : FM NameAnswer := act (λ h, wf_nextName (K h) find size) (WvNextName find size).
Definition findClose (find : Z) : FM unit := act (λ _, tt) (λ _, WvFindClose find).
Definition handleSecurity (hd : Z) : FM (result SecurityDescriptor) := act (λ h, wf_handleSecurity (K h) hd) (WvHandleSecurity hd).
Definition setKernelObjectSecurity (hd : Z) (sd : SecurityDescriptor) : FM (option err) :=
  act (λ h, wf_setSecurity (K h) hd sd) (WvSetSecurity hd sd).
Definition finalPathNameByHandle (hd : Z) (size : nat) : FM (result (nat * list Z)) :=
  act (λ h, wf_finalPath (K h) hd size) (WvFinalPath hd size).
Definition knownFolderPath (f : KnownFolder) : FM (result string) := act (λ h, wf_knownFolder (K h) f) (WvKnownFolder f).
Definition identityLocalPath (p : string) : FM (option err) := act (λ h, wf_localPath (K h) p) (WvLocalPath p).
Definition identitySameFile (a b : string) : FM (result bool) := act (λ h, wf_sameFile (K h) a b) (WvSameFile a b).
Definition identityWithin (a b : string) : FM (result bool) := act (λ h, wf_within (K h) a b) (WvWithin a b).
Definition identitySamePathName (a b : string) : FM bool := act (λ h, wf_samePathName (K h) a b) (WvSamePathName a b).
End Calls.

(** An event that changes a file. *)
Definition changesW (e : wevent) : bool :=
  match e with
  | WvMkdirAll _ _ _ | WvCreateDirectory _ _ _ | WvSetSecurity _ _ _ => true
  | _ => false
  end.

(** Nothing was changed. *)
Definition reads (new : list wevent) : Prop := Forall (λ e, changesW e = false) new.

Lemma reads_app a b : reads a → reads b → reads (a ++ b).
Proof. intros. by apply Forall_app. Qed.

#[export] Hint Resolve reads_app : events.
