(* ===== verification/TrustedPath.v ===== *)
(** go/trustedpath: whether only trusted accounts can have written a file
    (trustedpath.go, trustedpath_windows.go, trustedpath_other.go). *)

From S2P Require Import Prelude GoStrings GoError GoBinary GoFilepath GoFilepathWindows Events WindowsSecurity WindowsFiles.

(** [Owners]. *)
Record Owners := mkOwners { ow_SIDs : list string; ow_Account : bool }.

Definition system : string := "S-1-5-18".
Definition administrators : string := "S-1-5-32-544".
Definition trustedInstaller : string := "S-1-5-80-956008885-3418522649-1831038044-1853292631-2271478464".

(** [MachineOwners]. *)
Definition MachineOwners : Owners := mkOwners [system; administrators; trustedInstaller] false.

(** The rights that change a file, and a folder, and the folder of a program. *)
Definition fileChange : Z :=
  Z.lor 0x2 (Z.lor 0x4 (Z.lor 0x10 (Z.lor 0x100 (Z.lor DELETE (Z.lor WRITE_DAC (Z.lor WRITE_OWNER (Z.lor GENERIC_ALL GENERIC_WRITE))))))).
Definition folderChange : Z := Z.lor 0x40 (Z.lor DELETE (Z.lor WRITE_DAC (Z.lor WRITE_OWNER GENERIC_ALL))).
Definition executableFolderChange : Z := Z.lor folderChange (Z.lor 0x2 (Z.lor 0x4 GENERIC_WRITE)).

(** [CheckFile] and [CheckExecutable] off Windows refuse every path. *)
Definition CheckFile_other (path : string) : option err := Some (Wrap path [Sentinel ErrUntrusted]).

Section TrustedPath.
Context (K : list wevent → WinFiles).

(** The loop of [sids]. *)
Fixpoint parseSids (sids_ : list string) (out : list SID) : FM (result (list SID)) :=
  match sids_ with
  | [] => mret (Ok out)
  | s :: sids_ =>
      r ← stringToSid K s;
      match r with
      | Err e => mret (Err (Wrap ("trustedpath: owner " +:+ s) [e]))
      | Ok sid => parseSids sids_ (out ++ [sid])
      end
  end.

(** [sids]. *)
Definition sids (o : Owners) : FM (result (list SID)) :=
  r ← parseSids (ow_SIDs o) [];
  match r with
  | Err e => mret (Err e)
  | Ok out =>
      if ow_Account o then
        user ← getTokenUser K;
        mret (match user with Err e => Err e | Ok sid => Ok (out ++ [sid]) end)
      else mret (Ok out)
  end.

(** The loop of [check] that collects the folders above a path. *)
Fixpoint foldersAbove (fuel : nat) (dir : string) : option (list string) :=
  if String.eqb (DirW dir) dir then Some [dir]
  else match fuel with
       | O => None
       | S fuel => match foldersAbove fuel (DirW dir) with Some l => Some (dir :: l) | None => None end
       end.

Definition chainOf (path : string) : option (list string) :=
  match foldersAbove (String.length path) (DirW path) with Some l => Some (path :: l) | None => None end.

(** [kind]. *)
Definition kind (path : string) (folder : bool) : FM (option err) :=
  r ← getFileAttributes K path;
  mret (match r with
        | Err e => Some e
        | Ok attributes =>
            if isReparsePoint attributes then Some (Plain "it is a reparse point (a link, junction or mount point)")
            else if negb (Bool.eqb folder (isDirectory attributes)) then
              Some (Plain (if folder then "it is not a folder" else "it is a folder"))
            else None
        end).

(** [access]. *)
Definition access (path : string) (mask : Z) (trusted : list SID) : FM (option err) :=
  r ← namedSecurity K path;
  mret (match r with Err e => Some e | Ok sd => checkTrustedDescriptor sd mask trusted end).

(** [refuse]. *)
Definition refuse (path : string) : option err := Some (Wrap path [Sentinel ErrUntrusted]).

(** The loop over the kinds, from the volume root down: [chain] is reversed, and only
    its last element, the file, is not a folder. *)
Fixpoint kindsDown (path : string) (chain : list string) : FM (option err) :=
  match chain with
  | [] => mret None
  | p :: chain =>
      r ← kind p (negb (bool_decide (chain = [])));
      match r with
      | Some _ => mret (refuse path)
      | None => kindsDown path chain
      end
  end.

(** The mask at index [i] of the chain. *)
Definition maskAt (executable : bool) (i : nat) : Z :=
  if (i =? 1)%nat && executable then executableFolderChange
  else if (0 <? i)%nat then folderChange
  else fileChange.

(** The loop over owners and access. *)
Fixpoint accessUp (path : string) (executable : bool) (trusted : list SID) (i : nat) (chain : list string) : FM (option err) :=
  match chain with
  | [] => mret None
  | p :: chain =>
      r ← access p (maskAt executable i) trusted;
      match r with
      | Some _ => mret (refuse path)
      | None => accessUp path executable trusted (S i) chain
      end
  end.

(** [check]. *)
Definition checkPath (path : string) (owners : Owners) (executable : bool) : FM (option err) :=
  trusted ← sids owners;
  match trusted with
  | Err e => mret (Some e)
  | Ok trusted =>
      if negb (IsAbsW path) || HasPrefix path "\\" then mret (Some (Wrap path [Sentinel ErrUntrusted]))
      else
        let path := CleanW path in
        match chainOf path with
        | None => mret (Some (Plain "the loop did not reach the volume root"))
        | Some chain =>
            r ← kindsDown path (rev chain);
            match r with
            | Some e => mret (Some e)
            | None => accessUp path executable trusted 0 chain
            end
        end
  end.

(** [CheckFile] and [CheckExecutable]. *)
Definition CheckFile (path : string) (owners : Owners) : FM (option err) := checkPath path owners false.
Definition CheckExecutable (path : string) (owners : Owners) : FM (option err) := checkPath path owners true.

(** ** What is proved *)

Lemma masks_closed executable i : generic_closed (maskAt executable i).
Proof.
  unfold maskAt. destruct ((i =? 1)%nat && executable); [|destruct (0 <? i)%nat]; apply generic_closed_by; vm_compute; auto.
Qed.

(** On a drive the chain is the path and every folder above it. *)
Lemma foldersAbove_drive d cs fuel : IsPathSeparator d = false → Forall win_name cs → (length cs <= fuel)%nat →
  foldersAbove fuel (drive d cs) = Some ((λ i, drive d (take i cs)) <$> rev (seq 0 (S (length cs)))).
Proof.
  intros Hd. revert fuel. induction cs as [|c cs IH] using rev_ind; intros fuel Hcs Hf.
  { destruct fuel; cbn -[DirW drive]; by rewrite DirW_root, String.eqb_refl. }
  rewrite length_app in *. cbn [length] in Hf. destruct fuel as [|fuel]; [lia|]. cbn [foldersAbove].
  rewrite DirW_snoc by done. replace (String.eqb (drive d cs) (drive d (cs ++ [c]))) with false.
  - apply Forall_app in Hcs as [Hcs Hc]. rewrite IH by (done || lia). rewrite Nat.add_1_r, (seq_S (S (length cs)) 0), rev_app_distr. cbn [rev app fmap list_fmap].
    f_equal. f_equal; [by rewrite take_ge by (rewrite length_app; cbn; lia)|]. apply list_fmap_ext. intros j i Hi.
    apply list_elem_of_lookup_2, list_elem_of_In, in_rev, in_seq in Hi. by rewrite take_app_le by lia.
  - symmetry. apply String.eqb_neq. intros Heq. apply Forall_app in Hcs as [Hcs [Hc _]%Forall_cons].
    assert (renderW true cs = renderW true (cs ++ [c])) as Hr by exact (f_equal (sdrop 2) Heq). apply (f_equal String.length) in Hr.
    destruct (decide (cs = [])) as [->|Hne]; [destruct Hc as (_ & _ & _ & _ & Hc & _); cbn in Hr; by destruct c|].
    rewrite renderW_snoc, !slength_app in Hr by done. cbn in Hr. lia.
Qed.

Lemma drive_length d cs : (length cs <= String.length (drive d cs))%nat.
Proof.
  unfold drive. cbn [String.length]. unfold renderW. rewrite slength_app. induction cs as [|c cs IH]; [cbn; lia|].
  destruct cs as [|c' cs]; [cbn; lia|]. change (Join (c :: c' :: cs) "\") with (c +:+ "\" +:+ Join (c' :: cs) "\").
  rewrite !slength_app. cbn [length] in *. change (String.length "\") with 1%nat in *. lia.
Qed.

Lemma chainOf_drive d cs c : IsPathSeparator d = false → Forall win_name (cs ++ [c]) →
  chainOf (drive d (cs ++ [c])) = Some (drive d (cs ++ [c]) :: ((λ i, drive d (take i cs)) <$> rev (seq 0 (S (length cs))))).
Proof.
  intros Hd Hcs. unfold chainOf. rewrite DirW_snoc by done. rewrite foldersAbove_drive; [done|done|by apply Forall_app in Hcs as [? _]|].
  pose proof (drive_length d (cs ++ [c])) as Hl. rewrite length_app in Hl. cbn in Hl |- *. lia.
Qed.

(** ** A path that passes *)

(** The accounts trusted: those the strings name, and this account when asked. *)
Definition trusts (o : Owners) (trusted : list SID) (new : list wevent) : Prop :=
  ∃ named, Forall2 (λ s sid, WvStringToSid s (Ok sid) ∈ new) (ow_SIDs o) named /\
    if ow_Account o then ∃ user, WvTokenUser (Ok user) ∈ new /\ trusted = named ++ [user] else trusted = named.

(** The object was no reparse point, and a folder or a file as its place asks. *)
Definition seen_as (folder : bool) (p : string) (new : list wevent) : Prop :=
  ∃ a, WvAttributes p (Ok a) ∈ new /\ isReparsePoint a = false /\ isDirectory a = folder.

(** The rights of an access mask, by their bits, that let an account change a file:
    write or append data, write extended attributes or attributes, delete, change the
    DACL, take ownership, and the generic rights to do anything and to write. *)
Definition file_changes : list Z := [1; 2; 4; 8; 16; 18; 19; 28; 30].
(** Those that let it delete, rename or re-permission what a folder holds: delete a child,
    delete, change the DACL, take ownership, do anything. *)
Definition folder_changes : list Z := [6; 16; 18; 19; 28].
(** Those that let it add to a folder: add a file, add a folder, write. *)
Definition additions : list Z := [1; 2; 30].

(** What nobody else may do to the object at index [i] of the chain: the file, the folder
    that holds it, and those above. *)
Definition changes_at (executable : bool) (i : nat) : list Z :=
  match i with
  | O => file_changes
  | S O => if executable then folder_changes ++ additions else folder_changes
  | _ => folder_changes
  end.

Lemma maskAt_changes executable i bit : bit ∈ changes_at executable i → Z.testbit (maskAt executable i) bit = true.
Proof.
  assert (∀ l m, forallb (Z.testbit m) l = true → bit ∈ l → Z.testbit m bit = true) as Hall.
  { intros l m Hf Hb. rewrite forallb_forall in Hf. by apply Hf, list_elem_of_In. }
  destruct i as [|[|i]]; [|destruct executable|]; (apply Hall; [destruct executable|]) || apply Hall; vm_compute; reflexivity.
Qed.

(** A trusted account owned the object, and Windows would grant no other any of the
    rights [bits] on it. *)
Definition untouchable (trusted : list SID) (bits : list Z) (p : string) (new : list wevent) : Prop :=
  ∃ sd owner aces, WvNamedSecurity p (Ok sd) ∈ new /\ describes sd owner aces /\ owner ∈ trusted /\
    ∀ other token bit, (∀ sid, sid ∈ token → sid ∉ trusted) → bit ∈ bits →
      grants other owner (Some aces) token bit = false.

Lemma seen_more folder p a b : seen_as folder p a \/ seen_as folder p b → seen_as folder p (a ++ b).
Proof. intros [(x & Hx & Hr) | (x & Hx & Hr)]; exists x; rewrite elem_of_app; auto. Qed.

Lemma untouchable_more trusted bits p a b : untouchable trusted bits p a \/ untouchable trusted bits p b → untouchable trusted bits p (a ++ b).
Proof. intros [(sd & o & l & Hx & Hr) | (sd & o & l & Hx & Hr)]; exists sd, o, l; rewrite elem_of_app; auto. Qed.

Lemma parseSids_spec l out h :
  adds (parseSids l out) (λ r new, reads new /\ if r is Ok sids then ∃ named, sids = out ++ named /\
    Forall2 (λ s sid, WvStringToSid s (Ok sid) ∈ new) l named else True) h.
Proof.
  revert out h. induction l as [|s l IH]; intros out h; cbn [parseSids].
  { adds_step. split; [constructor|]. exists []. by rewrite app_nil_r. }
  unfold stringToSid. repeat adds_step. destruct (wf_stringToSid _ _) as [sid|]; [|adds_step; split; [by repeat constructor|done]].
  eapply adds_mono; [|apply IH]. intros r new (Hr & Hn). split; [by constructor|]. destruct r as [sids0|]; [|done].
  destruct Hn as (named & -> & Hf). exists (sid :: named). rewrite <- app_assoc. split; [done|]. constructor; [by left|].
  eapply Forall2_impl; [exact Hf|]. intros s' sid' Hin. by right.
Qed.

Lemma sids_spec o h : adds (sids o) (λ r new, reads new /\ if r is Ok trusted then trusts o trusted new else True) h.
Proof.
  unfold sids, getTokenUser. adds_step. eapply adds_mono; [|apply parseSids_spec]. intros [out|] new (Hr & Hn).
  2: { adds_step. by rewrite app_nil_r. }
  destruct Hn as (named & -> & Hf). unfold trusts. destruct (ow_Account o) eqn:Ea; repeat adds_step.
  - split; [apply reads_app; [done|by repeat constructor]|]. destruct (wf_tokenUser _) as [user|]; [|done].
    exists named. split; [|exists user; rewrite elem_of_app; split; [right; by left|done]].
    eapply Forall2_impl; [exact Hf|]. intros s sid Hin. apply elem_of_app. by left.
  - rewrite app_nil_r. split; [done|]. by exists named.
Qed.

Lemma kind_spec p folder h : adds (kind p folder) (λ r new, reads new /\ (r = None → seen_as folder p new)) h.
Proof.
  unfold kind, getFileAttributes, UTF16PtrFromString. destruct (contains_char _ _); repeat adds_step; [by repeat constructor|].
  split; [by repeat constructor|]. destruct (wf_attributes _ _) as [a|]; [|done].
  destruct (isReparsePoint a) eqn:Er; [done|]. destruct (Bool.eqb folder (isDirectory a)) eqn:Ed; [|done].
  intros _. exists a. apply eqb_prop in Ed. split_and!; [by left|done|done].
Qed.

Lemma kindsDown_spec path chain h :
  adds (kindsDown path chain)
    (λ r new, reads new /\ (r = None → ∀ i p, chain !! i = Some p → seen_as (negb (bool_decide (S i = length chain))) p new)) h.
Proof.
  revert h. induction chain as [|p chain IH]; intros h; cbn [kindsDown]; [adds_step; split; [constructor|done]|].
  adds_step. eapply adds_mono; [|apply kind_spec]. intros [e|] new (Hr & Hs); [adds_step; by rewrite app_nil_r|].
  eapply adds_mono; [|apply IH]. intros r new' (Hr' & Hs'). split; [by apply reads_app|]. intros Hok [|i] q Hq.
  - injection Hq as <-. apply seen_more. left. cbn [length]. destruct chain; [by apply Hs|]. rewrite bool_decide_false by done. by apply Hs.
  - apply seen_more. right. specialize (Hs' Hok i q Hq). cbn [length]. by rewrite (bool_decide_ext _ (S i = length chain)) by lia.
Qed.

Lemma accessUp_spec path executable trusted i0 chain h :
  adds (accessUp path executable trusted i0 chain)
    (λ r new, reads new /\ (r = None → ∀ i p, chain !! i = Some p → untouchable trusted (changes_at executable (i0 + i)) p new)) h.
Proof.
  revert i0 h. induction chain as [|p chain IH]; intros i0 h; cbn [accessUp]; [adds_step; split; [constructor|done]|].
  unfold access, namedSecurity. repeat adds_step. destruct (wf_namedSecurity _ _) as [sd|] eqn:Esd; [|adds_step; by repeat constructor].
  destruct (checkTrustedDescriptor _ _ _) eqn:Ec; [adds_step; by repeat constructor|].
  eapply adds_mono; [|apply IH]. intros r new (Hr & Hs). split; [by repeat constructor|]. intros Hok [|i] q Hq.
  - injection Hq as <-. rewrite Nat.add_0_r. destruct (trusted_describes _ _ _ Ec) as (owner & aces & Hd). exists sd, owner, aces.
    split_and!; [by left|done| |].
    + unfold checkTrustedDescriptor, ownerIs in Ec. destruct Hd as [Ho _]. rewrite Ho in Ec. apply among_elem. by destruct (among owner trusted).
    + intros other token bit Ht Hb%maskAt_changes. eapply trusted_no_change; eauto using masks_closed.
  - rewrite Nat.add_succ_r. apply (untouchable_more _ _ _ [_]). right. by apply (Hs Hok i q).
Qed.

(** C15: [CheckFile] and [CheckExecutable] on Windows. Both only read. They accept an
    absolute path only when the strings of the owners named the accounts trusted, and the
    path and each folder above it, which on a drive are all of them up to [X:\], was no
    reparse point, a file below and folders above, owned by a trusted account, and with a
    DACL under which Windows grants an account that is not trusted no right that changes
    it: on the file none that writes, deletes or re-permissions it; on a folder none that
    deletes or re-permissions what it holds; and on the folder of a program none that adds
    to it either. A path that begins with two backslashes is refused. The share of
    another machine spelled with slashes is not, against the documentation: what is said
    here is then said of the descriptors that machine gave out. *)
Theorem trusted_path_untouched path owners executable h :
  adds (checkPath path owners executable)
    (λ r new, reads new /\
      (r = None → IsAbsW path = true /\ HasPrefix path "\\" = false /\ ∃ trusted chain, trusts owners trusted new /\ chainOf (CleanW path) = Some chain /\
        (∀ d cs c, CleanW path = drive d (cs ++ [c]) → IsPathSeparator d = false → Forall win_name (cs ++ [c]) →
           chain = CleanW path :: ((λ i, drive d (take i cs)) <$> rev (seq 0 (S (length cs))))) /\
        ∀ i p, chain !! i = Some p →
          seen_as (negb (bool_decide (i = 0%nat))) p new /\ untouchable trusted (changes_at executable i) p new)) h.
Proof.
  unfold checkPath. adds_step. eapply adds_mono; [|apply sids_spec]. intros [trusted|e] new (Hr & Ht); [|adds_step; by rewrite app_nil_r].
  destruct (negb _ || _) eqn:Eg; [adds_step; by rewrite app_nil_r|]. apply orb_false_iff in Eg as [Eabs%negb_false_iff Epre]. cbv zeta. destruct (chainOf (CleanW path)) as [chain|] eqn:Ec; [|adds_step; by rewrite app_nil_r].
  adds_step. eapply adds_mono; [|apply kindsDown_spec]. intros [e|] new1 (Hr1 & Hk); [adds_step; rewrite app_nil_r; split; [by apply reads_app|done]|].
  eapply adds_mono; [|apply accessUp_spec]. intros r new2 (Hr2 & Ha). split; [auto using reads_app|]. intros Hok. split; [done|]. split; [done|].
  exists trusted, chain. split_and!.
  - destruct Ht as (named & Hf & Hacc). exists named. split.
    + eapply Forall2_impl; [exact Hf|]. intros s sid Hin. apply elem_of_app. by left.
    + destruct (ow_Account owners); [|done]. destruct Hacc as (u & Hu & ->). exists u. rewrite elem_of_app. auto.
  - done.
  - intros d cs c Hp Hd Hn. rewrite Hp, chainOf_drive in Ec by done. rewrite Hp. by injection Ec.
  - intros i p Hi. split; [|apply untouchable_more; right; apply untouchable_more; right; by apply (Ha Hok i)].
    apply seen_more. right. apply seen_more. left. pose proof (lookup_lt_Some _ _ _ Hi) as Hlt.
    specialize (Hk eq_refl (length chain - S i)%nat p). rewrite length_rev in Hk.
    rewrite (bool_decide_ext (i = 0%nat) (S (length chain - S i) = length chain)) by lia. apply Hk.
    rewrite rev_alt. fold (reverse chain). rewrite reverse_lookup by lia.
    by replace (length chain - S (length chain - S i))%nat with i by lia.
Qed.
End TrustedPath.

(** ** Examples *)

(** A system where every object is a folder or a file by its name, owned by SYSTEM, and
    everyone may read. *)
Definition readOnlySD : SecurityDescriptor :=
  mkSD (Ok (Some systemSid)) (Ok 0x8004)
    (Ok (Some [Ok (mkACE 0 0 FILE_ALL_ACCESS systemSid); Ok (mkACE 0 0x8 GENERIC_ALL (mkSID 3 [0])); Ok (mkACE 0 0 FILE_GENERIC_READ (mkSID 1 [0]))])).

Definition sampleWin (security : string → result SecurityDescriptor) (_ : list wevent) : WinFiles :=
  mkWinFiles (λ p, Ok (if HasPrefix (srev p) "exe." then 0x20 else 0x10)) security (Ok (mkSID 5 [21; 1; 2; 3; 1001]))
    (λ s, if String.eqb s system then Ok systemSid else if String.eqb s administrators then Ok administratorsSid
          else if String.eqb s trustedInstaller then Ok (mkSID 5 [80; 956008885; 3418522649; 1831038044; 1853292631; 2271478464]) else Err errEINVAL)
    (λ _, Err errEINVAL) (λ _, None) (λ _, Err errEINVAL) (λ _, Err errEINVAL) (λ _, Err errEINVAL)
    (λ _ _, mkNameAnswer None 0 [] errEINVAL) (λ _ _, mkNameAnswer None 0 [] errEINVAL) (λ _, Err errEINVAL) (λ _ _, Err errEINVAL)
    (λ _, Err errEINVAL) (λ _, None) (λ _ _, Ok false) (λ _ _, Ok false) (λ _ _, false) (λ _ _, None) (λ _ _, None) (λ _ _, None).

(** A folder to which others may add is fine for a file and not for a program; one from
    which they may delete is fine for neither. *)
Definition withAce (mask : Z) (p : string) : result SecurityDescriptor :=
  if String.eqb p "C:\tools" then
    Ok (mkSD (Ok (Some systemSid)) (Ok 0x8004) (Ok (Some [Ok (mkACE 0 0 FILE_ALL_ACCESS systemSid); Ok (mkACE 0 0 mask (mkSID 1 [0]))])))
  else Ok readOnlySD.

Example tools_folder :
  let file m := (CheckFile (sampleWin (withAce m)) "C:\tools\x.exe" MachineOwners []).1 in
  let program m := (CheckExecutable (sampleWin (withAce m)) "C:\tools\x.exe" MachineOwners []).1 in
  file 0x120089 = None /\ program 0x120089 = None /\ file 0x2 = None /\ program 0x2 ≠ None /\ file 0x40 ≠ None /\ program 0x40 ≠ None.
Proof. vm_compute. by split_and!. Qed.

(** The check means to refuse a share: it refuses [\\host\share\x.exe]. But it looks at
    the path before [Clean] turns slashes around, so the same share spelled with slashes
    passes, and the share's own server says who owns the file. *)
Theorem share_spelled_with_slashes_passes :
  let check p := (CheckFile (sampleWin (λ _, Ok readOnlySD)) p MachineOwners []).1 in
  CleanW "//host/share/x.exe" = "\\host\share\x.exe" /\
  check "\\host\share\x.exe" = Some (Wrap "\\host\share\x.exe" [Sentinel ErrUntrusted]) /\
  check "//host/share/x.exe" = None /\
  chainOf (CleanW "//host/share/x.exe") = Some ["\\host\share\x.exe"; "\\host\share\"].
Proof. vm_compute. by split_and!. Qed.
