(* ===== verification/PrivateDirWindows.v ===== *)
(** go/privatedir: private folders on Windows (privatedir_windows.go). *)

From S2P Require Import Prelude GoStrings GoError GoBinary GoFilepath GoFilepathWindows Events PrivateDir WindowsSecurity WindowsFiles.

Section PrivateDirWindows.
Context (K : list wevent → WinFiles) (sidString : SID → string).

(** [sddl]. *)
Definition sddl (sid : string) : string := "O:" +:+ sid +:+ "D:P(A;OICI;FA;;;" +:+ sid +:+ ")(A;OICI;FA;;;SY)".

Definition ERROR_ALREADY_EXISTS : errno := EOTHER 183.

(** [Make]. *)
Definition Make_windows (dir : string) : FM (option err) :=
  user ← getTokenUser K;
  match user with
  | Err e => mret (Some e)
  | Ok user =>
      sd ← descriptorFromString K (sddl (sidString user));
      match sd with
      | Err e => mret (Some e)
      | Ok sd =>
          match UTF16PtrFromString dir with
          | Err e => mret (Some e)
          | Ok name =>
              r ← createDirectory K name sd;
              mret (match r with
                    | None => None
                    | Some e => if errors_is_errno e ERROR_ALREADY_EXISTS then Some (Wrap dir [Sentinel FsErrExist]) else Some e
                    end)
          end
      end
  end.

(** [check]. *)
Definition check_windows (dir : string) : FM (option err) :=
  r ← getFileAttributes K dir;
  match r with
  | Err e => mret (Some e)
  | Ok attributes =>
      if negb (isDirectory attributes) then mret (Some (Plain "it is not a directory"))
      else if isReparsePoint attributes then mret (Some (Plain "it is a link or junction"))
      else
        sd ← namedSecurity K dir;
        match sd with
        | Err e => mret (Some e)
        | Ok sd =>
            user ← getTokenUser K;
            mret (match user with Err e => Some e | Ok user => checkDescriptor sd user end)
        end
  end.

#[export] Instance winPlatform : PrivatePlatform wevent := {|
  pp_isAbs := IsAbsW;
  pp_clean := CleanW;
  pp_dir := DirW;
  pp_lstat := winLstat K;
  pp_mkdirAll := winMkdirAll K;
  pp_make := Make_windows;
  pp_check := check_windows
|}.

(** ** What is proved *)

(** Only [user] and SYSTEM are granted anything. *)
Definition admits_only (user : SID) (sd : SecurityDescriptor) : Prop :=
  ∃ aces, describes sd user aces /\
    ∀ other token bit, user ∉ token → systemSid ∉ token → grants other user (Some aces) token bit = false.

Lemma checkDescriptor_admits sd user : checkDescriptor sd user = None → admits_only user sd.
Proof.
  intros Hc. pose proof Hc as (aces & c & Hd & _)%folderDescriptor_exact. exists aces. split; [done|].
  intros other token bit Hu Hs. eapply folder_admits_only; [exact Hc|done| |].
  - unfold Equals. by rewrite bool_decide_true.
  - intros sid Hin. unfold Equals. rewrite !bool_decide_false; [done|..]; by intros ->.
Qed.

(** What the last three answers of a successful check were. *)
Definition found_private (dir : string) (last : list wevent) : Prop :=
  ∃ a sd user, last = [WvAttributes dir (Ok a); WvNamedSecurity dir (Ok sd); WvTokenUser (Ok user)] /\
    isDirectory a = true /\ isReparsePoint a = false /\ admits_only user sd.

(** The folder is made with the descriptor Windows parsed from [sddl] of this account. *)
Definition made_private (new : list wevent) (dir : string) (e : wevent) : Prop :=
  match e with
  | WvMkdirAll p m _ => p = DirW dir /\ m = 0x1C0
  | WvCreateDirectory p sd _ => p = dir /\ ∃ user, WvTokenUser (Ok user) ∈ new /\ WvDescriptor (sddl (sidString user)) (Ok sd) ∈ new
  | WvSetSecurity _ _ _ => False
  | _ => True
  end.

Lemma made_more new new' dir e : made_private new dir e → made_private (new ++ new') dir e /\ made_private (new' ++ new) dir e.
Proof.
  destruct e; cbn; auto. intros (-> & user & H1 & H2). split; split; try done; exists user; rewrite !elem_of_app; auto.
Qed.

Lemma made_app dir a b : Forall (made_private a dir) a → Forall (made_private b dir) b → Forall (made_private (a ++ b) dir) (a ++ b).
Proof.
  intros Ha Hb. apply Forall_app. split; eapply Forall_impl; [exact Ha| |exact Hb|]; intros e He; [by apply (made_more a b)|by apply (made_more b a)].
Qed.

Lemma CheckDir_windows_spec dir h :
  adds (CheckDir dir) (λ r new, Forall (made_private new dir) new /\ existsb changesW new = false /\ (r = None → found_private dir new)) h.
Proof.
  unfold CheckDir. cbn [pp_check winPlatform]. unfold check_windows, getFileAttributes, UTF16PtrFromString, namedSecurity, getTokenUser.
  destruct (contains_char _ _); repeat adds_step; [by repeat constructor|].
  destruct (wf_attributes _ _) as [a|]; repeat adds_step; [|by repeat constructor].
  destruct (isDirectory a) eqn:Ed; cbn [negb]; repeat adds_step; [|by repeat constructor].
  destruct (isReparsePoint a) eqn:Er; repeat adds_step; [by repeat constructor|].
  destruct (wf_namedSecurity _ _) as [sd|]; repeat adds_step; [|by repeat constructor].
  split; [by repeat constructor|]. split; [done|]. destruct (wf_tokenUser _) as [user|]; [|done].
  destruct (checkDescriptor sd user) eqn:Ec; [done|]. intros _. exists a, sd, user. split_and!; [done|done|done|]. by apply checkDescriptor_admits.
Qed.

Lemma Make_windows_spec dir h : adds (Make_windows dir) (λ _ new, Forall (made_private new dir) new) h.
Proof.
  unfold Make_windows, getTokenUser, descriptorFromString, createDirectory, UTF16PtrFromString. repeat adds_step.
  destruct (wf_tokenUser _) as [user|]; repeat adds_step; [|by repeat constructor].
  destruct (wf_descriptor _ _) as [sd|]; [|repeat adds_step; by repeat constructor].
  destruct (contains_char _ _); repeat adds_step; [by repeat constructor|].
  do 2 (constructor; [done|]). constructor; [|constructor]. split; [done|]. exists user. set_solver.
Qed.

(** [Ensure] on Windows. It succeeds only when its last three answers were: the
    attributes of a folder that is no reparse point, its descriptor, and this account;
    and under that descriptor Windows grants nobody but this account and SYSTEM any
    right at all. Unless its first question was answered with [ErrNotExist] it changes
    nothing; what it creates is the parent, and the folder with the descriptor of
    [sddl] for this account. *)
Theorem ensure_private_windows dir h :
  adds (Ensure dir)
    (λ r new,
      (r = None → ∃ before last, new = before ++ last /\ found_private (CleanW dir) last) /\
      (existsb changesW new = true → ∃ e after, new = WvLstat (CleanW dir) (Some e) :: after /\ errors_is e FsErrNotExist = true) /\
      Forall (made_private new (CleanW dir)) new) h.
Proof.
  unfold Ensure. cbn [pp_isAbs pp_clean pp_dir pp_lstat pp_mkdirAll pp_make winPlatform].
  destruct (negb (IsAbsW dir)); [adds_step; split_and!; [done|done|constructor]|].
  unfold winLstat, winMkdirAll. repeat adds_step. destruct (wf_lstat _ _) as [e|] eqn:El.
  2: { eapply adds_mono; [|apply CheckDir_windows_spec]. intros r new (Hm & Hc & Hr). split_and!.
       - intros Hok. exists [WvLstat (CleanW dir) None], new. auto.
       - cbn. by rewrite Hc.
       - apply (made_app _ [_]); [by repeat constructor|done]. }
  destruct (errors_is e FsErrNotExist) eqn:En; repeat adds_step; [|split_and!; [done|done|by repeat constructor]].
  destruct (wf_mkdirAll _ _ _) as [e'|]; repeat adds_step; [split_and!; [done|intros _; by eauto|by repeat constructor]|].
  eapply adds_mono; [|apply Make_windows_spec]. intros made new Hm.
  destruct made as [e'|]; [destruct (negb _)|]; [adds_step|..];
    [rewrite ?app_nil_r; split_and!; [done|by eauto|apply (made_app _ [_; _]); [by repeat constructor|done]]|..];
    (eapply adds_mono; [|apply CheckDir_windows_spec]; intros r new' (Hm' & _ & Hr); split_and!;
     [intros Hok; eexists (_ :: _ :: new), new'; split; [done|auto]
     |by eauto
     |apply (made_app _ [_; _]); [by repeat constructor|by apply made_app]]).
Qed.
End PrivateDirWindows.
