(* ===== verification/ModelFoldersWindows.v ===== *)
(** go/privatedir: model folders on Windows (models_windows.go).

    The names of a file are enumerated with [names] units of fuel, one per answer of
    the system: a file has at most 1024 names and a name fits in 32768 units, so more
    answers than that are not given. *)

From S2P Require Import Prelude GoStrings GoError GoBinary GoFilepath GoFilepathWindows Events ModelScan ModelFolders.
From S2P Require Import WindowsSecurity WindowsFiles.

Definition extendedPath (p : string) : string := "\\?\" +:+ p.
Definition plainFinal (raw : string) : string := TrimPrefix raw "\\?\".

(** The descriptors [ProtectModelFolder] writes. *)
Definition folderSDDL (sid : string) : string :=
  "O:" +:+ sid +:+ "D:PAI(A;OICI;FA;;;" +:+ sid +:+ ")(A;OICI;FA;;;SY)(A;OICI;FA;;;BA)".
Definition childFolderSDDL (sid : string) : string :=
  "O:" +:+ sid +:+ "D:AI(A;OICIID;FA;;;" +:+ sid +:+ ")(A;OICIID;FA;;;SY)(A;OICIID;FA;;;BA)".
Definition childFileSDDL (sid : string) : string :=
  "O:" +:+ sid +:+ "D:AI(A;ID;FA;;;" +:+ sid +:+ ")(A;ID;FA;;;SY)(A;ID;FA;;;BA)".

(** [heldEntry]. *)
Record heldEntry := mkEntry { he_path : string; he_h : Z; he_dir : bool }.

Definition ERROR_MORE_DATA : errno := EOTHER 234.
Definition ERROR_HANDLE_EOF : errno := EOTHER 38.

(** The kinds of entry whose descriptors differ, the keys of the map [descriptors]. *)
Inductive entryKind := KTop | KDir | KFile.

#[global] Instance entryKind_eq_dec : EqDecision entryKind.
Proof. solve_decision. Defined.

Definition kindSDDL (k : entryKind) (sid : string) : string :=
  match k with KTop => folderSDDL sid | KDir => childFolderSDDL sid | KFile => childFileSDDL sid end.

(** The kind of the entry at index [i]. *)
Definition kindAt (i : nat) (e : heldEntry) : entryKind :=
  if (i =? 0)%nat then KTop else if he_dir e then KDir else KFile.

Section Windows_.
Context (K : list wevent → WinFiles) (sidString : SID → string) (names : nat).

(** [openEntry]. *)
Definition openEntry (p : string) : FM (result (heldEntry * HandleInfo)) :=
  match UTF16PtrFromString (extendedPath p) with
  | Err e => mret (Err e)
  | Ok name =>
      hd ← createFile K name;
      match hd with
      | Err e => mret (Err e)
      | Ok hd =>
          info ← handleInfo K hd;
          match info with
          | Err e => _ ← closeHandle hd; mret (Err e)
          | Ok info =>
              if isReparsePoint (hi_attributes info) then _ ← closeHandle hd; mret (Err (Plain (p +:+ " is a link or junction")))
              else mret (Ok (mkEntry p hd (isDirectory (hi_attributes info)), info))
          end
      end
  end.

(** The name in the first units of the buffer, with its volume. *)
Definition nameIn (vol : string) (a : NameAnswer) : string := vol +:+ UTF16ToString (take (na_length a) (na_units a)).

Definition tooManyNames : err := Plain "more answers than a file has names".

(** The loop over [FindNextFileNameW]. *)
Fixpoint nextNames (fuel : nat) (vol : string) (find : Z) (size : nat) (acc : list string) : FM (result (list string)) :=
  match fuel with
  | O => mret (Err tooManyNames)
  | S fuel =>
      a ← findNextName K find size;
      match na_ok a with
      | Some _ => nextNames fuel vol find size (acc ++ [nameIn vol a])
      | None =>
          if errors_is_errno (na_error a) ERROR_HANDLE_EOF then mret (Ok acc)
          else if errors_is_errno (na_error a) ERROR_MORE_DATA then
            let size := na_length a in
            b ← findNextName K find size;
            match na_ok b with
            | None => mret (Err (na_error b))
            | Some _ => nextNames fuel vol find size (acc ++ [nameIn vol b])
            end
          else mret (Err (na_error a))
      end
  end.

(** The loop over [FindFirstFileNameW] until its buffer is large enough. *)
Fixpoint firstName (fuel : nat) (name : string) (size : nat) : FM (result (Z * nat * NameAnswer)) :=
  a ← findFirstName K name size;
  match na_ok a with
  | Some find => mret (Ok (find, size, a))
  | None =>
      if errors_is_errno (na_error a) ERROR_MORE_DATA then
        match fuel with
        | O => mret (Err tooManyNames)
        | S fuel => firstName fuel name (na_length a)
        end
      else mret (Err (na_error a))
  end.

(** [linkNames]. *)
Definition linkNames (p : string) : FM (result (list string)) :=
  match UTF16PtrFromString (extendedPath p) with
  | Err e => mret (Err e)
  | Ok name =>
      let vol := VolumeName p in
      r ← firstName names name 1024;
      match r with
      | Err e => mret (Err e)
      | Ok (find, size, a) =>
          r ← nextNames names vol find size [nameIn vol a];
          _ ← findClose find;
          mret r
      end
  end.

Definition underW : string → list string → FM bool := underOf (underRootOf (identitySameFile K) (identityWithin K)).

(** The loop over the other names of a file. *)
Fixpoint allUnder (p : string) (roots others : list string) : FM (option err) :=
  match others with
  | [] => mret None
  | other :: others =>
      ok ← underW other roots;
      if negb ok then mret (Some (Plain (p +:+ " has another name outside OA's own folders"))) else allUnder p roots others
  end.

(** One child of a held folder: what is appended, and the error. *)
Definition openChildW (roots : list string) (parent : heldEntry) (name : string) : FM (list heldEntry * option err) :=
  let p := JoinW (he_path parent) name in
  r ← openEntry p;
  match r with
  | Err e => mret ([], Some e)
  | Ok (e, info) =>
      if negb (he_dir e) && (1 <? hi_links info) then
        ns ← linkNames p;
        match ns with
        | Err er => mret ([e], Some (Plain (p +:+ " has names which could not be listed")))
        | Ok ns => r ← allUnder p roots ns; mret ([e], r)
        end
      else mret ([e], None)
  end.

Definition listEntryW (e : heldEntry) : FM (result (list string)) := winReadDir K (he_path e).

Fixpoint closeEntries (all : list heldEntry) : FM unit :=
  match all with
  | [] => mret tt
  | e :: all => _ ← closeHandle (he_h e); closeEntries all
  end.

(** The loop that parses the descriptors, in the order the map gives its keys. *)
Fixpoint parseDescriptors (order : list entryKind) (sid : string) (acc : list (entryKind * SecurityDescriptor)) :
    FM (result (list (entryKind * SecurityDescriptor))) :=
  match order with
  | [] => mret (Ok acc)
  | k :: order =>
      sd ← descriptorFromString K (kindSDDL k sid);
      match sd with
      | Err e => mret (Err e)
      | Ok sd => parseDescriptors order sid ((k, sd) :: acc)
      end
  end.

(** [descriptors[kind]]. *)
Fixpoint descriptorOf (k : entryKind) (l : list (entryKind * SecurityDescriptor)) : option SecurityDescriptor :=
  match l with
  | [] => None
  | (k', sd) :: l => if decide (k = k') then Some sd else descriptorOf k l
  end.

(** The loop that writes the descriptors. *)
Fixpoint writeDescriptors (ds : list (entryKind * SecurityDescriptor)) (i : nat) (all : list heldEntry) : FM (option err) :=
  match all with
  | [] => mret None
  | e :: all =>
      match descriptorOf (kindAt i e) ds with
      | None => mret (Some errEINVAL)
      | Some sd =>
          r ← setKernelObjectSecurity K (he_h e) sd;
          match r with
          | Some er => mret (Some (Wrap (he_path e) [er]))
          | None => writeDescriptors ds (S i) all
          end
      end
  end.

(** What [protectModels] does once every entry is held. *)
Definition writeEntries (order : list entryKind) (all : list heldEntry) : FM (option err) :=
  user ← getTokenUser K;
  match user with
  | Err e => mret (Some e)
  | Ok user =>
      ds ← parseDescriptors order (sidString user) [];
      match ds with
      | Err e => mret (Some e)
      | Ok ds => writeDescriptors ds 0 all
      end
  end.

(** [protectModels]; [order] is the order of the map of descriptors. *)
Definition protectModelsW (order : list entryKind) (fuel : nat) (dir : string) (roots : list string) : FM (option (option err)) :=
  top ← openEntry dir;
  match top with
  | Err e => mret (Some (Some e))
  | Ok (top, _) =>
      if negb (he_dir top) then _ ← closeEntries [top]; mret (Some (Some (Plain "it is not a directory")))
      else
        r ← scanLoop he_dir listEntryW (openChildW roots) fuel 0 [top];
        match r with
        | (all, Running) => mret None
        | (all, Refused e) => _ ← closeEntries all; mret (Some (Some e))
        | (all, Scanned) => r ← writeEntries order all; _ ← closeEntries all; mret (Some r)
        end
  end.

(** [checkModels]. *)
Definition checkModelsW (dir : string) : FM (option err) :=
  r ← openEntry dir;
  match r with
  | Err e => mret (Some e)
  | Ok (e, _) =>
      r ←
        (if negb (he_dir e) then mret (Some (Plain "it is not a directory"))
         else
           sd ← handleSecurity K (he_h e);
           match sd with
           | Err er => mret (Some er)
           | Ok sd => user ← getTokenUser K; mret (match user with Err er => Some er | Ok user => checkModelsDescriptor sd user end)
           end);
      _ ← closeHandle (he_h e);
      mret r
  end.

(** The folders [checkRoot] asks for, and those it compares with. *)
Fixpoint knownFoldersW (ids : list KnownFolder) (known : list string) : FM (list string) :=
  match ids with
  | [] => mret known
  | id :: ids =>
      r ← knownFolderPath K id;
      match r with
      | Err _ => knownFoldersW ids known
      | Ok p =>
          if String.eqb p "" then knownFoldersW ids known
          else
            let p := CleanW p in
            knownFoldersW ids (known ++ p :: (if decide (id = FRoamingAppData) then [DirW p] else []))
      end
  end.

(** The loop that compares [root] with each. *)
Fixpoint isKnown (root : string) (known : list string) : FM bool :=
  match known with
  | [] => mret false
  | k :: known =>
      r ← identitySameFile K root k;
      match r with Ok true => mret true | _ => isKnown root known end
  end.

(** The loop over [p] and the folders above it. *)
Fixpoint reparseAbove (fuel : nat) (p : string) : FM (option err) :=
  r ← getFileAttributes K (extendedPath p);
  match r with
  | Err e => mret (Some (Wrap p [e]))
  | Ok attributes =>
      if isReparsePoint attributes then mret (Some (Plain (p +:+ " is a link or junction")))
      else if String.eqb (DirW p) p then mret None
      else match fuel with
           | O => mret (Some (Plain "the loop did not reach the root"))
           | S fuel => reparseAbove fuel (DirW p)
           end
  end.

(** The loop that asks for the final path until the buffer is large enough. *)
Fixpoint finalSpelling (fuel : nat) (root : string) (hd : Z) (size : nat) : FM (option err) :=
  r ← finalPathNameByHandle K hd size;
  match r with
  | Err e => mret (Some e)
  | Ok (n, units) =>
      if (n <? size)%nat then
        let final := plainFinal (UTF16ToString (take n units)) in
        same ← identitySamePathName K final root;
        mret (if negb same then Some (Plain ("it resolves to " +:+ final)) else None)
      else match fuel with
           | O => mret (Some (Plain "its path does not end"))
           | S fuel => finalSpelling fuel root hd (n + 1)
           end
  end.

(** [checkRoot]. *)
Definition checkRootW (root : string) : FM (option err) :=
  known ← knownFoldersW [FProfile; FDocuments; FDesktop; FDownloads; FRoamingAppData; FLocalAppData] [];
  isk ← isKnown root known;
  if isk : bool then mret (Some (Plain "it is a known folder"))
  else
    h ← holdsOf (underRootOf (identitySameFile K) (identityWithin K)) root (take 1 known);
    if h : bool then mret (Some (Plain "it holds this account's home"))
    else
      above ← reparseAbove (String.length root) root;
      match above with
      | Some e => mret (Some e)
      | None =>
          r ← openEntry root;
          match r with
          | Err e => mret (Some e)
          | Ok (e, _) =>
              r ← (if negb (he_dir e) then mret (Some (Plain "it is not a directory")) else finalSpelling names root (he_h e) 512);
              _ ← closeHandle (he_h e);
              mret r
          end
      end.

#[export] Instance winModels (order : list entryKind) : ModelPlatform wevent := {|
  mp_isAbs := IsAbsW;
  mp_clean := CleanW;
  mp_dir := DirW;
  mp_localPath := identityLocalPath K;
  mp_sameFile := identitySameFile K;
  mp_within := identityWithin K;
  mp_lstat := winLstat K;
  mp_protect := protectModelsW order;
  mp_checkModels := checkModelsW;
  mp_checkRoot := checkRootW
|}.
End Windows_.
