(* ===== verification/ModelFoldersWindowsFacts.v ===== *)
(** What [protectModels] does to a folder on Windows, whatever others do to it
    meanwhile. *)

From S2P Require Import Prelude GoStrings GoError GoBinary GoFilepath GoFilepathWindows Events ModelScan ModelFolders.
From S2P Require Import WindowsSecurity WindowsFiles ModelFoldersWindows.

(** ** Handles *)

(** The file handles and the searches opened, and closed. *)
Definition openedW : list wevent → list (Z + Z) :=
  omap (λ e, match e with WvCreateFile _ (Ok h) => Some (inl h) | WvFirstName _ _ a => inr <$> na_ok a | _ => None end).
Definition closedW : list wevent → list (Z + Z) :=
  omap (λ e, match e with WvCloseHandle h => Some (inl h) | WvFindClose f => Some (inr f) | _ => None end).

Lemma openedW_app a b : openedW (a ++ b) = openedW a ++ openedW b.
Proof. apply omap_app. Qed.
Lemma closedW_app a b : closedW (a ++ b) = closedW a ++ closedW b.
Proof. apply omap_app. Qed.

Definition handles (all : list heldEntry) : list (Z + Z) := inl ∘ he_h <$> all.

(** What was opened is held or closed. *)
Definition accountedW (all : list heldEntry) (new : list wevent) : Prop := openedW new ≡ₚ handles all ++ closedW new.

Lemma accountedW_app all es new new' : accountedW all new → accountedW es new' → accountedW (all ++ es) (new ++ new').
Proof. unfold accountedW, handles. intros H1 H2. rewrite openedW_app, closedW_app, fmap_app, H1, H2. solve_Permutation. Qed.

Lemma accountedW_nil new new' all : accountedW all new → accountedW [] new' → accountedW all (new ++ new').
Proof. intros H1 H2. rewrite <- (app_nil_r all). by apply accountedW_app. Qed.

#[export] Hint Resolve accountedW_app accountedW_nil : events.

(** Only questions, and nothing left open. *)
Definition clean_reads (new : list wevent) : Prop := reads new /\ accountedW [] new.

Lemma clean_app a b : clean_reads a → clean_reads b → clean_reads (a ++ b).
Proof. intros [? ?] [? ?]. split; auto with events. Qed.

Lemma clean_nil : clean_reads [].
Proof. split; [apply Forall_nil_2|by unfold accountedW]. Qed.

(** One question that opens nothing. *)
Lemma clean_one e : changesW e = false → openedW [e] = [] → closedW [e] = [] → clean_reads [e].
Proof. intros Hc Ho Hcl. split; [by apply Forall_singleton|]. unfold accountedW. by rewrite Ho, Hcl. Qed.

Lemma clean_cons e new : changesW e = false → openedW [e] = [] → closedW [e] = [] → clean_reads new → clean_reads (e :: new).
Proof. intros. apply (clean_app [e]); [by apply clean_one|done]. Qed.

#[export] Hint Resolve clean_app clean_nil clean_one clean_cons : events.

Section Facts.
Context (K : list wevent → WinFiles) (sidString : SID → string) (names : nat).

(** ** Questions about paths *)

(** [o] was found to be a root, or below one. *)
Definition under_some (new : list wevent) (roots : list string) (o : string) : Prop :=
  ∃ r, r ∈ roots /\ (WvSameFile o r (Ok true) ∈ new \/ WvWithin o r (Ok true) ∈ new).

Lemma under_more a b roots o : under_some a roots o \/ under_some b roots o → under_some (a ++ b) roots o.
Proof. intros [(r & Hr & H) | (r & Hr & H)]; exists r; rewrite !elem_of_app; naive_solver. Qed.

Lemma underRoot_spec p r h :
  adds (underRootOf (identitySameFile K) (identityWithin K) p r)
    (λ res new, clean_reads new /\ (res = Ok true → under_some new [r] p)) h.
Proof.
  unfold underRootOf, identitySameFile, identityWithin. repeat adds_step.
  destruct (wf_sameFile _ _ _) as [[]|] eqn:Es; repeat adds_step;
    [split; [auto with events|intros _; exists r; split; [by left|left; by left]]|..];
    (destruct (wf_within _ _ _) as [b|] eqn:Ew; repeat adds_step; split; auto with events; try done;
     intros [= ->]; exists r; split; [by left|right; right; by left]).
Qed.

Lemma underW_spec p roots h : adds (underW K p roots) (λ b new, clean_reads new /\ (b = true → under_some new roots p)) h.
Proof.
  unfold underW. revert h. induction roots as [|r roots IH]; intros h; cbn [underOf]; [adds_step; split; [auto with events|done]|].
  adds_step. eapply adds_mono; [|apply underRoot_spec]. intros res new (Hc & Hu).
  assert (adds (underOf (underRootOf (identitySameFile K) (identityWithin K)) p roots)
    (λ b new', clean_reads (new ++ new') /\ (b = true → under_some (new ++ new') (r :: roots) p)) (h ++ new)) as Hrest.
  { eapply adds_mono; [|apply IH]. intros b new' (Hc' & Hu'). split; [auto with events|]. intros Hb. apply under_more. right.
    destruct (Hu' Hb) as (x & Hx & H). exists x. split; [by right|done]. }
  destruct res as [[]|]; [|exact Hrest..]. adds_step. rewrite app_nil_r. split; [done|]. intros _.
  destruct (Hu eq_refl) as (x & Hx%list_elem_of_singleton & H). subst. exists r. split; [by left|done].
Qed.

Lemma allUnder_spec p roots others h :
  adds (allUnder K p roots others) (λ r new, clean_reads new /\ (r = None → Forall (under_some new roots) others)) h.
Proof.
  revert h. induction others as [|o others IH]; intros h; cbn [allUnder]; [adds_step; split; [auto with events|constructor]|].
  adds_step. eapply adds_mono; [|apply underW_spec]. intros b new (Hc & Hu). destruct b; cbn [negb]; [|adds_step; by rewrite app_nil_r].
  eapply adds_mono; [|apply IH]. intros r new' (Hc' & Hf). split; [auto with events|]. intros Hr. constructor.
  - apply under_more. auto.
  - eapply Forall_impl; [by apply Hf|]. intros x Hx. apply under_more. auto.
Qed.

(** ** Names *)

Lemma nextNames_spec fuel vol find size acc h : adds (nextNames K fuel vol find size acc) (λ _ new, clean_reads new) h.
Proof.
  revert size acc h. induction fuel as [|fuel IH]; intros size acc h; cbn [nextNames]; [adds_step; auto with events|].
  unfold findNextName. repeat adds_step. destruct (na_ok _); [eapply adds_mono; [|apply IH]; auto with events|].
  destruct (errors_is_errno _ _); [adds_step; auto with events|]. destruct (errors_is_errno _ _); repeat adds_step; [|auto with events].
  destruct (na_ok _); [eapply adds_mono; [|apply IH]; auto with events|adds_step; auto with events].
Qed.

Lemma firstName_spec fuel name size h :
  adds (firstName K fuel name size)
    (λ r new, reads new /\ if r is Ok (find, _, _) then openedW new = [inr find] /\ closedW new = [] else accountedW [] new) h.
Proof.
  revert size h. induction fuel as [|fuel IH]; intros size h; cbn [firstName]; unfold findFirstName; repeat adds_step;
    destruct (na_ok (wf_firstName _ _ _)) as [find|] eqn:Ef.
  1, 3: adds_step; split; [by repeat constructor|]; cbn; by rewrite Ef.
  - assert (clean_reads [WvFirstName name size (wf_firstName (K h) name size)]) as Hc by (apply clean_one; [done|cbn; by rewrite Ef|done]).
    destruct (errors_is_errno _ _); adds_step; apply Hc.
  - assert (clean_reads [WvFirstName name size (wf_firstName (K h) name size)]) as [Hc1 Hc2] by (apply clean_one; [done|cbn; by rewrite Ef|done]).
    destruct (errors_is_errno _ _); [|by adds_step]. eapply adds_mono; [|apply IH]. intros r new (Hr & Ho). split; [auto with events|].
    destruct r as [[[find s] a]|]; [|auto with events]. destruct Ho as [Ho Hcl]. rewrite openedW_app, closedW_app, Ho, Hcl. cbn. by rewrite Ef.
Qed.

Lemma linkNames_spec p h : adds (linkNames K names p) (λ r new, clean_reads new /\ r = (linkNames K names p h).1) h.
Proof.
  cut (adds (linkNames K names p) (λ _ new, clean_reads new) h); [intros (new & H1 & H2); by exists new|].
  unfold linkNames. destruct (UTF16PtrFromString _); [|adds_step; auto with events]. adds_step. eapply adds_mono; [|apply firstName_spec].
  intros [[[find size] a']|e] new (Hr & Ho); [|adds_step; rewrite app_nil_r; by split]. destruct Ho as [Ho Hcl].
  adds_step. eapply adds_mono; [|apply nextNames_spec]. intros r new' [Hr' Ha']. unfold findClose. repeat adds_step.
  split; [apply reads_app; [done|]; apply reads_app; [done|by repeat constructor]|]. unfold accountedW in *.
  rewrite !openedW_app, !closedW_app, Ho, Hcl, Ha'. cbn. solve_Permutation.
Qed.

(** ** Entries *)

Context (roots : list string).

(** An entry held as itself: opened without following a link, found through its handle
    to be no reparse point, and, when it is a file of more than one name, with every
    name [linkNames] gave found to be below a root. *)
Definition genuineW (new : list wevent) (e : heldEntry) : Prop :=
  ∃ info, WvCreateFile (extendedPath (he_path e)) (Ok (he_h e)) ∈ new /\ WvHandleInfo (he_h e) (Ok info) ∈ new /\
    isReparsePoint (hi_attributes info) = false /\ he_dir e = isDirectory (hi_attributes info) /\
    (he_dir e = false → 1 < hi_links info →
     ∃ ns h0, (linkNames K names (he_path e) h0).1 = Ok ns /\ Forall (under_some new roots) ns).

Lemma genuineW_more a b e : genuineW a e \/ genuineW b e → genuineW (a ++ b) e.
Proof.
  intros [H|H]; destruct H as (info & H1 & H2 & H3 & H4 & H5); exists info; rewrite !elem_of_app; split_and!; auto;
    intros Hd Hl; destruct (H5 Hd Hl) as (ns & h0 & Hn & Hf); exists ns, h0; (split; [done|]);
    (eapply Forall_impl; [exact Hf|]); intros o Ho; apply under_more; auto.
Qed.

Lemma genuineW_app all es a b : Forall (genuineW a) all → Forall (genuineW b) es → Forall (genuineW (a ++ b)) (all ++ es).
Proof.
  intros Ha Hb. apply Forall_app. split; eapply Forall_impl; [exact Ha| |exact Hb|]; intros e He; apply genuineW_more; auto.
Qed.

Lemma openEntry_spec p h :
  adds (openEntry K p)
    (λ r new, reads new /\
      if r is Ok (e, info) then accountedW [e] new /\ he_path e = p /\ WvCreateFile (extendedPath p) (Ok (he_h e)) ∈ new /\
        WvHandleInfo (he_h e) (Ok info) ∈ new /\ isReparsePoint (hi_attributes info) = false /\ he_dir e = isDirectory (hi_attributes info)
      else accountedW [] new) h.
Proof.
  unfold openEntry, UTF16PtrFromString, createFile, handleInfo, closeHandle, accountedW.
  destruct (contains_char _ _); [adds_step; by repeat constructor|]. repeat adds_step.
  destruct (wf_createFile _ _) as [hd|e]; [|adds_step; by repeat constructor]. repeat adds_step.
  destruct (wf_handleInfo _ _) as [info|e]; [|repeat adds_step; by repeat constructor].
  destruct (isReparsePoint (hi_attributes info)) eqn:Er; repeat adds_step; [by repeat constructor|].
  split; [by repeat constructor|]. cbn. rewrite !elem_of_cons. auto 10.
Qed.

Lemma openChildW_spec parent n h :
  adds (openChildW K names roots parent n)
    (λ r new, reads new /\ accountedW r.1 new /\
      (r.2 = None → ∃ e, r.1 = [e] /\ he_path e = JoinW (he_path parent) n /\ genuineW new e)) h.
Proof.
  unfold openChildW. cbv zeta. set (p := JoinW _ _). adds_step. eapply adds_mono; [|apply openEntry_spec].
  intros [[e info]|er] new (Hr & Ho); [|adds_step; rewrite app_nil_r; by split_and!].
  destruct Ho as (Ha & Hp & Hc & Hi & Hrp & Hd). destruct (negb (he_dir e) && (1 <? hi_links info)) eqn:El.
  2: { adds_step. rewrite app_nil_r. split_and!; [done|done|]. intros _. exists e. split_and!; [done|done|]. exists info. rewrite Hp.
       split_and!; [done..|]. intros Hf Hl. rewrite Hf in El. cbn in El. to_prop. lia. }
  adds_step. eapply adds_mono; [|apply linkNames_spec]. intros ns new1 ([Hr1 Ha1] & Hns). destruct ns as [ns|er]; repeat adds_step.
  2: { rewrite app_nil_r. split_and!; [auto with events| |done]. cbn. auto with events. }
  eapply adds_mono; [|apply allUnder_spec]. intros r new2 ([Hr2 Ha2] & Hu). adds_step. rewrite app_nil_r. split_and!.
  - auto with events.
  - cbn. auto with events.
  - cbn. intros ->. exists e. split_and!; [done|done|]. exists info. rewrite Hp, !elem_of_app. split_and!; auto.
    intros _ _. exists ns. eexists. split; [by rewrite <- Hns|]. eapply Forall_impl; [by apply Hu|]. intros o Hx.
    apply under_more. right. apply under_more. by right.
Qed.

(** ** The walk *)

Definition scanningW (all : list heldEntry) (new : list wevent) : Prop :=
  reads new /\ accountedW all new /\ Forall (genuineW new) all.
Definition stoppedW (all : list heldEntry) (new : list wevent) : Prop := reads new /\ accountedW all new.

Definition listedW (e : heldEntry) (ns : list string) (ev : wevent) : Prop := ev = WvReadDir (he_path e) (Ok ns).
Definition childW (e : heldEntry) (n : string) (c : heldEntry) : Prop := he_path c = JoinW (he_path e) n.

Lemma scanW_spec fuel top new h : scanningW [top] new →
  adds (scanLoop he_dir (listEntryW K) (openChildW K names roots) fuel 0 [top])
    (λ r new', (if r.2 is Refused _ then stoppedW r.1 (new ++ new') else scanningW r.1 (new ++ new')) /\
               (∃ es, r.1 = top :: es) /\
               (r.2 = Scanned → walked he_dir listedW childW (length r.1) r.1 (new ++ new'))) (h ++ new).
Proof.
  intros Hs. eapply adds_mono; [|eapply adds_and;
    [apply (scanLoop_keeps he_dir (listEntryW K) (openChildW K names roots) h scanningW stoppedW (λ _ _, True)) with (new := new)|
     apply (scanLoop_walked he_dir (listEntryW K) (openChildW K names roots) listedW childW) with (new := new)]].
  - intros r new' [[Hk Hes] Hw]. auto.
  - intros x all n Hx _ (Hu & Ha & Hg). unfold listEntryW, winReadDir. adds_step.
    assert (stoppedW all (n ++ [WvReadDir (he_path x) (wf_readDir (K (h ++ n)) (he_path x))])) as Hst.
    { split; [apply reads_app; [done|by repeat constructor]|]. apply accountedW_nil; [done|by unfold accountedW]. }
    destruct (wf_readDir _ _); [|done]. destruct Hst. split; [|by apply Forall_true]. split_and!; [done|done|].
    rewrite <- (app_nil_r all). by apply genuineW_app.
  - intros x nm all n Hx _ _ (Hu & Ha & Hg). eapply adds_mono; [|apply openChildW_spec].
    intros [es oe] new1 (Hu1 & Ha1 & Hg1). cbn in *. unfold stoppedW, scanningW.
    destruct oe; split_and!; auto with events. destruct Hg1 as (e & -> & _ & He); [done|]. apply genuineW_app; by repeat constructor.
  - done.
  - intros x h0. unfold listEntryW, winReadDir. adds_step. destruct (wf_readDir _ _); [|done]. by repeat constructor.
  - intros x n h0. eapply adds_mono; [|apply openChildW_spec]. intros [es oe] new1 (_ & _ & Hg1) Hok.
    destruct Hg1 as (e & Hes & He & _); [done|]. cbn in Hes. subst es. exists e. split; [by left|done].
  - cbn. lia.
  - intros j x Hj. lia.
Qed.

(** ** The writes *)

(** The events that write the descriptors of the entries from index [i] on. *)
Fixpoint writesOf (ds : list (entryKind * SecurityDescriptor)) (i : nat) (all : list heldEntry) (rs : list (option err)) : list wevent :=
  match all, rs with
  | e :: all, r :: rs =>
      match descriptorOf (kindAt i e) ds with
      | Some sd => WvSetSecurity (he_h e) sd r :: writesOf ds (S i) all rs
      | None => []
      end
  | _, _ => []
  end.

Lemma writesOf_handles ds i all rs : openedW (writesOf ds i all rs) = [] /\ closedW (writesOf ds i all rs) = [].
Proof.
  revert i rs. induction all as [|e all IH]; intros i [|r rs]; try done. cbn. destruct (descriptorOf _ _); [|done]. cbn. apply IH.
Qed.

Lemma writeDescriptors_spec ds i all h :
  adds (writeDescriptors K ds i all) (λ r new, ∃ rs, new = writesOf ds i all rs /\ (r = None → rs = replicate (length all) None)) h.
Proof.
  revert i h. induction all as [|e all IH]; intros i h; cbn [writeDescriptors]; [adds_step; by exists []|].
  destruct (descriptorOf (kindAt i e) ds) as [sd|] eqn:Ed; [|adds_step; exists []; by split].
  unfold setKernelObjectSecurity. repeat adds_step. destruct (wf_setSecurity _ _ _) as [er|] eqn:Er.
  { adds_step. exists [Some er]. cbn. rewrite Ed. split; [by destruct all|done]. }
  eapply adds_mono; [|apply IH]. intros r new (rs & -> & Hr). exists (None :: rs). cbn. rewrite Ed. split; [done|]. intros Hn. by rewrite Hr.
Qed.

Lemma parseDescriptors_spec order sid acc h :
  adds (parseDescriptors K order sid acc)
    (λ r new, clean_reads new /\
      if r is Ok ds then
        (∀ k sd, descriptorOf k ds = Some sd → descriptorOf k acc = Some sd \/ WvDescriptor (kindSDDL k sid) (Ok sd) ∈ new) /\
        (∀ k, k ∈ order \/ is_Some (descriptorOf k acc) → is_Some (descriptorOf k ds))
      else True) h.
Proof.
  revert acc h. induction order as [|k0 order IH]; intros acc h; cbn [parseDescriptors].
  { adds_step. split; [auto with events|]. split; [auto|]. intros k [H%not_elem_of_nil|H]; done. }
  unfold descriptorFromString. repeat adds_step. destruct (wf_descriptor _ _) as [sd0|]; [|adds_step; split; auto with events].
  eapply adds_mono; [|apply IH]. intros r new (Hc & Hr). split; [auto with events|]. destruct r as [ds|]; [|done]. destruct Hr as [Hd Hall]. split.
  - intros k sd Hk. cbn [app]. rewrite elem_of_cons. destruct (Hd k sd Hk) as [Ha | ?]; [|auto]. cbn in Ha. destruct (decide (k = k0)) as [->|]; [|auto].
    injection Ha as ->. auto.
  - intros k Hk. apply Hall. cbn. destruct (decide (k = k0)) as [->|Hne]; [by right|]. destruct Hk as [[-> | ?]%elem_of_cons | ?]; [done|auto..].
Qed.

(** Each descriptor is what Windows made of this account's [kindSDDL]. *)
Definition own_descriptors (ds : list (entryKind * SecurityDescriptor)) (new : list wevent) : Prop :=
  ∀ k sd, descriptorOf k ds = Some sd →
    ∃ user, WvTokenUser (Ok user) ∈ new /\ WvDescriptor (kindSDDL k (sidString user)) (Ok sd) ∈ new.

Lemma writeEntries_spec order all h : (∀ k, k ∈ order) →
  adds (writeEntries K sidString order all)
    (λ r new, ∃ prep ds rs, new = prep ++ writesOf ds 0 all rs /\ clean_reads prep /\ own_descriptors ds prep /\
      (r = None → rs = replicate (length all) None /\ ∀ k, is_Some (descriptorOf k ds))) h.
Proof.
  intros Hord. unfold writeEntries, getTokenUser. repeat adds_step. destruct (wf_tokenUser _) as [user|].
  2: { adds_step. exists [WvTokenUser (Err e)], [], []. destruct all; split_and!; auto with events; done. }
  adds_step. eapply adds_mono; [|apply parseDescriptors_spec]. intros [ds|e] new (Hc & Hr).
  2: { adds_step. exists (WvTokenUser (Ok user) :: new), [], []. rewrite app_nil_r. destruct all; rewrite app_nil_r; split_and!; auto with events; done. }
  destruct Hr as [Hd Hall]. eapply adds_mono; [|apply writeDescriptors_spec]. intros r new' (rs & -> & Hrs).
  exists (WvTokenUser (Ok user) :: new), ds, rs. split_and!; [done|auto with events| |].
  - intros k sd [Hk | Hk]%Hd; [done|]. exists user. split; [by left|by right].
  - intros Hn. split; [auto|]. intros k. apply Hall. auto.
Qed.

Definition closingW (e : heldEntry) : wevent := WvCloseHandle (he_h e).

Lemma closeEntries_spec all h : adds (closeEntries all) (λ _ new, new = closingW <$> all) h.
Proof.
  revert h. induction all as [|e all IH]; intros h; cbn [closeEntries]; [by adds_step|]. unfold closeHandle. repeat adds_step.
  eapply adds_mono; [|apply IH]. by intros _ new ->.
Qed.

Lemma closingW_handles all : openedW (closingW <$> all) = [] /\ closedW (closingW <$> all) = handles all.
Proof. induction all as [|e all [IH1 IH2]]; [done|]. cbn. split; [done|]. by f_equal. Qed.

Lemma closingW_reads all : reads (closingW <$> all).
Proof. apply Forall_fmap, Forall_true. done. Qed.

(** The shape of a run of [protectModels]. *)
Definition disciplinedW (dir : string) (r : option (option err)) (new : list wevent) : Prop :=
  ∃ scan all ds rs closes,
    new = scan ++ writesOf ds 0 all rs ++ closes /\ reads scan /\ reads closes /\
    (rs ≠ [] → Forall (genuineW scan) all /\ walked he_dir listedW childW (length all) all scan /\ own_descriptors ds scan /\
               ∃ top, all !! 0%nat = Some top /\ he_path top = dir /\ he_dir top = true) /\
    (r = Some None → all ≠ [] /\ rs = replicate (length all) None /\ ∀ k, is_Some (descriptorOf k ds)) /\
    (r ≠ None → openedW new ≡ₚ closedW new).

Lemma settled_handles all scan ds rs : accountedW all scan →
  let new := scan ++ writesOf ds 0 all rs ++ (closingW <$> all) in openedW new ≡ₚ closedW new.
Proof.
  intros Ha. cbn. rewrite !openedW_app, !closedW_app. destruct (writesOf_handles ds 0 all rs) as [-> ->].
  destruct (closingW_handles all) as [-> ->]. unfold accountedW in Ha. rewrite app_nil_r, Ha. solve_Permutation.
Qed.

Lemma refuseW_spec dir all scan e h : reads scan → accountedW all scan →
  adds (_ ← closeEntries all; mret (Some (Some e))) (λ r new, disciplinedW dir r (scan ++ new)) h.
Proof.
  intros Hu Ha. adds_step. eapply adds_mono; [|apply closeEntries_spec]. intros _ new ->. adds_step. rewrite app_nil_r.
  pose proof (settled_handles all scan [] [] Ha) as Hb. exists scan, all, [], [], (closingW <$> all).
  assert (writesOf [] 0 all [] = []) as Hw by (by destruct all). rewrite Hw in *. split_and!; auto using closingW_reads; done.
Qed.
End Facts.

(** [protectModels] on Windows, whatever else happens to the files. Its events are
    questions, then writes, then closes. A descriptor is written only when the walk has
    ended: then the entries held are the folder asked for and, for every folder held, an
    entry for each name its listing gave; each was opened as itself and is no reparse
    point; each file of more than one name had every name found under a root; and each
    write goes through the entry's own handle and is what Windows made of the SDDL text
    for this account and this kind of entry, the top folder's protected, the others'
    inherited. When it succeeds every entry was written. When it returns, every handle
    and every search it opened has been closed, as often as it was opened. *)
Theorem protect_models_windows K sidString names order fuel dir roots h : (∀ k, k ∈ order) →
  adds (protectModelsW K sidString names order fuel dir roots) (disciplinedW K sidString names roots dir) h.
Proof.
  intros Hord. unfold protectModelsW. adds_step. eapply adds_mono; [|apply openEntry_spec]. intros [[top info]|e] scan (Hr & Ho).
  2: { adds_step. rewrite app_nil_r. exists scan, [], [], [], []. cbn. rewrite !app_nil_r. split_and!; auto; try done; constructor. }
  destruct Ho as (Ha & Hp & Hc & Hi & Hrp & Hd). destruct (he_dir top) eqn:Hdir; cbn [negb]; [|by apply refuseW_spec].
  adds_step. eapply adds_mono; [|apply (scanW_spec K names roots fuel top scan h)].
  2: { split_and!; [done|done|]. apply Forall_singleton. exists info. rewrite Hp, Hdir. by split_and!. }
  intros [all [|e|]] new (Hk & (es & Hes) & Hw); cbn in Hk, Hes, Hw.
  - destruct Hk as (Hu2 & Ha2 & Hg2). adds_step. eapply adds_mono; [|by apply writeEntries_spec].
    intros r new2 (prep & ds & rs & -> & [Hpr Hpa] & Hod & Hok). adds_step. eapply adds_mono; [|apply closeEntries_spec]. intros _ new3 ->. adds_step.
    pose proof (settled_handles all ((scan ++ new) ++ prep) ds rs (accountedW_nil _ _ _ Ha2 Hpa)) as Hb. cbn in Hb.
    exists ((scan ++ new) ++ prep), all, ds, rs, (closingW <$> all). rewrite app_nil_r, <- !app_assoc in *.
    split_and!; auto using closingW_reads.
    + rewrite app_assoc. auto with events.
    + intros _. rewrite app_assoc. split_and!.
      * rewrite <- (app_nil_r all). by apply genuineW_app.
      * rewrite <- (app_nil_r all). apply walked_more; [rewrite app_nil_r; lia|]. rewrite app_nil_r. by apply Hw.
      * intros k sd (u & H1 & H2)%Hod. exists u. rewrite !elem_of_app. auto.
      * exists top. by rewrite Hes.
    + intros [= ->]. split; [by rewrite Hes|auto].
  - destruct Hk as [Hu2 Ha2]. eapply adds_mono; [|by apply (refuseW_spec K sidString names roots dir all (scan ++ new))].
    intros r new2 Hrr. by rewrite app_assoc.
  - destruct Hk as (Hu2 & Ha2 & Hg2). adds_step. exists (scan ++ new), [], [], [], []. cbn. rewrite !app_nil_r. split_and!; [done|done|constructor|done..].
Qed.

(** A system with one folder, [C:\models], that holds one file of two names. *)
Definition sampleModels (h : list wevent) : WinFiles :=
  let opens := omap (λ e, match e with WvCreateFile p (Ok f) => Some (f, p) | _ => None end) h in
  let path f := from_option snd "" (head (filter (λ x, x.1 = f) opens)) in
  let known p := existsb (String.eqb p) ["\\?\C:\models"; "\\?\C:\models\a.gguf"] in
  let asked := existsb (λ e, match e with WvNextName _ _ _ => true | _ => false end) h in
  let units s := map (λ c, Z.of_nat (nat_of_ascii c)) (String.list_ascii_of_string s) in
  mkWinFiles (λ _, Ok 0x10) (λ _, Err errEINVAL) (Ok (mkSID 5 [21; 7])) (λ _, Err errEINVAL)
    (λ _, Ok (mkSD (Ok None) (Ok 0) (Ok None))) (λ _, None)
    (λ p, if known p then Ok (Z.of_nat (100 + length opens)) else Err (OSErr ENOENT))
    (λ f, Ok (mkHandleInfo (if String.eqb (path f) "\\?\C:\models" then 0x10 else 0x20) 2))
    (λ p, if String.eqb p "C:\models" then Ok ["a.gguf"] else Err errEINVAL)
    (λ _ _, mkNameAnswer (Some 7) 14 (units "\models\a.gguf") errEINVAL)
    (λ _ _, if asked then mkNameAnswer None 0 [] (OSErr ERROR_HANDLE_EOF) else mkNameAnswer (Some 1) 10 (units "\store\xyz") errEINVAL)
    (λ _, Err errEINVAL) (λ _ _, Err errEINVAL) (λ _, Err errEINVAL) (λ _, None) (λ _ _, Ok false)
    (λ p r, Ok (HasPrefix p r)) String.eqb (λ _ _, None) (λ _ _, None) (λ _ _, None).

(** The folder is protected when both names lie under roots, and untouched when one
    does not. *)
Lemma protect_models_windows_witness :
  let order := [KFile; KTop; KDir] in
  let run roots := protectModelsW sampleModels (λ _, "S-1-5-21-7") 2 order 2 "C:\models" roots in
  (run ["C:\models"; "C:\store"] []).1 = Some None /\ existsb changesW (run ["C:\models"] []).2 = false /\
  adds (run ["C:\models"; "C:\store"])
    (disciplinedW sampleModels (λ _, "S-1-5-21-7") 2 ["C:\models"; "C:\store"] "C:\models") [].
Proof.
  split; [vm_compute; reflexivity|]. split; [vm_compute; reflexivity|].
  apply protect_models_windows. intros []; set_solver.
Defined.
