(* ===== verification/WindowsPeers.v ===== *)
(** win32_windows.go and the readers of identity_windows.go: what the Windows side
    of this package asks the system about a pipe, a socket, a process or a token.

    A question has the type of its answer, an event is a question with the answer it
    got, and the system is any function from questions and the events so far to
    answers. A handle, a pid and a token are numbers; a SID is its canonical text. *)

From S2P Require Import Prelude GoBinary GoStrings GoError ProofLadder Peer Authenticode Events.

Inductive question : Type → Type :=
| GetNamedPipeInfo (pipe : Z) : question (result Z)
| GetNamedPipeClientComputerNameW (pipe : Z) : question (Z + list Z)
| ComputerName : question (result string)
| GetNamedPipeClientProcessId (pipe : Z) : question (result Z)
| GetNamedPipeServerProcessId (pipe : Z) : question (result Z)
| GetPeerPID (socket : Z) : question (result (Z * Z))
| OpenProcess (pid : Z) : question (result Z)
| CloseHandle (h : Z) : question (option err)
| GetProcessTimes (proc : Z) : question (result Time)
| GetExitCodeProcess (proc : Z) : question (result Z)
| QueryFullProcessImageName (proc : Z) : question (result (list Z))
| GetPackageFullName (proc : Z) (buffer : option positive) : question (Z * positive * list Z)
| LockOSThread : question unit
| UnlockOSThread : question unit
| ImpersonateNamedPipeClient (pipe : Z) : question (option Z)
| RevertToSelf : question (option err)
| GetCurrentThread : question (result Z)
| OpenThreadToken (thread : Z) : question (result Z)
| OpenProcessToken (proc : Z) : question (result Z)
| CloseToken (tok : Z) : question (option err)
| TokenImpersonationLevel (tok : Z) : question (result Z)
| GetTokenUser (tok : Z) : question (result string)
| CopySid (sid : string) : question (result string)
| IsElevated (tok : Z) : question bool
| IntegritySize (tok : Z) : question Z
| IntegrityLabel (tok n : Z) : question (result (list byte * option Z))
| IsRestricted (tok : Z) : question (result bool)
| AccountName (sid : string) : question (result (string * string))
| TimeNow : question Time
| VerifyProcessImageAt (proc pid : Z) (started : Time) (path : string) (revocation : bool) : question (result (Code * Z * Time))
| GetExtendedTable (udp : bool) (family class size : Z) : question (Z * Z * list byte).

Inductive pevent : Type :=
| Ev (A : Type) (q : question A) (a : A).
Arguments Ev {A} _ _.

(** ** Errors and flags the code names *)

Definition ERROR_CANNOT_IMPERSONATE : Z := 1368.
Definition ERROR_PIPE_LOCAL : Z := 229.
Definition appmodelErrorNoPackage : Z := 15700.
Definition ERROR_INSUFFICIENT_BUFFER : Z := 122.
Definition PIPE_SERVER_END : Z := 1.
Definition SecurityAnonymous : Z := 0.
Definition SecurityIdentification : Z := 1.

Section Calls.
Context (W : ∀ A, question A → list pevent → A).

Definition sys {A} (q : question A) : Hist pevent A := act (W A q) (Ev q).

(** [Options.connectedAt], which reads the clock only when it must. *)
Definition connectedAtW (o : option Options) : Hist pevent Time :=
  match o with
  | Some o' => if negb (IsZero (ConnectedAt o')) then mret (ConnectedAt o') else sys TimeNow
  | None => sys TimeNow
  end.

(** [impersonateNamedPipeClient]. *)
Definition impersonateNamedPipeClient (pipe : Z) : Hist pevent (option err) :=
  r ← sys (ImpersonateNamedPipeClient pipe);
  mret (errnoOrEINVAL <$> r).

(** [namedPipeClientComputerName]: the name in a buffer of 256 units. *)
Definition namedPipeClientComputerName (pipe : Z) : Hist pevent (result string) :=
  r ← sys (GetNamedPipeClientComputerNameW pipe);
  mret (match r with
        | inl e1 => Err (errnoOrEINVAL e1)
        | inr buf => Ok (UTF16ToString (take 256 buf))
        end).

(** [packageFullName]: the length first, then the name. The length Windows asks for
    counts the terminating NUL, so it is positive. *)
Definition packageFullName (proc : Z) : Hist pevent (result string) :=
  '(r1, n, _) ← sys (GetPackageFullName proc None);
  if r1 =? appmodelErrorNoPackage then mret (Ok "")
  else if r1 =? ERROR_INSUFFICIENT_BUFFER then
    '(r1, _, buf) ← sys (GetPackageFullName proc (Some n));
    if r1 =? appmodelErrorNoPackage then mret (Ok "")
    else if negb (r1 =? 0) then mret (Err (OSErr (EOTHER r1)))
    else mret (Ok (UTF16ToString (take (Pos.to_nat n) buf)))
  else if r1 =? 0 then mret (Ok "")
  else mret (Err (OSErr (EOTHER r1))).

(** [processStartTime]. *)
Definition processStartTime (proc : Z) : Hist pevent (result Time) := sys (GetProcessTimes proc).

(** [processImagePath]. *)
Definition processImagePath (proc : Z) : Hist pevent (result string) :=
  r ← sys (QueryFullProcessImageName proc);
  mret (match r with Err e => Err e | Ok units => Ok (UTF16ToString units) end).

(** [unixPeerPID]. *)
Definition unixPeerPID (s : Z) : Hist pevent (result Z) :=
  r ← sys (GetPeerPID s);
  mret (match r with
        | Err e => Err e
        | Ok (pid, returned) =>
            if pid =? 0 then Err (Plain ("SIO_AF_UNIX_GETPEERPID named no process (" +:+ itoa returned +:+ " bytes returned)"))
            else Ok pid
        end).

End Calls.

Lemma adds_sys W {A} (q : question A) (Q : A → list pevent → Prop) h : Q (W A q h) [Ev q (W A q h)] → adds (sys W q) Q h.
Proof. apply adds_act. Qed.

(** One call, then the rest. *)
Ltac sys_step := adds_step; apply adds_sys.

(** [joinWhy]. *)
Definition joinWhy (a b : string) : string :=
  if String.eqb a "" then b else if String.eqb b "" then a else a +:+ "; " +:+ b.

(** ** Handles *)

(** The process handles and the tokens a run opens, and closes. *)
Definition openedP (e : pevent) : list (Z + Z) :=
  match e with
  | Ev q a =>
      match q in question A return A → list (Z + Z) with
      | OpenProcess _ => λ r, match r with Ok h => [inl h] | Err _ => [] end
      | OpenThreadToken _ => λ r, match r with Ok t => [inr t] | Err _ => [] end
      | OpenProcessToken _ => λ r, match r with Ok t => [inr t] | Err _ => [] end
      | _ => λ _, []
      end a
  end.

Definition closedP (e : pevent) : list (Z + Z) :=
  match e with
  | Ev q _ => match q with CloseHandle h => [inl h] | CloseToken t => [inr t] | _ => [] end
  end.

(** Everything a run opens, except [kept], it also closes. *)
Definition keeps : list (Z + Z) → list pevent → Prop := balanced openedP closedP.

Lemma keeps_app k k' a b : keeps k a → keeps k' b → keeps (k ++ k') (a ++ b).
Proof. apply balanced_app. Qed.

(** An event that opens and closes nothing. *)
Definition still (e : pevent) : Prop := openedP e = [] /\ closedP e = [].

Lemma still_keeps new : Forall still new → keeps [] new.
Proof. apply balanced_idle. Qed.

Lemma keeps_nil a b k : keeps k a → keeps [] b → keeps k (a ++ b).
Proof. apply balanced_then. Qed.

Lemma nil_keeps a b k : keeps [] a → keeps k b → keeps k (a ++ b).
Proof. apply then_balanced. Qed.

(** What was kept is given back. *)
Lemma keeps_close x new c : keeps [x] new → closedP c = [x] → openedP c = [] → keeps [] (new ++ [c]).
Proof. apply balanced_back. Qed.

(** Nothing is left open by a run made of known pieces. *)
Ltac keeps_none := first [assumption | solve [apply still_keeps; all_events] | apply nil_keeps; keeps_none].

(** Take a computation of many calls apart, down to [sys]; [opens] unfolds the calls. *)
Ltac only_calls opens :=
  repeat (cbv zeta; opens;
    lazymatch goal with
    | |- only _ (_ ≫= _) => apply only_bind; [|intros ?]
    | |- only _ (mret _) => apply only_ret
    | |- only _ (act _ _) => apply only_answers; done
    | |- only _ (sys _ _) => apply only_answers; done
    | |- only _ (match ?x with _ => _ end) => destruct x
    end).
