(* ===== verification/Impersonation.v ===== *)
(** internal/integrity/rid_windows.go: the integrity level of a token, the last
    sub-authority of its mandatory label SID.

    The label and its SID lie in one buffer, so the SID's pointer is its distance from
    the start of that buffer. *)

From S2P Require Import Prelude GoStrings GoError GoBinary Events WindowsPeers ProofLadder Peer Authenticode.


Definition sidRevision : Z := 1.
Definition sidRevisionAt : nat := 0.
Definition sidSubAuthorityCountAt : nat := 1.
Definition sidSubAuthorityAt : nat := 8.
Definition sidSubAuthoritySize : nat := 4.

(** [lastSubAuthorityOf]. *)
Definition lastSubAuthorityOf (sid : list byte) : option Z :=
  if (length sid <? sidSubAuthorityAt)%nat then None
  else
    match sid !! sidRevisionAt, sid !! sidSubAuthorityCountAt with
    | Some rev, Some count =>
        if negb (bz rev =? sidRevision) then None
        else
          let n := Z.to_nat (bz count) in
          if (n =? 0)%nat || (length sid <? sidSubAuthorityAt + n * sidSubAuthoritySize)%nat then None
          else u32at sid (sidSubAuthorityAt + (n - 1) * sidSubAuthoritySize)
    | _, _ => None
    end.

(** [lastSubAuthority]: [at_] is the SID's distance from the start of the buffer, or
    none for a nil pointer. *)
Definition lastSubAuthority (buf : list byte) (at_ : option Z) : option Z :=
  match at_ with
  | None => None
  | Some at_ => if Z.of_nat (length buf) <=? at_ then None else lastSubAuthorityOf (drop (Z.to_nat at_) buf)
  end.

Section RID.
Context (W : ∀ A, question A → list pevent → A).

(** [RID]. *)
Definition RID (tok : Z) : Hist pevent (option Z) :=
  n ← sys W (IntegritySize tok);
  if n =? 0 then mret None
  else
    r ← sys W (IntegrityLabel tok n);
    mret (match r with
          | Err _ => None
          | Ok (buf, sid) => lastSubAuthority (take (Z.to_nat n) buf) sid
          end).
End RID.

(** ** What the bytes say *)

(** A SID in memory: revision, count, six bytes of authority, then the sub-authorities. *)
Definition sidBytes (authority : list byte) (subs : list Z) : list byte :=
  [zb sidRevision; zb (Z.of_nat (length subs))] ++ authority ++ (subs ≫= le32_put).

Lemma length_subs subs : length (subs ≫= le32_put) = (4 * length subs)%nat.
Proof. induction subs as [|s subs IH]; [done|]. cbn [mbind list_bind]. rewrite length_app, IH. cbn. lia. Qed.

Lemma sidBytes_split authority subs last rest :
  length authority = 6%nat →
  ∃ pre, sidBytes authority (subs ++ [last]) ++ rest = pre ++ le32_put last ++ rest /\ length pre = (8 + 4 * length subs)%nat.
Proof.
  intros Ha. exists ([zb sidRevision; zb (Z.of_nat (length (subs ++ [last])))] ++ authority ++ (subs ≫= le32_put)). split.
  - unfold sidBytes. rewrite bind_app. cbn [mbind list_bind]. rewrite app_nil_r. by rewrite <- !app_assoc.
  - rewrite !length_app, length_subs, Ha. cbn. lia.
Qed.

(** The reader gives the last sub-authority of a SID, whatever follows it in memory. *)
Theorem last_sub_authority_exact authority subs last rest :
  length authority = 6%nat → (length subs < 15)%nat → 0 <= last < 2 ^ 32 →
  lastSubAuthorityOf (sidBytes authority (subs ++ [last]) ++ rest) = Some last.
Proof.
  intros Ha Hs Hl. destruct (sidBytes_split authority subs last rest Ha) as (pre & Hb & Hpre).
  unfold lastSubAuthorityOf. assert (length (sidBytes authority (subs ++ [last]) ++ rest) = (12 + 4 * length subs + length rest)%nat) as Hlen.
  { rewrite Hb, !length_app, Hpre. cbn. lia. }
  rewrite Hlen, (proj2 (Nat.ltb_ge _ _)) by (unfold sidSubAuthorityAt; lia).
  change ((sidBytes authority (subs ++ [last]) ++ rest) !! sidRevisionAt) with (Some (zb sidRevision)).
  change ((sidBytes authority (subs ++ [last]) ++ rest) !! sidSubAuthorityCountAt) with (Some (zb (Z.of_nat (length (subs ++ [last]))))).
  cbn [negb]. rewrite !bz_zb, length_app. cbn [length].
  replace (Z.to_nat (Z.of_nat (length subs + 1) `mod` 256)) with (S (length subs)) by (rewrite Z.mod_small by lia; lia).
  change (negb (sidRevision `mod` 256 =? sidRevision)) with false. cbn [Nat.eqb orb].
  rewrite (proj2 (Nat.ltb_ge _ _)) by (unfold sidSubAuthorityAt, sidSubAuthoritySize; lia).
  replace (sidSubAuthorityAt + (S (length subs) - 1) * sidSubAuthoritySize)%nat with (length pre)
    by (rewrite Hpre; unfold sidSubAuthorityAt, sidSubAuthoritySize; lia).
  rewrite Hb. by apply u32at_app.
Qed.

(** The index the reader ends with is inside the SID: it never runs past the bytes. *)
Theorem last_sub_authority_in_range sid count :
  sid !! sidSubAuthorityCountAt = Some count → bz count ≠ 0 →
  (sidSubAuthorityAt + Z.to_nat (bz count) * sidSubAuthoritySize <= length sid)%nat →
  is_Some (u32at sid (sidSubAuthorityAt + (Z.to_nat (bz count) - 1) * sidSubAuthoritySize)).
Proof.
  intros _ Hc Hl. pose proof (bz_range count). unfold sidSubAuthorityAt, sidSubAuthoritySize in *.
  destruct (u32at_total sid (8 + (Z.to_nat (bz count) - 1) * 4)) as (v & -> & _); [lia|done].
Qed.

(** * impersonate_windows.go: the principal of a pipe's client, read off the token the
    kernel lends the server, on a thread that wears it and nothing else.

    [withPeerToken] runs on a goroutine of its own; its caller only waits for the
    result, so the goroutine's calls are the computation. *)


(** The text of [errAnonymousClient]. *)
Definition whyAnonymous : string :=
  "the client opened the pipe with SECURITY_ANONYMOUS, so the kernel gave the server a token that identifies nobody".

(** How a function handed the token ends: [Exited] is [runtime.Goexit], which runs the
    deferred calls and recovers nothing. *)
Inductive ended (A : Type) :=
| Returned (r : result A)
| Panicked (value : string)
| Exited.
Arguments Returned {A} _.
Arguments Panicked {A} _.
Arguments Exited {A}.

(** [tokenLabel]. *)
Record tokenLabel := mkLabel { tl_integrity : string; tl_rid : Z; tl_known : bool; tl_restricted : bool; tl_why : string }.

(** What [peerUser]'s function leaves in the variables it captures. *)
Record tokenFacts := mkFacts { tf_sid : string; tf_elevated : bool; tf_level : Z; tf_label : tokenLabel }.

Definition integrityLow : Z := 0x1000.
Definition integrityMedium : Z := 0x2000.
Definition integrityHigh : Z := 0x3000.
Definition integritySystem : Z := 0x4000.

(** [integrityName]. *)
Definition integrityName (rid : Z) : string :=
  if integritySystem <=? rid then "system"
  else if integrityHigh <=? rid then "high"
  else if integrityMedium <=? rid then "medium"
  else if integrityLow <=? rid then "low"
  else "untrusted".

Section Impersonation.
Context (W : ∀ A, question A → list pevent → A) (errText : err → string).

(** The function between impersonating and reverting: the thread's token is opened,
    handed over and closed, and a panic becomes an error. It has no result when the
    goroutine is on its way out. *)
Definition asClient {A} (fn : Z → Hist pevent (ended A)) : Hist pevent (option (result A)) :=
  th ← sys W GetCurrentThread;
  match th with
  | Err e => mret (Some (Err (Wrap "identity: GetCurrentThread" [e])))
  | Ok th =>
      t ← sys W (OpenThreadToken th);
      match t with
      | Err e => mret (Some (Err (Wrap "identity: OpenThreadToken" [e])))
      | Ok tok =>
          r ← fn tok;
          _ ← sys W (CloseToken tok);
          match r with
          | Returned r => mret (Some r)
          | Panicked v => mret (Some (Err (Plain ("identity: panic while impersonating: " +:+ v))))
          | Exited => mret None
          end
      end
  end.

(** [withPeerToken]. Without a result the goroutine has gone, with its deferred unlock,
    and its caller waits for ever. *)
Definition withPeerToken {A} (pipe : Z) (fn : Z → Hist pevent (ended A)) : Hist pevent (option (result A)) :=
  _ ← sys W LockOSThread;
  i ← impersonateNamedPipeClient W pipe;
  match i with
  | Some e =>
      _ ← sys W UnlockOSThread;
      match e with
      | OSErr (EOTHER n) =>
          if n =? ERROR_CANNOT_IMPERSONATE then mret (Some (Err (Sentinel ErrMustReadFirst)))
          else mret (Some (Err (Wrap "identity: ImpersonateNamedPipeClient" [e])))
      | _ => mret (Some (Err (Wrap "identity: ImpersonateNamedPipeClient" [e])))
      end
  | None =>
      r ← asClient fn;
      match r with
      | None => _ ← sys W UnlockOSThread; mret None
      | Some r =>
          rerr ← sys W RevertToSelf;
          match rerr with
          | Some e => mret (Some (Err (Wrap (errText e) [Sentinel ErrImpersonationStuck])))
          | None => _ ← sys W UnlockOSThread; mret (Some r)
          end
      end
  end.

(** [readTokenLabel]. *)
Definition readTokenLabel (tok : Z) : Hist pevent tokenLabel :=
  r ← RID W tok;
  let label := match r with
               | Some rid => mkLabel (integrityName rid) rid true false ""
               | None => mkLabel "unknown" 0 false false "the token's integrity label could not be read"
               end in
  restricted ← sys W (IsRestricted tok);
  mret (match restricted with
        | Err e =>
            mkLabel (tl_integrity label) (tl_rid label) (tl_known label) true
              (joinWhy (tl_why label) ("the token's restricted flag could not be read (" +:+ errText e +:+ "), so it is reported restricted"))
        | Ok b => mkLabel (tl_integrity label) (tl_rid label) (tl_known label) b (tl_why label)
        end).

(** The function [peerUser] hands the token to. *)
Definition readPeerToken (tok : Z) : Hist pevent (ended tokenFacts) :=
  l ← sys W (TokenImpersonationLevel tok);
  match l with
  | Err e => mret (Returned (Err (Wrap "identity: TokenImpersonationLevel" [e])))
  | Ok level =>
      if level =? SecurityAnonymous then mret (Returned (Err (Sentinel errAnonymousClient)))
      else
        u ← sys W (GetTokenUser tok);
        match u with
        | Err e => mret (Returned (Err (Wrap "identity: GetTokenUser" [e])))
        | Ok s =>
            c ← sys W (CopySid s);
            match c with
            | Err e => mret (Returned (Err (Wrap "identity: copy SID" [e])))
            | Ok sid =>
                elevated ← sys W (IsElevated tok);
                label ← readTokenLabel tok;
                mret (Returned (Ok (mkFacts sid elevated level label)))
            end
        end
  end.

(** [User{Kind: "windows", ...}] of a token, before its account has a name. *)
Definition tokenUser (sid : string) (elevated : bool) (label : tokenLabel) : User :=
  mkUser "windows" sid "" "" elevated (tl_integrity label) (tl_rid label) (tl_restricted label) (-1) (-1) "" 0.

(** The account's name, once it is known. *)
Definition set_account (u : User) (name domain : string) : User :=
  mkUser (Kind u) (SID u) name domain (Elevated u) (Integrity u) (IntegrityRID u) (Restricted u) (UID u) (GID u)
    (SecurityContext u) (AuditSessionID u).

(** [peerUser]. Its function never leaves the goroutine ([peerUser_spec]). *)
Definition peerUser (pipe : Z) : Hist pevent (result (User * string)) :=
  r ← withPeerToken pipe readPeerToken;
  match r with
  | None => mret (Err (Plain "the goroutine has gone without a result"))
  | Some (Err e) => mret (Err e)
  | Some (Ok f) =>
      let user := tokenUser (tf_sid f) (tf_elevated f) (tf_label f) in
      let why := tl_why (tf_label f) in
      a ← sys W (AccountName (tf_sid f));
      let '(user, why) :=
        match a with
        | Ok (name, domain) => (set_account user name domain, why)
        | Err e => (user, joinWhy why ("the SID has no resolvable account name (" +:+ errText e +:+ "); the SID itself is unaffected"))
        end in
      let why := if tf_level f =? SecurityIdentification
                 then joinWhy why "the client granted SECURITY_IDENTIFICATION, which is the level this identity is read at"
                 else why in
      mret (Ok (user, why))
  end.
End Impersonation.

(** ** The thread *)

(** What the goroutine's thread is: locked to it, and wearing the client's token. *)
Record thread := mkThread { locked : bool; wearing : bool }.

Definition onThread (t : thread) (e : pevent) : thread :=
  match e with
  | Ev q a =>
      match q in question A return A → thread with
      | LockOSThread => λ _, mkThread true (wearing t)
      | UnlockOSThread => λ _, mkThread false (wearing t)
      | ImpersonateNamedPipeClient _ => λ r, match r with None => mkThread (locked t) true | Some _ => t end
      | RevertToSelf => λ r, match r with None => mkThread (locked t) false | Some _ => t end
      | _ => λ _, t
      end a
  end.

Definition threadAfter (t : thread) (new : list pevent) : thread := fold_left onThread new t.

(** At no point is the client's token worn on a thread other goroutines may get. *)
Definition contained (t : thread) (new : list pevent) : Prop :=
  ∀ pre post, new = pre ++ post → wearing (threadAfter t pre) = true → locked (threadAfter t pre) = true.

(** An event that leaves the thread as it is. *)
Definition elsewhere (e : pevent) : Prop := ∀ t, onThread t e = t.

Lemma threadAfter_app t a b : threadAfter t (a ++ b) = threadAfter (threadAfter t a) b.
Proof. apply fold_left_app. Qed.

Lemma threadAfter_elsewhere t new : Forall elsewhere new → threadAfter t new = t.
Proof. induction 1 as [|e new He _ IH]; [done|]. cbn. by rewrite He. Qed.

Lemma contained_nil t : (wearing t = true → locked t = true) → contained t [].
Proof. intros H pre post Hp. symmetry in Hp. apply app_eq_nil in Hp as [-> ->]. exact H. Qed.

Lemma contained_cons t e new :
  (wearing t = true → locked t = true) → contained (onThread t e) new → contained t (e :: new).
Proof.
  intros H Hc [|x pre] post Hp; [exact H|]. injection Hp as <- Hp. cbn. by apply (Hc pre post).
Qed.

Lemma contained_elsewhere t new rest :
  (wearing t = true → locked t = true) → Forall elsewhere new → contained t rest → contained t (new ++ rest).
Proof.
  intros H Hn Hr. induction Hn as [|e new He _ IH]; [done|]. cbn. apply contained_cons; [done|]. by rewrite He.
Qed.

Lemma contained_app t a b : contained t a → contained (threadAfter t a) b → contained t (a ++ b).
Proof.
  intros Ha Hb pre post Hp. destruct (app_eq_inv _ _ _ _ Hp) as [(k & -> & ->)|(k & -> & Hk)]; [by eapply Ha|].
  rewrite threadAfter_app. by apply (Hb k post).
Qed.

(** ** What the reads establish *)

Definition freshThread : thread := mkThread false false.

Section Facts.
Context (W : ∀ A, question A → list pevent → A) (errText : err → string).

(** The calls of an impersonation that gave the token [tok] of the client of [pipe]
    to a function whose own calls are [mid], and took it back. *)
Definition impersonated (pipe tok : Z) (mid new : list pevent) : Prop :=
  ∃ th c, new = [Ev LockOSThread tt; Ev (ImpersonateNamedPipeClient pipe) None; Ev GetCurrentThread (Ok th); Ev (OpenThreadToken th) (Ok tok)]
                ++ mid ++ [Ev (CloseToken tok) c; Ev RevertToSelf None; Ev UnlockOSThread tt].

(** The token is dropped and the thread is free, or it is still worn, the thread is
    never given back and the caller gets [ErrImpersonationStuck]. *)
Definition dropped_or_stuck {A} (t : thread) (r : result A) : Prop :=
  t = mkThread false false \/
  t = mkThread true true /\ ∃ text, r = Err (Wrap text [Sentinel ErrImpersonationStuck]).

(** What the function does with the token: it leaves the thread alone, closes what it
    opens, gives a result only with [P], and leaves the goroutine only with [X]. *)
Definition reads_token {A} (fn : Z → Hist pevent (ended A)) (P : Z → A → list pevent → Prop) (X : Prop) : Prop :=
  ∀ tok h, adds (fn tok) (λ r new, Forall elsewhere new /\ keeps [] new /\ (∀ a, r = Returned (Ok a) → P tok a new) /\ (r = Exited → X)) h.

Context {A : Type} (fn : Z → Hist pevent (ended A)) (P : Z → A → list pevent → Prop) (X : Prop).

Lemma asClient_spec h : reads_token fn P X →
  adds (asClient W fn) (λ r new, Forall elsewhere new /\ keeps [] new /\ (r = None → X) /\ ∀ a, r = Some (Ok a) →
     ∃ th tok c mid, new = [Ev GetCurrentThread (Ok th); Ev (OpenThreadToken th) (Ok tok)] ++ mid ++ [Ev (CloseToken tok) c] /\ P tok a mid) h.
Proof.
  intros Hfn. unfold asClient, sys. repeat adds_step.
  destruct (W _ GetCurrentThread _) as [th|e]; [|repeat adds_step; split_and!; [all_events|keeps_none|done|done]].
  repeat adds_step. destruct (W _ (OpenThreadToken th) _) as [tok|e]; [|repeat adds_step; split_and!; [all_events|keeps_none|done|done]].
  adds_step. eapply adds_mono; [|apply Hfn]. intros r mid (He & Hk & HP & HX). repeat adds_step.
  set (c := W _ (CloseToken tok) _) in *.
  assert (keeps [] ([Ev GetCurrentThread (Ok th)] ++ [Ev (OpenThreadToken th) (Ok tok)] ++ mid ++ [Ev (CloseToken tok) c])) as Hkeep.
  { rewrite !app_assoc. eapply (keeps_close (inr tok)); [|done|done]. apply keeps_nil; [by apply Permutation_refl|done]. }
  destruct r as [r|v|]; repeat adds_step; rewrite app_nil_r; (split_and!; [all_events|exact Hkeep|auto; done|]); try done.
  intros a [= ->]. exists th, tok, c, mid. split; [done|]. by apply HP.
Qed.

(** What an impersonation leaves: with a result, the token was contained and dropped, or
    the thread is lost; without one the function left the goroutine, and the thread is
    handed back with the token on it. *)
Definition leaves (pipe : Z) (r : option (result A)) (new : list pevent) : Prop :=
  keeps [] new /\
  match r with
  | Some r => contained freshThread new /\ dropped_or_stuck (threadAfter freshThread new) r /\
      ∀ a, r = Ok a → ∃ tok mid, impersonated pipe tok mid new /\ P tok a mid
  | None => X /\ threadAfter freshThread new = mkThread false true
  end.

Lemma withPeerToken_spec pipe h : reads_token fn P X → adds (withPeerToken W errText pipe fn) (leaves pipe) h.
Proof.
  intros Hfn. unfold withPeerToken, impersonateNamedPipeClient, sys. repeat adds_step. destruct (W _ LockOSThread _).
  destruct (W _ (ImpersonateNamedPipeClient pipe) _) as [n|]; cbn [fmap option_fmap option_map].
  - repeat adds_step. destruct (W _ UnlockOSThread _). repeat case_match; repeat adds_step;
      (split; [keeps_none|split_and!; [by repeat (apply contained_cons || apply contained_nil)|by left|done]]).
  - adds_step. eapply adds_mono; [|by apply asClient_spec]. intros r new (He & Hk & HX & Hr). destruct r as [r|].
    2: { repeat adds_step. destruct (W _ UnlockOSThread _). split; [keeps_none|]. split; [auto|].
         by rewrite !threadAfter_app, (threadAfter_elsewhere _ new He). }
    repeat adds_step. destruct (W _ RevertToSelf _) as [e|]; repeat adds_step; [|destruct (W _ UnlockOSThread _)].
    + split; [keeps_none|]. split_and!; [| |done].
      * cbn. do 2 (apply contained_cons; [done|]). apply contained_elsewhere; [done|done|]. by repeat (apply contained_cons || apply contained_nil).
      * right. rewrite !threadAfter_app, (threadAfter_elsewhere _ new He). cbn. split; [done|]. by eexists.
    + split; [keeps_none|]. split_and!.
      * cbn. do 2 (apply contained_cons; [done|]). apply contained_elsewhere; [done|done|]. by repeat (apply contained_cons || apply contained_nil).
      * left. by rewrite !threadAfter_app, (threadAfter_elsewhere _ new He).
      * intros a ->. destruct (Hr a eq_refl) as (th & tok & c & mid & -> & HP). exists tok, mid. split; [|done].
        exists th, c. cbn. by rewrite <- app_assoc.
Qed.
End Facts.

(** C18: for a function that leaves the thread as it is and closes the tokens it opens,
    the client's token is worn only on a thread locked to one goroutine, and every way
    out on which [withPeerToken] returns drops it: the function may return, fail or
    panic. When dropping fails the thread is never handed back and the caller gets
    [ErrImpersonationStuck] instead of a result. A result comes from the function, run
    between impersonating the client of that pipe and reverting, with the token that
    thread was given, and no token stays open. There is one way out on which it does
    not return, a function that calls [runtime.Goexit]: then, and only then, the thread
    is handed back with the client's token on it. *)
Theorem impersonation_contained {A} (W : ∀ A, question A → list pevent → A) errText pipe (fn : Z → Hist pevent (ended A)) h :
  (∀ tok h, adds (fn tok) (λ _ new, Forall elsewhere new /\ keeps [] new) h) →
  adds (withPeerToken W errText pipe fn)
    (leaves (λ tok a mid, ∃ h', fn tok h' = (Returned (Ok a), h' ++ mid)) (∃ tok h', (fn tok h').1 = Exited) pipe) h.
Proof.
  intros Hfn. apply withPeerToken_spec. intros tok h'. destruct (Hfn tok h') as (new & Hh & He & Hk). exists new. split; [done|].
  split_and!; [done|done| |].
  - intros a Ha. exists h'. destruct (fn tok h') as [r h'']. cbn in *. congruence.
  - intros Hx. by exists tok, h'.
Qed.

Section PeerUser.
Context (W : ∀ A, question A → list pevent → A) (errText : err → string).

(** Only questions about the token. *)
Definition queries (tok : Z) (e : pevent) : Prop :=
  match e with
  | Ev q _ =>
      match q with
      | TokenImpersonationLevel t | GetTokenUser t | IsElevated t | IntegritySize t | IntegrityLabel t _ | IsRestricted t => t = tok
      | CopySid _ => True
      | _ => False
      end
  end.

Lemma queries_elsewhere tok e : queries tok e → elsewhere e.
Proof. destruct e as [A q a]. by destruct q. Qed.

Lemma queries_still tok e : queries tok e → still e.
Proof. destruct e as [A q a]. by destruct q. Qed.

Lemma queries_quiet tok new : Forall (queries tok) new → Forall elsewhere new /\ keeps [] new.
Proof.
  intros H. split; [by eapply Forall_impl, queries_elsewhere|]. apply still_keeps. by eapply Forall_impl, queries_still.
Qed.

(** The level [r] of the label is what the bytes of the token's label say; an
    unreadable label gives none. *)
Definition level_said (tok : Z) (r : option Z) (new : list pevent) : Prop :=
  match r with
  | None => True
  | Some rid => ∃ n buf sid, Ev (IntegritySize tok) n ∈ new /\ Ev (IntegrityLabel tok n) (Ok (buf, sid)) ∈ new /\
                  lastSubAuthority (take (Z.to_nat n) buf) sid = Some rid
  end.

(** A label holds what the token answered: an unread level is no level, and an unread
    flag counts as restricted. *)
Definition labelled (tok : Z) (l : tokenLabel) (new : list pevent) : Prop :=
  ∃ r b, level_said tok r new /\ Ev (IsRestricted tok) b ∈ new /\
    (tl_integrity l, tl_rid l, tl_known l) = match r with Some rid => (integrityName rid, rid, true) | None => ("unknown", 0, false) end /\
    tl_restricted l = match b with Ok b => b | Err _ => true end.

Lemma level_said_app tok r a b : level_said tok r a \/ level_said tok r b → level_said tok r (a ++ b).
Proof.
  destruct r as [rid|]; [|done]. cbn. setoid_rewrite elem_of_app. intros [(n & buf & sid & H)|(n & buf & sid & H)]; exists n, buf, sid; naive_solver.
Qed.

Lemma labelled_app tok l a b : labelled tok l b → labelled tok l (a ++ b).
Proof. intros (r & x & Hr & Hb & H). exists r, x. rewrite elem_of_app. split; [apply level_said_app; by right|]. auto. Qed.

Lemma labelled_in tok l a b : a ⊆ b → labelled tok l a → labelled tok l b.
Proof.
  intros Hs (r & x & Hr & Hb & H). exists r, x. split; [|set_solver]. destruct r as [rid|]; [|done]. destruct Hr as (n & buf & sid & H1 & H2 & H3).
  exists n, buf, sid. set_solver.
Qed.

Lemma RID_spec tok h : adds (RID W tok) (λ r new, Forall (queries tok) new /\ level_said tok r new) h.
Proof.
  unfold RID, sys. repeat adds_step. set (n := W _ (IntegritySize tok) _). destruct (n =? 0); repeat adds_step; [split; [all_events|done]|].
  destruct (W _ (IntegrityLabel tok n) _) as [[buf sid]|]; [|split; [all_events|done]]. split; [all_events|].
  destruct (lastSubAuthority _ sid) as [rid|] eqn:E; [|done]. exists n, buf, sid. split_and!; [by left|right; by left|done].
Qed.

Lemma readTokenLabel_spec tok h :
  adds (readTokenLabel W errText tok) (λ l new, Forall (queries tok) new /\ labelled tok l new) h.
Proof.
  unfold readTokenLabel. adds_step. eapply adds_mono; [|apply RID_spec]. intros r new [Hq Hl]. unfold sys. repeat adds_step.
  set (b := W _ (IsRestricted tok) _). split; [all_events|]. exists r, b.
  split; [apply level_said_app; by left|]. split; [set_solver|]. by destruct r, b.
Qed.

(** What was read off the token [tok], all of it said by the token. *)
Definition token_said (tok : Z) (f : tokenFacts) (new : list pevent) : Prop :=
  Forall (queries tok) new /\ tf_level f ≠ SecurityAnonymous /\
  (∃ s, Ev (GetTokenUser tok) (Ok s) ∈ new /\ Ev (CopySid s) (Ok (tf_sid f)) ∈ new) /\
  Ev (TokenImpersonationLevel tok) (Ok (tf_level f)) ∈ new /\ Ev (IsElevated tok) (tf_elevated f) ∈ new /\
  labelled tok (tf_label f) new.

Lemma readPeerToken_spec tok h :
  adds (readPeerToken W errText tok)
    (λ r new, Forall (queries tok) new /\ (∀ f, r = Returned (Ok f) → token_said tok f new) /\ (r = Exited → False)) h.
Proof.
  unfold readPeerToken, sys. repeat adds_step. destruct (W _ (TokenImpersonationLevel tok) _) as [level|]; [|repeat adds_step; split_and!; [all_events|done|done]].
  destruct (level =? SecurityAnonymous) eqn:El; [repeat adds_step; split_and!; [all_events|done|done]|]. to_prop. repeat adds_step.
  destruct (W _ (GetTokenUser tok) _) as [s|]; [|repeat adds_step; split_and!; [all_events|done|done]]. repeat adds_step.
  destruct (W _ (CopySid s) _) as [sid|]; [|repeat adds_step; split_and!; [all_events|done|done]]. repeat adds_step.
  eapply adds_mono; [|apply readTokenLabel_spec]. intros l new (Hq & Hl). repeat adds_step. rewrite app_nil_r. split_and!; [all_events| |done].
  intros f [= <-]. split; [all_events|]. cbn [tf_level tf_sid tf_elevated tf_label]. split; [done|].
  split; [exists s; split; set_solver|]. split; [set_solver|]. split; [set_solver|]. rewrite !app_assoc. by apply labelled_app.
Qed.

Lemma peerUser_spec pipe h :
  adds (peerUser W errText pipe)
    (λ r new, contained freshThread new /\ keeps [] new /\ dropped_or_stuck (threadAfter freshThread new) r /\
       ∀ u why, r = Ok (u, why) → ∃ tok mid before a f, new = before ++ [Ev (AccountName (SID u)) a] /\
         impersonated pipe tok mid before /\ token_said tok f mid /\
         u = (if a is Ok (name, domain) then set_account (tokenUser (tf_sid f) (tf_elevated f) (tf_label f)) name domain
              else tokenUser (tf_sid f) (tf_elevated f) (tf_label f))) h.
Proof.
  unfold peerUser. adds_step. eapply adds_mono.
  2: { apply (withPeerToken_spec W errText (readPeerToken W errText) token_said False). intros tok h'. eapply adds_mono; [|apply readPeerToken_spec].
       intros r new (Hq & Hr & Hx). destruct (queries_quiet _ _ Hq) as [He Hk]. by split_and!. }
  intros [r|] new [Hk Hl]; [|by destruct Hl]. destruct Hl as (Hc & Hd & Hr). destruct r as [f|e].
  2: { repeat adds_step. rewrite app_nil_r. split_and!; [done|done| |done]. destruct Hd as [Hd|(Hd & text & [= ->])]; [by left|right; eauto]. }
  unfold sys. repeat adds_step. destruct Hd as [Hd|(_ & text & Hf)]; [|done].
  destruct (Hr f eq_refl) as (tok & mid & Hi & Hs). set (a := W _ (AccountName _) _).
  assert (contained freshThread (new ++ [Ev (AccountName (tf_sid f)) a])) as Hc'.
  { apply contained_app; [done|]. rewrite Hd. by repeat (apply contained_cons || apply contained_nil). }
  assert (keeps [] (new ++ [Ev (AccountName (tf_sid f)) a])) as Hk' by (apply keeps_nil; [done|keeps_none]).
  assert (threadAfter freshThread (new ++ [Ev (AccountName (tf_sid f)) a]) = mkThread false false) as Hd' by (rewrite threadAfter_app, Hd; done).
  destruct a as [[name domain]|e]; repeat adds_step; rewrite app_nil_r;
    (split_and!; [done|done|left; exact Hd'|]); intros u why [= <- <-];
    [exists tok, mid, new, (Ok (name, domain)), f|exists tok, mid, new, (Err e), f]; by split_and!.
Qed.
End PeerUser.
