(* ===== verification/AccountNames.v ===== *)
(** account_windows.go: account names remembered for a minute, at most 64 of them.

    The callers are threads of one state; a step is what one of them does under the
    lock, or between two such spans. The clock may read anything at any call. *)

From S2P Require Import Prelude GoStrings GoError.

Definition accountNameLifetime : Duration := minute.
Definition accountNameLimit : nat := 64.

(** [accountNameEntry]. *)
Record accountNameEntry := mkNameEntry { ne_name : string; ne_domain : string; ne_at : Time }.

(** A caller of [accountName] for the SID [key], whose clock read [now]: about to look
    the account up, about to remember the answer, or answered. *)
Inductive nameCaller :=
| LookingUp (key : string) (now : Time)
| Remembering (key : string) (now : Time) (name domain : string)
| Told (key : string) (now : Time) (answer : result (string * string)).

(** [accountNames] and the callers; [said] is every answer [LookupAccount] gave, with
    the SID and the clock reading of the caller that asked. *)
Record accountNames := mkNames {
  an_entries : gmap string accountNameEntry;
  an_callers : list nameCaller;
  an_said : list (string * Time * (string * string))
}.

Definition noNames : accountNames := mkNames ∅ [] [].

(** Whether an entry answers a caller whose clock reads [now]. *)
Definition freshName (now at_ : Time) : bool := (TimeSub now at_ <? accountNameLifetime) && negb (Before now at_).

(** [accountName] up to the lookup, or to the answer. *)
Definition accountName (key : string) (now : Time) (s : accountNames) : accountNames :=
  let c := match an_entries s !! key with
           | Some e => if freshName now (ne_at e) then Told key now (Ok (ne_name e, ne_domain e)) else LookingUp key now
           | None => LookingUp key now
           end in
  mkNames (an_entries s) (an_callers s ++ [c]) (an_said s).

(** [sid.LookupAccount] answers caller [i]. *)
Definition lookedUp (i : nat) (key : string) (now : Time) (r : result (string * string)) (s : accountNames) : accountNames :=
  match r with
  | Err e => mkNames (an_entries s) (<[i := Told key now (Err e)]> (an_callers s)) (an_said s)
  | Ok (name, domain) =>
      mkNames (an_entries s) (<[i := Remembering key now name domain]> (an_callers s)) ((key, now, (name, domain)) :: an_said s)
  end.

(** The second span under the lock: a full memory is emptied, then the answer is kept. *)
Definition rememberName (i : nat) (key : string) (now : Time) (name domain : string) (s : accountNames) : accountNames :=
  let m := if (accountNameLimit <=? size (an_entries s))%nat then ∅ else an_entries s in
  mkNames (<[key := mkNameEntry name domain now]> m) (<[i := Told key now (Ok (name, domain))]> (an_callers s)) (an_said s).

Inductive nstep : accountNames → accountNames → Prop :=
| n_call key now s : nstep s (accountName key now s)
| n_lookedUp i key now r s : an_callers s !! i = Some (LookingUp key now) → nstep s (lookedUp i key now r s)
| n_remember i key now name domain s : an_callers s !! i = Some (Remembering key now name domain) →
    nstep s (rememberName i key now name domain s).

Inductive nreachable : accountNames → Prop :=
| n_start : nreachable noNames
| n_next s s' : nreachable s → nstep s s' → nreachable s'.

(** ** Invariant *)

(** What a caller may hold, given the lookups so far. *)
Definition caller_told (said : list (string * Time * (string * string))) (c : nameCaller) : Prop :=
  match c with
  | LookingUp _ _ | Told _ _ (Err _) => True
  | Remembering key now name domain => (key, now, (name, domain)) ∈ said
  | Told key now (Ok nd) => ∃ at_, (key, at_, nd) ∈ said /\ at_ <= now < at_ + accountNameLifetime
  end.

Record names_ok (s : accountNames) : Prop := {
  no_size : (size (an_entries s) <= accountNameLimit)%nat;
  no_entries : ∀ key e, an_entries s !! key = Some e → (key, ne_at e, (ne_name e, ne_domain e)) ∈ an_said s;
  no_callers : Forall (caller_told (an_said s)) (an_callers s)
}.

Lemma freshName_exact now at_ : freshName now at_ = true <-> at_ <= now < at_ + accountNameLifetime.
Proof.
  unfold freshName, Before. rewrite andb_true_iff, negb_true_iff, Z.ltb_lt, Z.ltb_ge, TimeSub_lt by done. lia.
Qed.

Lemma caller_told_mono said x c : caller_told said c → caller_told (x :: said) c.
Proof.
  destruct c as [| |key now [nd|]]; cbn; [done|by right| |done].
  intros (at_ & Hin & H). exists at_. split; [by right|done].
Qed.

Lemma nstep_ok s s' : nstep s s' → names_ok s → names_ok s'.
Proof.
  intros [key now s0|i key now r s0 Hi|i key now name domain s0 Hi] [Hz He Hc].
  - split; [done|done|]. cbn. apply Forall_app. split; [done|]. apply Forall_singleton.
    destruct (an_entries s0 !! key) as [e|] eqn:Ek; [|done]. destruct (freshName _ _) eqn:Ef; [|done].
    exists (ne_at e). split; [by apply He|by apply freshName_exact].
  - destruct r as [[name domain]|e]; cbn.
    + split; cbn; [done|by right; apply He|]. apply Forall_insert; [|by left]. eapply Forall_impl; [done|]. apply caller_told_mono.
    + split; cbn; [done|done|]. by apply Forall_insert.
  - pose proof (Forall_lookup_1 _ _ _ _ Hc Hi) as Hs. cbn in Hs.
    set (m := if (accountNameLimit <=? size (an_entries s0))%nat then ∅ else an_entries s0).
    assert ((size m < accountNameLimit)%nat /\ m ⊆ an_entries s0) as [Hm Hsub].
    { unfold m. case_match; [split; [unfold accountNameLimit; rewrite map_size_empty; lia|apply map_empty_subseteq]|].
      to_prop. split; [lia|done]. }
    unfold rememberName. fold m. split; cbn [an_entries an_said an_callers].
    + rewrite map_size_insert. destruct (m !! key); unfold id; lia.
    + intros key' e. rewrite lookup_insert_Some. intros [[<- <-]|[_ H]]; [done|]. apply He. by eapply lookup_weaken.
    + apply Forall_insert; [done|]. exists now. split; [done|]. unfold accountNameLifetime, minute, second, millisecond. lia.
Qed.

Lemma nreachable_ok s : nreachable s → names_ok s.
Proof.
  induction 1 as [|s s' _ IH Hs]; [|by eapply nstep_ok]. split; [cbn [an_entries noNames]; rewrite map_size_empty; unfold accountNameLimit; lia|done|constructor].
Qed.

(** Whatever callers do at once, an account name handed out for a SID is one
    [LookupAccount] gave for that SID to a caller whose clock read at most a minute
    earlier, a failed lookup is never answered from memory, and at most 64 names are
    kept. *)
Theorem account_names_recent s : nreachable s →
  (size (an_entries s) <= accountNameLimit)%nat /\
  ∀ key now nd, Told key now (Ok nd) ∈ an_callers s →
    ∃ at_, (key, at_, nd) ∈ an_said s /\ at_ <= now < at_ + accountNameLifetime.
Proof.
  intros [Hz _ Hc]%nreachable_ok. split; [done|]. intros key now nd Hin.
  rewrite Forall_forall in Hc. by apply (Hc _ Hin).
Qed.

(** Two callers a second apart: the second is answered from the first one's lookup. *)
Definition twoNames : accountNames :=
  accountName "S-1-5-18" second
    (rememberName 0 "S-1-5-18" 0 "SYSTEM" "NT AUTHORITY"
       (lookedUp 0 "S-1-5-18" 0 (Ok ("SYSTEM", "NT AUTHORITY")) (accountName "S-1-5-18" 0 noNames))).

Lemma account_names_recent_witness :
  ∃ at_, ("S-1-5-18", at_, ("SYSTEM", "NT AUTHORITY")) ∈ an_said twoNames /\ at_ <= second < at_ + accountNameLifetime.
Proof.
  refine (proj2 (account_names_recent twoNames _) "S-1-5-18" second ("SYSTEM", "NT AUTHORITY") _); [|right; left].
  unfold twoNames. eapply n_next; [|apply n_call]. eapply n_next; [|by apply n_remember]. eapply n_next; [|by apply n_lookedUp].
  eapply n_next; [apply n_start|apply n_call].
Defined.
