(* ===== verification/IdentityWindows.v ===== *)
(** identity_windows.go: the peer of the server end of a named pipe, and the ceiling
    of what this platform proves. *)

From S2P Require Import Prelude GoStrings GoError GoBinary ProofLadder Peer VerdictCache Events WindowsPeers Impersonation AuthenticodeFacts.


(** [ceiling]. *)
Definition windowsBest : Need := mkNeed ProofKernel ProofKernel ProofBound ProofSigned ProofBound.

Definition ceiling : Limits :=
  mkLimits "windows" windowsBest
    (list_to_map
       [("user", "the token behind ImpersonateNamedPipeClient is the kernel's own record of the connecting thread's principal");
        ("process", "the kernel records the client's process id on the pipe instance when the client opens it");
        ("path", "the image path is read through a process handle whose creation time predates the connection, which excludes pid reuse; it is still only a name the kernel keeps, not a statement about the code that is running");
        ("package", "an MSIX package full name encodes the publisher identity from the certificate Windows validated when it installed the package, and no unpackaged process can be given one");
        ("code", "Authenticode verifies a file, and Windows exposes no way to verify the image mapping a running process is actually executing; see CONTRACT.md")])
    "npipe" true
    "an open process handle. The kernel writes the client's process id onto the pipe instance when the client opens it, so it never follows a later writer; a Windows process cannot replace its own image, so the program behind that id is fixed for its whole life; and while a handle to the process object is open the id cannot be reassigned. Bind holds one from accept, which leaves no window"
    "".

Section IdentityWindows.
Context (W : ∀ A, question A → list pevent → A).
Context (errText : err → string) (Quote : string → string) (rfc3339Nano : Time → string).

(** The comparison of computer names. *)
Context (ordinalEqualIgnoringCase : string → string → bool).

(** [requireLocalPeer]. *)
Definition requireLocalPeer (pipe : Z) : Hist pevent (option err) :=
  c ← namedPipeClientComputerName W pipe;
  match c with
  | Err e =>
      if errors_is_errno e (EOTHER ERROR_PIPE_LOCAL) then mret None
      else mret (Some (Wrap ("client computer name could not be established: " +:+ errText e) [Sentinel ErrUnsupportedConn]))
  | Ok client =>
      l ← sys W ComputerName;
      match l with
      | Err e => mret (Some (Wrap ("local computer name could not be established: " +:+ errText e) [Sentinel ErrUnsupportedConn]))
      | Ok local =>
          if negb (ordinalEqualIgnoringCase client local)
          then mret (Some (Wrap ("the client is on " +:+ Quote client +:+ ", not " +:+ Quote local) [Sentinel ErrRemotePeer]))
          else mret None
      end
  end.

(** Step 1, of [ofHandle] and [bindHandle]: this must be the server end of a pipe. *)
Definition requireServerEnd (pipe : Z) : Hist pevent (option err) :=
  r ← sys W (GetNamedPipeInfo pipe);
  mret (match r with
        | Err e => Some (Wrap ("GetNamedPipeInfo: " +:+ errText e) [Sentinel ErrUnsupportedConn])
        | Ok flags => if Z.land flags PIPE_SERVER_END =? 0 then Some (Sentinel ErrNotServerEnd) else None
        end).

(** The peer before anything is resolved. *)
Definition blankPeer (now : Time) : Peer :=
  mkPeer "windows" "npipe" now (unknown "user" "not resolved") (unknown "process" "not resolved") (unknown "path" "not resolved")
    (unknown "package" "not resolved") (unknown "code" "not resolved") [] zeroTime.

(** Path, package and code unknown for one reason. *)
Definition noImage (p : Peer) (pathWhy packageWhy codeWhy : string) : Peer :=
  set_Code (set_Package (set_Path p (unknown "path" pathWhy)) (unknown "package" packageWhy)) (unknown "code" codeWhy).

(** Step 6: the image path. *)
Definition resolvePath (proc : Z) (p : Peer) : Hist pevent (Peer * string) :=
  i ← processImagePath W proc;
  mret (match i with
        | Err e => (note (set_Path p (unknown "path" ("QueryFullProcessImageName failed: " +:+ errText e))) ("path: " +:+ errText e), "")
        | Ok imagePath =>
            (set_Path p (attr "path" imagePath ProofBound
               "read through a process handle that cannot be a recycled pid; a path is not an identity - see CONTRACT.md"), imagePath)
        end).

(** Step 7: the package. *)
Definition resolvePackage (proc : Z) (p : Peer) : Hist pevent Peer :=
  n ← packageFullName W proc;
  mret (set_Package p
    (match n with
     | Err e => unknown "package" ("GetPackageFullName failed: " +:+ errText e)
     | Ok name =>
         if String.eqb name "" then unknown "package" "the peer is an ordinary executable, not an MSIX package; Windows has no package identity to give"
         else attr "package" name ProofSigned
                "an MSIX package full name; its publisher hash comes from the certificate Windows validated when the package was installed"
     end)).

(** Step 8: Authenticode. *)
Definition resolveCode (proc pid : Z) (started : Time) (imagePath : string) (opts : option Options) (p : Peer) : Hist pevent Peer :=
  if skipCodeSignature opts then mret (set_Code p (unknown "code" "signature verification was skipped by the caller"))
  else if negb (Known (PPath p)) then mret (set_Code p (unknown "code" "there is no image path to verify"))
  else
    v ← sys W (VerifyProcessImageAt proc pid started imagePath (checkRevocation opts));
    mret (match v with
          | Err e => note (set_Code p (unknown "code" ("verification could not be performed: " +:+ errText e))) ("code: " +:+ errText e)
          | Ok (code, verdict, verifiedAt) =>
              set_evidence
                (recordCode p code verdict "Authenticode verified the file at the peer's image path, not the image the peer is executing; Windows cannot verify the latter")
                (TimeAdd verifiedAt codeVerdictLifetime)
          end).

(** The rest of step 5 and steps 6 to 8, through the open handle. *)
Definition resolvePinned (proc pid : Z) (connected : Time) (opts : option Options) (p : Peer) : Hist pevent Peer :=
  s ← processStartTime W proc;
  match s with
  | Err e =>
      let p := set_Process p (attr "process" (mkProcess pid zeroTime false 0) ProofKernel
                 ("the process start time could not be read (" +:+ errText e +:+ "), so pid reuse could not be excluded")) in
      let p := note p ("process: could not read the start time of pid " +:+ itoa pid +:+ " (" +:+ errText e
                 +:+ "); path, package and code are unavailable") in
      let why := "pid reuse could not be excluded" in
      mret (noImage p why why why)
  | Ok started =>
      if After started connected then
        let reused := "pid " +:+ itoa pid +:+ " now belongs to a process created at " +:+ rfc3339Nano started
                      +:+ ", after this connection existed at " +:+ rfc3339Nano connected +:+ "; it is not the peer" in
        let p := set_Process p (attr "process" (mkProcess pid started true 0) ProofKernel reused) in
        let p := note p ("process: " +:+ reused) in
        mret (noImage p reused reused reused)
      else
        let p := set_Process p (attr "process" (mkProcess pid started false 0) ProofKernel
                   "the pid came from the kernel's record of this pipe instance; the start time predates the connection, so it is not a recycled pid") in
        '(p, imagePath) ← resolvePath proc p;
        p ← resolvePackage proc p;
        resolveCode proc pid started imagePath opts p
  end.

(** Steps 4 to 8. *)
Definition resolveProcess (pipe : Z) (connected : Time) (opts : option Options) (p : Peer) : Hist pevent Peer :=
  r ← sys W (GetNamedPipeClientProcessId pipe);
  match r with
  | Err e =>
      mret (note (set_Process p (unknown "process" ("GetNamedPipeClientProcessId failed: " +:+ errText e)))
              ("process: the kernel would not name the client process (" +:+ errText e +:+ ")"))
  | Ok pid =>
      o ← sys W (OpenProcess pid);
      match o with
      | Err e =>
          let p := set_Process p (attr "process" (mkProcess pid zeroTime false 0) ProofKernel
                     ("the process could not be opened (" +:+ errText e +:+ "), so it could not be checked for pid reuse and nothing was read out of the pid")) in
          let p := note p ("process: pid " +:+ itoa pid +:+ " could not be opened (" +:+ errText e +:+ "); path, package and code are unavailable") in
          let why := "the peer process was gone before it could be pinned" in
          mret (noImage p why why why)
      | Ok proc =>
          q ← resolvePinned proc pid connected opts p;
          _ ← sys W (CloseHandle proc);
          mret q
      end
  end.

(** [ofHandle]. *)
Definition ofHandle (pipe : Z) (opts : option Options) : Hist pevent (result Peer) :=
  connected ← connectedAtW W opts;
  now ← sys W TimeNow;
  let p := blankPeer now in
  e ← requireServerEnd pipe;
  match e with
  | Some e => mret (Err e)
  | None =>
      e ← requireLocalPeer pipe;
      match e with
      | Some e => mret (Err e)
      | None =>
          u ← peerUser W errText pipe;
          match u with
          | Ok (user, why) =>
              let p := set_User p (attr "user" user ProofKernel why) in
              let p := if String.eqb why "" then p else note p ("user: " +:+ why) in
              q ← resolveProcess pipe connected opts p; mret (Ok q)
          | Err e =>
              if errors_is e errAnonymousClient then
                let p := note (set_User p (unknown "user" whyAnonymous)) ("user: " +:+ whyAnonymous) in
                q ← resolveProcess pipe connected opts p; mret (Ok q)
              else mret (Err e)
          end
      end
  end.
End IdentityWindows.

(** * What a Windows peer rests on: each attribute of it is an answer the system gave
    about that pipe, that token or that process while it was held. *)


(** ** Reads through a process handle *)

(** A question asked through the handle [proc]. *)
Definition about_process (proc : Z) (e : pevent) : Prop :=
  match e with
  | Ev q _ =>
      match q with
      | GetProcessTimes h | QueryFullProcessImageName h | GetPackageFullName h _ | GetExitCodeProcess h | VerifyProcessImageAt h _ _ _ _ => h = proc
      | _ => False
      end
  end.

Lemma about_elsewhere proc e : about_process proc e → elsewhere e.
Proof. destruct e as [A q a]. by destruct q. Qed.

Lemma about_still proc e : about_process proc e → still e.
Proof. destruct e as [A q a]. by destruct q. Qed.

(** Path, package and code are all unknown. *)
Definition no_image (p : Peer) : Prop :=
  attr_proof (PPath p) = ProofNone /\ attr_proof (PPackage p) = ProofNone /\ attr_proof (PCode p) = ProofNone.

(** What an image path read through [proc] rests on. *)
Definition path_said (proc : Z) (a : Attr string) (new : list pevent) : Prop :=
  attr_proof a = ProofNone \/
  attr_proof a = ProofBound /\ ∃ units, Ev (QueryFullProcessImageName proc) (Ok units) ∈ new /\ attr_value a = UTF16ToString units.

Definition package_said (proc : Z) (a : Attr string) (new : list pevent) : Prop :=
  attr_proof a = ProofNone \/
  attr_proof a = ProofSigned /\ attr_value a ≠ "" /\
    ∃ n m buf, Ev (GetPackageFullName proc (Some n)) (0, m, buf) ∈ new /\ attr_value a = UTF16ToString (take (Pos.to_nat n) buf).

Definition code_said (proc pid : Z) (started : Time) (revocation : bool) (p : Peer) (new : list pevent) : Prop :=
  attr_proof (PCode p) = ProofNone \/
  ∃ at_, Ev (VerifyProcessImageAt proc pid started (attr_value (PPath p)) revocation)
             (Ok (attr_value (PCode p), attr_proof (PCode p), at_)) ∈ new /\
         evidenceValidUntil p = TimeAdd at_ codeVerdictLifetime.

(** Path, package and code of [p] were read through the one handle [proc] to the
    process [pid], which was created at [started]. *)
Definition image_said (proc pid : Z) (started : Time) (opts : option Options) (p : Peer) (new : list pevent) : Prop :=
  path_said proc (PPath p) new /\ package_said proc (PPackage p) new /\
  code_said proc pid started (checkRevocation opts) p new.

Set Default Proof Using "Type".

Section Facts.
Context (W : ∀ A, question A → list pevent → A).
Context (errText : err → string) (Quote : string → string) (rfc3339Nano : Time → string).
Context (ordinalEqualIgnoringCase : string → string → bool).

Lemma packageFullName_spec proc h :
  adds (packageFullName W proc)
    (λ r new, Forall (about_process proc) new /\ ∀ name, r = Ok name → name ≠ "" →
       ∃ n m buf, Ev (GetPackageFullName proc (Some n)) (0, m, buf) ∈ new /\ name = UTF16ToString (take (Pos.to_nat n) buf)) h.
Proof.
  unfold packageFullName, sys. repeat adds_step. destruct (W _ (GetPackageFullName proc None) _) as [[r1 n] buf].
  repeat case_match; repeat adds_step; try (split; [all_events|intros ? [= <-] ?; done]).
  destruct (W _ (GetPackageFullName proc (Some n)) _) as [[r2 m] buf'].
  repeat case_match; repeat adds_step; try (split; [all_events|intros ? [= <-] ?; done]).
  split; [all_events|]. intros name [= <-] _. exists n, m, buf'. split; [|done]. to_prop. subst. right. by left.
Qed.

Lemma pipe_path_spec proc p h :
  adds (resolvePath W errText proc p)
    (λ '(q, path) new, Forall (about_process proc) new /\ PUser q = PUser p /\ PProcess q = PProcess p /\
       path_said proc (PPath q) new /\ (Known (PPath q) = true → attr_value (PPath q) = path)) h.
Proof.
  unfold resolvePath, processImagePath, sys. repeat adds_step.
  destruct (W _ (QueryFullProcessImageName proc) _) as [units|e]; (split; [all_events|]); split_and!; try done; [right|by left].
  split; [done|]. exists units. split; [by left|done].
Qed.

Lemma pipe_package_spec proc p h :
  adds (resolvePackage W errText proc p)
    (λ q new, Forall (about_process proc) new /\ PUser q = PUser p /\ PProcess q = PProcess p /\ PPath q = PPath p /\
       package_said proc (PPackage q) new) h.
Proof.
  unfold resolvePackage. adds_step. eapply adds_mono; [|apply packageFullName_spec]. intros r new (Ha & Hr). repeat adds_step.
  rewrite app_nil_r. split_and!; try done. destruct r as [name|e]; [|by left]. cbn. destruct (String.eqb name "") eqn:E; [by left|].
  right. to_prop. split_and!; [done|done|]. by apply Hr.
Qed.

Lemma resolveCode_spec proc pid started path opts p h :
  (Known (PPath p) = true → attr_value (PPath p) = path) →
  adds (resolveCode W errText proc pid started path opts p)
    (λ q new, Forall (about_process proc) new /\ PUser q = PUser p /\ PProcess q = PProcess p /\ PPath q = PPath p /\
       PPackage q = PPackage p /\ code_said proc pid started (checkRevocation opts) q new) h.
Proof.
  intros Hp. unfold resolveCode. destruct (skipCodeSignature opts); [adds_step; split_and!; try done; by left|].
  destruct (Known (PPath p)) eqn:Ek; cbn [negb]; [|adds_step; split_and!; try done; by left]. unfold sys. repeat adds_step.
  destruct (W _ (VerifyProcessImageAt _ _ _ _ _) _) as [[[code verdict] at_]|e] eqn:E;
    [|(split; [all_events|]); split_and!; try done; by left].
  split; [all_events|]. unfold recordCode. destruct (ProofPID <=? verdict); (split_and!; try done); right; exists at_; cbn; rewrite (Hp eq_refl); (split; [by left|done]).
Qed.

Lemma path_said_app proc a x y : path_said proc a x \/ path_said proc a y → path_said proc a (x ++ y).
Proof. clear. unfold path_said. setoid_rewrite elem_of_app. naive_solver. Qed.

Lemma package_said_app proc a x y : package_said proc a x \/ package_said proc a y → package_said proc a (x ++ y).
Proof. clear. unfold package_said. setoid_rewrite elem_of_app. naive_solver. Qed.

Lemma code_said_app proc pid t rev p x y : code_said proc pid t rev p x \/ code_said proc pid t rev p y → code_said proc pid t rev p (x ++ y).
Proof. clear. unfold code_said. setoid_rewrite elem_of_app. naive_solver. Qed.

(** The process attribute, and what the handle said when it is not a recycled pid. *)
Definition process_read (proc pid : Z) (connected : Time) (opts : option Options) (q : Peer) (new : list pevent) : Prop :=
  attr_proof (PProcess q) = ProofKernel /\ PID (attr_value (PProcess q)) = pid /\
  (no_image q \/
   ∃ started, Ev (GetProcessTimes proc) (Ok started) ∈ new /\ started <= connected /\
     attr_value (PProcess q) = mkProcess pid started false 0 /\ image_said proc pid started opts q new).

Lemma resolvePinned_spec proc pid connected opts p h :
  adds (resolvePinned W errText rfc3339Nano proc pid connected opts p)
    (λ q new, Forall (about_process proc) new /\ PUser q = PUser p /\ process_read proc pid connected opts q new) h.
Proof.
  unfold resolvePinned, processStartTime, sys. repeat adds_step.
  destruct (W _ (GetProcessTimes proc) _) as [started|e]; [|adds_step; split_and!; [all_events|done|]; split_and!; [done|done|by left]].
  unfold After. destruct (connected <? started) eqn:El; to_prop.
  { adds_step. split_and!; [all_events|done|]. split_and!; [done|done|by left]. }
  adds_step. eapply adds_mono; [|apply pipe_path_spec]. intros [q1 path] n1 (Ha1 & Hu1 & Hp1 & Hpath & Hval). cbn [PUser PProcess set_Process] in Hu1, Hp1.
  adds_step. eapply adds_mono; [|apply pipe_package_spec]. intros q2 n2 (Ha2 & Hu2 & Hp2 & Hq2 & Hpkg).
  eapply adds_mono; [|apply resolveCode_spec; by rewrite Hq2]. intros q3 n3 (Ha3 & Hu3 & Hp3 & Hq3 & Hk3 & Hcode).
  assert (PProcess q3 = attr "process" (mkProcess pid started false 0) ProofKernel
    "the pid came from the kernel's record of this pipe instance; the start time predates the connection, so it is not a recycled pid") as Hproc
    by congruence.
  split; [all_events|]. split; [congruence|]. unfold process_read. rewrite Hproc. split_and!; [done|done|].
  right. exists started. split; [by left|]. split; [done|]. split; [done|]. split_and!.
  - rewrite Hq3, Hq2. apply path_said_app. right. apply path_said_app. by left.
  - rewrite Hk3. do 2 (apply package_said_app; right). apply package_said_app. by left.
  - by do 3 (apply code_said_app; right).
Qed.

(** What [proc] was asked while it was open: the handle to the process [pid], opened
    once, asked [mid] and nothing else, and closed. *)
Definition pinnedBy (pid proc : Z) (mid new : list pevent) : Prop :=
  ∃ a c, new = a ++ [Ev (OpenProcess pid) (Ok proc)] ++ mid ++ [Ev (CloseHandle proc) c] /\ Forall (about_process proc) mid.

(** What the process, path, package and code of the client of [pipe] rest on. *)
Definition process_said (pipe : Z) (connected : Time) (opts : option Options) (q : Peer) (new : list pevent) : Prop :=
  (attr_proof (PProcess q) = ProofNone /\ no_image q) \/
  ∃ pid, Ev (GetNamedPipeClientProcessId pipe) (Ok pid) ∈ new /\ attr_proof (PProcess q) = ProofKernel /\ PID (attr_value (PProcess q)) = pid /\
    (no_image q \/ ∃ proc mid, pinnedBy pid proc mid new /\ process_read proc pid connected opts q mid).

Lemma resolveProcess_spec pipe connected opts p h :
  no_image p → attr_proof (PProcess p) = ProofNone →
  adds (resolveProcess W errText rfc3339Nano pipe connected opts p)
    (λ q new, Forall elsewhere new /\ keeps [] new /\ PUser q = PUser p /\ process_said pipe connected opts q new) h.
Proof.
  intros Hn Hp. unfold resolveProcess, sys. repeat adds_step.
  destruct (W _ (GetNamedPipeClientProcessId pipe) _) as [pid|e]; [|adds_step; split_and!; [all_events|keeps_none|done|by left]].
  repeat adds_step. destruct (W _ (OpenProcess pid) _) as [proc|e].
  2: { adds_step. split_and!; [all_events|keeps_none|done|]. right. exists pid. split_and!; [by left|done|done|by left]. }
  adds_step. eapply adds_mono; [|apply resolvePinned_spec]. intros q new (Ha & Hu & Hr). repeat adds_step. rewrite app_nil_r.
  set (c := W _ (CloseHandle proc) _).
  assert (Forall still new) as Hstill by (by eapply Forall_impl, about_still).
  assert (Forall elsewhere new) as Helse by (by eapply Forall_impl, about_elsewhere).
  split_and!; [all_events| |done|].
  - apply nil_keeps; [keeps_none|]. rewrite app_assoc. eapply (keeps_close (inl proc)); [|done|done].
    apply keeps_nil; [by apply Permutation_refl|keeps_none].
  - right. exists pid. split; [by left|]. split; [apply Hr|]. split; [apply Hr|]. right. exists proc, new. split; [|done].
    by exists [Ev (GetNamedPipeClientProcessId pipe) (Ok pid)], c.
Qed.

(** ** The whole peer *)

(** [pipe] was found to be the server end of a pipe. *)
Definition server_end (pipe : Z) (new : list pevent) : Prop :=
  ∃ flags, Ev (GetNamedPipeInfo pipe) (Ok flags) ∈ new /\ Z.land flags PIPE_SERVER_END ≠ 0.

(** Its client was found to be on this machine. *)
Definition local_client (pipe : Z) (new : list pevent) : Prop :=
  Ev (GetNamedPipeClientComputerNameW pipe) (inl ERROR_PIPE_LOCAL) ∈ new \/
  ∃ buf local, Ev (GetNamedPipeClientComputerNameW pipe) (inr buf) ∈ new /\ Ev ComputerName (Ok local) ∈ new /\
    ordinalEqualIgnoringCase (UTF16ToString (take 256 buf)) local = true.

(** The user is unknown, or the kernel's record of the client's principal. *)
Definition user_said (pipe : Z) (a : Attr User) (new : list pevent) : Prop :=
  attr_proof a = ProofNone \/
  attr_proof a = ProofKernel /\ ∃ x before y tok mid f, new = x ++ before ++ y /\ impersonated pipe tok mid before /\ token_said tok f mid /\
    let u := tokenUser (tf_sid f) (tf_elevated f) (tf_label f) in
    attr_value a = u \/ ∃ name domain, Ev (AccountName (SID u)) (Ok (name, domain)) ∈ new /\ attr_value a = set_account u name domain.

(** When the connection existed: what the caller said, or the clock. *)
Definition connected_said (opts : option Options) (t : Time) (new : list pevent) : Prop :=
  match opts with
  | Some o => if IsZero (ConnectedAt o) then Ev TimeNow t ∈ new else t = ConnectedAt o
  | None => Ev TimeNow t ∈ new
  end.

(** Calls that open nothing and leave the thread alone. *)
Definition plain (new : list pevent) : Prop := Forall elsewhere new /\ keeps [] new.

Lemma plain_app a b : plain a → plain b → plain (a ++ b).
Proof. intros [? ?] [? ?]. split; [all_events|by apply keeps_nil]. Qed.

Lemma connectedAt_spec opts h : adds (connectedAtW W opts) (λ t new, plain new /\ connected_said opts t new) h.
Proof.
  unfold connectedAtW, connected_said. destruct opts as [o|]; [destruct (IsZero (ConnectedAt o))|]; cbn [negb]; unfold sys; adds_step;
    (split; [split; [all_events|keeps_none]|]); try done; by left.
Qed.

Lemma requireServerEnd_spec pipe h :
  adds (requireServerEnd W errText pipe) (λ e new, plain new /\ (e = None → server_end pipe new)) h.
Proof.
  unfold requireServerEnd, sys. repeat adds_step. split; [split; [all_events|keeps_none]|].
  destruct (W _ (GetNamedPipeInfo pipe) _) as [flags|] eqn:E; [|done]. destruct (Z.land _ _ =? 0) eqn:El; [done|]. to_prop.
  intros _. exists flags. split; [by left|done].
Qed.

Lemma errnoOrEINVAL_local e : errors_is_errno (Authenticode.errnoOrEINVAL e) (EOTHER ERROR_PIPE_LOCAL) = true → e = ERROR_PIPE_LOCAL.
Proof.
  unfold Authenticode.errnoOrEINVAL. destruct (e =? 0); cbn [negb errors_is_errno GoBinary.errEINVAL]; [done|].
  intros H%bool_decide_eq_true. congruence.
Qed.

Lemma requireLocalPeer_spec pipe h :
  adds (requireLocalPeer W errText Quote ordinalEqualIgnoringCase pipe) (λ e new, plain new /\ (e = None → local_client pipe new)) h.
Proof.
  unfold requireLocalPeer, namedPipeClientComputerName, sys. repeat adds_step.
  destruct (W _ (GetNamedPipeClientComputerNameW pipe) _) as [e1|buf].
  - destruct (errors_is_errno _ _) eqn:E; adds_step; (split; [split; [all_events|keeps_none]|]); [|done].
    apply errnoOrEINVAL_local in E as ->. intros _. left. by left.
  - repeat adds_step. destruct (W _ ComputerName _) as [local|]; [|adds_step; split; [split; [all_events|keeps_none]|done]].
    destruct (ordinalEqualIgnoringCase _ _) eqn:E; cbn [negb]; adds_step; (split; [split; [all_events|keeps_none]|]); [|done].
    intros _. right. exists buf, local. split_and!; [by left|right; by left|done].
Qed.

Lemma server_end_app pipe a b : server_end pipe a \/ server_end pipe b → server_end pipe (a ++ b).
Proof. clear. unfold server_end. setoid_rewrite elem_of_app. naive_solver. Qed.

Lemma local_client_app pipe a b : local_client pipe a \/ local_client pipe b → local_client pipe (a ++ b).
Proof. clear. unfold local_client. setoid_rewrite elem_of_app. naive_solver. Qed.

Lemma connected_said_app opts t a b : connected_said opts t a \/ connected_said opts t b → connected_said opts t (a ++ b).
Proof. clear. unfold connected_said. repeat case_match; rewrite ?elem_of_app; naive_solver. Qed.

Lemma user_said_app pipe u a b c : user_said pipe u b → user_said pipe u (a ++ b ++ c).
Proof.
  intros [H|(H & x & before & y & tok & mid & f & -> & Hi & Ht & Hv)]; [by left|]. right. split; [done|].
  exists (a ++ x), before, (y ++ c), tok, mid, f. split; [by rewrite <- !app_assoc|]. split; [done|]. split; [done|].
  destruct Hv as [Hv|(name & domain & Hin & Hv)]; [by left|]. right. exists name, domain. split; [|done].
  rewrite elem_of_app, elem_of_app. auto.
Qed.

Lemma process_said_app pipe t opts q a b : process_said pipe t opts q b → process_said pipe t opts q (a ++ b).
Proof.
  intros [H|(pid & Hin & Hp & Hv & H)]; [by left|]. right. exists pid. rewrite elem_of_app. split_and!; [by right|done|done|].
  destruct H as [H|(proc & mid & (x & c & -> & Hm) & Hr)]; [by left|]. right. exists proc, mid. split; [|done].
  exists (a ++ x), c. split; [by rewrite <- app_assoc|done].
Qed.

Lemma contained_plain a b c : plain a → contained freshThread b → threadAfter freshThread b = freshThread → plain c →
  contained freshThread (a ++ b ++ c) /\ threadAfter freshThread (a ++ b ++ c) = freshThread.
Proof.
  intros [Ha _] Hb Hf [Hc _]. split.
  - apply contained_elsewhere; [done|done|]. apply contained_app; [done|]. rewrite Hf, <- (app_nil_r c).
    apply contained_elsewhere; [done|done|]. by apply contained_nil.
  - by rewrite !threadAfter_app, (threadAfter_elsewhere _ a Ha), Hf, threadAfter_elsewhere.
Qed.

(** Everything known of the peer [ofHandle] gives. *)
Definition peer_said (pipe : Z) (opts : option Options) (p : Peer) (new : list pevent) : Prop :=
  server_end pipe new /\ local_client pipe new /\ user_said pipe (PUser p) new /\
  ∃ connected, connected_said opts connected new /\ process_said pipe connected opts p new.

(** A run that ends with [r]: the thread and the handles are as they were, and a peer
    rests on what was said. *)
Definition resolved (pipe : Z) (opts : option Options) (r : result Peer) (new : list pevent) : Prop :=
  contained freshThread new /\ keeps [] new /\ dropped_or_stuck (threadAfter freshThread new) r /\
  ∀ p, r = Ok p → peer_said pipe opts p new.

Lemma resolved_err pipe opts e new : plain new → resolved pipe opts (Err e) new.
Proof.
  intros [He Hk]. split_and!; [|done| |done].
  - rewrite <- (app_nil_r new). apply contained_elsewhere; [done|done|by apply contained_nil].
  - left. by apply threadAfter_elsewhere.
Qed.

(** The last two parts of [ofHandle], after the questions [pre] and the user's [mid]. *)
Lemma resolve_rest pipe opts connected p pre mid h :
  plain pre → server_end pipe pre → local_client pipe pre → connected_said opts connected pre →
  contained freshThread mid → keeps [] mid → threadAfter freshThread mid = freshThread → user_said pipe (PUser p) mid →
  no_image p → attr_proof (PProcess p) = ProofNone →
  adds (q ← resolveProcess W errText rfc3339Nano pipe connected opts p; mret (Ok q))
    (λ r new, resolved pipe opts r (pre ++ mid ++ new)) h.
Proof.
  intros Hpre Hse Hlc Hcs Hc Hk Ht Hu Hn Hp. adds_step. eapply adds_mono; [|by apply resolveProcess_spec].
  intros q new (He & Hkn & Huq & Hs). adds_step. rewrite app_nil_r.
  destruct (contained_plain pre mid new) as [Hcon Haft]; [done..|by split|]. split_and!; [done| |left; exact Haft|].
  - apply nil_keeps; [apply Hpre|]. by apply nil_keeps.
  - intros p' [= <-]. split_and!; [apply server_end_app; by left|apply local_client_app; by left| |].
    + rewrite Huq. by apply user_said_app.
    + exists connected. split; [apply connected_said_app; by left|]. by do 2 apply process_said_app.
Qed.

Lemma pipe_peer_spec pipe opts h :
  adds (ofHandle W errText Quote rfc3339Nano ordinalEqualIgnoringCase pipe opts) (resolved pipe opts) h.
Proof.
  unfold ofHandle. adds_step. eapply adds_mono; [|apply connectedAt_spec]. intros connected n0 (H0 & Hcs).
  unfold sys at 1. do 2 adds_step. cbv zeta. set (now := W _ TimeNow _).
  assert (plain [Ev TimeNow now]) as Hnow by (split; [all_events|keeps_none]).
  adds_step. eapply adds_mono; [|apply requireServerEnd_spec]. intros [e|] n1 (H1 & Hse).
  { adds_step. apply resolved_err. rewrite app_nil_r. by repeat apply plain_app. }
  adds_step. eapply adds_mono; [|apply requireLocalPeer_spec]. intros [e|] n2 (H2 & Hlc).
  { adds_step. apply resolved_err. rewrite app_nil_r. by repeat apply plain_app. }
  adds_step. eapply adds_mono; [|apply peerUser_spec]. intros u n3 (Hc & Hk & Hd & Hu).
  assert (plain (n0 ++ [Ev TimeNow now] ++ n1 ++ n2)) as Hpre by (by repeat apply plain_app).
  assert (∀ p, threadAfter freshThread n3 = freshThread → user_said pipe (PUser p) n3 → no_image p → attr_proof (PProcess p) = ProofNone →
    ∀ h, adds (q ← resolveProcess W errText rfc3339Nano pipe connected opts p; mret (Ok q))
      (λ r new, resolved pipe opts r (n0 ++ [Ev TimeNow now] ++ n1 ++ n2 ++ n3 ++ new)) h) as Hrest.
  { intros p Ht Hup Hn Hpp h'. eapply adds_mono; [|eapply (resolve_rest pipe opts connected p _ n3 h' Hpre)]; try done.
    - intros r new. cbn beta. by rewrite <- !app_assoc.
    - do 2 (apply server_end_app; right). apply server_end_app. left. by apply Hse.
    - do 3 (apply local_client_app; right). by apply Hlc.
    - apply connected_said_app. by left. }
  destruct u as [[user why]|e].
  - destruct Hd as [Hd|(_ & text & [=])]. apply Hrest; [done| |by destruct (String.eqb why "")|by destruct (String.eqb why "")].
    destruct (Hu user why eq_refl) as (tok & mid & before & a & f & -> & Hi & Ht & ->).
    right. split; [by destruct (String.eqb why "")|]. exists [], before, [Ev (AccountName (tf_sid f)) a], tok, mid, f.
    split; [destruct a as [[]|]; done|]. split; [done|]. split; [done|].
    destruct a as [[name domain]|]; [right|left; by destruct (String.eqb why "")]. exists name, domain.
    split; [apply elem_of_app; right; by left|by destruct (String.eqb why "")].
  - destruct (errors_is e errAnonymousClient) eqn:Ea.
    + destruct Hd as [Hd|(_ & text & [= ->])]; [|done]. apply Hrest; [done|by left|done|done].
    + adds_step. rewrite app_nil_r. split_and!; [| | |done].
      * rewrite !app_assoc, <- app_assoc. rewrite <- !app_assoc. apply contained_elsewhere; [done|apply H0|].
        apply contained_elsewhere; [done|apply Hnow|]. apply contained_elsewhere; [done|apply H1|]. by apply contained_elsewhere; [|apply H2|].
      * apply nil_keeps; [apply H0|]. apply nil_keeps; [apply Hnow|]. apply nil_keeps; [apply H1|]. apply nil_keeps; [apply H2|done].
      * rewrite !threadAfter_app, (threadAfter_elsewhere _ n0), (threadAfter_elsewhere _ [_]), (threadAfter_elsewhere _ n1),
          (threadAfter_elsewhere _ n2) by (apply H0 || apply Hnow || apply H1 || apply H2).
        destruct Hd as [Hd|(Hd & text & [= ->])]; [by left|right; eauto].
Qed.

End Facts.

(** ** Properties *)

(** C17: a Windows peer rests on answers the system gave about that pipe. [ofHandle]
    answers only for the server end of a pipe whose client is on this machine; the user
    is unknown or what the client's own token said while the thread wore it; the pid is
    the kernel's record on the pipe; path, package and code are known only when the
    process of that pid, pinned by one open handle through which all of them were read,
    was created no later than the connection, and each is an answer of that handle. A
    recycled pid yields none of them. Every handle and token opened is closed, and the
    client's token is never worn on a thread another goroutine may get. *)
Theorem windows_peer_evidence W errText Quote rfc3339Nano ordinalEqual pipe opts h :
  let '(r, h') := ofHandle W errText Quote rfc3339Nano ordinalEqual pipe opts h in
  ∃ new, h' = h ++ new /\ keeps [] new /\ contained freshThread new /\
    match r with
    | Err _ => dropped_or_stuck (threadAfter freshThread new) r
    | Ok p => threadAfter freshThread new = freshThread /\ peer_said ordinalEqual pipe opts p new /\
              (Recycled (attr_value (PProcess p)) = true → no_image p)
    end.
Proof.
  destruct (pipe_peer_spec W errText Quote rfc3339Nano ordinalEqual pipe opts h) as (new & Hh & Hc & Hk & Hd & Hp).
  destruct (ofHandle _ _ _ _ _ _ _ _) as [r h']. exists new. cbn in *. split_and!; [done..|].
  destruct r as [p|e]; [|done]. split; [by destruct Hd as [?|(_ & text & [=])]|]. specialize (Hp p eq_refl). split; [done|].
  intros Hrec. destruct Hp as (_ & _ & _ & connected & _ & [[_ Hn]|(pid & _ & _ & _ & [Hn|(proc & mid & _ & _ & _ & [Hn|Hr])])]); try done.
  destruct Hr as (started & _ & _ & Hv & _). by rewrite Hv in Hrec.
Qed.

(** What the verification of a process's image promises its callers. *)
Class CodeVerdicts (W : ∀ A, question A → list pevent → A) : Prop :=
  code_verdicts h proc pid started path revocation code verdict at_ :
    W _ (VerifyProcessImageAt proc pid started path revocation) h = Ok (code, verdict, at_) → verdictRung (code, verdict).

(** An event whose verdict, if it has one, is on such a rung. *)
Definition verdict_kept (e : pevent) : Prop :=
  match e with
  | Ev q a =>
      match q in question A return A → Prop with
      | VerifyProcessImageAt _ _ _ _ _ => λ r, match r with Ok (code, verdict, _) => verdictRung (code, verdict) | Err _ => True end
      | _ => λ _, True
      end a
  end.

Lemma verdicts_kept W `{!CodeVerdicts W} A (q : question A) h : verdict_kept (Ev q (W A q h)).
Proof.
  destruct q; try done. cbn. destruct (W _ _ h) as [[[code verdict] at_]|] eqn:E; [|done]. by eapply code_verdicts.
Qed.

Lemma ofHandle_verdicts W `{!CodeVerdicts W} errText Quote rfc3339Nano ordinalEqual pipe opts :
  only verdict_kept (ofHandle W errText Quote rfc3339Nano ordinalEqual pipe opts).
Proof.
  pose proof (verdicts_kept W) as Hk.
  only_calls ltac:(unfold ofHandle, connectedAtW, requireServerEnd, requireLocalPeer, namedPipeClientComputerName, peerUser, withPeerToken,
    impersonateNamedPipeClient, asClient, readPeerToken, readTokenLabel, RID, resolveProcess, resolvePinned, processStartTime, resolvePath,
    processImagePath, resolvePackage, packageFullName, resolveCode).
Qed.

Lemma code_within proc pid started revocation p new :
  Forall verdict_kept new → code_said proc pid started revocation p new → attr_proof (PCode p) <= ProofBound.
Proof.
  intros Hf [->|(at_ & Hin & _)]; [done|]. rewrite Forall_forall in Hf. specialize (Hf _ Hin). cbn in Hf. unfold verdictRung in Hf.
  cbn [fst snd] in Hf. destruct (Trusted _); [by rewrite Hf|]. by destruct Hf as [->| ->].
Qed.

(** The levels of a peer that rests on such answers. *)
Lemma said_within ordinalEqual pipe opts p new :
  Forall verdict_kept new → peer_said ordinalEqual pipe opts p new → within p windowsBest.
Proof.
  intros Hv (_ & _ & Hu & connected & _ & Hs). assert (attr_proof (PUser p) <= ProofKernel) as HU by (by destruct Hu as [->|[-> _]]).
  destruct Hs as [[Hp (H1 & H2 & H3)]|(pid & _ & Hp & _ & Hs)].
  { intros []; cbn; [done|rewrite Hp|rewrite H1|rewrite H2|rewrite H3]; done. }
  assert (attr_proof (PProcess p) <= ProofKernel) as HP by (by rewrite Hp).
  destruct Hs as [(H1 & H2 & H3)|(proc & mid & (a & c & -> & _) & _ & _ & [(H1 & H2 & H3)|(started & _ & _ & _ & Hpath & Hpkg & Hcode)])];
    [intros []; cbn; [done|done|rewrite H1|rewrite H2|rewrite H3]; done..|].
  rewrite !Forall_app in Hv. destruct Hv as (_ & _ & Hv & _).
  intros []; cbn; [done|done|by destruct Hpath as [->|[-> _]]|by destruct Hpkg as [->|[-> _]]|by eapply code_within].
Qed.

(** The ceiling of named pipes is one: no peer [ofHandle] gives is proven above it
    in any attribute, so a policy [CanEver] refuses for this transport is met by no
    client of any pipe. *)
Theorem windows_ceiling_sound W `{!CodeVerdicts W} errText Quote rfc3339Nano ordinalEqual pipe opts h p n :
  (ofHandle W errText Quote rfc3339Nano ordinalEqual pipe opts h).1 = Ok p →
  within p (Best ceiling) /\ (CheckPeer p n = None → LimitsCanEver ceiling n = None).
Proof.
  intros Hr. destruct (pipe_peer_spec W errText Quote rfc3339Nano ordinalEqual pipe opts h) as (new & Hh & _ & _ & _ & Hp).
  destruct (ofHandle_verdicts W errText Quote rfc3339Nano ordinalEqual pipe opts h) as (new' & Hh' & Hv).
  rewrite Hh in Hh'. apply app_inv_head in Hh' as <-.
  assert (within p (Best ceiling)) as Hw by (eapply said_within; [done|by apply Hp]). split; [done|].
  apply CanEver_exact_l; [done|]. by intros [].
Qed.

(** ** A system to run on *)

(** One local client of pid 42, started at 5, running [C:\app.exe] signed and trusted. *)
Definition exampleSystem : ∀ A, question A → list pevent → A := λ A q _,
  match q in question A return A with
  | GetNamedPipeInfo _ => Ok 1
  | GetNamedPipeClientComputerNameW _ => inl ERROR_PIPE_LOCAL
  | ComputerName => Ok "HERE"
  | GetNamedPipeClientProcessId _ => Ok 42
  | GetNamedPipeServerProcessId _ => Ok 42
  | GetPeerPID _ => Ok (42, 0)
  | OpenProcess _ => Ok 7
  | CloseHandle _ => None
  | GetProcessTimes _ => Ok 5
  | GetExitCodeProcess _ => Ok 259
  | QueryFullProcessImageName _ => Ok (asciiUnits "C:\app.exe")
  | GetPackageFullName _ _ => (appmodelErrorNoPackage, 1%positive, [])
  | LockOSThread => tt
  | UnlockOSThread => tt
  | ImpersonateNamedPipeClient _ => None
  | RevertToSelf => None
  | GetCurrentThread => Ok 8
  | OpenThreadToken _ => Ok 9
  | OpenProcessToken _ => Ok 9
  | CloseToken _ => None
  | TokenImpersonationLevel _ => Ok SecurityIdentification
  | GetTokenUser _ => Ok "S-1-5-21-1"
  | CopySid sid => Ok sid
  | IsElevated _ => false
  | IntegritySize _ => 12
  | IntegrityLabel _ _ => Ok (sidBytes (replicate 6 (zb 0)) [0x2000], Some 0)
  | IsRestricted _ => Ok false
  | AccountName _ => Ok ("ada", "HERE")
  | TimeNow => 10
  | VerifyProcessImageAt _ _ _ _ _ => Ok (mkCode "CN=App" "CN=Root" true "valid" false "" "" "", ProofBound, 9)
  | GetExtendedTable _ _ _ _ => (0, 0, [])
  end.

#[global] Instance exampleSystem_verdicts : CodeVerdicts exampleSystem.
Proof. intros ????????? [= <- <- <-]. done. Qed.

Definition examplePeer : result Peer := (ofHandle exampleSystem (λ _, "") quoted itoa String.eqb 3 None []).1.

Example exampleReads :
  match examplePeer with
  | Ok p => SID (attr_value (PUser p)) = "S-1-5-21-1" /\ Integrity (attr_value (PUser p)) = "medium" /\
            PPath p = attr "path" "C:\app.exe" ProofBound "read through a process handle that cannot be a recycled pid; a path is not an identity - see CONTRACT.md" /\
            attr_proof (PCode p) = ProofBound
  | Err _ => False
  end.
Proof. vm_compute. by split_and!. Qed.

Lemma windows_ceiling_sound_witness : ∃ p, examplePeer = Ok p /\ within p (Best ceiling).
Proof.
  destruct examplePeer as [p|e] eqn:E; [|vm_compute in E; discriminate E]. exists p. split; [reflexivity|].
  refine (proj1 (windows_ceiling_sound exampleSystem (λ _, "") quoted itoa String.eqb 3 None [] p (Best ceiling) E)).
Defined.

(** A function that reads the token, and one that leaves the goroutine instead. *)
Lemma impersonation_contained_witness :
  (∃ f, (withPeerToken exampleSystem (λ _, "") 3 (readPeerToken exampleSystem (λ _, "")) []).1 = Some (Ok f) /\ tf_sid f = "S-1-5-21-1") /\
  adds (withPeerToken exampleSystem (λ _, "") 3 (readPeerToken exampleSystem (λ _, "")))
    (λ r new, ∀ r', r = Some r' → dropped_or_stuck (threadAfter freshThread new) r') [] /\
  adds (withPeerToken exampleSystem (λ _, "") 3 (λ _, mret (Exited (A:=tokenFacts))))
    (λ r new, r = None /\ threadAfter freshThread new = mkThread false true) [].
Proof.
  split; [eexists; split; [vm_compute; reflexivity|reflexivity]|]. split.
  - eapply adds_mono; [|apply (impersonation_contained exampleSystem (λ _, "") 3 (readPeerToken exampleSystem (λ _, "")) [])].
    + intros r new [_ H] r' ->. exact (proj1 (proj2 H)).
    + intros tok h. eapply adds_mono; [|apply readPeerToken_spec]. intros r new [Hq _]. by eapply queries_quiet.
  - destruct (impersonation_contained exampleSystem (λ _, "") 3 (λ _, mret (Exited (A:=tokenFacts))) []) as (new & Hh & _ & Hl).
    + intros tok h. exists []. split; [by rewrite app_nil_r|]. split; [constructor|keeps_none].
    + exists new. split; [exact Hh|]. revert Hl. vm_compute ((withPeerToken exampleSystem _ 3 _ []).1). intros [_ Hl]. by split.
Defined.
