(* ===== verification/BindWindows.v ===== *)
(** bind_windows.go, server_windows.go and unixserver_windows.go: identities pinned by
    an open process handle, for the client of a pipe, the server of a pipe and the
    server of an [AF_UNIX] socket; and the peer read through such a handle, which
    loopback_windows.go also uses. *)

From S2P Require Import Prelude GoStrings GoError GoBinary ProofLadder Peer Binding VerdictCache Events WindowsPeers Impersonation IdentityWindows.


Definition stillActive : Z := 259.

(** [windowsBinding]. *)
Record windowsBinding := mkWB { wb_pipe : Z; wb_proc : Z; wb_pid : Z; wb_started : Time }.

(** [windowsServerBinding]. *)
Record windowsServerBinding := mkSB { sb_binding : windowsBinding; sb_sid : string }.

(** [unixServerWindowsBinding]. *)
Record unixServerWindowsBinding := mkUB { ub_socket : Z; ub_proc : Z; ub_pid : Z; ub_started : Time }.

Section BindWindows.
Context (W : ∀ A, question A → list pevent → A).
Context (errText : err → string) (Quote : string → string) (rfc3339Nano : Time → string).
Context (ordinalEqualIgnoringCase : string → string → bool).

(** ** The pinned process, which the bindings share *)

(** The body of every [alive]. *)
Definition processAlive (proc : Z) : Hist pevent (result bool) :=
  r ← sys W (GetExitCodeProcess proc);
  mret (match r with Err e => Err e | Ok code => Ok (code =? stillActive) end).

(** The body of every [release]: what it returns and the handle it leaves. *)
Definition releaseProcess (proc : Z) : Hist pevent (option err * Z) :=
  if proc =? 0 then mret (None, proc) else e ← sys W (CloseHandle proc); mret (e, 0).

Definition startedAt (pid : Z) (started now : Time) : err :=
  Wrap ("pid " +:+ itoa pid +:+ " was created at " +:+ rfc3339Nano started +:+ " and is now reported as created at " +:+ rfc3339Nano now)
    [Sentinel ErrPeerMoved].

Definition createdLate (pid : Z) (started connected : Time) : err :=
  Wrap ("pid " +:+ itoa pid +:+ " belongs to a process created at " +:+ rfc3339Nano started +:+ ", after this connection existed at "
        +:+ rfc3339Nano connected) [Sentinel ErrPeerMoved].

(** ** The client of a pipe (bind_windows.go) *)

Definition wb_release (b : windowsBinding) : Hist pevent (option err * windowsBinding) :=
  '(e, proc) ← releaseProcess (wb_proc b);
  mret (e, mkWB (wb_pipe b) proc (wb_pid b) (wb_started b)).

Definition wb_alive (b : windowsBinding) : Hist pevent (result bool) := processAlive (wb_proc b).

(** [windowsBinding.recheck]. *)
Definition wb_recheck (b : windowsBinding) : Hist pevent (option err) :=
  r ← sys W (GetNamedPipeClientProcessId (wb_pipe b));
  let moved := match r with
               | Ok pid =>
                   if negb (pid =? wb_pid b)
                   then Some (Wrap ("the pipe now names pid " +:+ itoa pid +:+ "; it named pid " +:+ itoa (wb_pid b) +:+ " when it was accepted")
                                [Sentinel ErrPeerMoved])
                   else None
               | Err _ => None
               end in
  match moved with
  | Some e => mret (Some e)
  | None =>
      s ← processStartTime W (wb_proc b);
      mret (match s with
            | Ok started => if negb (started =? wb_started b) then Some (startedAt (wb_pid b) (wb_started b) started) else None
            | Err _ => None
            end)
  end.

(** [bindHandle]. *)
Definition bindHandle (pipe : Z) (opts : option Options) : Hist pevent (result (windowsBinding * Peer)) :=
  e ← requireServerEnd W errText pipe;
  match e with
  | Some e => mret (Err e)
  | None =>
      e ← requireLocalPeer W errText Quote ordinalEqualIgnoringCase pipe;
      match e with
      | Some e => mret (Err e)
      | None =>
          r ← sys W (GetNamedPipeClientProcessId pipe);
          match r with
          | Err e => mret (Err (Wrap ("GetNamedPipeClientProcessId: " +:+ errText e) [Sentinel ErrNoBinding]))
          | Ok pid =>
              o ← sys W (OpenProcess pid);
              match o with
              | Err e =>
                  mret (Err (Wrap ("pid " +:+ itoa pid +:+ " could not be opened (" +:+ errText e +:+ "); it exited before it could be pinned")
                               [Sentinel ErrPeerGone]))
              | Ok proc =>
                  s ← processStartTime W proc;
                  match s with
                  | Err e =>
                      _ ← wb_release (mkWB pipe proc pid zeroTime);
                      mret (Err (Wrap ("the peer's creation time could not be read: " +:+ errText e) [Sentinel ErrNoBinding]))
                  | Ok started =>
                      let b := mkWB pipe proc pid started in
                      connected ← connectedAtW W opts;
                      if After started connected then
                        _ ← wb_release b; mret (Err (createdLate pid started connected))
                      else
                        p ← ofHandle W errText Quote rfc3339Nano ordinalEqualIgnoringCase pipe opts;
                        match p with
                        | Err e => _ ← wb_release b; mret (Err e)
                        | Ok peer => mret (Ok (b, peer))
                        end
                  end
              end
          end
      end
  end.

(** ** The server of a pipe (server_windows.go) *)

(** [User{Kind: "windows", SID: sid, UID: -1, GID: -1}]. *)
Definition sidUser (sid : string) : User := mkUser "windows" sid "" "" false "" 0 false (-1) (-1) "" 0.

(** [serverPrincipal]. *)
Definition serverPrincipal (proc : Z) : Hist pevent (result User) :=
  t ← sys W (OpenProcessToken proc);
  match t with
  | Err e => mret (Err e)
  | Ok token =>
      u ← sys W (GetTokenUser token);
      _ ← sys W (CloseToken token);
      mret (match u with Err e => Err e | Ok sid => Ok (sidUser sid) end)
  end.

(** [windowsServerBinding.recheck]. *)
Definition sb_recheck (b : windowsServerBinding) : Hist pevent (option err) :=
  r ← sys W (GetNamedPipeServerProcessId (wb_pipe (sb_binding b)));
  match r with
  | Err e => mret (Some (Wrap (errText e) [Sentinel ErrNoBinding]))
  | Ok pid =>
      if negb (pid =? wb_pid (sb_binding b)) then mret (Some (Sentinel ErrPeerMoved))
      else
        u ← serverPrincipal (wb_proc (sb_binding b));
        mret (match u with
              | Err e => Some e
              | Ok u => if negb (String.eqb (SID u) (sb_sid b)) then Some (Sentinel ErrPeerMoved) else None
              end)
  end.

Definition sb_release (b : windowsServerBinding) : Hist pevent (option err * windowsServerBinding) :=
  '(e, wb) ← wb_release (sb_binding b); mret (e, mkSB wb (sb_sid b)).

Definition sb_alive (b : windowsServerBinding) : Hist pevent (result bool) := wb_alive (sb_binding b).

(** [bindServerHandle]. *)
Definition bindServerHandle (pipe : Z) (opts : option Options) : Hist pevent (result (windowsServerBinding * Peer)) :=
  i ← sys W (GetNamedPipeInfo pipe);
  match i with
  | Err e => mret (Err e)
  | Ok flags =>
      if negb (Z.land flags PIPE_SERVER_END =? 0) then mret (Err (Sentinel ErrUnsupportedConn))
      else
        r ← sys W (GetNamedPipeServerProcessId pipe);
        match r with
        | Err e => mret (Err (Wrap (errText e) [Sentinel ErrNoBinding]))
        | Ok pid =>
            o ← sys W (OpenProcess pid);
            match o with
            | Err e => mret (Err (Wrap (errText e) [Sentinel ErrNoBinding]))
            | Ok proc =>
                let fail (e : err) : Hist pevent (result (windowsServerBinding * Peer)) :=
                  _ ← wb_release (mkWB pipe proc pid zeroTime); mret (Err e) in
                s ← processStartTime W proc;
                match s with
                | Err e => fail e
                | Ok started =>
                    connected ← connectedAtW W opts;
                    if After started connected then fail (Sentinel ErrPeerMoved)
                    else
                      u ← serverPrincipal proc;
                      match u with
                      | Err e => fail e
                      | Ok u =>
                          i ← processImagePath W proc;
                          match i with
                          | Err e => fail e
                          | Ok path =>
                              let b := mkSB (mkWB pipe proc pid started) (SID u) in
                              c ← sb_recheck b;
                              match c with
                              | Some e => fail e
                              | None =>
                                  now ← sys W TimeNow;
                                  mret (Ok (b,
                                    mkPeer "windows" "npipe" now
                                      (attr "user" u ProofBound "server process primary token read through retained process handle; rechecked before I/O")
                                      (attr "process" (mkProcess pid started false 0) ProofKernel "pipe server PID with retained process creation time")
                                      (attr "path" path ProofBound "image path read through retained server process handle")
                                      (unknown "package" "not requested") (unknown "code" "not requested") [] zeroTime))
                              end
                          end
                      end
                end
            end
        end
  end.

(** ** A peer read through a pinned process *)

(** [processUser] of loopback_windows.go: the token is closed last. *)
Definition processUser (proc : Z) : Hist pevent (result (User * string)) :=
  t ← sys W (OpenProcessToken proc);
  match t with
  | Err e => mret (Err e)
  | Ok tok =>
      r ← (u ← sys W (GetTokenUser tok);
           match u with
           | Err e => mret (Err e)
           | Ok s =>
               c ← sys W (CopySid s);
               match c with
               | Err e => mret (Err e)
               | Ok sid =>
                   label ← readTokenLabel W errText tok;
                   elevated ← sys W (IsElevated tok);
                   let user := tokenUser sid elevated label in
                   let why := tl_why label in
                   a ← sys W (AccountName sid);
                   mret (match a with
                         | Ok (name, domain) => Ok (set_account user name domain, why)
                         | Err e => Ok (user, joinWhy why ("the SID has no resolvable account name (" +:+ errText e +:+ ")"))
                         end)
               end
           end);
      _ ← sys W (CloseToken tok);
      mret r
  end.

(** The code attribute of [pinnedProcessPeer]. *)
Definition pinnedCode (proc pid : Z) (started : Time) (imagePath : string) (opts : option Options) (p : Peer) : Hist pevent Peer :=
  if skipCodeSignature opts then mret (set_Code p (unknown "code" "signature verification was skipped by the caller"))
  else
    v ← sys W (VerifyProcessImageAt proc pid started imagePath (checkRevocation opts));
    mret (match v with
          | Err e => set_Code p (unknown "code" ("verification could not be performed: " +:+ errText e))
          | Ok (code, verdict, verifiedAt) =>
              set_evidence
                (recordCode p code verdict "Authenticode verified the file at the peer's image path, not the image the peer is executing")
                (TimeAdd verifiedAt codeVerdictLifetime)
          end).

(** [pinnedProcessPeer]. *)
Definition pinnedProcessPeer (proc pid : Z) (started : Time) (transport userWhy processWhy message : string) (opts : option Options)
  : Hist pevent (result Peer) :=
  now ← sys W TimeNow;
  u ← processUser proc;
  match u with
  | Err e => mret (Err (Wrap ("the process token could not be read: " +:+ errText e) [Sentinel ErrNoBinding]))
  | Ok (user, why) =>
      i ← processImagePath W proc;
      match i with
      | Err e => mret (Err (Wrap ("QueryFullProcessImageName: " +:+ errText e) [Sentinel ErrNoBinding]))
      | Ok imagePath =>
          n ← packageFullName W proc;
          let package := match n with
                         | Ok name =>
                             if negb (String.eqb name "")
                             then attr "package" name ProofSigned "an MSIX package full name read through the pinned process handle"
                             else unknown "package" "the peer is an ordinary executable, not an MSIX package"
                         | Err _ => unknown "package" "the peer is an ordinary executable, not an MSIX package"
                         end in
          let p := mkPeer "windows" transport now (attr "user" user ProofBound (joinWhy userWhy why))
                     (attr "process" (mkProcess pid started false 0) ProofBound processWhy)
                     (attr "path" imagePath ProofBound "read through the pinned process handle; a path is not an identity - see CONTRACT.md")
                     package (unknown "code" "not resolved") [] zeroTime in
          p ← pinnedCode proc pid started imagePath opts p;
          mret (Ok (note p message))
      end
  end.

(** ** The server of a socket (unixserver_windows.go) *)

(** [disconnected]. *)
Definition disconnected (e : err) : bool :=
  errors_is_errno e (EOTHER 10038) || errors_is_errno e (EOTHER 10057) || errors_is_errno e (EOTHER 10054)
  || errors_is_errno e (EOTHER 10053) || errors_is_errno e (EOTHER 10058).

Definition ub_alive (b : unixServerWindowsBinding) : Hist pevent (result bool) := processAlive (ub_proc b).

Definition ub_release (b : unixServerWindowsBinding) : Hist pevent (option err * unixServerWindowsBinding) :=
  '(e, proc) ← releaseProcess (ub_proc b);
  mret (e, mkUB (ub_socket b) proc (ub_pid b) (ub_started b)).

(** [unixServerWindowsBinding.recheck]. *)
Definition ub_recheck (b : unixServerWindowsBinding) : Hist pevent (option err) :=
  r ← unixPeerPID W (ub_socket b);
  match r with
  | Err e =>
      if disconnected e then mret None else mret (Some (Wrap ("SIO_AF_UNIX_GETPEERPID: " +:+ errText e) [Sentinel ErrNoBinding]))
  | Ok pid =>
      if negb (pid =? ub_pid b)
      then mret (Some (Wrap ("the kernel now names pid " +:+ itoa pid +:+ " for the socket's server; it named pid " +:+ itoa (ub_pid b)
                             +:+ " at the dial") [Sentinel ErrPeerMoved]))
      else
        s ← processStartTime W (ub_proc b);
        mret (match s with
              | Ok started => if negb (started =? ub_started b) then Some (startedAt (ub_pid b) (ub_started b) started) else None
              | Err _ => None
              end)
  end.

(** [bindUnixServer]. *)
Definition bindUnixServer (socket : Z) (opts : option Options) : Hist pevent (result (unixServerWindowsBinding * Peer)) :=
  r ← unixPeerPID W socket;
  match r with
  | Err e => mret (Err (Wrap ("SIO_AF_UNIX_GETPEERPID: " +:+ errText e) [Sentinel ErrUnsupportedConn]))
  | Ok pid =>
      if pid =? 0 then mret (Err (Wrap "the kernel names no process for the socket's server" [Sentinel ErrNoBinding]))
      else
        o ← sys W (OpenProcess pid);
        match o with
        | Err e => mret (Err (Wrap ("pid " +:+ itoa pid +:+ " could not be opened (" +:+ errText e +:+ ")") [Sentinel ErrPeerGone]))
        | Ok proc =>
            s ← processStartTime W proc;
            match s with
            | Err e =>
                _ ← ub_release (mkUB socket proc pid zeroTime);
                mret (Err (Wrap ("the server's start time could not be read: " +:+ errText e) [Sentinel ErrNoBinding]))
            | Ok started =>
                let b := mkUB socket proc pid started in
                connected ← connectedAtW W opts;
                if After started connected then
                  _ ← ub_release b; mret (Err (createdLate pid started connected))
                else
                  c ← ub_recheck b;
                  match c with
                  | Some e => _ ← ub_release b; mret (Err e)
                  | None =>
                      p ← pinnedProcessPeer proc pid started TransportUnix
                            "read from the access token of the socket server's process, through a handle that cannot be a recycled pid"
                            "SIO_AF_UNIX_GETPEERPID names the process the kernel recorded for the socket's server end; its handle is pinned and its creation time predates the connection"
                            "transport: a dialed AF_UNIX socket; the server's process id came from SIO_AF_UNIX_GETPEERPID" opts;
                      match p with
                      | Err e => _ ← ub_release b; mret (Err e)
                      | Ok peer => mret (Ok (b, peer))
                      end
                  end
            end
        end
  end.

(** ** Binders *)

Definition pipeBinder : binder (windowsBinding * list pevent) := histBinder wb_recheck wb_alive wb_release.
Definition serverBinder : binder (windowsServerBinding * list pevent) := histBinder sb_recheck sb_alive sb_release.
Definition unixServerBinder : binder (unixServerWindowsBinding * list pevent) := histBinder ub_recheck ub_alive ub_release.
End BindWindows.

(** * What the Windows bindings hold: one open handle each, to the process the kernel
    named, and nothing when they refuse. *)


(** ** Computations that close what they open *)

Definition tidy {A} (m : Hist pevent A) : Prop := ∀ h, adds m (λ _ new, keeps [] new) h.

Lemma tidy_ret {A} (a : A) : tidy (mret a).
Proof. intros h. adds_step. keeps_none. Qed.

Lemma tidy_bind {A B} (m : Hist pevent A) (k : A → Hist pevent B) : tidy m → (∀ a, tidy (k a)) → tidy (m ≫= k).
Proof.
  intros Hm Hk h. adds_step. eapply adds_mono; [|apply Hm]. intros a new Hn. eapply adds_mono; [|apply Hk]. intros b new' Hn'.
  by apply nil_keeps.
Qed.

Set Default Proof Using "Type".

Section Facts.
Context (W : ∀ A, question A → list pevent → A).
Context (errText : err → string) (Quote : string → string) (rfc3339Nano : Time → string).
Context (ordinalEqualIgnoringCase : string → string → bool).

Lemma tidy_sys {A} (q : question A) : (∀ a, still (Ev q a)) → tidy (sys W q).
Proof. intros Hq h. unfold sys. adds_step. apply still_keeps. by apply Forall_singleton. Qed.

(** A token opened, used and closed. *)
Lemma tidy_token {A} proc (k : Z → Hist pevent A) (no : err → A) :
  (∀ tok, tidy (k tok)) →
  tidy (t ← sys W (OpenProcessToken proc);
        match t with
        | Err e => mret (no e)
        | Ok tok => r ← k tok; _ ← sys W (CloseToken tok); mret r
        end).
Proof.
  intros Hk h. unfold sys. repeat adds_step. destruct (W _ (OpenProcessToken proc) _) as [tok|e]; [|adds_step; keeps_none].
  adds_step. eapply adds_mono; [|apply Hk]. intros r new Hn. repeat adds_step. rewrite app_nil_r, app_assoc.
  eapply (keeps_close (inr tok)); [|done|done]. apply keeps_nil; [by apply Permutation_refl|done].
Qed.

(** Take a computation apart into calls that open nothing. *)
Ltac tidy_calls opens :=
  repeat (cbv zeta; opens;
    lazymatch goal with
    | |- tidy (_ ≫= _) => apply tidy_bind; [|intros ?]
    | |- tidy (mret _) => apply tidy_ret
    | |- tidy (sys _ _) => apply tidy_sys; done
    | |- tidy (match ?x with _ => _ end) => destruct x
    end).

Lemma tidy_ofHandle pipe opts : tidy (ofHandle W errText Quote rfc3339Nano ordinalEqualIgnoringCase pipe opts).
Proof. intros h. eapply adds_mono; [|apply pipe_peer_spec]. by intros r new (_ & Hk & _). Qed.

Lemma tidy_connectedAt opts : tidy (connectedAtW W opts).
Proof. tidy_calls ltac:(unfold connectedAtW). Qed.

Lemma tidy_serverPrincipal proc : tidy (serverPrincipal W proc).
Proof.
  intros h. unfold serverPrincipal, sys. repeat adds_step. destruct (W _ (OpenProcessToken proc) _) as [tok|e]; [|adds_step; keeps_none].
  repeat adds_step. unfold keeps, balanced. cbn. reflexivity.
Qed.

Lemma tidy_sb_recheck b : tidy (sb_recheck W errText b).
Proof.
  unfold sb_recheck. apply tidy_bind; [by apply tidy_sys|]. intros [pid|e]; [|apply tidy_ret].
  destruct (negb _); [apply tidy_ret|]. apply tidy_bind; [apply tidy_serverPrincipal|intros ?; apply tidy_ret].
Qed.

Lemma tidy_ub_recheck b : tidy (ub_recheck W errText rfc3339Nano b).
Proof. tidy_calls ltac:(unfold ub_recheck, unixPeerPID, processStartTime). Qed.

Lemma tidy_processUser proc : tidy (processUser W errText proc).
Proof.
  apply (tidy_token proc _ Err). intros tok. tidy_calls ltac:(unfold readTokenLabel, RID).
Qed.

Lemma tidy_pinnedProcessPeer proc pid started transport w1 w2 w3 opts :
  tidy (pinnedProcessPeer W errText proc pid started transport w1 w2 w3 opts).
Proof.
  unfold pinnedProcessPeer. apply tidy_bind; [by apply tidy_sys|intros now]. apply tidy_bind; [apply tidy_processUser|intros u].
  tidy_calls ltac:(unfold processImagePath, packageFullName, pinnedCode).
Qed.

(** The handles a process is opened with are not zero, the value of no handle. *)
Definition handles_valid : Prop := ∀ pid h proc, W _ (OpenProcess pid) h = Ok proc → proc ≠ 0.

(** Closing the handle, which is then forgotten. *)
Lemma releaseProcess_spec proc h :
  proc ≠ 0 → adds (releaseProcess W proc) (λ r new, r.2 = 0 /\ ∃ c, r.1 = c /\ new = [Ev (CloseHandle proc) c]) h.
Proof.
  intros Hp. unfold releaseProcess, sys. rewrite (proj2 (Z.eqb_neq _ _) Hp). repeat adds_step. split; [done|]. by eexists.
Qed.

Lemma wb_release_spec b h :
  wb_proc b ≠ 0 → adds (wb_release W b) (λ r new, wb_proc r.2 = 0 /\ new = [Ev (CloseHandle (wb_proc b)) r.1]) h.
Proof.
  intros Hb. unfold wb_release. adds_step. eapply adds_mono; [|by apply releaseProcess_spec]. intros [e p] new (Hp & c & <- & ->).
  adds_step. by rewrite app_nil_r.
Qed.

Lemma ub_release_spec b h :
  ub_proc b ≠ 0 → adds (ub_release W b) (λ r new, ub_proc r.2 = 0 /\ new = [Ev (CloseHandle (ub_proc b)) r.1]) h.
Proof.
  intros Hb. unfold ub_release. adds_step. eapply adds_mono; [|by apply releaseProcess_spec]. intros [e p] new (Hp & c & <- & ->).
  adds_step. by rewrite app_nil_r.
Qed.

(** ** With a handle open *)

(** Everything opened is closed, and [proc] too. *)
Definition owes (proc : Z) (new : list pevent) : Prop := inl proc :: (new ≫= openedP) ≡ₚ new ≫= closedP.

(** A computation that runs with [proc] open: it closes [proc] when it refuses, and
    keeps it with what it gives. *)
Definition back {B} (proc : Z) (m : Hist pevent (result B)) (said : B → list pevent → Prop) (h : list pevent) : Prop :=
  adds m (λ r new, match r with Err _ => owes proc new | Ok b => keeps [] new /\ said b new end) h.

Lemma owes_app proc a b : keeps [] a → owes proc b → owes proc (a ++ b).
Proof. unfold keeps, balanced, owes. intros Ha Hb. rewrite !bind_app, Ha, <- Hb. cbn. solve_Permutation. Qed.

Lemma back_bind {A B} proc (m : Hist pevent A) (P : A → list pevent → Prop) (k : A → Hist pevent (result B)) said h :
  adds m (λ a new, keeps [] new /\ P a new) h →
  (∀ a n h', P a n → back proc (k a) (λ b new, said b (n ++ new)) h') → back proc (m ≫= k) said h.
Proof.
  intros Hm Hk. unfold back. adds_step. eapply adds_mono; [|exact Hm]. intros a n [Hn HP]. eapply adds_mono; [|by apply (Hk a n)].
  intros [b|e] new; cbn; [intros [? ?]; split; [by apply nil_keeps|done]|by apply owes_app].
Qed.

Lemma back_sys {A B} proc (q : question A) (k : A → Hist pevent (result B)) said h :
  (∀ a, still (Ev q a)) → (∀ a h', back proc (k a) (λ b new, said b ([Ev q a] ++ new)) h') → back proc (sys W q ≫= k) said h.
Proof.
  intros Hq Hk. apply (back_bind _ _ (λ a new, new = [Ev q a])); [|intros a n h' ->; apply Hk].
  apply adds_sys. split; [|done]. apply still_keeps. by apply Forall_singleton.
Qed.

Lemma back_tidy {A B} proc (m : Hist pevent A) (k : A → Hist pevent (result B)) said h :
  tidy m → (∀ a n h', back proc (k a) (λ b new, said b (n ++ new)) h') → back proc (m ≫= k) said h.
Proof.
  intros Hm Hk. apply (back_bind _ _ (λ _ _, True)); [|auto]. eapply adds_mono; [|apply Hm]. auto.
Qed.

(** Closed and refused. *)
Lemma back_release {B X} proc (m : Hist pevent X) (c : X → option err) (P : X → Prop) (e : err) (said : B → list pevent → Prop) h :
  adds m (λ r new, P r /\ new = [Ev (CloseHandle proc) (c r)]) h → back proc (_ ← m; mret (Err e)) said h.
Proof. intros Hm. unfold back. adds_step. eapply adds_mono; [|exact Hm]. intros r new [_ ->]. adds_step. unfold owes. cbn. reflexivity. Qed.

Lemma back_ret {B} proc (b : B) said h : said b [] → back proc (mret (Ok b)) said h.
Proof. intros Hb. unfold back. adds_step. split; [keeps_none|done]. Qed.

(** ** What was pinned *)

(** The kernel named [pid] (in an event that [named] describes), that process was
    opened as [proc], and the handle said it was created at [started], no later than
    the connection. *)
Definition pin_said (named : list pevent → Prop) (opts : option Options) (pid proc : Z) (started : Time) (new : list pevent) : Prop :=
  named new /\ Ev (OpenProcess pid) (Ok proc) ∈ new /\ Ev (GetProcessTimes proc) (Ok started) ∈ new /\
  ∃ connected, connected_said opts connected new /\ started <= connected.

(** A bind that owns the handle [proc] of what it gives, and nothing when it refuses. *)
Definition owns {B} (m : Hist pevent (result (B * Peer))) (proc : B → Z) (said : B → Peer → list pevent → Prop) : Prop :=
  ∀ h, adds m (λ r new, match r with
                        | Err _ => keeps [] new
                        | Ok (b, p) => proc b ≠ 0 /\ keeps [inl (proc b)] new /\ said b p new
                        end) h.

Lemma owns_open {B} pid proc_ (m : Hist pevent (result (B * Peer))) proc (said : B → Peer → list pevent → Prop) pre h :
  proc_ ≠ 0 → keeps [] pre →
  back proc_ m (λ x new, proc x.1 = proc_ /\ said x.1 x.2 (pre ++ [Ev (OpenProcess pid) (Ok proc_)] ++ new)) h →
  adds m (λ r new, match r with
                   | Err _ => keeps [] (pre ++ [Ev (OpenProcess pid) (Ok proc_)] ++ new)
                   | Ok (b, p) => proc b ≠ 0 /\ keeps [inl (proc b)] (pre ++ [Ev (OpenProcess pid) (Ok proc_)] ++ new) /\
                       said b p (pre ++ [Ev (OpenProcess pid) (Ok proc_)] ++ new)
                   end) h.
Proof.
  intros Hp Hpre Hm. eapply adds_mono; [|exact Hm]. intros [[b p]|e] new; cbn.
  - intros [Hk [<- Hs]]. split; [done|]. split; [|done]. apply nil_keeps; [done|]. apply (keeps_nil [_]); [by apply Permutation_refl|done].
  - intros Ho. apply nil_keeps; [done|]. unfold keeps, balanced. cbn. exact Ho.
Qed.

Lemma connected_said_in opts t a b : a ⊆ b → connected_said opts t a → connected_said opts t b.
Proof. clear. unfold connected_said. repeat case_match; set_solver. Qed.

Lemma tidy_requireServerEnd pipe : tidy (requireServerEnd W errText pipe).
Proof. tidy_calls ltac:(unfold requireServerEnd). Qed.

Lemma tidy_requireLocalPeer pipe : tidy (requireLocalPeer W errText Quote ordinalEqualIgnoringCase pipe).
Proof. tidy_calls ltac:(unfold requireLocalPeer, namedPipeClientComputerName). Qed.

Lemma back_connected {B} proc opts (k : Time → Hist pevent (result B)) said h :
  (∀ t n h', connected_said opts t n → back proc (k t) (λ b new, said b (n ++ new)) h') → back proc (connectedAtW W opts ≫= k) said h.
Proof.
  intros Hk. apply (back_bind _ _ (connected_said opts)); [|done]. eapply adds_mono; [|apply connectedAt_spec]. by intros t n [[_ ?] ?].
Qed.

(** The client of a pipe. *)
Definition pipe_said (pipe : Z) (opts : option Options) (b : windowsBinding) (p : Peer) (new : list pevent) : Prop :=
  wb_pipe b = pipe /\
  pin_said (λ new, Ev (GetNamedPipeClientProcessId pipe) (Ok (wb_pid b)) ∈ new) opts (wb_pid b) (wb_proc b) (wb_started b) new /\
  ∃ before after, new = before ++ after /\ peer_said ordinalEqualIgnoringCase pipe opts p after.

Lemma pipe_owns pipe opts : handles_valid →
  owns (bindHandle W errText Quote rfc3339Nano ordinalEqualIgnoringCase pipe opts) wb_proc (pipe_said pipe opts).
Proof.
  intros Hv h. unfold bindHandle. adds_step. eapply adds_mono; [|apply tidy_requireServerEnd].
  intros [e|] n1 Hn1; [adds_step; by rewrite app_nil_r|].
  adds_step. eapply adds_mono; [|apply tidy_requireLocalPeer]. intros [e|] n2 Hn2; [adds_step; rewrite app_nil_r; by apply nil_keeps|].
  sys_step. destruct (W _ (GetNamedPipeClientProcessId pipe) _) as [pid|e]; [|adds_step; keeps_none].
  sys_step. destruct (W _ (OpenProcess pid) _) as [proc|e] eqn:Eo; [|adds_step; keeps_none]. apply Hv in Eo as Hproc.
  eapply adds_mono; [|eapply (owns_open pid proc _ wb_proc (pipe_said pipe opts) (n1 ++ n2 ++ [Ev (GetNamedPipeClientProcessId pipe) (Ok pid)]));
    [done|by repeat (apply nil_keeps; [keeps_none|]); keeps_none|]].
  { intros r new. cbn beta. by rewrite <- !app_assoc. }
  apply back_sys; [done|]. intros [started|e] h1; [|eapply (back_release _ _ fst (λ r, wb_proc r.2 = 0)); by apply wb_release_spec].
  apply back_connected. intros connected n3 h2 Hcs. unfold After.
  destruct (connected <? started) eqn:El; [eapply (back_release _ _ fst (λ r, wb_proc r.2 = 0)); by apply wb_release_spec|]. to_prop.
  eapply (back_bind _ _ (λ r new, ∀ p, r = Ok p → peer_said ordinalEqualIgnoringCase pipe opts p new)).
  { eapply adds_mono; [|apply pipe_peer_spec]. by intros r n (_ & ? & _ & ?). }
  intros [p|e] n4 h3 Hp; [|eapply (back_release _ _ fst (λ r, wb_proc r.2 = 0)); by apply wb_release_spec].
  apply back_ret. split; [done|]. rewrite app_nil_r. split; [done|]. split.
  - split; [set_solver|]. split; [set_solver|]. split; [set_solver|]. exists connected. split; [|done].
    eapply connected_said_in; [|done]. set_solver.
  - eexists _, n4. split; [by rewrite !app_assoc|by apply Hp].
Qed.

(** ** The server of a pipe *)

(** The account of a process, from its primary token. *)
Definition principal_said (proc : Z) (sid : string) (new : list pevent) : Prop :=
  ∃ tok, Ev (OpenProcessToken proc) (Ok tok) ∈ new /\ Ev (GetTokenUser tok) (Ok sid) ∈ new.

Lemma principal_said_in proc sid a b : a ⊆ b → principal_said proc sid a → principal_said proc sid b.
Proof. clear. intros Hs (tok & H1 & H2). exists tok. set_solver. Qed.

Lemma serverPrincipal_spec proc h :
  adds (serverPrincipal W proc) (λ r new, keeps [] new /\ ∀ u, r = Ok u → u = sidUser (SID u) /\ principal_said proc (SID u) new) h.
Proof. clear.
  apply adds_and; [apply tidy_serverPrincipal|]. unfold serverPrincipal. sys_step.
  destruct (W _ (OpenProcessToken proc) _) as [tok|e]; [|by adds_step]. do 2 sys_step. adds_step.
  destruct (W _ (GetTokenUser tok) _) as [sid|e]; [|done]. intros u [= <-]. split; [done|]. exists tok. set_solver.
Qed.

Lemma processImagePath_spec proc h :
  adds (processImagePath W proc)
    (λ r new, keeps [] new /\ ∀ path, r = Ok path → ∃ units, Ev (QueryFullProcessImageName proc) (Ok units) ∈ new /\ path = UTF16ToString units) h.
Proof.
  unfold processImagePath. sys_step. adds_step. split; [keeps_none|]. destruct (W _ (QueryFullProcessImageName proc) _) as [units|]; [|done].
  intros path [= <-]. exists units. split; [by left|done].
Qed.

(** What the binding of a pipe's server, and its peer, rest on: the process the kernel
    names for the server end, and its own token, path and creation time. *)
Definition server_said (pipe : Z) (opts : option Options) (b : windowsServerBinding) (p : Peer) (new : list pevent) : Prop :=
  let wb := sb_binding b in
  wb_pipe wb = pipe /\
  pin_said (λ new, Ev (GetNamedPipeServerProcessId pipe) (Ok (wb_pid wb)) ∈ new) opts (wb_pid wb) (wb_proc wb) (wb_started wb) new /\
  principal_said (wb_proc wb) (sb_sid b) new /\
  attr_value (PUser p) = sidUser (sb_sid b) /\ attr_proof (PUser p) = ProofBound /\
  attr_value (PProcess p) = mkProcess (wb_pid wb) (wb_started wb) false 0 /\ attr_proof (PProcess p) = ProofKernel /\
  path_said (wb_proc wb) (PPath p) new /\ attr_proof (PPackage p) = ProofNone /\ attr_proof (PCode p) = ProofNone.

Lemma server_owns pipe opts : handles_valid →
  owns (bindServerHandle W errText pipe opts) (wb_proc ∘ sb_binding) (server_said pipe opts).
Proof. clear.
  intros Hv h. unfold bindServerHandle. sys_step. destruct (W _ (GetNamedPipeInfo pipe) _) as [flags|e]; [|adds_step; keeps_none].
  destruct (negb _); [adds_step; keeps_none|].
  sys_step. destruct (W _ (GetNamedPipeServerProcessId pipe) _) as [pid|e]; [|adds_step; keeps_none].
  sys_step. destruct (W _ (OpenProcess pid) _) as [proc|e] eqn:Eo; [|adds_step; keeps_none]. apply Hv in Eo as Hproc. cbv zeta.
  eapply adds_mono; [|eapply (owns_open pid proc _ (wb_proc ∘ sb_binding) (server_said pipe opts)
    ([Ev (GetNamedPipeInfo pipe) (Ok flags)] ++ [Ev (GetNamedPipeServerProcessId pipe) (Ok pid)])); [done|keeps_none|]].
  { intros r new. cbn beta. by rewrite <- !app_assoc. }
  assert (∀ e (said : windowsServerBinding * Peer → list pevent → Prop) h',
    back proc (_ ← wb_release W (mkWB pipe proc pid zeroTime); mret (Err e)) said h') as Hfail.
  { intros e said h'. eapply (back_release _ _ fst (λ r, wb_proc r.2 = 0)). by apply (wb_release_spec (mkWB pipe proc pid zeroTime)). }
  apply back_sys; [done|]. intros [started|e] h1; [|apply Hfail].
  apply back_connected. intros connected n3 h2 Hcs. unfold After. destruct (connected <? started) eqn:El; [apply Hfail|]. to_prop.
  eapply back_bind; [apply serverPrincipal_spec|]. intros [u|e] n4 h3 Hu; [|apply Hfail]. destruct (Hu u eq_refl) as [Hu1 Hu2].
  eapply back_bind; [apply processImagePath_spec|]. intros [path|e] n5 h4 Hpath; [|apply Hfail].
  destruct (Hpath path eq_refl) as (units & Hin & ->).
  apply back_tidy; [apply tidy_sb_recheck|]. intros [e|] n6 h5; [apply Hfail|].
  apply back_sys; [done|]. intros now h6. apply back_ret. split; [done|]. rewrite app_nil_r. split; [done|]. split; [|split; [|]].
  - split; [set_solver|]. split; [set_solver|]. split; [set_solver|]. exists connected. split; [|done].
    eapply connected_said_in; [|done]. set_solver.
  - eapply principal_said_in; [|done]. set_solver.
  - cbn. split_and!; try done. right. split; [done|]. exists units. split; [set_solver|done].
Qed.

(** ** A peer read through a pinned process *)

(** The principal read from a process's primary token. *)
Definition account_said (proc : Z) (u : User) (new : list pevent) : Prop :=
  ∃ tok s label, Ev (OpenProcessToken proc) (Ok tok) ∈ new /\ Ev (GetTokenUser tok) (Ok s) ∈ new /\ Ev (CopySid s) (Ok (SID u)) ∈ new /\
    Ev (IsElevated tok) (Elevated u) ∈ new /\ labelled tok label new /\
    (u = tokenUser (SID u) (Elevated u) label \/
     Ev (AccountName (SID u)) (Ok (UName u, Domain u)) ∈ new /\ u = set_account (tokenUser (SID u) (Elevated u) label) (UName u) (Domain u)).

Lemma processUser_spec proc h :
  adds (processUser W errText proc) (λ r new, keeps [] new /\ ∀ u why, r = Ok (u, why) → account_said proc u new) h.
Proof. clear.
  apply adds_and; [apply tidy_processUser|]. unfold processUser. sys_step.
  destruct (W _ (OpenProcessToken proc) _) as [tok|e]; [|by adds_step]. do 2 adds_step. apply adds_sys.
  destruct (W _ (GetTokenUser tok) _) as [s|e]; [|repeat adds_step; by apply adds_sys; adds_step].
  sys_step. destruct (W _ (CopySid s) _) as [sid|e]; [|repeat adds_step; by apply adds_sys; adds_step].
  adds_step. eapply adds_mono; [|apply readTokenLabel_spec]. intros label n1 [_ Hl]. sys_step. set (el := W _ (IsElevated tok) _).
  cbv zeta. sys_step. destruct (W _ (AccountName sid) _) as [[name domain]|e]; repeat adds_step; apply adds_sys; adds_step;
    intros u why [= <- <-]; exists tok, s, label; cbn [SID Elevated UName Domain tokenUser set_account];
    (split; [set_solver|]; split; [set_solver|]; split; [set_solver|]; split; [set_solver|]);
    (split; [eapply labelled_in; [|exact Hl]; set_solver|]); [right; split; [set_solver|done]|by left].
Qed.

(** Everything known of a peer read through the handle [proc]: the account, path,
    package and code are all answers of that process. *)
Definition pinned_said (proc pid : Z) (started : Time) (opts : option Options) (p : Peer) (new : list pevent) : Prop :=
  attr_proof (PUser p) = ProofBound /\ account_said proc (attr_value (PUser p)) new /\
  attr_proof (PProcess p) = ProofBound /\ attr_value (PProcess p) = mkProcess pid started false 0 /\
  attr_proof (PPath p) = ProofBound /\ image_said proc pid started opts p new.

Lemma pinnedCode_spec proc pid started path opts p h :
  attr_value (PPath p) = path →
  adds (pinnedCode W errText proc pid started path opts p)
    (λ q new, PUser q = PUser p /\ PProcess q = PProcess p /\ PPath q = PPath p /\ PPackage q = PPackage p /\
       code_said proc pid started (checkRevocation opts) q new) h.
Proof.
  intros Hp. unfold pinnedCode. destruct (skipCodeSignature opts); [adds_step; split_and!; try done; by left|]. sys_step. adds_step.
  destruct (W _ (VerifyProcessImageAt _ _ _ _ _) _) as [[[code verdict] at_]|e]; [|split_and!; try done; by left].
  unfold recordCode. destruct (ProofPID <=? verdict); (split_and!; try done); right; exists at_; cbn; rewrite Hp; (split; [by left|done]).
Qed.

Lemma account_said_in proc u a b : a ⊆ b → account_said proc u a → account_said proc u b.
Proof. clear.
  intros Hs (tok & s & label & H1 & H2 & H3 & H4 & H5 & H6). exists tok, s, label. split_and!; [set_solver..|by eapply labelled_in|].
  destruct H6 as [H6|[H6 H7]]; [by left|right; split; [set_solver|done]].
Qed.

Lemma path_said_in proc x a b : a ⊆ b → path_said proc x a → path_said proc x b.
Proof. clear. intros Hs [H|(H & units & H1 & H2)]; [by left|right; split; [done|]; exists units; set_solver]. Qed.

Lemma package_said_in proc x a b : a ⊆ b → package_said proc x a → package_said proc x b.
Proof. clear. intros Hs [H|(H & H0 & n & m & buf & H1 & H2)]; [by left|right; split_and!; [done..|]; exists n, m, buf; set_solver]. Qed.

Lemma code_said_in proc pid t rev p a b : a ⊆ b → code_said proc pid t rev p a → code_said proc pid t rev p b.
Proof. clear. intros Hs [H|(at_ & H1 & H2)]; [by left|right; exists at_; set_solver]. Qed.

Lemma pinnedProcessPeer_spec proc pid started transport w1 w2 w3 opts h :
  adds (pinnedProcessPeer W errText proc pid started transport w1 w2 w3 opts)
    (λ r new, keeps [] new /\ ∀ p, r = Ok p → pinned_said proc pid started opts p new) h.
Proof. clear.
  apply adds_and; [apply tidy_pinnedProcessPeer|]. unfold pinnedProcessPeer. sys_step. adds_step.
  eapply adds_mono; [|apply processUser_spec]. intros [[u why]|e] n1 [_ Hu]; [|by adds_step]. specialize (Hu u why eq_refl).
  adds_step. eapply adds_mono; [|apply processImagePath_spec]. intros [path|e] n2 [_ Hpath]; [|by adds_step].
  destruct (Hpath path eq_refl) as (units & Hin & ->).
  adds_step. eapply adds_mono; [|apply packageFullName_spec]. intros n n3 [_ Hn]. cbv zeta.
  adds_step. eapply adds_mono; [|by apply pinnedCode_spec]. intros q n4 (Hq1 & Hq2 & Hq3 & Hq4 & Hcode). adds_step.
  intros p [= <-]. cbn [PUser PProcess PPath PPackage note] in *.
  unfold pinned_said, image_said. cbn [PUser PProcess PPath PPackage PCode note]. rewrite Hq1, Hq2, Hq3, Hq4.
  split; [done|]. split; [eapply account_said_in; [|done]; set_solver|]. split; [done|]. split; [done|]. split; [done|].
  split; [right; split; [done|]; exists units; split; [set_solver|done]|]. split.
  - destruct n as [name|e]; [|by left]. destruct (String.eqb name "") eqn:E; cbn [negb]; [by left|]. to_prop. right. split; [done|].
    split; [done|]. destruct (Hn name eq_refl E) as (k & m & buf & H1 & H2). exists k, m, buf. split; [set_solver|done].
  - eapply (code_said_in _ _ _ _ _ n4); [set_solver|]. destruct Hcode as [H|(at_ & H1 & H2)]; [by left|]. right. exists at_. cbn. auto.
Qed.

(** ** The server of a socket *)

Definition unix_said (socket : Z) (opts : option Options) (b : unixServerWindowsBinding) (p : Peer) (new : list pevent) : Prop :=
  ub_socket b = socket /\
  pin_said (λ new, ∃ n, Ev (GetPeerPID socket) (Ok (ub_pid b, n)) ∈ new) opts (ub_pid b) (ub_proc b) (ub_started b) new /\
  pinned_said (ub_proc b) (ub_pid b) (ub_started b) opts p new.

Lemma unixPeerPID_spec s h :
  adds (unixPeerPID W s) (λ r new, keeps [] new /\ ∀ pid, r = Ok pid → ∃ n, Ev (GetPeerPID s) (Ok (pid, n)) ∈ new) h.
Proof.
  unfold unixPeerPID. sys_step. adds_step. split; [keeps_none|]. destruct (W _ (GetPeerPID s) _) as [[pid n]|]; [|done].
  destruct (pid =? 0); [done|]. intros p [= <-]. exists n. by left.
Qed.

Lemma pinned_said_in proc pid t opts p a b : a ⊆ b → pinned_said proc pid t opts p a → pinned_said proc pid t opts p b.
Proof.
  intros Hs (H1 & H2 & H3 & H4 & H5 & H6 & H7 & H8).
  split_and!; [done|by eapply account_said_in|done|done|done|]. split_and!; [by eapply path_said_in|by eapply package_said_in|by eapply code_said_in].
Qed.

Lemma unix_owns socket opts : handles_valid →
  owns (bindUnixServer W errText rfc3339Nano socket opts) ub_proc (unix_said socket opts).
Proof. clear.
  intros Hv h. unfold bindUnixServer. adds_step. eapply adds_mono; [|apply unixPeerPID_spec]. intros [pid|e] n1 [Hn1 Hpid];
    [|adds_step; by rewrite app_nil_r]. destruct (Hpid pid eq_refl) as (n & Hin).
  destruct (pid =? 0); [adds_step; by rewrite app_nil_r|].
  sys_step. destruct (W _ (OpenProcess pid) _) as [proc|e] eqn:Eo; [|adds_step; keeps_none]. apply Hv in Eo as Hproc.
  apply (owns_open pid proc _ ub_proc (unix_said socket opts) n1); [done|done|].
  apply back_sys; [done|]. intros [started|e] h1; [|eapply (back_release _ _ fst (λ r, ub_proc r.2 = 0)); by apply ub_release_spec].
  apply back_connected. intros connected n3 h2 Hcs. unfold After.
  destruct (connected <? started) eqn:El; [eapply (back_release _ _ fst (λ r, ub_proc r.2 = 0)); by apply ub_release_spec|]. to_prop.
  apply back_tidy; [apply tidy_ub_recheck|]. intros [e|] n4 h3; [eapply (back_release _ _ fst (λ r, ub_proc r.2 = 0)); by apply ub_release_spec|].
  eapply back_bind; [apply pinnedProcessPeer_spec|]. intros [p|e] n5 h4 Hp;
    [|eapply (back_release _ _ fst (λ r, ub_proc r.2 = 0)); by apply ub_release_spec].
  apply back_ret. split; [done|]. rewrite app_nil_r. split; [done|]. split.
  - split; [exists n; set_solver|]. split; [set_solver|]. split; [set_solver|]. exists connected. split; [|done].
    eapply connected_said_in; [|done]. set_solver.
  - eapply (pinned_said_in _ _ _ _ _ n5); [set_solver|by apply Hp].
Qed.
End Facts.
