(* ===== verification/LoopbackWindows.v ===== *)
(** loopback_windows.go and sockets_windows.go: the process that created the client end
    of a loopback TCP connection, from the owner tables of the system, pinned by a
    handle.

    A row is read where it lies in the buffer; words are little-endian, as on every
    Windows this builds for, and a [uintptr] has 64 bits. A buffer size that wrapped to
    zero would fault before the call; no table is that large. *)

From S2P Require Import Prelude GoStrings GoError GoBinary ProofLadder Peer Binding Events WindowsPeers BindWindows Sockets VerdictCache IdentityWindows.



Definition tcpTableOwnerPIDConnections : Z := 4.
Definition tcpTableOwnerPIDListener : Z := 3.
Definition tcpTableOwnerPIDAll : Z := 5.
Definition udpTableOwnerPID : Z := 1.
Definition mibTCPStateEstablished : Z := 5.
Definition errorInsufficientBuffer : Z := 122.
Definition AF_INET : Z := 2.
Definition AF_INET6 : Z := 23.
Definition TransportLoopback : string := "tcp-loopback".

(** [mibTCPRowOwnerPID]. *)
Record mibTCPRowOwnerPID := mkRow {
  r_State : Z; r_LocalAddr : Z; r_LocalPort : Z; r_RemoteAddr : Z; r_RemotePort : Z; r_OwningPID : Z
}.

Definition tcpRowSize : nat := 24.

(** [tcpOwner]. *)
Record tcpOwner := mkOwner { to_pid : Z; to_established : bool }.

(** [tablePort]: a port in network order in the low half of a word. *)
Definition tablePort (p : Z) : Z := Z.lor (Z.shiftl (Z.land p 0xff) 8) (Z.land (Z.shiftr p 8) 0xff).

(** The four bytes of an address word as they lie in memory. *)
Definition wordBytes (a : Z) : list Z := map bz (le32_put a).

Definition row_local (r : mibTCPRowOwnerPID) : AddrPort := mkAddrPort (wordBytes (r_LocalAddr r)) (tablePort (r_LocalPort r)).
Definition row_remote (r : mibTCPRowOwnerPID) : AddrPort := mkAddrPort (wordBytes (r_RemoteAddr r)) (tablePort (r_RemotePort r)).

(** The row at an offset of the buffer. *)
Definition rowAt (buf : list byte) (at_ : nat) : option mibTCPRowOwnerPID :=
  s ← u32at buf at_; la ← u32at buf (at_ + 4); lp ← u32at buf (at_ + 8);
  ra ← u32at buf (at_ + 12); rp ← u32at buf (at_ + 16); pid ← u32at buf (at_ + 20);
  Some (mkRow s la lp ra rp pid).

(** The loop over the rows: the first whose ends are [client] and [server]. *)
Fixpoint searchRows (buf : list byte) (client server : AddrPort) (i todo : nat) : option tcpOwner :=
  match todo with
  | O => None
  | S todo =>
      match rowAt buf (4 + i * tcpRowSize) with
      | Some row =>
          if bool_decide (row_local row = client) && bool_decide (row_remote row = server)
          then Some (mkOwner (r_OwningPID row) (r_State row =? mibTCPStateEstablished))
          else searchRows buf client server (S i) todo
      | None => None
      end
  end.

(** What [ownerOf] makes of a table the system filled. *)
Definition tableOwner (buf : list byte) (client server : AddrPort) : result (option tcpOwner) :=
  let n := default 0 (u32at buf 0) in
  if Z.of_nat (length buf) <? n * Z.of_nat tcpRowSize + 4 then Err (Plain "GetExtendedTcpTable: table larger than its buffer")
  else Ok (searchRows buf client server 0 (Z.to_nat n)).

(** A buffer of [size] bytes of which the system wrote the first. *)
Definition buffer (size : Z) (written : list byte) : list byte :=
  take (Z.to_nat size) (written ++ replicate (Z.to_nat size) (zb 0)).

(** [loopbackWindowsBinding]. *)
Record loopbackWindowsBinding := mkLW {
  lw_client : AddrPort; lw_server : AddrPort; lw_proc : Z; lw_pid : Z; lw_started : Time
}.

(** [loopbackCeiling]. *)
Definition windowsLoopbackBest : Need := mkNeed ProofBound ProofBound ProofBound ProofSigned ProofBound.

Definition loopbackCeiling : Limits :=
  mkLimits "windows" windowsLoopbackBest
    (list_to_map
       [("user", "read from the access token of the pinned creator process; the connection carries no token of its own");
        ("process", "the TCP owner table's record of the process that created the client socket, pinned by a process handle whose creation time predates the connection");
        ("path", "the image path is read through the pinned process handle; a path is a name, not an identity");
        ("package", "an MSIX package full name read through the pinned process handle");
        ("code", "Authenticode verifies a file, and Windows exposes no way to verify the image a running process executes")])
    TransportLoopback true
    "the TCP owner table: GetExtendedTcpTable names the process that created the client socket, an open process handle whose creation time predates the connection pins it, and a creator that has exited while the connection is still established is refused as moved"
    "npipe: the kernel names the pipe's client process on the pipe instance itself, and the user comes from the client's own impersonation token at kernel".

Section LoopbackWindows.
Context (W : ∀ A, question A → list pevent → A).
Context (errText : err → string) (rfc3339Nano : Time → string) (addrText : AddrPort → string).

(** [ownerOf]: [attempts] buffers, each larger than what the system last asked for. *)
Fixpoint ownerOfFrom (attempts : nat) (size : Z) (client server : AddrPort) : Hist pevent (result (option tcpOwner)) :=
  match attempts with
  | O => mret (Err (Plain "GetExtendedTcpTable: the table kept growing"))
  | S attempts =>
      '(r, needed, written) ← sys W (GetExtendedTable false AF_INET tcpTableOwnerPIDConnections size);
      if r =? errorInsufficientBuffer then ownerOfFrom attempts ((needed + 16 * 1024) mod 2 ^ 32) client server
      else if negb (r =? 0) then mret (Err (Wrap "GetExtendedTcpTable" [OSErr (EOTHER r)]))
      else mret (tableOwner (buffer size written) client server)
  end.

Definition ownerOf (client server : AddrPort) : Hist pevent (result (option tcpOwner)) := ownerOfFrom 8 (64 * 1024) client server.

Definition lw_alive (b : loopbackWindowsBinding) : Hist pevent (result bool) := processAlive W (lw_proc b).

Definition lw_release (b : loopbackWindowsBinding) : Hist pevent (option err * loopbackWindowsBinding) :=
  '(e, proc) ← releaseProcess W (lw_proc b);
  mret (e, mkLW (lw_client b) (lw_server b) proc (lw_pid b) (lw_started b)).

(** [loopbackWindowsBinding.recheck]. *)
Definition lw_recheck (b : loopbackWindowsBinding) : Hist pevent (option err) :=
  o ← ownerOf (lw_client b) (lw_server b);
  match o with
  | Err _ | Ok None => mret None
  | Ok (Some owner) =>
      if negb (to_pid owner =? lw_pid b)
      then mret (Some (Wrap ("the TCP owner table now names pid " +:+ itoa (to_pid owner) +:+ " for " +:+ addrText (lw_client b)
                             +:+ "; it named pid " +:+ itoa (lw_pid b) +:+ " when the connection was accepted") [Sentinel ErrPeerMoved]))
      else
        s ← processStartTime W (lw_proc b);
        let changed := match s with Ok started => negb (started =? lw_started b) | Err _ => false end in
        if changed then mret (Some (startedAt rfc3339Nano (lw_pid b) (lw_started b) (match s with Ok t => t | Err _ => zeroTime end)))
        else
          a ← lw_alive b;
          let gone := match a with Ok alive => negb alive | Err _ => false end in
          if gone && to_established owner
          then mret (Some (Wrap ("pid " +:+ itoa (lw_pid b) +:+ " created the client socket and has exited, and the connection is still established; another process holds the socket")
                             [Sentinel ErrPeerMoved]))
          else mret None
  end.

(** [loopbackWindowsBinding.peer]. *)
Definition lw_peer (b : loopbackWindowsBinding) (opts : option Options) : Hist pevent (result Peer) :=
  pinnedProcessPeer W errText (lw_proc b) (lw_pid b) (lw_started b) TransportLoopback
    "read from the access token of the process that created the client socket, through a handle that cannot be a recycled pid"
    "the TCP owner table names the process that created the client socket; its handle is pinned and its creation time predates the connection"
    "transport: a loopback TCP connection carries no credentials; the process came from the TCP owner table" opts.

(** [bindLoopback]. *)
Definition bindLoopback (client server : AddrPort) (opts : option Options) : Hist pevent (result (loopbackWindowsBinding * Peer)) :=
  o ← ownerOf client server;
  match o with
  | Err e => mret (Err (Wrap (errText e) [Sentinel ErrNoBinding]))
  | Ok None => mret (Err (Wrap ("the TCP owner table has no row for " +:+ addrText client +:+ " -> " +:+ addrText server) [Sentinel ErrPeerGone]))
  | Ok (Some owner) =>
      let pid := to_pid owner in
      if pid =? 0 then mret (Err (Wrap ("the TCP owner table names no process for " +:+ addrText client) [Sentinel ErrNoBinding]))
      else
        p ← sys W (OpenProcess pid);
        match p with
        | Err e =>
            if to_established owner
            then mret (Err (Wrap ("pid " +:+ itoa pid +:+ " created the client socket and can no longer be opened (" +:+ errText e
                                  +:+ "), while the connection is still established; another process holds it") [Sentinel ErrPeerMoved]))
            else mret (Err (Wrap ("pid " +:+ itoa pid +:+ " could not be opened (" +:+ errText e +:+ ")") [Sentinel ErrPeerGone]))
        | Ok proc =>
            s ← processStartTime W proc;
            match s with
            | Err e =>
                _ ← lw_release (mkLW client server proc pid zeroTime);
                mret (Err (Wrap ("the creator's start time could not be read: " +:+ errText e) [Sentinel ErrNoBinding]))
            | Ok started =>
                let b := mkLW client server proc pid started in
                connected ← connectedAtW W opts;
                if After started connected then
                  _ ← lw_release b; mret (Err (createdLate rfc3339Nano pid started connected))
                else
                  c ← lw_recheck b;
                  match c with
                  | Some e => _ ← lw_release b; mret (Err e)
                  | None =>
                      p ← lw_peer b opts;
                      match p with
                      | Err e => _ ← lw_release b; mret (Err e)
                      | Ok peer => mret (Ok (b, peer))
                      end
                  end
            end
        end
  end.

Definition loopbackBinder : binder (loopbackWindowsBinding * list pevent) := histBinder lw_recheck lw_alive lw_release.
End LoopbackWindows.

(** * What the Windows loopback binding rests on: the rows of the owner table, and the
    process they name, pinned. *)


(** ** The table *)

(** A row, and a table, as the system lays them out. *)
Definition tcpRowBytes (r : mibTCPRowOwnerPID) : list byte :=
  le32_put (r_State r) ++ le32_put (r_LocalAddr r) ++ le32_put (r_LocalPort r) ++ le32_put (r_RemoteAddr r)
  ++ le32_put (r_RemotePort r) ++ le32_put (r_OwningPID r).

Definition tcpTableBytes (rows : list mibTCPRowOwnerPID) : list byte :=
  le32_put (Z.of_nat (length rows)) ++ (rows ≫= tcpRowBytes).

(** Six words of 32 bits. *)
Definition row_ok (r : mibTCPRowOwnerPID) : Prop :=
  Forall (λ v, 0 <= v < 2 ^ 32) [r_State r; r_LocalAddr r; r_LocalPort r; r_RemoteAddr r; r_RemotePort r; r_OwningPID r].

(** The first row whose ends are [client] and [server]. *)
Definition ownerIn (rows : list mibTCPRowOwnerPID) (client server : AddrPort) : option tcpOwner :=
  (λ r, mkOwner (r_OwningPID r) (r_State r =? mibTCPStateEstablished))
  <$> List.find (λ r, bool_decide (row_local r = client) && bool_decide (row_remote r = server)) rows.

Lemma length_tcpRow r : length (tcpRowBytes r) = tcpRowSize.
Proof. done. Qed.

Lemma length_tcpRows rows : length (rows ≫= tcpRowBytes) = (length rows * tcpRowSize)%nat.
Proof. induction rows as [|r rows IH]; [done|]. cbn [mbind list_bind]. rewrite length_app, IH, length_tcpRow. cbn. lia. Qed.

(** The word after [n] others. *)
Lemma u32at_word pre (words : list Z) v rest n :
  0 <= v < 2 ^ 32 → length words = n → u32at (pre ++ (words ≫= le32_put) ++ le32_put v ++ rest) (length pre + 4 * n) = Some v.
Proof.
  intros Hv <-. rewrite app_assoc. replace (length pre + 4 * length words)%nat with (length (pre ++ (words ≫= le32_put))).
  - by apply u32at_app.
  - rewrite length_app. f_equal. induction words as [|w words IH]; [done|]. cbn [mbind list_bind]. rewrite length_app, IH. cbn. lia.
Qed.

Lemma rowAt_app pre r tail : row_ok r → rowAt (pre ++ tcpRowBytes r ++ tail) (length pre) = Some r.
Proof.
  destruct r as [s la lp ra rp pid]. unfold row_ok, tcpRowBytes, rowAt. cbn [r_State r_LocalAddr r_LocalPort r_RemoteAddr r_RemotePort r_OwningPID].
  rewrite !Forall_cons. intros (H1 & H2 & H3 & H4 & H5 & H6 & _). rewrite <- !app_assoc.
  pose proof (u32at_word pre [] s (le32_put la ++ le32_put lp ++ le32_put ra ++ le32_put rp ++ le32_put pid ++ tail) 0 H1 eq_refl) as E1.
  pose proof (u32at_word pre [s] la (le32_put lp ++ le32_put ra ++ le32_put rp ++ le32_put pid ++ tail) 1 H2 eq_refl) as E2.
  pose proof (u32at_word pre [s; la] lp (le32_put ra ++ le32_put rp ++ le32_put pid ++ tail) 2 H3 eq_refl) as E3.
  pose proof (u32at_word pre [s; la; lp] ra (le32_put rp ++ le32_put pid ++ tail) 3 H4 eq_refl) as E4.
  pose proof (u32at_word pre [s; la; lp; ra] rp (le32_put pid ++ tail) 4 H5 eq_refl) as E5.
  pose proof (u32at_word pre [s; la; lp; ra; rp] pid tail 5 H6 eq_refl) as E6.
  cbn [mbind list_bind Nat.mul Nat.add] in *. rewrite <- ?app_assoc, ?app_nil_r, ?Nat.add_0_r in *. cbn [app] in *.
  rewrite E1. cbn [mbind option_bind]. rewrite E2. cbn [mbind option_bind]. rewrite E3. cbn [mbind option_bind]. rewrite E4.
  cbn [mbind option_bind]. rewrite E5. cbn [mbind option_bind]. by rewrite E6.
Qed.

Lemma searchRows_exact rows pre tail client server i :
  Forall row_ok rows → length pre = (4 + i * tcpRowSize)%nat →
  searchRows (pre ++ (rows ≫= tcpRowBytes) ++ tail) client server i (length rows) = ownerIn rows client server.
Proof.
  intros Hr. revert pre i. induction Hr as [|r rows Hr _ IH]; intros pre i Hpre; [done|]. cbn [length searchRows mbind list_bind].
  rewrite <- app_assoc, <- Hpre, rowAt_app by done. unfold ownerIn. cbn [List.find]. destruct (_ && _); [done|].
  rewrite app_assoc. apply IH. rewrite length_app, Hpre, length_tcpRow. lia.
Qed.

Lemma le32_prefix v rest : 0 <= v < 2 ^ 32 → u32at (le32_put v ++ rest) 0 = Some v.
Proof. apply (u32at_app []). Qed.

Lemma tableOwner_exact rows tail client server :
  Forall row_ok rows → Z.of_nat (length rows) < 2 ^ 32 →
  tableOwner (tcpTableBytes rows ++ tail) client server = Ok (ownerIn rows client server).
Proof.
  intros Hr Hn. unfold tableOwner, tcpTableBytes. rewrite <- app_assoc, le32_prefix by lia.
  change (default 0 (Some (Z.of_nat (length rows)))) with (Z.of_nat (length rows)). cbv zeta.
  rewrite (proj2 (Z.ltb_ge _ _)).
  - rewrite Nat2Z.id. f_equal. by apply (searchRows_exact rows (le32_put (Z.of_nat (length rows))) tail client server 0).
  - rewrite !length_app, length_tcpRows. change (length (le32_put (Z.of_nat (length rows)))) with 4%nat. lia.
Qed.

(** The socket another reader of the same table sees in a row. *)
Definition rowSocket (r : mibTCPRowOwnerPID) : Socket :=
  mkSocket "tcp" (ap_addr (row_local r)) (ap_port (row_local r)) (r_OwningPID r).

Lemma tablePort_bytes p : 0 <= p < 2 ^ 32 →
  tablePort p = Z.lor (Z.shiftl (bz (zb p)) 8) (bz (zb (Z.shiftr p 8))).
Proof.
  intros Hp. unfold tablePort. rewrite !bz_zb. change 0xff with (Z.ones 8). rewrite !Z.land_ones by lia. done.
Qed.

#[local] Arguments bz : simpl never.
#[local] Arguments zb : simpl never.
#[local] Arguments be32_get : simpl never.
#[local] Arguments Z.shiftr : simpl never.
#[local] Arguments Z.shiftl : simpl never.
#[local] Arguments Z.lor : simpl never.
#[local] Arguments Z.land : simpl never.

Lemma ownerRow_tcp r : row_ok r → ownerRow tcp4OwnerLayout (tcpRowBytes r) = Some (Ok (rowSocket r)).
Proof.
  destruct r as [s la lp ra rp pid]. unfold row_ok. rewrite !Forall_cons. intros (H1 & H2 & H3 & H4 & H5 & H6 & _). cbn in *.
  unfold rowSocket, row_local. cbn [ap_addr ap_port r_LocalAddr r_LocalPort r_OwningPID]. rewrite tablePort_bytes by done.
  pose proof (be32_get_put pid H6) as Hpid. unfold be32_put in Hpid. unfold ownerRow. cbn. rewrite Hpid. done.
Qed.

Lemma ownerRows_tcp rows pre tail i :
  Forall row_ok rows → length pre = (i * tcpRowSize)%nat →
  ownerRows tcp4OwnerLayout (pre ++ (rows ≫= tcpRowBytes) ++ tail) i (length rows) = Some (Ok (map rowSocket rows)).
Proof.
  intros Hr. revert pre i. induction Hr as [|r rows Hr _ IH]; intros pre i Hpre; [done|]. cbn [length ownerRows mbind list_bind map].
  rewrite <- app_assoc. replace ((i + 1) * rowSize tcp4OwnerLayout)%nat with (i * tcpRowSize + length (tcpRowBytes r))%nat
    by (rewrite length_tcpRow; change (rowSize tcp4OwnerLayout) with tcpRowSize; lia).
  change (i * rowSize tcp4OwnerLayout)%nat with (i * tcpRowSize)%nat. rewrite slice_app by done. cbn [mbind option_bind]. rewrite ownerRow_tcp by done.
  cbn [option_bind]. rewrite app_assoc. pose proof (IH (pre ++ tcpRowBytes r) (i + 1)%nat) as IHr. cbn [mbind] in IHr.
  rewrite IHr; [done|]. rewrite length_app, length_tcpRow. lia.
Qed.

Lemma parse_tcp rows tail :
  Forall row_ok rows → Z.of_nat (length rows) < 2 ^ 32 →
  parseOwnerTable (tcpTableBytes rows ++ tail) tcp4OwnerLayout = Some (Ok (map rowSocket rows)).
Proof.
  intros Hr Hn. assert (length (tcpTableBytes rows ++ tail) = (4 + length rows * tcpRowSize + length tail)%nat) as Hlen.
  { unfold tcpTableBytes. rewrite !length_app, length_tcpRows. change (length (le32_put (Z.of_nat (length rows)))) with 4%nat. lia. }
  unfold parseOwnerTable. rewrite (proj2 (Nat.ltb_ge _ _)) by lia.
  assert (le32 (tcpTableBytes rows ++ tail) = Some (Z.of_nat (length rows))) as ->
    by (unfold tcpTableBytes; rewrite <- app_assoc; apply le32_put_get; lia).
  cbn [mbind option_bind]. rewrite length_drop, Hlen. change (rowSize tcp4OwnerLayout) with tcpRowSize.
  rewrite (proj2 (Z.ltb_ge _ 0)) by lia. rewrite (proj2 (Z.ltb_ge _ _)).
  - cbn [orb]. rewrite Nat2Z.id. unfold tcpTableBytes. rewrite <- app_assoc.
    change (drop 4 (le32_put (Z.of_nat (length rows)) ++ (rows ≫= tcpRowBytes) ++ tail)) with ([] ++ (rows ≫= tcpRowBytes) ++ tail).
    by apply ownerRows_tcp.
  - apply Z.div_le_lower_bound; unfold tcpRowSize; lia.
Qed.

(** The search of the owner table is the table's. Whatever follows the rows in the
    buffer, [ownerOf] gives the owner of the first row whose two ends are the
    connection's, and none exactly when no row has them; and the portable parser reads
    the local end and the owner of every row the same way. *)
Theorem owner_table_exact rows tail client server :
  Forall row_ok rows → Z.of_nat (length rows) < 2 ^ 32 →
  tableOwner (tcpTableBytes rows ++ tail) client server = Ok (ownerIn rows client server) /\
  parseOwnerTable (tcpTableBytes rows ++ tail) tcp4OwnerLayout = Some (Ok (map rowSocket rows)).
Proof. intros Hr Hn. split; [by apply tableOwner_exact|by apply parse_tcp]. Qed.

(** An established connection from port 50000 to port 8080, of process 42. *)
Definition exampleRow : mibTCPRowOwnerPID := mkRow 5 0x0100007f 0x50c3 0x0100007f 0x901f 42.

Lemma owner_table_exact_witness :
  tableOwner (tcpTableBytes [exampleRow]) (mkAddrPort [127; 0; 0; 1] 50000) (mkAddrPort [127; 0; 0; 1] 8080) = Ok (Some (mkOwner 42 true)).
Proof.
  rewrite <- (app_nil_r (tcpTableBytes [exampleRow])).
  refine (eq_trans (proj1 (owner_table_exact [exampleRow] [] _ _ _ _)) _); [repeat constructor; cbn; lia|cbn; lia|vm_compute; reflexivity].
Defined.

(** ** The binding *)

Set Default Proof Using "Type".

Section Facts.
Context (W : ∀ A, question A → list pevent → A).
Context (errText : err → string) (rfc3339Nano : Time → string) (addrText : AddrPort → string).

(** The owner was read from a table the system filled. *)
Definition owner_said (client server : AddrPort) (o : tcpOwner) (new : list pevent) : Prop :=
  ∃ size needed written, Ev (GetExtendedTable false AF_INET tcpTableOwnerPIDConnections size) (0, needed, written) ∈ new /\
    tableOwner (buffer size written) client server = Ok (Some o).

Lemma ownerOf_spec client server h :
  adds (ownerOf W client server) (λ r new, keeps [] new /\ ∀ o, r = Ok (Some o) → owner_said client server o new) h.
Proof.
  unfold ownerOf. generalize (64 * 1024). generalize 8%nat as attempts. intros attempts. revert h.
  induction attempts as [|attempts IH]; intros h size; cbn [ownerOfFrom]; [adds_step; split; [keeps_none|done]|].
  sys_step. destruct (W _ (GetExtendedTable _ _ _ _) _) as [[r needed] written]. destruct (r =? errorInsufficientBuffer).
  - eapply adds_mono; [|apply IH]. intros res new [Hk Ho]. split; [apply nil_keeps; [keeps_none|done]|].
    intros o Hr. destruct (Ho o Hr) as (s & m & w & Hin & Ht). exists s, m, w. split; [by right|done].
  - destruct (negb (r =? 0)) eqn:Er; adds_step; (split; [keeps_none|]); [done|]. intros o Ho. to_prop. subst r.
    exists size, needed, written. split; [by left|done].
Qed.

Lemma tidy_lw_recheck b : tidy (lw_recheck W rfc3339Nano addrText b).
Proof.
  unfold lw_recheck. apply tidy_bind; [intros h; eapply adds_mono; [|apply ownerOf_spec]; by intros r new [? _]|].
  intros [[o|]|e]; [|apply tidy_ret..]. destruct (negb _); [apply tidy_ret|].
  apply tidy_bind; [by apply tidy_sys|]. intros s. cbv zeta. destruct (match s with Ok _ => _ | Err _ => _ end); [apply tidy_ret|].
  apply tidy_bind; [|intros a; destruct (_ && _); apply tidy_ret]. unfold lw_alive, processAlive. apply tidy_bind; [by apply tidy_sys|intros ?; apply tidy_ret].
Qed.

Lemma lw_release_spec b h :
  lw_proc b ≠ 0 → adds (lw_release W b) (λ r new, lw_proc r.2 = 0 /\ new = [Ev (CloseHandle (lw_proc b)) r.1]) h.
Proof.
  intros Hb. unfold lw_release. adds_step. eapply adds_mono; [|by apply releaseProcess_spec]. intros [e p] new (Hp & c & <- & ->).
  adds_step. by rewrite app_nil_r.
Qed.

(** What a loopback binding and its peer rest on. *)
Definition loopback_said (client server : AddrPort) (opts : option Options) (b : loopbackWindowsBinding) (p : Peer) (new : list pevent) : Prop :=
  lw_client b = client /\ lw_server b = server /\
  pin_said (λ new, ∃ o, to_pid o = lw_pid b /\ owner_said client server o new) opts (lw_pid b) (lw_proc b) (lw_started b) new /\
  pinned_said (lw_proc b) (lw_pid b) (lw_started b) opts p new.

Lemma loopback_owns client server opts : handles_valid W →
  owns (bindLoopback W errText rfc3339Nano addrText client server opts) lw_proc (loopback_said client server opts).
Proof.
  intros Hv h. unfold bindLoopback. adds_step. eapply adds_mono; [|apply ownerOf_spec]. intros [[o|]|e] n1 [Hn1 Ho];
    [|adds_step; by rewrite app_nil_r..]. specialize (Ho o eq_refl). cbv zeta.
  destruct (to_pid o =? 0); [adds_step; by rewrite app_nil_r|].
  sys_step. destruct (W _ (OpenProcess (to_pid o)) _) as [proc|e] eqn:Eo; [|destruct (to_established o); adds_step; keeps_none]. apply Hv in Eo as Hproc.
  apply (owns_open (to_pid o) proc _ lw_proc (loopback_said client server opts) n1); [done|done|].
  apply back_sys; [done|]. intros [started|e] h1; [|eapply (back_release _ _ fst (λ r, lw_proc r.2 = 0)); by apply lw_release_spec].
  apply back_connected. intros connected n3 h2 Hcs. unfold After.
  destruct (connected <? started) eqn:El; [eapply (back_release _ _ fst (λ r, lw_proc r.2 = 0)); by apply lw_release_spec|]. to_prop.
  apply back_tidy; [apply tidy_lw_recheck|]. intros [e|] n4 h3; [eapply (back_release _ _ fst (λ r, lw_proc r.2 = 0)); by apply lw_release_spec|].
  unfold lw_peer. eapply back_bind; [apply pinnedProcessPeer_spec|]. intros [p|e] n5 h4 Hp;
    [|eapply (back_release _ _ fst (λ r, lw_proc r.2 = 0)); by apply lw_release_spec].
  apply back_ret. split; [done|]. rewrite app_nil_r. split; [done|]. split; [done|]. split.
  - split. { exists o. split; [done|]. destruct Ho as (s & m & w & Hin & Ht). exists s, m, w. split; [set_solver|done]. }
    split; [set_solver|]. split; [set_solver|]. exists connected. split; [|done]. eapply connected_said_in; [|done]. set_solver.
  - eapply (pinned_said_in _ _ _ _ _ n5); [set_solver|by apply Hp].
Qed.
End Facts.

(** ** Properties *)

(** The release of a binding closes its handle once and forgets it. *)
Definition released_once {B} (release : B → Hist pevent (option err * B)) (proc : B → Z) : Prop :=
  ∀ b h, proc b ≠ 0 →
    let '((e, b'), h') := release b h in h' = h ++ [Ev (CloseHandle (proc b)) e] /\ release b' h' = ((None, b'), h').

(** C19: every Windows binding owns exactly one process handle. Whether it is for a
    pipe's client, a pipe's server, a socket's server or the creator of a loopback
    connection: a refusal, on any path, leaves no handle and no token open; a binding
    holds the handle of the process the kernel named, which was created no later than
    the connection, and its peer was read from that pipe or through that handle; and
    releasing it closes the handle, once. *)
Theorem windows_bindings_own_one_handle W errText Quote rfc3339Nano ordinalEqual addrText opts :
  handles_valid W →
  (∀ pipe, owns (bindHandle W errText Quote rfc3339Nano ordinalEqual pipe opts) wb_proc (pipe_said ordinalEqual pipe opts)) /\
  (∀ pipe, owns (bindServerHandle W errText pipe opts) (wb_proc ∘ sb_binding) (server_said pipe opts)) /\
  (∀ socket, owns (bindUnixServer W errText rfc3339Nano socket opts) ub_proc (unix_said socket opts)) /\
  (∀ client server, owns (bindLoopback W errText rfc3339Nano addrText client server opts) lw_proc (loopback_said client server opts)) /\
  released_once (wb_release W) wb_proc /\ released_once (sb_release W) (wb_proc ∘ sb_binding) /\
  released_once (ub_release W) ub_proc /\ released_once (lw_release W) lw_proc.
Proof.
  intros Hv. split_and!; [by intros; apply pipe_owns|by intros; apply server_owns|by intros; apply unix_owns|by intros; apply loopback_owns|..];
    intros b h Hb; unfold sb_release, wb_release, ub_release, lw_release, releaseProcess, sys, act, mbind, Hist_bind, mret, Hist_ret; cbn in *;
    rewrite (proj2 (Z.eqb_neq _ _) Hb); done.
Qed.

(** The client at the other end of the example pipe. *)
Lemma windows_bindings_own_one_handle_witness :
  handles_valid exampleSystem /\
  match bindHandle exampleSystem (λ _, "") quoted itoa String.eqb 3 None [] with
  | (Ok (b, _), h) => wb_proc b = 7 /\ wb_pid b = 42 /\ keeps [inl 7] h
  | (Err _, _) => False
  end.
Proof.
  assert (handles_valid exampleSystem) as Hv by (intros pid h proc E; injection E as <-; discriminate).
  split; [exact Hv|].
  pose proof (proj1 (windows_bindings_own_one_handle exampleSystem (λ _, "") quoted itoa String.eqb (λ _, "") None Hv) 3 []) as (new & Hh & Hr).
  destruct (bindHandle _ _ _ _ _ _ _ _) as [[[b p]|e] h] eqn:E; [|vm_compute in E; discriminate E].
  cbn in Hh, Hr. subst h. assert (wb_proc b = 7 /\ wb_pid b = 42) as [H1 H2] by (vm_compute in E; injection E as <- _ _; split; reflexivity).
  rewrite <- H1 at 2. split; [exact H1|]. split; [exact H2|]. apply Hr.
Defined.

(** * sockets_windows.go: the listening, connected and bound sockets of the machine, with
    the processes that own them, from the four owner tables; and when a process was
    created. *)


Section SocketsWindows.
Context (W : ∀ A, question A → list pevent → A).

Definition tableName (udp : bool) : string := if udp then "GetExtendedUdpTable" else "GetExtendedTcpTable".

(** [readOwnerTable]: [attempts] buffers, each larger than what the system last asked
    for; what it filled is its own length of the buffer. *)
Fixpoint readOwnerTableFrom (attempts : nat) (size : Z) (udp : bool) (family class : Z) : Hist pevent (result (list byte)) :=
  match attempts with
  | O => mret (Err (Plain (tableName udp +:+ ": the table kept growing")))
  | S attempts =>
      '(r, needed, written) ← sys W (GetExtendedTable udp family class size);
      if r =? 0 then
        if size <? needed then mret (Err (Plain (tableName udp +:+ ": table larger than its buffer")))
        else mret (Ok (take (Z.to_nat needed) (buffer size written)))
      else if r =? errorInsufficientBuffer then readOwnerTableFrom attempts ((needed + 4096) mod 2 ^ 32) udp family class
      else mret (Err (Wrap (tableName udp) [OSErr (EOTHER r)]))
  end.

Definition readOwnerTable (udp : bool) (family class : Z) : Hist pevent (result (list byte)) :=
  readOwnerTableFrom 8 16384 udp family class.

(** The loop of [ownedSockets]; [None] is a panic of the parser. *)
Fixpoint readTables (tables : list (bool * Z * Z * ownerTableLayout)) (all : list Socket) : Hist pevent (option (result (list Socket))) :=
  match tables with
  | [] => mret (Some (Ok all))
  | (udp, family, class, layout) :: tables =>
      b ← readOwnerTable udp family class;
      match b with
      | Err e => mret (Some (Err e))
      | Ok buf =>
          match parseOwnerTable buf layout with
          | None => mret None
          | Some (Err e) => mret (Some (Err (Wrap (tableName udp) [e])))
          | Some (Ok sockets) => readTables tables (all ++ sockets)
          end
      end
  end.

Definition ownerTables (tcpClass : Z) : list (bool * Z * Z * ownerTableLayout) :=
  [(false, AF_INET, tcpClass, tcp4OwnerLayout); (false, AF_INET6, tcpClass, tcp6OwnerLayout);
   (true, AF_INET, udpTableOwnerPID, udp4OwnerLayout); (true, AF_INET6, udpTableOwnerPID, udp6OwnerLayout)].

(** [ownedSockets]. *)
Definition ownedSockets (tcpClass : Z) : Hist pevent (option (result (list Socket))) := readTables (ownerTables tcpClass) [].

(** [Sockets] and [AllSockets]. *)
Definition ListeningSockets : Hist pevent (option (result (list Socket))) := ownedSockets tcpTableOwnerPIDListener.
Definition AllSockets : Hist pevent (option (result (list Socket))) := ownedSockets tcpTableOwnerPIDAll.

(** [processCreation]. *)
Definition processCreation (pid : Z) : Hist pevent (result Time) :=
  if (pid <=? 0) || (2 ^ 32 - 1 <? pid) then mret (Err (Plain "process id out of range"))
  else
    o ← sys W (OpenProcess pid);
    match o with
    | Err e => mret (Err e)
    | Ok h =>
        t ← sys W (GetProcessTimes h);
        _ ← sys W (CloseHandle h);
        mret t
    end.
End SocketsWindows.

(** ** What the tables say *)

Section Facts.
Context (W : ∀ A, question A → list pevent → A).

(** Four tables the system fills at the first attempt, with whatever after them. *)
Definition fills (tables : list (bool * Z * Z * ownerTableLayout)) (sockets : list (list Socket)) : Prop :=
  Forall2 (λ t s, let '(udp, family, class, layout) := t in
     layout ∈ ownerLayouts /\ Forall (rowable layout) s /\ Z.of_nat (length (tableBytes layout s)) <= 16384 /\
     ∀ h, ∃ slack, W _ (GetExtendedTable udp family class 16384) h = (0, Z.of_nat (length (tableBytes layout s)), tableBytes layout s ++ slack))
    tables sockets.

Lemma readOwnerTable_filled udp family class bytes slack h :
  Z.of_nat (length bytes) <= 16384 → W _ (GetExtendedTable udp family class 16384) h = (0, Z.of_nat (length bytes), bytes ++ slack) →
  (readOwnerTable W udp family class h).1 = Ok bytes.
Proof.
  intros Hl HW. unfold readOwnerTable. cbn [readOwnerTableFrom]. unfold mbind, Hist_bind, sys, act. rewrite HW. cbn [Z.eqb].
  rewrite (proj2 (Z.ltb_ge _ _)) by lia. unfold mret, Hist_ret. cbn [fst]. f_equal. unfold buffer.
  rewrite Nat2Z.id, take_take, Nat.min_l by lia. by rewrite <- app_assoc, take_app_length.
Qed.

Lemma readTables_filled tables sockets : fills tables sockets → ∀ all h, (readTables W tables all h).1 = Some (Ok (all ++ concat sockets)).
Proof.
  induction 1 as [|[[[udp family] class] layout] s tables sockets (Hl & Hs & Hlen & HW) _ IH]; intros all h; cbn [readTables concat];
    [by rewrite app_nil_r|].
  destruct (HW h) as [slack Hh]. pose proof (readOwnerTable_filled udp family class _ slack h Hlen Hh) as Hr.
  unfold mbind, Hist_bind. destruct (readOwnerTable W udp family class h) as [r h']. cbn [fst] in Hr. subst r.
  assert (parseOwnerTable (tableBytes layout s) layout = Some (Ok s)) as ->.
  { rewrite <- (app_nil_r (tableBytes layout s)). apply (proj1 (owner_table_round_trip layout Hl) s []); [done|].
    unfold tableBytes in Hlen. rewrite length_app, (concat_rows_length layout s Hl Hs) in Hlen. pose proof (rowSize_pos layout Hl). nia. }
  rewrite IH. by rewrite <- app_assoc.
Qed.

(** The sockets a read of the machine gives are those of its four tables, in order,
    with nothing lost, whatever the system leaves in the buffers after them. *)
Theorem owned_sockets_complete tcpClass sockets h :
  fills (ownerTables tcpClass) sockets → (ownedSockets W tcpClass h).1 = Some (Ok (concat sockets)).
Proof. intros Hf. by apply (readTables_filled _ _ Hf []). Qed.

(** Whatever the system answers, reading the tables ends without a panic. *)
Lemma readTables_total tables all h : Forall (λ t, t.2 ∈ ownerLayouts) tables → is_Some (readTables W tables all h).1.
Proof.
  intros Ht. revert all h. induction Ht as [|[[[udp family] class] layout] tables Hl _ IH]; intros all h; [done|]. cbn [readTables].
  unfold mbind, Hist_bind. destruct (readOwnerTable W udp family class h) as [[buf|e] h']; [|done].
  pose proof (proj2 (owner_table_round_trip layout Hl) buf) as Hp. destruct (parseOwnerTable buf layout) as [[sockets|e]|]; [apply IH|done|done].
Qed.

Theorem owned_sockets_total tcpClass h : is_Some (ownedSockets W tcpClass h).1.
Proof. apply readTables_total. unfold ownerTables, ownerLayouts. repeat constructor; cbn; set_solver. Qed.

Lemma processCreation_tidy pid : tidy (processCreation W pid).
Proof.
  intros h. unfold processCreation. destruct (_ || _); [adds_step; keeps_none|]. sys_step.
  destruct (W _ (OpenProcess pid) _) as [proc|e]; [|adds_step; keeps_none]. do 2 sys_step. adds_step. unfold keeps, balanced. cbn. reflexivity.
Qed.
End Facts.
