(* ===== verification/ListenWindows.v ===== *)
(** listen/listen_windows.go: a named pipe's listener, with one instance always waiting
    for a client, and the door of the pipe.

    [arm] keeps [mu] unless the connect is pending, and [connected] takes it again, so
    an accept is one step when the client is already there and two steps, around the
    completion port's wait, when it is not; [Close] is one step. [acceptMu] admits one
    accept at a time. What the system answers is an argument of the step. *)

From S2P Require Import Prelude GoStrings GoError GoFilepathWindows Binding Events.


(** ** The listener *)

(** [pipeListener]; a handle is the number of the call that made it, and 0 is none. *)
Record pipeListener := mkListener { accepting : bool; waiting : nat; closed : bool }.

(** [armedAccept]. *)
Record armedAccept := mkArmed { a_h : nat; a_port : nat; a_cerr : option err; a_pending : bool }.

(** The listener, the accept waiting on its completion port, the pipe handles and the
    ports open, the connections handed out and not closed yet, the handles made so far,
    the handles whose pending connect was cancelled, and whether a handle that was not
    open was ever used. *)
Record pipes := mkPipes {
  listener : pipeListener;
  pending : option armedAccept;
  instances : list nat;
  ports : list nat;
  conns : list nat;
  made : nat;
  cancelled : list nat;
  misused : bool
}.

Definition set_listener (l : pipeListener) (s : pipes) : pipes :=
  mkPipes l (pending s) (instances s) (ports s) (conns s) (made s) (cancelled s) (misused s).
Definition set_pending (a : option armedAccept) (s : pipes) : pipes :=
  mkPipes (listener s) a (instances s) (ports s) (conns s) (made s) (cancelled s) (misused s).

Fixpoint remove_one (h : nat) (l : list nat) : list nat :=
  match l with
  | [] => []
  | x :: l => if decide (x = h) then l else x :: remove_one h l
  end.

(** The use of a pipe handle. *)
Definition using_pipe (h : nat) (s : pipes) : pipes :=
  mkPipes (listener s) (pending s) (instances s) (ports s) (conns s) (made s) (cancelled s) (misused s || bool_decide (h ∉ instances s)).

(** [syscall.CloseHandle] of a pipe, and of a completion port. *)
Definition closePipe (h : nat) (s : pipes) : pipes :=
  mkPipes (listener s) (pending s) (remove_one h (instances s)) (ports s) (conns s) (made s) (cancelled s)
    (misused s || bool_decide (h ∉ instances s)).
Definition closePort (p : nat) (s : pipes) : pipes :=
  mkPipes (listener s) (pending s) (instances s) (remove_one p (ports s)) (conns s) (made s) (cancelled s)
    (misused s || bool_decide (p ∉ ports s)).

(** [pipeListener.instance], when the system makes one. *)
Definition newInstance (s : pipes) : nat * pipes :=
  let h := S (made s) in
  (h, mkPipes (listener s) (pending s) (h :: instances s) (ports s) (conns s) h (cancelled s) (misused s)).

(** What [ConnectNamedPipe] answers. *)
Inductive connectAnswer := ConnectedNow | ConnectPending | ConnectFailed (e : err).

(** [arm] on an open listener that is free to accept; [port] is the answer of
    [CreateIoCompletionPort]. *)
Definition arm (port : option err) (connect : connectAnswer) (s : pipes) : result armedAccept * pipes :=
  if closed (listener s) then (Err (Sentinel NetErrClosed), s)
  else
    let h := waiting (listener s) in
    let s := using_pipe h s in
    match port with
    | Some e => (Err e, s)
    | None =>
        let p := S (made s) in
        let s := mkPipes (listener s) (pending s) (instances s) (p :: ports s) (conns s) p (cancelled s) (misused s) in
        match connect with
        | ConnectedNow => (Ok (mkArmed h p None false), s)
        | ConnectPending =>
            (Ok (mkArmed h p (Some (Plain "ERROR_IO_PENDING")) true),
             set_listener (mkListener true (waiting (listener s)) (closed (listener s))) s)
        | ConnectFailed e => (Ok (mkArmed h p (Some e) false), s)
        end
    end.

Definition errConnect : err := Plain "listen: a client left before it was connected".

(** [connected] under the lock: [cerr] is the connect's error, [next] what the next
    instance's creation answers, [leave] what leaving the accept port answers. *)
Definition connectedLocked (h : nat) (cerr next leave : option err) (s : pipes) : result nat * pipes :=
  if closed (listener s) then (Err (Sentinel NetErrClosed), closePipe h s)
  else
    match next with
    | Some e => (Err e, closePipe h (set_listener (mkListener (accepting (listener s)) 0 true) s))
    | None =>
        let '(n, s) := newInstance s in
        let s := set_listener (mkListener (accepting (listener s)) n (closed (listener s))) s in
        match cerr with
        | Some _ => (Err errConnect, closePipe h s)
        | None =>
            match leave with
            | Some e => (Err (Wrap "listen: the connected pipe could not leave its accept port" [e]), closePipe h (using_pipe h s))
            | None =>
                let s := using_pipe h s in
                (Ok h, mkPipes (listener s) (pending s) (instances s) (ports s) (h :: conns s) (made s) (cancelled s) (misused s))
            end
        end
    end.

(** [connected]: a pending connect has completed with [done]; the port is closed last. *)
Definition connected (a : armedAccept) (done next leave : option err) (s : pipes) : result nat * pipes :=
  let s := if a_pending a
           then set_pending None (set_listener (mkListener false (waiting (listener s)) (closed (listener s))) s)
           else s in
  let cerr := if a_pending a then done else a_cerr a in
  let '(r, s) := connectedLocked (a_h a) cerr next leave s in
  (r, closePort (a_port a) s).

(** [Accept], up to its wait or to its end. *)
Definition Accept (port : option err) (connect : connectAnswer) (next leave : option err) (s : pipes) : option (result nat) * pipes :=
  match arm port connect s with
  | (Err e, s) => (Some (Err e), s)
  | (Ok a, s) =>
      if a_pending a then (None, set_pending (Some a) s)
      else let '(r, s) := connected a None next leave s in (Some r, s)
  end.

(** [Close]; [err] is what closing the waiting handle answers. *)
Definition Close (err : option err) (s : pipes) : option GoError.err * pipes :=
  let l := listener s in
  if closed l then (Some (Sentinel NetErrClosed), s)
  else
    let h := waiting l in
    let s := set_listener (mkListener (accepting l) 0 true) s in
    if accepting l then
      let s := using_pipe h s in
      (None, mkPipes (listener s) (pending s) (instances s) (ports s) (conns s) (made s) (h :: cancelled s) (misused s))
    else (err, closePipe h s).

(** A new listener: [ListenAdmitting] once its first instance is made. *)
Definition newListener : pipes := mkPipes (mkListener false 1 false) None [1%nat] [] [] 1 [] false.

(** The steps of the callers: an accept begins when none is under way; a connection is
    closed by whoever got it. *)
Inductive lstep : pipes → pipes → Prop :=
| l_accept port connect next leave s : pending s = None → lstep s (Accept port connect next leave s).2
| l_completed a done next leave s : pending s = Some a → lstep s (connected a done next leave s).2
| l_close err s : lstep s (Close err s).2
| l_hangup h s : h ∈ conns s →
    lstep s (let s' := closePipe h s in
             mkPipes (listener s') (pending s') (instances s') (ports s') (remove_one h (conns s')) (made s') (cancelled s') (misused s')).

Inductive lreachable : pipes → Prop :=
| l_start : lreachable newListener
| l_next s s' : lreachable s → lstep s s' → lreachable s'.

(** ** Who owns which handle *)

(** The pipe handle the listener or its pending accept owns. *)
Definition ownedHandle (s : pipes) : list nat :=
  if closed (listener s) then match pending s with Some a => [a_h a] | None => [] end else [waiting (listener s)].

Record pipes_ok (s : pipes) : Prop := {
  po_misused : misused s = false;
  po_instances : instances s ≡ₚ conns s ++ ownedHandle s;
  po_nodup : NoDup (instances s);
  po_made : Forall (λ h, (h <= made s)%nat) (instances s);
  po_closed : closed (listener s) = true → waiting (listener s) = 0%nat;
  po_pending : match pending s with
               | Some a => accepting (listener s) = true /\ a_pending a = true /\ ports s = [a_port a] /\
                   if closed (listener s) then a_h a ∈ cancelled s else a_h a = waiting (listener s)
               | None => accepting (listener s) = false /\ ports s = []
               end
}.

Lemma remove_one_perm h l r : l ≡ₚ h :: r → remove_one h l ≡ₚ r.
Proof.
  revert r. induction l as [|x l IH]; intros r Hp; [by apply Permutation_nil_cons in Hp|]. cbn. case_decide as Hx; [subst x; by apply Permutation_cons_inv in Hp|].
  assert (x ∈ r) as Hin.
  { assert (x ∈ h :: r) as Hin by (rewrite <- Hp; by left). apply elem_of_cons in Hin as [->|Hin]; done. }
  apply elem_of_Permutation in Hin as (r' & Hr). rewrite Hr. constructor. apply IH. rewrite Hr in Hp.
  rewrite (Permutation_swap x h r') in Hp. by apply Permutation_cons_inv in Hp.
Qed.

(** Closing a handle that is open. *)
Lemma closePipe_open h r s : instances s ≡ₚ h :: r → misused s = false →
  misused (closePipe h s) = false /\ instances (closePipe h s) ≡ₚ r.
Proof.
  intros Hp Hm. cbn. rewrite Hm. split; [|by apply remove_one_perm]. apply bool_decide_eq_false. intros H. apply H. rewrite Hp. by left.
Qed.

Lemma using_open h s : h ∈ instances s → misused s = false → misused (using_pipe h s) = false.
Proof. intros Hin Hm. cbn. rewrite Hm. apply bool_decide_eq_false. auto. Qed.

(** The state between the connect and the end of its accept, which owns [h]. *)
Record ready (h : nat) (s : pipes) : Prop := {
  rd_misused : misused s = false;
  rd_instances : instances s ≡ₚ conns s ++ [h];
  rd_nodup : NoDup (instances s);
  rd_made : Forall (λ h, (h <= made s)%nat) (instances s);
  rd_closed : if closed (listener s) then waiting (listener s) = 0%nat else waiting (listener s) = h;
  rd_idle : accepting (listener s) = false /\ pending s = None
}.

(** What the end of an accept leaves, the port aside. *)
Record settled (s : pipes) : Prop := {
  st_misused : misused s = false;
  st_instances : instances s ≡ₚ conns s ++ ownedHandle s;
  st_nodup : NoDup (instances s);
  st_made : Forall (λ h, (h <= made s)%nat) (instances s);
  st_closed : closed (listener s) = true → waiting (listener s) = 0%nat;
  st_idle : accepting (listener s) = false /\ pending s = None
}.

Lemma perm_drop {A} (h : A) (l r : list A) : l ≡ₚ h :: r → NoDup l → NoDup r.
Proof. intros Hp Hn. rewrite Hp in Hn. by apply NoDup_cons in Hn as [_ ?]. Qed.

Lemma Forall_perm_drop (P : nat → Prop) h l r : l ≡ₚ h :: r → Forall P l → Forall P r.
Proof. intros Hp Hf. rewrite Hp in Hf. by apply Forall_cons in Hf as [_ ?]. Qed.

(** The accept gives up the handle of a closed listener. *)
Lemma settled_closed h s : ready h s → closed (listener s) = true → settled (closePipe h s).
Proof.
  intros [Hm Hi Hn Hd Hc Hidle] Hcl. rewrite Hcl in Hc. destruct Hidle as [Ha Hp].
  assert (instances s ≡ₚ h :: conns s) as Hi' by (rewrite Hi; apply Permutation_app_comm).
  destruct (closePipe_open h (conns s) s Hi' Hm) as [Hm' Hi'']. split; cbn in *; try done.
  - unfold ownedHandle. cbn. by rewrite Hcl, Hp, app_nil_r.
  - rewrite Hi''. by eapply perm_drop.
  - rewrite Hi''. by eapply Forall_perm_drop.
Qed.

(** The next instance is made and waits. *)
Lemma ready_next h s : ready h s → closed (listener s) = false →
  let s1 := set_listener (mkListener (accepting (listener s)) (S (made s)) (closed (listener s))) (newInstance s).2 in
  misused s1 = false /\ instances s1 = S (made s) :: instances s /\ instances s1 ≡ₚ h :: conns s1 ++ [S (made s)] /\
  NoDup (instances s1) /\ Forall (λ h, (h <= made s1)%nat) (instances s1).
Proof.
  intros [Hm Hi Hn Hd Hc Hidle] Hcl. cbn. split; [done|]. split; [done|]. split.
  - rewrite Hi. rewrite (Permutation_app_comm (conns s) [h]), (Permutation_app_comm (conns s) [S (made s)]). cbn. apply Permutation_swap.
  - split.
    + apply NoDup_cons. split; [|done]. intros Hin. rewrite Forall_forall in Hd. specialize (Hd _ Hin). lia.
    + constructor; [lia|]. eapply Forall_impl; [done|]. cbn. lia.
Qed.

Lemma connectedLocked_ok h cerr next leave s : ready h s →
  settled (connectedLocked h cerr next leave s).2 /\ ports (connectedLocked h cerr next leave s).2 = ports s /\
  (∀ c, (connectedLocked h cerr next leave s).1 = Ok c → c = h /\ closed (listener s) = false).
Proof.
  intros Hr. unfold connectedLocked. destruct (closed (listener s)) eqn:Hcl; [split_and!; [by apply settled_closed|done|done]|].
  destruct next as [e|].
  { split_and!; [|done|done]. apply settled_closed; [|done]. destruct Hr as [Hm Hi Hn Hd Hc Hidle]. by split. }
  pose proof (ready_next h s Hr Hcl) as Hs1. cbv zeta in Hs1. destruct Hr as [Hm Hi Hn Hd Hc [Ha Hp]].
  cbn [newInstance fst snd] in *. set (s1 := set_listener _ _) in *. destruct Hs1 as (Hm1 & He1 & Hi1 & Hn1 & Hd1).
  assert (h ∈ instances s1) as Hin by (rewrite Hi1; by left).
  assert (∀ s2, instances s2 = instances s1 → misused s2 = false → listener s2 = listener s1 → pending s2 = None → conns s2 = conns s1 →
    made s2 = made s1 → settled (closePipe h s2)) as Hclose.
  { intros s2 E1 E2 E3 E4 E5 E6. rewrite <- E1 in Hi1. destruct (closePipe_open h (conns s1 ++ [S (made s)]) s2 Hi1 E2) as [Hm2 Hi2].
    split; cbn in *; rewrite ?E3, ?E4, ?E5, ?E6; try done.
    - unfold ownedHandle. cbn. by rewrite E3, Hcl.
    - rewrite Hi2. eapply perm_drop; [exact Hi1|by rewrite E1].
    - rewrite Hi2. eapply Forall_perm_drop; [exact Hi1|by rewrite E1].
    - by rewrite Hcl. }
  destruct cerr as [e|]; [split_and!; [by apply Hclose|done|done]|].
  destruct leave as [e|]; [split_and!; [apply Hclose; try done; by apply using_open|done|done]|].
  split_and!; [|done|]; [|intros c [= <-]; done].
  split; cbn; try done.
  - by apply (using_open h s1).
  - unfold ownedHandle. cbn. rewrite Hcl. rewrite <- He1. rewrite Hi1. done.
  - by rewrite Hcl.
Qed.

Lemma remove_one_single h : remove_one h [h] = [].
Proof. cbn [remove_one]. by rewrite decide_True. Qed.

(** The port of the accept is closed last. *)
Lemma settled_port p s : settled s → ports s = [p] → pipes_ok (closePort p s).
Proof.
  intros [Hm Hi Hn Hd Hc [Ha Hp]] Hports. split; cbn; rewrite ?Hports, ?Hm, ?Hp; try done.
  - apply bool_decide_eq_false. intros H. apply H. by left.
  - split; [done|]. apply remove_one_single.
Qed.

Lemma ready_of_ok s : pipes_ok s → pending s = None → closed (listener s) = false →
  waiting (listener s) ∈ instances s /\
  ∀ p, ready (waiting (listener s))
    (mkPipes (listener s) (pending s) (instances s) (p :: ports s) (conns s) (S (made s)) (cancelled s) (misused s)).
Proof.
  intros [Hm Hi Hn Hd Hc Hp] Hpend Hcl. rewrite Hpend in Hp. destruct Hp as [Ha Hports].
  unfold ownedHandle in Hi. rewrite Hcl in Hi. split; [rewrite Hi; apply elem_of_app; right; by left|]. intros p. split; cbn; try done.
  - eapply Forall_impl; [done|]. cbn. lia.
  - by rewrite Hcl.
Qed.

Lemma Accept_ok port connect next leave s : pipes_ok s → pending s = None → pipes_ok (Accept port connect next leave s).2.
Proof.
  intros Hok Hpend. unfold Accept, arm. destruct (closed (listener s)) eqn:Hcl; [done|]. cbv zeta.
  destruct (ready_of_ok s Hok Hpend Hcl) as [Hin Hready]. pose proof (using_open _ s Hin (po_misused _ Hok)) as Hu. cbn in Hu.
  destruct port as [e|]; [cbn; by destruct Hok; split|].
  pose proof (po_pending _ Hok) as Hports. rewrite Hpend in Hports. destruct Hports as [Ha Hports].
  assert (∀ cerr, pipes_ok (connected (mkArmed (waiting (listener s)) (S (made s)) cerr false) None next leave
    (mkPipes (listener s) (pending s) (instances s) (S (made s) :: ports s) (conns s) (S (made s)) (cancelled s)
       (misused s || bool_decide (waiting (listener s) ∉ instances s)))).2) as Hnow.
  { intros cerr. unfold connected. cbn [a_pending a_cerr a_h a_port]. rewrite Hu, <- (po_misused _ Hok) at 1.
    destruct (connectedLocked_ok (waiting (listener s)) cerr next leave _ (Hready (S (made s)))) as (Hs & Hp & _).
    destruct (connectedLocked _ _ _ _ _) as [r s']. cbn in *. apply settled_port; [done|]. by rewrite Hp, Hports. }
  destruct connect as [| |e]; cbn [a_pending]; cbn [using_pipe listener pending instances ports conns made cancelled misused].
  - specialize (Hnow None). by destruct (connected _ _ _ _ _) as [r s'].
  - destruct Hok as [Hm Hi Hn Hd Hc _]. split; cbn; rewrite ?Hcl, ?Hports; try done.
    + unfold ownedHandle in *. cbn. rewrite Hcl in *. done.
    + eapply Forall_impl; [done|]. cbn. lia.
  - specialize (Hnow (Some e)). by destruct (connected _ _ _ _ _) as [r s'].
Qed.

Lemma connected_ok a done next leave s : pipes_ok s → pending s = Some a →
  pipes_ok (connected a done next leave s).2 /\
  (∀ c, (connected a done next leave s).1 = Ok c → closed (listener s) = false).
Proof.
  intros Hok Hpend. pose proof (po_pending _ Hok) as Hp. rewrite Hpend in Hp. destruct Hp as (Ha & Hap & Hports & Hh).
  unfold connected. rewrite Hap. set (s1 := set_pending None _).
  assert (ready (a_h a) s1) as Hready.
  { destruct Hok as [Hm Hi Hn Hd Hc _]. unfold ownedHandle in Hi. rewrite Hpend in Hi. split; cbn; try done.
    - by destruct (closed (listener s)); [|rewrite Hh].
    - destruct (closed (listener s)); [by apply Hc|done]. }
  destruct (connectedLocked_ok (a_h a) done next leave s1 Hready) as (Hs & Hp & Hr).
  destruct (connectedLocked _ _ _ _ _) as [r s']. cbn in *. split; [apply settled_port; [done|by rewrite Hp]|].
  intros c Hc. by apply (Hr c Hc).
Qed.

Lemma Close_ok err s : pipes_ok s → pipes_ok (Close err s).2.
Proof.
  intros Hok. unfold Close. destruct (closed (listener s)) eqn:Hcl; [done|]. pose proof Hok as [Hm Hi Hn Hd Hc Hp].
  unfold ownedHandle in Hi. rewrite Hcl in Hi.
  assert (instances s ≡ₚ waiting (listener s) :: conns s) as Hi' by (rewrite Hi; apply Permutation_app_comm).
  destruct (accepting (listener s)) eqn:Ha.
  - destruct (pending s) as [a|] eqn:Hpend; [|by destruct Hp]. destruct Hp as (_ & Hap & Hports & Hh).
    rewrite Hcl in Hh. split; cbn; rewrite ?Hpend; try done.
    + rewrite Hm. apply bool_decide_eq_false. intros H. apply H. rewrite Hi'. by left.
    + unfold ownedHandle. cbn. rewrite Hh. done.
    + split_and!; try done. rewrite Hh. by left.
  - destruct (pending s) as [a|] eqn:Hpend; [by destruct Hp|]. destruct Hp as [_ Hports].
    set (s1 := set_listener _ s). destruct (closePipe_open (waiting (listener s)) (conns s) s1 Hi' Hm) as [Hm' Hi''].
    split; try done; cbn in *; rewrite ?Hpend; try done.
    + unfold ownedHandle. cbn. by rewrite app_nil_r.
    + rewrite Hi''. by eapply perm_drop.
    + rewrite Hi''. by eapply Forall_perm_drop.
Qed.

Lemma hangup_ok h s : pipes_ok s → h ∈ conns s →
  pipes_ok (let s' := closePipe h s in
            mkPipes (listener s') (pending s') (instances s') (ports s') (remove_one h (conns s')) (made s') (cancelled s') (misused s')).
Proof.
  intros [Hm Hi Hn Hd Hc Hp] Hin. apply elem_of_Permutation in Hin as (r & Hr).
  assert (instances s ≡ₚ h :: r ++ ownedHandle s) as Hi' by (by rewrite Hi, Hr).
  destruct (closePipe_open h (r ++ ownedHandle s) s Hi' Hm) as [Hm' Hi'']. split; cbn in *; try done.
  - transitivity (r ++ ownedHandle s); [done|]. apply Permutation_app; [|done]. symmetry. by apply remove_one_perm.
  - rewrite Hi''. by eapply perm_drop.
  - rewrite Hi''. by eapply Forall_perm_drop.
Qed.

Lemma pipes_step_ok s s' : lstep s s' → pipes_ok s → pipes_ok s'.
Proof.
  intros [] Hok; [by apply Accept_ok|by apply connected_ok|by apply Close_ok|by apply hangup_ok].
Qed.

Lemma pipes_reachable_ok s : lreachable s → pipes_ok s.
Proof.
  induction 1 as [|s s' _ IH Hs]; [|by eapply pipes_step_ok]. split; try done; cbn.
  - apply NoDup_singleton.
  - constructor; [lia|constructor].
Qed.

(** C31: in every interleaving of accepts, completions, [Close] and hang-ups, and
    whatever the system answers, the pipe handles open are exactly the connections
    handed out, one waiting instance while the listener is open, and after [Close] the
    one handle a pending accept still owns; no handle is closed twice, used after it was
    closed or leaked, and a completion port is open exactly while an accept waits. A
    closed listener hands out no connection: an accept that was pending ends with
    [net.ErrClosed], as every later accept and [Close] does. *)
Theorem pipe_listener_handles s : lreachable s →
  misused s = false /\ instances s ≡ₚ conns s ++ ownedHandle s /\ NoDup (instances s) /\
  ports s = match pending s with Some a => [a_port a] | None => [] end /\
  (closed (listener s) = true → ∀ port connect next leave done a err,
     (Accept port connect next leave s).1 = Some (Err (Sentinel NetErrClosed)) /\ (Close err s).1 = Some (Sentinel NetErrClosed) /\
     (pending s = Some a → a_h a ∈ cancelled s /\ (connected a done next leave s).1 = Err (Sentinel NetErrClosed) /\
        instances (connected a done next leave s).2 ≡ₚ conns s)).
Proof.
  intros Hr%pipes_reachable_ok. pose proof Hr as [Hm Hi Hn Hd Hc Hp]. split_and!; try done.
  { destruct (pending s); naive_solver. }
  intros Hcl port connect next leave done a err. split_and!.
  - unfold Accept, arm. by rewrite Hcl.
  - unfold Close. by rewrite Hcl.
  - intros Hpend. rewrite Hpend, Hcl in Hp. destruct Hp as (Ha & Hap & Hports & Hh). split; [done|].
    pose proof (proj1 (connected_ok a done next leave s Hr Hpend)) as Hok. revert Hok. unfold connected, connectedLocked. rewrite Hap. cbn.
    rewrite Hcl. cbn. intros [_ Hi' _ _ _ _]. split; [done|]. cbn in Hi'. unfold ownedHandle in Hi'. cbn in Hi'. by rewrite ?Hcl, app_nil_r in Hi'.
Qed.

(** A listener closed while an accept waits: the accept ends closed and nothing stays
    open. *)
Definition closedWaiting : pipes := (Close None (Accept None ConnectPending None None newListener).2).2.

Lemma pipe_listener_handles_witness :
  instances closedWaiting = [1%nat] /\ ∃ a, pending closedWaiting = Some a /\
    (connected a (Some (OSErr (EOTHER 995))) None None closedWaiting).1 = Err (Sentinel NetErrClosed).
Proof.
  split; [reflexivity|]. eexists. split; [reflexivity|].
  refine (proj1 (proj2 (proj2 (proj2 (proj2 (proj2 (proj2 (proj2 (pipe_listener_handles closedWaiting _)))) eq_refl
    None ConnectedNow None None (Some (OSErr (EOTHER 995))) _ None)) eq_refl))).
  unfold closedWaiting. eapply l_next; [|apply l_close]. eapply l_next; [apply l_start|by apply l_accept].
Defined.

(** ** The door of the pipe *)

(** The rights of one entry an admitted AppContainer gets, and the rights a client asks
    for when it dials. *)
Definition containerRights : Z := 0x0012019B.
Definition FILE_GENERIC_READ : Z := 0x00120089.
Definition FILE_GENERIC_WRITE : Z := 0x00120116.
Definition FILE_APPEND_DATA : Z := 0x4.
Definition FILE_CREATE_PIPE_INSTANCE : Z := FILE_APPEND_DATA.

(** The entry of one container. *)
Definition containerEntry (c : string) : string := "(A;;0x0012019B;;;" +:+ c +:+ ")".

(** [pipeDescriptor]. *)
Definition pipeDescriptor (user label : string) (containers : list string) : string :=
  fold_left (λ d c, d +:+ containerEntry c) containers ("D:P(A;;FA;;;" +:+ user +:+ ")") +:+ "S:(ML;;NRNWNX;;;" +:+ label +:+ ")".

Definition integrityMedium : Z := 0x2000.

(** [ourLabel], of the level the token's label has, if it can be read. *)
Definition ourLabel (rid : option Z) : string :=
  match rid with Some rid => if rid <? integrityMedium then "LW" else "ME" | None => "ME" end.

Section Door.
Context (StringToSid : string → result string).

(** [appContainerSID]; [StringToSid] gives the canonical text of the SID it reads. *)
Definition appContainerSID (s : string) : option err :=
  match StringToSid s with
  | Err e => Some (Wrap "is no SID" [e])
  | Ok sid =>
      let parts := Split sid "-" in
      if negb (length parts =? 11)%nat || negb (bool_decide (parts !! 2%nat = Some "15")) || negb (bool_decide (parts !! 3%nat = Some "2"))
      then Some (Plain ("listen: " +:+ s +:+ " is not one AppContainer's SID"))
      else None
  end.

Fixpoint containersRefused (containers : list string) : option err :=
  match containers with
  | [] => None
  | c :: containers => match appContainerSID c with Some e => Some e | None => containersRefused containers end
  end.

(** [ListenAdmitting]: [user] is whose account this is, [door] whether Windows accepts
    the descriptor, [first] what making the first instance answers. The descriptor is
    what the pipe is made with. *)
Definition ListenAdmitting (name : string) (containers : list string) (user : result string) (rid : option Z)
  (door : string → option err) (first : option err) : result (string * pipes) :=
  if contains_char (Ascii.eqb nul) name then Err (Plain "invalid argument")
  else
    match containersRefused containers with
    | Some e => Err e
    | None =>
        match user with
        | Err e => Err (Wrap "listen: whose account this is could not be read" [e])
        | Ok user =>
            let d := pipeDescriptor user (ourLabel rid) containers in
            match door d with
            | Some e => Err (Wrap "listen: the pipe's door could not be built" [e])
            | None =>
                match first with
                | Some e =>
                    if errors_is_errno e (EOTHER 5)
                    then Err (Wrap ("another listener holds it, or a client of the last one has not hung up: " +:+ name) [Sentinel ErrTaken])
                    else Err e
                | None => Ok (d, newListener)
                end
            end
        end
    end.
End Door.

(** ** Names *)

Definition pipePrefix : string := "\\.\pipe\".

Definition lowerASCII (c : ascii) : ascii :=
  let n := Ascii.nat_of_ascii c in if ((65 <=? n) && (n <=? 90))%nat then Ascii.ascii_of_nat (n + 32) else c.

(** [strings.EqualFold] against the prefix, whose letters have no other foldings. *)
Fixpoint EqualFold (a b : string) : bool :=
  match a, b with
  | EmptyString, EmptyString => true
  | String x a, String y b => Ascii.eqb (lowerASCII x) (lowerASCII y) && EqualFold a b
  | _, _ => false
  end.

(** [Endpoint]. *)
Definition Endpoint (service : string) : string :=
  if (String.length pipePrefix <? String.length service)%nat && EqualFold (stake (String.length pipePrefix) service) pipePrefix
  then service
  else pipePrefix +:+ "openabstractions-" +:+ service.

(** [dialFramed]'s test of a name. *)
Definition localPipeName (name : string) : bool :=
  HasPrefix name pipePrefix && (String.length pipePrefix <? String.length name)%nat.

(** * listen/framed_windows.go and the client half of listen/listen_windows.go: dialing a
    named pipe, whether a pooled pipe is still intact, and the names and doors both
    sides agree on. *)


(** [writeSignalsClosedPeerPlatform]. *)
Definition writeSignalsClosedPeerPlatform (e : err) : bool :=
  errors_is_errno e ERROR_BROKEN_PIPE || errors_is_errno e ERROR_NO_DATA || errors_is_errno e ERROR_PIPE_NOT_CONNECTED.

(** [idleIntact]; [peek] is what [PeekNamedPipe] answers, with the bytes available. *)
Definition idleIntact (c : netConn) (peek : Z → Z * Z) : bool :=
  match c with
  | ConnSyscall _ (Ok (Ok fd)) => let '(r, available) := peek fd in negb (r =? 0) && (available =? 0)
  | _ => false
  end.

(** ** Dialing *)

Definition errPipeBusy : errno := EOTHER 231.

(** What a client asks a pipe for: data, and not the making of instances. *)
Definition clientRights : Z := Z.lor FILE_GENERIC_READ (Z.ldiff FILE_GENERIC_WRITE FILE_APPEND_DATA).

(** [identifyOnly]. *)
Definition SECURITY_SQOS_PRESENT : Z := 0x00100000.
Definition SECURITY_IDENTIFICATION : Z := 0x00010000.
Definition SECURITY_IMPERSONATION : Z := 0x00020000.
Definition FILE_FLAG_OVERLAPPED : Z := 0x40000000.
Definition identifyOnly : Z := Z.lor SECURITY_SQOS_PRESENT SECURITY_IDENTIFICATION.

Inductive devent :=
| DvCtxErr (a : option err)
| DvCreateFile (name : string) (access flags : Z) (a : result Z)
| DvCloseHandle (h : Z)
| DvWaitPipe (name : string) (a : option err)
| DvTimer (fired : bool).

(** What the system, and the context, answer after a history. *)
Record Dialer := mkDialer {
  d_ctxErr : option err;
  d_createFile : string → Z → Z → result Z;
  d_waitPipe : option err;
  d_timer : bool
}.

(** A connection, or a refusal with its error, which Go may leave nil. *)
Inductive dialed := Dialed (h : Z) | Refused (e : option err).

Section Dial.
Context (D : list devent → Dialer).

Definition ctxErr : Hist devent (option err) := act (λ h, d_ctxErr (D h)) DvCtxErr.
Definition createFile (name : string) (access flags : Z) : Hist devent (result Z) :=
  act (λ h, d_createFile (D h) name access flags) (DvCreateFile name access flags).
Definition waitPipe (name : string) : Hist devent (option err) := act (λ h, d_waitPipe (D h)) (DvWaitPipe name).
Definition timer : Hist devent bool := act (λ h, d_timer (D h)) DvTimer.
Definition closeHandle (h : Z) : Hist devent unit := act (λ _, tt) (λ _, DvCloseHandle h).

Definition pathError (name : string) (e : err) : option err := Some (Wrap ("open " +:+ name) [e]).

(** The loop of [dialPipeContext]; [None] when it still waits after [turns] turns. *)
Fixpoint dialLoop (turns : nat) (name : string) (legacy : bool) : Hist devent (option dialed) :=
  match turns with
  | O => mret None
  | S turns =>
      e ← ctxErr;
      match e with
      | Some e => mret (Some (Refused (Some e)))
      | None =>
          r ← createFile name clientRights (Z.lor identifyOnly FILE_FLAG_OVERLAPPED);
          match r with
          | Ok h =>
              e ← ctxErr;
              match e with
              | Some _ => _ ← closeHandle h; e ← ctxErr; mret (Some (Refused e))
              | None => mret (Some (Dialed h))
              end
          | Err e =>
              if negb (errors_is_errno e errPipeBusy) then mret (Some (Refused (pathError name e)))
              else if legacy then
                w ← waitPipe name;
                match w with
                | Some e => mret (Some (Refused (pathError name e)))
                | None => dialLoop turns name legacy
                end
              else
                fired ← timer;
                if (fired : bool) then dialLoop turns name legacy
                else e ← ctxErr; mret (Some (Refused e))
          end
      end
  end.

(** [dialPipeContext]. *)
Definition dialPipeContext (turns : nat) (name : string) (legacy : bool) : Hist devent (option dialed) :=
  if contains_char (Ascii.eqb nul) name then mret (Some (Refused (pathError name (Plain "invalid argument"))))
  else dialLoop turns name legacy.

(** [dialFramed] and [Dial]. *)
Definition dialFramed (turns : nat) (name : string) : Hist devent (option dialed) :=
  if negb (localPipeName name) then mret (Some (Refused (pathError name (Plain "expected local named pipe"))))
  else dialPipeContext turns name false.

Definition Dial (turns : nat) (name : string) : Hist devent (option dialed) := dialPipeContext turns name true.

(** ** What a dial leaves *)

Definition openedD : list devent → list Z := omap (λ e, match e with DvCreateFile _ _ _ (Ok h) => Some h | _ => None end).
Definition closedD : list devent → list Z := omap (λ e, match e with DvCloseHandle h => Some h | _ => None end).

(** Every open asked for data only, at identification level. *)
Definition modest (e : devent) : Prop :=
  match e with DvCreateFile _ access flags _ => access = clientRights /\ flags = Z.lor identifyOnly FILE_FLAG_OVERLAPPED | _ => True end.

(** The turns that found every instance of the pipe busy. *)
Definition busyTurns (new : list devent) : nat :=
  length (omap (λ e, match e with DvCreateFile _ _ _ (Err e) => if errors_is_errno e errPipeBusy then Some tt else None | _ => None end) new).

Definition dial_ok (turns : nat) (r : option dialed) (new : list devent) : Prop :=
  Forall modest new /\
  match r with
  | None => openedD new = [] /\ closedD new = [] /\ busyTurns new = turns
  | Some (Dialed h) => openedD new = [h] /\ closedD new = [] /\
      ∃ pre name access flags, new = pre ++ [DvCreateFile name access flags (Ok h); DvCtxErr None]
  | Some (Refused _) => openedD new = closedD new
  end.

Lemma dial_ok_more turns r a b : Forall modest a → openedD a = [] → closedD a = [] → busyTurns a = 1%nat →
  dial_ok turns r b → dial_ok (S turns) r (a ++ b).
Proof.
  intros Hm Ho Hc Hb [Hm' H]. split; [by apply Forall_app|]. unfold openedD, closedD, busyTurns in *. rewrite !omap_app, length_app, Ho, Hc, Hb.
  destruct r as [[h|e]|]; cbn; [|done|].
  - destruct H as (? & ? & pre & n & x & f & ->). split_and!; [done|done|]. exists (a ++ pre), n, x, f. by rewrite <- app_assoc.
  - destruct H as (? & ? & ->). done.
Qed.

Lemma dialLoop_spec turns name legacy h : adds (dialLoop turns name legacy) (dial_ok turns) h.
Proof.
  revert h. induction turns as [|turns IH]; intros h; cbn [dialLoop]; [adds_step; by split|].
  unfold ctxErr, createFile, waitPipe, timer, closeHandle. repeat adds_step. destruct (d_ctxErr _) as [e|]; [adds_step; split; [by repeat constructor|done]|].
  repeat adds_step. destruct (d_createFile _ _ _ _) as [x|e]; repeat adds_step.
  - destruct (d_ctxErr _) as [e|]; repeat adds_step; (split; [by repeat constructor|]); [done|]. split_and!; [done|done|]. by eexists [_], _, _, _.
  - destruct (errors_is_errno e errPipeBusy) eqn:Eb; cbn [negb]; [|adds_step; split; [by repeat constructor|done]].
    assert (∀ ev, modest ev → openedD [ev] = [] → closedD [ev] = [] → busyTurns [ev] = 0%nat → ∀ h',
      adds (dialLoop turns name legacy) (λ r new, dial_ok (S turns) r
        ([DvCtxErr None] ++ [DvCreateFile name clientRights (Z.lor identifyOnly FILE_FLAG_OVERLAPPED) (Err e)] ++ [ev] ++ new)) h') as Hmore.
    { intros ev H1 H2 H3 H4 h'. eapply adds_mono; [|apply IH]. intros r new Hok. rewrite !app_assoc.
      apply dial_ok_more; [| | | |done]; unfold openedD, closedD, busyTurns in *; rewrite ?omap_app, ?length_app; cbn in *; rewrite ?Eb, ?H2, ?H3, ?H4; try done.
      by repeat constructor. }
    destruct legacy; repeat adds_step.
    + destruct (d_waitPipe _) as [e'|]; [adds_step; split; [by repeat constructor|done]|]. by apply Hmore.
    + destruct (d_timer _); [by apply Hmore|]. repeat adds_step. split; [by repeat constructor|done].
Qed.

(** Whatever the pipe and the context do, a dial asks for data rights only, without
    the right to make instances of the pipe, and lets the server identify it and not act
    as it; a connection handed out is the one handle opened, checked against the context
    after it was opened; a refusal leaves no handle open; and a dial still waiting after
    [turns] turns has found the pipe busy in every one of them. *)
Theorem pipe_dial_modest turns name legacy h :
  adds (dialPipeContext turns name legacy) (dial_ok turns) h /\
  Z.land clientRights FILE_CREATE_PIPE_INSTANCE = 0 /\ Z.land identifyOnly SECURITY_IMPERSONATION = 0.
Proof.
  split; [|done]. unfold dialPipeContext. destruct (contains_char _ _); [adds_step; by split|apply dialLoop_spec].
Qed.
End Dial.

(** ** The door and the names *)

(** A descriptor cut at its closing brackets. *)
Definition entriesOf (d : string) : list string := Split d ")".

Lemma lacks_app x a b : lacks x a → lacks x b → lacks x (a +:+ b).
Proof. unfold lacks. rewrite contains_app. by intros -> ->. Qed.

Lemma Split_entry x a r : lacks x a → Split (a +:+ String x r) x = a :: Split r x.
Proof. intros Ha. by rewrite Split_app, Split_lacks. Qed.

Lemma fold_entries cs d rest :
  fold_left (λ d c, d +:+ containerEntry c) cs d +:+ rest = d +:+ (foldr (λ c r, containerEntry c +:+ r) rest cs).
Proof. revert d. induction cs as [|c cs IH]; intros d; [done|]. cbn [fold_left foldr]. by rewrite IH, str_app_assoc. Qed.

(** The door of a pipe holds what it says and nothing else: cut into entries, the
    descriptor is full access for this account, one entry of client rights for each
    admitted container, in order, and the integrity label. Those client rights are
    exactly the rights a client dials with, and they do not let a client make another
    instance of the pipe. *)
Theorem pipe_door_exact user label containers :
  lacks ")" user → lacks ")" label → Forall (lacks ")") containers →
  entriesOf (pipeDescriptor user label containers) =
    ("D:P(A;;FA;;;" +:+ user) :: map (λ c, "(A;;0x0012019B;;;" +:+ c) containers ++ ["S:(ML;;NRNWNX;;;" +:+ label; ""] /\
  containerRights = clientRights /\ Z.land containerRights FILE_CREATE_PIPE_INSTANCE = 0.
Proof.
  intros Hu Hl Hc. split; [|done]. unfold entriesOf, pipeDescriptor. rewrite fold_entries.
  replace (("D:P(A;;FA;;;" +:+ user +:+ ")") +:+ foldr (λ c r, containerEntry c +:+ r) ("S:(ML;;NRNWNX;;;" +:+ label +:+ ")") containers)
    with (("D:P(A;;FA;;;" +:+ user) +:+ String ")" (foldr (λ c r, containerEntry c +:+ r) ("S:(ML;;NRNWNX;;;" +:+ label +:+ ")") containers))
    by (rewrite !str_app_assoc; reflexivity).
  rewrite Split_entry by (by apply lacks_app). f_equal. induction Hc as [|c cs Hc _ IH]; cbn [foldr map app].
  - change ("S:(ML;;NRNWNX;;;" +:+ label +:+ ")") with ("S:(ML;;NRNWNX;;;" +:+ (label +:+ String ")" "")).
    rewrite <- str_app_assoc. rewrite Split_entry by (by apply lacks_app). done.
  - unfold containerEntry at 1. replace (("(A;;0x0012019B;;;" +:+ c +:+ ")") +:+ foldr (λ c r, containerEntry c +:+ r) ("S:(ML;;NRNWNX;;;" +:+ label +:+ ")") cs)
      with (("(A;;0x0012019B;;;" +:+ c) +:+ String ")" (foldr (λ c r, containerEntry c +:+ r) ("S:(ML;;NRNWNX;;;" +:+ label +:+ ")") cs))
      by (rewrite !str_app_assoc; reflexivity).
    rewrite Split_entry by (by apply lacks_app). by rewrite IH.
Qed.

Lemma pipe_door_exact_witness :
  entriesOf (pipeDescriptor "S-1-5-21-7" "ME" ["S-1-15-2-1-2-3-4-5-6-7"]) =
    ["D:P(A;;FA;;;S-1-5-21-7"; "(A;;0x0012019B;;;S-1-15-2-1-2-3-4-5-6-7"; "S:(ML;;NRNWNX;;;ME"; ""].
Proof. apply (pipe_door_exact "S-1-5-21-7" "ME" ["S-1-15-2-1-2-3-4-5-6-7"]); [reflexivity|reflexivity|repeat constructor]. Defined.

(** ** Names *)

(** A service name expands once: an address is left as it is. *)
Theorem Endpoint_idempotent service : Endpoint (Endpoint service) = Endpoint service.
Proof.
  unfold Endpoint at 2. destruct (_ && _) eqn:E; [unfold Endpoint; rewrite E; done|]. unfold Endpoint.
  assert ((String.length pipePrefix <? String.length (pipePrefix +:+ "openabstractions-" +:+ service))%nat = true) as ->.
  { apply Nat.ltb_lt. rewrite !slength_app. cbn. lia. }
  assert (EqualFold (stake (String.length pipePrefix) (pipePrefix +:+ "openabstractions-" +:+ service)) pipePrefix = true) as -> by (vm_compute; reflexivity).
  by rewrite E.
Qed.

(** [dialFramed] takes the address of a service name, but not every address [Endpoint]
    leaves as it is: the prefix in other letters is refused. *)
Example Endpoint_other_case :
  Endpoint "\\.\PIPE\custom" = "\\.\PIPE\custom" /\ localPipeName (Endpoint "\\.\PIPE\custom") = false /\
  localPipeName (Endpoint "provider-image") = true.
Proof. done. Qed.
