(* ===== verification/DarwinOS.v ===== *)
(** sysctl_darwin.go: what the macOS side of this package asks the system about a
    socket and a process, and the audit token.

    As on Windows, a question has the type of its answer and the system is any function
    from questions and the events so far to answers. The Security framework's questions
    are here too, so that one history holds a whole resolution: an object of
    CoreFoundation is a number, and a NULL is [None]. *)

From S2P Require Import Prelude GoStrings GoError GoBinary ProofLadder Peer Events.

(** [unix.Xucred]. *)
Record xucred := mkXucred { xu_version : Z; xu_uid : Z; xu_ngroups : Z; xu_groups : list Z }.

Inductive dquestion : Type → Type :=
(** The name of an AF_UNIX address, or [None] for an address of another family. *)
| Getsockname (fd : Z) : dquestion (result (option string))
| Getpeername (fd : Z) : dquestion (result (option string))
| LocalPeerCred (fd : Z) : dquestion (result xucred)
(** The error number, the eight words and the size written. *)
| LocalPeerToken (fd : Z) : dquestion (Z * list Z * Z)
| LocalPeerPID (fd : Z) : dquestion (result Z)
(** [P_pid] and [P_starttime] of [kern.proc.pid]. *)
| KinfoProc (pid : Z) : dquestion (result (Z * Z * Z))
| Procargs (pid : Z) : dquestion (result (list byte))
| Clock : dquestion Time
| CStringOf (s : string) : dquestion Z
| CFree (p : Z) : dquestion unit
| CFDataCreate (token : list Z) : dquestion (option Z)
| CFDictionaryCreate (data : Z) : dquestion (option Z)
| SecCodeCopyGuest (attrs : Z) : dquestion (Z * option Z)
| CFStringCreate (text : string) : dquestion (option Z)
| SecRequirementCreate (rs : Z) : dquestion (Z * option Z)
| SecCodeCheckValidity (code : Z) (req : option Z) : dquestion Z
| SecCopyErrorMessage (st : Z) : dquestion (option (Z * string))
| SecCodeCopySigningInformation (code : Z) : dquestion (Z * option Z)
| InfoIdentifier (info : Z) : dquestion (option string)
| InfoTeam (info : Z) : dquestion (option string)
| InfoCertificates (info : Z) : dquestion (option (list Z))
| CertificateSummary (cert : Z) : dquestion (option (Z * string))
| SecCodeCopyPath (code : Z) : dquestion (Z * option Z)
| URLFileSystemPath (url : Z) : dquestion (option (Z * string))
| CFRelease (ref : Z) : dquestion unit.

Inductive devent : Type :=
| Dv (A : Type) (q : dquestion A) (a : A).
Arguments Dv {A} _ _.

Definition ENOTCONN : Z := 57.
Definition xucredVersion : Z := 0.

(** [auditToken]: eight words. *)
Abbreviation auditToken := (list Z) (only parsing).
Definition word (t : auditToken) (i : nat) : Z := nth i t 0.
Definition token_auid (t : auditToken) : Z := word t 0.
Definition token_euid (t : auditToken) : Z := word t 1.
Definition token_egid (t : auditToken) : Z := word t 2.
Definition token_ruid (t : auditToken) : Z := word t 3.
Definition token_rgid (t : auditToken) : Z := word t 4.
Definition token_pid (t : auditToken) : Z := word t 5.
Definition token_asid (t : auditToken) : Z := word t 6.
Definition token_pidversion (t : auditToken) : Z := word t 7.

(** The conversion [int32(n)]. *)
Definition int32 (n : Z) : Z := (n + 2 ^ 31) mod 2 ^ 32 - 2 ^ 31.

Section Calls.
Context (D : ∀ A, dquestion A → list devent → A).

Definition ask {A} (q : dquestion A) : Hist devent A := act (D A q) (Dv q).

(** [Options.connectedAt]. *)
Definition connectedAtD (o : option Options) : Hist devent Time :=
  match o with
  | Some o' => if negb (IsZero (ConnectedAt o')) then mret (ConnectedAt o') else ask Clock
  | None => ask Clock
  end.

(** [peerAuditToken]. *)
Definition peerAuditToken (fd : Z) : Hist devent (result auditToken) :=
  '(errno, tok, size) ← ask (LocalPeerToken fd);
  mret (if negb (errno =? 0) then Err (OSErr (EOTHER errno))
        else if negb (size =? 32)
        then Err (Plain ("LOCAL_PEERTOKEN returned " +:+ itoa size +:+ " bytes, not 32; the kernel's audit token is not the shape this package knows"))
        else Ok tok).

(** [processStartTime]. *)
Definition processStartTime (pid : Z) : Hist devent (result Time) :=
  r ← ask (KinfoProc pid);
  mret (match r with
        | Err e => Err e
        | Ok (ppid, sec, usec) =>
            if negb (ppid =? int32 pid) then Err (Plain ("kern.proc.pid " +:+ itoa pid +:+ " answered about pid " +:+ itoa ppid))
            else Ok (sec * second + usec * 1000)
        end).

(** [bytes.IndexByte] with NUL, and what is before it. *)
Fixpoint beforeNul (bs : list byte) : option (list byte) :=
  match bs with
  | [] => None
  | b :: bs => if bool_decide (b = x00) then Some [] else (b ::.) <$> beforeNul bs
  end.

(** [processExecPath]. *)
Definition processExecPath (pid : Z) : Hist devent (result string) :=
  r ← ask (Procargs pid);
  mret (match r with
        | Err e => Err e
        | Ok buf =>
            if (length buf <? 4)%nat then Err (Plain "kern.procargs2 returned no argument block")
            else
              match beforeNul (drop 4 buf) with
              | None | Some [] => Err (Plain "kern.procargs2 has no executable path")
              | Some path => Ok (String.string_of_list_byte path)
              end
        end).
End Calls.

Lemma adds_ask D {A} (q : dquestion A) (Q : A → list devent → Prop) h : Q (D A q h) [Dv q (D A q h)] → adds (ask D q) Q h.
Proof. apply adds_act. Qed.

(** One call, then the rest. *)
Ltac ask_step := adds_step; apply adds_ask.

(** ** References and C strings *)

(** What an event hands over to the caller, by the naming rule of CoreFoundation
    ([Create] and [Copy]) and [malloc], and what it takes back. *)
Definition ownedD (e : devent) : list (Z + Z) :=
  match e with
  | Dv q a =>
      match q in dquestion A return A → list (Z + Z) with
      | CStringOf _ => λ p, [inr p]
      | CFDataCreate _ => λ r, inl <$> option_list r
      | CFDictionaryCreate _ => λ r, inl <$> option_list r
      | CFStringCreate _ => λ r, inl <$> option_list r
      | SecCodeCopyGuest _ => λ r, inl <$> option_list r.2
      | SecRequirementCreate _ => λ r, inl <$> option_list r.2
      | SecCodeCopySigningInformation _ => λ r, inl <$> option_list r.2
      | SecCodeCopyPath _ => λ r, inl <$> option_list r.2
      | SecCopyErrorMessage _ => λ r, inl <$> option_list (fst <$> r)
      | CertificateSummary _ => λ r, inl <$> option_list (fst <$> r)
      | URLFileSystemPath _ => λ r, inl <$> option_list (fst <$> r)
      | _ => λ _, []
      end a
  end.

Definition releasedD (e : devent) : list (Z + Z) :=
  match e with
  | Dv q _ => match q with CFRelease r => [inl r] | CFree p => [inr p] | _ => [] end
  end.
