(* ===== verification/CodesignDarwin.v ===== *)
(** codesign_darwin.go: the verification of running code through the Security
    framework, the C function [ai_verify] and the Go function around it. *)

From S2P Require Import Prelude GoStrings GoError ProofLadder Peer Events DarwinOS.

Definition errSecAllocate : Z := -108.
Definition errSecCSUnsigned : Z := -67062.
Definition errSecCSReqFailed : Z := -67050.

(** What C and Go read of a buffer: the bytes before the first NUL. *)
Fixpoint cText (s : string) : string :=
  match s with
  | EmptyString => EmptyString
  | String c s => if bool_decide (c = Ascii.zero) then EmptyString else String c (cText s)
  end.

(** [ai_cfstring] into an empty buffer of [outlen] bytes, as Go reads it:
    [CFStringGetCString] fails when the text and its NUL do not fit. *)
Definition cfstring (s : option string) (outlen : nat) : string :=
  match s with
  | None => ""
  | Some s => if (String.length s <? outlen)%nat then cText s else ""
  end.

(** Where [ai_verify] stopped. *)
Inductive stage := stageGuest | stageRequirement | stageValidity | stageValid.

#[global] Instance stage_eq_dec : EqDecision stage.
Proof. solve_decision. Defined.

Record aiOut := mkOut {
  o_stage : stage; o_ident : string; o_team : string; o_subject : string; o_issuer : string; o_path : string; o_status : string
}.

(** [verdictOf]. *)
Definition verdictOf (st : Z) : Z :=
  if st =? errSecCSUnsigned then ProofUnsigned else if st =? errSecCSReqFailed then ProofUnmet else ProofInvalid.

Section Codesign.
Context (D : ∀ A, dquestion A → list devent → A).

(** [ai_status]. *)
Definition ai_status (st : Z) (outlen : nat) : Hist devent string :=
  m ← ask D (SecCopyErrorMessage st);
  match m with
  | None => mret ("OSStatus " +:+ itoa st)
  | Some (ref, text) => _ ← ask D (CFRelease ref); mret (cfstring (Some text) outlen)
  end.

(** A failing way out of [ai_verify]: every buffer but the status is empty. *)
Definition ai_fail (s : stage) (st : Z) : Hist devent (Z * aiOut) :=
  text ← ai_status st 512;
  mret (st, mkOut s "" "" "" "" "" text).

(** A summary, copied into a buffer of 512 bytes and released. *)
Definition summary (cert : Z) : Hist devent string :=
  s ← ask D (CertificateSummary cert);
  match s with
  | None => mret ""
  | Some (ref, text) => _ ← ask D (CFRelease ref); mret (cfstring (Some text) 512)
  end.

(** What the validated signature says: identifier, team, subject and issuer. *)
Definition signingInformation (code : Z) : Hist devent (string * string * string * string) :=
  '(st, info) ← ask D (SecCodeCopySigningInformation code);
  match info with
  | Some info =>
      if st =? 0 then
        ident ← ask D (InfoIdentifier info);
        team ← ask D (InfoTeam info);
        certs ← ask D (InfoCertificates info);
        '(subject, issuer) ← match certs with
                             | Some (leaf :: more) =>
                                 subject ← summary leaf;
                                 issuer ← match more with ca :: _ => summary ca | [] => mret "" end;
                                 mret (subject, issuer)
                             | _ => mret ("", "")
                             end;
        _ ← ask D (CFRelease info);
        mret (cfstring ident 256, cfstring team 64, subject, issuer)
      else mret ("", "", "", "")
  | None => mret ("", "", "", "")
  end.

Definition codePath (code : Z) : Hist devent string :=
  '(st, url) ← ask D (SecCodeCopyPath code);
  match url with
  | Some url =>
      if st =? 0 then
        p ← ask D (URLFileSystemPath url);
        path ← match p with
               | None => mret ""
               | Some (ref, text) => _ ← ask D (CFRelease ref); mret (cfstring (Some text) 1024)
               end;
        _ ← ask D (CFRelease url);
        mret path
      else mret ""
  | None => mret ""
  end.

(** From the verification on. *)
Definition ai_check (code : Z) (req : option Z) : Hist devent (Z * aiOut) :=
  st ← ask D (SecCodeCheckValidity code req);
  _ ← match req with Some r => ask D (CFRelease r) | None => mret tt end;
  text ← ai_status st 512;
  if negb (st =? 0) then
    _ ← ask D (CFRelease code);
    mret (st, mkOut stageValidity "" "" "" "" "" text)
  else
    '(ident, team, subject, issuer) ← signingInformation code;
    path ← codePath code;
    _ ← ask D (CFRelease code);
    mret (0, mkOut stageValid ident team subject issuer path "valid").

(** The requirement, compiled when there is one, and the verification. *)
Definition ai_require (code : Z) (requirement : option string) : Hist devent (Z * aiOut) :=
  match requirement with
  | None | Some EmptyString => ai_check code None
  | Some text =>
      rs ← ask D (CFStringCreate text);
      match rs with
      | None => _ ← ask D (CFRelease code); ai_fail stageRequirement errSecAllocate
      | Some rs =>
          '(st, req) ← ask D (SecRequirementCreate rs);
          _ ← ask D (CFRelease rs);
          if negb (st =? 0) then _ ← ask D (CFRelease code); ai_fail stageRequirement st
          else ai_check code req
      end
  end.

(** [ai_verify]. *)
Definition ai_verify (token : auditToken) (requirement : option string) : Hist devent (Z * aiOut) :=
  data ← ask D (CFDataCreate token);
  match data with
  | None => ai_fail stageGuest errSecAllocate
  | Some data =>
      attrs ← ask D (CFDictionaryCreate data);
      _ ← ask D (CFRelease data);
      match attrs with
      | None => ai_fail stageGuest errSecAllocate
      | Some attrs =>
          '(st, code) ← ask D (SecCodeCopyGuest attrs);
          _ ← ask D (CFRelease attrs);
          match code with
          | Some code => if negb (st =? 0) then ai_fail stageGuest st else ai_require code requirement
          | None => ai_fail stageGuest st
          end
      end
  end.

(** The Go side's reading of what [ai_verify] left. *)
Definition signedCode (o : aiOut) : Code :=
  let status := if String.eqb (o_status o) "" then "no verdict" else o_status o in
  mkCode (o_subject o) (o_issuer o) (bool_decide (o_stage o = stageValid)) status false "" "" (o_team o).

Definition verdictFrom (requirement : string) (quoted : string → string) (st : Z) (o : aiOut) : Code * Z * string * string * option err :=
  let code := signedCode o in
  match o_stage o with
  | stageGuest => (code, ProofNone, "", "", Some (Plain (Status code)))
  | stageRequirement =>
      (code, ProofNone, "", "",
       Some (Plain ("the code requirement " +:+ quoted requirement +:+ " is the service's own and could not be compiled: " +:+ Status code)))
  | stageValidity => (code, verdictOf st, "", "", None)
  | stageValid =>
      let code := if String.eqb (Subject code) "" && negb (String.eqb (TeamID code) "")
                  then mkCode ("team " +:+ TeamID code) (Issuer code) (Trusted code) (Status code) (Catalog code) (Description code)
                         (OriginalName code) (TeamID code)
                  else code in
      (code, ProofBound, o_ident o, o_path o, None)
  end.

(** [verifyAuditToken]. *)
Definition verifyAuditToken (quoted : string → string) (token : auditToken) (opts : option Options) :
    Hist devent (Code * Z * string * string * option err) :=
  let r := codeRequirement opts in
  if String.eqb r "" then
    '(st, o) ← ai_verify token None;
    mret (verdictFrom r quoted st o)
  else
    p ← ask D (CStringOf r);
    '(st, o) ← ai_verify token (Some (cText r));
    _ ← ask D (CFree p);
    mret (verdictFrom r quoted st o).
End Codesign.

(** ** The framework's side *)

(** What the documentation of the framework says of its out parameters: a call that
    fails leaves none, and a requirement that compiles is one. *)
Class SecurityFramework (D : ∀ A, dquestion A → list devent → A) : Prop := {
  guest_failed h attrs st r : D _ (SecCodeCopyGuest attrs) h = (st, r) → st ≠ 0 → r = None;
  requirement_given h rs st r : D _ (SecRequirementCreate rs) h = (st, r) → (st = 0 ↔ is_Some r);
  information_failed h code st r : D _ (SecCodeCopySigningInformation code) h = (st, r) → st ≠ 0 → r = None;
  path_failed h code st r : D _ (SecCodeCopyPath code) h = (st, r) → st ≠ 0 → r = None
}.

(** A read of what a signature says. *)
Definition reads_signature (e : devent) : bool :=
  match e with
  | Dv q _ =>
      match q with
      | SecCodeCopySigningInformation _ | SecCodeCopyPath _ | InfoIdentifier _ | InfoTeam _ | InfoCertificates _ => true
      | _ => false
      end
  end.

Abbreviation silent := (λ e, reads_signature e = false) (only parsing).

(** References that a run leaves with the caller. *)
Abbreviation refs := (balanced ownedD releasedD) (only parsing).

(** A read of the code [code], if of any. *)
Definition reads_of (code : Z) (e : devent) : Prop :=
  match e with
  | Dv q _ => match q with SecCodeCopySigningInformation c | SecCodeCopyPath c => c = code | _ => True end
  end.

(** What the identifier and the path of a verified code were read from. *)
Definition ident_of (code : Z) (ident : string) (post : list devent) : Prop :=
  ident = "" \/ ∃ info s, Dv (SecCodeCopySigningInformation code) (0, Some info) ∈ post /\
    Dv (InfoIdentifier info) (Some s) ∈ post /\ ident = cfstring (Some s) 256.

Definition path_of (code : Z) (path : string) (post : list devent) : Prop :=
  path = "" \/ ∃ url ref s, Dv (SecCodeCopyPath code) (0, Some url) ∈ post /\
    Dv (URLFileSystemPath url) (Some (ref, s)) ∈ post /\ path = cfstring (Some s) 1024.

(** The requirement a caller set, and the object the check was given. *)
Definition requirement_of (requirement : string) (req : option Z) (pre : list devent) : Prop :=
  match req with
  | None => requirement = ""
  | Some r => requirement ≠ "" /\ ∃ rs, Dv (CFStringCreate requirement) (Some rs) ∈ pre /\ Dv (SecRequirementCreate rs) (0, Some r) ∈ pre
  end.

(** The code object is the one the framework gave for [token]. *)
Definition guest_of (token : auditToken) (code : Z) (pre : list devent) : Prop :=
  ∃ data attrs, Dv (CFDataCreate token) (Some data) ∈ pre /\ Dv (CFDictionaryCreate data) (Some attrs) ∈ pre /\
    Dv (SecCodeCopyGuest attrs) (0, Some code) ∈ pre.

(** What a check of [code] leaves: its status decides, and nothing was read of the
    signature before it, nor after one that failed. *)
Definition checked (code : Z) (req : option Z) (st : Z) (o : aiOut) (new : list devent) : Prop :=
  ∃ post, new = Dv (SecCodeCheckValidity code req) st :: post /\ Forall (reads_of code) post /\
    if st =? 0 then o_stage o = stageValid /\ ident_of code (o_ident o) post /\ path_of code (o_path o) post
    else Forall silent post /\ o = mkOut stageValidity "" "" "" "" "" (o_status o).

Lemma silent_reads code new : Forall silent new → Forall (reads_of code) new.
Proof. intros H. eapply Forall_impl; [exact H|]. intros [A q a]. by destruct q. Qed.

(** References of a run whose events are at hand. *)
Ltac refs_even :=
  unfold balanced in *; rewrite ?bind_app; cbn in *;
  repeat match goal with H : (_ ≫= ownedD) ≡ₚ _ |- _ => rewrite H; clear H end; solve_Permutation.

Set Default Proof Using "Type*".

Section Facts.
Context (D : ∀ A, dquestion A → list devent → A).

Lemma ai_status_spec st len h : adds (ai_status D st len) (λ _ new, Forall silent new /\ refs [] new) h.
Proof.
  unfold ai_status. ask_step. destruct (D _ (SecCopyErrorMessage st) _) as [[ref text]|]; [ask_step; adds_step|adds_step];
    (split; [all_events|refs_even]).
Qed.

(** A failing way out after [new]. *)
Lemma ai_fail_spec s st h :
  adds (ai_fail D s st) (λ r new, Forall silent new /\ refs [] new /\ r.1 = st /\ r.2 = mkOut s "" "" "" "" "" (o_status r.2)) h.
Proof.
  unfold ai_fail. adds_step. eapply adds_mono; [|apply ai_status_spec]. intros text new [Hs Hr]. adds_step. by rewrite app_nil_r.
Qed.

Lemma summary_spec cert h : adds (summary D cert) (λ _ new, Forall silent new /\ refs [] new) h.
Proof.
  unfold summary. ask_step. destruct (D _ (CertificateSummary cert) _) as [[ref text]|]; [ask_step; adds_step|adds_step];
    (split; [all_events|refs_even]).
Qed.

Context `{!SecurityFramework D}.

Lemma signingInformation_spec code h :
  adds (signingInformation D code) (λ r new, Forall (reads_of code) new /\ refs [] new /\ ident_of code r.1.1.1 new) h.
Proof.
  unfold signingInformation. ask_step. destruct (D _ (SecCodeCopySigningInformation code) _) as [st info] eqn:E.
  pose proof (information_failed _ _ _ _ E) as Hf. destruct info as [info|]; [|adds_step; split_and!; [all_events|refs_even|by left]].
  destruct (st =? 0) eqn:Est; to_prop; [subst st|by specialize (Hf Est)]. clear Hf.
  do 3 ask_step. set (ident := D _ (InfoIdentifier info) _). set (team := D _ (InfoTeam info) _). set (certs := D _ (InfoCertificates info) _).
  adds_step. apply (adds_mono _ (λ _ new, Forall silent new /\ refs [] new)).
  - intros [subject issuer] new [Hs Hr]. ask_step. adds_step. split_and!.
    + all_events. by apply silent_reads.
    + refs_even.
    + cbn. destruct ident as [s|] eqn:Ei; [|by left]. right. exists info, s. split_and!; [by left|right; by left|done].
  - destruct certs as [[|leaf more]|]; [adds_step; split; [all_events|refs_even]| |adds_step; split; [all_events|refs_even]].
    adds_step. eapply adds_mono; [|apply summary_spec]. intros subject n1 [Hs1 Hr1]. adds_step. destruct more as [|ca more].
    + repeat adds_step. rewrite !app_nil_r. done.
    + eapply adds_mono; [|apply summary_spec]. intros issuer n2 [Hs2 Hr2]. adds_step. rewrite app_nil_r. split; [all_events|refs_even].
Qed.

Lemma codePath_spec code h :
  adds (codePath D code) (λ path new, Forall (reads_of code) new /\ refs [] new /\ path_of code path new) h.
Proof.
  unfold codePath. ask_step. destruct (D _ (SecCodeCopyPath code) _) as [st url] eqn:E.
  pose proof (path_failed _ _ _ _ E) as Hf. destruct url as [url|]; [|adds_step; split_and!; [all_events|refs_even|by left]].
  destruct (st =? 0) eqn:Est; to_prop; [subst st|by specialize (Hf Est)]. clear Hf.
  ask_step. destruct (D _ (URLFileSystemPath url) _) as [[ref text]|].
  - adds_step. ask_step. adds_step. ask_step. adds_step. split_and!; [all_events|refs_even|]. right. exists url, ref, text.
    split_and!; [by left|right; by left|done].
  - repeat adds_step. apply adds_ask. adds_step. split_and!; [all_events|refs_even|by left].
Qed.

Lemma ai_check_spec code req h :
  adds (ai_check D code req)
    (λ r new, (inl code :: (inl <$> option_list req)) ++ (new ≫= ownedD) ≡ₚ (new ≫= releasedD) /\ checked code req r.1 r.2 new) h.
Proof.
  unfold ai_check. ask_step. generalize (D _ (SecCodeCheckValidity code req) h). intros st. adds_step.
  apply (adds_mono _ (λ _ new, Forall silent new /\ (inl <$> option_list req) ++ (new ≫= ownedD) ≡ₚ (new ≫= releasedD))).
  2: { destruct req as [r|]; [apply adds_ask|adds_step]; (split; [all_events|done]). }
  intros _ n1 [Hs1 Hr1]. adds_step. eapply adds_mono; [|apply ai_status_spec]. intros text n2 [Hs2 Hr2].
  destruct (st =? 0) eqn:Est; cbn [negb].
  - to_prop. subst st. adds_step. eapply adds_mono; [|apply signingInformation_spec]. intros [[[ident team] subject] issuer] n3 (Ha3 & Hr3 & Hi).
    adds_step. eapply adds_mono; [|apply codePath_spec]. intros path n4 (Ha4 & Hr4 & Hp). ask_step. adds_step. split.
    + unfold balanced in *. rewrite !bind_app. cbn in *. rewrite Hr2, Hr3, Hr4, <- Hr1. solve_Permutation.
    + eexists. split; [reflexivity|]. split; [all_events; by apply silent_reads|]. cbn in *. split_and!; [done|..].
      * destruct Hi as [->|(info & s & H1 & H2 & ->)]; [by left|]. right. exists info, s. rewrite !elem_of_app. naive_solver.
      * destruct Hp as [->|(url & ref & s & H1 & H2 & ->)]; [by left|]. right. exists url, ref, s. rewrite !elem_of_app. naive_solver.
  - ask_step. adds_step. split.
    + unfold balanced in *. rewrite !bind_app. cbn in *. rewrite Hr2, <- Hr1. solve_Permutation.
    + eexists. split; [reflexivity|]. split; [all_events; by apply silent_reads|]. cbn [fst]. rewrite Est. split; [all_events|done].
Qed.
End Facts.

(** ** The whole verification *)

(** What a run of [ai_verify] with the code object [code] rests on. *)
Definition required (code : Z) (requirement : string) (r : Z * aiOut) (new : list devent) : Prop :=
  match o_stage r.2 with
  | stageGuest => False
  | stageRequirement => Forall silent new /\ r.2 = mkOut stageRequirement "" "" "" "" "" (o_status r.2)
  | stageValidity | stageValid =>
      ∃ req pre post, new = pre ++ post /\ Forall silent pre /\ requirement_of requirement req pre /\ checked code req r.1 r.2 post
  end.

Definition verified (token : auditToken) (requirement : string) (r : Z * aiOut) (new : list devent) : Prop :=
  match o_stage r.2 with
  | stageGuest | stageRequirement => Forall silent new /\ r.2 = mkOut (o_stage r.2) "" "" "" "" "" (o_status r.2)
  | stageValidity | stageValid =>
      ∃ code req pre post, new = pre ++ post /\ Forall silent pre /\ guest_of token code pre /\ requirement_of requirement req pre /\
        checked code req r.1 r.2 post
  end.

Section Whole.
Context (D : ∀ A, dquestion A → list devent → A) `{!SecurityFramework D}.

Lemma checked_stage code req st o new : checked code req st o new → o_stage o = if st =? 0 then stageValid else stageValidity.
Proof. clear. intros (post & _ & _ & H). destruct (st =? 0); [apply H|]. by destruct H as [_ ->]. Qed.

Lemma required_checked code requirement req pre r post :
  Forall silent pre → requirement_of requirement req pre → checked code req r.1 r.2 post → required code requirement r (pre ++ post).
Proof.
  clear. intros Hs Hr Hc. pose proof (checked_stage _ _ _ _ _ Hc) as Hst. unfold required. rewrite Hst.
  destruct (r.1 =? 0); by exists req, pre, post.
Qed.

Lemma ai_require_spec code requirement h :
  adds (ai_require D code requirement)
    (λ r new, inl code :: (new ≫= ownedD) ≡ₚ (new ≫= releasedD) /\ required code (default "" requirement) r new) h.
Proof.
  unfold ai_require. destruct requirement as [[|c s]|]; cbn [default]; [| |].
  1, 3: eapply adds_mono; [|apply ai_check_spec; done]; intros r new [Hr Hc]; split; [done|]; by apply (required_checked _ _ None []).
  set (text := String c s). ask_step. destruct (D _ (CFStringCreate text) _) as [rs|] eqn:Ers.
  - ask_step. destruct (D _ (SecRequirementCreate rs) _) as [st req] eqn:Ereq. pose proof (requirement_given _ _ _ _ Ereq) as Hg.
    ask_step. destruct (st =? 0) eqn:Est; cbn [negb]; to_prop.
    + subst st. eapply adds_mono; [|apply ai_check_spec; done]. intros r new [Hr Hc].
      destruct req as [q|]; [|by destruct (proj1 Hg eq_refl) as [? [=]]]. split.
      * rewrite !bind_app. cbn in *. rewrite <- Hr. solve_Permutation.
      * apply (required_checked _ _ (Some q) [_; _; _]); [all_events| |done]. split; [done|]. exists rs. split; [by left|right; by left].
    + destruct req as [q|]; [destruct Est; by apply Hg|].
      ask_step. eapply adds_mono; [|apply ai_fail_spec]. intros r new (Hs & Hr & _ & Ho). split.
      * unfold balanced in *. rewrite !bind_app. cbn in *. rewrite Hr. solve_Permutation.
      * unfold required. rewrite Ho. cbn [o_stage]. split; [all_events|done].
  - ask_step. eapply adds_mono; [|apply ai_fail_spec]. intros r new (Hs & Hr & _ & Ho). split.
    * unfold balanced in *. rewrite !bind_app. cbn in *. rewrite Hr. solve_Permutation.
    * unfold required. rewrite Ho. cbn [o_stage]. split; [all_events|done].
Qed.

Lemma fail_verified token requirement st pre h :
  Forall silent pre → refs [] pre →
  adds (ai_fail D stageGuest st) (λ r new, refs [] (pre ++ new) /\ verified token requirement r (pre ++ new)) h.
Proof.
  intros Hs Hp. eapply adds_mono; [|apply ai_fail_spec]. intros r new (Hn & Hr & _ & Ho). split; [by apply balanced_then|].
  unfold verified. rewrite Ho. cbn [o_stage]. split; [all_events|done].
Qed.

Lemma verified_before token code requirement before r new :
  Forall silent before → guest_of token code before → required code requirement r new → verified token requirement r (before ++ new).
Proof.
  clear. intros Hb (d & a & H1 & H2 & H3) Hq. unfold required in Hq. unfold verified.
  assert ((∃ req pre post, new = pre ++ post /\ Forall silent pre /\ requirement_of requirement req pre /\ checked code req r.1 r.2 post) →
    ∃ code req pre post, before ++ new = pre ++ post /\ Forall silent pre /\ guest_of token code pre /\ requirement_of requirement req pre /\
      checked code req r.1 r.2 post) as Hgoal.
  { intros (req & pre & post & -> & Hs & Hreq & Hc). exists code, req, (before ++ pre), post.
    split; [by rewrite <- app_assoc|]. split; [all_events|]. split; [|split; [|done]].
    - exists d, a. rewrite !elem_of_app. auto.
    - destruct req; [|done]. destruct Hreq as (Hn & rs & Hr1 & Hr2). split; [done|]. exists rs. rewrite !elem_of_app. auto. }
  destruct (o_stage r.2); [done| |by apply Hgoal|by apply Hgoal]. destruct Hq as [Hs ->]. split; [all_events|done].
Qed.

Lemma ai_verify_spec token requirement h :
  adds (ai_verify D token requirement) (λ r new, refs [] new /\ verified token (default "" requirement) r new) h.
Proof.
  unfold ai_verify. ask_step. destruct (D _ (CFDataCreate token) _) as [data|]; [|apply fail_verified; [all_events|refs_even]].
  do 2 ask_step. destruct (D _ (CFDictionaryCreate data) _) as [attrs|]; [|eapply (fail_verified _ _ _ [_; _; _]); [all_events|refs_even]].
  ask_step. destruct (D _ (SecCodeCopyGuest attrs) _) as [st code] eqn:Eg. pose proof (guest_failed _ _ _ _ Eg) as Hf. ask_step.
  destruct code as [code|]; [destruct (st =? 0) eqn:Est; cbn [negb]; to_prop; [subst st|by specialize (Hf Est)]|].
  - eapply adds_mono; [|apply ai_require_spec; done]. intros r new [Hr Hq]. split.
    + unfold balanced. rewrite !bind_app. cbn in *. rewrite <- Hr. solve_Permutation.
    + eapply (verified_before _ code _ [_; _; _; _; _]); [all_events| |exact Hq].
      exists data, attrs. split_and!; [by left|right; by left|do 3 right; by left].
  - eapply (fail_verified _ _ _ [_; _; _; _; _]); [all_events|refs_even].
Qed.
End Whole.

(** What a verdict of [verifyAuditToken] rests on. *)
Definition verdict_said (token : auditToken) (requirement : string) (r : Code * Z * string * string * option err) (new : list devent) : Prop :=
  let '(code, verdict, ident, path, e) := r in
  match e with
  | Some _ => verdict = ProofNone /\ Trusted code = false /\ Forall silent new
  | None =>
      ∃ c req pre st post, new = pre ++ Dv (SecCodeCheckValidity c req) st :: post /\ Forall silent pre /\ guest_of token c pre /\
        requirement_of requirement req pre /\ Forall (reads_of c) post /\
        if st =? 0 then verdict = ProofBound /\ Trusted code = true /\ ident_of c ident post /\ path_of c path post
        else verdict = verdictOf st /\ Trusted code = false /\ ident = "" /\ path = "" /\ Subject code = "" /\ TeamID code = "" /\
             Forall silent post
  end.

Section Whole.
Context (D : ∀ A, dquestion A → list devent → A) `{!SecurityFramework D} (quoted : string → string).

Lemma verdictFrom_said requirement text token st o new :
  verified token requirement (st, o) new → verdict_said token requirement (verdictFrom text quoted st o) new.
Proof.
  clear. unfold verified, verdictFrom, verdict_said. cbn [fst snd]. destruct (o_stage o) eqn:Es.
  1, 2: intros [Hs Ho]; split_and!; [done|unfold signedCode; by rewrite Es|done].
  all: intros (c & req & pre & post & -> & Hs & Hg & Hr & Hc); pose proof (checked_stage _ _ _ _ _ Hc) as Hst; rewrite Es in Hst;
    destruct (st =? 0) eqn:Est; try done; destruct Hc as (post' & -> & Ha & Ho); rewrite Est in Ho;
    exists c, req, pre, st, post'; split_and!; try done; rewrite Est.
  - destruct Ho as [Hsil ->]. split_and!; done.
  - destruct Ho as (_ & Hi & Hp). split_and!; [done| |done|done]. unfold signedCode. cbn. rewrite Es. by destruct (_ && _).
Qed.

Lemma verdict_said_within token requirement r a new b :
  Forall silent a → Forall silent b → verdict_said token requirement r new → verdict_said token requirement r (a ++ new ++ b).
Proof.
  clear. intros Ha Hb. destruct r as [[[[code verdict] ident] path] [e|]]; cbn.
  { intros (? & ? & ?). split_and!; [done|done|all_events]. }
  intros (c & req & pre & st & post & -> & Hs & (d & x & H1 & H2 & H3) & Hr & Hp & Ho).
  exists c, req, (a ++ pre), st, (post ++ b). split; [by rewrite <- !app_assoc|]. split; [all_events|]. split; [|split; [|split]].
  - exists d, x. rewrite !elem_of_app. auto.
  - destruct req; [|done]. destruct Hr as (Hn & rs & ? & ?). split; [done|]. exists rs. rewrite !elem_of_app. auto.
  - apply Forall_app. split; [done|by apply silent_reads].
  - destruct (st =? 0).
    + destruct Ho as (? & ? & Hi & Hq). split_and!; [done|done|..].
      * destruct Hi as [->|(i & s & ? & ? & ->)]; [by left|]. right. exists i, s. rewrite !elem_of_app. auto.
      * destruct Hq as [->|(i & s & y & ? & ? & ->)]; [by left|]. right. exists i, s, y. rewrite !elem_of_app. auto.
    + destruct Ho as (? & ? & ? & ? & ? & ? & ?). split_and!; try done. all_events.
Qed.

Lemma verifyAuditToken_spec token opts h :
  adds (verifyAuditToken D quoted token opts) (λ r new, refs [] new /\ verdict_said token (cText (codeRequirement opts)) r new) h.
Proof.
  unfold verifyAuditToken. destruct (String.eqb (codeRequirement opts) "") eqn:Er.
  - apply String.eqb_eq in Er. adds_step. eapply adds_mono; [|apply ai_verify_spec; done]. intros [st o] new [Hr Hv]. adds_step.
    rewrite app_nil_r. split; [done|]. rewrite Er. by apply verdictFrom_said.
  - ask_step. adds_step. eapply adds_mono; [|apply ai_verify_spec; done]. intros [st o] new [Hr Hv]. ask_step. adds_step. split.
    + refs_even.
    + apply verdict_said_within; [all_events|all_events|]. by apply verdictFrom_said.
Qed.
End Whole.

(** C text ends at the first NUL; without one it is the whole. *)
Lemma cText_whole s : Ascii.zero ∉ String.list_ascii_of_string s → cText s = s.
Proof.
  induction s as [|c s IH]; [done|]. cbn. intros [Hc Hs]%not_elem_of_cons. rewrite bool_decide_false by done. by rewrite IH.
Qed.

(** C21: a verdict on running code is the framework's. [verifyAuditToken] hands the
    framework the whole token, checks the very code object it gave for it, and reads
    nothing of a signature before that check or after one that failed. Accepted code
    means the check said so, and its identifier and path were read from that object
    afterwards; a refusal is on one of the three rungs below and carries no name; an
    error is no verdict. The check is against the requirement the service set when that
    holds no NUL byte. One that does is handed over as a C string: the check is against
    the part before the NUL, and against no requirement at all when it begins with one.
    Every object and string made on the way is released, on every path. *)
Theorem codesign_verdict_evidence D `{!SecurityFramework D} quoted token opts h :
  let requirement := codeRequirement opts in
  adds (verifyAuditToken D quoted token opts)
    (λ r new, refs [] new /\
       (Ascii.zero ∉ String.list_ascii_of_string requirement → verdict_said token requirement r new) /\
       (∀ before after, requirement = before +:+ String Ascii.zero after → Ascii.zero ∉ String.list_ascii_of_string before →
          verdict_said token before r new)) h.
Proof.
  cbn zeta. eapply adds_mono; [|by apply verifyAuditToken_spec]. intros r new [Hr Hv]. split; [done|]. split.
  - intros Hn. by rewrite cText_whole in Hv.
  - intros before after Hreq Hn. rewrite Hreq in Hv. assert (cText (before +:+ String Ascii.zero after) = before) as Hc; [|by rewrite Hc in Hv].
    clear -Hn. induction before as [|c before IH]; [done|]. cbn in Hn. apply not_elem_of_cons in Hn as [Hc Hn].
    change ((if bool_decide (c = Ascii.zero) then EmptyString else String c (cText (before +:+ String Ascii.zero after))) = String c before).
    rewrite bool_decide_false by done. by rewrite IH.
Qed.

(** Valid code of one certificate at [/Applications/A.app]. *)
Definition exampleFramework : ∀ A, dquestion A → list devent → A := λ A q h,
  match q in dquestion A return A with
  | Getsockname _ => Ok (Some "/run/s")
  | Getpeername _ => Ok (Some "")
  | LocalPeerCred _ => Ok (mkXucred 0 501 1 [20])
  | LocalPeerToken _ => (0, [501; 501; 20; 501; 20; 42; 100; 7], 32)
  | LocalPeerPID _ => Ok 42
  | KinfoProc _ => Ok (42, 1, 0)
  | Procargs _ => Ok (map zb [1; 0; 0; 0; 47; 97; 0])
  | Clock => 9 * second
  | CStringOf _ => 1
  | CFree _ => tt
  | CFDataCreate _ => Some 10
  | CFDictionaryCreate _ => Some 11
  | SecCodeCopyGuest _ => (0, Some 12)
  | CFStringCreate _ => Some 13
  | SecRequirementCreate _ => (0, Some 14)
  | SecCodeCheckValidity _ _ => 0
  | SecCopyErrorMessage _ => Some (15, "No error.")
  | SecCodeCopySigningInformation _ => (0, Some 16)
  | InfoIdentifier _ => Some "org.example.a"
  | InfoTeam _ => Some "TEAM"
  | InfoCertificates _ => Some [17]
  | CertificateSummary _ => Some (18, "Developer ID: Example")
  | SecCodeCopyPath _ => (0, Some 19)
  | URLFileSystemPath _ => Some (20, "/Applications/A.app")
  | CFRelease _ => tt
  end.

#[global] Instance exampleFramework_ok : SecurityFramework exampleFramework.
Proof. split; cbn; intros ???? [= <- <-]; try done. Defined.

(** The code is accepted under its own requirement. *)
Definition exampleVerdict : (Code * Z * string * string * option err) * list devent :=
  verifyAuditToken exampleFramework id [501; 501; 20; 501; 20; 42; 100; 7] (Some (mkOptions zeroTime false false "anchor apple generic")) [].

Lemma codesign_verdict_evidence_witness :
  exampleVerdict.1 = (mkCode "Developer ID: Example" "" true "valid" false "" "" "TEAM", ProofBound, "org.example.a", "/Applications/A.app", None) /\
  refs [] exampleVerdict.2.
Proof.
  split; [vm_compute; reflexivity|].
  destruct (codesign_verdict_evidence exampleFramework id [501; 501; 20; 501; 20; 42; 100; 7]
    (Some (mkOptions zeroTime false false "anchor apple generic")) []) as (new & Hh & Hr & _). unfold exampleVerdict. rewrite Hh. exact Hr.
Defined.

(** A requirement that begins with a NUL byte is not enforced: the check is given none. *)
Example requirement_after_nul_is_dropped :
  Dv (SecCodeCheckValidity 12 None) 0 ∈
    (verifyAuditToken exampleFramework id [] (Some (mkOptions zeroTime false false (String Ascii.zero "anchor apple"))) []).2.
Proof. vm_compute. repeat first [by left | right]. Qed.
