(* ===== verification/IdentityDarwin.v ===== *)
(** identity_darwin.go, bind_darwin.go, codesign_nocgo_darwin.go, and the refusals of
    loopback_darwin.go and unixserver_darwin.go: the peer of an accepted AF_UNIX socket
    on macOS, its binding, and the ceiling of what this platform proves there.

    [cgo] says how the program was built: without it there is no Security framework. *)

From S2P Require Import Prelude GoStrings GoError GoBinary ProofLadder Peer Binding Events DarwinOS CodesignDarwin.

Definition whyPeerCredDarwin : string :=
  "uid and gid are the credentials the kernel copied into the socket at connect(2) (LOCAL_PEERCRED); the peer never spoke them and cannot influence them".
Definition whySocketBinding : string :=
  "resolved from the peer socket's current owner (LOCAL_PEERPID / LOCAL_PEERTOKEN are looked up when asked, not stamped at connect), cross-checked against the connect-time credentials and refused if the process started after the connection; that excludes pid reuse and any program spawned after the connection, but not a process that already existed and was handed the socket, which is measured and defeats it - see CONTRACT.md and Bind".
Definition whyNoXPC : string :=
  "ProofSigned needs an audit token the kernel stamped on the message itself, which exists on XPC and not on a unix socket; over a socket the signature is verified against a process the socket only points at - see CONTRACT.md".
Definition whyNoSocketBinding : string :=
  "none. LOCAL_PEERTOKEN is resolved from the peer socket's most recent writer, not stamped at connect, so no primitive on this transport names the process that opened the connection. Bind takes the token on the line after accept and refuses every later change, which narrows the measured defeat (a pre-forked helper exec'ing /bin/cat, believed every time) to a race the attacker must win against the service's next syscall - a narrowing, not a binding".
Definition whyXPCIsStronger : string :=
  "XPC: xpc_connection_get_audit_token returns the token the kernel stamped on the sending task in the mach message trailer. It cannot follow a later writer and its pidversion changes on execve, which makes Code reach ProofSigned. This package speaks sockets and does not reach it".
Definition whyNoCgo : string :=
  "this binary was built with CGO_ENABLED=0, and verifying a code signature needs the Security framework; rebuild with cgo enabled to get a code identity on macOS at all".

(** [codeCeiling], of both builds. *)
Definition codeCeiling (cgo : bool) : Z * string :=
  if cgo
  then (ProofBound, "the Security framework validates the signature of running code selected by audit token, which is more than Windows can do for an unpackaged program - but over a unix socket the token only names the process the socket currently points at, so the answer is worth what that binding is worth; " +:+ whyNoXPC)
  else (ProofNone, whyNoCgo).

(** [ceiling]. *)
Definition ceiling (cgo : bool) : Limits :=
  let '(codeBest, codeWhy) := codeCeiling cgo in
  let pkg := codeBest in
  let pkgWhy := if codeBest =? ProofNone then codeWhy
                else "the bundle identifier comes out of the same validated signature as Code and is worth exactly as much" in
  let codeBest := if ProofPID <? codeBest then ProofPID else codeBest in
  let pkg := if ProofPID <? pkg then ProofPID else pkg in
  mkLimits "darwin" (mkNeed ProofKernel ProofPID ProofPID pkg codeBest)
    (list_to_map [("user", whyPeerCredDarwin); ("process", whySocketBinding); ("path", whySocketBinding);
                  ("package", pkgWhy +:+ "; " +:+ whySocketBinding); ("code", codeWhy +:+ "; " +:+ whyNoXPC)])
    "unix" false whyNoSocketBinding whyXPCIsStronger.

(** [loopbackCeiling], [bindLoopback] and [bindUnixServer] of macOS refuse. *)
Definition loopbackDarwinWhy : string :=
  "macOS has no socket-owner record that pins the process behind a loopback TCP connection: per-socket process ids follow the most recent writer, and protected calls keep the recorded identity refusal".
Definition unixServerDarwinWhy : string :=
  "macOS has no record that pins the process listening behind a dialed AF_UNIX socket: LOCAL_PEERPID and LOCAL_PEERTOKEN follow the server socket's most recent writer (ID-M1)".

Definition loopbackCeiling : Limits :=
  mkLimits "darwin" (mkNeed ProofNone ProofNone ProofNone ProofNone ProofNone)
    (list_to_map ((λ k, (k, loopbackDarwinWhy)) <$> ["user"; "process"; "path"; "package"; "code"]))
    "tcp-loopback" false loopbackDarwinWhy "xpc: messages carry an audit token the kernel stamped on the sending task".

Definition bindLoopback : result (unit * Peer) := Err (Wrap loopbackDarwinWhy [Sentinel ErrNoBinding]).
Definition bindUnixServer : result (unit * Peer) := Err (Wrap unixServerDarwinWhy [Sentinel ErrNoBinding]).

Section IdentityDarwin.
Context (cgo : bool) (D : ∀ A, dquestion A → list devent → A).
Context (errText : err → string) (quoted : string → string) (rfc3339Nano : Time → string).

(** [requireAcceptedUnixSocket]. *)
Definition requireAcceptedUnixSocket (fd : Z) : Hist devent (option err) :=
  s ← ask D (Getsockname fd);
  match s with
  | Err e => mret (Some (Wrap ("not a socket (getsockname: " +:+ errText e +:+ ")") [Sentinel ErrUnsupportedConn]))
  | Ok None =>
      mret (Some (Wrap "this is not an AF_UNIX socket; peer credentials do not exist on it, and a loopback TCP peer has no verifiable identity at all"
                    [Sentinel ErrUnsupportedConn]))
  | Ok (Some local) =>
      r ← ask D (Getpeername fd);
      mret (match r with
            | Err (OSErr (EOTHER n)) =>
                if n =? ENOTCONN
                then Some (Wrap "this socket has no peer (getpeername: ENOTCONN); it is the listening socket or an unconnected one, and LOCAL_PEERCRED on it does not describe a caller"
                             [Sentinel ErrNotServerEnd])
                else None
            | Err _ => None
            | Ok (Some peer) =>
                if String.eqb local "" && negb (String.eqb peer "")
                then Some (Wrap "this is the client end of a connection this process made, not an accepted one; LOCAL_PEERCRED on it describes the listening service"
                             [Sentinel ErrNotServerEnd])
                else None
            | Ok None => None
            end)
  end.

(** The peer before anything is resolved. *)
Definition blankPeer (now : Time) : Peer :=
  mkPeer "darwin" "unix" now (unknown "user" "not resolved") (unknown "process" "not resolved") (unknown "path" "not resolved")
    (unknown "package" "not resolved") (unknown "code" "not resolved") [] zeroTime.

(** Path, package and code unknown for one reason, with a note. *)
Definition noImage (p : Peer) (why : string) : Peer :=
  note (set_Code (set_Package (set_Path p (unknown "path" why)) (unknown "package" why)) (unknown "code" why)) ("process: " +:+ why).

(** Nothing about the process may stand. *)
Definition withdraw (p : Peer) (why : string) : Peer := noImage (set_Process p (unknown "process" why)) why.

(** The user of the connect-time credentials. *)
Definition credUser (xu : xucred) : User :=
  posixUser (xu_uid xu) (if 0 <? xu_ngroups xu then nth 0 (xu_groups xu) 0 else -1).

Definition set_AuditSessionID (u : User) (asid : Z) : User :=
  mkUser (Kind u) (SID u) (UName u) (Domain u) (Elevated u) (Integrity u) (IntegrityRID u) (Restricted u) (UID u) (GID u)
    (SecurityContext u) asid.

(** [verifyAuditToken] of this build. *)
Definition verifyToken (token : auditToken) (opts : option Options) : Hist devent (Code * Z * string * string * option err) :=
  if cgo then verifyAuditToken D quoted token opts
  else mret (mkCode "" "" false whyNoCgo false "" "" "", ProofNone, "", "", Some (Plain ("identity: " +:+ whyNoCgo))).

(** Step 4: the code signature, the identifier and the path of the verified code. *)
Definition resolveCode (token : auditToken) (opts : option Options) (p : Peer) : Hist devent (Peer * string) :=
  if skipCodeSignature opts then mret (set_Code p (unknown "code" "signature verification was skipped by the caller"), "")
  else
    '(code, verdict, ident, path, err) ← verifyToken token opts;
    let verdict := Z.min verdict ProofPID in
    mret (match err with
          | Some e => (note (set_Code p (unknown "code" ("verification could not be performed: " +:+ errText e))) ("code: " +:+ errText e), "")
          | None =>
              if verdict <? ProofPID then
                (set_Package (recordCode p code verdict "")
                   (unknown "package" ("nothing is read out of a signature the platform did not accept (" +:+ Status code +:+ ")")), "")
              else
                let p := recordCode p code verdict (whySocketBinding +:+ "; " +:+ whyNoXPC) in
                (set_Package p
                   (if negb (String.eqb ident "")
                    then attr "package" ident ProofPID ("the signing identifier out of the signature the OS validated; " +:+ whySocketBinding)
                    else unknown "package" "the peer's code has no signing identifier"), path)
          end).

(** Step 5: the path. *)
Definition resolvePath (pid : Z) (signedPath : string) (p : Peer) : Hist devent Peer :=
  if negb (String.eqb signedPath "")
  then mret (set_Path p (attr "path" signedPath ProofPID
               ("the path of the code object the signature was verified against; " +:+ whySocketBinding)))
  else
    r ← processExecPath D pid;
    mret (set_Path p
            (match r with
             | Err e => unknown "path" ("the executable path could not be read (kern.procargs2: " +:+ errText e +:+ ")")
             | Ok path => attr "path" path ProofPID
                 ("the path the kernel recorded at exec; a path is a name, not an identity - see CONTRACT.md; " +:+ whySocketBinding)
             end)).

(** Step 6: the owner must not have changed meanwhile. *)
Definition reread (fd : Z) (token : auditToken) (p : Peer) : Hist devent Peer :=
  r ← peerAuditToken D fd;
  let why := "the socket's owner changed while it was being identified; every answer derived from it has been withdrawn" in
  mret (match r with
        | Err _ => withdraw p why
        | Ok again =>
            if negb (token_pid again =? token_pid token) || negb (token_pidversion again =? token_pidversion token)
            then withdraw p why else p
        end).

(** Steps 3 to 6: the process, once the token agrees with the credentials. *)
Definition resolveProcess (fd : Z) (connected : Time) (token : auditToken) (opts : option Options) (p : Peer) : Hist devent Peer :=
  let pid := token_pid token in
  let gen := token_pidversion token in
  s ← processStartTime D pid;
  match s with
  | Err e =>
      let why := "the peer's start time could not be read (" +:+ errText e +:+ "), so it could not be shown to predate the connection" in
      mret (noImage (set_Process p (attr "process" (mkProcess pid zeroTime false gen) ProofPID why)) why)
  | Ok started =>
      if After started connected then
        let why := "the socket now points at a process that started at " +:+ rfc3339Nano started +:+ ", after this connection existed at "
                   +:+ rfc3339Nano connected +:+ "; it is not the peer that connected" in
        mret (noImage (set_Process p (attr "process" (mkProcess pid started true gen) ProofPID why)) why)
      else
        let p := set_Process p (attr "process" (mkProcess pid started false gen) ProofPID whySocketBinding) in
        '(p, signedPath) ← resolveCode token opts p;
        p ← resolvePath pid signedPath p;
        reread fd token p
  end.

(** Step 2: the audit token and the checks on it. *)
Definition resolveToken (fd : Z) (connected : Time) (xu : xucred) (opts : option Options) (p : Peer) : Hist devent Peer :=
  let user := credUser xu in
  t ← peerAuditToken D fd;
  match t with
  | Err e =>
      mret (withdraw (set_User p (attr "user" user ProofKernel whyPeerCredDarwin))
              ("the peer socket has no process behind it any more (LOCAL_PEERTOKEN: " +:+ errText e +:+ ")"))
  | Ok token =>
      let p := set_User p (attr "user" (set_AuditSessionID user (token_asid token)) ProofKernel whyPeerCredDarwin) in
      let pid := token_pid token in
      if negb (token_euid token =? xu_uid xu) then
        mret (withdraw p ("the process the socket now points at runs as uid " +:+ itoa (token_euid token) +:+ ", but the peer that connected was uid "
                +:+ itoa (xu_uid xu) +:+ "; the socket has changed hands and nothing about the process can be reported"))
      else
        r ← ask D (LocalPeerPID fd);
        match r with
        | Ok peerpid =>
            if negb (peerpid =? pid)
            then mret (withdraw p ("the socket's owner changed while it was being identified: LOCAL_PEERPID says " +:+ itoa peerpid
                         +:+ ", the audit token says " +:+ itoa pid))
            else resolveProcess fd connected token opts p
        | Err _ => resolveProcess fd connected token opts p
        end
  end.

(** [ofHandle]. *)
Definition ofHandle (fd : Z) (opts : option Options) : Hist devent (result Peer) :=
  connected ← connectedAtD D opts;
  now ← ask D Clock;
  e ← requireAcceptedUnixSocket fd;
  match e with
  | Some e => mret (Err e)
  | None =>
      x ← ask D (LocalPeerCred fd);
      match x with
      | Err e => mret (Err (Wrap ("LOCAL_PEERCRED: " +:+ errText e) [Sentinel ErrUnsupportedConn]))
      | Ok xu =>
          if negb (xu_version xu =? xucredVersion)
          then mret (Err (Wrap ("LOCAL_PEERCRED returned struct version " +:+ itoa (xu_version xu)
                       +:+ ", not 0; refusing to parse a layout this package does not know") [Sentinel ErrUnsupportedConn]))
          else p ← resolveToken fd connected xu opts (blankPeer now); mret (Ok p)
      end
  end.

(** ** The binding *)

(** [darwinBinding]. *)
Record darwinBinding := mkDB { db_fd : Z; db_token : auditToken }.

(** [darwinBinding.recheck]. *)
Definition db_recheck (b : darwinBinding) : Hist devent (option err) :=
  r ← peerAuditToken D (db_fd b);
  mret (match r with
        | Err _ => None
        | Ok now =>
            if negb (token_pid now =? token_pid (db_token b))
            then Some (Wrap ("pid " +:+ itoa (token_pid now) +:+ " wrote to this socket last; pid " +:+ itoa (token_pid (db_token b)) +:+ " opened it")
                         [Sentinel ErrPeerMoved])
            else if negb (token_pidversion now =? token_pidversion (db_token b))
            then Some (Wrap ("pid " +:+ itoa (token_pid now) +:+ " has exec'd since this connection was accepted (pidversion "
                             +:+ itoa (token_pidversion now) +:+ ", was " +:+ itoa (token_pidversion (db_token b)) +:+ ")") [Sentinel ErrPeerMoved])
            else None
        end).

(** [darwinBinding.alive]. *)
Definition db_alive (b : darwinBinding) : Hist devent (result bool) :=
  r ← peerAuditToken D (db_fd b);
  mret (Ok (match r with
            | Err _ => false
            | Ok now => (token_pid now =? token_pid (db_token b)) && (token_pidversion now =? token_pidversion (db_token b))
            end)).

(** [darwinBinding.release]. *)
Definition db_release (b : darwinBinding) : Hist devent (option err * darwinBinding) := mret (None, b).

(** [bindHandle]. *)
Definition bindHandle (fd : Z) (opts : option Options) : Hist devent (result (darwinBinding * Peer)) :=
  e ← requireAcceptedUnixSocket fd;
  match e with
  | Some e => mret (Err e)
  | None =>
      t ← peerAuditToken D fd;
      match t with
      | Err e => mret (Err (Wrap ("LOCAL_PEERTOKEN: " +:+ errText e) [Sentinel ErrNoBinding]))
      | Ok token =>
          x ← ask D (LocalPeerCred fd);
          match x with
          | Err e => mret (Err (Wrap ("LOCAL_PEERCRED: " +:+ errText e) [Sentinel ErrUnsupportedConn]))
          | Ok xu =>
              if negb (xu_version xu =? xucredVersion)
              then mret (Err (Wrap ("LOCAL_PEERCRED returned struct version " +:+ itoa (xu_version xu) +:+ ", not 0") [Sentinel ErrUnsupportedConn]))
              else if negb (token_euid token =? xu_uid xu)
              then mret (Err (Wrap ("the socket already pointed at uid " +:+ itoa (token_euid token)
                           +:+ " when it was accepted, but the peer that connected was uid " +:+ itoa (xu_uid xu)) [Sentinel ErrPeerMoved]))
              else
                let b := mkDB fd token in
                r ← ofHandle fd opts;
                match r with
                | Err e => mret (Err e)
                | Ok peer =>
                    e ← db_recheck b;
                    mret (match e with Some e => Err e | None => Ok (b, peer) end)
                end
          end
      end
  end.

Definition darwinBinder : binder (darwinBinding * list devent) := histBinder db_recheck db_alive db_release.
End IdentityDarwin.

(** ** What a peer rests on *)

(** Path, package and code are all unknown. *)
Definition no_image (p : Peer) : Prop :=
  attr_proof (PPath p) = ProofNone /\ attr_proof (PPackage p) = ProofNone /\ attr_proof (PCode p) = ProofNone.

(** Nothing is said of the process. *)
Definition no_process (p : Peer) : Prop := attr_proof (PProcess p) = ProofNone /\ no_image p.

(** What code and package rest on; [signed] is the path of the verified code. *)
Definition code_said (token : auditToken) (opts : option Options) (p : Peer) (signed : string) (new : list devent) : Prop :=
  (attr_proof (PCode p) = ProofNone /\ attr_proof (PPackage p) = ProofNone /\ signed = "") \/
  ∃ verdict ident path,
    verdict_said token (cText (codeRequirement opts)) (attr_value (PCode p), verdict, ident, path, None) new /\
    attr_proof (PCode p) = Z.min verdict ProofPID /\
    if ProofPID <=? verdict
    then signed = path /\ (attr_proof (PPackage p) = ProofNone \/ attr_proof (PPackage p) = ProofPID /\ attr_value (PPackage p) = ident)
    else signed = "" /\ attr_proof (PPackage p) = ProofNone.

Definition path_said (pid : Z) (signed : string) (p : Peer) (new : list devent) : Prop :=
  attr_proof (PPath p) = ProofNone \/
  attr_proof (PPath p) = ProofPID /\
    ((signed ≠ "" /\ attr_value (PPath p) = signed) \/
     ∃ buf path, Dv (Procargs pid) (Ok buf) ∈ new /\ beforeNul (drop 4 buf) = Some path /\ path ≠ [] /\
       attr_value (PPath p) = String.string_of_list_byte path).

(** The last thing asked was the token again, and it named the same process image. *)
Definition reread_same (fd : Z) (token : auditToken) (new : list devent) : Prop :=
  ∃ before again, new = before ++ [Dv (LocalPeerToken fd) (0, again, 32)] /\
    token_pid again = token_pid token /\ token_pidversion again = token_pidversion token.

(** A process whose start could not be read, and one younger than the connection: each
    is reported as such and nothing is said of its image. *)
Definition start_unread (token : auditToken) (p : Peer) (new : list devent) : Prop :=
  no_image p /\ attr_value (PProcess p) = mkProcess (token_pid token) zeroTime false (token_pidversion token) /\
  ∃ a, Dv (KinfoProc (token_pid token)) a ∈ new /\ ∀ sec usec, a ≠ Ok (int32 (token_pid token), sec, usec).
Definition too_young (connected : Time) (token : auditToken) (p : Peer) (new : list devent) : Prop :=
  no_image p /\ ∃ sec usec, Dv (KinfoProc (token_pid token)) (Ok (int32 (token_pid token), sec, usec)) ∈ new /\
    connected < sec * second + usec * 1000 /\
    attr_value (PProcess p) = mkProcess (token_pid token) (sec * second + usec * 1000) true (token_pidversion token).

(** What process, path, package and code of the peer of [fd] rest on, once the token
    [token] was read. *)
Definition process_said (fd : Z) (connected : Time) (token : auditToken) (opts : option Options) (p : Peer) (new : list devent) : Prop :=
  no_process p \/
  attr_proof (PProcess p) = ProofPID /\
  (start_unread token p new \/ too_young connected token p new \/
   ∃ sec usec signed a mid b,
     Dv (KinfoProc (token_pid token)) (Ok (int32 (token_pid token), sec, usec)) ∈ new /\
     sec * second + usec * 1000 <= connected /\
     attr_value (PProcess p) = mkProcess (token_pid token) (sec * second + usec * 1000) false (token_pidversion token) /\
     new = a ++ mid ++ b /\ code_said token opts p signed mid /\ path_said (token_pid token) signed p b /\ reread_same fd token new).

Set Default Proof Using "Type".

Section Facts.
Context (cgo : bool) (D : ∀ A, dquestion A → list devent → A).
Context (errText : err → string) (quoted : string → string) (rfc3339Nano : Time → string).

Lemma peerAuditToken_spec fd h :
  adds (peerAuditToken D fd)
    (λ r new, Forall silent new /\ refs [] new /\ ∀ t, r = Ok t → new = [Dv (LocalPeerToken fd) (0, t, 32)]) h.
Proof.
  unfold peerAuditToken. ask_step. destruct (D _ (LocalPeerToken fd) _) as [[errno tok] size]. adds_step.
  split_and!; [all_events|refs_even|]. intros t. destruct (errno =? 0) eqn:E; [|done]. destruct (size =? 32) eqn:E'; [|done]. to_prop.
  cbn. by intros [= ->]; subst.
Qed.

Lemma processStartTime_spec pid h :
  adds (processStartTime D pid)
    (λ r new, refs [] new /\
       match r with
       | Ok t => ∃ sec usec, new = [Dv (KinfoProc pid) (Ok (int32 pid, sec, usec))] /\ t = sec * second + usec * 1000
       | Err _ => ∃ a, new = [Dv (KinfoProc pid) a] /\ ∀ sec usec, a ≠ Ok (int32 pid, sec, usec)
       end) h.
Proof.
  unfold processStartTime. ask_step. destruct (D _ (KinfoProc pid) _) as [[[ppid sec] usec]|e]; adds_step; (split; [refs_even|]).
  - destruct (ppid =? int32 pid) eqn:E; cbn; to_prop; [subst; by exists sec, usec|]. eexists. split; [done|]. by intros ? ? [= ? _ _].
  - by eexists.
Qed.

Lemma processExecPath_spec pid h :
  adds (processExecPath D pid)
    (λ r new, refs [] new /\ ∀ s, r = Ok s → ∃ buf path, new = [Dv (Procargs pid) (Ok buf)] /\ beforeNul (drop 4 buf) = Some path /\
       path ≠ [] /\ s = String.string_of_list_byte path) h.
Proof.
  unfold processExecPath. ask_step. destruct (D _ (Procargs pid) _) as [buf|e]; adds_step; (split; [refs_even|]); [|done].
  intros s. destruct (length buf <? 4)%nat; [done|]. destruct (beforeNul (drop 4 buf)) as [[|b path]|] eqn:E; [done| |done].
  intros [= <-]. exists buf, (b :: path). by split_and!.
Qed.

Lemma mac_resolvePath_spec pid signed p h :
  adds (resolvePath D errText pid signed p)
    (λ q new, refs [] new /\ PUser q = PUser p /\ PProcess q = PProcess p /\ PPackage q = PPackage p /\ PCode q = PCode p /\
       path_said pid signed q new) h.
Proof.
  unfold resolvePath. destruct (String.eqb signed "") eqn:E; cbn [negb].
  - adds_step. eapply adds_mono; [|apply processExecPath_spec]. intros r new [Hr Hp]. adds_step. rewrite app_nil_r.
    split_and!; try done. destruct r as [s|e]; [|by left]. destruct (Hp s eq_refl) as (buf & path & -> & H1 & H2 & ->).
    right. split; [done|]. right. exists buf, path. split_and!; try done. by left.
  - adds_step. split; [refs_even|]. split_and!; try done. right. split; [done|]. left. split; [|done]. intros ->. done.
Qed.

Lemma reread_spec fd token p h :
  adds (reread D fd token p)
    (λ q new, refs [] new /\ PUser q = PUser p /\ (no_process q \/ q = p /\ reread_same fd token new)) h.
Proof.
  unfold reread. adds_step. eapply adds_mono; [|apply peerAuditToken_spec]. intros r new (_ & Hr & Ht). adds_step. rewrite app_nil_r.
  destruct r as [again|e]; [|split_and!; [done|done|by left]].
  destruct (negb (token_pid again =? token_pid token) || negb (token_pidversion again =? token_pidversion token)) eqn:E; (split_and!; [done|done|]);
    [by left|]. right. split; [done|]. rewrite (Ht again eq_refl). apply orb_false_iff in E as [E1%negb_false_iff E2%negb_false_iff]. to_prop.
  by exists [], again.
Qed.

Lemma mac_resolveCode_spec token opts p h : SecurityFramework D → attr_proof (PPackage p) = ProofNone →
  adds (resolveCode cgo D errText quoted token opts p)
    (λ '(q, signed) new, refs [] new /\ PUser q = PUser p /\ PProcess q = PProcess p /\ code_said token opts q signed new) h.
Proof.
  intros HD Hp. unfold resolveCode. destruct (skipCodeSignature opts).
  { adds_step. split; [refs_even|]. split_and!; try done. by left. }
  adds_step. apply (adds_mono _ (λ r new, refs [] new /\ verdict_said token (cText (codeRequirement opts)) r new)).
  - intros [[[[code verdict] ident] path] e] new [Hr Hv]. adds_step. rewrite app_nil_r. destruct e as [e|].
    { split_and!; try done. by left. }
    destruct (Z.min verdict ProofPID <? ProofPID) eqn:El; (split; [done|]); unfold recordCode;
      destruct (ProofPID <=? Z.min verdict ProofPID) eqn:Ep; to_prop; try lia; (split_and!; [done..|]); right; exists verdict, ident, path;
      (split_and!; [done|done|]).
    + rewrite (proj2 (Z.leb_gt _ _)) by lia. done.
    + rewrite (proj2 (Z.leb_le _ _)) by lia. split; [done|]. cbn. destruct (String.eqb ident ""); cbn; [by left|by right].
  - unfold verifyToken. destruct cgo; [by apply verifyAuditToken_spec|]. adds_step. split; [refs_even|]. done.
Qed.

Lemma mac_resolveProcess_spec fd connected token opts p h : SecurityFramework D → no_process p →
  adds (resolveProcess cgo D errText quoted rfc3339Nano fd connected token opts p)
    (λ q new, refs [] new /\ PUser q = PUser p /\ process_said fd connected token opts q new) h.
Proof.
  intros HD (Hpp & Hp1 & Hp2 & Hp3). unfold resolveProcess. adds_step. eapply adds_mono; [|apply processStartTime_spec].
  intros [started|e] n0 [Hr0 H0].
  2: { adds_step. rewrite app_nil_r. split_and!; [done|done|]. destruct H0 as (a & -> & Ha). right. split; [done|]. left. split; [done|]. split; [done|].
       exists a. split; [by left|done]. }
  destruct H0 as (sec & usec & -> & ->). unfold After. destruct (connected <? _) eqn:El; to_prop.
  { adds_step. split_and!; [refs_even|done|]. right. split; [done|]. right; left. split; [done|]. exists sec, usec. split_and!; [by left|lia|done]. }
  adds_step. eapply adds_mono; [|by apply mac_resolveCode_spec]. intros [q1 signed] n1 (Hr1 & Hu1 & Hq1 & Hc).
  cbn [PUser PProcess set_Process] in Hu1, Hq1.
  adds_step. eapply adds_mono; [|apply mac_resolvePath_spec]. intros q2 n2 (Hr2 & Hu2 & Hq2 & Hk2 & Hc2 & Hpath).
  eapply adds_mono; [|apply reread_spec]. intros q3 n3 (Hr3 & Hu3 & H3). split; [refs_even|]. split; [congruence|].
  destruct H3 as [H3|(-> & Hsame)]; [by left|]. right. rewrite Hq2, Hq1. cbn [attr attr_proof attr_value PID Generation].
  split; [done|]. right; right. exists sec, usec, signed, [Dv (KinfoProc (token_pid token)) (Ok (int32 (token_pid token), sec, usec))], n1, (n2 ++ n3).
  split; [by left|]. split; [lia|]. split; [done|]. split; [done|]. split; [|split].
  - unfold code_said in *. rewrite Hk2, Hc2. exact Hc.
  - destruct Hpath as [?|(? & [?|(buf & path & ? & ?)])]; [by left|right; split; [done|by left]|right; split; [done|right]].
    exists buf, path. rewrite elem_of_app. auto.
  - destruct Hsame as (before & again & -> & ?). eexists (_ :: n1 ++ n2 ++ before), again. split; [|done]. cbn. by rewrite <- !app_assoc.
Qed.

Lemma mac_process_said_app fd connected token opts p a b :
  process_said fd connected token opts p b → process_said fd connected token opts p (a ++ b).
Proof.
  clear. intros [H|(H1 & H)]; [by left|]. right. split; [done|]. destruct H as [(? & ? & x & ? & ?)|[(? & sec & usec & ? & ? & ?)|H]].
  { left. split; [done|]. split; [done|]. exists x. rewrite elem_of_app. auto. }
  { right; left. split; [done|]. exists sec, usec. rewrite elem_of_app. auto. }
  right; right.
  destruct H as (sec & usec & signed & x & mid & y & Hk & Hle & Hv & -> & Hc & Hp & before & again & Hb & Hs).
  exists sec, usec, signed, (a ++ x), mid, y. split_and!; try done.
  - apply elem_of_app. by right.
  - by rewrite <- app_assoc.
  - exists (a ++ before), again. split; [|done]. by rewrite Hb, app_assoc.
Qed.

(** User and process. The user is the credentials the kernel copied at connect. When the
    socket still has a token, the audit session in the user is that token's, whoever it
    belongs to by then; and unless the token runs as the user who connected, nothing is
    said of the process. *)
Definition token_said (fd : Z) (connected : Time) (xu : xucred) (opts : option Options) (p : Peer) (new : list devent) : Prop :=
  attr_proof (PUser p) = ProofKernel /\
  ((attr_value (PUser p) = credUser xu /\ no_process p) \/
   ∃ token, Dv (LocalPeerToken fd) (0, token, 32) ∈ new /\
     attr_value (PUser p) = set_AuditSessionID (credUser xu) (token_asid token) /\
     (no_process p \/ token_euid token = xu_uid xu /\ process_said fd connected token opts p new)).

Lemma resolveToken_spec fd connected xu opts p h : SecurityFramework D → no_process p →
  adds (resolveToken cgo D errText quoted rfc3339Nano fd connected xu opts p)
    (λ q new, refs [] new /\ token_said fd connected xu opts q new) h.
Proof.
  intros HD Hn. unfold resolveToken. adds_step. eapply adds_mono; [|apply peerAuditToken_spec]. intros [token|e] n0 (_ & Hr0 & H0).
  2: { adds_step. rewrite app_nil_r. split; [done|]. split; [done|by left]. }
  rewrite (H0 token eq_refl) in *. clear H0. set (p' := set_User p _).
  assert (∀ q new, PUser q = PUser p' → Dv (LocalPeerToken fd) (0, token, 32) ∈ new →
    no_process q \/ token_euid token = xu_uid xu /\ process_said fd connected token opts q new → token_said fd connected xu opts q new) as Hu.
  { intros q new Hq Hin Hp. split; rewrite Hq; [done|]. right. by exists token. }
  destruct (token_euid token =? xu_uid xu) eqn:Ee; cbn [negb]; to_prop.
  2: { adds_step. split; [refs_even|]. apply Hu; [done|by left|by left]. }
  ask_step. set (e := Dv (LocalPeerPID fd) _).
  assert (∀ h, adds (resolveProcess cgo D errText quoted rfc3339Nano fd connected token opts p')
    (λ q new, refs [] ([Dv (LocalPeerToken fd) (0, token, 32)] ++ [e] ++ new) /\
       token_said fd connected xu opts q ([Dv (LocalPeerToken fd) (0, token, 32)] ++ [e] ++ new)) h) as Hrest.
  { intros h'. eapply adds_mono; [|by apply mac_resolveProcess_spec]. intros q new (Hr & Hq & Hs). split.
    - by do 2 (apply then_balanced; [refs_even|]).
    - apply Hu; [done|by left|]. right. split; [done|]. by do 2 apply mac_process_said_app. }
  destruct (D _ (LocalPeerPID fd) _) as [peerpid|e']; [|apply Hrest]. destruct (peerpid =? token_pid token); cbn [negb]; [apply Hrest|].
  adds_step. split; [refs_even|]. apply Hu; [done|by left|by left].
Qed.

(** The socket is one this process accepted: neither listening nor the dialing end. *)
Definition accepted (fd : Z) (new : list devent) : Prop :=
  ∃ local r, Dv (Getsockname fd) (Ok (Some local)) ∈ new /\ Dv (Getpeername fd) r ∈ new /\
    r ≠ Err (OSErr (EOTHER ENOTCONN)) /\ ∀ peer, r = Ok (Some peer) → local = "" → peer = "".

Lemma mac_requireAccepted_spec fd h :
  adds (requireAcceptedUnixSocket D errText fd) (λ e new, refs [] new /\ (e = None → accepted fd new)) h.
Proof.
  unfold requireAcceptedUnixSocket. ask_step. destruct (D _ (Getsockname fd) _) as [[local|]|e]; [|adds_step; split; [refs_even|done]..].
  ask_step. adds_step. split; [refs_even|]. intros Hn. exists local, (D _ (Getpeername fd) (h ++ [Dv (Getsockname fd) (Ok (Some local))])).
  split; [by left|]. split; [right; by left|]. destruct (D _ (Getpeername fd) _) as [[peer|]|e]; split; try done.
  - intros peer' [= <-] ->. cbn in Hn. destruct (String.eqb peer "") eqn:E; [by apply String.eqb_eq|done].
  - intros [= ->]. done.
Qed.

(** When the connection existed: what the caller said, or the clock. *)
Definition connected_said (opts : option Options) (t : Time) (new : list devent) : Prop :=
  match opts with
  | Some o => if IsZero (ConnectedAt o) then Dv Clock t ∈ new else t = ConnectedAt o
  | None => Dv Clock t ∈ new
  end.

Lemma mac_connectedAt_spec opts h : adds (connectedAtD D opts) (λ t new, refs [] new /\ connected_said opts t new) h.
Proof.
  unfold connectedAtD, connected_said. destruct opts as [o|]; [destruct (IsZero (ConnectedAt o))|]; cbn [negb].
  2: { adds_step. split; [refs_even|done]. }
  all: apply adds_ask; split; [refs_even|by left].
Qed.

(** Everything known of a peer [ofHandle] gives. *)
Definition peer_said (fd : Z) (opts : option Options) (p : Peer) (new : list devent) : Prop :=
  accepted fd new /\ ∃ xu connected, Dv (LocalPeerCred fd) (Ok xu) ∈ new /\ xu_version xu = xucredVersion /\ connected_said opts connected new /\
    token_said fd connected xu opts p new.

Lemma peer_said_spec fd opts h : SecurityFramework D →
  adds (ofHandle cgo D errText quoted rfc3339Nano fd opts)
    (λ r new, refs [] new /\ ∀ p, r = Ok p → peer_said fd opts p new) h.
Proof.
  intros HD. unfold ofHandle. adds_step. eapply adds_mono; [|apply mac_connectedAt_spec]. intros connected n0 (H0 & Hcs).
  ask_step. set (now := D _ Clock _). adds_step. eapply adds_mono; [|apply mac_requireAccepted_spec]. intros [e|] n1 (H1 & Ha).
  { adds_step. split; [refs_even|done]. }
  ask_step. destruct (D _ (LocalPeerCred fd) _) as [xu|e]; [|adds_step; split; [refs_even|done]].
  destruct (xu_version xu =? xucredVersion) eqn:Ev; cbn [negb]; to_prop; [|adds_step; split; [refs_even|done]].
  adds_step. eapply adds_mono; [|by apply resolveToken_spec]. intros q n2 (H2 & Ht). adds_step. rewrite app_nil_r. split; [refs_even|].
  intros p [= <-]. split.
  - destruct (Ha eq_refl) as (local & r & ? & ? & ?). exists local, r. rewrite !elem_of_app. tauto.
  - exists xu, connected. split; [rewrite !elem_of_app; do 3 right; left; by left|]. split; [done|]. split.
    { unfold connected_said in *. destruct opts as [o|]; [destruct (IsZero _)|]; rewrite ?elem_of_app; auto. }
    destruct Ht as [Hk [?|(token & Hin & Hv & Hp)]]; (split; [done|]); [by left|]. right. exists token.
    split; [rewrite !elem_of_app; auto 6|]. split; [done|]. destruct Hp as [?|[? Hp]]; [by left|right]. split; [done|]. by do 4 apply mac_process_said_app.
Qed.

(** ** Ceilings *)

(** Nothing is proven above what the ceiling of this build says. *)
Definition capped (p : Peer) : Prop := within p (Best (ceiling cgo)).

Lemma capped_iff p : capped p ↔
  attr_proof (PUser p) <= ProofKernel /\ attr_proof (PProcess p) <= ProofPID /\ attr_proof (PPath p) <= ProofPID /\
  attr_proof (PPackage p) <= (if cgo then ProofPID else ProofNone) /\ attr_proof (PCode p) <= (if cgo then ProofPID else ProofNone).
Proof.
  unfold capped. split.
  - intros Hp. destruct cgo; (split_and!; [apply (Hp AUser)|apply (Hp AProcess)|apply (Hp APath)|apply (Hp APackage)|apply (Hp ACode)]).
  - intros (? & ? & ? & ? & ?). destruct cgo; by intros [].
Qed.

Lemma none_capped : ProofNone <= (if cgo then ProofPID else ProofNone).
Proof. by destruct cgo. Qed.

Lemma capped_no_image p why : attr_proof (PUser p) <= ProofKernel → attr_proof (PProcess p) <= ProofPID → capped (noImage p why).
Proof. intros Hu Hp. apply capped_iff. split_and!; [done|done|done|apply none_capped..]. Qed.

Lemma capped_withdraw p why : attr_proof (PUser p) <= ProofKernel → capped (withdraw p why).
Proof. intros Hu. by apply capped_no_image. Qed.

Lemma resolveCode_capped token opts p : capped p →
  gives (resolveCode cgo D errText quoted token opts p) (λ r, capped r.1).
Proof.
  rewrite capped_iff. intros (H1 & H2 & H3 & H4 & H5). unfold resolveCode. destruct (skipCodeSignature opts).
  { apply gives_ret, capped_iff. split_and!; try done. apply none_capped. }
  unfold verifyToken. destruct cgo eqn:Ec.
  - eapply gives_bind; [apply gives_any|]. intros [[[[code verdict] ident] path] e] _. apply gives_ret, capped_iff. rewrite Ec.
    destruct e; [by split_and!|]. unfold recordCode. repeat case_match; to_prop; (split_and!; try done); cbn; lia.
  - apply gives_ret, capped_iff. rewrite Ec. by split_and!.
Qed.

Lemma resolvePath_capped pid signed p : capped p → gives (resolvePath D errText pid signed p) capped.
Proof.
  rewrite capped_iff. intros (H1 & H2 & H3 & H4 & H5). unfold resolvePath. destruct (negb _).
  - apply gives_ret, capped_iff. by split_and!.
  - eapply gives_bind; [apply gives_any|]. intros [s|e] _; apply gives_ret, capped_iff; by split_and!.
Qed.

Lemma ofHandle_capped fd opts : gives (ofHandle cgo D errText quoted rfc3339Nano fd opts) (λ r, ∀ p, r = Ok p → capped p).
Proof.
  unfold ofHandle. eapply gives_bind; [apply gives_any|]. intros connected _. eapply gives_bind; [apply gives_any|]. intros now _.
  eapply gives_bind; [apply gives_any|]. intros [e|] _; [by apply gives_ret|]. eapply gives_bind; [apply gives_any|].
  intros [xu|e] _; [|by apply gives_ret]. destruct (negb _); [by apply gives_ret|].
  apply (gives_bind _ _ capped); [|intros p Hp; apply gives_ret; by intros ? [= <-]].
  unfold resolveToken. eapply gives_bind; [apply gives_any|]. intros [token|e] _; [|by apply gives_ret, capped_withdraw].
  set (p := set_User _ _). assert (capped p) as Hp by (apply capped_iff; split_and!; [done|done|done|apply none_capped..]).
  destruct (negb _); [by apply gives_ret, capped_withdraw|]. eapply gives_bind; [apply gives_any|].
  assert (gives (resolveProcess cgo D errText quoted rfc3339Nano fd connected token opts p) capped) as Hr.
  { unfold resolveProcess. eapply gives_bind; [apply gives_any|]. intros [started|e] _; [|by apply gives_ret, capped_no_image].
    destruct (After started connected); [by apply gives_ret, capped_no_image|].
    eapply gives_bind; [apply resolveCode_capped; apply capped_iff in Hp as (? & ? & ? & ? & ?); apply capped_iff; by split_and!|].
    intros [q signed] Hq. eapply gives_bind; [by apply resolvePath_capped|]. clear q Hq. intros q Hq. unfold reread.
    eapply gives_bind; [apply gives_any|]. pose proof (proj1 (proj1 (capped_iff q) Hq)). intros [again|e] _; apply gives_ret; [|by apply capped_withdraw].
    destruct (_ || _); [by apply capped_withdraw|done]. }
  intros [peerpid|e] _; [|done]. destruct (negb _); [by apply gives_ret, capped_withdraw|done].
Qed.
End Facts.

(** ** Properties *)


(** A signed client of the socket [/run/s]. *)
Definition exampleDarwin : result Peer * list devent := ofHandle true exampleFramework (λ _, "") id itoa 3 None [].


(** ** The binding *)

Section Binding.
Context (cgo : bool) (D : ∀ A, dquestion A → list devent → A).
Context (errText : err → string) (quoted : string → string) (rfc3339Nano : Time → string).

(** [recheck] refuses exactly a token that can be read and names another process, or
    another image of the same one. *)
Lemma db_recheck_exact b h :
  (db_recheck D b h).1 = None ↔
  match (peerAuditToken D (db_fd b) h).1 with
  | Ok now => token_pid now = token_pid (db_token b) /\ token_pidversion now = token_pidversion (db_token b)
  | Err _ => True
  end.
Proof.
  unfold db_recheck, mbind, Hist_bind. destruct (peerAuditToken D (db_fd b) h) as [[now|e] h']; cbn; [|done].
  destruct (token_pid now =? _) eqn:E1; cbn; [|by to_prop; split; [|intros []]].
  destruct (token_pidversion now =? _) eqn:E2; cbn; to_prop; split; try done; by intros [].
Qed.

Lemma mac_bindHandle_spec fd opts h : SecurityFramework D →
  adds (bindHandle cgo D errText quoted rfc3339Nano fd opts)
    (λ r new, refs [] new /\ ∀ b p, r = Ok (b, p) →
       db_fd b = fd /\ capped cgo p /\ ∃ a mid c xu, new = a ++ mid ++ c /\ accepted fd a /\ Dv (LocalPeerToken fd) (0, db_token b, 32) ∈ a /\
         Dv (LocalPeerCred fd) (Ok xu) ∈ a /\ token_euid (db_token b) = xu_uid xu /\ peer_said fd opts p mid) h.
Proof.
  intros HD. unfold bindHandle. adds_step. eapply adds_mono; [|apply mac_requireAccepted_spec]. intros [e|] n0 (H0 & Ha).
  { adds_step. split; [refs_even|done]. }
  adds_step. eapply adds_mono; [|apply peerAuditToken_spec]. intros [token|e] n1 (_ & H1 & Ht); [|adds_step; split; [refs_even|done]].
  rewrite (Ht token eq_refl) in *. ask_step. destruct (D _ (LocalPeerCred fd) _) as [xu|e]; [|adds_step; split; [refs_even|done]].
  destruct (negb (xu_version xu =? _)); [adds_step; split; [refs_even|done]|].
  destruct (token_euid token =? xu_uid xu) eqn:Ee; cbn [negb]; to_prop; [|adds_step; split; [refs_even|done]].
  adds_step. eapply adds_mono; [|apply adds_gives; [apply ofHandle_capped|by apply peer_said_spec]].
  intros [p|e] n2 (Hc & H2 & Hp); [|adds_step; split; [refs_even|done]].
  unfold db_recheck. do 2 adds_step. eapply adds_mono; [|apply peerAuditToken_spec]. intros r n3 (_ & H3 & _). adds_step. adds_step.
  split; [refs_even|]. intros b q Hq. assert (b = mkDB fd token /\ q = p) as [-> ->] by (repeat case_match; by simplify_eq).
  split; [done|]. split; [by apply Hc|].
  exists (n0 ++ [Dv (LocalPeerToken fd) (0, token, 32)] ++ [Dv (LocalPeerCred fd) (Ok xu)]), n2, (n3 ++ []), xu.
  split; [by rewrite <- !app_assoc|]. split; [|split_and!].
  - destruct (Ha eq_refl) as (local & r' & ? & ? & ?). exists local, r'. rewrite !elem_of_app. tauto.
  - rewrite !elem_of_app. right. left. by left.
  - rewrite !elem_of_app. right. right. by left.
  - done.
  - by apply Hp.
Qed.
End Binding.

(** A macOS binding is the token read right after the socket was found accepted,
    of a process that runs as the user who connected; its peer rests on what the kernel
    said of that socket afterwards and stays within the ceiling. From then on [recheck]
    refuses, as [ErrPeerMoved], exactly a token that can be read and names another
    process or another image, and [alive] is true exactly for the same one. *)
Theorem darwin_bind_exact cgo D `{!SecurityFramework D} errText quoted rfc3339Nano fd opts h b p h' :
  bindHandle cgo D errText quoted rfc3339Nano fd opts h = (Ok (b, p), h') →
  (∃ a mid c xu, h' = h ++ a ++ mid ++ c /\ accepted fd a /\ Dv (LocalPeerToken fd) (0, db_token b, 32) ∈ a /\
     Dv (LocalPeerCred fd) (Ok xu) ∈ a /\ token_euid (db_token b) = xu_uid xu /\ peer_said fd opts p mid /\ within p (Best (ceiling cgo))) /\
  ∀ h2, let now := (peerAuditToken D fd h2).1 in
    let same := match now with
                | Ok t => token_pid t = token_pid (db_token b) /\ token_pidversion t = token_pidversion (db_token b)
                | Err _ => False
                end in
    ((db_alive D b h2).1 = Ok true ↔ same) /\
    match (db_recheck D b h2).1 with
    | None => is_ok now = false \/ same
    | Some e => is_ok now = true /\ ~ same /\ errors_is e ErrPeerMoved = true
    end.
Proof.
  intros Hb. destruct (mac_bindHandle_spec cgo D errText quoted rfc3339Nano fd opts h _) as (new & Hh & _ & Hp). rewrite Hb in Hh, Hp. cbn in Hh, Hp.
  destruct (Hp b p eq_refl) as (Hfd & Hc & a & mid & c & xu & -> & ? & ? & ? & ? & ?). split; [exists a, mid, c, xu; by split_and!|].
  clear -Hfd. intros h2. cbv zeta. unfold db_alive, db_recheck, mbind, Hist_bind. rewrite Hfd.
  destruct (peerAuditToken D fd h2) as [[now|e] h3]; cbn; [|split; [done|by left]].
  destruct (token_pid now =? _) eqn:E1; destruct (token_pidversion now =? _) eqn:E2; cbn; to_prop; split; try naive_solver.
Qed.

Lemma darwin_bind_exact_witness :
  match bindHandle true exampleFramework (λ _, "") id itoa 3 None [] with
  | (Ok (b, p), h) => db_token b = [501; 501; 20; 501; 20; 42; 100; 7] /\ within p (Best (ceiling true)) /\ (db_recheck exampleFramework b h).1 = None
  | _ => False
  end.
Proof.
  destruct (bindHandle true exampleFramework (λ _, "") id itoa 3 None []) as [[[b p]|e] h] eqn:E; [|vm_compute in E; discriminate].
  pose proof (darwin_bind_exact true exampleFramework (λ _, "") id itoa 3 None [] b p h E) as [(_ & _ & _ & _ & _ & _ & _ & _ & _ & _ & Hw) _].
  split_and!; [|exact Hw|]; vm_compute in E; injection E as <- _ <-; reflexivity.
Defined.

(** A socket whose last writer runs as root, in another audit session. *)
Definition handedToRoot : ∀ A, dquestion A → list devent → A := λ A q h,
  match q in dquestion A return A with
  | LocalPeerToken _ => (0, [0; 0; 0; 0; 0; 1; 999; 7], 32)
  | q => exampleFramework _ q h
  end.

Definition is_token_read (e : devent) : bool := match e with Dv q _ => match q with LocalPeerToken _ => true | _ => false end end.

(** A socket whose last writer is process 41, then 42 while the peer is resolved, and
    then 41 again. *)
Definition writersInTurn : ∀ A, dquestion A → list devent → A := λ A q h,
  match q in dquestion A return A with
  | LocalPeerToken _ =>
      let n := length (filter (λ e, is_token_read e = true) h) in
      if (n =? 1)%nat || (n =? 2)%nat then (0, [501; 501; 20; 501; 20; 42; 100; 7], 32) else (0, [501; 501; 20; 501; 20; 41; 100; 3], 32)
  | q => exampleFramework _ q h
  end.

(** What a token says outlives the checks on it. When the socket's last writer is
    found to be somebody else, the peer's process is withdrawn but the audit session of
    that writer stays in the user, proven by the kernel; and a binding can be made of
    the token of one process with a peer that describes another, because nothing
    compares the two and the last check looks only at the first. *)
Theorem darwin_token_outlives_its_checks :
  (∃ p, (ofHandle true handedToRoot (λ _, "") id itoa 3 None []).1 = Ok p /\ no_process p /\
     UID (attr_value (PUser p)) = 501 /\ AuditSessionID (attr_value (PUser p)) = 999 /\ attr_proof (PUser p) = ProofKernel) /\
  (∃ b p, (bindHandle true writersInTurn (λ _, "") id itoa 3 None []).1 = Ok (b, p) /\
     token_pid (db_token b) = 41 /\ PID (attr_value (PProcess p)) = 42 /\ attr_proof (PProcess p) = ProofPID /\
     attr_value (PPackage p) = "org.example.a").
Proof. split; [eexists|eexists _, _]; split; [vm_compute; reflexivity|by split_and!|vm_compute; reflexivity|by split_and!]. Qed.
