(* ===== verification/XPC.v ===== *)
(** xpc_darwin.go: the Go side of macOS's authenticated XPC, around the native core of
    xpc_native_darwin.c, whose functions are questions with any answer.

    [XPCListener], [XPCRequest] and [XPCClient] guard a native object the same way: a
    mutex, a count of calls, and a [Close] that frees the object when no call is left.
    The first part is that guard in every interleaving; the second the operations that
    go through it. *)

From S2P Require Import Prelude GoStrings GoError GoBinary ProofLadder Peer Binding Events.

(** ** The guard *)

Module Guard.

(** One guarded object. [closing], [native] and [calls] are the struct's fields, [native]
    being whether the pointer is set, and [once] and [dones] the request's [closeOnce]
    and the times its channel was closed. The goroutines are counted by the place they
    are at: between [acquire] and [calls.Done], in the request's own wait, waiting in the
    [Close] that will free the object, or in another [Close]. The last fields are what
    the native core saw: the closes, the frees, and a use of a freed object or a count
    of calls below zero. *)
Record object := mkObject {
  closing : bool; native : bool; calls : nat; once : bool; dones : nat;
  holding : nat; watching : nat; freeing : nat; waiting : nat; returned : nat;
  nativeCloses : nat; frees : nat; misused : bool
}.

(** [acquire]: a call begins unless the object is closing or gone. *)
Definition acquire (o : object) : bool * object :=
  if closing o || negb (native o) then (false, o)
  else (true, mkObject (closing o) (native o) (S (calls o)) (once o) (dones o) (S (holding o)) (watching o) (freeing o) (waiting o) (returned o)
                (nativeCloses o) (frees o) (misused o)).

(** A native function runs on the object. *)
Definition use (o : object) : object :=
  mkObject (closing o) (native o) (calls o) (once o) (dones o) (holding o) (watching o) (freeing o) (waiting o) (returned o)
    (nativeCloses o) (frees o) (misused o || (0 <? frees o)%nat).

(** [calls.Done] of a goroutine that holds the object. *)
Definition callDone (o : object) : object :=
  mkObject (closing o) (native o) (calls o - 1) (once o) (dones o) (holding o - 1) (watching o) (freeing o) (waiting o) (returned o)
    (nativeCloses o) (frees o) (misused o || (calls o =? 0)%nat).

(** [closeDone] of a request. *)
Definition closeDone (o : object) : object :=
  if once o then o
  else mkObject (closing o) (native o) (calls o) true (S (dones o)) (holding o) (watching o) (freeing o) (waiting o) (returned o)
         (nativeCloses o) (frees o) (misused o).

(** The request's own goroutine, back from the native wait, closes the channel. *)
Definition watched (o : object) : object :=
  let o := closeDone (use o) in
  mkObject (closing o) (native o) (calls o) (once o) (dones o) (S (holding o)) (watching o - 1) (freeing o) (waiting o) (returned o)
    (nativeCloses o) (frees o) (misused o).

(** [Close] up to its wait: the first one closes or cancels the native object. *)
Definition beginClose (o : object) : object :=
  if closing o then
    mkObject (closing o) (native o) (calls o) (once o) (dones o) (holding o) (watching o) (freeing o) (S (waiting o)) (returned o)
      (nativeCloses o) (frees o) (misused o)
  else
    let o := if native o
             then mkObject (closing o) (native o) (calls o) (once o) (dones o) (holding o) (watching o) (freeing o) (waiting o) (returned o)
                    (S (nativeCloses o)) (frees o) (misused o || (0 <? frees o)%nat)
             else o in
    mkObject true (native o) (calls o) (once o) (dones o) (holding o) (watching o) (S (freeing o)) (waiting o) (returned o)
      (nativeCloses o) (frees o) (misused o).

(** The rest of the first [Close], once no call is left; a request also closes its
    channel. *)
Definition endClose (request : bool) (o : object) : object :=
  let o := if native o
           then mkObject (closing o) false (calls o) (once o) (dones o) (holding o) (watching o) (freeing o) (waiting o) (returned o)
                  (nativeCloses o) (S (frees o)) (misused o || (0 <? frees o)%nat)
           else o in
  let o := if request then closeDone o else o in
  mkObject (closing o) (native o) (calls o) (once o) (dones o) (holding o) (watching o) (freeing o - 1) (waiting o) (S (returned o))
    (nativeCloses o) (frees o) (misused o).

(** The rest of another [Close]. *)
Definition waited (o : object) : object :=
  mkObject (closing o) (native o) (calls o) (once o) (dones o) (holding o) (watching o) (freeing o) (waiting o - 1) (S (returned o))
    (nativeCloses o) (frees o) (misused o).

(** A new object; a request's own goroutine holds a call from the start. *)
Definition fresh (request : bool) : object :=
  mkObject false true (if request then 1 else 0) false 0 0 (if request then 1 else 0) 0 0 0 0 0 false.

Section Steps.
Context (request : bool).

Inductive gstep : object → object → Prop :=
| g_acquire o : gstep o (acquire o).2
| g_use o : (0 < holding o)%nat → gstep o (use o)
| g_done o : (0 < holding o)%nat → gstep o (callDone o)
| g_watched o : (0 < watching o)%nat → gstep o (watched o)
| g_close o : gstep o (beginClose o)
| g_free o : (0 < freeing o)%nat → calls o = 0%nat → gstep o (endClose request o)
| g_waited o : (0 < waiting o)%nat → calls o = 0%nat → gstep o (waited o).

Inductive greachable : object → Prop :=
| g_start : greachable (fresh request)
| g_next o o' : greachable o → gstep o o' → greachable o'.

(** What holds of an object between steps. *)
Record object_ok (o : object) : Prop := {
  ok_misused : misused o = false;
  ok_calls : calls o = (holding o + watching o)%nat;
  ok_native : native o = (frees o =? 0)%nat;
  ok_frees : (frees o <= 1)%nat;
  ok_closes : nativeCloses o = (if closing o then 1 else 0)%nat;
  ok_open : closing o = false → native o = true /\ freeing o = 0%nat /\ waiting o = 0%nat /\ returned o = 0%nat;
  ok_closing : closing o = true → freeing o = (if native o then 1 else 0)%nat;
  ok_gone : native o = false → calls o = 0%nat /\ (request = true → once o = true);
  ok_once : dones o = (if once o then 1 else 0)%nat;
  ok_returned : (0 < returned o)%nat → closing o = true /\ calls o = 0%nat
}.

Lemma gstep_ok o o' : object_ok o → gstep o o' → object_ok o'.
Proof.
  intros [H1 H2 H3 H4 H5 H6 H7 H8 H9 H10] Hs. destruct o as [cl na ca on dn ho wa fr wt re nc fs mi]; cbn in *. subst mi nc dn.
  inversion Hs; subst; clear Hs; cbn in *; destruct fs as [|[|fs]]; cbn in *; try lia;
    destruct cl; cbn in *; try (destruct (H6 eq_refl) as (? & ? & ? & ?)); try (destruct (H8 eq_refl) as [? ?]);
    try specialize (H7 eq_refl); try done;
    unfold acquire, use, callDone, watched, beginClose, endClose, waited, closeDone; cbn; destruct on, request eqn:Er; cbn;
    constructor; cbn; try done; try lia; try (intros; split_and!; done || lia);
    rewrite ?orb_false_r; try (apply Nat.eqb_neq; lia).
  all: intros; split; [lia|congruence].
Qed.

Lemma greachable_ok o : greachable o → object_ok o.
Proof.
  induction 1 as [|o o' _ IH Hs]; [|by eapply gstep_ok]. constructor; cbn; destruct request eqn:Er; try done; try lia.
Qed.

(** How many steps the goroutines at work have left. *)
Definition left_ (o : object) : nat := (holding o + 2 * watching o + freeing o + waiting o)%nat.
End Steps.

(** C22: the guard of a native object is sound in every interleaving of calls and
    closes. No native function runs on a freed object, the object is closed once and
    freed once, and the count of calls never goes below zero; an object that is closing
    begins no call. Once the goroutines in it have returned, a closed object has been
    freed, with a request's channel closed exactly once. And no [Close] waits in vain: as long as
    one waits, a step of a call or of a [Close] can be taken that brings all of them
    nearer to their end. *)
Theorem xpc_object_lifecycle request o : greachable request o →
  misused o = false /\ (frees o <= 1)%nat /\ nativeCloses o = (if closing o then 1 else 0)%nat /\ (dones o <= 1)%nat /\
  (closing o = true → acquire o = (false, o)) /\
  ((0 < returned o)%nat → calls o = 0%nat) /\
  (closing o = true → left_ o = 0%nat → frees o = 1%nat /\ (request = true → dones o = 1%nat)) /\
  ((0 < freeing o + waiting o)%nat → ∃ o', gstep request o o' /\ (left_ o' < left_ o)%nat /\ closing o' = true).
Proof.
  intros Hr. pose proof (greachable_ok _ _ Hr) as [H1 H2 H3 H4 H5 H6 H7 H8 H9 H10]. split_and!; try done.
  - destruct (once o); lia.
  - intros Hc. unfold acquire. by rewrite Hc.
  - intros H. by apply H10.
  - intros Hc Hl. unfold left_ in Hl. specialize (H7 Hc). destruct (native o) eqn:En; [lia|].
    split; [destruct (frees o) as [|[|]]; [done|done|lia]|]. intros Hq. rewrite (proj2 (H8 eq_refl) Hq) in H9. done.
  - intros Hw. assert (closing o = true) as Hc by (destruct (closing o); [done|]; destruct (H6 eq_refl); lia).
    destruct (decide (0 < holding o)%nat) as [Hh|Hh]; [|destruct (decide (0 < watching o)%nat) as [Hv|Hv]].
    + exists (callDone o). split; [by constructor|]. unfold left_. cbn. split; [lia|done].
    + exists (watched o). split; [by constructor|]. unfold left_, watched, closeDone. destruct (once (use o)); cbn; split; (lia || done).
    + assert (calls o = 0%nat) as H0 by lia. destruct (decide (0 < freeing o)%nat) as [Hf|Hf].
      * exists (endClose request o). split; [by constructor|]. unfold left_, endClose, closeDone.
        destruct (native o), request; cbn; repeat case_match; cbn; split; (lia || done).
      * exists (waited o). split; [constructor; lia|]. unfold left_. cbn. split; [lia|done].
Qed.

(** A request closed while its own wait is running, and freed when that has ended. *)
Definition closedRequest : object := endClose true (callDone (watched (beginClose (fresh true)))).

Lemma xpc_object_lifecycle_witness : frees closedRequest = 1%nat /\ dones closedRequest = 1%nat.
Proof.
  destruct (xpc_object_lifecycle true closedRequest) as (_ & _ & _ & _ & _ & _ & H & _).
  - eapply g_next; [|apply g_free; [cbn; lia|done]]. eapply g_next; [|apply g_done; cbn; lia]. eapply g_next; [|apply g_watched; cbn; lia].
    eapply g_next; [apply g_start|apply g_close].
  - destruct (H eq_refl eq_refl) as [H1 H2]. split; [exact H1|by apply H2].
Defined.
End Guard.

(** ** The native core *)

(** [oa_xpc_identity]. *)
Record xpcIdentity := mkXI {
  connection_pid : Z; connection_euid : Z; connection_egid : Z; message_path : string; signing_identifier : string;
  team_identifier : string; signing_status : string; connection_principal_message_coherent : Z
}.

(** A status is the number of [oa_xpc_status]. [Acquire] is [acquire] of the object
    [o]: its native pointer, unless it is closing; [CallDone] is [calls.Done], and
    [ObjectClose] a whole [Close] of a client. *)
Inductive xquestion : Type → Type :=
| Acquire (o : Z) : xquestion (option Z)
| CallDone (o : Z) : xquestion unit
| ObjectClose (o : Z) : xquestion unit
| ListenerOpen (name : string) (maxFrame : Z) : xquestion (Z * Z)
| ListenerNext (listener : Z) : xquestion (Z * Z)
| RequestBytes (request : Z) : xquestion (Z * list byte)
| RequestFree (request : Z) : xquestion unit
| RequestIdentity (request : Z) : xquestion (Z * xpcIdentity)
| RequestReply (request : Z) (frame : list byte) : xquestion Z
| RequestRefuse (request attribute required : Z) : xquestion Z
| RequestActive (request : Z) : xquestion Z
| Available : xquestion Z
| NowNs : xquestion Z
| CancelCreate : xquestion (Z * Z)
| CancelFree (token : Z) : xquestion unit
| StopCallback (token : Z) : xquestion bool
| CallbackEnded (token : Z) : xquestion unit
| ClientOpen (name program : string) (euid maxReply deadline token : Z) : xquestion (Z * Z)
| ClientCall (client : Z) (frame : list byte) (oneWay : bool) (deadline token : Z) : xquestion (Z * Z * option Z * list byte * Z * Z)
| BytesFree (p : Z) : xquestion unit
| NewCString (s : string) : xquestion Z
| FreeCString (p : Z) : xquestion unit
| XPCNow : xquestion Time
| CtxErr : xquestion (option err)
| CtxDeadline : xquestion (option Time).

Inductive xevent : Type :=
| Xv (A : Type) (q : xquestion A) (a : A).
Arguments Xv {A} _ _.

(** [xpcError]. *)
Definition xpcError (status : Z) : option err :=
  if status =? 0 then None
  else if status =? 1 then Some (Sentinel NetErrClosed)
  else if status =? 2 then Some (Sentinel CtxDeadlineExceeded)
  else if status =? 3 then Some (Sentinel CtxCanceled)
  else if status =? 4 then Some (Plain "identity: XPC invalid argument")
  else if status =? 5 then Some (Wrap "XPC peer" [Sentinel ErrNoBinding])
  else if status =? 6 then Some (Plain "identity: XPC protocol violation")
  else if status =? 8 then Some (Plain "identity: authenticated XPC requires macOS 12 or later")
  else if status =? 9 then Some (XPCRefusalErr 0 0)
  else Some (Plain "identity: XPC system failure").

Definition callerProofUnmet : Z := 9.

(** The longest slice Go copies out of C. *)
Definition copyLimit : Z := 2 ^ 31 - 1.

Section Operations.
Context (X : ∀ A, xquestion A → list xevent → A).

Definition xask {A} (q : xquestion A) : Hist xevent A := act (X A q) (Xv q).

(** A call through the guard: what [body] does with the native pointer, between
    [acquire] and the deferred [calls.Done]. *)
Definition through {A} (o : Z) (closed : A) (body : Z → Hist xevent A) : Hist xevent A :=
  n ← xask (Acquire o);
  match n with
  | None => mret closed
  | Some native => r ← body native; _ ← xask (CallDone o); mret r
  end.

(** [OpenXPCListener]; the result is the native listener. *)
Definition OpenXPCListener (service : string) (maxFrame : Z) : Hist xevent (result Z) :=
  if String.eqb service "" || contains_char (Ascii.eqb Ascii.zero) service || (maxFrame =? 0)
  then mret (Err (Plain "identity: invalid XPC listener arguments"))
  else
    name ← xask (NewCString service);
    '(status, native) ← xask (ListenerOpen service maxFrame);
    _ ← xask (FreeCString name);
    mret (match xpcError status with Some e => Err e | None => Ok native end).

(** [XPCListener.Accept]; the result is the native request and its frame. *)
Definition ListenerAccept (o : Z) : Hist xevent (result (Z * list byte)) :=
  through o (Err (Sentinel NetErrClosed)) (λ l,
    '(status, native) ← xask (ListenerNext l);
    match xpcError status with
    | Some e => mret (Err e)
    | None =>
        '(status, data) ← xask (RequestBytes native);
        match xpcError status with
        | Some e => _ ← xask (RequestFree native); mret (Err e)
        | None =>
            if copyLimit <? Z.of_nat (length data)
            then _ ← xask (RequestFree native); mret (Err (Plain "identity: XPC request exceeds Go copy limit"))
            else mret (Ok (native, data))
        end
    end).

(** [XPCRequest.Reply]. *)
Definition Reply (o : Z) (frame : list byte) : Hist xevent (option err) :=
  through o (Some (Sentinel NetErrClosed)) (λ r, status ← xask (RequestReply r frame); mret (xpcError status)).

(** [XPCRequest.RefuseUnmetProof]. *)
Definition RefuseUnmetProof (o : Z) (attribute required : Z) : Hist xevent (option err) :=
  through o (Some (Sentinel NetErrClosed)) (λ r, status ← xask (RequestRefuse r attribute required); mret (xpcError status)).

(** [xpcBinder.recheck] and [alive]. *)
Definition xb_recheck (request : option Z) : Hist xevent (option err) :=
  match request with
  | None => mret (Some (Sentinel NetErrClosed))
  | Some o => through o (Some (Sentinel NetErrClosed))
      (λ r, a ← xask (RequestActive r); mret (if a =? 0 then Some (Sentinel NetErrClosed) else None))
  end.

Definition xb_alive (request : option Z) : Hist xevent (result bool) :=
  e ← xb_recheck request;
  mret (match e with Some e => Err e | None => Ok true end).

Definition xb_release (request : option Z) : Hist xevent (option err * option Z) := mret (None, request).

Definition xpcBinder : binder (option Z * list xevent) := histBinder xb_recheck xb_alive xb_release.

(** [xpcCeiling]. *)
Definition xpcCeiling : Hist xevent (result Limits) :=
  a ← xask Available;
  mret (if a =? 0 then Err (Wrap "XPC requires macOS 12 or newer" [Sentinel ErrUnsupportedConn]) else Ok xpcLimits).

(** The peer of one message. *)
Definition xpcPeer (observed : xpcIdentity) (now : Time) : Peer :=
  let coherent := negb (connection_principal_message_coherent observed =? 0) in
  let proof := if coherent then ProofKernel else ProofPID in
  let note := if coherent
              then "the remote connection was obtained from this exact XPC dictionary and its process path matched the message-bound dynamic code"
              else "the connection credentials and message code were observed separately" in
  mkPeer "darwin" "xpc" now
    (attr "user" (posixUser (connection_euid observed) (connection_egid observed)) proof note)
    (attr "process" (mkProcess (connection_pid observed) zeroTime false 0) proof note)
    (attr "path" (message_path observed) ProofBound "path of dynamic code selected from the exact XPC message")
    (unknown "package" ("message code validity does not establish a trusted publisher; observed signing identifier " +:+ signing_identifier observed))
    (unknown "code" ("message-bound code passed structural validity, but no trusted publisher requirement was applied; team "
                     +:+ team_identifier observed +:+ " status " +:+ signing_status observed))
    [note; "audit session and pidversion are unavailable through the public received-message API"] zeroTime.

(** [BindXPCRequest]: the request, the peer and the time it was bound. *)
Definition BindXPCRequest (request : option Z) : Hist xevent (result (Z * Peer * Time)) :=
  match request with
  | None => mret (Err (Sentinel ErrNoBinding))
  | Some o =>
      through o (Err (Sentinel ErrNoBinding)) (λ r,
        '(status, observed) ← xask (RequestIdentity r);
        match xpcError status with
        | Some e => mret (Err e)
        | None =>
            now ← xask XPCNow;
            at_ ← xask XPCNow;
            mret (Ok (o, xpcPeer observed now, at_))
        end)
  end.

(** [xpcDeadline]: 64 bits of nanoseconds, 0 for none. *)
Definition xpcDeadline : Hist xevent Z :=
  d ← xask CtxDeadline;
  match d with
  | None => mret 0
  | Some deadline =>
      t ← xask XPCNow;
      let remaining := TimeSub deadline t in
      n ← xask NowNs;
      mret (if remaining <=? 0 then n else (n + remaining) mod 2 ^ 64)
  end.

(** [xpcCancellation]: a token that fires when the context ends. *)
Definition xpcCancellation : Hist xevent (result Z) :=
  e ← xask CtxErr;
  match e with
  | Some e => mret (Err e)
  | None =>
      '(status, token) ← xask CancelCreate;
      mret (match xpcError status with Some e => Err e | None => Ok token end)
  end.

(** Its release: the callback is stopped, or waited for, before the token is freed. *)
Definition releaseCancellation (token : Z) : Hist xevent unit :=
  stopped ← xask (StopCallback token);
  _ ← (if negb stopped then xask (CallbackEnded token) else mret tt);
  xask (CancelFree token).

(** [OpenXPCClient]. *)
Definition OpenXPCClient (service expectedProgram : string) (expectedEUID maxReply : Z) : Hist xevent (result Z) :=
  if String.eqb service "" || String.eqb expectedProgram "" || contains_char (Ascii.eqb Ascii.zero) service || contains_char (Ascii.eqb Ascii.zero) expectedProgram
  then mret (Err (Plain "identity: invalid XPC client arguments"))
  else
    name ← xask (NewCString service);
    program ← xask (NewCString expectedProgram);
    t ← xpcCancellation;
    r ← match t with
        | Err e => mret (Err e)
        | Ok token =>
            deadline ← xpcDeadline;
            '(status, native) ← xask (ClientOpen service expectedProgram expectedEUID maxReply deadline token);
            _ ← releaseCancellation token;
            mret (match xpcError status with Some e => Err e | None => Ok native end)
        end;
    _ ← xask (FreeCString program);
    _ ← xask (FreeCString name);
    mret r.

(** [XPCClient.Call]: the reply, the bytes sent and the error. *)
Definition Call (client : option Z) (frame : list byte) (oneWay : bool) : Hist xevent (list byte * Z * option err) :=
  match client with
  | None => mret ([], 0, Some (Sentinel NetErrClosed))
  | Some o =>
      through o ([], 0, Some (Sentinel NetErrClosed)) (λ native,
        t ← xpcCancellation;
        match t with
        | Err e => mret ([], 0, Some e)
        | Ok token =>
            deadline ← xpcDeadline;
            '(status, sent, output, bytes, attribute, required) ← xask (ClientCall native frame oneWay deadline token);
            _ ← match output with Some p => xask (BytesFree p) | None => mret tt end;
            _ ← releaseCancellation token;
            mret (if status =? callerProofUnmet then ([], sent, Some (XPCRefusalErr attribute required))
                  else match xpcError status with
                       | Some e => ([], sent, Some e)
                       | None => if copyLimit <? Z.of_nat (length bytes)
                                 then ([], sent, Some (Plain "identity: XPC reply exceeds Go copy limit"))
                                 else (bytes, sent, None)
                       end)
        end)
  end.
End Operations.

(** ** What the operations hold *)

Inductive resource := RCall (o : Z) | RListener (n : Z) | RRequest (n : Z) | RClient (n : Z) | RToken (t : Z) | RBytes (p : Z) | RString (p : Z).

Definition takenX (e : xevent) : list resource :=
  match e with
  | Xv q a =>
      match q in xquestion A return A → list resource with
      | Acquire o => λ n, match n with Some _ => [RCall o] | None => [] end
      | ListenerOpen _ _ => λ r, if r.1 =? 0 then [RListener r.2] else []
      | ListenerNext _ => λ r, if r.1 =? 0 then [RRequest r.2] else []
      | CancelCreate => λ r, if r.1 =? 0 then [RToken r.2] else []
      | ClientOpen _ _ _ _ _ _ => λ r, if r.1 =? 0 then [RClient r.2] else []
      | ClientCall _ _ _ _ _ => λ r, RBytes <$> option_list r.1.1.1.2
      | NewCString _ => λ p, [RString p]
      | _ => λ _, []
      end a
  end.

Definition givenX (e : xevent) : list resource :=
  match e with
  | Xv q _ =>
      match q with
      | CallDone o => [RCall o] | RequestFree n => [RRequest n] | CancelFree t => [RToken t] | BytesFree p => [RBytes p]
      | FreeCString p => [RString p] | ObjectClose o => [RClient o] | _ => []
      end
  end.

(** A run gives back everything but [kept]. *)
Abbreviation owes := (balanced takenX givenX) (only parsing).

(** The guarded object a native function runs on. *)
Definition runs_on (e : xevent) : option Z :=
  match e with
  | Xv q _ =>
      match q with
      | ListenerNext n | RequestIdentity n | RequestReply n _ | RequestRefuse n _ _ | RequestActive n | ClientCall n _ _ _ _ => Some n
      | _ => None
      end
  end.

Definition guards (e : xevent) : bool := match e with Xv q _ => match q with Acquire _ | CallDone _ => true | _ => false end end.

(** Inside a call that was given [n]: native functions run on [n] only. *)
Definition inside (n : Z) (e : xevent) : Prop := guards e = false /\ (runs_on e = None \/ runs_on e = Some n).

(** One call through the guard of [o]: nothing when it is closing, and otherwise native
    functions run on the pointer it gave, between [acquire] and [calls.Done]. *)
Definition bracketed (o : Z) (new : list xevent) : Prop :=
  new = [Xv (Acquire o) None] \/
  ∃ n mid, new = [Xv (Acquire o) (Some n)] ++ mid ++ [Xv (CallDone o) tt] /\ Forall (inside n) mid.

(** A cancellation token is freed only after its callback was stopped or has ended;
    [seen] are the tokens that is known of. *)
Fixpoint frees_safely (seen : list Z) (new : list xevent) : Prop :=
  match new with
  | [] => True
  | Xv q a :: new =>
      match q in xquestion A return A → Prop with
      | StopCallback t => λ stopped, frees_safely (if stopped then t :: seen else seen) new
      | CallbackEnded t => λ _, frees_safely (t :: seen) new
      | CancelFree t => λ _, t ∈ seen /\ frees_safely seen new
      | _ => λ _, frees_safely seen new
      end a
  end.

Lemma frees_safely_mono seen seen' new : seen ⊆ seen' → frees_safely seen new → frees_safely seen' new.
Proof.
  revert seen seen'. induction new as [|[A q a] new IH]; intros seen seen' Hs; [done|].
  destruct q; cbn; try (by apply IH).
  - intros [? ?]. split; [set_solver|by eapply IH].
  - destruct a; apply IH; set_solver.
  - apply IH. set_solver.
Qed.

Lemma frees_safely_app seen a b : frees_safely seen a → frees_safely [] b → frees_safely seen (a ++ b).
Proof.
  revert seen. induction a as [|[A q x] a IH]; intros seen Ha Hb; [eapply frees_safely_mono; [|exact Hb]; set_solver|].
  destruct q; cbn in *; try (by apply IH). destruct Ha as [? ?]. split; [done|by apply IH].
Qed.

Lemma adds_xask X {A} (q : xquestion A) (Q : A → list xevent → Prop) h : Q (X A q h) [Xv q (X A q h)] → adds (xask X q) Q h.
Proof. apply adds_act. Qed.
Ltac xask_step := adds_step; apply adds_xask.

(** What is owed after a run whose events are at hand. *)
Ltac owed :=
  unfold balanced in *; cbn in *; rewrite ?bind_app; cbn in *;
  repeat match goal with H : (_ ≫= takenX) ≡ₚ _ |- _ => rewrite H; clear H end; solve_Permutation.

(** A run made of known pieces frees its tokens safely. *)
Ltac frees := cbn [app frees_safely]; first [exact I | assumption | apply frees_safely_app; [assumption|]; frees].

Lemma xpcError_none status : xpcError status = None ↔ status = 0.
Proof. unfold xpcError. split; [|by intros ->]. repeat case_match; to_prop; done. Qed.

Lemma xpcError_some status e : xpcError status = Some e → (status =? 0) = false.
Proof. intros H. apply Z.eqb_neq. intros ->. done. Qed.

Set Default Proof Using "Type".

Section Facts.
Context (X : ∀ A, xquestion A → list xevent → A).

Lemma through_spec {A} o (closed : A) body (K : A → list resource) (Q : A → list xevent → Prop) h :
  K closed = [] → Q closed [Xv (Acquire o) None] →
  (∀ n h, adds (body n) (λ r new, Forall (inside n) new /\ owes (K r) new /\
     Q r ([Xv (Acquire o) (Some n)] ++ new ++ [Xv (CallDone o) tt])) h) →
  adds (through X o closed body) (λ r new, bracketed o new /\ owes (K r) new /\ Q r new) h.
Proof.
  intros Hc Hq Hb. unfold through. xask_step. destruct (X _ (Acquire o) _) as [n|].
  - adds_step. eapply adds_mono; [|apply Hb]. intros r new (Hi & Hk & HQ). xask_step. destruct (X unit _ _). adds_step. split_and!.
    + right. by exists n, new.
    + owed.
    + exact HQ.
  - adds_step. split_and!; [by left|rewrite Hc; owed|done].
Qed.

Lemma cancellation_spec h :
  adds (xpcCancellation X)
    (λ r new, (∀ n, Forall (inside n) new) /\ frees_safely [] new /\ owes (match r with Ok t => [RToken t] | Err _ => [] end) new) h.
Proof.
  unfold xpcCancellation. xask_step. destruct (X _ CtxErr _) as [e|]; [adds_step; split_and!; [intros; all_events; split; auto|done|owed]|].
  xask_step. destruct (X _ CancelCreate _) as [status token]. adds_step. split_and!; [intros; all_events; split; auto|done|].
  destruct (xpcError status) as [e|] eqn:E; [|apply xpcError_none in E as ->; owed]. unfold balanced. cbn. by rewrite (xpcError_some _ _ E).
Qed.

Lemma release_spec token h :
  adds (releaseCancellation X token) (λ _ new, (∀ n, Forall (inside n) new) /\ frees_safely [] new /\ new ≫= givenX = [RToken token] /\ new ≫= takenX = []) h.
Proof.
  unfold releaseCancellation. xask_step. destruct (X _ (StopCallback token) _); cbn [negb].
  - repeat adds_step. apply adds_xask. cbn. split_and!; [intros; all_events; split; auto|set_solver|done|done|done].
  - xask_step. apply adds_xask. cbn. split_and!; [intros; all_events; split; auto|set_solver|done|done|done].
Qed.

Lemma deadline_spec h : adds (xpcDeadline X) (λ _ new, (∀ n, Forall (inside n) new) /\ frees_safely [] new /\ owes [] new) h.
Proof.
  unfold xpcDeadline. xask_step. destruct (X _ CtxDeadline _) as [d|].
  - do 2 xask_step. adds_step. split_and!; [intros; all_events; split; auto|done|owed].
  - adds_step. split_and!; [intros; all_events; split; auto|done|owed].
Qed.

(** A call that asks one native question. *)
Lemma one_call {A B} o (q : Z → xquestion A) (f : A → B) (closed : B) h :
  (∀ n a, inside n (Xv (q n) a) /\ takenX (Xv (q n) a) = [] /\ givenX (Xv (q n) a) = []) →
  adds (through X o closed (λ n, a ← xask X (q n); mret (f a))) (λ _ new, bracketed o new /\ owes [] new) h.
Proof.
  intros Hq. eapply adds_mono; [|apply (through_spec o closed _ (λ _, []) (λ _ _, True)); [done|done|]]; [naive_solver|].
  intros n h'. xask_step. destruct (Hq n (X _ (q n) h')) as (? & ? & ?). adds_step. split_and!; [all_events| |done].
  apply balanced_idle. all_events.
Qed.

Lemma accept_spec o h :
  adds (ListenerAccept X o)
    (λ r new, bracketed o new /\ owes (match r with Ok (n, _) => [RRequest n] | Err _ => [] end) new) h.
Proof.
  unfold ListenerAccept.
  eapply adds_mono; [|apply (through_spec o _ _ (λ r, match r with Ok (n, _) => [RRequest n] | Err _ => [] end) (λ _ _, True)); [done|done|]]; [naive_solver|].
  intros l h'. xask_step. destruct (X _ (ListenerNext l) _) as [status native]. destruct (xpcError status) as [e|] eqn:E.
  { adds_step. split_and!; [all_events; split; auto| |done]. unfold balanced. cbn. by rewrite (xpcError_some _ _ E). }
  apply xpcError_none in E as ->. xask_step. destruct (X _ (RequestBytes native) _) as [status data].
  destruct (xpcError status); [xask_step; adds_step; split_and!; [all_events; split; auto|owed|done]|].
  destruct (copyLimit <? _); [xask_step|]; adds_step; (split_and!; [all_events; split; auto|owed|done]).
Qed.

Lemma open_listener_spec service maxFrame h :
  adds (OpenXPCListener X service maxFrame) (λ r new, owes (match r with Ok n => [RListener n] | Err _ => [] end) new) h.
Proof.
  unfold OpenXPCListener. destruct (_ || _); [adds_step; owed|]. do 2 xask_step. destruct (X _ (ListenerOpen service maxFrame) _) as [status native].
  xask_step. adds_step. destruct (xpcError status) as [e|] eqn:E; [|apply xpcError_none in E as ->; owed].
  unfold balanced. cbn. by rewrite (xpcError_some _ _ E).
Qed.

Lemma open_client_spec service program euid maxReply h :
  adds (OpenXPCClient X service program euid maxReply)
    (λ r new, owes (match r with Ok n => [RClient n] | Err _ => [] end) new /\ frees_safely [] new) h.
Proof.
  unfold OpenXPCClient. destruct (_ || _); [adds_step; split; [owed|done]|].
  xask_step. generalize (X _ (NewCString service) h). intros name. xask_step.
  generalize (X _ (NewCString program) (h ++ [Xv (NewCString service) name])). intros prog. adds_step.
  eapply adds_mono; [|apply cancellation_spec]. intros [token|e] n0 (_ & Hs0 & H0).
  2: { do 2 adds_step. do 2 xask_step. adds_step. cbn. rewrite ?app_nil_r. split; [owed|frees]. }
  adds_step. apply adds_bind. eapply adds_mono; [|apply deadline_spec]. intros deadline n1 (_ & Hs1 & H1). xask_step.
  destruct (X _ (ClientOpen _ _ _ _ _ _) _) as [status native]. apply adds_bind. eapply adds_mono; [|apply release_spec].
  intros _ n2 (_ & Hs2 & Hg & Ht). adds_step. do 2 xask_step. adds_step. split.
  - unfold balanced in *. rewrite !bind_app, H0, H1, Hg, Ht. cbn. destruct (xpcError status) as [e|] eqn:E;
      [rewrite (xpcError_some _ _ E)|apply xpcError_none in E as ->]; cbn; solve_Permutation.
  - rewrite <- ?app_assoc. frees.
Qed.

Lemma call_spec client frame oneWay h :
  adds (Call X (Some client) frame oneWay) (λ _ new, bracketed client new /\ owes [] new /\ frees_safely [] new) h.
Proof.
  unfold Call. apply (through_spec client _ _ (λ _, []) (λ _ new, frees_safely [] new)); [done|done|]. intros native h'.
  adds_step. eapply adds_mono; [|apply cancellation_spec]. intros [token|e] n0 (Hi0 & Hs0 & H0).
  2: { adds_step. rewrite app_nil_r. split_and!; [done|done|frees]. }
  adds_step. eapply adds_mono; [|apply deadline_spec]. intros deadline n1 (Hi1 & Hs1 & H1). xask_step.
  destruct (X _ (ClientCall _ _ _ _ _) _) as [[[[[status sent] output] bytes] attribute] required].
  adds_step. apply (adds_mono _ (λ _ new, Forall (inside native) new /\ frees_safely [] new /\ new ≫= takenX = [] /\ new ≫= givenX = RBytes <$> option_list output)).
  2: { destruct output; [apply adds_xask|adds_step]; (split_and!; [all_events; split; auto|done|done|done]). }
  intros _ n2 (Hi2 & Hs2 & Ht2 & Hg2). adds_step. eapply adds_mono; [|apply release_spec]. intros _ n3 (Hi3 & Hs3 & Hg & Ht). adds_step. split_and!.
  - all_events; try done. split; auto.
  - unfold balanced in *. rewrite !bind_app, H0, H1, Hg, Ht, Hg2, Ht2. cbn. solve_Permutation.
  - rewrite <- ?app_assoc. frees.
Qed.
End Facts.

(** Whatever the native core answers, every operation of an XPC object runs native
    functions on it only through its guard, on the pointer [acquire] gave and before
    [calls.Done]; it gives back everything it took - calls, C strings, cancellation
    tokens, reply buffers and refused requests - except the one object it returns; and a
    cancellation token is freed only once its callback was stopped or has run. *)
Theorem xpc_operations_tidy X h :
  (∀ o, adds (ListenerAccept X o) (λ r new, bracketed o new /\ owes (match r with Ok (n, _) => [RRequest n] | Err _ => [] end) new) h) /\
  (∀ o frame, adds (Reply X o frame) (λ _ new, bracketed o new /\ owes [] new) h) /\
  (∀ o a q, adds (RefuseUnmetProof X o a q) (λ _ new, bracketed o new /\ owes [] new) h) /\
  (∀ o, adds (xb_recheck X (Some o)) (λ _ new, bracketed o new /\ owes [] new) h) /\
  (∀ o, adds (BindXPCRequest X (Some o)) (λ _ new, bracketed o new /\ owes [] new) h) /\
  (∀ o frame oneWay, adds (Call X (Some o) frame oneWay) (λ _ new, bracketed o new /\ owes [] new /\ frees_safely [] new) h) /\
  (∀ s m, adds (OpenXPCListener X s m) (λ r new, owes (match r with Ok n => [RListener n] | Err _ => [] end) new) h) /\
  (∀ s p e m, adds (OpenXPCClient X s p e m) (λ r new, owes (match r with Ok n => [RClient n] | Err _ => [] end) new /\ frees_safely [] new) h).
Proof.
  split_and!; intros.
  - apply accept_spec.
  - apply one_call. intros. split_and!; [split; auto|done|done].
  - apply one_call. intros. split_and!; [split; auto|done|done].
  - apply one_call. intros. split_and!; [split; auto|done|done].
  - eapply adds_mono; [|apply (through_spec X o _ _ (λ _, []) (λ _ _, True)); [done|done|]]; [naive_solver|]. intros n h'.
    xask_step. destruct (X _ (RequestIdentity n) _) as [status observed].
    destruct (xpcError status); [adds_step; split_and!; [all_events; split; auto|owed|done]|].
    do 2 xask_step. adds_step. split_and!; [all_events; split; auto|owed|done].
  - apply call_spec.
  - apply open_listener_spec.
  - apply open_client_spec.
Qed.

(** An XPC peer is what the native core observed of that very message. A binding
    names the request it was made of; its path is the path of the message's code and its
    user and process those of the message's connection, at the kernel's rung exactly when
    the core found connection and code to agree; package and code stay unknown; and the
    peer lies within the ceiling of XPC, so that a policy [CanEver] refuses is never met.
    The binding answers for its request only while that is active and not closing. *)
Theorem xpc_peer_evidence X o h o' p t h' :
  BindXPCRequest X (Some o) h = (Ok (o', p, t), h') →
  o' = o /\
  (∃ n new observed now, h' = h ++ new /\ Xv (Acquire o) (Some n) ∈ new /\ Xv (RequestIdentity n) (0, observed) ∈ new /\
     p = xpcPeer observed now /\
     attr_value (PPath p) = message_path observed /\ UID (attr_value (PUser p)) = connection_euid observed /\
     PID (attr_value (PProcess p)) = connection_pid observed /\
     (attr_proof (PUser p) = ProofKernel ↔ connection_principal_message_coherent observed ≠ 0) /\
     (attr_proof (PProcess p) = ProofKernel ↔ connection_principal_message_coherent observed ≠ 0)) /\
  within p (Best xpcLimits) /\ (∀ n, CheckPeer p n = None → LimitsCanEver xpcLimits n = None) /\
  ∀ h2, (xb_recheck X (Some o) h2).1 = None ↔
    ∃ n, X _ (Acquire o) h2 = Some n /\ X _ (RequestActive n) (h2 ++ [Xv (Acquire o) (Some n)]) ≠ 0.
Proof.
  unfold BindXPCRequest, through, xask, act, mbind, Hist_bind, mret, Hist_ret. destruct (X _ (Acquire o) h) as [n|] eqn:Ea; [|done].
  destruct (X _ (RequestIdentity n) _) as [status observed] eqn:Ei. destruct (xpcError status) eqn:Es; [done|]. apply xpcError_none in Es as ->.
  match goal with |- context [xpcPeer observed ?t] => generalize t end. intros now [= <- <- _ <-]. split; [done|].
  assert (within (xpcPeer observed now) (Best xpcLimits)) as Hw.
  { unfold xpcPeer. destruct (connection_principal_message_coherent observed =? 0); by intros []. }
  split; [|split; [done|split]].
  - eexists n, _, observed, now. split; [by rewrite <- !app_assoc|]. split; [by left|]. split; [right; by left|].
    split_and!; try done; unfold xpcPeer; destruct (connection_principal_message_coherent observed =? 0) eqn:E; to_prop; cbn; split; done.
  - intros m. apply CanEver_exact_l; [done|]. by intros [].
  - intros h2. unfold xb_recheck, through, xask, act, mbind, Hist_bind, mret, Hist_ret. destruct (X _ (Acquire o) h2) as [m|] eqn:Em; cbn.
    + destruct (X _ (RequestActive m) _ =? 0) eqn:E; cbn; to_prop; split; try done.
      * intros (? & [= <-] & ?). done.
      * intros _. by exists m.
    + split; [done|]. by intros (? & [=] & _).
Qed.

(** One message of a coherent sender, over a core that always answers. *)
Definition exampleCore : ∀ A, xquestion A → list xevent → A := λ A q _,
  match q in xquestion A return A with
  | Acquire o => Some (o + 100)
  | CallDone _ => tt
  | ObjectClose _ => tt
  | ListenerOpen _ _ => (0, 1)
  | ListenerNext _ => (0, 2)
  | RequestBytes _ => (0, [])
  | RequestFree _ => tt
  | RequestIdentity _ => (0, mkXI 42 501 20 "/Applications/A.app/Contents/MacOS/A" "org.example.a" "TEAM" "valid" 1)
  | RequestReply _ _ => 0
  | RequestRefuse _ _ _ => 0
  | RequestActive _ => 1
  | Available => 1
  | NowNs => 5
  | CancelCreate => (0, 3)
  | CancelFree _ => tt
  | StopCallback _ => true
  | CallbackEnded _ => tt
  | ClientOpen _ _ _ _ _ _ => (0, 4)
  | ClientCall _ frame _ _ _ => (0, Z.of_nat (length frame), Some 6, frame, 0, 0)
  | BytesFree _ => tt
  | NewCString _ => 7
  | FreeCString _ => tt
  | XPCNow => 9
  | CtxErr => None
  | CtxDeadline => None
  end.

Lemma xpc_peer_evidence_witness :
  match BindXPCRequest exampleCore (Some 2) [] with
  | (Ok (o, p, _), _) => o = 2 /\ attr_value (PPath p) = "/Applications/A.app/Contents/MacOS/A" /\ attr_proof (PUser p) = ProofKernel /\
      within p (Best xpcLimits)
  | _ => False
  end.
Proof.
  destruct (BindXPCRequest exampleCore (Some 2) []) as [[[[o p] t]|e] h] eqn:E; [|vm_compute in E; discriminate].
  destruct (xpc_peer_evidence exampleCore 2 [] o p t h E) as (-> & _ & Hw & _). split; [done|].
  split_and!; [| |exact Hw]; vm_compute in E; by injection E as <- _ _.
Defined.
