(* ===== verification/XPCEndpoint.v ===== *)
(** listen/message_endpoint_darwin.go: endpoints named [xpc:service], served and called
    as messages: the listener's connections, the refusal of a caller and one call of a
    client. *)

From S2P Require Import Prelude GoStrings GoError GoBinary ProofLadder Peer Binding GoIO Frame GoFilepath PathIdentity Program ServerConn Pool Framed Events XPC.

Section Endpoint.
Context (X : ∀ A, xquestion A → list xevent → A).

(** [listenMessageEndpoint]: the native listener, and whether the endpoint is one of
    messages at all. *)
Definition listenMessageEndpoint (endpoint : string) : Hist xevent (result (option Z) * bool) :=
  let isXPC := HasPrefix endpoint "xpc:" in
  match xpcService endpoint with
  | Err e => mret (Err e, isXPC)
  | Ok service =>
      if String.eqb service "" then mret (Ok None, isXPC)
      else
        r ← OpenXPCListener X service DefaultMaxFrame;
        mret (match r with Err e => Err e | Ok native => Ok (Some native) end, true)
  end.

(** [xpcConn]: one message and its request, with what the native core was asked so far
    and the state of the binding made of it. *)
Record xpcConn := mkXpcConn { xc_request : Z; xc_frame : list byte; xc_hist : list xevent; xc_released : bool; xc_closeErr : option err }.

Definition xc_run {A} (m : Hist xevent A) (c : xpcConn) : A * xpcConn :=
  let '(a, h) := m (xc_hist c) in (a, mkXpcConn (xc_request c) (xc_frame c) h (xc_released c) (xc_closeErr c)).

(** The byte stream and the binding of a message's connection: there is none. *)
Definition xpcConnRead : list byte * err := ([], Sentinel IoEOF).
Definition xpcConnWrite : Z * err := (0, Sentinel IoErrClosedPipe).
Definition xpcConnBind {T} : result (Binding T) := Err (Sentinel ErrNoBinding).

(** [xpcConn.refuseProof]. *)
Definition refuseProof (request : Z) (e : err) : Hist xevent (option err) :=
  let tokens := proofRefusalBytes e in
  RefuseUnmetProof X request (bz (nth 4 tokens x00)) (bz (nth 5 tokens x00)).

(** The reply of a received message. *)
Definition messageReply (replyCtx : context) (request : Z) (reply : list byte) : Hist xevent (option err) :=
  match ctx_done replyCtx with Some e => mret (Some e) | None => Reply X request reply end.

(** The binding of a message, whose state its connection keeps. *)
Definition messageStore (c : xpcConn) : bindingState (option Z * list xevent) :=
  mkState (Some (xc_request c), xc_hist c) (xc_released c) (xc_closeErr c).
Definition withStore (c : xpcConn) (s : bindingState (option Z * list xevent)) : xpcConn :=
  mkXpcConn (xc_request c) (xc_frame c) (inner s).2 (closed s) (closeErr s).
Definition messageBinder : binder xpcConn :=
  let b := bindingState_binder (xpcBinder X) in
  mkBinder
    (λ c, let '(e, s) := recheck b (messageStore c) in (e, withStore c s))
    (λ c, let '(r, s) := alive b (messageStore c) in (r, withStore c s))
    (λ c, let '(e, s) := release b (messageStore c) in (e, withStore c s)).

(** Whether the channel [XPCRequest.Done] is closed, after what was asked so far. *)
Context (Done : Z → list xevent → bool).

(** [xpcConn.receiveMessage]. *)
Definition receiveMessage (_ : context) (limit : Z) (c : xpcConn) : receivedMessage xpcConn * option err * xpcConn :=
  if limit <? blen (xc_frame c) then (mkMessage [] None None None, Some (Sentinel ErrFrameTooLarge), c)
  else
    match BindXPCRequest X (Some (xc_request c)) (xc_hist c) with
    | (Err e, h) => (mkMessage [] None None None, Some e, mkXpcConn (xc_request c) (xc_frame c) h (xc_released c) (xc_closeErr c))
    | (Ok (_, p, at_), h) =>
        (mkMessage (xc_frame c) (Some (mkBinding p at_ messageBinder)) (Some (λ c, Done (xc_request c) (xc_hist c)))
           (Some (λ x reply c, xc_run (messageReply x (xc_request c) reply) c)),
         None, mkXpcConn (xc_request c) (xc_frame c) h false None)
    end.

#[global] Instance xpcConn_Framed : FramedConn xpcConn := {|
  fc_Reader := {| read _ c := (xpcConnRead.1, Some xpcConnRead.2, c); incoming _ := xpcConnRead; reads_left _ := 0%nat |};
  fc_Writer := λ _ c, (xpcConnWrite.1, Some xpcConnWrite.2, c);
  fc_bind := λ c, (xpcConnBind, c);
  fc_setDeadline := None;
  fc_refuseProof := Some (λ e c, xc_run (refuseProof (xc_request c) e) c);
  fc_requestValid := None;
  fc_receiveMessage := Some receiveMessage;
  fc_close := λ c, (xc_run (xask X (ObjectClose (xc_request c))) c).2;
  taken _ := []
|}.

#[global] Instance xpcConn_FramedOk : FramedConnOk xpcConn.
Proof. constructor; try done. intros n s bs e s' [= <- <- <-]. cbn. split; [lia|done]. Qed.

(** What a caller is told of a failed call; its reply is nil already. *)
Definition callError (e : err) : err :=
  match e with
  | XPCRefusalErr attribute required =>
      match proofAttributes !! Z.to_nat attribute with
      | Some name => RefusalErr name required
      | None => e
      end
  | e => e
  end.

(** [messageFrameCall]: the reply, whether the endpoint is one of messages, and the
    error. *)
Definition messageFrameCall (c : FrameClient) (frame : list byte) (oneWay : bool) : Hist xevent (list byte * bool * option err) :=
  let isXPC := HasPrefix (Endpoint c) "xpc:" in
  if Dialer c then mret ([], false, None)
  else
    match xpcService (Endpoint c) with
    | Err e => mret ([], isXPC, Some e)
    | Ok service =>
        if String.eqb service "" then mret ([], isXPC, None)
        else
          match Server c with
          | None => mret ([], true, Some (Sentinel ErrServerUntrusted))
          | Some s =>
              match SProcess s with
              | Some _ => mret ([], true, Some (Wrap "XPC process-instance pinning is unavailable" [Sentinel ErrServerUntrusted]))
              | None =>
                  match validate s with
                  | Some e => mret ([], true, Some e)
                  | None =>
                      let u := Principal s in
                      if negb (String.eqb (Kind u) "posix") || (UID u <? 0) || (2 ^ 32 - 1 <? UID u)
                      then mret ([], true, Some (Sentinel ErrServerUntrusted))
                      else
                        o ← OpenXPCClient X service (SProgram s) (UID u) (frameLimit (MaxFrame c));
                        match o with
                        | Err e =>
                            mret ([], true, Some (if errors_is e ErrNoBinding then Wrap "" [Sentinel ErrServerUntrusted; e] else e))
                        | Ok client =>
                            '(reply, _, e) ← Call X (Some client) frame oneWay;
                            _ ← xask X (ObjectClose client);
                            mret (reply, true, callError <$> e)
                        end
                  end
              end
          end
    end.
End Endpoint.

(** A message of a coherent sender is received when the policy asks no more than the
    core observed, and a policy it cannot meet ends in a refusal sent to the caller. *)
Example message_received :
  let need process := mkNeed ProofKernel process ProofBound ProofNone ProofNone in
  let receive process := @ReceiveFramed xpcConn (xpcConn_Framed exampleCore (λ _ _, false)) (mkCtx None [] None)
    (mkXpcConn 2 [x01; x02] [] true None) (need process) 0 [] in
  (is_ok (receive ProofKernel).1 = true /\ k_Frame (receive ProofKernel).2 = [x01; x02]) /\
  is_ok (receive ProofSigned).1 = false /\
  ∃ a w s, Xv (RequestRefuse 102 a w) s ∈ xc_hist (k_conn (receive ProofSigned).2).
Proof.
  split_and!; [vm_compute; reflexivity..|]. do 3 eexists. vm_compute. repeat first [left | right].
Qed.

(** ** Refusals *)

(** What the native core accepts of a refusal ([oa_xpc_request_refuse_unmet_proof]). *)
Definition coreAccepts (attribute required : Z) : bool :=
  (attribute <=? 5) && (required <=? 8) && eqb (attribute =? 0) (required =? 0).

(** The two numbers [refuseProof] sends. *)
Definition tokensOf (e : err) : Z * Z := (bz (nth 4 (proofRefusalBytes e) x00), bz (nth 5 (proofRefusalBytes e) x00)).

Lemma tokensOf_spec e :
  let '(a, w) := tokensOf e in
  ((a = 0 /\ w = 0) \/ (0 < a < 6 /\ 0 < w <= 8)) /\
  match errors_as_proof e with
  | Some (attribute, want, _, _) =>
      if bool_decide (attribute ∈ drop 1 proofAttributes) && (ProofNone <? want) && (want <=? ProofSigned)
      then proofAttributes !! Z.to_nat a = Some attribute /\ w = want else a = 0 /\ w = 0
  | None => a = 0 /\ w = 0
  end.
Proof.
  unfold tokensOf, proofRefusalBytes. destruct (errors_as_proof e) as [[[[attribute want] got] why]|]; [|vm_compute; naive_solver].
  pose proof (refusalTokens_spec attribute want) as Hs. destruct (refusalTokens _ _ _ _) as [a w]. cbn [nth app be32_put].
  rewrite !bz_zb. destruct (bool_decide _ && _ && _).
  - destruct Hs as (? & ? & ? & ?). rewrite !Z.mod_small by lia. naive_solver.
  - destruct Hs as [-> ->]. vm_compute. naive_solver.
Qed.

(** What an endpoint of messages sends and asks for. *)
Definition opens_client (e : xevent) : option (string * string * Z) :=
  match e with Xv q _ => match q with ClientOpen name program euid _ _ _ => Some (name, program, euid) | _ => None end end.

Definition calls_client (e : xevent) : bool := match e with Xv q _ => match q with ClientCall _ _ _ _ _ => true | _ => false end end.

(** The server a call of [c] may reach: the service of its endpoint, the program and the
    user it expects, and nothing it does not expect. *)
Definition expected (c : FrameClient) (asked : string * string * Z) : Prop :=
  Dialer c = false /\ xpcService (Endpoint c) = Ok asked.1.1 /\ asked.1.1 ≠ "" /\
  ∃ s, Server c = Some s /\ SProcess s = None /\ validate s = None /\ Kind (Principal s) = "posix" /\ 0 <= UID (Principal s) < 2 ^ 32 /\
    asked.1.2 = SProgram s /\ asked.2 = UID (Principal s).

(** A run that reached nobody else, and asked nobody before it had reached somebody. *)
Definition reached (c : FrameClient) (new : list xevent) : Prop :=
  (∀ e asked, e ∈ new → opens_client e = Some asked → expected c asked) /\
  (∀ e, e ∈ new → calls_client e = true → ∃ e' asked, e' ∈ new /\ opens_client e' = Some asked).

(** Every event of a run asks one client open at most, the one of [asked]. *)
Lemma open_client_asks X service program euid maxReply :
  only (λ e, calls_client e = false /\ (opens_client e = None \/ opens_client e = Some (service, program, euid)))
    (OpenXPCClient X service program euid maxReply).
Proof.
  unfold OpenXPCClient, xpcCancellation, xpcDeadline, releaseCancellation, xask.
  only_acts.
Qed.

Lemma call_asks X client frame oneWay : only (λ e, opens_client e = None) (Call X (Some client) frame oneWay).
Proof.
  unfold Call, through, xpcCancellation, xpcDeadline, releaseCancellation, xask.
  only_acts.
Qed.

Lemma open_client_opened X service program euid maxReply h :
  adds (OpenXPCClient X service program euid maxReply)
    (λ r new, is_ok r = true → ∃ e asked, e ∈ new /\ opens_client e = Some asked) h.
Proof.
  unfold OpenXPCClient. destruct (_ || _); [by adds_step|]. do 2 xask_step. adds_step.
  eapply adds_mono; [|apply cancellation_spec]. intros [token|e] n0 _; [|do 2 adds_step; do 2 xask_step; by adds_step].
  adds_step. apply adds_bind. eapply adds_mono; [|apply deadline_spec]. intros deadline n1 _. xask_step.
  destruct (X _ (ClientOpen _ _ _ _ _ _) _) as [status native]. apply adds_bind. eapply adds_mono; [|apply release_spec].
  intros _ n2 _. adds_step. do 2 xask_step. adds_step. intros _. eexists (Xv (ClientOpen service program euid maxReply deadline token) (status, native)), _.
  split; [|done]. rewrite !elem_of_app. do 3 right. left. right. left. by left.
Qed.

Lemma reached_nothing c new : Forall (λ e, opens_client e = None /\ calls_client e = false) new → reached c new.
Proof.
  intros H. rewrite Forall_forall in H. split; intros e.
  - intros asked [Ho _]%H. congruence.
  - intros [_ Hc]%H. congruence.
Qed.

(** A call over XPC reaches nobody but the server the client expects. Whatever the
    native core answers, the only server [messageFrameCall] opens is the service of the
    endpoint with the program and the user of an expectation that is valid, names no
    process and whose user fits 32 bits; a frame is handed over only after such an open,
    the client it opened is closed again, and everything else is given back. And a
    refusal survives the way: the two numbers a service refuses with are ones the native
    core accepts, and the caller reads them back as the error the byte protocol gives. *)
Theorem xpc_message_call X c frame oneWay h :
  adds (messageFrameCall X c frame oneWay) (λ r new, reached c new /\ balanced takenX givenX [] new /\ frees_safely [] new /\
    (Dialer c = true → r = ([], false, None) /\ new = [])) h /\
  ∀ e, let '(a, w) := tokensOf e in
    coreAccepts a w = true /\ callError (XPCRefusalErr a w) = refusalOf a w /\ errors_is (refusalOf a w) ErrCallerProofUnmet = true.
Proof.
  split.
  - assert (∀ r, Dialer c = false → adds (mret r) (λ (r : list byte * bool * option err) new, reached c new /\ balanced takenX givenX [] new /\
      frees_safely [] new /\ (Dialer c = true → r = ([], false, None) /\ new = [])) h) as Hret.
    { intros r Hd. adds_step. split_and!; [by apply reached_nothing|owed|done|congruence]. }
    unfold messageFrameCall. destruct (Dialer c) eqn:Hd; [adds_step; split_and!; [by apply reached_nothing|owed|done|done]|].
    destruct (xpcService (Endpoint c)) as [service|e] eqn:Hs; [|by apply Hret]. destruct (String.eqb service "") eqn:He; [by apply Hret|].
    destruct (Server c) as [s|] eqn:Hsv; [|by apply Hret]. destruct (SProcess s) eqn:Hp; [by apply Hret|].
    destruct (validate s) eqn:Hv; [by apply Hret|]. destruct (negb _ || _ || _) eqn:Hk; [by apply Hret|]. clear Hret.
    apply orb_false_iff in Hk as [[Hk1%negb_false_iff Hk2]%orb_false_iff Hk3]. to_prop.
    assert (expected c (service, SProgram s, UID (Principal s))) as Hexp by (split_and!; [done|done|done|]; exists s; split_and!; done || lia).
    adds_step. eapply adds_mono; [|apply adds_and; [apply open_client_spec|apply adds_and; [apply open_client_asks|apply open_client_opened]]].
    intros [client|e] n1 ((Ho1 & Hf1) & Ha1 & Hop); rewrite Forall_forall in Ha1.
    2: { adds_step. rewrite app_nil_r. split_and!; [split|done|done|done]; intros x.
         - intros asked Hx Hq. destruct (Ha1 x Hx) as [_ [?|?]]; [congruence|]. by simplify_eq.
         - intros Hx Hq. destruct (Ha1 x Hx). congruence. }
    adds_step. eapply adds_mono; [|apply adds_and; [apply call_spec|apply call_asks]]. intros [[reply sent] e] n2 ((_ & Ho2 & Hf2) & Ha2).
    rewrite Forall_forall in Ha2. xask_step. adds_step. split_and!.
    + split; intros x.
      * intros asked. rewrite !elem_of_app. intros [Hx|[Hx|[Hx|Hx]]] Hq; [destruct (Ha1 x Hx) as [_ [?|?]]; [congruence|by simplify_eq]|..].
        -- by rewrite (Ha2 x Hx) in Hq.
        -- apply list_elem_of_singleton in Hx as ->. done.
        -- by apply not_elem_of_nil in Hx.
      * intros _ _. destruct (Hop eq_refl) as (x' & asked & ? & ?). exists x', asked. rewrite elem_of_app. auto.
    + owed.
    + frees.
    + congruence.
  - intros e. pose proof (tokensOf_spec e) as Ht. destruct (tokensOf e) as [a w]. destruct Ht as [Ht _].
    unfold coreAccepts, callError, refusalOf, ProofSigned. cbn [length proofAttributes].
    destruct Ht as [[-> ->]|[Ha Hw]]; [done|].
    assert (∃ name, proofAttributes !! Z.to_nat a = Some name) as [name ->] by (apply lookup_lt_is_Some; cbn; lia).
    change (Z.of_nat 6) with 6. rewrite (proj2 (Z.leb_le a 5)), (proj2 (Z.leb_le w 8)), (proj2 (Z.leb_gt 6 a)), (proj2 (Z.ltb_ge 8 w)),
      !(proj2 (Z.eqb_neq _ 0)) by lia. done.
Qed.
