(* ===== verification/NamesWindows.v ===== *)
(** pathname_windows.go: file names compared as Windows compares them, and their keys.

    The two system functions are parameters: [CompareStringOrdinal], and the uppercase
    table [RtlUpcaseUnicodeChar] reads, of UTF-16 code units. *)

From S2P Require Import Prelude GoStrings GoError GoBinary.

(** ** Text *)

(** A Unicode scalar value. *)
Definition scalar (r : Z) : Prop := 0 <= r < 0xD800 \/ 0xE000 <= r < 0x110000.

Definition cont (b : Z) : bool := (0x80 <=? b) && (b <? 0xC0).

(** The runes of a UTF-8 text, [None] when it is not valid ([utf8.ValidString]). *)
Fixpoint utf8Runes (bs : list Z) : option (list Z) :=
  match bs with
  | [] => Some []
  | b0 :: rest =>
      if b0 <? 0x80 then (b0 ::.) <$> utf8Runes rest
      else if (0xC2 <=? b0) && (b0 <? 0xE0) then
        match rest with
        | b1 :: rest => if cont b1 then ((b0 - 0xC0) * 64 + (b1 - 0x80) ::.) <$> utf8Runes rest else None
        | [] => None
        end
      else if (0xE0 <=? b0) && (b0 <? 0xF0) then
        match rest with
        | b1 :: b2 :: rest =>
            if ((if (b0 =? 0xE0)%Z then 0xA0 else 0x80) <=? b1) && (b1 <? (if (b0 =? 0xED)%Z then 0xA0 else 0xC0)) && cont b2
            then ((b0 - 0xE0) * 4096 + (b1 - 0x80) * 64 + (b2 - 0x80) ::.) <$> utf8Runes rest
            else None
        | _ => None
        end
      else if (0xF0 <=? b0) && (b0 <? 0xF5) then
        match rest with
        | b1 :: b2 :: b3 :: rest =>
            if ((if (b0 =? 0xF0)%Z then 0x90 else 0x80) <=? b1) && (b1 <? (if (b0 =? 0xF4)%Z then 0x90 else 0xC0)) && cont b2 && cont b3
            then ((b0 - 0xF0) * 262144 + (b1 - 0x80) * 4096 + (b2 - 0x80) * 64 + (b3 - 0x80) ::.) <$> utf8Runes rest
            else None
        | _ => None
        end
      else None
  end.

Definition runes (s : string) : option (list Z) := utf8Runes (map bz (String.list_byte_of_string s)).

(** [utf16.Encode]. *)
Definition utf16Rune (r : Z) : list Z :=
  if ((0 <=? r) && (r <? 0xD800)) || ((0xE000 <=? r) && (r <? 0x10000)) then [r]
  else if (0x10000 <=? r) && (r <=? 0x10FFFF)
  then [0xD800 + Z.land (Z.shiftr (r - 0x10000) 10) 0x3FF; 0xDC00 + Z.land (r - 0x10000) 0x3FF]
  else [0xFFFD].

Definition utf16Encode (rs : list Z) : list Z := flat_map utf16Rune rs.

(** ** The system's names *)

Class WindowsNames := {
  compareStringOrdinal : list Z → list Z → Z;
  upcaseUnit : Z → Z
}.

Definition surrogate (u : Z) : bool := (0xD800 <=? u) && (u <? 0xE000).

(** What Microsoft documents of them: the comparison ignores case by that table, unit by
    unit, and the table maps letters to letters of the basic plane, those of ASCII among
    themselves. *)
Class WindowsNamesOk `{WindowsNames} := {
  ordinal_by_table a b : compareStringOrdinal a b = 2 ↔ map upcaseUnit a = map upcaseUnit b;
  upcase_plain u : 0 <= u < 2 ^ 16 → surrogate u = false → 0 <= upcaseUnit u < 2 ^ 16 /\ surrogate (upcaseUnit u) = false;
  upcase_surrogate u : surrogate u = true → upcaseUnit u = u;
  upcase_ascii u : 0 <= u < 0x80 → upcaseUnit u = if (97 <=? u) && (u <=? 122) then u - 32 else u;
  upcase_other u : 0x80 <= u < 2 ^ 16 → 0x80 <= upcaseUnit u
}.

Section Names.
Context `{WindowsNames}.

(** [ordinalEqualIgnoringCase]. *)
Definition ordinalEqualIgnoringCase (a b : string) : bool :=
  match runes a, runes b with
  | Some ra, Some rb =>
      let a16 := utf16Encode ra in
      let b16 := utf16Encode rb in
      if negb (length a16 =? length b16)%nat then false
      else if (length a16 =? 0)%nat then true
      else compareStringOrdinal a16 b16 =? 2
  | _, _ => String.eqb a b
  end.

(** [upcaseKey]. *)
Definition upcaseKey (p : string) : string :=
  match runes p with
  | Some r => utf16String (map upcaseUnit (utf16Encode r))
  | None => p
  end.
End Names.

(** ** UTF-8 and UTF-16 are codes *)

Lemma lor_low x k y : 0 <= k → 0 <= y < 2 ^ k → Z.lor (x * 2 ^ k) y = x * 2 ^ k + y.
Proof.
  intros Hk Hy. rewrite <- Z.shiftl_mul_pow2 by done. pose proof (Z.add_lor_land (Z.shiftl x k) y) as Hs.
  replace (Z.land (Z.shiftl x k) y) with 0 in Hs; [lia|].
  symmetry. apply Z.bits_inj'. intros i Hi. rewrite Z.land_spec, Z.bits_0. destruct (Z.lt_ge_cases i k).
  - by rewrite Z.shiftl_spec_low.
  - destruct (Z.eq_dec y 0) as [->|]; [by rewrite Z.bits_0, andb_false_r|]. rewrite (Z.bits_above_log2 y i), andb_false_r; [done|lia|].
    apply Z.log2_lt_pow2; [lia|]. eapply Z.lt_le_trans; [apply Hy|]. by apply Z.pow_le_mono_r.
Qed.

Lemma low6 n : Z.land n 0x3F = n mod 64.
Proof. apply (Z.land_ones n 6). lia. Qed.

Lemma low10 n : Z.land n 0x3FF = n mod 1024.
Proof. apply (Z.land_ones n 10). lia. Qed.

(** The bytes of a rune, by arithmetic. *)
Lemma utf8Rune_bytes r : scalar r →
  map bz (utf8Rune r) =
    if r <? 0x80 then [r]
    else if r <? 0x800 then [0xC0 + r / 64; 0x80 + r mod 64]
    else if r <? 0x10000 then [0xE0 + r / 4096; 0x80 + (r / 64) mod 64; 0x80 + r mod 64]
    else [0xF0 + r / 262144; 0x80 + (r / 4096) mod 64; 0x80 + (r / 64) mod 64; 0x80 + r mod 64].
Proof.
  intros Hr. unfold utf8Rune. rewrite !low6, !Z.shiftr_div_pow2 by lia.
  change (2 ^ 6) with 64. change (2 ^ 12) with 4096. change (2 ^ 18) with 262144.
  pose proof (Z.mod_pos_bound r 64 ltac:(lia)). pose proof (Z.mod_pos_bound (r / 64) 64 ltac:(lia)).
  pose proof (Z.mod_pos_bound (r / 4096) 64 ltac:(lia)).
  assert (∀ y, 0 <= y < 64 → Z.lor 0x80 y = 0x80 + y) as H80 by (intros; by apply (lor_low 2 6)).
  rewrite !H80 by done.
  destruct (r <? 0x80) eqn:E1; [|destruct (r <? 0x800) eqn:E2; [|destruct (r <? 0x10000) eqn:E3]]; to_prop; cbn [map]; rewrite !bz_zb.
  - by rewrite Z.mod_small by (destruct Hr; lia).
  - assert (0 <= r / 64 < 32) by (split; [apply Z.div_pos|apply Z.div_lt_upper_bound]; lia).
    rewrite (lor_low 6 5) by (done || lia). change (6 * 2 ^ 5) with 0xC0. by rewrite !(Z.mod_small _ 256) by lia.
  - assert (0 <= r / 4096 < 16) by (split; [apply Z.div_pos|apply Z.div_lt_upper_bound]; lia).
    rewrite (lor_low 14 4) by (done || lia). change (14 * 2 ^ 4) with 0xE0. by rewrite !(Z.mod_small _ 256) by lia.
  - assert (0 <= r / 262144 < 8) by (split; [apply Z.div_pos|apply Z.div_lt_upper_bound]; destruct Hr; lia).
    rewrite (lor_low 30 3) by (done || lia). change (30 * 2 ^ 3) with 0xF0. by rewrite !(Z.mod_small _ 256) by lia.
Qed.

(** One rune is read back. *)
Lemma utf8Runes_rune r rest : scalar r → utf8Runes (map bz (utf8Rune r) ++ rest) = (r ::.) <$> utf8Runes rest.
Proof.
  intros Hr. rewrite utf8Rune_bytes by done.
  pose proof (Z.mod_pos_bound r 64 ltac:(lia)). pose proof (Z.div_mod r 64 ltac:(lia)).
  destruct (r <? 0x80) eqn:E1; [cbn; by rewrite E1|]. destruct (r <? 0x800) eqn:E2; [|destruct (r <? 0x10000) eqn:E3]; to_prop; cbn [app utf8Runes];
    unfold cont.
  - rewrite (proj2 (Z.ltb_ge _ 0x80)), (proj2 (Z.leb_le 0xC2 _)), (proj2 (Z.ltb_lt _ 0xE0)) by lia. cbn [andb].
    rewrite (proj2 (Z.leb_le 0x80 _)), (proj2 (Z.ltb_lt _ 0xC0)) by lia. cbn [andb]. f_equal. f_equal. f_equal. lia.
  - pose proof (Z.mod_pos_bound (r / 64) 64 ltac:(lia)). pose proof (Z.div_mod (r / 64) 64 ltac:(lia)).
    rewrite Z.div_div in * by lia. change (64 * 64) with 4096 in *.
    rewrite (proj2 (Z.ltb_ge _ 0x80)), (proj2 (Z.ltb_ge _ 0xE0)), andb_false_r, (proj2 (Z.leb_le 0xE0 _)), (proj2 (Z.ltb_lt _ 0xF0)) by lia. cbn [andb].
    rewrite (proj2 (Z.leb_le 0x80 (0x80 + r mod 64))), (proj2 (Z.ltb_lt (0x80 + r mod 64) 0xC0)) by lia.
    replace (_ <=? 0x80 + (r / 64) mod 64) with true by (symmetry; apply Z.leb_le; destruct (0xE0 + r / 4096 =? 0xE0) eqn:E; to_prop; lia).
    replace (0x80 + (r / 64) mod 64 <? _) with true
      by (symmetry; apply Z.ltb_lt; destruct (0xE0 + r / 4096 =? 0xED) eqn:E; to_prop; destruct Hr; lia).
    cbn [andb]. f_equal. f_equal. f_equal. lia.
  - pose proof (Z.mod_pos_bound (r / 64) 64 ltac:(lia)). pose proof (Z.div_mod (r / 64) 64 ltac:(lia)).
    pose proof (Z.mod_pos_bound (r / 4096) 64 ltac:(lia)). pose proof (Z.div_mod (r / 4096) 64 ltac:(lia)).
    rewrite !Z.div_div in * by lia. change (64 * 64) with 4096 in *. change (4096 * 64) with 262144 in *.
    assert (0 <= r / 262144 < 5) by (split; [apply Z.div_pos|apply Z.div_lt_upper_bound]; destruct Hr; lia).
    rewrite (proj2 (Z.ltb_ge (0xF0 + r / 262144) 0x80)), (proj2 (Z.ltb_ge (0xF0 + r / 262144) 0xE0)),
      (proj2 (Z.ltb_ge (0xF0 + r / 262144) 0xF0)), !andb_false_r, (proj2 (Z.leb_le 0xF0 (0xF0 + r / 262144))),
      (proj2 (Z.ltb_lt (0xF0 + r / 262144) 0xF5)) by lia. cbn [andb].
    rewrite (proj2 (Z.leb_le 0x80 (0x80 + r mod 64))), (proj2 (Z.ltb_lt (0x80 + r mod 64) 0xC0)),
      (proj2 (Z.leb_le 0x80 (0x80 + (r / 64) mod 64))), (proj2 (Z.ltb_lt (0x80 + (r / 64) mod 64) 0xC0)) by lia.
    replace (_ <=? 0x80 + (r / 4096) mod 64) with true by (symmetry; apply Z.leb_le; destruct (0xF0 + r / 262144 =? 0xF0) eqn:E; to_prop; lia).
    replace (0x80 + (r / 4096) mod 64 <? _) with true
      by (symmetry; apply Z.ltb_lt; destruct (0xF0 + r / 262144 =? 0xF4) eqn:E; to_prop; destruct Hr; lia).
    cbn [andb]. f_equal. f_equal. f_equal. lia.
Qed.

Lemma utf8_code rs : Forall scalar rs → utf8Runes (map bz (flat_map utf8Rune rs)) = Some rs.
Proof. induction 1 as [|r rs Hr _ IH]; [done|]. cbn [flat_map]. by rewrite map_app, utf8Runes_rune, IH. Qed.

(** What is read from valid text are scalar values. *)
Lemma utf8Runes_scalar n bs rs : (length bs <= n)%nat → Forall (λ b, 0 <= b) bs → utf8Runes bs = Some rs → Forall scalar rs.
Proof.
  revert bs rs. induction n as [|n IH]; intros [|b0 rest] rs Hn Hb; cbn [utf8Runes length] in *; try lia; intros; simplify_eq; try by constructor.
  repeat case_hyp H; try discriminate; rewrite fmap_Some in H; destruct H as (rs' & Hrs & ->); unfold cont in *;
    repeat match goal with H : Forall _ (_ :: _) |- _ => apply Forall_cons in H as [? H] end;
    (constructor; [|eapply IH; [..|exact Hrs]; [cbn in *; lia|done]]); to_prop; unfold scalar; lia.
Qed.

Lemma runes_scalar s rs : runes s = Some rs → Forall scalar rs.
Proof. apply (utf8Runes_scalar _ _ _ (le_n _)). apply Forall_map, Forall_forall. intros b _. cbn. apply bz_range. Qed.

(** ** Well-formed UTF-16 *)

Inductive wf16 : list Z → Prop :=
  | wf_nil : wf16 []
  | wf_unit u us : 0 <= u < 2 ^ 16 → surrogate u = false → wf16 us → wf16 (u :: us)
  | wf_pair h l us : 0xD800 <= h < 0xDC00 → 0xDC00 <= l < 0xE000 → wf16 us → wf16 (h :: l :: us).

Lemma utf16Encode_wf rs : Forall scalar rs → wf16 (utf16Encode rs).
Proof.
  unfold utf16Encode. induction 1 as [|r rs Hr _ IH]; [constructor|]. cbn [flat_map]. unfold utf16Rune. rewrite !low10.
  repeat case_goal; to_prop; cbn [app].
  - constructor; [destruct Hr; lia|unfold surrogate; destruct Hr; lia|done].
  - rewrite Z.shiftr_div_pow2 by lia. pose proof (Z.mod_pos_bound (r - 65536) 1024 ltac:(lia)).
    pose proof (Z.mod_pos_bound ((r - 65536) / 2 ^ 10) 1024 ltac:(lia)). constructor; [lia|lia|done].
  - unfold scalar in Hr. lia.
Qed.

(** Decoding well-formed text gives scalar values that encode to it. *)
Lemma utf16Decode_wf us : wf16 us → Forall scalar (utf16Decode us) /\ utf16Encode (utf16Decode us) = us.
Proof.
  unfold utf16Encode. induction 1 as [|u us Hu Hs _ [IHs IHe]|h l us Hh Hl _ [IHs IHe]]; cbn [utf16Decode]; [done|..].
  - unfold surrogate in Hs. replace ((u <? 0xD800) || (0xE000 <=? u)) with true by lia.
    split; [constructor; [unfold scalar; lia|done]|]. cbn [flat_map]. rewrite IHe. unfold utf16Rune.
    replace (((0 <=? u) && (u <? 0xD800)) || ((0xE000 <=? u) && (u <? 0x10000))) with true by lia. done.
  - replace ((h <? 0xD800) || (0xE000 <=? h)) with false by lia. replace (h <? 0xDC00) with true by lia.
    replace ((0xDC00 <=? l) && (l <? 0xE000)) with true by lia.
    rewrite Z.shiftl_mul_pow2, lor_low by lia. split; [constructor; [unfold scalar; lia|done]|].
    cbn [flat_map]. rewrite IHe. unfold utf16Rune. rewrite !low10, Z.shiftr_div_pow2 by lia.
    rewrite (proj2 (orb_false_iff _ _)) by (split; lia).
    rewrite (proj2 (andb_true_iff _ _)) by (split; lia). cbn [app].
    replace ((h - 0xD800) * 2 ^ 10 + (l - 0xDC00) + 0x10000 - 0x10000) with ((h - 0xD800) * 1024 + (l - 0xDC00)) by lia.
    assert (0 <= l - 0xDC00 < 1024) as Hlow by lia. change (2 ^ 10) with 1024.
    rewrite Z.div_add_l, Z.div_small, Z.add_0_r by lia.
    rewrite (Z.add_comm (_ * 1024)), Z.mod_add, !Z.mod_small by lia. f_equal; [lia|f_equal; lia].
Qed.

(** So the text of well-formed units is valid, and says which units they were. *)
Lemma utf16String_runes us : wf16 us → runes (utf16String us) = Some (utf16Decode us).
Proof.
  intros Hus. unfold runes, utf16String. rewrite String.list_byte_of_string_of_list_byte. by apply utf8_code, utf16Decode_wf.
Qed.

Lemma utf16String_inj us vs : wf16 us → wf16 vs → utf16String us = utf16String vs → us = vs.
Proof.
  intros Hu Hv E. apply (f_equal runes) in E. rewrite !utf16String_runes in E by done. simplify_eq.
  rewrite <- (proj2 (utf16Decode_wf us Hu)), <- (proj2 (utf16Decode_wf vs Hv)). by rewrite E.
Qed.

(** ** Names and keys *)

Section NameKeys.
Context `{WindowsNamesOk}.

Lemma upcase_wf us : wf16 us → wf16 (map upcaseUnit us).
Proof.
  induction 1 as [|u us Hu Hs _ IH|h l us Hh Hl _ IH]; cbn [map]; [constructor|..].
  - destruct (upcase_plain u Hu Hs). by constructor.
  - rewrite (upcase_surrogate h), (upcase_surrogate l) by (unfold surrogate; lia). by constructor.
Qed.

Lemma key_wf s rs : runes s = Some rs → wf16 (map upcaseUnit (utf16Encode rs)).
Proof. intros Hs. apply upcase_wf, utf16Encode_wf. by eapply runes_scalar. Qed.

(** A key is its own key's text: valid text keys as valid text. *)
Lemma upcaseKey_valid s rs : runes s = Some rs → is_Some (runes (upcaseKey s)).
Proof. intros Hs. unfold upcaseKey. rewrite Hs, utf16String_runes; [eauto|by eapply key_wf]. Qed.

(** C33: two names are the same file name to Windows (the ordinal comparison that ignores case, texts that are not
    UTF-8 compared byte for byte) exactly when their keys are equal, so that a map keyed by [PathNameKey] finds
    what [SamePathName] would. *)
Theorem windows_names_keyed a b : ordinalEqualIgnoringCase a b = true ↔ upcaseKey a = upcaseKey b.
Proof.
  unfold ordinalEqualIgnoringCase. destruct (runes a) as [ra|] eqn:Ea, (runes b) as [rb|] eqn:Eb.
  - unfold upcaseKey. rewrite Ea, Eb. transitivity (map upcaseUnit (utf16Encode ra) = map upcaseUnit (utf16Encode rb)).
    + destruct (Nat.eqb_spec (length (utf16Encode ra)) (length (utf16Encode rb))) as [El|El]; cbn [negb].
      * destruct (utf16Encode ra) as [|u us]; [by destruct (utf16Encode rb)|]. cbn [length Nat.eqb].
        rewrite Z.eqb_eq. apply ordinal_by_table.
      * split; [done|]. intros E. apply (f_equal length) in E. by rewrite !length_map in E.
    + split; [by intros ->|]. apply utf16String_inj; by eapply key_wf.
  - rewrite String.eqb_eq. split; [intros ->; congruence|]. intros E. destruct (upcaseKey_valid a ra Ea) as [r Hr].
    rewrite E in Hr. unfold upcaseKey in Hr. rewrite Eb in Hr. congruence.
  - rewrite String.eqb_eq. split; [intros ->; congruence|]. intros E. destruct (upcaseKey_valid b rb Eb) as [r Hr].
    rewrite <- E in Hr. unfold upcaseKey in Hr. rewrite Ea in Hr. congruence.
  - unfold upcaseKey. rewrite Ea, Eb. apply String.eqb_eq.
Qed.

(** One name's units and another's, under the table. *)
Lemma ordinal_units a b rb : runes b = Some rb → ordinalEqualIgnoringCase a b = true →
  ∃ ra, runes a = Some ra /\ map upcaseUnit (utf16Encode ra) = map upcaseUnit (utf16Encode rb).
Proof.
  intros Hb E. unfold ordinalEqualIgnoringCase in E. rewrite Hb in E. destruct (runes a) as [ra|] eqn:Ea; [|apply String.eqb_eq in E; congruence].
  exists ra. split; [done|]. destruct (Nat.eqb_spec (length (utf16Encode ra)) (length (utf16Encode rb))) as [El|]; [|done]. cbn [negb] in E.
  destruct (utf16Encode ra) as [|u us]; [by destruct (utf16Encode rb)|]. cbn [length Nat.eqb] in E. by apply ordinal_by_table, Z.eqb_eq.
Qed.
End NameKeys.

(** ** How long a text is *)

(** The most bytes the units can come from. *)
Definition unitBytes (us : list Z) : nat := sum_list_with (λ u, if u <? 0x80 then 1%nat else 3%nat) us.

Lemma unitBytes_cons u us : unitBytes (u :: us) = ((if (u <? 0x80)%Z then 1 else 3) + unitBytes us)%nat.
Proof. done. Qed.

Lemma utf16Rune_small r : scalar r → r < 0x10000 → utf16Rune r = [r].
Proof. intros Hr Hs. unfold utf16Rune. by replace (_ || _) with true by (unfold scalar in Hr; lia). Qed.

Lemma utf16Rune_large r : 0x10000 <= r < 0x110000 → ∃ h l, utf16Rune r = [h; l] /\ 0x80 <= h /\ 0x80 <= l.
Proof.
  intros Hr. unfold utf16Rune. replace (_ || _) with false by lia. replace (_ && _) with true by lia. do 2 eexists. split; [done|].
  rewrite !low10. pose proof (Z.mod_pos_bound (r - 65536) 1024 ltac:(lia)).
  pose proof (Z.mod_pos_bound (Z.shiftr (r - 65536) 10) 1024 ltac:(lia)). lia.
Qed.

(** A text is at least as long as its units are many, at most as long as they can be,
    and starts with its first unit when that is ASCII. *)
Definition spans (bs us : list Z) : Prop :=
  (length us <= length bs <= unitBytes us)%nat /\ (∀ u us', us = u :: us' → u < 0x80 → ∃ rest, bs = u :: rest).

Lemma spans_app bs us r taken : scalar r → spans bs us →
  (r < 0x80 /\ taken = [r] \/ 0x80 <= r < 0x10000 /\ (1 <= length taken <= 3)%nat \/ 0x10000 <= r /\ length taken = 4%nat) →
  spans (taken ++ bs) (utf16Rune r ++ us).
Proof.
  intros Hr [Hl _] Hc. unfold spans. destruct Hc as [[Hc ->]|[[Hc Ht]|[Hc Ht]]].
  - rewrite utf16Rune_small by (done || lia). cbn [app length]; rewrite !unitBytes_cons. rewrite (proj2 (Z.ltb_lt r 0x80)) by done.
    split; [rewrite ?length_app; cbn; lia|]. intros u us' [= <- _] _. eauto.
  - rewrite utf16Rune_small by (done || lia). cbn [app length]; rewrite !unitBytes_cons. rewrite (proj2 (Z.ltb_ge r 0x80)) by lia.
    split; [rewrite ?length_app; cbn; lia|]. intros u us' [= <- _] Hu. lia.
  - destruct (utf16Rune_large r) as (h & l & -> & Hh & Hlo); [unfold scalar in Hr; lia|]. cbn [app length]; rewrite !unitBytes_cons.
    rewrite (proj2 (Z.ltb_ge h 0x80)), (proj2 (Z.ltb_ge l 0x80)) by lia.
    split; [rewrite ?length_app; cbn; lia|]. intros u us' [= <- _] Hu. lia.
Qed.

Lemma utf8_spans n bs rs : (length bs <= n)%nat → Forall (λ b, 0 <= b) bs → utf8Runes bs = Some rs → spans bs (utf16Encode rs).
Proof.
  revert bs rs. induction n as [|n IH]; intros [|b0 rest] rs Hn Hb Hd;
    try (cbn [length] in Hn; lia); try (cbn in Hd; simplify_eq; split; [cbn; lia|done]).
  pose proof (utf8Runes_scalar _ _ _ (le_n _) Hb Hd) as Hsc. cbn [utf8Runes length] in *.
  repeat case_hyp Hd; try discriminate; rewrite fmap_Some in Hd; destruct Hd as (rs' & Hrs & ->); unfold cont in *;
    repeat match goal with H : Forall _ (_ :: _) |- _ => apply Forall_cons in H as [? H] end; to_prop;
    unfold utf16Encode; cbn [flat_map];
    (lazymatch type of Hrs with utf8Runes ?l = _ =>
       lazymatch goal with
       | |- spans (?a :: l) _ => apply (spans_app l _ _ [a])
       | |- spans (?a :: ?b :: l) _ => apply (spans_app l _ _ [a; b])
       | |- spans (?a :: ?b :: ?c :: l) _ => apply (spans_app l _ _ [a; b; c])
       | |- spans (?a :: ?b :: ?c :: ?d :: l) _ => apply (spans_app l _ _ [a; b; c; d])
       end end; [done|apply (IH _ _); [cbn in *; lia|done..]|cbn [length]]).
  all: first [left; split; [lia|done] | right; left; lia | right; right; lia].
Qed.

Lemma runes_spans s rs : runes s = Some rs → spans (map bz (String.list_byte_of_string s)) (utf16Encode rs).
Proof. apply (utf8_spans _ _ _ (le_n _)). apply Forall_map, Forall_forall. intros b _. cbn. apply bz_range. Qed.

(** ** A table of ASCII letters *)

Definition asciiUpper (u : Z) : Z := if (97 <=? u) && (u <=? 122) then u - 32 else u.

Definition asciiNames : WindowsNames := {|
  compareStringOrdinal a b := if bool_decide (map asciiUpper a = map asciiUpper b) then 2 else 1;
  upcaseUnit := asciiUpper
|}.

Lemma asciiNames_ok : @WindowsNamesOk asciiNames.
Proof.
  split; cbn; unfold asciiUpper, surrogate; try (intros; repeat case_match; lia).
  intros a b. case_bool_decide; split; done || lia.
Qed.

Lemma windows_names_keyed_witness :
  @ordinalEqualIgnoringCase asciiNames "Program.EXE" "PROGRAM.exe" = true /\
  @upcaseKey asciiNames "Program.EXE" = @upcaseKey asciiNames "PROGRAM.exe".
Proof.
  split; [reflexivity|]. apply (@windows_names_keyed asciiNames asciiNames_ok). reflexivity.
Defined.
