(* ===== verification/PathsWindows.v ===== *)
(** localpath_windows.go, filekey_windows.go and the path functions of
    win32_windows.go and program.go: which paths Windows is asked about, and what it
    is asked.

    A question has the type of its answer, an event is a question with the answer it
    got, and the system is any function from questions and the events so far to
    answers; the drives tests mark and the observer of opens are read the same way,
    since other goroutines set them. *)

From S2P Require Import Prelude GoStrings GoError GoBinary GoFilepath GoFilepathWindows Events.
From S2P Require Import Authenticode Program NamesWindows.

Inductive ask : Type → Type :=
| FullPath (p : string) : ask (result string)
| GetDriveType (root : string) : ask Z
| NetworkDrives : ask Z
| LoadObserver (p : string) : ask bool
| CreateFile (p : string) (access share disposition flags : Z) : ask (result Z)
| CloseFile (h : Z) : ask unit
| FileIdInfo (h : Z) : ask (result (Z * list byte))
| FileInformation (h : Z) : ask (result (Z * Z * Z))
| FinalPathName (h : Z) : ask (result (Z * list Z))
| LongPathName (p : string) : ask (result (Z * list Z))
| LstatPath (p : string) : ask (option err)
| PackagePath (name : string) (buffer : option Z) : ask (Z * Z * list Z).

Inductive pathEvent : Type :=
| PEv (A : Type) (q : ask A) (a : A).
Arguments PEv {A} _ _.

Definition DRIVE_UNKNOWN : Z := 0.
Definition DRIVE_REMOTE : Z := 4.

(** ** Spellings *)

(** [s[0]|0x20], the letter in lower case when it is one. *)
Definition lowered (c : ascii) : Z := Z.lor (Z.of_N (N_of_ascii c)) 0x20.

Definition isDriveLetter (c : ascii) : bool := (97 <=? lowered c) && (lowered c <=? 122).

(** [driveAbsolute]. *)
Definition driveAbsolute (s : string) : bool :=
  match s with
  | String c (String c1 (String c2 _)) => isDriveLetter c && Ascii.eqb c1 ":" && Ascii.eqb c2 backslash
  | _ => false
  end.

(** [deviceNames]. *)
Definition deviceNames : list string :=
  ["CON"; "PRN"; "AUX"; "NUL"; "CONIN$"; "CONOUT$"] ++
  (["COM"; "LPT"] ≫= λ port, (λ n, port +:+ n) <$> ["0"; "1"; "2"; "3"; "4"; "5"; "6"; "7"; "8"; "9"; "¹"; "²"; "³"]).

(** The name of a component, without its extension, its stream and the spaces before. *)
Definition deviceStem (part : string) : string := TrimRight (take_until (mem_char ".:") part) " ".

(** [reservedDeviceName]. *)
Definition reservedDeviceName `{WindowsNames} (part : string) : bool :=
  let name := deviceStem part in
  if (slen name <? 3) || (7 <? slen name) || negb (first_is (mem_char "CcPpAaNnLl") name) then false
  else existsb (ordinalEqualIgnoringCase name) deviceNames.

(** [trimCreatedNames]. *)
Definition trimCreatedNamesW (path : string) : string :=
  if HasPrefix (FromSlash path) "\\?\" then path
  else
    let volume := VolumeName path in
    let rest := sdrop (volumeNameLen path) path in
    let parts := map (λ part, let trimmed := TrimRight part ". " in if String.eqb trimmed "" then part else trimmed)
                     (FieldsFunc rest IsPathSeparator) in
    volume +:+ (if first_is IsPathSeparator rest then "\" +:+ Join parts "\" else Join parts "\").

(** [filepath.Base]. *)
Definition BaseW (p : string) : string :=
  if String.eqb p "" then "."
  else
    let p := TrimRight p "\/" in
    let p := sdrop (volumeNameLen p) p in
    let p := sdrop (String.length (upto_last_separator p)) p in
    if String.eqb p "" then "\" else p.

(** [pathComponents] on Windows. *)
Definition pathComponentsW (p : string) : list string := FieldsFunc (sdrop (volumeNameLen p) p) IsPathSeparator.

(** [HasShortNameComponent] on Windows. *)
Definition HasShortNameComponentW (p : string) : bool :=
  if HasPrefix p PackagedProgramPrefix then false else existsb shortNameComponent (pathComponentsW p).

(** ** The drives tests mark *)

Definition driveBit (letter : ascii) : Z := Z.shiftl 1 (lowered letter - 97).

(** [TreatDriveAsNetwork] on the bits, and its [restore]. *)
Definition TreatDriveAsNetwork (letter : ascii) (bits : Z) : Z :=
  if isDriveLetter letter then Z.lor bits (driveBit letter) else bits.
Definition restoreDrive (letter : ascii) (bits : Z) : Z :=
  if isDriveLetter letter then Z.land bits (Z.land (Z.lnot (driveBit letter)) (Z.ones 32)) else bits.

(** ** The observer *)

(** The observers set so far are numbered; [None] is none. [ObserveOpens] and [stop]. *)
Definition ObserveOpens (me : nat) (observer : option nat) : option nat * bool :=
  match observer with None => (Some me, true) | Some o => (Some o, false) end.
Definition stopObserving (ok : bool) (me : nat) (observer : option nat) : option nat :=
  if ok then (if bool_decide (observer = Some me) then None else observer) else observer.

Section Paths.
Context `{WindowsNames} (W : ∀ A, ask A → list pathEvent → A) (errText : err → string).

Definition ans {A} (q : ask A) : Hist pathEvent A := act (W A q) (PEv q).

(** [pathDriveType]: the root is a letter, a colon and a backslash. *)
Definition pathDriveType (root : string) : Hist pathEvent Z :=
  let marked (bits : Z) :=
    match root with String c _ => isDriveLetter c && negb (Z.land bits (driveBit c) =? 0) | "" => false end in
  bits ← (match root with String c _ => if isDriveLetter c then ans NetworkDrives else mret 0 | "" => mret 0 end);
  if marked bits then mret DRIVE_REMOTE
  else match UTF16PtrFromString root with
       | Err _ => mret DRIVE_UNKNOWN
       | Ok p => ans (GetDriveType p)
       end.

(** [filepath.Abs] on Windows. *)
Definition AbsW (p : string) : Hist pathEvent (result string) :=
  full ← ans (FullPath (if String.eqb p "" then "." else p));
  mret (match full with Err e => Err e | Ok full => Ok (CleanW full) end).

(** The spelling [localPath] judges: as written after [\\?\], else the full path. *)
Definition judgedSpelling (path s : string) : Hist pathEvent (result string) :=
  let refuse (reason : string) : Hist pathEvent (result string) := mret (Err (NotLocalErr path reason)) in
  if HasPrefix s "\??\" then refuse "an NT object path"
  else match CutPrefix s "\\?\" with
       | Some rest => if negb (driveAbsolute rest) then refuse "a \\?\ path naming no drive letter" else mret (Ok rest)
       | None =>
           if HasPrefix s "\\" then refuse "a UNC or \\.\ device path"
           else
             abs ← AbsW s;
             match abs with
             | Err e => refuse ("it has no full path: " +:+ errText e)
             | Ok abs =>
                 let s := FromSlash abs in
                 if HasPrefix s "\\" then refuse "its full path is a UNC or \\.\ device path" else mret (Ok s)
             end
       end.

(** [localPath]. *)
Definition localPathW (path : string) : Hist pathEvent (option err) :=
  let refuse (reason : string) := Some (NotLocalErr path reason) in
  if String.eqb path "" then mret (Some (Plain "identity: empty path"))
  else if contains_char (Ascii.eqb nul) path then mret (refuse "it holds a NUL")
  else
    s ← judgedSpelling path (FromSlash path);
    match s with
    | Err e => mret (Some e)
    | Ok s =>
        if negb (driveAbsolute s) then mret (refuse "it names no drive letter")
        else match list_find (λ part, reservedDeviceName part = true) (Split (sdrop 3 s) backslash) with
             | Some (_, part) => mret (refuse ("it names the device " +:+ part))
             | None =>
                 t ← pathDriveType (stake 3 s);
                 mret (if t =? DRIVE_REMOTE then refuse "a network drive" else None)
             end
    end.

(** [observeOpen]: the observer, if there is one, is told the path. *)
Definition observeOpen (p : string) : Hist pathEvent unit := _ ← ans (LoadObserver p); mret tt.

(** ** Handles *)

Definition OPEN_EXISTING : Z := 3.
Definition FILE_FLAG_BACKUP_SEMANTICS : Z := 0x2000000.
Definition FILE_FLAG_OPEN_REPARSE_POINT : Z := 0x200000.
Definition SECURITY_SQOS_PRESENT : Z := 0x100000.
Definition SECURITY_IDENTIFICATION : Z := 0x10000.

Definition identityFlags (flags : Z) : Z :=
  Z.lor (Z.lor (Z.lor FILE_FLAG_BACKUP_SEMANTICS SECURITY_SQOS_PRESENT) SECURITY_IDENTIFICATION) flags.

(** [openHandle]. *)
Definition openHandle (path : string) (flags : Z) : Hist pathEvent (result Z) :=
  refused ← localPathW path;
  match refused with
  | Some e => mret (Err e)
  | None =>
      _ ← observeOpen path;
      match UTF16PtrFromString path with
      | Err e => mret (Err e)
      | Ok p =>
          h ← ans (CreateFile p 0 shareAll OPEN_EXISTING (identityFlags flags));
          mret (match h with Err e => Err (Wrap ("identity: open " +:+ path) [e]) | Ok h => Ok h end)
      end
  end.

(** [pathExists]. *)
Definition pathExistsW (path : string) : Hist pathEvent bool :=
  h ← openHandle path FILE_FLAG_OPEN_REPARSE_POINT;
  match h with
  | Err _ => mret false
  | Ok h => _ ← ans (CloseFile h); mret true
  end.

(** [%0nx] of a number that has at most [n] digits. *)
Fixpoint hexPad (n : nat) (v : Z) : string :=
  match n with O => "" | S n => hexPad n (v / 16) +:+ of_char (PathIdentity.hexDigit (v mod 16)) end.

(** [%x] of an array of bytes. *)
Definition hexBytes (bs : list byte) : string := String.concat "" (map (λ b, hexPad 2 (bz b)) bs).

(** What the system tells a file from another by: the volume's serial number and the
    128-bit file ID, or the older 32-bit serial number and two halves of an index. *)
Inductive fileIdentity :=
| ByFileId (serial : Z) (id : list byte)
| ByIndex (serial high low : Z).

(** The two forms [fileKeyHandle] prints. *)
Definition keyText (i : fileIdentity) : string :=
  match i with
  | ByFileId serial id => hexPad 16 serial +:+ "-" +:+ hexBytes id
  | ByIndex serial high low => hexPad 8 serial +:+ "-" +:+ hexPad 8 high +:+ hexPad 8 low
  end.

(** [fileKeyHandle]. *)
Definition fileKeyHandle (h : Z) : Hist pathEvent (result string) :=
  info ← ans (FileIdInfo h);
  match info with
  | Ok (serial, id) => mret (Ok (keyText (ByFileId serial id)))
  | Err _ =>
      by_ ← ans (FileInformation h);
      mret (match by_ with
            | Err e => Err (Wrap "identity: identify an open file" [e])
            | Ok (serial, high, low) => Ok (keyText (ByIndex serial high low))
            end)
  end.

(** [FileKeyOf]; [None] is a nil file. *)
Definition FileKeyOf (f : option Z) : Hist pathEvent (result string) :=
  match f with None => mret (Err (Plain "identity: no file handle")) | Some h => fileKeyHandle h end.

(** [fileKey]. *)
Definition fileKeyW (path : string) : Hist pathEvent (result string) :=
  h ← openHandle path 0;
  match h with
  | Err e => mret (Err e)
  | Ok h => key ← fileKeyHandle h; _ ← ans (CloseFile h); mret key
  end.

(** [handleFinalPath]. *)
Definition finalPathOf (h : Z) : Hist pathEvent (result string) :=
  r ← ans (FinalPathName h);
  mret (match r with
        | Err e => Err (Wrap "the verified file could no longer be named" [e])
        | Ok (n, units) => bufferName "the verified file path exceeds the buffer" n units
        end).

(** [resolveLinks]. *)
Definition resolveLinksW (path : string) : Hist pathEvent (result string) :=
  h ← openHandle path 0;
  match h with
  | Err e => mret (Err e)
  | Ok h =>
      r ← (final ← finalPathOf h;
           match final with
           | Err e => mret (Err e)
           | Ok final =>
               let final := match CutPrefix final "UNC\" with Some rest => "\\" +:+ rest | None => final end in
               refused ← localPathW final;
               mret (match refused with Some e => Err e | None => Ok final end)
           end);
      _ ← ans (CloseFile h);
      mret r
  end.

(** ** Program names *)

(** [longImagePath]. *)
Definition longPathOf (path : string) : Hist pathEvent (result string) :=
  match UTF16PtrFromString path with
  | Err e => mret (Err e)
  | Ok p =>
      r ← ans (LongPathName p);
      mret (match r with Err e => Err e | Ok (n, units) => bufferName "image path exceeds the buffer" n units end)
  end.

(** The loop of [canonicalProgramPath] over the folders above. *)
Fixpoint canonicalAbove (fuel : nat) (path dir rest : string) : Hist pathEvent (option string) :=
  if String.eqb dir (DirW dir) then mret (Some path)
  else match fuel with
       | O => mret None
       | S fuel =>
           long ← longPathOf dir;
           match long with
           | Ok long => mret (Some (JoinW long rest))
           | Err _ => canonicalAbove fuel path (DirW dir) (JoinW (BaseW dir) rest)
           end
       end.

(** [canonicalProgramPath] on Windows; [None] when the fuel ran out. *)
Definition canonicalProgramPathW (fuel : nat) (path : string) : Hist pathEvent (option string) :=
  if negb (HasShortNameComponentW path) then mret (Some path)
  else
    refused ← localPathW path;
    match refused with
    | Some _ => mret (Some path)
    | None =>
        _ ← observeOpen path;
        long ← longPathOf path;
        match long with
        | Ok long => mret (Some long)
        | Err _ => canonicalAbove fuel path (DirW path) (BaseW path)
        end
    end.

(** The loop of [UnresolvedShortName]. *)
Fixpoint unresolvedParts (prefix : string) (parts : list string) : Hist pathEvent bool :=
  match parts with
  | [] => mret false
  | part :: parts =>
      let prefix := JoinW prefix part in
      if shortNameComponent part then
        _ ← observeOpen prefix;
        e ← ans (LstatPath prefix);
        match e with Some _ => mret true | None => unresolvedParts prefix parts end
      else unresolvedParts prefix parts
  end.

(** [UnresolvedShortName] on Windows. *)
Definition UnresolvedShortName (fuel : nat) (path : string) : Hist pathEvent (option bool) :=
  if HasPrefix path PackagedProgramPrefix || negb (IsAbsW path) then mret (Some false)
  else
    canonical ← canonicalProgramPathW fuel (CleanW path);
    match canonical with
    | None => mret None
    | Some canonical =>
        if negb (HasShortNameComponentW canonical) then mret (Some false)
        else
          refused ← localPathW canonical;
          match refused with
          | Some _ => mret (Some true)
          | None => r ← unresolvedParts (VolumeName canonical +:+ "\") (pathComponentsW canonical); mret (Some r)
          end
    end.

Definition ERROR_NOT_FOUND : Z := 1168.
Definition insufficientBuffer : Z := 122.

(** [packagePathByFullName]. *)
Definition packagePathByFullName (fullName : string) : Hist pathEvent (result string) :=
  match UTF16PtrFromString fullName with
  | Err e => mret (Err e)
  | Ok name =>
      '(r1, n, _) ← ans (PackagePath name None);
      if negb (r1 =? insufficientBuffer) || (n =? 0) then mret (Err (OSErr (EOTHER (if r1 =? 0 then ERROR_NOT_FOUND else r1))))
      else
        '(r1, _, buf) ← ans (PackagePath name (Some n));
        mret (if negb (r1 =? 0) then Err (OSErr (EOTHER r1)) else Ok (UTF16ToString (take (Z.to_nat n) buf)))
  end.
End Paths.

(** ** Device names *)

Section Devices.
Context `{WindowsNamesOk}.

(** A unit the table takes to an ASCII unit's image is ASCII, so it is no longer. *)
Lemma unitBytes_image us vs : Forall (λ u, 0 <= u < 2 ^ 16) us → Forall (λ u, 0 <= u < 2 ^ 16) vs →
  map upcaseUnit us = map upcaseUnit vs → (unitBytes us <= unitBytes vs)%nat.
Proof.
  intros Hu. revert vs. induction Hu as [|u us Hu _ IH]; intros [|v vs] Hv E; try done. cbn [map] in E. injection E as E1 E2.
  apply Forall_cons in Hv as [Hv Hvs]. rewrite !unitBytes_cons. specialize (IH vs Hvs E2).
  destruct (v <? 0x80) eqn:Ev; [|destruct (u <? 0x80); lia]. destruct (u <? 0x80) eqn:Eu; [lia|]. to_prop.
  pose proof (upcase_other u ltac:(lia)). pose proof (upcase_ascii v ltac:(lia)) as Hup. destruct (_ && _) eqn:? in Hup; lia.
Qed.

Lemma wf16_range us : wf16 us → Forall (λ u, 0 <= u < 2 ^ 16) us.
Proof. induction 1; repeat constructor; auto; lia. Qed.

(** Units that reserve a name: what [reservedDeviceName] takes for granted of a device's. *)
Definition deviceUnits (d : string) : Prop :=
  ∃ rs u us, runes d = Some rs /\ utf16Encode rs = u :: us /\ (2 <= length us)%nat /\ (unitBytes (u :: us) <= 7)%nat /\
    u ∈ [67; 80; 65; 78; 76].

Lemma deviceNames_units : Forall deviceUnits deviceNames.
Proof.
  apply Forall_forall. intros d Hd.
  repeat (apply elem_of_cons in Hd as [->|Hd]; [do 3 eexists; split; [vm_compute; reflexivity|]; split; [vm_compute; reflexivity|];
    split; [cbn; lia|split; [vm_compute; lia|set_solver]]|]). by apply elem_of_nil in Hd.
Qed.

Lemma runes_wf s rs : runes s = Some rs → Forall (λ u, 0 <= u < 2 ^ 16) (utf16Encode rs).
Proof. intros Hs. apply wf16_range, utf16Encode_wf. by eapply runes_scalar. Qed.

(** A name that is a device's passes the test that comes before the comparison. *)
Lemma device_shape name d : deviceUnits d → ordinalEqualIgnoringCase name d = true →
  3 <= slen name <= 7 /\ first_is (mem_char "CcPpAaNnLl") name = true.
Proof.
  intros (rs & u & us & Hrs & Eus & Hlen & Hbytes & Hfirst) E. destruct (ordinal_units name d rs Hrs E) as (rn & Hn & Emap).
  pose proof (runes_wf d rs Hrs) as Hwd. pose proof (runes_wf name rn Hn) as Hwn. pose proof (unitBytes_image _ _ Hwn Hwd Emap) as Hb.
  destruct (runes_spans name rn Hn) as [Hspan Hhead]. rewrite Eus in *. destruct (utf16Encode rn) as [|v vs]; [done|].
  cbn [map] in Emap. injection Emap as Ev Evs. apply (f_equal length) in Evs. rewrite !length_map in Evs.
  rewrite length_map in Hspan. cbn [length] in Hspan.
  assert (String.length name = length (String.list_byte_of_string name)) as Hl 
    by (unfold String.list_byte_of_string; rewrite length_map; clear; induction name as [|a s IH]; cbn; congruence).
  split; [unfold slen; rewrite Hl; lia|].
  apply Forall_cons in Hwn as [Hv _]. apply Forall_cons in Hwd as [Hu _].
  assert (0 <= u < 0x80) as Hua by (set_unfold; lia). pose proof (upcase_ascii u Hua) as Hup.
  assert (0 <= v < 0x80) as Hva.
  { destruct (Z.lt_ge_cases v 0x80); [lia|]. pose proof (upcase_other v ltac:(lia)). destruct (_ && _) eqn:? in Hup; lia. }
  pose proof (upcase_ascii v Hva) as Hvp. destruct (Hhead v vs eq_refl ltac:(lia)) as [rest Hr].
  destruct name as [|c s]; [done|]. unfold String.list_byte_of_string in Hr. cbn [String.list_ascii_of_string map] in Hr. injection Hr as Hc _.
  cbn [first_is]. unfold bz in Hc. rewrite Hvp, Hup in Ev. clear - Hc Ev Hfirst.
  repeat (apply elem_of_cons in Hfirst as [->|Hfirst]; [|]); [..|by apply elem_of_nil in Hfirst];
    destruct c as [[] [] [] [] [] [] [] []]; vm_compute in Hc; subst v; first [reflexivity|vm_compute in Ev; discriminate Ev].
Qed.

(** The test before the comparison asks less and loses nothing. *)
Theorem device_test_lossless part : reservedDeviceName part = existsb (ordinalEqualIgnoringCase (deviceStem part)) deviceNames.
Proof.
  unfold reservedDeviceName. cbv zeta. destruct (_ || _ || _) eqn:E; [|done]. symmetry. apply not_true_is_false. intros Hd%existsb_exists.
  destruct Hd as (d & Hin & Hd). pose proof (proj1 (Forall_forall _ _) deviceNames_units d ltac:(by apply list_elem_of_In)) as Hu.
  destruct (device_shape _ _ Hu Hd) as [Hlen Hf]. rewrite Hf in E. cbn [negb] in E. rewrite orb_false_r in E. lia.
Qed.
End Devices.

(** ** What is asked of the file system *)

Section Asked.
Context `{WindowsNames}.

(** The spelling [localPath] judges for [path]. *)
Definition readsAs (path s : string) (new : list pathEvent) : Prop :=
  FromSlash path = "\\?\" +:+ s \/
  (HasPrefix (FromSlash path) "\\" = false /\ HasPrefix (FromSlash path) "\??\" = false /\
   ∃ full, PEv (FullPath (FromSlash path)) (Ok full) ∈ new /\ s = FromSlash (CleanW full) /\ HasPrefix s "\\" = false).

(** The events judge [path] to be on a lettered drive that is neither a network drive
    nor marked as one, and to name no device in any folder. *)
Definition judged (path : string) (new : list pathEvent) : Prop :=
  ∃ c rest bits t, readsAs path (String c (":\" +:+ rest)) new /\ isDriveLetter c = true /\
    Forall (λ part, reservedDeviceName part = false) (Split rest backslash) /\
    PEv NetworkDrives bits ∈ new /\ Z.land bits (driveBit c) = 0 /\
    PEv (GetDriveType (String c ":\")) t ∈ new /\ t ≠ DRIVE_REMOTE.

Lemma readsAs_mono path s a b : a ⊆ b → readsAs path s a → readsAs path s b.
Proof. intros Hab [|(? & ? & full & ? & ?)]; [by left|right]. split_and!; eauto. Qed.

Lemma judged_mono path a b : a ⊆ b → judged path a → judged path b.
Proof.
  intros Hab (c & rest & bits & t & Hr & ? & ? & ? & ? & ? & ?). exists c, rest, bits, t. split_and!; eauto using readsAs_mono.
Qed.

(** The paths looked up for one that was judged: itself, the folders above it, and its
    first components. *)
Definition reaches (q p : string) : Prop :=
  (∃ n, p = Nat.iter n DirW q) \/
  (∃ parts, parts `prefix_of` pathComponentsW q /\ p = foldl JoinW (VolumeName q +:+ "\") parts).

(** The path an event opens or reads by name. *)
Definition touches (e : pathEvent) : option string :=
  match e with
  | PEv (CreateFile p _ _ _ _) _ => Some p
  | PEv (LongPathName p) _ => Some p
  | PEv (LstatPath p) _ => Some p
  | PEv _ _ => None
  end.

(** After [pre], nothing is opened or read by name except what a judged path reaches. *)
Definition opensAfter (pre new : list pathEvent) : Prop :=
  ∀ before e after p, new = before ++ e :: after → touches e = Some p → ∃ q, judged q (pre ++ before) /\ reaches q p.

Lemma opensAfter_quiet pre new : Forall (λ e, touches e = None) new → opensAfter pre new.
Proof. intros Hn before e after p -> He. apply Forall_app in Hn as [_ [Hq _]%Forall_cons]. congruence. Qed.

Lemma opensAfter_one pre e p q : touches e = Some p → judged q pre → reaches q p → opensAfter pre [e].
Proof.
  intros He Hq Hr before e' after p' E He'. destruct before as [|? [|]]; simplify_list_eq. rewrite ?app_nil_r. eauto.
Qed.

Lemma opensAfter_app pre a b : opensAfter pre a → opensAfter (pre ++ a) b → opensAfter pre (a ++ b).
Proof.
  intros Ha Hb before e after p E He. symmetry in E. apply app_eq_inv in E as [(k & -> & E)|(k & -> & E)].
  - destruct (Hb k e after p E He) as (q & Hq & ?). exists q. by rewrite app_assoc.
  - destruct k as [|e' k]; simplify_list_eq; [|by eapply Ha].
    destruct (Hb [] e after p eq_refl He) as (q & Hq & ?). exists q. by rewrite !app_nil_r in Hq.
Qed.

Lemma opensAfter_mono pre pre' new : pre ⊆ pre' → opensAfter pre new → opensAfter pre' new.
Proof.
  intros Hp Hn before e after p E He. destruct (Hn before e after p E He) as (q & Hq & Hr). exists q. split; [|done].
  eapply judged_mono; [|exact Hq]. set_solver.
Qed.

(** Handles an event opens and closes. *)
Definition opened (e : pathEvent) : list Z :=
  match e with
  | PEv (CreateFile _ _ _ _ _) r => match r with Ok h => [h] | Err _ => [] end
  | PEv _ _ => []
  end.
Definition closed (e : pathEvent) : list Z := match e with PEv (CloseFile h) _ => [h] | PEv _ _ => [] end.

(** An open for identity alone: no access to data, and whoever answers cannot act as
    this process. *)
Definition identityOpen (e : pathEvent) : Prop :=
  match e with
  | PEv (CreateFile _ access _ disposition flags) _ =>
      access = 0 /\ disposition = OPEN_EXISTING /\ Z.testbit flags 20 = true /\ Z.land flags 0x30000 = SECURITY_IDENTIFICATION
  | PEv _ _ => True
  end.

(** Events that neither open, close nor read by name. *)
Definition quietEvent (e : pathEvent) : Prop := touches e = None /\ opened e = [] /\ closed e = [] /\ identityOpen e.
End Asked.

Lemma CutPrefix_Some s p r : CutPrefix s p = Some r → s = p +:+ r.
Proof.
  revert s. induction p as [|a p IH]; intros [|c s]; cbn [CutPrefix]; [by intros [= <-]|by intros [= <-]|done|].
  destruct (Ascii.eqb_spec a c) as [->|]; [|done]. intros ->%IH. done.
Qed.

Section Runs.
Context `{WindowsNames} (W : ∀ A, ask A → list pathEvent → A) (errText : err → string).

Lemma judgedSpelling_runs path h : path ≠ "" → adds (judgedSpelling W errText path (FromSlash path)) (λ r new,
  Forall quietEvent new /\
  match r with Ok s => readsAs path s new | Err e => errors_is e ErrNotLocalPath = true end) h.
Proof.
  intros Hp. assert (FromSlash path ≠ "") as Hs by (by destruct path). unfold judgedSpelling, ans. cbv zeta.
  destruct (HasPrefix (FromSlash path) "\??\") eqn:E1; [by adds_step|].
  destruct (CutPrefix (FromSlash path) "\\?\") as [rest|] eqn:E2.
  { destruct (driveAbsolute rest); cbn [negb]; adds_step; [|done]. split; [done|]. left. by apply CutPrefix_Some in E2. }
  destruct (HasPrefix (FromSlash path) "\\") eqn:E3; [by adds_step|]. unfold AbsW, ans.
  apply String.eqb_neq in Hs. rewrite Hs. do 4 adds_step. destruct (W _ _ h) as [full|e] eqn:Ef.
  2: { adds_step. split; [all_events|done]. }
  destruct (HasPrefix (FromSlash (CleanW full)) "\\") eqn:E4; adds_step; (split; [all_events|]); [done|].
  right. split_and!; [done..|]. exists full. split_and!; [set_solver|done|done].
Qed.

Lemma driveAbsolute_letter s : driveAbsolute s = true → ∃ c rest, s = String c (":\" +:+ rest) /\ isDriveLetter c = true.
Proof.
  destruct s as [|c [|c1 [|c2 rest]]]; try done. unfold driveAbsolute. intros Hd. to_prop.
  match goal with H1 : Ascii.eqb c1 _ = true, H2 : Ascii.eqb c2 _ = true |- _ => apply Ascii.eqb_eq in H1 as ->, H2 as -> end. by exists c, rest.
Qed.

Lemma letter_not_nul c : isDriveLetter c = true → UTF16PtrFromString (String c ":\") = Ok (String c ":\").
Proof. intros Hc. destruct c as [[] [] [] [] [] [] [] []]; try discriminate Hc; reflexivity. Qed.

(** The judgement asks only for the full path and the drive, and a path it accepts was
    judged by the answers; every refusal of a path that is not empty says so. *)
Lemma localPath_runs path h : adds (localPathW W errText path) (λ r new,
  Forall quietEvent new /\
  match r with
  | None => judged path new /\ contains_char (Ascii.eqb nul) path = false
  | Some e => path = "" \/ errors_is e ErrNotLocalPath = true
  end) h.
Proof.
  unfold localPathW. cbv zeta. destruct (String.eqb_spec path "") as [->|Hp]; [adds_step; auto|].
  destruct (contains_char (Ascii.eqb nul) path) eqn:Enul; [adds_step; auto|]. adds_step.
  eapply adds_mono; [|by apply judgedSpelling_runs]. intros [s|e] new [Hq Hr]; [|adds_step; rewrite app_nil_r; auto].
  destruct (driveAbsolute s) eqn:Ed; cbn [negb]; [|adds_step; rewrite app_nil_r; auto].
  destruct (driveAbsolute_letter s Ed) as (c & rest & -> & Hc). change (sdrop 3 _) with rest. change (stake 3 _) with (String c ":\").
  destruct (list_find _ (Split rest backslash)) as [[i part]|] eqn:Ef; [adds_step; rewrite app_nil_r; auto|].
  apply list_find_None in Ef. unfold pathDriveType, ans. cbv zeta. rewrite Hc, letter_not_nul by done. cbn [andb]. do 3 adds_step.
  destruct (Z.land _ (driveBit c) =? 0) eqn:Eb; cbn [negb]; repeat adds_step.
  - set (t := W _ (GetDriveType _) _). destruct (t =? DRIVE_REMOTE) eqn:Et; (split; [all_events|]); [auto|]. to_prop. split; [|done].
    exists c, rest, (W _ NetworkDrives (h ++ new)), t. split_and!.
    + eapply readsAs_mono; [|exact Hr]. set_solver.
    + done.
    + eapply Forall_impl; [exact Ef|]. intros x Hx. cbn in Hx. by destruct (reservedDeviceName x).
    + set_solver.
    + done.
    + set_solver.
    + done.
  - split; [all_events|]. cbn. auto.
Qed.

(** A run that opens only what was judged, for identity alone, and closes what it opens
    except [kept]. *)
Definition careful (pre : list pathEvent) (kept : list Z) (new : list pathEvent) : Prop :=
  opensAfter pre new /\ balanced opened closed kept new /\ Forall identityOpen new.

Lemma careful_quiet pre new : Forall quietEvent new → careful pre [] new.
Proof.
  intros Hq. split_and!.
  - apply opensAfter_quiet. eapply Forall_impl; [exact Hq|]. by intros e (? & _).
  - apply balanced_idle. eapply Forall_impl; [exact Hq|]. by intros e (_ & ? & ? & _).
  - eapply Forall_impl; [exact Hq|]. by intros e (_ & _ & _ & ?).
Qed.

Lemma careful_app pre k k' a b : careful pre k a → careful (pre ++ a) k' b → careful pre (k ++ k') (a ++ b).
Proof. intros (? & ? & ?) (? & ? & ?). split_and!; [by apply opensAfter_app|by apply balanced_app|by apply Forall_app]. Qed.

Lemma careful_mono pre pre' k new : pre ⊆ pre' → careful pre k new → careful pre' k new.
Proof. intros Hp (? & ? & ?). split_and!; [by eapply opensAfter_mono|done..]. Qed.

(** A name is read. *)
Lemma careful_read pre e p q : touches e = Some p → judged q pre → reaches q p → opened e = [] → closed e = [] → identityOpen e → careful pre [] [e].
Proof. intros. split_and!; [by eapply opensAfter_one|apply balanced_idle; by repeat constructor|by repeat constructor]. Qed.

Lemma careful_close pre k h new : careful pre [h] new → closed k = [h] → touches k = None → opened k = [] → identityOpen k → careful pre [] (new ++ [k]).
Proof.
  intros (Ho & Hb & Hi) Hk Ht Hno Hid. split_and!.
  - apply opensAfter_app; [done|]. apply opensAfter_quiet. by repeat constructor.
  - unfold balanced in *. rewrite !bind_app, Hb. cbn. rewrite Hk, Hno. cbn. rewrite !app_nil_r. solve_Permutation.
  - apply Forall_app. split; [done|]. by repeat constructor.
Qed.

Definition kept (r : result Z) : list Z := match r with Ok h => [h] | Err _ => [] end.

Lemma nulFree_ptr p : contains_char (Ascii.eqb nul) p = false → UTF16PtrFromString p = Ok p.
Proof. intros Hp. unfold UTF16PtrFromString. by rewrite Hp. Qed.

Lemma openHandle_runs path flags h : flags = 0 \/ flags = FILE_FLAG_OPEN_REPARSE_POINT →
  adds (openHandle W errText path flags) (λ r new, careful [] (kept r) new) h.
Proof.
  intros Hf. unfold openHandle, observeOpen, ans. adds_step. eapply adds_mono; [|apply localPath_runs].
  intros [e|] new [Hq Hr]; [adds_step; rewrite app_nil_r; by apply careful_quiet|]. destruct Hr as [Hj Hnul]. do 4 adds_step.
  rewrite nulFree_ptr by done. repeat adds_step. set (r := W _ (CreateFile _ _ _ _ _) _).
  rewrite !app_nil_r, !app_assoc. change (kept _) with ([] ++ kept (match r with Err e => Err (Wrap ("identity: open " +:+ path) [e]) | Ok h => Ok h end)).
  apply careful_app; [apply careful_quiet; all_events|]. split_and!.
  - eapply opensAfter_one; [done| |left; by exists 0%nat]. eapply judged_mono; [|exact Hj]. set_solver.
  - unfold balanced. cbn. by destruct r.
  - repeat constructor; by destruct Hf as [->| ->].
Qed.

(** What is asked of an open handle, then its close. *)
Lemma careful_body hd a b u : careful [] [hd] a → Forall quietEvent b → careful [] [] (a ++ b ++ [PEv (CloseFile hd) u]).
Proof.
  intros Ha Hb. rewrite app_assoc. eapply careful_close; [|done..]. rewrite <- (app_nil_r [hd]). apply careful_app; [done|by apply careful_quiet].
Qed.

Lemma pathExists_runs path h : adds (pathExistsW W errText path) (λ _ new, careful [] [] new) h.
Proof.
  unfold pathExistsW, ans. adds_step. eapply adds_mono; [|apply openHandle_runs; by right].
  intros [hd|e] new Hc; [|adds_step; by rewrite app_nil_r]. repeat adds_step. rewrite app_nil_r. by apply (careful_body hd new []).
Qed.

Lemma fileKeyHandle_runs hd h : adds (fileKeyHandle W hd) (λ _ new, Forall quietEvent new) h.
Proof.
  unfold fileKeyHandle, ans. do 2 adds_step. destruct (W _ (FileIdInfo hd) h) as [[serial id]|e]; repeat adds_step; all_events.
Qed.

Lemma fileKey_runs path h : adds (fileKeyW W errText path) (λ _ new, careful [] [] new) h.
Proof.
  unfold fileKeyW, ans. adds_step. eapply adds_mono; [|apply openHandle_runs; by left].
  intros [hd|e] new Hc; [|adds_step; by rewrite app_nil_r]. adds_step. eapply adds_mono; [|apply fileKeyHandle_runs].
  intros key new' Hq. repeat adds_step. rewrite app_nil_r. by apply careful_body.
Qed.

Lemma resolveLinks_runs path h : adds (resolveLinksW W errText path) (λ r new,
  careful [] [] new /\ ∀ final, r = Ok final → judged final new) h.
Proof.
  unfold resolveLinksW, ans. adds_step. eapply adds_mono; [|apply openHandle_runs; by left].
  intros [hd|e] new Hc; [|adds_step; by rewrite app_nil_r]. adds_step.
  eapply (adds_mono _ (λ r mid, Forall quietEvent mid /\ ∀ final, r = Ok final → judged final mid)).
  - intros r mid [Hq Hj]. repeat adds_step. rewrite app_nil_r. split; [by apply careful_body|].
    intros final Hr. eapply judged_mono; [|by apply Hj]. set_solver.
  - unfold finalPathOf, ans. do 4 adds_step. set (final := match W _ (FinalPathName hd) _ with Ok _ => _ | Err _ => _ end).
    destruct final as [final|e]; [|adds_step; split; [all_events|done]]. cbv zeta. set (f := match CutPrefix _ _ with Some _ => _ | None => _ end).
    adds_step. eapply adds_mono; [|apply localPath_runs]. intros [e|] judge [Hq Hr]; adds_step; (split; [all_events|]); [done|].
    intros ? [= <-]. eapply judged_mono; [|apply Hr]. set_solver.
Qed.

Lemma longPathOf_runs pre q p h : judged q pre → reaches q p → adds (longPathOf W p) (λ _ new, careful pre [] new) h.
Proof.
  intros Hq Hr. unfold longPathOf, UTF16PtrFromString, ans. destruct (contains_char _ p); [adds_step; by apply careful_quiet|].
  repeat adds_step. rewrite app_nil_r. by eapply careful_read.
Qed.

Lemma canonicalAbove_runs fuel pre q n rest h : judged q pre →
  adds (canonicalAbove W fuel q (Nat.iter n DirW q) rest) (λ _ new, careful pre [] new) h.
Proof.
  revert pre n rest h. induction fuel as [|fuel IH]; intros pre n rest h Hq; cbn [canonicalAbove];
    (destruct (String.eqb _ (DirW _)); [adds_step; by apply careful_quiet|]); [adds_step; by apply careful_quiet|].
  adds_step. eapply adds_mono; [|apply (longPathOf_runs pre q); [done|left; eauto]]. intros [long|e] new Hc; [adds_step; by rewrite app_nil_r|].
  eapply adds_mono; [|apply (IH (pre ++ new) (S n))].
  - intros ? new' Hc'. by apply (careful_app pre [] [] new new').
  - eapply judged_mono; [|exact Hq]. set_solver.
Qed.

Lemma canonicalProgramPath_runs fuel path h : adds (canonicalProgramPathW W errText fuel path) (λ _ new, careful [] [] new) h.
Proof.
  unfold canonicalProgramPathW. destruct (HasShortNameComponentW path); cbn [negb]; [|adds_step; by apply careful_quiet].
  adds_step. eapply adds_mono; [|apply localPath_runs]. intros [e|] new [Hq Hr]; [adds_step; rewrite app_nil_r; by apply careful_quiet|].
  destruct Hr as [Hj Hnul]. unfold observeOpen, ans at 1. do 4 adds_step. rewrite app_nil_r. set (o := PEv (LoadObserver path) _).
  assert (judged path (new ++ [o])) as Hj' by (eapply judged_mono; [|exact Hj]; set_solver).
  assert (careful [] [] (new ++ [o])) as Hpre by (apply careful_quiet; all_events). adds_step.
  eapply adds_mono; [|apply (longPathOf_runs (new ++ [o]) path); [done|left; by exists 0%nat]].
  intros [long|e] mid Hm; [adds_step; rewrite app_nil_r, app_assoc; by apply (careful_app [] [] [])|].
  eapply adds_mono; [|apply (canonicalAbove_runs fuel ((new ++ [o]) ++ mid) path 1)].
  - intros ? new' Hc. rewrite !app_assoc. rewrite <- app_assoc in Hc. apply (careful_app [] [] []); [by apply (careful_app [] [] [])|].
    by rewrite <- app_assoc.
  - eapply judged_mono; [|exact Hj']. set_solver.
Qed.

(** The path of the first components of [q]. *)
Definition firstParts (q : string) (parts : list string) : string := foldl JoinW (VolumeName q +:+ "\") parts.

Lemma firstParts_snoc q parts part : JoinW (firstParts q parts) part = firstParts q (parts ++ [part]).
Proof. unfold firstParts. by rewrite foldl_snoc. Qed.

(** [q]'s component [part], after [parts], has the shape of an alias. *)
Definition aliasAt (q : string) (parts : list string) (part : string) : Prop :=
  parts ++ [part] `prefix_of` pathComponentsW q /\ shortNameComponent part = true.

(** What the loop's answer tells: each alias it passed named something, and it says true
    only of one that named nothing. *)
Definition answered (q : string) (past : list string) (r : bool) (new : list pathEvent) : Prop :=
  if r then ∃ parts part e, aliasAt q parts part /\ PEv (LstatPath (firstParts q (parts ++ [part]))) (Some e) ∈ new
  else ∀ parts part, past `prefix_of` parts → aliasAt q parts part → PEv (LstatPath (firstParts q (parts ++ [part]))) None ∈ new.

Lemma unresolvedParts_runs pre q past parts h : judged q pre → past ++ parts = pathComponentsW q →
  adds (unresolvedParts W (firstParts q past) parts) (λ r new, careful pre [] new /\ answered q past r new) h.
Proof.
  revert pre past h. induction parts as [|part parts IH]; intros pre past h Hq Hp; cbn [unresolvedParts].
  { adds_step. split; [by apply careful_quiet|]. intros parts part Hpast [Hpre _]. rewrite app_nil_r in Hp. subst past.
    apply prefix_length in Hpast, Hpre. rewrite length_app in Hpre. cbn in Hpre. lia. }
  rewrite firstParts_snoc.
  assert (past ++ [part] `prefix_of` pathComponentsW q) as Hpre by (rewrite <- Hp; exists parts; by rewrite <- app_assoc).
  assert (∀ next tail, past `prefix_of` next → next ++ [tail] `prefix_of` pathComponentsW q → next = past /\ tail = part \/ past ++ [part] `prefix_of` next) as Hcases.
  { intros next tail [k ->] [k' Hk]. rewrite <- Hp in Hk. simplify_list_eq. destruct k as [|x k]; simplify_list_eq; [auto|].
    right. exists k. by rewrite <- app_assoc. }
  destruct (shortNameComponent part) eqn:Es.
  - unfold observeOpen, ans. do 6 adds_step. rewrite app_nil_r. set (o := PEv (LoadObserver _) _). set (l := PEv (LstatPath _) _).
    assert (careful pre [] ([o] ++ [l])) as Hc.
    { apply (careful_app pre [] []); [apply careful_quiet; all_events|]. eapply careful_read; [done| | |done..].
      - eapply judged_mono; [|exact Hq]. set_solver.
      - right. eauto. }
    destruct (W _ (LstatPath _) _) as [e|] eqn:El.
    + adds_step. split; [by rewrite app_nil_r|]. exists past, part, e. split; [done|]. subst l. set_solver.
    + eapply adds_mono; [|apply (IH (pre ++ [o] ++ [l]) (past ++ [part]))].
      * intros r new [Hn Ha]. rewrite app_assoc. split; [by apply (careful_app pre [] [])|]. destruct r.
        { destruct Ha as (ps & pt & e & Hal & Hin). exists ps, pt, e. split; [done|]. set_solver. }
        intros ps pt Hps Hal. destruct (Hcases ps pt Hps (proj1 Hal)) as [[-> ->]|Hlong]; [subst l; set_solver|].
        pose proof (Ha ps pt Hlong Hal). set_solver.
      * eapply judged_mono; [|exact Hq]. set_solver.
      * by rewrite <- app_assoc.
  - eapply adds_mono; [|apply (IH pre (past ++ [part]) h Hq); by rewrite <- app_assoc].
    intros r new [Hn Ha]. split; [done|]. destruct r; [done|]. intros ps pt Hps Hal.
    destruct (Hcases ps pt Hps (proj1 Hal)) as [[-> ->]|Hlong]; [destruct Hal; congruence|by apply Ha].
Qed.

(** The canonical spelling asked about and the answer. *)
Definition unresolvedAnswer (fuel : nat) (path : string) (h : list pathEvent) (r : option bool) (new : list pathEvent) : Prop :=
  ∀ b, r = Some b →
    (b = false /\ (HasPrefix path PackagedProgramPrefix = true \/ IsAbsW path = false)) \/
    ∃ canonical, (canonicalProgramPathW W errText fuel (CleanW path) h).1 = Some canonical /\
      (if HasShortNameComponentW canonical then answered canonical [] b new \/ (b = true /\ ∃ e h', (localPathW W errText canonical h').1 = Some e)
       else b = false).

Lemma UnresolvedShortName_runs fuel path h : adds (UnresolvedShortName W errText fuel path) (λ r new,
  careful [] [] new /\ unresolvedAnswer fuel path h r new) h.
Proof.
  unfold UnresolvedShortName, unresolvedAnswer. destruct (_ || negb (IsAbsW path)) eqn:Es.
  { adds_step. split; [by apply careful_quiet|]. intros b [= <-]. left. split; [done|]. apply orb_true_iff in Es as [|]; to_prop; auto. }
  adds_step. destruct (canonicalProgramPath_runs fuel (CleanW path) h) as (new & Hrun & Hc). exists new. split; [done|].
  destruct (canonicalProgramPathW W errText fuel (CleanW path) h) as [[canonical|] h1] eqn:Ecan; cbn in *; subst h1;
    [|adds_step; by rewrite app_nil_r].
  destruct (HasShortNameComponentW canonical) eqn:Eshort; cbn [negb].
  2: { adds_step. rewrite app_nil_r. split; [done|]. intros b [= <-]. right. exists canonical. by rewrite Eshort. }
  adds_step. pose proof (localPath_runs canonical (h ++ new)) as (judge & Hjr & Hq & Hr). exists judge. split; [done|].
  destruct (localPathW W errText canonical (h ++ new)) as [[e|] h2] eqn:El; cbn in *; subst h2.
  { adds_step. rewrite app_nil_r. split; [apply (careful_app [] [] []); [done|by apply careful_quiet]|].
    intros b [= <-]. right. exists canonical. rewrite Eshort. split; [done|]. right. split; [done|]. exists e, (h ++ new). by rewrite El. }
  destruct Hr as [Hj _]. adds_step.
  eapply adds_mono; [|apply (unresolvedParts_runs (new ++ judge) canonical [] (pathComponentsW canonical)); [|done]].
  - intros r last [Hlast Ha]. adds_step. rewrite app_nil_r. split.
    + rewrite app_assoc. apply (careful_app [] [] []); [apply (careful_app [] [] []); [done|by apply careful_quiet]|done].
    + intros b [= <-]. right. exists canonical. rewrite Eshort. split; [done|]. left. destruct r.
      * destruct Ha as (ps & pt & e & Hal & Hin). exists ps, pt, e. split; [done|]. set_solver.
      * intros ps pt Hps Hal. pose proof (Ha ps pt Hps Hal). set_solver.
  - eapply judged_mono; [|exact Hj]. set_solver.
Qed.

(** C32: on Windows nothing is opened or read by name that was not judged local first. In every run of the path
    functions, each open and each read of a name comes after answers that put the path it is for on a lettered drive
    that is neither a network drive nor marked as one and names no device in any folder; it is that path, a folder
    above it or one of its first components. An open asks for no access and lets whoever answers identify this process
    only, every handle opened is closed, and the path links resolve to was itself judged. *)
Theorem windows_opens_only_local path fuel h :
  adds (pathExistsW W errText path) (λ _ new, careful [] [] new) h /\
  adds (fileKeyW W errText path) (λ _ new, careful [] [] new) h /\
  adds (resolveLinksW W errText path) (λ r new, careful [] [] new /\ ∀ final, r = Ok final → judged final new) h /\
  adds (canonicalProgramPathW W errText fuel path) (λ _ new, careful [] [] new) h /\
  adds (UnresolvedShortName W errText fuel path) (λ r new, careful [] [] new /\ unresolvedAnswer fuel path h r new) h.
Proof.
  split_and!; [apply pathExists_runs|apply fileKey_runs|apply resolveLinks_runs|apply canonicalProgramPath_runs|apply UnresolvedShortName_runs].
Qed.
End Runs.

(** ** File keys *)

Lemma str_app_inj a b x y : String.length a = String.length b → a +:+ x = b +:+ y → a = b /\ x = y.
Proof.
  revert b. induction a as [|c a IH]; intros [|d b] Hl E; try done. injection Hl as Hl. injection E as -> E. by destruct (IH b Hl E) as [-> ->].
Qed.

Lemma str_get_app a c x : String.get (String.length a) (a +:+ String c x) = Some c.
Proof. by induction a. Qed.

Lemma hexPad_length n v : String.length (hexPad n v) = n.
Proof. revert v. induction n as [|n IH]; intros v; [done|]. cbn [hexPad]. rewrite slength_app, IH. cbn. lia. Qed.

Lemma hexDigit_inj a b : 0 <= a < 16 → 0 <= b < 16 → PathIdentity.hexDigit a = PathIdentity.hexDigit b → a = b.
Proof.
  intros Ha Hb. assert (a ∈ seqZ 0 16) as Ha' by (apply elem_of_seqZ; lia). assert (b ∈ seqZ 0 16) as Hb' by (apply elem_of_seqZ; lia).
  vm_compute in Ha', Hb'. set_unfold. intuition subst; vm_compute in *; congruence.
Qed.

Lemma hexPad_inj n a b : 0 <= a < 16 ^ Z.of_nat n → 0 <= b < 16 ^ Z.of_nat n → hexPad n a = hexPad n b → a = b.
Proof.
  revert a b. induction n as [|n IH]; intros a b Ha Hb E; [cbn in *; lia|]. cbn [hexPad] in E.
  apply str_app_inj in E as [E Ed]; [|by rewrite !hexPad_length]. injection Ed as Ed.
  apply hexDigit_inj in Ed; [|apply Z.mod_pos_bound; lia..].
  rewrite Nat2Z.inj_succ, Z.pow_succ_r in Ha, Hb by lia.
  apply IH in E; [|split; [apply Z.div_pos; lia|apply Z.div_lt_upper_bound; lia]..]. pose proof (Z.div_mod a 16). pose proof (Z.div_mod b 16). lia.
Qed.

Lemma hexBytes_cons b bs : hexBytes (b :: bs) = hexPad 2 (bz b) +:+ hexBytes bs.
Proof. unfold hexBytes. destruct bs as [|b' bs]; cbn [map String.concat]; [|done].
  induction (hexPad 2 (bz b)) as [|c s IH]; [done|]. exact (f_equal (String c) IH). Qed.

Lemma hexBytes_inj a b : length a = length b → hexBytes a = hexBytes b → a = b.
Proof.
  revert b. induction a as [|x a IH]; intros [|y b] Hl E; try done. injection Hl as Hl. rewrite !hexBytes_cons in E.
  apply str_app_inj in E as [E1 E2]; [|by rewrite !hexPad_length]. apply hexPad_inj in E1; [|apply bz_range..].
  apply bz_inj in E1 as ->. f_equal. by apply IH.
Qed.

(** The sizes of the fields the system fills. *)
Definition identity_sized (i : fileIdentity) : Prop :=
  match i with
  | ByFileId serial id => 0 <= serial < 2 ^ 64 /\ length id = 16%nat
  | ByIndex serial high low => 0 <= serial < 2 ^ 32 /\ 0 <= high < 2 ^ 32 /\ 0 <= low < 2 ^ 32
  end.

(** The dash of the longer form is a digit in the shorter one. *)
Lemma forms_apart serial id serial' high low : keyText (ByFileId serial id) ≠ keyText (ByIndex serial' high low).
Proof.
  intros E. apply (f_equal (String.get 8)) in E. cbn [keyText] in E.
  assert (∀ n v x k, (k < n)%nat → ∃ d, String.get k (hexPad n v +:+ x) = Some (PathIdentity.hexDigit d) /\ 0 <= d < 16) as Hget.
  { induction n as [|n IH]; intros v x k Hk; [lia|]. cbn [hexPad]. rewrite str_app_assoc. destruct (Nat.eq_dec k n) as [->|].
    - exists (v mod 16). split; [|apply Z.mod_pos_bound; lia]. 
      pose proof (str_get_app (hexPad n (v / 16)) (PathIdentity.hexDigit (v mod 16)) x) as Hg. by rewrite hexPad_length in Hg.
    - apply IH. lia. }
  destruct (Hget 16%nat serial ("-" +:+ hexBytes id) 8%nat ltac:(lia)) as (d & Hd & Hr). rewrite Hd in E.
  pose proof (str_get_app (hexPad 8 serial') "-" (hexPad 8 high +:+ hexPad 8 low)) as Hg. rewrite hexPad_length in Hg.
  change (Some (PathIdentity.hexDigit d) = String.get 8 (hexPad 8 serial' +:+ String "-" (hexPad 8 high +:+ hexPad 8 low))) in E.
  rewrite Hg in E. injection E as E.
  assert (d ∈ seqZ 0 16) as Hin by (apply elem_of_seqZ; lia). vm_compute in Hin. set_unfold. intuition subst; vm_compute in E; congruence.
Qed.

(** Two files have one key exactly when the system gives them one identity, whichever of the two forms each was
    printed in. *)
Theorem file_key_identifies a b : identity_sized a → identity_sized b → keyText a = keyText b ↔ a = b.
Proof.
  intros Ha Hb. split; [|by intros ->]. destruct a as [s i|s hi lo], b as [s' i'|s' hi' lo']; intros E; cbn in Ha, Hb.
  - cbn [keyText] in E. apply str_app_inj in E as [E1 E2]; [|by rewrite !hexPad_length]. injection E2 as E2.
    apply hexPad_inj in E1 as ->; [|lia..]. by apply hexBytes_inj in E2 as ->; [|lia].
  - by apply forms_apart in E.
  - symmetry in E. by apply forms_apart in E.
  - cbn [keyText] in E. apply str_app_inj in E as [E1 E2]; [|by rewrite !hexPad_length]. apply (str_app_inj "-" "-") in E2 as [_ E2]; [|done].
    apply str_app_inj in E2 as [E2 E3]; [|by rewrite !hexPad_length].
    apply hexPad_inj in E1 as ->, E2 as ->, E3 as ->; [done|lia..].
Qed.

(** ** The drives tests mark *)

Lemma driveBit_pow c : isDriveLetter c = true → driveBit c = 2 ^ (lowered c - 97) /\ 0 <= lowered c - 97 < 26.
Proof. unfold driveBit, isDriveLetter. intros Hc. to_prop. split; [by rewrite Z.shiftl_1_l|lia]. Qed.

Lemma marked_bit bits c : isDriveLetter c = true → Z.land bits (driveBit c) = 0 ↔ Z.testbit bits (lowered c - 97) = false.
Proof.
  intros Hc. destruct (driveBit_pow c Hc) as [-> Hr]. split.
  - intros E. apply (f_equal (λ z, Z.testbit z (lowered c - 97))) in E. rewrite Z.land_spec, Z.pow2_bits_true, andb_true_r, Z.bits_0 in E by lia. done.
  - intros E. apply Z.bits_inj'. intros i Hi. rewrite Z.land_spec, Z.bits_0. destruct (Z.eq_dec i (lowered c - 97)) as [->|]; [by rewrite E|].
    by rewrite Z.pow2_bits_false, andb_false_r by lia.
Qed.

(** Marking a letter refuses that letter, in either case, and no other; restoring it
    refuses it no more, whoever else marked it. *)
Lemma marked_drive l bits c : isDriveLetter l = true → isDriveLetter c = true →
  (Z.land (TreatDriveAsNetwork l bits) (driveBit c) = 0 ↔ lowered c ≠ lowered l /\ Z.land bits (driveBit c) = 0) /\
  (Z.land (restoreDrive l bits) (driveBit c) = 0 ↔ lowered c = lowered l \/ Z.land bits (driveBit c) = 0).
Proof.
  intros Hl Hc. rewrite !marked_bit by done. unfold TreatDriveAsNetwork, restoreDrive. rewrite Hl.
  destruct (driveBit_pow l Hl) as [-> Hrl], (driveBit_pow c Hc) as [_ Hrc].
  rewrite Z.lor_spec, !Z.land_spec, Z.lnot_spec, Z.ones_spec_low, andb_true_r by lia.
  destruct (Z.eq_dec (lowered c) (lowered l)) as [->|Hne].
  - rewrite Z.pow2_bits_true by lia. rewrite orb_true_r, andb_false_r. naive_solver.
  - rewrite Z.pow2_bits_false by lia. rewrite orb_false_r, andb_true_r. naive_solver.
Qed.

(** Two tests that mark one letter share its bit: when the first restores it, the second's
    drive is local again before the second restores it. *)
Theorem drive_marks_do_not_nest l bits : isDriveLetter l = true →
  Z.land (restoreDrive l (TreatDriveAsNetwork l (TreatDriveAsNetwork l bits))) (driveBit l) = 0.
Proof. intros Hl. apply marked_drive; auto. Qed.

(** An observer is removed by its own stop alone. *)
Lemma observer_kept me other : other ≠ me →
  (ObserveOpens other (Some me)).2 = false /\ stopObserving true other (Some me) = Some me /\
  stopObserving (ObserveOpens other (Some me)).2 other (Some me) = Some me /\ stopObserving true me (ObserveOpens me None).1 = None.
Proof.
  intros Hne. unfold stopObserving. cbn. rewrite bool_decide_eq_false_2 by congruence. by rewrite bool_decide_eq_true_2.
Qed.

(** ** The canonical spelling is found *)

Section Canonical.
Context `{WindowsNames} (W : ∀ A, ask A → list pathEvent → A) (errText : err → string).

Lemma canonicalAbove_returns fuel path d cs rest h : IsPathSeparator d = false → Forall win_name cs → (length cs <= fuel)%nat →
  is_Some (canonicalAbove W fuel path (drive d cs) rest h).1.
Proof.
  intros Hd. revert cs rest h. induction fuel as [|fuel IH]; intros cs rest h Hcs Hl; destruct cs as [|c cs _] using rev_ind;
    cbn [canonicalAbove]; try (rewrite DirW_root, String.eqb_refl by done; cbn; eauto; fail).
  { rewrite length_app in Hl. cbn in Hl. lia. }
  destruct (String.eqb _ _); [cbn; eauto|]. rewrite DirW_snoc by done. unfold mbind, Hist_bind.
  destruct (longPathOf W _ h) as [[long|e] h']; [cbn; eauto|]. apply IH; [by apply Forall_app in Hcs as [? _]|]. rewrite length_app in Hl. cbn in Hl. lia.
Qed.

(** [CanonicalProgramPath] returns for every path on a lettered drive, after as many turns as the path has
    components at most, whatever the system answers. *)
Theorem canonical_path_returns d cs h : IsPathSeparator d = false → Forall win_name cs →
  is_Some (canonicalProgramPathW W errText (length cs) (drive d cs) h).1.
Proof.
  intros Hd Hcs. unfold canonicalProgramPathW. destruct (HasShortNameComponentW (drive d cs)); [|cbn; eauto]. cbn [negb]. unfold mbind, Hist_bind.
  destruct (localPathW W errText (drive d cs) h) as [[e|] h1]; [cbn; eauto|]. destruct (observeOpen W _ h1) as [u h2].
  destruct (longPathOf W _ h2) as [[long|e] h3]; [cbn; eauto|]. destruct cs as [|c cs _] using rev_ind.
  - rewrite DirW_root by done. by apply canonicalAbove_returns.
  - rewrite DirW_snoc by done. apply canonicalAbove_returns; [done|by apply Forall_app in Hcs as [? _]|]. rewrite length_app. cbn. lia.
Qed.
End Canonical.
