(* ===== verification/SelfWindows.v ===== *)
(** self_windows.go and server_admission_windows.go: the principal of this process, and
    the access named AppContainers are given to this process while it serves them.

    A security descriptor is what the code reads of it, its text and its access list; an
    access list is opaque. Windows answers the questions with anything. *)

From S2P Require Import Prelude GoStrings GoError Events Peer WindowsPeers Impersonation BindWindows.

(** ** This process *)

(** [windows.CurrentProcess]. *)
Definition currentProcess : Z := -1.

(** [self] on Windows. *)
Definition selfWindows (W : ∀ A, question A → list pevent → A) (errText : err → string) : Hist pevent (result User) :=
  r ← processUser W errText currentProcess;
  mret (match r with
        | Err e => Err e
        | Ok (user, _) =>
            if String.eqb (Integrity user) "unknown"
            then Err (Plain "identity: this process's integrity level could not be read") else Ok user
        end).

(** [self] elsewhere, from the effective uid and gid. *)
Definition selfPosix (euid egid : Z) : result User :=
  Ok (mkUser "posix" "" "" "" false "" 0 false euid egid "" 0).

(** ** Admission *)

Definition ACL : Type := list byte.
Record descriptor := mkDescriptor { sd_text : string; sd_dacl : result (option ACL) }.

Definition PROCESS_QUERY_LIMITED_INFORMATION : Z := 0x1000.
Definition TOKEN_QUERY : Z := 0x8.
Definition READ_CONTROL : Z := 0x20000.
Definition WRITE_DAC : Z := 0x40000.

(** [windows.EXPLICIT_ACCESS] as [serverQueryEntries] fills it: a grant to a SID. *)
Record grantEntry := mkGrant { ge_mask : Z; ge_sid : string }.

Inductive dacl_ask : Type → Type :=
| StringToSid (s : string) : dacl_ask (result string)
| OpenThisProcess (access : Z) : dacl_ask (result Z)
| OpenThisToken (proc access : Z) : dacl_ask (result Z)
| GetDACL (h : Z) : dacl_ask (result descriptor)
| ACLFromEntries (entries : list grantEntry) (old : ACL) : dacl_ask (result ACL)
| SetDACL (h : Z) (acl : option ACL) : dacl_ask (option err)
| CloseThis (h : Z) : dacl_ask (option err).

Inductive dacl_event : Type :=
| DEv (A : Type) (q : dacl_ask A) (a : A).
Arguments DEv {A} _ _.

(** The entry of [effects]. *)
Record effect := mkEffect { ef_handle : Z; ef_before : descriptor; ef_applied : string }.

(** What the returned function closes over. *)
Record admission := mkAdmission { ad_process : Z; ad_token : Z; ad_effects : list effect }.

Definition opt_list (e : option err) : list err := match e with Some e => [e] | None => [] end.

(** [errors.Join] of errors that may be nil. *)
Definition joinErrors (es : list (option err)) : option err := errors_join (es ≫= opt_list).

(** [serverQueryEntries]. *)
Definition serverQueryEntries (sids : list string) (mask : Z) : list grantEntry := mkGrant mask <$> sids.

(** What [AdmitServerQueries] asks of one container's SID. *)
Definition containerSID (value sid : string) (seen : list string) : bool :=
  let parts := Split sid "-" in
  (length parts =? 11)%nat && String.eqb (Join (take 4 parts) "-") "S-1-15-2" && String.eqb value sid && negb (existsb (String.eqb value) seen).

Section Admission.
Context (W : ∀ A, dacl_ask A → list dacl_event → A) (errText : err → string).

Definition dask {A} (q : dacl_ask A) : Hist dacl_event A := act (W A q) (DEv q).

(** The loop over the containers. *)
Fixpoint parseContainers (containers seen : list string) : Hist dacl_event (result (list string)) :=
  match containers with
  | [] => mret (Ok (reverse seen))
  | value :: rest =>
      sid ← dask (StringToSid value);
      match sid with
      | Err e => mret (Err e)
      | Ok sid =>
          if negb (containerSID value sid seen) then mret (Err (Plain ("identity: not one unique AppContainer SID: " +:+ value)))
          else parseContainers rest (value :: seen)
      end
  end.

(** [close] restores one effect, with what it adds to the error. *)
Definition restoreEffect (e : effect) : Hist dacl_event (option err) :=
  current ← dask (GetDACL (ef_handle e));
  let changed (why : string) := Some (Plain ("identity: server query ACL changed before restoration: " +:+ why)) in
  match current with
  | Err er => mret (changed (errText er))
  | Ok current =>
      if negb (String.eqb (sd_text current) (ef_applied e)) then mret (changed "<nil>")
      else match sd_dacl (ef_before e) with
           | Err er => mret (Some er)
           | Ok acl => dask (SetDACL (ef_handle e) acl)
           end
  end.

Fixpoint restoreAll (es : list effect) (closeErr : option err) : Hist dacl_event (option err) :=
  match es with
  | [] => mret closeErr
  | e :: es => r ← restoreEffect e; restoreAll es (joinErrors [closeErr; r])
  end.

(** The body [once] guards: the last effect first. *)
Definition closeBody (a : admission) : Hist dacl_event (option err) :=
  restored ← restoreAll (reverse (ad_effects a)) None;
  t ← dask (CloseThis (ad_token a));
  p ← dask (CloseThis (ad_process a));
  mret (joinErrors [restored; t; p]).

(** The returned function: the body runs once and its error is kept. *)
Definition closeAdmission (a : admission) (done : option (option err)) : Hist dacl_event (option err * option (option err)) :=
  match done with
  | Some e => mret (e, done)
  | None => e ← closeBody a; mret (e, Some e)
  end.

(** One turn of the loop over the two targets. *)
Definition admitTarget (sids : list string) (a : admission) (target mask : Z) : Hist dacl_event (result admission) :=
  let failed (es : list (option err)) : Hist dacl_event (result admission) :=
    c ← closeBody a; mret (Err (Join_ ((es ≫= opt_list) ++ opt_list c))) in
  before ← dask (GetDACL target);
  match before with
  | Err e => failed [Some e]
  | Ok before =>
      match sd_dacl before with
      | Err e => failed [Some (Plain "identity: server query admission requires an existing DACL"); Some e]
      | Ok None => failed [Some (Plain "identity: server query admission requires an existing DACL")]
      | Ok (Some old) =>
          acl ← dask (ACLFromEntries (serverQueryEntries sids mask) old);
          match acl with
          | Err e => failed [Some e]
          | Ok acl =>
              set ← dask (SetDACL target (Some acl));
              match set with
              | Some e => failed [Some e]
              | None =>
                  applied ← dask (GetDACL target);
                  match applied with
                  | Err e =>
                      restore ← dask (SetDACL target (Some old));
                      failed [Some e; restore]
                  | Ok applied =>
                      mret (Ok (mkAdmission (ad_process a) (ad_token a) (ad_effects a ++ [mkEffect target before (sd_text applied)])))
                  end
              end
          end
      end
  end.

(** [AdmitServerQueries]. *)
Definition AdmitServerQueries (containers : list string) : Hist dacl_event (result admission) :=
  match containers with
  | [] => mret (Err (Plain "identity: server query admission requires containers"))
  | _ =>
      sids ← parseContainers containers [];
      match sids with
      | Err e => mret (Err e)
      | Ok sids =>
          process ← dask (OpenThisProcess (Z.lor (Z.lor PROCESS_QUERY_LIMITED_INFORMATION READ_CONTROL) WRITE_DAC));
          match process with
          | Err e => mret (Err e)
          | Ok process =>
              token ← dask (OpenThisToken process (Z.lor (Z.lor TOKEN_QUERY READ_CONTROL) WRITE_DAC));
              match token with
              | Err e => _ ← dask (CloseThis process); mret (Err e)
              | Ok token =>
                  a ← admitTarget sids (mkAdmission process token []) process PROCESS_QUERY_LIMITED_INFORMATION;
                  match a with
                  | Err e => mret (Err e)
                  | Ok a => admitTarget sids a token TOKEN_QUERY
                  end
              end
          end
      end
  end.
End Admission.

(** ** This process's principal *)

(** This process's principal is read from its own token, which is closed, and is never given without its
    integrity level. *)
Theorem self_has_integrity W errText h : adds (selfWindows W errText) (λ r new,
  keeps [] new /\ ∀ user, r = Ok user → Integrity user ≠ "unknown") h.
Proof.
  unfold selfWindows. adds_step. eapply adds_mono; [|apply tidy_processUser]. intros [[user why]|e] new Hk; adds_step; rewrite app_nil_r; [|done].
  split; [done|]. intros u. destruct (String.eqb_spec (Integrity user) "unknown"); [done|]. by intros [= <-].
Qed.

(** ** Handles *)

Definition takenHere (e : dacl_event) : list Z :=
  match e with
  | DEv (OpenThisProcess _) r => match r with Ok h => [h] | Err _ => [] end
  | DEv (OpenThisToken _ _) r => match r with Ok h => [h] | Err _ => [] end
  | DEv _ _ => []
  end.
Definition givenBack (e : dacl_event) : list Z := match e with DEv (CloseThis h) _ => [h] | DEv _ _ => [] end.

Definition idleEvent (e : dacl_event) : Prop := takenHere e = [] /\ givenBack e = [].

Section Handles.
Context (W : ∀ A, dacl_ask A → list dacl_event → A) (errText : err → string).

Lemma restoreAll_idle es c : only idleEvent (restoreAll W errText es c).
Proof.
  revert c. induction es as [|e es IH]; intros c; cbn [restoreAll]; [apply only_ret|]. apply only_bind; [|intros r; apply IH].
  unfold restoreEffect, dask. apply only_bind; [by apply only_act|]. intros [current|er]; [|apply only_ret].
  destruct (negb _); [apply only_ret|]. destruct (sd_dacl (ef_before e)); [by apply only_act|apply only_ret].
Qed.

(** The two handles are given back, in that order, and nothing else is. *)
Lemma closeBody_gives a h : adds (closeBody W errText a) (λ _ new,
  new ≫= takenHere = [] /\ new ≫= givenBack = [ad_token a; ad_process a]) h.
Proof.
  unfold closeBody, dask. adds_step. eapply adds_mono; [|apply restoreAll_idle]. intros r new Hn. repeat adds_step.
  assert (new ≫= takenHere = [] /\ new ≫= givenBack = []) as [H1 H2]
    by (clear - Hn; induction Hn as [|e new [He1 He2] _ [IH1 IH2]]; [done|]; cbn; by rewrite He1, He2, IH1, IH2).
  rewrite !bind_app, H1, H2. done.
Qed.

Ltac fails Hfail :=
  eapply adds_mono; [|apply Hfail]; intros r new (H1 & H2 & e' & ->); rewrite !bind_app, H1, H2; done.

(** A target that fails gives both handles back. *)
Lemma admitTarget_handles sids a target mask h : adds (admitTarget W errText sids a target mask) (λ r new,
  new ≫= takenHere = [] /\
  match r with
  | Ok a' => new ≫= givenBack = [] /\ ad_process a' = ad_process a /\ ad_token a' = ad_token a
  | Err _ => new ≫= givenBack = [ad_token a; ad_process a]
  end) h.
Proof.
  assert (∀ es h', adds (c ← closeBody W errText a; mret (Err (Join_ ((es ≫= opt_list) ++ opt_list c)))) (λ (r : result admission) new,
    new ≫= takenHere = [] /\ new ≫= givenBack = [ad_token a; ad_process a] /\ ∃ e, r = Err e) h') as Hfail.
  { intros es h'. adds_step. eapply adds_mono; [|apply closeBody_gives]. intros c new [H1 H2]. adds_step. rewrite app_nil_r. eauto. }
  unfold admitTarget, dask. cbv zeta.
  do 2 adds_step. destruct (W _ (GetDACL target) h) as [before|e]; [|fails Hfail].
  destruct (sd_dacl before) as [[old|]|e]; [|fails Hfail|fails Hfail]. do 2 adds_step.
  destruct (W _ (ACLFromEntries _ _) _) as [acl|e]; [|fails Hfail]. do 2 adds_step.
  destruct (W _ (SetDACL _ _) _) as [e|]; [fails Hfail|].
  do 2 adds_step. set (ask2 := W _ (GetDACL target) (_ ++ _)). destruct ask2 as [applied|e]; [by adds_step|].
  do 2 adds_step. fails Hfail.
Qed.

Lemma parseContainers_idle containers seen : only idleEvent (parseContainers W containers seen).
Proof.
  revert seen. induction containers as [|v rest IH]; intros seen; cbn [parseContainers]; [apply only_ret|].
  apply only_bind; [by apply only_act|]. intros [sid|e]; [|apply only_ret]. destruct (negb _); [apply only_ret|apply IH].
Qed.

Lemma idle_none new : Forall idleEvent new → new ≫= takenHere = [] /\ new ≫= givenBack = [].
Proof. induction 1 as [|e new [He1 He2] _ [IH1 IH2]]; [done|]. cbn. by rewrite He1, He2, IH1, IH2. Qed.

(** The handles opened are the admission's, and both are given back when there is none. *)
Lemma admit_handles containers h : adds (AdmitServerQueries W errText containers) (λ r new,
  balanced takenHere givenBack (match r with Ok a => [ad_process a; ad_token a] | Err _ => [] end) new) h.
Proof.
  unfold AdmitServerQueries. destruct containers as [|c cs]; [adds_step; by apply balanced_idle|]. adds_step.
  eapply adds_mono; [|apply parseContainers_idle]. intros [sids|e] new [Hn1 Hn2]%idle_none; [|adds_step; unfold balanced; by rewrite app_nil_r, Hn1, Hn2].
  unfold dask, balanced. do 2 adds_step. destruct (W _ (OpenThisProcess _) _) as [process|e] eqn:Ep; [|adds_step; rewrite !bind_app, Hn1, Hn2; done].
  do 2 adds_step. destruct (W _ (OpenThisToken _ _) _) as [token|e] eqn:Et; [|repeat adds_step; rewrite !bind_app, Hn1, Hn2; done].
  adds_step. eapply adds_mono; [|apply admitTarget_handles]. intros [a|e] mid [H1 H2].
  - destruct H2 as (H2 & Hpr & Hto). eapply adds_mono; [|apply admitTarget_handles]. intros [a'|e] last [H3 H4].
    + destruct H4 as (H4 & -> & ->). rewrite !bind_app, Hn1, Hn2, H1, H2, H3, H4, Hpr, Hto. done.
    + rewrite !bind_app, Hn1, Hn2, H1, H2, H3, H4, Hpr, Hto. cbn. solve_Permutation.
  - adds_step. rewrite !bind_app, Hn1, Hn2, H1, H2. cbn. solve_Permutation.
Qed.
End Handles.

(** ** What is asked, in order *)

(** One target was admitted: its descriptor was read, the grants were added to its list, the new list was written, and
    the text to compare with at the end is that of the descriptor read back after the write. *)
Definition admittedBy (sids : list string) (target mask : Z) (evs : list dacl_event) (e : effect) : Prop :=
  ∃ before old acl applied, sd_dacl before = Ok (Some old) /\ e = mkEffect target before (sd_text applied) /\
    evs = [DEv (GetDACL target) (Ok before); DEv (ACLFromEntries (serverQueryEntries sids mask) old) (Ok acl);
           DEv (SetDACL target (Some acl)) None; DEv (GetDACL target) (Ok applied)].

(** One effect was dealt with: the descriptor read then has the recorded text and the list read before the admission
    is written back, with the answer of that write; or it could not be read or has another text, and nothing is
    written and an error is reported. *)
Definition undoneBy (e : effect) (evs : list dacl_event) (r : option err) : Prop :=
  (∃ current acl, sd_text current = ef_applied e /\ sd_dacl (ef_before e) = Ok acl /\
     evs = [DEv (GetDACL (ef_handle e)) (Ok current); DEv (SetDACL (ef_handle e) acl) r]) \/
  (∃ current er, sd_text current = ef_applied e /\ sd_dacl (ef_before e) = Err er /\ r = Some er /\
     evs = [DEv (GetDACL (ef_handle e)) (Ok current)]) \/
  (∃ read, evs = [DEv (GetDACL (ef_handle e)) read] /\ (∀ current, read = Ok current → sd_text current ≠ ef_applied e) /\
     is_Some r).

(** The whole of a close: every effect, the last first, and then both handles; no error exactly when none of these
    reported one. *)
Definition closedBy (a : admission) (evs : list dacl_event) (r : option err) : Prop :=
  ∃ parts rs t p, Forall3 undoneBy (reverse (ad_effects a)) parts rs /\
    evs = concat parts ++ [DEv (CloseThis (ad_token a)) t; DEv (CloseThis (ad_process a)) p] /\
    (r = None ↔ Forall (eq None) (rs ++ [t; p])).

Section Traces.
Context (W : ∀ A, dacl_ask A → list dacl_event → A) (errText : err → string).

Lemma joinErrors_None es : joinErrors es = None ↔ Forall (eq None) es.
Proof.
  unfold joinErrors. rewrite errors_join_none. induction es as [|[e|] es IH]; cbn; [done|split; [done|by intros [? _]%Forall_cons]|].
  rewrite IH. split; [by constructor|by intros [_ ?]%Forall_cons].
Qed.

Lemma restoreEffect_trace e h : adds (restoreEffect W errText e) (λ r new, undoneBy e new r) h.
Proof.
  unfold restoreEffect, dask, undoneBy. do 2 adds_step. destruct (W _ (GetDACL _) h) as [current|er].
  2: { adds_step. right. right. exists (Err er). split_and!; [done|done|by eexists]. }
  destruct (String.eqb_spec (sd_text current) (ef_applied e)) as [Ht|Ht]; cbn [negb].
  2: { adds_step. right. right. exists (Ok current). split_and!; [done|by intros ? [= <-]|by eexists]. }
  destruct (sd_dacl (ef_before e)) as [acl|er]; adds_step; [left; by exists current, acl|right; left; by exists current, er].
Qed.

Lemma restoreAll_trace es c h : adds (restoreAll W errText es c) (λ r new,
  ∃ parts rs, Forall3 undoneBy es parts rs /\ new = concat parts /\ (r = None ↔ Forall (eq None) (c :: rs))) h.
Proof.
  revert c h. induction es as [|e es IH]; intros c h; cbn [restoreAll].
  { adds_step. exists [], []. split_and!; [constructor|done|]. rewrite Forall_cons. naive_solver. }
  adds_step. eapply adds_mono; [|apply restoreEffect_trace]. intros r new Hr. eapply adds_mono; [|apply IH].
  intros r' new' (parts & rs & Hp & -> & Hn). exists (new :: parts), (r :: rs). split_and!; [by constructor|done|].
  rewrite Hn, !Forall_cons. assert (None = joinErrors [c; r] ↔ None = c /\ None = r) as ->; [|naive_solver].
  pose proof (joinErrors_None [c; r]) as Hj. rewrite !Forall_cons in Hj. naive_solver.
Qed.

Lemma closeBody_trace a h : adds (closeBody W errText a) (λ r new, closedBy a new r) h.
Proof.
  unfold closeBody, dask. adds_step. eapply adds_mono; [|apply restoreAll_trace].
  intros r new (parts & rs & Hp & -> & Hn). repeat adds_step. eexists parts, rs, _, _. split_and!; [done|done|].
  rewrite joinErrors_None, Forall_app, !Forall_cons in *. naive_solver.
Qed.

Lemma failing a es h (Q : result admission → list dacl_event → Prop) : (∀ e new, Q (Err e) new) →
  adds (c ← closeBody W errText a; mret (Err (Join_ ((es ≫= opt_list) ++ opt_list c)))) Q h.
Proof. intros HQ. adds_step. eapply adds_mono; [|apply closeBody_trace]. intros c new _. adds_step. apply HQ. Qed.

Lemma admitTarget_trace sids a target mask h : adds (admitTarget W errText sids a target mask) (λ r new,
  ∀ a', r = Ok a' → ∃ e, a' = mkAdmission (ad_process a) (ad_token a) (ad_effects a ++ [e]) /\ admittedBy sids target mask new e) h.
Proof.
  unfold admitTarget, dask. cbv zeta.
  do 2 adds_step. destruct (W _ (GetDACL target) h) as [before|e]; [|by apply failing].
  destruct (sd_dacl before) as [[old|]|e] eqn:Eb; [|by apply failing|by apply failing]. do 2 adds_step.
  destruct (W _ (ACLFromEntries _ _) _) as [acl|e]; [|by apply failing]. do 2 adds_step.
  destruct (W _ (SetDACL _ _) _) as [e|]; [by apply failing|].
  do 2 adds_step. set (ask2 := W _ (GetDACL target) (_ ++ _)). destruct ask2 as [applied|e].
  - adds_step. intros a' [= <-]. eexists. split; [done|]. by exists before, old, acl, applied.
  - do 2 adds_step. by apply failing.
Qed.

(** A successful admission: the containers' SIDs, the two handles, and the two targets. *)
Definition admittedAll (containers : list string) (a : admission) (new : list dacl_event) : Prop :=
  ∃ pre part1 part2 e1 e2, new = pre ++ part1 ++ part2 /\ ad_effects a = [e1; e2] /\
    admittedBy containers (ad_process a) PROCESS_QUERY_LIMITED_INFORMATION part1 e1 /\
    admittedBy containers (ad_token a) TOKEN_QUERY part2 e2.

Lemma parseContainers_same containers seen h : adds (parseContainers W containers seen) (λ r _,
  ∀ sids, r = Ok sids → sids = reverse seen ++ containers) h.
Proof.
  revert seen h. induction containers as [|v rest IH]; intros seen h; cbn [parseContainers].
  { adds_step. intros sids [= <-]. by rewrite app_nil_r. }
  unfold dask. do 2 adds_step. destruct (W _ (StringToSid v) h) as [sid|e]; [|by adds_step].
  destruct (containerSID v sid seen); cbn [negb]; [|by adds_step]. eapply adds_mono; [|apply IH].
  intros r new Hr sids Hs. rewrite (Hr sids Hs), reverse_cons, <- app_assoc. done.
Qed.

Lemma admit_trace containers h : adds (AdmitServerQueries W errText containers) (λ r new,
  ∀ a, r = Ok a → admittedAll containers a new) h.
Proof.
  unfold AdmitServerQueries. destruct containers as [|c cs]; [by adds_step|]. adds_step.
  eapply adds_mono; [|apply parseContainers_same]. intros [sids|e] new Hs; [|by adds_step].
  rewrite (Hs sids eq_refl). cbn [reverse rev_append app]. unfold dask.
  do 2 adds_step. destruct (W _ (OpenThisProcess _) _) as [process|e]; [|by adds_step].
  do 2 adds_step. destruct (W _ (OpenThisToken _ _) _) as [token|e]; [|by repeat adds_step].
  adds_step. eapply adds_mono; [|apply admitTarget_trace]. intros [a|e] mid Hmid; [|by adds_step].
  destruct (Hmid a eq_refl) as (e1 & -> & H1). eapply adds_mono; [|apply admitTarget_trace]. intros r last Hlast a' Ha'.
  destruct (Hlast a' Ha') as (e2 & -> & H2). eexists _, mid, last, e1, e2. split_and!; [by rewrite !app_assoc|done|done|done].
Qed.
End Traces.

(** ** Access lists *)

(** The access list of a handle after the events, when nobody else writes it. *)
Definition daclAt (init : Z → option ACL) (h : list dacl_event) (hd : Z) : option ACL :=
  foldl (λ cur e, match e with
                  | DEv (SetDACL t acl) r => match r with None => if t =? hd then acl else cur | Some _ => cur end
                  | DEv _ _ => cur
                  end) (init hd) h.

(** Windows reads back what was written, and the text of a descriptor is a function of its list. *)
Class KeepsDACLs (W : ∀ A, dacl_ask A → list dacl_event → A) (init : Z → option ACL) := {
  reads_back hd h sd : W _ (GetDACL hd) h = Ok sd → sd_dacl sd = Ok (daclAt init h hd);
  one_text hd h h' sd sd' : W _ (GetDACL hd) h = Ok sd → W _ (GetDACL hd) h' = Ok sd' →
    daclAt init h hd = daclAt init h' hd → sd_text sd = sd_text sd'
}.

Section Restoring.
Context (W : ∀ A, dacl_ask A → list dacl_event → A) (errText : err → string) (init : Z → option ACL) `{!KeepsDACLs W init}.

Lemma daclAt_app f h new hd : daclAt f (h ++ new) hd = daclAt (daclAt f h) new hd.
Proof. unfold daclAt. by rewrite foldl_app. Qed.

Lemma daclAt_ext f g new hd : f hd = g hd → daclAt f new hd = daclAt g new hd.
Proof. intros E. unfold daclAt. by rewrite E. Qed.

(** Events that write no access list. *)
Definition noWrite (e : dacl_event) : Prop := match e with DEv (SetDACL _ _) r => r ≠ None | DEv _ _ => True end.

Lemma daclAt_noWrite f new hd : Forall noWrite new → daclAt f new hd = f hd.
Proof.
  unfold daclAt. intros Hn. generalize (f hd). induction Hn as [|[A q a] new He _ IH]; intros x; [done|]. cbn. rewrite IH.
  destruct q; try done. cbn in He. by destruct a.
Qed.

Definition set_at (f : Z → option ACL) (t : Z) (acl : option ACL) (hd : Z) : option ACL := if t =? hd then acl else f hd.

(** What the effects put back, the first of the list first. *)
Fixpoint undo (es : list effect) (f : Z → option ACL) : Z → option ACL :=
  match es with
  | [] => f
  | e :: es => undo es (match sd_dacl (ef_before e) with Ok acl => set_at f (ef_handle e) acl | Err _ => f end)
  end.

Lemma undo_ext es f g : (∀ hd, f hd = g hd) → ∀ hd, undo es f hd = undo es g hd.
Proof. revert f g. induction es as [|e es IH]; intros f g Hfg; [done|]. cbn. apply IH. intros x. unfold set_at. repeat case_match; done. Qed.

Lemma undo_app es es' f : undo (es ++ es') f = undo es' (undo es f).
Proof. revert f. induction es as [|e es IH]; intros f; [done|]. apply IH. Qed.

Lemma restoreEffect_undoes e h : adds (restoreEffect W errText e) (λ r new, r = None → ∀ hd, daclAt (daclAt init h) new hd = undo [e] (daclAt init h) hd) h.
Proof.
  unfold restoreEffect, dask. do 2 adds_step. destruct (W _ (GetDACL _) h) as [current|er]; [|by adds_step].
  destruct (negb _); [by adds_step|]. destruct (sd_dacl (ef_before e)) as [acl|er] eqn:Eb; [|by adds_step]. adds_step.
  intros Hset hd. cbn [undo]. rewrite Eb. unfold daclAt at 1. cbn. rewrite Hset. done.
Qed.

Lemma restoreAll_undoes es c h : adds (restoreAll W errText es c) (λ r new,
  r = None → c = None /\ ∀ hd, daclAt (daclAt init h) new hd = undo es (daclAt init h) hd) h.
Proof.
  revert c h. induction es as [|e es IH]; intros c h; cbn [restoreAll]; [by adds_step|]. adds_step.
  eapply adds_mono; [|apply restoreEffect_undoes]. intros r new Hr. eapply adds_mono; [|apply IH].
  intros r' new' Hr' E. destruct (Hr' E) as [Hj Hu]. apply joinErrors_None in Hj. apply Forall_cons in Hj as [<- Hj].
  apply Forall_cons in Hj as [<- _]. split; [done|]. intros hd. rewrite daclAt_app.
  rewrite (daclAt_ext _ (daclAt init (h ++ new))) by (by rewrite daclAt_app). rewrite Hu.
  change (undo (e :: es)) with (λ f, undo es (undo [e] f)). apply undo_ext. intros x. by rewrite daclAt_app, Hr.
Qed.

(** Closing without an error puts back what the effects found, the last one first. *)
Lemma closeBody_undoes a h : adds (closeBody W errText a) (λ r new,
  r = None → ∀ hd, daclAt init (h ++ new) hd = undo (reverse (ad_effects a)) (daclAt init h) hd) h.
Proof.
  unfold closeBody, dask. adds_step. eapply adds_mono; [|apply restoreAll_undoes]. intros r new Hr. repeat adds_step.
  intros [<- _]%joinErrors_None%Forall_cons hd. destruct (Hr eq_refl) as [_ Hu]. rewrite app_assoc, daclAt_app, daclAt_noWrite by (repeat constructor).
  by rewrite daclAt_app, Hu.
Qed.

(** The recorded texts are those the effects find, the first of the list first. *)
Fixpoint recorded (es : list effect) (f : Z → option ACL) : Prop :=
  match es with
  | [] => True
  | e :: es =>
      (∀ h current, W _ (GetDACL (ef_handle e)) h = Ok current → daclAt init h (ef_handle e) = f (ef_handle e) →
         sd_text current = ef_applied e) /\
      is_ok (sd_dacl (ef_before e)) = true /\ recorded es (undo [e] f)
  end.

Lemma recorded_ext es f g : (∀ hd, f hd = g hd) → recorded es f → recorded es g.
Proof.
  revert f g. induction es as [|e es IH]; intros f g Hfg; [done|]. cbn [recorded]. intros (H1 & H2 & H3). split_and!; [|done|].
  - intros h current Hc Hd. apply (H1 h); [done|]. by rewrite Hd, Hfg.
  - eapply IH; [|exact H3]. by apply undo_ext.
Qed.

(** Windows did what was asked. *)
Definition answered (e : dacl_event) : Prop :=
  match e with
  | DEv (GetDACL _) r => is_ok r = true
  | DEv (SetDACL _ _) r => r = None
  | DEv (CloseThis _) r => r = None
  | DEv _ _ => True
  end.

Lemma restoreAll_restores es h : recorded es (daclAt init h) →
  adds (restoreAll W errText es None) (λ r new, Forall answered new → r = None) h.
Proof.
  revert h. induction es as [|e es IH]; intros h; cbn [restoreAll recorded]; [intros _; by adds_step|]. intros (Htext & Hb & Hrest).
  adds_step. unfold restoreEffect at 1, dask. do 2 adds_step.
  destruct (W _ (GetDACL _) h) as [current|er] eqn:Eg.
  2: { adds_step. eapply adds_mono; [|apply restoreAll_trace]. intros r new _ [[=] _]%Forall_cons. }
  rewrite (Htext h current Eg eq_refl), String.eqb_refl. cbn [negb].
  destruct (sd_dacl (ef_before e)) as [acl|er] eqn:Eb; [|done]. adds_step.
  set (h1 := h ++ [DEv _ _]). set (w := W _ (SetDACL _ acl) h1).
  destruct w as [er|] eqn:Ew.
  { eapply adds_mono; [|apply restoreAll_trace]. intros r new _ [_ [[=] _]%Forall_cons]%Forall_cons. }
  change (joinErrors [None; None]) with (None : option err). eapply adds_mono; [|apply IH].
  - intros r new Hr [_ [_ Hn]%Forall_cons]%Forall_cons. by apply Hr.
  - eapply recorded_ext; [|exact Hrest]. intros hd. subst h1. cbn [undo]. by rewrite Eb, !daclAt_app.
Qed.

Lemma closeBody_restores a h : recorded (reverse (ad_effects a)) (daclAt init h) →
  adds (closeBody W errText a) (λ r new, Forall answered new → r = None) h.
Proof.
  intros Hr. unfold closeBody, dask. adds_step. eapply adds_mono; [|by apply restoreAll_restores]. intros r new Hn. repeat adds_step.
  intros (H1 & H2)%Forall_app. rewrite (Hn H1). apply Forall_cons in H2 as [-> H2]. apply Forall_cons in H2 as [-> _]. done.
Qed.

Lemma admitTarget_recorded sids a target mask h : recorded (reverse (ad_effects a)) (daclAt init h) →
  adds (admitTarget W errText sids a target mask) (λ r new,
    ∀ a', r = Ok a' → recorded (reverse (ad_effects a')) (daclAt init (h ++ new))) h.
Proof.
  intros Hr. unfold admitTarget, dask. cbv zeta. do 2 adds_step.
  destruct (W _ (GetDACL target) h) as [before|e] eqn:Eg; [|by apply failing].
  pose proof (reads_back _ _ _ Eg) as Hb. rewrite Hb. destruct (daclAt init h target) as [old|] eqn:Eold; [|by apply failing].
  do 2 adds_step. destruct (W _ (ACLFromEntries _ _) _) as [acl|e]; [|by apply failing].
  do 2 adds_step. destruct (W _ (SetDACL _ _) _) as [e|] eqn:Es; [by apply failing|].
  do 2 adds_step. set (h4 := (_ ++ _) ++ [DEv (SetDACL _ _) _]).
  destruct (W _ (GetDACL target) h4) as [applied|e] eqn:Eg2; [|do 2 adds_step; by apply failing].
  adds_step. intros a' [= <-]. cbn [ad_effects]. rewrite reverse_snoc. cbn [recorded ef_handle ef_before ef_applied].
  assert (∀ hd, daclAt init h4 hd = set_at (daclAt init h) target (Some acl) hd) as H4.
  { intros hd. subst h4. rewrite <- !app_assoc, daclAt_app. unfold daclAt at 1, set_at. cbn. done. }
  assert (∀ evs hd, Forall noWrite evs → daclAt init (h4 ++ evs) hd = daclAt init h4 hd) as Hsame
    by (intros evs hd Hn; by rewrite daclAt_app, daclAt_noWrite).
  match goal with |- context [h ++ ?new] => assert (∀ hd, daclAt init (h ++ new) hd = daclAt init h4 hd) as Hend end.
  { intros hd. rewrite <- (Hsame [DEv (GetDACL target) (Ok applied)] hd) by by repeat constructor. subst h4. by rewrite <- !app_assoc. }
  split_and!; [|by rewrite Hb|].
  - intros h' current Hc Hd. eapply one_text; [exact Hc|exact Eg2|]. by rewrite Hd, Hend.
  - eapply recorded_ext; [|exact Hr]. intros hd. cbn [undo ef_before ef_handle]. rewrite Hb. unfold set_at.
    destruct (Z.eqb_spec target hd) as [->|Hne]; [done|]. rewrite Hend, H4. unfold set_at. by rewrite (proj2 (Z.eqb_neq target hd)).
Qed.

Lemma admit_recorded containers h : adds (AdmitServerQueries W errText containers) (λ r new,
  ∀ a, r = Ok a → recorded (reverse (ad_effects a)) (daclAt init (h ++ new))) h.
Proof.
  unfold AdmitServerQueries. destruct containers as [|c cs]; [by adds_step|]. adds_step.
  eapply adds_mono; [|apply parseContainers_same]. intros [sids|e] new _; [|by adds_step]. unfold dask.
  do 2 adds_step. destruct (W _ (OpenThisProcess _) _) as [process|e]; [|by adds_step].
  do 2 adds_step. destruct (W _ (OpenThisToken _ _) _) as [token|e]; [|by repeat adds_step].
  adds_step. eapply adds_mono; [|by apply admitTarget_recorded]. intros [a|e] mid Hmid; [|by adds_step].
  eapply adds_mono; [|apply admitTarget_recorded; by apply Hmid]. intros r last Hlast a' Ha'. rewrite !app_assoc. by apply Hlast.
Qed.

(** Putting the effects back gives [f0]. *)
Definition restorable (f0 : Z → option ACL) (a : admission) (h : list dacl_event) : Prop :=
  ∀ hd, undo (reverse (ad_effects a)) (daclAt init h) hd = f0 hd.

(** An error with one cause. *)
Definition one_cause (e : err) : Prop := ∀ c c' cs, e ≠ Join_ (c :: c' :: cs).

Lemma restorable_same f0 a h h' : (∀ hd, daclAt init h' hd = daclAt init h hd) → restorable f0 a h → restorable f0 a h'.
Proof. intros Hs Hr hd. rewrite <- Hr. by apply undo_ext. Qed.

(** Giving up: when nothing is reported besides the cause, everything is as it was. *)
Lemma gives_up f0 a c es h : (Forall (eq None) es → restorable f0 a h) →
  adds (r ← closeBody W errText a; mret (Err (Join_ (((Some c :: es) ≫= opt_list) ++ opt_list r)))) (λ (r : result admission) new,
    ∃ e, r = Err e /\ (one_cause e → ∀ hd, daclAt init (h ++ new) hd = f0 hd)) h.
Proof.
  intros Hr. adds_step. eapply adds_mono; [|apply closeBody_undoes]. intros r new Hn. adds_step. rewrite app_nil_r. eexists. split; [done|].
  intros He hd. cbn in He. assert ((es ≫= opt_list) ++ opt_list r = []) as [Hes Hlast]%app_nil.
  { destruct ((es ≫= opt_list) ++ opt_list r) as [|c' cs]; [done|]. by destruct (He c c' cs). }
  rewrite Hn by (by destruct r). apply Hr. by apply joinErrors_None, errors_join_none.
Qed.

(** After a write of [target] and nothing else. *)
Lemma daclAt_wrote h new target acl : (∀ hd, daclAt init (h ++ new) hd = set_at (daclAt init h) target acl hd) →
  ∀ f0 a before, sd_dacl before = Ok (daclAt init h target) → restorable f0 a h → ∀ text,
  restorable f0 (mkAdmission (ad_process a) (ad_token a) (ad_effects a ++ [mkEffect target before text])) (h ++ new).
Proof.
  intros Hw f0 a before Hb Hr text hd. cbn [ad_effects]. rewrite reverse_snoc. cbn [undo ef_before ef_handle]. rewrite Hb, <- Hr.
  apply undo_ext. intros x. unfold set_at. destruct (Z.eqb_spec target x) as [->|]; [done|]. rewrite Hw. unfold set_at. by rewrite (proj2 (Z.eqb_neq target x)).
Qed.

Ltac gives_up_at f0 :=
  lazymatch goal with |- adds _ _ ?h =>
    eapply adds_mono; [|apply (gives_up f0)]; [intros ? new' (e' & -> & He'); by rewrite !app_assoc|] end.

Lemma admitTarget_restorable f0 sids a target mask h : restorable f0 a h → adds (admitTarget W errText sids a target mask) (λ r new,
  match r with
  | Ok a' => restorable f0 a' (h ++ new)
  | Err e => one_cause e → ∀ hd, daclAt init (h ++ new) hd = f0 hd
  end) h.
Proof.
  intros Hr.
  assert (∀ new, Forall noWrite new → restorable f0 a (h ++ new)) as Hsame.
  { intros new Hn. eapply restorable_same; [|exact Hr]. intros hd. by rewrite daclAt_app, daclAt_noWrite. }
  unfold admitTarget, dask. cbv zeta. do 2 adds_step.
  destruct (W _ (GetDACL target) h) as [before|e] eqn:Eg; [|gives_up_at f0; intros _; apply Hsame; by repeat constructor].
  pose proof (reads_back _ _ _ Eg) as Hb. rewrite Hb.
  destruct (daclAt init h target) as [old|] eqn:Eold; [|gives_up_at f0; intros _; apply Hsame; by repeat constructor].
  do 2 adds_step. destruct (W _ (ACLFromEntries _ _) _) as [acl|e]; [|gives_up_at f0; intros _; rewrite <- app_assoc; apply Hsame; by repeat constructor].
  do 2 adds_step. destruct (W _ (SetDACL _ _) _) as [e|] eqn:Es; [gives_up_at f0; intros _; rewrite <- !app_assoc; apply Hsame; by repeat constructor|].
  do 2 adds_step. set (h4 := (_ ++ _) ++ [DEv (SetDACL _ _) _]). destruct (W _ (GetDACL target) h4) as [applied|e] eqn:Eg2.
  - adds_step. apply (daclAt_wrote _ _ target (Some acl)); [|by rewrite Hb, Eold|done]. intros hd. rewrite daclAt_app. done.
  - do 2 adds_step. gives_up_at f0. intros [<- _]%Forall_cons. eapply restorable_same; [|exact Hr]. intros hd. subst h4.
    rewrite <- !app_assoc, daclAt_app. unfold daclAt at 1. cbn. destruct (Z.eqb_spec target hd) as [->|]; [|done]. by rewrite Eold.
Qed.

Lemma parseContainers_noWrite containers seen : only noWrite (parseContainers W containers seen).
Proof.
  revert seen. induction containers as [|v rest IH]; intros seen; cbn [parseContainers]; [apply only_ret|].
  apply only_bind; [by apply only_act|]. intros [sid|e]; [|apply only_ret]. destruct (negb _); [apply only_ret|apply IH].
Qed.

Lemma admit_restorable containers h : adds (AdmitServerQueries W errText containers) (λ r new,
  match r with
  | Ok a => restorable (daclAt init h) a (h ++ new)
  | Err e => one_cause e → ∀ hd, daclAt init (h ++ new) hd = daclAt init h hd
  end) h.
Proof.
  assert (∀ new hd, Forall noWrite new → daclAt init (h ++ new) hd = daclAt init h hd) as Hsame
    by (intros new hd Hn; by rewrite daclAt_app, daclAt_noWrite).
  unfold AdmitServerQueries. destruct containers as [|c cs]; [adds_step; intros _ hd; by apply Hsame|]. adds_step.
  eapply adds_mono; [|apply parseContainers_noWrite]. intros [sids|e] new Hn; [|adds_step; intros _ hd; rewrite app_nil_r; by apply Hsame].
  unfold dask. do 2 adds_step. destruct (W _ (OpenThisProcess _) _) as [process|e];
    [|adds_step; intros _ hd; apply Hsame; apply Forall_app; split; [done|by repeat constructor]].
  do 2 adds_step. destruct (W _ (OpenThisToken _ _) _) as [token|e];
    [|repeat adds_step; intros _ hd; apply Hsame; apply Forall_app; split; [done|by repeat constructor]].
  assert (restorable (daclAt init h) (mkAdmission process token []) (((h ++ new) ++ [DEv (OpenThisProcess (Z.lor (Z.lor PROCESS_QUERY_LIMITED_INFORMATION READ_CONTROL) WRITE_DAC)) (Ok process)])
      ++ [DEv (OpenThisToken process (Z.lor (Z.lor TOKEN_QUERY READ_CONTROL) WRITE_DAC)) (Ok token)])) as Hr0
    by (intros hd; cbn; rewrite <- !app_assoc; apply Hsame; apply Forall_app; split; [done|by repeat constructor]).
  adds_step. eapply adds_mono; [|by apply (admitTarget_restorable (daclAt init h))]. intros [a|e] mid Hmid.
  - eapply adds_mono; [|by apply (admitTarget_restorable (daclAt init h))]. intros [a'|e] last Hlast; by rewrite !app_assoc.
  - adds_step. rewrite !app_assoc, app_nil_r. exact Hmid.
Qed.

End Restoring.

(** C34: what [AdmitServerQueries] changes is put back, unless somebody else has changed it since. Whatever Windows
    answers, a successful admission read the access list of the process and then of the token, added the grants to it,
    wrote it, and recorded the text read back after the write; the returned function looks at the token and then at the
    process, and where the descriptor has the recorded text it writes back the list found at the beginning, and where it
    has another text or cannot be read it writes nothing and reports an error; it reports no error exactly when every
    list was written back and both handles were closed. The two handles are given back when the admission fails, and by
    the returned function otherwise, once; a second close asks nothing and gives the same error. When besides Windows
    keeps what is written and nobody else writes these lists, a failure with one cause leaves every list as it was,
    closing reports no error when each of its calls is answered, and closing without an error puts every list back. *)
Theorem admission_put_back W errText containers h : adds (AdmitServerQueries W errText containers) (λ r new,
  match r with
  | Err e =>
      balanced takenHere givenBack [] new /\
      ∀ init, KeepsDACLs W init → one_cause e → ∀ hd, daclAt init (h ++ new) hd = daclAt init h hd
  | Ok a =>
      balanced takenHere givenBack [ad_process a; ad_token a] new /\ admittedAll containers a new /\
      adds (closeAdmission W errText a None) (λ r' new',
        new' ≫= takenHere = [] /\ new' ≫= givenBack = [ad_token a; ad_process a] /\ closedBy a new' r'.1 /\
        (∀ init, KeepsDACLs W init →
           (Forall answered new' → r'.1 = None) /\
           (r'.1 = None → ∀ hd, daclAt init ((h ++ new) ++ new') hd = daclAt init h hd)) /\
        ∀ h', closeAdmission W errText a r'.2 h' = (r', h')) (h ++ new)
  end) h.
Proof.
  destruct (AdmitServerQueries W errText containers h) as [r h1] eqn:Er.
  destruct (admit_handles W errText containers h) as (new & Hh & Hb). rewrite Er in Hh, Hb. cbn in Hh, Hb. subst h1.
  pose proof (adds_inv _ _ _ _ _ (admit_trace W errText containers h) Er) as Ht.
  assert (∀ init, KeepsDACLs W init → _) as Hr
    by exact (λ init K, adds_inv _ _ _ _ _ (admit_restorable W errText init containers h) Er).
  assert (∀ init, KeepsDACLs W init → _) as Hc
    by exact (λ init K, adds_inv _ _ _ _ _ (admit_recorded W errText init containers h) Er).
  exists new. rewrite Er. split; [done|]. destruct r as [a|e]; [|done]. split_and!; [done|by apply Ht|].
  unfold closeAdmission. destruct (closeBody W errText a (h ++ new)) as [r h1] eqn:Ec.
  destruct (closeBody_gives W errText a (h ++ new)) as (new' & Hh & Hg1 & Hg2). rewrite Ec in Hh. cbn in Hh. subst h1.
  exists new'. unfold mbind, Hist_bind. rewrite Ec. split; [done|]. split_and!; [done|done| | |done].
  - by apply (adds_inv _ _ _ _ _ (closeBody_trace W errText a (h ++ new)) Ec).
  - intros init K. split.
    + apply (adds_inv _ _ _ _ _ (closeBody_restores W errText init a _ (Hc init K a eq_refl)) Ec).
    + intros He hd. rewrite (adds_inv _ _ _ _ _ (closeBody_undoes W errText init a (h ++ new)) Ec He). apply (Hr init K).
Qed.

(** ** Who is granted what *)

(** The text of an AppContainer's SID. *)
Definition isContainer (s : string) : Prop :=
  length (Split s "-") = 11%nat /\ Join (take 4 (Split s "-")) "-" = "S-1-15-2".

(** A grant of a query of this process or its token to all the containers, and no other. *)
Definition grantsOnly (containers : list string) (e : dacl_event) : Prop :=
  match e with
  | DEv (ACLFromEntries entries _) _ =>
      Forall isContainer containers /\ NoDup containers /\
      ∃ mask, mask ∈ [PROCESS_QUERY_LIMITED_INFORMATION; TOKEN_QUERY] /\ entries = (λ s, mkGrant mask s) <$> containers
  | DEv _ _ => True
  end.

Section Grants.
Context (W : ∀ A, dacl_ask A → list dacl_event → A) (errText : err → string).

Lemma parseContainers_exact containers seen h : Forall isContainer seen → NoDup seen →
  adds (parseContainers W containers seen) (λ r new, Forall (λ e, ∀ l, grantsOnly l e) new /\
    ∀ sids, r = Ok sids → sids = reverse seen ++ containers /\ Forall isContainer sids /\ NoDup sids) h.
Proof.
  revert seen h. induction containers as [|v rest IH]; intros seen h Hs Hd; cbn [parseContainers].
  { adds_step. split; [done|]. intros sids [= <-]. rewrite app_nil_r. split_and!; [done|by apply Forall_reverse|by rewrite reverse_Permutation]. }
  unfold dask. do 2 adds_step. destruct (W _ (StringToSid v) h) as [sid|e]; [|adds_step; split; by repeat constructor].
  destruct (containerSID v sid seen) eqn:Ec; cbn [negb]; [|adds_step; split; by repeat constructor].
  unfold containerSID in Ec. cbv zeta in Ec. to_prop. subst v. eapply adds_mono; [|apply IH].
  - intros r new [Hg Hok]. split; [by constructor|]. intros sids Hr. destruct (Hok sids Hr) as [-> ?].
    rewrite reverse_cons, <- app_assoc in *. done.
  - by constructor.
  - constructor; [|done]. intros Hin. assert (existsb (String.eqb sid) seen = true); [|congruence].
    apply existsb_exists. exists sid. split; [by apply list_elem_of_In|apply String.eqb_refl].
Qed.

Lemma grants_closeBody containers a : only (grantsOnly containers) (closeBody W errText a).
Proof.
  unfold closeBody, dask. apply only_bind; [|intros ?; only_acts]. generalize (None : option err). induction (reverse (ad_effects a)) as [|e es IH]; intros c;
    cbn [restoreAll]; [apply only_ret|]. apply only_bind; [unfold restoreEffect, dask; only_acts|intros r; apply IH].
Qed.

Lemma grants_admitTarget containers a target mask : Forall isContainer containers → NoDup containers →
  mask ∈ [PROCESS_QUERY_LIMITED_INFORMATION; TOKEN_QUERY] → only (grantsOnly containers) (admitTarget W errText containers a target mask).
Proof.
  intros Hc Hd Hm. pose proof (grants_closeBody containers a). unfold admitTarget, dask. only_acts; try done. intros. split_and!; [done..|]. by exists mask.
Qed.

(** Whoever the admission grants anything is one of the containers named, each the SID of an AppContainer named
    once, and the grant is the limited query of this process or the query of its token, added to the list that was
    there. *)
Theorem admission_grants_queries containers : only (grantsOnly containers) (AdmitServerQueries W errText containers).
Proof.
  unfold AdmitServerQueries. destruct containers as [|c cs] eqn:E; [apply only_ret|]. rewrite <- E. clear E. intros h. adds_step.
  eapply adds_mono; [|apply parseContainers_exact; constructor]. intros [sids|e] new [Hg Hok].
  2: { adds_step. rewrite app_nil_r. eapply Forall_impl; [exact Hg|auto]. }
  destruct (Hok sids eq_refl) as (-> & Hc & Hd). cbn [reverse rev_append app] in *. eapply adds_mono with (Q := λ _ new', Forall (grantsOnly containers) new').
  { intros r new' Hn. apply Forall_app. split; [eapply Forall_impl; [exact Hg|auto]|done]. }
  pose proof (λ a t, grants_admitTarget containers a t PROCESS_QUERY_LIMITED_INFORMATION Hc Hd ltac:(set_solver)) as Hp.
  pose proof (λ a t, grants_admitTarget containers a t TOKEN_QUERY Hc Hd ltac:(set_solver)) as Ht.
  match goal with |- adds ?m _ _ => enough (only (grantsOnly containers) m) by auto end. unfold dask. only_acts; auto.
Qed.
End Grants.

(** ** A Windows that keeps access lists *)

(** Handles 1 and 2, with a grant written as one more byte. *)
Definition keepingWindows (init : Z → option ACL) (A : Type) (q : dacl_ask A) (h : list dacl_event) : A :=
  match q in dacl_ask A return A with
  | StringToSid s => Ok s
  | OpenThisProcess _ => Ok 1
  | OpenThisToken _ _ => Ok 2
  | GetDACL hd => Ok (mkDescriptor (match daclAt init h hd with Some acl => String.string_of_list_byte acl | None => "none" end) (Ok (daclAt init h hd)))
  | ACLFromEntries es old => Ok (x01 :: old)
  | SetDACL _ _ => None
  | CloseThis _ => None
  end.

#[global] Instance keepingWindows_keeps init : KeepsDACLs (keepingWindows init) init.
Proof. split; [by intros hd h sd [= <-]|]. by intros hd h h' sd sd' [= <-] [= <-] ->. Qed.

Lemma admission_put_back_witness :
  (∃ a h1, AdmitServerQueries (keepingWindows (λ _, Some [])) (λ _, "") ["S-1-15-2-1-2-3-4-5-6-7"] [] = (Ok a, h1) /\
    daclAt (λ _, Some []) h1 1 = Some [x01] /\ (closeAdmission (keepingWindows (λ _, Some [])) (λ _, "") a None h1).1.1 = None) /\
  ∃ new, (AdmitServerQueries (keepingWindows (λ _, Some [])) (λ _, "") ["S-1-15-2-1-2-3-4-5-6-7"] []).2 = [] ++ new.
Proof.
  split; [do 2 eexists; split; [vm_compute; reflexivity|split; vm_compute; reflexivity]|].
  destruct (admission_put_back (keepingWindows (λ _, Some [])) (λ _, "") ["S-1-15-2-1-2-3-4-5-6-7"] []) as (new & Hn & _). by exists new.
Defined.
