(* ===== verification/SessionDelivery.v ===== *)
(** listen/session.go, the listener's goroutines: what becomes of every connection the
    inner listener accepts, in any interleaving of the accept loop, the goroutine of each
    connection and the session it may run, the callers of [Accept], their handlers, the
    one shutdown and a call of [Close].

    A connection is what its goroutine still has to do, its [pendingSessionConn], how
    often the listener closed it, whether a caller of [Accept] got it, whether its
    session was told to retire, and its session. A step is what happens under one lock,
    in one [select] or in one call of the connection. *)

From S2P Require Import Prelude GoStrings GoError Session SessionListener.

(** ** A session's goroutine *)

(** Where [run] is. *)
Inductive srunAt :=
| SStart        (* the accept marker and [Bind] *)
| SHeader       (* the top of the loop, with a header *)
| SOffer        (* the call is registered: the first [select] of [deliver] *)
| SOffering     (* the second [select] of [deliver] *)
| STold (delivered : bool)   (* [deliver] has returned *)
| SHand (delivered : bool)   (* [active] is set, [handoff] still open *)
| SCall         (* waiting for [call.done] *)
| SCallOver     (* [call.done] was closed *)
| SBetween      (* [active] is false again *)
| SIdle         (* the read of [nextHeader] *)
| SRest         (* no longer idle: the rest of a header that had begun *)
| SMark         (* the closing marker is written *)
| SEnd.         (* the deferred function *)

#[global] Instance srunAt_eq_dec : EqDecision srunAt.
Proof. solve_decision. Defined.

(** The calls of a session are numbered; call [k] has its own [done] and its own
    [handoff]. [r_calls] calls were made so far, of which the first [r_handed] had their
    [handoff] closed and the first [r_over] their [done]; calls follow each other, so
    these are the closed channels. *)
Record session := mkSession {
  r_at : srunAt; r_active : bool; r_callDone : option nat; r_handoff : option nat;
  r_calls : nat; r_handed : nat; r_over : nat
}.

Definition newSession : session := mkSession SStart false None None 0 0 0.

Definition to (r : session) (a : srunAt) : session :=
  mkSession a (r_active r) (r_callDone r) (r_handoff r) (r_calls r) (r_handed r) (r_over r).

(** Who takes a step: the goroutine itself, in bounded time; or a caller of [Accept],
    or the handler that has a call. *)
Inductive actor := Itself | Others.

(** One step of [run]. [down] says that [l.done] is closed, [listed] that [shutdown] has
    had the lock, [retiring] that the session was told to retire. A call is registered
    under the lock, with [l.done] found open. *)
Inductive run_step (down listed retiring : bool) : actor → session → session → Prop :=
| start_fails r : r_at r = SStart → run_step down listed retiring Itself r (to r SEnd)
| start_ok r : r_at r = SStart → run_step down listed retiring Itself r (to r SHeader)
| no_session r : r_at r = SHeader → run_step down listed retiring Itself r (to r SEnd)
| call_refused r : r_at r = SHeader → down = true → run_step down listed retiring Itself r (to r SEnd)
| call_registered r : r_at r = SHeader → listed = false →
    run_step down listed retiring Itself r
      (mkSession SOffer (r_active r) (Some (r_calls r)) (Some (r_calls r)) (S (r_calls r)) (r_handed r) (r_over r))
| offer_down r : r_at r = SOffer → down = true → run_step down listed retiring Itself r (to r (STold false))
| offer_open r : r_at r = SOffer → down = false → run_step down listed retiring Itself r (to r SOffering)
| offer_taken r : r_at r = SOffering → run_step down listed retiring Others r (to r (STold true))
| offering_down r : r_at r = SOffering → down = true → run_step down listed retiring Itself r (to r (STold false))
| told r b : r_at r = STold b →
    run_step down listed retiring Itself r
      (mkSession (SHand b) b (r_callDone r) None (r_calls r) (r_handed r) (r_over r))
| handoff_closed r b : r_at r = SHand b →
    run_step down listed retiring Itself r
      (mkSession (if b then SCall else SEnd) (r_active r) (r_callDone r) (r_handoff r) (r_calls r) (r_calls r) (r_over r))
| handler_closes r : r_at r = STold true \/ r_at r = SHand true \/ r_at r = SCall →
    run_step down listed retiring Others r
      (mkSession (r_at r) (r_active r) (r_callDone r) (r_handoff r) (r_calls r) (r_handed r) (r_calls r))
| call_over r : r_at r = SCall → r_over r = r_calls r → run_step down listed retiring Itself r (to r SCallOver)
| call_cleared r : r_at r = SCallOver →
    run_step down listed retiring Itself r
      (mkSession SBetween false None (r_handoff r) (r_calls r) (r_handed r) (r_over r))
| call_last r : r_at r = SBetween → run_step down listed retiring Itself r (to r SEnd)
| retires_after r : r_at r = SBetween → run_step down listed retiring Itself r (to r SMark)
| goes_idle r : r_at r = SBetween → retiring = false → run_step down listed retiring Itself r (to r SIdle)
| idle_request r : r_at r = SIdle → retiring = false → run_step down listed retiring Itself r (to r SHeader)
| idle_begun r : r_at r = SIdle → retiring = false → run_step down listed retiring Itself r (to r SRest)
| idle_marks r : r_at r = SIdle → run_step down listed retiring Itself r (to r SMark)
| idle_ends r : r_at r = SIdle → run_step down listed retiring Itself r (to r SEnd)
| rest_read r : r_at r = SRest → run_step down listed retiring Itself r (to r SHeader)
| rest_fails r : r_at r = SRest → run_step down listed retiring Itself r (to r SEnd)
| marked r : r_at r = SMark → run_step down listed retiring Itself r (to r SEnd).

(** ** A connection's goroutine *)

(** Where the goroutine of a connection is. *)
Inductive stage :=
| Reading       (* [prepare], before the outcome of [firstHeader] *)
| Register      (* a session header was read *)
| Declining     (* not admitted: the marker is written *)
| Offering      (* to be released and delivered *)
| Delivering    (* released: the first [select] of [deliver] *)
| Waiting       (* the second [select] of [deliver] *)
| Enrolled      (* in [l.sessions], to be released *)
| Leaving       (* the deferred function of [prepare] *)
| Running       (* [s.run], with [p.done] closed *)
| Gone.

#[global] Instance stage_eq_dec : EqDecision stage.
Proof. solve_decision. Defined.

Record life := mkLife {
  at_ : stage; pend : pendingSessionConn; closes : nat; given : bool; retired : bool; run : session
}.

(** A connection the accept loop keeps, and one it closes at once. *)
Definition kept_conn : life := mkLife Reading newPending 0 false false newSession.
Definition refused_conn : life := mkLife Gone newPending 1 false false newSession.

(** [p.done] is open. *)
Definition is_pending (c : life) : bool := match at_ c with Running | Gone => false | _ => true end.

(** The session is in [l.sessions]. *)
Definition is_session (c : life) : bool := match at_ c with Enrolled | Running => true | _ => false end.

Definition moved (c : life) (s : stage) : life := mkLife s (pend c) (closes c) (given c) (retired c) (run c).
Definition closed_to (c : life) (s : stage) : life := mkLife s (pend c) (S (closes c)) (given c) (retired c) (run c).
Definition pended (c : life) (s : stage) (p : pendingSessionConn) : life :=
  mkLife s p (closes c) (given c) (retired c) (run c).

(** One step of a connection's goroutine. [l.done] is read under the lock before a session
    is admitted, so only [listed] is sure not to be true then. The deferred function of
    [run] closes the connection, takes the session out of the map and closes [s.done]. *)
Inductive conn_step (down listed : bool) : actor → life → life → Prop :=
| read_fails c : at_ c = Reading → conn_step down listed Itself c (closed_to c Leaving)
| read_plain c : at_ c = Reading → conn_step down listed Itself c (moved c Offering)
| read_session c : at_ c = Reading → conn_step down listed Itself c (moved c Register)
| admitted c : at_ c = Register → listed = false → conn_step down listed Itself c (moved c Enrolled)
| not_admitted c : at_ c = Register → conn_step down listed Itself c (moved c Declining)
| decline_fails c : at_ c = Declining → conn_step down listed Itself c (closed_to c Leaving)
| decline_written c : at_ c = Declining → conn_step down listed Itself c (moved c Offering)
| released c p : at_ c = Offering → pendingRelease (pend c) = (true, p) → conn_step down listed Itself c (pended c Delivering p)
| not_released c p : at_ c = Offering → pendingRelease (pend c) = (false, p) → conn_step down listed Itself c (pended c Leaving p)
| deliver_down c : at_ c = Delivering → down = true → conn_step down listed Itself c (closed_to c Leaving)
| deliver_open c : at_ c = Delivering → down = false → conn_step down listed Itself c (moved c Waiting)
| handed c : at_ c = Waiting → conn_step down listed Others c (mkLife Leaving (pend c) (closes c) true (retired c) (run c))
| waited_down c : at_ c = Waiting → down = true → conn_step down listed Itself c (closed_to c Leaving)
| session_starts c p b : at_ c = Enrolled → pendingRelease (pend c) = (b, p) → conn_step down listed Itself c (pended c Running p)
| leaves c : at_ c = Leaving → conn_step down listed Itself c (moved c Gone)
| session_runs c who r : at_ c = Running → run_step down listed (retired c) who (run c) r →
    conn_step down listed who c (mkLife Running (pend c) (closes c) (given c) (retired c) r)
| session_ends c : at_ c = Running → r_at (run c) = SEnd → conn_step down listed Itself c (closed_to c Gone).

(** ** The listener *)

(** Where [Close] is with one session: before it reads [handoffDone], waiting for that
    channel, before it reads [active], and waiting for [s.done]. *)
Inductive swait := WStart | WHandoff (k : nat) | WLook | WDone.

(** Where a call of [Close] is: in [shutdown], waiting for the accept loop, for the
    connections and then the sessions it listed, and back. [skipped] are the sessions it
    did not wait for. *)
Inductive closing :=
| NotClosing
| CShut
| CAccept
| CPend (ps : list nat)
| CSess (ss : list nat) (w : swait) (skipped : list nat)
| CReturned (skipped : list nat).

(** The listener: whether [l.done] is closed, the connections [shutdown] still has to
    interrupt once it has made its list, whether the accept loop runs, the call of
    [Close], and the connections so far. *)
Record lstate := mkL {
  l_down : bool; l_list : option (list nat); l_accepting : bool; l_close : closing; l_conns : list life
}.

Definition listed_ (s : lstate) : bool := match l_list s with Some _ => true | None => false end.

Definition lstart : lstate := mkL false None true NotClosing [].

Definition indices (P : life → bool) (cs : list life) : list nat :=
  filter (λ i, P <$> cs !! i = Some true) (seq 0 (length cs)).

(** [s.retire] of every session in the map. *)
Definition retireHeld (c : life) : life :=
  if is_session c then mkLife (at_ c) (pend c) (closes c) (given c) true (run c) else c.

(** [interrupt]. *)
Definition interrupted (c : life) : life :=
  let '(took, p) := pendingInterrupt (pend c) in
  mkLife (at_ c) p (if took then S (closes c) else closes c) (given c) (retired c) (run c).

(** Whether [Close] waits for the end of a session's goroutine, once no call of it is
    being handed over. *)
Definition closeWaits (active completed : bool) : bool := negb active || completed.

(** Whether the channel [s.callDone] is closed. *)
Definition callCompleted (r : session) : bool :=
  match r_callDone r with Some k => (k <? r_over r)%nat | None => false end.

(** One step of [Close]. *)
Inductive close_step (s : lstate) : closing → closing → Prop :=
| close_called : close_step s NotClosing CShut
| close_shut : l_list s = Some [] → close_step s CShut CAccept
| close_accepted : l_accepting s = false → close_step s CAccept (CPend (indices is_pending (l_conns s)))
| close_pending i ps c : l_conns s !! i = Some c → is_pending c = false → close_step s (CPend (i :: ps)) (CPend ps)
| close_sessions : close_step s (CPend []) (CSess (indices is_session (l_conns s)) WStart [])
| close_handoff i ss k sk c : l_conns s !! i = Some c → r_handoff (run c) = Some k →
    close_step s (CSess (i :: ss) WStart sk) (CSess (i :: ss) (WHandoff k) sk)
| close_no_handoff i ss sk c : l_conns s !! i = Some c → r_handoff (run c) = None →
    close_step s (CSess (i :: ss) WStart sk) (CSess (i :: ss) WLook sk)
| close_handed i ss k sk c : l_conns s !! i = Some c → (k < r_handed (run c))%nat →
    close_step s (CSess (i :: ss) (WHandoff k) sk) (CSess (i :: ss) WLook sk)
| close_waits i ss sk c : l_conns s !! i = Some c →
    closeWaits (r_active (run c)) (r_active (run c) && callCompleted (run c)) = true →
    close_step s (CSess (i :: ss) WLook sk) (CSess (i :: ss) WDone sk)
| close_skips i ss sk c : l_conns s !! i = Some c →
    closeWaits (r_active (run c)) (r_active (run c) && callCompleted (run c)) = false →
    close_step s (CSess (i :: ss) WLook sk) (CSess ss WStart (i :: sk))
| close_done i ss sk c : l_conns s !! i = Some c → at_ c = Gone →
    close_step s (CSess (i :: ss) WDone sk) (CSess ss WStart sk)
| close_returns sk : close_step s (CSess [] WStart sk) (CReturned sk).

(** One step of anybody. The accept loop ends when it finds [l.done] closed after an
    [Accept], or after its own call of [shutdown] when [Accept] fails. [l_evicts] is the
    [retire] of a session that makes room for another. *)
Inductive l_step : actor → lstate → lstate → Prop :=
| l_keeps s : l_list s = None → l_accepting s = true →
    l_step Others s (mkL (l_down s) (l_list s) true (l_close s) (l_conns s ++ [kept_conn]))
| l_refuses s : l_accepting s = true →
    l_step Others s (mkL (l_down s) (l_list s) true (l_close s) (l_conns s ++ [refused_conn]))
| l_last s : l_accepting s = true → l_down s = true →
    l_step Others s (mkL (l_down s) (l_list s) false (l_close s) (l_conns s ++ [refused_conn]))
| l_accept_fails s : l_accepting s = true → l_list s = Some [] →
    l_step Itself s (mkL (l_down s) (l_list s) false (l_close s) (l_conns s))
| l_conn s who i c c' : l_conns s !! i = Some c → conn_step (l_down s) (listed_ s) who c c' →
    l_step who s (mkL (l_down s) (l_list s) (l_accepting s) (l_close s) (<[i := c']> (l_conns s)))
| l_evicts s i c : l_conns s !! i = Some c →
    l_step Others s (mkL (l_down s) (l_list s) (l_accepting s) (l_close s) (<[i := retireHeld c]> (l_conns s)))
| l_shuts s : l_down s = false → l_step Itself s (mkL true (l_list s) (l_accepting s) (l_close s) (l_conns s))
| l_lists s : l_down s = true → l_list s = None →
    l_step Itself s (mkL true (Some (indices is_pending (l_conns s))) (l_accepting s) (l_close s) (retireHeld <$> l_conns s))
| l_interrupts s i rest c : l_list s = Some (i :: rest) → l_conns s !! i = Some c →
    l_step Itself s (mkL (l_down s) (Some rest) (l_accepting s) (l_close s) (<[i := interrupted c]> (l_conns s)))
| l_closes s k : close_step s (l_close s) k →
    l_step Itself s (mkL (l_down s) (l_list s) (l_accepting s) k (l_conns s)).

Definition l_any (s s' : lstate) : Prop := ∃ who, l_step who s s'.
Definition l_reachable : lstate → Prop := rtc l_any lstart.

(** What [Accept] returns once the listener is down: the accept loop's own error. *)
Definition acceptError (recorded : option err) : err :=
  match recorded with
  | Some e => if negb (errors_is e NetErrClosed) then e else Sentinel NetErrClosed
  | None => Sentinel NetErrClosed
  end.

(** The error the accept loop records: the first. *)
Definition recordError (recorded : option err) (e : err) : option err := match recorded with None => Some e | Some _ => recorded end.

(** ** Invariants *)

(** The closes by [interrupt]. *)
Definition interrupts (c : life) : nat := if p_closed (pend c) then 1 else 0.

(** Who has the connection, by the stage of its goroutine. *)
Definition stage_ok (listed : bool) (c : life) : Prop :=
  match at_ c with
  | Reading | Register | Declining | Offering => owned (pend c) = true /\ given c = false /\ closes c = interrupts c
  | Enrolled => owned (pend c) = true /\ given c = false /\ closes c = interrupts c /\ (listed = true → retired c = true)
  | Delivering | Waiting => owned (pend c) = false /\ p_closed (pend c) = false /\ closes c = 0%nat /\ given c = false
  | Leaving | Gone => given c = true /\ closes c = 0%nat /\ owned (pend c) = false \/ given c = false /\ (1 <= closes c)%nat
  | Running => given c = false /\ (listed = true → retired c = true)
  end.

(** What holds of one connection; [listed] as above, [due] says that [shutdown] still has
    to interrupt it. *)
Definition life_ok (listed due : bool) (c : life) : Prop :=
  (p_closed (pend c) = true → (1 <= closes c)%nat) /\ stage_ok listed c /\
  (listed = true → is_pending c = true → due = true \/ owned (pend c) = false \/ p_closed (pend c) = true).

Lemma conn_step_ok down listed who due c c' : conn_step down listed who c c' → life_ok listed due c → life_ok listed due c'.
Proof.
  intros Hs (H1 & H2 & H3). unfold life_ok, stage_ok, interrupts, is_pending, pendingRelease in *.
  destruct Hs as [c Hat|c Hat|c Hat|c Hat Hl|c Hat|c Hat|c Hat|c p Hat Hp|c p Hat Hp|c Hat Hd|c Hat Hd|c Hat|c Hat Hd|c p b Hat Hp|c Hat|c who r Hat Hst|c Hat Hend];
    destruct c as [st [o k] n g r0 ses]; cbn in Hat; subst st; cbn in *; destruct k; cbn in *;
    try (inversion Hp; subst; clear Hp); cbn in *; intuition (try lia; try congruence).
Qed.

Definition due (s : lstate) (i : nat) : bool := match l_list s with Some l => bool_decide (i ∈ l) | None => false end.

(** The indices of a list are of connections. *)
Definition in_range (cs : list life) (l : list nat) : Prop := Forall (λ i, (i < length cs)%nat) l.

Definition l_ok (s : lstate) : Prop :=
  (l_list s ≠ None → l_down s = true) /\
  match l_list s with Some l => NoDup l /\ in_range (l_conns s) l | None => True end /\
  ∀ i c, l_conns s !! i = Some c → life_ok (listed_ s) (due s i) c.

Lemma life_ok_list c (d : bool) : life_ok false false c → (is_pending c = true → d = true) → life_ok true d (retireHeld c).
Proof.
  intros (H1 & H2 & _) Hd. unfold life_ok, stage_ok, interrupts, retireHeld, is_pending, is_session in *.
  destruct c as [st [o k] n g r ses]; destruct st; cbn in *; intuition.
Qed.

Lemma life_ok_interrupted c : life_ok true true c → life_ok true false (interrupted c).
Proof.
  intros (H1 & H2 & _). unfold life_ok, stage_ok, interrupts, interrupted, pendingInterrupt, is_pending in *.
  destruct c as [st [[] []] n [] r ses]; destruct st; cbn in *; intuition (try lia; try congruence).
Qed.

Lemma life_ok_evicted listed d c : life_ok listed d c → life_ok listed d (retireHeld c).
Proof.
  unfold life_ok, stage_ok, interrupts, retireHeld, is_pending, is_session.
  destruct c as [st [o k] n g r ses]; destruct st; cbn; intuition.
Qed.

Lemma life_ok_new listed d : life_ok listed d refused_conn /\ (listed = false → life_ok listed d kept_conn).
Proof. unfold life_ok, stage_ok. cbn. intuition (lia || congruence). Qed.

Lemma indices_elem P cs i : i ∈ indices P cs ↔ ∃ c, cs !! i = Some c /\ P c = true.
Proof.
  unfold indices. rewrite list_elem_of_filter, fmap_Some, elem_of_seq. split.
  - intros [(c & Hc & HP) _]. eauto.
  - intros (c & Hc & HP). split; [eauto|]. apply lookup_lt_Some in Hc. lia.
Qed.

Lemma indices_range P cs : in_range cs (indices P cs).
Proof. apply Forall_forall. intros i (c & Hc & _)%indices_elem. by eapply lookup_lt_Some. Qed.

Lemma in_range_more cs cs' l : (length cs <= length cs')%nat → in_range cs l → in_range cs' l.
Proof. intros Hle Hl. eapply Forall_impl; [exact Hl|]. cbn. lia. Qed.

(** A list of connections with one more, or with one changed. *)
Lemma all_snoc (P : nat → life → Prop) (cs : list life) d :
  (∀ i c, cs !! i = Some c → P i c) → (∀ i, P i d) → ∀ i c, (cs ++ [d]) !! i = Some c → P i c.
Proof.
  intros Hcs Hd i c [?|[_ Hk]]%lookup_app_Some; [by apply Hcs|]. apply list_lookup_singleton_Some in Hk as [_ <-]. apply Hd.
Qed.

Lemma all_insert (P : nat → life → Prop) (cs : list life) j d :
  (∀ i c, cs !! i = Some c → P i c) → P j d → ∀ i c, <[j := d]> cs !! i = Some c → P i c.
Proof. intros Hcs Hd i c [(<- & <- & _)|[_ Hj]]%list_lookup_insert_Some; [done|by apply Hcs]. Qed.

Lemma l_step_ok who s s' : l_step who s s' → l_ok s → l_ok s'.
Proof.
  intros Hs (Hd & Hn & Hc).
  destruct Hs as [s Hl Ha|s Ha|s Ha Hdn|s Ha Hl|s who i c c' Hi Hst|s i c Hi|s Hdn|s Hdown Hl|s i rest c Hl Hi|s k Hk];
    unfold l_ok, due, listed_ in *; cbn; try (split_and!; done).
  - rewrite Hl in *. split_and!; [done|done|]. apply all_snoc; [done|]. intros i. by apply life_ok_new.
  - split_and!; [done| |apply all_snoc; [done|]; intros i; apply life_ok_new].
    destruct (l_list s); [|done]. destruct Hn. split; [done|]. eapply in_range_more; [|done]. rewrite length_app. lia.
  - split_and!; [done| |apply all_snoc; [done|]; intros i; apply life_ok_new].
    destruct (l_list s); [|done]. destruct Hn. split; [done|]. eapply in_range_more; [|done]. rewrite length_app. lia.
  - split_and!; [done|unfold in_range; by rewrite length_insert|]. apply all_insert; [done|].
    eapply conn_step_ok; [exact Hst|by apply Hc].
  - split_and!; [done|unfold in_range; by rewrite length_insert|]. apply all_insert; [done|]. by apply life_ok_evicted, Hc.
  - split_and!; [done|apply NoDup_filter, NoDup_seq|unfold in_range; rewrite length_fmap; apply indices_range|].
    intros i c. rewrite list_lookup_fmap, fmap_Some. intros (c0 & Hi & ->).
    apply life_ok_list; [specialize (Hc i c0 Hi); by rewrite Hl in Hc|]. intros Hp. apply bool_decide_eq_true, indices_elem. eauto.
  - rewrite Hl in *. destruct Hn as [Hn Hrg]. apply NoDup_cons in Hn as [Hni Hn]. apply Forall_cons in Hrg as [_ Hrg].
    split_and!; [intros _; by apply Hd|done|unfold in_range; by rewrite length_insert|].
    intros j d [(<- & <- & _)|[Hne Hj]]%list_lookup_insert_Some.
    + rewrite (bool_decide_eq_false_2 (i ∈ rest)) by done. apply life_ok_interrupted. specialize (Hc i c Hi).
      by rewrite (bool_decide_eq_true_2 (i ∈ _)) in Hc by set_solver.
    + specialize (Hc j d Hj). erewrite bool_decide_ext in Hc; [exact Hc|]. set_solver.
Qed.

Lemma l_reachable_ok s : l_reachable s → l_ok s.
Proof.
  revert s. apply rtc_ind_r; [|intros s s' _ [who Hs]; by eapply l_step_ok]. unfold l_ok, lstart. cbn. split_and!; [done|done|]. intros i c. by rewrite lookup_nil.
Qed.

(** C35: every connection the inner listener accepts comes to one end, in any interleaving of its goroutine, the callers
    of [Accept] and the shutdown. One that was handed to a caller of [Accept] is never closed by the listener; one the
    listener is done with was handed over or closed; and once the shutdown has interrupted what it found, every
    connection whose goroutine has not ended is closed or was already released, every session was told to retire, and
    no session is admitted any more. *)
Theorem connections_come_to_one_end s i c : l_reachable s → l_conns s !! i = Some c →
  (given c = true → closes c = 0%nat) /\
  (at_ c = Gone → given c = true \/ (1 <= closes c)%nat) /\
  (l_list s = Some [] →
     (is_pending c = true → (p_closed (pend c) = true /\ (1 <= closes c)%nat) \/ owned (pend c) = false) /\
     (at_ c = Enrolled \/ at_ c = Running → retired c = true) /\
     (∀ who s' c', l_step who s s' → l_conns s' !! i = Some c' → at_ c' = Enrolled → at_ c = Enrolled)).
Proof.
  intros Hr Hi. destruct (l_reachable_ok s Hr) as (Hd & Hn & Hc). destruct (Hc i c Hi) as (H1 & H2 & H3). unfold stage_ok in H2. split_and!.
  - intros Hg. rewrite Hg in H2. destruct (at_ c); intuition (congruence || lia).
  - intros Ha. rewrite Ha in H2. intuition.
  - intros Hl. unfold listed_, due in *. rewrite Hl in *. cbn in *. split_and!.
    + intros Hp. destruct (H3 eq_refl Hp) as [?|[?|?]]; auto. by rewrite bool_decide_eq_false_2 in H by apply not_elem_of_nil.
    + intros [Ha|Ha]; rewrite Ha in H2; intuition.
    + intros who s' c' Hs Hi' Ha.
      destruct Hs as [|s Hac|s Hac|s Hac|s who j d d' Hj Hst|s j d Hj|s Hdn| |s j rest d Hl' Hj|s k Hk]; cbn in Hi'; try congruence.
      * rewrite lookup_app_l in Hi' by (by eapply lookup_lt_Some). congruence.
      * rewrite lookup_app_l in Hi' by (by eapply lookup_lt_Some). congruence.
      * apply list_lookup_insert_Some in Hi' as [(<- & <- & _)|[_ Hi']]; [|congruence]. replace d with c in * by congruence.
        unfold listed_ in Hst. rewrite Hl in Hst. destruct Hst; cbn in *; congruence.
      * apply list_lookup_insert_Some in Hi' as [(<- & <- & _)|[_ Hi']]; [|congruence]. replace d with c in * by congruence.
        unfold retireHeld in Ha. by destruct (is_session c).
Qed.

(** ** Sessions *)

(** A call is being delivered: [handoffDone] is set. *)
Definition offering (a : srunAt) : bool := match a with SOffer | SOffering | STold _ => true | _ => false end.

(** A call was delivered and [run] has not cleared it. *)
Definition in_call (a : srunAt) : bool := match a with SHand true | SCall | SCallOver => true | _ => false end.

(** The fields [Close] reads, by the place of [run]. *)
Definition run_ok (r : session) : Prop :=
  r_handoff r = (if offering (r_at r) then Some (r_handed r) else None) /\
  r_calls r = (match r_at r with SOffer | SOffering | STold _ | SHand _ => S (r_handed r) | _ => r_handed r end) /\
  r_active r = in_call (r_at r) /\ (r_over r <= r_calls r)%nat /\
  (offering (r_at r) || in_call (r_at r) = true → r_callDone r = Some (pred (r_calls r)) /\ (0 < r_calls r)%nat) /\
  (r_at r = SCallOver → r_over r = r_calls r).

Lemma run_step_ok down listed retiring who r r' : run_step down listed retiring who r r' → run_ok r → run_ok r'.
Proof.
  intros Hs (H1 & H2 & H3 & H4 & H5 & H6). unfold run_ok in *.
  destruct Hs as [r E|r E|r E|r E|r E|r E|r E|r E|r E|r b E|r b E|r E|r E Ho|r E|r E|r E|r E|r E|r E|r E|r E|r E|r E|r E];
    destruct r as [a ac cd ho n hd ov]; cbn in *; try (destruct E as [E|[E|E]]); subst a; cbn in *;
    try (destruct b; cbn in *); split_and!; try done; try lia; try congruence; intros; try (destruct (H5 eq_refl); split; [done|lia]); try (split; [done|lia]).
Qed.

(** What [Close] knows of the session it is waiting for, after the shutdown had the lock. *)
Definition wait_ok (w : swait) (r : session) : Prop :=
  match w with
  | WStart => True
  | WHandoff k => r_calls r = S k
  | WLook => offering (r_at r) = false
  | WDone => offering (r_at r) = false /\ (in_call (r_at r) = true → r_over r = r_calls r)
  end.

Lemma run_step_wait down retiring who w r r' : run_step down true retiring who r r' → wait_ok w r → wait_ok w r'.
Proof.
  intros Hs. destruct w as [|k| |]; [done|..]; unfold wait_ok;
  destruct Hs as [r E|r E|r E|r E|r E|r E|r E|r E|r E|r b E|r b E|r E|r E Ho|r E|r E|r E|r E|r E|r E|r E|r E|r E|r E|r E];
    destruct r as [a ac cd ho n hd ov]; cbn in *; try (destruct E as [E|[E|E]]); subst a; cbn in *; try done;
    try (destruct b; cbn in *; try done; intuition done); intuition done.
Qed.

(** What [Close] knows where it is. *)
Definition close_ok (s : lstate) : Prop :=
  match l_close s with
  | NotClosing | CShut => True
  | CAccept => l_list s = Some []
  | CPend ps =>
      l_list s = Some [] /\ l_accepting s = false /\ in_range (l_conns s) ps /\
      ∀ i c, l_conns s !! i = Some c → is_pending c = true → i ∈ ps
  | CSess ss w sk =>
      l_list s = Some [] /\ l_accepting s = false /\ in_range (l_conns s) ss /\ (ss = [] → w = WStart) /\
      (∀ i c, l_conns s !! i = Some c → is_pending c = false /\ (at_ c = Running → i ∈ ss ++ sk)) /\
      (∀ i c, head ss = Some i → l_conns s !! i = Some c → wait_ok w (run c))
  | CReturned sk =>
      l_list s = Some [] /\ l_accepting s = false /\
      ∀ i c, l_conns s !! i = Some c → at_ c = Gone \/ (at_ c = Running /\ i ∈ sk)
  end.

(** A session that does not run has not started or has ended. *)
Definition session_ok (c : life) : Prop :=
  run_ok (run c) /\ (at_ c ≠ Running → r_at (run c) = SStart \/ r_at (run c) = SEnd).

Definition sessions_ok (s : lstate) : Prop := ∀ i c, l_conns s !! i = Some c → session_ok c.

Lemma new_session_ok : session_ok kept_conn /\ session_ok refused_conn.
Proof. unfold session_ok, run_ok. cbn. intuition done. Qed.

Lemma session_ok_same c d : at_ d = at_ c → run d = run c → session_ok c → session_ok d.
Proof. intros Ha Hr. unfold session_ok. by rewrite Ha, Hr. Qed.

Lemma conn_step_session down listed who c c' : conn_step down listed who c c' → session_ok c → session_ok c'.
Proof.
  intros Hs [H1 H2]. unfold session_ok. destruct Hs; cbn; try (split; [done|]; intros _; apply H2; congruence); try done.
  - split; [by eapply run_step_ok|done].
  - split; [done|]. by right.
Qed.

Lemma interrupted_same c : at_ (interrupted c) = at_ c /\ run (interrupted c) = run c.
Proof. unfold interrupted. by destruct (pendingInterrupt _). Qed.

Lemma retireHeld_same c : at_ (retireHeld c) = at_ c /\ run (retireHeld c) = run c.
Proof. unfold retireHeld. by destruct (is_session c). Qed.

Lemma l_step_sessions who s s' : l_step who s s' → sessions_ok s → sessions_ok s'.
Proof.
  intros Hs Hc. unfold sessions_ok in *.
  destruct Hs as [s Hl Ha|s Ha|s Ha Hdn|s Ha Hl|s who i c c' Hi Hst|s i c Hi|s|s Hdown Hl|s i rest c Hl Hi|s k Hk]; cbn; try done.
  1-3: apply (all_snoc (λ _ c, session_ok c)); [done|]; intros _; apply new_session_ok.
  - apply (all_insert (λ _ c, session_ok c)); [done|]. eapply conn_step_session; [done|]. by eapply Hc.
  - apply (all_insert (λ _ c, session_ok c)); [done|]. destruct (retireHeld_same c). eapply session_ok_same; [done|done|]. by eapply Hc.
  - intros i c. rewrite list_lookup_fmap, fmap_Some. intros (c0 & Hi & ->). destruct (retireHeld_same c0). eapply session_ok_same; [done|done|]. by eapply Hc.
  - apply (all_insert (λ _ c, session_ok c)); [done|]. destruct (interrupted_same c). eapply session_ok_same; [done|done|]. by eapply Hc.
Qed.

(** A step of a connection, for [Close] that waits. *)
Lemma conn_step_pending down who c c' : conn_step down true who c c' → is_pending c = false →
  is_pending c' = false /\ (at_ c' = Running → at_ c = Running) /\ ∀ w, wait_ok w (run c) → wait_ok w (run c').
Proof.
  intros Hs Hp. unfold is_pending in *. destruct Hs as [c E|c E|c E|c E|c E|c E|c E|c p E|c p E|c E|c E|c E|c E|c p b E|c E|c who r E Hst|c E];
    rewrite E in *; try done; cbn in *. split_and!; [done|done|]. intros w. by eapply run_step_wait.
Qed.

Lemma conn_step_returned down listed who c c' : conn_step down listed who c c' → at_ c = Gone \/ at_ c = Running →
  at_ c = Running /\ (at_ c' = Gone \/ at_ c' = Running).
Proof. intros Hs [Ha|Ha]; destruct Hs; cbn in *; try congruence; auto. Qed.

Lemma close_step_ok s k : sessions_ok s → close_ok s → close_step s (l_close s) k →
  close_ok (mkL (l_down s) (l_list s) (l_accepting s) k (l_conns s)).
Proof.
  intros Hses Hok Hk. unfold close_ok in *. cbn.
  destruct Hk as [|Hl|Ha|i ps c Hi Hp| |i ss j sk c Hi Hh|i ss sk c Hi Hh|i ss j sk c Hi Hh|i ss sk c Hi Hw|i ss sk c Hi Hw|i ss sk c Hi Hg|sk]; try done.
  - split_and!; [done|done|apply indices_range|]. intros i c Hi Hp. apply indices_elem. eauto.
  - destruct Hok as (? & ? & Hrg & Hall). apply Forall_cons in Hrg as [_ Hrg]. split_and!; [done..|].
    intros j d Hj Hd. destruct (elem_of_cons ps j i) as [Hel _]. destruct (Hel (Hall j d Hj Hd)) as [->|]; [congruence|done].
  - destruct Hok as (? & ? & _ & Hall). split_and!; [done|done|apply indices_range|done| |done].
    intros i c Hi. assert (is_pending c = false) as Hp.
    { destruct (is_pending c) eqn:E; [|done]. apply (Hall i c Hi) in E. by apply not_elem_of_nil in E. }
    split; [done|]. intros Hr. rewrite app_nil_r. apply indices_elem. exists c. split; [done|]. unfold is_session. by rewrite Hr.
  - destruct Hok as (Hk1 & Hk2 & Hk3 & Hk4 & Hk5 & Hw). split_and!; [done|done|done|done|done|]. intros x d [= <-] Hd. simplify_eq.
    destruct (Hses i c Hi) as [(H1 & H2 & _) _]. rewrite Hh in H1. cbn. destruct (r_at (run c)); cbn in *; congruence.
  - destruct Hok as (Hk1 & Hk2 & Hk3 & Hk4 & Hk5 & Hw). split_and!; [done|done|done|done|done|]. intros x d [= <-] Hd. simplify_eq.
    destruct (Hses i c Hi) as [(H1 & _) _]. rewrite Hh in H1. cbn. by destruct (offering (r_at (run c))).
  - destruct Hok as (Hk1 & Hk2 & Hk3 & Hk4 & Hk5 & Hw). split_and!; [done|done|done|done|done|]. intros x d [= <-] Hd. simplify_eq.
    specialize (Hw i c eq_refl Hi). cbn in *. destruct (Hses i c Hi) as [(_ & H2 & _) _]. destruct (r_at (run c)); cbn in *; (done || lia).
  - destruct Hok as (Hk1 & Hk2 & Hk3 & Hk4 & Hk5 & Hl). split_and!; [done|done|done|done|done|]. intros x d [= <-] Hd. simplify_eq.
    specialize (Hl i c eq_refl Hi). cbn in *. split; [done|]. intros Hc. destruct (Hses i c Hi) as [(_ & _ & H3 & H4 & H5 & _) _].
    unfold closeWaits, callCompleted in Hw. rewrite H3, Hc in Hw. destruct H5 as [H5 H6]; [by rewrite Hc, orb_true_r|].
    rewrite H5 in Hw. cbn in Hw. apply Nat.ltb_lt in Hw. lia.
  - destruct Hok as (? & ? & Hrg & ? & Hall & Hl). apply Forall_cons in Hrg as [_ Hrg]. split_and!; [done|done|done|done| |done].
    intros j d Hj. destruct (Hall j d Hj) as [? Hin]. split; [done|]. intros Hr. specialize (Hin Hr). set_solver.
  - destruct Hok as (? & ? & Hrg & ? & Hall & Hl). apply Forall_cons in Hrg as [_ Hrg]. split_and!; [done|done|done|done| |done].
    intros j d Hj. destruct (Hall j d Hj) as [? Hin]. split; [done|]. intros Hr. specialize (Hin Hr).
    apply elem_of_cons in Hin as [->|Hin]; [congruence|done].
  - destruct Hok as (? & ? & _ & _ & Hall & _). split_and!; [done|done|]. intros i c Hi. destruct (Hall i c Hi) as [Hp Hin].
    unfold is_pending in Hp. destruct (at_ c) eqn:E; try done; [right|by left]. split; [done|]. by apply Hin.
Qed.

Lemma in_range_insert cs i d l : in_range cs l → in_range (<[i := d]> cs) l.
Proof. apply in_range_more. by rewrite length_insert. Qed.

(** A step of one connection leaves what [Close] knows true. *)
Lemma close_ok_insert s i c d : close_ok s → l_conns s !! i = Some c →
  (l_list s = Some [] → is_pending c = false → is_pending d = false) →
  (l_list s = Some [] → is_pending c = false → at_ d = Running → at_ c = Running) →
  (l_list s = Some [] → is_pending c = false → ∀ w, wait_ok w (run c) → wait_ok w (run d)) →
  close_ok (mkL (l_down s) (l_list s) (l_accepting s) (l_close s) (<[i := d]> (l_conns s))).
Proof.
  intros Hok Hi Hp Hr Hw. unfold close_ok in *. cbn. destruct (l_close s) as [| | |ps|ss w sk|sk]; try done.
  - destruct Hok as (Hl & Ha & Hrg & Hall). split_and!; [done|done|by apply in_range_insert|].
    apply (all_insert (λ i c, is_pending c = true → i ∈ ps)); [done|]. intros Hd. apply (Hall i c Hi).
    destruct (is_pending c); [done|]. by rewrite (Hp Hl eq_refl) in Hd.
  - destruct Hok as (Hl & Ha & Hrg & Hnil & Hall & Hhead). split_and!; [done|done|by apply in_range_insert|done| |].
    + apply (all_insert (λ i c, is_pending c = false /\ (at_ c = Running → i ∈ ss ++ sk))); [done|].
      destruct (Hall i c Hi) as [Hpc Hin]. auto.
    + intros j d' Hj [(<- & <- & _)|[_ Hj']]%list_lookup_insert_Some; [|by apply (Hhead j)].
      destruct (Hall i c Hi) as [Hpc _]. apply (Hw Hl Hpc). by apply (Hhead i).
  - destruct Hok as (Hl & Ha & Hall). split_and!; [done|done|].
    apply (all_insert (λ i c, at_ c = Gone \/ at_ c = Running /\ i ∈ sk)); [done|].
    assert (is_pending c = false) as Hpc by (unfold is_pending; by destruct (Hall i c Hi) as [->|[-> _]]).
    pose proof (Hp Hl Hpc) as Hpd. unfold is_pending in Hpd. destruct (at_ d) eqn:Ed; try done; [right|by left].
    pose proof (Hr Hl Hpc eq_refl) as Hrc. destruct (Hall i c Hi) as [Hg|[_ Hin]]; [congruence|done].
Qed.

Lemma l_step_close who s s' : l_ok s → sessions_ok s → l_step who s s' → close_ok s → close_ok s'.
Proof.
  intros (Hd & _ & _) Hses Hs Hok.
  destruct Hs as [s Hl Ha|s Ha|s Ha Hdn|s Ha Hl|s who i c c' Hi Hst|s i c Hi|s Hdn|s Hdown Hl|s i rest c Hl Hi|s k Hk].
  1-3: unfold close_ok in *; cbn; destruct (l_close s) as [| | |ps|ss w sk|sk]; try done; destruct Hok as (? & ? & _); congruence.
  - unfold close_ok in *; cbn; destruct (l_close s) as [| | |ps|ss w sk|sk]; try done; destruct Hok as (? & ? & ?); done.
  - apply (close_ok_insert s i c); [done..| | |]; intros Hl Hp; unfold listed_ in Hst; rewrite Hl in Hst; by eapply conn_step_pending.
  - destruct (retireHeld_same c) as [Hat Hrun]. apply (close_ok_insert s i c); [done..| | |]; intros Hl Hp; unfold is_pending in *; by rewrite ?Hat, ?Hrun.
  - assert (l_list s = None) as Hl by (destruct (l_list s); [by rewrite Hd in Hdn|done]).
    unfold close_ok in *; cbn; destruct (l_close s) as [| | |ps|ss w sk|sk]; try done; first [congruence | destruct Hok as [Hl' _]; congruence].
  - unfold close_ok in *; cbn; destruct (l_close s) as [| | |ps|ss w sk|sk]; try done; first [congruence | destruct Hok as [Hl' _]; congruence].
  - unfold close_ok in *; cbn; destruct (l_close s) as [| | |ps|ss w sk|sk]; try done; first [congruence | destruct Hok as [Hl' _]; congruence].
  - by apply close_step_ok.
Qed.

Lemma l_reachable_close s : l_reachable s → l_ok s /\ sessions_ok s /\ close_ok s.
Proof.
  revert s. apply rtc_ind_r.
  - split_and!; [by apply l_reachable_ok, rtc_refl|done|done].
  - intros s s' _ [who Hs] (H1 & H2 & H3). split_and!; [by eapply l_step_ok|by eapply l_step_sessions|by eapply l_step_close].
Qed.

(** ** Closing ends *)

(** How far the goroutine of a session, or of a connection, is from its end, once the
    shutdown has had the lock. *)
Definition run_left (r : session) : nat :=
  match r_at r with
  | SOffer => 13 | SOffering => 12 | STold _ => 11 | SHand _ => 10 | SCall => 9 | SCallOver => 8 | SBetween => 7
  | SIdle => 6 | SRest | SStart => 5 | SHeader => 4 | SMark => 3 | SEnd => 2
  end.

Definition conn_left (c : life) : nat :=
  match at_ c with
  | Reading => 21 | Register => 20 | Declining => 19 | Offering => 18 | Delivering => 17 | Waiting => 16 | Enrolled => 15
  | Running => run_left (run c) | Leaving => 1 | Gone => 0
  end.

Definition live (c : life) : nat := match at_ c with Gone => 0 | _ => 1 end.

Definition wait_left (w : swait) : nat := match w with WStart => 3 | WHandoff _ => 2 | WLook => 1 | WDone => 0 end.

(** What [Close] has still to do, with [n] goroutines that have not ended. *)
Definition close_left (n : nat) (k : closing) : nat :=
  match k with
  | NotClosing | CReturned _ => 0
  | CShut => 5 + 5 * n
  | CAccept => 4 + 5 * n
  | CPend ps => 3 + length ps + 4 * n
  | CSess [] _ _ => 1
  | CSess (_ :: ss) w _ => 2 + 4 * length ss + wait_left w
  end.

Definition work (s : lstate) : nat :=
  sum_list_with conn_left (l_conns s) + length (default [] (l_list s)) + (if l_accepting s then 1 else 0)
  + close_left (sum_list_with live (l_conns s)) (l_close s).

Lemma run_step_nearer down retiring who r r' : run_step down true retiring who r r' →
  (run_left r' <= run_left r)%nat /\ (who = Itself → (run_left r' < run_left r)%nat) /\ (1 < run_left r')%nat.
Proof.
  intros Hs. unfold run_left.
  destruct Hs as [r E|r E|r E|r E|r E|r E|r E|r E|r E|r b E|r b E|r E|r E Ho|r E|r E|r E|r E|r E|r E|r E|r E|r E|r E|r E];
    try done; try (destruct E as [E|[E|E]]); cbn; rewrite E; try destruct b; split_and!; (lia || intros; (done || lia)).
Qed.

Lemma conn_step_nearer down who c c' : conn_step down true who c c' →
  (conn_left c' <= conn_left c)%nat /\ (who = Itself → (conn_left c' < conn_left c)%nat) /\ (live c' <= live c)%nat.
Proof.
  intros Hs. unfold conn_left, live.
  destruct Hs as [c E|c E|c E|c E Hl|c E|c E|c E|c p E Hp|c p E Hp|c E Hd|c E Hd|c E|c E Hd|c p b E Hp|c E|c who r E Hst|c E He];
    rewrite E; cbn; try done; try (split_and!; [lia|intros; (done || lia)|lia]).
  - assert (run_left (run c) <= 13)%nat by (unfold run_left; destruct (r_at (run c)); lia). split_and!; (lia || intros; lia).
  - destruct (run_step_nearer _ _ _ _ _ Hst) as (? & ? & ?). done.
  - unfold run_left. rewrite He. split_and!; (lia || intros; lia).
Qed.

Lemma sum_insert (f : life → nat) (cs : list life) i c d : cs !! i = Some c →
  (sum_list_with f (<[i := d]> cs) + f c = sum_list_with f cs + f d)%nat.
Proof.
  revert i. induction cs as [|x cs IH]; intros [|i] Hi; try done.
  - injection Hi as ->. cbn. lia.
  - change (<[S i := d]> (x :: cs)) with (x :: <[i := d]> cs). cbn [sum_list_with]. specialize (IH i Hi). lia.
Qed.

Lemma sum_snoc (f : life → nat) cs d : sum_list_with f (cs ++ [d]) = (sum_list_with f cs + f d)%nat.
Proof. induction cs as [|x cs IH]; cbn; [lia|]. rewrite IH. lia. Qed.

Lemma indices_live P cs : (∀ c, P c = true → live c = 1%nat) → (length (indices P cs) <= sum_list_with live cs)%nat.
Proof.
  intros HP. unfold indices.
  assert (∀ cs k (g : nat → option life), (∀ j, g (k + j)%nat = cs !! j) →
    (length (filter (λ i, P <$> g i = Some true) (seq k (length cs))) <= sum_list_with live cs)%nat) as Hg; [|by apply Hg].
  clear cs. induction cs as [|c cs IH]; intros k g Hk; cbn [length seq sum_list_with]; [done|].
  assert (g k = Some c) as Hc by (rewrite <- (Nat.add_0_r k); apply (Hk 0%nat)).
  assert (length (filter (λ i, P <$> g i = Some true) (seq (S k) (length cs))) <= sum_list_with live cs)%nat as Hrec.
  { apply IH. intros j. change (cs !! j) with ((c :: cs) !! S j). rewrite <- Hk. f_equal. lia. }
  rewrite filter_cons. destruct (decide _) as [Hd|Hd]; cbn [length]; [|lia].
  rewrite Hc in Hd. injection Hd as Hd. rewrite (HP c Hd). lia.
Qed.

Lemma close_left_mono n m k : (n <= m)%nat → (close_left n k <= close_left m k)%nat.
Proof. intros. unfold close_left. destruct k as [| | |ps|[] w sk|sk]; lia. Qed.

Lemma close_step_nearer s k : l_close s ≠ NotClosing → close_ok s → close_step s (l_close s) k →
  (close_left (sum_list_with live (l_conns s)) k < close_left (sum_list_with live (l_conns s)) (l_close s))%nat.
Proof.
  intros Hc Hok Hk.
  assert (∀ P, (∀ c, P c = true → live c = 1%nat) → (length (indices P (l_conns s)) <= sum_list_with live (l_conns s))%nat) as Hlen
    by (intros P HP; by apply indices_live).
  pose proof (Hlen is_pending) as Hp. pose proof (Hlen is_session) as Hs. unfold live at 1, is_pending at 1 in Hp. unfold live at 1, is_session at 1 in Hs.
  specialize (Hp ltac:(intros c; by destruct (at_ c))). specialize (Hs ltac:(intros c; by destruct (at_ c))).
  destruct Hk as [|Hl|Ha|i ps c Hi Hpe| |i ss j sk c Hi Hh|i ss sk c Hi Hh|i ss j sk c Hi Hh|i ss sk c Hi Hw|i ss sk c Hi Hw|i ss sk c Hi Hg|sk];
    cbn; try done; try lia.
  - destruct (indices is_session (l_conns s)); cbn in *; lia.
  - destruct ss; cbn; lia.
  - destruct ss; cbn; lia.
Qed.

Lemma same_left c d : at_ d = at_ c → run d = run c → conn_left d = conn_left c /\ live d = live c.
Proof. intros Ha Hr. unfold conn_left, live. by rewrite Ha, Hr. Qed.

(** Once the shutdown has had the lock, no step of anybody adds to the work, and every own step takes from it. *)
Lemma l_step_nearer who s s' : l_ok s → close_ok s → l_list s ≠ None → l_close s ≠ NotClosing → l_step who s s' →
  (work s' <= work s)%nat /\ (who = Itself → (work s' < work s)%nat) /\ l_list s' ≠ None /\ l_close s' ≠ NotClosing.
Proof.
  intros (Hd & _ & _) Hok Hl Hc Hs. unfold work.
  destruct Hs as [s Hl' Ha|s Ha|s Ha Hdn|s Ha Hl'|s who i c c' Hi Hst|s i c Hi|s Hdn|s Hdown Hl'|s i rest c Hl' Hi|s k Hk]; try done; cbn [l_conns l_list l_accepting l_close].
  - rewrite !sum_snoc, Ha. cbn. rewrite !Nat.add_0_r. split_and!; [lia|done|done|done].
  - rewrite !sum_snoc, Ha. cbn. rewrite !Nat.add_0_r. split_and!; [lia|done|done|done].
  - rewrite Ha. split_and!; [lia|intros; lia|done|done].
  - unfold listed_ in Hst. destruct (l_list s) as [l|] eqn:E; [|done]. destruct (conn_step_nearer _ _ _ _ Hst) as (H1 & H2 & H3).
    pose proof (sum_insert conn_left _ i c c' Hi). pose proof (sum_insert live _ i c c' Hi).
    pose proof (close_left_mono (sum_list_with live (<[i := c']> (l_conns s))) (sum_list_with live (l_conns s)) (l_close s) ltac:(lia)).
    split_and!; [lia|intros Hw; specialize (H2 Hw); lia|done|done].
  - destruct (retireHeld_same c) as [Hat Hrun].
    pose proof (sum_insert conn_left _ i c (retireHeld c) Hi) as E1. pose proof (sum_insert live _ i c (retireHeld c) Hi) as E2.
    destruct (same_left _ _ Hat Hrun) as [Hcl Hlv].
    replace (sum_list_with live (<[i := retireHeld c]> (l_conns s))) with (sum_list_with live (l_conns s)) by lia.
    split_and!; [lia|done|done|done].
  - by rewrite Hd in Hdn.
  - destruct (interrupted_same c) as [Hat Hrun].
    pose proof (sum_insert conn_left _ i c (interrupted c) Hi) as E1. pose proof (sum_insert live _ i c (interrupted c) Hi) as E2.
    destruct (same_left _ _ Hat Hrun) as [Hcl Hlv].
    replace (sum_list_with live (<[i := interrupted c]> (l_conns s))) with (sum_list_with live (l_conns s)) by lia.
    rewrite Hl'. cbn. split_and!; [lia|intros; lia|done|done].
  - pose proof (close_step_nearer s k Hc Hok Hk). split_and!; [lia|intros; lia|done|]. destruct Hk; done.
Qed.

(** A goroutine whose [p.done] is open can go on by itself once the listener is down. *)
Lemma pending_goes_on c : is_pending c = true → ∃ c', conn_step true true Itself c c'.
Proof.
  unfold is_pending. destruct (at_ c) eqn:Ha; try done; intros _.
  - eexists. by apply read_fails.
  - eexists. by apply not_admitted.
  - eexists. by apply decline_fails.
  - destruct (pendingRelease (pend c)) as [[] p] eqn:Ep; eexists; first [by eapply released | by eapply not_released].
  - eexists. by apply deliver_down.
  - eexists. by apply waited_down.
  - destruct (pendingRelease (pend c)) as [b p] eqn:Ep. eexists. by eapply session_starts.
  - eexists. by apply leaves.
Qed.

(** So can a session, unless a handler has its call. *)
Lemma session_goes_on c : at_ c = Running → (r_at (run c) = SCall → r_over (run c) = r_calls (run c)) →
  ∃ c', conn_step true true Itself c c'.
Proof.
  intros Ha Hcall.
  assert (r_at (run c) = SEnd \/ ∃ r, run_step true true (retired c) Itself (run c) r) as [He|[r Hr]].
  { destruct (r_at (run c)) as [| | | |b|b| | | | | | |] eqn:Er; [right..|by left]; eexists.
    - by apply start_ok.
    - by apply call_refused.
    - by apply offer_down.
    - by apply offering_down.
    - by eapply told.
    - by eapply handoff_closed.
    - apply call_over; auto.
    - by apply call_cleared.
    - by apply call_last.
    - by apply idle_ends.
    - by apply rest_fails.
    - by apply marked. }
  - eexists. by apply session_ends.
  - eexists. by eapply session_runs.
Qed.

Lemma own_step_conn s i c c' : l_down s = true → l_list s ≠ None → l_conns s !! i = Some c →
  conn_step true true Itself c c' → ∃ s', l_step Itself s s'.
Proof.
  intros Hd Hl Hi Hs. eexists. eapply l_conn; [exact Hi|]. unfold listed_. rewrite Hd. by destruct (l_list s).
Qed.

Definition returned (s : lstate) : Prop := ∃ sk, l_close s = CReturned sk.

(** Until [Close] has returned something can be done without anybody's help. *)
Lemma close_goes_on s : l_ok s → sessions_ok s → close_ok s → l_list s ≠ None → l_close s ≠ NotClosing →
  returned s \/ ∃ s', l_step Itself s s'.
Proof.
  intros (Hd & Hlst & Hc) Hses Hok Hl Hn. specialize (Hd Hl). destruct (l_list s) as [[|i rest]|] eqn:El; [| |done].
  2: { right. destruct Hlst as [_ Hrg]. apply Forall_cons in Hrg as [Hi _]. apply lookup_lt_is_Some in Hi as [c Hi].
       eexists. by eapply l_interrupts. }
  assert (∀ k, close_step s (l_close s) k → ∃ s', l_step Itself s s') as Hstep by (intros k Hk; eexists; by apply l_closes).
  assert (∀ i c, l_conns s !! i = Some c → is_pending c = true → ∃ s', l_step Itself s s') as Hpend.
  { intros i c Hi Hp. destruct (pending_goes_on c Hp) as [c' Hs]. eapply (own_step_conn s i); [done|by rewrite El|done|done]. }
  assert (∀ i c, l_conns s !! i = Some c → at_ c = Running → (r_at (run c) = SCall → r_over (run c) = r_calls (run c)) →
    ∃ s', l_step Itself s s') as Hrun.
  { intros i c Hi Ha Hcall. destruct (session_goes_on c Ha Hcall) as [c' Hs]. eapply (own_step_conn s i); [done|by rewrite El|done|done]. }
  unfold close_ok in Hok. destruct (l_close s) as [| | |ps|ss w sk|sk] eqn:Ek; [done|..|left; by exists sk]; right.
  - eapply Hstep. by apply close_shut.
  - destruct (l_accepting s) eqn:Ea; [eexists; by apply l_accept_fails|]. eapply Hstep. by apply close_accepted.
  - destruct ps as [|i ps]; [eapply Hstep, close_sessions|]. destruct Hok as (_ & _ & Hrg & _). apply Forall_cons in Hrg as [Hi _].
    apply lookup_lt_is_Some in Hi as [c Hi]. destruct (is_pending c) eqn:Ep; [by eapply Hpend|]. eapply Hstep. by eapply close_pending.
  - destruct Hok as (_ & _ & Hrg & Hnil & Hall & Hw). destruct ss as [|i ss]; [rewrite (Hnil eq_refl) in *; eapply Hstep, close_returns|].
    apply Forall_cons in Hrg as [Hi _]. apply lookup_lt_is_Some in Hi as [c Hi]. specialize (Hw i c eq_refl Hi).
    destruct (Hall i c Hi) as [Hp _]. destruct (Hses i c Hi) as [(H1 & H2 & _) Hout].
    destruct w as [|k| |]; cbn in Hw.
    + destruct (r_handoff (run c)) eqn:Eh; eapply Hstep; [by eapply close_handoff|by eapply close_no_handoff].
    + destruct (decide (k < r_handed (run c))%nat) as [Hk|Hk]; [eapply Hstep; by eapply close_handed|].
      destruct (at_ c) eqn:Ea; try (unfold is_pending in Hp; by rewrite Ea in Hp).
      * apply (Hrun i c Hi Ea). intros Er. rewrite Er in H2. lia.
      * destruct Hout as [Er|Er]; [done|rewrite Er in H2; lia..].
    + destruct (closeWaits (r_active (run c)) (r_active (run c) && callCompleted (run c))) eqn:Ew;
        eapply Hstep; [by eapply close_waits|by eapply close_skips].
    + destruct Hw as [_ Hw]. destruct (at_ c) eqn:Ea; try (unfold is_pending in Hp; by rewrite Ea in Hp).
      * apply (Hrun i c Hi Ea). intros Er. apply Hw. by rewrite Er.
      * eapply Hstep. by eapply close_done.
Qed.

(** Runs of anybody's steps, with the number of own steps. *)
Inductive runs : nat → lstate → lstate → Prop :=
| runs_refl s : runs 0 s s
| runs_own n s s' s'' : l_step Itself s s' → runs n s' s'' → runs (S n) s s''
| runs_others n s s' s'' : l_step Others s s' → runs n s' s'' → runs n s s''.

Lemma runs_bounded n s s' : runs n s s' → l_ok s → sessions_ok s → close_ok s → l_list s ≠ None → l_close s ≠ NotClosing →
  (n + work s' <= work s)%nat /\ l_ok s' /\ sessions_ok s' /\ close_ok s' /\ l_list s' ≠ None /\ l_close s' ≠ NotClosing.
Proof.
  induction 1 as [s|n s s' s'' Hs _ IH|n s s' s'' Hs _ IH]; intros H1 H2 H3 H4 H5; [split_and!; (done || lia)|..];
    (destruct (l_step_nearer _ _ _ H1 H3 H4 H5 Hs) as (Hw & Hown & Hl & Hc);
     destruct IH as (IH & ?); [by eapply l_step_ok|by eapply l_step_sessions|by eapply l_step_close|done|done|]; split; [|done]).
  - specialize (Hown eq_refl). lia.
  - lia.
Qed.

(** A handler has the call of the session and has not closed it. *)
Definition with_handler (r : session) : Prop :=
  (r_at r = STold true \/ r_at r = SHand true \/ r_at r = SCall) /\ r_over r ≠ r_calls r.

(** What is known of a session stays true through any steps after the shutdown had the lock. *)
Lemma l_step_wait who s s' i c w : l_list s ≠ None → l_step who s s' → l_conns s !! i = Some c →
  is_pending c = false → wait_ok w (run c) →
  l_list s' ≠ None /\ ∃ c', l_conns s' !! i = Some c' /\ is_pending c' = false /\ wait_ok w (run c').
Proof.
  intros Hl Hs Hi Hp Hw. pose proof (lookup_lt_Some _ _ _ Hi) as Hlt.
  destruct Hs as [s Hl' Ha|s Ha|s Ha Hdn|s Ha Hl'|s who j d d' Hj Hst|s j d Hj|s Hdn|s Hdown Hl'|s j rest d Hl' Hj|s k Hk];
    cbn; (split; [done|]); try done; try (by eauto); try (exists c; by rewrite lookup_app_l by done).
  - destruct (decide (j = i)) as [->|Hne]; [|exists c; by rewrite list_lookup_insert_ne]. assert (d = c) as -> by congruence.
    unfold listed_ in Hst. destruct (l_list s); [|done]. destruct (conn_step_pending _ _ _ _ Hst Hp) as (? & _ & Hwait).
    exists d'. rewrite list_lookup_insert_eq by done. auto.
  - destruct (decide (j = i)) as [->|Hne]; [|exists c; by rewrite list_lookup_insert_ne]. assert (d = c) as -> by congruence.
    exists (retireHeld c). rewrite list_lookup_insert_eq by done. destruct (retireHeld_same c) as [Ha Hr]. unfold is_pending in *. by rewrite Ha, Hr.
  - destruct (decide (j = i)) as [->|Hne]; [|exists c; by rewrite list_lookup_insert_ne]. assert (d = c) as -> by congruence.
    exists (interrupted c). rewrite list_lookup_insert_eq by done. destruct (interrupted_same c) as [Ha Hr]. unfold is_pending in *. by rewrite Ha, Hr.
Qed.

Lemma runs_wait n s s' i c c' w : runs n s s' → l_list s ≠ None → l_conns s !! i = Some c → is_pending c = false →
  wait_ok w (run c) → l_conns s' !! i = Some c' → wait_ok w (run c').
Proof.
  intros Hruns. revert c. induction Hruns as [s|n s s' s'' Hs _ IH|n s s' s'' Hs _ IH]; intros c Hl Hi Hp Hw Hi'; [by simplify_eq|..];
    destruct (l_step_wait _ _ _ _ _ _ Hl Hs Hi Hp Hw) as (Hl' & d & Hd & Hpd & Hwd); by eapply IH.
Qed.

Lemma done_no_handler r : wait_ok WDone r → ¬ with_handler r.
Proof. intros [Ho Hc] [[E|[E|E]] Hne]; rewrite E in *; cbn in *; auto; done. Qed.

(** A session that [Close] passes over is with a handler. *)
Lemma skips_with_handler r : run_ok r → closeWaits (r_active r) (r_active r && callCompleted r) = false → with_handler r.
Proof.
  intros (_ & _ & H3 & H4 & H5 & H6). unfold closeWaits, callCompleted, with_handler. rewrite H3.
  destruct (in_call (r_at r)) eqn:Ec; cbn; [|done]. destruct H5 as [-> H5]; [by rewrite orb_true_r|].
  intros Hov%Nat.ltb_ge. assert (r_over r ≠ r_calls r) as Hne by lia. split; [|done].
  destruct (r_at r) as [| | | |b|[]| | | | | | |]; try done; auto. by destruct Hne, H6.
Qed.

(** C36: [Close] returns, and waits for what it should. From the moment the shutdown has had the lock, a run of
    anybody's steps, however long, has only a bounded number of steps of the listener's own goroutines and of [Close];
    and as long as [Close] has not returned, one of these can be taken without a caller of [Accept], a handler or a peer
    doing anything: the reads it waits for are of connections that were closed and of sessions told to retire. Before
    that, the shutdown's own steps lead there. While [Close] waits for the end of a session, no handler has a call of
    that session it has not closed, and it never gets one. When [Close] has returned, the accept loop has ended, and every
    connection's goroutine has, except those of the sessions it did not wait for; and it only ever passes over a
    session whose call a handler has and has not closed. *)
Theorem closing_ends s : l_reachable s → l_close s ≠ NotClosing →
  (l_list s = None → ∃ s' s'', rtc (l_step Itself) s s' /\ l_step Itself s' s'' /\ l_list s'' ≠ None) /\
  (l_list s ≠ None → ∃ bound, ∀ n s', runs n s s' → (n <= bound)%nat /\ (returned s' \/ ∃ s'', l_step Itself s' s'')) /\
  (l_list s = Some [] → ∀ i c, l_conns s !! i = Some c →
     (at_ c = Reading → p_closed (pend c) = true) /\ (at_ c = Running → retired c = true)) /\
  (∀ i ss sk c n s' c', l_close s = CSess (i :: ss) WDone sk → l_conns s !! i = Some c → at_ c = Running →
     runs n s s' → l_conns s' !! i = Some c' → ¬ with_handler (run c')) /\
  (∀ i ss sk c s', l_close s = CSess (i :: ss) WLook sk → l_conns s !! i = Some c → l_step Itself s s' →
     l_close s' = CSess ss WStart (i :: sk) → with_handler (run c)) /\
  (∀ sk, l_close s = CReturned sk → l_accepting s = false /\
     ∀ i c, l_conns s !! i = Some c → at_ c = Gone \/ (at_ c = Running /\ i ∈ sk)).
Proof.
  intros Hr Hn. destruct (l_reachable_close s Hr) as (H1 & H2 & H3). refine (conj _ (conj _ (conj _ (conj _ (conj _ _))))).
  - intros Hl. destruct (l_down s) eqn:Ed.
    + exists s. eexists. split; [apply rtc_refl|]. split; [by apply l_lists|done].
    + eexists. eexists. split; [by apply rtc_once, l_shuts|]. split; [by apply l_lists|done].
  - intros Hl. exists (work s). intros n s' Hrun. destruct (runs_bounded _ _ _ Hrun H1 H2 H3 Hl Hn) as (? & ? & ? & ? & ? & ?).
    split; [lia|]. by apply close_goes_on.
  - intros Hl i c Hi. destruct H1 as (_ & _ & H1). destruct (H1 i c Hi) as (_ & Hst & Hp). unfold listed_, due, stage_ok, is_pending in *.
    rewrite Hl in *. cbn in *. split; intros Ha; rewrite Ha in *; [|by apply Hst].
    destruct (Hp eq_refl eq_refl) as [Hb|[Hb|Hb]]; [|destruct Hst; congruence|done]. by rewrite bool_decide_eq_false_2 in Hb by apply not_elem_of_nil.
  - intros i ss sk c n s' c' Hk Hi Ha Hrun Hi'. unfold close_ok in H3. rewrite Hk in H3. destruct H3 as (Hl & _ & _ & _ & Hall & Hw).
    destruct (Hall i c Hi) as [Hp _]. apply done_no_handler. eapply (runs_wait n s s' i c); try done; [by rewrite Hl|]. by apply (Hw i).
  - intros i ss sk c s' Hk Hi Hs Hk'. apply skips_with_handler; [by apply (H2 i)|].
    inversion Hs; subst; cbn in Hk'; try (by rewrite Hk in Hk'). rewrite Hk in *. inversion H; subst; simplify_eq; try done.
  - intros sk Hk. unfold close_ok in H3. rewrite Hk in H3. by destruct H3 as (_ & ? & ?).
Qed.

(** One connection reading its first header when the listener is shut down. *)
Definition shut_while_reading : lstate := mkL true (Some []) true NotClosing [interrupted kept_conn].

Lemma shut_while_reading_reachable : l_reachable shut_while_reading.
Proof.
  eapply rtc_l; [eexists; by apply l_keeps|]. eapply rtc_l; [eexists; by apply l_shuts|]. eapply rtc_l; [eexists; by apply l_lists|].
  eapply rtc_l; [eexists; by eapply (l_interrupts _ 0%nat [])|]. apply rtc_refl.
Qed.

Lemma connections_come_to_one_end_witness : ∃ c, l_conns shut_while_reading !! 0%nat = Some c /\ (at_ c = Gone → given c = true \/ (1 <= closes c)%nat).
Proof.
  eexists. split; [reflexivity|]. apply (connections_come_to_one_end shut_while_reading 0); [exact shut_while_reading_reachable|reflexivity].
Defined.

(** A session whose call is being offered, and [Close] waiting for that to be settled. *)
Definition offeringSession : session := mkSession SOffering false (Some 0%nat) (Some 0%nat) 1 0 0.

Definition close_at_handoff : lstate :=
  mkL true (Some []) false (CSess [0%nat] (WHandoff 0) []) [mkLife Running (mkPending false false) 0 false true offeringSession].

Ltac conn_goes H := eapply rtc_l; [eexists; eapply (l_conn _ _ 0%nat); [reflexivity|apply H; reflexivity]|]; cbn.
Ltac session_goes H := eapply rtc_l; [eexists; eapply (l_conn _ _ 0%nat); [reflexivity|apply session_runs; [reflexivity|apply H; reflexivity]]|]; cbn.
Ltac close_goes H := eapply rtc_l; [eexists; eapply l_closes; cbn; by eapply H|]; cbn.

Lemma close_at_handoff_reachable : l_reachable close_at_handoff.
Proof.
  eapply rtc_l; [eexists; by apply l_keeps|]. cbn. conn_goes read_session. conn_goes admitted.
  eapply rtc_l; [eexists; eapply (l_conn _ _ 0%nat); [reflexivity|eapply session_starts; reflexivity]|]. cbn.
  session_goes start_ok. session_goes call_registered. session_goes offer_open.
  close_goes close_called. eapply rtc_l; [eexists; by apply l_shuts|]. cbn. eapply rtc_l; [eexists; by apply l_lists|]. cbn.
  close_goes close_shut. eapply rtc_l; [eexists; by apply l_accept_fails|]. cbn.
  close_goes close_accepted. close_goes close_sessions. close_goes close_handoff. apply rtc_refl.
Qed.

Lemma closing_ends_witness : ∃ bound, ∀ n s', runs n close_at_handoff s' → (n <= bound)%nat /\ (returned s' \/ ∃ s'', l_step Itself s' s'').
Proof. apply (closing_ends close_at_handoff); [exact close_at_handoff_reachable|done|done]. Defined.
