(* ===== verification/Remote.v ===== *)
(** remote/tls.go and remote/server.go: frames over mutually authenticated TLS.

    The package crypto/tls, the network and the handler are a system that answers
    questions with anything; a configuration is the fields the code reads and writes, a
    certificate its bytes and its public key's, and the stream of a connection is the
    plaintext its peer sends and takes. *)

From S2P Require Import Prelude GoStrings GoError GoIO Frame Events.

Definition Protocol : string := "oa-framed/1".
Definition Transport : string := "oa-framed-mtls@1".

Record certificate := mkCert { cert_raw : list byte; cert_spki : list byte }.
Definition certPool : Type := list certificate.

Definition VersionTLS13 : Z := 0x0304.
Definition RequireAndVerifyClientCert : Z := 4.

(** The fields of [tls.Config]; a callback is whether it is set. *)
Record tlsConfig := mkTLS {
  Certificates : list certificate;
  GetCertificate : bool;
  GetClientCertificate : bool;
  GetConfigForClient : bool;
  InsecureSkipVerify : bool;
  ServerName : string;
  RootCAs : option certPool;
  ClientCAs : option certPool;
  ClientAuth : Z;
  MinVersion : Z;
  MaxVersion : Z;
  NextProtos : list string;
  SessionTicketsDisabled : bool;
  ClientSessionCache : bool
}.

(** The fields of [tls.ConnectionState]. *)
Record tlsState := mkState {
  NegotiatedProtocol : string;
  VerifiedChains : list (list certificate);
  PeerCertificates : list certificate
}.

Definition refusedTrust (why : string) : err := Wrap ("remote: authentication or trust configuration refused: " +:+ why) [Sentinel ErrTrust].

(** The configuration [Client] dials with. *)
Definition clientConfig (config : option tlsConfig) : result tlsConfig :=
  let refusal := Err (refusedTrust "server name, roots and client credential required") in
  match config with
  | None => refusal
  | Some c =>
      match RootCAs c with
      | None => refusal
      | Some roots =>
          if InsecureSkipVerify c || String.eqb (ServerName c) "" || ((length (Certificates c) =? 0)%nat && negb (GetClientCertificate c)) then refusal
          else
            let c := mkTLS (Certificates c) (GetCertificate c) (GetClientCertificate c) (GetConfigForClient c) (InsecureSkipVerify c) (ServerName c)
                       (Some roots) (ClientCAs c) (ClientAuth c) VersionTLS13 (MaxVersion c) [Protocol] (SessionTicketsDisabled c) false in
            if negb (MaxVersion c =? 0) && (MaxVersion c <? MinVersion c) then Err (refusedTrust "TLS 1.3 required") else Ok c
      end
  end.

(** Whether [net.SplitHostPort] takes the address apart. *)
Definition hostPort (s : string) : bool :=
  let colons := Ascii.eqb ":" in
  match s with
  | String "[" rest =>
      match Cut rest "]" with
      | None => false
      | Some (host, rest) =>
          match CutPrefix rest ":" with
          | None => false
          | Some port => negb (contains_char colons port) && negb (ContainsAny host "[") && negb (ContainsAny rest "[]")
          end
      end
  | _ =>
      match Cut s ":" with
      | None => false
      | Some (_, port) => negb (contains_char colons port) && negb (ContainsAny s "[]")
      end
  end.

(** [Client]: the configuration of its dialer. *)
Definition Client (address : string) (config : option tlsConfig) : result tlsConfig :=
  if negb (hostPort address) then Err (refusedTrust "explicit host:port required") else clientConfig config.

Example host_ports : hostPort "host:1" = true /\ hostPort "[::1]:1" = true /\ hostPort "host" = false /\ hostPort "::1:1" = false /\
  hostPort "[::1]" = false /\ hostPort "[::1]x:1" = false /\ hostPort ":1" = true /\ hostPort "a[b]:1" = false.
Proof. by vm_compute. Qed.

(** What the host supplies to [Server]. *)
Record Server := mkServer { TLS : option tlsConfig; hasHandler : bool; Timeout : Duration; MaxFrame : Z; MaxConnections : Z }.

(** The configuration [Serve] accepts connections with, once it has a listener. *)
Definition serverConfig (s : Server) : result tlsConfig :=
  let refusal := Err (refusedTrust "fixed server identity, client roots, handler and valid limits required") in
  match TLS s with
  | None => refusal
  | Some c =>
      match ClientCAs c with
      | None => refusal
      | Some roots =>
          if GetConfigForClient c || ((length (Certificates c) =? 0)%nat && negb (GetCertificate c)) || negb (hasHandler s) || (Timeout s <? 0) || (MaxConnections s <? 0)
          then refusal
          else
            let c := mkTLS (Certificates c) (GetCertificate c) (GetClientCertificate c) (GetConfigForClient c) (InsecureSkipVerify c) (ServerName c)
                       (RootCAs c) (Some roots) RequireAndVerifyClientCert VersionTLS13 (MaxVersion c) [Protocol] true (ClientSessionCache c) in
            if negb (MaxVersion c =? 0) && (MaxVersion c <? MinVersion c) then Err (refusedTrust "TLS 1.3 required") else Ok c
      end
  end.

(** The limits [Serve] uses. *)
Definition serveTimeout (s : Server) : Duration := if Timeout s =? 0 then DefaultFrameTimeout else Timeout s.
Definition serveConnections (s : Server) : Z := if MaxConnections s =? 0 then 64 else MaxConnections s.

(** [Peer]. *)
Record RPeer := mkRPeer { rp_certificate : certificate; rp_key : list byte }.

Section Remote.
Context (sha256 : list byte → list byte).

(** [peer]. *)
Definition peer (state : tlsState) : result RPeer :=
  if negb (String.eqb (NegotiatedProtocol state) Protocol) || (length (VerifiedChains state) =? 0)%nat then Err (Sentinel ErrTrust)
  else match PeerCertificates state with
       | [] => Err (Sentinel ErrTrust)
       | cert :: _ => Ok (mkRPeer cert (sha256 (cert_spki cert)))
       end.

Inductive rask : Type → Type :=
| DialTCP (address : string) : rask (result Z)
| SetTLSDeadline (c : Z) : rask (option err)
| Handshake (c : Z) (server : bool) (config : tlsConfig) : rask (option err)
| ConnectionState (c : Z) : rask tlsState
| Stream (c : Z) : rask conn
| Handle (p : RPeer) (frame : list byte) : rask (result (option (list byte)))
| ContextErr : rask (option err)
| Sent (c : Z) (bytes : list byte) : rask unit
| AwaitEnd (c : Z) : rask unit
| CloseRaw (c : Z) : rask unit
| CloseTLS (c : Z) : rask unit.

Inductive revent_ : Type :=
| REv (A : Type) (q : rask A) (a : A).

Context (W : ∀ A, rask A → list revent_ → A).

Definition rdo {A} (q : rask A) : Hist revent_ A := act (W A q) (REv A q).

(** The dialer of [Client]; a context without a deadline sets none. *)
Definition dial (address : string) (config : tlsConfig) (hasDeadline : bool) (selected : string) : Hist revent_ (result Z) :=
  if negb (String.eqb selected address) then mret (Err (refusedTrust "endpoint differs from trusted registration"))
  else
    raw ← rdo (DialTCP address);
    match raw with
    | Err e => mret (Err e)
    | Ok c =>
        e ← (if hasDeadline then rdo (SetTLSDeadline c) else mret None);
        match e with
        | Some e => _ ← rdo (CloseRaw c); mret (Err e)
        | None =>
            e ← rdo (Handshake c false config);
            match e with
            | Some e => _ ← rdo (CloseRaw c); mret (Err (Wrap "remote: authentication or trust configuration refused" [Sentinel ErrTrust; e]))
            | None =>
                state ← rdo (ConnectionState c);
                if negb (String.eqb (NegotiatedProtocol state) Protocol) || (length (VerifiedChains state) =? 0)%nat
                then _ ← rdo (CloseRaw c); mret (Err (refusedTrust "frame protocol or verified server chain missing"))
                else mret (Ok c)
            end
        end
    end.

(** [Close] of the stream [dial] gives. *)
Definition ownedClose (c : Z) : Hist revent_ unit := rdo (CloseRaw c).

(** The part of [serveCall] after the handler's answer. *)
Definition answer (c : Z) (stream : conn) (limit : Z) (r : result (option (list byte))) (ctxErr : option err) : Hist revent_ unit :=
  match r, ctxErr with
  | Ok (Some reply), None =>
      let '(e, stream') := WriteFrameTo reply limit stream in
      _ ← rdo (Sent c (drop (length (sent stream)) (sent stream')));
      match e with
      | Some _ => mret tt
      | None => rdo (AwaitEnd c)
      end
  | _, _ => mret tt
  end.

(** [serveCall] of the accepted connection [c], with its deferred functions. *)
Definition serveCall (limit : Z) (config : tlsConfig) (c : Z) : Hist revent_ unit :=
  _ ← (e ← rdo (SetTLSDeadline c);
       match e with
       | Some _ => mret tt
       | None =>
           e ← rdo (Handshake c true config);
           match e with
           | Some _ => mret tt
           | None =>
               state ← rdo (ConnectionState c);
               match peer state with
               | Err _ => mret tt
               | Ok caller =>
                   stream ← rdo (Stream c);
                   match ReadFrameFrom limit stream with
                   | (Err _, _) => mret tt
                   | (Ok frame, stream) =>
                       r ← rdo (Handle caller frame);
                       e ← (match r with Ok _ => rdo ContextErr | Err _ => mret None end);
                       _ ← answer c stream limit r e;
                       _ ← rdo (CloseRaw c);
                       rdo (AwaitEnd c)
                   end
               end
           end
       end);
  rdo (CloseTLS c).

(** ** What is shown *)

(** The connection was handshaken with this configuration, and its state told the caller. *)
Definition authenticated (c : Z) (config : tlsConfig) (caller : RPeer) (before : list revent_) : Prop :=
  REv _ (Handshake c true config) None ∈ before /\
  ∃ state, REv _ (ConnectionState c) state ∈ before /\ NegotiatedProtocol state = Protocol /\ VerifiedChains state ≠ [] /\
    ∃ rest, PeerCertificates state = rp_certificate caller :: rest /\ rp_key caller = sha256 (cert_spki (rp_certificate caller)).

(** What comes before a call of the handler and before a reply. *)
Definition grounded (limit : Z) (c : Z) (config : tlsConfig) (before : list revent_) (e : revent_) : Prop :=
  match e with
  | REv _ (Handle caller frame) _ =>
      authenticated c config caller before /\
      ∃ stream stream', REv _ (Stream c) stream ∈ before /\ ReadFrameFrom limit stream = (Ok frame, stream')
  | REv _ (Sent c' _) _ => c' = c /\ ∃ caller frame reply, REv _ (Handle caller frame) (Ok (Some reply)) ∈ before /\ REv _ ContextErr None ∈ before
  | _ => True
  end.

Definition all_grounded (limit c : Z) (config : tlsConfig) (new : list revent_) : Prop :=
  ∀ before e after, new = before ++ e :: after → grounded limit c config before e.

Lemma grounded_snoc limit c config new e : all_grounded limit c config new → grounded limit c config new e → all_grounded limit c config (new ++ [e]).
Proof.
  intros Hn He before e' after E. destruct after as [|x after] using rev_ind; [apply app_inj_tail in E as [-> ->]; done|clear IHafter].
  rewrite app_comm_cons, app_assoc in E. apply app_inj_tail in E as [-> _]. by eapply Hn.
Qed.

Lemma grounded_nil limit c config : all_grounded limit c config [].
Proof. intros before e after E. by destruct before. Qed.

Lemma peer_Ok state p : peer state = Ok p → NegotiatedProtocol state = Protocol /\ VerifiedChains state ≠ [] /\
  ∃ rest, PeerCertificates state = rp_certificate p :: rest /\ rp_key p = sha256 (cert_spki (rp_certificate p)).
Proof.
  unfold peer. destruct (_ || _) eqn:E; [done|]. to_prop. destruct (PeerCertificates state) as [|cert rest]; [done|]. intros [= <-].
  split_and!; [done|by destruct (VerifiedChains state)|]. by exists rest.
Qed.

Lemma grounded_one limit c config e : grounded limit c config [] e → all_grounded limit c config [e].
Proof. apply (grounded_snoc _ _ _ []), grounded_nil. Qed.

Ltac ground := rewrite ?app_nil_l, ?app_nil_r, ?app_assoc; repeat first [apply grounded_one | apply grounded_snoc]; try done.

(** C37: the handler of a remote server sees only authenticated callers and whole frames. In every run of [serveCall] a
    frame reaches the handler only after the connection completed its handshake under the configuration given, its
    state named the frame protocol and a verified chain, and the frame was read whole within the limit from that
    connection; the caller is the first certificate with the digest of its key. Nothing is sent before the handler
    gave a reply with its context still open, and the connection is closed last, whatever happened. *)
Theorem remote_handler_evidence limit config c h : adds (serveCall limit config c) (λ _ new,
  all_grounded limit c config new /\ ∃ before u, new = before ++ [REv _ (CloseTLS c) u]) h.
Proof.
  unfold serveCall. adds_step. eapply (adds_mono _ (λ _ new, all_grounded limit c config new)).
  { intros _ new Hn. unfold rdo. adds_step. split; [by apply grounded_snoc|eauto]. }
  unfold rdo. do 2 adds_step. destruct (W _ (SetTLSDeadline c) _) as [e|]; [adds_step; ground|].
  do 2 adds_step. destruct (W _ (Handshake c true config) _) as [e|] eqn:Eh; [adds_step; ground|].
  do 2 adds_step. set (state := W _ (ConnectionState c) _). destruct (peer state) as [caller|e] eqn:Ep; [|adds_step; ground].
  do 2 adds_step. set (stream := W _ (Stream c) _). destruct (ReadFrameFrom limit stream) as [[frame|e] stream'] eqn:Er; [|adds_step; ground].
  do 2 adds_step. set (r := W _ (Handle caller frame) _).
  match goal with |- adds _ (λ _ new', all_grounded _ _ _ ([?a] ++ [?b] ++ [?s] ++ [?t] ++ [?u] ++ new')) _ =>
    eapply (adds_mono _ (λ _ new', all_grounded limit c config (([a] ++ [b] ++ [s] ++ [t] ++ [u]) ++ new')));
    [intros ? new'; by rewrite <- !app_assoc|];
    assert (all_grounded limit c config ([a] ++ [b] ++ [s] ++ [t] ++ [u])) as Hpre;
    [|assert (REv _ (Handle caller frame) r ∈ [a] ++ [b] ++ [s] ++ [t] ++ [u]) as Hin by set_solver;
      revert Hpre Hin; generalize ([a] ++ [b] ++ [s] ++ [t] ++ [u]); intros pre Hpre Hin] end.
  { ground. split; [|exists stream, stream'; split; [set_solver|done]]. split; [set_solver|].
    exists state. split; [set_solver|]. by apply peer_Ok. }
  adds_step. destruct r as [reply|e].
  2: { unfold answer. repeat adds_step. ground. }
  adds_step. set (ctxErr := W _ ContextErr _). unfold answer, rdo. adds_step. destruct reply as [reply|]; [|repeat adds_step; ground].
  destruct ctxErr as [e|]; [repeat adds_step; ground|]. destruct (WriteFrameTo reply limit stream') as [e stream''].
  cbn beta iota. do 2 adds_step. destruct e as [e|]; repeat adds_step; ground; (split; [done|]); exists caller, frame, reply; (split; set_solver).
Qed.

(** ** Dialing *)

Definition dialed (e : revent_) : list Z := match e with REv _ (DialTCP _) r => match r with Ok c => [c] | Err _ => [] end | REv _ _ _ => [] end.
Definition hungUp (e : revent_) : list Z := match e with REv _ (CloseRaw c) _ => [c] | REv _ _ _ => [] end.

Ltac dialled Hd Hh Hf :=
  split_and!; [unfold balanced; rewrite ?bind_app, ?Hd, ?Hh; reflexivity|repeat (apply Forall_app; split); try done; by repeat constructor|].

(** A remote client reaches one server. The dialer dials the registered address and no other, and gives a stream
    only after a handshake under the client's configuration ended with the frame protocol and a verified chain;
    otherwise what it opened is closed. *)
Theorem remote_dial_evidence address config hasDeadline selected h : adds (dial address config hasDeadline selected) (λ r new,
  balanced dialed hungUp (match r with Ok c => [c] | Err _ => [] end) new /\
  Forall (λ e, match e with REv _ (DialTCP a) _ => a = address /\ selected = address | REv _ _ _ => True end) new /\
  ∀ c, r = Ok c → REv _ (Handshake c false config) None ∈ new /\
    ∃ state, REv _ (ConnectionState c) state ∈ new /\ NegotiatedProtocol state = Protocol /\ VerifiedChains state ≠ []) h.
Proof.
  unfold dial, rdo. destruct (String.eqb_spec selected address) as [->|]; cbn [negb]; [|adds_step; split_and!; [by apply balanced_idle|done|done]].
  do 2 adds_step. destruct (W _ (DialTCP address) h) as [c|e]; [|adds_step; split_and!; [by apply balanced_idle; repeat constructor|by repeat constructor|done]].
  adds_step. eapply (adds_mono _ (λ _ new, new = [] \/ ∃ e, new = [REv _ (SetTLSDeadline c) e])).
  2: { destruct hasDeadline; adds_step; eauto. }
  intros e set_ Hset.
  assert (set_ ≫= dialed = [] /\ set_ ≫= hungUp = []) as [Hd Hh] by (by destruct Hset as [->|[? ->]]).
  assert (Forall (λ e, match e with REv _ (DialTCP a) _ => a = address /\ address = address | REv _ _ _ => True end) set_) as Hf
    by (destruct Hset as [->|[? ->]]; by repeat constructor).
  destruct e as [e|]; [repeat adds_step; dialled Hd Hh Hf; done|].
  do 2 adds_step. destruct (W _ (Handshake c false config) _) as [e|]; [repeat adds_step; dialled Hd Hh Hf; done|].
  do 2 adds_step. set (state := W _ (ConnectionState c) _). destruct (_ || _) eqn:E; [repeat adds_step; dialled Hd Hh Hf; done|].
  adds_step. dialled Hd Hh Hf. to_prop. intros ? [= <-]. split; [set_solver|]. exists state. split_and!; [set_solver|done|by destruct (VerifiedChains state)].
Qed.
End Remote.

(** ** Configurations *)

(** C38: whatever a host configures, [Client] and [Serve] run TLS 1.3 or newer with the frame protocol alone and no
    resumed session, verify the other side against the roots the host gave, and present a certificate; or they refuse
    with [ErrTrust]. *)
Theorem remote_configurations :
  (∀ address config, match Client address config with
   | Ok c => hostPort address = true /\ ∃ given, config = Some given /\ InsecureSkipVerify c = false /\ ServerName c = ServerName given /\ ServerName c ≠ "" /\
       RootCAs c = RootCAs given /\ RootCAs c ≠ None /\ (Certificates c ≠ [] \/ GetClientCertificate c = true) /\
       MinVersion c = VersionTLS13 /\ (MaxVersion c = 0 \/ VersionTLS13 <= MaxVersion c) /\ NextProtos c = [Protocol] /\ ClientSessionCache c = false
   | Err e => errors_is e ErrTrust = true end) /\
  (∀ s, match serverConfig s with
   | Ok c => ∃ given, TLS s = Some given /\ ClientAuth c = RequireAndVerifyClientCert /\ ClientCAs c = ClientCAs given /\ ClientCAs c ≠ None /\
       GetConfigForClient c = false /\ (Certificates c ≠ [] \/ GetCertificate c = true) /\ hasHandler s = true /\
       MinVersion c = VersionTLS13 /\ (MaxVersion c = 0 \/ VersionTLS13 <= MaxVersion c) /\ NextProtos c = [Protocol] /\ SessionTicketsDisabled c = true /\
       0 < serveConnections s /\ 0 < serveTimeout s
   | Err e => errors_is e ErrTrust = true end).
Proof.
  split.
  - intros address config. unfold Client. destruct (hostPort address); [|done]. destruct config as [c|]; [|done]. cbn [negb]. unfold clientConfig. destruct (RootCAs c) as [roots|] eqn:Er; [|done]. destruct (_ || _ || _) eqn:E; [done|].
    to_prop. cbv zeta. destruct (negb _ && _) eqn:Ev; [done|]. cbn in Ev |- *. split; [done|]. exists c. rewrite Er. split_and!; try done.
    + destruct (Certificates c); [right; by destruct (GetClientCertificate c)|by left].
    + destruct (MaxVersion c =? 0) eqn:E0; cbn in Ev; to_prop; [by left|right; lia].
  - intros s. unfold serverConfig. destruct (TLS s) as [c|]; [|done]. destruct (ClientCAs c) as [roots|] eqn:Er; [|done].
    destruct (_ || _ || _ || _ || _) eqn:E; [done|]. to_prop. cbv zeta. destruct (negb _ && _) eqn:Ev; [done|]. cbn in Ev |- *. exists c. rewrite Er.
    split_and!; try done.
    + destruct (Certificates c); [right; by destruct (GetCertificate c)|by left].
    + destruct (MaxVersion c =? 0) eqn:E0; cbn in Ev; to_prop; [by left|right; lia].
    + unfold serveConnections. destruct (MaxConnections s =? 0) eqn:E0; to_prop; lia.
    + unfold serveTimeout. destruct (Timeout s =? 0) eqn:E0; to_prop; [reflexivity|lia].
Qed.

(** ** Serving *)

(** [Serve] while it runs: the calls that hold a place, those that gave it back and are
    not joined yet, the connections refused for want of one, and what it returns once
    [Accept] failed. *)
Record serving := mkServing { sv_calls : nat; sv_leaving : nat; sv_refused : nat; sv_ending : option err; sv_returned : bool }.

Inductive serve_step (max : nat) : serving → serving → Prop :=
| sv_accepts s : sv_ending s = None → (sv_calls s < max)%nat →
    serve_step max s (mkServing (S (sv_calls s)) (sv_leaving s) (sv_refused s) None false)
| sv_refuses s : sv_ending s = None → (max <= sv_calls s)%nat →
    serve_step max s (mkServing (sv_calls s) (sv_leaving s) (S (sv_refused s)) None false)
| sv_place_back s n : sv_calls s = S n →
    serve_step max s (mkServing n (S (sv_leaving s)) (sv_refused s) (sv_ending s) (sv_returned s))
| sv_joined s n : sv_leaving s = S n →
    serve_step max s (mkServing (sv_calls s) n (sv_refused s) (sv_ending s) (sv_returned s))
| sv_accept_fails s e ctxErr : sv_ending s = None →
    serve_step max s (mkServing (sv_calls s) (sv_leaving s) (sv_refused s) (Some (match ctxErr with Some c => c | None => e end)) false)
| sv_returns s e : sv_ending s = Some e → sv_calls s = 0%nat → sv_leaving s = 0%nat →
    serve_step max s (mkServing 0 0 (sv_refused s) (Some e) true).

Definition serve_start : serving := mkServing 0 0 0 None false.

(** [Serve] never runs more calls than its limit, refuses a connection only when that many run, accepts nothing
    after [Accept] failed, and returns when every call it admitted has ended. *)
Theorem serve_joins_calls max s : rtc (serve_step max) serve_start s →
  (sv_calls s <= max)%nat /\
  (sv_returned s = true → sv_calls s = 0%nat /\ sv_leaving s = 0%nat /\ is_Some (sv_ending s)) /\
  (∀ s', serve_step max s s' → (sv_refused s < sv_refused s')%nat → sv_calls s = max) /\
  (∀ s' e, sv_ending s = Some e → serve_step max s s' → sv_ending s' = Some e /\ (sv_calls s' <= sv_calls s)%nat).
Proof.
  intros Hr. assert ((sv_calls s <= max)%nat /\ (sv_returned s = true → sv_calls s = 0%nat /\ sv_leaving s = 0%nat /\ is_Some (sv_ending s))) as [Hc Hret].
  { revert s Hr. apply rtc_ind_r; [split; [cbn; lia|done]|]. intros x y _ Hs [H1 H2].
    destruct Hs; cbn in *; (split; [lia|]); intros Hret; try done; try (destruct (H2 Hret) as (? & ? & ?); lia); eauto. }
  split_and!; [done|done| |].
  - intros s' Hs Hlt. destruct Hs; cbn in *; lia.
  - intros s' e He Hs. destruct Hs; cbn in *; try congruence; (split; [congruence|lia]).
Qed.

Lemma serve_joins_calls_witness : (sv_calls serve_start <= 64)%nat.
Proof. apply (serve_joins_calls 64 serve_start). apply rtc_refl. Defined.
