(* ===== verification/VolumesDarwin.v ===== *)
(** localpath_darwin.go: which volumes of macOS are local, where volumes are mounted, and
    the other spellings of paths below the root.

    The kernel and the two folders are a system that answers questions with anything. *)

From S2P Require Import Prelude GoStrings GoError GoBinary GoFilepath LocalPath Events.

Definition MNT_LOCAL : Z := 0x1000.
Definition errVolumeNotLocal : err := Plain "its volume is not a local file system (no MNT_LOCAL)".

(** [volumeAnswer] on macOS, of the flags [statfs] read. *)
Definition volumeAnswerDarwin (flags : Z) : option err :=
  if Z.land flags MNT_LOCAL =? 0 then Some errVolumeNotLocal else None.

(** An entry of a folder, by name and type. *)
Record dirEntry := mkEntryD { de_name : string; de_symlink : bool }.

Inductive vask : Type → Type :=
| Getfsstat (room : option Z) : vask (result (Z * list (list byte)))
| ReadFirmlinks : vask (result string)
| ReadRoot : vask (result (list dirEntry))
| ReadLink (p : string) : vask (result string).

Inductive vevent : Type :=
| VEv (A : Type) (q : vask A) (a : A).
Arguments VEv {A} _ _.

Definition dataVolume : string := "/System/Volumes/Data".
Definition tab : ascii := "009"%char.

(** [unix.ByteSliceToString]: the bytes before the first NUL. *)
Fixpoint byteSliceToString (bs : list byte) : string :=
  match bs with
  | [] => ""
  | b :: bs => if bz b =? 0 then "" else String (ascii_of_byte b) (byteSliceToString bs)
  end.

(** The alias a line of the firmlinks file gives. *)
Definition firmlink (line : string) : option alias :=
  match Cut (TrimSpace line) tab with
  | None => None
  | Some (from, to) =>
      if negb (HasPrefix from "/") || String.eqb from "/" || String.eqb to "" then None
      else Some (mkAlias (Clean from) (JoinPath dataVolume to))
  end.

(** The alias a link of the root folder with this target gives. *)
Definition rootLink (name target : string) : option alias :=
  let target := Clean (if negb (IsAbs target) then JoinPath "/" target else target) in
  if String.eqb target "/" then None else Some (mkAlias (JoinPath "/" name) target).

Section Volumes.
Context (W : ∀ A, vask A → list vevent → A).

Definition vdo {A} (q : vask A) : Hist vevent A := act (W A q) (VEv q).

(** [systemMountPoints]: the second call fills at most the entries it was given. *)
Definition systemMountPoints : Hist vevent (result (list string)) :=
  n ← vdo (Getfsstat None);
  match n with
  | Err e => mret (Err e)
  | Ok (n, _) =>
      r ← vdo (Getfsstat (Some (n + 8)));
      mret (match r with
            | Err e => Err e
            | Ok (n, names) => Ok (byteSliceToString <$> take (Z.to_nat n) names)
            end)
  end.

(** The loop over the entries of the root folder. *)
Fixpoint rootLinks (entries : list dirEntry) (aliases : list alias) : Hist vevent (list alias) :=
  match entries with
  | [] => mret aliases
  | e :: entries =>
      if negb (de_symlink e) then rootLinks entries aliases
      else
        target ← vdo (ReadLink (JoinPath "/" (de_name e)));
        rootLinks entries (aliases ++ match target with
                                      | Ok target => match rootLink (de_name e) target with Some a => [a] | None => [] end
                                      | Err _ => []
                                      end)
  end.

(** [systemRootAliases]. *)
Definition systemRootAliases : Hist vevent (result (list alias)) :=
  data ← vdo ReadFirmlinks;
  match (match data with
         | Ok text => Ok text
         | Err e => if errors_is e FsErrNotExist then Ok "" else Err e
         end) with
  | Err e => mret (Err e)
  | Ok text =>
      let aliases := omap firmlink (Split text newline) in
      entries ← vdo ReadRoot;
      match entries with
      | Err _ => mret (Ok aliases)
      | Ok entries => all ← rootLinks entries aliases; mret (Ok all)
      end
  end.

(** ** What is shown *)

(** An alias between clean absolute paths. *)
Definition alias_ok (a : alias) : Prop :=
  (∃ cs, clean_list true cs /\ a_from a = render true cs) /\ (∃ cs, clean_list true cs /\ a_to a = render true cs).

Lemma firmlink_ok line a : firmlink line = Some a → alias_ok a.
Proof.
  unfold firmlink. destruct (Cut _ _) as [[from to]|]; [|done]. destruct (_ || _ || _) eqn:E; [done|]. to_prop. intros [= <-]. split; cbn [a_from a_to].
  - by apply Clean_abs.
  - exact (JoinPath_abs dataVolume to eq_refl).
Qed.

Lemma rootLink_ok name target a : rootLink name target = Some a → alias_ok a /\ a_to a ≠ "/".
Proof.
  unfold rootLink. cbv zeta. set (t := if negb (IsAbs target) then _ else _). destruct (String.eqb_spec (Clean t) "/") as [|Hne]; [done|].
  intros [= <-]. split; [split; cbn [a_from a_to]|done].
  - exact (JoinPath_abs "/" name eq_refl).
  - apply Clean_abs. unfold t. destruct (IsAbs target) eqn:E; cbn [negb]; [done|].
    destruct (JoinPath_abs "/" target eq_refl) as (cs & Hc & ->). by apply render_IsAbs.
Qed.

(** A read of a link, when it is one of the root's entries. *)
Definition reads_links (entries : list dirEntry) (e : vevent) : Prop :=
  match e with VEv (ReadLink p) _ => ∃ entry, entry ∈ entries /\ de_symlink entry = true /\ p = JoinPath "/" (de_name entry) | VEv _ _ => True end.

Lemma rootLinks_runs entries aliases h : Forall alias_ok aliases →
  adds (rootLinks entries aliases) (λ r new, Forall alias_ok r /\ aliases `prefix_of` r /\ Forall (reads_links entries) new) h.
Proof.
  revert aliases h. induction entries as [|e entries IH]; intros aliases h Ha; cbn [rootLinks]; [by adds_step|].
  assert (∀ x, reads_links entries x → reads_links (e :: entries) x) as Hmono.
  { intros [A q a]. destruct q; cbn; [done..|]. intros (x & ? & ?). exists x. set_solver. }
  destruct (de_symlink e) eqn:Es; cbn [negb].
  - unfold vdo. do 2 adds_step. set (target := W _ (ReadLink _) h). set (more := match target with Ok _ => _ | Err _ => _ end).
    eapply adds_mono; [|apply (IH (aliases ++ more))].
    + intros r new (Hr & Hp & Hf). split_and!; [done|by eapply prefix_app_l|]. constructor; [exists e; set_solver|]. eapply Forall_impl; [exact Hf|auto].
    + apply Forall_app. split; [done|]. unfold more. destruct target as [t|]; [|done]. destruct (rootLink (de_name e) t) eqn:El; [|done].
      constructor; [by eapply rootLink_ok|done].
  - eapply adds_mono; [|by apply IH]. intros r new (Hr & Hp & Hf). split_and!; [done|done|]. eapply Forall_impl; [exact Hf|auto].
Qed.

(** C40: the other spellings of macOS are between clean absolute paths, and no mount point below the root is looked up
    to find them: besides the firmlinks file and the root folder, only entries of the root that are links are read. *)
Theorem root_aliases_of_links h : adds systemRootAliases (λ r new,
  (∀ aliases, r = Ok aliases → Forall alias_ok aliases) /\
  ∃ entries, Forall (reads_links entries) new /\ (entries = [] \/ VEv ReadRoot (Ok entries) ∈ new)) h.
Proof.
  unfold systemRootAliases, vdo. do 2 adds_step.
  destruct (match W _ ReadFirmlinks h with Ok _ => _ | Err _ => _ end) as [text|e].
  2: { adds_step. split; [done|]. exists []. split; [by repeat constructor|by left]. }
  cbv zeta. assert (Forall alias_ok (omap firmlink (Split text newline))) as Hf.
  { apply Forall_forall. intros a (line & _ & Hl)%list_elem_of_omap. by eapply firmlink_ok. }
  do 2 adds_step. destruct (W _ ReadRoot _) as [entries|e].
  - adds_step. eapply adds_mono; [|by apply rootLinks_runs]. intros r new (Hr & _ & Hl). adds_step. split; [by intros ? [= <-]|].
    exists entries. rewrite app_nil_r. split; [all_events|]. right. set_solver.
  - adds_step. split; [by intros ? [= <-]|]. exists []. split; [by repeat constructor|by left].
Qed.

(** The guard against an alias of the root looks at the spelling before it is cleaned. *)
Example firmlink_of_the_root : firmlink ("//" +:+ of_char tab +:+ "Users") = Some (mkAlias "/" "/System/Volumes/Data/Users").
Proof. reflexivity. Qed.
End Volumes.
