(* ===== verification/OtherPlatforms.v ===== *)
(** The files of the builds without a platform: identity_other.go, loopback_other.go,
    server_other.go, unixserver_other.go, sockets_other.go, filekey_other.go,
    filecode_other.go, server_admission_other.go, localpath_plain.go, program_other.go,
    transport_xpc_other.go, privatedir's models_nocheck.go and trustedpath_other.go.

    [goos] is [runtime.GOOS]. *)

From S2P Require Import Prelude GoStrings GoError GoFilepath ProofLadder Peer PathIdentity.

Definition unimplementedWhy : string :=
  "this operating system is not supported; no peer identity is available at any strength".

(** [ceiling]. *)
Definition ceilingOther : Limits :=
  mkLimits "unsupported" (mkNeed ProofNone ProofNone ProofNone ProofNone ProofNone)
    (list_to_map ((λ k, (k, unimplementedWhy)) <$> ["user"; "process"; "path"; "package"; "code"])) "none" false unimplementedWhy "".

(** [loopbackCeiling]. *)
Definition loopbackCeilingOther : Limits :=
  mkLimits (LPlatform ceilingOther) (Best ceilingOther) (Why ceilingOther) "tcp-loopback" (Bindable ceilingOther) (LBinding ceilingOther) (Stronger ceilingOther).

(** [ofHandle], [bindHandle] and [bindLoopback]. *)
Definition ofHandleOther : result Peer := Err (Sentinel ErrUnimplemented).
Definition bindHandleOther : result (unit * Peer) := Err (Sentinel ErrUnimplemented).
Definition bindLoopbackOther : result (unit * Peer) := Err (Sentinel ErrUnimplemented).

(** [bindServerHandle] and [bindUnixServer]. *)
Definition bindServerHandleOther : result (unit * Peer) := Err (Sentinel ErrNoBinding).
Definition bindUnixServerOther (goos : string) : result (unit * Peer) :=
  Err (Wrap ("AF_UNIX server binding on " +:+ goos) [Sentinel ErrNoBinding]).

(** [Sockets], [AllSockets] and [processCreation]. *)
Definition SocketsOther (goos : string) : result (list unit) := Err (Wrap ("socket owner tables on " +:+ goos) [Sentinel ErrNoBinding]).
Definition AllSocketsOther (goos : string) : result (list unit) := Err (Wrap ("socket owner tables on " +:+ goos) [Sentinel ErrNoBinding]).
Definition processCreationOther (goos : string) : result Time := Err (Wrap ("process creation time on " +:+ goos) [Sentinel ErrNoBinding]).

(** [verifyPathFile] off Windows, [xpcCeiling] off macOS, [AdmitServerQueries] off Windows. *)
Definition verifyPathFileOther : result (Code * ProofLevel) := Err (Sentinel ErrUnimplemented).
Definition xpcCeilingOther : result Limits := Err (Wrap "XPC requires macOS 12 or newer and cgo" [Sentinel ErrUnsupportedConn]).
Definition AdmitServerQueriesOther : result unit := Err (Plain "identity: AppContainer server query admission requires Windows").

(** [protectModels], [checkModels], [checkRoot] and [CheckFile], [CheckExecutable]. *)
Definition protectModelsOther (goos : string) : option err := Some (Plain ("no owner rule on " +:+ goos)).
Definition checkModelsOther (goos : string) : option err := Some (Plain ("no owner check on " +:+ goos)).
Definition checkRootOther (goos : string) : option err := Some (Plain ("no models root rule on " +:+ goos)).
Definition CheckFileOther (goos path : string) : option err :=
  Some (Wrap (path +:+ ": no owner and access check on " +:+ goos) [Sentinel ErrUntrusted]).
Definition CheckExecutableOther (goos path : string) : option err := CheckFileOther goos path.

(** [localPath] of localpath_plain.go and [fileKey] of filekey_other.go. *)
Definition localPathOther (path : string) : option err := if String.eqb path "" then Some (Plain "identity: empty path") else None.
Definition fileKeyOther (path : string) : result string := Err (Plain ("identity: no file identity on this platform for " +:+ path)).
Definition packagePathOther : result string := Err (Plain "identity: MSIX packages are Windows only").

(** That build over a file system. *)
Definition otherFS (links : string → result string) (present : string → bool) (wd : result string) : FileSystem :=
  {| localPath := localPathOther;
     fileKey := fileKeyOther;
     pathExists := present;
     resolveLinks := links;
     lstatMissing p := negb (present p);
     getwd := wd;
     samePathName := String.eqb;
     pathNameKey p := p;
     canonicalProgramPath p := p;
     packageInstallPath _ := packagePathOther |}.

(** A build without a platform promises nothing it cannot keep. Its ceilings accept exactly the policies that ask
    for no proof at all, which every peer meets; it takes no two paths for one file and no path to be inside another,
    not even a path and itself; and it trusts no file and no folder. *)
Theorem no_platform_proves_nothing links present wd goos :
  (∀ l n, l ∈ [ceilingOther; loopbackCeilingOther] → LimitsCanEver l n = None ↔ ∀ k, need_of n k <= ProofNone) /\
  (∀ a b same, @SameFile (otherFS links present wd) a b = Ok same → False) /\
  (∀ a b r, @WithinRel (otherFS links present wd) a b = Ok r → False) /\
  (∀ p key, @FileKey (otherFS links present wd) p = Ok key → False) /\
  (∀ p, CheckFileOther goos p ≠ None /\ CheckExecutableOther goos p ≠ None) /\ checkModelsOther goos ≠ None /\ checkRootOther goos ≠ None.
Proof.
  split_and!; try done.
  - intros l n Hl. assert (Best l = mkNeed ProofNone ProofNone ProofNone ProofNone ProofNone) as Hb by (set_unfold; by destruct Hl as [->|[->|[]]]).
    rewrite LimitsCanEver_none, Hb. split; intros Hk k; specialize (Hk k); by destruct k.
  - intros a b same. unfold SameFile. cbn. unfold localPathOther. by repeat case_match.
  - intros a b r. unfold WithinRel. cbn. unfold localPathOther. by repeat case_match.
  - intros p key. unfold FileKey. cbn. unfold localPathOther. by repeat case_match.
Qed.
